(* ===== verification/_CoqProject ===== *)
-Q . S2P
Prelude.v
Crc.v
LogFormat.v
LogBlock.v
Cut.v
SimFs.v
SimFsLaws.v
Lane.v
LaneNames.v
LaneReplay.v
LaneDisk.v
LaneSteps.v
LaneLead.v
LaneOpen.v
LaneSafe.v
LaneTheorems.v
Bloom.v
Run.v
RunRead.v
RunMerge.v
RunFile.v
Value.v
Key.v
L0.v
L0Node.v
L0Arena.v
L0Leaf.v
L0Tree.v
L0Read.v
L0Write.v
L0Split.v
L0Grow.v
L0Insert.v
L0Key.v
L0Map.v
L0Theorems.v
Free.v
FreeList.v
Undo.v
UndoWords.v
UndoAlloc.v
Deletes.v
Hot.v
HotCells.v
DeletesLaws.v
DeletesFile.v
DeletesTheorems.v
HotChain.v
HotRow.v
HotStore.v
HotWorld.v
HotTheorems.v
HotPart.v
Horizon.v
HorizonRace.v
HorizonAlone.v
Collect.v
Prune.v
Regex.v
RegexRun.v
RegexDfs.v
RegexPike.v
RegexBack.v
RegexFirst.v
RegexAgree.v
RegexMatch.v
RegexCompile.v
RegexProgram.v
RegexTree.v
RegexTail.v
RegexReplace.v
RegexParse.v
RegexPattern.v
RegexTheorems.v
Lz.v
Bitpack.v
BitpackLaws.v
BitpackTail.v
Integer.v
IntegerLaws.v
