(* ===== verification/Prelude.v ===== *)
(** * Verification of rudb: the commit log, the indexes, row versions, file space, encodings and regular expressions

    rudb is an embedded analytical database in Rust. This development models the parts of it that
    keep what a commit was told is kept, and that find it again:

    - the commit log of [rudb-txn/src/log]: the checksum, the bytes of segments and records, the
      lane that appends blocks to segment files, the cut that decides when a commit that spans
      lanes may be acknowledged, and replay, over the simulated filesystem of [rudb-io/src/sim.rs],
      which says what a crash may lose;
    - the indexes of [rudb-index/src]: keys written as bytes that sort as the values do, the
      in-memory tree that takes new entries, the sorted runs it is flushed to, their bloom filters,
      their file format, lookups, ranges and merges;
    - the rows that are still written, of [rudb-storage/src]: the hot stripe with its cells, its row
      locks and the undo chains that keep older versions, the delete vector, the horizons that say
      which snapshots are still read, and the collector that takes undo records back;
    - the free space of a native file, [rudb-native/src/free.rs]: which bytes a commit may write
      into while readers are still at older generations;
    - the encodings of integers and strings, [rudb-encoding/src]: packing at the width in bits that
      is needed, the cascade that writes a chunk of integers the smallest way it finds, and the match
      finder of the string encodings;
    - the regular expression engine, [rudb-regex/src]: the parser of patterns, the compiler to a
      program, the two machines that run one, and searching and replacing with them.

    They meet where one calls the other. A lane encodes blocks with the log format, writes them
    through the filesystem, and replay decodes what a crash left. A row becomes a key with [Key], an
    entry of the tree with [L0], and an entry of a run when the tree is flushed; the theorem on the
    flush says a lookup is the same in both. A run is stored in its file format and read back. A
    write to a hot stripe claims the row, pushes a record into a worker's chunk of the undo space and
    writes the cell; a reader undoes what it may not see; the collector asks the horizons who reads
    and, through the [Heads] interface that the stripe directory implements, cuts the chains. A
    chunk of integers ends in packed units, each packed with [Bitpack] over its least value, and asks
    a chooser, an interface, which kinds to try. The regular expression engine and the match finder
    stand alone: text in, positions out.

    ** Files

    - [Prelude]: machine integers as [Z] with their wrap written out, bytes in both orders, byte
      strings and their order, byte strings as the numbers they spell, results with errors, panics as
      [None], the tactics and the hints.
    - [Crc]: [log/crc.rs] and [rudb-io/src/crc.rs].
    - [LogFormat]: [log/format.rs]. [LogBlock]: blocks of [log/lane.rs] and [read_blocks] of
      [log/replay.rs].
    - [Cut]: [log/cut.rs].
    - [SimFs]: [rudb-io/src/sim.rs] and the [File] trait; [SimFsLaws]: what its operations keep.
    - [Lane]: [log/lane.rs] and [log/replay.rs], each operation a function of a small monad over
      the filesystem; [LaneNames], [LaneReplay], [LaneDisk], [LaneSteps], [LaneLead], [LaneOpen],
      [LaneSafe]: the names, the reading, the invariant of the disk and its steps;
      [LaneTheorems]: the theorems.
    - [Bloom]: [rudb-index/src/bloom.rs]. [Run]: [rudb-index/src/run.rs]; [RunRead], [RunMerge],
      [RunFile]: reading, merging and the file of a run.
    - [Value]: the data of [rudb-common/src/value.rs] and [types.rs]. [Key]:
      [rudb-index/src/key.rs].
    - [L0]: [rudb-index/src/l0.rs]. [L0Node], [L0Arena], [L0Leaf]: one node and the arena.
      [L0Tree]: the invariant, level by level. [L0Read], [L0Write]: scans, and writes within a leaf.
      [L0Split], [L0Grow], [L0Insert]: splits and the whole of insert. [L0Key], [L0Map]: the words
      of a key, and the map a tree stands for. [L0Theorems]: the theorems, and a race.
    - [Free]: [rudb-native/src/free.rs]; [FreeList]: its codec and [placed_catalog] of
      [rudb-native/src/lib.rs].
    - [Undo]: [rudb-storage/src/undo.rs], the space, its records and buffers; [UndoWords],
      [UndoAlloc]: the words of a record, and what a buffer's write leaves of the others.
    - [Deletes]: [deletes.rs]; [DeletesLaws], [DeletesFile], [DeletesTheorems]: its containers, their
      file, and the vector as a map of stamps.
    - [Hot], [HotCells]: [hot.rs]; [HotChain], [HotRow], [HotStore], [HotWorld]: a chain as a list of
      records, one row, the multiversion store it refines, and the whole stripe; [HotTheorems],
      [HotPart]: the theorems, and reads of a part at a time.
    - [Horizon]: [horizon.rs], each call and its atomic steps; [HorizonRace]: what holds however the
      steps interleave; [HorizonAlone]: a call alone is its steps.
    - [Collect]: the collector of [undo.rs] over [Heads], with the instance of [stripes.rs];
      [Prune]: interval pruning, and two rounds that lose a version.
    - [Regex]: the tree of [rudb-regex/src/parse.rs] and [compile.rs]; [RegexRun]: [vm.rs],
      [bitstate.rs] and the searching and replacing of [lib.rs]; [RegexParse]: the parser of
      [parse.rs] and the ways in of [lib.rs]. [RegexDfs]: positions of a text, and the search
      both machines do, as a relation; [RegexPike], [RegexBack], [RegexFirst], [RegexAgree]: each
      machine is that search, the prefilter passes over nothing, so the two agree. [RegexMatch]: what
      a tree matches, [means], and sets; [RegexCompile], [RegexProgram], [RegexTree]:
      pieces of code and what each shape emits, whole programs and whole trees.
      [RegexTail], [RegexReplace]: a trailing [.*$], and replacing. [RegexPattern]: what the
      parser accepts, and complements. [RegexTheorems]: patterns with their options, and the theorems.
    - [Lz]: [rudb-encoding/src/lz.rs]. [Bitpack]: [bitpack.rs]; [BitpackLaws]: the layout of a unit,
      bit by bit; [BitpackTail]: tails, and the theorems. [Integer]: [integer.rs], [reader.rs] and the
      chooser's interface; [IntegerLaws]: each kind, the cascade, any bytes, and the theorems.

    ** State and operations

    A struct is a record, an enum an inductive type, a method a function named for its type and
    itself ([Run_find] is [Run::find]) that takes and answers the state. Errors are values of
    [Result]; a panic (an index out of range, an [expect]) is [None], and the theorems show that it
    does not happen. The text of an error message is the source's without the values formatted into
    it, save for the pattern parser's, which quote the pattern. A lane's threads are steps of a relation ([LaneSteps]), interleaved in any order. The readers
    of the in-memory tree run against a history of it, a state for each tick of their clock.

    ** What the theorems show

    - Durability. Through any interleaving of committers and leaders, with any operation failing,
      a crash leaves a log that replays to a prefix of what was queued with everything that was
      acknowledged; the same over many lives of a lane; opening a lane loses nothing; a commit
      returns; the cut acknowledges exactly what has everything below it noted, after a failure too.
    - Formats. Every decoder answers a value exactly for the bytes its encoder writes: records,
      segment headers, blocks, runs, free lists. Damage to a record in one byte is noticed, and a
      record left by an earlier life of its segment is not read. The three checksum loops are the
      bitwise definition.
    - Indexes. Keys sort as rows do, bit strings apart, and are equal when rows are. The in-memory tree refines a finite map: insert (with splits,
      restarts and a new root), remove, find, range. A flush keeps every entry. A run answers
      lookups and ranges as the list of its entries does, merges keep order, and a damaged run never
      makes a reader panic or loop.
    - Versions. From a leased stripe, whatever legal operations its writers run, a reader sees of
      every row the version a multiversion store has at its snapshot; snapshots repeat their reads, no
      update is lost, reads fit their columns, and a part read at once is its rows. The delete vector
      cannot be told from a map of stamps. No horizon passes a reader that has
      kept its snapshot, or one resumed before it was asked for, the snapshots found miss none,
      and an epoch that passed is over, whatever interleaves; pruning leaves every read as it was.
    - Regular expressions. Any text is parsed and compiled to a program within the size limit or
      refused with a message. A program finds exactly what its tree means, at the leftmost place; the
      two machines answer alike in every slot; the shortcut for a trailing [.*$] answers as the whole
      pattern would; replacing ends, keeps what lies between the matches, and gives the text back
      when each match is written as itself; a literal pattern finds itself.
    - Encodings. What is packed unpacks, at every width, and is refused exactly when a value needs more
      bits; every reader of a unit or of a tail answers alike. A chunk of integers is written whatever
      the chooser keeps and reads back, as the smallest of the kinds tried; any bytes are read or
      refused without a panic, and neither more nor less than a chunk is taken for it. The matches
      found in a text rebuild it, and a match out of reach is refused.
    - Space. No commit writes over bytes a reader alive can read, or over those of another write.
    - Where the code and its words part: a run that decodes can make merge panic; the merging of
      free runs can hide a usable one; a lookup in the tree that races with a split can miss a key;
      the collector can leave a row to be read through another row's record, or with one of two
      aborted writes undone; a range that begins at U+E000 makes a complement lose what is below it;
      the keys of bit strings do not sort as bit strings do; a failed lane does not stop the cut; a
      transaction is not held back for between [end] and [resume];
      a place in a tail so far past its end that its bit wraps is read instead of refused.

    ** Fuel and bounds

    Loops with no structural measure take fuel, and the theorems say how much is enough: a run's
    cursor one turn for each byte of its blocks ([fuel_of]); a descent one turn for each node
    ([depth]); an insertion into a tree of [h] levels [2 * h * h] turns, since every turn but the
    last splits a full node of its path and a node that is split may only fill the one above;
    a scan at rest one turn of its outer loop; a walk down an undo chain one turn for each unit of
    the chunks made ([chain_fuel]), since a chain meets no record twice; a question to the horizons
    two steps for each slot and a few; the closure of a thread two turns for each instruction, a try
    of the backtracker three for each instruction at each position ([run_fuel]), a search one for each
    position, a replacement two, the parser's loops one for each character; the match finder one turn for each
    byte, the last bytes of a tail [9], a greatest common divisor [129] since each turn takes a bit from
    one of two words, the cascade of integers [4] levels, and a decoder one level for each byte, as a
    chunk is of five or more. A run on a stripe is bounded by the chunks its records can
    take ([run_weight] below [2 ^ 20]), past which the source panics. A [usize] is a number up to [usize_max]; the 64 and
    32 bit counters wrap as the source's do. Node ids are assumed not to run out during an insertion
    ([a_next] well below [NONE]); what the source does when they do is in the definitions.

    ** Not modelled

    The thread that makes spare segments ahead, statistics, and the spinning of a waiter; segments
    recycled from spares and writes torn within a page in the crash theorems; the memory orderings
    of atomics, and interleavings of two writers of one tree; the parking of a writer that waits for
    a row and the graph of who waits for whom; the text arena of a stripe, images and restore; the
    directory of stripes beyond its hot ones, and the freezer; the PostgreSQL flavour of regular
    expressions, and which of several matches from one place is preferred beyond that both machines
    prefer the same; groups other than the whole match in the theorem on replacing; the depth of the
    call stack (nothing in the bytes bounds how deep chunks of integers nest) and memory that runs out;
    reading integers without making them all, the sampling choosers, and the other encodings; the SQL front end, planner, execution
    engine and query compiler; the columnar file itself; network, foreign formats, bindings and
    tools. The manifest lists every part with its reason.

    ** Plan

    Next: the catalog's sealed sections, which compose keys, runs and their file; reading a chunk of
    integers in part, the strings and floats of [rudb-encoding] and the codecs of [rudb-compress]; the stripe
    directory and the freezer; the crash theorems with spares and torn writes; a reader of the tree that
    checks its parent again, and the theorem that it misses nothing; the order of preference of a tree,
    and the groups of a match, as a meaning of their own. *)

From stdpp Require Export base list list_numbers numbers strings gmap sorting.
From Stdlib Require Export ZArith Lia.

#[global] Set Default Goal Selector "!".

(** * Machine integers

    A fixed width unsigned integer is a [Z] together with the range it fits in, and
    wrap-around is written out with [wrap]. Bytes are the eight bit ones. *)


Definition fits (w x : Z) : Prop := (0 ≤ x < 2 ^ w)%Z.
Definition wrap (w x : Z) : Z := (x `mod` 2 ^ w)%Z.
Definition fitsb (w x : Z) : bool := ((0 <=? x) && (x <? 2 ^ w))%Z.

Abbreviation u8 := (fits 8).
Abbreviation u16 := (fits 16).
Abbreviation u32 := (fits 32).
Abbreviation u64 := (fits 64).

#[global] Instance fits_dec w x : Decision (fits w x).
Proof. unfold fits. apply _. Defined.

Lemma fitsb_spec w x : fitsb w x = true ↔ fits w x.
Proof. unfold fitsb, fits. rewrite andb_true_iff, Z.leb_le, Z.ltb_lt. done. Qed.

Lemma wrap_fits w x : (0 ≤ w)%Z → fits w (wrap w x).
Proof. intros. unfold wrap, fits. apply Z.mod_pos_bound. lia. Qed.

Lemma wrap_id w x : fits w x → wrap w x = x.
Proof. intros. apply Z.mod_small. done. Qed.

(** Bit [i] of a [w] bit value is clear from [w] up. *)
Lemma fits_testbit w x i : fits w x → (w ≤ i)%Z → Z.testbit x i = false.
Proof.
  intros Hx Hi. destruct (decide (i < 0)%Z) as [?|?]; [by apply Z.testbit_neg_r|].
  destruct (decide (x = 0)%Z) as [->|?]; [apply Z.bits_0|].
  unfold fits in Hx. apply Z.bits_above_log2; [lia|].
  destruct (decide (0 ≤ w)%Z) as [?|?].
  - assert (Z.log2 x < w)%Z; [apply Z.log2_lt_pow2; lia|lia].
  - rewrite Z.pow_neg_r in Hx; lia.
Qed.

Lemma fits_of_testbit w x :
  (0 ≤ w)%Z → (0 ≤ x)%Z → (∀ i, (w ≤ i)%Z → Z.testbit x i = false) → fits w x.
Proof.
  intros Hw Hx Hb. assert (x = x `mod` 2 ^ w)%Z as ->; [|by apply wrap_fits].
  apply Z.bits_inj'. intros i Hi.
  destruct (decide (i < w)%Z).
  - by rewrite Z.mod_pow2_bits_low.
  - rewrite Z.mod_pow2_bits_high by lia. apply Hb. lia.
Qed.

Lemma fits_lxor w x y : (0 ≤ w)%Z → fits w x → fits w y → fits w (Z.lxor x y).
Proof.
  intros Hw Hx Hy. apply fits_of_testbit; [done| |].
  - apply Z.lxor_nonneg. unfold fits in *. lia.
  - intros i Hi. by rewrite Z.lxor_spec, (fits_testbit w x), (fits_testbit w y).
Qed.

Lemma fits_land_l w x y : (0 ≤ w)%Z → fits w x → fits w (Z.land x y).
Proof.
  intros Hw Hx. apply fits_of_testbit; [done| |].
  - apply Z.land_nonneg. unfold fits in *. lia.
  - intros i Hi. by rewrite Z.land_spec, (fits_testbit w x).
Qed.

Lemma fits_lor w x y : (0 ≤ w)%Z → fits w x → fits w y → fits w (Z.lor x y).
Proof.
  intros Hw Hx Hy. apply fits_of_testbit; [done| |].
  - apply Z.lor_nonneg. unfold fits in *. lia.
  - intros i Hi. by rewrite Z.lor_spec, (fits_testbit w x), (fits_testbit w y).
Qed.

Lemma fits_shiftr w k x : (0 ≤ k)%Z → fits w x → fits w (x ≫ k)%Z.
Proof.
  intros Hk [? ?]. unfold fits. rewrite Z.shiftr_div_pow2 by done. split.
  - apply Z.div_pos; lia.
  - eapply Z.le_lt_trans; [|done]. apply Z.div_le_upper_bound; [lia|]. nia.
Qed.

Lemma fits_weaken w w' x : (w ≤ w')%Z → fits w x → fits w' x.
Proof.
  intros Hw [? ?]. split; [done|]. eapply Z.lt_le_trans; [done|].
  apply Z.pow_le_mono_r; lia.
Qed.

(** Complement at width [w], the source's [!x]. *)
Definition wnot (w x : Z) : Z := Z.lxor x (Z.ones w).

Lemma fits_ones w : (0 ≤ w)%Z → fits w (Z.ones w).
Proof. intros. unfold fits. rewrite Z.ones_equiv. lia. Qed.

Lemma wnot_fits w x : (0 ≤ w)%Z → fits w x → fits w (wnot w x).
Proof. intros. apply fits_lxor; [done..|]. by apply fits_ones. Qed.

Lemma wnot_involutive w x : wnot w (wnot w x) = x.
Proof. unfold wnot. by rewrite Z.lxor_assoc, Z.lxor_nilpotent, Z.lxor_0_r. Qed.

(** * Bytes in order

    [le_bytes n x] is [x.to_le_bytes()] of an [n] byte integer, [le_val] is [from_le_bytes]. *)

Definition le_bytes (n : nat) (x : Z) : list Z := Z_to_little_endian (Z.of_nat n) 8 x.
Definition le_val (l : list Z) : Z := little_endian_to_Z 8 l.
Definition be_bytes (n : nat) (x : Z) : list Z := reverse (le_bytes n x).
Definition be_val (l : list Z) : Z := le_val (reverse l).

Abbreviation bytes_ok := (Forall u8).

Lemma length_le_bytes n x : length (le_bytes n x) = n.
Proof.
  unfold le_bytes. apply Nat2Z.inj. rewrite length_Z_to_little_endian; lia.
Qed.

Lemma le_bytes_ok n x : bytes_ok (le_bytes n x).
Proof. apply Z_to_little_endian_bound; lia. Qed.

Lemma le_val_bytes n x : fits (8 * Z.of_nat n) x → le_val (le_bytes n x) = x.
Proof.
  intros. unfold le_val, le_bytes.
  rewrite little_endian_to_Z_to_little_endian by lia.
  rewrite Z.mul_comm. by apply wrap_id.
Qed.

Lemma le_bytes_val n l : length l = n → bytes_ok l → le_bytes n (le_val l) = l.
Proof. intros. unfold le_val, le_bytes. apply Z_to_little_endian_to_Z; [lia|lia|done]. Qed.

Lemma le_val_fits l : bytes_ok l → fits (8 * Z.of_nat (length l)) (le_val l).
Proof.
  intros. unfold fits, le_val.
  pose proof (little_endian_to_Z_bound 8 l ltac:(lia) H) as Hb.
  rewrite Z.mul_comm. done.
Qed.

Lemma length_be_bytes n x : length (be_bytes n x) = n.
Proof. unfold be_bytes. by rewrite length_reverse, length_le_bytes. Qed.

Lemma be_val_bytes n x : fits (8 * Z.of_nat n) x → be_val (be_bytes n x) = x.
Proof. intros. unfold be_val, be_bytes. rewrite reverse_involutive. by apply le_val_bytes. Qed.

Lemma le_val_cons b l : le_val (b :: l) = Z.lor b (Z.shiftl (le_val l) 8).
Proof. done. Qed.
Lemma le_val_nil : le_val [] = 0%Z.
Proof. done. Qed.

#[global] Opaque le_bytes be_bytes le_val be_val.

(** * Slices

    A [usize] is a [Z]; [zlen] is the length of a slice or of a [Vec]. [slice a b l] is
    [&l[a..b]] where the bounds are known to be in range, [get_range a b l] is [l.get(a..b)]. *)

Definition zlen {A} (l : list A) : Z := Z.of_nat (length l).

Definition slice {A} (a b : Z) (l : list A) : list A :=
  take (Z.to_nat (b - a)) (drop (Z.to_nat a) l).

Definition get_range {A} (a b : Z) (l : list A) : option (list A) :=
  if ((0 <=? a) && (a <=? b) && (b <=? zlen l))%Z then Some (slice a b l) else None.

Definition get_to {A} (b : Z) (l : list A) : option (list A) := get_range 0 b l.
Definition get_from {A} (a : Z) (l : list A) : option (list A) := get_range a (zlen l) l.

(** [l[i]] where [i] is known to be in range. *)
Definition byte_at (l : list Z) (i : Z) : Z := default 0%Z (l !! Z.to_nat i).

(** [l[at..at + data.len()].copy_from_slice(data)]. *)
Definition put_slice {A} (at_ : Z) (data l : list A) : list A :=
  take (Z.to_nat at_) l ++ data ++ drop (Z.to_nat at_ + length data) l.

#[global] Arguments slice : simpl never.
#[global] Arguments get_range : simpl never.
#[global] Arguments put_slice : simpl never.
#[global] Arguments byte_at : simpl never.

(** The next step of a computation in the option monad, the first having answered. *)
Lemma some_bind {A B} (f : A → option B) x : Some x ≫= f = f x.
Proof. done. Qed.
Ltac bind_step := rewrite some_bind; cbv beta zeta.

Create HintDb zlen.

Section zlen_facts.
Context {A : Type}.
Implicit Types l : list A.

Lemma zlen_nonneg l : (0 ≤ zlen l)%Z.
Proof. unfold zlen. lia. Qed.
Lemma zlen_app l l' : zlen (l ++ l') = (zlen l + zlen l')%Z.
Proof. unfold zlen. rewrite length_app. lia. Qed.
Lemma zlen_cons x l : zlen (x :: l) = (1 + zlen l)%Z.
Proof. unfold zlen. rewrite length_cons. lia. Qed.
Lemma zlen_nil : zlen (@nil A) = 0%Z.
Proof. done. Qed.
Lemma zlen_replicate n x : zlen (@replicate A n x) = Z.of_nat n.
Proof. unfold zlen. by rewrite length_replicate. Qed.
Lemma zlen_take n l : zlen (take n l) = Z.min (Z.of_nat n) (zlen l).
Proof. unfold zlen. rewrite length_take. lia. Qed.
Lemma zlen_drop n l : zlen (drop n l) = Z.max 0 (zlen l - Z.of_nat n).
Proof. unfold zlen. rewrite length_drop. lia. Qed.
Lemma zlen_slice a b l :
  (0 ≤ a ≤ b)%Z → (b ≤ zlen l)%Z → zlen (slice a b l) = (b - a)%Z.
Proof. intros. unfold slice. rewrite zlen_take, zlen_drop. lia. Qed.
Lemma zlen_fmap {B} (f : B → A) (l : list B) : zlen (f <$> l) = zlen l.
Proof. unfold zlen. by rewrite length_fmap. Qed.

Lemma nil_zlen l : zlen l = 0%Z → l = [].
Proof. unfold zlen. destruct l; [done|]. simpl. lia. Qed.
End zlen_facts.

Lemma zlen_le_bytes n x : zlen (le_bytes n x) = Z.of_nat n.
Proof. unfold zlen. by rewrite length_le_bytes. Qed.
Lemma zlen_be_bytes n x : zlen (be_bytes n x) = Z.of_nat n.
Proof. unfold zlen. by rewrite length_be_bytes. Qed.

#[export] Hint Rewrite @zlen_app @zlen_cons @zlen_nil @zlen_replicate @zlen_take @zlen_drop
  @zlen_fmap zlen_le_bytes zlen_be_bytes : zlen.

(** Closes a goal about the lengths of lists built from known parts. *)
Ltac zlen_pos l :=
  lazymatch goal with
  | _ : (0 ≤ zlen l)%Z |- _ => fail
  | _ => pose proof (zlen_nonneg l)
  end.
Ltac zlen_lia :=
  autorewrite with zlen in *;
  repeat match goal with
  | |- context [zlen ?l] => zlen_pos l
  | _ : context [zlen ?l] |- _ => zlen_pos l
  end;
  lia.

Section slice_facts.
Context {A : Type}.
Implicit Types l pre post : list A.

Lemma slice_skip a b pre l :
  (zlen pre ≤ a ≤ b)%Z → slice a b (pre ++ l) = slice (a - zlen pre) (b - zlen pre) l.
Proof.
  intros Hab. unfold slice. unfold zlen in *.
  rewrite drop_app_ge by lia. f_equal; [lia|]. f_equal. lia.
Qed.

Lemma slice_hit a b l post : a = 0%Z → b = zlen l → slice a b (l ++ post) = l.
Proof. intros -> ->. replace (zlen l - 0)%Z with (zlen l) by lia. unfold slice, zlen. rewrite drop_0, take_app_length'; [done|lia]. Qed.

Lemma slice_all a b l : a = 0%Z → b = zlen l → slice a b l = l.
Proof. intros -> ->. replace (zlen l - 0)%Z with (zlen l) by lia. unfold slice, zlen. rewrite drop_0, take_ge; [done|lia]. Qed.

Lemma slice_in a b l post : (0 ≤ a)%Z → (b ≤ zlen l)%Z → slice a b (l ++ post) = slice a b l.
Proof.
  intros Ha Hb. unfold slice, zlen in *.
  destruct (decide (a < b)%Z) as [?|?].
  - rewrite drop_app_le, take_app_le; [done|rewrite ?length_drop; lia..].
  - replace (Z.to_nat (b - a)) with 0%nat by lia. by rewrite !take_0.
Qed.

Lemma slice_split a b c l :
  (0 ≤ a ≤ b)%Z → (b ≤ c)%Z → slice a c l = slice a b l ++ slice b c l.
Proof.
  intros. unfold slice.
  rewrite <-(take_drop (Z.to_nat (b - a)) (take (Z.to_nat (c - a)) (drop (Z.to_nat a) l))).
  rewrite take_take, skipn_firstn_comm, drop_drop. f_equal; f_equal; [lia..|f_equal; lia].
Qed.

Lemma slice_drop a l : slice 0 a l ++ drop (Z.to_nat a) l = l.
Proof. unfold slice. rewrite Z.sub_0_r, drop_0. apply take_drop. Qed.

Lemma slice_self l : slice 0 (zlen l) l = l.
Proof. by apply slice_all. Qed.

Lemma slice_take a b n l :
  (b ≤ Z.of_nat n)%Z → (0 ≤ a)%Z → slice a b (take n l) = slice a b l.
Proof.
  intros. rewrite <-(take_drop n l) at 2. destruct (decide (n ≤ length l)) as [?|?].
  - rewrite slice_in; [done|done|]. unfold zlen. rewrite length_take. lia.
  - by rewrite take_ge, drop_ge, app_nil_r by lia.
Qed.

Lemma slice_slice a b c d l :
  (0 ≤ a)%Z → (0 ≤ c)%Z → (d ≤ b - a)%Z → slice c d (slice a b l) = slice (a + c) (a + d) l.
Proof.
  intros. unfold slice at 2. rewrite slice_take by lia. unfold slice.
  rewrite drop_drop. f_equal; [lia|]. f_equal. lia.
Qed.

Lemma get_range_Some a b l s :
  get_range a b l = Some s ↔ (0 ≤ a ≤ b)%Z ∧ (b ≤ zlen l)%Z ∧ s = slice a b l.
Proof.
  unfold get_range. destruct (_ && _ && _)%bool eqn:E.
  - rewrite !andb_true_iff, !Z.leb_le in E. naive_solver.
  - split; [done|]. intros (?&?&_).
    assert ((0 <=? a) && (a <=? b) && (b <=? zlen l) = true)%Z; [|congruence].
    rewrite !andb_true_iff, !Z.leb_le. lia.
Qed.

Lemma get_range_in a b l :
  (0 ≤ a ≤ b)%Z → (b ≤ zlen l)%Z → get_range a b l = Some (slice a b l).
Proof. intros. by apply get_range_Some. Qed.

(** Writing a field over bytes of its own length. *)
Lemma put_slice_over at_ data pre old post :
  at_ = zlen pre → length old = length data →
  put_slice at_ data (pre ++ old ++ post) = pre ++ data ++ post.
Proof.
  intros -> Hlen. unfold put_slice, zlen. rewrite Nat2Z.id, take_app_length.
  rewrite drop_app_ge by lia. f_equal. f_equal. rewrite Nat.add_comm, Nat.add_sub.
  rewrite drop_app_length'; [done|congruence].
Qed.
End slice_facts.

(** Writing a field into a buffer that is zeros from the fields written so far on. *)
Lemma put_slice_zeros at_ (data pre : list Z) n :
  (zlen pre ≤ at_)%Z → (at_ + zlen data ≤ n)%Z →
  put_slice at_ data (pre ++ replicate (Z.to_nat (n - zlen pre)) 0%Z) =
    (pre ++ replicate (Z.to_nat (at_ - zlen pre)) 0%Z ++ data)
    ++ replicate (Z.to_nat (n - zlen (pre ++ replicate (Z.to_nat (at_ - zlen pre)) 0%Z ++ data)))
         0%Z.
Proof.
  intros Hat Hn. pose proof (zlen_nonneg data). rewrite !zlen_app, zlen_replicate.
  replace (replicate (Z.to_nat (n - zlen pre)) 0%Z) with
    (replicate (Z.to_nat (at_ - zlen pre)) 0%Z ++ replicate (length data) 0%Z
     ++ replicate (Z.to_nat (n - at_ - zlen data)) 0%Z).
  2:{ rewrite <-!replicate_add. f_equal. unfold zlen in *. lia. }
  rewrite (app_assoc pre), put_slice_over.
  - rewrite <-!app_assoc. do 4 f_equal. lia.
  - rewrite zlen_app, zlen_replicate. lia.
  - by rewrite length_replicate.
Qed.

(** Computes the lengths of the runs of zeros [put_slice_zeros] leaves. *)
Ltac fold_zeros :=
  autorewrite with zlen;
  repeat match goal with
  | |- context [replicate (Z.to_nat ?n) 0%Z] =>
      let v := eval vm_compute in n in progress change n with v
  end;
  change (Z.to_nat 0) with 0%nat; cbn [replicate app].

Lemma slice_bytes_ok a b l : bytes_ok l → bytes_ok (slice a b l).
Proof. intros. unfold slice. by apply Forall_take, Forall_drop. Qed.

Lemma byte_at_slice l i : (0 ≤ i < zlen l)%Z → slice i (i + 1) l = [byte_at l i].
Proof.
  intros Hi. unfold slice, byte_at, zlen in *.
  destruct (lookup_lt_is_Some_2 l (Z.to_nat i)) as [x Hx]; [lia|].
  rewrite (drop_S l x) by done. replace (i + 1 - i)%Z with 1%Z by lia. by rewrite Hx.
Qed.

Lemma byte_at_ok l i : bytes_ok l → u8 (byte_at l i).
Proof.
  intros Hl. unfold byte_at. destruct (l !! _) as [x|] eqn:E; simpl; [|done].
  by eapply Forall_lookup_1.
Qed.

Lemma replicate_bytes_ok n : bytes_ok (replicate n 0%Z).
Proof. by apply Forall_replicate. Qed.

(** Takes a slice of a concatenation of fields with known lengths down to the field it is. *)
Ltac slice_field :=
  repeat (rewrite slice_skip by zlen_lia);
  first [rewrite slice_hit by zlen_lia | rewrite slice_all by zlen_lia].

Create HintDb machine.
#[export] Hint Resolve le_bytes_ok slice_bytes_ok replicate_bytes_ok byte_at_ok : machine.

(** * Errors

    [rudb_common::Error], by the constructor the code calls. The text is the fixed part of the
    message. *)

Inductive Error : Type :=
| Io (why : string)
| InvalidInput (why : string)
| Internal (why : string).

Inductive Result (A : Type) : Type :=
| Ok (a : A)
| Err (e : Error).
Arguments Ok {A} a.
Arguments Err {A} e.

#[global] Instance Error_eq_dec : EqDecision Error.
Proof. solve_decision. Defined.

#[global] Instance result_ret : MRet Result := λ A, Ok.
#[global] Instance result_bind : MBind Result := λ A B f r,
  match r with Ok a => f a | Err e => Err e end.
#[global] Instance result_fmap : FMap Result := λ A B f r,
  match r with Ok a => Ok (f a) | Err e => Err e end.

(** Discharges a closed decidable proposition by evaluating its decision procedure. *)
Ltac decided :=
  lazymatch goal with |- ?P => refine (bool_decide_unpack P _); vm_compute; exact I end.

(** * The order of byte strings

    [Ord] on [[u8]]: the first byte that differs decides, and a prefix is less. *)

Fixpoint slice_cmp (a b : list Z) : comparison :=
  match a, b with
  | [], [] => Eq
  | [], _ :: _ => Lt
  | _ :: _, [] => Gt
  | x :: a, y :: b => match (x ?= y)%Z with Eq => slice_cmp a b | c => c end
  end.

Definition slice_lt (a b : list Z) : bool := match slice_cmp a b with Lt => true | _ => false end.
Definition slice_le (a b : list Z) : bool := match slice_cmp a b with Gt => false | _ => true end.
Definition slice_eq (a b : list Z) : bool := match slice_cmp a b with Eq => true | _ => false end.

Lemma slice_cmp_antisym a b : slice_cmp b a = CompOpp (slice_cmp a b).
Proof.
  revert b. induction a as [|x a IH]; intros [|y b]; try done. simpl.
  rewrite Z.compare_antisym. destruct (x ?= y)%Z; simpl; auto.
Qed.

Lemma slice_cmp_Eq a b : slice_cmp a b = Eq ↔ a = b.
Proof.
  revert b. induction a as [|x a IH]; intros [|y b]; try done. simpl.
  destruct (Z.compare_spec x y) as [->|?|?].
  - rewrite IH. naive_solver.
  - split; [done|]. intros [= -> ->]. lia.
  - split; [done|]. intros [= -> ->]. lia.
Qed.

Lemma slice_lt_trans a b c :
  slice_lt a b = true → slice_lt b c = true → slice_lt a c = true.
Proof.
  unfold slice_lt. revert b c. induction a as [|x a IH]; intros [|y b] [|z c]; try done. simpl.
  destruct (Z.compare_spec x y), (Z.compare_spec y z), (Z.compare_spec x z); subst;
    try done; try lia. apply IH.
Qed.

Lemma slice_eq_iff a b : slice_eq a b = true ↔ a = b.
Proof. unfold slice_eq. rewrite <-slice_cmp_Eq. by destruct (slice_cmp a b). Qed.

Lemma slice_le_lt a b : slice_le a b = negb (slice_lt b a).
Proof. unfold slice_le, slice_lt. rewrite (slice_cmp_antisym a b). by destruct (slice_cmp a b). Qed.

Lemma slice_lt_irrefl a : slice_lt a a = false.
Proof. unfold slice_lt. by rewrite (proj2 (slice_cmp_Eq a a) eq_refl). Qed.

(** One of the two is less, or they are equal. *)
Lemma slice_lt_total a b : slice_lt a b = true ∨ a = b ∨ slice_lt b a = true.
Proof.
  unfold slice_lt. rewrite (slice_cmp_antisym a b), <-slice_cmp_Eq.
  destruct (slice_cmp a b); auto.
Qed.

Definition sle (a b : list Z) : Prop := slice_le a b = true.

#[global] Instance sle_preorder : PreOrder sle.
Proof.
  split; unfold sle.
  - intros a. by rewrite slice_le_lt, slice_lt_irrefl.
  - intros a b c. rewrite !slice_le_lt, !negb_true_iff. intros Hba Hcb.
    destruct (slice_lt c a) eqn:Hca; [|done].
    destruct (slice_lt_total b c) as [H|[->|H]]; [|congruence..].
    by rewrite (slice_lt_trans _ _ _ H Hca) in Hba.
Qed.

#[global] Instance sle_antisymm : AntiSymm (=) sle.
Proof.
  intros a b. unfold sle. rewrite !slice_le_lt, !negb_true_iff. intros Hba Hab.
  destruct (slice_lt_total a b) as [|[|]]; congruence.
Qed.

#[global] Instance sle_total : Total sle.
Proof.
  intros a b. unfold sle. rewrite !slice_le_lt, !negb_true_iff.
  destruct (slice_lt a b) eqn:Hab; [left|by right]. destruct (slice_lt b a) eqn:Hba; [|done].
  by rewrite <-(slice_lt_irrefl a), (slice_lt_trans _ _ _ Hab Hba).
Qed.

#[global] Instance sle_dec : RelDecision sle.
Proof. intros a b. unfold sle. apply _. Defined.

Lemma slice_lt_sle a b : slice_lt a b = true ↔ ¬ sle b a.
Proof. unfold sle. rewrite slice_le_lt, negb_true_iff. by destruct (slice_lt a b). Qed.

(** * Filtering *)

Section filter_facts.
Context {A : Type} (P : A → Prop) `{!∀ x, Decision (P x)}.

Lemma list_filter_all l : Forall P l → filter P l = l.
Proof. induction 1 as [|x l Hx _ IH]; [done|]. by rewrite filter_cons_True, IH. Qed.

Lemma list_filter_none l : Forall (λ x, ¬ P x) l → filter P l = [].
Proof. induction 1 as [|x l Hx _ IH]; [done|]. by rewrite filter_cons_False, IH. Qed.

Lemma list_filter_concat (ls : list (list A)) : filter P (concat ls) = concat (filter P <$> ls).
Proof. induction ls as [|l ls IH]; [done|]. simpl. by rewrite filter_app, IH. Qed.
End filter_facts.

Section sorted_facts.
Context {A : Type} (R : relation A).

Lemma StronglySorted_app l l' :
  StronglySorted R (l ++ l') ↔
    StronglySorted R l ∧ StronglySorted R l' ∧ ∀ x y, x ∈ l → y ∈ l' → R x y.
Proof.
  induction l as [|x l IH]; simpl.
  - split; [intros H|by intros (_&?&_)]. repeat split; [constructor|done|set_solver].
  - split.
    + intros [Hs Hx]%StronglySorted_inv. apply IH in Hs as (?&?&?).
      apply Forall_app in Hx as [? Hx]. rewrite Forall_forall in Hx.
      split; [by constructor|split; [done|]]. set_solver.
    + intros ([Hs Hx]%StronglySorted_inv&?&?). constructor; [apply IH; set_solver|].
      apply Forall_app. split; [done|]. apply Forall_forall. set_solver.
Qed.

Lemma StronglySorted_filter (P : A → Prop) `{!∀ x, Decision (P x)} l :
  StronglySorted R l → StronglySorted R (filter P l).
Proof.
  induction 1 as [|x l _ IH Hx]; [constructor|]. rewrite filter_cons. case_decide; [|done].
  constructor; [done|]. rewrite Forall_forall in *. intros y.
  rewrite list_elem_of_filter. naive_solver.
Qed.
End sorted_facts.

(** * Searching *)

(** [iter().position(p)]. *)
Fixpoint position {A} (p : A → bool) (l : list A) : option nat :=
  match l with
  | [] => None
  | x :: l => if p x then Some 0%nat else S <$> position p l
  end.

Lemma position_there {A} (q : A → bool) l i : position q l = Some i → ∃ x, l !! i = Some x ∧ q x = true ∧ ∀ j y, (j < i)%nat → l !! j = Some y → q y = false.
Proof.
  revert i. induction l as [|x l IH]; intros i; cbn [position]; [done|]. destruct (q x) eqn:E.
  - intros [= <-]. exists x. split_and!; [done..|]. intros j y Hj. lia.
  - intros (k&Hk&->)%fmap_Some. destruct (IH k Hk) as (y&?&?&H). exists y. split_and!; [done..|]. intros [|j] z Hj Hz; cbn in Hz; [by simplify_eq|]. apply (H j); [lia|done].
Qed.

Lemma position_nowhere {A} (q : A → bool) l : position q l = None → ∀ j y, l !! j = Some y → q y = false.
Proof.
  induction l as [|x l IH]; cbn [position]; [done|]. destruct (q x) eqn:E; [done|]. intros H%fmap_None [|j] y Hy; cbn in Hy; [by simplify_eq|by apply (IH H j)].
Qed.

(** [trailing_zeros] of a word of 64 bits. *)
Definition trailing_zeros (word : Z) : Z :=
  default 64%Z (Z.of_nat <$> position (λ i, Z.testbit word (Z.of_nat i)) (seq 0 64)).

(** The lowest bit that is set. *)
Definition least_bit (x i : Z) : Prop := (0 ≤ i)%Z ∧ Z.testbit x i = true ∧ ∀ j, (0 ≤ j < i)%Z → Z.testbit x j = false.

Lemma trailing_zeros_least x : fits 64 x → x ≠ 0%Z → least_bit x (trailing_zeros x) ∧ (trailing_zeros x < 64)%Z.
Proof.
  intros Hf Hx. unfold trailing_zeros. destruct (position _ _) as [k|] eqn:E; cbn [default fmap option_fmap option_map from_option id].
  - destruct (position_there _ _ _ E) as (k'&[-> Hk]%lookup_seq&Hb&Hlow). cbn in Hb. split; [|lia]. split_and!; [lia|done|]. intros j Hj.
    specialize (Hlow (Z.to_nat j) (Z.to_nat j)). rewrite Z2Nat.id in Hlow by lia. apply Hlow; [lia|]. apply lookup_seq. lia.
  - exfalso. apply Hx. apply Z.bits_inj'. intros i Hi. rewrite Z.bits_0. destruct (decide (i < 64)%Z); [|apply (fits_testbit 64); [done|lia]].
    pose proof (position_nowhere _ _ E (Z.to_nat i) (Z.to_nat i)) as Hf'. cbn beta in Hf'. rewrite Z2Nat.id in Hf' by lia. apply Hf'. apply lookup_seq. lia.
Qed.

Lemma least_bit_unique x i j : least_bit x i → least_bit x j → i = j.
Proof.
  intros (Hi0&Hi&Hil) (Hj0&Hj&Hjl). destruct (Z.lt_trichotomy i j) as [Hlt|[->|Hgt]]; [|done|].
  - rewrite Hjl in Hi by lia. done.
  - rewrite Hil in Hj by lia. done.
Qed.

(** * Numbers as byte strings

    Byte strings of one length compare as the numbers they spell: what the keys of an index and the
    words they are packed into share. *)

Section order.
Local Open Scope Z_scope.

Definition then_cmp (c d : comparison) : comparison := match c with Eq => d | c => c end.

Lemma slice_cmp_app a b r r' :
  length a = length b → slice_cmp (a ++ r) (b ++ r') = then_cmp (slice_cmp a b) (slice_cmp r r').
Proof.
  revert b. induction a as [|x a IH]; intros [|y b] Hl; try done. simpl in *.
  destruct (x ?= y); try done. apply IH. lia.
Qed.

Lemma be_bytes_S n x : be_bytes (S n) x = be_bytes n (x ≫ 8) ++ [x `mod` 2 ^ 8].
Proof.
  Local Transparent be_bytes le_bytes.
  unfold be_bytes, le_bytes. rewrite Nat2Z.inj_succ, Z_to_little_endian_succ by lia.
  rewrite reverse_cons. by rewrite Z.land_ones by lia.
  Local Opaque be_bytes le_bytes.
Qed.

Lemma compare_divmod x y d :
  0 < d → (x ?= y) = then_cmp (x / d ?= y / d) (x `mod` d ?= y `mod` d).
Proof.
  intros Hd. pose proof (Z.div_mod x d ltac:(lia)). pose proof (Z.div_mod y d ltac:(lia)).
  pose proof (Z.mod_pos_bound x d Hd). pose proof (Z.mod_pos_bound y d Hd).
  destruct (Z.compare_spec (x / d) (y / d)) as [E|E|E]; simpl.
  - destruct (Z.compare_spec (x `mod` d) (y `mod` d)).
    + apply Z.compare_eq_iff. congruence.
    + apply Z.compare_lt_iff. rewrite E in *. lia.
    + apply Z.compare_gt_iff. rewrite E in *. lia.
  - apply Z.compare_lt_iff. nia.
  - apply Z.compare_gt_iff. nia.
Qed.

Lemma be_bytes_cmp n x y :
  fits (8 * Z.of_nat n) x → fits (8 * Z.of_nat n) y →
  slice_cmp (be_bytes n x) (be_bytes n y) = (x ?= y).
Proof.
  revert x y. induction n as [|n IH]; intros x y Hx Hy.
  - unfold fits in *. assert (x = 0 ∧ y = 0) as [-> ->] by lia. done.
  - assert (∀ z, fits (8 * Z.of_nat (S n)) z → fits (8 * Z.of_nat n) (z ≫ 8)) as Hs.
    { intros z Hz. unfold fits in *. rewrite Z.shiftr_div_pow2 by lia.
      split; [apply Z.div_pos; lia|]. apply Z.div_lt_upper_bound; [lia|].
      rewrite <-Z.pow_add_r by lia. rewrite Nat2Z.inj_succ in Hz.
      replace (8 + 8 * Z.of_nat n) with (8 * Z.succ (Z.of_nat n)) by lia. apply Hz. }
    rewrite !be_bytes_S, slice_cmp_app by (by rewrite !length_be_bytes).
    rewrite IH by auto. rewrite !Z.shiftr_div_pow2 by lia.
    rewrite (compare_divmod x y (2 ^ 8)) by lia. simpl.
    f_equal. by destruct (x `mod` 2 ^ 8 ?= y `mod` 2 ^ 8).
Qed.

Lemma be_bytes_val l : bytes_ok l → be_bytes (length l) (be_val l) = l.
Proof.
  Local Transparent be_bytes be_val.
  intros Hl. unfold be_bytes, be_val. rewrite <-(length_reverse l) at 1.
  rewrite le_bytes_val; [apply reverse_involutive|done|by apply Forall_reverse].
  Local Opaque be_bytes be_val.
Qed.

Lemma be_val_fits l : bytes_ok l → fits (8 * Z.of_nat (length l)) (be_val l).
Proof.
  Local Transparent be_val.
  intros Hl. unfold be_val. rewrite <-(length_reverse l). apply le_val_fits. by apply Forall_reverse.
  Local Opaque be_val.
Qed.

(** Byte strings of one length in order are the numbers they spell in order. *)
Lemma be_val_cmp l l' :
  bytes_ok l → bytes_ok l' → length l = length l' → (be_val l ?= be_val l') = slice_cmp l l'.
Proof.
  intros Hl Hl' E. rewrite <-(be_bytes_cmp (length l)).
  - rewrite be_bytes_val by done. by rewrite E, be_bytes_val.
  - by apply be_val_fits.
  - rewrite E. by apply be_val_fits.
Qed.

Lemma slice_cmp_refl a : slice_cmp a a = Eq.
Proof. by apply slice_cmp_Eq. Qed.

Lemma slice_cmp_snoc a b x y :
  length a = length b → slice_cmp (a ++ [x]) (b ++ [y]) = then_cmp (slice_cmp a b) (x ?= y).
Proof. intros. rewrite slice_cmp_app by done. simpl. by destruct (x ?= y). Qed.
End order.
