(* ===== verification/Crc.v ===== *)
(** The checksum of the log: CRC-32C.

    [rudb-txn/src/log/crc.rs] computes it eight bytes at a time through eight tables, or, where
    the machine has it, through the processor's instruction ([rudb-io/src/crc.rs]). Both are
    modelled as they are written and proved equal to the bit at a time definition of the
    polynomial division, [crc_ref]; on that definition the file proves what the log relies on:
    a checksum can be continued, and it never collides on inputs that differ in the seed or in
    one byte. *)

From S2P Require Import Prelude.
Local Open Scope Z_scope.

Definition POLY : Z := 0x82F63B78.

(** One bit of the division, the body of the inner loop of [tables]. *)
Definition crc_bit (crc : Z) : Z :=
  if Z.land crc 1 =? 0 then crc ≫ 1 else Z.lxor (crc ≫ 1) POLY.

(** ** The tables *)

Definition at_table (t : list Z) (i : Z) : Z := nth (Z.to_nat i) t 0.

Definition first_table : list Z :=
  (λ byte : nat, Nat.iter 8 crc_bit (Z.of_nat byte)) <$> seq 0 256.

Definition next_table (first previous : list Z) : list Z :=
  (λ p, Z.lxor (p ≫ 8) (at_table first (Z.land p 0xFF))) <$> previous.

(** [tables k] is [tables()[k]]: table 0 from the bits, table [k] from table [k - 1]. *)
Fixpoint tables (k : nat) : list Z :=
  match k with
  | O => first_table
  | S k => next_table first_table (tables k)
  end.

(** ** The table version *)

(** One eight byte step of [software]. *)
Definition software_step (crc : Z) (b0 b1 b2 b3 b4 b5 b6 b7 : Z) : Z :=
  let low := Z.lxor (le_val [b0; b1; b2; b3]) crc in
  let high := le_val [b4; b5; b6; b7] in
  Z.lxor (Z.lxor (Z.lxor (Z.lxor (Z.lxor (Z.lxor (Z.lxor
    (at_table (tables 7) (Z.land low 0xFF))
    (at_table (tables 6) (Z.land (low ≫ 8) 0xFF)))
    (at_table (tables 5) (Z.land (low ≫ 16) 0xFF)))
    (at_table (tables 4) (low ≫ 24)))
    (at_table (tables 3) (Z.land high 0xFF)))
    (at_table (tables 2) (Z.land (high ≫ 8) 0xFF)))
    (at_table (tables 1) (Z.land (high ≫ 16) 0xFF)))
    (at_table (tables 0) (high ≫ 24)).

(** The byte step of the remainder loop. *)
Definition software_byte (crc byte : Z) : Z :=
  Z.lxor (at_table (tables 0) (Z.land (Z.lxor crc byte) 0xFF)) (crc ≫ 8).

(** The loop over [chunks_exact(8)] and the loop over its remainder, for an eight byte step
    [step] and a byte step [byte]. *)
Section chunks_of_eight.
Context (step : Z → Z → Z → Z → Z → Z → Z → Z → Z → Z) (byte : Z → Z → Z).

Fixpoint eight_at_a_time (crc : Z) (bs : list Z) : Z :=
  match bs with
  | b0 :: b1 :: b2 :: b3 :: b4 :: b5 :: b6 :: b7 :: rest =>
      eight_at_a_time (step crc b0 b1 b2 b3 b4 b5 b6 b7) rest
  | remainder => foldl byte crc remainder
  end.

End chunks_of_eight.

Definition software_loop : Z → list Z → Z := eight_at_a_time software_step software_byte.

Definition software (crc : Z) (bs : list Z) : Z :=
  wnot 32 (software_loop (wnot 32 crc) bs).

(** ** The instruction

    [_mm_crc32_u8] and [_mm_crc32_u64] of [std::arch], and [__crc32cb] and [__crc32cd]: the
    division by the reflected Castagnoli polynomial over the operand's eight or sixty four
    bits, the checksum left in the low half. *)
Definition mm_crc32_u8 (crc byte : Z) : Z := Nat.iter 8 crc_bit (Z.lxor crc byte).
Definition mm_crc32_u64 (crc word : Z) : Z := Nat.iter 64 crc_bit (Z.lxor crc word).

Definition hardware_loop : Z → list Z → Z :=
  eight_at_a_time
    (λ crc b0 b1 b2 b3 b4 b5 b6 b7,
       mm_crc32_u64 crc (le_val [b0; b1; b2; b3; b4; b5; b6; b7]))
    mm_crc32_u8.

Definition hardware (crc : Z) (bs : list Z) : Z :=
  wnot 32 (hardware_loop (wnot 32 crc) bs).

(** What the machine the program runs on has, which the code asks it at run time. *)
Class Machine := has_crc32c : bool.

Definition crc32c_extend `{Machine} (crc : Z) (bs : list Z) : option Z :=
  if has_crc32c then Some (hardware crc bs) else None.

Definition extend `{Machine} (crc : Z) (bs : list Z) : Z :=
  match crc32c_extend crc bs with
  | Some c => c
  | None => software crc bs
  end.

Definition crc32c `{Machine} (bs : list Z) : Z := extend 0 bs.

(** * The reference *)

Definition crc_byte (crc byte : Z) : Z := Nat.iter 8 crc_bit (Z.lxor crc byte).
Definition crc_ref (crc : Z) (bs : list Z) : Z := wnot 32 (foldl crc_byte (wnot 32 crc) bs).

(** The check value every implementation agrees on, and the vectors of RFC 3720 B.4. *)
Example crc_check_value :
  (@crc32c false) [49; 50; 51; 52; 53; 54; 55; 56; 57] = 0xE3069283
  ∧ (@crc32c true) [49; 50; 51; 52; 53; 54; 55; 56; 57] = 0xE3069283
  ∧ (@crc32c false) (replicate 32 0) = 0x8A9136AA
  ∧ (@crc32c false) (replicate 32 0xFF) = 0x62A8AB43.
Proof. vm_compute. done. Qed.

(** * Linearity of the division *)

Lemma crc_bit_odd c : crc_bit c = Z.lxor (c ≫ 1) (if Z.odd c then POLY else 0).
Proof.
  unfold crc_bit. change 1 with (Z.ones 1) at 1. rewrite Z.land_ones by lia.
  change (2 ^ 1) with 2. rewrite Zmod_odd.
  destruct (Z.odd c); [done|]. by rewrite Z.lxor_0_r.
Qed.

Lemma odd_lxor a b : Z.odd (Z.lxor a b) = xorb (Z.odd a) (Z.odd b).
Proof. rewrite <-!Z.bit0_odd. apply Z.lxor_spec. Qed.

Lemma crc_bit_lxor a b : crc_bit (Z.lxor a b) = Z.lxor (crc_bit a) (crc_bit b).
Proof.
  rewrite !crc_bit_odd, odd_lxor, Z.shiftr_lxor.
  apply Z.bits_inj'. intros i _. rewrite !Z.lxor_spec.
  destruct (Z.odd a), (Z.odd b); simpl; rewrite ?Z.bits_0;
    destruct (Z.testbit (a ≫ 1) i), (Z.testbit (b ≫ 1) i), (Z.testbit POLY i); done.
Qed.

Lemma iter_crc_bit_lxor n a b :
  Nat.iter n crc_bit (Z.lxor a b) = Z.lxor (Nat.iter n crc_bit a) (Nat.iter n crc_bit b).
Proof. induction n as [|n IH]; [done|]. simpl. by rewrite IH, crc_bit_lxor. Qed.

Lemma crc_bit_double y : crc_bit (y ≪ 1) = y.
Proof.
  rewrite crc_bit_odd, <-Z.bit0_odd, Z.shiftl_spec_low by lia.
  by rewrite Z.lxor_0_r, Z.shiftr_shiftl_l by lia.
Qed.

Lemma iter_crc_bit_shiftl n y : Nat.iter n crc_bit (y ≪ Z.of_nat n) = y.
Proof.
  revert y. induction n as [|n IH]; intros y; [apply Z.shiftl_0_r|].
  rewrite Nat.iter_succ_r. rewrite <-(IH y) at 2. f_equal.
  replace (Z.of_nat (S n)) with (Z.of_nat n + 1) by lia.
  rewrite <-Z.shiftl_shiftl by lia. apply crc_bit_double.
Qed.

Lemma crc_bit_fits c : u32 c → u32 (crc_bit c).
Proof.
  intros. rewrite crc_bit_odd. apply fits_lxor; [lia| |].
  - by apply fits_shiftr.
  - destruct (Z.odd c); vm_compute; split; congruence.
Qed.

Lemma iter_crc_bit_fits n c : u32 c → u32 (Nat.iter n crc_bit c).
Proof. intros. induction n; simpl; [done|by apply crc_bit_fits]. Qed.

(** The polynomial's top bit is set, so a step can be undone. *)
Lemma crc_bit_inj a b : u32 a → u32 b → crc_bit a = crc_bit b → a = b.
Proof.
  intros Ha Hb. rewrite !crc_bit_odd. intros E.
  assert (Hodd : Z.odd a = Z.odd b).
  { apply (f_equal (λ x, Z.testbit x 31)) in E. rewrite !Z.lxor_spec, !Z.shiftr_spec in E by lia.
    rewrite (fits_testbit 32 a), (fits_testbit 32 b) in E by (done || lia).
    by destruct (Z.odd a), (Z.odd b). }
  rewrite Hodd in E.
  assert (Es : a ≫ 1 = b ≫ 1).
  { apply (f_equal (λ x, Z.lxor x (if Z.odd b then POLY else 0))) in E.
    by rewrite !Z.lxor_assoc, !Z.lxor_nilpotent, !Z.lxor_0_r in E. }
  rewrite (Zdiv2_odd_eqn a), (Zdiv2_odd_eqn b), Hodd, !Z.div2_spec, Es. done.
Qed.

Lemma iter_crc_bit_inj n a b :
  u32 a → u32 b → Nat.iter n crc_bit a = Nat.iter n crc_bit b → a = b.
Proof.
  intros Ha Hb. induction n as [|n IH]; simpl; [done|].
  intros E%crc_bit_inj; [auto|by apply iter_crc_bit_fits..].
Qed.

(** * A byte at a time *)

(** Advancing the state by one byte of zeros. *)
Definition adv (c : Z) : Z := Nat.iter 8 crc_bit c.

Lemma adv_lxor a b : adv (Z.lxor a b) = Z.lxor (adv a) (adv b).
Proof. apply iter_crc_bit_lxor. Qed.

Lemma iter_adv_lxor n a b :
  Nat.iter n adv (Z.lxor a b) = Z.lxor (Nat.iter n adv a) (Nat.iter n adv b).
Proof. induction n as [|n IH]; [done|]. simpl. by rewrite IH, adv_lxor. Qed.

Lemma adv_shiftl y : adv (y ≪ 8) = y.
Proof. apply (iter_crc_bit_shiftl 8). Qed.

Lemma iter_adv_shiftl n m y :
  Nat.iter (n + m) adv (y ≪ (8 * Z.of_nat m)) = Nat.iter n adv y.
Proof.
  revert y. induction m as [|m IH]; intros y; [by rewrite Nat.add_0_r, Z.shiftl_0_r|].
  rewrite Nat.add_succ_r, Nat.iter_succ_r.
  replace (8 * Z.of_nat (S m)) with (8 * Z.of_nat m + 8) by lia.
  by rewrite <-Z.shiftl_shiftl, adv_shiftl, IH by lia.
Qed.

Lemma byte_lor_lxor b v : u8 b → Z.lor b (v ≪ 8) = Z.lxor b (v ≪ 8).
Proof.
  intros Hb. apply Z.bits_inj'. intros i Hi. rewrite Z.lor_spec, Z.lxor_spec.
  destruct (decide (i < 8)).
  - rewrite Z.shiftl_spec_low by lia. by destruct (Z.testbit b i).
  - rewrite (fits_testbit 8 b) by (done || lia). done.
Qed.

(** The state after [bs] is the state combined with [bs] as a number, advanced. *)
Lemma fold_crc_byte bs c :
  bytes_ok bs → foldl crc_byte c bs = Nat.iter (length bs) adv (Z.lxor c (le_val bs)).
Proof.
  revert c. induction bs as [|b bs IH]; intros c Hok; [by rewrite le_val_nil, Z.lxor_0_r|].
  apply Forall_cons in Hok as [Hb Hok]. simpl. rewrite IH by done.
  rewrite le_val_cons, byte_lor_lxor by done.
  rewrite <-Nat.iter_succ, Nat.iter_succ_r. f_equal.
  rewrite <-Z.lxor_assoc, (adv_lxor _ (le_val bs ≪ 8)), adv_shiftl. done.
Qed.

Lemma byte_split c : 0 ≤ c → c = Z.lxor (Z.land c 0xFF) ((c ≫ 8) ≪ 8).
Proof.
  intros Hc. apply Z.bits_inj'. intros i Hi. rewrite Z.lxor_spec.
  change 0xFF with (Z.ones 8). destruct (decide (i < 8)).
  - rewrite Z.land_spec, Z.ones_spec_low, Z.shiftl_spec_low by lia.
    by rewrite andb_true_r, xorb_false_r.
  - rewrite Z.land_spec, Z.ones_spec_high, Z.shiftl_spec_high, Z.shiftr_spec by lia.
    rewrite andb_false_r, xorb_false_l. f_equal. lia.
Qed.

Lemma land_byte c : u8 (Z.land c 0xFF).
Proof.
  change 0xFF with (Z.ones 8). rewrite Z.land_ones by lia. by apply wrap_fits.
Qed.

Lemma first_table_spec x : u8 x → at_table first_table x = adv x.
Proof.
  intros [? ?]. change (2 ^ 8) with 256 in *. unfold at_table, first_table.
  rewrite <-(Z2Nat.id x) at 2 by done.
  rewrite nth_lookup, list_lookup_fmap, lookup_seq_lt by lia. done.
Qed.

Lemma adv_table c : 0 ≤ c → adv c = Z.lxor (c ≫ 8) (at_table first_table (Z.land c 0xFF)).
Proof.
  intros Hc. rewrite (byte_split c Hc) at 1.
  rewrite adv_lxor, adv_shiftl, Z.lxor_comm, first_table_spec by apply land_byte. done.
Qed.

Lemma iter_adv_fits n c : u32 c → u32 (Nat.iter n adv c).
Proof. intros. induction n; simpl; [done|by apply iter_crc_bit_fits]. Qed.

Lemma u8_u32 x : u8 x → u32 x.
Proof. by apply fits_weaken. Qed.

(** Table [k] advances a byte by [k + 1] bytes. *)
Lemma tables_spec k x : u8 x → at_table (tables k) x = Nat.iter (S k) adv x.
Proof.
  intros Hx. induction k as [|k IH]; [by apply first_table_spec|].
  rewrite Nat.iter_succ, <-IH. simpl tables. unfold next_table.
  assert (Hlen : length (tables k) = 256%nat).
  { clear. induction k; [done|]. simpl. unfold next_table. by rewrite length_fmap. }
  destruct Hx as [? Hx]. change (2 ^ 8) with 256 in Hx.
  destruct (lookup_lt_is_Some_2 (tables k) (Z.to_nat x)) as [p Hp]; [lia|].
  unfold at_table at 1 3. rewrite !nth_lookup, list_lookup_fmap, Hp. simpl.
  rewrite adv_table; [done|].
  assert (u32 p) as [? _]; [|done].
  replace p with (at_table (tables k) x); [|unfold at_table; by rewrite nth_lookup, Hp].
  rewrite IH. apply iter_adv_fits, u8_u32. split; [done|]. change (2 ^ 8) with 256. lia.
Qed.

(** A thirty two bit word, byte by byte. *)
Lemma word_split w :
  u32 w → w = Z.lxor (Z.land w 0xFF) (Z.lxor (Z.land (w ≫ 8) 0xFF ≪ 8)
            (Z.lxor (Z.land (w ≫ 16) 0xFF ≪ 16) ((w ≫ 24) ≪ 24))).
Proof.
  intros Hw. assert (0 ≤ w) by apply Hw.
  assert (E : ∀ k, 0 ≤ k → w ≫ k = Z.lxor (Z.land (w ≫ k) 0xFF) ((w ≫ (k + 8)) ≪ 8)).
  { intros k Hk. rewrite <-Z.shiftr_shiftr by lia. apply byte_split, Z.shiftr_nonneg. done. }
  pose proof (E 0 ltac:(lia)) as E0. pose proof (E 8 ltac:(lia)) as E1.
  pose proof (E 16 ltac:(lia)) as E2. rewrite !Z.shiftr_0_r in E0.
  change (0 + 8) with 8 in E0. change (8 + 8) with 16 in E1. change (16 + 8) with 24 in E2.
  transitivity (Z.lxor (Z.land w 0xFF)
    (Z.lxor (Z.land (w ≫ 8) 0xFF) (Z.lxor (Z.land (w ≫ 16) 0xFF) ((w ≫ 24) ≪ 8) ≪ 8) ≪ 8)).
  - rewrite <-E2, <-E1, <-E0. done.
  - rewrite !Z.shiftl_lxor, !Z.shiftl_shiftl by lia. done.
Qed.

Lemma iter_adv_word n w :
  u32 w → Nat.iter (4 + n) adv w =
    Z.lxor (Z.lxor (Z.lxor
      (at_table (tables (3 + n)) (Z.land w 0xFF))
      (at_table (tables (2 + n)) (Z.land (w ≫ 8) 0xFF)))
      (at_table (tables (1 + n)) (Z.land (w ≫ 16) 0xFF)))
      (at_table (tables n) (w ≫ 24)).
Proof.
  intros Hw. rewrite (word_split w Hw) at 1.
  rewrite !iter_adv_lxor, <-!Z.lxor_assoc.
  assert (u8 (w ≫ 24)).
  { destruct Hw. split; [by apply Z.shiftr_nonneg|]. rewrite Z.shiftr_div_pow2 by lia.
    apply Z.div_lt_upper_bound; lia. }
  rewrite !tables_spec by (done || apply land_byte).
  rewrite <-(iter_adv_shiftl (S (2 + n)) 1), <-(iter_adv_shiftl (S (1 + n)) 2),
    <-(iter_adv_shiftl (S n) 3).
  replace (S (2 + n) + 1)%nat with (4 + n)%nat by lia.
  replace (S (1 + n) + 2)%nat with (4 + n)%nat by lia.
  replace (S n + 3)%nat with (4 + n)%nat by lia. done.
Qed.

(** * The optimised versions are the reference *)

Lemma le_val_four_eight b0 b1 b2 b3 b4 b5 b6 b7 :
  bytes_ok [b0; b1; b2; b3] →
  le_val [b0; b1; b2; b3; b4; b5; b6; b7] =
    Z.lxor (le_val [b0; b1; b2; b3]) (le_val [b4; b5; b6; b7] ≪ 32).
Proof.
  intros Hok. rewrite !Forall_cons in Hok. destruct Hok as (?&?&?&?&_).
  rewrite !le_val_cons. rewrite !le_val_nil, !Z.shiftl_0_l, !Z.lor_0_r.
  rewrite !(byte_lor_lxor b0), !(byte_lor_lxor b1), !(byte_lor_lxor b2), !(byte_lor_lxor b3)
    by done.
  rewrite !Z.shiftl_lxor, !Z.shiftl_shiftl by lia. rewrite !Z.lxor_assoc. done.
Qed.

Lemma le_val_word_fits b0 b1 b2 b3 : bytes_ok [b0; b1; b2; b3] → u32 (le_val [b0; b1; b2; b3]).
Proof. intros H. apply (le_val_fits [b0; b1; b2; b3] H). Qed.

Lemma software_step_spec c b0 b1 b2 b3 b4 b5 b6 b7 :
  u32 c → bytes_ok [b0; b1; b2; b3; b4; b5; b6; b7] →
  software_step c b0 b1 b2 b3 b4 b5 b6 b7 =
    foldl crc_byte c [b0; b1; b2; b3; b4; b5; b6; b7].
Proof.
  intros Hc Hok. rewrite fold_crc_byte by done.
  change [b0; b1; b2; b3; b4; b5; b6; b7] with ([b0; b1; b2; b3] ++ [b4; b5; b6; b7]) in Hok.
  apply Forall_app in Hok as [Hl Hh].
  rewrite le_val_four_eight by done. simpl length.
  rewrite <-Z.lxor_assoc, (Z.lxor_comm c), iter_adv_lxor.
  change (le_val [b4; b5; b6; b7] ≪ 32) with (le_val [b4; b5; b6; b7] ≪ (8 * Z.of_nat 4)).
  rewrite (iter_adv_shiftl 4 4), (iter_adv_word 4), (iter_adv_word 0).
  - unfold software_step. simpl Nat.add. by rewrite !Z.lxor_assoc.
  - by apply le_val_word_fits.
  - apply fits_lxor; [lia| |done]. by apply le_val_word_fits.
Qed.

Lemma software_byte_spec c b : u32 c → u8 b → software_byte c b = crc_byte c b.
Proof.
  intros Hc Hb. unfold software_byte, crc_byte.
  change (Nat.iter 8 crc_bit (Z.lxor c b)) with (adv (Z.lxor c b)).
  rewrite adv_table by (apply (fits_lxor 32); [lia|done|by apply u8_u32]).
  rewrite Z.lxor_comm. f_equal. rewrite Z.shiftr_lxor.
  replace (b ≫ 8) with 0; [by rewrite Z.lxor_0_r|].
  symmetry. rewrite Z.shiftr_div_pow2 by lia. apply Z.div_small. exact Hb.
Qed.

Lemma crc_byte_fits c b : u32 c → u8 b → u32 (crc_byte c b).
Proof. intros. apply iter_crc_bit_fits, fits_lxor; [lia|done|by apply u8_u32]. Qed.

Lemma fold_crc_byte_fits c bs : u32 c → bytes_ok bs → u32 (foldl crc_byte c bs).
Proof.
  intros Hc Hok. revert c Hc. induction Hok as [|b bs Hb Hok IH]; intros c Hc; [done|].
  simpl. by apply IH, crc_byte_fits.
Qed.

(** Steps that agree with the byte at a time definition make a loop that does. *)
Section eight_at_a_time_correct.
Context (step : Z → Z → Z → Z → Z → Z → Z → Z → Z → Z) (byte : Z → Z → Z).
Hypothesis step_spec : ∀ c b0 b1 b2 b3 b4 b5 b6 b7,
  u32 c → bytes_ok [b0; b1; b2; b3; b4; b5; b6; b7] →
  step c b0 b1 b2 b3 b4 b5 b6 b7 = foldl crc_byte c [b0; b1; b2; b3; b4; b5; b6; b7].
Hypothesis byte_spec : ∀ c b, u32 c → u8 b → byte c b = crc_byte c b.

Lemma remainder_spec c bs : u32 c → bytes_ok bs → foldl byte c bs = foldl crc_byte c bs.
Proof using byte_spec.
  intros Hc Hok. revert c Hc. induction Hok as [|b bs Hb Hok IH]; intros c Hc; [done|].
  simpl. rewrite byte_spec by done. by apply IH, crc_byte_fits.
Qed.

Lemma eight_at_a_time_spec c bs :
  u32 c → bytes_ok bs → eight_at_a_time step byte c bs = foldl crc_byte c bs.
Proof using step_spec byte_spec.
  revert c. induction bs as [bs IH] using (induction_ltof1 _ (@length Z)). intros c Hc Hok.
  destruct (decide (length bs < 8)%nat) as [Hlt|Hge].
  - rewrite <-remainder_spec by done. do 8 (destruct bs as [|? bs]; [done|]). simpl in Hlt. lia.
  - do 8 (destruct bs as [|? bs]; [simpl in Hge; lia|]). simpl eight_at_a_time.
    apply (Forall_app _ [_; _; _; _; _; _; _; _]) in Hok as [Hhead Hok].
    rewrite step_spec by done. rewrite IH; [done|unfold ltof; simpl; lia| |done].
    by apply fold_crc_byte_fits.
Qed.
End eight_at_a_time_correct.

Lemma software_spec c bs : u32 c → bytes_ok bs → software c bs = crc_ref c bs.
Proof.
  intros. unfold software, crc_ref, software_loop. f_equal. apply eight_at_a_time_spec.
  - apply software_step_spec.
  - apply software_byte_spec.
  - by apply wnot_fits.
  - done.
Qed.

Lemma hardware_spec c bs : u32 c → bytes_ok bs → hardware c bs = crc_ref c bs.
Proof.
  intros. unfold hardware, crc_ref, hardware_loop. f_equal. apply eight_at_a_time_spec.
  - intros d b0 b1 b2 b3 b4 b5 b6 b7 _ Hok. rewrite fold_crc_byte by done.
    unfold mm_crc32_u64, adv. simpl length. cbn [Nat.iter nat_rect]. done.
  - done.
  - by apply wnot_fits.
  - done.
Qed.

Section extend_facts.
Context `{Machine}.

Lemma extend_spec c bs : u32 c → bytes_ok bs → extend c bs = crc_ref c bs.
Proof.
  intros. unfold extend, crc32c_extend. destruct has_crc32c.
  - by apply hardware_spec.
  - by apply software_spec.
Qed.

Lemma crc_ref_fits c bs : u32 c → bytes_ok bs → u32 (crc_ref c bs).
Proof. intros. apply wnot_fits, fold_crc_byte_fits; [lia| |done]. by apply wnot_fits. Qed.

Lemma extend_fits c bs : u32 c → bytes_ok bs → u32 (extend c bs).
Proof. intros. rewrite extend_spec by done. by apply crc_ref_fits. Qed.

Lemma crc_ref_app c bs bs' : crc_ref (crc_ref c bs) bs' = crc_ref c (bs ++ bs').
Proof. unfold crc_ref. by rewrite wnot_involutive, foldl_app. Qed.

Lemma extend_app c bs bs' :
  u32 c → bytes_ok bs → bytes_ok bs' → extend (extend c bs) bs' = extend c (bs ++ bs').
Proof.
  intros. rewrite !extend_spec by (done || by apply extend_fits || by apply Forall_app).
  apply crc_ref_app.
Qed.

Lemma fold_crc_byte_inj c c' bs :
  u32 c → u32 c' → bytes_ok bs → foldl crc_byte c bs = foldl crc_byte c' bs → c = c'.
Proof.
  intros Hc Hc' Hok. revert c c' Hc Hc'.
  induction Hok as [|b bs Hb Hok IH]; intros c c' Hc Hc'; [done|].
  simpl. intros E%IH; [|by apply crc_byte_fits..].
  apply iter_crc_bit_inj in E; [|by apply fits_lxor, u8_u32..].
  apply (f_equal (λ x, Z.lxor x b)) in E.
  by rewrite !Z.lxor_assoc, !Z.lxor_nilpotent, !Z.lxor_0_r in E.
Qed.

Lemma wnot_inj w x y : wnot w x = wnot w y → x = y.
Proof. intros E. by rewrite <-(wnot_involutive w x), E, wnot_involutive. Qed.

(** The checksum of the same bytes under two seeds is never the same. *)
Lemma extend_seed_inj c c' bs :
  u32 c → u32 c' → bytes_ok bs → extend c bs = extend c' bs → c = c'.
Proof.
  intros Hc Hc' Hok. rewrite !extend_spec by done. unfold crc_ref.
  intros E%wnot_inj. apply fold_crc_byte_inj in E; [|by apply wnot_fits..|done].
  by apply wnot_inj in E.
Qed.

(** The checksum of two strings that differ in one byte is never the same. *)
Lemma extend_byte_inj c pre b b' post :
  u32 c → bytes_ok pre → bytes_ok post → u8 b → u8 b' →
  extend c (pre ++ b :: post) = extend c (pre ++ b' :: post) → b = b'.
Proof.
  intros Hc Hpre Hpost Hb Hb'.
  rewrite !extend_spec by (done || (apply Forall_app; split; [done|by constructor])).
  unfold crc_ref. rewrite !foldl_app. simpl. intros E%wnot_inj.
  assert (u32 (foldl crc_byte (wnot 32 c) pre)) by (apply fold_crc_byte_fits; [by apply wnot_fits|done]).
  apply fold_crc_byte_inj in E; [|by apply crc_byte_fits..|done].
  apply iter_crc_bit_inj in E; [|by apply fits_lxor, u8_u32..].
  apply (f_equal (Z.lxor (foldl crc_byte (wnot 32 c) pre))) in E.
  by rewrite <-!Z.lxor_assoc, !Z.lxor_nilpotent, !Z.lxor_0_l in E.
Qed.
End extend_facts.

(** C33. The checksum is CRC-32C whatever the machine: the processor's instruction eight bytes at
    a time and the eight tables both compute the bit by bit definition, so a log written on one
    machine verifies on another, and a checksum continued over a second part is the checksum of
    the parts joined. *)
Theorem extend_is_crc32c {M : Machine} c bs bs'
    (Hc : u32 c) (Hbs : bytes_ok bs) (Hbs' : bytes_ok bs') :
  extend c bs = crc_ref c bs ∧ software c bs = hardware c bs
  ∧ extend (extend c bs) bs' = extend c (bs ++ bs').
Proof.
  split; [by apply extend_spec|]. split; [by rewrite software_spec, hardware_spec|].
  by apply extend_app.
Qed.

(** The check value of CRC-32C, of the nine digits. *)
Lemma extend_is_crc32c_witness :
  @extend (false : Machine) 0 [49; 50; 51; 52; 53; 54; 55; 56; 57] = 0xE3069283.
Proof.
  rewrite (proj1 (@extend_is_crc32c (false : Machine) 0 [49; 50; 51; 52; 53; 54; 55; 56; 57] []
    ltac:(decided) ltac:(decided) ltac:(decided))).
  vm_compute. reflexivity.
Defined.

#[global] Opaque extend.
