(* ===== verification/LogFormat.v ===== *)
(** The bytes of the write-ahead log: [rudb-txn/src/log/format.rs].

    A segment starts with a 4 KiB header and goes on with records, each a 20 byte header, its
    payload and zeros to the next eight byte boundary. Encoders and decoders are modelled on byte
    lists as they are written; the theorems say that each decoder reads back what its encoder
    wrote, accepts nothing its encoder does not write, and refuses a record that was damaged in a
    byte or that was written for another segment. *)

From S2P Require Import Prelude Crc.
Local Open Scope Z_scope.

Definition SEGMENT_MAGIC : list Z := [82; 85; 68; 66; 76; 79; 71; 49].  (* RUDBLOG1 *)
Definition SEGMENT_VERSION : Z := 1.
Definition SEGMENT_HEADER : Z := 4096.
Definition SEGMENT_BYTES : Z := 64 ≪ 20.
Definition RECORD_HEADER : Z := 20.
Definition RECORD_ALIGN : Z := 8.

(** ** Kinds *)

Inductive Kind : Type :=
| Insert | Update | Delta | Delete | KCommit | Attach | Ddl | Checkpoint.

#[global] Instance Kind_eq_dec : EqDecision Kind.
Proof. solve_decision. Defined.

Definition Kind_byte (k : Kind) : Z :=
  match k with
  | Insert => 1 | Update => 2 | Delta => 3 | Delete => 4
  | KCommit => 5 | Attach => 6 | Ddl => 7 | Checkpoint => 8
  end.

Definition Kind_of (byte : Z) : option Kind :=
  if byte =? 1 then Some Insert
  else if byte =? 2 then Some Update
  else if byte =? 3 then Some Delta
  else if byte =? 4 then Some Delete
  else if byte =? 5 then Some KCommit
  else if byte =? 6 then Some Attach
  else if byte =? 7 then Some Ddl
  else if byte =? 8 then Some Checkpoint
  else None.

(** The seed every checksum in segment [sequence] starts from. *)
Definition seed (sequence : Z) : Z := Z.lxor (wrap 32 sequence) (wrap 32 (sequence ≫ 32)).

(** ** Reading integers *)

Definition word_at (bs : list Z) (at_ : Z) : Z := le_val (slice at_ (at_ + 8) bs).
Definition half_at (bs : list Z) (at_ : Z) : Z := le_val (slice at_ (at_ + 4) bs).

(** ** The segment header *)

Record SegmentHeader : Type := mkSegmentHeader {
  seg_lane : Z;
  seg_sequence : Z;
  seg_database : Z;
}.

Section format.
Context `{Machine}.

Definition SegmentHeader_encode (h : SegmentHeader) : list Z :=
  let bs := replicate (Z.to_nat SEGMENT_HEADER) 0 in
  let bs := put_slice 0 SEGMENT_MAGIC bs in
  let bs := put_slice 8 (le_bytes 4 SEGMENT_VERSION) bs in
  let bs := put_slice 12 [seg_lane h] bs in
  let bs := put_slice 16 (le_bytes 8 (seg_sequence h)) bs in
  let bs := put_slice 24 (le_bytes 8 (seg_database h)) bs in
  let crc := crc32c (slice 0 40 bs) in
  put_slice 40 (le_bytes 4 crc) bs.

Definition SegmentHeader_decode (bs : list Z) : option SegmentHeader :=
  bs ← get_to SEGMENT_HEADER bs;
  let word := word_at bs in
  let half := half_at bs in
  let sound :=
    bool_decide (slice 0 8 bs = SEGMENT_MAGIC)
    && (half 8 =? SEGMENT_VERSION)
    && bool_decide (slice 13 16 bs = [0; 0; 0])
    && (word 32 =? 0)
    && (half 40 =? crc32c (slice 0 40 bs))
    && forallb (λ b, b =? 0) (drop 44 bs) in
  if sound
  then Some {| seg_lane := byte_at bs 12; seg_sequence := word 16; seg_database := word 24 |}
  else None.

(** ** Records *)

Record RecordHeader : Type := mkRecordHeader {
  rec_kind : Kind;
  rec_lane : Z;
  rec_flags : Z;
  rec_gsn : Z;
}.

Definition next_multiple_of (n m : Z) : Z :=
  if n `mod` m =? 0 then n else n + (m - n `mod` m).

Definition record_bytes (len : Z) : Z := next_multiple_of (RECORD_HEADER + len) RECORD_ALIGN.

(** [None] is the panic on a payload of 4 GiB or more. *)
Definition encode_record (out : list Z) (h : RecordHeader) (payload : list Z) (seed : Z) :
    option (list Z) :=
  if fitsb 32 (zlen payload) then
    let start := zlen out in
    let out := out ++ le_bytes 4 (zlen payload) in
    let out := out ++ [Kind_byte (rec_kind h)] in
    let out := out ++ [rec_lane h] in
    let out := out ++ le_bytes 2 (rec_flags h) in
    let out := out ++ le_bytes 8 (rec_gsn h) in
    let crc := extend (extend seed (slice start (start + 16) out)) payload in
    let out := out ++ le_bytes 4 crc in
    let out := out ++ payload in
    Some (resize (Z.to_nat (start + record_bytes (zlen payload))) 0 out)
  else None.

Definition decode_record (bs : list Z) (seed : Z) : option (RecordHeader * list Z * Z) :=
  head ← get_to RECORD_HEADER bs;
  let len := half_at head 0 in
  kind ← Kind_of (byte_at head 4);
  let flags := le_val [byte_at head 6; byte_at head 7] in
  let gsn := word_at head 8 in
  let crc := half_at head 16 in
  let total := record_bytes len in
  payload ← get_range RECORD_HEADER (RECORD_HEADER + len) bs;
  padding ← get_range (RECORD_HEADER + len) total bs;
  if existsb (λ b, negb (b =? 0)) padding
     || negb (extend (extend seed (slice 0 16 head)) payload =? crc)
  then None
  else Some ({| rec_kind := kind; rec_lane := byte_at head 5; rec_flags := flags;
                rec_gsn := gsn |}, payload, total).

End format.

(** ** The payload of a Commit *)

Record Commit : Type := mkCommit {
  c_txn : Z;
  c_commit_ts : Z;
  c_dep_ts : Z;
  c_records : Z;
  c_bytes : Z;
}.

Definition Commit_LEN : Z := 36.

Definition Commit_encode (c : Commit) : list Z :=
  let out := replicate (Z.to_nat Commit_LEN) 0 in
  let out := put_slice 0 (le_bytes 8 (c_txn c)) out in
  let out := put_slice 8 (le_bytes 8 (c_commit_ts c)) out in
  let out := put_slice 16 (le_bytes 8 (c_dep_ts c)) out in
  let out := put_slice 24 (le_bytes 4 (c_records c)) out in
  put_slice 28 (le_bytes 8 (c_bytes c)) out.

Definition Commit_decode (bs : list Z) : option Commit :=
  if negb (zlen bs =? Commit_LEN) then None else
  let word := word_at bs in
  Some {| c_txn := word 0; c_commit_ts := word 8; c_dep_ts := word 16;
          c_records := half_at bs 24; c_bytes := word 28 |}.

(** ** The payload of a Checkpoint *)

Record Checkpointed : Type := mkCheckpointed {
  ck_table : Z;
  ck_stripe : Z;
  ck_c_s : Z;
  ck_root : Z;
  ck_generation : Z;
}.

Definition Checkpointed_LEN : Z := 32.

Definition Checkpointed_entry (e : Checkpointed) : list Z :=
  le_bytes 4 (ck_table e) ++ le_bytes 4 (ck_stripe e) ++ le_bytes 8 (ck_c_s e)
  ++ le_bytes 8 (ck_root e) ++ le_bytes 8 (ck_generation e).

(** [None] is the panic on more entries than a [u32] counts. *)
Definition Checkpointed_encode (entries : list Checkpointed) : option (list Z) :=
  if fitsb 32 (zlen entries) then
    Some (foldl (λ out e, out ++ Checkpointed_entry e)
            (le_bytes 4 (zlen entries) ++ replicate 4 0) entries)
  else None.

(** [chunks_exact(n)] of a slice whose length is a multiple of [n]. *)
Fixpoint chunks (count : nat) (n : Z) (bs : list Z) : list (list Z) :=
  match count with
  | O => []
  | S count => take (Z.to_nat n) bs :: chunks count n (drop (Z.to_nat n) bs)
  end.

Definition Checkpointed_decode (bs : list Z) : option (list Checkpointed) :=
  if zlen bs <? 8 then None else
  let count := half_at bs 0 in
  (* the multiplication of two values under 2^32 does not overflow a usize *)
  if negb (zlen bs - 8 =? count * Checkpointed_LEN) then None else
  Some ((λ entry, {| ck_table := half_at entry 0; ck_stripe := half_at entry 4;
                     ck_c_s := word_at entry 8; ck_root := word_at entry 16;
                     ck_generation := word_at entry 24 |})
        <$> chunks (Z.to_nat count) Checkpointed_LEN (drop 8 bs)).

(** * Well formed headers *)

Definition RecordHeader_ok (h : RecordHeader) : Prop :=
  u8 (rec_lane h) ∧ u16 (rec_flags h) ∧ u64 (rec_gsn h).
Definition SegmentHeader_ok (h : SegmentHeader) : Prop :=
  u8 (seg_lane h) ∧ u64 (seg_sequence h) ∧ u64 (seg_database h).
Definition Commit_ok (c : Commit) : Prop :=
  u64 (c_txn c) ∧ u64 (c_commit_ts c) ∧ u64 (c_dep_ts c) ∧ u32 (c_records c) ∧ u64 (c_bytes c).
Definition Checkpointed_ok (e : Checkpointed) : Prop :=
  u32 (ck_table e) ∧ u32 (ck_stripe e) ∧ u64 (ck_c_s e) ∧ u64 (ck_root e)
  ∧ u64 (ck_generation e).

#[global] Instance RecordHeader_ok_dec h : Decision (RecordHeader_ok h).
Proof. unfold RecordHeader_ok. apply _. Defined.
#[global] Instance SegmentHeader_ok_dec h : Decision (SegmentHeader_ok h).
Proof. unfold SegmentHeader_ok. apply _. Defined.
#[global] Instance Commit_ok_dec c : Decision (Commit_ok c).
Proof. unfold Commit_ok. apply _. Defined.

Lemma Kind_of_byte k : Kind_of (Kind_byte k) = Some k.
Proof. by destruct k. Qed.

Lemma Kind_byte_of b k : Kind_of b = Some k → Kind_byte k = b.
Proof.
  unfold Kind_of.
  repeat match goal with
  | |- context [b =? ?n] => destruct (Z.eqb_spec b n) as [->|]; [by intros [= <-]|]
  end. done.
Qed.

Lemma Kind_byte_ok k : u8 (Kind_byte k).
Proof. by destruct k. Qed.

Lemma seed_fits sequence : u32 (seed sequence).
Proof. apply fits_lxor; [lia|by apply wrap_fits..]. Qed.

(** Below four billion segments the seed is the sequence, so no two share one. *)
Lemma seed_small sequence : u32 sequence → seed sequence = sequence.
Proof.
  intros Hs. unfold seed. rewrite wrap_id by done.
  replace (sequence ≫ 32) with 0; [by rewrite Z.lxor_0_r|].
  symmetry. rewrite Z.shiftr_div_pow2 by lia. by apply Z.div_small.
Qed.

Lemma record_bytes_spec len :
  0 ≤ len → RECORD_HEADER + len ≤ record_bytes len < RECORD_HEADER + len + 8
            ∧ record_bytes len `mod` 8 = 0.
Proof.
  intros. unfold record_bytes, next_multiple_of, RECORD_HEADER, RECORD_ALIGN.
  pose proof (Z.mod_pos_bound (20 + len) 8 ltac:(lia)).
  destruct (Z.eqb_spec ((20 + len) `mod` 8) 0); [lia|]. split; [lia|].
  rewrite Z.add_sub_assoc, (Zmod_eq (20 + len) 8) by lia.
  replace (20 + len + 8 - (20 + len - (20 + len) / 8 * 8)) with (8 * (1 + (20 + len) / 8)) by lia.
  rewrite Z.mul_comm. apply Z.mod_mul. lia.
Qed.

Lemma half_at_skip pre bs at_ :
  zlen pre ≤ at_ → half_at (pre ++ bs) at_ = half_at bs (at_ - zlen pre).
Proof. intros. unfold half_at. rewrite slice_skip by lia. do 2 f_equal. lia. Qed.

Lemma word_at_skip pre bs at_ :
  zlen pre ≤ at_ → word_at (pre ++ bs) at_ = word_at bs (at_ - zlen pre).
Proof. intros. unfold word_at. rewrite slice_skip by lia. do 2 f_equal. lia. Qed.

Lemma byte_at_skip pre bs at_ :
  zlen pre ≤ at_ → byte_at (pre ++ bs) at_ = byte_at bs (at_ - zlen pre).
Proof.
  intros. unfold byte_at, zlen in *. rewrite lookup_app_r by lia. do 2 f_equal. lia.
Qed.

Lemma half_at_here x bs : u32 x → half_at (le_bytes 4 x ++ bs) 0 = x.
Proof. intros. unfold half_at. rewrite slice_hit by zlen_lia. by apply le_val_bytes. Qed.

Lemma word_at_here x bs : u64 x → word_at (le_bytes 8 x ++ bs) 0 = x.
Proof. intros. unfold word_at. rewrite slice_hit by zlen_lia. by apply le_val_bytes. Qed.

Lemma byte_at_here x bs : byte_at (x :: bs) 0 = x.
Proof. done. Qed.

Lemma half_at_fits bs a : bytes_ok bs → 0 ≤ a → a + 4 ≤ zlen bs → u32 (half_at bs a).
Proof.
  intros. unfold half_at. pose proof (le_val_fits (slice a (a + 4) bs)) as Hf.
  fold (zlen (slice a (a + 4) bs)) in Hf. rewrite zlen_slice in Hf by lia.
  replace (8 * (a + 4 - a)) with 32 in Hf by lia. auto with machine.
Qed.

Lemma word_at_fits bs a : bytes_ok bs → 0 ≤ a → a + 8 ≤ zlen bs → u64 (word_at bs a).
Proof.
  intros. unfold word_at. pose proof (le_val_fits (slice a (a + 8) bs)) as Hf.
  fold (zlen (slice a (a + 8) bs)) in Hf. rewrite zlen_slice in Hf by lia.
  replace (8 * (a + 8 - a)) with 64 in Hf by lia. auto with machine.
Qed.

(** Reads a field out of a concatenation of fields. *)
Ltac read_field :=
  cbn [app]; rewrite ?half_at_skip, ?word_at_skip, ?byte_at_skip by zlen_lia.

Section record.
Context `{Machine}.
Implicit Types (h : RecordHeader) (p : list Z) (s : Z).

(** The sixteen bytes of a record the checksum covers besides the payload. *)
Definition record_head h p : list Z :=
  le_bytes 4 (zlen p) ++ [Kind_byte (rec_kind h)] ++ [rec_lane h]
  ++ le_bytes 2 (rec_flags h) ++ le_bytes 8 (rec_gsn h).

Definition record_crc h p s : Z := extend (extend s (record_head h p)) p.

Definition record_pad p : list Z :=
  replicate (Z.to_nat (record_bytes (zlen p) - RECORD_HEADER - zlen p)) 0.

Definition record_layout h p s : list Z :=
  record_head h p ++ le_bytes 4 (record_crc h p s) ++ p ++ record_pad p.

Lemma zlen_record_head h p : zlen (record_head h p) = 16.
Proof. unfold record_head. by autorewrite with zlen. Qed.

Lemma zlen_record_pad p : zlen (record_pad p) = record_bytes (zlen p) - RECORD_HEADER - zlen p.
Proof.
  unfold record_pad. rewrite zlen_replicate.
  pose proof (record_bytes_spec (zlen p) (zlen_nonneg p)). lia.
Qed.

Lemma zlen_record_layout h p s : zlen (record_layout h p s) = record_bytes (zlen p).
Proof.
  unfold record_layout. rewrite !zlen_app, zlen_record_head, zlen_record_pad, zlen_le_bytes.
  unfold RECORD_HEADER. lia.
Qed.

Lemma encode_record_layout out h p s :
  u32 (zlen p) → encode_record out h p s = Some (out ++ record_layout h p s).
Proof.
  intros Hp%fitsb_spec. unfold encode_record. rewrite Hp. f_equal.
  set (crc := extend (extend s _) p).
  assert (Ecrc : crc = record_crc h p s).
  { subst crc. unfold record_crc. do 2 f_equal. rewrite <-!app_assoc.
    rewrite slice_skip by zlen_lia. change (_ ++ _) with (record_head h p) at 1.
    rewrite slice_all; [done|lia|]. rewrite zlen_record_head. lia. }
  rewrite Ecrc. rewrite <-!app_assoc.
  unfold record_layout. rewrite !app_assoc.
  match goal with |- resize _ _ ?l = ?l' ++ _ => replace l' with l end.
  2:{ unfold record_head. by rewrite <-!app_assoc. }
  rewrite resize_ge.
  - f_equal. unfold record_pad. f_equal.
    match goal with |- context [length ?l] =>
      assert (zlen l = zlen out + RECORD_HEADER + zlen p) as Hl end.
    { rewrite !zlen_app, !zlen_le_bytes. unfold RECORD_HEADER. autorewrite with zlen. lia. }
    unfold zlen in Hl at 1. lia.
  - match goal with |- (length ?l ≤ _)%nat =>
      assert (zlen l = zlen out + RECORD_HEADER + zlen p) as Hl end.
    { rewrite !zlen_app, !zlen_le_bytes. unfold RECORD_HEADER. autorewrite with zlen. lia. }
    unfold zlen in Hl at 1.
    pose proof (record_bytes_spec (zlen p) (zlen_nonneg p)). lia.
Qed.
Lemma record_head_ok h p : RecordHeader_ok h → bytes_ok (record_head h p).
Proof.
  intros (?&?&?). unfold record_head. rewrite !Forall_app.
  repeat split; auto with machine; constructor; auto using Kind_byte_ok.
Qed.

Lemma record_crc_fits h p s :
  RecordHeader_ok h → bytes_ok p → u32 s → u32 (record_crc h p s).
Proof. intros. apply extend_fits; [apply extend_fits|]; auto using record_head_ok. Qed.

Lemma record_layout_ok h p s :
  RecordHeader_ok h → bytes_ok p → bytes_ok (record_layout h p s).
Proof.
  intros. unfold record_layout, record_pad. rewrite !Forall_app.
  repeat split; auto with machine. by apply record_head_ok.
Qed.

Lemma byte_pair bs a :
  0 ≤ a → a + 2 ≤ zlen bs → [byte_at bs a; byte_at bs (a + 1)] = slice a (a + 2) bs.
Proof.
  intros. rewrite (slice_split a (a + 1)), byte_at_slice by lia.
  replace (a + 2) with (a + 1 + 1) by lia. rewrite byte_at_slice by lia. done.
Qed.

Lemma existsb_zeros n : existsb (λ b, negb (b =? 0)) (replicate n 0) = false.
Proof. induction n; simpl; auto. Qed.

Lemma existsb_nonzero bs :
  existsb (λ b, negb (b =? 0)) bs = false → bs = replicate (length bs) 0.
Proof.
  induction bs as [|b bs IH]; simpl; [done|].
  destruct (Z.eqb_spec b 0) as [->|]; simpl; [|done]. intros E. f_equal. auto.
Qed.

Lemma decode_record_layout h p s rest :
  RecordHeader_ok h → bytes_ok p → u32 (zlen p) → u32 s →
  decode_record (record_layout h p s ++ rest) s = Some (h, p, record_bytes (zlen p)).
Proof.
  intros Hh Hp Hlen Hs. pose proof (record_crc_fits h p s Hh Hp Hs) as Hcrc.
  pose proof (zlen_nonneg p). pose proof (record_bytes_spec (zlen p) ltac:(lia)) as [Hrb _].
  pose proof (zlen_record_head h p) as Hzh. pose proof (zlen_record_pad p) as Hzp.
  unfold record_layout. rewrite <-!app_assoc.
  set (head := record_head h p ++ le_bytes 4 (record_crc h p s)).
  assert (Hhead : zlen head = RECORD_HEADER).
  { subst head. rewrite zlen_app, Hzh, zlen_le_bytes. done. }
  rewrite (app_assoc (record_head h p)). fold head.
  unfold decode_record, get_to, RECORD_HEADER in *.
  rewrite get_range_in by (rewrite ?zlen_app; zlen_lia). bind_step.
  rewrite slice_hit by lia.
  assert (E0 : half_at head 0 = zlen p).
  { subst head. unfold record_head. rewrite <-!app_assoc. by apply half_at_here. }
  assert (E4 : byte_at head 4 = Kind_byte (rec_kind h)).
  { subst head. unfold record_head. rewrite <-!app_assoc. by read_field. }
  assert (E5 : byte_at head 5 = rec_lane h).
  { subst head. unfold record_head. rewrite <-!app_assoc. by read_field. }
  assert (E6 : le_val [byte_at head 6; byte_at head 7] = rec_flags h).
  { change 7 with (6 + 1). rewrite byte_pair by lia. subst head. unfold record_head.
    rewrite <-!app_assoc. slice_field. apply le_val_bytes. apply Hh. }
  assert (E8 : word_at head 8 = rec_gsn h).
  { subst head. unfold record_head. rewrite <-!app_assoc. read_field.
    apply word_at_here. apply Hh. }
  assert (E16 : half_at head 16 = record_crc h p s).
  { subst head. rewrite half_at_skip by lia. rewrite Hzh, <-(app_nil_r (le_bytes _ _)).
    by apply half_at_here. }
  rewrite E0, E4, E5, E6, E8, E16, Kind_of_byte. bind_step.
  rewrite (get_range_in 20 (20 + zlen p)) by (rewrite ?zlen_app; zlen_lia). bind_step.
  rewrite slice_skip, slice_hit by zlen_lia.
  rewrite get_range_in by (rewrite ?zlen_app; zlen_lia). bind_step.
  rewrite !slice_skip, slice_hit by zlen_lia.
  unfold record_pad at 1. rewrite existsb_zeros. simpl orb.
  assert (slice 0 16 head = record_head h p) as ->.
  { subst head. by rewrite slice_hit by lia. }
  fold (record_crc h p s). rewrite Z.eqb_refl. by destruct h.
Qed.
(** What [decode_record] accepts is exactly what [encode_record] writes. *)
Lemma decode_record_inv bs s h p n :
  bytes_ok bs → decode_record bs s = Some (h, p, n) →
  RecordHeader_ok h ∧ bytes_ok p ∧ u32 (zlen p) ∧ n = record_bytes (zlen p)
  ∧ zlen p = half_at bs 0 ∧ bs = record_layout h p s ++ drop (Z.to_nat n) bs.
Proof.
  intros Hok. unfold decode_record, get_to.
  destruct (get_range 0 RECORD_HEADER bs) as [head|] eqn:Eh; [|done]. bind_step.
  destruct (Kind_of (byte_at head 4)) as [kind|] eqn:Ek; [|done]. bind_step.
  destruct (get_range RECORD_HEADER _ bs) as [payload|] eqn:Ep; [|done]. bind_step.
  destruct (get_range _ (record_bytes _) bs) as [pad|] eqn:Ed; [|done]. bind_step.
  destruct (existsb _ pad) eqn:Ez; [done|]. simpl orb.
  destruct (Z.eqb_spec (extend (extend s (slice 0 16 head)) payload) (half_at head 16))
    as [Ecrc|]; [|done]. simpl. intros [= <- <- <-].
  apply get_range_Some in Eh as (_&Hbs&->). apply get_range_Some in Ep as ([_ Hl0]&Hl&->).
  apply get_range_Some in Ed as (_&Ht&->). unfold RECORD_HEADER in *.
  set (head := slice 0 20 bs) in *. set (len := half_at head 0) in *.
  assert (Hh : zlen head = 20) by (subst head; rewrite zlen_slice by lia; lia).
  assert (Hhok : bytes_ok head) by (subst head; auto with machine).
  assert (Hpl : zlen (slice 20 (20 + len) bs) = len) by (rewrite zlen_slice by lia; lia).
  assert (Hlen : u32 len).
  { apply half_at_fits; [done|lia..]. }
  assert (Hhead : head = record_head {| rec_kind := kind; rec_lane := byte_at head 5;
      rec_flags := le_val [byte_at head 6; byte_at head 7]; rec_gsn := word_at head 8 |}
      (slice 20 (20 + len) bs) ++ le_bytes 4 (half_at head 16)).
  { unfold record_head. cbn [rec_kind rec_lane rec_flags rec_gsn]. rewrite Hpl. change 7 with (6 + 1). rewrite byte_pair by lia.
    rewrite (Kind_byte_of _ _ Ek). subst len. unfold half_at, word_at.
    rewrite !le_bytes_val by (auto with machine || (apply Nat2Z.inj; apply zlen_slice; lia)).
    rewrite <-!byte_at_slice by lia. rewrite <-!app_assoc.
    rewrite <-(slice_split 8 16 20), <-(slice_split 6 8 20), <-(slice_split 5 6 20),
      <-(slice_split 4 5 20), <-(slice_split 0 4 20) by lia.
    by rewrite slice_all by lia. }
  pose proof (record_bytes_spec len ltac:(lia)) as [Hrb _]. unfold RECORD_HEADER in Hrb.
  rewrite Hpl. split_and!; [| |done|done| |].
  - split_and!; simpl; [auto with machine| |].
    + apply (le_val_fits [_; _]). repeat constructor; by apply byte_at_ok.
    + apply word_at_fits; [done|lia..].
  - auto with machine.
  - subst len head. unfold half_at. f_equal. rewrite slice_slice by lia. done.
  - rewrite <-(slice_drop (record_bytes len) bs) at 1. f_equal.
    rewrite (slice_split 0 20), (slice_split 20 (20 + len)) by lia. fold head.
    rewrite Hhead at 1. unfold record_layout. rewrite <-app_assoc. f_equal.
    assert (Hr16 : slice 0 16 head = record_head {| rec_kind := kind;
      rec_lane := byte_at head 5; rec_flags := le_val [byte_at head 6; byte_at head 7];
      rec_gsn := word_at head 8 |} (slice 20 (20 + len) bs)).
    { rewrite Hhead at 1. by rewrite slice_hit by (rewrite ?zlen_record_head; lia). }
    unfold record_crc. rewrite <-Hr16, Ecrc. f_equal. f_equal.
    unfold record_pad. rewrite Hpl. rewrite (existsb_nonzero _ Ez). f_equal.
    apply Nat2Z.inj. fold (zlen (slice (20 + len) (record_bytes len) bs)).
    rewrite zlen_slice by lia. unfold RECORD_HEADER. lia.
Qed.
(** A decoded record whose length field is the one [l] was written with is all of [l]. *)
Lemma decode_record_whole l rest s h p n :
  bytes_ok (l ++ rest) → 4 ≤ zlen l → zlen l = record_bytes (half_at l 0) →
  decode_record (l ++ rest) s = Some (h, p, n) →
  l = record_layout h p s ∧ RecordHeader_ok h ∧ bytes_ok p ∧ zlen p = half_at l 0.
Proof.
  intros Hok H4 Hl Hd. destruct (decode_record_inv _ _ _ _ _ Hok Hd) as (Hh&Hp&_&->&El&E).
  assert (E0 : half_at (l ++ rest) 0 = half_at l 0).
  { unfold half_at. by rewrite slice_in by lia. }
  rewrite E0 in El. split_and!; try done.
  apply app_inj_1 in E as [E _]; [done|].
  apply Nat2Z.inj. fold (zlen l). fold (zlen (record_layout h p s)).
  by rewrite zlen_record_layout, El.
Qed.

Lemma record_layout_len_field h p s : u32 (zlen p) → half_at (record_layout h p s) 0 = zlen p.
Proof.
  intros. unfold record_layout, record_head. rewrite <-!app_assoc. by apply half_at_here.
Qed.

Lemma record_layout_min h p s : 24 ≤ zlen (record_layout h p s).
Proof.
  rewrite zlen_record_layout.
  destruct (record_bytes_spec (zlen p) (zlen_nonneg p)) as [Hr Hm]. unfold RECORD_HEADER in Hr.
  pose proof (zlen_nonneg p). pose proof (Z.div_mod (record_bytes (zlen p)) 8). lia.
Qed.

Lemma length_zlen {A B} (l : list A) (l' : list B) : zlen l = zlen l' → length l = length l'.
Proof. unfold zlen. lia. Qed.

(** Equal layouts of payloads of one length have equal parts. *)
Lemma record_layout_parts hd c p d h' p' s' :
  hd ++ c ++ p ++ d = record_layout h' p' s' →
  zlen hd = 16 → zlen c = 4 → zlen p = zlen p' →
  hd = record_head h' p' ∧ c = le_bytes 4 (record_crc h' p' s') ∧ p = p' ∧ d = record_pad p'.
Proof.
  intros E Hhd Hc Hp. unfold record_layout in E.
  apply app_inj_1 in E as [-> E]; [|apply length_zlen; by rewrite zlen_record_head].
  apply app_inj_1 in E as [-> E]; [|apply length_zlen; by rewrite zlen_le_bytes].
  by apply app_inj_1 in E as [-> ->]; [|apply length_zlen].
Qed.

Lemma decode_record_seed h p s s' rest :
  RecordHeader_ok h → bytes_ok p → u32 (zlen p) → u32 s → u32 s' → s ≠ s' → bytes_ok rest →
  decode_record (record_layout h p s ++ rest) s' = None.
Proof.
  intros Hh Hp Hlen Hs Hs' Hne Hrest.
  destruct (decode_record _ s') as [[[h' p'] n']|] eqn:E; [exfalso|done].
  pose proof (record_layout_min h p s).
  apply decode_record_whole in E as (E&Hh'&Hp'&El).
  - rewrite record_layout_len_field in El by done.
    apply record_layout_parts in E as (Eh&Ec&->&_);
      [|by rewrite zlen_record_head|by rewrite zlen_le_bytes|done].
    apply (f_equal le_val) in Ec. rewrite !le_val_bytes in Ec by (by apply record_crc_fits).
    unfold record_crc in Ec. rewrite Eh in Ec.
    pose proof (record_head_ok h' p' Hh').
    apply extend_seed_inj in Ec; [|by apply extend_fits..|done].
    by apply extend_seed_inj in Ec.
  - rewrite Forall_app. split; [by apply record_layout_ok|done].
  - lia.
  - by rewrite record_layout_len_field, zlen_record_layout.
Qed.

(** One byte of a string replaced by another, at its place. *)
Lemma insert_split (l : list Z) (i : nat) x b :
  l !! i = Some x →
  l = take i l ++ x :: drop (S i) l ∧ <[i:=b]> l = take i l ++ b :: drop (S i) l.
Proof.
  intros Hx. split; [by rewrite take_drop_middle|].
  apply insert_take_drop, lookup_lt_is_Some. by eexists.
Qed.

Lemma extend_insert_ne s l i x b :
  u32 s → bytes_ok l → l !! i = Some x → u8 b → b ≠ x → extend s (<[i:=b]> l) ≠ extend s l.
Proof.
  intros Hs Hl Hx Hb Hne E. destruct (insert_split l i x b Hx) as [El Ei].
  rewrite El in E at 2. rewrite Ei in E.
  apply Hne. eapply extend_byte_inj; [done|..|exact E]; try done.
  - by apply Forall_take.
  - by apply Forall_drop.
  - by eapply Forall_lookup_1.
Qed.

Lemma record_crc_app h p s :
  RecordHeader_ok h → bytes_ok p → u32 s → record_crc h p s = extend s (record_head h p ++ p).
Proof. intros. apply extend_app; auto using record_head_ok. Qed.

Lemma insert_ne_self (l : list Z) i x b : l !! i = Some x → b ≠ x → <[i:=b]> l ≠ l.
Proof.
  intros Hx Hne E. apply Hne. apply (f_equal (λ l : list Z, l !! i)) in E.
  rewrite list_lookup_insert_eq in E by (by eapply lookup_lt_Some). congruence.
Qed.

(** No record whose payload is [p] long differs from [record_layout h p s] in just one byte. *)
Lemma record_layout_insert h p s h' p' i x b :
  RecordHeader_ok h → bytes_ok p → RecordHeader_ok h' → bytes_ok p' →
  u32 s → zlen p = zlen p' → record_layout h p s !! i = Some x → u8 b → b ≠ x →
  <[i:=b]> (record_layout h p s) ≠ record_layout h' p' s.
Proof.
  intros Hh Hp Hh' Hp' Hs Hlen Hx Hb Hne E.
  pose proof (zlen_record_head h p) as Z1. unfold zlen in Z1.
  pose proof (zlen_le_bytes 4 (record_crc h p s)) as Z2. unfold zlen in Z2.
  assert (Hcrc : le_bytes 4 (record_crc h p s) = le_bytes 4 (record_crc h' p' s) →
    extend s (record_head h p ++ p) = extend s (record_head h' p' ++ p')).
  { intros Ec. apply (f_equal le_val) in Ec. rewrite !le_val_bytes in Ec
      by (by apply record_crc_fits). by rewrite !record_crc_app in Ec. }
  assert (Hbody : bytes_ok (record_head h p ++ p)).
  { apply Forall_app; auto using record_head_ok. }
  unfold record_layout in E at 1, Hx.
  destruct (decide (i < 16)%nat) as [Hi|Hi]; [|destruct (decide (i < 20)%nat) as [Hi'|Hi'];
    [|destruct (decide (i < 20 + length p)%nat) as [Hi2|Hi2]]].
  - rewrite insert_app_l in E by lia. rewrite lookup_app_l in Hx by lia.
    apply record_layout_parts in E as (Eh&Ec&->&_);
      [|unfold zlen; rewrite length_insert; lia|by rewrite zlen_le_bytes|done].
    apply Hcrc in Ec. rewrite <-Eh, <-insert_app_l in Ec by lia.
    symmetry in Ec. eapply (extend_insert_ne _ _ _ x) in Ec; try done. by rewrite lookup_app_l by lia.
  - rewrite insert_app_r_alt, insert_app_l in E by lia.
    rewrite lookup_app_r, lookup_app_l in Hx by lia.
    apply record_layout_parts in E as (Eh&Ec&->&_);
      [|by rewrite zlen_record_head|unfold zlen; rewrite length_insert; lia|done].
    eapply insert_ne_self; [exact Hx|exact Hne|]. rewrite Ec.
    unfold record_crc. rewrite <-Eh. reflexivity.
  - rewrite insert_app_r_alt, insert_app_r_alt, insert_app_l in E by lia.
    rewrite lookup_app_r, lookup_app_r, lookup_app_l in Hx by lia.
    apply record_layout_parts in E as (Eh&Ec&Ep&_); [|by rewrite zlen_record_head|
      by rewrite zlen_le_bytes|unfold zlen in *; rewrite length_insert; lia].
    apply Hcrc in Ec. rewrite <-Ep in Ec at 2. rewrite <-Eh, <-insert_app_r in Ec.
    symmetry in Ec. eapply (extend_insert_ne _ _ _ x) in Ec; try done.
  - rewrite !insert_app_r_alt in E by lia. rewrite !lookup_app_r in Hx by lia.
    apply record_layout_parts in E as (_&_&->&Ed);
      [|by rewrite zlen_record_head|by rewrite zlen_le_bytes|done].
    eapply insert_ne_self; [exact Hx|exact Hne|exact Ed].
Qed.

Lemma decode_record_damaged h p s rest i x b :
  RecordHeader_ok h → bytes_ok p → u32 (zlen p) → u32 s → bytes_ok rest →
  (4 ≤ i)%nat → record_layout h p s !! i = Some x → u8 b → b ≠ x →
  decode_record (<[i:=b]> (record_layout h p s) ++ rest) s = None.
Proof.
  intros Hh Hp Hlen Hs Hrest Hi Hx Hb Hne.
  destruct (decode_record _ s) as [[[h' p'] n']|] eqn:E; [exfalso|done].
  pose proof (record_layout_min h p s) as Hmin.
  assert (Hzl : zlen (<[i:=b]> (record_layout h p s)) = zlen (record_layout h p s)).
  { unfold zlen. by rewrite length_insert. }
  assert (Hf : half_at (<[i:=b]> (record_layout h p s)) 0 = zlen p).
  { rewrite <-(record_layout_len_field h p s) by done. unfold half_at, slice. f_equal.
    rewrite !drop_0, take_insert, decide_False by lia. done. }
  apply decode_record_whole in E as (E&Hh'&Hp'&El).
  - rewrite Hf in El. by eapply record_layout_insert in E.
  - apply Forall_app; split; [|done]. apply Forall_insert; [by apply record_layout_ok|done].
  - lia.
  - by rewrite Hzl, Hf, zlen_record_layout.
Qed.
End record.

(** * Segment headers, commits and checkpoints *)

Lemma zlen_SEGMENT_MAGIC : zlen SEGMENT_MAGIC = 8.
Proof. done. Qed.
#[export] Hint Rewrite zlen_SEGMENT_MAGIC : zlen.

Section header.
Context `{Machine}.
Implicit Types h : SegmentHeader.

(** The forty bytes the header's checksum covers. *)
Definition header_fields h : list Z :=
  SEGMENT_MAGIC ++ le_bytes 4 SEGMENT_VERSION ++ [seg_lane h] ++ replicate 3 0
  ++ le_bytes 8 (seg_sequence h) ++ le_bytes 8 (seg_database h) ++ replicate 8 0.

Definition header_layout h : list Z :=
  header_fields h ++ le_bytes 4 (crc32c (header_fields h)) ++ replicate (Z.to_nat 4052) 0.

Lemma zlen_header_fields h : zlen (header_fields h) = 40.
Proof. unfold header_fields. by autorewrite with zlen. Qed.

Lemma zlen_header_layout h : zlen (header_layout h) = SEGMENT_HEADER.
Proof.
  unfold header_layout. autorewrite with zlen. rewrite zlen_header_fields. done.
Qed.

Lemma SegmentHeader_encode_layout h : SegmentHeader_encode h = header_layout h.
Proof.
  unfold SegmentHeader_encode.
  change (replicate (Z.to_nat SEGMENT_HEADER) 0) with
    ([] ++ replicate (Z.to_nat (4096 - zlen (@nil Z))) 0).
  rewrite !put_slice_zeros by zlen_lia. fold_zeros.
  assert (E : slice 0 40 (header_fields h ++ replicate (Z.to_nat 4056) 0) = header_fields h).
  { by rewrite slice_hit by (rewrite ?zlen_header_fields; lia). }
  unfold header_layout, header_fields in *. rewrite <-!app_assoc in *. cbn [app] in *.
  rewrite <-replicate_add in E. change (8 + Z.to_nat 4056)%nat with (Z.to_nat 4064) in E.
  change (Z.to_nat 3) with 3%nat. change (Z.to_nat 8) with 8%nat. by rewrite E.
Qed.

Lemma header_fields_ok h : SegmentHeader_ok h → bytes_ok (header_fields h).
Proof.
  intros (?&?&?). unfold header_fields. rewrite !Forall_app.
  repeat split; auto with machine; by repeat constructor.
Qed.

Lemma crc32c_fits bs : bytes_ok bs → u32 (crc32c bs).
Proof. by apply extend_fits. Qed.

Lemma forallb_zeros n : forallb (λ b, b =? 0) (replicate n 0) = true.
Proof. induction n; simpl; auto. Qed.

Lemma forallb_all_zero bs : forallb (λ b, b =? 0) bs = true → bs = replicate (length bs) 0.
Proof.
  induction bs as [|b bs IH]; simpl; [done|].
  destruct (Z.eqb_spec b 0) as [->|]; simpl; [|done]. intros E. f_equal. auto.
Qed.

Lemma header_layout_fields h : SegmentHeader_ok h →
  slice 0 8 (header_layout h) = SEGMENT_MAGIC
  ∧ half_at (header_layout h) 8 = SEGMENT_VERSION
  ∧ byte_at (header_layout h) 12 = seg_lane h
  ∧ slice 13 16 (header_layout h) = [0; 0; 0]
  ∧ word_at (header_layout h) 16 = seg_sequence h
  ∧ word_at (header_layout h) 24 = seg_database h
  ∧ word_at (header_layout h) 32 = 0.
Proof.
  intros (Hlane&Hseq&Hdb). unfold header_layout, header_fields. rewrite <-!app_assoc.
  generalize (le_bytes 4 (crc32c (header_fields h)) ++ replicate (Z.to_nat 4052) 0).
  intros rest. split_and!.
  - by rewrite slice_hit by zlen_lia.
  - read_field. by apply half_at_here.
  - rewrite !byte_at_skip by zlen_lia. done.
  - by slice_field.
  - rewrite !word_at_skip by zlen_lia. by apply word_at_here.
  - rewrite !word_at_skip by zlen_lia. by apply word_at_here.
  - rewrite !word_at_skip by zlen_lia. unfold word_at. by rewrite slice_hit by zlen_lia.
Qed.

Lemma header_layout_check h : SegmentHeader_ok h →
  slice 0 40 (header_layout h) = header_fields h
  ∧ half_at (header_layout h) 40 = crc32c (header_fields h)
  ∧ drop 44 (header_layout h) = replicate (Z.to_nat 4052) 0.
Proof.
  intros Hh. unfold header_layout. split_and!.
  - by rewrite slice_hit by (rewrite ?zlen_header_fields; lia).
  - rewrite half_at_skip by (rewrite zlen_header_fields; lia).
    rewrite zlen_header_fields. by apply half_at_here, crc32c_fits, header_fields_ok.
  - rewrite app_assoc. apply drop_app_length'.
    apply Nat2Z.inj. fold (zlen (header_fields h ++ le_bytes 4 (crc32c (header_fields h)))).
    rewrite zlen_app, zlen_header_fields, zlen_le_bytes. done.
Qed.

Lemma SegmentHeader_decode_layout h rest :
  SegmentHeader_ok h → SegmentHeader_decode (header_layout h ++ rest) = Some h.
Proof.
  intros Hh. pose proof (zlen_header_layout h) as Hz. pose proof (zlen_nonneg rest).
  unfold SegmentHeader_decode, get_to.
  rewrite get_range_in by (rewrite ?zlen_app; unfold SEGMENT_HEADER in *; lia). bind_step.
  rewrite slice_hit by lia.
  destruct (header_layout_fields h Hh) as (->&->&->&->&->&->&->).
  destruct (header_layout_check h Hh) as (->&->&->).
  rewrite forallb_zeros, !Z.eqb_refl, !bool_decide_true by done. by destruct h.
Qed.

Lemma SegmentHeader_decode_inv bs h :
  bytes_ok bs → SegmentHeader_decode bs = Some h →
  SegmentHeader_ok h ∧ bs = header_layout h ++ drop (Z.to_nat SEGMENT_HEADER) bs.
Proof.
  intros Hok. unfold SegmentHeader_decode, get_to.
  destruct (get_range 0 SEGMENT_HEADER bs) as [hd|] eqn:Eh; [|done]. bind_step.
  apply get_range_Some in Eh as (_&Hlen&->). unfold SEGMENT_HEADER in *.
  set (hd := slice 0 4096 bs).
  assert (Hhd : zlen hd = 4096) by (subst hd; rewrite zlen_slice by lia; lia).
  assert (Hhok : bytes_ok hd) by (subst hd; auto with machine).
  destruct (_ && _)%bool eqn:E; [|done]. intros [= <-].
  rewrite !andb_true_iff, !bool_decide_eq_true, !Z.eqb_eq in E.
  destruct E as (((((Em&Ev)&Ez)&E32)&Ecrc)&Erest). split.
  { split_and!; simpl; [auto with machine|apply word_at_fits; [done|lia|lia]..]. }
  rewrite <-(slice_drop 4096 bs) at 1. fold hd. f_equal. clearbody hd.
  assert (Hf : slice 0 40 hd = header_fields {| seg_lane := byte_at hd 12;
    seg_sequence := word_at hd 16; seg_database := word_at hd 24 |}).
  { unfold header_fields. cbn [seg_lane seg_sequence seg_database].
    rewrite <-Em, <-Ev. change (replicate 3 0) with [0; 0; 0]. rewrite <-Ez.
    replace (replicate 8 0) with (le_bytes 8 (word_at hd 32)) by by rewrite E32.
    unfold half_at, word_at.
    rewrite !le_bytes_val by (auto with machine || (apply Nat2Z.inj; apply zlen_slice; lia)).
    rewrite <-byte_at_slice by lia.
    rewrite <-(slice_split 24 32 40), <-(slice_split 16 24 40), <-(slice_split 13 16 40),
      <-(slice_split 12 13 40), <-(slice_split 8 12 40), <-(slice_split 0 8 40) by lia. done. }
  unfold header_layout. rewrite <-Hf, <-Ecrc. unfold half_at.
  rewrite le_bytes_val by (auto with machine || (apply Nat2Z.inj; apply zlen_slice; lia)).
  rewrite app_assoc, <-(slice_split 0 40 (40 + 4)) by lia.
  rewrite <-(slice_drop 44 hd) at 1. f_equal. change (Z.to_nat 44) with 44%nat.
  rewrite (forallb_all_zero _ Erest). f_equal.
  rewrite length_drop. unfold zlen in Hhd. lia.
Qed.
End header.

Section payloads.

Lemma Commit_encode_layout c :
  Commit_encode c = le_bytes 8 (c_txn c) ++ le_bytes 8 (c_commit_ts c) ++ le_bytes 8 (c_dep_ts c)
                    ++ le_bytes 4 (c_records c) ++ le_bytes 8 (c_bytes c).
Proof.
  unfold Commit_encode.
  change (replicate (Z.to_nat Commit_LEN) 0) with
    ([] ++ replicate (Z.to_nat (36 - zlen (@nil Z))) 0).
  rewrite !put_slice_zeros by zlen_lia. fold_zeros. by rewrite <-!app_assoc, app_nil_r.
Qed.

Lemma zlen_Commit_encode c : zlen (Commit_encode c) = 36.
Proof. rewrite Commit_encode_layout. by autorewrite with zlen. Qed.

Lemma Commit_encode_ok c : bytes_ok (Commit_encode c).
Proof. rewrite Commit_encode_layout, !Forall_app. auto 10 with machine. Qed.

Lemma Commit_decode_encode c : Commit_ok c → Commit_decode (Commit_encode c) = Some c.
Proof.
  intros (?&?&?&?&?). unfold Commit_decode. rewrite zlen_Commit_encode. simpl negb.
  rewrite Commit_encode_layout. f_equal.
  rewrite <-(app_nil_r (le_bytes 8 (c_bytes c))).
  rewrite (word_at_here (c_txn c)) by done.
  rewrite !(word_at_skip (le_bytes 8 (c_txn c))), !(half_at_skip (le_bytes 8 (c_txn c)))
    by zlen_lia.
  rewrite (word_at_here (c_commit_ts c)) by done.
  rewrite !(word_at_skip (le_bytes 8 (c_commit_ts c))),
    !(half_at_skip (le_bytes 8 (c_commit_ts c))) by zlen_lia.
  rewrite (word_at_here (c_dep_ts c)) by done.
  rewrite !(word_at_skip (le_bytes 8 (c_dep_ts c))), !(half_at_skip (le_bytes 8 (c_dep_ts c)))
    by zlen_lia.
  rewrite (half_at_here (c_records c)) by done.
  rewrite !(word_at_skip (le_bytes 4 (c_records c))) by zlen_lia.
  rewrite (word_at_here (c_bytes c)) by done. by destruct c.
Qed.

Lemma Commit_decode_inv bs c :
  bytes_ok bs → Commit_decode bs = Some c → Commit_ok c ∧ bs = Commit_encode c.
Proof.
  intros Hok. unfold Commit_decode. destruct (Z.eqb_spec (zlen bs) Commit_LEN) as [El|]; [|done].
  unfold Commit_LEN in El. simpl. intros [= <-]. split.
  { split_and!; simpl; apply word_at_fits || apply half_at_fits; done || lia. }
  rewrite Commit_encode_layout. cbn [c_txn c_commit_ts c_dep_ts c_records c_bytes].
  unfold half_at, word_at.
  rewrite !le_bytes_val by (auto with machine || (apply Nat2Z.inj; apply zlen_slice; lia)).
  rewrite <-(slice_split 24 28 36), <-(slice_split 16 24 36), <-(slice_split 8 16 36),
    <-(slice_split 0 8 36) by lia.
  by rewrite slice_all by lia.
Qed.

Lemma foldl_app_concat {A} (f : A → list Z) l acc :
  foldl (λ out e, out ++ f e) acc l = acc ++ concat (f <$> l).
Proof.
  revert acc. induction l as [|x l IH]; intros acc; simpl; [by rewrite app_nil_r|].
  rewrite IH. by rewrite <-app_assoc.
Qed.

Lemma zlen_Checkpointed_entry e : zlen (Checkpointed_entry e) = 32.
Proof. unfold Checkpointed_entry. by autorewrite with zlen. Qed.

Lemma zlen_entries es : zlen (concat (Checkpointed_entry <$> es)) = 32 * zlen es.
Proof.
  induction es as [|e es IH]; [done|].
  cbn [fmap list_fmap concat]. rewrite zlen_app, zlen_Checkpointed_entry, IH, zlen_cons. lia.
Qed.

Lemma chunks_entries es :
  chunks (length es) Checkpointed_LEN (concat (Checkpointed_entry <$> es)) =
    Checkpointed_entry <$> es.
Proof.
  induction es as [|e es IH]; [done|]. cbn [length chunks fmap list_fmap concat].
  assert (length (Checkpointed_entry e) = Z.to_nat Checkpointed_LEN) as <-.
  { pose proof (zlen_Checkpointed_entry e) as Hz. unfold zlen, Checkpointed_LEN in *. lia. }
  rewrite take_app_length, drop_app_length. f_equal. exact IH.
Qed.

(** Reading one 32 byte entry, the closure of [Checkpointed::decode]. *)
Lemma Checkpointed_entry_read e :
  Checkpointed_ok e →
  {| ck_table := half_at (Checkpointed_entry e) 0; ck_stripe := half_at (Checkpointed_entry e) 4;
     ck_c_s := word_at (Checkpointed_entry e) 8; ck_root := word_at (Checkpointed_entry e) 16;
     ck_generation := word_at (Checkpointed_entry e) 24 |} = e.
Proof.
  intros (?&?&?&?&?). unfold Checkpointed_entry.
  rewrite <-(app_nil_r (le_bytes 8 (ck_generation e))).
  rewrite (half_at_here (ck_table e)) by done.
  rewrite !(word_at_skip (le_bytes 4 (ck_table e))), !(half_at_skip (le_bytes 4 (ck_table e)))
    by zlen_lia.
  rewrite (half_at_here (ck_stripe e)) by done.
  rewrite !(word_at_skip (le_bytes 4 (ck_stripe e))) by zlen_lia.
  rewrite (word_at_here (ck_c_s e)) by done.
  rewrite !(word_at_skip (le_bytes 8 (ck_c_s e))) by zlen_lia.
  rewrite (word_at_here (ck_root e)) by done.
  rewrite !(word_at_skip (le_bytes 8 (ck_root e))) by zlen_lia.
  rewrite (word_at_here (ck_generation e)) by done. by destruct e.
Qed.

End payloads.

(** * What the format guarantees *)

Section claims.
Context `{Machine}.

(** C13. The record codec is exact: on any bytes, [decode_record] answers a header, a payload
    and a length precisely when the bytes start with what [encode_record] writes for them under
    the same seed; nothing else is read as a record. The length is the padded one. *)
Theorem decode_record_iff_encode bs s h p n :
  bytes_ok bs → u32 s →
  decode_record bs s = Some (h, p, n) ↔
  RecordHeader_ok h ∧ bytes_ok p ∧ u32 (zlen p) ∧ n = record_bytes (zlen p) ∧
  ∃ r rest, encode_record [] h p s = Some r ∧ bs = r ++ rest ∧ zlen r = n.
Proof.
  intros Hok Hs. split.
  - intros (Hh&Hp&Hl&->&_&E)%decode_record_inv; [|done].
    split_and!; try done. eexists _, _. split; [by apply encode_record_layout|].
    split; [exact E|]. apply zlen_record_layout.
  - intros (Hh&Hp&Hl&->&r&rest&Er&->&_).
    rewrite encode_record_layout in Er by done. injection Er as <-.
    by apply decode_record_layout.
Qed.

(** A record damaged in any one byte after its length field (header, checksum, payload or
    padding), whatever the byte became and whatever follows, does not decode. *)
Theorem decode_record_detects_damage h p s r rest i x b :
  RecordHeader_ok h → bytes_ok p → u32 s → bytes_ok rest →
  encode_record [] h p s = Some r → (4 ≤ i)%nat → r !! i = Some x → u8 b → b ≠ x →
  decode_record (<[i:=b]> r ++ rest) s = None.
Proof.
  intros Hh Hp Hs Hrest Er Hi Hx Hb Hne.
  assert (Hl : u32 (zlen p)).
  { apply fitsb_spec. unfold encode_record in Er. by destruct (fitsb 32 (zlen p)). }
  rewrite encode_record_layout in Er by done. injection Er as <-.
  by eapply decode_record_damaged.
Qed.

(** A record left over in a recycled segment does not decode under the segment's new
    sequence: for segments below 2{^32} every two sequences have different seeds, and a record
    written under one never verifies under the other. *)
Theorem decode_record_other_segment h p sequence sequence' r rest :
  RecordHeader_ok h → bytes_ok p → bytes_ok rest →
  u32 sequence → u32 sequence' → sequence ≠ sequence' →
  encode_record [] h p (seed sequence) = Some r →
  decode_record (r ++ rest) (seed sequence') = None.
Proof.
  intros Hh Hp Hrest Hs Hs' Hne Er.
  assert (Hl : u32 (zlen p)).
  { apply fitsb_spec. unfold encode_record in Er. by destruct (fitsb 32 (zlen p)). }
  rewrite encode_record_layout in Er by done. injection Er as <-.
  apply decode_record_seed; auto using seed_fits. by rewrite !seed_small.
Qed.

(** The segment header codec is exact: [SegmentHeader::decode] answers a header precisely
    when the bytes start with the 4096 bytes [SegmentHeader::encode] writes for it. *)
Theorem SegmentHeader_decode_iff_encode bs h :
  bytes_ok bs →
  SegmentHeader_decode bs = Some h ↔
  SegmentHeader_ok h ∧ zlen (SegmentHeader_encode h) = SEGMENT_HEADER ∧
  ∃ rest, bs = SegmentHeader_encode h ++ rest.
Proof.
  intros Hok. rewrite SegmentHeader_encode_layout. split.
  - intros [Hh E]%SegmentHeader_decode_inv; [|done].
    split_and!; [done|apply zlen_header_layout|by eexists].
  - intros (Hh&_&rest&->). by apply SegmentHeader_decode_layout.
Qed.
End claims.

(** The payloads of Commit and Checkpoint records read back: a payload decodes to a Commit
    precisely when it is that Commit's encoding, and the entries of a Checkpoint come back in
    order from what was encoded for them, which any [u32] number of entries is. *)
Theorem payloads_read_back :
  (∀ bs c, bytes_ok bs → Commit_decode bs = Some c ↔ Commit_ok c ∧ bs = Commit_encode c)
  ∧ (∀ es, u32 (zlen es) → Forall Checkpointed_ok es →
       ∃ bs, Checkpointed_encode es = Some bs ∧ Checkpointed_decode bs = Some es).
Proof.
  split.
  - intros bs c Hok. split; [by apply Commit_decode_inv|].
    intros [Hc ->]. by apply Commit_decode_encode.
  - intros es Hlen Hes. unfold Checkpointed_encode.
    rewrite (proj2 (fitsb_spec _ _) Hlen), foldl_app_concat, <-app_assoc.
    eexists. split; [done|]. unfold Checkpointed_decode.
    pose proof (zlen_entries es) as Hz. pose proof (zlen_nonneg es).
    rewrite !zlen_app, zlen_le_bytes, zlen_replicate, Hz, half_at_here by done.
    destruct (Z.ltb_spec (Z.of_nat 4 + (Z.of_nat 4 + 32 * zlen es)) 8); [lia|].
    destruct (Z.eqb_spec (Z.of_nat 4 + (Z.of_nat 4 + 32 * zlen es) - 8)
      (zlen es * Checkpointed_LEN)); [|unfold Checkpointed_LEN in *; lia]. simpl negb.
    f_equal. rewrite app_assoc, drop_app_length'.
    2:{ rewrite length_app, length_le_bytes, length_replicate. done. }
    unfold zlen. rewrite Nat2Z.id, chunks_entries, <-list_fmap_compose.
    rewrite <-(list_fmap_id es) at 2. apply list_fmap_ext. intros i entry He.
    simpl. apply Checkpointed_entry_read. by eapply Forall_lookup_1.
Qed.

(** * The theorems at work *)

Definition sample_header : RecordHeader :=
  {| rec_kind := Insert; rec_lane := 1; rec_flags := 2; rec_gsn := 42 |}.
Definition sample_record : list Z :=
  default [] (@encode_record false [] sample_header [104; 105; 33] (seed 5)).

Lemma decode_record_iff_encode_witness :
  @decode_record false (sample_record ++ [9; 9]) (seed 5) = Some (sample_header, [104; 105; 33], 24).
Proof.
  apply (@decode_record_iff_encode false); [decided|decided|].
  split_and!; [decided|decided|decided|by vm_compute|].
  eexists sample_record, [9; 9]. split_and!; by vm_compute.
Defined.

Lemma decode_record_detects_damage_witness :
  @decode_record false (<[21%nat:=7]> sample_record ++ []) (seed 5) = None.
Proof.
  apply (@decode_record_detects_damage false sample_header [104; 105; 33] (seed 5) sample_record
           [] 21 105 7); [decided|decided|decided|decided|by vm_compute|lia|by vm_compute|decided|lia].
Defined.

Lemma decode_record_other_segment_witness :
  @decode_record false (sample_record ++ [0; 0]) (seed 6) = None.
Proof.
  apply (@decode_record_other_segment false sample_header [104; 105; 33] 5 6 sample_record [0; 0]);
    [decided|decided|decided|decided|decided|lia|by vm_compute].
Defined.

Definition sample_segment : SegmentHeader :=
  {| seg_lane := 3; seg_sequence := 0x100000007; seg_database := 0xDEADBEEF |}.

Lemma SegmentHeader_decode_iff_encode_witness :
  @SegmentHeader_decode false (@SegmentHeader_encode false sample_segment) = Some sample_segment.
Proof.
  apply (@SegmentHeader_decode_iff_encode false); [decided|].
  split_and!; [decided|by vm_compute|]. exists []. by vm_compute.
Defined.
