(* ===== verification/LogBlock.v ===== *)
(** Blocks of the log, written and read back.

    A transaction's records reach its lane as one block ending in a Commit: [Block] of
    [rudb-txn/src/log/lane.rs]. [read_blocks] of [rudb-txn/src/log/replay.rs] reads the blocks of
    a segment back, stopping at the first record that does not verify. The theorems say that what
    was written as blocks is read back as those blocks whatever follows them, and that what is
    read back is always whole. *)

From S2P Require Import Prelude Crc LogFormat.
Local Open Scope Z_scope.

(** ** Blocks *)

Record Block : Type := mkBlock {
  b_txn : Z;
  b_commit_ts : Z;
  b_dep_ts : Z;
  (** Each record's kind, flags, and where its payload ends in [b_data]. *)
  b_records : list (Kind * Z * Z);
  b_data : list Z;
  b_bytes : Z;
}.

Definition Block_new (txn commit_ts dep_ts : Z) : Block :=
  {| b_txn := txn; b_commit_ts := commit_ts; b_dep_ts := dep_ts;
     b_records := []; b_data := []; b_bytes := 0 |}.

Definition Block_push (kind : Kind) (flags : Z) (payload : list Z) (b : Block) : Result Block :=
  if decide (kind = KCommit) then
    Err (InvalidInput "a block's Commit record is written by the lane")
  else if negb (fitsb 32 (zlen payload)) then
    Err (InvalidInput "a log record's payload is under 4 GiB")
  else
    let data := b_data b ++ payload in
    Ok {| b_txn := b_txn b; b_commit_ts := b_commit_ts b; b_dep_ts := b_dep_ts b;
          b_records := b_records b ++ [(kind, flags, zlen data)];
          b_data := data;
          b_bytes := b_bytes b + record_bytes (zlen payload) |}.

Definition Block_len (b : Block) : Z := b_bytes b + record_bytes Commit_LEN.

Section encode.
Context `{Machine}.

(** The loop over the records. [None] is [encode_record]'s panic. *)
Fixpoint Block_encode_loop (b : Block) (lane seed start : Z) (records : list (Kind * Z * Z))
    (out : list Z) : option (list Z) :=
  match records with
  | [] => Some out
  | (kind, flags, end_) :: records =>
      let header := {| rec_kind := kind; rec_lane := lane; rec_flags := flags;
                       rec_gsn := b_commit_ts b |} in
      out ← encode_record out header (slice start end_ (b_data b)) seed;
      Block_encode_loop b lane seed end_ records out
  end.

Definition Block_commit (b : Block) : Commit :=
  {| c_txn := b_txn b; c_commit_ts := b_commit_ts b; c_dep_ts := b_dep_ts b;
     c_records := wrap 32 (zlen (b_records b)); c_bytes := b_bytes b |}.

Definition Block_encode (b : Block) (lane seed : Z) (out : list Z) : option (list Z) :=
  out ← Block_encode_loop b lane seed 0 (b_records b) out;
  let header := {| rec_kind := KCommit; rec_lane := lane; rec_flags := 0;
                   rec_gsn := b_commit_ts b |} in
  encode_record out header (Commit_encode (Block_commit b)) seed.

End encode.

(** ** Replay *)

Record Record_ : Type := mkRecord {
  r_header : RecordHeader;
  (** The bytes the payload's range of its segment derefs to. *)
  r_payload : list Z;
}.

Record Committed : Type := mkCommitted {
  cm_sequence : Z;
  cm_commit : Commit;
  cm_records : list Record_;
}.

Section replay.
Context `{Machine}.

(** The loop of [read_blocks]. A record takes at least 24 bytes, so the segment's length is fuel
    enough; see [read_blocks_fuel]. *)
Fixpoint read_blocks_loop (fuel : nat) (segment : list Z) (at_ lane sequence : Z)
    (records : list Record_) (taken : Z) (out : list Committed) : list Committed :=
  match fuel with
  | O => out
  | S fuel =>
      match (rest ← get_from at_ segment; decode_record rest (seed sequence)) with
      | None => out
      | Some (header, payload, total) =>
          if negb (rec_lane header =? lane) then out else
          let range := (at_ + RECORD_HEADER, at_ + RECORD_HEADER + zlen payload) in
          let at_ := at_ + total in
          if decide (rec_kind header ≠ KCommit) then
            let record := {| r_header := header;
                             r_payload := slice (fst range) (snd range) segment |} in
            read_blocks_loop fuel segment at_ lane sequence (records ++ [record])
              (taken + total) out
          else
            match Commit_decode payload with
            | None => out
            | Some commit =>
                let whole :=
                  (c_records commit =? zlen records) && (c_bytes commit =? taken)
                  && (c_commit_ts commit =? rec_gsn header) in
                if negb whole then out else
                let block := {| cm_sequence := sequence; cm_commit := commit;
                                cm_records := records |} in
                read_blocks_loop fuel segment at_ lane sequence [] 0 (out ++ [block])
            end
      end
  end.

Definition read_blocks (segment : list Z) (at_ lane sequence : Z) (out : list Committed) :
    list Committed :=
  read_blocks_loop (S (length segment)) segment at_ lane sequence [] 0 out.

End replay.

(** * Blocks as lists of records *)

(** A record as a committer pushes it. *)
Definition Entry : Type := Kind * Z * list Z.

Definition Entry_ok (e : Entry) : Prop :=
  let '(kind, flags, payload) := e in
  kind ≠ KCommit ∧ u16 flags ∧ bytes_ok payload ∧ u32 (zlen payload).

#[global] Instance Entry_ok_dec e : Decision (Entry_ok e).
Proof. destruct e as [[kind flags] payload]. unfold Entry_ok. apply _. Defined.

Definition push_all (es : list Entry) (b : Block) : Result Block :=
  foldl (λ r '(kind, flags, payload), b ← r; Block_push kind flags payload b) (Ok b) es.

Definition entry_bytes (e : Entry) : Z := record_bytes (zlen (snd e)).
Definition entries_bytes (es : list Entry) : Z := foldr (λ e n, entry_bytes e + n) 0 es.

(** What is read back for a block of [es]. *)
Definition entry_record (lane commit_ts : Z) (e : Entry) : Record_ :=
  let '(kind, flags, payload) := e in
  {| r_header := {| rec_kind := kind; rec_lane := lane; rec_flags := flags;
                    rec_gsn := commit_ts |};
     r_payload := payload |}.

(** A transaction as its committer sees it: its timestamps and the records it logs. *)
Record Txn : Type := mkTxn {
  t_txn : Z;
  t_commit_ts : Z;
  t_dep_ts : Z;
  t_entries : list Entry;
}.

Definition Txn_ok (t : Txn) : Prop :=
  u64 (t_txn t) ∧ u64 (t_commit_ts t) ∧ u64 (t_dep_ts t) ∧ Forall Entry_ok (t_entries t)
  ∧ u32 (zlen (t_entries t)) ∧ u64 (entries_bytes (t_entries t)).

#[global] Instance Txn_ok_dec t : Decision (Txn_ok t).
Proof. unfold Txn_ok. apply _. Defined.

Definition Txn_block (t : Txn) : Result Block :=
  push_all (t_entries t) (Block_new (t_txn t) (t_commit_ts t) (t_dep_ts t)).

Definition Txn_committed (lane sequence : Z) (t : Txn) : Committed :=
  {| cm_sequence := sequence;
     cm_commit := {| c_txn := t_txn t; c_commit_ts := t_commit_ts t; c_dep_ts := t_dep_ts t;
                     c_records := zlen (t_entries t); c_bytes := entries_bytes (t_entries t) |};
     cm_records := entry_record lane (t_commit_ts t) <$> t_entries t |}.

(** The [b_records] a block has after pushing [es] onto [start] bytes of payload. *)
Fixpoint entry_ends (start : Z) (es : list Entry) : list (Kind * Z * Z) :=
  match es with
  | [] => []
  | (kind, flags, payload) :: es =>
      (kind, flags, start + zlen payload) :: entry_ends (start + zlen payload) es
  end.

Definition entries_data (es : list Entry) : list Z := concat (snd <$> es).

Definition block_of (t : Txn) : Block :=
  {| b_txn := t_txn t; b_commit_ts := t_commit_ts t; b_dep_ts := t_dep_ts t;
     b_records := entry_ends 0 (t_entries t); b_data := entries_data (t_entries t);
     b_bytes := entries_bytes (t_entries t) |}.

Lemma entry_ends_app start es es' :
  entry_ends start (es ++ es') =
    entry_ends start es ++ entry_ends (start + zlen (entries_data es)) es'.
Proof.
  revert start. induction es as [|[[kind flags] payload] es IH]; intros start.
  - simpl. by rewrite Z.add_0_r.
  - simpl. rewrite IH. unfold entries_data at 2. simpl. by rewrite zlen_app, Z.add_assoc.
Qed.

Lemma zlen_entry_ends start es : zlen (entry_ends start es) = zlen es.
Proof.
  revert start. induction es as [|[[kind flags] payload] es IH]; intros start; [done|].
  simpl. by rewrite !zlen_cons, IH.
Qed.

Lemma entries_bytes_app es es' : entries_bytes (es ++ es') = entries_bytes es + entries_bytes es'.
Proof. induction es as [|e es IH]; simpl; [done|]. rewrite IH. lia. Qed.

Lemma entries_data_app es es' : entries_data (es ++ es') = entries_data es ++ entries_data es'.
Proof. unfold entries_data. by rewrite fmap_app, concat_app. Qed.

(** Pushing well formed records never fails, and leaves their ends, data and bytes. *)
Lemma Txn_block_of t : Forall Entry_ok (t_entries t) → Txn_block t = Ok (block_of t).
Proof.
  unfold Txn_block, block_of, push_all. destruct t as [txn ts dep es]; simpl.
  induction es as [|e es IH] using rev_ind; intros Hes; [done|].
  apply Forall_app in Hes as [Hes [He _]%Forall_cons].
  rewrite foldl_app, IH by done. destruct e as [[kind flags] payload]. simpl.
  destruct He as (Hk&Hf&Hp&Hl). unfold Block_push. rewrite decide_False by done.
  rewrite (proj2 (fitsb_spec _ _) Hl). simpl. f_equal. f_equal.
  - rewrite entry_ends_app. simpl. by rewrite zlen_app.
  - rewrite entries_data_app. unfold entries_data at 3. simpl. by rewrite app_nil_r.
  - rewrite entries_bytes_app. simpl. unfold entry_bytes. simpl. lia.
Qed.

(** * What a block is written as *)

Section written.
Context `{Machine}.

Definition entry_header (lane commit_ts : Z) (e : Entry) : RecordHeader :=
  {| rec_kind := fst (fst e); rec_lane := lane; rec_flags := snd (fst e); rec_gsn := commit_ts |}.

Definition entry_layout (lane commit_ts s : Z) (e : Entry) : list Z :=
  record_layout (entry_header lane commit_ts e) (snd e) s.

Definition entries_layout (lane commit_ts s : Z) (es : list Entry) : list Z :=
  concat (entry_layout lane commit_ts s <$> es).

Definition commit_layout (lane s : Z) (b : Block) : list Z :=
  record_layout {| rec_kind := KCommit; rec_lane := lane; rec_flags := 0;
                   rec_gsn := b_commit_ts b |} (Commit_encode (Block_commit b)) s.

Definition txn_bytes (lane s : Z) (t : Txn) : list Z :=
  entries_layout lane (t_commit_ts t) s (t_entries t) ++ commit_layout lane s (block_of t).

Lemma zlen_entries_layout lane ts s es : zlen (entries_layout lane ts s es) = entries_bytes es.
Proof.
  induction es as [|e es IH]; [done|].
  unfold entries_layout in *. cbn [fmap list_fmap concat]. rewrite zlen_app, IH.
  unfold entry_layout. by rewrite zlen_record_layout.
Qed.

Lemma zlen_commit_layout lane s b : zlen (commit_layout lane s b) = record_bytes Commit_LEN.
Proof. unfold commit_layout. by rewrite zlen_record_layout, zlen_Commit_encode. Qed.

Lemma zlen_txn_bytes lane s t : zlen (txn_bytes lane s t) = Block_len (block_of t).
Proof. unfold txn_bytes. by rewrite zlen_app, zlen_entries_layout, zlen_commit_layout. Qed.

Lemma entries_layout_ok lane ts s es :
  u8 lane → u64 ts → Forall Entry_ok es → bytes_ok (entries_layout lane ts s es).
Proof.
  intros Hl Ht. induction 1 as [|[[kind flags] payload] es (?&?&?&?) _ IH]; [constructor|].
  unfold entries_layout. cbn [fmap list_fmap concat]. apply Forall_app. split; [|exact IH].
  by apply record_layout_ok.
Qed.

Lemma txn_bytes_ok lane s t : u8 lane → Txn_ok t → bytes_ok (txn_bytes lane s t).
Proof.
  intros Hl (?&?&?&?&?&?). apply Forall_app. split; [by apply entries_layout_ok|].
  apply record_layout_ok; [done|apply Commit_encode_ok].
Qed.

Lemma Block_encode_loop_layout b lane s es pre post out :
  Forall Entry_ok es → b_data b = pre ++ entries_data es ++ post →
  Block_encode_loop b lane s (zlen pre) (entry_ends (zlen pre) es) out =
    Some (out ++ entries_layout lane (b_commit_ts b) s es).
Proof.
  intros Hes. revert pre out.
  induction Hes as [|[[kind flags] payload] es (?&?&?&Hl) _ IH]; intros pre out Hd.
  { unfold entries_layout. simpl. by rewrite app_nil_r. }
  cbn [entry_ends Block_encode_loop]. unfold entries_data in Hd. cbn [fmap list_fmap snd concat] in Hd.
  pose proof (zlen_nonneg payload). rewrite Hd at 1. rewrite slice_skip by lia.
  rewrite <-app_assoc, slice_hit by lia.
  rewrite encode_record_layout by done. bind_step.
  rewrite <-zlen_app. rewrite (IH (pre ++ payload)).
  - f_equal. rewrite <-app_assoc. done.
  - by rewrite Hd, <-!app_assoc.
Qed.

Lemma record_bytes_nonneg n : 0 ≤ n → 0 ≤ record_bytes n.
Proof. intros. pose proof (record_bytes_spec n). unfold RECORD_HEADER in *. lia. Qed.

Lemma Block_encode_layout lane s t out :
  Txn_ok t → Block_encode (block_of t) lane s out = Some (out ++ txn_bytes lane s t).
Proof.
  intros (?&?&?&Hes&?&?). unfold Block_encode.
  change 0 with (zlen (@nil Z)) at 1. cbn [block_of b_records].
  rewrite (Block_encode_loop_layout (block_of t) lane s (t_entries t) [] []);
    [|done|simpl; by rewrite app_nil_r]. bind_step.
  rewrite encode_record_layout by (rewrite zlen_Commit_encode; decided).
  unfold txn_bytes, commit_layout. by rewrite <-app_assoc.
Qed.

Lemma Block_commit_ok t : Txn_ok t → Commit_ok (Block_commit (block_of t)).
Proof. intros (?&?&?&_&_&?). split_and!; try done. by apply wrap_fits. Qed.

Lemma Block_commit_of t : Txn_ok t → Block_commit (block_of t) = cm_commit (Txn_committed 0 0 t).
Proof.
  intros (?&?&?&_&?&?). unfold Block_commit. simpl. rewrite zlen_entry_ends.
  by rewrite wrap_id.
Qed.

(** * Reading it back *)

Lemma get_from_app {A} (pre l : list A) : get_from (zlen pre) (pre ++ l) = Some l.
Proof.
  unfold get_from. pose proof (zlen_nonneg pre). pose proof (zlen_nonneg l).
  rewrite get_range_in by (rewrite ?zlen_app; lia). f_equal.
  rewrite slice_skip by (rewrite ?zlen_app; lia). rewrite slice_all; [done|lia|].
  rewrite zlen_app. lia.
Qed.

Lemma read_entry_step fuel pre e rest lane sequence ts records taken out :
  u8 lane → u64 ts → Entry_ok e →
  let seg := pre ++ entry_layout lane ts (seed sequence) e ++ rest in
  read_blocks_loop (S fuel) seg (zlen pre) lane sequence records taken out =
  read_blocks_loop fuel seg (zlen pre + entry_bytes e) lane sequence
    (records ++ [entry_record lane ts e]) (taken + entry_bytes e) out.
Proof.
  destruct e as [[kind flags] payload]. intros Hlane Hts (Hk&Hf&Hp&Hl) seg.
  cbn [read_blocks_loop]. subst seg. rewrite get_from_app. bind_step.
  unfold entry_layout at 1.
  rewrite decode_record_layout by (done || apply seed_fits). cbn [entry_header fst snd].
  cbn [rec_lane rec_kind]. rewrite Z.eqb_refl. cbn [negb]. rewrite decide_True by done.
  assert (E : slice (zlen pre + RECORD_HEADER) (zlen pre + RECORD_HEADER + zlen payload)
    (pre ++ entry_layout lane ts (seed sequence) (kind, flags, payload) ++ rest) = payload).
  { pose proof (zlen_nonneg payload). unfold RECORD_HEADER. rewrite slice_skip by lia.
    unfold entry_layout, record_layout. cbn [snd]. rewrite <-!app_assoc.
    rewrite slice_skip by (rewrite zlen_record_head; lia).
    rewrite slice_skip by (rewrite zlen_record_head, zlen_le_bytes; lia).
    by rewrite slice_hit by (rewrite zlen_record_head, zlen_le_bytes; lia). }
  rewrite E. done.
Qed.

Lemma read_entries fuel pre es rest lane sequence ts records taken out :
  u8 lane → u64 ts → Forall Entry_ok es →
  let seg := pre ++ entries_layout lane ts (seed sequence) es ++ rest in
  read_blocks_loop (length es + fuel) seg (zlen pre) lane sequence records taken out =
  read_blocks_loop fuel seg (zlen pre + entries_bytes es) lane sequence
    (records ++ (entry_record lane ts <$> es)) (taken + entries_bytes es) out.
Proof.
  intros Hlane Hts Hes. revert pre records taken.
  induction Hes as [|e es He Hes IH]; intros pre records taken seg.
  { simpl. by rewrite app_nil_r, !Z.add_0_r. }
  subst seg. unfold entries_layout. cbn [length Nat.add fmap list_fmap concat].
  rewrite <-app_assoc. rewrite read_entry_step by done.
  replace (zlen pre + entry_bytes e)
    with (zlen (pre ++ entry_layout lane ts (seed sequence) e)).
  2:{ rewrite zlen_app. unfold entry_layout. by rewrite zlen_record_layout. }
  rewrite app_assoc. fold (entries_layout lane ts (seed sequence) es).
  rewrite IH. rewrite zlen_app. unfold entry_layout at 2. rewrite zlen_record_layout.
  cbn [entries_bytes foldr]. rewrite <-!app_assoc, !Z.add_assoc. done.
Qed.

Lemma read_txn fuel pre t rest lane sequence out :
  u8 lane → Txn_ok t →
  let seg := pre ++ txn_bytes lane (seed sequence) t ++ rest in
  read_blocks_loop (length (t_entries t) + S fuel) seg (zlen pre) lane sequence [] 0 out =
  read_blocks_loop fuel seg (zlen (pre ++ txn_bytes lane (seed sequence) t)) lane sequence
    [] 0 (out ++ [Txn_committed lane sequence t]).
Proof.
  intros Hlane Ht seg. pose proof Ht as (?&?&?&Hes&?&?). subst seg. unfold txn_bytes.
  rewrite <-app_assoc. rewrite read_entries by done. cbn [app].
  set (el := entries_layout lane (t_commit_ts t) (seed sequence) (t_entries t)).
  rewrite !app_assoc, <-(app_assoc (pre ++ el)).
  replace (zlen pre + entries_bytes (t_entries t)) with (zlen (pre ++ el))
    by (rewrite zlen_app; subst el; by rewrite zlen_entries_layout).
  cbn [read_blocks_loop]. rewrite get_from_app. bind_step. unfold commit_layout at 1.
  rewrite decode_record_layout;
    [|done|apply Commit_encode_ok|rewrite zlen_Commit_encode; decided|apply seed_fits].
  cbn [rec_lane rec_kind rec_gsn]. rewrite Z.eqb_refl. cbn [negb]. rewrite decide_False by naive_solver.
  rewrite Commit_decode_encode by (by apply Block_commit_ok).
  rewrite Block_commit_of by done. cbn [Txn_committed cm_commit c_records c_bytes c_commit_ts].
  rewrite zlen_fmap. cbn [block_of b_commit_ts].
  rewrite !Z.eqb_refl. cbn [andb negb].
  rewrite zlen_Commit_encode, (zlen_app (pre ++ el)), zlen_commit_layout. done.
Qed.
End written.

(** * The loop of [read_blocks] *)

Section loop.
Context `{Machine}.

Lemma decode_record_bounds bs s h p n :
  decode_record bs s = Some (h, p, n) →
  RECORD_HEADER + zlen p ≤ n ≤ zlen bs ∧ n = record_bytes (zlen p)
  ∧ p = slice RECORD_HEADER (RECORD_HEADER + zlen p) bs.
Proof.
  unfold decode_record, get_to.
  destruct (get_range 0 RECORD_HEADER bs) as [head|] eqn:Eh; [|done]. bind_step.
  destruct (Kind_of (byte_at head 4)) as [kind|] eqn:Ek; [|done]. bind_step.
  destruct (get_range RECORD_HEADER _ bs) as [payload|] eqn:Ep; [|done]. bind_step.
  destruct (get_range _ (record_bytes _) bs) as [pad|] eqn:Ed; [|done]. bind_step.
  destruct (_ || _)%bool; [done|]. intros [= <- <- <-].
  apply get_range_Some in Ep as (Hl0&Hl&->). apply get_range_Some in Ed as (Hd&Ht&_).
  rewrite zlen_slice by lia. unfold RECORD_HEADER in *. split_and!; [lia|lia|f_equal; lia|].
  f_equal. lia.
Qed.

Lemma get_from_Some {A} a (l r : list A) :
  get_from a l = Some r → 0 ≤ a ≤ zlen l ∧ r = slice a (zlen l) l ∧ zlen r = zlen l - a.
Proof.
  unfold get_from. intros (?&?&->)%get_range_Some. split_and!; [lia|lia|done|].
  rewrite zlen_slice; lia.
Qed.

(** Any two fuels that cover the rest of the segment give the same blocks. *)
Lemma read_blocks_fuel f1 f2 seg a lane sequence records taken out :
  (Z.to_nat (zlen seg - a) < f1)%nat → (Z.to_nat (zlen seg - a) < f2)%nat →
  read_blocks_loop f1 seg a lane sequence records taken out =
  read_blocks_loop f2 seg a lane sequence records taken out.
Proof.
  revert f2 a records taken out. induction f1 as [|f1 IH]; intros f2 a records taken out H1 H2;
    [lia|]. destruct f2 as [|f2]; [lia|]. cbn [read_blocks_loop].
  destruct (get_from a seg) as [rest|] eqn:Eg; [|done]. bind_step.
  destruct (decode_record rest (seed sequence)) as [[[h p] n]|] eqn:Ed; [|done].
  apply get_from_Some in Eg as (Ha&_&Hr). apply decode_record_bounds in Ed as (Hn&_&_).
  pose proof (zlen_nonneg p). unfold RECORD_HEADER in Hn.
  destruct (negb (rec_lane h =? lane)); [done|].
  case_decide; [apply IH; lia|]. destruct (Commit_decode p); [|done].
  destruct (negb _); [done|]. apply IH; lia.
Qed.

(** Blocks are appended to [out], which decides nothing. *)
Lemma read_blocks_loop_out fuel seg a lane sequence records taken out :
  read_blocks_loop fuel seg a lane sequence records taken out =
  out ++ read_blocks_loop fuel seg a lane sequence records taken [].
Proof.
  revert a records taken out. induction fuel as [|fuel IH]; intros a records taken out;
    [by rewrite app_nil_r|]. cbn [read_blocks_loop].
  destruct (mbind _ _) as [[[h p] n]|]; [|by rewrite app_nil_r].
  destruct (negb (rec_lane h =? lane)); [by rewrite app_nil_r|].
  case_decide; [by apply IH|]. destruct (Commit_decode p) as [c|]; [|by rewrite app_nil_r].
  destruct (negb _); [by rewrite app_nil_r|].
  rewrite IH, (IH _ _ _ ([] ++ _)). by rewrite <-app_assoc.
Qed.

Definition txns_bytes (lane s : Z) (ts : list Txn) : list Z := concat (txn_bytes lane s <$> ts).

Lemma read_txns pre ts rest lane sequence out :
  u8 lane → Forall Txn_ok ts →
  let seg := pre ++ txns_bytes lane (seed sequence) ts ++ rest in
  read_blocks seg (zlen pre) lane sequence out =
  read_blocks seg (zlen (pre ++ txns_bytes lane (seed sequence) ts)) lane sequence
    (out ++ (Txn_committed lane sequence <$> ts)).
Proof.
  intros Hlane Hts. revert pre out. induction Hts as [|t ts Ht Hts IH]; intros pre out seg.
  { unfold txns_bytes. simpl. by rewrite !app_nil_r. }
  subst seg. unfold txns_bytes. cbn [fmap list_fmap concat]. fold (txns_bytes lane (seed sequence) ts).
  set (tb := txn_bytes lane (seed sequence) t). rewrite <-!app_assoc.
  transitivity (read_blocks ((pre ++ tb) ++ txns_bytes lane (seed sequence) ts ++ rest)
    (zlen (pre ++ tb)) lane sequence (out ++ [Txn_committed lane sequence t])).
  - unfold read_blocks. rewrite <-(app_assoc pre tb).
    etransitivity; [|apply (read_txn (S (length (pre ++ tb ++ _))) pre t); done].
    apply read_blocks_fuel; subst tb; unfold zlen; lia.
  - rewrite IH. rewrite <-!app_assoc. done.
Qed.

Lemma read_blocks_stop seg a lane sequence out :
  (∀ rest, get_from a seg = Some rest → decode_record rest (seed sequence) = None) →
  read_blocks seg a lane sequence out = out.
Proof.
  intros Hn. unfold read_blocks. cbn [read_blocks_loop].
  destruct (get_from a seg) as [rest|] eqn:E; [|done]. bind_step. by rewrite Hn.
Qed.

(** What is read back is whole: the Commit counts the records before it and their bytes, and
    every record is of the lane and no Commit. *)
Definition records_ok (lane : Z) (rs : list Record_) : Prop :=
  Forall (λ r, rec_lane (r_header r) = lane ∧ rec_kind (r_header r) ≠ KCommit) rs.
Definition records_bytes (rs : list Record_) : Z :=
  foldr (λ r n, record_bytes (zlen (r_payload r)) + n) 0 rs.
Definition Committed_whole (lane sequence : Z) (c : Committed) : Prop :=
  cm_sequence c = sequence ∧ records_ok lane (cm_records c)
  ∧ c_records (cm_commit c) = zlen (cm_records c)
  ∧ c_bytes (cm_commit c) = records_bytes (cm_records c).

Lemma records_bytes_snoc rs r :
  records_bytes (rs ++ [r]) = records_bytes rs + record_bytes (zlen (r_payload r)).
Proof. induction rs as [|r' rs IH]; simpl; [lia|]. rewrite IH. lia. Qed.

Lemma read_blocks_loop_whole fuel seg a lane sequence records out :
  records_ok lane records → Forall (Committed_whole lane sequence) out →
  Forall (Committed_whole lane sequence)
    (read_blocks_loop fuel seg a lane sequence records (records_bytes records) out).
Proof.
  revert a records out. induction fuel as [|fuel IH]; intros a records out Hrs Hout; [done|].
  cbn [read_blocks_loop].
  destruct (get_from a seg) as [rest|] eqn:Eg; [|done]. bind_step.
  destruct (decode_record rest (seed sequence)) as [[[h p] n]|] eqn:Ed; [|done].
  apply get_from_Some in Eg as (Ha&->&Hr). apply decode_record_bounds in Ed as (Hn&->&Ep).
  pose proof (zlen_nonneg p). unfold RECORD_HEADER in *.
  destruct (Z.eqb_spec (rec_lane h) lane) as [El|]; [|done]. cbn [negb].
  case_decide as Hk.
  - cbn [fst snd]. set (r := mkRecord _ _).
    assert (Er : zlen (r_payload r) = zlen p) by (simpl; rewrite zlen_slice by lia; lia).
    rewrite <-Er, <-records_bytes_snoc. apply IH; [|done].
    apply Forall_app. split; [done|]. by constructor.
  - destruct (Commit_decode p) as [c|]; [|done].
    destruct (Z.eqb_spec (c_records c) (zlen records)) as [Ec|]; [|done].
    destruct (Z.eqb_spec (c_bytes c) (records_bytes records)) as [Eb|]; [|done].
    destruct (Z.eqb_spec (c_commit_ts c) (rec_gsn h)); [|done]. cbn [andb negb].
    apply (IH _ []); [constructor|]. apply Forall_app. split; [done|]. by constructor.
Qed.

(** The bytes a lane writes for [ts], one block after another. *)
Definition write_blocks (lane s : Z) (ts : list Txn) : option (list Z) :=
  foldl (λ out t, bs ← out; match Txn_block t with
                            | Ok b => Block_encode b lane s bs
                            | Err _ => None
                            end) (Some []) ts.

Lemma write_blocks_bytes lane s ts :
  Forall Txn_ok ts → write_blocks lane s ts = Some (txns_bytes lane s ts).
Proof.
  unfold write_blocks. induction ts as [|t ts IH] using rev_ind; intros Hts; [done|].
  apply Forall_app in Hts as [Hts [Ht _]%Forall_cons].
  rewrite foldl_app, IH by done. cbn [foldl]. bind_step.
  rewrite Txn_block_of by apply Ht. rewrite Block_encode_layout by done.
  unfold txns_bytes. rewrite fmap_app, concat_app. simpl. by rewrite app_nil_r.
Qed.

(** Replay reads back what was committed: the blocks transactions built with [push] and
    encoded one after another come back from [read_blocks] as those blocks, whole and in order,
    whatever bytes follow them, and nothing more comes back when no record follows. *)
Theorem read_blocks_reads_back lane sequence ts pre :
  u8 lane → Forall Txn_ok ts →
  ∃ bs, write_blocks lane (seed sequence) ts = Some bs ∧
    ∀ tail,
      (Txn_committed lane sequence <$> ts) `prefix_of`
        read_blocks (pre ++ bs ++ tail) (zlen pre) lane sequence []
      ∧ (decode_record tail (seed sequence) = None →
         read_blocks (pre ++ bs ++ tail) (zlen pre) lane sequence [] =
           Txn_committed lane sequence <$> ts).
Proof.
  intros Hlane Hts. exists (txns_bytes lane (seed sequence) ts).
  split; [by apply write_blocks_bytes|]. intros tail.
  rewrite read_txns by done. cbn [app]. split.
  - unfold read_blocks. rewrite read_blocks_loop_out. by apply prefix_app_r.
  - intros Htail. apply read_blocks_stop. intros rest. rewrite (app_assoc pre), get_from_app.
    by intros [= <-].
Qed.

(** C31. Whatever bytes a segment holds, every block [read_blocks] answers is whole: it has the
    records and the bytes its Commit counts, all of them of the lane and none a Commit. A block
    that was being written when the process stopped is never answered in part. *)
Theorem read_blocks_whole seg a lane sequence :
  Forall (Committed_whole lane sequence) (read_blocks seg a lane sequence []).
Proof. apply (read_blocks_loop_whole _ _ _ _ _ []); constructor. Qed.
End loop.

Definition sample_txns : list Txn :=
  [{| t_txn := 1; t_commit_ts := 7; t_dep_ts := 6;
      t_entries := [(Insert, 0, [1; 2; 3]); (Delete, 2, [])] |};
   {| t_txn := 2; t_commit_ts := 8; t_dep_ts := 7; t_entries := [] |}].

Lemma read_blocks_reads_back_witness :
  ∃ bs, @write_blocks false 1 (seed 5) sample_txns = Some bs ∧
    @read_blocks false ([9; 9] ++ bs ++ [0; 0; 0]) 2 1 5 [] = Txn_committed 1 5 <$> sample_txns.
Proof.
  destruct (@read_blocks_reads_back false 1 5 sample_txns [9; 9]) as (bs&Hbs&Hr);
    [decided|decided|].
  exists bs. split; [exact Hbs|]. by apply (Hr [0; 0; 0]).
Defined.
