(* ===== verification/Cut.v ===== *)
(** The durable cut the lanes of one log share: [rudb-txn/src/log/cut.rs].

    The state behind the lock is a timestamp and the set of commits past a gap above it; the
    operations are the critical sections, and the trace of a run is the order the lock gave
    them. The theorem says what the cut is after any trace: the largest timestamp at or below
    which every commit was noted, whatever order they came in. *)

From S2P Require Import Prelude.
Local Open Scope Z_scope.

Definition U64_MAX : Z := 2 ^ 64 - 1.

Record State : Type := mkState {
  at_ : Z;
  above : gset Z;
  failed : bool;
}.

Definition new (at0 : Z) : State := {| at_ := at0; above := ∅; failed := false |}.

Definition checked_succ (x : Z) : option Z := if x <? U64_MAX then Some (x + 1) else None.

(** The loop [while let Some(next) = at.checked_add(1) && above.remove(&next)]. Every turn takes
    an element out of [above], so its size is fuel enough; see [advance_stops]. *)
Fixpoint advance_loop (fuel : nat) (s : State) : State :=
  match fuel with
  | O => s
  | S fuel =>
      match checked_succ (at_ s) with
      | Some next =>
          if decide (next ∈ above s) then
            advance_loop fuel
              {| at_ := next; above := above s ∖ {[next]}; failed := failed s |}
          else s
      | None => s
      end
  end.

Definition advance (s : State) : State := advance_loop (S (size (above s))) s.

Definition reached (ts : Z) (s : State) : State :=
  if ts <=? at_ s then s
  else advance {| at_ := at_ s; above := {[ts]} ∪ above s; failed := failed s |}.

(** [split_off(&ts)] keeps the elements at or above [ts]. *)
Definition raise (ts : Z) (s : State) : State :=
  let s := {| at_ := at_ s; above := above s; failed := false |} in
  let s :=
    if at_ s <? ts then
      {| at_ := ts; above := filter (λ x, ts ≤ x) (above s) ∖ {[ts]}; failed := failed s |}
    else s in
  advance s.

Definition fail (s : State) : State :=
  {| at_ := at_ s; above := above s; failed := true |}.

(** One look of [wait] under the lock: the answer it returns, or [None] to park until the state
    changes and look again. *)
Definition wait (ts : Z) (s : State) : option (Result ()) :=
  if ts <=? at_ s then Some (Ok ())
  else if failed s then
    Some (Err (Io "a log lane failed before a commit this one depends on was durable"))
  else None.

(** ** Traces *)

Inductive Op : Type := Reached (ts : Z) | Raise (ts : Z) | Fail.

Definition step (s : State) (o : Op) : State :=
  match o with Reached ts => reached ts s | Raise ts => raise ts s | Fail => fail s end.
Definition run (s : State) (ops : list Op) : State := foldl step s ops.

Definition op_ts (o : Op) : option Z :=
  match o with Reached ts | Raise ts => Some ts | Fail => None end.
Definition op_ok (o : Op) : Prop := ∀ ts, op_ts o = Some ts → u64 ts.

(** A commit is noted once it was reached, a checkpoint covered it, or it was in the file when
    the cut was made. *)
Definition noted_by (o : Op) (x : Z) : Prop :=
  match o with Reached ts => x = ts | Raise ts => x ≤ ts | Fail => False end.
Definition noted (at0 : Z) (ops : list Op) (x : Z) : Prop :=
  x ≤ at0 ∨ ∃ o, o ∈ ops ∧ noted_by o x.

(** A lane failed since the last checkpoint. *)
Definition has_failed (ops : list Op) : bool :=
  foldl (λ f o, match o with Fail => true | Raise _ => false | Reached _ => f end) false ops.

Example cut_moves_over_a_filled_gap :
  at_ (run (new 10) [Reached 12; Reached 13]) = 10
  ∧ at_ (run (new 10) [Reached 12; Reached 13; Reached 11]) = 13
  ∧ at_ (run (new 10) [Reached 12; Reached 13; Reached 11; Reached 9; Reached 15; Raise 14]) = 15.
Proof. by vm_compute. Qed.

(** * The invariant *)

(** [s] stands for the set [N] of noted commits: everything up to the cut and what is above it,
    and the commit after the cut is not noted. *)
Record represents (N : Z → Prop) (s : State) : Prop := {
  rep_noted : ∀ x, N x ↔ x ≤ at_ s ∨ x ∈ above s;
  rep_gap : ∀ x, x ∈ above s → at_ s + 1 < x;
  rep_range : u64 (at_ s) ∧ ∀ x, x ∈ above s → u64 x;
}.

(** The same before the loop, when the commit after the cut may be there. *)
Record half_represents (N : Z → Prop) (s : State) : Prop := {
  half_noted : ∀ x, N x ↔ x ≤ at_ s ∨ x ∈ above s;
  half_gap : ∀ x, x ∈ above s → at_ s < x;
  half_range : u64 (at_ s) ∧ ∀ x, x ∈ above s → u64 x;
}.

Lemma checked_succ_Some x y : checked_succ x = Some y ↔ x < U64_MAX ∧ y = x + 1.
Proof.
  unfold checked_succ. destruct (Z.ltb_spec x U64_MAX); naive_solver lia.
Qed.

Lemma checked_succ_None x : checked_succ x = None ↔ U64_MAX ≤ x.
Proof. unfold checked_succ. destruct (Z.ltb_spec x U64_MAX); naive_solver lia. Qed.

Lemma half_represents_step N s next :
  half_represents N s → checked_succ (at_ s) = Some next → next ∈ above s →
  half_represents N {| at_ := next; above := above s ∖ {[next]}; failed := failed s |}.
Proof.
  intros [Hn Hg [Ha Hr]] [Hlt ->]%checked_succ_Some Hin. split; simpl.
  - intros x. rewrite Hn, elem_of_difference, elem_of_singleton.
    split; [|intros [?|[? _]]; [|by auto]].
    + intros [?|?]; [left; lia|].
      destruct (decide (x = at_ s + 1)); [left; lia|by right].
    + destruct (decide (x = at_ s + 1)) as [->|]; [by right|left; lia].
  - intros x [Hx Hne]%elem_of_difference. rewrite elem_of_singleton in Hne.
    specialize (Hg x Hx). lia.
  - split; [by apply Hr|]. set_solver.
Qed.

(** Enough fuel runs the loop to its end: the commit after the cut is not noted any more. *)
Lemma advance_stops N fuel s :
  half_represents N s → (size (above s) < fuel)%nat → represents N (advance_loop fuel s).
Proof.
  revert s. induction fuel as [|fuel IH]; intros s Hs Hf; [lia|]. simpl.
  destruct (checked_succ (at_ s)) as [next|] eqn:E.
  - destruct (decide (next ∈ above s)) as [Hin|Hout].
    + apply IH; [by apply half_represents_step|]. simpl.
      assert (size (above s ∖ {[next]}) < size (above s))%nat; [|lia].
      apply subset_size. set_solver.
    + apply checked_succ_Some in E as [? ->]. destruct Hs as [Hn Hg Hr]. split; [done| |done].
      intros x Hx. specialize (Hg x Hx). destruct (decide (x = at_ s + 1)) as [->|]; [done|lia].
  - apply checked_succ_None in E. destruct Hs as [Hn Hg [Ha Hr]]. split; [done| |done].
    intros x Hx. specialize (Hg x Hx). specialize (Hr x Hx). unfold fits, U64_MAX in *. lia.
Qed.

Lemma advance_represents N s : half_represents N s → represents N (advance s).
Proof. intros. apply advance_stops; [done|lia]. Qed.

Lemma advance_loop_failed fuel s : failed (advance_loop fuel s) = failed s.
Proof.
  revert s. induction fuel as [|fuel IH]; intros s; [done|]. simpl.
  destruct (checked_succ _); [|done]. by case_decide; [rewrite IH|].
Qed.

Lemma represents_half N s : represents N s → half_represents N s.
Proof. intros [Hn Hg Hr]. split; [done| |done]. intros x Hx. specialize (Hg x Hx). lia. Qed.

Lemma represents_new at0 : u64 at0 → represents (λ x, x ≤ at0) (new at0).
Proof. intros. split; simpl; [set_solver..|]. split; [done|set_solver]. Qed.

Lemma reached_represents N s ts :
  u64 ts → represents N s → represents (λ x, N x ∨ x = ts) (reached ts s).
Proof.
  intros Hts Hs. pose proof Hs as [Hn Hg [Ha Hr]]. unfold reached. destruct (Z.leb_spec ts (at_ s)).
  - split; [|done..]. intros x. rewrite Hn. intuition lia.
  - apply advance_represents. split; simpl.
    + intros x. rewrite Hn. set_solver.
    + intros x [->%elem_of_singleton|Hx]%elem_of_union; [lia|]. specialize (Hg x Hx). lia.
    + split; [done|]. intros x [->%elem_of_singleton|Hx]%elem_of_union; auto.
Qed.

Lemma raise_represents N s ts :
  u64 ts → represents N s → represents (λ x, N x ∨ x ≤ ts) (raise ts s).
Proof.
  intros Hts Hs. pose proof Hs as [Hn Hg [Ha Hr]]. unfold raise. simpl.
  destruct (Z.ltb_spec (at_ s) ts); apply advance_represents; split; simpl.
  - intros x. rewrite Hn, elem_of_difference, elem_of_filter, elem_of_singleton.
    destruct (decide (x ≤ ts)); [intuition lia|]. intuition lia.
  - intros x [[? Hx]%elem_of_filter Hne]%elem_of_difference.
    rewrite elem_of_singleton in Hne. lia.
  - split; [done|]. intros x [[? Hx]%elem_of_filter _]%elem_of_difference. auto.
  - intros x. rewrite Hn. intuition lia.
  - intros x Hx. specialize (Hg x Hx). lia.
  - done.
Qed.

Lemma fail_represents N s : represents N s → represents N (fail s).
Proof. by intros [Hn Hg Hr]. Qed.

Lemma represents_ext N N' s : (∀ x, N x ↔ N' x) → represents N s → represents N' s.
Proof. intros HN [Hn Hg Hr]. split; [|done..]. intros x. by rewrite <-HN. Qed.

Lemma run_represents at0 ops :
  u64 at0 → Forall op_ok ops → represents (noted at0 ops) (run (new at0) ops).
Proof.
  intros Hat. induction ops as [|o ops IH] using rev_ind; intros Hops.
  - eapply represents_ext; [|by apply represents_new].
    intros x. unfold noted. set_solver.
  - apply Forall_app in Hops as [Hops [Ho _]%Forall_cons]. specialize (IH Hops).
    unfold run. rewrite foldl_app. fold (run (new at0) ops). simpl.
    assert (Hext : ∀ x, noted at0 ops x ∨ noted_by o x ↔ noted at0 (ops ++ [o]) x).
    { intros x. unfold noted. set_solver. }
    eapply represents_ext; [exact Hext|]. destruct o as [ts|ts|]; simpl.
    + apply reached_represents; [by apply Ho|done].
    + apply raise_represents; [by apply Ho|done].
    + eapply represents_ext; [|by apply fail_represents]. naive_solver.
Qed.

Lemma run_failed at0 ops : failed (run (new at0) ops) = has_failed ops.
Proof.
  induction ops as [|o ops IH] using rev_ind; [done|].
  unfold run, has_failed. rewrite !foldl_app. fold (run (new at0) ops). fold (has_failed ops).
  simpl. destruct o as [ts|ts|]; simpl; [|by unfold raise, advance; rewrite advance_loop_failed;
    simpl; case_match|done].
  unfold reached, advance. case_match; [done|]. by rewrite advance_loop_failed.
Qed.

(** * What the cut guarantees *)

(** The cut is the largest timestamp with everything at or below it noted. *)
Lemma cut_reaches_iff at0 ops ts :
  u64 at0 → Forall op_ok ops → ts ≤ at_ (run (new at0) ops) ↔ ∀ x, x ≤ ts → noted at0 ops x.
Proof.
  intros Hat Hops. destruct (run_represents at0 ops Hat Hops) as [Hn Hg [Ha Hr]]. set (s := run _ _) in *.
  split; [intros ? x ?; apply Hn; left; lia|]. intros Hall.
  destruct (decide (ts ≤ at_ s)) as [|Hgt]; [done|exfalso].
  destruct (proj1 (Hn (at_ s + 1)) (Hall (at_ s + 1) ltac:(lia))) as [?|Hin]; [lia|].
  specialize (Hg _ Hin). lia.
Qed.

Lemma cut_missing at0 ops ts :
  u64 at0 → Forall op_ok ops → at_ (run (new at0) ops) < ts → ∃ x, x ≤ ts ∧ ¬ noted at0 ops x.
Proof.
  intros Hat Hops Hgt. destruct (run_represents at0 ops Hat Hops) as [Hn Hg _]. set (s := run _ _) in *.
  exists (at_ s + 1). split; [lia|]. intros [?|Hin]%Hn; [lia|]. specialize (Hg _ Hin). lia.
Qed.

(** Every look of [wait] answers, or parks, by the cut and the failure alone. *)
Lemma wait_looks at0 ops ts :
  u64 at0 → Forall op_ok ops →
  ((∀ x, x ≤ ts → noted at0 ops x) ∧ wait ts (run (new at0) ops) = Some (Ok ()))
  ∨ ((∃ x, x ≤ ts ∧ ¬ noted at0 ops x)
     ∧ wait ts (run (new at0) ops) =
         if has_failed ops then Some (Err (Io "a log lane failed before a commit this one depends on was durable")) else None).
Proof.
  intros Hat Hops. pose proof (cut_reaches_iff at0 ops ts Hat Hops) as Hle. pose proof (cut_missing at0 ops ts Hat Hops) as Hmiss.
  unfold wait. rewrite run_failed. destruct (Z.leb_spec ts (at_ (run (new at0) ops))); [left|right]; naive_solver.
Qed.

Definition is_reached (o : Op) : Prop := match o with Reached _ => True | _ => False end.

Lemma has_failed_stays ops more : Forall is_reached more → has_failed ops = true → has_failed (ops ++ more) = true.
Proof.
  intros Hm Hf. unfold has_failed in *. rewrite foldl_app, Hf. clear Hf. induction Hm as [|[ts|ts|] more Ho Hm IH]; [done|exact IH|done..].
Qed.

(** C11. At any moment of any trace of the lock, a commit waiting on [ts] is told it may go on exactly
    when every commit at or below [ts] has been noted, by whatever order of arrivals and
    checkpoints, and whether or not a lane has failed; it is told a lane failed exactly when one is
    missing and a lane failed since the last checkpoint; and it goes on waiting exactly when one is
    missing and no lane has failed. The cut is the largest timestamp with everything at or below it
    noted. In particular a failure does not keep a commit from being told it is there: once the
    missing ones arrive it is, with the failure still standing and no checkpoint in between, where
    the comments on [failed] and on [wait] say it is not. *)
Theorem wait_acknowledges_iff at0 ops ts :
  u64 at0 → Forall op_ok ops →
  let s := run (new at0) ops in
  (wait ts s = Some (Ok ()) ↔ ∀ x, x ≤ ts → noted at0 ops x)
  ∧ ((∃ e, wait ts s = Some (Err e)) ↔ has_failed ops = true ∧ ∃ x, x ≤ ts ∧ ¬ noted at0 ops x)
  ∧ (wait ts s = None ↔ has_failed ops = false ∧ ∃ x, x ≤ ts ∧ ¬ noted at0 ops x)
  ∧ (ts ≤ at_ s ↔ ∀ x, x ≤ ts → noted at0 ops x)
  ∧ (∀ more, has_failed ops = true → Forall op_ok more → Forall is_reached more → (∀ x, x ≤ ts → noted at0 (ops ++ more) x) →
       failed (run (new at0) (ops ++ more)) = true ∧ wait ts (run (new at0) (ops ++ more)) = Some (Ok ())).
Proof.
  intros Hat Hops s. destruct (wait_looks at0 ops ts Hat Hops) as [[Hall E]|[Hmiss E]]; fold s in E; rewrite E.
  all: split_and!; [destruct (has_failed ops); naive_solver..|by apply cut_reaches_iff|].
  all: intros more Hf Hm Hr Hn; rewrite run_failed; (split; [by apply has_failed_stays|]).
  all: destruct (wait_looks at0 (ops ++ more) ts Hat) as [[_ ?]|[(x&Hx&Hnot) _]]; [by apply Forall_app|done|by destruct Hnot; apply Hn].
Qed.

Lemma wait_acknowledges_iff_witness :
  wait 13 (run (new 10) [Reached 12; Reached 13; Fail]) = Some (Err (Io "a log lane failed before a commit this one depends on was durable"))
  ∧ failed (run (new 10) ([Reached 12; Reached 13; Fail] ++ [Reached 11])) = true
  ∧ wait 13 (run (new 10) ([Reached 12; Reached 13; Fail] ++ [Reached 11])) = Some (Ok ()).
Proof.
  split; [by vm_compute|]. apply (wait_acknowledges_iff 10 [Reached 12; Reached 13; Fail] 13).
  - decided.
  - repeat (apply Forall_cons; split; [intros ts [= <-]; decided || intros ts [=]|]); by constructor.
  - done.
  - apply Forall_cons. split; [intros ts [= <-]; decided|by constructor].
  - apply Forall_cons. split; [done|by constructor].
  - intros x Hx. unfold noted. destruct (decide (x ≤ 10)) as [|Hgt]; [by left|right].
    assert (x = 11 ∨ x = 12 ∨ x = 13) as [->|[->| ->]] by lia;
      [exists (Reached 11)|exists (Reached 12)|exists (Reached 13)]; simpl; set_solver.
Defined.
