(* ===== verification/SimFs.v ===== *)
(** The simulated filesystem of the crash tests: [rudb-io/src/sim.rs].

    [Inner] is the state under the mutex. An operation is a computation in [io]: it answers a
    [Result] and the state it leaves, which is changed on an error too (the operation is
    recorded and an injected failure is used up). A path is the list of its components, a
    component the list of its bytes. *)

From S2P Require Import Prelude.
Local Open Scope Z_scope.

Definition Path : Type := list (list Z).

Inductive OpenMode : Type := Read | ReadWrite | Create | CreateNew.

Definition writable (mode : OpenMode) : bool := match mode with Read => false | _ => true end.

Inductive Op : Type :=
| OpOpen (path : Path) (mode : OpenMode)
| OpWrite (path : Path) (offset : Z) (len : Z)
| OpSync (path : Path)
| OpTruncate (path : Path) (len : Z)
| OpRename (from to : Path)
| OpRemove (path : Path)
| OpCreateDir (path : Path)
| OpSyncDir (path : Path).

Definition is_durability_point (op : Op) : bool :=
  match op with OpSync _ | OpSyncDir _ => true | _ => false end.

Inductive Crash : Type :=
| LosingUnsynced
| KeepingEverything
| Keeping (kept : list Z)
| Torn (keeping : list Z) (torn : Z) (bytes : Z).

Definition contains (seq : Z) (kept : list Z) : bool := existsb (Z.eqb seq) kept.

Definition Crash_keeps (crash : Crash) (seq : Z) : bool :=
  match crash with
  | LosingUnsynced => false
  | KeepingEverything => true
  | Keeping kept | Torn kept _ _ => contains seq kept
  end.

Definition Crash_torn (crash : Crash) (seq : Z) : option Z :=
  match crash with
  | Torn keeping torn bytes => if (torn =? seq) && negb (contains seq keeping) then Some bytes else None
  | _ => None
  end.

Inductive Change : Type :=
| CWrite (offset : Z) (data : list Z)
| CTruncate (len : Z).

Record Pending : Type := mkPending { p_seq : Z; p_path : Path; p_change : Change }.

(** One change to the names in a directory. *)
Inductive DirEntry : Type :=
| Link (name : Path) (inode : Z)
| Unlink (name : Path)
| Rename (from to : Path) (inode : Z).

Record DirPending : Type := mkDirPending { d_seq : Z; d_dir : Path; d_entry : DirEntry }.

Definition DirEntry_name (e : DirEntry) : Path :=
  match e with Link name _ | Unlink name => name | Rename _ to _ => to end.

Definition DirEntry_apply (e : DirEntry) (names : gmap Path Z) : gmap Path Z :=
  match e with
  | Link name inode => <[name := inode]> names
  | Unlink name => delete name names
  | Rename from to inode => <[to := inode]> (delete from names)
  end.

(** [path.parent().map(..).unwrap_or_default()] *)
Definition parent (path : Path) : Path := removelast path.

(** [path.parent()] *)
Definition path_parent (path : Path) : option Path :=
  match path with [] => None | _ => Some (removelast path) end.

Definition resize (len : Z) (l : list Z) : list Z :=
  take (Z.to_nat len) l ++ replicate (Z.to_nat len - length l) 0.

Definition write (bytes : list Z) (offset : Z) (data : list Z) : list Z :=
  let end_ := offset + zlen data in
  let bytes := if zlen bytes <? end_ then resize end_ bytes else bytes in
  put_slice offset data bytes.

Definition apply (bytes : list Z) (change : Change) : list Z :=
  match change with
  | CWrite offset data => write bytes offset data
  | CTruncate len => resize len bytes
  end.

Record SimFile : Type := mkSimFile { f_durable : list Z; f_pending : list Pending }.

Definition SimFile_visible (f : SimFile) : list Z :=
  foldl (λ bytes e, apply bytes (p_change e)) (f_durable f) (f_pending f).

Inductive Completions : Type := InOrder | Reversed | Shuffled (seed : Z).

Record ReadFaults : Type := mkReadFaults {
  rf_served : Z;
  rf_short : gmap Z Z;
  rf_failing : gset Z;
  rf_order : Completions }.

Definition no_faults : ReadFaults := mkReadFaults 0 ∅ ∅ InOrder.

Record Inner : Type := mkInner {
  i_files : gmap Z SimFile;
  i_next_inode : Z;
  i_names : gmap Path Z;
  i_durable_names : gmap Path Z;
  i_dir_pending : list DirPending;
  i_dirs : gset Path;
  i_log : list Op;
  i_next_seq : Z;
  i_fail_at : option Z;
  i_reads : ReadFaults }.

Definition SimFilesystem_new : Inner := mkInner ∅ 0 ∅ ∅ [] ∅ [] 0 None no_faults.

(** ** Computations on the filesystem *)

Definition io (A : Type) : Type := Inner → Result A * Inner.

#[global] Instance io_ret : MRet io := λ A a fs, (Ok a, fs).
#[global] Instance io_bind : MBind io := λ A B k c fs,
  match c fs with
  | (Ok a, fs) => k a fs
  | (Err e, fs) => (Err e, fs)
  end.

Definition io_fail {A} (e : Error) : io A := λ fs, (Err e, fs).
Definition io_result {A} (r : Result A) : io A := λ fs, (r, fs).
Definition io_get {A} (f : Inner → A) : io A := λ fs, (Ok (f fs), fs).
Definition io_set (f : Inner → Inner) : io () := λ fs, (Ok (), f fs).

(** Setters, for the assignments of the code. *)
Definition set_files (f : gmap Z SimFile → gmap Z SimFile) (fs : Inner) : Inner :=
  mkInner (f (i_files fs)) (i_next_inode fs) (i_names fs) (i_durable_names fs) (i_dir_pending fs)
    (i_dirs fs) (i_log fs) (i_next_seq fs) (i_fail_at fs) (i_reads fs).
Definition set_names (f : gmap Path Z → gmap Path Z) (fs : Inner) : Inner :=
  mkInner (i_files fs) (i_next_inode fs) (f (i_names fs)) (i_durable_names fs) (i_dir_pending fs)
    (i_dirs fs) (i_log fs) (i_next_seq fs) (i_fail_at fs) (i_reads fs).
Definition set_dirs (f : gset Path → gset Path) (fs : Inner) : Inner :=
  mkInner (i_files fs) (i_next_inode fs) (i_names fs) (i_durable_names fs) (i_dir_pending fs)
    (f (i_dirs fs)) (i_log fs) (i_next_seq fs) (i_fail_at fs) (i_reads fs).

(** [Inner::record] *)
Definition record (op : Op) : io () := λ fs,
  let index := zlen (i_log fs) in
  let log := i_log fs ++ [op] in
  let with_log fail_at :=
    mkInner (i_files fs) (i_next_inode fs) (i_names fs) (i_durable_names fs) (i_dir_pending fs)
      (i_dirs fs) log (i_next_seq fs) fail_at (i_reads fs) in
  if decide (i_fail_at fs = Some index) then (Err (Io "injected failure at operation"), with_log None)
  else (Ok (), with_log (i_fail_at fs)).

(** [Inner::next_seq] *)
Definition next_seq : io Z := λ fs,
  (Ok (i_next_seq fs),
   mkInner (i_files fs) (i_next_inode fs) (i_names fs) (i_durable_names fs) (i_dir_pending fs)
     (i_dirs fs) (i_log fs) (i_next_seq fs + 1) (i_fail_at fs) (i_reads fs)).

(** [Inner::change_dir] *)
Definition change_dir (path : Path) (entry : DirEntry) : io () :=
  seq ← next_seq;
  io_set (λ fs,
    mkInner (i_files fs) (i_next_inode fs) (i_names fs) (i_durable_names fs)
      (i_dir_pending fs ++ [mkDirPending seq (parent path) entry])
      (i_dirs fs) (i_log fs) (i_next_seq fs) (i_fail_at fs) (i_reads fs)).

Definition Inner_file (fs : Inner) (path : Path) : option SimFile :=
  inode ← i_names fs !! path; i_files fs !! inode.

(** Some name points at the file. *)
Definition named (fs : Inner) (inode : Z) : bool :=
  bool_decide (map_Exists (λ _ i, i = inode) (i_names fs)).

(** [Inner::serve_read]: the bytes read into a buffer of [len] bytes. *)
Definition serve_read (inode offset len : Z) : io (list Z) := λ fs,
  let number := rf_served (i_reads fs) in
  let failing := bool_decide (number ∈ rf_failing (i_reads fs)) in
  let short := rf_short (i_reads fs) !! number in
  let fs := mkInner (i_files fs) (i_next_inode fs) (i_names fs) (i_durable_names fs)
              (i_dir_pending fs) (i_dirs fs) (i_log fs) (i_next_seq fs) (i_fail_at fs)
              (mkReadFaults (number + 1) (delete number (rf_short (i_reads fs)))
                 (rf_failing (i_reads fs) ∖ {[number]}) (rf_order (i_reads fs))) in
  if (failing : bool) then (Err (Io "injected read failure on read"), fs) else
  match i_files fs !! inode with
  | Some file =>
      if negb (named fs inode) then (Err (Io "was removed while open"), fs) else
      let bytes := SimFile_visible file in
      if offset >=? zlen bytes then (Ok [], fs) else
      let n := Z.min len (zlen bytes - offset) in
      let n := match short with Some cap => Z.min n cap | None => n end in
      (Ok (slice offset (offset + n) bytes), fs)
  | None => (Err (Io "was removed while open"), fs)
  end.

(** ** [Filesystem for SimFilesystem] *)

Record SimHandle : Type := mkSimHandle { h_path : Path; h_inode : Z; h_writable : bool }.

Definition Fs_open (path : Path) (mode : OpenMode) : io SimHandle :=
  exists_ ← io_get (λ fs, bool_decide (is_Some (i_names fs !! path)));
  if negb exists_ && (match mode with Read | ReadWrite => true | _ => false end) then
    _ ← record (OpOpen path mode);
    io_fail (Io "does not exist")
  else if exists_ && (match mode with CreateNew => true | _ => false end) then
    _ ← record (OpOpen path mode);
    io_fail (Io "already exists")
  else
    _ ← record (OpOpen path mode);
    found ← io_get (λ fs, i_names fs !! path);
    inode ←
      match found with
      | Some inode => mret inode
      | None =>
          inode ← io_get i_next_inode;
          _ ← io_set (λ fs,
            mkInner (<[inode := mkSimFile [] []]> (i_files fs)) (inode + 1)
              (<[path := inode]> (i_names fs)) (i_durable_names fs) (i_dir_pending fs)
              (i_dirs fs) (i_log fs) (i_next_seq fs) (i_fail_at fs) (i_reads fs));
          _ ← change_dir path (Link path inode);
          mret inode
      end;
    mret (mkSimHandle path inode (writable mode)).

Definition Fs_exists (path : Path) : io bool :=
  io_get (λ fs, bool_decide (is_Some (i_names fs !! path)) || bool_decide (path ∈ i_dirs fs)).

Definition Fs_is_dir (path : Path) : io bool := io_get (λ fs, bool_decide (path ∈ i_dirs fs)).

(** The order of paths, component by component. *)
Fixpoint path_leb (a b : Path) : bool :=
  match a, b with
  | [], _ => true
  | _ :: _, [] => false
  | x :: a, y :: b => slice_lt x y || (slice_eq x y && path_leb a b)
  end.
Definition path_le (a b : Path) : Prop := path_leb a b = true.

#[global] Instance path_le_dec : RelDecision path_le.
Proof. intros a b. unfold path_le. apply _. Defined.

(** A stable sort, as [slice::sort] and [sort_by_key] are. *)
Section insertion.
Context {A : Type} (R : relation A) `{!RelDecision R}.

Fixpoint insert_sorted (x : A) (l : list A) : list A :=
  match l with
  | [] => [x]
  | y :: l' => if decide (R x y) then x :: l else y :: insert_sorted x l'
  end.

(** The last element goes in first, so that equal ones keep their order. *)
Definition sort_stable (l : list A) : list A := foldr insert_sorted [] l.
End insertion.

Definition Fs_read_dir (path : Path) : io (list Path) := λ fs,
  if negb (bool_decide (path ∈ i_dirs fs)) then (Err (Io "is not a directory"), fs) else
  let found := filter (λ entry, path_parent entry = Some path)
                 (elements (dom (i_names fs) ∪ i_dirs fs)) in
  (Ok (sort_stable path_le found), fs).

Definition Fs_remove (path : Path) : io () :=
  _ ← record (OpRemove path);
  found ← io_get (λ fs, i_names fs !! path);
  match found with
  | None => io_fail (Io "does not exist")
  | Some _ => _ ← io_set (set_names (delete path)); change_dir path (Unlink path)
  end.

Definition Fs_rename (from to : Path) : io () :=
  _ ← record (OpRename from to);
  found ← io_get (λ fs, i_names fs !! from);
  match found with
  | None => io_fail (Io "does not exist")
  | Some inode =>
      _ ← io_set (set_names (λ names, <[to := inode]> (delete from names)));
      if decide (parent from = parent to) then change_dir to (Rename from to inode)
      else _ ← change_dir from (Unlink from); change_dir to (Link to inode)
  end.

(** The prefixes of a path that are not empty, which [create_dir_all] makes. *)
Definition prefixes (path : Path) : list Path :=
  (λ n, take (S n) path) <$> seq 0 (length path).

Definition Fs_create_dir_all (path : Path) : io () :=
  _ ← record (OpCreateDir path);
  io_set (set_dirs (λ dirs, dirs ∪ list_to_set (prefixes path))).

Definition Fs_sync_dir (path : Path) : io () :=
  _ ← record (OpSyncDir path);
  io_set (λ fs,
    let synced := filter (λ p, d_dir p = path) (i_dir_pending fs) in
    let rest := filter (λ p, d_dir p ≠ path) (i_dir_pending fs) in
    mkInner (i_files fs) (i_next_inode fs) (i_names fs)
      (foldl (λ names p, DirEntry_apply (d_entry p) names) (i_durable_names fs) synced)
      rest (i_dirs fs) (i_log fs) (i_next_seq fs) (i_fail_at fs) (i_reads fs)).

(** ** [File for SimHandle] *)

(** [SimHandle::file]: the file while some name points at it. *)
Definition Handle_file (h : SimHandle) : io SimFile := λ fs,
  if negb (named fs (h_inode h)) then (Err (Io "was removed while open"), fs) else
  match i_files fs !! h_inode h with
  | Some file => (Ok file, fs)
  | None => (Err (Io "was removed while open"), fs)
  end.

Definition push_pending (h : SimHandle) (change : Change) : io () :=
  _ ← Handle_file h;
  seq ← next_seq;
  file ← Handle_file h;
  io_set (set_files
    (<[h_inode h := mkSimFile (f_durable file)
                      (f_pending file ++ [mkPending seq (h_path h) change])]>)).

Definition File_write_at (h : SimHandle) (offset : Z) (data : list Z) : io () :=
  if negb (h_writable h) then io_fail (Io "this file was opened for reading") else
  _ ← record (OpWrite (h_path h) offset (zlen data));
  push_pending h (CWrite offset data).

Definition File_sync (h : SimHandle) : io () :=
  _ ← record (OpSync (h_path h));
  file ← Handle_file h;
  io_set (set_files (<[h_inode h := mkSimFile (SimFile_visible file) []]>)).

Definition File_truncate (h : SimHandle) (len : Z) : io () :=
  if negb (h_writable h) then io_fail (Io "this file was opened for reading") else
  _ ← record (OpTruncate (h_path h) len);
  push_pending h (CTruncate len).

Definition File_len (h : SimHandle) : io Z :=
  file ← Handle_file h; mret (zlen (SimFile_visible file)).

Definition File_read_at (h : SimHandle) (offset len : Z) : io (list Z) :=
  serve_read (h_inode h) offset len.

(** The methods of [File] the simulation leaves at their defaults. *)
Definition File_read_exact_at (h : SimHandle) (offset len : Z) : io (list Z) :=
  bytes ← File_read_at h offset len;
  if zlen bytes =? len then mret bytes else io_fail (Io "the file ended first").

Fixpoint File_write_parts_at (h : SimHandle) (at_ : Z) (parts : list (list Z)) : io () :=
  match parts with
  | [] => mret ()
  | part :: parts => _ ← File_write_at h at_ part; File_write_parts_at h (at_ + zlen part) parts
  end.

Definition File_sync_data (h : SimHandle) : io () := File_sync h.
Definition File_sync_barrier (h : SimHandle) : io () := File_sync_data h.

(** ** The crash *)

(** The names a crash leaves. *)
Definition crash_names (crash : Crash) (fs : Inner) : gmap Path Z :=
  foldl (λ names p, if Crash_keeps crash (d_seq p) then DirEntry_apply (d_entry p) names else names)
    (i_durable_names fs) (i_dir_pending fs).

(** What a crash leaves of one write or truncate. *)
Definition crash_change (crash : Crash) (bytes : list Z) (e : Pending) : list Z :=
  if Crash_keeps crash (p_seq e) then apply bytes (p_change e) else
  match Crash_torn crash (p_seq e), p_change e with
  | Some kept, CWrite offset data => write bytes offset (take (Z.to_nat (Z.min kept (zlen data))) data)
  | _, _ => bytes
  end.

Definition crash_file (crash : Crash) (f : SimFile) : SimFile :=
  mkSimFile (foldl (crash_change crash) (f_durable f) (f_pending f)) [].

Definition Fs_crash (crash : Crash) (fs : Inner) : Inner :=
  let names := crash_names crash fs in
  let files := crash_file crash <$>
                 filter (λ f : Z * SimFile, map_Exists (λ _ i, i = f.1) names) (i_files fs) in
  mkInner files (i_next_inode fs) names names [] (i_dirs fs) [] 0 None no_faults.

(** ** What a test sets and asks *)

Definition Fs_fail_at (index : Z) (fs : Inner) : Inner :=
  mkInner (i_files fs) (i_next_inode fs) (i_names fs) (i_durable_names fs) (i_dir_pending fs)
    (i_dirs fs) (i_log fs) (i_next_seq fs) (Some index) (i_reads fs).

Definition Fs_contents (path : Path) (fs : Inner) : option (list Z) :=
  SimFile_visible <$> Inner_file fs path.

Definition Fs_durable_contents (path : Path) (fs : Inner) : option (list Z) :=
  f_durable <$> Inner_file fs path.

Definition Fs_pending_names (fs : Inner) : list (Z * Path) :=
  (λ p, (d_seq p, DirEntry_name (d_entry p))) <$> i_dir_pending fs.
