(* ===== verification/SimFsLaws.v ===== *)
(** Laws of the simulated filesystem: its sorts and paths, what each operation changes when it
    succeeds and that it changes nothing on the disk when it fails, and what a crash keeps. *)

From S2P Require Import Prelude SimFs.
Local Open Scope Z_scope.

(** * Sorting *)

Section sorting.
Context {A : Type} (R : relation A) `{!RelDecision R, !PreOrder R, !Total R}.

Lemma insert_sorted_perm x l : insert_sorted R x l ≡ₚ x :: l.
Proof.
  induction l as [|y l IH]; [done|]. simpl. case_decide; [done|]. by rewrite IH, Permutation_swap.
Qed.

Lemma sort_stable_perm l : sort_stable R l ≡ₚ l.
Proof. induction l as [|x l IH]; [done|]. simpl. by rewrite insert_sorted_perm, IH. Qed.

Lemma insert_sorted_sorted x l : StronglySorted R l → StronglySorted R (insert_sorted R x l).
Proof.
  induction 1 as [|y l Hl IH Hy]; [by repeat constructor|]. simpl. case_decide as Hxy.
  - constructor; [by constructor|]. constructor; [done|].
    eapply Forall_impl; [exact Hy|]. intros z Hz. by transitivity y.
  - constructor; [done|]. rewrite insert_sorted_perm. constructor; [|done].
    by destruct (total R x y).
Qed.

Lemma sort_stable_sorted l : StronglySorted R (sort_stable R l).
Proof. induction l; [constructor|]. by apply insert_sorted_sorted. Qed.

(** What is in order already stays as it is. *)
Lemma sort_stable_id l : StronglySorted R l → sort_stable R l = l.
Proof.
  induction 1 as [|x l Hl IH Hx]; [done|]. simpl. rewrite IH.
  destruct Hx as [|y l Hxy _]; [done|]. simpl. by rewrite decide_True.
Qed.

(** Sorting and keeping some of the elements commute. *)
Lemma filter_insert_sorted (P : A → Prop) `{!∀ x, Decision (P x)} x l :
  StronglySorted R l →
  filter P (insert_sorted R x l) =
    if decide (P x) then insert_sorted R x (filter P l) else filter P l.
Proof.
  induction 1 as [|y l Hl IH Hy]; [done|]. simpl. destruct (decide (R x y)) as [Hxy|Hxy].
  - rewrite !filter_cons. destruct (decide (P x)); [|done].
    destruct (decide (P y)); simpl; [by rewrite decide_True|].
    destruct (filter P l) as [|z l'] eqn:E; [done|]. simpl. rewrite decide_True; [done|].
    transitivity y; [done|]. rewrite Forall_forall in Hy. apply Hy.
    assert (z ∈ filter P l) as [_ Hz]%list_elem_of_filter by (rewrite E; left). done.
  - rewrite !filter_cons, IH. destruct (decide (P x)), (decide (P y)); try done. simpl.
    by rewrite decide_False.
Qed.

Lemma filter_sort_stable (P : A → Prop) `{!∀ x, Decision (P x)} l :
  filter P (sort_stable R l) = sort_stable R (filter P l).
Proof.
  induction l as [|x l IH]; [done|]. simpl.
  rewrite filter_insert_sorted by apply sort_stable_sorted. rewrite filter_cons, IH.
  by destruct (decide (P x)).
Qed.

(** The order of the input is nothing to a sort by an order that tells elements apart. *)
Lemma sort_stable_proper `{!AntiSymm (=) R} l l' : l ≡ₚ l' → sort_stable R l = sort_stable R l'.
Proof.
  intros Hp. apply (StronglySorted_unique R); [apply sort_stable_sorted..|].
  by rewrite !sort_stable_perm.
Qed.
End sorting.

(** * Paths *)

#[global] Instance path_le_preorder : PreOrder path_le.
Proof.
  split; unfold path_le.
  - intros a. induction a as [|x a IH]; [done|]. simpl. rewrite IH, (proj2 (slice_eq_iff x x) eq_refl).
    by rewrite orb_true_r.
  - intros a. induction a as [|x a IH]; [done|]. intros [|y b] [|z c]; try done. simpl.
    rewrite !orb_true_iff, !andb_true_iff, !slice_eq_iff.
    intros [Hxy|[-> Hab]] [Hyz|[-> Hbc]]; eauto using slice_lt_trans.
Qed.

#[global] Instance path_le_antisymm : AntiSymm (=) path_le.
Proof.
  unfold path_le. intros a. induction a as [|x a IH]; intros [|y b]; try done. simpl.
  rewrite !orb_true_iff, !andb_true_iff, !slice_eq_iff.
  intros [Hxy|[-> Hab]] [Hyx|[Hyx Hba]]; subst.
  - pose proof (slice_lt_trans _ _ _ Hxy Hyx). by rewrite slice_lt_irrefl in *.
  - by rewrite slice_lt_irrefl in *.
  - by rewrite slice_lt_irrefl in *.
  - f_equal. by apply IH.
Qed.

#[global] Instance path_le_total : Total path_le.
Proof.
  unfold path_le. intros a. induction a as [|x a IH]; intros [|y b]; simpl; auto.
  rewrite !orb_true_iff, !andb_true_iff, !slice_eq_iff.
  destruct (slice_lt_total x y) as [|[->|]]; auto. destruct (IH b); auto.
Qed.

(** * What operations change *)

(** The filesystem without the operations recorded and the failures set for them. *)
Definition store (fs : Inner) : Inner :=
  mkInner (i_files fs) (i_next_inode fs) (i_names fs) (i_durable_names fs) (i_dir_pending fs)
    (i_dirs fs) [] (i_next_seq fs) None no_faults.

(** From a filesystem whose store is [s], [c] ends with [Q] of its answer and the store it
    leaves, or, only where a failure was set, with [E] of the store it leaves. *)
Definition wp {A} (c : io A) (s : Inner) (Q : A → Inner → Prop) (E : Inner → Prop) : Prop :=
  ∀ fs, store fs = s →
    match c fs with
    | (Ok a, fs') => Q a (store fs') ∧ i_fail_at fs' = i_fail_at fs
    | (Err _, fs') => E (store fs') ∧ is_Some (i_fail_at fs)
    end.

Section wp_rules.
Context {A B : Type}.
Implicit Types (c : io A) (E : Inner → Prop).

Lemma wp_ret (a : A) s (Q : A → Inner → Prop) E : Q a s → wp (mret a) s Q E.
Proof. by intros HQ fs <-. Qed.

Lemma wp_bind c (k : A → io B) s Q E :
  wp c s (λ a s', wp (k a) s' Q E) E → wp (c ≫= k) s Q E.
Proof.
  intros Hc fs Hs. specialize (Hc fs Hs). cbv [mbind io_bind].
  destruct (c fs) as [[a|e] fs']; [|done]. destruct Hc as [Hk Hf]. specialize (Hk fs' eq_refl).
  rewrite <-Hf. by destruct (k a fs') as [[b|e'] fs''].
Qed.

Lemma wp_mono c s (Q Q' : A → Inner → Prop) E (E' : Inner → Prop) :
  wp c s Q E → (∀ a s', Q a s' → Q' a s') → (∀ s', E s' → E' s') → wp c s Q' E'.
Proof.
  intros Hc HQ HE fs Hs. specialize (Hc fs Hs).
  destruct (c fs) as [[a|e] fs']; destruct Hc; eauto.
Qed.

Lemma wp_get (f : Inner → A) s (Q : A → Inner → Prop) E :
  (∀ fs, f fs = f (store fs)) → Q (f s) s → wp (io_get f) s Q E.
Proof. intros Hf HQ fs <-. unfold io_get. by rewrite (Hf fs). Qed.
End wp_rules.

Lemma wp_set (f : Inner → Inner) s (Q : () → Inner → Prop) E :
  (∀ fs, store (f fs) = store (f (store fs)) ∧ i_fail_at (f fs) = i_fail_at fs) →
  Q () (store (f s)) → wp (io_set f) s Q E.
Proof. intros Hf HQ fs <-. unfold io_set. destruct (Hf fs) as [-> ->]. done. Qed.

Lemma wp_record op s (Q : () → Inner → Prop) (E : Inner → Prop) :
  Q () s → E s → wp (record op) s Q E.
Proof. intros HQ HE fs <-. unfold record. case_decide as Hf; [|done]. split; [done|]. by rewrite Hf. Qed.

Lemma wp_next_seq s (Q : Z → Inner → Prop) E :
  Q (i_next_seq s)
    (mkInner (i_files s) (i_next_inode s) (i_names s) (i_durable_names s) (i_dir_pending s)
       (i_dirs s) [] (i_next_seq s + 1) None no_faults) →
  wp next_seq s Q E.
Proof. by intros HQ fs <-. Qed.

Lemma wp_Handle_file h f s (Q : SimFile → Inner → Prop) E :
  named s (h_inode h) = true → i_files s !! h_inode h = Some f → Q f s →
  wp (Handle_file h) s Q E.
Proof.
  intros Hn Hf HQ fs <-. unfold Handle_file. change (named (store fs)) with (named fs) in Hn.
  rewrite Hn. simpl in *. by rewrite Hf.
Qed.

(** ** The operations a lane does *)

Section operations.
Context (s : Inner) (E : Inner → Prop).

Definition with_write (h : SimHandle) (change : Change) (f : SimFile) : Inner :=
  mkInner (<[h_inode h := mkSimFile (f_durable f)
                            (f_pending f ++ [mkPending (i_next_seq s) (h_path h) change])]> (i_files s))
    (i_next_inode s) (i_names s) (i_durable_names s) (i_dir_pending s) (i_dirs s) []
    (i_next_seq s + 1) None no_faults.

Lemma wp_write_at h f offset data Q :
  h_writable h = true → named s (h_inode h) = true → i_files s !! h_inode h = Some f →
  Q () (with_write h (CWrite offset data) f) → E s → wp (File_write_at h offset data) s Q E.
Proof.
  intros Hw Hn Hf HQ HE. unfold File_write_at. rewrite Hw. cbn [negb].
  apply wp_bind, wp_record; [|done]. unfold push_pending.
  apply wp_bind, (wp_Handle_file _ f); [done..|].
  apply wp_bind, wp_next_seq. apply wp_bind, (wp_Handle_file _ f); [done..|].
  by apply wp_set.
Qed.

Lemma wp_sync h f Q :
  named s (h_inode h) = true → i_files s !! h_inode h = Some f →
  Q () (store (set_files (<[h_inode h := mkSimFile (SimFile_visible f) []]>) s)) → E s →
  wp (File_sync h) s Q E.
Proof.
  intros Hn Hf HQ HE. unfold File_sync. apply wp_bind, wp_record; [|done].
  apply wp_bind, (wp_Handle_file _ f); [done..|]. by apply wp_set.
Qed.

Definition with_new (path : Path) : Inner :=
  mkInner (<[i_next_inode s := mkSimFile [] []]> (i_files s)) (i_next_inode s + 1)
    (<[path := i_next_inode s]> (i_names s)) (i_durable_names s)
    (i_dir_pending s ++ [mkDirPending (i_next_seq s) (parent path) (Link path (i_next_inode s))])
    (i_dirs s) [] (i_next_seq s + 1) None no_faults.

Lemma wp_open_new path Q :
  i_names s !! path = None →
  Q (mkSimHandle path (i_next_inode s) true) (with_new path) → E s →
  wp (Fs_open path CreateNew) s Q E.
Proof.
  intros Hn HQ HE. unfold Fs_open. apply wp_bind, wp_get; [done|].
  rewrite bool_decide_eq_false_2 by (rewrite Hn; by intros []). cbn [negb andb].
  apply wp_bind, wp_record; [|done]. apply wp_bind, wp_get; [done|]. rewrite Hn.
  apply wp_bind. apply wp_bind, wp_get; [done|]. apply wp_bind, wp_set; [done|].
  unfold change_dir. apply wp_bind, wp_bind, wp_next_seq, wp_set; [done|]. by apply wp_ret, wp_ret.
Qed.

Definition with_synced_dir (path : Path) : Inner :=
  mkInner (i_files s) (i_next_inode s) (i_names s)
    (foldl (λ names p, DirEntry_apply (d_entry p) names) (i_durable_names s)
       (filter (λ p, d_dir p = path) (i_dir_pending s)))
    (filter (λ p, d_dir p ≠ path) (i_dir_pending s)) (i_dirs s) [] (i_next_seq s) None no_faults.

Lemma wp_sync_dir path Q : Q () (with_synced_dir path) → E s → wp (Fs_sync_dir path) s Q E.
Proof. intros HQ HE. unfold Fs_sync_dir. apply wp_bind, wp_record; [|done]. by apply wp_set. Qed.

Lemma wp_create_dir_all path Q :
  Q () (store (set_dirs (λ dirs, dirs ∪ list_to_set (prefixes path)) s)) → E s →
  wp (Fs_create_dir_all path) s Q E.
Proof. intros HQ HE. unfold Fs_create_dir_all. apply wp_bind, wp_record; [|done]. by apply wp_set. Qed.

Lemma wp_is_dir path Q : Q (bool_decide (path ∈ i_dirs s)) s → wp (Fs_is_dir path) s Q E.
Proof. intros HQ. by apply wp_get. Qed.

(** The files and directories of a directory, as [read_dir] lists them. *)
Definition listing (names : gmap Path Z) (dirs : gset Path) (path : Path) : list Path :=
  sort_stable path_le (filter (λ entry, path_parent entry = Some path) (elements (dom names ∪ dirs))).

Lemma wp_read_dir path Q :
  path ∈ i_dirs s → Q (listing (i_names s) (i_dirs s) path) s → wp (Fs_read_dir path) s Q E.
Proof.
  intros Hd HQ fs <-. unfold Fs_read_dir. simpl in *. rewrite bool_decide_eq_true_2 by done.
  simpl. done.
Qed.
End operations.

(** * Sorting one more element *)

Section sort_one_more.
Context {A : Type} (R : relation A) `{!RelDecision R, !PreOrder R, !Total R}.

Lemma insert_sorted_split x l :
  ∃ l1 l2, l = l1 ++ l2 ∧ insert_sorted R x l = l1 ++ x :: l2.
Proof.
  induction l as [|y l (l1&l2&->&IH)]; [by exists [], []|]. simpl. case_decide.
  - by exists [], (y :: l1 ++ l2).
  - exists (y :: l1), l2. by rewrite IH.
Qed.

Lemma insert_sorted_last x l : (∀ y, y ∈ l → ¬ R x y) → insert_sorted R x l = l ++ [x].
Proof.
  induction l as [|y l IH]; intros Hx; [done|]. simpl.
  rewrite decide_False by (apply Hx; left). rewrite IH; [done|]. intros z Hz. apply Hx. by right.
Qed.

Lemma insert_sorted_before x y l : R y x → insert_sorted R y (l ++ [x]) = insert_sorted R y l ++ [x].
Proof.
  intros Hyx. induction l as [|z l IH]; simpl; [by rewrite decide_True|].
  case_decide; [done|]. by rewrite IH.
Qed.

(** An element past all the others goes last. *)
Lemma sort_stable_max x l1 l2 :
  (∀ y, y ∈ l1 ++ l2 → ¬ R x y) →
  sort_stable R (l1 ++ x :: l2) = sort_stable R (l1 ++ l2) ++ [x].
Proof.
  induction l1 as [|y l1 IH]; intros Hx; simpl.
  - apply insert_sorted_last. intros y. rewrite sort_stable_perm by done. apply Hx.
  - fold (sort_stable R (l1 ++ x :: l2)). rewrite IH by (intros z Hz; apply Hx; by right).
    apply insert_sorted_before. destruct (total R x y); [|done]. by destruct (Hx y ltac:(left)).
Qed.
End sort_one_more.

(** * Crashes *)

(** What a file holds after a crash: what its name leads to, with the changes the crash kept. *)
Lemma crash_contents crash fs path :
  Fs_contents path (Fs_crash crash fs) =
    inode ← crash_names crash fs !! path;
    (λ f, f_durable (crash_file crash f)) <$> i_files fs !! inode.
Proof.
  unfold Fs_contents, Inner_file, Fs_crash. cbn [i_names i_files].
  destruct (crash_names crash fs !! path) as [inode|] eqn:E; [|done]. bind_step.
  rewrite lookup_fmap. rewrite map_lookup_filter.
  rewrite some_bind. destruct (i_files fs !! inode) as [f|]; [|done]. rewrite some_bind.
  case_guard as Hg; [done|]. destruct Hg. by exists path, inode.
Qed.
