(* ===== verification/Lane.v ===== *)
(** One lane of the log: [rudb-txn/src/log/lane.rs] and [replay] of
    [rudb-txn/src/log/replay.rs], over the simulated filesystem.

    [State] is what the lane keeps under its lock. A turn of a leader is split where the code
    lets go of the lock: [begin_turn] takes the blocks queued, [end_turn] does the leader's
    writes and syncs and says how far they got, and blocks queued between the two wait for the
    next turn. Left out are the statistics, how a waiter passes the time (a spin or a condition
    variable), and the thread of [spare_ahead] that fills spares: the lane is the one of an
    [Options] with [spare_ahead] off. *)

From S2P Require Import Prelude Crc LogFormat LogBlock SimFs.
Local Open Scope Z_scope.

Definition ZERO_CHUNK : Z := 2 ^ 20.
Definition SPARES : nat := 2.

Inductive CommitSync : Type := SyncFull | SyncBarrier | SyncOs | SyncNone.

Record Options : Type := mkOptions {
  o_lane : Z;
  o_database : Z;
  o_segment_bytes : Z;
  o_commit_sync : CommitSync }.

(** ** Names *)

Definition dec_digit (d : Z) : Z := 48 + d.
Definition hex_digit (d : Z) : Z := if d <? 10 then 48 + d else 87 + d.

(** [{lane:02}] *)
Definition lane_digits (lane : Z) : list Z :=
  (if lane >=? 100 then [dec_digit (lane / 100)] else [])
  ++ [dec_digit ((lane / 10) `mod` 10); dec_digit (lane `mod` 10)].

(** [{sequence:016x}] *)
Definition sequence_digits (sequence : Z) : list Z :=
  (λ i : nat, hex_digit ((sequence ≫ (4 * (15 - Z.of_nat i))) `mod` 16)) <$> seq 0 16.

Definition segment_name (lane sequence : Z) : list Z :=
  [76] ++ lane_digits lane ++ [45] ++ sequence_digits sequence.

Definition is_ascii_digit (b : Z) : bool := (48 <=? b) && (b <=? 57).
Definition is_ascii_hexdigit (b : Z) : bool :=
  is_ascii_digit b || ((65 <=? b) && (b <=? 70)) || ((97 <=? b) && (b <=? 102)).

Definition hex_value (b : Z) : Z :=
  if b <=? 57 then b - 48 else if b <=? 70 then b - 55 else b - 87.

(** [split_once('-')] *)
Fixpoint split_dash (l : list Z) : option (list Z * list Z) :=
  match l with
  | [] => None
  | b :: l => if b =? 45 then Some ([], l) else '(before, after) ← split_dash l; Some (b :: before, after)
  end.

Definition parse_segment_name (name : list Z) : option (Z * Z) :=
  match name with
  | 76 :: rest =>
      '(lane, sequence) ← split_dash rest;
      if negb (zlen lane =? 2) || negb (zlen sequence =? 16) then None else
      if negb (forallb is_ascii_digit lane) || negb (forallb is_ascii_hexdigit sequence) then None else
      Some (foldl (λ n b, n * 10 + (b - 48)) 0 lane, foldl (λ n b, n * 16 + hex_value b) 0 sequence)
  | _ => None
  end.

(** [dedup] *)
Fixpoint dedup (l : list Z) : list Z :=
  match l with
  | x :: ((y :: _) as l') => if x =? y then dedup l' else x :: dedup l'
  | _ => l
  end.

(** [.spare] *)
Definition SPARE_SUFFIX : list Z := [46; 115; 112; 97; 114; 101].
Definition spare_name (lane sequence : Z) : list Z := segment_name lane sequence ++ SPARE_SUFFIX.

Definition strip_suffix (suffix name : list Z) : option (list Z) :=
  let n := (length name - length suffix)%nat in
  if bool_decide (length suffix ≤ length name)%nat && bool_decide (drop n name = suffix)
  then Some (take n name) else None.

Definition by_sequence (a b : Z * Path) : Prop := a.1 ≤ b.1.

#[global] Instance by_sequence_dec : RelDecision by_sequence.
Proof. intros a b. unfold by_sequence. apply _. Defined.

(** The segments of [lane] among the paths of a directory, before they are sorted. *)
Definition segments_of (lane : Z) (paths : list Path) : list (Z * Path) :=
  omap (λ path,
    name ← last path;
    '(of_, sequence) ← parse_segment_name name;
    if of_ =? lane then Some (sequence, path) else None) paths.

Definition segments (dir : Path) (lane : Z) : io (list (Z * Path)) :=
  is_dir ← Fs_is_dir dir;
  if negb is_dir then mret [] else
  paths ← Fs_read_dir dir;
  mret (sort_stable by_sequence (segments_of lane paths)).

Definition spares_of (lane : Z) (paths : list Path) : list Path :=
  filter (λ path,
    (name ← last path; name ← strip_suffix SPARE_SUFFIX name; '(of_, _) ← parse_segment_name name;
     Some of_) = Some lane) paths.

Definition spares (dir : Path) (lane : Z) : io (list Path) :=
  is_dir ← Fs_is_dir dir;
  if negb is_dir then mret [] else
  paths ← Fs_read_dir dir;
  mret (spares_of lane paths).

Definition lanes (dir : Path) : io (list Z) :=
  is_dir ← Fs_is_dir dir;
  if negb is_dir then mret [] else
  paths ← Fs_read_dir dir;
  mret (dedup (sort_stable Z.le (omap (λ path,
    name ← last path;
    fst <$> parse_segment_name (default name (strip_suffix SPARE_SUFFIX name))) paths))).

Definition remove_spare (path : Path) : io () := λ fs,
  match Fs_remove path fs with
  | (Err e, fs) => match Fs_exists path fs with
                   | (Ok true, fs) => (Err e, fs)
                   | (_, fs) => (Ok (), fs)
                   end
  | (Ok _, fs) => (Ok (), fs)
  end.

(** ** The lane *)

Record Piece : Type := mkPiece { pc_sequence : Z; pc_offset : Z; pc_end : Z; pc_bytes : list Z }.

Record Open : Type := mkOpen { op_sequence : Z; op_file : SimHandle; op_dirty : bool }.

Inductive Reach : Type := Written | Ordered | Durable.

(** What a leader takes to the disk. *)
Record Turn : Type := mkTurn { tn_open : Open; tn_pieces : list Piece; tn_written : Z; tn_reach : Reach }.

(** What the lane keeps under its lock. *)
Record State : Type := mkState {
  st_tail_sequence : Z;
  st_tail_offset : Z;
  st_pending : list Piece;
  st_open : option Open;
  st_reserved : Z;
  st_written : Z;
  st_durable : Z;
  st_ordered : Z;
  st_flushing : bool;
  st_failed : option Error;
  st_spares : list Path }.

Definition set_spares (f : list Path → list Path) (st : State) : State :=
  mkState (st_tail_sequence st) (st_tail_offset st) (st_pending st) (st_open st) (st_reserved st)
    (st_written st) (st_durable st) (st_ordered st) (st_flushing st) (st_failed st)
    (f (st_spares st)).

Record Led : Type := mkLed { led_written : Z; led_durable : option Z; led_ordered : option Z }.

Definition State_check (st : State) : Result () :=
  match st_failed st with
  | Some _ => Err (Io "the log failed earlier and takes no more commits")
  | None => Ok ()
  end.

Section lane.
Context `{Machine} (dir : Path) (options : Options).

(** The zeros of a new segment, a chunk a write. [fuel] is the chunks there can be. *)
Fixpoint fill_zeros (fuel : nat) (file : SimHandle) (chunk at_ size : Z) : io () :=
  match fuel with
  | O => io_fail (Internal "out of fuel")
  | S fuel =>
      if at_ <? size then
        let run := Z.min chunk (size - at_) in
        _ ← File_write_at file at_ (replicate (Z.to_nat run) 0);
        fill_zeros fuel file chunk (at_ + run) size
      else mret ()
  end.

(** [Lane::create_segment] with the spare it popped, if there was one. *)
Definition create_segment (sequence : Z) (spare : option Path) : io SimHandle :=
  let path := dir ++ [segment_name (o_lane options) sequence] in
  let header := {| seg_lane := o_lane options; seg_sequence := sequence;
                   seg_database := o_database options |} in
  match spare with
  | Some spare =>
      file ← Fs_open spare ReadWrite;
      _ ← File_write_at file 0 (SegmentHeader_encode header);
      _ ← File_sync_data file;
      _ ← Fs_rename spare path;
      _ ← Fs_sync_dir dir;
      mret file
  | None =>
      file ← Fs_open path CreateNew;
      _ ← File_write_at file 0 (SegmentHeader_encode header);
      let size := o_segment_bytes options in
      let chunk := Z.min ZERO_CHUNK (size - SEGMENT_HEADER) in
      _ ← fill_zeros (S (Z.to_nat size)) file chunk SEGMENT_HEADER size;
      _ ← File_sync file;
      _ ← Fs_sync_dir dir;
      mret file
  end.

(** The first pieces that go to the segment of the first of them, and the rest. *)
Fixpoint same_segment (sequence : Z) (pieces : list Piece) : list Piece * list Piece :=
  match pieces with
  | p :: rest =>
      if pc_sequence p =? sequence
      then let '(run, rest) := same_segment sequence rest in (p :: run, rest)
      else ([], pieces)
  | [] => ([], [])
  end.

(** What [lead] changes as it goes: the leader's open segment, which it keeps when it fails, the
    position written, and the lane's spares, which [create_segment] pops. *)
Record Leading : Type := mkLeading {
  ld_open : Open; ld_written : Z; ld_durable : option Z; ld_spares : list Path }.

(** A computation of a leader: what it answers, what it changed, and the filesystem. *)
Definition turn_io : Type := Leading → Inner → Result () * Leading * Inner.

(** An operation of the filesystem within a turn. *)
Definition at_disk {A} (c : io A) (k : A → turn_io) : turn_io := λ ld fs,
  match c fs with
  | (Ok a, fs) => k a ld fs
  | (Err e, fs) => (Err e, ld, fs)
  end.

Definition turn_done : turn_io := λ ld fs, (Ok (), ld, fs).

(** A sync of the open segment when something was written to it since the last one. *)
Definition sync_if_dirty (sync : SimHandle → io ()) (k : turn_io) : turn_io := λ ld,
  at_disk (if op_dirty (ld_open ld) then sync (op_file (ld_open ld)) else mret ()) (λ _, k) ld.

(** The rotation of [lead]: the old segment is synced before the new one is made. *)
Definition rotate (sequence : Z) (k : turn_io) : turn_io :=
  sync_if_dirty File_sync_data (λ ld,
    at_disk (create_segment sequence (last (ld_spares ld)))
      (λ file ld, k (mkLeading (mkOpen sequence file false) (ld_written ld) (ld_durable ld)
                       (ld_spares ld)))
      (mkLeading (ld_open ld) (ld_written ld) (Some (ld_written ld)) (removelast (ld_spares ld)))).

(** The loop of [lead]. [fuel] is the pieces: each time round writes one at the least. *)
Fixpoint lead_loop (fuel : nat) (pieces : list Piece) (k : turn_io) : turn_io :=
  match fuel with
  | O => at_disk (io_fail (A := ()) (Internal "out of fuel")) (λ _, turn_done)
  | S fuel =>
      match pieces with
      | [] => k
      | first :: _ =>
          let sequence := pc_sequence first in
          let '(run, rest) := same_segment sequence pieces in
          let write_run : turn_io := λ ld,
            at_disk (File_write_parts_at (op_file (ld_open ld)) (pc_offset first) (pc_bytes <$> run))
              (λ _ ld,
                lead_loop fuel rest k
                  (mkLeading (mkOpen (op_sequence (ld_open ld)) (op_file (ld_open ld)) true)
                     (default (ld_written ld) (pc_end <$> last run)) (ld_durable ld)
                     (ld_spares ld))) ld in
          λ ld, if negb (sequence =? op_sequence (ld_open ld)) then rotate sequence write_run ld
                else write_run ld
      end
  end.

(** The end of [lead]: a sync or a barrier behind what was written when [reach] asks for it. *)
Definition lead_end (reach : Reach) : turn_io :=
  match reach with
  | Written => turn_done
  | Ordered => sync_if_dirty File_sync_barrier turn_done
  | Durable => sync_if_dirty File_sync_data (λ ld,
      turn_done (mkLeading (mkOpen (op_sequence (ld_open ld)) (op_file (ld_open ld)) false)
                   (ld_written ld) (Some (ld_written ld)) (ld_spares ld)))
  end.

(** [Lane::lead]: how far the turn got, the segment it left open and the spares it left. *)
Definition lead (turn : Turn) (spares : list Path) (fs : Inner) : Result Led * Leading * Inner :=
  match lead_loop (S (length (tn_pieces turn))) (tn_pieces turn) (lead_end (tn_reach turn))
          (mkLeading (tn_open turn) (tn_written turn) None spares) fs with
  | (Ok _, ld, fs) =>
      (Ok (mkLed (ld_written ld) (ld_durable ld)
             match tn_reach turn with Ordered => Some (ld_written ld) | _ => None end), ld, fs)
  | (Err e, ld, fs) => (Err e, ld, fs)
  end.

(** ** What committers do *)

Definition enqueue (block : Block) (st : State) : Result (Z * State) :=
  let len := Block_len block in
  if len >? o_segment_bytes options - SEGMENT_HEADER
  then Err (InvalidInput "a log block does not fit a segment") else
  _ ← State_check st;
  let rotated := st_tail_offset st + len >? o_segment_bytes options in
  let sequence := if rotated then st_tail_sequence st + 1 else st_tail_sequence st in
  let offset := if rotated then SEGMENT_HEADER else st_tail_offset st in
  match Block_encode block (o_lane options) (seed sequence) [] with
  | None => Err (Internal "a record's payload is 4 GiB or longer")
  | Some bytes =>
      let end_ := st_reserved st + len in
      Ok (end_, mkState sequence (offset + len)
                  (st_pending st ++ [mkPiece sequence offset end_ bytes])
                  (st_open st) end_ (st_written st) (st_durable st) (st_ordered st)
                  (st_flushing st) (st_failed st) (st_spares st))
  end.

(** How far the lane is, for a wait for [reach]. *)
Definition reached (st : State) (reach : Reach) : Z :=
  match reach with
  | Written => st_written st
  | Ordered => Z.max (st_ordered st) (st_durable st)
  | Durable => st_durable st
  end.

(** The part of [wait] from the leader taking the segment to its letting go of the lock. *)
Definition begin_turn (reach : Reach) (st : State) : Result (Turn * State) :=
  match st_open st with
  | None => Err (Internal "the log lane has no open segment and nobody flushing")
  | Some open =>
      Ok (mkTurn open (st_pending st) (st_written st) reach,
          mkState (st_tail_sequence st) (st_tail_offset st) [] None (st_reserved st) (st_written st)
            (st_durable st) (st_ordered st) true (st_failed st) (st_spares st))
  end.

(** The leader's turn at the disk, and the part of [wait] after it takes the lock again. *)
Definition end_turn (turn : Turn) (st : State) (fs : Inner) : State * Inner :=
  let '(outcome, ld, fs) := lead turn (st_spares st) fs in
  let with_outcome written durable ordered failed :=
    mkState (st_tail_sequence st) (st_tail_offset st) (st_pending st) (Some (ld_open ld))
      (st_reserved st) written durable ordered false failed (ld_spares ld) in
  match outcome with
  | Ok led =>
      (with_outcome (Z.max (st_written st) (led_written led))
         (match led_durable led with Some d => Z.max (st_durable st) d | None => st_durable st end)
         (match led_ordered led with Some d => Z.max (st_ordered st) d | None => st_ordered st end)
         (st_failed st), fs)
  | Err e =>
      (with_outcome (st_written st) (st_durable st) (st_ordered st) (Some e), fs)
  end.

(** [Lane::wait] of a committer nobody else interferes with. [None] is a wait for another
    leader's turn to end. *)
Fixpoint wait (fuel : nat) (end_ : Z) (reach : Reach) (st : State) (fs : Inner)
    : option (Result Z * State * Inner) :=
  match fuel with
  | O => None
  | S fuel =>
      match State_check st with
      | Err e => Some (Err e, st, fs)
      | Ok _ =>
          if reached st reach >=? end_ then Some (Ok end_, st, fs) else
          if st_flushing st then None else
          match begin_turn reach st with
          | Err e => Some (Err e, st, fs)
          | Ok (turn, st) => let '(st, fs) := end_turn turn st fs in wait fuel end_ reach st fs
          end
      end
  end.

(** [Lane::settle], and [commit], [write_out] and [flush] that end in it. Two times round are
    enough: the first leads, the second finds the end reached or the lane failed. *)
Definition settle (end_ : Z) (sync : CommitSync) (st : State) (fs : Inner)
    : option (Result Z * State * Inner) :=
  match sync with
  | SyncFull => wait 2 end_ Durable st fs
  | SyncBarrier => wait 2 end_ Ordered st fs
  | SyncOs => wait 2 end_ Written st fs
  | SyncNone => Some (Ok end_, st, fs)
  end.

Definition commit (block : Block) (st : State) (fs : Inner) : option (Result Z * State * Inner) :=
  match enqueue block st with
  | Err e => Some (Err e, st, fs)
  | Ok (end_, st) => settle end_ (o_commit_sync options) st fs
  end.

Definition write_out (st : State) (fs : Inner) : option (Result Z * State * Inner) :=
  wait 2 (st_reserved st) Written st fs.

Definition flush (st : State) (fs : Inner) : option (Result Z * State * Inner) :=
  wait 2 (st_reserved st) Durable st fs.

Definition unwritten (st : State) : Z := st_reserved st - Z.min (st_written st) (st_reserved st).
Definition behind (st : State) : bool := st_reserved st >? st_durable st.
Definition position (st : State) : Z * Z := (st_tail_sequence st, st_tail_offset st).

(** ** Opening *)

(** The loop over the spares a run before left: the kept ones. *)
Fixpoint keep_spares (found : list Path) (kept : list Path) : io (list Path) :=
  match found with
  | [] => mret kept
  | spare :: found =>
      keep ← (if bool_decide (length kept < SPARES)%nat
              then file ← Fs_open spare Read; len ← File_len file;
                   mret (len =? o_segment_bytes options)
              else mret false);
      if (keep : bool) then keep_spares found (kept ++ [spare])
      else _ ← remove_spare spare; keep_spares found kept
  end.

Definition Lane_open : io State :=
  if (o_segment_bytes options <? 2 * SEGMENT_HEADER) || negb (o_segment_bytes options `mod` 8 =? 0)
  then io_fail (InvalidInput "a log segment is under two headers or not a multiple of 8") else
  is_dir ← Fs_is_dir dir;
  _ ← (if (is_dir : bool) then mret () else
       _ ← Fs_create_dir_all dir;
       match parent dir with [] => mret () | above => Fs_sync_dir above end);
  found ← segments dir (o_lane options);
  let sequence := match last found with Some (l, _) => l + 1 | None => 1 end in
  found ← spares dir (o_lane options);
  kept ← keep_spares found [];
  file ← create_segment sequence (last kept);
  mret (mkState sequence SEGMENT_HEADER [] (Some (mkOpen sequence file false)) 0 0 0 0 false None
          (removelast kept)).

(** ** Retiring *)

(** The loop of [retire] over the segments: the spares made and whether anything changed. *)
Fixpoint retire_loop (found : list (Z * Path)) (below : Z) (writing : option Z) (wanted : nat)
    (retired : list Path) (changed : bool) : io (list Path * bool) :=
  match found with
  | [] => mret (retired, changed)
  | (sequence, path) :: found =>
      if (sequence >=? below) || bool_decide (Some sequence = writing)
      then retire_loop found below writing wanted retired changed else
      keep ← (if bool_decide (0 < wanted)%nat
              then file ← Fs_open path Read; len ← File_len file;
                   mret (len =? o_segment_bytes options)
              else mret false);
      if (keep : bool) then
        let spare := dir ++ [spare_name (o_lane options) sequence] in
        _ ← Fs_rename path spare;
        retire_loop found below writing (wanted - 1) (retired ++ [spare]) true
      else
        _ ← Fs_remove path;
        retire_loop found below writing wanted retired true
  end.

Definition retire (below : Z) (st : State) : io State :=
  let writing := op_sequence <$> st_open st in
  let wanted := (SPARES - length (st_spares st))%nat in
  found ← segments dir (o_lane options);
  '(retired, changed) ← retire_loop found below writing wanted [] false;
  _ ← (if (changed : bool) then Fs_sync_dir dir else mret ());
  mret (set_spares (λ spares, spares ++ retired) st).
End lane.

(** ** Replay *)

Record Replayed : Type := mkReplayed { rp_blocks : list Committed; rp_segments : Z; rp_unreadable : Z }.

Section replay_lane.
Context `{Machine}.

(** [read_segment] from the bytes on: [None] for a header that does not verify. *)
Definition read_segment_bytes (bytes : list Z) (sequence lane database : Z)
    : Result (option (list Committed)) :=
  match SegmentHeader_decode bytes with
  | None => Ok None
  | Some header =>
      if negb (seg_lane header =? lane) || negb (seg_sequence header =? sequence)
         || negb (seg_database header =? database)
      then Err (InvalidInput "holds another lane, segment or database")
      else Ok (Some (read_blocks bytes SEGMENT_HEADER lane sequence []))
  end.

Definition read_segment (path : Path) (sequence lane database : Z) : io (option (list Committed)) :=
  file ← Fs_open path Read;
  len ← File_len file;
  bytes ← File_read_exact_at file 0 len;
  io_result (read_segment_bytes bytes sequence lane database).

(** The segments in order. The code reads them on as many threads as there are and puts what
    they hold back in order, so the answer is that of the loop; when more than one segment
    cannot be read the error is the first one's. *)
Fixpoint replay_loop (found : list (Z * Path)) (lane database : Z) (r : Replayed) : io Replayed :=
  match found with
  | [] => mret r
  | (sequence, path) :: found =>
      segment ← read_segment path sequence lane database;
      replay_loop found lane database
        match segment with
        | Some blocks => mkReplayed (rp_blocks r ++ blocks) (rp_segments r + 1) (rp_unreadable r)
        | None => mkReplayed (rp_blocks r) (rp_segments r) (rp_unreadable r + 1)
        end
  end.

Definition replay (dir : Path) (lane database : Z) : io Replayed :=
  found ← segments dir lane;
  replay_loop found lane database (mkReplayed [] 0 0).
End replay_lane.
