(* ===== verification/LaneNames.v ===== *)
(** The names of a lane's segments and spares: what is written is read back, names sort as the
    segments were made, and a spare is never taken for a segment. *)

From S2P Require Import Prelude SimFs SimFsLaws Lane.
Local Open Scope Z_scope.

(** [n] hex digits of [x], the first one the highest. *)
Definition hex_digits (n : nat) (x : Z) : list Z :=
  (λ i : nat, hex_digit ((x ≫ (4 * (Z.of_nat n - 1 - Z.of_nat i))) `mod` 16)) <$> seq 0 n.

Lemma hex_digits_S n x : hex_digits (S n) x = hex_digits n (x / 16) ++ [hex_digit (x `mod` 16)].
Proof.
  unfold hex_digits. rewrite seq_S, fmap_app. f_equal.
  - apply list_fmap_ext. intros j i [? Hi]%lookup_seq. do 2 f_equal.
    change 16 with (2 ^ 4). rewrite <-Z.shiftr_div_pow2, Z.shiftr_shiftr by lia. f_equal. lia.
  - simpl. rewrite Z.shiftr_div_pow2 by lia.
    replace (4 * _) with 0 by lia. by rewrite Z.pow_0_r, Z.div_1_r.
Qed.

Lemma hex_value_digit d : 0 ≤ d < 16 → hex_value (hex_digit d) = d ∧ is_ascii_hexdigit (hex_digit d) = true.
Proof.
  intros Hd. unfold hex_value, hex_digit, is_ascii_hexdigit, is_ascii_digit.
  destruct (Z.ltb_spec d 10); split; repeat case_match; lia.
Qed.

Lemma hex_digit_mono x y : 0 ≤ x < 16 → 0 ≤ y < 16 → (hex_digit x ?= hex_digit y) = (x ?= y).
Proof.
  intros Hx Hy. unfold hex_digit.
  destruct (Z.ltb_spec x 10), (Z.ltb_spec y 10), (Z.compare_spec x y);
    first [apply Z.compare_eq_iff|apply Z.compare_lt_iff|apply Z.compare_gt_iff]; lia.
Qed.

Lemma length_hex_digits n x : length (hex_digits n x) = n.
Proof. unfold hex_digits. by rewrite length_fmap, length_seq. Qed.

Lemma hex_digits_value n x :
  0 ≤ x < 16 ^ Z.of_nat n → foldl (λ n b, n * 16 + hex_value b) 0 (hex_digits n x) = x.
Proof.
  revert x. induction n as [|n IH]; intros x Hx; [simpl in *; lia|].
  rewrite hex_digits_S, foldl_app. simpl.
  rewrite Nat2Z.inj_succ, Z.pow_succ_r in Hx by lia.
  rewrite IH by (split; [apply Z.div_pos; lia|apply Z.div_lt_upper_bound; lia]).
  rewrite (proj1 (hex_value_digit _ (Z.mod_pos_bound x 16 ltac:(lia)))).
  pose proof (Z.div_mod x 16). lia.
Qed.

Lemma hex_digits_hex n x : forallb is_ascii_hexdigit (hex_digits n x) = true.
Proof.
  revert x. induction n as [|n IH]; intros x; [done|]. rewrite hex_digits_S, forallb_app, IH. simpl.
  by rewrite (proj2 (hex_value_digit _ (Z.mod_pos_bound x 16 ltac:(lia)))).
Qed.

Lemma slice_cmp_app_l pre a b : slice_cmp (pre ++ a) (pre ++ b) = slice_cmp a b.
Proof. induction pre; [done|]. simpl. by rewrite Z.compare_refl. Qed.

Lemma hex_digits_cmp n x y :
  0 ≤ x < 16 ^ Z.of_nat n → 0 ≤ y < 16 ^ Z.of_nat n →
  slice_cmp (hex_digits n x) (hex_digits n y) = (x ?= y).
Proof.
  revert x y. induction n as [|n IH]; intros x y Hx Hy.
  { simpl in *. assert (x = y) as -> by lia. by rewrite Z.compare_refl. }
  rewrite Nat2Z.inj_succ, Z.pow_succ_r in Hx, Hy by lia.
  rewrite !hex_digits_S, slice_cmp_snoc by (by rewrite !length_hex_digits). unfold then_cmp.
  rewrite IH by (split; [apply Z.div_pos; lia|apply Z.div_lt_upper_bound; lia]).
  pose proof (Z.mod_pos_bound x 16). pose proof (Z.mod_pos_bound y 16).
  rewrite hex_digit_mono by lia. pose proof (Z.div_mod x 16). pose proof (Z.div_mod y 16).
  destruct (Z.compare_spec (x / 16) (y / 16)), (Z.compare_spec (x `mod` 16) (y `mod` 16)), (Z.compare_spec x y);
    first [done|exfalso; lia].
Qed.

Lemma lane_digits_two lane :
  0 ≤ lane < 100 → lane_digits lane = [48 + lane / 10; 48 + lane `mod` 10].
Proof.
  intros. unfold lane_digits.
  destruct (Z.geb_spec lane 100); [lia|]. simpl. unfold dec_digit.
  rewrite (Z.mod_small (lane / 10)); [done|].
  split; [apply Z.div_pos; lia|apply Z.div_lt_upper_bound; lia].
Qed.

Section names.
Context (lane : Z) (Hlane : 0 ≤ lane < 100).

Lemma segment_name_parts sequence :
  segment_name lane sequence =
    76 :: 48 + lane / 10 :: 48 + lane `mod` 10 :: 45 :: hex_digits 16 sequence.
Proof. unfold segment_name. rewrite lane_digits_two by done. done. Qed.

Lemma length_segment_name sequence : length (segment_name lane sequence) = 20%nat.
Proof. rewrite segment_name_parts. cbn [length]. by rewrite length_hex_digits. Qed.

Lemma lane_digits_bounds : 0 ≤ lane / 10 < 10 ∧ 0 ≤ lane `mod` 10 < 10.
Proof.
  split; [|by apply Z.mod_pos_bound].
  split; [apply Z.div_pos; lia|apply Z.div_lt_upper_bound; lia].
Qed.

Lemma parse_segment_name_app tail sequence :
  u64 sequence →
  parse_segment_name (segment_name lane sequence ++ tail) =
    if decide (tail = []) then Some (lane, sequence) else None.
Proof.
  intros Hs. rewrite segment_name_parts. pose proof lane_digits_bounds as [Hd Hm].
  unfold parse_segment_name. cbn [app split_dash].
  rewrite !(proj2 (Z.eqb_neq (48 + _) 45)) by lia. rewrite Z.eqb_refl. do 3 bind_step.
  change (zlen [_; _] =? 2) with true. cbn [negb orb]. rewrite zlen_app.
  assert (zlen (hex_digits 16 sequence) = 16) as -> by (unfold zlen; by rewrite length_hex_digits).
  case_decide as Ht.
  - subst tail. rewrite app_nil_r. change (16 + zlen [] =? 16) with true. cbn [negb].
    rewrite hex_digits_hex. cbn [forallb negb orb andb]. unfold is_ascii_digit.
    rewrite !(proj2 (Z.leb_le 48 _)), !(proj2 (Z.leb_le _ 57)) by lia. cbn [andb negb orb foldl].
    rewrite hex_digits_value by done. do 2 f_equal. pose proof (Z.div_mod lane 10). lia.
  - destruct tail as [|b tail]; [done|]. rewrite zlen_cons. pose proof (zlen_nonneg tail).
    by rewrite (proj2 (Z.eqb_neq _ 16)) by lia.
Qed.

Lemma parse_segment_name_of sequence :
  u64 sequence → parse_segment_name (segment_name lane sequence) = Some (lane, sequence).
Proof. intros Hs. rewrite <-(app_nil_r (segment_name _ _)). by rewrite parse_segment_name_app. Qed.

Lemma segment_name_inj sequence sequence' :
  u64 sequence → u64 sequence' → segment_name lane sequence = segment_name lane sequence' →
  sequence = sequence'.
Proof.
  intros Hs Hs' Heq. pose proof (parse_segment_name_of _ Hs) as Hp.
  rewrite Heq, parse_segment_name_of in Hp by done. congruence.
Qed.

Lemma strip_suffix_app suffix name : strip_suffix suffix (name ++ suffix) = Some name.
Proof.
  unfold strip_suffix. rewrite length_app. replace (_ + _ - _)%nat with (length name) by lia.
  rewrite drop_app_length, take_app_length, !bool_decide_eq_true_2; [done|done|lia].
Qed.

(** The [.] of a spare's name is no hex digit. *)
Lemma strip_suffix_segment sequence : strip_suffix SPARE_SUFFIX (segment_name lane sequence) = None.
Proof.
  unfold strip_suffix. rewrite length_segment_name. change (20 - length SPARE_SUFFIX)%nat with 14%nat.
  rewrite (bool_decide_eq_false_2 (drop 14 _ = _)); [by rewrite andb_false_r|]. intros Heq.
  pose proof (hex_digits_hex 16 sequence) as Hx. rewrite forallb_forall in Hx.
  specialize (Hx 46). discriminate Hx. apply list_elem_of_In.
  rewrite segment_name_parts in Heq. apply (subseteq_drop 10).
  change (drop 10 (hex_digits 16 sequence) = SPARE_SUFFIX) in Heq. rewrite Heq. left.
Qed.
End names.

(** A segment's name says the segment: what [segment_name] writes for a lane of two digits and
    any sequence [parse_segment_name] reads back, the names of a lane sort in the order of their
    sequences, and a spare's name is never read as a segment's but gives its segment's name back
    when its suffix is taken off. *)
Theorem segment_names_read_back lane sequence sequence' :
  0 ≤ lane < 100 → u64 sequence → u64 sequence' →
  parse_segment_name (segment_name lane sequence) = Some (lane, sequence)
  ∧ slice_cmp (segment_name lane sequence) (segment_name lane sequence') = (sequence ?= sequence')
  ∧ parse_segment_name (spare_name lane sequence) = None
  ∧ strip_suffix SPARE_SUFFIX (spare_name lane sequence) = Some (segment_name lane sequence)
  ∧ strip_suffix SPARE_SUFFIX (segment_name lane sequence) = None.
Proof.
  intros Hl Hs Hs'. split_and!.
  - by apply parse_segment_name_of.
  - rewrite !segment_name_parts by done.
    etransitivity; [apply (slice_cmp_app_l [_; _; _; _])|]. by apply hex_digits_cmp.
  - unfold spare_name. by rewrite parse_segment_name_app.
  - apply strip_suffix_app.
  - by apply strip_suffix_segment.
Qed.

Lemma segment_names_read_back_witness :
  slice_cmp (segment_name 7 0x9f) (segment_name 7 0xa0) = Lt
  ∧ parse_segment_name (segment_name 7 0x9f) = Some (7, 0x9f).
Proof.
  destruct (segment_names_read_back 7 0x9f 0xa0) as (Hp&Hc&_); [lia|decided|decided|].
  split; [exact Hc|exact Hp].
Defined.
