(* ===== verification/LaneReplay.v ===== *)
(** [replay] as a function of what the directory lists and what the files hold, and what a
    segment named after all the others adds to it. *)

From S2P Require Import Prelude Crc LogFormat LogBlock SimFs SimFsLaws Lane LaneNames.
Local Open Scope Z_scope.

#[global] Instance by_sequence_preorder : PreOrder by_sequence.
Proof. unfold by_sequence. split; [intros x|intros x y z]; lia. Qed.
#[global] Instance by_sequence_total : Total by_sequence.
Proof. unfold by_sequence. intros x y. lia. Qed.

Section replay_pure.
Context `{Machine} (dir : Path) (lane database : Z).

Definition seg_path (sequence : Z) : Path := dir ++ [segment_name lane sequence].

(** The segments of the lane among [names] and [dirs], in order. *)
Definition found (names : gmap Path Z) (dirs : gset Path) : list (Z * Path) :=
  sort_stable by_sequence (segments_of lane (listing names dirs dir)).

(** ** What the files say *)

Fixpoint replay_files (contents : Path → option (list Z)) (found : list (Z * Path)) (r : Replayed)
    : option Replayed :=
  match found with
  | [] => Some r
  | (sequence, path) :: found =>
      bytes ← contents path;
      match read_segment_bytes bytes sequence lane database with
      | Ok (Some blocks) =>
          replay_files contents found
            (mkReplayed (rp_blocks r ++ blocks) (rp_segments r + 1) (rp_unreadable r))
      | Ok None =>
          replay_files contents found
            (mkReplayed (rp_blocks r) (rp_segments r) (rp_unreadable r + 1))
      | Err _ => None
      end
  end.

(** A filesystem with no failures set. *)
Definition clean (fs : Inner) : Prop :=
  i_fail_at fs = None ∧ rf_short (i_reads fs) = ∅ ∧ rf_failing (i_reads fs) = ∅.

Definition ok_of {A} (r : Result A) : option A := match r with Ok a => Some a | Err _ => None end.

Lemma record_clean op fs :
  clean fs → ∃ fs', record op fs = (Ok (), fs') ∧ clean fs' ∧ store fs' = store fs.
Proof.
  intros (Hf&Hs&Hr). unfold record. rewrite decide_False by (rewrite Hf; done).
  eexists. split; [done|]. split; [|done]. done.
Qed.

Lemma Fs_contents_store fs path : Fs_contents path (store fs) = Fs_contents path fs.
Proof. done. Qed.

Lemma Fs_open_read path fs :
  clean fs → ∃ fs', clean fs' ∧ store fs' = store fs ∧
    Fs_open path Read fs =
      (match i_names fs !! path with
       | Some inode => Ok (mkSimHandle path inode false)
       | None => Err (Io "does not exist")
       end, fs').
Proof.
  intros Hc. destruct (record_clean (OpOpen path Read) fs Hc) as (fs'&Hr&Hc'&Hs).
  exists fs'. split_and!; [done..|]. unfold Fs_open. cbv [mbind io_bind io_get mret io_ret].
  assert (i_names fs' = i_names fs) as Hn by (by injection Hs).
  destruct (i_names fs !! path) as [inode|] eqn:E.
  - rewrite bool_decide_eq_true_2 by done. cbn [negb andb]. rewrite Hr. cbv iota beta.
    by rewrite Hn, E.
  - rewrite bool_decide_eq_false_2 by (by intros []). cbn [negb andb]. by rewrite Hr.
Qed.

Lemma named_lookup fs path inode : i_names fs !! path = Some inode → named fs inode = true.
Proof. intros Hn. apply bool_decide_eq_true_2. by exists path, inode. Qed.

Lemma read_all fs path inode f h :
  clean fs → i_names fs !! path = Some inode → i_files fs !! inode = Some f → h_inode h = inode →
  ∃ fs', clean fs' ∧ store fs' = store fs ∧
    File_read_exact_at h 0 (zlen (SimFile_visible f)) fs = (Ok (SimFile_visible f), fs').
Proof.
  intros (Hf&Hs&Hr) Hn Hfile <-.
  unfold File_read_exact_at, File_read_at, serve_read. cbv [mbind io_bind].
  rewrite Hs, Hr, lookup_empty. rewrite (bool_decide_eq_false_2 (_ ∈ ∅)) by set_solver.
  cbn [i_files]. rewrite Hfile.
  match goal with |- context [named ?fs' _] => assert (named fs' (h_inode h) = true) as -> by
    (apply (named_lookup _ path); done) end. cbn [negb].
  set (bytes := SimFile_visible f).
  pose proof (zlen_nonneg bytes).
  assert (E : (if 0 >=? zlen bytes then [] else slice 0 (0 + Z.min (zlen bytes) (zlen bytes - 0)) bytes)
              = bytes).
  { destruct (Z.geb_spec 0 (zlen bytes)); [symmetry; apply nil_zlen; lia|].
    replace (0 + _) with (zlen bytes) by lia. apply slice_self. }
  destruct (0 >=? zlen bytes); rewrite E, Z.eqb_refl; eexists;
    refine (conj _ (conj _ eq_refl)); [|done| |done];
    (split; [done|]; simpl; rewrite delete_empty; split; [done|set_solver]).
Qed.

Lemma read_segment_clean path sequence fs :
  clean fs → ∃ fs', clean fs' ∧ store fs' = store fs ∧
    ∃ r, read_segment path sequence lane database fs = (r, fs') ∧
      ok_of r = bytes ← Fs_contents path fs; ok_of (read_segment_bytes bytes sequence lane database).
Proof.
  intros Hc. destruct (Fs_open_read path fs Hc) as (fs1&Hc1&Hs1&Ho).
  unfold read_segment. cbv [mbind io_bind]. rewrite Ho.
  unfold Fs_contents, Inner_file. cbv [mbind option_bind].
  destruct (i_names fs !! path) as [inode|] eqn:En; [|by eauto 10].
  unfold File_len, Handle_file. cbv [mbind io_bind mret io_ret]. cbn [h_inode].
  assert (i_names fs1 = i_names fs ∧ i_files fs1 = i_files fs) as [Hn Hf] by (by injection Hs1).
  rewrite (named_lookup fs1 path) by congruence. cbn [negb]. rewrite Hf.
  destruct (i_files fs !! inode) as [f|] eqn:Ef; [|by eauto 10].
  destruct (read_all fs1 path inode f (mkSimHandle path inode false)) as (fs2&Hc2&Hs2&Hr);
    [congruence..|done|]. rewrite Hr. exists fs2. split_and!; [done|congruence|].
  eexists. split; [reflexivity|done].
Qed.

Lemma replay_loop_files l r fs contents :
  clean fs → (∀ sequence path, (sequence, path) ∈ l → contents path = Fs_contents path fs) →
  ok_of (fst (replay_loop l lane database r fs)) = replay_files contents l r.
Proof.
  revert r fs. induction l as [|[sequence path] l IH]; intros r fs Hc Hl; [done|].
  cbn [replay_loop replay_files].
  destruct (read_segment_clean path sequence fs Hc) as (fs'&Hc'&Hs&res&Hr&Hres).
  cbv [mbind io_bind option_bind] in *. rewrite Hr.
  rewrite (Hl sequence path) by left. destruct (Fs_contents path fs) as [bytes|].
  - assert (Hl' : ∀ sequence path, (sequence, path) ∈ l → contents path = Fs_contents path fs').
    { intros s p Hp. rewrite (Hl s p) by (by right). by rewrite <-(Fs_contents_store fs'), Hs. }
    destruct res as [o|e], (read_segment_bytes bytes sequence lane database) as [o'|e']; try done.
    injection Hres as <-. rewrite IH by done. by destruct o.
  - by destruct res.
Qed.

Lemma replay_files_ext c c' l r :
  (∀ sequence path, (sequence, path) ∈ l → c path = c' path) →
  replay_files c l r = replay_files c' l r.
Proof.
  revert r. induction l as [|[s p] l IH]; intros r Hl; [done|]. simpl.
  rewrite (Hl s p) by left. destruct (c' p); [|done]. simpl.
  destruct (read_segment_bytes _ _ _ _) as [[|]|]; [| |done];
    apply IH; intros; eapply Hl; by right.
Qed.

Lemma replay_files_app c l l' r :
  replay_files c (l ++ l') r = r ← replay_files c l r; replay_files c l' r.
Proof.
  revert r. induction l as [|[s p] l IH]; intros r; [done|]. simpl.
  destruct (c p); [|done]. simpl. destruct (read_segment_bytes _ _ _ _) as [[|]|]; eauto.
Qed.

Lemma segments_found fs :
  dir ∈ i_dirs fs → segments dir lane fs = (Ok (found (i_names fs) (i_dirs fs)), fs).
Proof.
  intros Hd. unfold segments, Fs_is_dir, io_get. cbv [mbind io_bind].
  rewrite bool_decide_eq_true_2 by done. cbn [negb]. unfold Fs_read_dir.
  by rewrite bool_decide_eq_true_2.
Qed.

Lemma replay_found fs :
  clean fs → dir ∈ i_dirs fs →
  ok_of (fst (replay dir lane database fs)) =
    replay_files (λ path, Fs_contents path fs) (found (i_names fs) (i_dirs fs)) (mkReplayed [] 0 0).
Proof.
  intros Hc Hd. unfold replay. cbv [mbind io_bind]. rewrite segments_found by done.
  by apply replay_loop_files.
Qed.

(** ** One more segment *)

Context (Hlane : 0 ≤ lane < 100).

Lemma path_parent_snoc (name : list Z) : path_parent (dir ++ [name]) = Some dir.
Proof.
  unfold path_parent. rewrite removelast_last. by destruct dir.
Qed.

Lemma segments_of_seg_path sequence :
  u64 sequence → segments_of lane [seg_path sequence] = [(sequence, seg_path sequence)].
Proof.
  intros Hs. unfold segments_of, seg_path. cbn [omap list_omap]. rewrite last_snoc. bind_step.
  rewrite parse_segment_name_of by done. bind_step. by rewrite Z.eqb_refl.
Qed.

Lemma segments_of_app l l' : segments_of lane (l ++ l') = segments_of lane l ++ segments_of lane l'.
Proof. apply omap_app. Qed.

Lemma elem_of_found names dirs sequence :
  u64 sequence → seg_path sequence ∈ dom names ∪ dirs →
  (sequence, seg_path sequence) ∈ found names dirs.
Proof.
  intros Hs Hin. unfold found. rewrite sort_stable_perm. unfold segments_of.
  apply list_elem_of_omap. exists (seg_path sequence). split.
  - unfold listing. rewrite sort_stable_perm. apply list_elem_of_filter.
    split; [apply path_parent_snoc|]. by apply elem_of_elements.
  - unfold seg_path. rewrite last_snoc. bind_step.
    rewrite parse_segment_name_of by done. bind_step. by rewrite Z.eqb_refl.
Qed.

(** A name past all the segments there are goes after them. *)
Lemma found_insert names dirs sequence inode :
  u64 sequence → (∀ s p, (s, p) ∈ found names dirs → s < sequence) →
  found (<[seg_path sequence := inode]> names) dirs =
    found names dirs ++ [(sequence, seg_path sequence)].
Proof.
  intros Hs Hnew. set (path := seg_path sequence).
  assert (Hout : path ∉ dom names ∪ dirs).
  { intros Hin. apply elem_of_found in Hin; [|done]. apply Hnew in Hin. lia. }
  assert (Hlist : listing (<[path := inode]> names) dirs dir = insert_sorted path_le path (listing names dirs dir)).
  { unfold listing. change (insert_sorted path_le path (sort_stable path_le ?l)) with
      (sort_stable path_le (path :: l)). apply sort_stable_proper; [apply _..|].
    rewrite dom_insert_L, <-union_assoc_L, elements_disj_union by set_solver.
    rewrite elements_singleton. simpl. rewrite filter_cons, decide_True; [done|].
    apply path_parent_snoc. }
  destruct (insert_sorted_split path_le path (listing names dirs dir)) as (l1&l2&E&E').
  unfold found in *. rewrite Hlist, E'. rewrite E in Hnew |- *.
  rewrite segments_of_app in Hnew. change (path :: l2) with ([path] ++ l2).
  rewrite !segments_of_app. subst path. rewrite segments_of_seg_path by done. simpl.
  apply sort_stable_max; [apply _..|]. intros [s p] Hin. unfold by_sequence. simpl.
  enough (s < sequence) by lia. apply (Hnew s p). by rewrite sort_stable_perm.
Qed.
End replay_pure.
