(* ===== verification/LaneDisk.v ===== *)
(** What the segments of a lane hold on the disk, and what replay reads of them after a crash.

    An [Item] is a transaction's block where the lane put it. [ready_file] is a segment made
    whole, with the blocks synced to it and the blocks only written to it; [holds] says what
    replay reads of a segment whatever writes a crash kept, and [crash_replay] puts the segments
    of a directory together. *)

From S2P Require Import Prelude Crc LogFormat LogBlock SimFs SimFsLaws Lane LaneNames LaneReplay.
Local Open Scope Z_scope.

Lemma Forall_sublist {A} (P : A → Prop) l l' : l' `sublist_of` l → Forall P l → Forall P l'.
Proof. intros Hs. rewrite !Forall_forall. eauto using elem_of_sublist. Qed.

Definition zeros (n : Z) : list Z := replicate (Z.to_nat n) 0.

Lemma zlen_zeros n : 0 ≤ n → zlen (zeros n) = n.
Proof. intros. unfold zeros. rewrite zlen_replicate. lia. Qed.

Lemma zeros_app n m : 0 ≤ n → 0 ≤ m → zeros (n + m) = zeros n ++ zeros m.
Proof. intros. unfold zeros. rewrite <-replicate_add. f_equal. lia. Qed.

Lemma zeros_0 : zeros 0 = [].
Proof. done. Qed.

(** A crash that leaves every write whole or not at all. *)
Definition untorn (crash : Crash) : Prop := ∀ seq, Crash_torn crash seq = None.

(** ** Writes *)

(** A write over zeros that are there already. *)
Lemma write_over_zeros pre n data :
  zlen data ≤ n → write (pre ++ zeros n) (zlen pre) data = pre ++ data ++ zeros (n - zlen data).
Proof.
  intros Hn. pose proof (zlen_nonneg data). unfold write.
  rewrite zlen_app, zlen_zeros by lia. rewrite (proj2 (Z.ltb_ge _ _)) by lia.
  replace n with (zlen data + (n - zlen data)) at 1 by lia. rewrite zeros_app by lia.
  apply put_slice_over; [done|]. unfold zeros. rewrite length_replicate. unfold zlen. lia.
Qed.

(** A write at the end of a file. *)
Lemma write_at_end bytes data : write bytes (zlen bytes) data = bytes ++ data.
Proof.
  pose proof (zlen_nonneg data). unfold write.
  destruct (Z.ltb_spec (zlen bytes) (zlen bytes + zlen data)) as [Hlt|Hge].
  - unfold resize. rewrite take_ge by (unfold zlen; lia).
    rewrite <-(app_nil_r (replicate _ _)). rewrite put_slice_over; [by rewrite app_nil_r|done|].
    rewrite length_replicate. unfold zlen. lia.
  - assert (data = []) as -> by (apply nil_zlen; lia).
    unfold put_slice, zlen. simpl. rewrite Nat2Z.id, Nat.add_0_r, app_nil_r. apply take_drop.
Qed.

(** Writing zeros past [pre] to a file that has only zeros there leaves it so. *)
Lemma write_zeros_past pre n offset m :
  0 ≤ n → 0 ≤ m → zlen pre ≤ offset →
  ∃ n', 0 ≤ n' ∧ write (pre ++ zeros n) offset (zeros m) = pre ++ zeros n'.
Proof.
  intros Hn Hm Ho. set (n' := Z.max n (offset - zlen pre + m)). exists n'. split; [lia|].
  unfold write. rewrite zlen_app, !zlen_zeros by lia. pose proof (zlen_nonneg pre).
  assert (E : (if zlen pre + n <? offset + m then resize (offset + m) (pre ++ zeros n) else pre ++ zeros n)
              = pre ++ zeros (offset - zlen pre) ++ zeros m ++ zeros (n' - m - (offset - zlen pre))).
  { rewrite <-!zeros_app by lia.
    replace (offset - zlen pre + (m + (n' - m - (offset - zlen pre)))) with n' by lia.
    destruct (Z.ltb_spec (zlen pre + n) (offset + m)) as [Hlt|Hge].
    - unfold resize. rewrite take_ge by (rewrite length_app; unfold zeros; rewrite length_replicate; unfold zlen in *; lia).
      rewrite <-app_assoc. f_equal. unfold zeros at 1. rewrite <-replicate_add. unfold zeros. f_equal.
      rewrite length_app, length_replicate. unfold zlen in *. lia.
    - do 2 f_equal. lia. }
  rewrite E, app_assoc, put_slice_over.
  - rewrite <-app_assoc. rewrite <-!zeros_app by lia. do 2 f_equal. lia.
  - rewrite zlen_app, zlen_zeros by lia. lia.
  - done.
Qed.

Section segment.
Context `{Machine} (options : Options).
Notation lane := (o_lane options).
Notation database := (o_database options).
Notation size := (o_segment_bytes options).

(** ** Blocks in their places *)

Record Item : Type := mkItem { it_sequence : Z; it_offset : Z; it_end : Z; it_txn : Txn }.

Definition item_bytes (it : Item) : list Z := txn_bytes lane (seed (it_sequence it)) (it_txn it).
Definition items_bytes (its : list Item) : list Z := concat (item_bytes <$> its).
Definition item_write (it : Item) : Change := CWrite (it_offset it) (item_bytes it).
Definition item_committed (it : Item) : Committed := Txn_committed lane (it_sequence it) (it_txn it).

(** The items follow each other in one segment from [offset] on. *)
Fixpoint laid (sequence offset : Z) (its : list Item) : Prop :=
  match its with
  | [] => offset ≤ size
  | it :: its =>
      it_sequence it = sequence ∧ it_offset it = offset ∧ Txn_ok (it_txn it)
      ∧ laid sequence (offset + zlen (item_bytes it)) its
  end.

Lemma items_bytes_app l l' : items_bytes (l ++ l') = items_bytes l ++ items_bytes l'.
Proof. unfold items_bytes. by rewrite fmap_app, concat_app. Qed.

Lemma items_bytes_cons it l : items_bytes (it :: l) = item_bytes it ++ items_bytes l.
Proof. done. Qed.

Lemma zlen_item_bytes it : zlen (item_bytes it) = Block_len (block_of (it_txn it)).
Proof. apply zlen_txn_bytes. Qed.

Lemma zlen_items_bytes_one it : zlen (items_bytes [it]) = Block_len (block_of (it_txn it)).
Proof. unfold items_bytes. simpl. rewrite app_nil_r. apply zlen_item_bytes. Qed.

Lemma laid_app sequence offset l l' :
  laid sequence offset (l ++ l') ↔
    laid sequence offset l ∧ laid sequence (offset + zlen (items_bytes l)) l'.
Proof.
  revert offset. induction l as [|it l IH]; intros offset.
  - cbn [app items_bytes fmap list_fmap concat laid]. rewrite zlen_nil, Z.add_0_r. split; [|tauto].
    intros Hl. split; [|done]. revert offset Hl. induction l' as [|it l' IH]; intros offset; [done|].
    intros (_&_&_&Hl). apply IH in Hl. zlen_lia.
  - cbn [app laid]. rewrite IH, items_bytes_cons, zlen_app, Z.add_assoc. tauto.
Qed.

Lemma laid_fits sequence offset l : laid sequence offset l → offset + zlen (items_bytes l) ≤ size.
Proof.
  intros Hl. rewrite <-(app_nil_r l) in Hl. apply laid_app in Hl as [_ Hl]. exact Hl.
Qed.

Lemma laid_txns sequence offset l :
  laid sequence offset l →
  items_bytes l = txns_bytes lane (seed sequence) (it_txn <$> l)
  ∧ item_committed <$> l = Txn_committed lane sequence <$> (it_txn <$> l)
  ∧ Forall Txn_ok (it_txn <$> l).
Proof.
  revert offset. induction l as [|it l IH]; intros offset; [by repeat constructor|].
  intros (Hs&_&Ht&Hl). apply IH in Hl as (Hb&Hc&Hf). split_and!.
  - rewrite items_bytes_cons, Hb. unfold item_bytes. by rewrite Hs.
  - rewrite !fmap_cons, Hc. unfold item_committed at 1. by rewrite Hs.
  - by constructor.
Qed.

(** The bytes a crash leaves of blocks, [mask] saying which it kept. *)
Definition masked (mask : list bool) (its : list Item) : list Z :=
  concat (zip_with (λ (b : bool) it, if b then item_bytes it else zeros (zlen (item_bytes it))) mask its).

Lemma crash_masked crash pend its sequence pre n :
  untorn crash → p_change <$> pend = item_write <$> its → laid sequence (zlen pre) its →
  zlen pre + n = size →
  foldl (crash_change crash) (pre ++ zeros n) pend =
    pre ++ masked ((λ e, Crash_keeps crash (p_seq e)) <$> pend) its
        ++ zeros (n - zlen (items_bytes its)).
Proof.
  intros Hu. revert its pre n.
  induction pend as [|e pend IH]; intros [|it its] pre n Hp Hl Hn; try done.
  { simpl. do 2 f_equal. unfold zlen. simpl. lia. }
  injection Hp as He Hp. pose proof (laid_fits _ _ _ Hl) as Hfits.
  destruct Hl as (Hs&Ho&_&Hl). rewrite items_bytes_cons, zlen_app in *.
  pose proof (zlen_nonneg (items_bytes its)). pose proof (zlen_nonneg (item_bytes it)).
  cbn [foldl fmap list_fmap]. unfold masked. cbn [zip_with concat].
  set (part := if Crash_keeps crash (p_seq e) then item_bytes it else zeros (zlen (item_bytes it))).
  assert (Hz : zlen part = zlen (item_bytes it)).
  { subst part. case_match; [done|]. by rewrite zlen_zeros. }
  assert (crash_change crash (pre ++ zeros n) e = (pre ++ part) ++ zeros (n - zlen part)) as ->.
  { unfold crash_change. rewrite He, (Hu (p_seq e)). subst part.
    destruct (Crash_keeps crash (p_seq e)).
    - simpl. rewrite Ho, <-app_assoc. apply write_over_zeros. lia.
    - rewrite Hz, <-app_assoc, <-zeros_app by lia. do 2 f_equal. lia. }
  rewrite (IH its) by (done || rewrite ?zlen_app, ?Hz; (done || lia)).
  rewrite <-!app_assoc. do 3 f_equal. rewrite Hz. f_equal. lia.
Qed.

(** ** What replay reads of them *)

Lemma decode_zeros n tail s : 24 ≤ n ∨ tail = [] → 0 ≤ n → decode_record (zeros n ++ tail) s = None.
Proof.
  intros Hn H0. pose proof (zlen_nonneg tail). unfold decode_record, get_to.
  destruct (get_range 0 RECORD_HEADER (zeros n ++ tail)) as [head|] eqn:E; [|done]. bind_step.
  apply get_range_Some in E as (_&Hlen&->). rewrite zlen_app, zlen_zeros in Hlen by lia.
  unfold RECORD_HEADER in *. assert (20 ≤ n) by (destruct Hn as [?| ->]; [lia|rewrite zlen_nil in *; lia]).
  replace n with (20 + (n - 20)) by lia. rewrite zeros_app by lia.
  rewrite <-app_assoc, slice_hit by (done || by rewrite zlen_zeros). done.
Qed.

Lemma Block_len_min t : 24 ≤ Block_len (block_of t).
Proof.
  rewrite <-(zlen_txn_bytes lane 0). unfold txn_bytes. rewrite zlen_app.
  pose proof (record_layout_min {| rec_kind := KCommit; rec_lane := lane; rec_flags := 0;
    rec_gsn := b_commit_ts (block_of t) |} (Commit_encode (Block_commit (block_of t))) 0).
  pose proof (zlen_nonneg (entries_layout lane (t_commit_ts t) 0 (t_entries t))).
  unfold commit_layout. lia.
Qed.

(** The blocks up to the first that was not kept, and nothing that decodes after them. *)
Lemma masked_split mask its n s :
  0 ≤ n → length mask = length its →
  ∃ k rest, masked mask its ++ zeros n = items_bytes (take k its) ++ rest
    ∧ decode_record rest s = None
    ∧ (Forall (λ b, b = true) mask → k = length its).
Proof.
  intros Hn. revert its. induction mask as [|b mask IH]; intros [|it its] Hlen; try done.
  - exists 0%nat, (zeros n). split_and!; [done| |done].
    rewrite <-(app_nil_r (zeros n)). apply decode_zeros; [by right|done].
  - destruct b.
    + injection Hlen as Hlen. destruct (IH its Hlen) as (k&rest&E&Hd&Hk).
      exists (S k), rest. cbn [take]. rewrite items_bytes_cons, <-app_assoc, <-E. split_and!; [|done|].
      * unfold masked. cbn [zip_with concat]. by rewrite app_assoc.
      * intros [_ Hm]%Forall_cons. by rewrite (Hk Hm).
    + exists 0%nat, (masked (false :: mask) (it :: its) ++ zeros n). split_and!; [done| |].
      * unfold masked. cbn [zip_with concat]. rewrite <-app_assoc. apply decode_zeros; [|apply zlen_nonneg].
        left. rewrite zlen_item_bytes. apply Block_len_min.
      * by intros [[=] _]%Forall_cons.
Qed.

(** ** A segment's file *)

Context (Hlane : 0 ≤ lane < 100) (Hdatabase : u64 database) (Hsize : 2 * SEGMENT_HEADER ≤ size).

Definition header (sequence : Z) : list Z :=
  SegmentHeader_encode {| seg_lane := lane; seg_sequence := sequence; seg_database := database |}.

Definition ready_bytes (sequence : Z) (its : list Item) : list Z :=
  header sequence ++ items_bytes its ++ zeros (size - SEGMENT_HEADER - zlen (items_bytes its)).

(** A segment made whole: what is synced, and the blocks written since. *)
Definition ready (sequence : Z) (synced written : list Item) (f : SimFile) : Prop :=
  laid sequence SEGMENT_HEADER (synced ++ written)
  ∧ f_durable f = ready_bytes sequence synced
  ∧ p_change <$> f_pending f = item_write <$> written.

(** What replay reads of a segment, whichever of the writes since its last sync a crash kept. *)
Definition holds (sequence : Z) (synced written : list Item) (f : SimFile) : Prop :=
  ∀ crash, untorn crash → ∃ r k,
    read_segment_bytes (f_durable (crash_file crash f)) sequence lane database = Ok r
    ∧ default [] r = item_committed <$> (synced ++ take k written).

Lemma zlen_header sequence : zlen (header sequence) = SEGMENT_HEADER.
Proof. unfold header. rewrite SegmentHeader_encode_layout. apply zlen_header_layout. Qed.

Lemma decode_header sequence rest :
  u64 sequence → SegmentHeader_decode (header sequence ++ rest) =
    Some {| seg_lane := lane; seg_sequence := sequence; seg_database := database |}.
Proof.
  intros Hs. unfold header. rewrite SegmentHeader_encode_layout. apply SegmentHeader_decode_layout.
  split_and!; try done; unfold fits; simpl; lia.
Qed.

Lemma read_header sequence rest :
  u64 sequence →
  read_segment_bytes (header sequence ++ rest) sequence lane database =
    Ok (Some (read_blocks (header sequence ++ rest) SEGMENT_HEADER lane sequence [])).
Proof.
  intros Hs. unfold read_segment_bytes. rewrite decode_header by done. cbn [seg_lane seg_sequence seg_database].
  by rewrite !Z.eqb_refl.
Qed.

(** Blocks after a header, and nothing that decodes after them. *)
Lemma read_ready sequence its rest :
  u64 sequence → laid sequence SEGMENT_HEADER its → decode_record rest (seed sequence) = None →
  read_segment_bytes (header sequence ++ items_bytes its ++ rest) sequence lane database =
    Ok (Some (item_committed <$> its)).
Proof.
  intros Hs Hl Hd. rewrite read_header by done. do 2 f_equal.
  apply laid_txns in Hl as (->&->&Hok). rewrite <-(zlen_header sequence).
  rewrite read_txns; [|unfold fits; lia|done]. cbn [app]. apply read_blocks_stop.
  intros rest'. rewrite app_assoc, get_from_app. by intros [= <-].
Qed.

Lemma ready_crash sequence synced written f crash :
  untorn crash → ready sequence synced written f →
  ∃ k rest, f_durable (crash_file crash f) = header sequence ++ items_bytes (synced ++ take k written) ++ rest
    ∧ decode_record rest (seed sequence) = None
    ∧ laid sequence SEGMENT_HEADER (synced ++ take k written).
Proof.
  intros Hu (Hl&Hf&Hp). pose proof (laid_fits _ _ _ Hl) as Hfit.
  rewrite items_bytes_app, zlen_app in Hfit. pose proof (zlen_nonneg (items_bytes written)).
  apply laid_app in Hl as [Hl1 Hl2]. unfold crash_file. cbn [f_durable]. rewrite Hf. unfold ready_bytes.
  rewrite app_assoc, (crash_masked _ _ written sequence); [|done..| |].
  2:{ by rewrite zlen_app, zlen_header. }
  2:{ rewrite zlen_app, zlen_header. lia. }
  destruct (masked_split ((λ e, Crash_keeps crash (p_seq e)) <$> f_pending f) written
    (size - SEGMENT_HEADER - zlen (items_bytes synced) - zlen (items_bytes written)) (seed sequence))
    as (k&rest&E&Hd&_); [lia| |].
  { apply (f_equal length) in Hp. rewrite !length_fmap in *. congruence. }
  exists k, rest. rewrite E, items_bytes_app, <-!app_assoc. split_and!; [done..|].
  apply laid_app. split; [done|]. rewrite <-(take_drop k written) in Hl2. by apply laid_app in Hl2 as [? _].
Qed.

Lemma ready_holds sequence synced written f :
  u64 sequence → ready sequence synced written f → holds sequence synced written f.
Proof.
  intros Hs Hr crash Hu. destruct (ready_crash _ _ _ _ _ Hu Hr) as (k&rest&->&Hd&Hl).
  eexists _, k. split; [by apply read_ready|done].
Qed.

(** A write to a segment, and a sync of it. *)
Lemma ready_write sequence synced written f it seq path :
  laid sequence SEGMENT_HEADER (synced ++ written ++ [it]) → ready sequence synced written f →
  ready sequence synced (written ++ [it])
    (mkSimFile (f_durable f) (f_pending f ++ [mkPending seq path (item_write it)])).
Proof. intros Hl (_&Hf&Hp). split_and!; [done..|]. simpl. by rewrite !fmap_app, Hp. Qed.

Lemma SimFile_visible_kept f : SimFile_visible f = f_durable (crash_file KeepingEverything f).
Proof. done. Qed.

Lemma masked_all mask its :
  length mask = length its → Forall (λ b, b = true) mask → masked mask its = items_bytes its.
Proof.
  revert its. induction mask as [|b mask IH]; intros [|it its] [=]; [done|].
  intros [-> Hm]%Forall_cons. unfold masked. cbn [zip_with concat]. fold (masked mask its). by rewrite IH.
Qed.

Lemma ready_visible sequence synced written f :
  ready sequence synced written f → SimFile_visible f = ready_bytes sequence (synced ++ written).
Proof.
  intros (Hl&Hf&Hp). apply laid_app in Hl as [_ Hl].
  rewrite SimFile_visible_kept. unfold crash_file. cbn [f_durable]. rewrite Hf. unfold ready_bytes.
  rewrite app_assoc, (crash_masked _ _ written sequence); [|done..| |].
  2:{ by rewrite zlen_app, zlen_header. }
  2:{ rewrite zlen_app, zlen_header. lia. }
  rewrite masked_all.
  - rewrite items_bytes_app, zlen_app, <-!app_assoc. do 4 f_equal. lia.
  - apply (f_equal length) in Hp. rewrite !length_fmap in *. congruence.
  - apply Forall_fmap, Forall_true. done.
Qed.

Lemma ready_sync sequence synced written f :
  ready sequence synced written f →
  ready sequence (synced ++ written) [] (mkSimFile (SimFile_visible f) []).
Proof.
  intros Hr. split_and!; [by rewrite app_nil_r; apply Hr| |done]. by apply ready_visible in Hr.
Qed.

(** ** A segment being made *)

(** Nothing written yet, or the header and then zeros past it. *)
Definition making (sequence : Z) (f : SimFile) : Prop :=
  f_durable f = [] ∧
  ∃ runs : list (Z * Z), Forall (λ r, SEGMENT_HEADER ≤ r.1 ∧ 0 ≤ r.2) runs ∧
    (p_change <$> f_pending f = [] ∨
     p_change <$> f_pending f = CWrite 0 (header sequence) :: ((λ r, CWrite r.1 (zeros r.2)) <$> runs)).

Lemma crash_zero_runs crash pend (runs : list (Z * Z)) pre n :
  untorn crash → p_change <$> pend = (λ r, CWrite r.1 (zeros r.2)) <$> runs →
  Forall (λ r, zlen pre ≤ r.1 ∧ 0 ≤ r.2) runs → 0 ≤ n →
  ∃ n', 0 ≤ n' ∧ foldl (crash_change crash) (pre ++ zeros n) pend = pre ++ zeros n'.
Proof.
  intros Hu. revert runs n. induction pend as [|e pend IH]; intros [|[o m] runs] n Hp Hr Hn; try done.
  { by exists n. }
  injection Hp as He Hp. apply Forall_cons in Hr as [[Ho Hm] Hr]. simpl in Ho, Hm. cbn [foldl].
  unfold crash_change at 2. rewrite He, (Hu (p_seq e)). cbn [fst snd] in *.
  destruct (Crash_keeps crash (p_seq e)); [|by apply (IH runs)].
  cbn [apply]. destruct (write_zeros_past pre n o m) as (n'&Hn'&->); [done..|]. by apply (IH runs).
Qed.

Lemma decode_header_zeros n : SegmentHeader_decode (zeros n) = None.
Proof.
  unfold SegmentHeader_decode, get_to.
  destruct (get_range 0 SEGMENT_HEADER (zeros n)) as [hd|] eqn:E; [|done]. bind_step.
  apply get_range_Some in E as (_&Hlen&->).
  assert (zeros n = zeros 4096 ++ zeros (n - 4096)) as ->.
  { unfold zeros in Hlen. rewrite zlen_replicate in Hlen. unfold SEGMENT_HEADER in Hlen.
    rewrite <-zeros_app by lia. f_equal. lia. }
  unfold SEGMENT_HEADER. rewrite slice_hit by done.
  rewrite (bool_decide_eq_false_2 (slice 0 8 _ = _)) by done. done.
Qed.

Lemma making_holds sequence f : u64 sequence → making sequence f → holds sequence [] [] f.
Proof.
  intros Hs (Hf&runs&Hr&Hp) crash Hu. unfold crash_file. cbn [f_durable]. rewrite Hf.
  assert (Hz : ∀ n, 0 ≤ n → ∃ r k, read_segment_bytes (zeros n) sequence lane database = Ok r
    ∧ default [] r = item_committed <$> ([] ++ take k [])).
  { intros n Hn. exists None, 0%nat. unfold read_segment_bytes. by rewrite decode_header_zeros. }
  destruct Hp as [Hp|Hp]; [apply fmap_nil_inv in Hp as ->; by apply (Hz 0)|].
  destruct (f_pending f) as [|e pend]; [done|]. injection Hp as He Hp. cbn [foldl].
  unfold crash_change at 2. rewrite He, (Hu (p_seq e)). pose proof (zlen_header sequence) as Hh.
  destruct (Crash_keeps crash (p_seq e)).
  - cbn [apply]. rewrite (write_at_end []). cbn [app].
    destruct (crash_zero_runs crash pend runs (header sequence) 0) as (n&Hn&E); [done|done|by rewrite Hh|done|].
    rewrite zeros_0, app_nil_r in E. rewrite E. eexists _, 0%nat. split.
    + apply (read_ready sequence [] (zeros n)); [done|cbn [laid]; unfold SEGMENT_HEADER in *; lia|].
      rewrite <-(app_nil_r (zeros n)). apply decode_zeros; [by right|done].
    + done.
  - destruct (crash_zero_runs crash pend runs [] 0) as (n&Hn&E); [done|done| |done|].
    { eapply Forall_impl; [exact Hr|]. simpl. unfold SEGMENT_HEADER, zlen. simpl. lia. }
    rewrite zeros_0 in E. cbn [app] in E. rewrite E. by apply Hz.
Qed.

Lemma SimFile_visible_snoc f e :
  SimFile_visible (mkSimFile (f_durable f) (f_pending f ++ [e])) = apply (SimFile_visible f) (p_change e).
Proof. unfold SimFile_visible. simpl. by rewrite foldl_app. Qed.

(** The header is written and the zeros up to [at_]. *)
Definition filled (sequence at_ : Z) (f : SimFile) : Prop :=
  making sequence f ∧ f_pending f ≠ [] ∧ SEGMENT_HEADER ≤ at_
  ∧ SimFile_visible f = header sequence ++ zeros (at_ - SEGMENT_HEADER).

Lemma making_new sequence : making sequence (mkSimFile [] []).
Proof. split; [done|]. exists []. split; [constructor|by left]. Qed.

Lemma filled_header sequence seq path :
  filled sequence SEGMENT_HEADER (mkSimFile [] [mkPending seq path (CWrite 0 (header sequence))]).
Proof.
  split_and!; [|done|done|].
  - split; [done|]. exists []. split; [constructor|by right].
  - rewrite Z.sub_diag, zeros_0, app_nil_r. unfold SimFile_visible. simpl. apply (write_at_end []).
Qed.

Lemma filled_write sequence at_ f m seq path :
  0 ≤ m → filled sequence at_ f →
  filled sequence (at_ + m)
    (mkSimFile (f_durable f) (f_pending f ++ [mkPending seq path (CWrite at_ (zeros m))])).
Proof.
  intros Hm ((Hf&runs&Hr&Hp)&Hn&Hat&Hv). split_and!.
  - split; [done|]. exists (runs ++ [(at_, m)]). split; [apply Forall_app; by repeat constructor|].
    right. simpl. rewrite !fmap_app. destruct Hp as [Hp|Hp]; [by apply fmap_nil_inv in Hp|]. by rewrite Hp.
  - by intros [_ [=]]%app_nil.
  - lia.
  - rewrite SimFile_visible_snoc, Hv. cbn [p_change apply].
    replace at_ with (zlen (header sequence ++ zeros (at_ - SEGMENT_HEADER))) at 2.
    2:{ rewrite zlen_app, zlen_header, zlen_zeros by lia. lia. }
    rewrite write_at_end, <-app_assoc, <-zeros_app by lia. do 2 f_equal. lia.
Qed.

Lemma filled_sync sequence f :
  filled sequence size f → ready sequence [] [] (mkSimFile (SimFile_visible f) []).
Proof.
  intros (_&_&_&Hv). split_and!; [cbn [app laid]; unfold SEGMENT_HEADER in *; lia| |done].
  cbn [f_durable]. rewrite Hv. unfold ready_bytes. change (items_bytes []) with (@nil Z).
  by rewrite zlen_nil, Z.sub_0_r.
Qed.
End segment.

(** * The segments of a directory *)

Section directory.
Context `{Machine} (dir : Path) (options : Options).
Notation lane := (o_lane options).
Notation database := (o_database options).
Notation size := (o_segment_bytes options).
Notation path_of := (seg_path dir (o_lane options)).

(** A segment the lane made: its file, the blocks synced to it and those written since. *)
Record Seg : Type := mkSeg {
  g_sequence : Z; g_inode : Z; g_file : SimFile; g_synced : list Item; g_written : list Item }.

Definition seg_holds (g : Seg) : Prop :=
  u64 (g_sequence g) ∧ holds options (g_sequence g) (g_synced g) (g_written g) (g_file g).

Definition seg_names (segs : list Seg) (names : gmap Path Z) : gmap Path Z :=
  foldl (λ names g, <[path_of (g_sequence g) := g_inode g]> names) names segs.

Definition synced_items (segs : list Seg) : list Item := concat (g_synced <$> segs).
Definition all_items (segs : list Seg) : list Item := concat ((λ g, g_synced g ++ g_written g) <$> segs).

(** Only the last segment has blocks that are not synced. *)
Fixpoint tidy (segs : list Seg) : Prop :=
  match segs with
  | [] => True
  | g :: segs => (segs ≠ [] → g_written g = []) ∧ tidy segs
  end.

Definition empty_seg (g : Seg) : Prop := g_synced g = [] ∧ g_written g = [].

(** The disk as the lane left it: [segs] have durable names, [mk] not yet; all else is as it was
    in [fs0], but for the directories, which are [dirs]. *)
Record Disk (fs0 : Inner) (dirs : gset Path) (segs mk : list Seg) (s : Inner) : Prop := mkDisk {
  disk_names : i_names s = seg_names (segs ++ mk) (i_names fs0);
  disk_durable : i_durable_names s = seg_names segs (i_names fs0);
  disk_pending : Forall2 (λ p g, d_dir p = dir ∧ d_entry p = Link (path_of (g_sequence g)) (g_inode g))
                   (i_dir_pending s) mk;
  disk_dirs : i_dirs s = dirs;
  disk_files : Forall (λ g, i_files s !! g_inode g = Some (g_file g)) (segs ++ mk);
  disk_base : ∀ i, i < i_next_inode fs0 → i_files s !! i = i_files fs0 !! i;
  disk_nodup : NoDup (g_inode <$> (segs ++ mk));
  disk_inodes : Forall (λ g, i_next_inode fs0 ≤ g_inode g < i_next_inode s) (segs ++ mk);
  disk_next : i_next_inode fs0 ≤ i_next_inode s }.

(** A filesystem with nothing that a crash could lose. *)
Record Settled (fs : Inner) : Prop := mkSettled {
  settled_names : i_durable_names fs = i_names fs;
  settled_dir : i_dir_pending fs = [];
  settled_files : ∀ path inode, i_names fs !! path = Some inode →
    inode < i_next_inode fs ∧ ∀ f, i_files fs !! inode = Some f → f_pending f = [] }.

Lemma seg_names_app l l' names : seg_names (l ++ l') names = seg_names l' (seg_names l names).
Proof. apply foldl_app. Qed.

Lemma seg_names_cons g l names :
  seg_names (g :: l) names = seg_names l (<[path_of (g_sequence g) := g_inode g]> names).
Proof. done. Qed.

Context (Hlane : 0 ≤ lane < 100).

Lemma seg_path_inj s s' : u64 s → u64 s' → path_of s = path_of s' → s = s'.
Proof.
  intros Hs Hs' Heq. apply (f_equal last) in Heq. unfold seg_path in Heq. rewrite !last_snoc in Heq.
  apply (inj Some) in Heq. by apply (segment_name_inj lane).
Qed.

Lemma seg_names_out l names path :
  Forall (λ g, path_of (g_sequence g) ≠ path) l → seg_names l names !! path = names !! path.
Proof.
  revert names. induction l as [|g l IH]; intros names; [done|].
  intros [Hg Hl]%Forall_cons. rewrite seg_names_cons, IH by done. by rewrite lookup_insert_ne.
Qed.

Lemma seg_names_in l names g :
  Forall (λ g, u64 (g_sequence g)) l → NoDup (g_sequence <$> l) → g ∈ l →
  seg_names l names !! path_of (g_sequence g) = Some (g_inode g).
Proof.
  revert names. induction l as [|g' l IH]; intros names Hu Hd Hg; [by apply not_elem_of_nil in Hg|].
  apply Forall_cons in Hu as [Hu' Hu]. rewrite fmap_cons in Hd. apply NoDup_cons in Hd as [Hn Hd].
  rewrite seg_names_cons. apply elem_of_cons in Hg as [->|Hg]; [|by apply IH].
  rewrite seg_names_out; [by rewrite lookup_insert_eq|].
  rewrite Forall_forall in Hu |- *. intros g Hg Heq. apply seg_path_inj in Heq; [|by auto..].
  apply Hn. rewrite <-Heq. by apply list_elem_of_fmap_2.
Qed.

(** The segments of the lane come after those of [fs0], in order. *)
Definition seg_entry (g : Seg) : Z * Path := (g_sequence g, path_of (g_sequence g)).

(** Sequences that go up, past [low]. *)
Fixpoint rising (low : Z) (segs : list Seg) : Prop :=
  match segs with
  | [] => True
  | g :: segs => low < g_sequence g ∧ u64 (g_sequence g) ∧ rising (g_sequence g) segs
  end.

Lemma rising_above low l : rising low l → Forall (λ g, low < g_sequence g ∧ u64 (g_sequence g)) l.
Proof.
  revert low. induction l as [|g l IH]; intros low; [constructor|]. intros (Hg&Hu&Hl).
  constructor; [done|]. eapply Forall_impl; [by apply IH|]. simpl. intros ? []. split; [lia|done].
Qed.

Lemma rising_nodup low l : rising low l → NoDup (g_sequence <$> l).
Proof.
  revert low. induction l as [|g l IH]; intros low; [constructor|]. intros (Hg&Hu&Hl).
  rewrite fmap_cons. constructor; [|by eapply IH]. intros (g'&Heq&Hg')%list_elem_of_fmap.
  apply rising_above in Hl. rewrite Forall_forall in Hl. apply Hl in Hg' as [? _]. lia.
Qed.

Lemma rising_sublist low l l' : l' `sublist_of` l → rising low l → rising low l'.
Proof.
  intros Hsub. revert low. induction Hsub as [|g l l' _ IH|g l l' Hsub IH]; intros low; [done|..].
  - intros (?&?&?). split_and!; eauto.
  - intros (Hg&Hu&Hl). apply IH. destruct l' as [|g' l']; [done|].
    destruct Hl as (?&?&?). split_and!; [lia|done|done].
Qed.

Lemma found_segs names dirs low l :
  (∀ s p, (s, p) ∈ found dir lane names dirs → s ≤ low) → rising low l →
  found dir lane (seg_names l names) dirs = found dir lane names dirs ++ (seg_entry <$> l).
Proof.
  revert names low. induction l as [|g l IH]; intros names low Hlow Hr; [by rewrite app_nil_r|].
  destruct Hr as (Hg&Hu&Hr). rewrite seg_names_cons.
  assert (Hf := found_insert dir lane Hlane names dirs (g_sequence g) (g_inode g) Hu
    ltac:(intros s p Hsp; apply Hlow in Hsp; lia)).
  rewrite (IH _ (g_sequence g)); [by rewrite Hf, <-app_assoc| |done].
  intros s p. rewrite Hf. intros [Hsp|Hsp]%elem_of_app; [apply Hlow in Hsp; lia|].
  apply list_elem_of_singleton in Hsp as [= -> _]. lia.
Qed.

Lemma found_path names dirs sequence path :
  (sequence, path) ∈ found dir lane names dirs → ∀ s, u64 s → path = path_of s → s = sequence.
Proof.
  intros Hin s Hs ->. unfold found in Hin. rewrite sort_stable_perm in Hin.
  apply list_elem_of_omap in Hin as (path&_&Hp).
  destruct (last path) as [name|] eqn:El; [|done]. cbn [mbind option_bind] in Hp.
  destruct (parse_segment_name name) as [[of_ sequence']|] eqn:Ep; [|done]. cbn [mbind option_bind] in Hp.
  destruct (of_ =? lane); [|done]. injection Hp as -> ->.
  unfold seg_path in El. rewrite last_snoc in El. injection El as <-.
  rewrite parse_segment_name_of in Ep by done. congruence.
Qed.

Lemma tidy_sublist l l' : l' `sublist_of` l → tidy l → tidy l'.
Proof.
  induction 1 as [|g l l' Hsub IH|g l l' _ IH]; [done|..]; simpl.
  - intros [Hg Hl]. split; [|by apply IH]. intros Hne. apply Hg. intros ->.
    by apply sublist_nil_r in Hsub.
  - intros [_ Hl]. by apply IH.
Qed.

Lemma crash_names_segs crash (segs mk : list Seg) pend names :
  Forall2 (λ p g, d_dir p = dir ∧ d_entry p = Link (path_of (g_sequence g)) (g_inode g)) pend mk →
  ∃ mk', mk' `sublist_of` mk ∧
    foldl (λ names p, if Crash_keeps crash (d_seq p) then DirEntry_apply (d_entry p) names else names)
      (seg_names segs names) pend = seg_names (segs ++ mk') names.
Proof.
  intros Hp. revert segs. induction Hp as [|p g pend mk (_&He) _ IH]; intros segs.
  { exists []. by rewrite app_nil_r. }
  cbn [foldl]. destruct (Crash_keeps crash (d_seq p)).
  - rewrite He. cbn [DirEntry_apply]. destruct (IH (segs ++ [g])) as (mk'&Hs&E).
    exists (g :: mk'). split; [by constructor|].
    rewrite seg_names_app in E. rewrite <-app_assoc in E. exact E.
  - destruct (IH segs) as (mk'&Hs&E). exists mk'. split; [by constructor|done].
Qed.

(** Replay over the segments of the lane. *)
Lemma replay_segs contents crash l r :
  untorn crash → Forall seg_holds l → tidy l →
  Forall (λ g, contents (path_of (g_sequence g)) = Some (f_durable (crash_file crash (g_file g)))) l →
  ∃ r' its, replay_files lane database contents (seg_entry <$> l) r = Some r'
    ∧ rp_blocks r' = rp_blocks r ++ (item_committed options <$> its)
    ∧ synced_items l `prefix_of` its ∧ its `prefix_of` all_items l.
Proof.
  intros Hu. revert r. induction l as [|g l IH]; intros r Hh Ht Hc.
  { exists r, []. by rewrite app_nil_r. }
  apply Forall_cons in Hh as [(_&Hg) Hh]. apply Forall_cons in Hc as [Hcg Hc]. destruct Ht as [Hw Ht].
  destruct (Hg crash Hu) as (res&k&Hr&Hb). rewrite fmap_cons. cbn [seg_entry replay_files].
  rewrite Hcg. bind_step. rewrite Hr.
  assert (Hone : ∀ r1, rp_blocks r1 = rp_blocks r ++ default [] res →
    ∃ r' its, replay_files lane database contents (seg_entry <$> l) r1 = Some r'
      ∧ rp_blocks r' = rp_blocks r ++ (item_committed options <$> its)
      ∧ synced_items (g :: l) `prefix_of` its ∧ its `prefix_of` all_items (g :: l)).
  { intros r1 Hr1. destruct (IH r1 Hh Ht Hc) as (r'&its&E&Hb'&Hs&Ha).
    exists r', ((g_synced g ++ take k (g_written g)) ++ its).
    unfold synced_items, all_items in *. rewrite !fmap_cons. cbn [concat]. split_and!; [done|..].
    - rewrite Hb', Hr1, Hb, <-app_assoc. by rewrite !fmap_app.
    - rewrite <-app_assoc. apply prefix_app. destruct l as [|g' l].
      + simpl. apply prefix_nil.
      + rewrite Hw by done. by rewrite take_nil.
    - destruct l as [|g' l].
      + simpl in Ha. apply prefix_nil_inv in Ha as ->. rewrite !app_nil_r.
        apply prefix_app. apply prefix_take.
      + rewrite Hw by done. rewrite take_nil. by apply prefix_app. }
  destruct res as [blocks|]; apply Hone; [done|]. simpl. by rewrite app_nil_r.
Qed.

Lemma empty_items l mk' mk :
  mk' `sublist_of` mk → Forall empty_seg mk →
  synced_items (l ++ mk') = synced_items l ∧ all_items (l ++ mk') = all_items l.
Proof.
  intros Hsub He. assert (He' : Forall empty_seg mk') by (by eapply Forall_sublist).
  unfold synced_items, all_items. rewrite !fmap_app, !concat_app.
  assert (concat (g_synced <$> mk') = [] ∧ concat ((λ g, g_synced g ++ g_written g) <$> mk') = []) as [-> ->].
  { clear Hsub He. induction He' as [|g mk' [Hg Hw] _ [IH1 IH2]]; [done|]. simpl. rewrite Hg, Hw. done. }
  by rewrite !app_nil_r.
Qed.

Context (fs0 : Inner) (Hsettled : Settled fs0) (dirs : gset Path) (low : Z).
Context (Hdir : dir ∈ dirs).
Context (Hlow : ∀ s p, (s, p) ∈ found dir lane (i_names fs0) dirs → s ≤ low).

(** What a crash leaves at the paths replay looks at. *)
Lemma disk_crash_contents segs mk mk' fs crash :
  Disk fs0 dirs segs mk fs → rising low (segs ++ mk) → mk' `sublist_of` mk →
  crash_names crash fs = seg_names (segs ++ mk') (i_names fs0) →
  Forall (λ g, Fs_contents (path_of (g_sequence g)) (Fs_crash crash fs) =
               Some (f_durable (crash_file crash (g_file g)))) (segs ++ mk')
  ∧ ∀ s p, (s, p) ∈ found dir lane (i_names fs0) dirs →
      Fs_contents p (Fs_crash crash fs) = Fs_contents p fs0.
Proof.
  intros Hd Hr Hsub Hn.
  assert (Hsub' : (segs ++ mk') `sublist_of` (segs ++ mk)) by (by apply sublist_app).
  pose proof (rising_sublist _ _ _ Hsub' Hr) as Hr'.
  pose proof (rising_above _ _ Hr') as Ha. split.
  - apply Forall_forall. intros g Hg. rewrite crash_contents, Hn.
    rewrite seg_names_in; [|eapply Forall_impl; [exact Ha|]; naive_solver|by eapply rising_nodup|done].
    bind_step. pose proof (disk_files _ _ _ _ _ Hd) as Hf. rewrite Forall_forall in Hf.
    rewrite Hf by (by eapply elem_of_sublist). done.
  - intros s p Hp. rewrite crash_contents, Hn. rewrite seg_names_out.
    2:{ eapply Forall_impl; [exact Ha|]. intros g [Hg Hu] Heq.
        rewrite <-(found_path _ _ _ _ Hp (g_sequence g)) in Hp by done. apply Hlow in Hp. lia. }
    unfold Fs_contents, Inner_file. destruct (i_names fs0 !! p) as [inode|] eqn:E; [|done]. bind_step.
    destruct (settled_files _ Hsettled _ _ E) as [Hi Hf]. rewrite (disk_base _ _ _ _ _ Hd) by done.
    rewrite some_bind. destruct (i_files fs0 !! inode) as [f|]; [|done]. simpl.
    unfold SimFile_visible. by rewrite (Hf f).
Qed.

(** After a crash that tears no write, replay reads the blocks it read before the lane was opened
    and after them every block synced and some of those written since, in order. *)
Lemma crash_replay segs mk fs crash rep0 :
  Disk fs0 dirs segs mk fs → untorn crash → rising low (segs ++ mk) →
  Forall seg_holds (segs ++ mk) → tidy (segs ++ mk) → Forall empty_seg mk →
  replay_files lane database (λ p, Fs_contents p fs0) (found dir lane (i_names fs0) dirs)
    (mkReplayed [] 0 0) = Some rep0 →
  ∃ rep its, fst (replay dir lane database (Fs_crash crash fs)) = Ok rep
    ∧ rp_blocks rep = rp_blocks rep0 ++ (item_committed options <$> its)
    ∧ synced_items segs `prefix_of` its ∧ its `prefix_of` all_items segs.
Proof.
  intros Hd Hu Hr Hh Ht He Hrep.
  destruct (crash_names_segs crash segs mk (i_dir_pending fs) (i_names fs0)) as (mk'&Hsub&Hn);
    [apply Hd|]. rewrite <-(disk_durable _ _ _ _ _ Hd) in Hn. fold (crash_names crash fs) in Hn.
  assert (Hsub' : (segs ++ mk') `sublist_of` (segs ++ mk)) by (by apply sublist_app).
  destruct (disk_crash_contents segs mk mk' fs crash) as [Hc Hb]; [done..|].
  destruct (replay_segs (λ p, Fs_contents p (Fs_crash crash fs)) crash (segs ++ mk') rep0)
    as (rep&its&E&Hbl&Hs&Ha); [done|by eapply Forall_sublist|by eapply tidy_sublist|done|].
  destruct (empty_items segs mk' mk Hsub He) as [Es Ea]. rewrite Es in Hs. rewrite Ea in Ha.
  exists rep, its. split_and!; [|done..].
  assert (Hok : ok_of (fst (replay dir lane database (Fs_crash crash fs))) = Some rep).
  { rewrite replay_found; [|done|by rewrite <-(disk_dirs _ _ _ _ _ Hd) in Hdir].
    cbn [i_names i_dirs Fs_crash]. rewrite Hn, (disk_dirs _ _ _ _ _ Hd).
    rewrite (found_segs _ _ low) by (done || by eapply rising_sublist).
    rewrite replay_files_app.
    rewrite (replay_files_ext _ _ _ (λ p, Fs_contents p fs0)) by exact Hb.
    rewrite Hrep. bind_step. exact E. }
  destruct (fst _); [by injection Hok as ->|done].
Qed.
End directory.
