(* ===== verification/LaneSteps.v ===== *)
(** What a lane's operations do to the disk: [create_segment], the writes and syncs of a leader,
    and [lead] as a whole, each with what it leaves when an operation under it fails. *)

From S2P Require Import Prelude Crc LogFormat LogBlock SimFs SimFsLaws Lane LaneNames LaneReplay.
From S2P Require Import LaneDisk.
Local Open Scope Z_scope.

(** A segment with its file changed. *)
Definition with_file (f : SimFile) (synced written : list Item) (g : Seg) : Seg :=
  mkSeg (g_sequence g) (g_inode g) f synced written.

Lemma rising_snoc low l g :
  rising low l → u64 (g_sequence g) → default low (g_sequence <$> last l) < g_sequence g →
  rising low (l ++ [g]).
Proof.
  revert low. induction l as [|g' l IH]; intros lo Hl Hu Hg; [by split_and!|].
  destruct Hl as (?&?&Hl). split_and!; [done..|]. apply IH; [done..|].
  destruct l as [|g'' l]; [done|]. rewrite last_cons_cons in Hg. simpl in Hg |- *.
  by destruct (last (g'' :: l)) eqn:E; [|apply last_None in E].
Qed.

Lemma rising_last low l g : rising low (l ++ [g]) → u64 (g_sequence g) ∧ low < g_sequence g.
Proof.
  intros Hr. apply rising_above in Hr. apply Forall_app in Hr as [_ [? _]%Forall_cons]. naive_solver.
Qed.

Lemma rising_with_file low l g f a b : rising low (l ++ [g]) → rising low (l ++ [with_file f a b g]).
Proof.
  revert low. induction l as [|g' l IH]; intros lo; [done|]. intros (?&?&?).
  split_and!; [done..|]. by apply IH.
Qed.

Section steps.
Context `{Machine} (dir : Path) (options : Options).
Notation lane := (o_lane options).
Notation database := (o_database options).
Notation size := (o_segment_bytes options).
Notation path_of := (seg_path dir (o_lane options)).
Context (Hlane : 0 ≤ lane < 100) (Hdatabase : u64 database) (Hsize : 2 * SEGMENT_HEADER ≤ size).
Context (fs0 : Inner) (Hsettled : Settled fs0) (dirs : gset Path) (low : Z).
Context (Hdir : dir ∈ dirs).
Context (Hlow : ∀ s p, (s, p) ∈ found dir lane (i_names fs0) dirs → s ≤ low).
Notation Disk := (Disk dir options fs0 dirs).
Notation ready := (ready options).
Notation seg_holds := (seg_holds options).

(** ** The disk step by step *)

Definition handle_of (g : Seg) : SimHandle := mkSimHandle (path_of (g_sequence g)) (g_inode g) true.

Lemma disk_lookup segs mk g s :
  Disk segs mk s → rising low (segs ++ mk) → g ∈ segs ++ mk →
  named s (g_inode g) = true ∧ i_files s !! g_inode g = Some (g_file g).
Proof.
  intros Hd Hr Hg. split.
  - apply (named_lookup _ (path_of (g_sequence g))). rewrite (disk_names _ _ _ _ _ _ _ Hd).
    apply seg_names_in; [done| |by eapply rising_nodup|done].
    eapply Forall_impl; [by apply rising_above|]. naive_solver.
  - pose proof (disk_files _ _ _ _ _ _ _ Hd) as Hf. rewrite Forall_forall in Hf. by apply Hf.
Qed.

(** A new file under the name of a segment past all there are. *)
Lemma disk_new segs s sequence :
  Disk segs [] s → rising low (segs ++ [mkSeg sequence (i_next_inode s) (mkSimFile [] []) [] []]) →
  i_names s !! path_of sequence = None
  ∧ Disk segs [mkSeg sequence (i_next_inode s) (mkSimFile [] []) [] []] (with_new s (path_of sequence)).
Proof.
  intros Hd Hr. set (g := mkSeg _ _ _ _ _) in *. destruct (rising_last _ _ _ Hr) as [Hu Hl].
  pose proof (rising_nodup _ _ Hr) as Hn. pose proof (rising_above _ _ Hr) as Ha.
  rewrite Forall_app in Ha. destruct Ha as [Ha _]. rewrite fmap_app in Hn.
  apply NoDup_app in Hn as (_&Hn&_). destruct Hd. rewrite app_nil_r in *.
  split.
  - rewrite disk_names. rewrite seg_names_out.
    + destruct (i_names fs0 !! path_of sequence) eqn:E; [|done].
      assert (Hin : (sequence, path_of sequence) ∈ found dir lane (i_names fs0) dirs).
      { apply elem_of_found; [done..|]. apply elem_of_union_l, elem_of_dom. by rewrite E. }
      apply Hlow in Hin. simpl in Hl. lia.
    + rewrite Forall_forall in Ha |- *. intros g' Hg' Heq. apply seg_path_inj in Heq; [|done|by apply Ha|done].
      apply (Hn (g_sequence g')); [by apply list_elem_of_fmap_2|]. rewrite Heq. by left.
  - split; simpl; try done.
    + rewrite disk_names, seg_names_app. done.
    + apply Forall2_nil_inv_r in disk_pending as ->. simpl. repeat constructor; simpl.
      apply removelast_last.
    + apply Forall_app. split; [|by repeat constructor; rewrite lookup_insert_eq].
      rewrite Forall_forall in disk_files, disk_inodes |- *. intros g' Hg'.
      rewrite lookup_insert_ne; [by apply disk_files|]. apply disk_inodes in Hg'. lia.
    + intros i Hi. rewrite lookup_insert_ne by lia. by apply disk_base.
    + rewrite fmap_app. apply NoDup_app. split_and!; [done| |apply NoDup_singleton].
      intros i (g'&->&Hg')%list_elem_of_fmap Hi. apply list_elem_of_singleton in Hi. simpl in Hi.
      rewrite Forall_forall in disk_inodes. apply disk_inodes in Hg'. lia.
    + apply Forall_app. split; [|repeat constructor; simpl; lia].
      eapply Forall_impl; [exact disk_inodes|]. simpl. lia.
    + lia.
Qed.

(** A change to the file of the newest segment, which may have its name on the disk or not. *)
Lemma disk_change segs mk segs' mk' l g f synced written s s' :
  Disk segs mk s → segs ++ mk = l ++ [g] → segs' ++ mk' = l ++ [with_file f synced written g] →
  length segs = length segs' → mk = [] ∨ segs = l →
  i_files s' = <[g_inode g := f]> (i_files s) → i_names s' = i_names s →
  i_durable_names s' = i_durable_names s → i_dir_pending s' = i_dir_pending s →
  i_dirs s' = i_dirs s → i_next_inode s' = i_next_inode s →
  Disk segs' mk' s'.
Proof.
  intros [] E E' Hlen Hcase Hf Hn Hdn Hdp Hdi Hni. rewrite E in *.
  assert (Hnames : ∀ names, seg_names dir options (l ++ [with_file f synced written g]) names =
    seg_names dir options (l ++ [g]) names) by (intros names; by rewrite !seg_names_app).
  assert (Hsegs : seg_names dir options segs' (i_names fs0) = seg_names dir options segs (i_names fs0)
    ∧ Forall2 (λ p g, d_dir p = dir ∧ d_entry p = Link (path_of (g_sequence g)) (g_inode g))
        (i_dir_pending s) mk').
  { destruct Hcase as [->| ->].
    - rewrite app_nil_r in E. subst segs. assert (mk' = []) as ->.
      { apply length_zero_iff_nil. apply (f_equal length) in E'. rewrite !length_app in *. simpl in *. lia. }
      rewrite app_nil_r in E'. by subst segs'.
    - apply app_inv_head in E as ->. apply app_inj_1 in E' as [-> ->]; [|done]. split; [done|].
      apply Forall2_cons_inv_r in disk_pending as (p&pend&Hp&Hnil&->).
      constructor; [exact Hp|exact Hnil]. }
  destruct Hsegs as [Hs1 Hs2]. rewrite fmap_app in disk_nodup.
  split; rewrite ?E', ?Hf, ?Hn, ?Hdn, ?Hdp, ?Hdi, ?Hni; try done.
  - by rewrite Hnames.
  - by rewrite Hs1.
  - apply NoDup_app in disk_nodup as (_&Hnd&_). apply Forall_app in disk_files as [Hl _].
    apply Forall_app. split; [|repeat constructor; simpl; by rewrite lookup_insert_eq].
    rewrite Forall_forall in Hl |- *. intros g' Hg'. rewrite lookup_insert_ne; [by apply Hl|].
    intros Heq. apply (Hnd (g_inode g')); [by apply list_elem_of_fmap_2|]. rewrite <-Heq. by left.
  - apply Forall_app in disk_inodes as [_ [Hi _]%Forall_cons]. intros i Hi'.
    rewrite lookup_insert_ne by lia. by apply disk_base.
  - by rewrite fmap_app.
  - apply Forall_app in disk_inodes as [Hl [Hi _]%Forall_cons]. apply Forall_app.
    split; [done|]. constructor; [done|constructor].
Qed.

Lemma disk_sync_dir segs mk s :
  Disk segs mk s → Disk (segs ++ mk) [] (with_synced_dir s dir).
Proof.
  intros []. split; rewrite ?app_nil_r; try done.
  - simpl. rewrite disk_durable. rewrite list_filter_all.
    2:{ eapply Forall2_Forall_l; [exact disk_pending|]. apply Forall_true. naive_solver. }
    clear -disk_pending. revert segs.
    induction disk_pending as [|p g pend mk [_ Hp] _ IH]; intros segs; [by rewrite app_nil_r|].
    cbn [foldl]. rewrite Hp. cbn [DirEntry_apply]. specialize (IH (segs ++ [g])).
    rewrite seg_names_app, <-app_assoc in IH. exact IH.
  - simpl. rewrite list_filter_none; [constructor|].
    eapply Forall2_Forall_l; [exact disk_pending|]. apply Forall_true. naive_solver.
Qed.

(** ** Making a segment *)

(** The segments made, and perhaps one in the making that holds nothing. *)
Definition Making (segs : list Seg) (s : Inner) : Prop :=
  ∃ mk, Disk segs mk s ∧ rising low (segs ++ mk) ∧ Forall seg_holds mk ∧ Forall empty_seg mk.

Lemma making_disk l g s :
  Disk l [g] s → rising low (l ++ [g]) → making options (g_sequence g) (g_file g) → empty_seg g →
  Making l s.
Proof.
  intros Hd Hr Hm He. exists [g]. split_and!; [done|done| |by constructor].
  constructor; [|constructor]. destruct (rising_last _ _ _ Hr) as [Hu _]. destruct He as [He1 He2].
  split; [done|]. rewrite He1, He2. by apply making_holds.
Qed.

Section create.
Context (E : Inner → Prop).

(** A write to a segment in the making. *)
Lemma wp_write_making l g offset data s Q :
  Disk l [g] s → rising low (l ++ [g]) → E s →
  (∀ f s', f = mkSimFile (f_durable (g_file g)) (f_pending (g_file g) ++
               [mkPending (i_next_seq s) (path_of (g_sequence g)) (CWrite offset data)]) →
     Disk l [with_file f [] [] g] s' → Q () s') →
  wp (File_write_at (handle_of g) offset data) s Q E.
Proof.
  intros Hd Hr HE HQ.
  destruct (disk_lookup l [g] g s Hd Hr) as [Hn Hf]; [apply elem_of_app; right; by left|].
  eapply wp_write_at; [done|done|exact Hf| |done]. eapply HQ; [done|].
  eapply (disk_change l [g] l); [exact Hd|done|done|done|by right|done..].
Qed.

Lemma wp_fill_zeros fuel l g at_ chunk s Q :
  Disk l [g] s → rising low (l ++ [g]) → filled options (g_sequence g) at_ (g_file g) → empty_seg g →
  0 < chunk → at_ ≤ size → (Z.to_nat (size - at_) < fuel)%nat →
  (∀ s', Making l s' → E s') →
  (∀ f s', Disk l [with_file f [] [] g] s' → filled options (g_sequence g) size f → Q () s') →
  wp (fill_zeros fuel (handle_of g) chunk at_ size) s Q E.
Proof.
  revert g at_ s. induction fuel as [|fuel IH]; intros g at_ s Hd Hr Hf He Hc Hat Hfuel HE HQ; [lia|].
  cbn [fill_zeros]. destruct (Z.ltb_spec at_ size) as [Hlt|Hge].
  - apply wp_bind. eapply wp_write_making; [exact Hd|done| |].
    { eapply HE, making_disk; [exact Hd|done|apply Hf|done]. }
    intros f s' -> Hd'. set (m := Z.min chunk (size - at_)) in *.
    apply (filled_write _ _ _ _ m (i_next_seq s) (path_of (g_sequence g))) in Hf; [|lia].
    eapply (IH (with_file _ [] [] g)); [exact Hd'|by apply rising_with_file|exact Hf|done|done|lia|lia|done|].
    intros f s'' Hd'' Hf''. by eapply HQ.
  - assert (at_ = size) as -> by lia. apply wp_ret. eapply (HQ (g_file g)); [|done].
    destruct g, He as [Ha Hb]. simpl in *. by subst.
Qed.

(** [create_segment] with no spare to recycle. *)
Lemma wp_create_segment sequence l s Q :
  Disk l [] s → rising low l → u64 sequence → default low (g_sequence <$> last l) < sequence →
  (∀ s', Making l s' → E s') →
  (∀ g s', Disk (l ++ [g]) [] s' → g_sequence g = sequence → ready sequence [] [] (g_file g) →
     empty_seg g → rising low (l ++ [g]) → Q (handle_of g) s') →
  wp (create_segment dir options sequence None) s Q E.
Proof.
  intros Hd Hl Hu Hlast HE HQ. unfold create_segment.
  set (g0 := mkSeg sequence (i_next_inode s) (mkSimFile [] []) [] []).
  assert (Hr : rising low (l ++ [g0])) by (by apply rising_snoc).
  destruct (disk_new l s sequence Hd Hr) as [Hnone Hd0].
  apply wp_bind, wp_open_new; [done| |].
  2:{ apply HE. exists []. by rewrite app_nil_r. }
  change (mkSimHandle _ _ true) with (handle_of g0). fold (header options sequence).
  apply wp_bind. eapply wp_write_making; [exact Hd0|exact Hr| |].
  { by eapply HE, making_disk; [exact Hd0|exact Hr|apply making_new|]. }
  intros f1 s1 Ef Hd1. pose proof (rising_with_file _ _ _ f1 [] [] Hr) as Hr1.
  assert (Hf1 : filled options sequence SEGMENT_HEADER f1) by (subst f1; apply filled_header).
  apply wp_bind. unfold SEGMENT_HEADER in Hsize.
  eapply (wp_fill_zeros _ l (with_file f1 [] [] g0)); [exact Hd1|exact Hr1|exact Hf1|done| | | |done|].
  { unfold ZERO_CHUNK, SEGMENT_HEADER. lia. } { unfold SEGMENT_HEADER. lia. } { unfold SEGMENT_HEADER. lia. }
  intros f2 s2 Hd2 Hf2. pose proof (rising_with_file _ _ _ f2 [] [] Hr) as Hr2.
  destruct (disk_lookup l _ (with_file f2 [] [] g0) s2 Hd2 Hr2) as [Hn Hf]; [apply elem_of_app; right; by left|].
  apply wp_bind, (wp_sync _ _ (handle_of g0) f2); [done|done| |].
  2:{ eapply HE, making_disk; [exact Hd2|exact Hr2|apply Hf2|done]. }
  set (f3 := mkSimFile (SimFile_visible f2) []). set (g3 := with_file f3 [] [] g0).
  match goal with |- wp _ ?s3 _ _ => assert (Hd3 : Disk l [g3] s3) end.
  { eapply (disk_change l _ l); [exact Hd2|done|done|done|by right|done..]. }
  pose proof (rising_with_file _ _ _ f3 [] [] Hr) as Hr3. fold g3 in Hr3.
  assert (Hready : ready sequence [] [] f3) by (by apply filled_sync).
  apply wp_bind, wp_sync_dir.
  - apply wp_ret. change (handle_of g0) with (handle_of g3).
    apply disk_sync_dir in Hd3. by apply HQ.
  - apply HE. exists [g3]. split_and!; [done|done| |by constructor].
    constructor; [|constructor]. split; [done|]. by apply ready_holds.
Qed.
End create.
End steps.
