(* ===== verification/LaneLead.v ===== *)
(** A leader's turn: where the blocks queued for it go, and what [lead] leaves on the disk when it
    is done or an operation under it fails. *)

From S2P Require Import Prelude Crc LogFormat LogBlock SimFs SimFsLaws Lane LaneNames LaneReplay.
From S2P Require Import LaneDisk LaneSteps.
Local Open Scope Z_scope.

(** * Where blocks go *)

Section placing.
Context `{Machine} (options : Options).
Notation size := (o_segment_bytes options).

(** The tail of a lane: the segment, the offset in it and the lane position. *)
Definition Pos : Type := Z * Z * Z.

Definition item_at (p : Pos) (t : Txn) : Item :=
  let '(sequence, offset, end_) := p in
  let len := Block_len (block_of t) in
  if offset + len >? size then mkItem (sequence + 1) SEGMENT_HEADER (end_ + len) t
  else mkItem sequence offset (end_ + len) t.

Definition pos_after (it : Item) : Pos :=
  (it_sequence it, it_offset it + Block_len (block_of (it_txn it)), it_end it).

(** The blocks of [ts] put one after another from [p] on. *)
Fixpoint place (p : Pos) (ts : list Txn) : list Item :=
  match ts with
  | [] => []
  | t :: ts => let it := item_at p t in it :: place (pos_after it) ts
  end.

Definition tail_pos (p : Pos) (its : list Item) : Pos := default p (pos_after <$> last its).

Definition piece_of (it : Item) : Piece :=
  mkPiece (it_sequence it) (it_offset it) (it_end it) (item_bytes options it).

(** A transaction whose block fits a segment. *)
Definition valid (t : Txn) : Prop := Txn_ok t ∧ Block_len (block_of t) ≤ size - SEGMENT_HEADER.

Definition end_of (its : list Item) : Z := default 0 (it_end <$> last its).

Lemma tail_pos_cons p it its : tail_pos p (it :: its) = tail_pos (pos_after it) its.
Proof. unfold tail_pos. destruct its as [|it' its]; [done|]. rewrite last_cons_cons.
  by destruct (last (it' :: its)) eqn:E; [|apply last_None in E]. Qed.

Lemma place_app p ts ts' : place p (ts ++ ts') = place p ts ++ place (tail_pos p (place p ts)) ts'.
Proof.
  revert p. induction ts as [|t ts IH]; intros p; [done|]. cbn [app place].
  by rewrite IH, tail_pos_cons.
Qed.

Lemma tail_pos_app p its its' : tail_pos p (its ++ its') = tail_pos (tail_pos p its) its'.
Proof.
  revert p. induction its as [|it its IH]; intros p; [done|]. cbn [app]. by rewrite !tail_pos_cons.
Qed.

Lemma item_at_end p t : it_end (item_at p t) = p.2 + Block_len (block_of t).
Proof. destruct p as [[s o] e]. unfold item_at. by case_match. Qed.

Lemma item_at_txn p t : it_txn (item_at p t) = t.
Proof. destruct p as [[s o] e]. unfold item_at. by case_match. Qed.

Lemma place_txns p ts : it_txn <$> place p ts = ts.
Proof. revert p. induction ts as [|t ts IH]; intros p; [done|]. simpl. by rewrite item_at_txn, IH. Qed.

Lemma place_ends p ts : Forall (λ it, p.2 < it_end it) (place p ts).
Proof.
  revert p. induction ts as [|t ts IH]; intros p; [constructor|]. cbn [place].
  pose proof (Block_len_min options t). constructor; [rewrite item_at_end; lia|].
  eapply Forall_impl; [apply IH|]. simpl. intros it. rewrite item_at_end. lia.
Qed.

(** The first of the blocks placed are the first of the transactions placed. *)
Lemma place_prefix p ts its rest :
  place p ts = its ++ rest →
  ∃ ts1 ts2, ts = ts1 ++ ts2 ∧ its = place p ts1 ∧ rest = place (tail_pos p its) ts2.
Proof.
  intros Hpl. exists (take (length its) ts), (drop (length its) ts). split; [by rewrite take_drop|].
  rewrite <-(take_drop (length its) ts), place_app in Hpl.
  apply app_inj_1 in Hpl as [H1 H2]; [by rewrite H1 in H2|].
  rewrite <-(length_fmap it_txn), place_txns, length_take.
  apply (f_equal length) in Hpl. rewrite !length_app in Hpl.
  rewrite <-!(length_fmap it_txn), !place_txns, length_take in Hpl. rewrite length_drop, length_fmap in Hpl. lia.
Qed.

Lemma tail_pos_end p ts : p.2 ≤ (tail_pos p (place p ts)).2.
Proof.
  revert p. induction ts as [|t ts IH]; intros p; [done|]. cbn [place]. rewrite tail_pos_cons.
  etransitivity; [|apply IH]. simpl. rewrite item_at_end. pose proof (Block_len_min options t). lia.
Qed.

Lemma end_of_tail p ts : p.2 = 0 → end_of (place p ts) = (tail_pos p (place p ts)).2.
Proof. intros Hp. unfold end_of, tail_pos. by destruct (last (place p ts)). Qed.

(** The end of some of the first blocks is no further than the end of all of them. *)
Lemma end_of_prefix p ts pre :
  p.2 = 0 → pre `prefix_of` place p ts → end_of pre ≤ (tail_pos p (place p ts)).2.
Proof.
  intros Hp [rest Hpre]. apply place_prefix in Hpre as (ts1&ts2&->&->&_).
  rewrite place_app, tail_pos_app, end_of_tail by done. apply tail_pos_end.
Qed.

(** Ends go up, so what ends by the end of the first blocks is among them. *)
Lemma place_by_end p ts its rest it :
  p.2 = 0 → place p ts = its ++ rest → it ∈ its ++ rest → it_end it ≤ end_of its → it ∈ its.
Proof.
  intros Hp Hpl [|Hin]%elem_of_app Hend; [done|]. exfalso.
  apply place_prefix in Hpl as (ts1&ts2&->&->&->). rewrite end_of_tail in Hend by done.
  pose proof (place_ends (tail_pos p (place p ts1)) ts2) as He. rewrite Forall_forall in He.
  apply He in Hin. lia.
Qed.

Lemma place_run sequence offset end_ ts :
  Forall valid ts → offset ≤ size →
  ∃ ts1 ts2, ts = ts1 ++ ts2 ∧ laid options sequence offset (place (sequence, offset, end_) ts1)
    ∧ same_segment sequence (piece_of <$> place (sequence, offset, end_) ts) =
        (piece_of <$> place (sequence, offset, end_) ts1,
         piece_of <$> place (tail_pos (sequence, offset, end_) (place (sequence, offset, end_) ts1)) ts2).
Proof.
  intros Hts. revert offset end_. induction Hts as [|t ts [Ht Hf] Hts IH]; intros offset end_ Ho.
  { exists [], []. done. }
  destruct (Z.gtb_spec (offset + Block_len (block_of t)) size) as [Hgt|Hle].
  - exists [], (t :: ts). split_and!; [done..|].
    change (piece_of <$> place (tail_pos _ (place _ [])) (t :: ts)) with
      (piece_of <$> place (sequence, offset, end_) (t :: ts)).
    assert (Hit : item_at (sequence, offset, end_) t =
      mkItem (sequence + 1) SEGMENT_HEADER (end_ + Block_len (block_of t)) t).
    { unfold item_at. by destruct (Z.gtb_spec (offset + Block_len (block_of t)) size); [|lia]. }
    cbn [place]. rewrite Hit. cbn [fmap list_fmap same_segment piece_of pc_sequence it_sequence].
    by rewrite (proj2 (Z.eqb_neq _ _)) by lia.
  - destruct (IH (offset + Block_len (block_of t)) (end_ + Block_len (block_of t)) Hle)
      as (ts1&ts2&->&Hl&Hs).
    assert (Hit : item_at (sequence, offset, end_) t =
      mkItem sequence offset (end_ + Block_len (block_of t)) t).
    { unfold item_at. by destruct (Z.gtb_spec (offset + Block_len (block_of t)) size); [lia|]. }
    exists (t :: ts1), ts2. split; [done|]. cbn [place app]. rewrite Hit, !fmap_cons. split.
    + cbn [laid it_sequence it_offset it_txn]. split_and!; [done|done|done|].
      rewrite zlen_item_bytes. exact Hl.
    + cbn [same_segment piece_of pc_sequence it_sequence]. rewrite Z.eqb_refl.
      unfold pos_after. cbn [it_sequence it_offset it_end it_txn].
      rewrite Hs, tail_pos_cons. done.
Qed.

(** The first run of a leader: the blocks that go to the segment of the first. *)
Lemma first_run p t ts :
  Forall valid (t :: ts) → SEGMENT_HEADER ≤ p.1.2 ≤ size →
  let it := item_at p t in
  ∃ ts1 ts2 run, ts = ts1 ++ ts2 ∧ place p (t :: ts1) = run ∧ laid options (it_sequence it) (it_offset it) run
    ∧ same_segment (it_sequence it) (piece_of <$> place p (t :: ts)) =
        (piece_of <$> run, piece_of <$> place (tail_pos p run) ts2).
Proof.
  intros [[Ht Hf] Hts]%Forall_cons Hp it.
  destruct (place_run (it_sequence it) (it_offset it + Block_len (block_of t)) (it_end it) ts)
    as (ts1&ts2&->&Hl&Hs); [done| |].
  { subst it. destruct p as [[s o] e]. unfold item_at. simpl in Hp.
    destruct (Z.gtb_spec (o + Block_len (block_of t)) size); simpl; [unfold SEGMENT_HEADER in *; lia|done]. }
  exists ts1, ts2. eexists. split_and!; [done|done|..].
  - cbn [place]. fold it. cbn [laid]. subst it. rewrite item_at_txn. split_and!; [done..|].
    rewrite zlen_item_bytes, item_at_txn. unfold pos_after. rewrite item_at_txn. exact Hl.
  - cbn [place]. fold it. rewrite !fmap_cons. cbn [same_segment piece_of pc_sequence].
    rewrite Z.eqb_refl, tail_pos_cons. unfold pos_after at 1 2 3 4. subst it.
    by rewrite item_at_txn, Hs.
Qed.
End placing.

(** * A turn *)

(** [wp] of a leader's computation. *)
Definition twp (c : turn_io) (ld : Leading) (s : Inner) (Q : Leading → Inner → Prop)
    (E : Inner → Prop) : Prop :=
  ∀ fs, store fs = s →
    match c ld fs with
    | (Ok _, ld', fs') => Q ld' (store fs') ∧ i_fail_at fs' = i_fail_at fs
    | (Err _, _, fs') => E (store fs') ∧ is_Some (i_fail_at fs)
    end.

Lemma twp_at_disk {A} (c : io A) k ld s Q E :
  wp c s (λ a s', twp (k a) ld s' Q E) E → twp (at_disk c k) ld s Q E.
Proof.
  intros Hc fs Hs. specialize (Hc fs Hs). unfold at_disk.
  destruct (c fs) as [[a|e] fs']; [|done]. destruct Hc as [Hk Hf]. specialize (Hk fs' eq_refl).
  rewrite <-Hf. by destruct (k a ld fs') as [[[b|e'] ld'] fs''].
Qed.

Lemma twp_if (b : Leading → bool) (c1 c2 : turn_io) ld s Q E :
  (b ld = true → twp c1 ld s Q E) → (b ld = false → twp c2 ld s Q E) →
  twp (λ ld, if b ld then c1 ld else c2 ld) ld s Q E.
Proof. intros H1 H2 fs Hs. destruct (b ld); [by apply H1|by apply H2]. Qed.

Section turn.
Context `{Machine} (dir : Path) (options : Options).
Notation lane := (o_lane options).
Notation database := (o_database options).
Notation size := (o_segment_bytes options).
Notation path_of := (seg_path dir (o_lane options)).
Context (Hlane : 0 ≤ lane < 100) (Hdatabase : u64 database) (Hsize : 2 * SEGMENT_HEADER ≤ size).
Context (fs0 : Inner) (Hsettled : Settled fs0) (dirs : gset Path) (low : Z).
Context (Hdir : dir ∈ dirs).
Context (Hlow : ∀ s p, (s, p) ∈ found dir lane (i_names fs0) dirs → s ≤ low).
Notation Disk := (Disk dir options fs0 dirs).
Notation ready := (ready options).
Notation seg_holds := (seg_holds options).
Notation items_bytes := (items_bytes options).
Notation handle_of := (handle_of dir options).

(** The segments behind the open one, complete on the disk, and the open one. *)
Record Flow (l : list Seg) (g : Seg) (s : Inner) : Prop := mkFlow {
  fl_disk : Disk (l ++ [g]) [] s;
  fl_rising : rising low (l ++ [g]);
  fl_old : Forall (λ g, seg_holds g ∧ g_written g = []) l;
  fl_ready : ready (g_sequence g) (g_synced g) (g_written g) (g_file g) }.

(** Every block of the lane that ends by [d] is synced. *)
Definition covered (total : list Item) (d : Z) (segs : list Seg) : Prop :=
  ∀ it, it ∈ total → it_end it ≤ d → it ∈ synced_items segs.

(** The disk holds the first of the blocks of the lane, those that end by [d] synced. *)
Definition Safe (total : list Item) (d : Z) (s : Inner) : Prop :=
  ∃ segs mk, Disk segs mk s ∧ rising low (segs ++ mk) ∧ Forall seg_holds (segs ++ mk)
    ∧ tidy (segs ++ mk) ∧ Forall empty_seg mk ∧ all_items segs `prefix_of` total ∧ covered total d segs.

Lemma tidy_snoc l g : Forall (λ g, g_written g = []) l → tidy (l ++ [g]).
Proof. induction 1 as [|g' l Hg _ IH]; [by split|]. by split. Qed.

Lemma flow_holds l g s : Flow l g s → Forall seg_holds (l ++ [g]) ∧ tidy (l ++ [g]).
Proof.
  intros []. split.
  - apply Forall_app. split; [eapply Forall_impl; [exact fl_old0|naive_solver]|].
    constructor; [|constructor]. destruct (rising_last _ _ _ fl_rising0) as [Hu _].
    split; [done|]. by apply ready_holds.
  - apply tidy_snoc. eapply Forall_impl; [exact fl_old0|naive_solver].
Qed.

Lemma all_items_snoc l g : all_items (l ++ [g]) = all_items l ++ g_synced g ++ g_written g.
Proof. unfold all_items. rewrite fmap_app, concat_app. simpl. by rewrite app_nil_r. Qed.

Lemma synced_items_snoc l g : synced_items (l ++ [g]) = synced_items l ++ g_synced g.
Proof. unfold synced_items. rewrite fmap_app, concat_app. simpl. by rewrite app_nil_r. Qed.

Lemma synced_items_all l : Forall (λ g, g_written g = []) l → synced_items l = all_items l.
Proof.
  unfold synced_items, all_items. induction 1 as [|g l Hg _ IH]; [done|].
  rewrite !fmap_cons. cbn [concat]. by rewrite Hg, app_nil_r, IH.
Qed.

(** ** Writes and syncs *)

Context (total : list Item) (d : Z) (E : Inner → Prop).
Context (HE : ∀ s, Safe total d s → E s).

Lemma flow_E l g s :
  Flow l g s → all_items (l ++ [g]) `prefix_of` total → covered total d (l ++ [g]) → E s.
Proof.
  intros Hf Ha Hc. destruct (flow_holds _ _ _ Hf). apply HE. exists (l ++ [g]), [].
  rewrite !app_nil_r. split_and!; [apply Hf|apply Hf|done..|constructor|done|done].
Qed.

Lemma flow_change l g f a b s s' :
  Flow l g s → ready (g_sequence g) a b f →
  i_files s' = <[g_inode g := f]> (i_files s) → i_names s' = i_names s →
  i_durable_names s' = i_durable_names s → i_dir_pending s' = i_dir_pending s →
  i_dirs s' = i_dirs s → i_next_inode s' = i_next_inode s →
  Flow l (with_file f a b g) s'.
Proof.
  intros [] Hr ??????. split; [|by apply rising_with_file|done|done].
  eapply (disk_change dir options fs0 dirs (l ++ [g]) [] (l ++ [with_file f a b g]) []);
    [exact fl_disk0|by rewrite app_nil_r|by rewrite app_nil_r|by rewrite !length_app|by left|done..].
Qed.

Lemma flow_lookup l g s :
  Flow l g s → named s (g_inode g) = true ∧ i_files s !! g_inode g = Some (g_file g).
Proof.
  intros []. eapply (disk_lookup dir options); [done|exact fl_disk0|by rewrite app_nil_r|].
  rewrite app_nil_r. apply elem_of_app. right. by left.
Qed.

(** The offset just past the blocks of a segment. *)
Definition seg_end (g : Seg) : Z := SEGMENT_HEADER + zlen (items_bytes (g_synced g ++ g_written g)).

Lemma wp_write_parts its l g at_ s Q :
  Flow l g s → laid options (g_sequence g) (seg_end g) its → at_ = seg_end g →
  (all_items (l ++ [g]) ++ its) `prefix_of` total → covered total d (l ++ [g]) →
  (∀ f s', Flow l (with_file f (g_synced g) (g_written g ++ its) g) s' → Q () s') →
  wp (File_write_parts_at (handle_of g) at_ (item_bytes options <$> its)) s Q E.
Proof.
  revert g at_ s. induction its as [|it its IH]; intros g at_ s Hf Hl -> Ht Hc HQ.
  { apply wp_ret. eapply (HQ (g_file g)). rewrite app_nil_r. by destruct g. }
  rewrite fmap_cons. cbn [File_write_parts_at]. destruct Hl as (Hs&Ho&Hok&Hl).
  destruct (flow_lookup _ _ _ Hf) as [Hn Hfile]. apply wp_bind. eapply wp_write_at; [done|done|exact Hfile| |].
  2:{ eapply flow_E; [done| |done]. eapply prefix_app_l. exact Ht. }
  match goal with |- wp _ ?s1 _ _ => set (s' := s1) end.
  set (f := mkSimFile (f_durable (g_file g)) (f_pending (g_file g) ++
    [mkPending (i_next_seq s) (h_path (handle_of g)) (item_write options it)])).
  assert (Hend : seg_end (with_file f (g_synced g) (g_written g ++ [it]) g) = seg_end g + zlen (item_bytes options it)).
  { unfold seg_end. simpl. rewrite !items_bytes_app, !zlen_app, zlen_items_bytes_one, zlen_item_bytes. lia. }
  assert (Hready : ready (g_sequence g) (g_synced g) (g_written g ++ [it]) f).
  { apply ready_write; [|apply Hf]. rewrite app_assoc. apply laid_app. split; [apply Hf|].
    fold (seg_end g). split_and!; [done..|]. rewrite <-Hend. pose proof (laid_fits _ _ _ _ Hl).
    pose proof (zlen_nonneg (items_bytes its)). cbn [laid]. rewrite Hend. lia. }
  assert (Hf' : Flow l (with_file f (g_synced g) (g_written g ++ [it]) g) s').
  { eapply flow_change; [exact Hf|exact Hready|..]; try done. simpl. rewrite <-Ho. done. }
  rewrite <-Hend. eapply (IH (with_file f (g_synced g) (g_written g ++ [it]) g)); [done| |done| | |].
  - by rewrite Hend.
  - rewrite all_items_snoc in Ht |- *. simpl. rewrite <-!app_assoc in *. exact Ht.
  - intros it' ? ?. rewrite synced_items_snoc. simpl. rewrite <-synced_items_snoc. by apply Hc.
  - intros f' s'' Hf''. apply (HQ f'). simpl in Hf''. by rewrite <-app_assoc in Hf''.
Qed.

Lemma wp_sync_flow l g s Q :
  Flow l g s → all_items (l ++ [g]) `prefix_of` total → covered total d (l ++ [g]) →
  (∀ f s', Flow l (with_file f (g_synced g ++ g_written g) [] g) s' → Q () s') →
  wp (File_sync (handle_of g)) s Q E.
Proof.
  intros Hf Ha Hc HQ. destruct (flow_lookup _ _ _ Hf) as [Hn Hfile].
  eapply wp_sync; [done|exact Hfile| |by eapply flow_E].
  eapply HQ, flow_change; [exact Hf|by apply ready_sync; [..|apply Hf]|done..].
Qed.

(** ** The loop *)

Context (Htotal : ∀ its rest it, total = its ++ rest → it ∈ total → it_end it ≤ end_of its → it ∈ its).
Context (Hseq : Forall (λ it, u64 (it_sequence it)) total).

(** A leader that has put [its] on the disk, its open segment at [p]. *)
Record AtSeg (l : list Seg) (g : Seg) (its : list Item) (ld : Leading) (p : Pos) (s : Inner) : Prop := mkAt {
  at_flow : Flow l g s;
  at_items : all_items (l ++ [g]) = its;
  at_pos : p = (g_sequence g, seg_end g, ld_written ld);
  at_sequence : op_sequence (ld_open ld) = g_sequence g;
  at_file : op_file (ld_open ld) = handle_of g;
  at_dirty : op_dirty (ld_open ld) = false → g_written g = [];
  at_spares : ld_spares ld = [];
  at_covered : covered total d (l ++ [g]);
  at_durable : ∀ d', ld_durable ld = Some d' → covered total d' (l ++ [g]);
  at_ends : ∀ d', ld_durable ld = Some d' → ∃ pre, pre `prefix_of` its ∧ d' = end_of pre;
  at_written : ld_written ld = end_of its }.

Definition At (its : list Item) (ld : Leading) (p : Pos) (s : Inner) : Prop :=
  ∃ l g, AtSeg l g its ld p s.

Context (Q : Leading → Inner → Prop).

(** With nothing left unsynced, every block written is covered. *)
Lemma covered_all l g its :
  Forall (λ g, seg_holds g ∧ g_written g = []) l → g_written g = [] →
  all_items (l ++ [g]) = its → its `prefix_of` total → covered total (end_of its) (l ++ [g]).
Proof.
  intros Hl Hg Ha [rest Hrest] it Hin Hend. rewrite synced_items_all.
  - rewrite Ha. by eapply Htotal.
  - apply Forall_app. split; [|by constructor]. eapply Forall_impl; [exact Hl|naive_solver].
Qed.

Lemma twp_sync_if_dirty (sync : SimHandle → io ()) l g its ld p s k :
  sync = File_sync → AtSeg l g its ld p s → its `prefix_of` total →
  (∀ g' s', AtSeg l g' its ld p s' → g_written g' = [] → g_sequence g' = g_sequence g → twp k ld s' Q E) →
  twp (sync_if_dirty sync k) ld s Q E.
Proof.
  intros -> Ha Hits Hk. unfold sync_if_dirty. apply twp_at_disk. pose proof Ha as [].
  destruct (op_dirty (ld_open ld)) eqn:Ed.
  - rewrite at_file0. eapply wp_sync_flow; [done|by rewrite at_items0|done|].
    intros f s' Hf'. set (g' := with_file f (g_synced g ++ g_written g) [] g) in *.
    assert (Hcov : ∀ d', covered total d' (l ++ [g]) → covered total d' (l ++ [g'])).
    { intros d' Hc it Hin Hend. specialize (Hc it Hin Hend). rewrite synced_items_snoc in *. simpl.
      set_solver. }
    apply (Hk g'); [|done|done]. split; try done.
    + rewrite <-at_items0, !all_items_snoc. simpl. by rewrite app_nil_r.
    + rewrite at_pos0. unfold seg_end. simpl. by rewrite app_nil_r.
    + by apply Hcov.
    + intros d' Hd'. by apply Hcov, at_durable0.
  - apply wp_ret. apply (Hk g); [done|by apply at_dirty0|done].
Qed.

Lemma making_E l g s :
  Forall (λ g, seg_holds g ∧ g_written g = []) l → seg_holds g → g_written g = [] →
  all_items (l ++ [g]) `prefix_of` total → covered total d (l ++ [g]) →
  Making dir options fs0 dirs low (l ++ [g]) s → E s.
Proof.
  intros Hl Hg Hw Ha Hc (mk&Hd&Hr&Hh&He). apply HE. exists (l ++ [g]), mk.
  assert (Hl' : Forall (λ g, seg_holds g ∧ g_written g = []) ((l ++ [g]) ++ mk)).
  { apply Forall_app. split; [apply Forall_app; split; [done|by constructor]|].
    rewrite Forall_forall in Hh, He |- *. intros g' Hg'. split; [by apply Hh|by apply He]. }
  split_and!; [done|done|eapply Forall_impl; [exact Hl'|naive_solver]| |done|done|done].
  assert (Forall (λ g, g_written g = []) ((l ++ [g]) ++ mk)) as Hw'.
  { eapply Forall_impl; [exact Hl'|naive_solver]. }
  clear -Hw'. induction Hw'; [done|]. by split.
Qed.

Lemma twp_rotate sequence its ld p s k :
  At its ld p s → its `prefix_of` total → u64 sequence → p.1.1 < sequence →
  (∀ ld' s', At its ld' (sequence, SEGMENT_HEADER, p.2) s' → twp k ld' s' Q E) →
  twp (rotate dir options sequence k) ld s Q E.
Proof.
  intros (l&g&Ha) Hits Hu Hs Hk. unfold rotate. eapply twp_sync_if_dirty; [done|done|done|].
  intros g' s' Ha' Hw Hseq'. pose proof Ha' as [].
  pose proof (covered_all l g' its (fl_old _ _ _ at_flow0) Hw at_items0 Hits) as Hall.
  destruct (flow_holds _ _ _ at_flow0) as [Hholds _]. apply Forall_app in Hholds as [_ [Hg' _]%Forall_cons].
  refine (_ : twp (at_disk _ _) (mkLeading _ _ _ _) s' Q E).
  rewrite at_spares0. apply twp_at_disk. cbn [last removelast].
  eapply (wp_create_segment dir options Hlane Hdatabase Hsize fs0 dirs low Hlow);
    [apply at_flow0|apply at_flow0|done| | |].
  - rewrite last_snoc. rewrite at_pos0 in Hs. done.
  - intros s''. eapply making_E; [apply at_flow0|done|done|by rewrite at_items0|done].
  - intros g'' s'' Hd'' Hs'' Hr'' [Hempty1 Hempty2] Hrise. apply Hk. exists (l ++ [g']), g''.
    assert (Hsame : synced_items ((l ++ [g']) ++ [g'']) = synced_items (l ++ [g'])).
    { by rewrite (synced_items_snoc (l ++ [g'])), Hempty1, app_nil_r. }
    assert (Hcov : ∀ d', covered total d' (l ++ [g']) → covered total d' ((l ++ [g']) ++ [g''])).
    { intros d' Hc it Hin Hend. rewrite Hsame. by apply Hc. }
    split; try done; cbn [ld_open ld_written ld_durable op_sequence op_file op_dirty].
    + split; [done|done| |by rewrite Hempty1, Hempty2, Hs''].
      apply Forall_app. split; [apply at_flow0|]. by constructor.
    + by rewrite all_items_snoc, Hempty1, Hempty2, app_nil_r.
    + unfold seg_end. rewrite Hempty1, Hempty2, Hs'', at_pos0. done.
    + by apply Hcov.
    + intros d' [= <-]. rewrite at_written0. by apply Hcov.
    + intros d' [= <-]. by exists its.
Qed.

(** The write of a run of blocks to the open segment. *)
Lemma twp_write_run l g run its ld p s k :
  AtSeg l g its ld p s → (its ++ run) `prefix_of` total → run ≠ [] →
  laid options p.1.1 p.1.2 run →
  (∀ s' ld', ld' = mkLeading (mkOpen (op_sequence (ld_open ld)) (op_file (ld_open ld)) true)
                     (default (ld_written ld) (pc_end <$> last (piece_of options <$> run)))
                     (ld_durable ld) (ld_spares ld) →
     At (its ++ run) ld' (tail_pos p run) s' → twp k ld' s' Q E) →
  twp (λ ld, at_disk (File_write_parts_at (op_file (ld_open ld)) p.1.2 (pc_bytes <$> (piece_of options <$> run)))
         (λ _ ld, k (mkLeading (mkOpen (op_sequence (ld_open ld)) (op_file (ld_open ld)) true)
                       (default (ld_written ld) (pc_end <$> last (piece_of options <$> run)))
                       (ld_durable ld) (ld_spares ld))) ld) ld s Q E.
Proof.
  intros [] Hits Hrun Hlaid Hk.
  refine (_ : twp (at_disk _ _) ld s Q E). apply twp_at_disk.
  rewrite at_file0, <-list_fmap_compose. subst p. cbn [fst snd] in *.
  eapply (wp_write_parts run l g); [done|done|done|by rewrite at_items0|done|].
  intros f s' Hf'. eapply (Hk s' _ eq_refl). set (g' := with_file f (g_synced g) (g_written g ++ run) g) in *.
  destruct (last run) as [it|] eqn:El; [|by apply last_None in El].
  assert (Hcov : ∀ d', covered total d' (l ++ [g]) → covered total d' (l ++ [g'])).
  { intros d' Hc it' Hin Hend. specialize (Hc it' Hin Hend). by rewrite synced_items_snoc in *. }
  exists l, g'. split; try done; cbn [ld_open ld_written ld_durable op_sequence op_file op_dirty].
  - rewrite <-at_items0, !all_items_snoc. simpl. by rewrite <-!app_assoc.
  - unfold tail_pos. rewrite fmap_last, El. simpl. unfold pos_after.
    apply last_Some in El as [run' ->]. apply laid_app in Hlaid as [_ (Hs&Ho&_)].
    rewrite Hs, Ho. do 2 f_equal. subst g'. unfold seg_end. simpl.
    rewrite !items_bytes_app, !zlen_app, zlen_items_bytes_one. lia.
  - by apply Hcov.
  - intros d' Hd'. by apply Hcov, at_durable0.
  - intros d' Hd'. destruct (at_ends0 d' Hd') as (pre&Hpre&->). exists pre.
    split; [by apply prefix_app_r|done].
  - rewrite fmap_last, El. unfold end_of. rewrite last_app, El. done.
Qed.

Lemma at_offset its ld p s : At its ld p s → SEGMENT_HEADER ≤ p.1.2 ≤ size.
Proof.
  intros (l&g&[]). subst p. simpl. pose proof (laid_fits _ _ _ _ (proj1 (fl_ready _ _ _ at_flow0))).
  unfold seg_end in *. pose proof (zlen_nonneg (items_bytes (g_synced g ++ g_written g))). lia.
Qed.

Lemma twp_lead_loop fuel ts p its ld s k :
  (length ts < fuel)%nat → Forall (valid options) ts → At its ld p s →
  (its ++ place options p ts) `prefix_of` total →
  (∀ ld' s', At (its ++ place options p ts) ld' (tail_pos p (place options p ts)) s' → twp k ld' s' Q E) →
  twp (lead_loop dir options fuel (piece_of options <$> place options p ts) k) ld s Q E.
Proof.
  revert ts p its ld s. induction fuel as [|fuel IH]; intros ts p its ld s Hfuel Hv Ha Hits Hk; [lia|].
  destruct ts as [|t ts]; [simpl in *; apply Hk; by rewrite app_nil_r|].
  pose proof (at_offset _ _ _ _ Ha) as Hoff.
  destruct (first_run options p t ts Hv Hoff) as (ts1&ts2&run&->&Hrun&Hlaid&Hsame).
  set (it := item_at options p t) in *.
  assert (Hpl : place options p (t :: ts1 ++ ts2) = run ++ place options (tail_pos p run) ts2).
  { change (t :: ts1 ++ ts2) with ((t :: ts1) ++ ts2). by rewrite place_app, Hrun. }
  assert (Hne : run ≠ []) by (by rewrite <-Hrun).
  assert (Htail : ∀ p', tail_pos p' run = tail_pos p run).
  { intros p'. unfold tail_pos. by destruct (last run) eqn:El; [|apply last_None in El]. }
  rewrite Hpl in Hits, Hk. rewrite (app_assoc its) in Hits, Hk. rewrite tail_pos_app in Hk.
  assert (Hits' : (its ++ run) `prefix_of` total) by (by eapply prefix_app_l).
  (* the write of the run, with the open segment where the first block goes *)
  assert (Hwrite : ∀ ld' p' s', At its ld' p' s' → p'.1 = (it_sequence it, it_offset it) →
    twp (λ ld, at_disk (File_write_parts_at (op_file (ld_open ld)) (it_offset it) (pc_bytes <$> (piece_of options <$> run)))
      (λ _ ld, lead_loop dir options fuel (piece_of options <$> place options (tail_pos p run) ts2) k
        (mkLeading (mkOpen (op_sequence (ld_open ld)) (op_file (ld_open ld)) true)
           (default (ld_written ld) (pc_end <$> last (piece_of options <$> run)))
           (ld_durable ld) (ld_spares ld))) ld) ld' s' Q E).
  { intros ld' p' s' (l&g&Ha') Hp'. pose proof (twp_write_run l g run its ld' p' s') as Hw.
    rewrite Hp' in Hw. eapply Hw; [done..|]. clear Hw. intros s'' ld'' _ Ha''. rewrite (Htail p') in Ha''.
    apply Forall_cons in Hv as [_ [_ Hv2]%Forall_app]. cbn [length] in Hfuel. rewrite length_app in Hfuel.
    eapply IH; [lia|done|exact Ha''|done|done]. }
  cbn [place] in Hsame |- *. fold it in Hsame |- *. rewrite fmap_cons in Hsame |- *.
  cbn [lead_loop]. change (pc_sequence (piece_of options it)) with (it_sequence it). rewrite Hsame.
  apply (twp_if (λ ld, negb (it_sequence it =? op_sequence (ld_open ld)))); intros Hcond.
  - eapply twp_rotate; [exact Ha|by eapply prefix_app_l| | |].
    + rewrite Forall_forall in Hseq. apply Hseq. eapply elem_of_prefix; [|exact Hits'].
      rewrite <-Hrun. apply elem_of_app. right. by left.
    + apply negb_true_iff, Z.eqb_neq in Hcond. destruct Ha as (l&g&[]). rewrite at_sequence0 in Hcond.
      subst p it. unfold item_at in *. case_match; simpl in *; lia.
    + intros ld' s' Ha'. eapply Hwrite; [exact Ha'|]. simpl. f_equal.
      apply negb_true_iff, Z.eqb_neq in Hcond. destruct Ha as (l&g&[]). rewrite at_sequence0 in Hcond.
      subst p it. unfold item_at in *. case_match; [done|]. by destruct Hcond.
  - eapply Hwrite; [exact Ha|]. apply negb_false_iff, Z.eqb_eq in Hcond.
    destruct Ha as (l&g&[]). rewrite at_sequence0 in Hcond. subst p it. unfold item_at in *.
    case_match; simpl in *; [lia|done].
Qed.

(** [lead] as a whole: the blocks are on the disk, and synced when [reach] asks for it. *)
Lemma twp_lead ts p its ld s reach :
  Forall (valid options) ts → At its ld p s → (its ++ place options p ts) `prefix_of` total →
  (∀ ld' s' l g,
     AtSeg l g (its ++ place options p ts) ld' (tail_pos p (place options p ts)) s' →
     (reach = Durable → ld_durable ld' = Some (ld_written ld')) →
     (reach = Ordered → covered total (ld_written ld') (l ++ [g])) → Q ld' s') →
  twp (lead_loop dir options (S (length (piece_of options <$> place options p ts)))
         (piece_of options <$> place options p ts) (lead_end reach)) ld s Q E.
Proof.
  intros Hv Ha Hits HQ. eapply twp_lead_loop; [|done|done|done|].
  { rewrite length_fmap, <-(length_fmap it_txn), place_txns. lia. }
  set (its' := its ++ _) in *. set (p' := tail_pos _ _) in *.
  intros ld' s' (l&g&Hg). destruct reach; cbn [lead_end].
  - intros fs <-. split; [|done]. by eapply HQ.
  - eapply twp_sync_if_dirty; [done|exact Hg|done|]. intros g' s'' Hg' Hw _ fs <-. split; [|done].
    eapply HQ; [exact Hg'|done|]. intros _. destruct Hg'.
    rewrite at_written0. eapply covered_all; [apply at_flow0|done|done|done].
  - eapply twp_sync_if_dirty; [done|exact Hg|done|]. intros g' s'' Hg' Hw _ fs <-. split; [|done].
    eapply (HQ _ _ l g'); [|done|done]. destruct Hg'.
    split; try done; cbn [ld_open ld_written ld_durable op_sequence op_file op_dirty].
    + intros d' [= <-]. rewrite at_written0. eapply covered_all; [apply at_flow0|done|done|done].
    + intros d' [= <-]. by exists its'.
Qed.
End turn.
