(* ===== verification/LaneOpen.v ===== *)
(** Opening a lane: what [Lane_open] finds, and what it leaves on the disk. *)

From S2P Require Import Prelude Crc LogFormat LogBlock SimFs SimFsLaws Lane LaneNames LaneReplay.
From S2P Require Import LaneDisk LaneSteps LaneLead.
Local Open Scope Z_scope.

(** ** Filesystems with nothing to lose *)

Lemma crash_store crash fs : Fs_crash crash fs = Fs_crash crash (store fs).
Proof. done. Qed.

Lemma settled_crash_names fs crash : Settled fs → crash_names crash fs = i_names fs.
Proof. intros []. unfold crash_names. by rewrite settled_dir, settled_names. Qed.

Lemma settled_contents fs crash path : Settled fs → Fs_contents path (Fs_crash crash fs) = Fs_contents path fs.
Proof.
  intros Hs. rewrite crash_contents, settled_crash_names by done. unfold Fs_contents, Inner_file.
  destruct (i_names fs !! path) as [inode|] eqn:E; [|done]. bind_step. rewrite some_bind.
  destruct (i_files fs !! inode) as [f|] eqn:Ef; [|done]. simpl. unfold SimFile_visible.
  by rewrite (proj2 (settled_files _ Hs _ _ E) f Ef).
Qed.

(** A crash leaves a filesystem with nothing to lose, if inodes were handed out in order. *)
Lemma crash_settled fs crash :
  (∀ path inode, crash_names crash fs !! path = Some inode → inode < i_next_inode fs) →
  Settled (Fs_crash crash fs).
Proof.
  intros Hi. split; [done|done|]. intros path inode Hn. split; [by apply (Hi path)|].
  intros f Hf. unfold Fs_crash in Hf. cbn [i_files] in Hf. rewrite lookup_fmap in Hf.
  by apply fmap_Some in Hf as (f'&_&->).
Qed.

(** ** The directory *)

Section dir.
Context (dir : Path) (lane : Z).

(** What is in the directory is there only when the directory is. *)
Definition rooted (fs : Inner) : Prop :=
  ∀ path, path ∈ dom (i_names fs) ∪ i_dirs fs → path_parent path = Some dir → dir ∈ i_dirs fs.

(** The directories once the lane's is made. *)
Definition dirs_with (dirs : gset Path) : gset Path :=
  if bool_decide (dir ∈ dirs) then dirs else dirs ∪ list_to_set (prefixes dir).

Lemma dir_in_prefixes : dir ≠ [] → dir ∈ prefixes dir.
Proof.
  intros Hd. apply list_elem_of_fmap. exists (length dir - 1)%nat. destruct dir as [|x d] eqn:E; [done|].
  split; [|apply elem_of_seq; simpl; lia]. rewrite take_ge; [done|simpl; lia].
Qed.

Lemma dirs_with_dir dirs : dir ≠ [] → dir ∈ dirs_with dirs.
Proof.
  intros Hd. unfold dirs_with. case_bool_decide; [done|]. apply elem_of_union_r, elem_of_list_to_set.
  by apply dir_in_prefixes.
Qed.

Lemma prefixes_parent path : path ∈ prefixes dir → path_parent path ≠ Some dir.
Proof.
  intros (n&->&Hn)%list_elem_of_fmap Hp. apply elem_of_seq in Hn.
  assert (Hlen : length (take (S n) dir) = S n) by (rewrite length_take; lia).
  assert (Hlen' : length (removelast (take (S n) dir)) = n).
  { rewrite removelast_firstn_len, length_take. lia. }
  unfold path_parent in Hp. revert Hp Hlen Hlen'. generalize (take (S n) dir). intros path Hp Hlen Hlen'.
  destruct path; [done|]. apply (inj Some) in Hp. rewrite Hp in Hlen'. lia.
Qed.

Lemma listing_new fs :
  rooted fs → dir ∉ i_dirs fs → listing (i_names fs) (dirs_with (i_dirs fs)) dir = [].
Proof.
  intros Hr Hd. unfold listing, dirs_with. rewrite bool_decide_eq_false_2 by done.
  rewrite list_filter_none; [done|]. apply Forall_forall. intros path Hin%elem_of_elements Hp.
  apply elem_of_union in Hin as [Hin|[Hin|Hin]%elem_of_union].
  - destruct Hd. eapply Hr; [|exact Hp]. by apply elem_of_union_l.
  - destruct Hd. eapply Hr; [|exact Hp]. by apply elem_of_union_r.
  - apply elem_of_list_to_set in Hin. by apply prefixes_parent in Hin.
Qed.

(** ** The segments found *)

Lemma foldl_hex_nonneg l n :
  0 ≤ n → forallb is_ascii_hexdigit l = true → 0 ≤ foldl (λ n b, n * 16 + hex_value b) n l.
Proof.
  revert n. induction l as [|b l IH]; intros n Hn; [done|]. simpl. intros [Hb Hl]%andb_true_iff.
  apply IH; [|done]. unfold is_ascii_hexdigit, is_ascii_digit, hex_value in *. repeat case_match; lia.
Qed.

Lemma parse_segment_name_nonneg name l s : parse_segment_name name = Some (l, s) → 0 ≤ s.
Proof.
  unfold parse_segment_name. destruct name as [|b rest]; [done|].
  destruct (decide (b = 76)) as [->|Hb].
  2:{ intros Hp. exfalso. destruct b as [|b|b]; try done. do 7 (destruct b as [b|b|]; try done). }
  destruct (split_dash rest) as [[lane' sequence]|]; [|done]. bind_step.
  destruct (_ || _) eqn:E1; [done|]. destruct (negb (forallb is_ascii_digit lane') || _) eqn:E2; [done|].
  intros [= _ <-]. apply foldl_hex_nonneg; [done|].
  apply orb_false_iff in E2 as [_ E2]. by apply negb_false_iff in E2.
Qed.

(** The last sequence there is, none being as good as zero. *)
Definition last_sequence (found : list (Z * Path)) : Z :=
  match last found with Some (l, _) => l | None => 0 end.

Lemma found_nonneg names dirs s p : (s, p) ∈ found dir lane names dirs → 0 ≤ s.
Proof.
  unfold found. rewrite sort_stable_perm. intros (path&_&Hp)%list_elem_of_omap.
  destruct (last path) as [name|]; [|done]. cbn [mbind option_bind] in Hp.
  destruct (parse_segment_name name) as [[of_ s']|] eqn:Ep; [|done]. cbn [mbind option_bind] in Hp.
  destruct (of_ =? lane); [|done]. injection Hp as -> _. by eapply parse_segment_name_nonneg.
Qed.

Lemma last_sequence_bound names dirs :
  0 ≤ last_sequence (found dir lane names dirs)
  ∧ ∀ s p, (s, p) ∈ found dir lane names dirs → s ≤ last_sequence (found dir lane names dirs).
Proof.
  pose proof (found_nonneg names dirs) as Hn.
  pose proof (sort_stable_sorted by_sequence (segments_of lane (listing names dirs dir))) as Hs.
  fold (found dir lane names dirs) in Hs. revert Hs Hn. generalize (found dir lane names dirs). intros l Hs Hn.
  unfold last_sequence. destruct (last l) as [[q p]|] eqn:El.
  - apply last_Some in El as [l' ->]. apply StronglySorted_app in Hs as (_&_&Hs). split.
    + apply (Hn q p). apply elem_of_app. right. by left.
    + intros s p' [Hin|Hin]%elem_of_app.
      * apply (Hs _ (q, p)) in Hin; [done|by left].
      * apply list_elem_of_singleton in Hin as [= -> _]. done.
  - apply last_None in El as ->. split; [done|]. by intros s p ?%not_elem_of_nil.
Qed.
End dir.

(** ** Opening *)

Lemma spares_listed dir lane fs :
  dir ∈ i_dirs fs → spares dir lane fs = (Ok (spares_of lane (listing (i_names fs) (i_dirs fs) dir)), fs).
Proof.
  intros Hd. unfold spares, Fs_is_dir, io_get. cbv [mbind io_bind].
  rewrite bool_decide_eq_true_2 by done. cbn [negb]. unfold Fs_read_dir.
  by rewrite bool_decide_eq_true_2.
Qed.

Section open.
Context `{Machine} (dir : Path) (options : Options).
Notation lane := (o_lane options).
Notation database := (o_database options).
Notation size := (o_segment_bytes options).
Context (Hlane : 0 ≤ lane < 100) (Hdatabase : u64 database).
Context (Hsize : 2 * SEGMENT_HEADER ≤ size) (Halign : size `mod` 8 = 0).
Context (fs0 : Inner) (Hsettled : Settled fs0) (Hdir : dir ≠ []) (Hrooted : rooted dir fs0).
Context (Hspares : fst (spares dir lane fs0) = Ok []).
Notation dirs := (dirs_with dir (i_dirs fs0)).
Notation low := (last_sequence (found dir lane (i_names fs0) dirs)).
Notation Disk := (Disk dir options fs0 dirs).
Notation Making := (Making dir options fs0 dirs low).

(** What replay read before the lane was opened. *)
Lemma replay_before rep :
  fst (replay dir lane database (Fs_crash LosingUnsynced fs0)) = Ok rep →
  replay_files lane database (λ path, Fs_contents path fs0) (found dir lane (i_names fs0) dirs)
    (mkReplayed [] 0 0) = Some rep.
Proof.
  intros Hrep. unfold found. destruct (decide (dir ∈ i_dirs fs0)) as [Hin|Hout].
  - assert (Hok := replay_found dir lane database (Fs_crash LosingUnsynced fs0)
      ltac:(done) ltac:(done)). rewrite Hrep in Hok. cbn [ok_of i_names i_dirs Fs_crash] in Hok.
    rewrite settled_crash_names in Hok by done. unfold dirs_with. rewrite bool_decide_eq_true_2 by done.
    rewrite Hok. apply replay_files_ext. intros. by rewrite settled_contents.
  - rewrite listing_new by done. simpl. unfold replay, segments, Fs_is_dir, io_get in Hrep.
    cbv [mbind io_bind] in Hrep. cbn [i_dirs Fs_crash] in Hrep.
    rewrite bool_decide_eq_false_2 in Hrep by done. by injection Hrep as <-.
Qed.

Lemma disk_at_first s :
  i_names s = i_names fs0 → i_durable_names s = i_durable_names fs0 → i_dir_pending s = [] →
  i_dirs s = dirs → i_files s = i_files fs0 → i_next_inode s = i_next_inode fs0 →
  Disk [] [] s.
Proof.
  intros Hn Hd Hp Hdi Hf Hi. split; rewrite ?Hp, ?Hf, ?Hi; try done; try constructor.
  rewrite Hd. apply Hsettled.
Qed.

Lemma spares_of_none : spares_of lane (listing (i_names fs0) dirs dir) = [].
Proof.
  destruct (decide (dir ∈ i_dirs fs0)) as [Hin'|Hout]; [|by rewrite listing_new].
  unfold dirs_with. rewrite bool_decide_eq_true_2 by done.
  rewrite spares_listed in Hspares by done. by injection Hspares.
Qed.

Lemma spares_none s :
  i_names s = i_names fs0 → i_dirs s = dirs → ∀ E, wp (spares dir lane) s (λ l s', l = [] ∧ s' = s) E.
Proof.
  intros Hn Hd E. assert (Hin : dir ∈ i_dirs s) by (rewrite Hd; by apply dirs_with_dir).
  unfold spares. apply wp_bind, wp_is_dir. rewrite bool_decide_eq_true_2 by done. cbn [negb].
  apply wp_bind, wp_read_dir; [done|]. apply wp_ret. split; [|done]. rewrite Hn, Hd. apply spares_of_none.
Qed.

Context (E : Inner → Prop) (Q : Lane.State → Inner → Prop).
Context (HE : E (store fs0)) (HE' : ∀ s, Making [] s → E s).

(** The lane's state when it is opened, writing to segment [g]. *)
Definition opened (g : Seg) : Lane.State :=
  mkState (g_sequence g) SEGMENT_HEADER [] (Some (mkOpen (g_sequence g) (handle_of dir options g) false))
    0 0 0 0 false None [].

Context (HQ : ∀ g s, Flow dir options fs0 dirs low [] g s → g_sequence g = low + 1 → empty_seg g → Q (opened g) s).

(** What [Lane_open] does once the directory is there. *)
Lemma wp_open_in_dir s :
  Disk [] [] s → i_names s = i_names fs0 → u64 (low + 1) →
  wp (found ← segments dir lane;
      let sequence := match last found with Some (l, _) => l + 1 | None => 1 end in
      found ← spares dir lane;
      kept ← keep_spares options found [];
      file ← create_segment dir options sequence (last kept);
      mret (mkState sequence SEGMENT_HEADER [] (Some (mkOpen sequence file false)) 0 0 0 0 false None
              (removelast kept))) s Q E.
Proof.
  intros Hd Hn Hu. assert (Hds : i_dirs s = dirs) by apply Hd.
  assert (Hin : dir ∈ i_dirs s) by (rewrite Hds; by apply dirs_with_dir).
  apply wp_bind. unfold segments. apply wp_bind, wp_is_dir. rewrite bool_decide_eq_true_2 by done.
  cbn [negb]. apply wp_bind, wp_read_dir; [done|]. apply wp_ret.
  fold (found dir lane (i_names s) (i_dirs s)). rewrite Hn, Hds.
  assert (match last (found dir lane (i_names fs0) dirs) with Some (l, _) => l + 1 | None => 1 end = low + 1) as ->.
  { unfold last_sequence. by destruct (last _) as [[]|]. }
  apply wp_bind. eapply wp_mono; [by apply spares_none| |done]. intros found' s' [-> ->].
  cbn [keep_spares]. apply wp_bind, wp_ret. cbn [last removelast]. apply wp_bind.
  destruct (last_sequence_bound dir lane (i_names fs0) dirs) as [H0 Hlow].
  eapply (wp_create_segment dir options Hlane Hdatabase Hsize fs0 dirs low Hlow); [done|done|done|simpl; lia|done|].
  intros g s' Hd' Hs' Hr' He' Hrise. apply wp_ret.
  pose proof (HQ g s') as HQg. unfold opened in HQg. rewrite Hs' in HQg. apply HQg; [|done|done].
  split; [done|done|constructor|]. destruct He' as [-> ->]. by rewrite Hs'.
Qed.

Lemma wp_Lane_open : u64 (low + 1) → wp (Lane_open dir options) (store fs0) Q E.
Proof.
  intros Hu. unfold Lane_open. rewrite (proj2 (Z.ltb_ge _ _)) by lia. rewrite Halign. cbn [negb orb Z.eqb].
  apply wp_bind, wp_is_dir. cbn [i_dirs store]. case_bool_decide as Hin.
  - apply wp_bind, wp_ret. apply wp_open_in_dir; [|done|done]. destruct Hsettled.
    apply disk_at_first; try done. simpl. unfold dirs_with. by rewrite bool_decide_eq_true_2.
  - apply wp_bind, wp_bind, wp_create_dir_all; [|done]. destruct Hsettled.
    set (s1 := store _). assert (Hd1 : Disk [] [] s1).
    { apply disk_at_first; try done. simpl. unfold dirs_with. by rewrite bool_decide_eq_false_2. }
    assert (Hm : Making [] s1) by (exists []; split_and!; [done|done|constructor|constructor]).
    destruct (parent dir) as [|x above]; [by apply wp_ret, wp_open_in_dir|].
    apply wp_sync_dir; [|by apply HE']. apply wp_open_in_dir; [|done|done].
    apply disk_at_first; simpl; rewrite ?settled_dir; try done.
    unfold dirs_with. by rewrite bool_decide_eq_false_2.
Qed.
End open.
