(* ===== verification/LaneSafe.v ===== *)
(** A lane from its opening on: committers that queue blocks and leaders that take turns at the
    disk, in any order and with any operation failing, up to a crash.

    [step] is what can happen to a lane that is open; [Inv] is kept by every step, and says what
    the disk holds of the blocks queued so far. *)

From S2P Require Import Prelude Crc LogFormat LogBlock SimFs SimFsLaws Lane LaneNames LaneReplay.
From S2P Require Import LaneDisk LaneSteps LaneLead LaneOpen.
Local Open Scope Z_scope.

(** A block a committer queued: its transaction, the segment it goes to and the position
    [enqueue] answered, which its committer waits for. *)
Record Logged : Type := mkLogged { lg_txn : Txn; lg_sequence : Z; lg_end : Z }.

Record World : Type := mkWorld {
  w_state : Lane.State; w_turn : option Turn; w_log : list Logged; w_fs : Inner }.

Definition lg_committed (lane : Z) (e : Logged) : Committed :=
  Txn_committed lane (lg_sequence e) (lg_txn e).

Section steps.
Context `{Machine} (dir : Path) (options : Options).

(** A committer queues a block; the committer that finds nobody flushing takes the lead; the
    leader ends its turn; an operation to come is set to fail. *)
Inductive step : World → World → Prop :=
| step_enqueue t b end_ st st' turn log fs :
    Txn_ok t → Txn_block t = Ok b → enqueue options b st = Ok (end_, st') →
    step (mkWorld st turn log fs)
      (mkWorld st' turn (log ++ [mkLogged t (st_tail_sequence st') end_]) fs)
| step_begin reach st st' turn log fs :
    State_check st = Ok () → st_flushing st = false → begin_turn reach st = Ok (turn, st') →
    step (mkWorld st None log fs) (mkWorld st' (Some turn) log fs)
| step_end turn st st' log fs fs' :
    end_turn dir options turn st fs = (st', fs') →
    step (mkWorld st (Some turn) log fs) (mkWorld st' None log fs')
| step_fail index st turn log fs :
    step (mkWorld st turn log fs) (mkWorld st turn log (Fs_fail_at index fs)).
End steps.

(** ** Positions go up *)

Section positions.
Context `{Machine} (options : Options).
Notation size := (o_segment_bytes options).

Lemma item_at_sequence p t : p.1.1 ≤ it_sequence (item_at options p t).
Proof. destruct p as [[s o] e]. unfold item_at. case_match; simpl; lia. Qed.

Lemma tail_sequence_mono p ts : p.1.1 ≤ (tail_pos p (place options p ts)).1.1.
Proof.
  revert p. induction ts as [|t ts IH]; intros p; [done|]. cbn [place]. rewrite tail_pos_cons.
  etransitivity; [apply (item_at_sequence p t)|]. apply (IH (pos_after _)).
Qed.

Lemma place_sequences p ts :
  Forall (λ it, p.1.1 ≤ it_sequence it ≤ (tail_pos p (place options p ts)).1.1) (place options p ts).
Proof.
  revert p. induction ts as [|t ts IH]; intros p; [constructor|]. cbn [place]. rewrite tail_pos_cons.
  constructor.
  - split; [apply item_at_sequence|]. apply (tail_sequence_mono (pos_after _)).
  - eapply Forall_impl; [apply IH|]. simpl. pose proof (item_at_sequence p t). lia.
Qed.

End positions.

(** ** The invariant *)

Section invariant.
Context `{Machine} (dir : Path) (options : Options).
Notation lane := (o_lane options).
Notation database := (o_database options).
Notation size := (o_segment_bytes options).
Context (Hlane : 0 ≤ lane < 100) (Hdatabase : u64 database) (Hsize : 2 * SEGMENT_HEADER ≤ size).
Context (fs0 : Inner) (Hsettled : Settled fs0) (dirs : gset Path) (low : Z).
Context (Hdir : dir ∈ dirs) (Hlow0 : 0 ≤ low).
Context (Hlow : ∀ s p, (s, p) ∈ found dir lane (i_names fs0) dirs → s ≤ low).
Notation Safe := (Safe dir options fs0 dirs low).
Notation At := (At dir options fs0 dirs low).
Notation place := (place options).
Notation piece_of := (piece_of options).
Notation step := (step dir options).

(** Where the first block goes. *)
Definition start : Pos := (low + 1, SEGMENT_HEADER, 0).

Definition logged (it : Item) : Logged := mkLogged (it_txn it) (it_sequence it) (it_end it).

(** A lane that takes commits: the blocks done, those with a leader, and those queued. *)
Record Live (w : World) (ts : list Txn) (d : Z) (past flight queued : list Txn) (open : Open) : Prop := mkLive {
  lv_ts : ts = past ++ flight ++ queued;
  lv_failed : st_failed (w_state w) = None;
  lv_spares : st_spares (w_state w) = [];
  lv_tail : (st_tail_sequence (w_state w), st_tail_offset (w_state w), st_reserved (w_state w)) =
              tail_pos start (place start ts);
  lv_pending : st_pending (w_state w) =
                 piece_of <$> place (tail_pos start (place start (past ++ flight))) queued;
  lv_at : At (place start ts) d (place start past) (mkLeading open (st_written (w_state w)) None [])
            (tail_pos start (place start past)) (store (w_fs w));
  lv_turn : match w_turn w with
            | None => st_flushing (w_state w) = false ∧ flight = [] ∧ st_open (w_state w) = Some open
            | Some turn => tn_open turn = open ∧ tn_written turn = st_written (w_state w)
                           ∧ tn_pieces turn = piece_of <$> place (tail_pos start (place start past)) flight
            end }.

(** How far the lane has said blocks are synced. *)
Definition told (w : World) : Z := reached (w_state w) Ordered.

Definition Inv (w : World) : Prop :=
  ∃ ts, w_log w = logged <$> place start ts ∧ Forall (valid options) ts
    ∧ (∃ pre, pre `prefix_of` place start ts ∧ told w = end_of pre)
    ∧ ((is_Some (st_failed (w_state w)) ∧ w_turn w = None ∧ Safe (place start ts) (told w) (store (w_fs w)))
       ∨ ∃ past flight queued open, Live w ts (told w) past flight queued open).

Lemma total_by_end ts its rest it :
  place start ts = its ++ rest → it ∈ place start ts → it_end it ≤ end_of its → it ∈ its.
Proof. intros Hpl Hin. rewrite Hpl in Hin. eapply place_by_end; [|exact Hpl|exact Hin]. done. Qed.

(** The blocks queued later end past what is known to be synced. *)
Lemma at_grow total total' d its ld p s :
  (∀ it, it ∈ total' → it ∈ total ∨ d < it_end it) → ld_durable ld = None →
  At total d its ld p s → At total' d its ld p s.
Proof.
  intros Ht Hn (l&g&[]). exists l, g. split; try done.
  - intros it Hin Hend. destruct (Ht it Hin) as [|]; [by apply at_covered|lia].
  - intros d' Hd'. congruence.
Qed.

Lemma inv_enqueue t b end_ st st' turn log fs :
  Txn_ok t → Txn_block t = Ok b → enqueue options b st = Ok (end_, st') →
  Inv (mkWorld st turn log fs) →
  Inv (mkWorld st' turn (log ++ [mkLogged t (st_tail_sequence st') end_]) fs).
Proof.
  intros Ht Hb He (ts&Hlog&Hv&(pre&Hpre&Hd)&Hs).
  rewrite Txn_block_of in Hb by apply Ht. injection Hb as <-. unfold enqueue in He.
  destruct (Z.gtb_spec (Block_len (block_of t)) (size - SEGMENT_HEADER)) as [|Hfit]; [done|].
  destruct Hs as [(Hf&_)|(past&flight&queued&open&[])].
  { unfold State_check in He. simpl in Hf. by destruct (st_failed st). }
  simpl in *. unfold State_check in He. rewrite lv_failed0 in He. cbn [mbind result_bind] in He.
  set (p := tail_pos start (place start ts)) in *.
  assert (Hit : item_at options p t = mkItem (if st_tail_offset st + Block_len (block_of t) >? size then st_tail_sequence st + 1 else st_tail_sequence st)
    (if st_tail_offset st + Block_len (block_of t) >? size then SEGMENT_HEADER else st_tail_offset st)
    (st_reserved st + Block_len (block_of t)) t).
  { rewrite <-lv_tail0. unfold item_at. by destruct (_ >? _). }
  rewrite Block_encode_layout in He by done. injection He as <- <-. simpl.
  set (it := item_at options p t) in *.
  assert (Hplace : place start (ts ++ [t]) = place start ts ++ [it]) by (by rewrite place_app).
  exists (ts ++ [t]). rewrite Hplace, fmap_app, Hlog. split_and!.
  - f_equal. simpl. unfold logged. by rewrite Hit.
  - apply Forall_app. split; [done|]. constructor; [by split|constructor].
  - exists pre. split; [by apply prefix_app_r|done].
  - right. exists past, flight, (queued ++ [t]), open. split; try done; simpl.
    + rewrite lv_ts0. by rewrite <-!app_assoc.
    + rewrite Hplace, tail_pos_app. cbn [tail_pos]. unfold tail_pos. simpl. unfold pos_after.
      by rewrite Hit.
    + rewrite place_app, fmap_app, lv_pending0. f_equal.
      rewrite <-tail_pos_app, <-place_app, <-app_assoc, <-lv_ts0. fold p. simpl. fold it. rewrite Hit. done.
    + rewrite Hplace. eapply at_grow; [|done|exact lv_at0].
      intros it' [?|Hin]%elem_of_app; [by left|]. apply list_elem_of_singleton in Hin as ->. right.
      rewrite Hit. simpl. change (told _) with (told (mkWorld st turn log fs)). rewrite Hd.
      pose proof (end_of_prefix options start ts pre eq_refl Hpre) as Hle. fold p in Hle.
      rewrite <-lv_tail0 in Hle. simpl in Hle. pose proof (Block_len_min options t). lia.
Qed.

Lemma inv_begin reach st st' turn log fs :
  State_check st = Ok () → begin_turn reach st = Ok (turn, st') →
  Inv (mkWorld st None log fs) → Inv (mkWorld st' (Some turn) log fs).
Proof.
  intros Hc Hb (ts&Hlog&Hv&Hpre&[(Hf&_)|(past&flight&queued&open&[])]).
  { simpl in Hf. unfold State_check in Hc. by destruct (st_failed st). }
  simpl in *. destruct lv_turn0 as (Hfl&->&Ho). unfold begin_turn in Hb. rewrite Ho in Hb.
  injection Hb as <- <-. exists ts. split_and!; [done..|]. right. exists past, queued, [], open.
  split; try done; simpl.
  - by rewrite app_nil_r.
  - split_and!; [done..|]. by rewrite app_nil_r in lv_pending0.
Qed.

Lemma total_sequences ts :
  u64 (tail_pos start (place start ts)).1.1 → Forall (λ it, u64 (it_sequence it)) (place start ts).
Proof.
  intros Hu. eapply Forall_impl; [apply place_sequences|]. simpl. unfold fits in *. lia.
Qed.

(** What a leader's turn leaves. *)
Lemma lead_outcome ts d past flight queued turn spares fs :
  u64 (tail_pos start (place start ts)).1.1 → ts = past ++ flight ++ queued → Forall (valid options) ts →
  At (place start ts) d (place start past) (mkLeading (tn_open turn) (tn_written turn) None [])
    (tail_pos start (place start past)) (store fs) →
  tn_pieces turn = piece_of <$> place (tail_pos start (place start past)) flight → spares = [] →
  match lead dir options turn spares fs with
  | (Ok led, ld, fs') =>
      (∃ l g, AtSeg dir options fs0 dirs low (place start ts) d l g (place start (past ++ flight)) ld
                (tail_pos start (place start (past ++ flight))) (store fs')
         ∧ (tn_reach turn = Durable → ld_durable ld = Some (ld_written ld))
         ∧ (tn_reach turn = Ordered → covered (place start ts) (ld_written ld) (l ++ [g])))
      ∧ led = mkLed (ld_written ld) (ld_durable ld)
                match tn_reach turn with Ordered => Some (ld_written ld) | _ => None end
  | (Err _, _, fs') => Safe (place start ts) d (store fs') ∧ is_Some (i_fail_at fs)
  end.
Proof.
  intros Hu -> Hv Hat Hp ->. unfold lead. rewrite Hp.
  set (total := place start (past ++ flight ++ queued)) in *.
  assert (Hpl : place start past ++ place (tail_pos start (place start past)) flight = place start (past ++ flight)).
  { by rewrite place_app. }
  pose proof (twp_lead dir options Hlane Hdatabase Hsize fs0 Hsettled dirs low Hdir Hlow total d (Safe total d)
    (λ s H, H) (total_by_end _) (total_sequences _ Hu)
    (λ ld s, ∃ l g, AtSeg dir options fs0 dirs low total d l g (place start (past ++ flight)) ld
       (tail_pos start (place start (past ++ flight))) s
       ∧ (tn_reach turn = Durable → ld_durable ld = Some (ld_written ld))
       ∧ (tn_reach turn = Ordered → covered total (ld_written ld) (l ++ [g])))
    flight _ _ _ _ (tn_reach turn) ltac:(by apply Forall_app in Hv as [_ [? _]%Forall_app]) Hat) as Hlead.
  rewrite Hpl, <-tail_pos_app, Hpl in Hlead.
  specialize (Hlead ltac:(subst total; rewrite app_assoc, (place_app options start (past ++ flight)); by apply prefix_app_r)).
  specialize (Hlead ltac:(intros ld' s' l g Ha Hd Ho; exists l, g; by split_and!) fs eq_refl).
  destruct (lead_loop _ _ _ _ _ _ _) as [[[[]|e] ld] fs']; [|done]. by destruct Hlead as [? _].
Qed.

Lemma inv_end turn st st' log fs fs' :
  end_turn dir options turn st fs = (st', fs') → u64 (st_tail_sequence st') →
  Inv (mkWorld st (Some turn) log fs) → Inv (mkWorld st' None log fs').
Proof.
  intros He Hu (ts&Hlog&Hv&(pre&Hpre&Hd)&[(_&?&_)|(past&flight&queued&open&[])]); [done|].
  simpl in *. destruct lv_turn0 as (<-&Hw&Hp).
  assert (Hu' : u64 (tail_pos start (place start ts)).1.1).
  { rewrite <-lv_tail0. simpl. unfold end_turn in He. destruct (lead _ _ _ _ _) as [[[led|e] ld] fs''];
      by injection He as <- _. }
  rewrite <-Hw in lv_at0.
  pose proof (lead_outcome ts _ past flight queued turn (st_spares st) fs Hu' lv_ts0 Hv lv_at0 Hp lv_spares0)
    as Hout. unfold end_turn in He.
  destruct (lead dir options turn (st_spares st) fs) as [[[led|e] ld] fs''] eqn:El;
    injection He as <- <-; exists ts; (split; [done|]); (split; [done|]).
  2:{ split; [by exists pre|]. left. split_and!; [done..|]. apply Hout. }
  destruct Hout as [(l&g&Ha&Hdur&Hord) ->]. cbn [led_written led_durable led_ordered].
  destruct Ha. rewrite at_written in *.
  assert (Hits : place start (past ++ flight) `prefix_of` place start ts).
  { rewrite lv_ts0, app_assoc, (place_app options start (past ++ flight)). by apply prefix_app_r. }
  assert (Hwritten : Z.max (st_written st) (end_of (place start (past ++ flight))) = end_of (place start (past ++ flight))).
  { apply Z.max_r. destruct lv_at0 as (l0&g0&[]). rewrite <-Hw. simpl in *. rewrite at_written0.
    rewrite (end_of_tail options start (past ++ flight)) by done. apply end_of_prefix; [done|].
    rewrite place_app. by apply prefix_app_r. }
  (* each of the marks ends a run of the first blocks, and what it covers is synced *)
  set (mark := λ x, (∃ pre, pre `prefix_of` place start ts ∧ x = end_of pre) ∧ covered (place start ts) x (l ++ [g])).
  assert (Hmark0 : mark (told (mkWorld st (Some turn) log fs))) by (split; [by exists pre|done]).
  assert (Hmax : ∀ x y, mark x → mark y → mark (Z.max x y)) by (intros x y ??; by destruct (Z.max_spec x y) as [[_ ->]|[_ ->]]).
  assert (Hmark1 : ∀ x, ld_durable ld = Some x → mark x).
  { intros x Hx. split; [|by apply at_durable]. destruct (at_ends x Hx) as (pre'&Hpre'&->).
    exists pre'. split; [by etransitivity|done]. }
  assert (Hmark2 : tn_reach turn = Ordered → mark (end_of (place start (past ++ flight)))).
  { intros Hr. split; [by eexists|by apply Hord]. }
  assert (Hnew : mark (Z.max
    (match (match tn_reach turn with Ordered => Some (end_of (place start (past ++ flight))) | _ => None end) with
     | Some x => Z.max (st_ordered st) x | None => st_ordered st end)
    (match ld_durable ld with Some x => Z.max (st_durable st) x | None => st_durable st end))).
  { unfold told in Hmark0. simpl in Hmark0. set (e := end_of _) in *.
    assert (Hd' : ∀ o d, mark (Z.max o d) →
      mark (Z.max o match ld_durable ld with Some x => Z.max d x | None => d end)).
    { intros o d' Hm. destruct (ld_durable ld) as [x|]; [|done]. rewrite Z.max_assoc. auto. }
    apply Hd'. destruct (tn_reach turn); [done| |done].
    replace (Z.max (Z.max _ e) _) with (Z.max (Z.max (st_ordered st) (st_durable st)) e) by lia. auto. }
  destruct Hnew as [Hn1 Hn2]. split; [exact Hn1|]. right. exists (past ++ flight), [], queued, (ld_open ld).
  split; try done; simpl.
  - by rewrite lv_ts0, <-!app_assoc.
  - by rewrite app_nil_r.
  - rewrite Hwritten. exists l, g. by split.
Qed.

Lemma inv_fail index st turn log fs :
  Inv (mkWorld st turn log fs) → Inv (mkWorld st turn log (Fs_fail_at index fs)).
Proof.
  intros (ts&?&?&?&[Hf|(past&flight&queued&open&[])]); exists ts;
    (split; [done|]); (split; [done|]); (split; [done|]); [by left|].
  right. exists past, flight, queued, open. by split.
Qed.

Lemma inv_step w w' : step w w' → u64 (st_tail_sequence (w_state w')) → Inv w → Inv w'.
Proof.
  intros [] Hu HI; simpl in *; [by eapply inv_enqueue|by eapply inv_begin|by eapply inv_end|by apply inv_fail].
Qed.

Lemma step_tail w w' : step w w' → st_tail_sequence (w_state w) ≤ st_tail_sequence (w_state w').
Proof.
  intros [????????? _ He|??????? _ Hb|?????? He|]; simpl; [..|done].
  - unfold enqueue in He. destruct (_ >? _); [done|]. destruct (State_check _); [|done].
    cbn [mbind result_bind] in He. destruct (Block_encode _ _ _ _); [|done].
    injection He as <- <-. simpl. destruct (_ >? _); lia.
  - unfold begin_turn in Hb. destruct (st_open _); [|done]. by injection Hb as <- <-.
  - unfold end_turn in He. destruct (lead _ _ _ _ _) as [[[led|e] ld] fs'']; by injection He as <- _.
Qed.

Lemma steps_tail w w' : rtc step w w' → st_tail_sequence (w_state w) ≤ st_tail_sequence (w_state w').
Proof. induction 1 as [|??? Hs _ IH]; [done|]. apply step_tail in Hs. lia. Qed.

Lemma inv_steps w w' : rtc step w w' → 0 ≤ st_tail_sequence (w_state w) →
  u64 (st_tail_sequence (w_state w')) → Inv w → Inv w'.
Proof.
  intros Hr. induction Hr as [|w w1 w' Hs Hr IH]; intros H0 Hu HI; [done|].
  pose proof (step_tail _ _ Hs). apply IH; [lia|done|]. eapply inv_step; [done| |done].
  apply steps_tail in Hr. unfold fits in *. lia.
Qed.

(** ** What a crash finds *)

Lemma inv_safe w : Inv w → u64 (st_tail_sequence (w_state w)) →
  ∃ ts, w_log w = logged <$> place start ts ∧ Safe (place start ts) (told w) (store (w_fs w)).
Proof.
  intros (ts&Hlog&_&_&[(_&_&Hs)|(past&flight&queued&open&[])]) Hu; exists ts; (split; [done|]); [done|].
  destruct lv_at0 as (l&g&[]).
  eapply (flow_E dir options Hlane Hdatabase fs0 dirs low _ _ _ (λ s H, H)); [done| |done].
  rewrite at_items, lv_ts0, (place_app options start past). by apply prefix_app_r.
Qed.

Lemma safe_replay total d fs crash rep0 :
  Safe total d (store fs) → untorn crash →
  replay_files lane database (λ p, Fs_contents p fs0) (found dir lane (i_names fs0) dirs)
    (mkReplayed [] 0 0) = Some rep0 →
  ∃ rep its, fst (replay dir lane database (Fs_crash crash fs)) = Ok rep
    ∧ rp_blocks rep = rp_blocks rep0 ++ (item_committed options <$> its)
    ∧ its `prefix_of` total ∧ ∀ it, it ∈ total → it_end it ≤ d → it ∈ its.
Proof.
  intros (segs&mk&Hdisk&Hr&Hh&Ht&He&Ha&Hc) Hu Hrep. rewrite crash_store.
  destruct (crash_replay dir options Hlane fs0 Hsettled dirs low Hdir Hlow segs mk (store fs) crash rep0)
    as (rep&its&Hok&Hb&Hs&Hits); [done..|]. exists rep, its. split_and!; [done|done|by etransitivity|].
  intros it Hin Hend. eapply elem_of_prefix; [by apply (Hc it)|done].
Qed.

(** Positions of the log, for blocks whose ends tell them apart. *)
Lemma prefix_index ts its d :
  its `prefix_of` place start ts → (∀ it, it ∈ place start ts → it_end it ≤ d → it ∈ its) →
  its = take (length its) (place start ts)
  ∧ ∀ i it, place start ts !! i = Some it → it_end it ≤ d → (i < length its)%nat.
Proof.
  intros [rest Hpl] Hc. split; [by rewrite Hpl, take_app_length|]. intros i it Hi Hend.
  destruct (decide (i < length its)%nat) as [|Hge]; [done|]. exfalso.
  assert (Hin : it ∈ its) by (apply Hc; [by eapply list_elem_of_lookup_2|done]).
  apply place_prefix in Hpl as (ts1&ts2&->&->&Hrest).
  rewrite place_app in Hi. rewrite lookup_app_r in Hi by lia.
  pose proof (place_ends options (tail_pos start (place start ts1)) ts2) as He.
  rewrite Forall_lookup in He. specialize (He _ _ Hi). simpl in He.
  apply list_elem_of_lookup in Hin as [j Hj]. apply list_elem_of_split_length in Hj as (l1&l2&Hpl&_).
  assert (Hle : it_end it ≤ (tail_pos start (place start ts1)).2); [|lia].
  transitivity (end_of (l1 ++ [it])); [unfold end_of; by rewrite last_snoc|].
  apply end_of_prefix; [done|]. rewrite Hpl. exists l2. by rewrite <-app_assoc.
Qed.

(** ** A commit returns *)

(** A turn of a lane no failure is set for gets as far as its leader asked. *)
Lemma turn_reaches reach st log fs :
  Inv (mkWorld st None log fs) → st_failed st = None → i_fail_at fs = None →
  u64 (st_tail_sequence st) →
  ∃ turn st1 st2 fs2, begin_turn reach st = Ok (turn, st1) ∧ st_flushing st = false
    ∧ end_turn dir options turn st1 fs = (st2, fs2)
    ∧ st_failed st2 = None ∧ st_reserved st ≤ reached st2 reach.
Proof.
  intros HI Hf Hfail Hu. pose proof HI as (ts&_&_&_&[([? Hs]&_)|(past&flight&queued&open&[])]).
  { simpl in Hs. congruence. }
  simpl in *. destruct lv_turn0 as (Hfl&->&Ho).
  destruct (begin_turn reach st) as [[turn st1]|e] eqn:Hb.
  2:{ unfold begin_turn in Hb. by rewrite Ho in Hb. }
  assert (Hc : State_check st = Ok ()) by (unfold State_check; by rewrite Hf).
  pose proof (inv_begin reach st st1 turn log fs Hc Hb HI) as HI1.
  exists turn, st1. destruct (end_turn dir options turn st1 fs) as [st2 fs2] eqn:He. exists st2, fs2.
  destruct HI1 as (ts'&_&Hv&_&[([? Hs]&_)|(past'&flight'&queued'&open'&[])]).
  { unfold begin_turn in Hb. rewrite Ho in Hb. injection Hb as <- <-. simpl in *. congruence. }
  simpl in *. destruct lv_turn0 as (<-&Hw&Hp). rewrite <-Hw in lv_at1.
  assert (Hst : tn_reach turn = reach ∧ st_tail_sequence st1 = st_tail_sequence st ∧ st_reserved st1 = st_reserved st
    ∧ st_pending st1 = []) by (unfold begin_turn in Hb; rewrite Ho in Hb; by injection Hb as <- <-).
  destruct Hst as (Hr&Ht&Hres&Hnil). rewrite Hnil in lv_pending1. symmetry in lv_pending1.
  apply fmap_nil_inv in lv_pending1. assert (queued' = []) as ->.
  { by rewrite <-(place_txns options (tail_pos start (place start (past' ++ flight'))) queued'), lv_pending1. }
  rewrite app_nil_r in lv_ts1.
  assert (Hu' : u64 (tail_pos start (place start ts')).1.1) by (rewrite <-lv_tail1; simpl; congruence).
  pose proof (lead_outcome ts' _ past' flight' [] turn (st_spares st1) fs Hu' ltac:(by rewrite app_nil_r) Hv lv_at1 Hp lv_spares1) as Hout.
  unfold end_turn in He.
  destruct (lead dir options turn (st_spares st1) fs) as [[[led|e] ld] fs''].
  2:{ destruct Hout as [_ [? ?]]. congruence. }
  injection He as <- <-. destruct Hout as [(l&g&Ha&Hdur&_) ->]. cbn [led_written led_durable led_ordered].
  split_and!; [done|done|done|done|]. rewrite <-Hres. destruct Ha. rewrite at_written in *.
  rewrite <-lv_ts1 in *.
  assert (st_reserved st1 = end_of (place start ts')) as ->.
  { rewrite end_of_tail by done. by rewrite <-lv_tail1. }
  rewrite Hr in *. destruct reach; cbn [reached st_written st_ordered st_durable]; [lia|lia|].
  rewrite Hdur by done. lia.
Qed.

Lemma wait_returns reach st log fs end_ :
  Inv (mkWorld st None log fs) → st_failed st = None → i_fail_at fs = None →
  u64 (st_tail_sequence st) → end_ ≤ st_reserved st →
  ∃ st' fs', wait dir options 2 end_ reach st fs = Some (Ok end_, st', fs')
    ∧ end_ ≤ reached st' reach ∧ rtc step (mkWorld st None log fs) (mkWorld st' None log fs').
Proof.
  intros HI Hf Hfail Hu Hend. assert (Hc : State_check st = Ok ()) by (unfold State_check; by rewrite Hf).
  cbn [wait]. rewrite Hc. destruct (Z.geb_spec (reached st reach) end_) as [Hge|Hlt].
  { by exists st, fs. }
  destruct (turn_reaches reach st log fs HI Hf Hfail Hu) as (turn&st1&st2&fs2&Hb&Hfl&He&Hf2&Hr).
  rewrite Hfl, Hb, He. assert (State_check st2 = Ok ()) as -> by (unfold State_check; by rewrite Hf2).
  exists st2, fs2. destruct (Z.geb_spec (reached st2 reach) end_); [|lia]. split_and!; [done|done|].
  eapply rtc_l; [by apply (step_begin _ _ reach)|]. apply rtc_once. by apply step_end.
Qed.
End invariant.
