(* ===== verification/LaneTheorems.v ===== *)
(** What a lane promises: a crash loses no block its committer was told is synced and leaves none
    out of order, opening a lane changes nothing replay reads, and a commit returns. *)

From S2P Require Import Prelude Crc LogFormat LogBlock SimFs SimFsLaws Lane LaneNames LaneReplay.
From S2P Require Import LaneDisk LaneSteps LaneLead LaneOpen LaneSafe.
Local Open Scope Z_scope.

(** ** The hypotheses *)

(** A lane with a name of two digits, of a database with a 64-bit id. *)
Definition options_ok (options : Options) : Prop :=
  0 ≤ o_lane options < 100 ∧ u64 (o_database options).

(** A filesystem a lane is opened on: nothing on it is unsynced, what is in the lane's directory is
    in a directory, and no spare of the lane waits to be recycled. *)
Definition openable (dir : Path) (lane : Z) (fs : Inner) : Prop :=
  Settled fs ∧ dir ≠ [] ∧ rooted dir fs ∧ fst (spares dir lane fs) = Ok [].

Lemma io_bind_ok {A B} (c : io A) (k : A → io B) fs b fs' :
  (c ≫= k) fs = (Ok b, fs') → ∃ a fs1, c fs = (Ok a, fs1) ∧ k a fs1 = (Ok b, fs').
Proof. cbv [mbind io_bind]. destruct (c fs) as [[a|e] fs1]; [by eauto|done]. Qed.

Section theorems.
Context `{Machine} (dir : Path) (options : Options).
Notation lane := (o_lane options).
Notation database := (o_database options).
Notation size := (o_segment_bytes options).

Section opened.
Context (Hoptions : options_ok options) (fs0 : Inner) (Hfs : openable dir lane fs0).
Notation dirs := (dirs_with dir (i_dirs fs0)).
Notation low := (last_sequence (found dir lane (i_names fs0) dirs)).

Lemma dir_made (is_dir : bool) :
  is_dir = bool_decide (dir ∈ i_dirs fs0) →
  wp (if is_dir then mret () else
      _ ← Fs_create_dir_all dir;
      match parent dir with [] => mret () | above => Fs_sync_dir above end)
    (store fs0) (λ _ s, i_names s = i_names fs0 ∧ i_dirs s = dirs) (λ _, True).
Proof.
  intros ->. unfold dirs_with. case_bool_decide; [by apply wp_ret|].
  apply wp_bind, wp_create_dir_all; [|done]. destruct (parent dir); [by apply wp_ret|].
  by apply wp_sync_dir.
Qed.

(** A lane that opened writes to the segment after the last. *)
Lemma open_sequence st fs1 :
  Lane_open dir options fs0 = (Ok st, fs1) →
  2 * SEGMENT_HEADER ≤ size ∧ size `mod` 8 = 0 ∧ st_tail_sequence st = low + 1.
Proof.
  destruct Hfs as (_&Hne&_&_). unfold Lane_open.
  destruct (Z.ltb_spec size (2 * SEGMENT_HEADER)) as [|Hs]; [done|].
  destruct (Z.eqb_spec (size `mod` 8) 0) as [Ha|]; [|done]. cbn [negb orb]. intros Ho. split_and!; [done..|].
  apply io_bind_ok in Ho as (is_dir&fs2&Hd&Ho). injection Hd as <- <-.
  apply io_bind_ok in Ho as ([]&fs3&Hm&Ho). pose proof (dir_made _ eq_refl fs0 eq_refl) as Hn.
  rewrite Hm in Hn. destruct Hn as [[Hn Hdi] _]. change (i_names fs3 = i_names fs0) in Hn.
  change (i_dirs fs3 = dirs) in Hdi. apply io_bind_ok in Ho as (found'&fs4&Hf&Ho).
  rewrite segments_found in Hf by (rewrite Hdi; by apply dirs_with_dir). injection Hf as <- <-.
  apply io_bind_ok in Ho as (?&?&_&Ho). apply io_bind_ok in Ho as (?&?&_&Ho).
  apply io_bind_ok in Ho as (?&?&_&Ho). injection Ho as <- _. cbn [st_tail_sequence].
  rewrite Hn, Hdi. unfold last_sequence. by destruct (last _) as [[]|].
Qed.

Lemma open_inv st fs1 :
  Lane_open dir options fs0 = (Ok st, fs1) → u64 (low + 1) →
  Inv dir options fs0 dirs low (mkWorld st None [] fs1).
Proof.
  intros Ho Hu. destruct (open_sequence _ _ Ho) as (Hs&Ha&_).
  destruct Hoptions as [Hl Hdb]. destruct Hfs as (Hset&Hne&Hroot&Hsp).
  pose proof (wp_Lane_open dir options Hl Hdb Hs Ha fs0 Hset Hne Hroot Hsp (λ _, True)
    (λ st s, ∃ g, st = opened dir options g ∧ Flow dir options fs0 dirs low [] g s
       ∧ g_sequence g = low + 1 ∧ empty_seg g) I (λ _ _, I)
    ltac:(intros g s ???; by exists g) Hu fs0 eq_refl) as Hw.
  rewrite Ho in Hw. destruct Hw as [(g&->&Hf&Hg&He1&He2) _].
  exists []. split_and!; [done|constructor|by exists []|]. right.
  exists [], [], [], (mkOpen (g_sequence g) (handle_of dir options g) false).
  split; try done; simpl.
  - by rewrite Hg.
  - exists [], g. split; try done.
    + unfold all_items. simpl. by rewrite He1, He2.
    + unfold tail_pos, start, seg_end. simpl. by rewrite He1, He2, Hg.
    + by intros it ?%not_elem_of_nil.
Qed.

Lemma steps_from_open st fs1 w :
  Lane_open dir options fs0 = (Ok st, fs1) → rtc (step dir options) (mkWorld st None [] fs1) w →
  u64 (st_tail_sequence (w_state w)) →
  2 * SEGMENT_HEADER ≤ size ∧ Inv dir options fs0 dirs low w.
Proof.
  intros Ho Hr Hu. destruct (open_sequence _ _ Ho) as (Hs&Ha&Ht). split; [done|].
  destruct Hoptions as [Hl Hdb]. destruct Hfs as (Hset&Hne&Hroot&Hsp).
  destruct (last_sequence_bound dir lane (i_names fs0) dirs) as [H0 Hlow].
  pose proof (steps_tail _ _ _ _ Hr) as Hle. simpl in Hle.
  eapply (inv_steps dir options Hl Hdb Hs fs0 Hset dirs low (dirs_with_dir _ _ Hne) H0 Hlow);
    [exact Hr|simpl; lia|done|]. apply open_inv; [done|]. unfold fits in *. lia.
Qed.
End opened.

(** ** Crashes *)

(** The blocks of the log up to some point, every one the lane said is synced among them. *)
Lemma survive fs0 rep0 st fs1 w crash :
  options_ok options → openable dir lane fs0 →
  fst (replay dir lane database (Fs_crash LosingUnsynced fs0)) = Ok rep0 →
  Lane_open dir options fs0 = (Ok st, fs1) → rtc (step dir options) (mkWorld st None [] fs1) w →
  u64 (st_tail_sequence (w_state w)) → untorn crash →
  ∃ rep n, fst (replay dir lane database (Fs_crash crash (w_fs w))) = Ok rep
    ∧ rp_blocks rep = rp_blocks rep0 ++ (lg_committed lane <$> take n (w_log w))
    ∧ ∀ i e, w_log w !! i = Some e → lg_end e ≤ reached (w_state w) Ordered → (i < n)%nat.
Proof.
  intros Hopt Hfs Hrep Ho Hr Hu Hc. destruct (steps_from_open Hopt fs0 Hfs _ _ _ Ho Hr Hu) as [Hs HI].
  destruct Hopt as [Hl Hdb]. destruct Hfs as (Hset&Hne&Hroot&Hsp).
  destruct (last_sequence_bound dir lane (i_names fs0) (dirs_with dir (i_dirs fs0))) as [H0 Hlow].
  pose proof (dirs_with_dir dir (i_dirs fs0) Hne) as Hdir.
  destruct (inv_safe dir options Hl Hdb fs0 _ _ w HI Hu) as (ts&Hlog&Hsafe).
  apply replay_before in Hrep; [|done..].
  destruct (safe_replay dir options Hl fs0 Hset _ _ Hdir Hlow _ _ (w_fs w) crash rep0 Hsafe Hc Hrep)
    as (rep&its&Hok&Hb&Hpre&Hcov).
  destruct (prefix_index options _ ts its _ Hpre Hcov) as [Hits Hidx].
  exists rep, (length its). split_and!; [done| |].
  - rewrite Hb, Hlog, <-fmap_take, <-Hits, <-list_fmap_compose. done.
  - intros i e Hi Hend. rewrite Hlog in Hi. rewrite list_lookup_fmap in Hi.
    apply fmap_Some in Hi as (it&Hi&->). by eapply Hidx.
Qed.

(** C1. No acknowledged commit is lost and none is reordered: from the opening of a lane, however
    committers and leaders take turns and whichever operations of the disk fail, a crash at any
    point that keeps any of the writes not yet synced leaves a log replay reads without an error.
    It reads the blocks that were there before and after them the first so many queued, in the
    order queued, and every block whose commit the lane said is synced is among them. *)
Theorem lane_survives_crash fs0 rep0 st fs1 w crash :
  options_ok options → openable dir lane fs0 →
  fst (replay dir lane database (Fs_crash LosingUnsynced fs0)) = Ok rep0 →
  Lane_open dir options fs0 = (Ok st, fs1) → rtc (step dir options) (mkWorld st None [] fs1) w →
  u64 (st_tail_sequence (w_state w)) → untorn crash →
  ∃ rep n, fst (replay dir lane database (Fs_crash crash (w_fs w))) = Ok rep
    ∧ rp_blocks rep = rp_blocks rep0 ++ (lg_committed lane <$> take n (w_log w))
    ∧ ∀ i e, w_log w !! i = Some e → lg_end e ≤ reached (w_state w) Ordered → (i < n)%nat.
Proof. exact (survive fs0 rep0 st fs1 w crash). Qed.

(** ** Opening *)

Lemma settled_replay_clean fs crash :
  Settled fs → clean fs →
  ok_of (fst (replay dir lane database (Fs_crash crash fs))) = ok_of (fst (replay dir lane database fs)).
Proof.
  intros Hs Hc. destruct (decide (dir ∈ i_dirs fs)) as [Hin|Hout].
  - rewrite !replay_found by done. cbn [i_names i_dirs Fs_crash]. rewrite !settled_crash_names by done.
    apply replay_files_ext. intros. by rewrite !settled_contents.
  - unfold replay, segments, Fs_is_dir, io_get. cbv [mbind io_bind]. cbn [i_dirs Fs_crash].
    by rewrite bool_decide_eq_false_2.
Qed.

Lemma settled_replay fs crash :
  Settled fs →
  ok_of (fst (replay dir lane database (Fs_crash crash fs))) =
  ok_of (fst (replay dir lane database (Fs_crash LosingUnsynced fs))).
Proof.
  intros [Hn Hd Hf]. rewrite !(crash_store _ fs).
  by rewrite !(settled_replay_clean (store fs)).
Qed.

(** Opening a lane never changes what replay reads: whether [open] ends or one of its operations
    fails, and whatever a crash then keeps, replay reads the blocks it read before; and where no
    operation is set to fail the lane opens. *)
Theorem opening_keeps_the_log fs0 rep0 crash :
  options_ok options → 2 * SEGMENT_HEADER ≤ size → size `mod` 8 = 0 → openable dir lane fs0 →
  u64 (last_sequence (found dir lane (i_names fs0) (dirs_with dir (i_dirs fs0))) + 1) →
  fst (replay dir lane database (Fs_crash LosingUnsynced fs0)) = Ok rep0 → untorn crash →
  (∃ rep, fst (replay dir lane database (Fs_crash crash (snd (Lane_open dir options fs0)))) = Ok rep
     ∧ rp_blocks rep = rp_blocks rep0)
  ∧ (i_fail_at fs0 = None → ∃ st, fst (Lane_open dir options fs0) = Ok st).
Proof.
  intros [Hl Hdb] Hs Ha (Hset&Hne&Hroot&Hsp) Hu Hrep Hc.
  set (dirs := dirs_with dir (i_dirs fs0)) in *. set (low := last_sequence _) in *.
  destruct (last_sequence_bound dir lane (i_names fs0) dirs) as [H0 Hlow]. fold low in Hlow.
  pose proof (dirs_with_dir dir (i_dirs fs0) Hne) as Hdir. fold dirs in Hdir.
  assert (Hsafe : ∀ fs, Safe dir options fs0 dirs low [] 0 (store fs) →
    ∃ rep, fst (replay dir lane database (Fs_crash crash fs)) = Ok rep ∧ rp_blocks rep = rp_blocks rep0).
  { intros fs Hsafe. pose proof (replay_before dir options fs0 Hset Hroot rep0 Hrep) as Hrep'.
    destruct (safe_replay dir options Hl fs0 Hset _ _ Hdir Hlow _ _ fs crash rep0 Hsafe Hc Hrep')
      as (rep&its&Hok&Hb&Hpre&_). apply prefix_nil_inv in Hpre as ->. rewrite app_nil_r in Hb. by exists rep. }
  assert (Hmaking : ∀ fs, Making dir options fs0 dirs low [] (store fs) → Safe dir options fs0 dirs low [] 0 (store fs)).
  { intros fs (mk&Hd&Hr&Hh&He). exists [], mk. split_and!; [done|done|done| |done|done|].
    - clear -He. induction He as [|g mk [_ Hw] _ IH]; [done|]. by split.
    - by intros it ?%not_elem_of_nil. }
  pose proof (wp_Lane_open dir options Hl Hdb Hs Ha fs0 Hset Hne Hroot Hsp
    (λ s, s = store fs0 ∨ Making dir options fs0 dirs low [] s)
    (λ _ s, ∃ g, Flow dir options fs0 dirs low [] g s ∧ empty_seg g) (or_introl eq_refl) (λ s H, or_intror H)
    ltac:(intros g s ???; by exists g) Hu fs0 eq_refl) as Hw.
  destruct (Lane_open dir options fs0) as [[st|e] fs1]; cbn [fst snd].
  - destruct Hw as [(g&Hf&He1&He2) _]. split; [|by eauto]. apply Hsafe.
    eapply (flow_E dir options Hl Hdb fs0 dirs low [] 0 _ (λ s H, H)); [done| |by intros it ?%not_elem_of_nil].
    unfold all_items. simpl. by rewrite He1, He2.
  - destruct Hw as [[Heq|Hm] [? Hf]]; (split; [|congruence]); [|by apply Hsafe, Hmaking].
    exists rep0. split; [|done]. rewrite crash_store, Heq, <-crash_store.
    pose proof (settled_replay fs0 crash Hset) as Heq'. rewrite Hrep in Heq'.
    destruct (fst (replay dir lane database (Fs_crash crash fs0))); [by injection Heq' as ->|done].
Qed.

(** ** Commits *)

Definition sync_reach (sync : CommitSync) : option Reach :=
  match sync with
  | SyncFull => Some Durable
  | SyncBarrier => Some Ordered
  | SyncOs => Some Written
  | SyncNone => None
  end.

(** C9. A commit returns: on a lane that has not failed, with no leader at the disk and no failure
    set, [commit] of a block that fits a segment ends and answers the position after it, having
    got the lane as far as the sync asked for; what it did is steps of the lane. *)
Theorem commit_returns fs0 st fs1 w t b :
  options_ok options → openable dir lane fs0 →
  Lane_open dir options fs0 = (Ok st, fs1) → rtc (step dir options) (mkWorld st None [] fs1) w →
  w_turn w = None → st_failed (w_state w) = None → i_fail_at (w_fs w) = None →
  u64 (st_tail_sequence (w_state w) + 1) → Txn_ok t → Txn_block t = Ok b →
  Block_len b ≤ size - SEGMENT_HEADER →
  ∃ sequence st' fs', let end_ := st_reserved (w_state w) + Block_len b in
    commit dir options b (w_state w) (w_fs w) = Some (Ok end_, st', fs')
    ∧ rtc (step dir options) w (mkWorld st' None (w_log w ++ [mkLogged t sequence end_]) fs')
    ∧ ∀ reach, sync_reach (o_commit_sync options) = Some reach → end_ ≤ reached st' reach.
Proof.
  intros Hopt Hfs Ho Hr Hturn Hfail Hnone Hu Ht Hb Hlen.
  assert (Hu1 : u64 (st_tail_sequence (w_state w))).
  { destruct (open_sequence fs0 Hfs _ _ Ho) as (_&_&Hst).
    destruct (last_sequence_bound dir lane (i_names fs0) (dirs_with dir (i_dirs fs0))) as [H0 _].
    apply steps_tail in Hr. simpl in Hr. unfold fits in *. lia. }
  destruct (enqueue options b (w_state w)) as [[end_ st1]|e] eqn:He.
  2:{ exfalso. rewrite Txn_block_of in Hb by apply Ht. injection Hb as <-. unfold enqueue in He.
      destruct (Z.gtb_spec (Block_len (block_of t)) (size - SEGMENT_HEADER)); [lia|].
      unfold State_check in He. rewrite Hfail in He. cbn [mbind result_bind] in He.
      by rewrite Block_encode_layout in He. }
  assert (Hst : end_ = st_reserved (w_state w) + Block_len b ∧ st_reserved st1 = end_ ∧ st_failed st1 = None
    ∧ st_tail_sequence (w_state w) ≤ st_tail_sequence st1 ≤ st_tail_sequence (w_state w) + 1).
  { unfold enqueue in He. destruct (_ >? _); [done|]. destruct (State_check _); [|done].
    cbn [mbind result_bind] in He. destruct (Block_encode _ _ _ _); [|done]. injection He as <- <-. simpl.
    split_and!; [done..| |]; destruct (_ >? _); lia. }
  destruct Hst as (->&Hres&Hf1&Htail).
  set (end_ := st_reserved (w_state w) + Block_len b) in *.
  set (w1 := mkWorld st1 None (w_log w ++ [mkLogged t (st_tail_sequence st1) end_]) (w_fs w)).
  assert (Hs1 : step dir options w w1).
  { destruct w as [st0 turn log fs]. simpl in *. subst turn. by eapply step_enqueue. }
  assert (Hu2 : u64 (st_tail_sequence (w_state w1))) by (simpl; unfold fits in *; lia).
  destruct (steps_from_open Hopt fs0 Hfs _ _ w1 Ho) as [Hs HI]; [by eapply rtc_r|done|].
  destruct Hopt as [Hl Hdb]. destruct Hfs as (Hset&Hne&Hroot&Hsp).
  destruct (last_sequence_bound dir lane (i_names fs0) (dirs_with dir (i_dirs fs0))) as [H0 Hlow].
  pose proof (wait_returns dir options Hl Hdb Hs fs0 Hset _ _ (dirs_with_dir _ _ Hne) H0 Hlow) as Hwait.
  exists (st_tail_sequence st1). unfold commit. rewrite He. unfold settle.
  assert (Hend : end_ ≤ st_reserved st1) by lia.
  destruct (o_commit_sync options);
    [edestruct Hwait as (st'&fs'&E&Hreach&Hrtc); [exact HI|exact Hf1|exact Hnone|exact Hu2|exact Hend|];
     exists st', fs'; split_and!; [exact E|by eapply rtc_l|by intros reach [= <-]]..|].
  exists st1, (w_fs w). split_and!; [done|by apply rtc_once|done].
Qed.

(** ** One life after another *)

Lemma seg_names_dom segs names path :
  path ∈ dom (seg_names dir options segs names) →
  path ∈ dom names ∨ ∃ g, g ∈ segs ∧ path = seg_path dir lane (g_sequence g).
Proof.
  revert names. induction segs as [|g segs IH]; intros names; [by left|]. rewrite seg_names_cons.
  intros [Hin|(g'&Hg'&->)]%IH.
  - rewrite dom_insert in Hin. apply elem_of_union in Hin as [->%elem_of_singleton|]; [|by left].
    right. exists g. split; [by left|done].
  - right. exists g'. split; [by right|done].
Qed.

(** A crash leaves a filesystem the lane can be opened on again. *)
Lemma safe_openable fs0 total d fs crash :
  options_ok options → openable dir lane fs0 →
  Safe dir options fs0 (dirs_with dir (i_dirs fs0))
    (last_sequence (found dir lane (i_names fs0) (dirs_with dir (i_dirs fs0)))) total d (store fs) →
  openable dir lane (Fs_crash crash fs).
Proof.
  intros [Hl _] (Hset&Hne&Hroot&Hsp) (segs&mk&Hd&Hr&_). set (dirs := dirs_with _ _) in *.
  pose proof (dirs_with_dir dir (i_dirs fs0) Hne) as Hdir. fold dirs in Hdir. destruct Hd.
  destruct (crash_names_segs dir options crash segs mk (i_dir_pending fs) (i_names fs0) disk_pending)
    as (mk'&Hsub&Hn). rewrite <-disk_durable in Hn. change (crash_names crash fs = seg_names dir options (segs ++ mk') (i_names fs0)) in Hn.
  assert (Hsub' : (segs ++ mk') `sublist_of` (segs ++ mk)) by (by apply sublist_app).
  split_and!; [|done| |].
  - apply crash_settled. rewrite Hn. intros path inode Hi.
    assert (Hcase : ∀ l names, (∀ p i, names !! p = Some i → i < i_next_inode fs) →
      Forall (λ g, g_inode g < i_next_inode fs) l → seg_names dir options l names !! path = Some inode → inode < i_next_inode fs).
    { induction l as [|g l IH]; intros names Hnames Hf Hlook; [by eapply Hnames|].
      apply Forall_cons in Hf as [Hg Hf]. eapply IH; [|done|exact Hlook].
      intros p i. rewrite lookup_insert_Some. intros [[_ <-]|[_ ?]]; [done|by eapply Hnames]. }
    eapply Hcase; [| |exact Hi].
    + intros p i Hp. apply (settled_files _ Hset) in Hp as [? _]. simpl in disk_next. lia.
    + eapply Forall_impl; [eapply Forall_sublist; [exact Hsub'|exact disk_inodes]|]. simpl. lia.
  - intros path Hin Hp. change (i_dirs (Fs_crash crash fs)) with (i_dirs (store fs)). by rewrite disk_dirs.
  - rewrite spares_listed; [|change (i_dirs (Fs_crash crash fs)) with (i_dirs (store fs)); by rewrite disk_dirs].
    cbn [fst]. f_equal. apply list_filter_none. apply Forall_forall. intros path Hin Hspare.
    unfold listing in Hin. rewrite sort_stable_perm in Hin. apply list_elem_of_filter in Hin as [Hp Hin].
    apply elem_of_elements in Hin. cbn [i_names i_dirs Fs_crash] in Hin. rewrite Hn in Hin.
    assert (Hold : path ∉ dom (i_names fs0) ∪ dirs).
    { intros Hin'. assert (Hnone : path ∈ spares_of lane (listing (i_names fs0) dirs dir)).
      { apply list_elem_of_filter. split; [done|]. unfold listing. rewrite sort_stable_perm.
        apply list_elem_of_filter. split; [done|]. by apply elem_of_elements. }
      subst dirs. rewrite spares_of_none in Hnone by done. by apply not_elem_of_nil in Hnone. }
    apply elem_of_union in Hin as [[Hin|(g&Hg&->)]%seg_names_dom|Hin].
    + apply Hold. by apply elem_of_union_l.
    + unfold seg_path in Hspare. rewrite last_snoc in Hspare. cbn [mbind option_bind] in Hspare.
      by rewrite strip_suffix_segment in Hspare.
    + apply Hold, elem_of_union_r. rewrite <-disk_dirs. done.
Qed.

(** Lives of a lane, each ended by a crash that tears no write: the blocks that must have survived
    them all, and the blocks that may have. *)
Inductive lives : Inner → list Committed → list Committed → Prop :=
| lives_first fs rep :
    openable dir lane fs →
    fst (replay dir lane database (Fs_crash LosingUnsynced fs)) = Ok rep →
    lives fs (rp_blocks rep) (rp_blocks rep)
| lives_next fs must may st fs1 w crash :
    lives fs must may → Lane_open dir options fs = (Ok st, fs1) →
    rtc (step dir options) (mkWorld st None [] fs1) w →
    u64 (st_tail_sequence (w_state w)) → untorn crash →
    lives (Fs_crash crash (w_fs w))
      (must ++ (lg_committed lane <$> filter (λ e, lg_end e ≤ reached (w_state w) Ordered) (w_log w)))
      (may ++ (lg_committed lane <$> w_log w)).

Lemma filter_early {A} (P : A → Prop) `{!∀ x, Decision (P x)} (l : list A) n :
  (∀ i x, l !! i = Some x → P x → (i < n)%nat) → filter P l `sublist_of` take n l.
Proof.
  intros Hp. rewrite <-(take_drop n l) at 1. rewrite filter_app, (list_filter_none P (drop n l)).
  - rewrite app_nil_r. apply sublist_filter.
  - apply Forall_forall. intros x [i Hi]%list_elem_of_lookup Hx. rewrite lookup_drop in Hi.
    apply Hp in Hi; [lia|done].
Qed.

(** C3. A log through any number of lives: the filesystem each crash leaves is one the lane opens
    on, replay reads it without an error, and what it reads has every block a commit was told is
    synced in any of the lives, and nothing but blocks committed in them, all in the order they
    were queued. *)
Theorem lives_keep_what_was_synced fs must may :
  options_ok options → lives fs must may →
  openable dir lane fs
  ∧ ∃ rep, fst (replay dir lane database (Fs_crash LosingUnsynced fs)) = Ok rep
    ∧ must `sublist_of` rp_blocks rep ∧ rp_blocks rep `sublist_of` may.
Proof.
  intros Hopt. induction 1 as [fs rep Hfs Hrep|fs must may st fs1 w crash _ (Hfs&rep&Hrep&Hmust&Hmay) Ho Hr Hu Hc].
  { split; [done|]. by exists rep. }
  destruct (steps_from_open Hopt fs Hfs _ _ _ Ho Hr Hu) as [Hs HI].
  destruct (inv_safe dir options (proj1 Hopt) (proj2 Hopt) fs _ _ w HI Hu) as (ts&_&Hsafe).
  pose proof (safe_openable fs _ _ (w_fs w) crash Hopt Hfs Hsafe) as Hopen. split; [done|].
  destruct (survive fs rep st fs1 w crash) as (rep'&n&Hrep'&Hb&Hidx); [done..|].
  exists rep'. split_and!.
  - pose proof (settled_replay_clean (Fs_crash crash (w_fs w)) LosingUnsynced (proj1 Hopen) ltac:(done)) as Heq.
    rewrite Hrep' in Heq. destruct (fst (replay dir lane database (Fs_crash LosingUnsynced (Fs_crash crash (w_fs w)))));
      [by injection Heq as ->|done].
  - rewrite Hb. apply sublist_app; [done|]. apply fmap_sublist, filter_early. done.
  - rewrite Hb. apply sublist_app; [done|]. apply fmap_sublist, sublist_take.
Qed.
End theorems.

(** ** A run *)

Definition sample_dir : Path := [[108; 111; 103]].
Definition sample_options : Options := mkOptions 3 7 8192 SyncFull.
Definition sample_txn : Txn :=
  {| t_txn := 1; t_commit_ts := 7; t_dep_ts := 6; t_entries := [(Insert, 0, [1; 2; 3])] |}.

(** A lane opened on an empty filesystem, with one commit that waited for its sync. *)
Definition sample_run : option (Lane.State * Inner * World) :=
  match @Lane_open false sample_dir sample_options SimFilesystem_new with
  | (Ok st, fs1) =>
      match @enqueue false sample_options (block_of sample_txn) st with
      | Ok (end_, st1) =>
          match State_check st1, st_flushing st1, begin_turn Durable st1 with
          | Ok _, false, Ok (turn, st2) =>
              let '(st3, fs3) := @end_turn false sample_dir sample_options turn st2 fs1 in
              Some (st, fs1, mkWorld st3 None [mkLogged sample_txn (st_tail_sequence st1) end_] fs3)
          | _, _, _ => None
          end
      | Err _ => None
      end
  | (Err _, _) => None
  end.

Lemma sample_run_steps st fs1 w :
  sample_run = Some (st, fs1, w) →
  @Lane_open false sample_dir sample_options SimFilesystem_new = (Ok st, fs1)
  ∧ rtc (@step false sample_dir sample_options) (mkWorld st None [] fs1) w
  ∧ ∃ sequence end_, w_log w = [mkLogged sample_txn sequence end_].
Proof.
  unfold sample_run.
  destruct (Lane_open sample_dir sample_options SimFilesystem_new) as [[st0|] fs] eqn:Eo; [|done].
  destruct (enqueue sample_options (block_of sample_txn) st0) as [[end_ st1]|] eqn:Ee; [|done].
  destruct (State_check st1) as [[]|] eqn:Ec; [|done]. destruct (st_flushing st1) eqn:Ef; [done|].
  destruct (begin_turn Durable st1) as [[turn st2]|] eqn:Eb; [|done].
  destruct (end_turn sample_dir sample_options turn st2 fs) as [st3 fs3] eqn:Et. intros [= -> -> <-].
  split_and!; [done| |by eauto].
  eapply rtc_l; [eapply (step_enqueue _ _ sample_txn); [decided|reflexivity|exact Ee]|].
  eapply rtc_l; [by eapply (step_begin _ _ Durable)|]. by eapply rtc_once, step_end.
Qed.

(** The run goes through, and says its commit is synced. *)
Definition sample_check : bool :=
  match sample_run with
  | Some (_, _, w) =>
      match w_log w with
      | [e] => (lg_end e <=? reached (w_state w) Ordered) && bool_decide (u64 (st_tail_sequence (w_state w)))
               && (lg_sequence e =? 1)
      | _ => false
      end
  | None => false
  end.

Lemma sample_checks : sample_check = true.
Proof. vm_compute. reflexivity. Qed.

Lemma sample_facts :
  ∃ st fs1 w end_, @Lane_open false sample_dir sample_options SimFilesystem_new = (Ok st, fs1)
    ∧ rtc (@step false sample_dir sample_options) (mkWorld st None [] fs1) w
    ∧ u64 (st_tail_sequence (w_state w)) ∧ w_log w = [mkLogged sample_txn 1 end_]
    ∧ end_ ≤ reached (w_state w) Ordered.
Proof.
  pose proof sample_checks as Hc. unfold sample_check in Hc.
  destruct sample_run as [[[st fs1] w]|] eqn:E; [|done].
  destruct (sample_run_steps _ _ _ E) as (Ho&Hr&sequence&end_&Hlog). exists st, fs1, w, end_.
  rewrite Hlog in Hc |- *. rewrite !andb_true_iff, bool_decide_eq_true, Z.leb_le, Z.eqb_eq in Hc.
  destruct Hc as [[Hend Hu] Hs]. cbn [lg_sequence lg_end] in *. subst sequence.
  exact (conj Ho (conj Hr (conj Hu (conj eq_refl Hend)))).
Qed.

Lemma sample_options_ok : options_ok sample_options.
Proof. split; [simpl; lia|decided]. Qed.

Lemma sample_openable : openable sample_dir 3 SimFilesystem_new.
Proof.
  split_and!; [|done| |done].
  - split; [done|done|]. intros path inode. simpl. by rewrite lookup_empty.
  - intros path. simpl. set_solver.
Qed.

Lemma lane_survives_crash_witness :
  ∃ st fs1 w rep, @Lane_open false sample_dir sample_options SimFilesystem_new = (Ok st, fs1)
    ∧ rtc (@step false sample_dir sample_options) (mkWorld st None [] fs1) w
    ∧ fst (@replay false sample_dir 3 7 (Fs_crash LosingUnsynced (w_fs w))) = Ok rep
    ∧ rp_blocks rep = [Txn_committed 3 1 sample_txn].
Proof.
  destruct sample_facts as (st&fs1&w&end_&Ho&Hr&Hu&Hlog&Hend).
  destruct (@lane_survives_crash false sample_dir sample_options SimFilesystem_new (mkReplayed [] 0 0)
    st fs1 w LosingUnsynced sample_options_ok sample_openable eq_refl Ho Hr Hu (λ _, eq_refl))
    as (rep&n&Hrep&Hb&Hidx).
  exists st, fs1, w, rep. split; [exact Ho|]. split; [exact Hr|]. split; [exact Hrep|].
  rewrite Hb, Hlog. specialize (Hidx 0%nat). rewrite Hlog in Hidx.
  destruct n as [|n]; [by specialize (Hidx _ eq_refl Hend); lia|]. by destruct n.
Defined.

(** A failure set for the third operation of [open], and a crash that keeps what was written. *)
Lemma opening_keeps_the_log_witness :
  ∃ rep, fst (@replay false sample_dir 3 7 (Fs_crash KeepingEverything
      (snd (@Lane_open false sample_dir sample_options (Fs_fail_at 3 SimFilesystem_new))))) = Ok rep
    ∧ rp_blocks rep = [].
Proof.
  apply (@opening_keeps_the_log false sample_dir sample_options (Fs_fail_at 3 SimFilesystem_new)
    (mkReplayed [] 0 0) KeepingEverything); [apply sample_options_ok|done|done| |decided|done|done].
  destruct sample_openable as (Hset&Hne&Hroot&Hsp). split_and!; [|done|exact Hroot|done].
  destruct Hset. by split.
Defined.

Lemma commit_returns_witness :
  ∃ st fs1 st' fs', @Lane_open false sample_dir sample_options SimFilesystem_new = (Ok st, fs1)
    ∧ @commit false sample_dir sample_options (block_of sample_txn) st fs1 =
        Some (Ok (Block_len (block_of sample_txn)), st', fs').
Proof.
  destruct (@Lane_open false sample_dir sample_options SimFilesystem_new) as [[st|e] fs1] eqn:Ho.
  2:{ apply (f_equal (λ r, match fst r with Ok _ => true | Err _ => false end)) in Ho. vm_compute in Ho. done. }
  assert (Hst : (st_reserved st, bool_decide (u64 (st_tail_sequence st + 1)), st_failed st, i_fail_at fs1) = (0, true, None, None)).
  { apply (f_equal (λ r, match r with
      | (Ok st, fs1) => (st_reserved st, bool_decide (u64 (st_tail_sequence st + 1)), st_failed st, i_fail_at fs1)
      | (Err _, fs1) => (1, false, None, None) end)) in Ho. rewrite <-Ho. vm_compute. reflexivity. }
  injection Hst as Hres Hu Hfail Hnone. apply bool_decide_eq_true in Hu.
  destruct (@commit_returns false sample_dir sample_options SimFilesystem_new st fs1 (mkWorld st None [] fs1)
    sample_txn (block_of sample_txn) sample_options_ok sample_openable Ho (rtc_refl _ _) eq_refl Hfail Hnone Hu
    ltac:(decided) eq_refl ltac:(decided)) as (sequence&st'&fs'&Hc&_).
  cbn [w_state w_fs] in Hc. rewrite Hres in Hc. exists st, fs1, st', fs'. exact (conj eq_refl Hc).
Defined.

Lemma lives_keep_what_was_synced_witness :
  ∃ fs rep, fst (@replay false sample_dir 3 7 (Fs_crash LosingUnsynced fs)) = Ok rep
    ∧ rp_blocks rep = [Txn_committed 3 1 sample_txn].
Proof.
  destruct sample_facts as (st&fs1&w&end_&Ho&Hr&Hu&Hlog&Hend).
  pose proof (@lives_first false sample_dir sample_options SimFilesystem_new (mkReplayed [] 0 0) sample_openable eq_refl) as Hl.
  pose proof (@lives_next false sample_dir sample_options _ _ _ _ _ _ KeepingEverything Hl Ho Hr Hu (λ _, eq_refl)) as Hl'.
  destruct (@lives_keep_what_was_synced false sample_dir sample_options _ _ _ sample_options_ok Hl')
    as [_ (rep&Hrep&Hmust&Hmay)]. exists (Fs_crash KeepingEverything (w_fs w)), rep. split; [exact Hrep|].
  rewrite Hlog in Hmust, Hmay. rewrite filter_cons, decide_True in Hmust by exact Hend.
  apply (anti_symm sublist); [exact Hmay|exact Hmust].
Defined.
