(* ===== verification/Bloom.v ===== *)
(** The bloom filter of an index run: [rudb-index/src/bloom.rs].

    Words of 64 bits, seven probes a key by double hashing. The theorem is the one the run's
    lookup rests on: a key that was added is never reported absent. *)

From S2P Require Import Prelude.
Local Open Scope Z_scope.

Definition BITS_PER_KEY : Z := 10.
Definition PROBES : nat := 7.

Definition div_ceil (a b : Z) : Z := (a + b - 1) / b.

(** A filter is its words, a [list Z]. *)
Definition Bloom_sized (keys : Z) : list Z :=
  replicate (Z.to_nat (div_ceil (Z.max keys 1 * BITS_PER_KEY) 64)) 0.

Definition Bloom_from_words (words : list Z) : option (list Z) :=
  match words with [] => None | _ => Some words end.

(** [low.wrapping_add(i.wrapping_mul(high)) % bits] for the seven [i]. *)
Definition probes (hash bits : Z) : list Z :=
  let low := Z.land hash 0xFFFFFFFF in
  let high := Z.lor (hash ≫ 32) 1 in
  (λ i : nat, wrap 64 (low + wrap 64 (Z.of_nat i * high)) `mod` bits) <$> seq 0 PROBES.

Definition set_bit (words : list Z) (bit : Z) : list Z :=
  alter (λ w, Z.lor w (1 ≪ (bit `mod` 64))) (Z.to_nat (bit / 64)) words.

Definition Bloom_insert (hash : Z) (words : list Z) : list Z :=
  let bits := zlen words * 64 in
  foldl set_bit words (probes hash bits).

Definition test_bit (words : list Z) (bit : Z) : bool :=
  negb (Z.land (default 0 (words !! Z.to_nat (bit / 64))) (1 ≪ (bit `mod` 64)) =? 0).

Definition Bloom_may_hold (hash : Z) (words : list Z) : bool :=
  let bits := zlen words * 64 in
  forallb (test_bit words) (probes hash bits).

(** ** The hash of a key *)

Definition rotate_left (n x : Z) : Z := Z.lor (wrap 64 (x ≪ n)) (x ≫ (64 - n)).

Definition hash_step (h : Z) (word : list Z) : Z :=
  rotate_left 29 (wrap 64 (Z.lxor h (le_val word) * 0x9E3779B97F4A7C15)).

(** The loop over [chunks_exact(8)], answering the hash and the remainder. *)
Fixpoint hash_loop (h : Z) (key : list Z) : Z * list Z :=
  match key with
  | b0 :: b1 :: b2 :: b3 :: b4 :: b5 :: b6 :: b7 :: rest =>
      hash_loop (hash_step h [b0; b1; b2; b3; b4; b5; b6; b7]) rest
  | remainder => (h, remainder)
  end.

Definition hash (key : list Z) : Z :=
  let h := wrap 64 (zlen key * 0x9E3779B97F4A7C15) in
  let '(h, remainder) := hash_loop h key in
  let tail := put_slice 0 remainder (replicate 8 0) in
  let h := wrap 64 (Z.lxor h (le_val tail) * 0x9E3779B97F4A7C15) in
  let h := Z.lxor h (h ≫ 33) in
  let h := wrap 64 (h * 0xFF51AFD7ED558CCD) in
  let h := Z.lxor h (h ≫ 33) in
  let h := wrap 64 (h * 0xC4CEB9FE1A85EC53) in
  Z.lxor h (h ≫ 33).

(** * No false negatives *)

Lemma zlen_set_bit words bit : zlen (set_bit words bit) = zlen words.
Proof. unfold set_bit, zlen. by rewrite length_alter. Qed.

Lemma zlen_fold_set_bit words bits : zlen (foldl set_bit words bits) = zlen words.
Proof.
  revert words. induction bits as [|b bits IH]; intros words; [done|].
  simpl. by rewrite IH, zlen_set_bit.
Qed.

Lemma zlen_Bloom_insert h words : zlen (Bloom_insert h words) = zlen words.
Proof. apply zlen_fold_set_bit. Qed.

Lemma land_bit_nonzero w i :
  0 ≤ i → negb (Z.land w (1 ≪ i) =? 0) = Z.testbit w i.
Proof.
  intros Hi. rewrite Z.shiftl_1_l. destruct (Z.testbit w i) eqn:E.
  - destruct (Z.eqb_spec (Z.land w (2 ^ i)) 0) as [E0|]; [|done]. exfalso.
    apply (f_equal (λ x, Z.testbit x i)) in E0.
    rewrite Z.land_spec, E, Z.pow2_bits_true, Z.bits_0 in E0 by done. done.
  - replace (Z.land w (2 ^ i)) with 0; [done|]. symmetry. apply Z.bits_inj'. intros j Hj.
    rewrite Z.land_spec, Z.bits_0, Z.pow2_bits_eqb by done.
    destruct (Z.eqb_spec i j) as [->|]; [by rewrite E|by rewrite andb_false_r].
Qed.

(** Setting a bit keeps the ones set and sets its own. *)
Lemma set_bit_mono words bit bit' :
  test_bit words bit = true → test_bit (set_bit words bit') bit = true.
Proof.
  unfold test_bit, set_bit. rewrite !land_bit_nonzero by (apply Z.mod_pos_bound; lia).
  intros Ht. destruct (decide (Z.to_nat (bit' / 64) = Z.to_nat (bit / 64))) as [Eq|Hne].
  - rewrite <-Eq in *. rewrite list_lookup_alter_eq. destruct (words !! _) as [w|]; [|done].
    simpl in *. by rewrite Z.lor_spec, Ht.
  - by rewrite list_lookup_alter_ne.
Qed.

Lemma set_bit_sets words bit :
  0 ≤ bit < zlen words * 64 → test_bit (set_bit words bit) bit = true.
Proof.
  intros Hb. unfold test_bit, set_bit.
  rewrite land_bit_nonzero by (apply Z.mod_pos_bound; lia). rewrite list_lookup_alter_eq.
  assert (bit / 64 < zlen words) by (apply Z.div_lt_upper_bound; lia).
  assert (0 ≤ bit / 64) by (apply Z.div_pos; lia).
  destruct (lookup_lt_is_Some_2 words (Z.to_nat (bit / 64))) as [w Hw]; [unfold zlen in *; lia|].
  rewrite Hw. simpl. pose proof (Z.mod_pos_bound bit 64 ltac:(lia)).
  rewrite Z.lor_spec, Z.shiftl_1_l, Z.pow2_bits_true by lia. apply orb_true_r.
Qed.

Lemma fold_set_bit_mono words bits bit :
  test_bit words bit = true → test_bit (foldl set_bit words bits) bit = true.
Proof.
  revert words. induction bits as [|b bits IH]; intros words Ht; [done|].
  simpl. by apply IH, set_bit_mono.
Qed.

Lemma fold_set_bit_sets words bits :
  Forall (λ bit, 0 ≤ bit < zlen words * 64) bits →
  forallb (test_bit (foldl set_bit words bits)) bits = true.
Proof.
  intros Hbits. apply forallb_forall. intros bit Hin%list_elem_of_In. revert words Hbits. induction Hin as [b bits|b b' bits _ IH];
    intros words [Hb Hbits]%Forall_cons; simpl.
  - by apply fold_set_bit_mono, set_bit_sets.
  - apply IH. by rewrite zlen_set_bit.
Qed.

Lemma probes_range h bits : 0 < bits → Forall (λ bit, 0 ≤ bit < bits) (probes h bits).
Proof.
  intros Hb. apply Forall_fmap, Forall_forall. intros i _. apply Z.mod_pos_bound. done.
Qed.

Lemma Bloom_insert_holds h words : 0 < zlen words → Bloom_may_hold h (Bloom_insert h words) = true.
Proof.
  intros Hl. unfold Bloom_may_hold. rewrite zlen_Bloom_insert.
  apply fold_set_bit_sets, probes_range. lia.
Qed.

Lemma Bloom_insert_mono h h' words :
  Bloom_may_hold h words = true → Bloom_may_hold h (Bloom_insert h' words) = true.
Proof.
  unfold Bloom_may_hold. rewrite zlen_Bloom_insert, !forallb_forall.
  intros Hf bit Hin. by apply fold_set_bit_mono, Hf.
Qed.

Lemma zlen_Bloom_sized keys : 0 < zlen (Bloom_sized keys).
Proof.
  unfold Bloom_sized. rewrite zlen_replicate. unfold div_ceil, BITS_PER_KEY.
  assert (1 ≤ (Z.max keys 1 * 10 + 64 - 1) / 64) by (apply Z.div_le_lower_bound; lia). lia.
Qed.

Definition Bloom_of (keys : Z) (hashes : list Z) : list Z :=
  foldl (λ b h, Bloom_insert h b) (Bloom_sized keys) hashes.

(** A filter answers [true] for every hash that was inserted. *)
Lemma Bloom_of_holds keys hashes h : h ∈ hashes → Bloom_may_hold h (Bloom_of keys hashes) = true.
Proof.
  unfold Bloom_of. intros Hin.
  assert (Hgen : ∀ words, 0 < zlen words →
    Bloom_may_hold h (foldl (λ b h, Bloom_insert h b) words hashes) = true).
  2:{ apply Hgen, zlen_Bloom_sized. }
  assert (Hkeep : ∀ hs words, Bloom_may_hold h words = true →
    Bloom_may_hold h (foldl (λ b h, Bloom_insert h b) words hs) = true).
  { induction hs as [|h' hs IH]; intros words Hw; [done|]. simpl.
    by apply IH, Bloom_insert_mono. }
  induction Hin as [h hs|h h' hs _ IH]; intros words Hw; simpl.
  - by apply Hkeep, Bloom_insert_holds.
  - apply IH; [done|by rewrite zlen_Bloom_insert].
Qed.

Lemma set_bit_u64 words bit : Forall u64 words → Forall u64 (set_bit words bit).
Proof.
  intros H. unfold set_bit. apply Forall_alter; [done|]. intros w _ Hw.
  apply fits_lor; [lia|done|]. pose proof (Z.mod_pos_bound bit 64 ltac:(lia)) as Hm.
  rewrite Z.shiftl_1_l. split; [apply Z.pow_nonneg; lia|]. apply Z.pow_lt_mono_r; lia.
Qed.

(** A filter has a word, and its words are words. *)
Lemma Bloom_of_words keys hashes :
  Bloom_of keys hashes ≠ [] ∧ Forall u64 (Bloom_of keys hashes).
Proof.
  assert (Hgen : ∀ words, 0 < zlen words → Forall u64 words →
    let b := foldl (λ b h, Bloom_insert h b) words hashes in 0 < zlen b ∧ Forall u64 b).
  { induction hashes as [|h hs IH]; intros words Hw Hu; [done|]. simpl. apply IH.
    - by rewrite zlen_Bloom_insert.
    - unfold Bloom_insert. generalize (probes h (zlen words * 64)). clear Hw. intros bits. revert words Hu.
      induction bits as [|bit bits IHb]; intros words Hu; [done|]. simpl. by apply IHb, set_bit_u64. }
  destruct (Hgen (Bloom_sized keys)) as [Hl Hu].
  - apply zlen_Bloom_sized.
  - apply Forall_replicate. done.
  - split; [|done]. unfold Bloom_of. intros E. rewrite E in Hl. done.
Qed.
