(* ===== verification/Run.v ===== *)
(** A sorted run of index entries: [rudb-index/src/run.rs].

    The writer, the cursor and what is built on it (lookup, seek, range and merge). A [None]
    of the outer [option] is a panic, or a loop that used up its fuel: the theorems show that
    neither happens. Closures the code takes as [FnMut] thread a state of their own. *)

From S2P Require Import Prelude Bloom.
Local Open Scope Z_scope.

Definition BLOCK : Z := 4096.
Definition usize_max : Z := 2 ^ 64 - 1.

Record Hit : Type := mkHit { rid : Z; ts : Z }.

Record Run : Type := mkRun {
  run_blocks : list Z;
  run_starts : list Z;
  run_fences : list Z;
  run_fence_starts : list Z;
  run_bloom : list Z;
  run_len : Z }.

Record RunWriter : Type := mkRunWriter {
  w_blocks : list Z;
  w_starts : list Z;
  w_fences : list Z;
  w_fence_starts : list Z;
  w_hashes : list Z;
  w_last : list Z;
  w_len : Z }.

Definition RunWriter_new : RunWriter := mkRunWriter [] [] [] [] [] [] 0.

(** ** Varints *)

Fixpoint varint_len_loop (fuel : nat) (n : Z) : Z :=
  match fuel with
  | O => 1
  | S fuel => if n >=? 0x80 then 1 + varint_len_loop fuel (n ≫ 7) else 1
  end.

(** A [u64] shifted right by 7 nine times is less than [0x80]. *)
Definition varint_len (n : Z) : Z := varint_len_loop 9 n.

Fixpoint put_varint_loop (fuel : nat) (n : Z) : list Z :=
  match fuel with
  | O => [wrap 8 n]
  | S fuel =>
      if n >=? 0x80 then Z.lor (wrap 8 n) 0x80 :: put_varint_loop fuel (n ≫ 7) else [wrap 8 n]
  end.

(** The bytes [put_varint] adds to its buffer. *)
Definition put_varint (n : Z) : list Z := put_varint_loop 9 n.

Fixpoint varint_loop (shifts : list Z) (bytes : list Z) (at_ n : Z) : option (Z * Z) :=
  match shifts with
  | [] => None
  | shift :: shifts =>
      byte ← bytes !! Z.to_nat at_;
      let at_ := at_ + 1 in
      let n := Z.lor n (wrap 64 (Z.land byte 0x7F ≪ shift)) in
      if Z.land byte 0x80 =? 0 then Some (n, at_) else varint_loop shifts bytes at_ n
  end.

(** [varint(bytes, &mut at)]: the number and the new [at]. *)
Definition varint (bytes : list Z) (at_ : Z) : option (Z * Z) :=
  varint_loop ((λ i : nat, Z.of_nat (7 * i)) <$> seq 0 10) bytes at_ 0.

Fixpoint common (a b : list Z) : nat :=
  match a, b with
  | x :: a, y :: b => if x =? y then S (common a b) else 0
  | _, _ => 0
  end.

Fixpoint partition_loop (fuel : nat) (before : Z → option bool) (lo hi : Z) : option Z :=
  match fuel with
  | O => None
  | S fuel =>
      if lo <? hi then
        let mid := lo + (hi - lo) / 2 in
        b ← before mid;
        if (b : bool) then partition_loop fuel before (mid + 1) hi
        else partition_loop fuel before lo mid
      else Some lo
  end.

Definition partition (n : Z) (before : Z → option bool) : option Z :=
  partition_loop (S (Z.to_nat n)) before 0 n.

(** ** Writing *)

(** [push] from where [shared] and [fresh] are known. *)
Definition push_entry (key : list Z) (hit : Hit) (shared : Z) (fresh : bool) (w : RunWriter)
    : RunWriter :=
  let hashes := if fresh then w_hashes w ++ [hash key] else w_hashes w in
  let start := default 0 (last (w_starts w)) in
  let size := varint_len shared + varint_len (zlen key - shared) + (zlen key - shared)
              + varint_len (rid hit) + varint_len (ts hit) in
  let new_block := (zlen (w_starts w) =? 0) || (zlen (w_blocks w) - start + size >? BLOCK) in
  let starts := if new_block then w_starts w ++ [zlen (w_blocks w)] else w_starts w in
  let fence_starts :=
    if new_block then w_fence_starts w ++ [zlen (w_fences w)] else w_fence_starts w in
  let fences := if new_block then w_fences w ++ key else w_fences w in
  let shared := if new_block then 0 else shared in
  let blocks := w_blocks w ++ put_varint shared ++ put_varint (zlen key - shared)
                ++ drop (Z.to_nat shared) key ++ put_varint (rid hit) ++ put_varint (ts hit) in
  mkRunWriter blocks starts fences fence_starts hashes key (w_len w + 1).

Definition RunWriter_push (key : list Z) (hit : Hit) (w : RunWriter) : Result RunWriter :=
  if w_len w =? 0 then Ok (push_entry key hit 0 true w) else
  match slice_cmp key (w_last w) with
  | Lt => Err (Internal "index run entries out of key order")
  | Eq => Ok (push_entry key hit (zlen key) false w)
  | Gt => Ok (push_entry key hit (Z.of_nat (common key (w_last w))) true w)
  end.

Definition RunWriter_finish (w : RunWriter) : Run :=
  let bloom := foldl (λ b h, Bloom_insert h b) (Bloom_sized (zlen (w_hashes w))) (w_hashes w) in
  {| run_blocks := w_blocks w;
     run_starts := w_starts w ++ [zlen (w_blocks w)];
     run_fences := w_fences w;
     run_fence_starts := w_fence_starts w ++ [zlen (w_fences w)];
     run_bloom := bloom;
     run_len := w_len w |}.

(** ** Reading *)

Definition Run_is_empty (r : Run) : bool := run_len r =? 0.

(** [self.starts.len().saturating_sub(1)] *)
Definition Run_nblocks (r : Run) : Z := Z.max 0 (zlen (run_starts r) - 1).

Definition Run_resident_bytes (r : Run) : Z :=
  zlen (run_fences r) + zlen (run_fence_starts r) * 8 + zlen (run_starts r) * 8
  + zlen (run_bloom r) * 8.

Definition Run_fence (r : Run) (block : Z) : option (list Z) :=
  a ← run_fence_starts r !! Z.to_nat block;
  b ← run_fence_starts r !! Z.to_nat (block + 1);
  get_range a b (run_fences r).

Definition Run_may_hold (r : Run) (key : list Z) : bool := Bloom_may_hold (hash key) (run_bloom r).

Record Cursor : Type := mkCursor {
  c_block : Z;
  c_at : Z;
  c_key : list Z;
  c_hit : Hit;
  c_held : bool }.

Definition Cursor_new (r : Run) (block : Z) : Cursor :=
  let at_ := default (zlen (run_blocks r)) (run_starts r !! Z.to_nat block) in
  mkCursor block at_ [] (mkHit 0 0) false.

(** The loop past the blocks that end at or before [at]. *)
Fixpoint skip_blocks (fuel : nat) (r : Run) (block at_ : Z) : option Z :=
  match fuel with
  | O => None
  | S fuel =>
      if block <? Run_nblocks r then
        next ← run_starts r !! Z.to_nat (block + 1);
        if at_ >=? next then skip_blocks fuel r (block + 1) at_ else Some block
      else Some block
  end.

(** The closure of [advance]: the entry read and where it ends, and the key, which a failure
    after the suffix leaves changed. *)
Definition read_entry (bytes : list Z) (first : bool) (at_ : Z) (key : list Z)
    : option (Hit * Z) * list Z :=
  match
    '(shared, at_) ← varint bytes at_;
    '(rest, at_) ← varint bytes at_;
    if (shared >? zlen key) || (first && negb (shared =? 0)) then None else
    if at_ + rest >? usize_max then None else
    suffix ← get_range at_ (at_ + rest) bytes;
    Some (shared, suffix, at_ + rest)
  with
  | None => (None, key)
  | Some (shared, suffix, at_) =>
      (('(rid, at_) ← varint bytes at_;
        '(ts, at_) ← varint bytes at_;
        Some (mkHit rid ts, at_)),
       take (Z.to_nat shared) key ++ suffix)
  end.

Definition Cursor_advance (r : Run) (c : Cursor) : option (bool * Cursor) :=
  if c_held c then Some (true, mkCursor (c_block c) (c_at c) (c_key c) (c_hit c) false) else
  let blocks := Run_nblocks r in
  block ← skip_blocks (S (length (run_starts r))) r (c_block c) (c_at c);
  if block >=? blocks then Some (false, mkCursor block (c_at c) (c_key c) (c_hit c) false) else
  end_ ← run_starts r !! Z.to_nat (block + 1);
  start ← run_starts r !! Z.to_nat block;
  let first := c_at c =? start in
  bytes ← get_to end_ (run_blocks r);
  match read_entry bytes first (c_at c) (c_key c) with
  | (Some (hit, at_), key) => Some (true, mkCursor block at_ key hit false)
  | (None, key) => Some (false, mkCursor blocks (c_at c) key (c_hit c) false)
  end.

(** More than the entries a cursor can still read: each takes a byte at the least, and one
    more when a skip holds one. *)
Definition fuel_of (r : Run) : nat := S (S (length (run_blocks r))).

Fixpoint skip_while_loop (fuel : nat) (r : Run) (skip : list Z → bool) (c : Cursor)
    : option Cursor :=
  match fuel with
  | O => None
  | S fuel =>
      '(more, c) ← Cursor_advance r c;
      if (more : bool) then
        if skip (c_key c) then skip_while_loop fuel r skip c
        else Some (mkCursor (c_block c) (c_at c) (c_key c) (c_hit c) true)
      else Some c
  end.

Definition skip_while (r : Run) (skip : list Z → bool) (c : Cursor) : option Cursor :=
  skip_while_loop (fuel_of r) r skip c.

Definition skip_below (r : Run) (key : list Z) (c : Cursor) : option Cursor :=
  skip_while r (λ entry, slice_lt entry key) c.

Definition skip_equal (r : Run) (key : list Z) (c : Cursor) : option Cursor :=
  skip_while r (λ entry, slice_eq entry key) c.

Definition Run_cursor (r : Run) : Cursor := Cursor_new r 0.

Definition Run_seek (r : Run) (key : list Z) : option Cursor :=
  after ← partition (Run_nblocks r) (λ block, fence ← Run_fence r block; Some (slice_lt fence key));
  skip_below r key (Cursor_new r (Z.max 0 (after - 1))).

Fixpoint find_loop {S : Type} (fuel : nat) (r : Run) (key : list Z) (accept : Hit → S → bool * S)
    (c : Cursor) (s : S) : option (option Hit * S) :=
  match fuel with
  | O => None
  | Datatypes.S fuel =>
      '(more, c) ← Cursor_advance r c;
      if (more : bool) then
        if negb (slice_eq (c_key c) key) then Some (None, s) else
        let '(taken, s) := accept (c_hit c) s in
        if (taken : bool) then Some (Some (c_hit c), s) else find_loop fuel r key accept c s
      else Some (None, s)
  end.

Definition Run_find {S : Type} (r : Run) (key : list Z) (accept : Hit → S → bool * S) (s : S)
    : option (option Hit * S) :=
  if Run_is_empty r || negb (Run_may_hold r key) then Some (None, s) else
  c ← Run_seek r key;
  find_loop (fuel_of r) r key accept c s.

Inductive Bound : Type :=
| Unbounded
| Included (key : list Z)
| Excluded (key : list Z).

Record Range : Type := mkRange { r_cursor : Cursor; r_hi : Bound; r_done : bool }.

Definition Run_range (r : Run) (lo hi : Bound) : option Range :=
  cursor ←
    match lo with
    | Unbounded => Some (Run_cursor r)
    | Included key => Run_seek r key
    | Excluded key => c ← Run_seek r key; skip_equal r key c
    end;
  Some (mkRange cursor hi false).

Definition Range_next_entry (r : Run) (g : Range) : option (option (list Z * Hit) * Range) :=
  if r_done g then Some (None, mkRange (r_cursor g) (r_hi g) true) else
  '(more, c) ← Cursor_advance r (r_cursor g);
  if negb more then Some (None, mkRange c (r_hi g) true) else
  let within :=
    match r_hi g with
    | Unbounded => true
    | Included hi => slice_le (c_key c) hi
    | Excluded hi => slice_lt (c_key c) hi
    end in
  if (within : bool) then Some (Some (c_key c, c_hit c), mkRange c (r_hi g) (r_done g))
  else Some (None, mkRange c (r_hi g) true).

(** What a caller that asks [next_entry] until it answers [None] is given. *)
Fixpoint Range_collect (fuel : nat) (r : Run) (g : Range) : option (list (list Z * Hit)) :=
  match fuel with
  | O => None
  | S fuel =>
      '(e, g) ← Range_next_entry r g;
      match e with
      | Some e => es ← Range_collect fuel r g; Some (e :: es)
      | None => Some []
      end
  end.

(** ** Merging *)

(** The loop over the cursors: the first live one whose key is the least. *)
Fixpoint least_loop (at_ : nat) (cursors : list (Cursor * bool)) (least : option (nat * list Z))
    : option (nat * list Z) :=
  match cursors with
  | [] => least
  | (c, live) :: cursors =>
      let better := match least with None => true | Some (_, k) => slice_lt (c_key c) k end in
      least_loop (S at_) cursors (if live && better then Some (at_, c_key c) else least)
  end.

Definition least_of (cursors : list (Cursor * bool)) : option nat :=
  fst <$> least_loop 0 cursors None.

Fixpoint merge_loop {S : Type} (fuel : nat) (runs : list Run)
    (keep : list Z → Hit → S → bool * S) (cursors : list (Cursor * bool)) (w : RunWriter) (s : S)
    : option (Run * S) :=
  match fuel with
  | O => None
  | Datatypes.S fuel =>
      match least_of cursors with
      | None => Some (RunWriter_finish w, s)
      | Some at_ =>
          r ← runs !! at_;
          '(c, _) ← cursors !! at_;
          let '(kept, s) := keep (c_key c) (c_hit c) s in
          w ← (if (kept : bool)
               then match RunWriter_push (c_key c) (c_hit c) w with
                    | Ok w => Some w
                    | Err _ => None
                    end
               else Some w);
          '(live, c) ← Cursor_advance r c;
          merge_loop fuel runs keep (<[at_ := (c, live)]> cursors) w s
      end
  end.

Definition merge_fuel (runs : list Run) : nat :=
  S (sum_list ((λ r, length (run_blocks r)) <$> runs)).

Definition Run_merge {S : Type} (runs : list Run) (keep : list Z → Hit → S → bool * S) (s : S)
    : option (Run * S) :=
  cursors ← mapM (λ r, '(live, c) ← Cursor_advance r (Run_cursor r); Some (c, live)) runs;
  merge_loop (merge_fuel runs) runs keep cursors RunWriter_new s.

(** * Varints read back *)

Lemma lor_split7 n : 0 ≤ n → Z.lor (n `mod` 128) ((n ≫ 7) ≪ 7) = n.
Proof.
  intros Hn. apply Z.bits_inj'. intros i Hi. rewrite Z.lor_spec.
  destruct (decide (i < 7)).
  - rewrite Z.mod_pow2_bits_low with (n := 7) by lia.
    rewrite Z.shiftl_spec_low by lia. apply orb_false_r.
  - rewrite Z.mod_pow2_bits_high with (n := 7) by lia.
    rewrite Z.shiftl_spec, Z.shiftr_spec by lia. simpl. f_equal. lia.
Qed.

Lemma land_low7 b : Z.land b 0x7F = b `mod` 128.
Proof. change 0x7F with (Z.ones 7). rewrite Z.land_ones by lia. done. Qed.

Lemma wrap8_mod7 n : wrap 8 n `mod` 128 = n `mod` 128.
Proof.
  unfold wrap. apply Z.bits_inj'. intros i Hi. destruct (decide (i < 7)).
  - rewrite !(Z.mod_pow2_bits_low _ 7), Z.mod_pow2_bits_low by lia. done.
  - rewrite !(Z.mod_pow2_bits_high _ 7) by lia. done.
Qed.

Lemma lor80_low7 b : Z.lor b 0x80 `mod` 128 = b `mod` 128.
Proof.
  rewrite <-!land_low7, Z.land_lor_distr_l. change (Z.land 0x80 0x7F) with 0. apply Z.lor_0_r.
Qed.

Lemma lor80_land80 b : Z.land (Z.lor b 0x80) 0x80 = 0x80.
Proof.
  rewrite Z.land_lor_distr_l. apply Z.bits_inj'. intros i Hi.
  rewrite Z.lor_spec, Z.land_spec. change (Z.land 0x80 0x80) with 0x80.
  destruct (Z.testbit b i), (Z.testbit 0x80 i); done.
Qed.

Lemma small_land80 n : 0 ≤ n < 0x80 → Z.land n 0x80 = 0.
Proof.
  intros Hn. change 0x80 with (2 ^ 7). apply Z.bits_inj'. intros i Hi.
  rewrite Z.land_spec, Z.bits_0, Z.pow2_bits_eqb by done.
  destruct (Z.eqb_spec 7 i) as [<-|]; [|apply andb_false_r].
  rewrite (fits_testbit 7 n) by (unfold fits in *; lia). done.
Qed.

Lemma lookup_mid pre (b : Z) post : (pre ++ b :: post) !! Z.to_nat (zlen pre) = Some b.
Proof. unfold zlen. rewrite Nat2Z.id. by apply list_lookup_middle. Qed.

Lemma wrap_low_shift n k :
  0 ≤ k ≤ 64 → fits (64 - k) n → wrap 64 ((n `mod` 128) ≪ k) = (n `mod` 128) ≪ k.
Proof.
  intros Hk Hn. apply wrap_id. rewrite Z.shiftl_mul_pow2 by lia.
  assert (0 ≤ n `mod` 128) by (apply Z.mod_pos_bound; lia).
  assert (n `mod` 128 ≤ n) by (apply Z.mod_le; unfold fits in Hn; lia).
  unfold fits in *. replace 64 with ((64 - k) + k) by lia. rewrite Z.pow_add_r by lia.
  replace (64 - k + k - k) with (64 - k) in Hn by lia. nia.
Qed.

Lemma varint_loop_cons shift shifts bytes at_ n :
  varint_loop (shift :: shifts) bytes at_ n =
    bytes !! Z.to_nat at_ ≫= λ byte,
      let n := Z.lor n (wrap 64 (Z.land byte 0x7F ≪ shift)) in
      if Z.land byte 0x80 =? 0 then Some (n, at_ + 1) else varint_loop shifts bytes (at_ + 1) n.
Proof. done. Qed.

(** From any byte of a varint on: [k] groups of seven bits are read, [fuel] may follow. *)
Lemma varint_loop_put fuel k n acc pre post :
  (fuel + k = 9)%nat → fits (64 - Z.of_nat (7 * k)) n →
  varint_loop ((λ i : nat, Z.of_nat (7 * i)) <$> seq k (S fuel))
      (pre ++ put_varint_loop fuel n ++ post) (zlen pre) acc =
    Some (Z.lor acc (n ≪ Z.of_nat (7 * k)), zlen pre + zlen (put_varint_loop fuel n)).
Proof.
  revert k n acc pre. induction fuel as [|fuel IH]; intros k n acc pre Hk Hn.
  - assert (k = 9)%nat as -> by lia. simpl in Hn. unfold fits in Hn.
    cbn -[Z.shiftl Z.land Z.lor]. rewrite lookup_mid. cbn -[Z.shiftl Z.land Z.lor].
    rewrite (wrap_id 8) by (unfold fits; lia).
    rewrite small_land80 by lia. simpl (0 =? 0). cbv iota. apply (f_equal Some), f_equal2; [|zlen_lia].
    rewrite land_low7, wrap_low_shift by (unfold fits; lia).
    rewrite (Z.mod_small n 128) by lia. done.
  - rewrite <-cons_seq, fmap_cons, varint_loop_cons. cbn [put_varint_loop].
    assert (0 ≤ n) by (unfold fits in Hn; lia). destruct (Z.geb_spec n 0x80) as [Hbig|Hsmall].
    + cbn [app]. rewrite lookup_mid. rewrite some_bind. cbv beta zeta.
      rewrite lor80_land80. simpl (128 =? 0). cbv iota.
      rewrite land_low7, lor80_low7, wrap8_mod7, wrap_low_shift by (done || lia).
      specialize (IH (S k) (n ≫ 7) (Z.lor acc ((n `mod` 128) ≪ Z.of_nat (7 * k)))
        (pre ++ [Z.lor (wrap 8 n) 128])).
      rewrite zlen_app, <-app_assoc in IH. change (zlen [_]) with 1 in IH.
      cbn [app] in IH. rewrite IH; [|lia|].
      * apply (f_equal Some), f_equal2; [|zlen_lia]. rewrite <-Z.lor_assoc. f_equal.
        rewrite <-(lor_split7 n) at 3 by done.
        rewrite Z.shiftl_lor, Z.shiftl_shiftl by lia. do 2 f_equal. lia.
      * unfold fits in *. rewrite Z.shiftr_div_pow2 by lia. split; [by apply Z.div_pos|].
        apply Z.div_lt_upper_bound; [lia|]. rewrite <-Z.pow_add_r by lia.
        replace (7 + (64 - Z.of_nat (7 * S k))) with (64 - Z.of_nat (7 * k)) by lia. lia.
    + cbn [app]. rewrite lookup_mid, some_bind. cbv beta zeta.
      rewrite (wrap_id 8) by (unfold fits; lia). rewrite small_land80 by lia.
      simpl (0 =? 0). cbv iota. apply (f_equal Some), f_equal2; [|zlen_lia].
      rewrite land_low7, wrap_low_shift by (done || lia). by rewrite Z.mod_small by lia.
Qed.

Lemma varint_put n pre post :
  u64 n → varint (pre ++ put_varint n ++ post) (zlen pre) = Some (n, zlen pre + zlen (put_varint n)).
Proof.
  intros Hn. unfold varint, put_varint. rewrite (varint_loop_put 9 0) by done.
  by rewrite Z.lor_0_l, Z.shiftl_0_r.
Qed.

Lemma put_varint_len n : zlen (put_varint n) = varint_len n.
Proof.
  unfold put_varint, varint_len. generalize 9%nat. intros fuel. revert n.
  induction fuel as [|fuel IH]; intros n; [done|]. simpl.
  destruct (n >=? 128); [|done]. by rewrite zlen_cons, IH.
Qed.

Lemma put_varint_pos n : 0 < zlen (put_varint n).
Proof.
  unfold put_varint. generalize 9%nat. intros [|fuel]; cbn [put_varint_loop]; [done|].
  destruct (n >=? 128); [|done]. rewrite zlen_cons.
  pose proof (zlen_nonneg (put_varint_loop fuel (n ≫ 7))). lia.
Qed.

(** A varint that is read moves on by a byte at the least, and stays inside the bytes. *)
Lemma varint_progress bytes at_ n at' :
  0 ≤ at_ → varint bytes at_ = Some (n, at') → at_ < at' ≤ zlen bytes.
Proof.
  unfold varint. generalize 0 at 2. generalize ((λ i : nat, Z.of_nat (7 * i)) <$> seq 0 10).
  intros shifts. revert at_. induction shifts as [|sh shifts IH]; intros at_ acc Hat; [done|].
  simpl. destruct (bytes !! Z.to_nat at_) as [b|] eqn:E; [|done]. simpl.
  apply lookup_lt_Some in E. destruct (_ =? 0).
  - intros [= <- <-]. unfold zlen. lia.
  - intros ?%IH; lia.
Qed.

(** * What a run holds

    The entries of a run, cut into the blocks the writer cut them into. *)

Definition Entry : Type := list Z * Hit.

Definition entry_ok (e : Entry) : Prop := u64 (zlen e.1) ∧ u64 (rid e.2) ∧ u64 (ts e.2).

Definition entry_bytes (shared : nat) (e : Entry) : list Z :=
  put_varint (Z.of_nat shared) ++ put_varint (zlen e.1 - Z.of_nat shared) ++ drop shared e.1
  ++ put_varint (rid e.2) ++ put_varint (ts e.2).

(** Entries after one with the key [prev]. *)
Fixpoint entries_bytes (prev : list Z) (es : list Entry) : list Z :=
  match es with
  | [] => []
  | e :: es => entry_bytes (common e.1 prev) e ++ entries_bytes e.1 es
  end.

Definition block_bytes (b : list Entry) : list Z := entries_bytes [] b.

Definition fence_of (b : list Entry) : list Z := match b with [] => [] | e :: _ => e.1 end.

(** Where the sections [ls] start, the first at [a], and where the last ends. *)
Fixpoint bounds (a : Z) (ls : list (list Z)) : list Z :=
  a :: match ls with [] => [] | l :: ls => bounds (a + zlen l) ls end.

Definition key_le (e e' : Entry) : Prop := sle e.1 e'.1.

(** The run [r] was written as the blocks [bs]. *)
Record run_view (r : Run) (bs : list (list Entry)) : Prop := {
  view_blocks : run_blocks r = concat (block_bytes <$> bs);
  view_starts : run_starts r = bounds 0 (block_bytes <$> bs);
  view_fences : run_fences r = concat (fence_of <$> bs);
  view_fence_starts : run_fence_starts r = bounds 0 (fence_of <$> bs);
  view_nonempty : Forall (λ b, b ≠ []) bs;
  view_ok : Forall entry_ok (concat bs);
  view_sorted : StronglySorted key_le (concat bs);
  view_words : run_bloom r ≠ [] ∧ Forall u64 (run_bloom r);
  view_bloom : ∀ e, e ∈ concat bs → Bloom_may_hold (hash e.1) (run_bloom r) = true;
  view_len : run_len r = zlen (concat bs) }.

(** The run was written with the entries [es], in that order. *)
Definition written (r : Run) (es : list Entry) : Prop := ∃ bs, run_view r bs ∧ concat bs = es.

(** And its blocks have a length a [usize] holds, as every slice does. *)
Definition holds (r : Run) (es : list Entry) : Prop :=
  written r es ∧ zlen (run_blocks r) ≤ usize_max.

Lemma common_le a b : (common a b ≤ length a)%nat ∧ (common a b ≤ length b)%nat.
Proof.
  revert b. induction a as [|x a IH]; intros [|y b]; simpl; [lia..|].
  destruct (x =? y); simpl; [|lia]. specialize (IH b). lia.
Qed.

Lemma common_take a b : take (common a b) b = take (common a b) a.
Proof.
  revert b. induction a as [|x a IH]; intros [|y b]; simpl; [done..|].
  destruct (Z.eqb_spec x y) as [->|]; [|done]. simpl. by rewrite IH.
Qed.

Lemma common_nil_r a : common a [] = 0%nat.
Proof. by destruct a. Qed.

Lemma common_self a : common a a = length a.
Proof. induction a as [|x a IH]; [done|]. simpl. by rewrite Z.eqb_refl, IH. Qed.

Lemma entries_bytes_snoc prev es e :
  entries_bytes prev (es ++ [e]) =
    entries_bytes prev es ++ entry_bytes (common e.1 (default prev ((λ e, e.1) <$> last es))) e.
Proof.
  revert prev. induction es as [|e' es IH]; intros prev; simpl; [by rewrite app_nil_r|].
  rewrite IH, <-app_assoc, last_cons. do 2 f_equal. by destruct (last es).
Qed.

Lemma zlen_concat_app (ls : list (list Z)) l : zlen (concat (ls ++ [l])) = zlen (concat ls) + zlen l.
Proof. rewrite concat_app, zlen_app. simpl. by rewrite app_nil_r. Qed.

(** The bounds of one more section: the sections before it keep theirs. *)
Lemma bounds_snoc a ls l :
  bounds a (ls ++ [l]) = bounds a ls ++ [a + zlen (concat (ls ++ [l]))].
Proof.
  revert a. induction ls as [|l' ls IH]; intros a; simpl.
  - by rewrite app_nil_r.
  - rewrite IH. do 3 f_equal. rewrite !zlen_app. lia.
Qed.

Lemma bounds_last a ls : ∃ bs, bounds a ls = bs ++ [a + zlen (concat ls)].
Proof.
  revert a. induction ls as [|l ls IH]; intros a; simpl.
  - exists []. by rewrite zlen_nil, Z.add_0_r.
  - destruct (IH (a + zlen l)) as [bs ->]. exists (a :: bs). simpl. by rewrite zlen_app, Z.add_assoc.
Qed.

Lemma length_bounds a ls : length (bounds a ls) = S (length ls).
Proof. revert a. induction ls as [|l ls IH]; intros a; [done|]. simpl. by rewrite IH. Qed.

Lemma drop_bounds a ls n :
  (n ≤ length ls)%nat → drop n (bounds a ls) = bounds (a + zlen (concat (take n ls))) (drop n ls).
Proof.
  revert a ls. induction n as [|n IH]; intros a ls Hn.
  - simpl. by rewrite zlen_nil, Z.add_0_r.
  - destruct ls as [|l ls]; simpl in *; [lia|]. rewrite IH by lia. f_equal. rewrite zlen_app. lia.
Qed.

Lemma lookup_bounds a ls n :
  (n ≤ length ls)%nat → bounds a ls !! n = Some (a + zlen (concat (take n ls))).
Proof.
  intros Hn. replace n with (n + 0)%nat at 1 by lia. rewrite <-lookup_drop, drop_bounds by done.
  by destruct (drop n ls).
Qed.

(** * The writer *)

Record writer_view (w : RunWriter) (bs : list (list Entry)) : Prop := {
  wview_blocks : w_blocks w = concat (block_bytes <$> bs);
  wview_starts : w_starts w ++ [zlen (w_blocks w)] = bounds 0 (block_bytes <$> bs);
  wview_fences : w_fences w = concat (fence_of <$> bs);
  wview_fence_starts : w_fence_starts w ++ [zlen (w_fences w)] = bounds 0 (fence_of <$> bs);
  wview_nonempty : Forall (λ b, b ≠ []) bs;
  wview_ok : Forall entry_ok (concat bs);
  wview_sorted : StronglySorted key_le (concat bs);
  wview_hashes : ∀ e, e ∈ concat bs → hash e.1 ∈ w_hashes w;
  wview_last : ∀ e, last (concat bs) = Some e → w_last w = e.1;
  wview_len : w_len w = zlen (concat bs) }.

Lemma writer_new_view : writer_view RunWriter_new [].
Proof. split; try done; try constructor; intros; set_solver. Qed.

Lemma concat_snoc {A} (ls : list (list A)) l : concat (ls ++ [l]) = concat ls ++ l.
Proof. rewrite concat_app. simpl. by rewrite app_nil_r. Qed.

(** Appending a section, to the two sequences the writer keeps for it. *)
Lemma bounds_push starts ls l :
  starts ++ [zlen (concat ls)] = bounds 0 ls →
  (starts ++ [zlen (concat ls)]) ++ [zlen (concat ls ++ l)] = bounds 0 (ls ++ [l]).
Proof. intros ->. by rewrite bounds_snoc, Z.add_0_l, concat_snoc. Qed.

(** The same when the last section grows. *)
Lemma bounds_grow starts ls l l' :
  starts ++ [zlen (concat (ls ++ [l]))] = bounds 0 (ls ++ [l]) →
  starts ++ [zlen (concat ls ++ l')] = bounds 0 (ls ++ [l']).
Proof. rewrite !bounds_snoc, !Z.add_0_l, !concat_snoc. by intros [-> _]%app_inj_tail. Qed.

Lemma StronglySorted_snoc es (e : Entry) :
  StronglySorted key_le es → (∀ e', e' ∈ es → key_le e' e) → StronglySorted key_le (es ++ [e]).
Proof.
  induction 1 as [|x es Hs IH Hx]; intros Hle; simpl.
  - repeat constructor.
  - constructor; [apply IH; set_solver|]. apply Forall_app. split; [done|].
    apply Forall_singleton, Hle. set_solver.
Qed.

Lemma entry_bytes_push shared (e : Entry) :
  put_varint (Z.of_nat shared) ++ put_varint (zlen e.1 - Z.of_nat shared)
  ++ drop (Z.to_nat (Z.of_nat shared)) e.1 ++ put_varint (rid e.2) ++ put_varint (ts e.2)
  = entry_bytes shared e.
Proof. by rewrite Nat2Z.id. Qed.

Section push.
Context (w : RunWriter) (bs : list (list Entry)) (e : Entry).
Context (Hw : writer_view w bs) (Hok : entry_ok e).
Context (Hle : ∀ e', e' ∈ concat bs → key_le e' e).

Lemma push_entry_new_block hashes :
  (∀ e', e' ∈ concat bs ++ [e] → hash e'.1 ∈ hashes) →
  writer_view
    (mkRunWriter (w_blocks w ++ entry_bytes 0 e) (w_starts w ++ [zlen (w_blocks w)])
       (w_fences w ++ e.1) (w_fence_starts w ++ [zlen (w_fences w)]) hashes e.1 (w_len w + 1))
    (bs ++ [[e]]).
Proof.
  intros Hh. assert (block_bytes [e] = entry_bytes 0 e) as Eb.
  { unfold block_bytes. simpl. by rewrite common_nil_r, app_nil_r. }
  destruct Hw as [Eblocks Estarts Efences Efs Hne Hoks Hs _ _ Elen].
  split; cbn [w_blocks w_starts w_fences w_fence_starts w_hashes w_last w_len];
    rewrite ?fmap_app, ?concat_snoc; cbn [fmap list_fmap].
  - by rewrite concat_snoc, Eblocks, Eb.
  - rewrite Eblocks in *. rewrite <-Eb. by apply bounds_push.
  - by rewrite concat_snoc, Efences.
  - rewrite Efences in *. by apply bounds_push.
  - apply Forall_app. split; [done|]. by constructor.
  - apply Forall_app. split; [done|]. by constructor.
  - by apply StronglySorted_snoc.
  - done.
  - intros e'. rewrite last_snoc. by intros [= ->].
  - rewrite zlen_app, Elen. done.
Qed.

Lemma push_entry_same_block hashes :
  w_starts w ≠ [] →
  (∀ e', e' ∈ concat bs ++ [e] → hash e'.1 ∈ hashes) →
  ∃ bs',
    writer_view
      (mkRunWriter (w_blocks w ++ entry_bytes (common e.1 (w_last w)) e) (w_starts w)
         (w_fences w) (w_fence_starts w) hashes e.1 (w_len w + 1)) bs'
    ∧ concat bs' = concat bs ++ [e].
Proof.
  intros Hst Hh. destruct Hw as [Eblocks Estarts Efences Efs Hne Hoks Hs _ Elast Elen].
  destruct bs as [|b bs0 _] using rev_ind.
  { simpl in Estarts. destruct (w_starts w) as [|? [|]]; by try discriminate. }
  apply Forall_app in Hne as [Hne [Hb _]%Forall_cons].
  rewrite !fmap_app in *. cbn [fmap list_fmap] in *. rewrite !concat_snoc in *.
  assert (block_bytes (b ++ [e]) = block_bytes b ++ entry_bytes (common e.1 (w_last w)) e) as Eb.
  { unfold block_bytes. rewrite entries_bytes_snoc.
    destruct b as [|e0 b _] using rev_ind; [done|]. rewrite last_snoc. simpl.
    by rewrite (Elast e0) by (by rewrite app_assoc, last_snoc). }
  assert (fence_of (b ++ [e]) = fence_of b) as Ef by (by destruct b).
  exists (bs0 ++ [b ++ [e]]). split; [|by rewrite concat_snoc, app_assoc].
  split; cbn [w_blocks w_starts w_fences w_fence_starts w_hashes w_last w_len];
    rewrite ?fmap_app, ?concat_snoc; cbn [fmap list_fmap]; rewrite ?concat_snoc, ?app_assoc.
  - by rewrite Eblocks, Eb, app_assoc.
  - rewrite Eblocks in *. rewrite Eb, <-app_assoc. eapply bounds_grow. by rewrite concat_snoc.
  - by rewrite Efences, Ef.
  - rewrite Efences in *. by rewrite Ef.
  - apply Forall_app. split; [done|]. constructor; [|done]. by destruct b.
  - apply Forall_app. split; [done|]. by constructor.
  - by apply StronglySorted_snoc.
  - done.
  - intros e'. rewrite last_snoc. by intros [= ->].
  - rewrite zlen_app, Elen. done.
Qed.

Lemma push_entry_view shared fresh :
  (w_starts w ≠ [] → shared = Z.of_nat (common e.1 (w_last w))) →
  (fresh = true ∨ hash e.1 ∈ w_hashes w) →
  ∃ bs', writer_view (push_entry e.1 e.2 shared fresh w) bs' ∧ concat bs' = concat bs ++ [e].
Proof.
  intros Hsh Hfr. unfold push_entry.
  set (hashes := if fresh then _ else _).
  assert (∀ e', e' ∈ concat bs ++ [e] → hash e'.1 ∈ hashes) as Hh.
  { intros e' [Hin| ->%list_elem_of_singleton]%elem_of_app; unfold hashes.
    - pose proof (wview_hashes _ _ Hw e' Hin). destruct fresh; set_solver.
    - destruct fresh; [set_solver|]. by destruct Hfr. }
  destruct (_ || _) eqn:Enew.
  - exists (bs ++ [[e]]). split; [exact (push_entry_new_block hashes Hh)|]. by rewrite concat_snoc.
  - apply orb_false_iff in Enew as [Ez _].
    assert (w_starts w ≠ []) as Hst by (intros E; rewrite E in Ez; done).
    rewrite (Hsh Hst). rewrite entry_bytes_push. by apply push_entry_same_block.
Qed.
End push.

Lemma wview_last_max w bs e :
  writer_view w bs → e ∈ concat bs → sle e.1 (w_last w).
Proof.
  intros Hw Hin. pose proof (wview_sorted _ _ Hw) as Hs. pose proof (wview_last _ _ Hw) as Hl.
  destruct (concat bs) as [|e0 es _] using rev_ind; [set_solver|].
  rewrite (Hl e0) by apply last_snoc.
  apply elem_of_app in Hin as [Hin| ->%list_elem_of_singleton]; [|done].
  clear Hw Hl. induction es as [|x es IH]; [set_solver|]. simpl in Hs.
  apply StronglySorted_inv in Hs as [Hs Hx]. apply elem_of_cons in Hin as [->|Hin]; [|by apply IH].
  apply Forall_app in Hx as [_ [Hx _]%Forall_cons]. done.
Qed.

Lemma wview_len_0 w bs : writer_view w bs → (w_len w =? 0) = true ↔ bs = [].
Proof.
  intros Hw. rewrite (wview_len _ _ Hw), Z.eqb_eq. split; [|by intros ->].
  intros E%nil_zlen. pose proof (wview_nonempty _ _ Hw) as Hne. destruct bs as [|b bs]; [done|].
  apply Forall_cons in Hne as [Hb _]. simpl in E. by apply app_nil in E as [-> _].
Qed.

Lemma wview_last_in w bs :
  writer_view w bs → (w_len w =? 0) = false → ∃ e, e ∈ concat bs ∧ e.1 = w_last w.
Proof.
  intros Hw E0. pose proof (wview_last _ _ Hw) as Hl. rewrite (wview_len _ _ Hw) in E0.
  destruct (concat bs) as [|e0 es _] using rev_ind; [done|].
  exists e0. rewrite (Hl e0) by apply last_snoc. set_solver.
Qed.

(** [push] takes an entry whose key is not less than the last one's. *)
Lemma RunWriter_push_view w bs e :
  writer_view w bs → entry_ok e → (bs = [] ∨ sle (w_last w) e.1) →
  ∃ w' bs', RunWriter_push e.1 e.2 w = Ok w' ∧ writer_view w' bs'
            ∧ concat bs' = concat bs ++ [e].
Proof.
  intros Hw Hok Hle. unfold RunWriter_push.
  destruct (w_len w =? 0) eqn:E0.
  { apply (wview_len_0 _ _ Hw) in E0 as ->.
    destruct (push_entry_view w [] e Hw Hok ltac:(set_solver) 0 true) as (bs'&?&?); [|by left|eauto].
    intros Hst. pose proof (wview_starts _ _ Hw) as Es.
    destruct (w_starts w) as [|? [|]]; by try discriminate. }
  destruct Hle as [->|Hle].
  { by rewrite (proj2 (wview_len_0 _ _ Hw)) in E0. }
  assert (∀ e', e' ∈ concat bs → key_le e' e) as Hall.
  { intros e' Hin. unfold key_le. by rewrite (wview_last_max w bs e' Hw Hin). }
  destruct (slice_cmp e.1 (w_last w)) eqn:Ec.
  - apply slice_cmp_Eq in Ec.
    destruct (push_entry_view w bs e Hw Hok Hall (zlen e.1) false) as (bs'&?&?); [..|eauto].
    + intros _. by rewrite <-Ec, common_self.
    + right. destruct (wview_last_in w bs Hw E0) as (e0&Hin&E). rewrite Ec, <-E.
      by apply (wview_hashes _ _ Hw).
  - unfold sle, slice_le in Hle. by rewrite (slice_cmp_antisym e.1), Ec in Hle.
  - destruct (push_entry_view w bs e Hw Hok Hall (Z.of_nat (common e.1 (w_last w))) true)
      as (bs'&?&?); eauto.
Qed.

(** The entries handed to [push] one after another. *)
Fixpoint push_all (es : list Entry) (w : RunWriter) : Result RunWriter :=
  match es with
  | [] => Ok w
  | e :: es => w ← RunWriter_push e.1 e.2 w; push_all es w
  end.

Lemma push_all_view es w bs :
  writer_view w bs → Forall entry_ok es → StronglySorted key_le (concat bs ++ es) →
  ∃ w' bs', push_all es w = Ok w' ∧ writer_view w' bs' ∧ concat bs' = concat bs ++ es.
Proof.
  revert w bs. induction es as [|e es IH]; intros w bs Hw Hok Hs.
  { exists w, bs. by rewrite app_nil_r. }
  apply Forall_cons in Hok as [He Hok].
  destruct (RunWriter_push_view w bs e Hw He) as (w1&bs1&E1&Hw1&Eb1).
  { destruct (w_len w =? 0) eqn:E0; [left; by apply (wview_len_0 _ _ Hw)|right].
    destruct (wview_last_in w bs Hw E0) as (e0&Hin&<-).
    apply list_elem_of_split in Hin as (l1&l2&E). rewrite E, <-app_assoc in Hs.
    clear -Hs. induction l1 as [|x l1 IH]; simpl in Hs; apply StronglySorted_inv in Hs as [Hs Hx].
    - rewrite Forall_forall in Hx. apply Hx. set_solver.
    - by apply IH. }
  cbn [push_all]. rewrite E1. destruct (IH w1 bs1 Hw1 Hok) as (w'&bs'&E'&Hw'&Eb').
  { by rewrite Eb1, <-app_assoc. }
  exists w', bs'. by rewrite Eb', Eb1, <-app_assoc.
Qed.

Lemma finish_view w bs : writer_view w bs → run_view (RunWriter_finish w) bs.
Proof.
  intros Hw. destruct Hw. split; try done.
  - apply Bloom_of_words.
  - intros e Hin. simpl. by apply Bloom_of_holds, wview_hashes0.
Qed.

(** [push] refuses a key that is less than the one before. *)
Lemma RunWriter_push_refuses w bs e :
  writer_view w bs → bs ≠ [] → ¬ sle (w_last w) e.1 →
  RunWriter_push e.1 e.2 w = Err (Internal "index run entries out of key order").
Proof.
  intros Hw Hne Hlt. unfold RunWriter_push. destruct (w_len w =? 0) eqn:E0.
  { by apply (wview_len_0 _ _ Hw) in E0. }
  apply slice_lt_sle in Hlt. unfold slice_lt in Hlt. by destruct (slice_cmp e.1 (w_last w)).
Qed.
