(* ===== verification/RunRead.v ===== *)
(** The theorems on reading a run: the cursor, lookup, seek, range and merge of
    [rudb-index/src/run.rs], whose definitions are in [Run]. *)

From S2P Require Import Prelude Bloom Run.
Local Open Scope Z_scope.

(** * One entry *)

Lemma varint_at n pre post at_ :
  u64 n → at_ = zlen pre →
  varint (pre ++ put_varint n ++ post) at_ = Some (n, zlen (pre ++ put_varint n)).
Proof. intros Hn ->. rewrite zlen_app. by apply varint_put. Qed.

Lemma zlen_app_le {A} (l l' : list A) : zlen l ≤ zlen (l ++ l').
Proof. rewrite zlen_app. pose proof (zlen_nonneg l'). lia. Qed.

Lemma read_entry_bytes pre e shared post first key :
  entry_ok e → (shared ≤ length e.1)%nat → (shared ≤ length key)%nat →
  take shared key = take shared e.1 → (first = true → shared = 0%nat) →
  zlen (pre ++ entry_bytes shared e ++ post) ≤ usize_max →
  read_entry (pre ++ entry_bytes shared e ++ post) first (zlen pre) key =
    (Some (e.2, zlen (pre ++ entry_bytes shared e)), e.1).
Proof.
  intros (Hk&Hr&Ht) Hs1 Hs2 Htake Hfirst Hmax. unfold read_entry, entry_bytes in *.
  assert (Z.of_nat (length e.1) = zlen e.1) as El by done.
  repeat rewrite <-app_assoc in *. rewrite varint_at; [|unfold fits in *; lia|done].
  bind_step. rewrite (app_assoc pre) in *.
  rewrite varint_at; [|unfold fits in *; lia|done]. bind_step.
  rewrite (proj2 (orb_false_iff _ _)).
  2:{ split; [unfold zlen; lia|]. destruct first; [|done]. by rewrite Hfirst. }
  rewrite (app_assoc (pre ++ _)) in *.
  set (pre2 := (pre ++ _) ++ _) in *.
  replace (zlen pre2 + (zlen e.1 - Z.of_nat shared)) with (zlen (pre2 ++ drop shared e.1)) by zlen_lia.
  rewrite (app_assoc pre2) in *. set (pre3 := pre2 ++ _) in *.
  destruct (Z.gtb_spec (zlen pre3) usize_max) as [Hgt|_].
  { by pose proof (Z.le_trans _ _ _ (zlen_app_le _ _) Hmax); lia. }
  rewrite get_range_in; [|split; [apply zlen_nonneg|apply zlen_app_le]|apply zlen_app_le].
  bind_step.
  rewrite varint_at by done. bind_step. rewrite (app_assoc pre3). rewrite varint_at by done. bind_step.
  replace (slice _ _ _) with (drop shared e.1).
  2:{ unfold pre3. rewrite <-!app_assoc. symmetry. slice_field. done. }
  rewrite Nat2Z.id, Htake, take_drop. destruct e as [k [r t]]. unfold pre3, pre2. by rewrite <-!app_assoc.
Qed.

(** * The cursor *)

(** Advancing [c] again and again answers the entries [es], and then that there are no more. *)
Fixpoint reads (r : Run) (c : Cursor) (es : list Entry) : Prop :=
  match es with
  | [] => ∃ c', Cursor_advance r c = Some (false, c')
  | e :: es => ∃ c', Cursor_advance r c = Some (true, c') ∧ c_key c' = e.1 ∧ c_hit c' = e.2
                     ∧ c_held c' = false ∧ reads r c' es
  end.

Lemma entries_bytes_cat prev es es' :
  entries_bytes prev (es ++ es') =
    entries_bytes prev es ++ entries_bytes (default prev ((λ e, e.1) <$> last es)) es'.
Proof.
  revert prev. induction es as [|e es IH]; intros prev; simpl; [done|].
  rewrite IH, <-app_assoc, last_cons. do 2 f_equal. by destruct (last es).
Qed.

Lemma entry_bytes_pos shared e : 0 < zlen (entry_bytes shared e).
Proof.
  unfold entry_bytes. rewrite zlen_app. pose proof (put_varint_pos (Z.of_nat shared)).
  match goal with |- _ < _ + zlen ?l => pose proof (zlen_nonneg l) end. lia.
Qed.

Lemma block_bytes_pos b : b ≠ [] → 0 < zlen (block_bytes b).
Proof.
  destruct b as [|e b]; [done|]. intros _. unfold block_bytes. simpl. rewrite zlen_app.
  pose proof (entry_bytes_pos (common e.1 []) e). pose proof (zlen_nonneg (entries_bytes e.1 b)). lia.
Qed.

Section cursor.
Context (r : Run) (bs : list (list Entry)).
Context (Hv : run_view r bs) (Hmax : zlen (run_blocks r) ≤ usize_max).

Lemma view_length_starts : length (run_starts r) = S (length bs).
Proof. by rewrite (view_starts _ _ Hv), length_bounds, length_fmap. Qed.

Lemma view_nblocks : Run_nblocks r = zlen bs.
Proof.
  unfold Run_nblocks, zlen. rewrite view_length_starts. lia.
Qed.

Lemma view_start bs1 bs2 :
  bs = bs1 ++ bs2 →
  run_starts r !! Z.to_nat (zlen bs1) = Some (zlen (concat (block_bytes <$> bs1))).
Proof.
  intros E. rewrite (view_starts _ _ Hv), E. unfold zlen at 1. rewrite Nat2Z.id, fmap_app.
  rewrite lookup_bounds, take_app_length' by (rewrite ?length_app, ?length_fmap; lia). done.
Qed.

Lemma view_end bs1 b bs2 :
  bs = bs1 ++ b :: bs2 →
  run_starts r !! Z.to_nat (zlen bs1 + 1) =
    Some (zlen (concat (block_bytes <$> bs1) ++ block_bytes b)).
Proof.
  intros E. replace (zlen bs1 + 1) with (zlen (bs1 ++ [b])) by zlen_lia.
  rewrite (view_start (bs1 ++ [b]) bs2) by (by rewrite <-app_assoc).
  rewrite fmap_app. cbn [fmap list_fmap]. by rewrite concat_snoc.
Qed.

(** The cursor is past the entries [dn] of a block, with [rem] of it and [rest] to come. *)
Record placed (at_ : Z) (key : list Z) bs1 dn rem rest : Prop := {
  placed_bs : bs = bs1 ++ (dn ++ rem) :: rest;
  placed_at : at_ = zlen (concat (block_bytes <$> bs1) ++ entries_bytes [] dn);
  placed_key : ∀ e, last dn = Some e → key = e.1 }.

Lemma placed_entry at_ key bs1 dn e rem rest :
  placed at_ key bs1 dn (e :: rem) rest →
  placed (zlen (concat (block_bytes <$> bs1) ++ entries_bytes [] (dn ++ [e]))) e.1
    bs1 (dn ++ [e]) rem rest.
Proof.
  intros [E _ _]. split; [by rewrite <-app_assoc|done|]. intros e'. rewrite last_snoc. congruence.
Qed.

Lemma placed_ok at_ key bs1 dn e rem rest : placed at_ key bs1 dn (e :: rem) rest → entry_ok e.
Proof.
  intros [E _ _]. pose proof (view_ok _ _ Hv) as Hok. rewrite Forall_forall in Hok. apply Hok.
  rewrite E, concat_app. simpl. set_solver.
Qed.

(** The bytes of the block, split at the entry to come. *)
Lemma placed_bytes at_ key bs1 dn e rem rest :
  placed at_ key bs1 dn (e :: rem) rest →
  let prev := default [] ((λ e, e.1) <$> last dn) in
  block_bytes (dn ++ e :: rem) =
    entries_bytes [] dn ++ entry_bytes (common e.1 prev) e ++ entries_bytes e.1 rem.
Proof. intros _. unfold block_bytes. by rewrite entries_bytes_cat. Qed.

Lemma read_placed at_ key bs1 dn e rem rest :
  placed at_ key bs1 dn (e :: rem) rest →
  ∃ bytes, get_to (zlen (concat (block_bytes <$> bs1) ++ block_bytes (dn ++ e :: rem)))
             (run_blocks r) = Some bytes ∧
  read_entry bytes (at_ =? zlen (concat (block_bytes <$> bs1))) at_ key =
    (Some (e.2, zlen (concat (block_bytes <$> bs1) ++ entries_bytes [] (dn ++ [e]))), e.1).
Proof.
  intros Hp. pose proof (placed_ok _ _ _ _ _ _ _ Hp) as Hok.
  pose proof (placed_bytes _ _ _ _ _ _ _ Hp) as Eb. cbv zeta in Eb. destruct Hp as [E -> Hkey].
  set (pre := concat (block_bytes <$> bs1)) in *.
  set (sh := common e.1 (default [] ((λ e, e.1) <$> last dn))) in *.
  assert (run_blocks r = (pre ++ block_bytes (dn ++ e :: rem)) ++ concat (block_bytes <$> rest)) as Er.
  { rewrite (view_blocks _ _ Hv), E, fmap_app, concat_app. simpl. by rewrite <-app_assoc. }
  exists (pre ++ block_bytes (dn ++ e :: rem)). split.
  { unfold get_to. rewrite get_range_in, Er; [|pose proof (zlen_nonneg (pre ++ block_bytes (dn ++ e :: rem))); lia|].
    - by rewrite slice_hit.
    - rewrite Er. apply zlen_app_le. }
  assert (zlen (pre ++ block_bytes (dn ++ e :: rem)) ≤ usize_max) as Hm.
  { etrans; [|apply Hmax]. rewrite Er. apply zlen_app_le. }
  rewrite Eb in *. rewrite (app_assoc pre) in *. rewrite read_entry_bytes; try done.
  - rewrite entries_bytes_snoc, <-!app_assoc. done.
  - apply common_le.
  - unfold sh. destruct (last dn) as [e'|] eqn:El; simpl; [|rewrite common_nil_r; lia].
    rewrite (Hkey e') by done. apply common_le.
  - unfold sh. destruct (last dn) as [e'|] eqn:El; simpl; [|by rewrite common_nil_r].
    rewrite (Hkey e') by done. apply common_take.
  - intros Hf%Z.eqb_eq. rewrite zlen_app in Hf. destruct dn as [|d dn]; [apply common_nil_r|].
    pose proof (block_bytes_pos (d :: dn) ltac:(done)). unfold block_bytes in *. lia.
Qed.
Lemma skip_here fuel at_ key bs1 dn e rem rest :
  placed at_ key bs1 dn (e :: rem) rest →
  skip_blocks (S fuel) r (zlen bs1) at_ = Some (zlen bs1).
Proof.
  intros Hp. pose proof (placed_bytes _ _ _ _ _ _ _ Hp) as Eb. cbv zeta in Eb.
  destruct Hp as [E -> _]. cbn [skip_blocks]. rewrite view_nblocks, (view_end _ _ _ E), E.
  destruct (Z.ltb_spec (zlen bs1) (zlen (bs1 ++ (dn ++ e :: rem) :: rest))) as [_|?]; [|done].
  bind_step. rewrite Eb, !zlen_app.
  pose proof (entry_bytes_pos (common e.1 (default [] ((λ e, e.1) <$> last dn))) e).
  pose proof (zlen_nonneg (entries_bytes e.1 rem)).
  match goal with |- context [?a >=? ?b] => destruct (Z.geb_spec a b) end; [lia|done].
Qed.

Lemma skip_next fuel at_ key bs1 dn rest :
  placed at_ key bs1 dn [] rest →
  skip_blocks (S fuel) r (zlen bs1) at_ = skip_blocks fuel r (zlen (bs1 ++ [dn])) at_.
Proof.
  intros [E -> _]. rewrite app_nil_r in E. cbn [skip_blocks].
  rewrite view_nblocks, (view_end _ _ _ E), E.
  destruct (Z.ltb_spec (zlen bs1) (zlen (bs1 ++ dn :: rest))) as [_|?]; [|zlen_lia].
  bind_step. destruct (Z.geb_spec (zlen (concat (block_bytes <$> bs1) ++ entries_bytes [] dn))
    (zlen (concat (block_bytes <$> bs1) ++ block_bytes dn))) as [_|Hlt].
  - by rewrite (zlen_app bs1).
  - unfold block_bytes in Hlt. lia.
Qed.

Lemma skip_end fuel at_ : skip_blocks (S fuel) r (zlen bs) at_ = Some (zlen bs).
Proof. cbn [skip_blocks]. by rewrite view_nblocks, Z.ltb_irrefl. Qed.

Lemma placed_block at_ key bs1 dn b rest :
  placed at_ key bs1 dn [] (b :: rest) → placed at_ key (bs1 ++ [dn]) [] b rest.
Proof.
  intros [E -> _]. rewrite app_nil_r in E. split.
  - by rewrite <-app_assoc.
  - rewrite fmap_app. cbn [fmap list_fmap]. by rewrite concat_snoc, app_nil_r.
  - done.
Qed.

Lemma advance_placed c bs1 dn e rem rest :
  c_held c = false →
  skip_blocks (S (length (run_starts r))) r (c_block c) (c_at c) = Some (zlen bs1) →
  placed (c_at c) (c_key c) bs1 dn (e :: rem) rest →
  Cursor_advance r c =
    Some (true, mkCursor (zlen bs1)
                  (zlen (concat (block_bytes <$> bs1) ++ entries_bytes [] (dn ++ [e]))) e.1 e.2 false).
Proof.
  intros Hh Hskip Hp. unfold Cursor_advance. rewrite Hh, Hskip, view_nblocks. bind_step.
  destruct (read_placed _ _ _ _ _ _ _ Hp) as (bytes&Eget&Eread). destruct Hp as [E _ _].
  destruct (Z.geb_spec (zlen bs1) (zlen bs)) as [Hge|_]; [rewrite E in Hge; zlen_lia|].
  rewrite (view_end _ _ _ E). bind_step. rewrite (view_start _ _ E). bind_step.
  rewrite Eget. bind_step. by rewrite Eread.
Qed.

Lemma reads_placed c bs1 dn rem rest :
  c_held c = false → c_block c = zlen bs1 → placed (c_at c) (c_key c) bs1 dn rem rest →
  reads r c (rem ++ concat rest).
Proof.
  revert c bs1 dn rem. induction rest as [|b rest IHrest].
  - intros c bs1 dn rem. revert c dn. induction rem as [|e rem IH]; intros c dn Hh Hb Hp.
    + exists (mkCursor (zlen bs) (c_at c) (c_key c) (c_hit c) false).
      unfold Cursor_advance. rewrite Hh, Hb, (skip_next _ _ _ _ _ _ Hp).
      destruct Hp as [E _ _]. rewrite app_nil_r in E. rewrite <-E.
      rewrite view_length_starts, skip_end, view_nblocks. bind_step.
      by rewrite (proj2 (Z.geb_le _ _)).
    + eexists. split; [eapply advance_placed; [done| |done]|].
      { rewrite Hb. by eapply skip_here. }
      repeat split. eapply IH; [done..|]. by eapply placed_entry.
  - intros c bs1 dn rem. revert c dn. induction rem as [|e rem IH]; intros c dn Hh Hb Hp.
    + apply placed_block in Hp as Hp'. pose proof (view_nonempty _ _ Hv) as Hne.
      rewrite (placed_bs _ _ _ _ _ _ Hp'), Forall_app, Forall_cons in Hne.
      destruct Hne as (_&Hbne&_). destruct b as [|e b]; [done|]. simpl.
      eexists. split; [eapply advance_placed; [done| |done]|].
      { rewrite Hb, (skip_next _ _ _ _ _ _ Hp).
        rewrite view_length_starts. by eapply skip_here. }
      repeat split. eapply IHrest; [done..|]. by eapply placed_entry.
    + eexists. split; [eapply advance_placed; [done| |done]|].
      { rewrite Hb. by eapply skip_here. }
      repeat split. eapply IH; [done..|]. by eapply placed_entry.
Qed.

(** A new cursor reads the entries of its block and of those after it. *)
Lemma reads_new bs1 bs2 :
  bs = bs1 ++ bs2 → (bs1 ≠ [] → bs2 ≠ []) → reads r (Cursor_new r (zlen bs1)) (concat bs2).
Proof.
  intros E Hne. destruct bs2 as [|b bs2].
  - destruct bs1 as [|b bs1]; [|by destruct Hne]. simpl in E.
    cbn [concat reads]. rewrite <-E.
    exists (Cursor_new r (zlen bs)). unfold Cursor_advance. cbn [Cursor_new c_held c_block c_at].
    rewrite skip_end, view_nblocks. bind_step. by rewrite (proj2 (Z.geb_le _ _)).
  - apply (reads_placed _ bs1 []); [done..|]. split; [done| |done]. simpl.
    by rewrite (view_start _ _ E), app_nil_r.
Qed.
End cursor.

(** * Skipping and seeking *)

Fixpoint drop_while (skip : list Z → bool) (es : list Entry) : list Entry :=
  match es with
  | [] => []
  | e :: es' => if skip e.1 then drop_while skip es' else es
  end.

(** A cursor that answered that there are no more entries keeps doing so. *)
Lemma advance_ended r c c' :
  Cursor_advance r c = Some (false, c') → ∃ c'', Cursor_advance r c' = Some (false, c'').
Proof.
  assert (∀ c, c_held c = false → Run_nblocks r ≤ c_block c →
    ∃ c'', Cursor_advance r c = Some (false, c'')) as Hend.
  { intros c0 Hh Hb. unfold Cursor_advance. rewrite Hh. cbn [skip_blocks].
    destruct (Z.ltb_spec (c_block c0) (Run_nblocks r)) as [?|_]; [lia|]. bind_step.
    rewrite (proj2 (Z.geb_le _ _)) by done. eauto. }
  unfold Cursor_advance at 1. destruct (c_held c); [done|].
  destruct (skip_blocks _ r _ _) as [block|]; [|done]. rewrite some_bind. cbv beta zeta.
  destruct (block >=? Run_nblocks r) eqn:Eb.
  { intros [= <-]. apply Hend; [done|]. by apply Z.geb_le. }
  destruct (run_starts r !! Z.to_nat (block + 1)) as [end_|]; [|done]. rewrite some_bind.
  destruct (run_starts r !! Z.to_nat block) as [start|]; [|done]. rewrite some_bind. cbv zeta.
  destruct (get_to end_ (run_blocks r)) as [bytes|]; [|done]. rewrite some_bind.
  destruct (read_entry _ _ _ _) as [[[]|] ?]; [done|]. intros [= <-]. by apply Hend.
Qed.

Lemma reads_held r c e es :
  c_held c = false → c_key c = e.1 → c_hit c = e.2 → reads r c es →
  reads r (mkCursor (c_block c) (c_at c) (c_key c) (c_hit c) true) (e :: es).
Proof.
  intros Hh Hk Ht Hr. exists c. unfold Cursor_advance. simpl. destruct c. simpl in *. by subst.
Qed.

Lemma skip_while_loop_reads r skip fuel c es :
  (length es < fuel)%nat → reads r c es →
  ∃ c', skip_while_loop fuel r skip c = Some c' ∧ reads r c' (drop_while skip es).
Proof.
  revert c fuel. induction es as [|e es IH]; intros c [|fuel] Hf Hr; simpl in Hf; try lia.
  - destruct Hr as [c' Hc']. exists c'. cbn [skip_while_loop drop_while]. rewrite Hc'. bind_step.
    split; [done|]. by eapply advance_ended.
  - destruct Hr as (c'&Hc'&Hk&Ht&Hh&Hr). cbn [skip_while_loop drop_while]. rewrite Hc'. bind_step.
    rewrite Hk. destruct (skip e.1); [apply IH; [lia|done]|].
    eexists. split; [done|]. rewrite <-Hk. by apply reads_held.
Qed.

Lemma drop_while_below key es :
  StronglySorted key_le es →
  drop_while (λ entry, slice_lt entry key) es = filter (λ e : Entry, sle key e.1) es.
Proof.
  induction 1 as [|e es Hs IH He]; [done|]. cbn [drop_while]. rewrite filter_cons.
  destruct (slice_lt e.1 key) eqn:E.
  - apply slice_lt_sle in E. by rewrite decide_False.
  - assert (sle key e.1) as Hk.
    { destruct (decide (sle key e.1)) as [|Hn]; [done|]. apply slice_lt_sle in Hn. congruence. }
    rewrite decide_True by done. f_equal. symmetry. apply list_filter_all.
    eapply Forall_impl; [exact He|]. intros e' He'. by etrans.
Qed.

Lemma drop_while_equal key es :
  StronglySorted key_le es → Forall (λ e, sle key e.1) es →
  drop_while (λ entry, slice_eq entry key) es = filter (λ e : Entry, slice_lt key e.1 = true) es.
Proof.
  induction 1 as [|e es Hs IH He]; [done|]. intros [Hk Hks]%Forall_cons.
  cbn [drop_while]. rewrite filter_cons. destruct (slice_eq e.1 key) eqn:E.
  - apply slice_eq_iff in E. rewrite E, slice_lt_irrefl. rewrite decide_False by done. auto.
  - assert (¬ sle e.1 key) as Hn.
    { intros Hle. assert (e.1 = key) as E' by (by apply (anti_symm sle)).
      apply slice_eq_iff in E'. congruence. }
    rewrite decide_True by (by apply slice_lt_sle). f_equal. symmetry. apply list_filter_all.
    eapply Forall_impl; [exact He|]. intros e' He'. apply slice_lt_sle. intros Hle. apply Hn. by etrans.
Qed.

(** The search answers the first index the predicate is false for. *)
Lemma partition_loop_spec before (f : Z → bool) n fuel lo hi :
  (∀ i, 0 ≤ i < n → before i = Some (f i)) →
  (∀ i j, 0 ≤ i ≤ j → j < n → f j = true → f i = true) →
  0 ≤ lo ≤ hi → hi ≤ n → (Z.to_nat (hi - lo) < fuel)%nat →
  (∀ i, 0 ≤ i < lo → f i = true) → (∀ i, hi ≤ i < n → f i = false) →
  ∃ a, partition_loop fuel before lo hi = Some a ∧ 0 ≤ a ≤ n
    ∧ (∀ i, 0 ≤ i < a → f i = true) ∧ (∀ i, a ≤ i < n → f i = false).
Proof.
  intros Hb Hmono. revert lo hi. induction fuel as [|fuel IH]; intros lo hi Hlo Hhi Hf Ht Hff; [lia|].
  cbn [partition_loop]. destruct (Z.ltb_spec lo hi) as [Hlt|Hge].
  - assert (lo ≤ lo + (hi - lo) / 2 < hi) as Hm.
    { pose proof (Z.div_pos (hi - lo) 2). pose proof (Z.div_lt (hi - lo) 2). lia. }
    set (mid := lo + (hi - lo) / 2) in *. rewrite Hb by lia. bind_step.
    destruct (f mid) eqn:Em.
    + apply IH; try lia; [|done]. intros i Hi. apply (Hmono i mid); [lia|lia|done].
    + apply IH; try lia; [done|]. intros i Hi. destruct (f i) eqn:Ei; [|done].
      rewrite (Hmono mid i) in Em by (lia || done). done.
  - assert (lo = hi) as -> by lia. exists hi. repeat split; auto; lia.
Qed.

Lemma elem_of_concat_2 {A} (x : A) l ls : l ∈ ls → x ∈ l → x ∈ concat ls.
Proof. rewrite !list_elem_of_In. intros. apply in_concat. eauto. Qed.

Section search.
Context (r : Run) (bs : list (list Entry)).
Context (Hv : run_view r bs) (Hmax : zlen (run_blocks r) ≤ usize_max).

(** Every entry takes a byte at the least, so [fuel_of] is enough for all of them. *)
Lemma entries_bytes_count prev es : zlen es ≤ zlen (entries_bytes prev es).
Proof.
  revert prev. induction es as [|e es IH]; intros prev; [done|]. simpl.
  rewrite zlen_cons, zlen_app. pose proof (entry_bytes_pos (common e.1 prev) e).
  specialize (IH e.1). lia.
Qed.

Lemma view_count : (length (concat bs) ≤ length (run_blocks r))%nat.
Proof.
  rewrite (view_blocks _ _ Hv). clear Hv Hmax. induction bs as [|b bs' IH]; [done|].
  rewrite fmap_cons. cbn [concat]. rewrite !length_app. pose proof (entries_bytes_count [] b). unfold zlen, block_bytes in *. lia.
Qed.

Lemma view_fence bs1 b bs2 : bs = bs1 ++ b :: bs2 → Run_fence r (zlen bs1) = Some (fence_of b).
Proof.
  intros E. unfold Run_fence. rewrite (view_fence_starts _ _ Hv), (view_fences _ _ Hv), E.
  rewrite fmap_app, !fmap_cons. set (fs := fence_of <$> bs1).
  assert (length fs = length bs1) as El by apply length_fmap.
  replace (Z.to_nat (zlen bs1)) with (length fs) by (unfold zlen; lia).
  rewrite (lookup_bounds _ _ (length fs)), take_app_length by (rewrite ?length_app; lia). bind_step.
  replace (Z.to_nat (zlen bs1 + 1)) with (length (fs ++ [fence_of b]))
    by (rewrite length_app; unfold zlen; simpl; lia).
  replace (fs ++ fence_of b :: (fence_of <$> bs2)) with
    ((fs ++ [fence_of b]) ++ (fence_of <$> bs2)) by (by rewrite <-app_assoc).
  rewrite lookup_bounds by (rewrite ?length_app; lia).
  rewrite take_app_length. bind_step. rewrite !concat_app. cbn [concat]. rewrite !app_nil_r, <-!app_assoc.
  rewrite !Z.add_0_l. rewrite get_range_in by zlen_lia. f_equal. slice_field. done.
Qed.

(** The fence of a block is at most every key in it and after it. *)
Lemma fence_below bs1 b bs2 e :
  bs = bs1 ++ b :: bs2 → e ∈ concat (b :: bs2) → sle (fence_of b) e.1.
Proof using Hv.
  clear Hmax.
  intros E Hin. pose proof (view_sorted _ _ Hv) as Hs. rewrite E, concat_app in Hs.
  apply StronglySorted_app in Hs as (_&Hs&_).
  pose proof (view_nonempty _ _ Hv) as Hne. rewrite E, Forall_app, Forall_cons in Hne.
  destruct b as [|e0 b]; [naive_solver|]. simpl in *.
  apply StronglySorted_inv in Hs as [_ Hx]. rewrite Forall_forall in Hx.
  apply elem_of_cons in Hin as [->|Hin]; [done|]. by apply Hx.
Qed.

Lemma fence_above bs1 b bs2 e :
  bs = bs1 ++ b :: bs2 → e ∈ concat bs1 → sle e.1 (fence_of b).
Proof using Hv.
  clear Hmax.
  intros E Hin. pose proof (view_sorted _ _ Hv) as Hs. rewrite E, concat_app in Hs.
  apply StronglySorted_app in Hs as (_&_&Hs).
  pose proof (view_nonempty _ _ Hv) as Hne. rewrite E, Forall_app, Forall_cons in Hne.
  destruct b as [|e0 b]; [naive_solver|]. apply (Hs e e0); [done|]. simpl. set_solver.
Qed.

(** The fences in order, by index. *)
Lemma fence_nth i :
  0 ≤ i < zlen bs → ∃ bs1 b bs2, bs = bs1 ++ b :: bs2 ∧ zlen bs1 = i.
Proof.
  intros Hi. unfold zlen in Hi. destruct (lookup_lt_is_Some_2 bs (Z.to_nat i)) as [b Hb]; [lia|].
  exists (take (Z.to_nat i) bs), b, (drop (S (Z.to_nat i)) bs).
  split; [by rewrite take_drop_middle|]. unfold zlen. rewrite length_take. lia.
Qed.

Definition fence_lt (key : list Z) (i : Z) : bool :=
  match Run_fence r i with Some f => slice_lt f key | None => false end.

Lemma fence_lt_mono key i j :
  0 ≤ i ≤ j → j < zlen bs → fence_lt key j = true → fence_lt key i = true.
Proof.
  intros Hij Hj. unfold fence_lt.
  destruct (fence_nth i) as (b1&bi&b2&E1&<-); [lia|].
  destruct (fence_nth j) as (c1&bj&c2&E2&<-); [lia|].
  rewrite (view_fence _ _ _ E1), (view_fence _ _ _ E2), !slice_lt_sle.
  intros Hn Hle. apply Hn. etrans; [done|].
  destruct (decide (zlen b1 = zlen c1)) as [El|Hne].
  { rewrite E1 in E2. apply app_inj_1 in E2 as [-> [= -> ->]]; [done|]. unfold zlen in El. lia. }
  pose proof (view_nonempty _ _ Hv) as Hnil. rewrite E2, Forall_app, Forall_cons in Hnil.
  destruct bj as [|e0 bj]; [naive_solver|].
  apply (fence_below b1 bi b2 e0); [done|]. apply elem_of_concat_2 with (e0 :: bj); [|set_solver].
  apply elem_of_cons. right. apply list_elem_of_lookup. exists (length c1 - S (length b1))%nat.
  assert (bs !! length c1 = Some (e0 :: bj)) as Hl by (rewrite E2; by apply list_lookup_middle).
  unfold zlen in *. rewrite E1, lookup_app_r, lookup_cons_ne_0 in Hl by lia.
  rewrite <-Hl. f_equal. lia.
Qed.
Lemma seek_reads key :
  ∃ c, Run_seek r key = Some c ∧ reads r c (filter (λ e : Entry, sle key e.1) (concat bs)).
Proof.
  unfold Run_seek, partition. rewrite (view_nblocks _ _ Hv).
  destruct (partition_loop_spec (λ block, fence ← Run_fence r block; Some (slice_lt fence key))
    (fence_lt key) (zlen bs) (S (Z.to_nat (zlen bs))) 0 (zlen bs)) as (a&->&Ha&Hlt&_); try lia.
  { intros i Hi. unfold fence_lt. destruct (fence_nth i Hi) as (b1&b&b2&E&<-).
    by rewrite (view_fence _ _ _ E). }
  { apply fence_lt_mono. }
  { pose proof (zlen_nonneg bs). lia. }
  bind_step. set (n := Z.to_nat (Z.max 0 (a - 1))). unfold zlen in Ha.
  assert (bs = take n bs ++ drop n bs) as E by (by rewrite take_drop).
  assert (Z.max 0 (a - 1) = zlen (take n bs)) as ->.
  { unfold zlen. rewrite length_take. lia. }
  destruct (skip_while_loop_reads r (λ entry, slice_lt entry key) (fuel_of r)
    (Cursor_new r (zlen (take n bs))) (concat (drop n bs))) as (c&Ec&Hc).
  { pose proof view_count as Hcount. rewrite E, concat_app, length_app in Hcount. unfold fuel_of. lia. }
  { apply (reads_new r bs Hv Hmax); [done|]. intros Ht Hd.
    apply (f_equal length) in Hd. rewrite length_drop in Hd. simpl in Hd.
    destruct (decide (length bs = 0%nat)) as [Hz|]; [|lia].
    apply nil_length_inv in Hz. apply Ht. rewrite Hz. by destruct n. }
  exists c. split; [done|]. revert Hc. rewrite drop_while_below.
  2:{ pose proof (view_sorted _ _ Hv) as Hs. rewrite E, concat_app in Hs.
      by apply StronglySorted_app in Hs as (_&?&_). }
  assert (filter (λ e : Entry, sle key e.1) (concat (take n bs)) = []) as Hnone.
  { apply list_filter_none, Forall_forall. intros e Hin Hle.
    destruct (decide (n = 0%nat)) as [Hn|Hn]; [rewrite Hn in Hin; by apply not_elem_of_nil in Hin|].
    destruct (drop n bs) as [|b bs2] eqn:Ed.
    { apply (f_equal length) in Ed. rewrite length_drop in Ed. simpl in Ed. lia. }
    pose proof (fence_above _ _ _ e E Hin) as Hf.
    specialize (Hlt (zlen (take n bs))). unfold fence_lt in Hlt.
    rewrite (view_fence _ _ _ E), slice_lt_sle in Hlt.
    apply Hlt; [unfold zlen; rewrite length_take; lia|]. by etrans. }
  rewrite E at 2. by rewrite concat_app, filter_app, Hnone.
Qed.

(** What [find] does with the hits of a key: each handed over until one is taken. *)
Fixpoint accept_first {S : Type} (accept : Hit → S → bool * S) (hits : list Hit) (s : S)
    : option Hit * S :=
  match hits with
  | [] => (None, s)
  | h :: hits => let '(taken, s) := accept h s in
                 if taken then (Some h, s) else accept_first accept hits s
  end.

Definition hits_of (key : list Z) (es : list Entry) : list Hit :=
  (λ e, e.2) <$> filter (λ e : Entry, e.1 = key) es.

Lemma find_loop_reads {S} (accept : Hit → S → bool * S) key es fuel c s :
  (length es < fuel)%nat → StronglySorted key_le es → Forall (λ e : Entry, sle key e.1) es →
  reads r c es →
  find_loop fuel r key accept c s = Some (accept_first accept (hits_of key es) s).
Proof.
  revert c s fuel. induction es as [|e es IH]; intros c s [|fuel] Hf Hs Hk Hr; simpl in Hf; try lia.
  - destruct Hr as [c' Hc']. cbn [find_loop]. by rewrite Hc'.
  - destruct Hr as (c'&Hc'&Hkey&Ht&Hh&Hr). cbn [find_loop]. rewrite Hc'. bind_step.
    rewrite Hkey, Ht. apply Forall_cons in Hk as [Hek Hk].
    apply StronglySorted_inv in Hs as [Hs He]. unfold hits_of. rewrite filter_cons.
    destruct (slice_eq e.1 key) eqn:Eq.
    + apply slice_eq_iff in Eq. rewrite decide_True by done. cbn [negb fmap list_fmap accept_first].
      destruct (accept e.2 s) as [[] s']; [done|]. apply IH; [lia|done..].
    + rewrite decide_False by (rewrite <-slice_eq_iff; congruence). cbn [negb].
      rewrite list_filter_none; [done|]. rewrite Forall_forall in *. intros e' Hin Eq'.
      specialize (He e' Hin). unfold key_le in He. rewrite Eq' in He.
      assert (e.1 = key) as E' by (by apply (anti_symm sle)).
      apply slice_eq_iff in E'. congruence.
Qed.

Lemma filter_from_sorted key :
  StronglySorted key_le (filter (λ e : Entry, sle key e.1) (concat bs)).
Proof. apply StronglySorted_filter, (view_sorted _ _ Hv). Qed.

Lemma hits_of_from key es : hits_of key (filter (λ e : Entry, sle key e.1) es) = hits_of key es.
Proof.
  unfold hits_of. f_equal. apply list_filter_filter_l. by intros e ->.
Qed.

Lemma find_view {S} (accept : Hit → S → bool * S) key s :
  Run_find r key accept s = Some (accept_first accept (hits_of key (concat bs)) s).
Proof.
  unfold Run_find. destruct (Run_is_empty r || negb (Run_may_hold r key)) eqn:Eno.
  - unfold hits_of. rewrite list_filter_none; [done|]. apply Forall_forall. intros e Hin Ek.
    apply orb_true_iff in Eno as [Ez|Eb].
    + unfold Run_is_empty in Ez. rewrite (view_len _ _ Hv) in Ez. apply Z.eqb_eq, nil_zlen in Ez.
      rewrite Ez in Hin. set_solver.
    + unfold Run_may_hold in Eb. rewrite <-Ek, (view_bloom _ _ Hv e Hin) in Eb. done.
  - destruct (seek_reads key) as (c&->&Hc). bind_step. rewrite <-hits_of_from.
    apply find_loop_reads; [|by apply filter_from_sorted| |done].
    + pose proof view_count. pose proof (length_filter (λ e : Entry, sle key e.1) (concat bs)).
      unfold fuel_of. lia.
    + apply Forall_forall. intros e. rewrite list_elem_of_filter. naive_solver.
Qed.
End search.

(** * Ranges *)

Definition above (lo : Bound) (key : list Z) : Prop :=
  match lo with
  | Unbounded => True
  | Included k => sle k key
  | Excluded k => slice_lt k key = true
  end.

Definition below (hi : Bound) (key : list Z) : Prop :=
  match hi with
  | Unbounded => True
  | Included k => sle key k
  | Excluded k => slice_lt key k = true
  end.

#[global] Instance above_dec lo key : Decision (above lo key).
Proof. destruct lo; simpl; apply _. Defined.
#[global] Instance below_dec hi key : Decision (below hi key).
Proof. destruct hi; simpl; apply _. Defined.

Lemma below_mono hi k k' : sle k k' → below hi k' → below hi k.
Proof.
  intros Hk. destruct hi as [|h|h]; simpl; [done|by intros; etrans|].
  rewrite !slice_lt_sle. intros Hn Hle. apply Hn. by etrans.
Qed.

Lemma next_within hi key :
  match hi with Unbounded => true | Included h => slice_le key h | Excluded h => slice_lt key h end
  = bool_decide (below hi key).
Proof.
  symmetry. destruct hi; simpl; [done|..].
  - destruct (slice_le key key0) eqn:E; [by apply bool_decide_eq_true|].
    apply bool_decide_eq_false. unfold sle. congruence.
  - destruct (slice_lt key key0) eqn:E; [by apply bool_decide_eq_true|].
    apply bool_decide_eq_false. congruence.
Qed.

Lemma collect_reads r hi es fuel c :
  (length es < fuel)%nat → StronglySorted key_le es → reads r c es →
  Range_collect fuel r (mkRange c hi false) = Some (filter (λ e : Entry, below hi e.1) es).
Proof.
  revert c fuel. induction es as [|e es IH]; intros c [|fuel] Hf Hs Hr; simpl in Hf; try lia.
  - destruct Hr as [c' Hc']. cbn [Range_collect]. unfold Range_next_entry. simpl. by rewrite Hc'.
  - destruct Hr as (c'&Hc'&Hkey&Ht&Hh&Hr). cbn [Range_collect].
    unfold Range_next_entry. cbn [r_done r_cursor r_hi]. rewrite Hc'. bind_step. cbn [negb].
    rewrite next_within, Hkey, Ht. apply StronglySorted_inv in Hs as [Hs He].
    rewrite filter_cons. case_bool_decide as Hb.
    + bind_step. rewrite IH by (lia || done). rewrite decide_True by done. by destruct e.
    + bind_step. rewrite decide_False, list_filter_none; [done| |done].
      eapply Forall_impl; [exact He|]. intros e' He' Hb'. eapply Hb, below_mono; done.
Qed.

Section ranges.
Context (r : Run) (bs : list (list Entry)).
Context (Hv : run_view r bs) (Hmax : zlen (run_blocks r) ≤ usize_max).

Lemma range_starts lo hi :
  ∃ c, Run_range r lo hi = Some (mkRange c hi false)
    ∧ reads r c (filter (λ e : Entry, above lo e.1) (concat bs)).
Proof.
  unfold Run_range. destruct lo as [|key|key].
  - exists (Run_cursor r). split; [done|]. rewrite list_filter_all by (by apply Forall_true).
    by apply (reads_new r bs Hv Hmax []).
  - destruct (seek_reads r bs Hv Hmax key) as (c&->&Hc). by exists c.
  - destruct (seek_reads r bs Hv Hmax key) as (c&->&Hc). bind_step.
    edestruct (λ es H, skip_while_loop_reads r (λ entry, slice_eq entry key) (fuel_of r) c es H)
      as (c'&Ec&Hc'); [|exact Hc|].
    { pose proof (view_count r bs Hv).
      pose proof (length_filter (λ e : Entry, sle key e.1) (concat bs)). unfold fuel_of. lia. }
    unfold skip_equal, skip_while. rewrite Ec. exists c'. split; [done|].
    rewrite drop_while_equal in Hc'.
    + rewrite list_filter_filter_l in Hc'; [done|]. intros e Hlt. simpl in *.
      destruct (total sle key e.1) as [|Hle]; [done|]. apply slice_lt_sle in Hlt. done.
    + by apply (filter_from_sorted r bs Hv).
    + apply Forall_forall. intros e. rewrite list_elem_of_filter. naive_solver.
Qed.

Lemma range_view lo hi :
  ∃ g, Run_range r lo hi = Some g ∧
    Range_collect (fuel_of r) r g =
      Some (filter (λ e : Entry, above lo e.1 ∧ below hi e.1) (concat bs)).
Proof.
  destruct (range_starts lo hi) as (c&E&Hc). eexists. split; [done|].
  rewrite (collect_reads _ _ (filter (λ e : Entry, above lo e.1) (concat bs))); [| |..|done].
  - f_equal. rewrite list_filter_filter. apply list_filter_iff. naive_solver.
  - pose proof (view_count r bs Hv).
    pose proof (length_filter (λ e : Entry, above lo e.1) (concat bs)). unfold fuel_of. lia.
  - apply StronglySorted_filter, (view_sorted _ _ Hv).
Qed.
End ranges.
