(* ===== verification/RunMerge.v ===== *)
(** Merging runs: [Run::merge] of [rudb-index/src/run.rs], whose definition is in [Run]. *)

From S2P Require Import Prelude Bloom Run RunRead.
Local Open Scope Z_scope.

(** * The order a merge takes the entries in

    At every step the first of the sequences whose head is the least gives its head. *)

Definition least_head (rems : list (list Entry)) (at_ : nat) (e : Entry) : Prop :=
  ∀ j (e' : Entry) tl, rems !! j = Some (e' :: tl) → sle e.1 e'.1 ∧ (j < at_ → ¬ sle e'.1 e.1)%nat.

Inductive merged : list (list Entry) → list Entry → Prop :=
| merged_nil rems : Forall (λ l, l = []) rems → merged rems []
| merged_step rems at_ e tl out :
    rems !! at_ = Some (e :: tl) → least_head rems at_ e → merged (<[at_ := tl]> rems) out →
    merged rems (e :: out).

Lemma elem_of_concat_lookup (x : Entry) rems :
  x ∈ concat rems ↔ ∃ j l, rems !! j = Some l ∧ x ∈ l.
Proof.
  split.
  - rewrite list_elem_of_In, in_concat. intros (l&Hl&Hx).
    apply list_elem_of_In, list_elem_of_lookup in Hl as [j Hj]. exists j, l.
    by rewrite list_elem_of_In.
  - intros (j&l&Hj&Hx). apply elem_of_concat_2 with l; [|done]. by eapply list_elem_of_lookup_2.
Qed.

(** The entry taken is at most every entry there is. *)
Lemma least_head_all rems at_ e x :
  least_head rems at_ e → Forall (StronglySorted key_le) rems → x ∈ concat rems → sle e.1 x.1.
Proof.
  intros Hl Hs (j&l&Hj&Hx)%elem_of_concat_lookup. destruct l as [|y l]; [set_solver|].
  destruct (Hl _ _ _ Hj) as [Hy _]. rewrite Forall_lookup in Hs. specialize (Hs _ _ Hj).
  apply StronglySorted_inv in Hs as [_ Hall]. rewrite Forall_forall in Hall.
  apply elem_of_cons in Hx as [->|Hx]; [done|]. etrans; [done|]. by apply Hall.
Qed.

Lemma sorted_after rems at_ e tl :
  rems !! at_ = Some (e :: tl) → Forall (StronglySorted key_le) rems →
  Forall (StronglySorted key_le) (<[at_ := tl]> rems).
Proof.
  intros Hat Hs. apply Forall_insert; [done|]. rewrite Forall_lookup in Hs.
  specialize (Hs _ _ Hat). by apply StronglySorted_inv in Hs as [? _].
Qed.

Lemma concat_after (rems : list (list Entry)) at_ e tl x :
  rems !! at_ = Some (e :: tl) → x ∈ concat (<[at_ := tl]> rems) → x ∈ concat rems.
Proof.
  intros Hat (j&l&Hj&Hx)%elem_of_concat_lookup. apply elem_of_concat_lookup.
  apply list_lookup_insert_Some in Hj as [(->&->&_)|(_&Hj)].
  - eexists _, _. split; [done|]. set_solver.
  - by exists j, l.
Qed.

Lemma merged_in rems out x : merged rems out → x ∈ out → x ∈ concat rems.
Proof.
  induction 1 as [|rems at_ e tl out Hat Hl Hm IH]; [set_solver|].
  intros [->|Hx]%elem_of_cons.
  - apply elem_of_concat_lookup. exists at_, (e :: tl). set_solver.
  - eapply concat_after; [done|]. by apply IH.
Qed.

Lemma merged_sorted rems out :
  merged rems out → Forall (StronglySorted key_le) rems → StronglySorted key_le out.
Proof.
  induction 1 as [|rems at_ e tl out Hat Hl Hm IH]; intros Hs; [constructor|].
  constructor; [by eapply IH, sorted_after|]. apply Forall_forall. intros x Hx.
  eapply least_head_all; [done..|]. eapply concat_after; [done|]. by eapply merged_in.
Qed.

(** The entries of one key come out sequence by sequence, each in its order. *)
Lemma merged_key rems out key :
  merged rems out → Forall (StronglySorted key_le) rems →
  filter (λ e : Entry, e.1 = key) out = concat (filter (λ e : Entry, e.1 = key) <$> rems).
Proof.
  induction 1 as [rems Hnil|rems at_ e tl out Hat Hl Hm IH]; intros Hs.
  - rewrite <-list_filter_concat. replace (concat rems) with (@nil Entry); [done|].
    induction Hnil as [|l rems -> _ IH]; [done|]. simpl. apply IH. by apply Forall_cons in Hs as [_ ?].
  - pose proof (sorted_after _ _ _ _ Hat Hs) as Hs'. rewrite filter_cons, (IH Hs').
    destruct (list_elem_of_split_length _ _ _ Hat) as (pre&post&->&->).
    rewrite insert_app_r_alt, Nat.sub_diag by lia. cbn [insert list_insert].
    rewrite !fmap_app, !fmap_cons, !concat_app. cbn [concat].
    rewrite filter_cons. case_decide as Ek; [|done].
    replace (concat (filter _ <$> pre)) with (@nil Entry); [done|].
    symmetry. rewrite <-list_filter_concat. apply list_filter_none, Forall_forall.
    intros x (j&l&Hj&Hx)%elem_of_concat_lookup Ex.
    apply lookup_lt_Some in Hj as Hjat. apply (lookup_app_l_Some _ ((e :: tl) :: post)) in Hj.
    destruct l as [|y l]; [set_solver|].
    destruct (Hl _ _ _ Hj) as [_ Hn]. apply Hn; [done|]. rewrite Ek, <-Ex.
    rewrite Forall_lookup in Hs. specialize (Hs _ _ Hj). apply StronglySorted_inv in Hs as [_ Hall].
    rewrite Forall_forall in Hall. apply elem_of_cons in Hx as [->|Hx]; [done|]. by apply Hall.
Qed.

(** * The loop *)

(** A cursor and whether it is on an entry, against what is left of its run. *)
Definition cursor_on (r : Run) (c : Cursor * bool) (rem : list Entry) : Prop :=
  match rem with
  | [] => c.2 = false
  | e :: tl => c.2 = true ∧ c_key c.1 = e.1 ∧ c_hit c.1 = e.2 ∧ reads r c.1 tl
  end.

Lemma cursor_on_advance r c rem :
  reads r c rem →
  ∃ c' live, Cursor_advance r c = Some (live, c') ∧ cursor_on r (c', live) rem.
Proof.
  destruct rem as [|e rem]; simpl.
  - intros [c' ->]. eauto.
  - intros (c'&->&?&?&?&?). exists c', true. done.
Qed.

Lemma least_head_app pre suf at_ e :
  least_head pre at_ e → (∀ j (e' : Entry) tl, suf !! j = Some (e' :: tl) → sle e.1 e'.1) →
  (at_ < length pre)%nat → least_head (pre ++ suf) at_ e.
Proof.
  intros Hp Hsuf Hat j e' tl Hj. apply lookup_app_Some in Hj as [Hj|[Hge Hj]]; [by eapply Hp|].
  split; [by eapply Hsuf|intros ?; exfalso; lia].
Qed.

Definition least_inv (pre : list (list Entry)) (least : option (nat * list Z)) : Prop :=
  match least with
  | None => Forall (λ l, l = []) pre
  | Some (at_, k) => ∃ e tl, pre !! at_ = Some (e :: tl) ∧ e.1 = k ∧ least_head pre at_ e
  end.

(** The head of one more sequence against the least so far. *)
Lemma least_inv_snoc pre r c live rem least :
  least_inv pre least → cursor_on r (c, live) rem →
  let better := match least with None => true | Some (_, k) => slice_lt (c_key c) k end in
  least_inv (pre ++ [rem]) (if live && better then Some (length pre, c_key c) else least).
Proof.
  intros Hinv Hc. destruct rem as [|e tl]; simpl in Hc; [rewrite Hc; simpl|].
  { destruct least as [[at_ k]|]; simpl in *.
    - destruct Hinv as (e&tl&Hat&Hk&Hl). exists e, tl. rewrite (lookup_app_l_Some _ _ _ _ Hat).
      split; [done|]. split; [done|]. apply least_head_app; [done| |by eapply lookup_lt_Some].
      by intros [|] ? ?.
    - apply Forall_app. split; [done|]. by constructor. }
  destruct Hc as (->&->&_&_). destruct least as [[at_ k]|]; simpl in *.
  - destruct Hinv as (e0&tl0&Hat&<-&Hl). destruct (slice_lt e.1 e0.1) eqn:Elt.
    + exists e, tl. rewrite list_lookup_middle by done. split; [done|]. split; [done|].
      apply slice_lt_sle in Elt. intros j e' tl' Hj.
      apply lookup_app_Some in Hj as [Hj|[Hge Hj]].
      * destruct (Hl _ _ _ Hj) as [Hle _]. split; [|intros _ Hle'; apply Elt; by etrans].
        destruct (total sle e.1 e0.1) as [|?]; [by etrans|done].
      * destruct (j - length pre)%nat eqn:Ej; [|done]. simpl in Hj. simplify_eq. split; [done|intros ?; exfalso; lia].
    + exists e0, tl0. rewrite (lookup_app_l_Some _ _ _ _ Hat). split; [done|]. split; [done|].
      apply least_head_app; [done| |by eapply lookup_lt_Some].
      intros [|] e' tl' Hj; [|done]. simpl in Hj. simplify_eq.
      destruct (decide (sle e0.1 e'.1)) as [|Hn]; [done|]. apply slice_lt_sle in Hn. congruence.
  - exists e, tl. rewrite list_lookup_middle by done. split; [done|]. split; [done|].
    intros j e' tl' Hj. apply lookup_app_Some in Hj as [Hj|[Hge Hj]].
    + rewrite Forall_lookup in Hinv. by apply Hinv in Hj.
    + destruct (j - length pre)%nat eqn:Ej; [|done]. simpl in Hj. simplify_eq. split; [done|intros ?; exfalso; lia].
Qed.

Lemma least_loop_inv runs cursors rems pre least :
  Forall3 cursor_on runs cursors rems → least_inv pre least →
  least_inv (pre ++ rems) (least_loop (length pre) cursors least).
Proof.
  intros H. revert pre least. induction H as [|r [c live] rem runs cursors rems Hc _ IH];
    intros pre least Hinv; cbn [least_loop].
  - by rewrite app_nil_r.
  - replace (S (length pre)) with (length (pre ++ [rem])) by (rewrite length_app; simpl; lia).
    change (rem :: rems) with ([rem] ++ rems). rewrite app_assoc. apply IH. by eapply least_inv_snoc.
Qed.

Lemma least_of_spec runs cursors rems :
  Forall3 cursor_on runs cursors rems →
  match least_of cursors with
  | None => Forall (λ l, l = []) rems
  | Some at_ => ∃ e tl, rems !! at_ = Some (e :: tl) ∧ least_head rems at_ e
  end.
Proof.
  intros H. pose proof (least_loop_inv _ _ _ [] None H ltac:(by constructor)) as Hinv.
  simpl in Hinv. unfold least_of. destruct (least_loop _ _ _) as [[at_ k]|]; simpl in *; [|done].
  naive_solver.
Qed.

Lemma length_concat_after (rems : list (list Entry)) at_ e tl :
  rems !! at_ = Some (e :: tl) →
  length (concat rems) = S (length (concat (<[at_ := tl]> rems))).
Proof.
  intros Hat. destruct (list_elem_of_split_length _ _ _ Hat) as (pre&post&->&->).
  rewrite insert_app_r_alt, Nat.sub_diag by lia. cbn [insert list_insert].
  rewrite !concat_app. cbn [concat app]. rewrite !length_app. simpl. rewrite !length_app. lia.
Qed.

Lemma Forall3_insert {A B C} (P : A → B → C → Prop) l k m i x y z :
  Forall3 P l k m → P x y z → Forall3 P (<[i := x]> l) (<[i := y]> k) (<[i := z]> m).
Proof.
  intros H Hp. revert i. induction H; intros [|i]; simpl; try done; constructor; auto.
Qed.

Lemma RunWriter_push_above w bs (e : Entry) :
  writer_view w bs → entry_ok e → (∀ x, x ∈ concat bs → key_le x e) →
  ∃ w' bs', RunWriter_push e.1 e.2 w = Ok w' ∧ writer_view w' bs'
            ∧ concat bs' = concat bs ++ [e].
Proof.
  intros Hw Hok Hle. apply RunWriter_push_view; [done..|].
  destruct (w_len w =? 0) eqn:E0; [left; by apply (wview_len_0 _ _ Hw)|right].
  destruct (wview_last_in w bs Hw E0) as (e0&Hin&<-). by apply Hle.
Qed.

Section merge.
Context {S : Type} (keep : list Z → Hit → S → bool * S) (p : list Z → Hit → bool).
Context (Hkeep : ∀ k h s, (keep k h s).1 = p k h).

Definition kept (es : list Entry) : list Entry := filter (λ e : Entry, p e.1 e.2 = true) es.

Lemma merge_loop_merged runs fuel cursors rems w bs s :
  Forall3 cursor_on runs cursors rems → Forall (StronglySorted key_le) rems →
  Forall entry_ok (concat rems) → writer_view w bs →
  (∀ x y, x ∈ concat bs → y ∈ concat rems → key_le x y) →
  (length (concat rems) < fuel)%nat →
  ∃ out r s', merge_loop fuel runs keep cursors w s = Some (r, s') ∧ merged rems out
              ∧ written r (concat bs ++ kept out).
Proof.
  revert cursors rems w bs s.
  induction fuel as [|fuel IH]; intros cursors rems w bs s Hc Hs Hok Hw Hle Hf; [lia|].
  pose proof (least_of_spec _ _ _ Hc) as Hleast. cbn [merge_loop].
  destruct (least_of cursors) as [at_|].
  2:{ exists [], (RunWriter_finish w), s. split; [done|]. split; [by constructor|].
      exists bs. split; [by apply finish_view|]. by rewrite app_nil_r. }
  destruct Hleast as (e&tl&Hat&Hl). apply (length_concat_after) in Hat as Hlen.
  destruct (Forall3_lookup_r _ _ _ _ _ _ Hc Hat) as (r&[c live]&Hr&Hcur&Hon).
  destruct Hon as (_&Hk&Hh&Hreads). simpl in Hk, Hh, Hreads.
  rewrite Hr. bind_step. rewrite Hcur. bind_step. rewrite Hk, Hh.
  pose proof (Hkeep e.1 e.2 s) as Ekeep. destruct (keep e.1 e.2 s) as [kp s1]. simpl in Ekeep.
  assert (e ∈ concat rems) as Hin by (apply elem_of_concat_lookup; exists at_, (e :: tl); set_solver).
  destruct (cursor_on_advance _ _ _ Hreads) as (c'&live'&Eadv&Hon').
  assert (Forall3 cursor_on runs (<[at_:=(c', live')]> cursors) (<[at_:=tl]> rems)) as Hc'.
  { rewrite <-(list_insert_id runs at_ r) by done. by apply Forall3_insert. }
  assert (Forall entry_ok (concat (<[at_:=tl]> rems))) as Hok'.
  { rewrite Forall_forall in *. intros x Hx. eapply Hok, concat_after; done. }
  assert (∃ w1 bs1, (if kp then match RunWriter_push e.1 e.2 w with Ok w => Some w | Err _ => None end
                     else Some w) = Some w1 ∧ writer_view w1 bs1
                    ∧ concat bs1 = concat bs ++ kept [e]) as (w1&bs1&Ew&Hw1&Eb1).
  { unfold kept. rewrite filter_cons, filter_nil. rewrite Ekeep. destruct (p e.1 e.2).
    - rewrite Forall_forall in Hok.
      destruct (RunWriter_push_above w bs e Hw) as (w1&bs1&->&?&?); [by apply Hok| |by exists w1, bs1].
      intros x Hx. by apply Hle.
    - exists w, bs. by rewrite app_nil_r. }
  rewrite Ew. bind_step. rewrite Eadv. bind_step.
  edestruct (IH _ _ w1 bs1 s1 Hc') as (out&r'&s'&E&Hm&Hwr).
  { by eapply sorted_after. } { done. } { done. }
  { intros x y Hx Hy. apply (concat_after _ _ _ _ _ Hat) in Hy.
    rewrite Eb1 in Hx. apply elem_of_app in Hx as [Hx|Hx]; [by apply Hle|].
    apply list_elem_of_filter in Hx as [_ ->%list_elem_of_singleton].
    by eapply least_head_all. }
  { lia. }
  exists (e :: out), r', s'. split; [done|]. split; [by eapply merged_step|].
  replace (kept (e :: out)) with (kept [e] ++ kept out) by (unfold kept; by rewrite <-filter_app).
  by rewrite app_assoc, <-Eb1.
Qed.

Lemma merge_starts runs ess :
  Forall2 holds runs ess →
  ∃ cursors, mapM (λ r, '(live, c) ← Cursor_advance r (Run_cursor r); Some (c, live)) runs = Some cursors
    ∧ Forall3 cursor_on runs cursors ess ∧ Forall (StronglySorted key_le) ess
    ∧ Forall entry_ok (concat ess)
    ∧ (length (concat ess) ≤ sum_list ((λ r, length (run_blocks r)) <$> runs))%nat.
Proof.
  induction 1 as [|r es runs ess Hr _ (cursors&Em&Hc&Hs&Hok&Hlen)].
  { exists []. repeat split; constructor. }
  destruct Hr as [(bs&Hv&<-) Hmax].
  pose proof (reads_new r bs Hv Hmax [] bs eq_refl ltac:(done)) as Hreads.
  destruct (cursor_on_advance _ _ _ Hreads) as (c&live&Eadv&Hon).
  exists ((c, live) :: cursors). cbn [mapM]. unfold Run_cursor. change 0 with (zlen (@nil (list Entry))).
  rewrite Eadv. bind_step. change (zlen (@nil (list Entry))) with 0.
  unfold Run_cursor in Em. rewrite Em. split; [done|]. split; [by constructor|].
  split; [constructor; [by apply (view_sorted _ _ Hv)|done]|]. cbn [concat].
  split; [apply Forall_app; split; [by apply (view_ok _ _ Hv)|done]|].
  rewrite length_app, fmap_cons. pose proof (view_count r bs Hv). cbn [sum_list_with id]. lia.
Qed.

Lemma merge_holds runs ess s :
  Forall2 holds runs ess →
  ∃ out r s', Run_merge runs keep s = Some (r, s') ∧ merged ess out ∧ written r (kept out)
    ∧ Forall (StronglySorted key_le) ess.
Proof.
  intros H. destruct (merge_starts _ _ H) as (cursors&Em&Hc&Hs&Hok&Hlen).
  unfold Run_merge. rewrite Em. bind_step.
  destruct (merge_loop_merged runs (merge_fuel runs) cursors ess RunWriter_new [] s)
    as (out&r&s'&E&Hm&Hw); [done..|apply writer_new_view|set_solver|unfold merge_fuel; lia|].
  by exists out, r, s'.
Qed.
End merge.

(** * What a run promises *)

Lemma push_all_written es :
  Forall entry_ok es → StronglySorted key_le es →
  ∃ w, push_all es RunWriter_new = Ok w ∧ written (RunWriter_finish w) es.
Proof.
  intros Hok Hs. destruct (push_all_view es _ [] writer_new_view Hok Hs) as (w&bs&E&Hw&Eb).
  exists w. split; [done|]. exists bs. split; [by apply finish_view|done].
Qed.

Lemma push_all_refuses es w bs :
  writer_view w bs → Forall entry_ok es → ¬ StronglySorted key_le (concat bs ++ es) →
  push_all es w = Err (Internal "index run entries out of key order").
Proof.
  revert w bs. induction es as [|e es IH]; intros w bs Hw Hok Hn.
  { destruct Hn. rewrite app_nil_r. apply (wview_sorted _ _ Hw). }
  apply Forall_cons in Hok as [He Hok]. cbn [push_all].
  destruct (decide (bs = [] ∨ sle (w_last w) e.1)) as [Hle|Hno].
  - destruct (RunWriter_push_view w bs e Hw He Hle) as (w1&bs1&->&Hw1&Eb1).
    apply (IH w1 bs1); [done..|]. by rewrite Eb1, <-app_assoc.
  - rewrite (RunWriter_push_refuses w bs e Hw); naive_solver.
Qed.

(** The run a writer makes of entries, for stating examples. *)
Definition run_of (es : list Entry) : Run :=
  RunWriter_finish (match push_all es RunWriter_new with Ok w => w | Err _ => RunWriter_new end).

Lemma run_of_holds es :
  Forall entry_ok es → StronglySorted key_le es → zlen (run_blocks (run_of es)) ≤ usize_max →
  holds (run_of es) es.
Proof.
  intros Hok Hs. unfold run_of. destruct (push_all_written es Hok Hs) as (w&->&?). by split.
Qed.

Definition example_entries : list Entry :=
  [([97; 98], mkHit 1 10); ([97; 98], mkHit 2 11); ([97; 99; 100], mkHit 3 12)].

Definition example_older : list Entry := [([97], mkHit 9 1); ([97; 98], mkHit 8 2)].

Ltac entries_decided :=
  apply run_of_holds;
  [repeat (constructor; [repeat split; done|]); constructor
  |repeat (constructor; [|repeat (constructor; [done|]); constructor]); constructor
  |vm_compute; discriminate].

Lemma example_holds : holds (run_of example_entries) example_entries.
Proof. entries_decided. Qed.
Lemma older_holds : holds (run_of example_older) example_older.
Proof. entries_decided. Qed.

(** A writer takes entries whose keys never go down, whatever the blocks they fall into,
    and the run it makes holds exactly those entries in the order they were pushed; entries
    out of key order are refused with an error. *)
Theorem run_written es (Hok : Forall entry_ok es) :
  (StronglySorted key_le es →
     ∃ w, push_all es RunWriter_new = Ok w ∧ written (RunWriter_finish w) es)
  ∧ (¬ StronglySorted key_le es →
     push_all es RunWriter_new = Err (Internal "index run entries out of key order")).
Proof.
  split; [by apply push_all_written|]. intros Hn. by apply (push_all_refuses es _ [] writer_new_view).
Qed.

Lemma run_written_witness :
  (∃ w, push_all example_entries RunWriter_new = Ok w ∧ written (RunWriter_finish w) example_entries)
  ∧ push_all (reverse example_entries) RunWriter_new
      = Err (Internal "index run entries out of key order").
Proof.
  split.
  - apply (run_written example_entries).
    + repeat (constructor; [repeat split; done|]); constructor.
    + repeat (constructor; [|repeat (constructor; [done|]); constructor]); constructor.
  - apply (run_written (reverse example_entries)).
    + repeat (constructor; [repeat split; done|]); constructor.
    + intros [_ Hs]%StronglySorted_inv. apply Forall_cons in Hs as [Hs _]. discriminate Hs.
Defined.

(** C23. A lookup hands over the entries of its key, all of them and no other, in the order
    they were written, until one is accepted, and answers that one; the bloom filter never
    hides an entry, and the search of the fences starts early enough. *)
Theorem find_finds {S} (accept : Hit → S → bool * S) r es key s (Hr : holds r es) :
  Run_find r key accept s = Some (accept_first accept (hits_of key es) s).
Proof. destruct Hr as [(bs&Hv&<-) Hmax]. by apply find_view. Qed.

Lemma find_finds_witness :
  Run_find (run_of example_entries) [97; 98] (λ h (s : nat), (rid h =? 2, Datatypes.S s)) 0%nat
  = Some (Some (mkHit 2 11), 2%nat).
Proof.
  rewrite (find_finds _ _ example_entries _ _ example_holds). vm_compute. reflexivity.
Defined.

(** A range answers exactly the entries whose keys are within its bounds, in key order,
    and ends. *)
Theorem range_between r es lo hi (Hr : holds r es) :
  ∃ g, Run_range r lo hi = Some g ∧
    Range_collect (fuel_of r) r g = Some (filter (λ e : Entry, above lo e.1 ∧ below hi e.1) es).
Proof. destruct Hr as [(bs&Hv&<-) Hmax]. by apply range_view. Qed.

Lemma range_between_witness :
  ∃ g, Run_range (run_of example_entries) (Excluded [97; 98]) Unbounded = Some g ∧
    Range_collect (fuel_of (run_of example_entries)) (run_of example_entries) g
    = Some [([97; 99; 100], mkHit 3 12)].
Proof. exact (range_between _ example_entries (Excluded [97; 98]) Unbounded example_holds). Defined.

(** A merge of runs given newest first never panics. The run it makes is sorted, and the
    entries of each key are those [keep] lets through, newest run first and in their order
    within a run. *)
Theorem merge_keeps_order {S} (keep : list Z → Hit → S → bool * S) p runs ess s
    (Hkeep : ∀ k h s, (keep k h s).1 = p k h) (Hruns : Forall2 holds runs ess) :
  ∃ r s' out, Run_merge runs keep s = Some (r, s') ∧ written r out ∧ StronglySorted key_le out
    ∧ ∀ key, filter (λ e : Entry, e.1 = key) out =
        concat ((λ es, filter (λ e : Entry, p e.1 e.2 = true) (filter (λ e : Entry, e.1 = key) es))
                <$> ess).
Proof.
  destruct (merge_holds keep p Hkeep runs ess s Hruns) as (out&r&s'&E&Hm&Hw&Hs).
  exists r, s', (kept p out). split; [done|]. split; [done|].
  split; [by eapply StronglySorted_filter, merged_sorted|]. intros key.
  transitivity (concat (kept p <$> (filter (λ e : Entry, e.1 = key) <$> ess)));
    [|by rewrite <-list_fmap_compose].
  unfold kept at 2. rewrite <-list_filter_concat, <-(merged_key _ _ key Hm Hs). unfold kept.
  rewrite !list_filter_filter. apply list_filter_iff. naive_solver.
Qed.

Lemma merge_keeps_order_witness :
  ∃ r s' out,
    Run_merge [run_of example_entries; run_of example_older] (λ _ _ (s : nat), (true, Datatypes.S s)) 0%nat
      = Some (r, s') ∧ written r out ∧ StronglySorted key_le out
    ∧ ∀ key, filter (λ e : Entry, e.1 = key) out =
        concat ((λ es, filter (λ e : Entry, true = true) (filter (λ e : Entry, e.1 = key) es))
                <$> [example_entries; example_older]).
Proof.
  apply (merge_keeps_order _ (λ _ _, true)); [done|].
  apply Forall2_cons. split; [apply example_holds|].
  apply Forall2_cons. split; [apply older_holds|constructor].
Defined.
