(* ===== verification/RunFile.v ===== *)
(** The file of a run: [Run::encode], [Run::decode] and the [Reader] of
    [rudb-index/src/run.rs].

    [decode] answers [None] where the code would panic, which [run_file_iff] shows it never
    does. *)

From S2P Require Import Prelude Bloom Run RunRead RunMerge.
Local Open Scope Z_scope.

(** [b"RUDBKI1\0"] *)
Definition RUN_MAGIC : list Z := [82; 85; 68; 66; 75; 73; 49; 0].

Definition corrupt (message : string) : Error :=
  InvalidInput ("invalid rudb key index run: " +:+ message).

Definition Run_encode (r : Run) : list Z :=
  let out := RUN_MAGIC
    ++ concat (le_bytes 8 <$> [run_len r; Run_nblocks r; zlen (run_bloom r); zlen (run_fences r);
                               zlen (run_blocks r)])
    ++ concat (le_bytes 8 <$> run_starts r ++ run_fence_starts r)
    ++ concat (le_bytes 8 <$> run_bloom r)
    ++ run_fences r in
  let check := hash out in
  out ++ le_bytes 8 check ++ run_blocks r.

(** ** The reader: its bytes are an argument, [at] is threaded. *)

Definition Reader_take (bytes : list Z) (n at_ : Z) : Result (list Z * Z) :=
  let end_ := at_ + n in
  if (end_ >? usize_max) || (end_ >? zlen bytes) then Err (corrupt "cut short")
  else Ok (slice at_ end_ bytes, end_).

Definition Reader_u64 (bytes : list Z) (at_ : Z) : Result (Z * Z) :=
  '(taken, at_) ← Reader_take bytes 8 at_; Ok (le_val taken, at_).

Definition Reader_size (bytes : list Z) (at_ : Z) : Result (Z * Z) :=
  '(n, at_) ← Reader_u64 bytes at_;
  if n <=? zlen bytes then Ok (n, at_) else Err (corrupt "a size past the end").

Fixpoint Reader_starts_loop (n : nat) (bytes : list Z) (len : Z) (starts : list Z) (at_ : Z)
    : Result (list Z * Z) :=
  match n with
  | O => Ok (starts, at_)
  | S n =>
      '(start, at_) ← Reader_size bytes at_;
      if (start >? len) || match last starts with Some l => start <? l | None => false end
      then Err (corrupt "offsets out of order")
      else Reader_starts_loop n bytes len (starts ++ [start]) at_
  end.

Definition Reader_starts (bytes : list Z) (n len at_ : Z) : Result (list Z * Z) :=
  '(starts, at_) ← Reader_starts_loop (Z.to_nat n) bytes len [] at_;
  if bool_decide (head starts = Some 0 ∧ last starts = Some len) then Ok (starts, at_)
  else Err (corrupt "offsets do not cover the section").

Fixpoint read_words (n : nat) (bytes : list Z) (at_ : Z) : Result (list Z * Z) :=
  match n with
  | O => Ok ([], at_)
  | S n =>
      '(word, at_) ← Reader_u64 bytes at_;
      '(words, at_) ← read_words n bytes at_;
      Ok (word :: words, at_)
  end.

(** [(1..blocks).any(|block| run.fence(block - 1) > run.fence(block))] *)
Fixpoint fences_fall (n : nat) (block : Z) (r : Run) : option bool :=
  match n with
  | O => Some false
  | S n =>
      a ← Run_fence r (block - 1);
      b ← Run_fence r block;
      if slice_lt b a then Some true else fences_fall n (block + 1) r
  end.

(** Everything up to the check of the fences. *)
Definition decode_parts (bytes : list Z) : Result Run :=
  '(magic, at_) ← Reader_take bytes 8 0;
  if negb (slice_eq magic RUN_MAGIC) then Err (corrupt "not a key index run") else
  '(len, at_) ← Reader_u64 bytes at_;
  '(blocks, at_) ← Reader_size bytes at_;
  '(words, at_) ← Reader_size bytes at_;
  '(fence_bytes, at_) ← Reader_size bytes at_;
  '(block_bytes, at_) ← Reader_size bytes at_;
  let starts_len := blocks + 1 in
  if negb (eqb (blocks =? 0) (len =? 0)) || (blocks >? len)
  then Err (corrupt "blocks do not match the entries") else
  '(starts, at_) ← Reader_starts bytes starts_len block_bytes at_;
  '(fence_starts, at_) ← Reader_starts bytes starts_len fence_bytes at_;
  '(bloom, at_) ← read_words (Z.to_nat words) bytes at_;
  '(fences, at_) ← Reader_take bytes fence_bytes at_;
  let checked := at_ in
  '(check, at_) ← Reader_u64 bytes at_;
  if negb (check =? hash (slice 0 checked bytes)) then Err (corrupt "the check does not match") else
  '(blocks, at_) ← Reader_take bytes block_bytes at_;
  if negb (at_ =? zlen bytes) then Err (corrupt "bytes after the blocks") else
  match Bloom_from_words bloom with
  | None => Err (corrupt "no bloom filter")
  | Some bloom => Ok (mkRun blocks starts fences fence_starts bloom len)
  end.

Definition Run_decode (bytes : list Z) : option (Result Run) :=
  match decode_parts bytes with
  | Err e => Some (Err e)
  | Ok run =>
      let blocks := Run_nblocks run in
      fall ← fences_fall (Z.to_nat (blocks - 1)) 1 run;
      Some (if (fall : bool) then Err (corrupt "fences out of order") else Ok run)
  end.

(** * What a decoded run is *)

(** Offsets into a section of [len] bytes: from 0, never going down, to [len]. *)
Definition starts_ok (starts : list Z) (len : Z) : Prop :=
  head starts = Some 0 ∧ last starts = Some len ∧ StronglySorted Z.le starts.

Definition fences_ok (r : Run) : Prop :=
  ∀ b, 1 ≤ b < Run_nblocks r →
    ∃ f f', Run_fence r (b - 1) = Some f ∧ Run_fence r b = Some f' ∧ sle f f'.

Record run_parts_ok (r : Run) : Prop := {
  file_starts : starts_ok (run_starts r) (zlen (run_blocks r));
  file_fence_starts : starts_ok (run_fence_starts r) (zlen (run_fences r));
  file_same : length (run_starts r) = length (run_fence_starts r);
  file_bloom : run_bloom r ≠ [];
  file_words : Forall u64 (run_bloom r);
  file_fences : bytes_ok (run_fences r);
  file_blocks : bytes_ok (run_blocks r);
  file_len : u64 (run_len r);
  file_empty : Run_nblocks r = 0 ↔ run_len r = 0;
  file_count : Run_nblocks r ≤ run_len r }.

Definition run_file_ok (r : Run) : Prop := run_parts_ok r ∧ fences_ok r.

(** * The reader on what was written *)

Lemma ok_bind {A B} (f : A → Result B) x : Ok x ≫= f = f x.
Proof. done. Qed.

Section read_written.
Context (pre suf : list Z).

Lemma take_at x at_ n :
  at_ = zlen pre → n = zlen x → zlen (pre ++ x ++ suf) ≤ usize_max →
  Reader_take (pre ++ x ++ suf) n at_ = Ok (x, zlen (pre ++ x)).
Proof.
  intros -> -> Hmax. unfold Reader_take.
  rewrite (proj2 (orb_false_iff _ _)).
  2:{ rewrite !Z.gtb_ltb, !Z.ltb_ge. split; zlen_lia. }
  f_equal. rewrite zlen_app. f_equal. slice_field. done.
Qed.

Lemma u64_at v at_ :
  at_ = zlen pre → u64 v → zlen (pre ++ le_bytes 8 v ++ suf) ≤ usize_max →
  Reader_u64 (pre ++ le_bytes 8 v ++ suf) at_ = Ok (v, zlen (pre ++ le_bytes 8 v)).
Proof.
  intros Hat Hv Hmax. unfold Reader_u64. rewrite take_at by (done || by rewrite zlen_le_bytes).
  rewrite ok_bind. by rewrite le_val_bytes.
Qed.

Lemma size_at v at_ :
  at_ = zlen pre → 0 ≤ v ≤ zlen (pre ++ le_bytes 8 v ++ suf) →
  zlen (pre ++ le_bytes 8 v ++ suf) ≤ usize_max →
  Reader_size (pre ++ le_bytes 8 v ++ suf) at_ = Ok (v, zlen (pre ++ le_bytes 8 v)).
Proof.
  intros Hat Hv Hmax. unfold Reader_size.
  rewrite u64_at; [|done|unfold fits, usize_max in *; lia|done].
  rewrite ok_bind. rewrite (proj2 (Z.leb_le _ _)) by lia. done.
Qed.
End read_written.

Lemma read_words_at pre ws suf :
  Forall u64 ws → zlen (pre ++ concat (le_bytes 8 <$> ws) ++ suf) ≤ usize_max →
  read_words (length ws) (pre ++ concat (le_bytes 8 <$> ws) ++ suf) (zlen pre) =
    Ok (ws, zlen (pre ++ concat (le_bytes 8 <$> ws))).
Proof.
  revert pre. induction ws as [|w ws IH]; intros pre Hws Hmax; [by rewrite app_nil_r|].
  apply Forall_cons in Hws as [Hw Hws]. rewrite fmap_cons in *. cbn [concat length read_words] in *.
  rewrite <-app_assoc in *. rewrite u64_at by done. rewrite ok_bind.
  rewrite (app_assoc pre) in *. rewrite IH by done. by rewrite ok_bind, <-app_assoc.
Qed.

Lemma starts_loop_at pre l suf len acc :
  StronglySorted Z.le (acc ++ l) → Forall (λ s, 0 ≤ s ≤ len) l →
  len ≤ zlen (pre ++ concat (le_bytes 8 <$> l) ++ suf) ≤ usize_max →
  Reader_starts_loop (length l) (pre ++ concat (le_bytes 8 <$> l) ++ suf) len acc (zlen pre) =
    Ok (acc ++ l, zlen (pre ++ concat (le_bytes 8 <$> l))).
Proof.
  revert pre acc. induction l as [|s l IH]; intros pre acc Hs Hl Hmax; [by rewrite !app_nil_r|].
  apply Forall_cons in Hl as [H1 Hl]. rewrite fmap_cons in *.
  cbn [concat length Reader_starts_loop] in *. rewrite <-app_assoc in *.
  rewrite size_at by (done || lia). rewrite ok_bind. rewrite (proj2 (orb_false_iff _ _)).
  2:{ split; [lia|]. destruct (last acc) as [x|] eqn:E; [|done]. apply last_Some in E as [acc' ->].
      apply StronglySorted_app in Hs as (_&_&Hs). apply Z.ltb_ge, Hs; set_solver. }
  rewrite (app_assoc pre) in *. rewrite IH; [|by rewrite <-app_assoc|done|done].
  by rewrite <-!app_assoc.
Qed.

Lemma sorted_within l a b :
  StronglySorted Z.le l → head l = Some a → last l = Some b → Forall (λ s, a ≤ s ≤ b) l.
Proof.
  intros Hs Ha Hb. apply Forall_forall. intros s Hin. apply last_Some in Hb as [l' ->].
  split.
  - destruct (l' ++ [b]) as [|a' l]; [done|]. simpl in Ha. simplify_eq.
    apply StronglySorted_inv in Hs as [_ Hx]. rewrite Forall_forall in Hx.
    apply elem_of_cons in Hin as [->|Hin]; [done|]. by apply Hx.
  - apply StronglySorted_app in Hs as (_&_&Hs).
    apply elem_of_app in Hin as [Hin| ->%list_elem_of_singleton]; [|done]. apply Hs; set_solver.
Qed.

Lemma starts_at pre l suf len n at_ :
  at_ = zlen pre → n = zlen l → starts_ok l len →
  len ≤ zlen (pre ++ concat (le_bytes 8 <$> l) ++ suf) ≤ usize_max →
  Reader_starts (pre ++ concat (le_bytes 8 <$> l) ++ suf) n len at_ =
    Ok (l, zlen (pre ++ concat (le_bytes 8 <$> l))).
Proof.
  intros -> -> (H0&Hl&Hs) Hmax. unfold Reader_starts. unfold zlen at 1. rewrite Nat2Z.id.
  rewrite starts_loop_at; [|done|by apply sorted_within|done]. rewrite ok_bind.
  cbn [app]. by rewrite bool_decide_eq_true_2.
Qed.

(** The file field by field. *)
Lemma Run_encode_fields r :
  Run_encode r =
    [] ++ RUN_MAGIC ++ le_bytes 8 (run_len r) ++ le_bytes 8 (Run_nblocks r)
    ++ le_bytes 8 (zlen (run_bloom r)) ++ le_bytes 8 (zlen (run_fences r))
    ++ le_bytes 8 (zlen (run_blocks r)) ++ concat (le_bytes 8 <$> run_starts r)
    ++ concat (le_bytes 8 <$> run_fence_starts r) ++ concat (le_bytes 8 <$> run_bloom r)
    ++ run_fences r
    ++ le_bytes 8 (hash (RUN_MAGIC ++ le_bytes 8 (run_len r) ++ le_bytes 8 (Run_nblocks r)
         ++ le_bytes 8 (zlen (run_bloom r)) ++ le_bytes 8 (zlen (run_fences r))
         ++ le_bytes 8 (zlen (run_blocks r)) ++ concat (le_bytes 8 <$> run_starts r)
         ++ concat (le_bytes 8 <$> run_fence_starts r) ++ concat (le_bytes 8 <$> run_bloom r)
         ++ run_fences r))
    ++ run_blocks r ++ [].
Proof.
  unfold Run_encode. cbn [fmap list_fmap concat]. fold (le_bytes 8 <$> run_starts r ++ run_fence_starts r).
  rewrite !fmap_app, !concat_app, !app_nil_r, <-!app_assoc. done.
Qed.

Lemma zlen_concat_words l : zlen (concat (le_bytes 8 <$> l)) = 8 * zlen l.
Proof.
  induction l as [|x l IH]; [done|]. rewrite fmap_cons. cbn [concat].
  rewrite zlen_app, zlen_le_bytes, IH, zlen_cons. lia.
Qed.

Lemma u64_lxor_shift h k : 0 ≤ k → u64 h → u64 (Z.lxor h (h ≫ k)).
Proof. intros. apply fits_lxor; [lia|done|]. by apply fits_shiftr. Qed.

Lemma hash_fits key : u64 (hash key).
Proof.
  unfold hash. destruct (hash_loop _ _). apply u64_lxor_shift; [lia|]. by apply wrap_fits.
Qed.

Lemma file_nblocks r : run_parts_ok r → zlen (run_starts r) = Run_nblocks r + 1.
Proof.
  intros Hr. unfold Run_nblocks. destruct (file_starts _ Hr) as (Hh&_&_).
  destruct (run_starts r); [done|]. zlen_lia.
Qed.

(** Moves the field just read to what was read, under the name [q]. *)
Ltac next_field p q :=
  match goal with
  | Hmax : zlen _ ≤ usize_max, Hsz : _ ≤ zlen (p ++ ?x ++ _) |- _ =>
      rewrite (app_assoc p) in Hmax, Hsz |- *; set (q := p ++ x) in Hmax, Hsz |- *
  end.

Lemma decode_parts_encode r :
  run_parts_ok r → zlen (Run_encode r) ≤ usize_max → decode_parts (Run_encode r) = Ok r.
Proof.
  intros Hr Hmax. pose proof (file_nblocks _ Hr) as En. destruct Hr.
  assert (zlen (run_starts r) = zlen (run_fence_starts r)) as Esame by (unfold zlen; lia).
  assert (0 ≤ Run_nblocks r) by (unfold Run_nblocks; lia).
  rewrite Run_encode_fields in *. unfold decode_parts. set (check := hash _) in *.
  assert (zlen RUN_MAGIC = 8) as EM by done.
  assert (Hsz : 8 * zlen (run_starts r) + 8 * zlen (run_bloom r) + zlen (run_fences r)
     + zlen (run_blocks r) ≤ zlen ([] ++ RUN_MAGIC ++ le_bytes 8 (run_len r) ++ le_bytes 8 (Run_nblocks r)
    ++ le_bytes 8 (zlen (run_bloom r)) ++ le_bytes 8 (zlen (run_fences r))
    ++ le_bytes 8 (zlen (run_blocks r)) ++ concat (le_bytes 8 <$> run_starts r)
    ++ concat (le_bytes 8 <$> run_fence_starts r) ++ concat (le_bytes 8 <$> run_bloom r)
    ++ run_fences r ++ le_bytes 8 check ++ run_blocks r ++ [])).
  { rewrite !zlen_app, !zlen_concat_words. zlen_lia. }
  pose proof (zlen_nonneg (run_bloom r)). pose proof (zlen_nonneg (run_fences r)).
  pose proof (zlen_nonneg (run_blocks r)).
  rewrite take_at by done. rewrite ok_bind. rewrite (proj2 (slice_eq_iff _ _)) by done. cbn [negb].
  rewrite (app_assoc [] RUN_MAGIC) in Hmax, Hsz |- *. cbn [app] in Hmax, Hsz |- *.
  rewrite u64_at by done. rewrite ok_bind. cbv zeta. next_field RUN_MAGIC p1.
  rewrite size_at by (done || lia). rewrite ok_bind. next_field p1 p2.
  rewrite size_at by (done || lia). rewrite ok_bind. next_field p2 p3.
  rewrite size_at by (done || lia). rewrite ok_bind. next_field p3 p4.
  rewrite size_at by (done || lia). rewrite ok_bind. next_field p4 p5.
  rewrite (proj2 (orb_false_iff _ _)).
  2:{ split; [|lia]. apply negb_false_iff, eqb_true_iff. apply eq_bool_prop_intro.
      rewrite !Is_true_true, !Z.eqb_eq. done. }
  rewrite starts_at; [|done|lia|done|lia]. rewrite ok_bind. next_field p5 p6.
  rewrite starts_at; [|done|lia|done|lia]. rewrite ok_bind. next_field p6 p7.
  replace (Z.to_nat (zlen (run_bloom r))) with (length (run_bloom r)) by (unfold zlen; lia).
  rewrite read_words_at by done. rewrite ok_bind. next_field p7 p8.
  rewrite take_at by done. rewrite ok_bind. next_field p8 p9.
  rewrite u64_at; [|done|apply hash_fits|done]. rewrite ok_bind.
  rewrite slice_hit by done. unfold check. rewrite (proj2 (Z.eqb_eq _ _)).
  2:{ f_equal. unfold p9, p8, p7, p6, p5, p4, p3, p2, p1. by rewrite <-!app_assoc. }
  cbn [negb]. fold check. next_field p9 p10. rewrite take_at by done. rewrite ok_bind.
  rewrite app_nil_r, Z.eqb_refl. cbn [negb]. unfold Bloom_from_words.
  destruct r as [? ? ? ? bl ?]. by destruct bl.
Qed.

(** * What the reader answered was there *)

Section read_back.
Context (bytes : list Z) (Hok : bytes_ok bytes).

Lemma take_inv n at_ x at' pre suf :
  Reader_take bytes n at_ = Ok (x, at') → 0 ≤ n → bytes = pre ++ suf → at_ = zlen pre →
  ∃ suf', bytes = (pre ++ x) ++ suf' ∧ zlen x = n ∧ at' = zlen (pre ++ x).
Proof.
  unfold Reader_take. destruct (_ || _) eqn:E; [done|]. intros [= <- <-] Hn Eb ->.
  apply orb_false_iff in E as [_ E]. rewrite Z.gtb_ltb, Z.ltb_ge in E.
  rewrite Eb in *. rewrite slice_skip by lia.
  replace (zlen pre - zlen pre) with 0 by lia. replace (zlen pre + n - zlen pre) with n by lia.
  exists (drop (Z.to_nat n) suf). rewrite <-app_assoc, slice_drop.
  assert (zlen (slice 0 n suf) = n) by (rewrite zlen_slice; zlen_lia). split; [done|]. zlen_lia.
Qed.

Lemma u64_inv at_ v at' pre suf :
  Reader_u64 bytes at_ = Ok (v, at') → bytes = pre ++ suf → at_ = zlen pre →
  ∃ suf', bytes = (pre ++ le_bytes 8 v) ++ suf' ∧ u64 v ∧ at' = zlen (pre ++ le_bytes 8 v).
Proof.
  unfold Reader_u64. destruct (Reader_take bytes 8 at_) as [[x at1]|] eqn:E; [|done].
  rewrite ok_bind. intros [= <- <-] Eb Hat.
  destruct (take_inv _ _ _ _ _ _ E ltac:(lia) Eb Hat) as (suf'&E1&Hx&->).
  assert (bytes_ok x) as Hxok by (rewrite E1, !Forall_app in Hok; naive_solver).
  assert (length x = 8%nat) as Hl by (unfold zlen in Hx; lia).
  exists suf'. rewrite le_bytes_val by done. split; [done|]. split; [|done].
  pose proof (le_val_fits x Hxok) as Hf. by rewrite Hl in Hf.
Qed.

Lemma size_inv at_ v at' pre suf :
  Reader_size bytes at_ = Ok (v, at') → bytes = pre ++ suf → at_ = zlen pre →
  ∃ suf', bytes = (pre ++ le_bytes 8 v) ++ suf' ∧ u64 v ∧ at' = zlen (pre ++ le_bytes 8 v).
Proof.
  unfold Reader_size. destruct (Reader_u64 bytes at_) as [[v1 at1]|] eqn:E; [|done].
  rewrite ok_bind. destruct (_ <=? _); [|done]. intros [= -> ->]. by apply u64_inv.
Qed.

Lemma starts_loop_inv n len acc at_ l at' pre suf :
  Reader_starts_loop n bytes len acc at_ = Ok (l, at') → StronglySorted Z.le acc →
  bytes = pre ++ suf → at_ = zlen pre →
  ∃ l' suf', l = acc ++ l' ∧ length l' = n ∧ StronglySorted Z.le l
    ∧ bytes = (pre ++ concat (le_bytes 8 <$> l')) ++ suf'
    ∧ at' = zlen (pre ++ concat (le_bytes 8 <$> l')).
Proof.
  revert acc at_ pre suf. induction n as [|n IH]; intros acc at_ pre suf E Hs Eb Hat.
  - cbn [Reader_starts_loop] in E. simplify_eq. exists [], suf. rewrite !app_nil_r. done.
  - cbn [Reader_starts_loop] in E. destruct (Reader_size bytes at_) as [[s at1]|] eqn:E1; [|done].
    rewrite ok_bind in E. destruct (_ || _) eqn:Ec; [done|]. apply orb_false_iff in Ec as [_ Ec].
    destruct (size_inv _ _ _ _ _ E1 Eb Hat) as (suf1&Eb1&_&Hat1).
    edestruct (λ H, IH _ _ _ _ E H Eb1 Hat1) as (l'&suf'&->&Hl&Hs'&Eb'&->).
    { apply StronglySorted_app. split; [done|]. split; [by repeat constructor|].
      intros x y Hx ->%list_elem_of_singleton. destruct (last acc) as [z|] eqn:Ez.
      - apply last_Some in Ez as [acc' ->]. apply Z.ltb_ge in Ec.
        apply StronglySorted_app in Hs as (_&_&Hs).
        apply elem_of_app in Hx as [Hx| ->%list_elem_of_singleton]; [|done].
        specialize (Hs x z Hx ltac:(set_solver)). lia.
      - apply last_None in Ez as ->. set_solver. }
    exists (s :: l'), suf'. rewrite fmap_cons. cbn [concat length]. rewrite <-!app_assoc in *.
    split; [done|]. split; [lia|]. done.
Qed.

Lemma starts_inv n len at_ l at' pre suf :
  Reader_starts bytes n len at_ = Ok (l, at') → 0 ≤ n → bytes = pre ++ suf → at_ = zlen pre →
  ∃ suf', zlen l = n ∧ starts_ok l len
    ∧ bytes = (pre ++ concat (le_bytes 8 <$> l)) ++ suf'
    ∧ at' = zlen (pre ++ concat (le_bytes 8 <$> l)).
Proof.
  unfold Reader_starts. destruct (Reader_starts_loop _ _ _ _ _) as [[l0 at0]|] eqn:E; [|done].
  rewrite ok_bind. case_bool_decide as Hc; [|done]. intros [= -> ->] Hn Eb Hat.
  destruct (starts_loop_inv _ _ _ _ _ _ _ _ E (SSorted_nil _) Eb Hat) as (l'&suf'&->&Hl&Hs&Eb'&Ha).
  simpl in *. exists suf'. split; [unfold zlen; lia|]. split; [|done]. split; [|split]; [naive_solver..|done].
Qed.

Lemma read_words_inv n at_ ws at' pre suf :
  read_words n bytes at_ = Ok (ws, at') → bytes = pre ++ suf → at_ = zlen pre →
  ∃ suf', length ws = n ∧ Forall u64 ws ∧ bytes = (pre ++ concat (le_bytes 8 <$> ws)) ++ suf'
    ∧ at' = zlen (pre ++ concat (le_bytes 8 <$> ws)).
Proof.
  revert at_ ws at' pre suf. induction n as [|n IH]; intros at_ ws at' pre suf E Eb Hat.
  - cbn [read_words] in E. injection E as <- <-. exists suf. by rewrite app_nil_r.
  - cbn [read_words] in E. destruct (Reader_u64 bytes at_) as [[w at1]|] eqn:E1; [|done].
    rewrite ok_bind in E. destruct (read_words n bytes at1) as [[ws1 at2]|] eqn:E2; [|done].
    rewrite ok_bind in E. injection E as <- <-.
    destruct (u64_inv _ _ _ _ _ E1 Eb Hat) as (suf1&Eb1&Hw&Hat1).
    destruct (IH _ _ _ _ _ E2 Eb1 Hat1) as (suf'&Hl&Hws&Eb'&->).
    exists suf'. rewrite fmap_cons. cbn [concat length]. rewrite <-!app_assoc in *.
    split; [lia|]. split; [by constructor|]. done.
Qed.
End read_back.

(** Takes the next step of a computation that answered [Ok]. *)
Ltac answered H :=
  match type of H with
  | (?m ≫= _) = Ok _ =>
      let E := fresh "E" in
      let v := fresh "v" in
      let a := fresh "a" in
      destruct m as [[v a]|] eqn:E; [rewrite ok_bind in H|done]
  end.

Lemma decode_parts_inv bytes r :
  bytes_ok bytes → decode_parts bytes = Ok r → run_parts_ok r ∧ bytes = Run_encode r.
Proof.
  intros Hok H. unfold decode_parts in H. answered H.
  destruct (slice_eq v RUN_MAGIC) eqn:Em; [|done]. cbn [negb] in H. apply slice_eq_iff in Em as ->.
  do 5 answered H. destruct (negb (eqb _ _) || _) eqn:Ec; [done|].
  apply orb_false_iff in Ec as [Ec1 Ec2].
  do 5 answered H. destruct (_ =? hash _) eqn:Eh; [|done]. cbn [negb] in H. apply Z.eqb_eq in Eh.
  answered H. destruct (_ =? zlen bytes) eqn:El; [|done]. cbn [negb] in H. apply Z.eqb_eq in El.
  destruct (take_inv bytes Hok _ _ _ _ [] bytes E) as (s0&B0&_&A0); [lia|done..|].
  destruct (u64_inv bytes Hok _ _ _ _ _ E0 B0 A0) as (s1&B1&U1&A1).
  destruct (size_inv bytes Hok _ _ _ _ _ E1 B1 A1) as (s2&B2&U2&A2).
  destruct (size_inv bytes Hok _ _ _ _ _ E2 B2 A2) as (s3&B3&U3&A3).
  destruct (size_inv bytes Hok _ _ _ _ _ E3 B3 A3) as (s4&B4&U4&A4).
  destruct (size_inv bytes Hok _ _ _ _ _ E4 B4 A4) as (s5&B5&U5&A5).
  unfold fits in U2, U3, U4, U5.
  destruct (starts_inv bytes Hok _ _ _ _ _ _ _ E5 ltac:(lia) B5 A5) as (s6&L6&K6&B6&A6).
  destruct (starts_inv bytes Hok _ _ _ _ _ _ _ E6 ltac:(lia) B6 A6) as (s7&L7&K7&B7&A7).
  destruct (read_words_inv bytes Hok _ _ _ _ _ _ E7 B7 A7) as (s8&L8&K8&B8&A8).
  destruct (take_inv bytes Hok _ _ _ _ _ _ E8 ltac:(lia) B8 A8) as (s9&B9&L9&A9).
  destruct (u64_inv bytes Hok _ _ _ _ _ E9 B9 A9) as (s10&B10&_&A10).
  destruct (take_inv bytes Hok _ _ _ _ _ _ E10 ltac:(lia) B10 A10) as (s11&B11&L11&A11).
  clear E E0 E1 E2 E3 E4 E5 E6 E7 E8 E9 E10.
  assert (s11 = []) as ->.
  { apply (f_equal zlen) in B11. rewrite zlen_app, <-A11, El in B11. apply nil_zlen. lia. }
  rewrite app_nil_r in B11.
  assert (hash (slice 0 a8 bytes) = hash (RUN_MAGIC ++ le_bytes 8 v ++ le_bytes 8 v0 ++ le_bytes 8 v1
    ++ le_bytes 8 v2 ++ le_bytes 8 v3 ++ concat (le_bytes 8 <$> v4) ++ concat (le_bytes 8 <$> v5)
    ++ concat (le_bytes 8 <$> v6) ++ v7)) as Echk.
  { rewrite A9, B9, slice_hit by done. f_equal. by rewrite <-!app_assoc. }
  assert (bytes_ok v7 ∧ bytes_ok v9) as [K7' K9].
  { rewrite B11, !Forall_app in Hok. naive_solver. }
  unfold Bloom_from_words in H. destruct v6 as [|w ws] eqn:Ew; [done|]. rewrite <-Ew in *.
  injection H as <-. assert (v1 = zlen v6) as -> by (unfold zlen; lia). clear L8.
  assert (Hn : Run_nblocks (mkRun v9 v4 v7 v5 v6 v) = v0) by (unfold Run_nblocks; simpl; lia).
  split.
  - split; simpl; rewrite ?Hn, ?L11, ?L9; try done.
    + unfold zlen in *. lia.
    + by rewrite Ew.
    + apply negb_false_iff, eqb_prop in Ec1. rewrite <-!Z.eqb_eq. by rewrite Ec1.
    + lia.
  - rewrite Run_encode_fields.
    cbn [run_len run_bloom run_fences run_blocks run_starts run_fence_starts]. rewrite Hn, L9, L11, <-Echk, <-Eh, app_nil_r.
    rewrite B11. by rewrite <-!app_assoc.
Qed.

(** * The fences of a decoded run *)

Lemma StronglySorted_lookup l i j (x y : Z) :
  StronglySorted Z.le l → l !! i = Some x → l !! j = Some y → (i ≤ j)%nat → x ≤ y.
Proof.
  intros Hs. revert i j. induction Hs as [|z l Hs IH Hz]; intros i j Hi Hj Hij; [done|].
  destruct i as [|i], j as [|j]; simpl in *; simplify_eq; [done| |lia|apply (IH i j); [done|done|lia]].
  rewrite Forall_forall in Hz. by eapply Hz, list_elem_of_lookup_2.
Qed.

(** Two neighbouring offsets of a section are in range and in order. *)
Lemma starts_ok_pair starts len i :
  starts_ok starts len → 0 ≤ i < zlen starts - 1 →
  ∃ a b, starts !! Z.to_nat i = Some a ∧ starts !! Z.to_nat (i + 1) = Some b ∧ 0 ≤ a ≤ b ∧ b ≤ len.
Proof.
  intros (H0&Hl&Hs) Hi. unfold zlen in Hi.
  destruct (lookup_lt_is_Some_2 starts (Z.to_nat i)) as [a Ha]; [lia|].
  destruct (lookup_lt_is_Some_2 starts (Z.to_nat (i + 1))) as [b Hb]; [lia|].
  pose proof (sorted_within _ _ _ Hs H0 Hl) as Hin. rewrite Forall_lookup in Hin.
  exists a, b. split; [done|]. split; [done|].
  pose proof (StronglySorted_lookup _ _ _ _ _ Hs Ha Hb ltac:(lia)).
  pose proof (Hin _ _ Ha). pose proof (Hin _ _ Hb). simpl in *. lia.
Qed.

Lemma file_fence r b :
  run_parts_ok r → 0 ≤ b < Run_nblocks r → ∃ f, Run_fence r b = Some f.
Proof.
  intros Hr Hb. pose proof (file_nblocks _ Hr) as Hn. pose proof (file_same _ Hr) as Hsame.
  destruct (starts_ok_pair _ _ b (file_fence_starts _ Hr)) as (x&y&Ex&Ey&Hxy&Hy).
  { unfold zlen in *. lia. }
  unfold Run_fence. rewrite Ex. bind_step. rewrite Ey. bind_step.
  rewrite get_range_in by lia. eauto.
Qed.

Lemma fences_fall_total n b r :
  run_parts_ok r → 1 ≤ b → b + Z.of_nat n ≤ Z.max 1 (Run_nblocks r) →
  ∃ fall, fences_fall n b r = Some fall
    ∧ (fall = false ↔ ∀ i, b ≤ i < b + Z.of_nat n →
         ∃ f f', Run_fence r (i - 1) = Some f ∧ Run_fence r i = Some f' ∧ sle f f').
Proof.
  intros Hr. revert b. induction n as [|n IH]; intros b Hb Hn.
  { exists false. split; [done|]. split; [lia|done]. }
  cbn [fences_fall]. destruct (file_fence r (b - 1) Hr) as [f Hf]; [lia|].
  destruct (file_fence r b Hr) as [f' Hf']; [lia|]. rewrite Hf. bind_step. rewrite Hf'. bind_step.
  destruct (slice_lt f' f) eqn:Elt.
  - exists true. split; [done|]. split; [done|]. intros Hall. apply slice_lt_sle in Elt.
    destruct (Hall b) as (g&g'&?&?&?); [lia|]. by simplify_eq.
  - destruct (IH (b + 1)) as (fall&->&Hfall); [lia..|]. exists fall. split; [done|].
    rewrite Hfall. split; intros Hall i Hi; [|apply Hall; lia].
    destruct (decide (i = b)) as [->|]; [|apply Hall; lia].
    exists f, f'. split; [done|]. split; [done|]. unfold sle. by rewrite slice_le_lt, Elt.
Qed.

Lemma Run_decode_spec bytes :
  bytes_ok bytes → zlen bytes ≤ usize_max →
  (∃ res, Run_decode bytes = Some res) ∧
  ∀ r, Run_decode bytes = Some (Ok r) ↔ run_file_ok r ∧ Run_encode r = bytes.
Proof.
  intros Hok Hmax.
  assert (Hfall : ∀ r, run_parts_ok r → ∃ fall,
    fences_fall (Z.to_nat (Run_nblocks r - 1)) 1 r = Some fall ∧ (fall = false ↔ fences_ok r)).
  { intros r Hr. destruct (fences_fall_total (Z.to_nat (Run_nblocks r - 1)) 1 r) as (fall&E&Hf); [done|lia..|].
    exists fall. split; [done|]. rewrite Hf. unfold fences_ok.
    split; intros Hall i Hi; apply Hall; lia. }
  unfold Run_decode. destruct (decode_parts bytes) as [r0|e] eqn:E.
  - destruct (decode_parts_inv _ _ Hok E) as [Hr ->]. destruct (Hfall r0 Hr) as (fall&->&Hiff).
    rewrite some_bind. split; [by destruct fall; eauto|]. intros r. destruct fall.
    + split; [done|]. intros [[Hr' Hf] Enc]. apply (f_equal decode_parts) in Enc as Ed.
      rewrite !decode_parts_encode in Ed by (rewrite ?Enc; done). simplify_eq. naive_solver.
    + split; [intros [= <-]; split; [|done]; split; naive_solver|].
      intros [[Hr' Hf] Enc]. apply (f_equal decode_parts) in Enc as Ed.
      rewrite !decode_parts_encode in Ed by (rewrite ?Enc; done). by simplify_eq.
  - split; [eauto|]. intros r. split; [done|]. intros [[Hr Hf] <-].
    by rewrite decode_parts_encode in E.
Qed.

(** * A run from a writer is one [decode] takes *)

Lemma bounds_sorted a ls : StronglySorted Z.le (bounds a ls).
Proof.
  assert (Hge : ∀ ls a, Forall (Z.le a) (bounds a ls)).
  { clear. induction ls as [|l ls IH]; intros a; simpl; (constructor; [done|]); [constructor|].
    eapply Forall_impl; [apply IH|]. intros x. pose proof (zlen_nonneg l). simpl. lia. }
  revert a. induction ls as [|l ls IH]; intros a; simpl.
  - repeat constructor.
  - constructor; [apply IH|]. eapply Forall_impl; [apply Hge|]. intros x.
    pose proof (zlen_nonneg l). simpl. lia.
Qed.

Lemma bounds_ok ls : starts_ok (bounds 0 ls) (zlen (concat ls)).
Proof.
  split; [by destruct ls|]. split; [|apply bounds_sorted].
  destruct (bounds_last 0 ls) as [bs ->]. by rewrite last_snoc.
Qed.

Definition keys_ok (es : list Entry) : Prop := Forall (λ e, bytes_ok e.1) es.

Lemma put_varint_ok n : bytes_ok (put_varint n).
Proof.
  unfold put_varint. generalize 9%nat. intros fuel. revert n.
  induction fuel as [|fuel IH]; intros n; cbn [put_varint_loop].
  - repeat constructor; by apply wrap_fits.
  - destruct (n >=? 128); constructor; try done; [|by apply wrap_fits].
    apply fits_lor; [lia|by apply wrap_fits|]. unfold fits. lia.
Qed.

Lemma entries_bytes_ok prev es : keys_ok es → bytes_ok (entries_bytes prev es).
Proof.
  intros H. revert prev. induction H as [|e es He _ IH]; intros prev; [constructor|]. simpl.
  apply Forall_app. split; [|apply IH]. unfold entry_bytes.
  repeat (apply Forall_app; split); try apply put_varint_ok. by apply Forall_drop.
Qed.

Lemma keys_ok_blocks bs :
  keys_ok (concat bs) →
  bytes_ok (concat (block_bytes <$> bs)) ∧ bytes_ok (concat (fence_of <$> bs)).
Proof.
  induction bs as [|b bs IH]; [done|]. rewrite !fmap_cons. cbn [concat].
  intros [Hb Hbs]%Forall_app. destruct (IH Hbs) as [??]. split; apply Forall_app; split; try done.
  - by apply entries_bytes_ok.
  - destruct b as [|e b]; [constructor|]. by apply Forall_cons in Hb as [? _].
Qed.

Lemma concat_nonempty_len {A} (bs : list (list A)) :
  Forall (λ b, b ≠ []) bs → zlen bs ≤ zlen (concat bs).
Proof.
  induction 1 as [|b bs Hb _ IH]; [done|]. cbn [concat]. rewrite zlen_cons, zlen_app.
  destruct b; [done|]. zlen_lia.
Qed.

Lemma written_file_ok r es :
  written r es → keys_ok es → u64 (zlen es) → run_file_ok r.
Proof.
  intros (bs&Hv&<-) Hk Hlen. pose proof (view_nblocks r bs Hv) as Hn.
  destruct (keys_ok_blocks bs Hk) as [Hb Hf]. pose proof (concat_nonempty_len _ (view_nonempty _ _ Hv)) as Hc.
  destruct (view_words _ _ Hv) as [Hw Hu]. split.
  - split; try done; rewrite ?(view_starts _ _ Hv), ?(view_fence_starts _ _ Hv), ?(view_blocks _ _ Hv),
      ?(view_fences _ _ Hv), ?(view_len _ _ Hv), ?Hn; try done; try apply bounds_ok.
    + by rewrite !length_bounds, !length_fmap.
    + split; [intros ->%nil_zlen; done|]. pose proof (zlen_nonneg bs). lia.
  - intros b Hb'. rewrite Hn in Hb'.
    destruct (fence_nth bs (b - 1)) as (b1&f&b2&E&Eb); [lia|].
    destruct b2 as [|f' b2]; [rewrite E in Hb'; zlen_lia|].
    exists (fence_of f), (fence_of f'). rewrite <-Eb, (view_fence r bs Hv _ _ _ E).
    assert (bs = (b1 ++ [f]) ++ f' :: b2) as E' by (by rewrite <-app_assoc).
    replace b with (zlen (b1 ++ [f])) by zlen_lia. rewrite (view_fence r bs Hv _ _ _ E').
    split; [done|]. split; [done|].
    pose proof (view_nonempty _ _ Hv) as Hne. rewrite E, Forall_app, !Forall_cons in Hne.
    destruct f as [|e f]; [naive_solver|].
    apply (fence_above r bs Hv (b1 ++ [e :: f]) f' b2 e); [done|].
    rewrite concat_app. simpl. set_solver.
Qed.

(** * Reading a damaged run

    [decode] does not read the blocks. Whatever they hold, a cursor stays inside them, moves
    forward and ends. *)

Lemma read_entry_progress bytes first at_ key h at' key' :
  0 ≤ at_ → read_entry bytes first at_ key = (Some (h, at'), key') → at_ < at' ≤ zlen bytes.
Proof.
  intros Hat. unfold read_entry.
  destruct (varint bytes at_) as [[shared a1]|] eqn:E1; [|done]. rewrite some_bind.
  destruct (varint bytes a1) as [[rest a2]|] eqn:E2; [|done]. rewrite some_bind.
  destruct (_ || _); [done|]. destruct (_ >? usize_max); [done|].
  destruct (get_range a2 (a2 + rest) bytes) as [suffix|] eqn:Eg; [|done]. rewrite some_bind.
  destruct (varint bytes (a2 + rest)) as [[rid a3]|] eqn:E3; [|done]. rewrite some_bind.
  destruct (varint bytes a3) as [[ts a4]|] eqn:E4; [|done]. rewrite some_bind. intros [= _ <- _].
  apply get_range_Some in Eg as (Ha&_&_).
  apply varint_progress in E1; [|done]. apply varint_progress in E2; [|lia].
  apply varint_progress in E3; [|lia]. apply varint_progress in E4; [|lia]. lia.
Qed.

Definition cursor_safe (r : Run) (c : Cursor) : Prop :=
  0 ≤ c_block c ∧ 0 ≤ c_at c ≤ zlen (run_blocks r).

Definition cursor_left (r : Run) (c : Cursor) : nat :=
  Z.to_nat (zlen (run_blocks r) - c_at c) + (if c_held c then 1 else 0).

Section damaged.
Context (r : Run) (Hr : run_parts_ok r).

Lemma skip_blocks_total fuel block at_ :
  0 ≤ block → (Z.to_nat (Run_nblocks r - block) < fuel)%nat →
  ∃ b, skip_blocks fuel r block at_ = Some b ∧ block ≤ b.
Proof.
  revert block. induction fuel as [|fuel IH]; intros block Hb Hf; [lia|]. cbn [skip_blocks].
  destruct (Z.ltb_spec block (Run_nblocks r)) as [Hlt|]; [|by exists block].
  pose proof (file_nblocks _ Hr).
  destruct (starts_ok_pair _ _ block (file_starts _ Hr)) as (x&y&_&->&_&_); [lia|]. bind_step.
  destruct (at_ >=? y); [|by exists block].
  destruct (IH (block + 1)) as (b&->&?); [lia..|]. exists b. split; [done|lia].
Qed.

(** [advance] never panics, and moves forward whenever it answers an entry. *)
Lemma advance_safe c :
  cursor_safe r c →
  ∃ more c', Cursor_advance r c = Some (more, c') ∧ cursor_safe r c' ∧ c_held c' = false
    ∧ (more = true → (cursor_left r c' < cursor_left r c)%nat).
Proof.
  intros [Hb Ha]. unfold Cursor_advance. pose proof (file_nblocks _ Hr) as Hn.
  destruct (c_held c) eqn:Hh.
  { eexists true, _. split; [done|]. split; [done|]. split; [done|]. intros _.
    unfold cursor_left. rewrite Hh. simpl. lia. }
  destruct (skip_blocks_total (S (length (run_starts r))) (c_block c) (c_at c)) as (b&->&Hbb);
    [done|unfold zlen in *; lia|]. bind_step.
  destruct (Z.geb_spec b (Run_nblocks r)) as [_|Hlt].
  { eexists false, _. split; [done|]. split; [split; simpl; lia|]. done. }
  destruct (starts_ok_pair _ _ b (file_starts _ Hr)) as (x&y&Ex&Ey&Hxy&Hy); [lia|].
  rewrite Ey. bind_step. rewrite Ex. bind_step. unfold get_to. rewrite get_range_in by lia. bind_step.
  destruct (read_entry _ _ _ _) as [[[h a']|] k] eqn:E.
  - apply read_entry_progress in E; [|lia]. rewrite zlen_slice in E by lia.
    eexists true, _. split; [done|]. split; [split; simpl; lia|]. split; [done|]. intros _.
    unfold cursor_left. rewrite Hh. simpl. lia.
  - eexists false, _. split; [done|]. split; [split; simpl; unfold Run_nblocks; lia|]. done.
Qed.

Lemma new_safe block : 0 ≤ block → cursor_safe r (Cursor_new r block).
Proof.
  intros Hb. split; [done|]. simpl. destruct (run_starts r !! Z.to_nat block) as [s|] eqn:E; simpl.
  - destruct (file_starts _ Hr) as (H0&Hl&Hs).
    pose proof (sorted_within _ _ _ Hs H0 Hl) as Hin. rewrite Forall_lookup in Hin.
    exact (Hin _ _ E).
  - pose proof (zlen_nonneg (run_blocks r)). lia.
Qed.

Lemma skip_while_total skip fuel c :
  cursor_safe r c → (cursor_left r c < fuel)%nat →
  ∃ c', skip_while_loop fuel r skip c = Some c' ∧ cursor_safe r c'.
Proof.
  revert c. induction fuel as [|fuel IH]; intros c Hc Hf; [lia|]. cbn [skip_while_loop].
  destruct (advance_safe c Hc) as (more&c'&->&Hc'&_&Hleft). bind_step. destruct more; [|eauto].
  destruct (skip (c_key c')); [|eauto]. apply IH; [done|]. specialize (Hleft eq_refl). lia.
Qed.

Lemma fuel_enough c : cursor_safe r c → (cursor_left r c < fuel_of r)%nat.
Proof.
  intros [_ Ha]. unfold cursor_left, fuel_of, zlen in *. destruct (c_held c); lia.
Qed.

Lemma seek_total key : ∃ c, Run_seek r key = Some c ∧ cursor_safe r c.
Proof.
  unfold Run_seek, partition.
  assert (Hp : ∀ fuel lo hi, 0 ≤ lo → hi ≤ Run_nblocks r → (Z.to_nat (hi - lo) < fuel)%nat →
    ∃ a, partition_loop fuel (λ block, fence ← Run_fence r block; Some (slice_lt fence key)) lo hi
         = Some a).
  { induction fuel as [|fuel IH]; intros lo hi Hlo Hhi Hf; [lia|]. cbn [partition_loop].
    destruct (Z.ltb_spec lo hi) as [Hlt|]; [|eauto].
    pose proof (Z.div_pos (hi - lo) 2). pose proof (Z.div_lt (hi - lo) 2).
    destruct (file_fence r (lo + (hi - lo) / 2) Hr) as [f ->]; [lia|]. bind_step. bind_step.
    destruct (slice_lt f key); apply IH; lia. }
  destruct (Hp (S (Z.to_nat (Run_nblocks r))) 0 (Run_nblocks r)) as [a ->]; [lia..|]. bind_step.
  apply skip_while_total; [apply new_safe; lia|]. apply fuel_enough, new_safe. lia.
Qed.

Lemma find_total {S} (accept : Hit → S → bool * S) key s :
  ∃ x, Run_find r key accept s = Some x.
Proof.
  unfold Run_find. destruct (_ || _); [eauto|]. destruct (seek_total key) as (c&->&Hc). bind_step.
  pose proof (fuel_enough c Hc) as Hf. revert c s Hc Hf. generalize (fuel_of r).
  induction n as [|fuel IH]; intros c s Hc Hf; [lia|]. cbn [find_loop].
  destruct (advance_safe c Hc) as (more&c'&->&Hc'&_&Hleft). bind_step. destruct more; [|eauto].
  destruct (negb _); [eauto|]. destruct (accept (c_hit c') s) as [[] s']; [eauto|].
  apply IH; [done|]. specialize (Hleft eq_refl). lia.
Qed.

Lemma range_total lo hi :
  ∃ g es, Run_range r lo hi = Some g ∧ Range_collect (fuel_of r) r g = Some es.
Proof.
  assert (Hs : ∃ c, Run_range r lo hi = Some (mkRange c hi false) ∧ cursor_safe r c).
  { unfold Run_range. destruct lo as [|key|key].
    - eexists. split; [done|]. by apply new_safe.
    - destruct (seek_total key) as (c&->&Hc). eauto.
    - destruct (seek_total key) as (c&->&Hc). bind_step.
      destruct (skip_while_total (λ entry, slice_eq entry key) (fuel_of r) c Hc (fuel_enough c Hc))
        as (c'&E&Hc'). unfold skip_equal, skip_while. rewrite E. eauto. }
  destruct Hs as (c&->&Hc). pose proof (fuel_enough c Hc) as Hf.
  enough (∃ es, Range_collect (fuel_of r) r (mkRange c hi false) = Some es) as [es ?] by eauto.
  revert c Hc Hf. generalize (fuel_of r). induction n as [|fuel IH]; intros c Hc Hf; [lia|].
  cbn [Range_collect]. unfold Range_next_entry. cbn [r_done r_cursor r_hi].
  destruct (advance_safe c Hc) as (more&c'&->&Hc'&_&Hleft). bind_step.
  destruct more; cbn [negb]; [|eauto]. rewrite next_within. case_bool_decide; [|eauto]. bind_step.
  destruct (IH c') as [es ->]; [done|specialize (Hleft eq_refl); lia|]. eauto.
Qed.
End damaged.

(** * What the file of a run promises *)

(** C29. [decode] never panics, and it answers a run exactly for the bytes [encode] makes of
    that run, the run being one whose offsets are in range and in order, whose fences are in
    order and whose counts agree: nothing else is taken, so no two files give one run. *)
Theorem run_file_iff bs (Hbs : bytes_ok bs) (Hlen : zlen bs ≤ usize_max) :
  (∃ res, Run_decode bs = Some res) ∧
  ∀ r, Run_decode bs = Some (Ok r) ↔ run_file_ok r ∧ Run_encode r = bs.
Proof. by apply Run_decode_spec. Qed.

Definition example_file : list Z := Run_encode (run_of example_entries).

Lemma run_file_iff_witness :
  bytes_ok example_file ∧ zlen example_file ≤ usize_max
  ∧ run_file_ok (run_of example_entries).
Proof.
  assert (Hb : bytes_ok example_file) by decided.
  assert (Hl : zlen example_file ≤ usize_max) by (vm_compute; discriminate).
  split; [exact Hb|split; [exact Hl|]].
  apply (proj2 (run_file_iff example_file Hb Hl)). vm_compute. reflexivity.
Defined.

(** A run a writer made reads back from its file as the run it was. *)
Theorem written_run_reads_back r es
    (Hr : written r es) (Hkeys : keys_ok es) (Hcount : u64 (zlen es))
    (Hlen : zlen (Run_encode r) ≤ usize_max) :
  Run_decode (Run_encode r) = Some (Ok r).
Proof.
  pose proof (written_file_ok r es Hr Hkeys Hcount) as [Hp Hf]. unfold Run_decode.
  rewrite decode_parts_encode by done.
  destruct (fences_fall_total (Z.to_nat (Run_nblocks r - 1)) 1 r) as (fall&->&Hfall); [done|lia..|].
  bind_step. assert (fall = false) as ->; [|done]. apply Hfall. intros i Hi. apply Hf. lia.
Qed.

Lemma written_run_reads_back_witness :
  Run_decode (Run_encode (run_of example_older)) = Some (Ok (run_of example_older)).
Proof.
  apply (written_run_reads_back _ example_older).
  - apply older_holds.
  - decided.
  - decided.
  - vm_compute. discriminate.
Defined.

(** C28. Whatever the blocks of a file hold, a run [decode] answered is read without a panic
    and without a loop that does not end: every lookup and every range gives an answer. *)
Theorem damaged_run_is_safe bs r (Hbs : bytes_ok bs) (Hr : Run_decode bs = Some (Ok r))
    (Hlen : zlen bs ≤ usize_max) :
  (∀ S (accept : Hit → S → bool * S) key s, ∃ x, Run_find r key accept s = Some x)
  ∧ ∀ lo hi, ∃ g es, Run_range r lo hi = Some g ∧ Range_collect (fuel_of r) r g = Some es.
Proof.
  apply (proj2 (Run_decode_spec bs Hbs Hlen)) in Hr as [[Hp _] _].
  split; intros; [by apply find_total|by apply range_total].
Qed.

(** A run of one block with the key [b"b"] before the key [b"a"]. *)
Definition unsorted_run : Run :=
  let blocks := entry_bytes 0 ([98], mkHit 1 1) ++ entry_bytes 0 ([97], mkHit 2 1) in
  mkRun blocks [0; zlen blocks] [98] [0; 1] (Bloom_of 2 [hash [98]; hash [97]]) 2.

Lemma damaged_run_is_safe_witness :
  ∃ g es, Run_range unsorted_run Unbounded Unbounded = Some g
    ∧ Range_collect (fuel_of unsorted_run) unsorted_run g = Some es.
Proof.
  apply (damaged_run_is_safe (Run_encode unsorted_run) unsorted_run).
  - decided.
  - vm_compute. reflexivity.
  - vm_compute. discriminate.
Defined.

(** C35. [merge] says it never panics for a run [decode] answered, since that run is sorted;
    but [decode] orders the fences alone, and the check of the file covers no block. Here is
    a file [decode] takes whose one block is out of order, and the [expect] of [merge] fails
    on the second entry. *)
Theorem merge_of_decoded_panics :
  Run_decode (Run_encode unsorted_run) = Some (Ok unsorted_run)
  ∧ reads unsorted_run (Run_cursor unsorted_run) [([98], mkHit 1 1); ([97], mkHit 2 1)]
  ∧ push_all [([98], mkHit 1 1); ([97], mkHit 2 1)] RunWriter_new
      = Err (Internal "index run entries out of key order")
  ∧ Run_merge [unsorted_run] (λ _ _ (s : unit), (true, s)) tt = None.
Proof.
  split; [vm_compute; reflexivity|].
  split; [|split; vm_compute; reflexivity].
  eexists. split; [vm_compute; reflexivity|]. do 3 (split; [vm_compute; reflexivity|]).
  eexists. split; [vm_compute; reflexivity|]. do 3 (split; [vm_compute; reflexivity|]).
  eexists. vm_compute. reflexivity.
Qed.
