(* ===== verification/Value.v ===== *)
(** SQL types and single values: the data of [rudb-common/src/types.rs] and
    [rudb-common/src/value.rs].

    An integer is a [Z] with the range of its Rust type in [value_ok], text is its UTF-8 bytes,
    and a float is its IEEE 754 bits, so that a NaN keeps its payload. The four types refer to
    each other, as in the source: the type of an aggregate's state carries constants. *)

From S2P Require Import Prelude.
Local Open Scope Z_scope.

Record StateKey : Type := mkStateKey {
  sk_descending : bool;
  sk_nulls_first : bool;
  sk_column : Z }.

Inductive LogicalType : Type :=
| TNull
| TBoolean
| TTinyInt
| TSmallInt
| TInteger
| TBigInt
| THugeInt
| TUTinyInt
| TUSmallInt
| TUInteger
| TUBigInt
| TUHugeInt
| TFloat
| TDouble
| TDecimal (width scale : Z)
| TVarchar
| TBlob
| TBit
| TBigNum
| TNumeric
| TUuid
| TDate
| TTime
| TTimeTz
| TTimeNs
| TTimestamp
| TTimestampS
| TTimestampMs
| TTimestampNs
| TTimestampTz
| TTimestampTzNs
| TInterval
| TList (element : LogicalType)
| TArray (element : LogicalType) (n : Z)
| TStruct (fields : list Field)
| TMap (key value : LogicalType)
| TUnion (members : list Field)
| TEnum (names : list (list Z))
| TAggregateState (state : StateType)
| TType
| TJson
| TJsonb
| TVariant

with Field : Type :=
| mkField (name : list Z) (ty : LogicalType) (not_null : bool)

with StateType : Type :=
| mkStateType (function : list Z) (arguments : list LogicalType)
    (returns layout : LogicalType) (constants : list (option Value)) (order : list StateKey)

with Value : Type :=
| Null
| Boolean (v : bool)
| TinyInt (v : Z)
| SmallInt (v : Z)
| Integer (v : Z)
| BigInt (v : Z)
| HugeInt (v : Z)
| UTinyInt (v : Z)
| USmallInt (v : Z)
| UInteger (v : Z)
| UBigInt (v : Z)
| UHugeInt (v : Z)
| Float (bits : Z)
| Double (bits : Z)
| Decimal (unscaled width scale : Z)
| Varchar (v : list Z)
| Blob (v : list Z)
| Bit (v : list Z)
| BigNum (v : list Z)
| Numeric (v : list Z)
| Variant (v : list Z)
| Uuid (v : Z)
| Date (v : Z)
| Time (v : Z)
| TimeTz (v : Z)
| TimeNs (v : Z)
| Timestamp (v : Z)
| TimestampTz (v : Z)
| TimestampS (v : Z)
| TimestampMs (v : Z)
| TimestampNs (v : Z)
| TimestampTzNs (v : Z)
| Interval (months days micros : Z)
| ListOf (element : LogicalType) (values : list Value)
| Struct (fields : list (list Z * Value))
| MapOf (key value : LogicalType) (entries : list (Value * Value))
| Union (members : list Field) (tag : Z) (value : Value).

(** The range of a signed integer of [w] bits. *)
Definition sfits (w x : Z) : Prop := - 2 ^ (w - 1) ≤ x < 2 ^ (w - 1).

#[global] Instance sfits_dec w x : Decision (sfits w x).
Proof. unfold sfits. apply _. Defined.

(** What the Rust types of the fields say of a value that is not nested. *)
Definition value_ok (v : Value) : Prop :=
  match v with
  | TinyInt v => sfits 8 v
  | SmallInt v => sfits 16 v
  | Integer v | Date v => sfits 32 v
  | BigInt v | Time v | TimeTz v | TimeNs v | Timestamp v | TimestampTz v | TimestampS v
  | TimestampMs v | TimestampNs v | TimestampTzNs v => sfits 64 v
  | HugeInt v | Uuid v => sfits 128 v
  | Decimal v w s => sfits 128 v ∧ u8 w ∧ u8 s
  | UTinyInt v => fits 8 v
  | USmallInt v => fits 16 v
  | UInteger v => fits 32 v
  | UBigInt v => fits 64 v
  | UHugeInt v => fits 128 v
  | Float b => fits 32 b
  | Double b => fits 64 b
  | Varchar v | Blob v | Bit v | BigNum v | Numeric v => bytes_ok v
  | _ => True
  end.

#[global] Instance value_ok_dec v : Decision (value_ok v).
Proof. destruct v; simpl; apply _. Defined.
