(* ===== verification/Key.v ===== *)
(** Normalized keys: [rudb-index/src/key.rs].

    A key of several columns is written as bytes whose [memcmp] order is the SQL order of the
    columns. The SQL order itself is written down below as [sql_cmp]: numbers by value, floats as the
    numbers they stand for, text and bytes as byte strings, bit strings bit by bit as
    [rudb-common/src/bit.rs] has them, which is what [order] of [rudb-kernels/src/compare.rs] says of
    each type, with a null before everything. (For a [UHUGEINT] past the signed range [order] falls
    back to doubles; here it is by value too.) The theorem is that comparing the bytes is comparing
    the tuples, save for the order of bit strings, which the keys do not keep. *)

From S2P Require Import Prelude Value.
Local Open Scope Z_scope.

(** * The code *)

Definition NULL : Z := 0x00.
Definition VALUE : Z := 0x01.
Definition ESCAPED : Z := 0xFF.

(** [f64::from(f32)] on the bits. Widening is exact: a subnormal of the narrow format is a normal
    number of the wide one. *)
Definition f64_from (bits : Z) : Z :=
  let sign := (bits ≫ 31) ≪ 63 in
  let e := Z.land (bits ≫ 23) 0xFF in
  let m := Z.land bits (2 ^ 23 - 1) in
  sign +
    (if e =? 0xFF then
       0x7FF * 2 ^ 52 + (if m =? 0 then 0 else Z.lor (2 ^ 51) (m * 2 ^ 29))
     else if e =? 0 then
       if m =? 0 then 0
       else (Z.log2 m + 874) * 2 ^ 52 + (m - 2 ^ Z.log2 m) * 2 ^ (52 - Z.log2 m)
     else (e + 896) * 2 ^ 52 + m * 2 ^ 29).

(** [f64::is_nan] and [v == 0.0], on the bits. *)
Definition f64_is_nan (bits : Z) : bool := Z.land bits (2 ^ 63 - 1) >? 0x7FF * 2 ^ 52.
Definition f64_is_zero (bits : Z) : bool := Z.land bits (2 ^ 63 - 1) =? 0.
Definition f64_NAN : Z := 0x7FF8000000000000.

Definition float (v : Z) : Z :=
  let bits := if f64_is_nan v then f64_NAN else if f64_is_zero v then 0 else v in
  if bits ≫ 63 =? 0 then Z.lor bits (1 ≪ 63) else wnot 64 bits.

(** [rest.iter().position(|&b| b == 0)]. *)
Fixpoint position_of_zero (rest : list Z) : option nat :=
  match rest with
  | [] => None
  | b :: rest => if b =? 0 then Some 0%nat else S <$> position_of_zero rest
  end.

Fixpoint text_loop (fuel : nat) (rest out : list Z) : list Z * list Z :=
  match fuel with
  | O => (rest, out)
  | S fuel =>
      match position_of_zero rest with
      | Some zero => text_loop fuel (drop (S zero) rest) (out ++ take (S zero) rest ++ [ESCAPED])
      | None => (rest, out)
      end
  end.

Definition text (bytes out : list Z) : list Z :=
  let '(rest, out) := text_loop (length bytes) bytes out in
  out ++ rest ++ [0].

(** [rudb_common::numeric::key]. *)
Definition numeric_key (bytes : list Z) : list Z := take (length bytes - 2) bytes.

Definition signed (out : list Z) (v : Z) : list Z :=
  out ++ be_bytes 8 (Z.lxor (wrap 64 v) (1 ≪ 63)).
Definition wide (out : list Z) (v : Z) : list Z :=
  out ++ be_bytes 16 (Z.lxor (wrap 128 v) (1 ≪ 127)).

Definition push (value : Value) (out : list Z) : bool * list Z :=
  match value with
  | Null => (true, out ++ [NULL])
  | _ =>
      let at_ := length out in
      let out := out ++ [VALUE] in
      match value with
      | Boolean v => (true, out ++ [if (v : bool) then 1 else 0])
      | TinyInt v => (true, signed out v)
      | SmallInt v => (true, signed out v)
      | Integer v | Date v => (true, signed out v)
      | BigInt v | Time v | TimeTz v | Timestamp v | TimestampTz v | TimestampS v
      | TimestampMs v | TimestampNs v | TimeNs v | TimestampTzNs v => (true, signed out v)
      | UTinyInt v => (true, out ++ be_bytes 8 v)
      | USmallInt v => (true, out ++ be_bytes 8 v)
      | UInteger v => (true, out ++ be_bytes 8 v)
      | UBigInt v => (true, out ++ be_bytes 8 v)
      | HugeInt v | Uuid v => (true, wide out v)
      | Decimal unscaled _ _ => (true, wide out unscaled)
      | UHugeInt v => (true, out ++ be_bytes 16 v)
      | Float v => (true, out ++ be_bytes 8 (float (f64_from v)))
      | Double v => (true, out ++ be_bytes 8 (float v))
      | Varchar v => (true, text v out)
      | Blob v | Bit v | BigNum v => (true, text v out)
      | Numeric v => (true, text (numeric_key v) out)
      | _ => (false, take at_ out)
      end
  end.

(** [all] stops at the first value that is refused. *)
Fixpoint normalize (values : list Value) (out : list Z) : bool * list Z :=
  match values with
  | [] => (true, out)
  | value :: values =>
      match push value out with
      | (true, out) => normalize values out
      | (false, out) => (false, out)
      end
  end.

(** * Bit strings

    [rudb-common/src/bit.rs]: the number of padding bits, then the bits, from the top of a byte
    down, after the padding. [None] is an index out of range. *)

Definition bit_len (bits : list Z) : option Z :=
  padding ← bits !! 0%nat;
  Some ((zlen bits - 1) * 8 - padding).

Definition bit_get (bits : list Z) (n : Z) : option bool :=
  padding ← bits !! 0%nat;
  let at_ := n + padding in
  byte ← bits !! Z.to_nat (at_ / 8 + 1);
  Some (Z.land (byte ≫ (7 - at_ `mod` 8)) 1 =? 1).

Definition bool_cmp (a b : bool) : comparison := match a, b with false, true => Lt | true, false => Gt | _, _ => Eq end.

Fixpoint bit_cmp_loop (count : nat) (n : Z) (left_ right_ : list Z) (lengths : comparison) : option comparison :=
  match count with
  | O => Some lengths
  | S count =>
      a ← bit_get left_ n;
      b ← bit_get right_ n;
      match bool_cmp a b with Eq => bit_cmp_loop count (n + 1) left_ right_ lengths | other => Some other end
  end.

Definition bit_cmp (left_ right_ : list Z) : option comparison :=
  left_len ← bit_len left_;
  right_len ← bit_len right_;
  bit_cmp_loop (Z.to_nat (Z.min left_len right_len)) 0 left_ right_ (left_len ?= right_len).

(** The layout: up to seven bits of padding, all set, before at least one bit. *)
Definition bit_ok (bits : list Z) : Prop :=
  bytes_ok bits ∧ match bits with padding :: first :: _ => padding ≤ 7 ∧ 256 - 2 ^ (8 - padding) ≤ first | _ => False end.

(** * The SQL order of the columns *)

(** What a double is: a finite one as a multiple of [2 ^ -1074], the least positive double. *)
Inductive Number : Type :=
| NegInfinity
| Finite (ulps : Z)
| Infinity
| NaN.

(** The magnitude of the bits below the sign: the exponent is theirs above the 52 of the
    mantissa, and an exponent of zero has no hidden bit. *)
Definition magnitude (x : Z) : Z :=
  let e := x / 2 ^ 52 in
  let m := x `mod` 2 ^ 52 in
  if e =? 0 then m else (2 ^ 52 + m) * 2 ^ (e - 1).

Definition f64_number (bits : Z) : Number :=
  let x := bits `mod` 2 ^ 63 in
  let negative := bits >=? 2 ^ 63 in
  if x >? 0x7FF * 2 ^ 52 then NaN
  else if x =? 0x7FF * 2 ^ 52 then if negative then NegInfinity else Infinity
  else Finite (if negative then - magnitude x else magnitude x).

(** The same of a float, in the same unit. *)
Definition f32_number (bits : Z) : Number :=
  let x := bits `mod` 2 ^ 31 in
  let negative := bits >=? 2 ^ 31 in
  let e := x / 2 ^ 23 in
  let m := x `mod` 2 ^ 23 in
  let ulps := (if e =? 0 then m else (2 ^ 23 + m) * 2 ^ (e - 1)) * 2 ^ 925 in
  if x >? 0xFF * 2 ^ 23 then NaN
  else if x =? 0xFF * 2 ^ 23 then if negative then NegInfinity else Infinity
  else Finite (if negative then - ulps else ulps).

Definition number_cmp (a b : Number) : comparison :=
  match a, b with
  | NegInfinity, NegInfinity | Infinity, Infinity | NaN, NaN => Eq
  | Finite x, Finite y => x ?= y
  | NegInfinity, _ => Lt
  | _, NegInfinity => Gt
  | Finite _, _ => Lt
  | _, Finite _ => Gt
  | Infinity, NaN => Lt
  | NaN, Infinity => Gt
  end.

(** What a column is ordered by, and the type two values share when a column can hold both. *)
Inductive Sort : Type :=
| SInt (z : Z)
| SNum (n : Number)
| SBytes (l : list Z)
| SBits (l : list Z).

Definition sort_of (v : Value) : option (LogicalType * Sort) :=
  match v with
  | Boolean v => Some (TBoolean, SInt (if v then 1 else 0))
  | TinyInt v | SmallInt v | Integer v | BigInt v => Some (TBigInt, SInt v)
  | UTinyInt v | USmallInt v | UInteger v | UBigInt v => Some (TUBigInt, SInt v)
  | HugeInt v => Some (THugeInt, SInt v)
  | UHugeInt v => Some (TUHugeInt, SInt v)
  | Float v => Some (TDouble, SNum (f32_number v))
  | Double v => Some (TDouble, SNum (f64_number v))
  | Decimal unscaled _ scale => Some (TDecimal 0 scale, SInt unscaled)
  | Varchar v => Some (TVarchar, SBytes v)
  | Blob v => Some (TBlob, SBytes v)
  | Bit v => Some (TBit, SBits v)
  | BigNum v => Some (TBigNum, SBytes v)
  | Numeric v => Some (TNumeric, SBytes (numeric_key v))
  | Uuid v => Some (TUuid, SInt v)
  | Date v => Some (TDate, SInt v)
  | Time v => Some (TTime, SInt v)
  | TimeTz v => Some (TTimeTz, SInt v)
  | TimeNs v => Some (TTimeNs, SInt v)
  | Timestamp v => Some (TTimestamp, SInt v)
  | TimestampTz v => Some (TTimestampTz, SInt v)
  | TimestampS v => Some (TTimestampS, SInt v)
  | TimestampMs v => Some (TTimestampMs, SInt v)
  | TimestampNs v => Some (TTimestampNs, SInt v)
  | TimestampTzNs v => Some (TTimestampTzNs, SInt v)
  | _ => None
  end.

(** A value a column of type [t] can hold. *)
Definition of_type (t : LogicalType) (v : Value) : Prop :=
  value_ok v ∧ (∀ b, v = Bit b → bit_ok b) ∧ (v = Null ∨ fst <$> sort_of v = Some t).

(** With an order of bit strings given. *)
Section order.
Context (bits_cmp : list Z → list Z → comparison).

Definition sort_cmp (a b : Sort) : comparison :=
  match a, b with
  | SInt x, SInt y => x ?= y
  | SNum x, SNum y => number_cmp x y
  | SBytes x, SBytes y => slice_cmp x y
  | SBits x, SBits y => bits_cmp x y
  | _, _ => Eq
  end.

Definition value_cmp (a b : Value) : comparison :=
  match a, b with
  | Null, Null => Eq
  | Null, _ => Lt
  | _, Null => Gt
  | _, _ =>
      match sort_of a, sort_of b with
      | Some (_, x), Some (_, y) => sort_cmp x y
      | _, _ => Eq
      end
  end.

Fixpoint tuple_cmp (a b : list Value) : comparison :=
  match a, b with
  | [], [] => Eq
  | [], _ :: _ => Lt
  | _ :: _, [] => Gt
  | x :: a, y :: b => match value_cmp x y with Eq => tuple_cmp a b | c => c end
  end.
End order.

(** The SQL order: bit strings as [bit_cmp] has them. *)
Definition sql_cmp : list Value → list Value → comparison := tuple_cmp (λ a b, default Eq (bit_cmp a b)).

(** The order the keys have: bit strings as their bytes. *)
Abbreviation key_cmp := (tuple_cmp slice_cmp).

(** ** Equality of bit strings *)

Lemma bit_test byte k : 0 ≤ k → (Z.land (byte ≫ k) 1 =? 1) = Z.testbit byte k.
Proof.
  intros Hk. change 1 with (Z.ones 1) at 1. rewrite Z.land_ones by lia. rewrite Z.testbit_odd, Zmod_odd. by destruct (Z.odd (byte ≫ k)).
Qed.

Lemma bool_cmp_Eq a b : bool_cmp a b = Eq ↔ a = b.
Proof. by destruct a, b. Qed.

Lemma padding_set padding first j : 0 ≤ padding ≤ 7 → fits 8 first → 256 - 2 ^ (8 - padding) ≤ first → 8 - padding ≤ j < 8 → Z.testbit first j = true.
Proof.
  intros Hp [H0 H1] Hf Hj. assert (first / 2 ^ (8 - padding) = Z.ones padding) as E.
  { assert (2 ^ padding * 2 ^ (8 - padding) = 256) as E2 by (rewrite <-Z.pow_add_r by lia; by replace (padding + (8 - padding)) with 8 by lia).
    rewrite Z.ones_equiv. symmetry. assert ((2 ^ padding - 1) * 2 ^ (8 - padding) = 256 - 2 ^ (8 - padding)) as E3 by lia.
    apply (Z.div_unique_pos _ _ _ (first - (256 - 2 ^ (8 - padding)))); [change (2 ^ 8) with 256 in H1; lia|]. rewrite <-E3. unfold Z.pred. ring. }
  replace j with (j - (8 - padding) + (8 - padding)) by lia. rewrite <-Z.div_pow2_bits, E by lia. apply Z.ones_spec_low. lia.
Qed.

Lemma bit_len_ok b : bit_ok b → ∃ padding, b !! 0%nat = Some padding ∧ 0 ≤ padding ≤ 7 ∧ 2 ≤ zlen b ∧ bit_len b = Some ((zlen b - 1) * 8 - padding).
Proof.
  intros [Hb Hok]. destruct b as [|padding [|first rest]]; [done..|]. apply Forall_cons in Hb as [[? ?] _]. exists padding. assert (2 ≤ zlen (padding :: first :: rest)) by (rewrite !zlen_cons; pose proof (zlen_nonneg rest); lia). split_and!; [done|lia|lia|done|done].
Qed.

Lemma bit_get_ok b padding n : bytes_ok b → b !! 0%nat = Some padding → 0 ≤ padding → 0 ≤ n < (zlen b - 1) * 8 - padding →
  ∃ byte, b !! Z.to_nat ((n + padding) / 8 + 1) = Some byte ∧ bit_get b n = Some (Z.testbit byte (7 - (n + padding) `mod` 8)).
Proof.
  intros Hb Hp H0 Hn. destruct (lookup_lt_is_Some_2 b (Z.to_nat ((n + padding) / 8 + 1))) as [byte E].
  { assert ((n + padding) / 8 < zlen b - 1) by (apply Z.div_lt_upper_bound; lia). pose proof (Z.div_pos (n + padding) 8 ltac:(lia) ltac:(lia)). unfold zlen in *. lia. }
  exists byte. split; [done|]. unfold bit_get. rewrite Hp, some_bind, E, some_bind. rewrite bit_test; [done|]. pose proof (Z.mod_pos_bound (n + padding) 8 ltac:(lia)). lia.
Qed.

(** The loop ends equal exactly when no bit differs and the lengths do not. *)
Lemma bit_cmp_loop_ok left_ right_ lengths count : ∀ n, (∀ m, n ≤ m < n + Z.of_nat count → is_Some (bit_get left_ m) ∧ is_Some (bit_get right_ m)) →
  ∃ c, bit_cmp_loop count n left_ right_ lengths = Some c ∧ (c = Eq ↔ lengths = Eq ∧ ∀ m, n ≤ m < n + Z.of_nat count → bit_get left_ m = bit_get right_ m).
Proof.
  induction count as [|count IH]; intros n Hs; cbn [bit_cmp_loop]. { exists lengths. split; [done|]. split; [intros ->; split; [done|lia]|by intros [? _]]. }
  destruct (Hs n ltac:(lia)) as [[a Ea] [b Eb]]. rewrite Ea, some_bind, Eb, some_bind. destruct (bool_cmp a b) eqn:Ec.
  - apply bool_cmp_Eq in Ec as ->. destruct (IH (n + 1)) as (c&->&Hc); [intros m Hm; apply Hs; lia|]. exists c. split; [done|]. rewrite Hc. split; (intros [? H]; split; [done|]; intros m Hm).
    + destruct (decide (m = n)) as [->|]; [congruence|apply H; lia].
    + apply H. lia.
  - exists Lt. split; [done|]. split; [done|]. intros [_ H]. specialize (H n ltac:(lia)). rewrite Ea, Eb in H. injection H as ->. by destruct b.
  - exists Gt. split; [done|]. split; [done|]. intros [_ H]. specialize (H n ltac:(lia)). rewrite Ea, Eb in H. injection H as ->. by destruct b.
Qed.

(** Two bytes that agree bit by bit from the top, after bits that are set in both. *)
Lemma byte_ext a b : fits 8 a → fits 8 b → (∀ j, 0 ≤ j < 8 → Z.testbit a j = Z.testbit b j) → a = b.
Proof.
  intros Ha Hb H. apply Z.bits_inj'. intros i Hi. destruct (decide (i < 8)); [by apply H|]. by rewrite !(fits_testbit 8) by (done || lia).
Qed.

Lemma bits_determine a b padding : bit_ok a → bit_ok b → a !! 0%nat = Some padding → b !! 0%nat = Some padding → length a = length b → 0 ≤ padding →
  (∀ n, 0 ≤ n < (zlen a - 1) * 8 - padding → bit_get a n = bit_get b n) → a = b.
Proof.
  intros Ha Hb Hpa Hpb Hlen Hp Hget. apply (list_eq_same_length _ _ (length a)); [done|done|]. intros k x y Hk Hx Hy. destruct k as [|k]; [congruence|].
  pose proof (proj1 Ha) as Ba. pose proof (proj1 Hb) as Bb. assert (fits 8 x ∧ fits 8 y) as [Fx Fy] by (split; [exact (Forall_lookup_1 _ _ _ _ Ba Hx)|exact (Forall_lookup_1 _ _ _ _ Bb Hy)]).
  apply byte_ext; [done|done|]. intros j Hj. destruct (decide (k = 0%nat ∧ 8 - padding ≤ j)) as [[-> Hset]|Hin].
  { destruct Ha as [_ Ha], Hb as [_ Hb]. destruct a as [|pa [|fa ra]], b as [|pb [|fb rb]]; try done. cbn in Hpa, Hpb, Hx, Hy. simplify_eq. rewrite !(padding_set padding) by (done || lia). done. }
  set (n := Z.of_nat k * 8 + (7 - j) - padding). assert (0 ≤ n < (zlen a - 1) * 8 - padding) as Hn.
  { unfold n. destruct Ha as [_ Ha]. destruct a as [|pa [|fa ra]]; try done. cbn in Hpa. simplify_eq. unfold zlen in *. split; [|lia]. destruct k; [|lia]. assert (¬ 8 - padding ≤ j) by tauto. lia. }
  specialize (Hget n Hn). assert (((n + padding) / 8 = Z.of_nat k) ∧ (n + padding) `mod` 8 = 7 - j) as [Eq Em].
  { unfold n. replace (Z.of_nat k * 8 + (7 - j) - padding + padding) with (7 - j + Z.of_nat k * 8) by lia. rewrite Z.div_add, Z.mod_add, Z.div_small, Z.mod_small by lia. lia. }
  destruct (bit_get_ok a padding n) as (x'&Ex&Gx); [done..|]. destruct (bit_get_ok b padding n) as (y'&Ey&Gy); [done..|unfold zlen in *; lia|].
  rewrite Eq in Ex, Ey. replace (Z.to_nat (Z.of_nat k + 1)) with (S k) in Ex, Ey by lia. rewrite Hx in Ex. rewrite Hy in Ey. injection Ex as <-. injection Ey as <-.
  rewrite Gx, Gy, Em in Hget. replace (7 - (7 - j)) with j in Hget by lia. by injection Hget.
Qed.

(** Bit strings that are laid out right compare without a panic, and are equal exactly when their
    bytes are. *)
Lemma bit_cmp_ok a b : bit_ok a → bit_ok b → ∃ c, bit_cmp a b = Some c ∧ (c = Eq ↔ a = b).
Proof.
  intros Ha Hb. destruct (bit_len_ok a Ha) as (pa&Ea&Hpa&Hla&Eal), (bit_len_ok b Hb) as (pb&Eb&Hpb&Hlb&Ebl). unfold bit_cmp. rewrite Eal, Ebl, !some_bind.
  set (la := (zlen a - 1) * 8 - pa). set (lb := (zlen b - 1) * 8 - pb). destruct (bit_cmp_loop_ok a b (la ?= lb) (Z.to_nat (Z.min la lb)) 0) as (c&->&Hc).
  - intros m Hm. destruct (bit_get_ok a pa m) as (x&_&->); [apply Ha|done|lia|unfold la, lb in *; lia|]. destruct (bit_get_ok b pb m) as (y&_&->); [apply Hb|done|lia|unfold la, lb in *; lia|]. by split; eexists.
  - exists c. split; [done|]. rewrite Hc. split; [|intros ->; split; [|done]; assert (la = lb) as -> by (unfold la, lb; rewrite Ea in Eb; injection Eb as ->; done); apply Z.compare_refl].
    intros [El Hbits]. apply Z.compare_eq in El. unfold la, lb in *. assert (zlen a = zlen b ∧ pa = pb) as [Hz ->] by lia. apply (bits_determine a b pb); [done..|unfold zlen in *; lia|lia|].
    intros n Hn. apply Hbits. lia.
Qed.

(** * Signed numbers *)

(** Flipping the sign bit moves the signed range up to the unsigned one. *)
Lemma lxor_top w x :
  0 ≤ w → fits (w + 1) x → Z.lxor x (1 ≪ w) = if x <? 2 ^ w then x + 2 ^ w else x - 2 ^ w.
Proof.
  intros Hw [H0 Hx]. rewrite Z.pow_add_r in Hx by lia. rewrite Z.shiftl_1_l.
  destruct (Z.ltb_spec x (2 ^ w)) as [Hlt|Hge].
  - rewrite <-Z.add_nocarry_lxor; [done|]. apply Z.bits_inj'. intros i Hi.
    rewrite Z.land_spec, Z.pow2_bits_eqb, Z.bits_0 by done.
    destruct (Z.eqb_spec w i) as [<-|]; [|by rewrite andb_false_r].
    by rewrite (fits_testbit w x).
  - assert (x = Z.lxor (x - 2 ^ w) (2 ^ w)) as E.
    { rewrite <-Z.add_nocarry_lxor; [lia|]. apply Z.bits_inj'. intros i Hi.
      rewrite Z.land_spec, Z.pow2_bits_eqb, Z.bits_0 by done.
      destruct (Z.eqb_spec w i) as [<-|]; [|by rewrite andb_false_r].
      rewrite (fits_testbit w); [done| |lia]. unfold fits. lia. }
    rewrite E at 1. by rewrite Z.lxor_assoc, Z.lxor_nilpotent, Z.lxor_0_r.
Qed.

Lemma flip_sign w v :
  0 ≤ w → sfits (w + 1) v → Z.lxor (wrap (w + 1) v) (1 ≪ w) = v + 2 ^ w.
Proof.
  intros Hw Hv. unfold sfits in Hv. rewrite Z.add_simpl_r in Hv.
  rewrite lxor_top; [|done|apply wrap_fits; lia]. unfold wrap.
  assert (2 ^ (w + 1) = 2 * 2 ^ w) as E by (rewrite Z.pow_add_r by lia; lia).
  destruct (decide (0 ≤ v)) as [Hp|Hn].
  - rewrite Z.mod_small by lia. destruct (Z.ltb_spec v (2 ^ w)); lia.
  - replace (v `mod` 2 ^ (w + 1)) with (v + 2 ^ (w + 1)).
    + destruct (Z.ltb_spec (v + 2 ^ (w + 1)) (2 ^ w)); lia.
    + apply (Z.mod_unique _ _ (-1)); lia.
Qed.

Lemma sign_bytes_cmp n w x y :
  8 * Z.of_nat n = w + 1 → 0 ≤ w → sfits (w + 1) x → sfits (w + 1) y →
  slice_cmp (be_bytes n (Z.lxor (wrap (w + 1) x) (1 ≪ w)))
    (be_bytes n (Z.lxor (wrap (w + 1) y) (1 ≪ w))) = (x ?= y).
Proof.
  intros Hn Hw Hx Hy. rewrite !flip_sign by done. rewrite be_bytes_cmp.
  - rewrite !(Z.add_comm _ (2 ^ w)). apply Z.add_compare_mono_l.
  - rewrite Hn. unfold sfits, fits in *. rewrite Z.add_simpl_r in *. rewrite Z.pow_add_r by lia. lia.
  - rewrite Hn. unfold sfits, fits in *. rewrite Z.add_simpl_r in *. rewrite Z.pow_add_r by lia. lia.
Qed.

(** * Floats *)

Lemma magnitude_mono x y : 0 ≤ x → x < y → magnitude x < magnitude y.
Proof.
  intros Hx Hxy. unfold magnitude.
  pose proof (Z.div_mod x (2 ^ 52) ltac:(lia)). pose proof (Z.mod_pos_bound x (2 ^ 52) ltac:(lia)).
  pose proof (Z.div_mod y (2 ^ 52) ltac:(lia)). pose proof (Z.mod_pos_bound y (2 ^ 52) ltac:(lia)).
  pose proof (Z.div_pos x (2 ^ 52) ltac:(lia) ltac:(lia)).
  pose proof (Z.div_le_mono x y (2 ^ 52) ltac:(lia) ltac:(lia)).
  set (e := x / 2 ^ 52) in *. set (m := x `mod` 2 ^ 52) in *.
  set (e' := y / 2 ^ 52) in *. set (m' := y `mod` 2 ^ 52) in *.
  destruct (Z.eqb_spec e 0) as [He|He], (Z.eqb_spec e' 0) as [He'|He'].
  - lia.
  - pose proof (Z.pow_pos_nonneg 2 (e' - 1) ltac:(lia) ltac:(lia)).
    pose proof (Z.mul_le_mono_nonneg_l 1 (2 ^ (e' - 1)) (2 ^ 52 + m') ltac:(lia) ltac:(lia)). lia.
  - lia.
  - pose proof (Z.pow_pos_nonneg 2 (e - 1) ltac:(lia) ltac:(lia)).
    destruct (decide (e = e')) as [<-|]; [apply Z.mul_lt_mono_pos_r; lia|].
    assert (2 * 2 ^ (e - 1) ≤ 2 ^ (e' - 1)).
    { rewrite <-(Z.pow_succ_r 2) by lia. apply Z.pow_le_mono_r; lia. }
    pose proof (Z.mul_lt_mono_pos_r (2 ^ (e - 1)) (2 ^ 52 + m) (2 * 2 ^ 52) ltac:(lia)).
    pose proof (Z.mul_le_mono_nonneg (2 ^ 52) (2 ^ 52 + m') (2 * 2 ^ (e - 1)) (2 ^ (e' - 1))
      ltac:(lia) ltac:(lia) ltac:(lia) ltac:(lia)). lia.
Qed.

Lemma magnitude_cmp x y : 0 ≤ x → 0 ≤ y → (magnitude x ?= magnitude y) = (x ?= y).
Proof.
  intros. destruct (Z.compare_spec x y) as [->|Hlt|Hlt].
  - apply Z.compare_refl.
  - apply Z.compare_lt_iff. by apply magnitude_mono.
  - apply Z.compare_gt_iff. by apply magnitude_mono.
Qed.

Lemma magnitude_0 : magnitude 0 = 0.
Proof. done. Qed.

Lemma magnitude_pos x : 0 < x → 0 < magnitude x.
Proof. intros. rewrite <-magnitude_0. by apply magnitude_mono. Qed.

(** Setting a bit above a number, and the complement, as arithmetic. *)
Lemma lor_top w x : 0 ≤ w → fits w x → Z.lor x (1 ≪ w) = 2 ^ w + x.
Proof.
  intros Hw Hx. rewrite <-Z.lxor_lor.
  - rewrite lxor_top; [|done|by eapply fits_weaken; [|done]; lia].
    unfold fits in Hx. destruct (Z.ltb_spec x (2 ^ w)); lia.
  - apply Z.bits_inj'. intros i Hi. rewrite Z.shiftl_1_l, Z.land_spec, Z.pow2_bits_eqb, Z.bits_0 by done.
    destruct (Z.eqb_spec w i) as [<-|]; [|by rewrite andb_false_r].
    by rewrite (fits_testbit w x).
Qed.

Lemma wnot_arith w x : 0 ≤ w → fits w x → wnot w x = 2 ^ w - 1 - x.
Proof.
  intros Hw Hx. unfold wnot.
  assert (x + Z.lxor x (Z.ones w) = Z.ones w) as E; [|rewrite Z.ones_equiv in E at 2; lia].
  rewrite Z.add_nocarry_lxor.
  - by rewrite <-Z.lxor_assoc, Z.lxor_nilpotent, Z.lxor_0_l.
  - apply Z.bits_inj'. intros i Hi. rewrite Z.land_spec, Z.lxor_spec, Z.bits_0.
    destruct (decide (i < w)).
    + rewrite Z.ones_spec_low by lia. by destruct (Z.testbit x i).
    + rewrite (fits_testbit w x) by (done || lia). done.
Qed.

(** The key of a double: its magnitude's bits above the middle, or below it. *)
Lemma float_bits v :
  u64 v →
  float v = if v `mod` 2 ^ 63 >? 0x7FF * 2 ^ 52 then 2 ^ 63 + f64_NAN
            else if (v >=? 2 ^ 63) && negb (v `mod` 2 ^ 63 =? 0) then 2 ^ 63 - 1 - v `mod` 2 ^ 63
            else 2 ^ 63 + v `mod` 2 ^ 63.
Proof.
  intros Hu. pose proof Hu as [H0 Hv]. unfold float, f64_is_nan, f64_is_zero.
  assert (Z.land v (2 ^ 63 - 1) = v `mod` 2 ^ 63) as -> by (by apply (Z.land_ones v 63)).
  destruct (v `mod` 2 ^ 63 >? _); [done|].
  destruct (Z.eqb_spec (v `mod` 2 ^ 63) 0) as [E|E].
  { cbn [negb]. by rewrite andb_false_r, E. }
  rewrite andb_true_r. rewrite Z.shiftr_div_pow2 by lia.
  destruct (Z.geb_spec v (2 ^ 63)) as [Hge|Hlt].
  - assert (v `mod` 2 ^ 63 = v - 2 ^ 63) as -> by (symmetry; apply (Z.mod_unique _ _ 1); lia).
    assert (v / 2 ^ 63 = 1) as -> by (symmetry; apply (Z.div_unique _ _ _ (v - 2 ^ 63)); lia).
    change (1 =? 0) with false. cbv iota. rewrite wnot_arith by (done || lia). lia.
  - rewrite Z.mod_small, Z.div_small by lia. change (0 =? 0) with true. cbv iota.
    apply lor_top; [lia|]. unfold fits. lia.
Qed.

Lemma float_fits v : u64 v → u64 (float v).
Proof.
  intros Hv. rewrite float_bits by done. unfold f64_NAN, fits.
  pose proof (Z.mod_pos_bound v (2 ^ 63) ltac:(lia)).
  destruct (_ >? _); [lia|]. destruct (_ && _); lia.
Qed.

(** Doubles compare as the numbers they are, a NaN after everything and [-0.0] as [0.0]. *)
Lemma float_cmp a b :
  u64 a → u64 b → (float a ?= float b) = number_cmp (f64_number a) (f64_number b).
Proof.
  intros Ha Hb. rewrite !float_bits by done. unfold f64_number.
  pose proof (Z.mod_pos_bound a (2 ^ 63) ltac:(lia)).
  pose proof (Z.mod_pos_bound b (2 ^ 63) ltac:(lia)).
  set (x := a `mod` 2 ^ 63) in *. set (y := b `mod` 2 ^ 63) in *. unfold f64_NAN.
  pose proof (magnitude_cmp x y ltac:(lia) ltac:(lia)) as Hm.
  pose proof (magnitude_pos x). pose proof (magnitude_pos y).
  pose proof magnitude_0 as M0.
  assert (magnitude x < magnitude y ↔ x < y) as Hlt by (rewrite <-!Z.compare_lt_iff; by rewrite Hm).
  assert (magnitude x = magnitude y ↔ x = y) as Heq by (rewrite <-!Z.compare_eq_iff; by rewrite Hm).
  assert (magnitude x = 0 ↔ x = 0) by (split; [|by intros ->]; lia).
  assert (magnitude y = 0 ↔ y = 0) by (split; [|by intros ->]; lia).
  clear Hm M0. clearbody x y. generalize dependent (magnitude x). generalize dependent (magnitude y).
  intros my ? mx ? ? ? ?.
  destruct (Z.gtb_spec x (0x7FF * 2 ^ 52)), (Z.gtb_spec y (0x7FF * 2 ^ 52)),
    (Z.eqb_spec x (0x7FF * 2 ^ 52)), (Z.eqb_spec y (0x7FF * 2 ^ 52)); try lia;
  destruct (Z.eqb_spec x 0), (Z.eqb_spec y 0); try lia;
  destruct (a >=? 2 ^ 63), (b >=? 2 ^ 63); cbn [andb negb number_cmp];
  repeat match goal with |- context [?u ?= ?v] => destruct (Z.compare_spec u v) end; lia || done.
Qed.

(** Widening is exact. *)
Lemma magnitude_at e m :
  0 < e → 0 ≤ m < 2 ^ 52 → magnitude (e * 2 ^ 52 + m) = (2 ^ 52 + m) * 2 ^ (e - 1).
Proof.
  intros He Hm. unfold magnitude.
  assert ((e * 2 ^ 52 + m) / 2 ^ 52 = e) as -> by (symmetry; apply (Z.div_unique _ _ _ m); lia).
  assert ((e * 2 ^ 52 + m) `mod` 2 ^ 52 = m) as -> by (symmetry; apply (Z.mod_unique _ _ e); lia).
  destruct (Z.eqb_spec e 0); [lia|done].
Qed.

Lemma f64_number_at (s : bool) lo :
  0 ≤ lo < 2 ^ 63 →
  f64_number ((if s then 1 else 0) ≪ 63 + lo) =
    if lo >? 0x7FF * 2 ^ 52 then NaN
    else if lo =? 0x7FF * 2 ^ 52 then if s then NegInfinity else Infinity
    else Finite (if s then - magnitude lo else magnitude lo).
Proof.
  intros Hlo. unfold f64_number. rewrite Z.shiftl_mul_pow2 by lia.
  assert (((if s then 1 else 0) * 2 ^ 63 + lo) `mod` 2 ^ 63 = lo) as ->.
  { symmetry. apply (Z.mod_unique _ _ (if s then 1 else 0)); lia. }
  assert (((if s then 1 else 0) * 2 ^ 63 + lo >=? 2 ^ 63) = s) as ->; [|done].
  destruct s; [apply Z.geb_le|rewrite Z.geb_leb; apply Z.leb_gt]; lia.
Qed.

(** A subnormal float as a normal double: its leading bit becomes the hidden one. *)
Lemma widen_subnormal m :
  0 < m < 2 ^ 23 →
  0 ≤ Z.log2 m < 23 ∧ 0 ≤ (m - 2 ^ Z.log2 m) * 2 ^ (52 - Z.log2 m) < 2 ^ 52
  ∧ magnitude ((Z.log2 m + 874) * 2 ^ 52 + (m - 2 ^ Z.log2 m) * 2 ^ (52 - Z.log2 m)) = m * 2 ^ 925.
Proof.
  intros Hm. pose proof (Z.log2_spec m ltac:(lia)) as [Hl Hu].
  pose proof (Z.log2_nonneg m) as H0. set (k := Z.log2 m) in *. clearbody k.
  assert (k < 23) as Hk by (apply (Z.pow_lt_mono_r_iff 2); lia).
  assert (2 ^ k * 2 ^ (52 - k) = 2 ^ 52) as Ep by (rewrite <-Z.pow_add_r by lia; f_equal; lia).
  rewrite Z.pow_succ_r in Hu by lia.
  pose proof (Z.pow_pos_nonneg 2 (52 - k) ltac:(lia) ltac:(lia)) as Hp.
  assert (0 ≤ (m - 2 ^ k) * 2 ^ (52 - k) < 2 ^ 52) as Hr.
  { split; [apply Z.mul_nonneg_nonneg; lia|]. rewrite <-Ep. apply Z.mul_lt_mono_pos_r; lia. }
  split_and!; try lia. rewrite magnitude_at by lia.
  replace (2 ^ 52 + (m - 2 ^ k) * 2 ^ (52 - k)) with (m * 2 ^ (52 - k)) by (rewrite <-Ep; ring).
  rewrite <-Z.mul_assoc, <-Z.pow_add_r by lia. do 2 f_equal. lia.
Qed.

Lemma nan_payload m : 0 < m < 2 ^ 23 → 0 < Z.lor (2 ^ 51) (m * 2 ^ 29) < 2 ^ 52.
Proof.
  intros Hm. destruct (fits_lor 52 (2 ^ 51) (m * 2 ^ 29)) as [H0 H1]; [lia|unfold fits; lia..|].
  assert (Z.lor (2 ^ 51) (m * 2 ^ 29) ≠ 0); [|lia]. rewrite Z.lor_eq_0_iff. lia.
Qed.

(** The bits below the sign of the widened float, as a number. *)
Lemma widen_bits e m :
  0 ≤ e ≤ 0xFF → 0 ≤ m < 2 ^ 23 →
  let lo := if e =? 0xFF then
              0x7FF * 2 ^ 52 + (if m =? 0 then 0 else Z.lor (2 ^ 51) (m * 2 ^ 29))
            else if e =? 0 then
              if m =? 0 then 0
              else (Z.log2 m + 874) * 2 ^ 52 + (m - 2 ^ Z.log2 m) * 2 ^ (52 - Z.log2 m)
            else (e + 896) * 2 ^ 52 + m * 2 ^ 29 in
  0 ≤ lo < 2 ^ 63 ∧ (lo ?= 0x7FF * 2 ^ 52) = (e * 2 ^ 23 + m ?= 0xFF * 2 ^ 23)
  ∧ (e < 0xFF →
     magnitude lo = (if e =? 0 then m else (2 ^ 23 + m) * 2 ^ (e - 1)) * 2 ^ 925).
Proof.
  intros He Hm. destruct (Z.eqb_spec e 0xFF) as [->|]; [|destruct (Z.eqb_spec e 0) as [->|]];
    cbv zeta.
  - destruct (Z.eqb_spec m 0) as [->|Hm']; [done|].
    pose proof (nan_payload m ltac:(lia)). split_and!; [lia..| |lia].
    rewrite (proj2 (Z.compare_gt_iff (255 * 2 ^ 23 + m) _)) by lia. apply Z.compare_gt_iff. lia.
  - destruct (Z.eqb_spec m 0) as [->|Hm']; [done|].
    destruct (widen_subnormal m ltac:(lia)) as (Hk&Hr&E). split_and!; [lia..| |done].
    rewrite (proj2 (Z.compare_lt_iff (0 * 2 ^ 23 + m) _)) by lia. apply Z.compare_lt_iff. lia.
  - split_and!; [lia..| |].
    + rewrite (proj2 (Z.compare_lt_iff (e * 2 ^ 23 + m) _)) by lia. apply Z.compare_lt_iff. lia.
    + intros _. rewrite magnitude_at by lia.
      replace (2 ^ 52 + m * 2 ^ 29) with ((2 ^ 23 + m) * 2 ^ 29) by lia.
      rewrite <-!Z.mul_assoc, <-!Z.pow_add_r by lia. do 2 f_equal. lia.
Qed.

Lemma f64_from_number b : u32 b → u64 (f64_from b) ∧ f64_number (f64_from b) = f32_number b.
Proof.
  intros [H0 Hb]. unfold f64_from, f32_number.
  assert (b ≫ 31 = if b >=? 2 ^ 31 then 1 else 0) as ->.
  { rewrite Z.shiftr_div_pow2 by lia. destruct (Z.geb_spec b (2 ^ 31)).
    - symmetry. apply (Z.div_unique _ _ _ (b - 2 ^ 31)); lia.
    - apply Z.div_small. lia. }
  assert (Z.land (b ≫ 23) 0xFF = b `mod` 2 ^ 31 / 2 ^ 23) as ->.
  { change 0xFF with (Z.ones 8). rewrite Z.land_ones, Z.shiftr_div_pow2 by lia.
    change (2 ^ 31) with (2 ^ 23 * 2 ^ 8). rewrite Z.rem_mul_r by lia.
    rewrite (Z.mul_comm (2 ^ 23) (_ `mod` _)), Z.div_add by lia.
    rewrite (Z.div_small (b `mod` 2 ^ 23)); [lia|]. apply Z.mod_pos_bound. lia. }
  assert (Z.land b (2 ^ 23 - 1) = b `mod` 2 ^ 31 `mod` 2 ^ 23) as ->.
  { rewrite <-Znumtheory.Zmod_div_mod; [by apply (Z.land_ones b 23)|lia..|]. by exists (2 ^ 8). }
  pose proof (Z.mod_pos_bound b (2 ^ 31) ltac:(lia)) as Hx.
  set (s := b >=? 2 ^ 31). set (x := b `mod` 2 ^ 31) in *. clearbody s x.
  pose proof (Z.div_mod x (2 ^ 23) ltac:(lia)) as Ed.
  pose proof (Z.mod_pos_bound x (2 ^ 23) ltac:(lia)) as Hm.
  pose proof (Z.div_pos x (2 ^ 23) ltac:(lia) ltac:(lia)) as He.
  set (e := x / 2 ^ 23) in *. set (m := x `mod` 2 ^ 23) in *. clearbody e m.
  destruct (widen_bits e m) as (Hlo&Hc&Hg); [lia..|]. cbv zeta in *.
  set (lo := if e =? 0xFF then _ else _) in *. clearbody lo. split.
  { unfold fits. rewrite Z.shiftl_mul_pow2 by lia. destruct s; lia. }
  rewrite f64_number_at by done. unfold Z.gtb. rewrite (Z.eqb_compare lo), (Z.eqb_compare x), Hc.
  rewrite (Z.mul_comm (2 ^ 23)) in Ed. rewrite <-Ed.
  destruct (Z.compare_spec x (0xFF * 2 ^ 23)); try done. by rewrite Hg by lia.
Qed.

(** * Text *)

Definition escape (bytes : list Z) : list Z := bytes ≫= λ b, if b =? 0 then [0; ESCAPED] else [b].

#[global] Arguments escape : simpl never.

Lemma escape_cons b l : escape (b :: l) = (if b =? 0 then [0; ESCAPED] else [b]) ++ escape l.
Proof. done. Qed.

Lemma escape_nil : escape [] = [].
Proof. done. Qed.

Lemma escape_app l l' : escape (l ++ l') = escape l ++ escape l'.
Proof. apply bind_app. Qed.

Lemma position_of_zero_Some rest zero :
  position_of_zero rest = Some zero →
  ∃ pre post, rest = pre ++ 0 :: post ∧ length pre = zero ∧ escape pre = pre.
Proof.
  revert zero. induction rest as [|b rest IH]; intros zero; [done|]. simpl.
  destruct (Z.eqb_spec b 0) as [->|Hb].
  - intros [= <-]. by exists [], rest.
  - destruct (position_of_zero rest) as [z|]; [|done]. intros [= <-].
    destruct (IH z eq_refl) as (pre&post&->&<-&E). exists (b :: pre), post. split_and!; [done..|].
    rewrite escape_cons, E. by destruct (Z.eqb_spec b 0).
Qed.

Lemma position_of_zero_None rest : position_of_zero rest = None → escape rest = rest.
Proof.
  induction rest as [|b rest IH]; [done|]. simpl. rewrite escape_cons.
  destruct (b =? 0); [done|]. destruct (position_of_zero rest); [done|]. intros _. simpl. by rewrite IH.
Qed.

Lemma text_loop_escape fuel rest out :
  (length rest ≤ fuel)%nat →
  let '(r, o) := text_loop fuel rest out in o ++ r = out ++ escape rest.
Proof.
  revert rest out. induction fuel as [|fuel IH]; intros rest out Hf.
  { destruct rest; [done|simpl in Hf; lia]. }
  simpl. destruct (position_of_zero rest) as [z|] eqn:E.
  - apply position_of_zero_Some in E as (pre&post&->&<-&Ep).
    rewrite length_app, length_cons in Hf.
    assert (pre ++ 0 :: post = (pre ++ [0]) ++ post) as E0 by by rewrite <-app_assoc.
    assert (drop (S (length pre)) (pre ++ 0 :: post) = post) as ->.
    { rewrite E0, drop_app_length'; [done|]. rewrite length_app. simpl. lia. }
    assert (take (S (length pre)) (pre ++ 0 :: post) = pre ++ [0]) as ->.
    { rewrite E0, take_app_length'; [done|]. rewrite length_app. simpl. lia. }
    specialize (IH post (out ++ (pre ++ [0]) ++ [ESCAPED]) ltac:(lia)).
    destruct (text_loop _ _ _) as [r o]. rewrite IH.
    rewrite !escape_app, Ep. simpl. by rewrite <-!app_assoc.
  - by rewrite position_of_zero_None.
Qed.

Lemma text_escape bytes out : text bytes out = out ++ escape bytes ++ [0].
Proof.
  unfold text. pose proof (text_loop_escape (length bytes) bytes out (le_n _)) as H.
  destruct (text_loop _ _ _) as [r o]. by rewrite !app_assoc, H.
Qed.

(** What follows a column: nothing, or a byte below the one that follows an escaped zero. *)
Definition low (r : list Z) : Prop := match r with [] => True | x :: _ => x < ESCAPED end.

Lemma escape_cmp a b r r' :
  bytes_ok a → bytes_ok b → low r → low r' →
  slice_cmp (escape a ++ 0 :: r) (escape b ++ 0 :: r') = then_cmp (slice_cmp a b) (slice_cmp r r').
Proof.
  intros Ha Hb Hr Hr'. revert b Hb. induction Ha as [|x a Hx Ha IH]; intros b Hb.
  - destruct Hb as [|y b Hy Hb]; [done|]. rewrite escape_nil, escape_cons. unfold fits in *.
    destruct (Z.eqb_spec y 0) as [->|]; cbn [app slice_cmp then_cmp].
    + rewrite Z.compare_refl. destruct r as [|z r]; [done|]. cbn [slice_cmp].
      by rewrite (proj2 (Z.compare_lt_iff z ESCAPED)).
    + by rewrite (proj2 (Z.compare_lt_iff 0 y)) by lia.
  - unfold fits in *. rewrite escape_cons. destruct Hb as [|y b Hy Hb].
    + rewrite escape_nil. destruct (Z.eqb_spec x 0) as [->|]; cbn [app slice_cmp then_cmp].
      * rewrite Z.compare_refl. destruct r' as [|z r']; [done|]. cbn [slice_cmp].
        by rewrite (proj2 (Z.compare_gt_iff ESCAPED z)).
      * by rewrite (proj2 (Z.compare_gt_iff x 0)) by lia.
    + rewrite escape_cons. cbn [slice_cmp].
      destruct (Z.eqb_spec x 0) as [->|], (Z.eqb_spec y 0) as [->|]; cbn [app slice_cmp].
      * by rewrite !Z.compare_refl, IH.
      * by rewrite (proj2 (Z.compare_lt_iff 0 y)) by lia.
      * by rewrite (proj2 (Z.compare_gt_iff x 0)) by lia.
      * destruct (x ?= y); [by rewrite IH|done..].
Qed.

(** * Columns *)

(** How a column of type [t] writes what it is ordered by. *)
Definition int_form (t : LogicalType) (z : Z) : list Z :=
  match t with
  | TBoolean => [z]
  | TUBigInt => be_bytes 8 z
  | TUHugeInt => be_bytes 16 z
  | THugeInt | TUuid | TDecimal _ _ => wide [] z
  | _ => signed [] z
  end.

Definition int_ok (t : LogicalType) (z : Z) : Prop :=
  match t with
  | TBoolean => True
  | TUBigInt => fits 64 z
  | TUHugeInt => fits 128 z
  | THugeInt | TUuid | TDecimal _ _ => sfits 128 z
  | TDouble | TVarchar | TBlob | TBit | TBigNum | TNumeric => False
  | _ => sfits 64 z
  end.

Definition encodes (t : LogicalType) (s : Sort) (l : list Z) : Prop :=
  match s with
  | SInt z => int_ok t z ∧ l = int_form t z
  | SNum n => t = TDouble ∧ ∃ bits, u64 bits ∧ n = f64_number bits ∧ l = be_bytes 8 (float bits)
  | SBytes b => (t = TVarchar ∨ t = TBlob ∨ t = TBigNum ∨ t = TNumeric) ∧ bytes_ok b ∧ l = escape b ++ [0]
  | SBits b => t = TBit ∧ bytes_ok b ∧ l = escape b ++ [0]
  end.

Lemma sfits_weaken w w' x : 0 < w ≤ w' → sfits w x → sfits w' x.
Proof.
  intros Hw [? ?]. pose proof (Z.pow_le_mono_r 2 (w - 1) (w' - 1) ltac:(lia) ltac:(lia)).
  split; lia.
Qed.

Lemma push_column v t s out :
  value_ok v → sort_of v = Some (t, s) → ∃ l, push v out = (true, out ++ VALUE :: l) ∧ encodes t s l.
Proof.
  intros Hok Hs.
  destruct v; simplify_eq/=; unfold signed, wide; rewrite ?text_escape, <-?app_assoc;
    eexists; (split; [reflexivity|]); simpl.
  all: try (split; [|done]; first
    [done | by destruct Hok | eapply sfits_weaken; [|done]; lia | eapply fits_weaken; [|done]; lia]).
  - split; [done|]. destruct (f64_from_number bits Hok) as [? ?]. eauto.
  - split; [done|]. eauto.
  - eauto 10.
  - eauto 10.
  - eauto 10.
  - split; [eauto 10|]. split; [by apply Forall_take|done].
Qed.

Lemma push_refused v out : v ≠ Null → sort_of v = None → push v out = (false, out).
Proof. intros Hv Hs. destruct v; try done; simpl; by rewrite take_app_length. Qed.

Lemma encodes_cmp t s s' l l' r r' :
  encodes t s l → encodes t s' l' → low r → low r' →
  slice_cmp (l ++ r) (l' ++ r') = then_cmp (sort_cmp slice_cmp s s') (slice_cmp r r').
Proof.
  intros Hs Hs' Hr Hr'. destruct s as [z|n|b|b], s' as [z'|n'|b'|b']; simpl in Hs, Hs'; try (by destruct Hs as [? _], Hs' as [? _]; naive_solver).
  - destruct Hs as [Hz ->], Hs' as [Hz' ->]. simpl.
    assert (∀ w n, 8 * Z.of_nat n = w + 1 → 0 ≤ w → sfits (w + 1) z → sfits (w + 1) z' →
      slice_cmp (be_bytes n (Z.lxor (wrap (w + 1) z) (1 ≪ w)) ++ r)
        (be_bytes n (Z.lxor (wrap (w + 1) z') (1 ≪ w)) ++ r') = then_cmp (z ?= z') (slice_cmp r r'))
      as Hsigned.
    { intros. rewrite slice_cmp_app by (by rewrite !length_be_bytes). by rewrite sign_bytes_cmp. }
    assert (∀ n, fits (8 * Z.of_nat n) z → fits (8 * Z.of_nat n) z' →
      slice_cmp (be_bytes n z ++ r) (be_bytes n z' ++ r') = then_cmp (z ?= z') (slice_cmp r r'))
      as Hunsigned.
    { intros. rewrite slice_cmp_app by (by rewrite !length_be_bytes). by rewrite be_bytes_cmp. }
    destruct t; simpl in *; unfold signed, wide; try done; first [by destruct (z ?= z')
      | apply (Hsigned 63 8%nat) | apply (Hsigned 127 16%nat)
      | apply (Hunsigned 8%nat) | apply (Hunsigned 16%nat)]; lia || done.
  - destruct Hs as (->&a&Ha&->&->), Hs' as (_&a'&Ha'&->&->). simpl.
    rewrite slice_cmp_app by (by rewrite !length_be_bytes).
    rewrite be_bytes_cmp by (by apply float_fits). by rewrite float_cmp.
  - destruct Hs as (_&Hb&->), Hs' as (_&Hb'&->). rewrite <-!app_assoc. by apply escape_cmp.
  - destruct Hs as (_&Hb&->), Hs' as (_&Hb'&->). rewrite <-!app_assoc. by apply escape_cmp.
Qed.

(** What [push] writes for a value a column can hold. *)
Lemma push_typed t v :
  of_type t v → ∃ c l, c :: l = snd (push v []) ∧ (c = NULL ∨ c = VALUE)
    ∧ ∀ out, push v out = (true, out ++ c :: l).
Proof.
  intros (Hok&_&[->|Ht]).
  { exists NULL, []. eauto. }
  destruct (sort_of v) as [[t' s]|] eqn:Hs; [|done].
  destruct (push_column v t' s [] Hok Hs) as (l&E&_).
  exists VALUE, l. rewrite E. split_and!; [done|auto|]. intros out.
  destruct (push_column v t' s out Hok Hs) as (l'&E'&He'). rewrite E'. do 3 f_equal.
  assert (push v out = (true, out ++ snd (push v []))) as Eo.
  { clear -Hs. destruct v; simplify_eq/=; unfold signed, wide; rewrite ?text_escape; simpl;
      by rewrite <-?app_assoc. }
  rewrite E' in Eo. rewrite E in Eo. by simplify_list_eq.
Qed.

Lemma column_cmp t a b r r' :
  of_type t a → of_type t b → low r → low r' →
  slice_cmp (snd (push a []) ++ r) (snd (push b []) ++ r')
  = then_cmp (value_cmp slice_cmp a b) (slice_cmp r r').
Proof.
  intros (Ha&_&Hta) (Hb&_&Htb) Hr Hr'.
  assert (∀ v, value_ok v → v = Null ∨ fst <$> sort_of v = Some t →
    v = Null ∨ ∃ s l, v ≠ Null ∧ sort_of v = Some (t, s) ∧ push v [] = (true, VALUE :: l) ∧ encodes t s l)
    as Hc.
  { intros v Hv [->|Hs]; [auto|]. right. destruct (sort_of v) as [[t' s]|] eqn:E; [|done].
    simplify_eq/=. destruct (push_column v t s [] Hv E) as (l&Hl&He). exists s, l.
    split_and!; try done. by intros ->. }
  destruct (Hc a Ha Hta) as [->|(s&l&Na&Es&El&He)], (Hc b Hb Htb) as [->|(s'&l'&Nb&Es'&El'&He')].
  - done.
  - rewrite El'. by destruct b.
  - rewrite El. by destruct a.
  - rewrite El, El'. simpl. rewrite (encodes_cmp t s s') by done. f_equal.
    unfold value_cmp. rewrite Es, Es'. destruct a; try done; by destruct b.
Qed.

(** ** Several columns *)

Lemma normalize_typed ts vs :
  Forall2 of_type ts vs →
  low (snd (normalize vs [])) ∧ ∀ out, normalize vs out = (true, out ++ snd (normalize vs [])).
Proof.
  induction 1 as [|t v ts vs Hv _ [_ IH]].
  { split; [done|]. intros out. simpl. by rewrite app_nil_r. }
  destruct (push_typed t v Hv) as (c&l&_&Hc&Hp). simpl. rewrite (Hp []), (IH ([] ++ c :: l)).
  split; [destruct Hc as [->| ->]; done|].
  intros out. rewrite Hp, IH. simpl. by rewrite <-app_assoc.
Qed.

Lemma normalize_cons t v ts vs :
  of_type t v → Forall2 of_type ts vs →
  snd (normalize (v :: vs) []) = snd (push v []) ++ snd (normalize vs []).
Proof.
  intros Hv Hvs. destruct (push_typed t v Hv) as (c&l&Ec&_&Hp). simpl. rewrite <-Ec, Hp.
  by rewrite (proj2 (normalize_typed _ _ Hvs)).
Qed.

Lemma normalize_cmp ts vs ws :
  Forall2 of_type ts vs → Forall2 of_type ts ws →
  slice_cmp (snd (normalize vs [])) (snd (normalize ws [])) = key_cmp vs ws.
Proof.
  intros Hv. revert ws. induction Hv as [|t v ts vs Hv Hvs IH]; intros ws Hw;
    inversion Hw as [|? w ? ws' Hw1 Hws]; subst; [done|].
  rewrite (normalize_cons t v ts vs), (normalize_cons t w ts ws') by done.
  rewrite (column_cmp t) by (done || by eapply normalize_typed). simpl.
  rewrite IH by done. by destruct (value_cmp slice_cmp v w).
Qed.

(** ** What the keys keep of the SQL order *)

Lemma sort_of_bits v t b : sort_of v = Some (t, SBits b) → t = TBit ∧ v = Bit b.
Proof. by destruct v; intros; simplify_eq/=. Qed.

(** Two values of one column that are not null are compared by what they are ordered by. *)
Lemma value_cmp_sorts t v w : of_type t v → of_type t w → v = Null ∨ w = Null ∨ ∃ s s', sort_of v = Some (t, s) ∧ sort_of w = Some (t, s') ∧ ∀ f, value_cmp f v w = sort_cmp f s s'.
Proof.
  intros (_&_&[->|Hv]) (_&_&Hw); [by left|]. destruct Hw as [->|Hw]; [by right; left|]. right. right.
  destruct (sort_of v) as [[t1 s]|] eqn:Ev; [|done]. destruct (sort_of w) as [[t2 s']|] eqn:Ew; [|done]. simplify_eq/=. exists s, s'. split_and!; [done..|].
  intros f. assert (v ≠ Null ∧ w ≠ Null) as [Nv Nw] by (split; by intros ->). unfold value_cmp. rewrite Ev, Ew. destruct v; try done; by destruct w.
Qed.

(** Without bit strings the order of them does not matter, *)
Lemma value_cmp_other f g t v w : of_type t v → of_type t w → t ≠ TBit → value_cmp f v w = value_cmp g v w.
Proof.
  intros Hv Hw Ht. destruct (value_cmp_sorts t v w Hv Hw) as [->|[->|(s&s'&Es&Es'&E)]]; [by destruct w|by destruct v|]. rewrite !E.
  destruct s as [| | |b]; [by destruct s'..|]. by apply sort_of_bits in Es as [-> _].
Qed.

Lemma tuple_cmp_other f g ts vs : Forall2 of_type ts vs → ∀ ws, Forall2 of_type ts ws → TBit ∉ ts → tuple_cmp f vs ws = tuple_cmp g vs ws.
Proof.
  induction 1 as [|t v ts vs Hv _ IH]; intros ws Hw Hn; inversion Hw as [|? w ? ws' Hw1 Hws]; subst; [done|]. apply not_elem_of_cons in Hn as [Hne Hn].
  cbn [tuple_cmp]. rewrite (value_cmp_other f g t), (IH ws') by done. done.
Qed.

(** and with them what is equal stays equal. *)
Lemma value_cmp_equal t v w : of_type t v → of_type t w → value_cmp slice_cmp v w = Eq ↔ value_cmp (λ a b, default Eq (bit_cmp a b)) v w = Eq.
Proof.
  intros Hv Hw. destruct (value_cmp_sorts t v w Hv Hw) as [->|[->|(s&s'&Es&Es'&E)]]; [by destruct w|by destruct v|]. rewrite !E.
  destruct s as [| | |b], s' as [| | |b']; try done. apply sort_of_bits in Es as [_ ->], Es' as [_ ->]. destruct Hv as (_&Hv&_), Hw as (_&Hw&_).
  destruct (bit_cmp_ok b b') as (c&Ec&Hc); [by apply Hv|by apply Hw|]. cbn [sort_cmp]. rewrite Ec. cbn [default from_option id]. by rewrite slice_cmp_Eq, Hc.
Qed.

Lemma tuple_cmp_equal ts vs : Forall2 of_type ts vs → ∀ ws, Forall2 of_type ts ws → key_cmp vs ws = Eq ↔ sql_cmp vs ws = Eq.
Proof.
  induction 1 as [|t v ts vs Hv _ IH]; intros ws Hw; inversion Hw as [|? w ? ws' Hw1 Hws]; subst; [done|]. specialize (IH ws' Hws). unfold sql_cmp in *.
  cbn [tuple_cmp]. pose proof (value_cmp_equal t v w Hv Hw1) as H. destruct (value_cmp slice_cmp v w), (value_cmp _ v w) in *; naive_solver.
Qed.

Lemma bit_typed b : bit_ok b → of_type TBit (Bit b).
Proof. intros Hb. split_and!; [apply Hb|by intros ? [= <-]|by right]. Qed.

(** The key of a bit string begins with the number of its padding bits. *)
Lemma bit_keys_by_padding a b pa pb : bit_ok a → bit_ok b → a !! 0%nat = Some pa → b !! 0%nat = Some pb → pa < pb → key_cmp [Bit a] [Bit b] = Lt.
Proof.
  intros _ _ Ha Hb Hlt. destruct a as [|x a], b as [|y b]; try done. cbn in Ha, Hb. simplify_eq. cbn. by rewrite (proj2 (Z.compare_lt_iff pa pb) Hlt).
Qed.

Definition bits_1 : list Z := [7; 255].
Definition bits_11 : list Z := [6; 255].

Lemma bits_ok_samples : bit_ok bits_1 ∧ bit_ok bits_11.
Proof. split; (split; [repeat (apply Forall_cons; split; [unfold fits; lia|]); apply Forall_nil_2|cbn; lia]). Qed.


