(* ===== verification/L0.v ===== *)
(** The newest entries of an index, a B+tree in memory under optimistic lock coupling:
    [rudb-index/src/l0.rs].

    A node is the record of its atomic words and the arena the segments it is kept in. A node
    reference of the source is the node's id here, since a node never moves and is never freed. A
    [usize] is a [nat]: every one of them is at most a few thousand, and a subtraction only stands
    where the code has compared its operands. The outer [option] of an operation is a panic (an
    index out of range) or a loop that used up its fuel; the theorems show that neither happens.

    The operations that write run to their end here ([insert], [remove]). The ones that read,
    [leaf_for] and what is built on it, run against a history [mem] of the tree, the state of
    shared memory at each tick of a clock, so that a writer may move the tree under them: a
    version, the loads of one node between a version and its check, and a check are a tick each.
    The history that stays at one state is the tree at rest. *)

From S2P Require Import Prelude Bloom Run.
Local Open Scope Z_scope.

Definition NODE : nat := 4096.
Definition NONE : Z := 2 ^ 32 - 1.
Definition FIRST : Z := 6.
Definition SEGMENTS : nat := 32.

(** * Nodes *)

Record Node : Type := mkNode {
  n_version : Z;
  n_leaf : bool;
  n_count : nat;
  n_keys : list Z;
  n_values : list Z;
  n_next : Z }.

Definition Node_new (leaf : bool) (capacity words : nat) : Node :=
  let values := if leaf then capacity else S capacity in
  mkNode 0 leaf 0 (replicate (capacity * words) 0) (replicate values 0) NONE.

Definition set_version (v : Z) (n : Node) : Node :=
  mkNode v (n_leaf n) (n_count n) (n_keys n) (n_values n) (n_next n).
Definition set_count (c : nat) (n : Node) : Node :=
  mkNode (n_version n) (n_leaf n) c (n_keys n) (n_values n) (n_next n).
Definition set_keys (ks : list Z) (n : Node) : Node :=
  mkNode (n_version n) (n_leaf n) (n_count n) ks (n_values n) (n_next n).
Definition set_values (vs : list Z) (n : Node) : Node :=
  mkNode (n_version n) (n_leaf n) (n_count n) (n_keys n) vs (n_next n).
Definition set_next (id : Z) (n : Node) : Node :=
  mkNode (n_version n) (n_leaf n) (n_count n) (n_keys n) (n_values n) id.

Definition Node_read (n : Node) : option Z :=
  if Z.land (n_version n) 1 =? 0 then Some (n_version n) else None.

Definition Node_check (n : Node) (version : Z) : bool := n_version n =? version.

Definition Node_upgrade (n : Node) (version : Z) : bool * Node :=
  if n_version n =? version then (true, set_version (version + 1) n) else (false, n).

Definition Node_unlock (n : Node) : Node := set_version (wrap 64 (n_version n + 1)) n.

Definition Node_count (n : Node) (capacity : nat) : nat := n_count n `min` capacity.

Definition Node_word (n : Node) (at_ : nat) : Z := default 0 (n_keys n !! at_).
Definition Node_value (n : Node) (at_ : nat) : Z := default 0 (n_values n !! at_).

(** A store at an index, which panics out of range. *)
Definition store_at (at_ : nat) (x : Z) (l : list Z) : option (list Z) :=
  if (at_ <? length l)%nat then Some (<[at_ := x]> l) else None.

Definition Node_set_value (n : Node) (at_ : nat) (value : Z) : option Node :=
  vs ← store_at at_ value (n_values n); Some (set_values vs n).

Definition Node_child (n : Node) (at_ : nat) : Z :=
  let value := Node_value n at_ in
  if value <? 2 ^ 32 then value else NONE.

(** * The arena *)

Record Arena : Type := mkArena {
  a_next : Z;
  a_segments : list (option (list (option Node))) }.

Definition Arena_new : Arena := mkArena 0 (replicate SEGMENTS None).

Definition locate (id : Z) : nat * nat :=
  let n := id + 1 ≪ FIRST in
  let segment := Z.log2 n - FIRST in
  (Z.to_nat segment, Z.to_nat (n - 1 ≪ (segment + FIRST))).

Definition Arena_get (a : Arena) (id : Z) : option Node :=
  let '(segment, at_) := locate id in
  held ← a_segments a !! segment;
  slots ← held;
  slot ← slots !! at_;
  slot.

(** What the stores through the reference to node [id] leave in the arena. *)
Definition Arena_put (a : Arena) (id : Z) (node : Node) : Arena :=
  let '(segment, at_) := locate id in
  match a_segments a !! segment with
  | Some (Some slots) =>
      mkArena (a_next a) (<[segment := Some (<[at_ := Some node]> slots)]> (a_segments a))
  | _ => a
  end.

Definition Arena_add (a : Arena) (node : Node) : option (Result Z * Arena) :=
  let id := a_next a in
  let a := mkArena (wrap 32 (id + 1)) (a_segments a) in
  if id =? NONE then Some (Err (Internal "an index L0 ran out of node ids"), a) else
  let '(segment, at_) := locate id in
  held ← a_segments a !! segment;
  let slots := default (replicate (2 ^ (segment + Z.to_nat FIRST)) None) held in
  let a := mkArena (a_next a) (<[segment := Some slots]> (a_segments a)) in
  slot ← slots !! at_;
  match slot with
  | Some _ => Some (Err (Internal "an index L0 gave one node id twice"), a)
  | None =>
      Some (Ok id,
        mkArena (a_next a) (<[segment := Some (<[at_ := Some node]> slots)]> (a_segments a)))
  end.

(** * The tree *)

Record L0 : Type := mkL0 {
  l_width : nat;
  l_words : nat;
  l_capacity : nat;
  l_root : Z;
  l_nodes : Arena;
  l_len : Z;
  l_restarts : Z }.

(** A node on the way down, with the version it was read at. *)
Definition Held : Type := Z * Z.

Definition div_ceil (a b : nat) : nat := ((a + (b - 1)) / b)%nat.

Definition L0_new (width : nat) : option (Result L0) :=
  let words := (div_ceil width 8 + 1)%nat in
  let capacity := ((NODE / (8 * words + 8)) `max` 4)%nat in
  '(root, nodes) ← Arena_add Arena_new (Node_new true capacity words);
  match root with
  | Err e => Some (Err e)
  | Ok root => Some (Ok (mkL0 width words capacity root nodes 0 0))
  end.

Definition L0_is_empty (s : L0) : bool := l_len s =? 0.

Definition L0_bytes (s : L0) : Z :=
  let node := (8 * (l_capacity s * l_words s + l_capacity s + 1) + 32)%nat in
  a_next (l_nodes s) * Z.of_nat node.

Definition with_nodes (a : Arena) (s : L0) : L0 :=
  mkL0 (l_width s) (l_words s) (l_capacity s) (l_root s) a (l_len s) (l_restarts s).
Definition with_root (id : Z) (s : L0) : L0 :=
  mkL0 (l_width s) (l_words s) (l_capacity s) id (l_nodes s) (l_len s) (l_restarts s).
Definition with_len (n : Z) (s : L0) : L0 :=
  mkL0 (l_width s) (l_words s) (l_capacity s) (l_root s) (l_nodes s) n (l_restarts s).

Definition get (s : L0) (id : Z) : option Node := Arena_get (l_nodes s) id.
Definition put (id : Z) (n : Node) (s : L0) : L0 := with_nodes (Arena_put (l_nodes s) id n) s.

Definition restart (s : L0) : L0 :=
  mkL0 (l_width s) (l_words s) (l_capacity s) (l_root s) (l_nodes s) (l_len s)
    (wrap 64 (l_restarts s + 1)).

(** [chunks(8)], and a chunk as a big-endian word with zeros after it. *)
Fixpoint chunks8 (fuel : nat) (key : list Z) : list (list Z) :=
  match fuel, key with
  | S fuel, _ :: _ => take 8 key :: chunks8 fuel (drop 8 key)
  | _, _ => []
  end.

Definition word_of (chunk : list Z) : Z :=
  be_val (chunk ++ replicate (8 - length chunk) 0).

(** [zip] stops at the shorter: the words past the chunks stay zero. *)
Definition L0_probe (s : L0) (key : list Z) (rid : Z) : option (list Z) :=
  if negb (length key =? l_width s)%nat then None else
  let chunks := word_of <$> chunks8 (length key) key in
  let probe := take (l_words s) (chunks ++ replicate (l_words s - length chunks) 0) in
  Some (<[(l_words s - 1)%nat := rid]> probe).

Definition key_of (s : L0) (words : list Z) : list Z :=
  take (l_width s) (take (l_words s - 1) words ≫= be_bytes 8).

Fixpoint compare_loop (n : Node) (base at_ : nat) (probe : list Z) : comparison :=
  match probe with
  | [] => Eq
  | word :: probe =>
      match Node_word n (base + at_) ?= word with
      | Eq => compare_loop n base (S at_) probe
      | other => other
      end
  end.

Definition compare (s : L0) (n : Node) (slot : nat) (probe : list Z) : comparison :=
  compare_loop n (slot * l_words s) 0 probe.

(** The two binary searches: [go_right] says whether the answer is past [middle]. *)
Fixpoint search_loop (fuel : nat) (go_right : nat → bool) (low high : nat) : nat :=
  match fuel with
  | O => low
  | S fuel =>
      if (low <? high)%nat then
        let middle := (low + (high - low) / 2)%nat in
        if go_right middle then search_loop fuel go_right (S middle) high
        else search_loop fuel go_right low middle
      else low
  end.

Definition lower_bound (s : L0) (n : Node) (count : nat) (probe : list Z) : nat :=
  search_loop (S count)
    (λ middle, match compare s n middle probe with Lt => true | _ => false end) 0 count.

Definition child_at (s : L0) (n : Node) (count : nat) (probe : list Z) : nat :=
  search_loop (S count)
    (λ middle, match compare s n middle probe with Gt => false | _ => true end) 0 count.

(** A [for] loop over slots, each turn of which may panic. *)
Fixpoint for_each {A : Type} (f : nat → A → option A) (slots : list nat) (a : A) : option A :=
  match slots with
  | [] => Some a
  | slot :: slots => a ← f slot a; for_each f slots a
  end.

Definition copy_key (s : L0) (from : Node) (from_slot : nat) (to : Node) (to_slot : nat)
    : option Node :=
  ks ← for_each (λ at_ ks, store_at (to_slot * l_words s + at_)
                             (Node_word from (from_slot * l_words s + at_)) ks)
         (seq 0 (l_words s)) (n_keys to);
  Some (set_keys ks to).

(** The same where both nodes are the one locked: each word is read from what the last left. *)
Definition move_key (s : L0) (from_slot to_slot : nat) (n : Node) : option Node :=
  ks ← for_each (λ at_ ks, store_at (to_slot * l_words s + at_)
                             (default 0 (ks !! (from_slot * l_words s + at_)%nat)) ks)
         (seq 0 (l_words s)) (n_keys n);
  Some (set_keys ks n).

Definition set_key (s : L0) (n : Node) (slot : nat) (key : list Z) : option Node :=
  ks ← for_each (λ at_ ks, store_at (slot * l_words s + at_) (default 0 (key !! at_)) ks)
         (seq 0 (length key)) (n_keys n);
  Some (set_keys ks n).

Definition read_key (s : L0) (n : Node) (slot : nat) : list Z :=
  (λ at_, Node_word n (slot * l_words s + at_)) <$> seq 0 (l_words s).

Definition top (s : L0) : option (Z * Node * Z) :=
  let id := l_root s in
  node ← get s id;
  version ← Node_read node;
  Some (id, node, version).

(** * Writing *)

(** Runs [f] on the node [id] names. *)
Definition with_node (id : Z) (f : Node → option Node) (s : L0) : option L0 :=
  n ← get s id; n ← f n; Some (put id n s).

Definition unlock (id : Z) (s : L0) : L0 :=
  match get s id with Some n => put id (Node_unlock n) s | None => s end.

Definition upgrade (held : Held) (s : L0) : bool * L0 :=
  match get s held.1 with
  | Some n => let '(locked, n) := Node_upgrade n held.2 in (locked, put held.1 n s)
  | None => (false, s)
  end.

Definition check (s : L0) (held : Held) : bool :=
  match get s held.1 with Some n => Node_check n held.2 | None => false end.

Definition lock_pair (parent : option Held) (held : Held) (s : L0) : bool * L0 :=
  let '(locked, s) := match parent with Some p => upgrade p s | None => (true, s) end in
  if negb locked then (false, s) else
  let '(locked, s) := upgrade held s in
  if negb locked then (false, match parent with Some p => unlock p.1 s | None => s end)
  else (true, s).

Definition unlock_pair (parent : option Held) (id : Z) (s : L0) : L0 :=
  let s := unlock id s in
  match parent with Some p => unlock p.1 s | None => s end.

(** The entries from [at] up move one slot right and the new one takes the gap. *)
Definition leaf_insert (id : Z) (probe : list Z) (ts : Z) (s : L0) : option L0 :=
  node ← get s id;
  let count := Node_count node (l_capacity s) in
  let at_ := lower_bound s node count probe in
  if ((at_ <? count)%nat && match compare s node at_ probe with Eq => true | _ => false end)%bool then
    node ← Node_set_value node at_ ts;
    Some (put id node s)
  else
    node ← for_each (λ slot n,
             n ← move_key s slot (slot + 1) n;
             Node_set_value n (slot + 1) (Node_value n slot)) (reverse (seq at_ (count - at_))) node;
    node ← set_key s node at_ probe;
    node ← Node_set_value node at_ ts;
    let node := set_count (count + 1) node in
    Some (with_len (wrap 64 (l_len s + 1)) (put id node s)).

Definition publish (left_ : Z) (parent : option Z) (separator : list Z) (right_ : Z) (s : L0)
    : option (Result unit * L0) :=
  match parent with
  | None =>
      let root := Node_new false (l_capacity s) (l_words s) in
      root ← set_key s root 0 separator;
      root ← Node_set_value root 0 left_;
      root ← Node_set_value root 1 right_;
      let root := set_count 1 root in
      '(added, nodes) ← Arena_add (l_nodes s) root;
      let s := with_nodes nodes s in
      match added with
      | Err e => Some (Err e, s)
      | Ok root => Some (Ok tt, with_root root s)
      end
  | Some parent =>
      p ← get s parent;
      let count := Node_count p (l_capacity s) in
      let at_ := child_at s p count separator in
      p ← for_each (λ slot p,
            p ← move_key s slot (slot + 1) p;
            Node_set_value p (slot + 2) (Node_value p (slot + 1))) (reverse (seq at_ (count - at_))) p;
      p ← set_key s p at_ separator;
      p ← Node_set_value p (at_ + 1) right_;
      let p := set_count (count + 1) p in
      Some (Ok tt, put parent p s)
  end.

Definition split_leaf (id : Z) (parent : option Z) (s : L0) : option (Result unit * L0) :=
  node ← get s id;
  let count := Node_count node (l_capacity s) in
  let middle := (count / 2)%nat in
  let sibling := Node_new true (l_capacity s) (l_words s) in
  sibling ← for_each (λ slot sibling,
            sibling ← copy_key s node slot sibling (slot - middle);
            Node_set_value sibling (slot - middle) (Node_value node slot))
            (seq middle (count - middle)) sibling;
  let sibling := set_next (n_next node) (set_count (count - middle) sibling) in
  let separator := read_key s sibling 0 in
  '(added, nodes) ← Arena_add (l_nodes s) sibling;
  let s := with_nodes nodes s in
  match added with
  | Err e => Some (Err e, s)
  | Ok rid_ =>
      s ← with_node id (λ n, Some (set_count middle (set_next rid_ n))) s;
      publish id parent separator rid_ s
  end.

Definition split_inner (id : Z) (parent : option Z) (s : L0) : option (Result unit * L0) :=
  node ← get s id;
  let count := Node_count node (l_capacity s) in
  let middle := (count / 2)%nat in
  let separator := read_key s node middle in
  let sibling := Node_new false (l_capacity s) (l_words s) in
  sibling ← for_each (λ slot sibling, copy_key s node slot sibling (slot - middle - 1))
            (seq (middle + 1) (count - (middle + 1))) sibling;
  sibling ← for_each (λ slot sibling,
            Node_set_value sibling (slot - middle - 1) (Node_value node slot))
            (seq (middle + 1) (count + 1 - (middle + 1))) sibling;
  let sibling := set_count (count - middle - 1) sibling in
  '(added, nodes) ← Arena_add (l_nodes s) sibling;
  let s := with_nodes nodes s in
  match added with
  | Err e => Some (Err e, s)
  | Ok rid_ =>
      s ← with_node id (λ n, Some (set_count middle n)) s;
      publish id parent separator rid_ s
  end.

(** What one turn of the outer loop of [insert] comes to. *)
Inductive Turn : Type :=
| Again
| Return (r : Result unit).

(** The turn from the leaf on, and a full node's split, which a turn ends with. *)
Definition split_turn (split : Z → option Z → L0 → option (Result unit * L0))
    (parent : option Held) (held : Held) (s : L0) : option (Turn * L0) :=
  let '(locked, s) := lock_pair parent held s in
  if negb locked then Some (Again, restart s) else
  '(split, s) ← split held.1 (fst <$> parent) s;
  let s := unlock_pair parent held.1 s in
  match split with
  | Err e => Some (Return (Err e), s)
  | Ok _ => Some (Again, s)
  end.

Definition leaf_turn (probe : list Z) (ts : Z) (parent : option Held) (held : Held) (s : L0)
    : option (Turn * L0) :=
  let '(locked, s) := upgrade held s in
  if negb locked then Some (Again, restart s) else
  if match parent with Some p => negb (check s p) | None => false end
  then Some (Again, restart (unlock held.1 s))
  else
    s ← leaf_insert held.1 probe ts s;
    Some (Return (Ok tt), unlock held.1 s).

Fixpoint descend (fuel : nat) (probe : list Z) (ts : Z) (parent : option Held) (held : Held) (s : L0)
    : option (Turn * L0) :=
  match fuel with
  | O => None
  | S fuel =>
      node ← get s held.1;
      let count := Node_count node (l_capacity s) in
      if n_leaf node then
        if (count =? l_capacity s)%nat then split_turn split_leaf parent held s
        else leaf_turn probe ts parent held s
      else
        if (count =? l_capacity s)%nat then split_turn split_inner parent held s
        else if match parent with Some p => negb (check s p) | None => false end
        then Some (Again, restart s)
        else
          let child := Node_child node (child_at s node count probe) in
          if negb (Node_check node held.2) then Some (Again, restart s) else
          match below ← get s child; Node_read below with
          | None => Some (Again, restart s)
          | Some seen => descend fuel probe ts (Some held) (child, seen) s
          end
  end.

(** A path is at most as long as there are nodes. *)
Definition depth (s : L0) : nat := S (Z.to_nat (a_next (l_nodes s))).

Definition insert_turn (probe : list Z) (ts : Z) (s : L0) : option (Turn * L0) :=
  match top s with
  | None => Some (Again, restart s)
  | Some (id, _, version) => descend (depth s) probe ts None (id, version) s
  end.

Fixpoint insert_loop (fuel : nat) (probe : list Z) (ts : Z) (s : L0)
    : option (Result unit * L0) :=
  match fuel with
  | O => None
  | S fuel =>
      '(turn, s) ← insert_turn probe ts s;
      match turn with
      | Again => insert_loop fuel probe ts s
      | Return r => Some (r, s)
      end
  end.

Definition L0_insert (fuel : nat) (key : list Z) (hit : Hit) (s : L0) : option (Result unit * L0) :=
  match L0_probe s key (rid hit) with
  | None => Some (Err (Internal "a key of bytes for an index L0 of -byte keys"), s)
  | Some probe => insert_loop fuel probe (ts hit) s
  end.

(** * Reading *)

Section reading.
Context (mem : nat → L0).

Definition top_at (t : nat) : option (Z * Z) * nat :=
  let id := l_root (mem t) in
  match node ← get (mem (S t)) id; Node_read node with
  | None => (None, S (S t))
  | Some version =>
      (if l_root (mem (S (S t))) =? id then Some (id, version) else None, S (S (S t)))
  end.

(** The loop down from the node held: the leaf and its parent, or [None] when a writer moved
    something on the way. The flag says the loop ran out of fuel. *)
Fixpoint leaf_for_loop (fuel : nat) (probe : list Z) (parent : option Held) (held : Held) (t : nat)
    : option (option (Held * option Held) * nat) :=
  match fuel with
  | O => None
  | S fuel =>
      node ← get (mem t) held.1;
      if n_leaf node then Some (Some (held, parent), t) else
      let count := Node_count node (l_capacity (mem t)) in
      let child := Node_child node (child_at (mem t) node count probe) in
      if negb (check (mem (S t)) held) then Some (None, S (S t)) else
      match below ← get (mem (S (S t))) child; Node_read below with
      | None => Some (None, S (S (S t)))
      | Some seen => leaf_for_loop fuel probe (Some held) (child, seen) (S (S (S t)))
      end
  end.

Definition leaf_for (probe : list Z) (t : nat) : option (option (Held * option Held) * nat) :=
  match top_at t with
  | (None, t) => Some (None, t)
  | (Some held, t) => leaf_for_loop (depth (mem t)) probe None held t
  end.

(** The entries of a leaf from [start] on, as [batch] holds them. *)
Definition batch_of (s : L0) (n : Node) (start count : nat) : list (list Z * Z) :=
  (λ slot, (read_key s n slot, Node_value n slot)) <$> seq start (count - start).

(** The loop over a batch: [inl] when [each] answered false. *)
Fixpoint each_of {A : Type} (each : list Z → Z → A → bool * A) (batch : list (list Z * Z))
    (from : list Z) (after : bool) (a : A) : A + list Z * bool * A :=
  match batch with
  | [] => inr (from, after, a)
  | (words, ts) :: batch =>
      if after && slice_le words from then each_of each batch from after a else
      let '(more, a) := each words ts a in
      if (more : bool) then each_of each batch words true a else inl a
  end.

(** The inner loop, along the leaves. What it answers to the outer one: done, or start again
    from the last entry handed on. *)
Fixpoint leaves_loop {A : Type} (fuel : nat) (each : list Z → Z → A → bool * A) (held : Held)
    (first : bool) (from : list Z) (after : bool) (a : A) (t : nat)
    : option ((A + list Z * bool * A) * nat) :=
  match fuel with
  | O => None
  | S fuel =>
      node ← get (mem t) held.1;
      let s := mem t in
      let count := Node_count node (l_capacity s) in
      let start := if first then lower_bound s node count from else 0%nat in
      let batch := batch_of s node start count in
      let next := n_next node in
      if negb (check (mem (S t)) held) then Some (inr (from, after, a), S (S t)) else
      match each_of each batch from after a with
      | inl a => Some (inl a, S (S t))
      | inr (from, after, a) =>
          if next =? NONE then Some (inl a, S (S t)) else
          match sibling ← get (mem (S (S t))) next; Node_read sibling with
          | None => Some (inr (from, after, a), S (S (S t)))
          | Some seen => leaves_loop fuel each (next, seen) false from after a (S (S (S t)))
          end
      end
  end.

Fixpoint scan_loop {A : Type} (fuel : nat) (each : list Z → Z → A → bool * A)
    (from : list Z) (after : bool) (a : A) (t : nat) : option A :=
  match fuel with
  | O => None
  | S fuel =>
      '(found, t) ← leaf_for from t;
      match found with
      | None => scan_loop fuel each from after a t
      | Some (held, _) =>
          '(end_, t) ← leaves_loop (depth (mem t)) each held true from after a t;
          match end_ with
          | inl a => Some a
          | inr (from, after, a) => scan_loop fuel each from after a t
          end
      end
  end.

Definition scan {A : Type} (fuel : nat) (from : list Z) (after : bool)
    (each : list Z → Z → A → bool * A) (a : A) (t : nat) : option A :=
  scan_loop fuel each from after a t.

Definition L0_find {A : Type} (fuel : nat) (key : list Z) (accept : Hit → A → bool * A) (a : A)
    (t : nat) : option (option Hit * A) :=
  let s := mem t in
  match L0_probe s key 0 with
  | None => Some (None, a)
  | Some probe =>
      let keyed := (l_words s - 1)%nat in
      scan fuel probe false (λ words ts '(found, a),
        if negb (slice_eq (take keyed words) (take keyed probe)) then (false, (found, a)) else
        let hit := mkHit (default 0 (words !! keyed)) ts in
        let '(taken, a) := accept hit a in
        if (taken : bool) then (false, (Some hit, a)) else (true, (found, a))) (None, a) t
  end.

Definition L0_range {A : Type} (fuel : nat) (lo hi : Bound) (each : list Z → Hit → A → bool * A)
    (a : A) (t : nat) : option A :=
  let s := mem t in
  let '(from, after) :=
    match lo with
    | Included key => (L0_probe s key 0, false)
    | Excluded key => (L0_probe s key (2 ^ 64 - 1), true)
    | Unbounded => (Some (replicate (l_words s) 0), false)
    end in
  match from with
  | None => Some a
  | Some from =>
      let keyed := (l_words s - 1)%nat in
      let '(end_, inclusive) :=
        match hi with
        | Included key => (L0_probe s key 0, true)
        | Excluded key => (L0_probe s key 0, false)
        | Unbounded => (None, true)
        end in
      match hi, end_ with
      | Included _, None | Excluded _, None => Some a
      | _, _ =>
          scan fuel from after (λ words ts a,
            let past :=
              match end_ with
              | Some end_ =>
                  match slice_cmp (take keyed words) (take keyed end_) with
                  | Gt => true
                  | Eq => negb inclusive
                  | Lt => false
                  end
              | None => false
              end in
            if (past : bool) then (false, a)
            else each (key_of s words) (mkHit (default 0 (words !! keyed)) ts) a) a t
      end
  end.

Definition L0_to_run (fuel : nat) (t : nat) : option Run :=
  w ← L0_range fuel Unbounded Unbounded (λ key hit w,
        match RunWriter_push key hit w with
        | Ok w => (true, w)
        | Err _ => (false, w)
        end) RunWriter_new t;
  Some (RunWriter_finish w).
End reading.

(** * Removing *)

Definition remove_turn (probe : list Z) (s : L0) : option (option bool * L0) :=
  '(found, _) ← leaf_for (λ _, s) probe 0;
  match found with
  | None => Some (None, restart s)
  | Some (held, parent) =>
      let '(locked, s) := upgrade held s in
      if negb locked then Some (None, restart s) else
      if match parent with Some p => negb (check s p) | None => false end
      then Some (None, restart (unlock held.1 s))
      else
        node ← get s held.1;
        let count := Node_count node (l_capacity s) in
        let at_ := lower_bound s node count probe in
        let found := ((at_ <? count)%nat
                      && match compare s node at_ probe with Eq => true | _ => false end)%bool in
        s ← (if (found : bool) then
               node ← for_each (λ slot n,
                        n ← move_key s slot (slot - 1) n;
                        Node_set_value n (slot - 1) (Node_value n slot))
                        (seq (at_ + 1) (count - (at_ + 1))) node;
               Some (with_len (wrap 64 (l_len s - 1)) (put held.1 (set_count (count - 1) node) s))
             else Some s);
        Some (Some found, unlock held.1 s)
  end.

Fixpoint remove_loop (fuel : nat) (probe : list Z) (s : L0) : option (bool * L0) :=
  match fuel with
  | O => None
  | S fuel =>
      '(turn, s) ← remove_turn probe s;
      match turn with
      | None => remove_loop fuel probe s
      | Some found => Some (found, s)
      end
  end.

Definition L0_remove (fuel : nat) (key : list Z) (rid : Z) (s : L0) : option (bool * L0) :=
  match L0_probe s key rid with
  | None => Some (false, s)
  | Some probe => remove_loop fuel probe s
  end.
