(* ===== verification/L0Node.v ===== *)
(** The nodes of the in-memory tree as tables of keys: what the word by word loops of [L0] do to
    whole keys, the searches within a node, and the shifts of a slot to the right or the left. *)

From S2P Require Import Prelude Bloom Run L0.
Local Open Scope nat_scope.

(** * Rows of words *)

(** The key in slot [i] of an array of keys of [w] words. *)
Definition row (w : nat) (ks : list Z) (i : nat) : list Z := take w (drop (i * w) ks).

Definition store_row (w i : nat) (r ks : list Z) : list Z :=
  take (i * w) ks ++ r ++ drop (S i * w) ks.

Section rows.
Context (w cap : nat).
Implicit Types (ks r : list Z) (i j : nat).

Lemma slot_le i : i < cap → i * w + w ≤ cap * w.
Proof. intros. replace (i * w + w) with (S i * w) by lia. apply Nat.mul_le_mono_r. lia. Qed.

Lemma length_row ks i : length ks = cap * w → i < cap → length (row w ks i) = w.
Proof.
  intros Hl Hi. pose proof (slot_le i Hi). unfold row. rewrite length_take, length_drop. lia.
Qed.

Lemma lookup_row ks i k : k < w → row w ks i !! k = ks !! (i * w + k).
Proof. intros. unfold row. by rewrite lookup_take_lt, lookup_drop by lia. Qed.

Lemma length_store_row ks i r :
  length ks = cap * w → i < cap → length r = w → length (store_row w i r ks) = cap * w.
Proof.
  intros Hl Hi Hr. pose proof (slot_le i Hi). unfold store_row.
  rewrite !length_app, length_take, length_drop. simpl. lia.
Qed.

Lemma lookup_store_row ks i r k :
  length ks = cap * w → i < cap → length r = w →
  store_row w i r ks !! k = if decide (i * w ≤ k < i * w + w) then r !! (k - i * w) else ks !! k.
Proof.
  intros Hl Hi Hr. pose proof (slot_le i Hi). unfold store_row.
  assert (length (take (i * w) ks) = i * w) as Ht by (rewrite length_take; lia).
  destruct (decide (i * w ≤ k < i * w + w)) as [Hk|Hk].
  - rewrite lookup_app_r by lia. rewrite Ht, lookup_app_l by lia. done.
  - destruct (decide (k < i * w)) as [Hlt|Hge].
    + by rewrite lookup_app_l, lookup_take_lt by lia.
    + rewrite lookup_app_r by lia. rewrite lookup_app_r by lia. rewrite Ht, lookup_drop.
      f_equal. simpl. lia.
Qed.

Lemma row_store_eq ks i r :
  length ks = cap * w → i < cap → length r = w → row w (store_row w i r ks) i = r.
Proof.
  intros Hl Hi Hr. apply list_eq_same_length with w; [done| |].
  { apply length_row; [by apply length_store_row|done]. }
  intros k x y Hk. rewrite lookup_row, (lookup_store_row ks) by done.
  rewrite decide_True by lia. replace (i * w + k - i * w) with k by lia. congruence.
Qed.

Lemma row_store_ne ks i j r :
  length ks = cap * w → i < cap → j < cap → i ≠ j → length r = w →
  row w (store_row w i r ks) j = row w ks j.
Proof.
  intros Hl Hi Hj Hne Hr. apply list_eq_same_length with w; [by apply length_row| |].
  { apply length_row; [by apply length_store_row|done]. }
  intros k x y Hk. rewrite !lookup_row, (lookup_store_row ks) by done.
  rewrite decide_False; [congruence|]. destruct (decide (i < j)); nia.
Qed.
End rows.

(** Storing the words of a key one by one stores the key. *)
Lemma store_words (g : nat → list Z → Z) base (ks : list Z) n w :
  base + w ≤ length ks →
  (∀ k l, n ≤ k < w → length l = length ks → take base l = take base ks →
    drop (base + w) l = drop (base + w) ks → g k l = g k ks) →
  n ≤ w →
  for_each (λ at_ ks, store_at (base + at_) (g at_ ks) ks) (seq n (w - n)) ks
  = Some (take (base + n) ks ++ ((λ k, g k ks) <$> seq n (w - n)) ++ drop (base + w) ks).
Proof.
  remember (w - n) as d eqn:Ed. revert n ks Ed.
  induction d as [|d IH]; intros n ks Ed Hlen Hg Hn; cbn [seq for_each].
  { simpl. replace (base + n) with (base + w) by lia. by rewrite take_drop. }
  unfold store_at. destruct (Nat.ltb_spec (base + n) (length ks)) as [Hlt|]; [|lia].
  rewrite some_bind. set (ks' := <[base + n:=g n ks]> ks).
  assert (take (base + n) ks' = take (base + n) ks) as Et by (by apply take_insert_ge).
  assert (drop (base + w) ks' = drop (base + w) ks) as Edr by (apply drop_insert_lt; lia).
  assert (take base ks' = take base ks) as Eb by (apply take_insert_ge; lia).
  assert (length ks' = length ks) as El by apply length_insert.
  assert (∀ k, n ≤ k < w → g k ks' = g k ks) as Hg' by (intros; by apply Hg).
  rewrite IH; [|lia|rewrite El; lia| |lia].
  - rewrite Edr. f_equal. rewrite Nat.add_succ_r.
    assert (take (S (base + n)) ks' = take (base + n) ks ++ [g n ks]) as ->.
    { rewrite (take_S_r _ _ (g n ks)); [by rewrite Et|]. by apply list_lookup_insert_eq. }
    rewrite <-app_assoc. f_equal. simpl. f_equal. f_equal. apply list_fmap_ext.
    intros i k Hk. apply lookup_seq in Hk as [-> ?]. apply Hg'. lia.
  - intros k l Hk Hl Htl Hdl. rewrite Hg' by lia. apply Hg; [lia|congruence..].
Qed.

Lemma for_each_app {A} (f : nat → A → option A) l l' a :
  for_each f (l ++ l') a = for_each f l a ≫= for_each f l'.
Proof.
  revert a. induction l as [|x l IH]; intros a; [done|]. simpl. destruct (f x a); [apply IH|done].
Qed.

Lemma for_each_ext {A} (f g : nat → A → option A) l a :
  (∀ x a, x ∈ l → f x a = g x a) → for_each f l a = for_each g l a.
Proof.
  intros Hfg. revert a. induction l as [|x l IH]; intros a; [done|]. simpl.
  rewrite Hfg by constructor. destruct (g x a); [|done]. apply IH. intros. apply Hfg. by constructor.
Qed.

(** * Keys of a node *)

Section keys.
Context (s : L0).
Implicit Types (n : Node) (i : nat) (probe key : list Z).
Notation w := (l_words s).
Notation cap := (l_capacity s).

Definition node_row (n : Node) (i : nat) : list Z := row w (n_keys n) i.

(** The arrays of a node are the sizes it was made with. *)
Definition sized (n : Node) : Prop :=
  length (n_keys n) = cap * w ∧ length (n_values n) = (if n_leaf n then cap else S cap)
  ∧ n_count n ≤ cap.

Lemma sized_count n : sized n → Node_count n cap = n_count n.
Proof. intros (_&_&?). unfold Node_count. lia. Qed.

Lemma length_node_row n i : sized n → i < cap → length (node_row n i) = w.
Proof. intros (Hk&_&_). by apply length_row. Qed.

Lemma node_word n i k : k < w → Node_word n (i * w + k) = default 0%Z (node_row n i !! k).
Proof. intros. unfold Node_word, node_row. by rewrite lookup_row. Qed.

Lemma read_key_row n i : sized n → i < cap → read_key s n i = node_row n i.
Proof.
  intros Hn Hi. pose proof (length_node_row n i Hn Hi) as Hl. unfold read_key.
  apply list_eq_same_length with w; [done|by rewrite length_fmap, length_seq|].
  intros k x y Hk. rewrite list_lookup_fmap, (lookup_seq_lt 0 w k Hk).
  cbn [fmap option_fmap option_map Nat.add]. rewrite node_word by done. intros [= <-] Hy. by rewrite Hy.
Qed.

Lemma compare_loop_row n i k probe r :
  node_row n i = r → length r = w → k + length probe = w →
  compare_loop n (i * w) k probe = slice_cmp (drop k r) probe.
Proof.
  intros Hr Hl. revert k. induction probe as [|x probe IH]; intros k Hk; simpl in Hk.
  - rewrite drop_ge by lia. done.
  - destruct (lookup_lt_is_Some_2 r k ltac:(lia)) as [y Hy].
    rewrite (drop_S r y k Hy). cbn [compare_loop slice_cmp].
    rewrite node_word by lia. rewrite Hr, Hy. cbn [from_option id].
    destruct (y ?= x)%Z; [|done..]. apply IH. lia.
Qed.

Lemma compare_row n i probe :
  sized n → i < cap → length probe = w → compare s n i probe = slice_cmp (node_row n i) probe.
Proof.
  intros Hn Hi Hp. unfold compare.
  by rewrite (compare_loop_row n i 0 probe (node_row n i)) by (done || by apply length_node_row).
Qed.

Lemma store_key_row (g : nat → list Z → Z) n i :
  sized n → i < cap →
  (∀ k l, k < w → length l = length (n_keys n) → take (i * w) l = take (i * w) (n_keys n) →
    drop (i * w + w) l = drop (i * w + w) (n_keys n) → g k l = g k (n_keys n)) →
  for_each (λ at_ ks, store_at (i * w + at_) (g at_ ks) ks) (seq 0 w) (n_keys n)
  = Some (store_row w i ((λ k, g k (n_keys n)) <$> seq 0 w) (n_keys n)).
Proof.
  intros (Hk&_&_) Hi Hg. pose proof (slot_le w cap i Hi).
  pose proof (store_words g (i * w) (n_keys n) 0 w) as E. rewrite Nat.sub_0_r in E.
  rewrite E; [|lia|intros; apply Hg; [lia|done..]|lia]. unfold store_row. rewrite Nat.add_0_r.
  do 4 f_equal. simpl. lia.
Qed.

(** Writing a key to a slot leaves every other slot. *)
Definition writes (n : Node) (i : nat) (r : list Z) (n' : Node) : Prop :=
  ∃ ks, n' = set_keys ks n ∧ length ks = cap * w ∧ row w ks i = r
    ∧ ∀ j, j < cap → j ≠ i → row w ks j = node_row n j.

Lemma store_row_writes n i r :
  sized n → i < cap → length r = w → writes n i r (set_keys (store_row w i r (n_keys n)) n).
Proof.
  intros (Hk&_&_) Hi Hr. exists (store_row w i r (n_keys n)). split_and!; [done|..].
  - by apply length_store_row.
  - by apply row_store_eq with cap.
  - intros j Hj Hne. by apply row_store_ne with cap.
Qed.

Lemma rows_words (f : nat → Z) r : length r = w → (∀ k, k < w → f k = default 0%Z (r !! k)) → f <$> seq 0 w = r.
Proof.
  intros Hr Hf. apply list_eq_same_length with w; [done|by rewrite length_fmap, length_seq|].
  intros k x y Hk. rewrite list_lookup_fmap, (lookup_seq_lt 0 w k Hk).
  intros [= <-] Hy. rewrite Hf by done. by rewrite Hy.
Qed.

Lemma copy_key_writes from i n j :
  sized from → sized n → i < cap → j < cap →
  ∃ n', copy_key s from i n j = Some n' ∧ writes n j (node_row from i) n'.
Proof.
  intros Hf Hn Hi Hj. unfold copy_key. pose proof (length_node_row from i Hf Hi) as Hl.
  rewrite (store_key_row (λ k _, Node_word from (i * w + k)) n j) by done.
  rewrite (rows_words _ (node_row from i)) by (done || intros; by apply node_word).
  eexists. split; [done|]. by apply store_row_writes.
Qed.

Lemma move_key_writes i j n :
  sized n → i < cap → j < cap → i ≠ j →
  ∃ n', move_key s i j n = Some n' ∧ writes n j (node_row n i) n'.
Proof.
  intros Hn Hi Hj Hne. unfold move_key. pose proof (length_node_row n i Hn Hi) as Hl.
  pose proof Hn as (Hk&_&_).
  rewrite (store_key_row (λ k l, default 0%Z (l !! (i * w + k))) n j); [|done|done|].
  - rewrite (rows_words _ (node_row n i)); [|done|intros; by rewrite <-node_word].
    eexists. split; [done|]. by apply store_row_writes.
  - intros k l Hkw Hll Ht Hd. f_equal. destruct (decide (i < j)).
    + assert (i * w + k < j * w) by nia.
      rewrite <-(lookup_take_lt l (j * w)), <-(lookup_take_lt (n_keys n) (j * w)) by lia. by rewrite Ht.
    + assert (j * w + w ≤ i * w + k) by nia.
      replace (i * w + k) with ((j * w + w) + (i * w + k - (j * w + w))) by lia.
      rewrite <-!lookup_drop. by rewrite Hd.
Qed.

Lemma set_key_writes n i key :
  sized n → i < cap → length key = w →
  ∃ n', set_key s n i key = Some n' ∧ writes n i key n'.
Proof.
  intros Hn Hi Hl. unfold set_key. rewrite Hl.
  rewrite (store_key_row (λ k _, default 0%Z (key !! k)) n i) by done.
  rewrite (rows_words _ key) by done.
  eexists. split; [done|]. by apply store_row_writes.
Qed.

Lemma set_value_some n i v :
  i < length (n_values n) → Node_set_value n i v = Some (set_values (<[i := v]> (n_values n)) n).
Proof.
  intros Hi. unfold Node_set_value, store_at. by destruct (Nat.ltb_spec i (length (n_values n))); [|lia].
Qed.

Lemma writes_sized n i r n' : sized n → writes n i r n' → sized n'.
Proof. intros (?&?&?) (ks&->&?&_). done. Qed.

Lemma set_values_sized n vs : sized n → length vs = length (n_values n) → sized (set_values vs n).
Proof. intros (?&?&?) ?. split_and!; simpl; [done|congruence|done]. Qed.

(** ** Moving slots *)

Definition upd (ks vs : list Z) (n : Node) : Node := set_values vs (set_keys ks n).

Lemma upd_sized n ks vs :
  sized n → length ks = cap * w → length vs = length (n_values n) → sized (upd ks vs n).
Proof. intros (?&?&?) ? ?. split_and!; simpl; [done|congruence|done]. Qed.

Lemma move_slot i j iv jv n :
  sized n → i < cap → j < cap → i ≠ j → iv < length (n_values n) → jv < length (n_values n) →
  ∃ ks v, (n1 ← move_key s i j n; Node_set_value n1 jv (Node_value n1 iv))
          = Some (upd ks (<[jv := v]> (n_values n)) n)
    ∧ n_values n !! iv = Some v ∧ length ks = cap * w ∧ row w ks j = node_row n i
    ∧ ∀ l, l < cap → l ≠ j → row w ks l = node_row n l.
Proof.
  intros Hn Hi Hj Hne Hiv Hjv.
  destruct (move_key_writes i j n Hn Hi Hj Hne) as (n1&->&ks&->&Hl&Hr&Ho).
  destruct (lookup_lt_is_Some_2 (n_values n) iv Hiv) as [v Hv].
  exists ks, v. rewrite some_bind, set_value_some by done. split_and!; try done.
  unfold Node_value. simpl. by rewrite Hv.
Qed.

Lemma shift_right o a k n :
  sized n → a + k < cap → a + k + o < length (n_values n) →
  ∃ ks vs,
    for_each (λ slot n, n ← move_key s slot (slot + 1) n;
                        Node_set_value n (slot + 1 + o) (Node_value n (slot + o)))
      (reverse (seq a k)) n = Some (upd ks vs n)
    ∧ length ks = cap * w ∧ length vs = length (n_values n)
    ∧ (∀ j, j < cap →
        row w ks j = node_row n (if decide (a < j ≤ a + k) then j - 1 else j))
    ∧ (∀ j, vs !! j = n_values n !! (if decide (a + o < j ≤ a + k + o) then j - 1 else j)).
Proof.
  revert n. induction k as [|k IH]; intros n Hn Ha Hv.
  { exists (n_keys n), (n_values n). split_and!; try done; [by destruct n|by destruct Hn|..];
      intros; rewrite decide_False by lia; done. }
  rewrite seq_S, reverse_snoc. cbn [for_each].
  destruct (move_slot (a + k) (a + k + 1) (a + k + o) (a + k + 1 + o) n)
    as (ks1&v&->&Hv1&Hl1&Hr1&Ho1); [done|lia..|]. rewrite some_bind.
  destruct (IH (upd ks1 (<[a + k + 1 + o:=v]> (n_values n)) n)) as (ks&vs&->&Hl&Hlv&Hr&Hvs).
  { by apply upd_sized; [..|apply length_insert]. }
  { lia. }
  { simpl. rewrite length_insert. lia. }
  simpl in Hlv, Hvs. rewrite length_insert in Hlv.
  exists ks, vs. split_and!; try done.
  - intros j Hj. rewrite Hr by done. unfold node_row. simpl.
    destruct (decide (a < j ≤ a + k)).
    + rewrite decide_True by lia. apply Ho1; lia.
    + destruct (decide (j = a + k + 1)) as [->|].
      * rewrite decide_True by lia. rewrite Hr1. unfold node_row. f_equal. lia.
      * rewrite decide_False by lia. by apply Ho1.
  - intros j. rewrite Hvs. destruct (decide (a + o < j ≤ a + k + o)).
    + rewrite decide_True by lia. by rewrite list_lookup_insert_ne by lia.
    + destruct (decide (j = a + k + 1 + o)) as [->|].
      * rewrite decide_True by lia. rewrite list_lookup_insert_eq by lia.
        rewrite <-Hv1. f_equal. lia.
      * rewrite decide_False by lia. by rewrite list_lookup_insert_ne by lia.
Qed.

Lemma shift_left a k n :
  sized n → a + k < cap → a + k < length (n_values n) →
  ∃ ks vs,
    for_each (λ slot n, n ← move_key s slot (slot - 1) n;
                        Node_set_value n (slot - 1) (Node_value n slot))
      (seq (a + 1) k) n = Some (upd ks vs n)
    ∧ length ks = cap * w ∧ length vs = length (n_values n)
    ∧ (∀ j, j < cap → row w ks j = node_row n (if decide (a ≤ j < a + k) then j + 1 else j))
    ∧ (∀ j, vs !! j = n_values n !! (if decide (a ≤ j < a + k) then j + 1 else j)).
Proof.
  revert a n. induction k as [|k IH]; intros a n Hn Ha Hv.
  { exists (n_keys n), (n_values n). split_and!; try done; [by destruct n|by destruct Hn|..];
      intros; rewrite decide_False by lia; done. }
  cbn [seq for_each].
  destruct (move_slot (a + 1) (a + 1 - 1) (a + 1) (a + 1 - 1) n)
    as (ks1&v&->&Hv1&Hl1&Hr1&Ho1); [done|lia..|]. rewrite some_bind.
  replace (a + 1 - 1) with a in * by lia.
  replace (S (a + 1)) with (S a + 1) by lia.
  destruct (IH (S a) (upd ks1 (<[a:=v]> (n_values n)) n)) as (ks&vs&->&Hl&Hlv&Hr&Hvs).
  { by apply upd_sized; [..|apply length_insert]. }
  { lia. }
  { simpl. rewrite length_insert. lia. }
  simpl in Hlv, Hvs. rewrite length_insert in Hlv.
  exists ks, vs. split_and!; try done.
  - intros j Hj. rewrite Hr by done. unfold node_row. simpl.
    destruct (decide (S a ≤ j < S (a + k))).
    + rewrite decide_True by lia. apply Ho1; lia.
    + destruct (decide (j = a)) as [->|].
      * rewrite decide_True by lia. by rewrite Hr1.
      * rewrite decide_False by lia. by apply Ho1.
  - intros j. rewrite Hvs. destruct (decide (S a ≤ j < S (a + k))).
    + rewrite decide_True by lia. by rewrite list_lookup_insert_ne by lia.
    + destruct (decide (j = a)) as [->|].
      * rewrite decide_True by lia. by rewrite list_lookup_insert_eq by lia.
      * rewrite decide_False by lia. by rewrite list_lookup_insert_ne by lia.
Qed.

(** Copying the upper slots of a node to the front of another. [d] is the slot each goes to. *)
Lemma copy_rows from (d : nat → nat) m k n :
  sized from → sized n → m + k ≤ cap → (∀ j, j < k → d (m + j) = j) →
  ∃ ks,
    for_each (λ slot n, copy_key s from slot n (d slot)) (seq m k) n = Some (set_keys ks n)
    ∧ length ks = cap * w ∧ ∀ j, j < k → row w ks j = node_row from (m + j).
Proof.
  intros Hf Hn. induction k as [|k IH]; intros Hk Hd.
  { exists (n_keys n). split_and!; [by destruct n|by destruct Hn|lia]. }
  destruct IH as (ks&E&Hl&Hr); [lia|auto|]. rewrite seq_S, for_each_app, E. simpl.
  rewrite Hd by lia.
  destruct (copy_key_writes from (m + k) (set_keys ks n) k) as (n'&->&ks'&->&Hl'&Hr'&Ho');
    [done| |lia..|].
  { destruct Hn as (?&?&?). done. }
  exists ks'. split_and!; [done..|]. intros j Hj. destruct (decide (j = k)) as [->|]; [done|].
  rewrite Ho' by lia. apply Hr. lia.
Qed.

Lemma copy_values (g : nat → Z) (d : nat → nat) m k n :
  k ≤ length (n_values n) → (∀ j, j < k → d (m + j) = j) →
  ∃ vs,
    for_each (λ slot n, Node_set_value n (d slot) (g slot)) (seq m k) n = Some (set_values vs n)
    ∧ length vs = length (n_values n) ∧ ∀ j, j < k → vs !! j = Some (g (m + j)).
Proof.
  induction k as [|k IH]; intros Hk Hd.
  { exists (n_values n). split_and!; [by destruct n|done|lia]. }
  destruct IH as (vs&E&Hl&Hr); [lia|auto|]. rewrite seq_S, for_each_app, E. simpl.
  rewrite Hd by lia. rewrite set_value_some by (simpl; lia). simpl.
  exists (<[k := g (m + k)]> vs). split_and!; [done|by rewrite length_insert|].
  intros j Hj. destruct (decide (j = k)) as [->|].
  - by rewrite list_lookup_insert_eq by lia.
  - rewrite list_lookup_insert_ne by done. apply Hr. lia.
Qed.

Lemma copy_slots from (d : nat → nat) m k n :
  sized from → sized n → m + k ≤ cap → k ≤ length (n_values n) → (∀ j, j < k → d (m + j) = j) →
  ∃ ks vs,
    for_each (λ slot n, n ← copy_key s from slot n (d slot);
                        Node_set_value n (d slot) (Node_value from slot)) (seq m k) n
    = Some (upd ks vs n)
    ∧ length ks = cap * w ∧ length vs = length (n_values n)
    ∧ (∀ j, j < k → row w ks j = node_row from (m + j))
    ∧ (∀ j, j < k → vs !! j = Some (Node_value from (m + j))).
Proof.
  intros Hf Hn. induction k as [|k IH]; intros Hk Hv Hd.
  { exists (n_keys n), (n_values n). split_and!; [by destruct n|by destruct Hn|done|lia|lia]. }
  destruct IH as (ks&vs&E&Hl&Hlv&Hr&Hvs); [lia|lia|auto|]. rewrite seq_S, for_each_app, E. simpl.
  rewrite Hd by lia.
  destruct (copy_key_writes from (m + k) (upd ks vs n) k) as (n'&->&ks'&->&Hl'&Hr'&Ho');
    [done| |lia..|].
  { by apply upd_sized. }
  rewrite some_bind, set_value_some by (simpl; lia). simpl.
  exists ks', (<[k := Node_value from (m + k)]> vs).
  split_and!; [done..|by rewrite length_insert| |].
  - intros j Hj. destruct (decide (j = k)) as [->|]; [done|]. rewrite Ho' by lia. apply Hr. lia.
  - intros j Hj. destruct (decide (j = k)) as [->|].
    + by rewrite list_lookup_insert_eq by lia.
    + rewrite list_lookup_insert_ne by done. apply Hvs. lia.
Qed.

(** * What a node holds *)

(** A leaf holds the entries [es]; an inner node the separators [ks] between the children [cs]. *)
Record leaf_view (n : Node) (es : list (list Z * Z)) : Prop := {
  lv_sized : sized n;
  lv_leaf : n_leaf n = true;
  lv_count : n_count n = length es;
  lv_at : ∀ i e, es !! i = Some e → node_row n i = e.1 ∧ n_values n !! i = Some e.2 }.

Record inner_view (n : Node) (ks : list (list Z)) (cs : list Z) : Prop := {
  iv_sized : sized n;
  iv_inner : n_leaf n = false;
  iv_count : n_count n = length ks;
  iv_children : length cs = S (length ks);
  iv_row : ∀ i k, ks !! i = Some k → node_row n i = k;
  iv_value : ∀ i c, cs !! i = Some c → n_values n !! i = Some c }.

(** The keys of a node in order, strictly for no key is there twice. *)
Definition klt (a b : list Z) : Prop := slice_lt a b = true.

#[global] Instance klt_strict : StrictOrder klt.
Proof.
  split.
  - intros a. unfold complement, klt. by rewrite slice_lt_irrefl.
  - intros a b c. apply slice_lt_trans.
Qed.

Lemma klt_sle a b : klt a b ↔ ¬ sle b a.
Proof. apply slice_lt_sle. Qed.

Lemma sle_klt_trans a b c : sle a b → klt b c → klt a c.
Proof. rewrite !klt_sle. intros Hab Hbc Hca. apply Hbc. by etrans. Qed.

Lemma klt_sle_trans a b c : klt a b → sle b c → klt a c.
Proof. rewrite !klt_sle. intros Hab Hbc Hca. apply Hab. by etrans. Qed.

Lemma klt_weaken a b : klt a b → sle a b.
Proof. rewrite klt_sle. intros H. destruct (total sle a b); done. Qed.

Lemma search_loop_spec (p : nat → bool) lo hi fuel :
  hi - lo < fuel → lo ≤ hi → (∀ i j, i < j → j < hi → p j = true → p i = true) →
  let r := search_loop fuel p lo hi in
  lo ≤ r ≤ hi ∧ (∀ i, lo ≤ i < r → p i = true) ∧ (∀ i, r ≤ i < hi → p i = false).
Proof.
  revert lo hi. induction fuel as [|fuel IH]; intros lo hi Hf Hle Hm; [lia|].
  cbn [search_loop]. cbv zeta.
  destruct (Nat.ltb_spec lo hi) as [Hlt|]; [|split_and!; lia].
  pose proof (Nat.div_lt (hi - lo) 2 ltac:(lia) ltac:(lia)).
  assert (lo ≤ lo + (hi - lo) / 2 < hi) as Hmid by lia.
  generalize dependent (lo + (hi - lo) / 2). intros mid Hmid. cbv zeta in IH.
  destruct (p mid) eqn:Ep.
  - destruct (IH (S mid) hi) as (Hr&Hl&Hh); [lia|lia|done|]. split_and!; [lia..| |done].
    intros i Hi. destruct (decide (i ≤ mid)); [|apply Hl; lia].
    destruct (decide (i = mid)) as [->|]; [done|]. by apply (Hm i mid); [lia|lia|].
  - destruct (IH lo mid) as (Hr&Hl&Hh); [lia|lia|intros i j ? ?; apply Hm; lia|].
    split_and!; [lia..|done|]. intros i Hi. destruct (decide (i < mid)); [apply Hh; lia|].
    destruct (p i) eqn:Epi; [|done]. destruct (decide (i = mid)) as [->|]; [congruence|].
    rewrite (Hm mid i) in Ep; [done|lia..|done].
Qed.

Lemma sorted_lookup (l : list (list Z)) i j a b :
  StronglySorted klt l → l !! i = Some a → l !! j = Some b → i < j → klt a b.
Proof.
  intros Hs. revert i j. induction Hs as [|x l Hs IH Hx]; intros i j; [done|].
  destruct i as [|i], j as [|j]; simpl; intros Hi Hj Hij; try lia.
  - simplify_eq. eapply Forall_lookup_1; [exact Hx|done].
  - eapply IH; [done..|lia].
Qed.

(** A search among sorted keys splits them. *)
Lemma search_split n (keys : list (list Z)) probe (q : comparison → bool) :
  sized n → length keys ≤ cap → length probe = w → StronglySorted klt keys →
  (∀ i k, keys !! i = Some k → node_row n i = k) →
  (∀ a b, klt a b → q (slice_cmp b probe) = true → q (slice_cmp a probe) = true) →
  ∃ l1 l2, keys = l1 ++ l2
    ∧ search_loop (S (length keys)) (λ m, q (compare s n m probe)) 0 (length keys) = length l1
    ∧ Forall (λ k, q (slice_cmp k probe) = true) l1 ∧ Forall (λ k, q (slice_cmp k probe) = false) l2.
Proof.
  intros Hn Hl Hp Hs Hrow Hq.
  assert (∀ i k, keys !! i = Some k → compare s n i probe = slice_cmp k probe) as Hc.
  { intros i k Hk. rewrite compare_row; [by rewrite (Hrow i k)|done| |done].
    apply lookup_lt_Some in Hk. lia. }
  edestruct (search_loop_spec (λ m, q (compare s n m probe)) 0 (length keys) (S (length keys)))
    as (Hr&Hlo&Hhi); [lia..| |].
  { intros i j Hij Hj. destruct (lookup_lt_is_Some_2 keys i ltac:(lia)) as [a Ha].
    destruct (lookup_lt_is_Some_2 keys j Hj) as [b Hb]. rewrite (Hc i a Ha), (Hc j b Hb).
    apply Hq. by eapply sorted_lookup. }
  set (r := search_loop _ _ _ _) in *. exists (take r keys), (drop r keys).
  split_and!; [by rewrite take_drop|rewrite length_take; lia|..].
  - apply Forall_lookup. intros i k Hk. apply lookup_take_Some in Hk as [Hk Hi].
    rewrite <-(Hc i k Hk). apply Hlo. lia.
  - apply Forall_lookup. intros i k Hk. rewrite lookup_drop in Hk.
    rewrite <-(Hc _ k Hk). apply Hhi. apply lookup_lt_Some in Hk. lia.
Qed.

Lemma lower_bound_split n keys probe :
  sized n → length keys ≤ cap → length probe = w → StronglySorted klt keys →
  (∀ i k, keys !! i = Some k → node_row n i = k) →
  ∃ l1 l2, keys = l1 ++ l2 ∧ lower_bound s n (length keys) probe = length l1
    ∧ Forall (λ k, klt k probe) l1 ∧ Forall (λ k, sle probe k) l2.
Proof.
  intros. destruct (search_split n keys probe (λ c, match c with Lt => true | _ => false end))
    as (l1&l2&?&?&Hl1&Hl2); [done..| |].
  - intros a b Hab Hb. by eapply (slice_lt_trans a b probe).
  - exists l1, l2. split_and!; try done. eapply Forall_impl; [exact Hl2|]. intros k Hk.
    unfold sle. rewrite slice_le_lt. unfold slice_lt. by rewrite Hk.
Qed.

Lemma child_at_split n keys probe :
  sized n → length keys ≤ cap → length probe = w → StronglySorted klt keys →
  (∀ i k, keys !! i = Some k → node_row n i = k) →
  ∃ l1 l2, keys = l1 ++ l2 ∧ child_at s n (length keys) probe = length l1
    ∧ Forall (λ k, sle k probe) l1 ∧ Forall (λ k, klt probe k) l2.
Proof.
  intros. destruct (search_split n keys probe (λ c, match c with Gt => false | _ => true end))
    as (l1&l2&?&?&Hl1&Hl2); [done..| |].
  - intros a b Hab Hb. assert (sle a probe); [|done]. apply klt_weaken in Hab.
    assert (sle b probe) by done. by etrans.
  - exists l1, l2. split_and!; try done. eapply Forall_impl; [exact Hl2|]. intros k Hk.
    apply klt_sle. unfold sle, slice_le. simpl in Hk. by destruct (slice_cmp k probe).
Qed.

(** ** Entries in order *)

Implicit Types es : list (list Z * Z).

Definition in_order (es : list (list Z * Z)) : Prop := StronglySorted klt es.*1.

(** The entry for [k] set to [v]: put where the order has it, or in place of the one there. *)
Fixpoint ins (k : list Z) (v : Z) (es : list (list Z * Z)) : list (list Z * Z) :=
  match es with
  | [] => [(k, v)]
  | e :: es' =>
      match slice_cmp e.1 k with
      | Lt => e :: ins k v es'
      | Eq => (k, v) :: es'
      | Gt => (k, v) :: e :: es'
      end
  end.

Definition del (k : list Z) (es : list (list Z * Z)) : list (list Z * Z) := filter (λ e, e.1 ≠ k) es.

Definition has (k : list Z) (es : list (list Z * Z)) : bool := bool_decide (k ∈ es.*1).

Lemma ins_below k v es1 es2 : Forall (λ e, klt e.1 k) es1 → ins k v (es1 ++ es2) = es1 ++ ins k v es2.
Proof.
  induction 1 as [|e es1 He _ IH]; [done|]. simpl. unfold klt, slice_lt in He.
  destruct (slice_cmp e.1 k); [done| |done]. by rewrite IH.
Qed.

Lemma ins_new k v es : Forall (λ e, klt k e.1) es → ins k v es = (k, v) :: es.
Proof.
  destruct 1 as [|e es He _]; [done|]. simpl. unfold klt, slice_lt in He.
  rewrite slice_cmp_antisym in He. by destruct (slice_cmp e.1 k).
Qed.

Lemma ins_here k v v' es : ins k v ((k, v') :: es) = (k, v) :: es.
Proof. simpl. by rewrite (proj2 (slice_cmp_Eq k k) eq_refl). Qed.

Lemma klt_ne a b : klt a b → a ≠ b.
Proof. intros H ->. by apply irreflexivity in H; [|apply _]. Qed.

Lemma del_below k es : Forall (λ e, klt e.1 k) es → del k es = es.
Proof. intros H. apply list_filter_all. eapply Forall_impl; [exact H|]. intros e. apply klt_ne. Qed.

Lemma del_above k es : Forall (λ e, klt k e.1) es → del k es = es.
Proof.
  intros H. apply list_filter_all. eapply Forall_impl; [exact H|].
  intros e He Heq. by apply klt_ne in He.
Qed.

Lemma del_app k es es' : del k (es ++ es') = del k es ++ del k es'.
Proof. apply filter_app. Qed.

Lemma del_here k v es : del k ((k, v) :: es) = del k es.
Proof. unfold del. by rewrite filter_cons_False by naive_solver. Qed.

Lemma has_app k es es' : has k (es ++ es') = has k es || has k es'.
Proof. unfold has. rewrite fmap_app. case_bool_decide as H; case_bool_decide; case_bool_decide;
  rewrite elem_of_app in H; naive_solver. Qed.

Lemma has_ne k es : Forall (λ e, e.1 ≠ k) es → has k es = false.
Proof.
  intros H. apply bool_decide_eq_false. rewrite list_elem_of_fmap. intros (e&->&He).
  by eapply Forall_forall in He; [|exact H].
Qed.

(** What a search in an ordered list of entries finds: the entry, or the gap it would go in. *)
Lemma in_order_app es es' :
  in_order (es ++ es') ↔ in_order es ∧ in_order es' ∧ ∀ e e', e ∈ es → e' ∈ es' → klt e.1 e'.1.
Proof.
  unfold in_order. rewrite fmap_app. induction es as [|e es IH]; simpl.
  { split; [|naive_solver]. intros. split_and!; [constructor|done|]. set_solver. }
  rewrite !StronglySorted_cons, IH, Forall_app, !Forall_fmap, !Forall_forall. simpl.
  split.
  - intros [[H1 H2] (H3&H4&H5)]. split_and!; try done. intros x y. rewrite elem_of_cons. naive_solver.
  - intros [[H1 H2] [H3 H4]]. split_and!; try done; intros; apply H4; set_solver.
Qed.

Lemma sorted_find k es1 es2 :
  in_order (es1 ++ es2) → Forall (λ e, klt e.1 k) es1 → Forall (λ e, sle k e.1) es2 →
  (∃ v es2', es2 = (k, v) :: es2' ∧ Forall (λ e, klt k e.1) es2') ∨ Forall (λ e, klt k e.1) es2.
Proof.
  intros Hs _ H2. apply in_order_app in Hs as (_&Hs&_).
  destruct es2 as [|[k' v] es2]; [by right|]. unfold in_order in Hs.
  rewrite fmap_cons, StronglySorted_cons, Forall_fmap in Hs. destruct Hs as [Hk' Hs].
  apply Forall_cons in H2 as [Hk H2]. simpl in *.
  destruct (decide (k' = k)) as [->|Hne].
  - left. eauto.
  - right. assert (klt k k').
    { apply klt_sle. intros H. apply Hne. by apply (anti_symm sle). }
    constructor; [done|]. eapply Forall_impl; [exact Hk'|]. intros e He. by etrans.
Qed.
End keys.
