(* ===== verification/L0Arena.v ===== *)
(** The arena of the in-memory tree as a growing array: the segment and slot an id is located at
    are its own, so a node read back by id is the node put there, and the ids given out are 0, 1, 2
    and on until they run out. *)

From S2P Require Import Prelude Bloom Run L0.
Local Open Scope Z_scope.

(** * Where an id is *)

Lemma locate_spec id :
  0 ≤ id → let '(segment, at_) := locate id in
  id + 2 ^ 6 = 2 ^ (Z.of_nat segment + 6) + Z.of_nat at_
  ∧ Z.of_nat at_ < 2 ^ (Z.of_nat segment + 6).
Proof.
  intros Hid. unfold locate, FIRST. rewrite !Z.shiftl_1_l.
  pose proof (Z.log2_spec (id + 2 ^ 6) ltac:(lia)) as [Hl Hu].
  pose proof (Z.log2_le_mono (2 ^ 6) (id + 2 ^ 6) ltac:(lia)) as H6.
  rewrite Z.log2_pow2 in H6 by lia. rewrite Z.pow_succ_r in Hu by lia.
  rewrite !Z2Nat.id by (rewrite ?Z.sub_add; lia). rewrite Z.sub_add. lia.
Qed.

Lemma locate_inj id id' : 0 ≤ id → 0 ≤ id' → locate id = locate id' → id = id'.
Proof.
  intros H H' E. pose proof (locate_spec id H) as Hs. pose proof (locate_spec id' H') as Hs'.
  rewrite E in Hs. destruct (locate id'). lia.
Qed.

Lemma locate_segment id : 0 ≤ id < 2 ^ 32 → ((locate id).1 < SEGMENTS)%nat.
Proof.
  intros Hid. pose proof (locate_spec id ltac:(lia)) as Hs. destruct (locate id) as [seg at_].
  destruct Hs as [E _]. unfold SEGMENTS. simpl. destruct (decide (32 ≤ seg)%nat); [|lia].
  pose proof (Z.pow_le_mono_r 2 38 (Z.of_nat seg + 6) ltac:(lia) ltac:(lia)). lia.
Qed.

#[global] Opaque locate.

(** * The array *)

(** Every segment made has its length, and the ids below [next] are the ones taken. *)
Record arena_ok (a : Arena) : Prop := {
  ao_segments : length (a_segments a) = SEGMENTS;
  ao_slots : ∀ seg slots, a_segments a !! seg = Some (Some slots) →
               length slots = (2 ^ (seg + Z.to_nat FIRST))%nat;
  ao_next : 0 ≤ a_next a < 2 ^ 32;
  ao_taken : ∀ id, 0 ≤ id < 2 ^ 32 → is_Some (Arena_get a id) ↔ id < a_next a }.

Lemma arena_new_ok : arena_ok Arena_new.
Proof.
  split; try done.
  - intros seg slots H. by apply lookup_replicate in H as [? _].
  - intros id Hid. split; [|simpl; lia]. unfold Arena_get. destruct (locate id) as [seg at_].
    intros [n H]. destruct (a_segments Arena_new !! seg) as [held|] eqn:E; [|done].
    apply lookup_replicate in E as [-> _]. done.
Qed.

Lemma get_put_eq a id n n0 :
  Arena_get a id = Some n0 → Arena_get (Arena_put a id n) id = Some n.
Proof.
  unfold Arena_get, Arena_put. destruct (locate id) as [seg at_].
  destruct (a_segments a !! seg) as [[slots|]|] eqn:E; simpl; [|done..].
  destruct (slots !! at_) as [slot|] eqn:E'; simpl; [|done]. intros _.
  rewrite list_lookup_insert_eq by (by eapply lookup_lt_Some). simpl.
  by rewrite list_lookup_insert_eq by (by eapply lookup_lt_Some).
Qed.

(** Writing to one place of the segments leaves every other place. *)
Lemma get_elsewhere a id id' next slots slot held :
  0 ≤ id → 0 ≤ id' → id ≠ id' →
  a_segments a !! (locate id).1 = Some held → held = Some slots ∨
    (held = None ∧ slots = replicate (2 ^ ((locate id).1 + Z.to_nat FIRST)) None) →
  Arena_get (mkArena next (<[(locate id).1 := Some (<[(locate id).2 := slot]> slots)]> (a_segments a))) id'
  = Arena_get a id'.
Proof.
  intros H0 H1 Hne Es Hslots. unfold Arena_get. simpl.
  assert (locate id ≠ locate id') as Hl by (intros E; apply locate_inj in E; done).
  destruct (locate id) as [seg at_], (locate id') as [seg' at']. simpl in *.
  destruct (decide (seg = seg')) as [<-|]; [|by rewrite list_lookup_insert_ne].
  rewrite list_lookup_insert_eq by (by eapply lookup_lt_Some). rewrite Es. simpl.
  assert (at_ ≠ at') by congruence. rewrite list_lookup_insert_ne by done.
  destruct Hslots as [->|[-> ->]]; [done|]. simpl.
  destruct (replicate _ _ !! at') as [x|] eqn:E; [|done]. by apply lookup_replicate in E as [-> _].
Qed.

Lemma get_put_ne a id id' n :
  0 ≤ id → 0 ≤ id' → id ≠ id' → Arena_get (Arena_put a id n) id' = Arena_get a id'.
Proof.
  intros H0 H1 Hne. pose proof (get_elsewhere a id id' (a_next a)) as H. unfold Arena_put.
  destruct (locate id) as [seg at_]. simpl in H.
  destruct (a_segments a !! seg) as [[slots|]|] eqn:E; [|done..]. eapply H; eauto.
Qed.

Lemma put_next a id n : a_next (Arena_put a id n) = a_next a.
Proof. unfold Arena_put. destruct (locate id). by destruct (a_segments a !! _) as [[]|]. Qed.

Lemma put_taken a id n id' :
  0 ≤ id → 0 ≤ id' → is_Some (Arena_get a id) →
  is_Some (Arena_get (Arena_put a id n) id') ↔ is_Some (Arena_get a id').
Proof.
  intros H0 H1 Hs. destruct (decide (id = id')) as [<-|].
  - destruct Hs as [n0 E]. rewrite (get_put_eq a id n n0 E), E. split; eauto.
  - by rewrite get_put_ne.
Qed.

Lemma put_ok a id n : 0 ≤ id → is_Some (Arena_get a id) → arena_ok a → arena_ok (Arena_put a id n).
Proof.
  intros Hid Hs [H1 H2 H3 H4]. split.
  - unfold Arena_put. destruct (locate id) as [seg at_].
    destruct (a_segments a !! seg) as [[slots|]|]; [|done..]. simpl. by rewrite length_insert.
  - intros seg slots. unfold Arena_put. destruct (locate id) as [seg' at_].
    destruct (a_segments a !! seg') as [[slots'|]|] eqn:E; [|eauto..]. simpl.
    intros [[-> [[= <-] _]]|[_ ?]]%list_lookup_insert_Some; [|eauto]. rewrite length_insert. eauto.
  - by rewrite put_next.
  - intros id' Hid'. rewrite put_taken, put_next by (done || lia). by apply H4.
Qed.

(** The slot the next id is at: in a segment made, or in one about to be, and free. *)
Lemma next_slot a :
  arena_ok a → a_next a < NONE →
  ∃ held, a_segments a !! (locate (a_next a)).1 = Some held
    ∧ let slots := default (replicate (2 ^ ((locate (a_next a)).1 + Z.to_nat FIRST)) None) held in
      length slots = (2 ^ ((locate (a_next a)).1 + Z.to_nat FIRST))%nat
      ∧ slots !! (locate (a_next a)).2 = Some None.
Proof.
  intros [H1 H2 H3 H4] Hnext. unfold NONE in Hnext.
  pose proof (locate_segment (a_next a) ltac:(lia)) as Hseg.
  pose proof (locate_spec (a_next a) ltac:(lia)) as Hloc.
  assert (Arena_get a (a_next a) = None) as Hfree.
  { apply eq_None_not_Some. rewrite H4 by lia. lia. }
  unfold Arena_get in Hfree. destruct (locate (a_next a)) as [seg at_]. simpl in *.
  destruct (lookup_lt_is_Some_2 (a_segments a) seg ltac:(lia)) as [held Eh].
  exists held. split; [done|]. rewrite Eh in Hfree. simpl in Hfree.
  assert (at_ < 2 ^ (seg + Z.to_nat FIRST))%nat as Hat.
  { apply Nat2Z.inj_lt. rewrite Nat2Z.inj_pow, Nat2Z.inj_add. apply Hloc. }
  destruct held as [slots|]; simpl in *.
  - split; [eauto|]. destruct (lookup_lt_is_Some_2 slots at_) as [x Ex]; [by rewrite (H2 seg slots Eh)|].
    rewrite Ex in *. by simpl in Hfree; subst.
  - split; [apply length_replicate|by apply lookup_replicate_2].
Qed.

Lemma add_ok a n :
  arena_ok a → a_next a < NONE →
  ∃ a', Arena_add a n = Some (Ok (a_next a), a') ∧ arena_ok a' ∧ a_next a' = a_next a + 1
    ∧ Arena_get a' (a_next a) = Some n
    ∧ ∀ id, 0 ≤ id → id ≠ a_next a → Arena_get a' id = Arena_get a id.
Proof.
  intros Ha Hnext. destruct (next_slot a Ha Hnext) as (held&Eh&Hlen&Hslot).
  destruct Ha as [H1 H2 H3 H4]. unfold NONE in Hnext.
  pose proof (λ id' next slots slot held, get_elsewhere a (a_next a) id' next slots slot held) as Helse.
  unfold Arena_add. cbn [a_next a_segments].
  destruct (Z.eqb_spec (a_next a) NONE); [unfold NONE in *; lia|].
  destruct (locate (a_next a)) as [seg at_] eqn:Eloc. simpl in Eh, Hlen, Hslot, Helse.
  rewrite Eh, some_bind. cbv beta zeta. set (slots := default _ held) in *.
  rewrite Hslot, some_bind. cbn [a_next a_segments]. rewrite list_insert_insert_eq.
  assert (wrap 32 (a_next a + 1) = a_next a + 1) as -> by (apply wrap_id; unfold fits; lia).
  eexists. split; [done|]. set (a' := mkArena _ _).
  assert (∀ id, 0 ≤ id → id ≠ a_next a → Arena_get a' id = Arena_get a id) as Hother.
  { intros id Hid Hne. apply (Helse id _ slots (Some n) held); try done; try lia.
    subst slots. destruct held; simpl; auto. }
  assert (Arena_get a' (a_next a) = Some n) as Hnew.
  { unfold Arena_get. rewrite Eloc. simpl.
    rewrite list_lookup_insert_eq by (by eapply lookup_lt_Some). simpl.
    by rewrite list_lookup_insert_eq by (by eapply lookup_lt_Some). }
  split_and!; try done. split.
  - simpl. by rewrite length_insert.
  - intros seg' slots'. simpl.
    intros [[-> [[= <-] _]]|[_ ?]]%list_lookup_insert_Some; [|eauto]. by rewrite length_insert.
  - simpl. lia.
  - intros id Hid. destruct (decide (id = a_next a)) as [->|Hne].
    + rewrite Hnew. simpl. split; [lia|eauto].
    + rewrite Hother by lia. rewrite H4 by lia. simpl. lia.
Qed.
