(* ===== verification/L0Leaf.v ===== *)
(** What the writes of the in-memory tree do to the entries of a leaf and to the separators and
    children of an inner node. *)

From S2P Require Import Prelude Bloom Run L0 L0Node.
Local Open Scope nat_scope.

Lemma lookup_mid_insert {A} (l1 l2 : list A) x i :
  (l1 ++ x :: l2) !! i =
    if decide (i = length l1) then Some x
    else (l1 ++ l2) !! (if decide (length l1 < i) then i - 1 else i).
Proof.
  destruct (decide (i = length l1)) as [->|Hne]; [by rewrite list_lookup_middle|].
  destruct (decide (length l1 < i)).
  - rewrite !lookup_app_r by lia. replace (i - length l1) with (S (i - 1 - length l1)) by lia. done.
  - by rewrite !lookup_app_l by lia.
Qed.

Lemma lookup_mid_delete {A} (l1 l2 : list A) x i :
  (l1 ++ l2) !! i = (l1 ++ x :: l2) !! (if decide (length l1 ≤ i) then i + 1 else i).
Proof.
  rewrite lookup_mid_insert. destruct (decide (length l1 ≤ i)).
  - rewrite decide_False by lia. rewrite decide_True by lia. f_equal. lia.
  - rewrite decide_False by lia. rewrite decide_False by lia. done.
Qed.

Section ops.
Context (s : L0).
Implicit Types (n p : Node) (es : list (list Z * Z)) (probe : list Z) (ts : Z).
Notation w := (l_words s).
Notation cap := (l_capacity s).

Lemma new_sized leaf : sized s (Node_new leaf cap w).
Proof.
  unfold sized, Node_new. simpl. rewrite !length_replicate. by destruct leaf; split_and!; try lia.
Qed.

Lemma new_leaf_view : leaf_view s (Node_new true cap w) [].
Proof. split; [apply new_sized|done..]. Qed.

Lemma leaf_rows n es i k : leaf_view s n es → es.*1 !! i = Some k → node_row s n i = k.
Proof.
  intros Hv. rewrite list_lookup_fmap. destruct (es !! i) as [e|] eqn:E; [|done]. intros [= <-].
  by apply (lv_at s n es Hv).
Qed.

Lemma leaf_length n es : leaf_view s n es → length es ≤ cap.
Proof. intros Hv. rewrite <-(lv_count s n es Hv). apply (lv_sized s n es Hv). Qed.

Lemma leaf_values n es : leaf_view s n es → length (n_values n) = cap.
Proof. intros Hv. pose proof (lv_sized s n es Hv) as (_&H&_). by rewrite (lv_leaf s n es Hv) in H. Qed.

(** Where a probe falls in a leaf: the entry it names, or the gap it would go in. *)
Lemma leaf_search n es probe :
  leaf_view s n es → in_order es → length probe = w →
  ∃ es1 es2, es = es1 ++ es2 ∧ lower_bound s n (length es) probe = length es1
    ∧ Forall (λ e, klt e.1 probe) es1
    ∧ ((∃ v es2', es2 = (probe, v) :: es2' ∧ Forall (λ e, klt probe e.1) es2')
       ∨ Forall (λ e, klt probe e.1) es2).
Proof.
  intros Hv Ho Hp. destruct (lower_bound_split s n es.*1 probe) as (l1&l2&E&Hlb&H1&H2).
  { apply (lv_sized s n es Hv). }
  { rewrite length_fmap. by eapply leaf_length. }
  { done. }
  { done. }
  { intros. by eapply leaf_rows. }
  apply fmap_app_inv in E as (es1&es2&->&->&->). rewrite !length_fmap in Hlb.
  rewrite !Forall_fmap in *. exists es1, es2. split_and!; try done.
  by eapply sorted_find.
Qed.

(** The test that ends the search. *)
Lemma leaf_found n es1 es2 probe :
  leaf_view s n (es1 ++ es2) → length probe = w →
  ((length es1 <? length (es1 ++ es2))
   && match compare s n (length es1) probe with Eq => true | _ => false end)%bool
  = match es2 with e :: _ => bool_decide (e.1 = probe) | [] => false end.
Proof.
  intros Hv Hp. pose proof (leaf_length n _ Hv) as Hl. destruct es2 as [|e es2].
  - rewrite app_nil_r. by rewrite (proj2 (Nat.ltb_ge _ _)).
  - rewrite length_app in *. simpl in *. rewrite (proj2 (Nat.ltb_lt _ _)) by lia. simpl.
    rewrite compare_row; [|apply (lv_sized s n _ Hv)|lia|done].
    rewrite (leaf_rows n (es1 ++ e :: es2) (length es1) e.1);
      [|done|by rewrite fmap_app, fmap_cons, list_lookup_middle by (by rewrite length_fmap)].
    case_bool_decide as H.
    + by rewrite (proj2 (slice_cmp_Eq _ _) H).
    + destruct (slice_cmp e.1 probe) eqn:E; [|done..]. by apply slice_cmp_Eq in E.
Qed.

Lemma leaf_set_value n es1 k v es2 ts :
  leaf_view s n (es1 ++ (k, v) :: es2) →
  ∃ n', Node_set_value n (length es1) ts = Some n'
    ∧ leaf_view s n' (es1 ++ (k, ts) :: es2) ∧ n_next n' = n_next n ∧ n_version n' = n_version n.
Proof.
  intros Hv. pose proof (leaf_length n _ Hv) as Hl. pose proof (leaf_values n _ Hv) as Hlv.
  rewrite length_app in Hl. simpl in Hl. rewrite set_value_some by lia.
  eexists. split_and!; [done| |done..]. destruct Hv as [Hs Hf Hc Ha]. split.
  - apply set_values_sized; [done|apply length_insert].
  - done.
  - simpl. rewrite Hc, !length_app. done.
  - intros i e. simpl. rewrite lookup_mid_insert. destruct (decide (i = length es1)) as [->|Hne].
    + intros [= <-]. rewrite list_lookup_insert_eq by lia. split; [|done].
      by destruct (Ha (length es1) (k, v)) as [? _]; [by rewrite list_lookup_middle|].
    + intros He. rewrite list_lookup_insert_ne by done. apply Ha.
      rewrite lookup_mid_insert. by rewrite decide_False by done.
Qed.

(** Opening a gap at the end of [es1] and filling it. *)
Lemma leaf_open_gap n es1 es2 probe ts :
  leaf_view s n (es1 ++ es2) → length (es1 ++ es2) < cap → length probe = w →
  ∃ n',
    (node ← for_each (λ slot n, n ← move_key s slot (slot + 1) n;
                                Node_set_value n (slot + 1) (Node_value n slot))
              (reverse (seq (length es1) (length (es1 ++ es2) - length es1))) n;
     node ← set_key s node (length es1) probe;
     Node_set_value node (length es1) ts) = Some n'
    ∧ leaf_view s (set_count (length (es1 ++ es2) + 1) n') (es1 ++ (probe, ts) :: es2)
    ∧ n_next n' = n_next n ∧ n_version n' = n_version n.
Proof.
  intros Hv Hcap Hp. pose proof (leaf_values n _ Hv) as Hlv.
  assert (length es1 ≤ length (es1 ++ es2)) by (rewrite length_app; lia).
  destruct Hv as [Hs Hf Hc Ha].
  destruct (shift_right s 0 (length es1) (length (es1 ++ es2) - length es1) n)
    as (ks&vs&E&Hlk&Hlvs&Hr&Hvs); [done|lia..|].
  rewrite (for_each_ext _ (λ slot n, n ← move_key s slot (slot + 1) n;
      Node_set_value n (slot + 1 + 0) (Node_value n (slot + 0)))); [|intros; by rewrite !Nat.add_0_r].
  rewrite E, some_bind.
  destruct (set_key_writes s (upd ks vs n) (length es1) probe) as (n1&->&ks'&->&Hlk'&Hr'&Ho');
    [by apply upd_sized|lia|done|].
  rewrite some_bind, set_value_some by (simpl; lia). eexists. split_and!; [done| |done..]. split.
  - split_and!; simpl; [done|rewrite length_insert, Hf; lia|lia].
  - done.
  - simpl. rewrite !length_app. simpl. lia.
  - intros i e. simpl. rewrite lookup_mid_insert. unfold node_row. simpl.
    destruct (decide (i = length es1)) as [->|Hne].
    + intros [= <-]. split; [done|]. by rewrite list_lookup_insert_eq by lia.
    + intros He. pose proof (lookup_lt_Some _ _ _ He). destruct (Ha _ _ He) as [He1 He2].
      rewrite list_lookup_insert_ne by done. rewrite Ho' by (destruct (decide _); lia).
      unfold node_row. simpl. rewrite Hr by (destruct (decide _); lia). rewrite Hvs.
      replace (if decide (length es1 < i ≤ length es1 + (length (es1 ++ es2) - length es1)) then i - 1 else i)
        with (if decide (length es1 < i) then i - 1 else i) by (repeat destruct (decide _); lia).
      rewrite !Nat.add_0_r.
      replace (if decide (length es1 < i ≤ length es1 + (length (es1 ++ es2) - length es1)) then i - 1 else i)
        with (if decide (length es1 < i) then i - 1 else i) by (repeat destruct (decide _); lia).
      done.
Qed.

Lemma leaf_close_gap n es1 e es2 :
  leaf_view s n (es1 ++ e :: es2) →
  ∃ n',
    for_each (λ slot n, n ← move_key s slot (slot - 1) n;
                        Node_set_value n (slot - 1) (Node_value n slot))
      (seq (length es1 + 1) (length (es1 ++ e :: es2) - (length es1 + 1))) n = Some n'
    ∧ leaf_view s (set_count (length (es1 ++ e :: es2) - 1) n') (es1 ++ es2)
    ∧ n_next n' = n_next n ∧ n_version n' = n_version n.
Proof.
  intros Hv. pose proof (leaf_length n _ Hv) as Hl. pose proof (leaf_values n _ Hv) as Hlv.
  destruct Hv as [Hs Hf Hc Ha]. rewrite length_app in *. simpl in *.
  destruct (shift_left s (length es1) (length es1 + S (length es2) - (length es1 + 1)) n)
    as (ks&vs&E&Hlk&Hlvs&Hr&Hvs); [done|lia..|].
  eexists. split_and!; [done| |done..]. split.
  - destruct Hs as (?&?&?). split_and!; simpl; [done|congruence|lia].
  - done.
  - simpl. rewrite length_app. lia.
  - intros i e' He. pose proof (lookup_lt_Some _ _ _ He) as Hi. rewrite length_app in Hi. simpl.
    rewrite (lookup_mid_delete es1 es2 e) in He. destruct (Ha _ _ He) as [He1 He2].
    unfold node_row. simpl. rewrite Hr, Hvs by lia.
    replace (if decide (length es1 ≤ i < length es1 + (length es1 + S (length es2) - (length es1 + 1)))
      then i + 1 else i) with (if decide (length es1 ≤ i) then i + 1 else i)
      by (repeat destruct (decide _); lia).
    done.
Qed.

Lemma ins_length k v es : length (ins k v es) ≤ S (length es).
Proof.
  induction es as [|e es IH]; [done|]. cbn [ins]. destruct (slice_cmp e.1 k); cbn [length]; lia.
Qed.

(** The entry set, and the count of entries moved only when it is new. *)
Lemma leaf_insert_view id n es probe ts :
  get s id = Some n → leaf_view s n es → in_order es → length es < cap → length probe = w →
  ∃ n', leaf_insert id probe ts s
        = Some (with_len (if has probe es then l_len s else wrap 64 (l_len s + 1)) (put id n' s))
    ∧ leaf_view s n' (ins probe ts es) ∧ n_next n' = n_next n ∧ n_version n' = n_version n.
Proof.
  intros Hget Hv Ho Hcap Hp. unfold leaf_insert. rewrite Hget, some_bind.
  assert (Node_count n cap = length es) as ->.
  { rewrite sized_count by apply (lv_sized s n es Hv). apply (lv_count s n es Hv). }
  destruct (leaf_search n es probe Hv Ho Hp) as (es1&es2&->&Hlb&H1&Hcase).
  cbv zeta. rewrite Hlb, leaf_found by done. rewrite ins_below, has_app by done.
  rewrite (has_ne probe es1), orb_false_l by (eapply Forall_impl; [exact H1|intros e; apply klt_ne]).
  destruct Hcase as [(v&es2'&->&H2)|H2].
  - cbn [fst]. rewrite bool_decide_eq_true_2 by done. rewrite ins_here.
    destruct (leaf_set_value n es1 probe v es2' ts Hv) as (n'&->&Hv'&Hn&Hver).
    rewrite some_bind. exists n'. split_and!; try done. unfold has.
    rewrite bool_decide_eq_true_2 by left. done.
  - rewrite ins_new by done. rewrite has_ne.
    2:{ eapply Forall_impl; [exact H2|]. intros e He Heq. by apply klt_ne in He. }
    replace (match es2 with [] => _ | _ => _ end) with false.
    2:{ destruct H2 as [|e es2 He _]; [done|]. rewrite bool_decide_eq_false_2; [done|].
        intros Heq. by apply klt_ne in He. }
    destruct (leaf_open_gap n es1 es2 probe ts Hv Hcap Hp) as (n'&E&Hv'&Hn&Hver).
    exists (set_count (length (es1 ++ es2) + 1) n'). split_and!; try done.
    revert E. destruct (for_each _ _ n) as [n1|]; [|done]. rewrite !some_bind.
    destruct (set_key s n1 _ _) as [n2|]; [|done]. rewrite !some_bind. by intros ->.
Qed.

(** ** Splits *)

Lemma take_leaf_view n es m rid :
  leaf_view s n es → m ≤ length es → leaf_view s (set_count m (set_next rid n)) (take m es).
Proof.
  intros Hv Hm. pose proof (leaf_length n es Hv). destruct Hv as [(?&?&?) Hf Hc Ha]. split.
  - split_and!; simpl; [done..|lia].
  - done.
  - simpl. rewrite length_take. lia.
  - intros i e [He _]%lookup_take_Some. by apply Ha.
Qed.

Lemma split_leaf_sibling n es m :
  leaf_view s n es → m ≤ length es →
  ∃ sib, for_each (λ slot sib, sib ← copy_key s n slot sib (slot - m);
                               Node_set_value sib (slot - m) (Node_value n slot))
           (seq m (length es - m)) (Node_new true cap w) = Some sib
    ∧ leaf_view s (set_next (n_next n) (set_count (length es - m) sib)) (drop m es)
    ∧ n_version sib = 0%Z.
Proof.
  intros Hv Hm. pose proof (leaf_length n es Hv) as Hl. destruct Hv as [Hs Hf Hc Ha].
  destruct (copy_slots s n (λ slot, slot - m) m (length es - m) (Node_new true cap w))
    as (ks&vs&->&Hlk&Hlv&Hr&Hvs); [done|apply new_sized|lia|..].
  { simpl. rewrite length_replicate. lia. }
  { intros. lia. }
  simpl in Hlv. rewrite length_replicate in Hlv. eexists. split_and!; [done| |done]. split.
  - split_and!; simpl; [done..|lia].
  - done.
  - simpl. by rewrite length_drop.
  - intros i e. rewrite lookup_drop. intros He. pose proof (lookup_lt_Some _ _ _ He).
    destruct (Ha _ _ He) as [He1 He2]. unfold node_row. simpl. rewrite Hr, Hvs by lia.
    split; [done|]. unfold Node_value. by rewrite He2.
Qed.

Lemma inner_length p ks cs : inner_view s p ks cs → length ks ≤ cap.
Proof. intros Hv. rewrite <-(iv_count s p ks cs Hv). apply (iv_sized s p ks cs Hv). Qed.

Lemma inner_values p ks cs : inner_view s p ks cs → length (n_values p) = S cap.
Proof.
  intros Hv. pose proof (iv_sized s p ks cs Hv) as (_&H&_). by rewrite (iv_inner s p ks cs Hv) in H.
Qed.

Lemma take_inner_view p ks cs m :
  inner_view s p ks cs → m ≤ length ks → inner_view s (set_count m p) (take m ks) (take (S m) cs).
Proof.
  intros Hv Hm. pose proof (inner_length p ks cs Hv). destruct Hv as [(?&?&?) Hf Hc Hcs Hr Hvs]. split.
  - split_and!; simpl; [done..|lia].
  - done.
  - simpl. rewrite length_take. lia.
  - rewrite !length_take. lia.
  - intros i k [Hk _]%lookup_take_Some. by apply Hr.
  - intros i c [Hk _]%lookup_take_Some. by apply Hvs.
Qed.

Lemma split_inner_sibling p ks cs m :
  inner_view s p ks cs → m < length ks →
  ∃ sib, (sib ← for_each (λ slot sib, copy_key s p slot sib (slot - m - 1))
                 (seq (m + 1) (length ks - (m + 1))) (Node_new false cap w);
          for_each (λ slot sib, Node_set_value sib (slot - m - 1) (Node_value p slot))
            (seq (m + 1) (length ks + 1 - (m + 1))) sib) = Some sib
    ∧ inner_view s (set_count (length ks - m - 1) sib) (drop (S m) ks) (drop (S m) cs)
    ∧ n_version sib = 0%Z.
Proof.
  intros Hv Hm. pose proof (inner_length p ks cs Hv) as Hl. destruct Hv as [Hs Hf Hc Hcs Hr Hvs].
  destruct (copy_rows s p (λ slot, slot - m - 1) (m + 1) (length ks - (m + 1)) (Node_new false cap w))
    as (nks&->&Hlk&Hr'); [done|apply new_sized|lia|intros; lia|].
  rewrite some_bind.
  destruct (copy_values (Node_value p) (λ slot, slot - m - 1) (m + 1) (length ks + 1 - (m + 1))
    (set_keys nks (Node_new false cap w))) as (vs&->&Hlv&Hvs').
  { simpl. rewrite length_replicate. lia. }
  { intros. lia. }
  simpl in Hlv. rewrite length_replicate in Hlv. eexists. split_and!; [done| |done]. split.
  - split_and!; simpl; [done..|lia].
  - done.
  - simpl. rewrite length_drop. lia.
  - rewrite !length_drop. lia.
  - intros i k. rewrite lookup_drop. intros Hk. pose proof (lookup_lt_Some _ _ _ Hk).
    unfold node_row. simpl. rewrite Hr' by lia. apply Hr. rewrite <-Hk. f_equal. lia.
  - intros i c. rewrite lookup_drop. intros Hk. pose proof (lookup_lt_Some _ _ _ Hk). simpl.
    rewrite Hvs' by lia. f_equal. unfold Node_value.
    rewrite (Hvs (m + 1 + i) c); [done|]. rewrite <-Hk. f_equal. lia.
Qed.

(** A new root over the two halves. *)
Lemma new_root_view sep left_ right_ :
  4 ≤ cap → length sep = w →
  ∃ root, (root ← set_key s (Node_new false cap w) 0 sep;
           root ← Node_set_value root 0 left_;
           Node_set_value root 1 right_) = Some root
    ∧ inner_view s (set_count 1 root) [sep] [left_; right_] ∧ n_version root = 0%Z.
Proof.
  intros Hcap Hsep.
  destruct (set_key_writes s (Node_new false cap w) 0 sep) as (n1&->&ks&->&Hl&Hr&_);
    [apply new_sized|lia|done|]. rewrite some_bind.
  rewrite set_value_some by (simpl; lia). rewrite some_bind.
  rewrite set_value_some by (simpl; rewrite length_replicate; lia).
  eexists. split_and!; [done| |done]. split; try done.
  - split_and!; [done| |simpl; lia]. simpl. by rewrite length_insert, length_replicate.
  - intros [|[|i]] k; [|done..]. by intros [= <-].
  - intros [|[|[|i]]] c Hc; simplify_eq/=; try done.
    rewrite list_lookup_insert_eq; [done|]. rewrite length_replicate. lia.
Qed.

(** A separator and the child after it put in a parent with room. *)
Lemma parent_open_gap p k1 k2 c1 c2 sep right_ :
  inner_view s p (k1 ++ k2) (c1 ++ c2) → length c1 = S (length k1) → length (k1 ++ k2) < cap →
  length sep = w →
  ∃ p',
    (p ← for_each (λ slot p, p ← move_key s slot (slot + 1) p;
                             Node_set_value p (slot + 2) (Node_value p (slot + 1)))
           (reverse (seq (length k1) (length (k1 ++ k2) - length k1))) p;
     p ← set_key s p (length k1) sep;
     Node_set_value p (length k1 + 1) right_) = Some p'
    ∧ inner_view s (set_count (length (k1 ++ k2) + 1) p') (k1 ++ sep :: k2) (c1 ++ right_ :: c2)
    ∧ n_version p' = n_version p.
Proof.
  intros Hv Hc1 Hcap Hsep. pose proof (inner_values p _ _ Hv) as Hlv.
  assert (length k1 ≤ length (k1 ++ k2)) by (rewrite length_app; lia).
  destruct Hv as [Hs Hf Hc Hcs Hr Hvs].
  destruct (shift_right s 1 (length k1) (length (k1 ++ k2) - length k1) p)
    as (ks&vs&E&Hlk&Hlvs&Hr1&Hvs1); [done|lia..|].
  rewrite (for_each_ext _ (λ slot p, p ← move_key s slot (slot + 1) p;
      Node_set_value p (slot + 1 + 1) (Node_value p (slot + 1))));
    [|intros; by rewrite <-Nat.add_assoc].
  rewrite E, some_bind.
  destruct (set_key_writes s (upd ks vs p) (length k1) sep) as (n1&->&ks'&->&Hlk'&Hr'&Ho');
    [by apply upd_sized|lia|done|].
  rewrite some_bind, set_value_some by (simpl; lia). eexists. split_and!; [done| |done]. split.
  - split_and!; simpl; [done|rewrite length_insert, Hf; lia|lia].
  - done.
  - simpl. rewrite !length_app. simpl. lia.
  - rewrite !length_app in *. simpl. lia.
  - intros i k. rewrite lookup_mid_insert. unfold node_row. simpl.
    destruct (decide (i = length k1)) as [->|Hne]; [by intros [= <-]|].
    intros Hk. pose proof (lookup_lt_Some _ _ _ Hk).
    rewrite Ho' by (destruct (decide _); lia). unfold node_row. simpl.
    rewrite Hr1 by (destruct (decide _); lia).
    replace (if decide (length k1 < i ≤ length k1 + (length (k1 ++ k2) - length k1)) then i - 1 else i)
      with (if decide (length k1 < i) then i - 1 else i) by (repeat destruct (decide _); lia).
    by apply Hr.
  - intros i c. rewrite lookup_mid_insert. simpl. rewrite Hc1.
    destruct (decide (i = S (length k1))) as [->|Hne].
    { intros [= <-]. rewrite <-(Nat.add_1_r (length k1)). by rewrite list_lookup_insert_eq by lia. }
    intros Hk. pose proof (lookup_lt_Some _ _ _ Hk).
    rewrite list_lookup_insert_ne by lia. rewrite Hvs1.
    replace (if decide (length k1 + 1 < i ≤ length k1 + (length (k1 ++ k2) - length k1) + 1) then i - 1 else i)
      with (if decide (S (length k1) < i) then i - 1 else i) by (repeat destruct (decide _); lia).
    by apply Hvs.
Qed.
End ops.
