(* ===== verification/L0Tree.v ===== *)
(** The invariant of the in-memory tree. The tree is seen level by level, from the root down to
    the leaves: a level is its nodes from left to right, each with the low end of the keys it may
    hold, and the nodes of a level are the children of the nodes of the level above in order. *)

From S2P Require Import Prelude Bloom Run RunRead L0 L0Node L0Leaf L0Arena.
Local Open Scope nat_scope.

(** A low end: none for the leftmost node of a level, or the separator before the node. *)
Definition low_le (lo : option (list Z)) (k : list Z) : Prop :=
  match lo with None => True | Some l => sle l k end.
Definition low_gt (lo : option (list Z)) (k : list Z) : Prop :=
  match lo with None => False | Some l => klt k l end.
Definition low_lt (a b : option (list Z)) : Prop :=
  match b with None => False | Some b => match a with None => True | Some a => klt a b end end.

Definition Spot : Type := option (list Z) * Z.
Definition Level : Type := list Spot.

Section tree.
Context (s : L0).
Notation w := (l_words s).
Notation cap := (l_capacity s).

(** The children of a node, each with its low end. *)
Definition kids_of (x : Spot) (ys : Level) : Prop :=
  ∃ n ks cs, get s x.2 = Some n ∧ inner_view s n ks cs
    ∧ Forall (λ k, length k = w) ks ∧ ys = zip (x.1 :: (Some <$> ks)) cs.

Definition linked (A B : Level) : Prop := ∃ yss, Forall2 kids_of A yss ∧ B = concat yss.

Fixpoint links (lvs : list Level) : Prop :=
  match lvs with
  | A :: ((B :: _) as rest) => linked A B ∧ links rest
  | _ => True
  end.

(** The right sibling of each leaf is the next of the level. *)
Fixpoint chained (A : Level) : Prop :=
  match A with
  | [] => True
  | x :: A' =>
      (∃ n, get s x.2 = Some n ∧ n_next n = match A' with [] => NONE | y :: _ => y.2 end)
      ∧ chained A'
  end.

Definition leaf_at (x : Spot) (es : list (list Z * Z)) : Prop :=
  ∃ n, get s x.2 = Some n ∧ leaf_view s n es.

(** The entries of a leaf are from its low end on and below every low end to its right. *)
Fixpoint fenced (A : Level) (ess : list (list (list Z * Z))) : Prop :=
  match A, ess with
  | [], [] => True
  | x :: A', es :: ess' =>
      Forall (λ e, low_le x.1 e.1 ∧ Forall (λ y : Spot, low_gt y.1 e.1) A') es ∧ fenced A' ess'
  | _, _ => False
  end.

Definition lows_sorted (A : Level) : Prop := StronglySorted low_lt A.*1.

(** [lvs] from the root down, the leaves last; [ess] the entries of each leaf. *)
Record Tree (lvs : list Level) (leaves : Level) (ess : list (list (list Z * Z))) : Prop := {
  t_arena : arena_ok (l_nodes s);
  t_cap : 4 ≤ cap;
  t_top : head (lvs ++ [leaves]) = Some [(None, l_root s)];
  t_links : links (lvs ++ [leaves]);
  t_sorted : Forall lows_sorted (lvs ++ [leaves]);
  t_ids : NoDup (concat (lvs ++ [leaves])).*2;
  t_range : Forall (λ x : Spot, 0 ≤ x.2 < a_next (l_nodes s))%Z (concat (lvs ++ [leaves]));
  t_quiet : Forall (λ x : Spot, ∃ n, get s x.2 = Some n ∧ Z.land (n_version n) 1 = 0%Z)
              (concat (lvs ++ [leaves]));
  t_leaves : Forall2 leaf_at leaves ess;
  t_chain : chained leaves;
  t_fenced : fenced leaves ess;
  t_order : in_order (concat ess);
  t_words : Forall (λ e, length e.1 = w) (concat ess);
  t_len : l_len s = wrap 64 (zlen (concat ess)) }.
End tree.

(** * Low ends *)

Lemma low_lt_le a b k : low_lt a b → low_le b k → low_le a k.
Proof.
  destruct a as [a|], b as [b|]; simpl; try done. intros Hab Hb. etrans; [by apply klt_weaken|done].
Qed.

Lemma low_gt_lt a b k : low_gt a k → low_lt a b → low_gt b k.
Proof. destruct a as [a|], b as [b|]; simpl; try done. intros Hka Hab. by etrans. Qed.

#[global] Instance low_le_dec lo k : Decision (low_le lo k).
Proof. destruct lo; simpl; apply _. Defined.

Lemma low_le_or_gt lo k : low_le lo k ∨ low_gt lo k.
Proof.
  destruct (decide (low_le lo k)) as [|H]; [by left|right]. destruct lo; simpl in *; [|done].
  by apply klt_sle.
Qed.

(** * Where a probe belongs *)

(** [x] is the node of the level that holds [probe]. *)
Definition owner (probe : list Z) (A : Level) (x : Spot) : Prop :=
  ∃ l r, A = l ++ x :: r ∧ low_le x.1 probe ∧ Forall (λ y : Spot, low_gt y.1 probe) r.

Lemma lows_after (l r : Level) (x : Spot) probe :
  lows_sorted (l ++ x :: r) → low_gt x.1 probe → Forall (λ y : Spot, low_gt y.1 probe) (x :: r).
Proof.
  unfold lows_sorted. rewrite fmap_app, fmap_cons. intros Hs Hx.
  apply StronglySorted_app_1_r in Hs. apply StronglySorted_cons in Hs as [Hr _].
  rewrite Forall_fmap in Hr. constructor; [done|]. eapply Forall_impl; [exact Hr|].
  intros y. simpl. by apply low_gt_lt.
Qed.

Lemma sorted_somes (ks : list (list Z)) : StronglySorted low_lt (Some <$> ks) → StronglySorted klt ks.
Proof.
  induction ks as [|k ks IH]; [constructor|]. rewrite fmap_cons, StronglySorted_cons.
  intros [Hk Hs]. constructor; [auto|]. by rewrite Forall_fmap in Hk.
Qed.

Section search.
Context (s : L0) (x : Spot) (n : Node) (ks : list (list Z)) (cs : list Z).
Context (Hv : inner_view s n ks cs) (Hw : Forall (λ k, length k = l_words s) ks).

(** The children of a node in sorted order have the separators in order. *)
Lemma kids_lows : (zip (x.1 :: (Some <$> ks)) cs).*1 = x.1 :: (Some <$> ks).
Proof.
  apply fst_zip. simpl. rewrite length_fmap. rewrite (iv_children s n ks cs Hv). lia.
Qed.

Lemma kids_ids : (zip (x.1 :: (Some <$> ks)) cs).*2 = cs.
Proof. apply snd_zip. simpl. rewrite length_fmap. rewrite (iv_children s n ks cs Hv). lia. Qed.

Lemma seps_sorted :
  lows_sorted (zip (x.1 :: (Some <$> ks)) cs) → StronglySorted klt ks.
Proof.
  unfold lows_sorted. rewrite kids_lows. intros [_ Hs]%StronglySorted_cons. by apply sorted_somes.
Qed.

Lemma child_of probe :
  lows_sorted (zip (x.1 :: (Some <$> ks)) cs) → low_le x.1 probe → length probe = l_words s →
  ∃ y l r, zip (x.1 :: (Some <$> ks)) cs = l ++ y :: r
    ∧ Node_value n (child_at s n (length ks) probe) = y.2
    ∧ low_le y.1 probe ∧ Forall (λ y : Spot, low_gt y.1 probe) r.
Proof.
  intros Hs Hlo Hp. pose proof kids_lows as Hlows. pose proof (iv_children s n ks cs Hv) as Hlen.
  destruct (child_at_split s n ks probe) as (l1&l2&E&Hc&H1&H2).
  { apply (iv_sized s n ks cs Hv). }
  { by eapply inner_length. }
  { done. }
  { by apply seps_sorted. }
  { apply (iv_row s n ks cs Hv). }
  assert (length l1 < length cs) as Hl by (rewrite Hlen, E, length_app; lia).
  destruct (lookup_lt_is_Some_2 cs (length l1) Hl) as [c Hc1].
  set (ys := zip (x.1 :: (Some <$> ks)) cs) in *.
  assert (ys.*1 !! length l1 = last (x.1 :: (Some <$> l1)) ∧ drop (S (length l1)) ys.*1 = Some <$> l2)
    as [Hlow Hdrop].
  { rewrite Hlows, E, fmap_app. split.
    - rewrite last_lookup, app_comm_cons, lookup_app_l; simpl; rewrite length_fmap; [done|lia].
    - simpl. rewrite drop_app_length'; [done|]. by rewrite length_fmap. }
  destruct (lookup_lt_is_Some_2 ys (length l1)) as [y Hy].
  { rewrite <-(length_fmap fst ys), Hlows, E. simpl. rewrite length_fmap, length_app. lia. }
  exists y, (take (length l1) ys), (drop (S (length l1)) ys). split_and!.
  - by rewrite take_drop_middle.
  - rewrite Hc. unfold Node_value. rewrite (iv_value s n ks cs Hv _ c Hc1).
    assert (ys.*2 !! length l1 = Some y.2) as E2 by (by rewrite list_lookup_fmap, Hy).
    subst ys. rewrite kids_ids in E2. simpl. congruence.
  - rewrite list_lookup_fmap, Hy in Hlow. simpl in Hlow.
    destruct l1 as [|k l1 _] using rev_ind; [by injection Hlow as ->|].
    rewrite fmap_app, app_comm_cons in Hlow. change (Some <$> [k]) with [Some k] in Hlow.
    rewrite last_snoc in Hlow. injection Hlow as ->.
    apply Forall_app in H1 as [_ H1]. by inversion H1.
  - rewrite <-fmap_drop in Hdrop.
    assert (Forall (λ lo, low_gt lo probe) (drop (S (length l1)) ys).*1) as Hf.
    { rewrite Hdrop, Forall_fmap. done. }
    by rewrite Forall_fmap in Hf.
Qed.
End search.

Section levels.
Context (s : L0).

Lemma kids_cons x ys : kids_of s x ys → ∃ y ys', ys = y :: ys' ∧ y.1 = x.1.
Proof.
  intros (n&ks&cs&_&Hv&_&->). pose proof (iv_children s n ks cs Hv).
  destruct cs as [|c cs]; [done|]. simpl. eauto.
Qed.

(** [y] of level [B] is the child of [x] of level [A] that holds [probe], where each is in its
    level written out. *)
Record child_link (probe : list Z) (A : Level) (x : Spot) (B : Level) (y : Spot)
    (al ar : Level) (yl yr : list Level) (kl kr : Level) : Prop := {
  cl_upper : A = al ++ x :: ar;
  cl_left : Forall2 (kids_of s) al yl;
  cl_kids : kids_of s x (kl ++ y :: kr);
  cl_right : Forall2 (kids_of s) ar yr;
  cl_lower : B = concat yl ++ (kl ++ y :: kr) ++ concat yr;
  cl_low : low_le y.1 probe;
  cl_above : Forall (λ z : Spot, low_gt z.1 probe) (kr ++ concat yr) }.

Definition linked_child (probe : list Z) (A : Level) (x : Spot) (B : Level) (y : Spot) : Prop :=
  ∃ al ar yl yr kl kr, child_link probe A x B y al ar yl yr kl kr.

(** Going down from the owner of a level to its owner in the next. *)
Lemma owner_down A B x n probe :
  linked s A B → lows_sorted B → get s x.2 = Some n → length probe = l_words s → owner probe A x →
  n_leaf n = false ∧ n_count n ≤ l_capacity s
  ∧ ∃ y, owner probe B y ∧ linked_child probe A x B y
    ∧ Node_value n (child_at s n (n_count n) probe) = y.2.
Proof.
  intros (yss&Hk&->) Hs Hn Hp (l&r&->&Hlo&Hr).
  apply Forall2_app_inv_l in Hk as (yl&yr0&Hl&Hk&->).
  apply Forall2_cons_inv_l in Hk as (ys&yr&(n'&ks&cs&Hn'&Hv&Hw&->)&Hr'&->).
  rewrite Hn in Hn'. injection Hn' as <-. rewrite concat_app, concat_cons in *.
  assert (Forall (λ y : Spot, low_gt y.1 probe) (concat yr)) as Hrest.
  { destruct Hr' as [|x' ys' r' yr' Hx' _]; [constructor|].
    destruct (kids_cons x' ys' Hx') as (y&ys''&->&Hy). apply Forall_cons in Hr as [Hx0 _].
    rewrite concat_cons, <-app_comm_cons in *. rewrite (app_assoc (concat yl)) in Hs.
    eapply lows_after; [exact Hs|]. by rewrite Hy. }
  assert (lows_sorted (zip (x.1 :: (Some <$> ks)) cs)) as Hsk.
  { unfold lows_sorted in *. rewrite !fmap_app in Hs.
    by apply StronglySorted_app_1_r, StronglySorted_app_1_l in Hs. }
  destruct (child_of s x n ks cs Hv probe) as (y&yl'&yr'&E&Hc&Hy&Hyr); [done..|].
  split_and!; [apply (iv_inner _ _ _ _ Hv)|rewrite (iv_count _ _ _ _ Hv); by eapply inner_length|].
  exists y. rewrite (iv_count _ _ _ _ Hv). split_and!; [| |done].
  - exists (concat yl ++ yl'), (yr' ++ concat yr). split_and!; [|done|by apply Forall_app].
    rewrite E. by rewrite <-!app_assoc.
  - exists l, r, yl, yr, yl', yr'. split; try done; [by exists n, ks, cs|by rewrite E|by apply Forall_app].
Qed.
End levels.

(** * Facts of a tree *)

Lemma links_app s up A down : links s (up ++ A :: down) ↔ links s (up ++ [A]) ∧ links s (A :: down).
Proof.
  induction up as [|B up IH]; [simpl; naive_solver|].
  destruct up as [|C up]; simpl in *; [naive_solver|]. rewrite IH. naive_solver.
Qed.

Lemma linked_nonempty s A B : linked s A B → A ≠ [] → B ≠ [].
Proof.
  intros (yss&Hk&->). destruct Hk as [|x ys A yss Hx _]; [done|]. intros _.
  destruct (kids_cons s x ys Hx) as (y&ys'&->&_). done.
Qed.

Lemma links_nonempty s A down : links s (A :: down) → A ≠ [] → Forall (λ B : Level, B ≠ []) (A :: down).
Proof.
  revert A. induction down as [|B down IH]; intros A Hl HA; [by constructor|].
  destruct Hl as [HAB Hl]. constructor; [done|]. apply IH; [done|]. by eapply linked_nonempty.
Qed.

Lemma nonempty_concat {A} (ls : list (list A)) :
  Forall (λ l, l ≠ []) ls → length ls ≤ length (concat ls).
Proof.
  induction 1 as [|l ls Hl _ IH]; [done|]. rewrite concat_cons, length_app, length_cons.
  destruct l; [done|]. simpl. lia.
Qed.

(** Distinct ids below a bound are at most as many. *)
Lemma ids_bound (l : list Z) (m : Z) :
  NoDup l → Forall (λ i, 0 ≤ i < m)%Z l → length l ≤ Z.to_nat m.
Proof.
  intros Hn Hf.
  assert (l ⊆+ seqZ 0 m) as Hsub.
  { apply NoDup_submseteq; [done|]. intros i Hi. apply elem_of_seqZ.
    eapply Forall_forall in Hf; [|done]. simpl in Hf. lia. }
  apply submseteq_length in Hsub. by rewrite length_seqZ in Hsub.
Qed.

Section facts.
Context (s : L0) (lvs : list Level) (leaves : Level) (ess : list (list (list Z * Z))).
Context (T : Tree s lvs leaves ess).

Lemma tree_depth : length (lvs ++ [leaves]) < depth s.
Proof.
  assert (length (lvs ++ [leaves]) ≤ length (concat (lvs ++ [leaves]))) as H1.
  { apply nonempty_concat. pose proof (t_links s _ _ _ T) as Hl. pose proof (t_top s _ _ _ T) as Ht.
    destruct (lvs ++ [leaves]) as [|A down]; [done|]. injection Ht as ->. by apply (links_nonempty s). }
  assert (length (concat (lvs ++ [leaves])).*2 ≤ Z.to_nat (a_next (l_nodes s))) as H2.
  { apply ids_bound; [apply T|]. rewrite Forall_fmap. apply T. }
  rewrite length_fmap in H2. unfold depth. apply Nat.lt_succ_r. by etrans.
Qed.

Lemma tree_spot A x :
  A ∈ lvs ++ [leaves] → x ∈ A →
  (0 ≤ x.2 < NONE)%Z ∧ ∃ n, get s x.2 = Some n ∧ Node_read n = Some (n_version n).
Proof.
  intros HA Hx. assert (x ∈ concat (lvs ++ [leaves])) as Hc.
  { by eapply elem_of_concat_2. }
  pose proof (t_range s _ _ _ T) as Hr. pose proof (t_quiet s _ _ _ T) as Hq.
  pose proof (ao_next _ (t_arena s _ _ _ T)) as Hn.
  rewrite Forall_forall in Hr, Hq. destruct (Hq x Hc) as (n&Hg&Hv). specialize (Hr x Hc). simpl in Hr.
  split; [unfold NONE; lia|]. exists n. split; [done|]. unfold Node_read. by rewrite Hv.
Qed.

Lemma tree_top : ∃ A down, lvs ++ [leaves] = A :: down ∧ A = [(None, l_root s)].
Proof.
  pose proof (t_top s _ _ _ T) as Ht. destruct (lvs ++ [leaves]) as [|A down]; [done|].
  exists A, down. by injection Ht as ->.
Qed.

Lemma tree_leaf x : x ∈ leaves → ∃ n es, get s x.2 = Some n ∧ leaf_view s n es ∧ es ∈ ess.
Proof.
  intros Hx. pose proof (t_leaves s _ _ _ T) as Hl. apply list_elem_of_lookup in Hx as [i Hi].
  destruct (Forall2_lookup_l _ _ _ _ _ Hl Hi) as (es&Hes&n&Hg&Hv).
  exists n, es. split_and!; try done. by eapply list_elem_of_lookup_2.
Qed.

(** Two spots of different levels, or of one, have different ids. *)
Lemma tree_ids_ne up A B down x y :
  lvs ++ [leaves] = up ++ A :: B :: down → x ∈ A → y ∈ B → x.2 ≠ y.2.
Proof.
  intros E Hx Hy Heq. pose proof (t_ids s _ _ _ T) as Hn. rewrite E in Hn.
  rewrite concat_app, !concat_cons, !fmap_app in Hn.
  apply NoDup_app in Hn as (_&_&Hn). apply NoDup_app in Hn as (_&Hn&_).
  apply (Hn x.2); [by apply list_elem_of_fmap_2|]. rewrite Heq.
  apply elem_of_app. left. by apply list_elem_of_fmap_2.
Qed.

Lemma owner_in probe A x : owner probe A x → x ∈ A.
Proof. intros (l&r&->&_). apply elem_of_app. right. left. Qed.
End facts.

(** * Finding the leaf at rest *)

Section down.
Context (s : L0) (lvs : list Level) (leaves : Level) (ess : list (list (list Z * Z))).
Context (T : Tree s lvs leaves ess).
Context (probe : list Z) (Hp : length probe = l_words s).

(** What is known on the way down of the parent held: it is as it was read, and not the node. *)
Definition parent_ok (parent : option Held) (id : Z) : Prop :=
  match parent with Some p => check s p = true ∧ p.1 ≠ id ∧ (0 ≤ p.1)%Z | None => True end.

Lemma step_down up A B down x n :
  lvs ++ [leaves] = up ++ A :: B :: down → owner probe A x → get s x.2 = Some n →
  n_leaf n = false ∧ ∃ y n', owner probe B y ∧ linked_child s probe A x B y ∧ get s y.2 = Some n'
    ∧ Node_child n (child_at s n (Node_count n (l_capacity s)) probe) = y.2
    ∧ Node_read n' = Some (n_version n') ∧ parent_ok (Some (x.2, n_version n)) y.2.
Proof.
  intros E Ho Hg. pose proof (t_links s _ _ _ T) as Hl. rewrite E in Hl.
  apply links_app in Hl as [_ [HAB _]].
  pose proof (t_sorted s _ _ _ T) as Hs. rewrite E in Hs.
  apply Forall_app in Hs as [_ Hs]. apply Forall_cons in Hs as [_ Hs]. apply Forall_cons in Hs as [HsB _].
  destruct (owner_down s A B x n probe HAB HsB Hg Hp Ho) as (Hleaf&Hc&y&Hy&Hlink&Hval).
  split; [done|]. assert (A ∈ lvs ++ [leaves]) as HinA by (rewrite E; set_solver).
  assert (B ∈ lvs ++ [leaves]) as HinB by (rewrite E; set_solver).
  destruct (tree_spot s _ _ _ T B y HinB (owner_in _ _ _ Hy)) as (Hr&n'&Hg'&Hread).
  destruct (tree_spot s _ _ _ T A x HinA (owner_in _ _ _ Ho)) as (Hrx&_).
  exists y, n'. split_and!; try done.
  - unfold Node_child, Node_count. rewrite Nat.min_l by done. rewrite Hval.
    unfold NONE in Hr. by rewrite (proj2 (Z.ltb_lt _ _)) by lia.
  - split_and!; cbn [fst].
    + unfold check. cbn [fst snd]. rewrite Hg. apply Z.eqb_refl.
    + eapply tree_ids_ne; [done|done|by eapply owner_in..].
    + lia.
Qed.

Lemma leaf_for_loop_owner down up A x n parent t fuel :
  lvs ++ [leaves] = up ++ A :: down → owner probe A x → get s x.2 = Some n →
  parent_ok parent x.2 → length down < fuel →
  ∃ y n' parent' t',
    leaf_for_loop (λ _, s) fuel probe parent (x.2, n_version n) t
      = Some (Some ((y.2, n_version n'), parent'), t')
    ∧ owner probe leaves y ∧ get s y.2 = Some n' ∧ parent_ok parent' y.2.
Proof.
  revert up A x n parent t fuel.
  induction down as [|B down IH]; intros up A x n parent t [|fuel] E Ho Hg Hpar Hf; simpl in Hf; try lia.
  - apply app_inj_2 in E as [-> [= <-]]; [|done]. cbn [leaf_for_loop fst].
    rewrite Hg, some_bind.
    destruct (tree_leaf s _ _ _ T x (owner_in _ _ _ Ho)) as (n'&es&Hg'&Hv&_).
    rewrite Hg in Hg'. injection Hg' as <-. rewrite (lv_leaf _ _ _ Hv).
    eexists x, n, parent, t. done.
  - destruct (step_down up A B down x n E Ho Hg) as (Hleaf&y&n'&Hy&_&Hg'&Hchild&Hread&Hpok).
    cbn [leaf_for_loop]. cbn [fst]. rewrite Hg, some_bind, Hleaf. cbv zeta.
    rewrite (proj1 Hpok). cbn [negb]. rewrite Hchild, Hg', some_bind, Hread.
    apply (IH (up ++ [A]) B y n' _ _ fuel); try done; [|lia]. by rewrite E, <-app_assoc.
Qed.

Lemma top_owner : ∃ n, get s (l_root s) = Some n ∧ Node_read n = Some (n_version n)
  ∧ (0 ≤ l_root s)%Z ∧ owner probe [(None, l_root s)] (None, l_root s).
Proof.
  destruct (tree_top s _ _ _ T) as (A&down&E&EA).
  destruct (tree_spot s _ _ _ T A (None, l_root s)) as (Hr&n&Hg&Hread).
  { rewrite E. left. }
  { rewrite EA. left. }
  exists n. split_and!; [done|done|simpl in Hr; lia|]. by exists [], [].
Qed.

Lemma leaf_for_owner t :
  ∃ y n parent t',
    leaf_for (λ _, s) probe t = Some (Some ((y.2, n_version n), parent), t')
    ∧ owner probe leaves y ∧ get s y.2 = Some n ∧ parent_ok parent y.2.
Proof.
  destruct top_owner as (n&Hg&Hread&_&Ho). unfold leaf_for, top_at. cbv zeta.
  rewrite Hg, some_bind, Hread, Z.eqb_refl. destruct (tree_top s _ _ _ T) as (A&down&E&->).
  eapply (leaf_for_loop_owner down [] _ (None, l_root s)); [done|done|done|done|].
  pose proof (tree_depth s _ _ _ T) as Hd. rewrite E in Hd. simpl in Hd. lia.
Qed.
End down.

(** * Leaves *)

Lemma chained_next s (l : Level) (x : Spot) (r : Level) n :
  chained s (l ++ x :: r) → get s x.2 = Some n →
  n_next n = match r with [] => NONE | y :: _ => snd y end.
Proof.
  induction l as [|z l IH]; intros Hc Hg; [|apply IH; [by destruct Hc|done]].
  destruct Hc as [(n'&Hg'&Hn) _]. congruence.
Qed.

Lemma held_check s id n : get s id = Some n → check s (id, n_version n) = true.
Proof. intros Hg. unfold check. cbn [fst snd]. rewrite Hg. apply Z.eqb_refl. Qed.

Lemma fenced_split (l : Level) (x : Spot) (r : Level) ess0 :
  fenced (l ++ x :: r) ess0 →
  ∃ el es er, ess0 = el ++ es :: er ∧ length el = length l
    ∧ (∀ e, e ∈ concat el → low_gt x.1 e.1) ∧ (∀ e, e ∈ es → low_le x.1 e.1)
    ∧ (∀ e y, e ∈ es → y ∈ r → low_gt y.1 e.1) ∧ fenced r er.
Proof.
  revert ess0. induction l as [|z l IH]; intros [|es ess0]; try done.
  - intros [He Hfr]. exists [], es, ess0. rewrite Forall_forall in He. split_and!; try done.
    + intros e. simpl. set_solver.
    + intros e Hin. by apply He.
    + intros e y Hin Hy. destruct (He e Hin) as [_ Hr]. rewrite Forall_forall in Hr. by apply Hr.
  - intros [He Hf]. destruct (IH ess0 Hf) as (el&es'&er&->&Hl&H1&H2&H3&H4).
    exists (es :: el), es', er. split_and!; [done|simpl; lia| |done..].
    intros e. rewrite concat_cons, elem_of_app. intros [Hin|Hin]; [|by apply H1].
    rewrite Forall_forall in He. destruct (He e Hin) as [_ Hr]. rewrite Forall_forall in Hr.
    apply Hr. set_solver.
Qed.

Lemma fenced_low (B : Level) ess0 e : fenced B ess0 → e ∈ concat ess0 → ∃ y, y ∈ B ∧ low_le y.1 e.1.
Proof.
  revert ess0. induction B as [|y B IH]; intros [|es ess0]; try done; [set_solver|].
  intros [He Hf]. rewrite concat_cons, elem_of_app. intros [Hin|Hin].
  - rewrite Forall_forall in He. exists y. split; [left|]. by apply He.
  - destruct (IH ess0 Hf Hin) as (y'&?&?). exists y'. split; [by right|done].
Qed.
