(* ===== verification/L0Read.v ===== *)
(** Reading the in-memory tree at rest: a scan hands on the entries from a probe on, in order, each
    once, until the caller has had enough. *)

From S2P Require Import Prelude Bloom Run RunRead L0 L0Node L0Leaf L0Arena L0Tree.
Local Open Scope nat_scope.

(** * What a scan comes to *)

(** Calls [each] on entries until it answers false; whether it never did. *)
Fixpoint visit {A : Type} (each : list Z → Z → A → bool * A) (es : list (list Z * Z)) (a : A)
    : bool * A :=
  match es with
  | [] => (true, a)
  | e :: es => let '(more, a) := each e.1 e.2 a in if (more : bool) then visit each es a else (false, a)
  end.

Lemma visit_app {A} (each : list Z → Z → A → bool * A) es es' a :
  visit each (es ++ es') a
  = let '(more, a) := visit each es a in if (more : bool) then visit each es' a else (false, a).
Proof.
  revert a. induction es as [|e es IH]; intros a; [done|]. simpl.
  destruct (each e.1 e.2 a) as [[] a']; [apply IH|done].
Qed.

#[global] Instance klt_dec a b : Decision (klt a b).
Proof. unfold klt. apply _. Defined.

(** The entries a scan does not pass over for having handed them on before. *)
Definition pass (from : list Z) (after : bool) (es : list (list Z * Z)) : list (list Z * Z) :=
  if after then filter (λ e, klt from e.1) es else es.

Lemma pass_app from after es es' : pass from after (es ++ es') = pass from after es ++ pass from after es'.
Proof. destruct after; [apply filter_app|done]. Qed.

Lemma pass_all from after es : Forall (λ e, klt from e.1) es → pass from after es = es.
Proof. intros H. destruct after; [|done]. by apply list_filter_all. Qed.

(** The entries a scan from [from] is to hand on. *)
Definition reached (from : list Z) (after : bool) (k : list Z) : Prop :=
  if after then klt from k else sle from k.

#[global] Instance reached_dec from after k : Decision (reached from after k).
Proof. destruct after; simpl; apply _. Defined.

(** Handing on a batch in order: the rest of the leaves are then passed over as before. *)
Lemma each_of_visit {A} (each : list Z → Z → A → bool * A) batch rest from after a :
  in_order (batch ++ rest) →
  match visit each (pass from after batch) a with
  | (false, a') => each_of each batch from after a = inl a'
  | (true, a') => ∃ from' after', each_of each batch from after a = inr (from', after', a')
                  ∧ pass from' after' rest = pass from after rest
  end.
Proof.
  revert from after a. induction batch as [|[k v] batch IH]; intros from after a Ho.
  { destruct after; simpl; eauto. }
  assert (in_order (batch ++ rest) ∧ Forall (λ e, klt k e.1) (batch ++ rest)) as [Ho' Hk].
  { unfold in_order in *. rewrite <-app_comm_cons, fmap_cons, StronglySorted_cons, Forall_fmap in Ho.
    destruct Ho. done. }
  assert (pass from after ((k, v) :: batch) =
    if after && slice_le k from then pass from after batch else (k, v) :: pass from after batch) as ->.
  { destruct after; cbn [pass andb]; [|done]. rewrite slice_le_lt.
    destruct (slice_lt from k) eqn:E; cbn [negb].
    - by rewrite filter_cons_True.
    - rewrite filter_cons_False; [done|]. unfold klt. simpl. congruence. }
  cbn [each_of]. destruct (after && slice_le k from) eqn:Eskip; [by apply IH|].
  cbn [visit fst snd]. destruct (each k v a) as [[] a']; [|done].
  assert (klt from k ∨ after = false) as Hfk.
  { destruct after; [left|by right]. simpl in Eskip. apply klt_sle. unfold sle. congruence. }
  assert (∀ es, Forall (λ e, klt k e.1) es → pass from after es = pass k true es) as Hpass.
  { intros es Hes. rewrite (pass_all k true) by done. destruct Hfk as [Hfk| ->]; [|done].
    apply pass_all. eapply Forall_impl; [exact Hes|]. intros e He. by etrans. }
  apply Forall_app in Hk as [Hk1 Hk2]. rewrite !Hpass by done. by apply IH.
Qed.

Section scan.
Context (s : L0) (lvs : list Level) (leaves : Level) (ess : list (list (list Z * Z))).
Context (T : Tree s lvs leaves ess).
Context {A : Type} (each : list Z → Z → A → bool * A).
Implicit Types (x y : Spot) (l r : Level).

Lemma batch_view n es start :
  leaf_view s n es → batch_of s n start (Node_count n (l_capacity s)) = drop start es.
Proof.
  intros Hv. pose proof (leaf_length s n es Hv) as Hl. unfold batch_of.
  rewrite sized_count by apply (lv_sized _ _ _ Hv). rewrite (lv_count _ _ _ Hv).
  apply list_eq_same_length with (length es - start); [by rewrite length_drop|by rewrite length_fmap, length_seq|].
  intros i x y Hi. rewrite list_lookup_fmap, (lookup_seq_lt start _ i Hi), lookup_drop.
  intros [= <-] Hy. destruct (lv_at _ _ _ Hv _ _ Hy) as [Hr Hval].
  rewrite read_key_row; [|apply (lv_sized _ _ _ Hv)|lia]. rewrite Hr.
  unfold Node_value. rewrite Hval. by destruct y.
Qed.

(** Along the leaves from one that is held. *)
Lemma leaves_loop_visit l r x es er n first from after a t fuel batch :
  leaves = l ++ x :: r → Forall2 (leaf_at s) r er → get s x.2 = Some n → leaf_view s n es →
  batch = drop (if (first : bool) then lower_bound s n (length es) from else 0) es →
  in_order (batch ++ concat er) → length r < fuel →
  ∃ t', leaves_loop (λ _, s) fuel each (x.2, n_version n) first from after a t
        = Some (inl (visit each (pass from after (batch ++ concat er)) a).2, t').
Proof.
  revert l x es er n first from after a t batch fuel.
  induction r as [|y r IH]; intros l x es er n first from after a t batch [|fuel] El Hr Hg Hv Eb Ho Hf;
    simpl in Hf; try lia; cbn [leaves_loop fst]; rewrite Hg, some_bind; cbv zeta;
    rewrite (batch_view n es _ Hv), (sized_count s n (lv_sized _ _ _ Hv)), (lv_count _ _ _ Hv), <-Eb;
    rewrite (held_check s _ _ Hg); cbn [negb];
    pose proof (t_chain _ _ _ _ T) as Hc; rewrite El in Hc; rewrite (chained_next s _ _ _ _ Hc Hg).
  - inversion Hr; subst er. simpl in Ho |- *. rewrite app_nil_r in Ho |- *.
    pose proof (each_of_visit each batch [] from after a) as He. rewrite app_nil_r in He.
    specialize (He Ho). destruct (visit each (pass from after batch) a) as [[] a'].
    + destruct He as (from'&after'&->&_). eauto.
    + rewrite He. eauto.
  - apply Forall2_cons_inv_l in Hr as (es'&er'&(n'&Hg'&Hv')&Hr&->).
    destruct (tree_spot s _ _ _ T leaves y) as (Hrange&n''&Hg''&Hread);
      [set_solver|rewrite El; set_solver|].
    rewrite Hg' in Hg''. injection Hg'' as <-.
    pose proof (each_of_visit each batch (concat (es' :: er')) from after a Ho) as He.
    rewrite pass_app, visit_app.
    destruct (visit each (pass from after batch) a) as [[] a']; [|rewrite He; eauto].
    destruct He as (from'&after'&->&Hpass).
    rewrite (proj2 (Z.eqb_neq y.2 NONE)) by lia. rewrite Hg', some_bind, Hread, <-Hpass.
    rewrite concat_cons. apply in_order_app in Ho as (_&Ho&_). rewrite concat_cons in Ho.
    apply (IH (l ++ [x]) y es' er' n'); try done; [by rewrite El, <-app_assoc|lia].
Qed.

(** A scan at rest: the entries of the tree from [from] on, without [from] itself with [after]. *)
Lemma leaves_bound : length leaves < depth s.
Proof.
  assert (length (concat (lvs ++ [leaves])).*2 ≤ Z.to_nat (a_next (l_nodes s))) as H2.
  { apply ids_bound; [apply (t_ids _ _ _ _ T)|]. rewrite Forall_fmap. apply (t_range _ _ _ _ T). }
  rewrite length_fmap, concat_app, length_app in H2. cbn [concat] in H2. rewrite app_nil_r in H2.
  unfold depth. apply Nat.lt_succ_r. etrans; [|exact H2]. unfold Level in *. lia.
Qed.

(** The entries before the one found by a search are below the probe, and the others are not. *)
Lemma reached_split from after (es1 es2 : list (list Z * Z)) :
  Forall (λ e, klt e.1 from) es1 → Forall (λ e, sle from e.1) es2 →
  filter (λ e, reached from after e.1) (es1 ++ es2) = pass from after es2.
Proof.
  intros H1 H2. rewrite filter_app, list_filter_none; [simpl|].
  - destruct after; [done|]. by apply list_filter_all.
  - eapply Forall_impl; [exact H1|]. intros e He. unfold reached.
    destruct after; simpl; [|by apply klt_sle].
    intros H. apply klt_weaken in H. by apply klt_sle in He.
Qed.

(** The leaf that owns a probe cuts the entries of the tree in two. *)
Record cut_at (from : list Z) (x : Spot) (n : Node) (l r : Level)
    (el er : list (list (list Z * Z))) (es es1 es2 : list (list Z * Z)) : Prop := {
  ca_leaves : leaves = l ++ x :: r;
  ca_ess : ess = el ++ es :: er;
  ca_get : get s x.2 = Some n;
  ca_view : leaf_view s n es;
  ca_order : in_order es;
  ca_left : Forall2 (leaf_at s) l el;
  ca_right : Forall2 (leaf_at s) r er;
  ca_es : es = es1 ++ es2;
  ca_search : lower_bound s n (length es) from = length es1;
  ca_below : Forall (λ e, klt e.1 from) (concat el ++ es1);
  ca_from : Forall (λ e, sle from e.1) es2;
  ca_above : Forall (λ e, klt from e.1) (concat er);
  ca_low : low_le x.1 from ∧ Forall (λ y : Spot, low_gt y.1 from) r;
  ca_fence : ∀ e, e ∈ es → low_le x.1 e.1 ∧ Forall (λ y : Spot, low_gt y.1 e.1) r }.

Lemma owner_split from x :
  owner from leaves x → length from = l_words s →
  ∃ n l r el er es es1 es2, cut_at from x n l r el er es es1 es2.
Proof.
  intros (l&r&El&Hlo&Hr) Hw. pose proof (t_fenced _ _ _ _ T) as Hf. rewrite El in Hf.
  destruct (fenced_split l x r ess Hf) as (el&es&er&Ees&Hlen&H1&H2&H3&H4).
  pose proof (t_leaves _ _ _ _ T) as Hl. rewrite El, Ees in Hl.
  apply Forall2_app_inv in Hl as [Hl1 Hl2]; [|done].
  apply Forall2_cons in Hl2 as [(n&Hg&Hv) Hl2].
  pose proof (t_order _ _ _ _ T) as Ho. rewrite Ees, concat_app, concat_cons in Ho.
  apply in_order_app in Ho as (_&Ho&_). pose proof Ho as Ho'. apply in_order_app in Ho as (Hes&_&Hsr).
  destruct (leaf_search s n es from Hv Hes Hw) as (es1&es2&Eq&Hlb&Hb1&Hb2).
  assert (Forall (λ e, sle from e.1) es2) as Hge.
  { destruct Hb2 as [(v&es2'&->&Hb2)|Hb2].
    - constructor; [done|]. eapply Forall_impl; [exact Hb2|]. intros e. apply klt_weaken.
    - eapply Forall_impl; [exact Hb2|]. intros e. apply klt_weaken. }
  exists n, l, r, el, er, es, es1, es2. split; try done.
  - apply Forall_app. split; [|done]. apply Forall_forall. intros e He. specialize (H1 e He).
    destruct (x.1) as [k|]; [|done]. simpl in *. by eapply klt_sle_trans.
  - apply Forall_forall. intros e He. destruct (fenced_low r er e H4 He) as (y&Hy&Hle).
    rewrite Forall_forall in Hr. specialize (Hr y Hy). simpl in Hr.
    destruct (y.1) as [k|]; [|done]. simpl in *. by eapply klt_sle_trans.
  - intros e He. split; [by apply H2|]. apply Forall_forall. intros y Hy. by apply H3.
Qed.

Lemma scan_visit from after a t fuel :
  0 < fuel → length from = l_words s →
  scan (λ _, s) fuel from after each a t
  = Some (visit each (filter (λ e, reached from after e.1) (concat ess)) a).2.
Proof.
  intros Hf Hw. destruct fuel as [|fuel]; [lia|]. unfold scan. cbn [scan_loop].
  destruct (leaf_for_owner s _ _ _ T from Hw t) as (x&n&parent&t'&->&Ho&Hg&_). rewrite some_bind.
  destruct (owner_split from x Ho Hw)
    as (n'&l&r&el&er&es&es1&es2&[El Ees Hg' Hv _ _ Hr Eq Hlb H1 H2 H3 _ _]).
  rewrite Hg in Hg'. injection Hg' as <-.
  destruct (leaves_loop_visit l r x es er n true from after a t' (depth s) es2) as (t''&E); try done.
  - by rewrite Hlb, Eq, drop_app_length.
  - pose proof (t_order _ _ _ _ T) as Hord. rewrite Ees, concat_app, concat_cons, Eq in Hord.
    rewrite <-app_assoc in Hord. by apply in_order_app in Hord as (_&(_&?&_)%in_order_app&_).
  - pose proof leaves_bound as Hb. rewrite El, length_app in Hb. simpl in Hb. lia.
  - rewrite E, some_bind. do 3 f_equal. rewrite Ees, concat_app, concat_cons, Eq.
    rewrite <-app_assoc, app_assoc. rewrite reached_split; [done|done|].
    apply Forall_app. split; [done|]. eapply Forall_impl; [exact H3|]. intros e. apply klt_weaken.
Qed.
End scan.
