(* ===== verification/L0Write.v ===== *)
(** Writing to the in-memory tree keeps its invariant: what a leaf update and a split change of the
    levels, with the locks taken and given back on the way. *)

From S2P Require Import Prelude Bloom Run RunRead L0 L0Node L0Leaf L0Arena L0Tree L0Read.
Local Open Scope nat_scope.

(** * What stays *)

(** The trees agree on a node but for its version. *)
Definition keeps (s s' : L0) (id : Z) : Prop :=
  ∃ n v, get s id = Some n ∧ get s' id = Some (set_version v n).

Definition same_shape (s s' : L0) : Prop :=
  l_width s' = l_width s ∧ l_words s' = l_words s ∧ l_capacity s' = l_capacity s.

Section frame.
Context (s s' : L0) (Hsh : same_shape s s').

Lemma sized_shape n : sized s n → sized s' n.
Proof. destruct Hsh as (_&E1&E2). unfold sized. by rewrite E1, E2. Qed.

Lemma inner_shape n ks cs : inner_view s n ks cs → inner_view s' n ks cs.
Proof.
  intros [H1 H2 H3 H4 H5 H6]. split; try done; [by apply sized_shape|].
  intros i k. unfold node_row. destruct Hsh as (_&->&_). apply H5.
Qed.

Lemma leaf_shape n es : leaf_view s n es → leaf_view s' n es.
Proof.
  intros [H1 H2 H3 H4]. split; try done; [by apply sized_shape|].
  intros i k. unfold node_row. destruct Hsh as (_&->&_). apply H4.
Qed.

Lemma kids_keep x ys : keeps s s' x.2 → kids_of s x ys → kids_of s' x ys.
Proof.
  intros (n&v&Hg&Hg') (n'&ks&cs&Hn&Hv&Hw&->). rewrite Hg in Hn. injection Hn as <-.
  exists (set_version v n), ks, cs. split_and!; try done.
  - apply inner_shape. destruct Hv as [H1 H2 H3 H4 H5 H6]. by split.
  - by destruct Hsh as (_&->&_).
Qed.

Lemma kids_keep_all (A : Level) yss :
  Forall (λ x : Spot, keeps s s' x.2) A → Forall2 (kids_of s) A yss → Forall2 (kids_of s') A yss.
Proof.
  intros Hk. induction 1 as [|x ys A yss Hx _ IH]; [constructor|].
  apply Forall_cons in Hk as [Hx' Hk]. constructor; [by apply kids_keep|auto].
Qed.

Lemma linked_keep A B : Forall (λ x : Spot, keeps s s' x.2) A → linked s A B → linked s' A B.
Proof. intros Hk (yss&Hy&->). exists yss. split; [by apply kids_keep_all|done]. Qed.

Lemma links_keep (lvs : list Level) :
  Forall (λ x : Spot, keeps s s' x.2) (concat lvs) → links s lvs → links s' lvs.
Proof.
  induction lvs as [|A lvs IH]; [done|]. rewrite concat_cons, Forall_app. intros [HA Hk] Hl.
  destruct lvs as [|B lvs]; [done|]. destruct Hl as [HAB Hl]. split; [by apply linked_keep|auto].
Qed.

Lemma links_keep_above (lvs : list Level) A :
  Forall (λ x : Spot, keeps s s' x.2) (concat lvs) → links s (lvs ++ [A]) → links s' (lvs ++ [A]).
Proof.
  induction lvs as [|B lvs IH]; [done|]. rewrite concat_cons, Forall_app. intros [HB Hk] Hl.
  destruct lvs as [|C lvs]; destruct Hl as [HBC Hl]; (split; [by apply linked_keep|auto]).
Qed.

Lemma leaf_keep x es : keeps s s' x.2 → leaf_at s x es → leaf_at s' x es.
Proof.
  intros (n&v&Hg&Hg') (n'&Hn&Hv). rewrite Hg in Hn. injection Hn as <-.
  exists (set_version v n). split; [done|]. apply leaf_shape. destruct Hv as [H1 H2 H3 H4]. by split.
Qed.

Lemma leaves_keep (A : Level) ess :
  Forall (λ x : Spot, keeps s s' x.2) A → Forall2 (leaf_at s) A ess → Forall2 (leaf_at s') A ess.
Proof.
  intros Hk. induction 1 as [|x ys A yss Hx _ IH]; [constructor|].
  apply Forall_cons in Hk as [Hx' Hk]. constructor; [by apply leaf_keep|auto].
Qed.

(** A leaf whose data changes keeps its place in the chain as long as its sibling stays. *)
Definition same_next (id : Z) : Prop :=
  ∃ n n', get s id = Some n ∧ get s' id = Some n' ∧ n_next n' = n_next n.

Lemma keeps_next id : keeps s s' id → same_next id.
Proof. intros (n&v&?&?). by exists n, (set_version v n). Qed.

Lemma chained_keep (A : Level) :
  Forall (λ x : Spot, same_next x.2) A → chained s A → chained s' A.
Proof.
  induction A as [|x A IH]; [done|]. intros [(n&n'&Hg&Hg'&Hn) Hk]%Forall_cons [(n0&Hg0&Hn0) Hc].
  split; [|auto]. exists n'. split; [done|]. rewrite Hg in Hg0. by injection Hg0 as <-; rewrite Hn.
Qed.
End frame.

Lemma same_shape_trans s1 s2 s3 : same_shape s1 s2 → same_shape s2 s3 → same_shape s1 s3.
Proof. intros (?&?&?) (?&?&?). split_and!; congruence. Qed.

(** * Reading back a write *)

Lemma get_put s id n n0 : get s id = Some n0 → get (put id n s) id = Some n.
Proof. apply get_put_eq. Qed.

Lemma get_put_other s id id' n :
  (0 ≤ id)%Z → (0 ≤ id')%Z → id ≠ id' → get (put id n s) id' = get s id'.
Proof. apply get_put_ne. Qed.

Lemma even_unlocked v : Z.land v 1 = 0%Z → Z.land (wrap 64 (v + 1 + 1)) 1 = 0%Z.
Proof.
  change 1%Z with (Z.ones 1). rewrite !Z.land_ones by lia. unfold wrap. change (2 ^ 1)%Z with 2%Z.
  intros Hv. rewrite <-Znumtheory.Zmod_div_mod; [|lia|lia|by exists (2 ^ 63)%Z].
  change (Z.ones 1) with 1%Z. replace (v + 1 + 1)%Z with (v + 1 * 2)%Z by lia. by rewrite Z.mod_add.
Qed.

(** * Entries put and taken *)

Lemma ins_app_l k v es er : Forall (λ e, klt k e.1) er → ins k v (es ++ er) = ins k v es ++ er.
Proof.
  intros Hr. induction es as [|e es IH]; simpl; [by apply ins_new|].
  destruct (slice_cmp e.1 k); [done| |done]. by rewrite IH.
Qed.

Lemma elem_of_ins k v es e : e ∈ ins k v es → e = (k, v) ∨ e ∈ es.
Proof.
  induction es as [|e' es IH]; simpl; [set_solver|]. destruct (slice_cmp e'.1 k); set_solver.
Qed.

Lemma ins_in_order k v es : in_order es → in_order (ins k v es).
Proof.
  unfold in_order. induction es as [|e es IH]; cbn [ins].
  { intros _. rewrite fmap_cons. constructor; [constructor|constructor]. }
  rewrite fmap_cons, StronglySorted_cons. intros [He Hs].
  destruct (slice_cmp e.1 k) eqn:E.
  - apply slice_cmp_Eq in E. subst k. rewrite fmap_cons. by constructor.
  - rewrite fmap_cons. constructor; [by apply IH|]. rewrite Forall_fmap, Forall_forall in *.
    intros e' [->|Hin]%elem_of_ins; [|by apply He]. unfold klt, slice_lt. simpl. by rewrite E.
  - rewrite !fmap_cons. assert (klt k e.1) as Hk.
    { unfold klt, slice_lt. rewrite slice_cmp_antisym, E. done. }
    constructor; [by constructor|]. constructor; [done|]. simpl.
    eapply Forall_impl; [exact He|]. intros k' Hk'. by etrans.
Qed.

Lemma zlen_ins k v es :
  in_order es → zlen (ins k v es) = (zlen es + if has k es then 0 else 1)%Z.
Proof.
  intros Ho. assert (∀ e es', klt k e.1 → in_order (e :: es') → has k (e :: es') = false) as Hlow.
  { intros e es' Hk Ho'. apply has_ne. unfold in_order in Ho'.
    rewrite fmap_cons, StronglySorted_cons, Forall_fmap in Ho'. destruct Ho' as [He _].
    constructor; [intros E; by apply klt_ne in Hk|]. eapply Forall_impl; [exact He|].
    intros e' He' E. simpl in He'. assert (klt k e'.1) as Hk' by (by etrans). by apply klt_ne in Hk'. }
  induction es as [|e es IH]; cbn [ins]; [done|].
  destruct (slice_cmp e.1 k) eqn:E.
  - apply slice_cmp_Eq in E. unfold has. rewrite bool_decide_eq_true_2 by (rewrite fmap_cons, E; left).
    rewrite !zlen_cons. lia.
  - rewrite zlen_cons, IH.
    2:{ unfold in_order in *. rewrite fmap_cons, StronglySorted_cons in Ho. by destruct Ho. }
    assert (has k (e :: es) = has k es) as ->; [|rewrite zlen_cons; lia].
    change (e :: es) with ([e] ++ es). rewrite has_app, (has_ne k [e]); [done|].
    constructor; [|done]. intros E'. apply slice_cmp_Eq in E'. congruence.
  - rewrite Hlow; [|unfold klt, slice_lt; by rewrite slice_cmp_antisym, E|done].
    rewrite zlen_cons. lia.
Qed.

(** * Updating a leaf *)

Lemma fenced_update (l r : Level) x el es es' er :
  length l = length el → fenced (l ++ x :: r) (el ++ es :: er) →
  (∀ e, e ∈ es' → low_le x.1 e.1 ∧ Forall (λ y : Spot, low_gt y.1 e.1) r) →
  fenced (l ++ x :: r) (el ++ es' :: er).
Proof.
  revert el. induction l as [|y l IH]; intros [|ys el] Hl Hf Hfence; try done.
  - destruct Hf as [_ Hf]. split; [by apply Forall_forall|done].
  - destruct Hf as [H1 Hf]. split; [done|]. by apply IH; [injection Hl|..].
Qed.

Section leaf_update.
Context (s : L0) (lvs : list Level) (leaves : Level).
Context (l r : Level) (x : Spot) (el er : list (list (list Z * Z))) (es : list (list Z * Z)).
Context (n : Node).
Context (T : Tree s lvs leaves (el ++ es :: er)) (El : leaves = l ++ x :: r).
Context (Hl : Forall2 (leaf_at s) l el) (Hr : Forall2 (leaf_at s) r er).
Context (Hg : get s x.2 = Some n) (Hv : leaf_view s n es).

(** The other spots of the tree are elsewhere. *)
Lemma leaf_others y :
  y ∈ concat lvs ∨ y ∈ l ∨ y ∈ r → y.2 ≠ x.2 ∧ (0 ≤ y.2)%Z ∧ ∃ n, get s y.2 = Some n.
Proof.
  intros Hy. assert (y ∈ concat (lvs ++ [leaves])) as Hin.
  { rewrite concat_app. cbn [concat]. rewrite app_nil_r, El. set_solver. }
  pose proof (t_quiet s _ _ _ T) as Hq. pose proof (t_range s _ _ _ T) as Hrg.
  rewrite Forall_forall in Hq, Hrg. destruct (Hq y Hin) as (m&Hm&_). specialize (Hrg y Hin). simpl in Hrg.
  split_and!; [|lia|eauto]. pose proof (t_ids s _ _ _ T) as Hn.
  rewrite concat_app in Hn. cbn [concat] in Hn. rewrite app_nil_r, El, !fmap_app, fmap_cons in Hn.
  intros E. apply NoDup_app in Hn as (_&Hn1&Hn2). apply NoDup_app in Hn2 as (_&Hn2&Hn3).
  apply NoDup_cons in Hn3 as [Hn3 _].
  destruct Hy as [Hy|[Hy|Hy]]; apply (list_elem_of_fmap_2 snd) in Hy; simpl in Hy; rewrite E in Hy.
  - apply (Hn1 x.2); [done|set_solver].
  - apply (Hn2 x.2); [done|set_solver].
  - done.
Qed.

Section updated.
Context (s' : L0) (n' : Node) (es' : list (list Z * Z)).
Context (Hsh : same_shape s s') (Ha : arena_ok (l_nodes s')).
Context (Hnext : a_next (l_nodes s') = a_next (l_nodes s)) (Hroot : l_root s' = l_root s).
Context (Hg' : get s' x.2 = Some n') (Hv' : leaf_view s n' es').
Context (Hn' : n_next n' = n_next n) (Hver : Z.land (n_version n') 1 = 0%Z).
Context (Hother : ∀ id, (0 ≤ id)%Z → id ≠ x.2 → get s' id = get s id).

Lemma update_keeps y : y ∈ concat lvs ∨ y ∈ l ∨ y ∈ r → keeps s s' y.2.
Proof.
  intros Hy. destruct (leaf_others y Hy) as (Hne&H0&m&Hm). exists m, (n_version m).
  rewrite Hother by done. split; [done|]. rewrite Hm. by destruct m.
Qed.

Lemma update_quiet :
  Forall (λ y : Spot, ∃ n, get s' y.2 = Some n ∧ Z.land (n_version n) 1 = 0%Z) (concat (lvs ++ [leaves])).
Proof.
  pose proof (t_quiet s _ _ _ T) as Hq. rewrite Forall_forall in *. intros y Hy.
  destruct (Hq y Hy) as (m&Hm&Hmv). destruct (decide (y.2 = x.2)) as [E|Hne].
  { rewrite E. eauto. }
  rewrite Hother; [eauto| |done]. pose proof (t_range s _ _ _ T) as Hrg. rewrite Forall_forall in Hrg.
  by apply (Hrg y).
Qed.

Lemma tree_leaf_update :
  (∀ e, e ∈ es' → low_le x.1 e.1 ∧ Forall (λ y : Spot, low_gt y.1 e.1) r) →
  in_order (concat (el ++ es' :: er)) → Forall (λ e, length e.1 = l_words s) es' →
  l_len s' = wrap 64 (zlen (concat (el ++ es' :: er))) →
  Tree s' lvs leaves (el ++ es' :: er).
Proof.
  intros Hfence Hord Hlen Hcount. split; try done.
  - destruct Hsh as (_&_&->). apply T.
  - rewrite Hroot. apply T.
  - apply (links_keep_above s); [done| |apply T]. apply Forall_forall. intros y Hy.
    apply update_keeps. auto.
  - apply T.
  - apply T.
  - rewrite Hnext. apply T.
  - apply update_quiet.
  - rewrite El. apply Forall2_app; [|constructor].
    + apply (leaves_keep s); [done| |done]. apply Forall_forall. intros y Hy. apply update_keeps. auto.
    + exists n'. split; [done|]. by apply (leaf_shape s).
    + apply (leaves_keep s); [done| |done]. apply Forall_forall. intros y Hy. apply update_keeps. auto.
  - apply (chained_keep s); [|apply T]. rewrite El. apply Forall_app. split; [|constructor].
    + apply Forall_forall. intros y Hy. apply keeps_next, update_keeps. auto.
    + by exists n, n'.
    + apply Forall_forall. intros y Hy. apply keeps_next, update_keeps. auto.
  - pose proof (t_fenced s _ _ _ T) as Hf. rewrite El in Hf |- *.
    eapply fenced_update; [by eapply Forall2_length|done|done].
  - destruct Hsh as (_&->&_). pose proof (t_words s _ _ _ T) as Hws.
    rewrite !concat_app, !concat_cons, !Forall_app in *. naive_solver.
Qed.
End updated.
End leaf_update.

(** * Locks *)

Lemma upgrade_ok s id n :
  get s id = Some n →
  upgrade (id, n_version n) s = (true, put id (set_version (n_version n + 1) n) s).
Proof.
  intros Hg. unfold upgrade. cbn [fst snd]. rewrite Hg. unfold Node_upgrade. by rewrite Z.eqb_refl.
Qed.

Lemma unlock_ok s id n : get s id = Some n → unlock id s = put id (Node_unlock n) s.
Proof. intros Hg. unfold unlock. by rewrite Hg. Qed.

Lemma check_put s id n p :
  (0 ≤ id)%Z → (0 ≤ p.1)%Z → p.1 ≠ id → check (put id n s) p = check s p.
Proof. intros. unfold check. by rewrite get_put_other by done. Qed.

Lemma parent_checks s id n parent :
  (0 ≤ id)%Z → parent_ok s parent id →
  match parent with Some p => negb (check (put id n s) p) | None => false end = false.
Proof. destruct parent as [p|]; [|done]. intros Hid (H1&H2&H3). by rewrite check_put, H1 by done. Qed.

(** A state with one node of it written and unlocked. *)
Record rewritten (s s' : L0) (id : Z) (n : Node) (len : Z) : Prop := {
  rw_shape : same_shape s s';
  rw_arena : arena_ok (l_nodes s');
  rw_next : a_next (l_nodes s') = a_next (l_nodes s);
  rw_root : l_root s' = l_root s;
  rw_get : get s' id = Some n;
  rw_other : ∀ id', (0 ≤ id')%Z → id' ≠ id → get s' id' = get s id';
  rw_len : l_len s' = len }.

Lemma put_shape s id n : same_shape s (put id n s).
Proof. done. Qed.

Lemma put_rewritten s id n n0 :
  (0 ≤ id)%Z → arena_ok (l_nodes s) → get s id = Some n0 →
  rewritten s (put id n s) id n (l_len s).
Proof.
  intros Hid Ha Hg. split; [done|apply put_ok; eauto|apply put_next|done|by eapply get_put| |done].
  intros id' H0 Hne. by apply get_put_other.
Qed.

Lemma rewritten_put s s' id n n' len :
  (0 ≤ id)%Z → rewritten s s' id n len → rewritten s (put id n' s') id n' len.
Proof.
  intros Hid [H1 H2 H3 H4 H5 H6 H7]. split; try done.
  - apply put_ok; eauto.
  - rewrite <-H3. apply put_next.
  - by eapply get_put.
  - intros id' H0 Hne. rewrite get_put_other by done. by apply H6.
Qed.

Lemma rewritten_len s s' id n len len' :
  rewritten s s' id n len → rewritten s (with_len len' s') id n len'.
Proof. intros [H1 H2 H3 H4 H5 H6 H7]. by split. Qed.

(** * Inserting in and removing from a leaf with room *)

Lemma wrap_add_len n d : wrap 64 (wrap 64 n + d) = wrap 64 (n + d).
Proof. unfold wrap. apply Zplus_mod_idemp_l. Qed.

Lemma owner_range s lvs leaves ess A probe x n :
  Tree s lvs leaves ess → A ∈ lvs ++ [leaves] → owner probe A x → get s x.2 = Some n →
  (0 ≤ x.2 < NONE)%Z ∧ Z.land (n_version n) 1 = 0%Z.
Proof.
  intros T HA Ho Hg. destruct (tree_spot s _ _ _ T A x) as (H1&n'&H2&H3); [done|by eapply owner_in|].
  split; [done|]. rewrite Hg in H2. injection H2 as <-. unfold Node_read in H3.
  by destruct (Z.eqb_spec (Z.land (n_version n) 1) 0).
Qed.

Lemma leaves_level (lvs : list Level) leaves : leaves ∈ lvs ++ [leaves].
Proof. set_solver. Qed.

Section leaf_ops.
Context (s : L0) (lvs : list Level) (leaves : Level) (ess : list (list (list Z * Z))).
Context (T : Tree s lvs leaves ess) (probe : list Z) (Hp : length probe = l_words s).
Context (x : Spot) (n : Node) (parent : option Held).
Context (Ho : owner probe leaves x) (Hg : get s x.2 = Some n) (Hpar : parent_ok s parent x.2).

Lemma leaf_turn_ok ts :
  n_count n < l_capacity s →
  ∃ s' ess', leaf_turn probe ts parent (x.2, n_version n) s = Some (Return (Ok tt), s')
    ∧ Tree s' lvs leaves ess' ∧ concat ess' = ins probe ts (concat ess)
    ∧ same_shape s s' ∧ a_next (l_nodes s') = a_next (l_nodes s).
Proof.
  intros Hroom.
  destruct (owner_range s _ _ _ leaves probe x n T (leaves_level _ _) Ho Hg) as [Hid Hver].
  destruct (owner_split s _ _ _ T probe x Ho Hp)
    as (n'&l&r&el&er&es&es1&es2&[El Ees Hg' Hv Hes Hl Hr Eq Hlb H1 H2 H3 Hlow Hfence]).
  rewrite Hg in Hg'. injection Hg' as <-. rewrite Ees in *.
  unfold leaf_turn. rewrite (upgrade_ok s x.2 n Hg). cbn [negb fst].
  set (n1 := set_version (n_version n + 1) n). rewrite (parent_checks s x.2) by (done || lia).
  pose proof (put_rewritten s x.2 n1 n ltac:(lia) (t_arena _ _ _ _ T) Hg) as R1.
  assert (leaf_view (put x.2 n1 s) n1 es) as Hv1 by (by destruct Hv; split).
  destruct (leaf_insert_view (put x.2 n1 s) x.2 n1 es probe ts) as (n2&->&Hv2&Hn2&Hver2);
    [apply R1|done|done|rewrite <-(lv_count _ _ _ Hv); done|done|].
  rewrite some_bind. change (l_len (put x.2 n1 s)) with (l_len s).
  pose proof (rewritten_len _ _ _ _ _ (if has probe es then l_len s else wrap 64 (l_len s + 1))
    (rewritten_put _ _ _ _ n2 _ (proj1 Hid) R1)) as R2.
  rewrite (unlock_ok _ _ _ (rw_get _ _ _ _ _ R2)).
  pose proof (rewritten_put _ _ _ _ (Node_unlock n2) _ (proj1 Hid) R2) as R3.
  set (s' := put x.2 (Node_unlock n2) _) in *.
  assert (concat (el ++ ins probe ts es :: er) = ins probe ts (concat (el ++ es :: er))) as Ec.
  { rewrite !concat_app, !concat_cons. apply Forall_app in H1 as [H1 _].
    rewrite ins_below by done. by rewrite ins_app_l. }
  exists s', (el ++ ins probe ts es :: er). split; [done|]. split; [|split_and!; [done|apply R3..]].
  destruct R3 as [R31 R32 R33 R34 R35 R36 R37].
  apply tree_leaf_update with (s := s) (l := l) (r := r) (x := x) (es := es) (n := n)
    (n' := Node_unlock n2); try done.
  - destruct Hv2. by split.
  - simpl. rewrite Hver2. by apply even_unlocked.
  - intros e [->|He]%elem_of_ins.
    + done.
    + by apply Hfence.
  - rewrite Ec. apply ins_in_order, T.
  - apply Forall_forall. intros e [->|He]%elem_of_ins; [done|].
    pose proof (t_words _ _ _ _ T) as Hw. rewrite Forall_forall in Hw. apply Hw.
    rewrite concat_app, concat_cons. set_solver.
  - rewrite R37, Ec, zlen_ins, (t_len _ _ _ _ T) by apply T.
    assert (has probe (concat (el ++ es :: er)) = has probe es) as ->; [|].
    { rewrite concat_app, concat_cons, !has_app. apply Forall_app in H1 as [H1 _].
      rewrite (has_ne probe (concat el)), (has_ne probe (concat er)), orb_false_r; [done|..].
      - eapply Forall_impl; [exact H3|]. intros e He E. by apply klt_ne in He.
      - eapply Forall_impl; [exact H1|]. intros e. apply klt_ne. }
    destruct (has probe es); [by rewrite Z.add_0_r|by rewrite wrap_add_len].
Qed.
End leaf_ops.

Lemma has_outside k (es1 es es2 : list (list Z * Z)) :
  Forall (λ e, klt e.1 k) es1 → Forall (λ e, klt k e.1) es2 → has k (es1 ++ es ++ es2) = has k es.
Proof.
  intros H1 H2. rewrite !has_app. rewrite (has_ne k es1), (has_ne k es2), orb_false_r; [done|..].
  - eapply Forall_impl; [exact H2|]. intros e He E. by apply klt_ne in He.
  - eapply Forall_impl; [exact H1|]. intros e. apply klt_ne.
Qed.

Lemma del_outside k (es1 es es2 : list (list Z * Z)) :
  Forall (λ e, klt e.1 k) es1 → Forall (λ e, klt k e.1) es2 →
  del k (es1 ++ es ++ es2) = es1 ++ del k es ++ es2.
Proof. intros H1 H2. by rewrite !del_app, (del_below k es1), (del_above k es2). Qed.

Lemma del_in_order k es : in_order es → in_order (del k es).
Proof.
  unfold in_order, del. intros H. induction es as [|e es IH]; [done|].
  rewrite fmap_cons, StronglySorted_cons in H. destruct H as [He Hs]. rewrite filter_cons.
  destruct (decide _); [|by apply IH]. rewrite fmap_cons. constructor; [by apply IH|].
  rewrite Forall_fmap, Forall_forall in *. intros e' [_ He']%list_elem_of_filter. by apply He.
Qed.

(** What the leaf found is left with: the entry closed up on, or as it was. *)
Lemma remove_leaf (s1 : L0) probe id n es :
  leaf_view s1 n es → in_order es → length probe = l_words s1 →
  let count := Node_count n (l_capacity s1) in
  let at_ := lower_bound s1 n count probe in
  let found := ((at_ <? count) && match compare s1 n at_ probe with Eq => true | _ => false end)%bool in
  ∃ n', leaf_view s1 n' (del probe es) ∧ n_next n' = n_next n ∧ n_version n' = n_version n
    ∧ found = has probe es
    ∧ (if (found : bool) then
         node ← for_each (λ slot n, n ← move_key s1 slot (slot - 1) n;
                                    Node_set_value n (slot - 1) (Node_value n slot))
                  (seq (at_ + 1) (count - (at_ + 1))) n;
         Some (with_len (wrap 64 (l_len s1 - 1)) (put id (set_count (count - 1) node) s1))
       else Some s1)
      = Some (if has probe es then with_len (wrap 64 (l_len s1 - 1)) (put id n' s1) else s1)
    ∧ zlen (del probe es) = (zlen es - if has probe es then 1 else 0)%Z
    ∧ (has probe es = false → n' = n).
Proof.
  intros Hv Hes Hw. cbv zeta. rewrite (sized_count s1 n (lv_sized _ _ _ Hv)), (lv_count _ _ _ Hv).
  destruct (leaf_search s1 n es probe Hv Hes Hw) as (es1&es2&->&Hlb&H1&H2).
  rewrite Hlb, leaf_found by done. destruct H2 as [(v&es2'&->&H3)|H3].
  - cbn [fst]. rewrite bool_decide_eq_true_2 by done.
    assert (has probe (es1 ++ (probe, v) :: es2') = true) as ->.
    { unfold has. rewrite bool_decide_eq_true_2; [done|]. rewrite fmap_app, fmap_cons. set_solver. }
    assert (del probe (es1 ++ (probe, v) :: es2') = es1 ++ es2') as ->.
    { rewrite del_app, del_here, (del_below probe es1), (del_above probe es2') by done. done. }
    destruct (leaf_close_gap s1 n es1 (probe, v) es2' Hv) as (n'&E&Hv'&Hn'&Hver').
    exists (set_count (length (es1 ++ (probe, v) :: es2') - 1) n'). rewrite E, some_bind.
    split_and!; try done. rewrite !zlen_app, zlen_cons. lia.
  - assert (has probe (es1 ++ es2) = false) as ->.
    { by apply (has_outside probe es1 [] es2). }
    replace (match es2 with [] => _ | _ => _ end) with false.
    2:{ destruct H3 as [|e es2 He _]; [done|]. rewrite bool_decide_eq_false_2; [done|].
        intros Heq. by apply klt_ne in He. }
    assert (del probe (es1 ++ es2) = es1 ++ es2) as ->.
    { by rewrite del_app, (del_below probe es1), (del_above probe es2). }
    exists n. split_and!; try done. lia.
Qed.

Section remove.
Context (s : L0) (lvs : list Level) (leaves : Level) (ess : list (list (list Z * Z))).
Context (T : Tree s lvs leaves ess) (probe : list Z) (Hp : length probe = l_words s).

Lemma remove_turn_ok :
  ∃ s' ess', remove_turn probe s = Some (Some (has probe (concat ess)), s')
    ∧ Tree s' lvs leaves ess' ∧ concat ess' = del probe (concat ess)
    ∧ same_shape s s' ∧ a_next (l_nodes s') = a_next (l_nodes s).
Proof.
  unfold remove_turn.
  destruct (leaf_for_owner s _ _ _ T probe Hp 0) as (x&n&parent&t'&->&Ho&Hg&Hpar).
  rewrite some_bind. destruct (owner_range s _ _ _ leaves probe x n T (leaves_level _ _) Ho Hg) as [Hid Hver].
  destruct (owner_split s _ _ _ T probe x Ho Hp)
    as (n'&l&r&el&er&es&es1&es2&[El Ees Hg' Hv Hes Hl Hr Eq Hlb H1 H2 H3 Hlow Hfence]).
  rewrite Hg in Hg'. injection Hg' as <-. rewrite Ees in *.
  rewrite (upgrade_ok s x.2 n Hg). cbn [negb fst].
  set (n1 := set_version (n_version n + 1) n). rewrite (parent_checks s x.2) by (done || lia).
  pose proof (put_rewritten s x.2 n1 n ltac:(lia) (t_arena _ _ _ _ T) Hg) as R1.
  rewrite (rw_get _ _ _ _ _ R1), some_bind.
  assert (leaf_view (put x.2 n1 s) n1 es) as Hv1 by (by destruct Hv; split).
  pose proof H1 as [H1e H1']%Forall_app.
  destruct (remove_leaf (put x.2 n1 s) probe x.2 n1 es Hv1 Hes Hp)
    as (n2&Hv2&Hn2&Hver2&Hfound&Hdo&Hz&Hsame). cbv zeta in *. rewrite Hdo, some_bind, Hfound. clear Hdo Hfound.
  change (l_len (put x.2 n1 s)) with (l_len s).
  set (len := if has probe es then wrap 64 (l_len s - 1) else l_len s).
  assert (rewritten s (if has probe es then with_len (wrap 64 (l_len s - 1)) (put x.2 n2 (put x.2 n1 s))
    else put x.2 n1 s) x.2 n2 len) as R2.
  { subst len. destruct (has probe es); [|by rewrite Hsame].
    eapply rewritten_len, rewritten_put; [lia|done]. }
  rewrite (unlock_ok _ _ _ (rw_get _ _ _ _ _ R2)).
  pose proof (rewritten_put _ _ _ _ (Node_unlock n2) _ (proj1 Hid) R2) as R3.
  set (s' := put x.2 (Node_unlock n2) _) in *.
  assert (concat (el ++ del probe es :: er) = del probe (concat (el ++ es :: er))) as Ec.
  { rewrite !concat_app, !concat_cons. by rewrite del_outside. }
  exists s', (el ++ del probe es :: er). split.
  { do 3 f_equal. rewrite concat_app, concat_cons. by rewrite has_outside. }
  split; [|split_and!; [done|apply R3..]].
  destruct R3 as [R31 R32 R33 R34 R35 R36 R37].
  apply tree_leaf_update with (s := s) (l := l) (r := r) (x := x) (es := es) (n := n)
    (n' := Node_unlock n2); try done.
  - destruct Hv2. by split.
  - simpl. rewrite Hver2. by apply even_unlocked.
  - intros e [_ He]%list_elem_of_filter. by apply Hfence.
  - rewrite Ec. apply del_in_order, T.
  - pose proof (t_words _ _ _ _ T) as Hw. rewrite concat_app, concat_cons, !Forall_app in Hw.
    destruct Hw as (_&Hw&_). rewrite Forall_forall in *. intros e [_ He]%list_elem_of_filter. by apply Hw.
  - rewrite R37. pose proof (t_len _ _ _ _ T) as Hlen. subst len.
    rewrite concat_app, concat_cons, !zlen_app in *. rewrite Hz.
    destruct (has probe es); [rewrite Hlen, <-Z.add_opp_r, wrap_add_len; f_equal; lia|].
    rewrite Hlen. f_equal. lia.
Qed.
End remove.
