(* ===== verification/L0Split.v ===== *)
(** Splits of the in-memory tree: what a split and the publishing of its sibling write, and that
    the levels stay a tree holding the same entries. *)

From S2P Require Import Prelude Bloom Run RunRead L0 L0Node L0Leaf L0Arena L0Tree L0Read L0Write.
Local Open Scope nat_scope.

(** * What is written *)

(** The nodes outside [ids] are as they were. *)
Record touches (s s' : L0) (ids : list Z) : Prop := {
  to_shape : same_shape s s';
  to_arena : arena_ok (l_nodes s');
  to_len : l_len s' = l_len s;
  to_other : ∀ id, (0 ≤ id)%Z → id ∉ ids → get s' id = get s id }.

Lemma touches_trans s1 s2 s3 ids ids' :
  touches s1 s2 ids → touches s2 s3 ids' → touches s1 s3 (ids ++ ids').
Proof.
  intros [A1 A2 A3 A4] [B1 B2 B3 B4]. split; [by eapply same_shape_trans|done|congruence|].
  intros id H0 Hid. rewrite elem_of_app in Hid. rewrite B4, A4; naive_solver.
Qed.

Lemma touches_weaken s s' ids ids' : ids ⊆ ids' → touches s s' ids → touches s s' ids'.
Proof. intros Hs [A1 A2 A3 A4]. split; try done. intros id H0 Hid. apply A4; set_solver. Qed.

Lemma put_touches s id n n0 :
  (0 ≤ id)%Z → arena_ok (l_nodes s) → get s id = Some n0 → touches s (put id n s) [id].
Proof.
  intros Hid Ha Hg. split; [done|apply put_ok; eauto|done|].
  intros id' H0 Hne. apply get_put_other; set_solver.
Qed.

Lemma add_touches s n :
  arena_ok (l_nodes s) → (a_next (l_nodes s) < NONE)%Z →
  ∃ a', Arena_add (l_nodes s) n = Some (Ok (a_next (l_nodes s)), a')
    ∧ touches s (with_nodes a' s) [a_next (l_nodes s)]
    ∧ get (with_nodes a' s) (a_next (l_nodes s)) = Some n
    ∧ a_next a' = (a_next (l_nodes s) + 1)%Z.
Proof.
  intros Ha Hn. destruct (add_ok (l_nodes s) n Ha Hn) as (a'&E&Ha'&Hn'&Hg&Ho).
  exists a'. split_and!; try done. split; try done. intros id H0 Hid. apply Ho; set_solver.
Qed.

Lemma arena_fresh s id n :
  arena_ok (l_nodes s) → get s id = Some n → (0 ≤ id < 2 ^ 32)%Z → (id < a_next (l_nodes s))%Z.
Proof. intros Ha Hg Hid. apply (ao_taken _ Ha); [done|]. unfold get in Hg. rewrite Hg. eauto. Qed.

(** The two halves of a node split: what [split_leaf] and [split_inner] come to before the sibling
    is published. *)
Record halved (s s' : L0) (id rid : Z) (n nl nr : Node) : Prop := {
  ha_touches : touches s s' [id; rid];
  ha_rid : rid = a_next (l_nodes s);
  ha_next : a_next (l_nodes s') = (a_next (l_nodes s) + 1)%Z;
  ha_root : l_root s' = l_root s;
  ha_left : get s' id = Some nl;
  ha_right : get s' rid = Some nr;
  ha_version : n_version nl = n_version n ∧ n_version nr = 0%Z }.

Section split.
Context (s : L0) (id : Z) (n : Node).
Context (Ha : arena_ok (l_nodes s)) (Hg : get s id = Some n) (Hid : (0 ≤ id < NONE)%Z).
Context (Hroom : (a_next (l_nodes s) < NONE)%Z) (Hcap : 4 ≤ l_capacity s).
Context (Hfull : n_count n = l_capacity s).
Notation m := (l_capacity s / 2).

Lemma middle_bounds : 2 ≤ m ∧ m + 1 < l_capacity s.
Proof.
  pose proof (Nat.div_mod (l_capacity s) 2 ltac:(lia)).
  pose proof (Nat.mod_upper_bound (l_capacity s) 2 ltac:(lia)). lia.
Qed.

Lemma add_and_shrink sib (f : Node → Node) :
  n_version sib = 0%Z → (∀ n, n_version (f n) = n_version n) →
  ∃ a', Arena_add (l_nodes s) sib = Some (Ok (a_next (l_nodes s)), a')
    ∧ with_node id (λ n, Some (f n)) (with_nodes a' s) = Some (put id (f n) (with_nodes a' s))
    ∧ halved s (put id (f n) (with_nodes a' s)) id (a_next (l_nodes s)) n (f n) sib.
Proof.
  intros Hsib Hf. destruct (add_touches s sib Ha Hroom) as (a'&E&Ht&Hnew&Hn).
  pose proof (arena_fresh s id n Ha Hg ltac:(unfold NONE in Hid; lia)) as Hlt.
  assert (get (with_nodes a' s) id = Some n) as Hold.
  { rewrite (to_other _ _ _ Ht); [done|lia|]. rewrite list_elem_of_singleton. lia. }
  pose proof (put_touches (with_nodes a' s) id (f n) n ltac:(lia) (to_arena _ _ _ Ht) Hold) as Ht'.
  pose proof (ao_next _ Ha). exists a'. split; [done|]. split.
  { unfold with_node. by rewrite Hold. }
  split; try done.
  - eapply touches_weaken, touches_trans; [|exact Ht|exact Ht']. set_solver.
  - simpl. by rewrite put_next.
  - by eapply get_put.
  - rewrite (to_other _ _ _ Ht'); [done|lia|]. rewrite list_elem_of_singleton. lia.
Qed.

Lemma split_leaf_halves parent es :
  leaf_view s n es →
  ∃ s' nl nr sep rid, split_leaf id parent s = publish id parent sep rid s'
    ∧ halved s s' id rid n nl nr ∧ leaf_view s nl (take m es) ∧ leaf_view s nr (drop m es)
    ∧ n_next nl = rid ∧ n_next nr = n_next n ∧ es.*1 !! m = Some sep.
Proof.
  intros Hv. pose proof middle_bounds as Hm. pose proof (lv_count _ _ _ Hv) as Hc.
  assert (length es = l_capacity s) as Hlen by congruence.
  unfold split_leaf. rewrite Hg, some_bind. cbv zeta.
  rewrite (sized_count s n (lv_sized _ _ _ Hv)), Hfull.
  destruct (split_leaf_sibling s n es m Hv ltac:(lia)) as (sib&E&Hvr&Hver). rewrite Hlen in E, Hvr.
  rewrite E, some_bind. set (sib' := set_next _ _) in *.
  destruct (add_and_shrink sib' (λ x, set_count m (set_next (a_next (l_nodes s)) x)))
    as (a'&->&Hwith&Hh); [done|done|]. rewrite some_bind. cbv beta iota.
  rewrite Hwith, some_bind. eexists _, _, sib', _, _. split; [done|].
  destruct (lookup_lt_is_Some_2 es m ltac:(lia)) as [e He].
  split_and!; [exact Hh|apply take_leaf_view; [done|lia]|done|done|done|].
  rewrite list_lookup_fmap, He. rewrite read_key_row; [|apply (lv_sized _ _ _ Hvr)|lia].
  simpl. f_equal. symmetry. apply (lv_at _ _ _ Hvr 0 e). by rewrite lookup_drop, Nat.add_0_r.
Qed.

Lemma split_inner_halves parent ks cs :
  inner_view s n ks cs →
  ∃ s' nl nr sep rid, split_inner id parent s = publish id parent sep rid s'
    ∧ halved s s' id rid n nl nr ∧ inner_view s nl (take m ks) (take (S m) cs)
    ∧ inner_view s nr (drop (S m) ks) (drop (S m) cs) ∧ ks !! m = Some sep.
Proof.
  intros Hv. pose proof middle_bounds as Hm. pose proof (iv_count _ _ _ _ Hv) as Hc.
  assert (length ks = l_capacity s) as Hlen by congruence.
  unfold split_inner. rewrite Hg, some_bind. cbv zeta.
  rewrite (sized_count s n (iv_sized _ _ _ _ Hv)), Hfull.
  destruct (split_inner_sibling s n ks cs m Hv ltac:(lia)) as (sib&E&Hvr&Hver). rewrite Hlen in E, Hvr.
  revert E. destruct (for_each (λ slot sib, copy_key s n slot sib (slot - m - 1)) _ _) as [sib0|];
    [|done]. rewrite !some_bind. intros E. rewrite E, some_bind.
  set (sib' := set_count _ sib) in *.
  destruct (add_and_shrink sib' (set_count m)) as (a'&->&Hwith&Hh); [done|done|].
  rewrite some_bind. cbv beta iota. rewrite Hwith, some_bind. eexists _, _, sib', _, _. split; [done|].
  destruct (lookup_lt_is_Some_2 ks m ltac:(lia)) as [k Hk].
  split_and!; [exact Hh|apply take_inner_view; [done|lia]|done|].
  rewrite Hk, read_key_row; [|apply (iv_sized _ _ _ _ Hv)|lia]. f_equal. symmetry.
  by apply (iv_row _ _ _ _ Hv).
Qed.
End split.

(** ** Publishing the sibling *)

(** A list is cut in one place into what has a property and what has not. *)
Lemma partition_length {A} (P : A → Prop) (l1 l2 k1 k2 : list A) :
  k1 ++ k2 = l1 ++ l2 → Forall P l1 → Forall (λ x, ¬ P x) l2 → Forall P k1 →
  Forall (λ x, ¬ P x) k2 → length l1 = length k1.
Proof.
  revert k1. induction l1 as [|x l1 IH]; intros [|y k1] E Hl1 Hl2 Hk1 Hk2; simpl in *; try done.
  - subst l2. apply Forall_cons in Hl2 as [? _]. apply Forall_cons in Hk1 as [? _]. done.
  - subst k2. apply Forall_cons in Hk2 as [? _]. apply Forall_cons in Hl1 as [? _]. done.
  - injection E as -> E. apply Forall_cons in Hl1 as [_ Hl1]. apply Forall_cons in Hk1 as [_ Hk1].
    f_equal. by apply IH.
Qed.

Lemma publish_root s left_ sep rid :
  arena_ok (l_nodes s) → (a_next (l_nodes s) < NONE)%Z → 4 ≤ l_capacity s → length sep = l_words s →
  ∃ s' root, publish left_ None sep rid s = Some (Ok tt, s')
    ∧ touches s s' [a_next (l_nodes s)] ∧ l_root s' = a_next (l_nodes s)
    ∧ a_next (l_nodes s') = (a_next (l_nodes s) + 1)%Z
    ∧ get s' (a_next (l_nodes s)) = Some root ∧ inner_view s root [sep] [left_; rid]
    ∧ n_version root = 0%Z.
Proof.
  intros Ha Hroom Hcap Hsep. unfold publish.
  destruct (new_root_view s sep left_ rid Hcap Hsep) as (root&E&Hv&Hver).
  revert E. destruct (set_key _ _ _ _) as [r1|]; [|done]. rewrite !some_bind.
  destruct (Node_set_value r1 _ _) as [r2|]; [|done]. rewrite !some_bind. intros E. rewrite E, some_bind.
  destruct (add_touches s (set_count 1 root) Ha Hroom) as (a'&->&Ht&Hnew&Hn). rewrite some_bind.
  eexists _, (set_count 1 root). split; [done|]. split_and!; try done.
  destruct Ht as [H1 H2 H3 H4]. by split.
Qed.

Lemma publish_parent s left_ pid p k1 k2 c1 c2 sep rid :
  arena_ok (l_nodes s) → (0 ≤ pid)%Z → get s pid = Some p →
  inner_view s p (k1 ++ k2) (c1 ++ c2) → length c1 = S (length k1) →
  length (k1 ++ k2) < l_capacity s → length sep = l_words s →
  StronglySorted klt (k1 ++ k2) → Forall (λ k, klt k sep) k1 → Forall (λ k, klt sep k) k2 →
  ∃ p', publish left_ (Some pid) sep rid s = Some (Ok tt, put pid p' s)
    ∧ inner_view s p' (k1 ++ sep :: k2) (c1 ++ rid :: c2) ∧ n_version p' = n_version p.
Proof.
  intros Ha Hpid Hg Hv Hc1 Hroom Hsep Hs H1 H2. unfold publish. rewrite Hg, some_bind. cbv zeta.
  rewrite (sized_count s p (iv_sized _ _ _ _ Hv)), (iv_count _ _ _ _ Hv).
  assert (child_at s p (length (k1 ++ k2)) sep = length k1) as ->.
  { destruct (child_at_split s p (k1 ++ k2) sep) as (l1&l2&E&->&Hl1&Hl2);
      [apply (iv_sized _ _ _ _ Hv)|lia|done|done|apply (iv_row _ _ _ _ Hv)|].
    apply (partition_length (λ k, sle k sep) l1 l2 k1 k2); [done|done| | |].
    - eapply Forall_impl; [exact Hl2|]. intros k. apply klt_sle.
    - eapply Forall_impl; [exact H1|]. intros k. apply klt_weaken.
    - eapply Forall_impl; [exact H2|]. intros k. apply klt_sle. }
  destruct (parent_open_gap s p k1 k2 c1 c2 sep rid Hv Hc1 Hroom Hsep) as (p'&E&Hv'&Hver).
  revert E. destruct (for_each _ _ _) as [p1|]; [|done]. rewrite !some_bind.
  destruct (set_key _ _ _ _) as [p2|]; [|done]. rewrite !some_bind. intros E. rewrite E, some_bind. eauto.
Qed.

(** ** A turn that splits *)

Lemma unlock_touches s id n :
  (0 ≤ id)%Z → arena_ok (l_nodes s) → get s id = Some n →
  touches s (unlock id s) [id] ∧ get (unlock id s) id = Some (Node_unlock n)
  ∧ a_next (l_nodes (unlock id s)) = a_next (l_nodes s) ∧ l_root (unlock id s) = l_root s.
Proof.
  intros Hid Ha Hg. rewrite (unlock_ok s id n Hg).
  split_and!; [by eapply put_touches|by eapply get_put|apply put_next|done].
Qed.

Section turn.
Context (split : Z → option Z → L0 → option (Result unit * L0)).
Context (s : L0) (id : Z) (n : Node) (Ha : arena_ok (l_nodes s)).
Context (Hg : get s id = Some n) (Hid : (0 ≤ id < a_next (l_nodes s))%Z).
Context (Hroom : (a_next (l_nodes s) + 1 < NONE)%Z) (Hcap : 4 ≤ l_capacity s).
Notation locked n := (set_version (n_version n + 1) n).

Lemma split_turn_root s' nl nr sep rid :
  split id None (put id (locked n) s) = publish id None sep rid s' →
  halved (put id (locked n) s) s' id rid (locked n) nl nr → length sep = l_words s →
  ∃ s3 root, split_turn split None (id, n_version n) s = Some (Again, s3)
    ∧ touches s s3 [id; rid; (rid + 1)%Z] ∧ rid = a_next (l_nodes s)
    ∧ a_next (l_nodes s3) = (rid + 2)%Z ∧ l_root s3 = (rid + 1)%Z
    ∧ get s3 id = Some (Node_unlock nl) ∧ get s3 rid = Some nr
    ∧ get s3 (rid + 1)%Z = Some root ∧ inner_view s root [sep] [id; rid] ∧ n_version root = 0%Z.
Proof.
  intros Esplit Hh Hsep.
  pose proof (put_touches s id (locked n) n ltac:(lia) Ha Hg) as T1.
  destruct Hh as [T2 Hrid Hnext Hroot Hl Hr Hver].
  assert (a_next (l_nodes (put id (locked n) s)) = a_next (l_nodes s)) as En by apply put_next.
  rewrite En in *. pose proof (ao_next _ Ha).
  destruct (publish_root s' id sep rid) as (s2&root&Epub&T3&Hroot2&Hnext2&Hgr&Hvr&Hverr);
    [apply T2|lia|by destruct (to_shape _ _ _ T2) as (_&_&->)|by destruct (to_shape _ _ _ T2) as (_&->&_)|].
  rewrite Hnext in *.
  assert (get s2 id = Some nl) as Hl2.
  { rewrite (to_other _ _ _ T3); [done|lia|]. rewrite list_elem_of_singleton. lia. }
  destruct (unlock_touches s2 id nl ltac:(lia) (to_arena _ _ _ T3) Hl2) as (T4&Hg4&Hn4&Hr4).
  exists (unlock id s2), root. split.
  { unfold split_turn, lock_pair. cbn [negb]. rewrite (upgrade_ok s id n Hg).
    cbn [negb fst fmap option_fmap option_map]. rewrite Esplit, Epub, some_bind. done. }
  assert (∀ i, (0 ≤ i)%Z → i ≠ id → get (unlock id s2) i = get s2 i) as Hoth.
  { intros i H0 Hi. apply (to_other _ _ _ T4); [done|]. by rewrite list_elem_of_singleton. }
  rewrite Hrid. split_and!; try done.
  - eapply touches_weaken, touches_trans, touches_trans, touches_trans; [|exact T1|exact T2|exact T3|exact T4].
    rewrite Hrid. set_solver.
  - rewrite Hn4, Hnext2. lia.
  - by rewrite Hr4, Hroot2.
  - rewrite Hoth by lia. rewrite (to_other _ _ _ T3); [by rewrite <-Hrid|lia|].
    rewrite list_elem_of_singleton. lia.
  - by rewrite Hoth by lia.
  - apply (inner_shape s'); [|by rewrite <-Hrid]. destruct (to_shape _ _ _ T2) as (E1&E2&E3).
    by split_and!; symmetry.
Qed.

Lemma split_turn_parent s' nl nr sep rid pid p k1 k2 c1 c2 :
  get s pid = Some p → (0 ≤ pid < a_next (l_nodes s))%Z → pid ≠ id →
  split id (Some pid) (put id (locked n) (put pid (locked p) s)) = publish id (Some pid) sep rid s' →
  halved (put id (locked n) (put pid (locked p) s)) s' id rid (locked n) nl nr →
  length sep = l_words s →
  inner_view s p (k1 ++ k2) (c1 ++ c2) → length c1 = S (length k1) →
  length (k1 ++ k2) < l_capacity s → StronglySorted klt (k1 ++ k2) →
  Forall (λ k, klt k sep) k1 → Forall (λ k, klt sep k) k2 →
  ∃ s3 p', split_turn split (Some (pid, n_version p)) (id, n_version n) s = Some (Again, s3)
    ∧ touches s s3 [id; rid; pid] ∧ rid = a_next (l_nodes s)
    ∧ a_next (l_nodes s3) = (rid + 1)%Z ∧ l_root s3 = l_root s
    ∧ get s3 id = Some (Node_unlock nl) ∧ get s3 rid = Some nr
    ∧ get s3 pid = Some (Node_unlock p') ∧ n_version p' = (n_version p + 1)%Z
    ∧ inner_view s p' (k1 ++ sep :: k2) (c1 ++ rid :: c2).
Proof.
  intros Hgp Hpid Hne Esplit Hh Hsep Hv Hc1 Hpcap Hsorted Hk1 Hk2.
  pose proof (put_touches s pid (locked p) p ltac:(lia) Ha Hgp) as T0.
  assert (get (put pid (locked p) s) id = Some n) as Hg0.
  { rewrite get_put_other by (done || lia). done. }
  pose proof (put_touches _ id (locked n) n ltac:(lia) (to_arena _ _ _ T0) Hg0) as T1.
  destruct Hh as [T2 Hrid Hnext Hroot Hl Hr Hver].
  assert (a_next (l_nodes (put id (locked n) (put pid (locked p) s))) = a_next (l_nodes s)) as En.
  { simpl. by rewrite !put_next. }
  rewrite En in *. pose proof (ao_next _ Ha).
  pose proof (touches_trans _ _ _ _ _ T0 (touches_trans _ _ _ _ _ T1 T2)) as T012.
  assert (get s' pid = Some (locked p)) as Hgp'.
  { rewrite (to_other _ _ _ T2) by (lia || set_solver by lia).
    rewrite get_put_other by (done || lia). by eapply get_put. }
  destruct (to_shape _ _ _ T012) as (E1&E2&E3).
  destruct (publish_parent s' id pid (locked p) k1 k2 c1 c2 sep rid) as (p'&Epub&Hvp&Hverp);
    [apply T2|lia|done|by apply (inner_shape s); [|destruct Hv; split]|done|lia|congruence|done..|].
  pose proof (put_touches s' pid p' (locked p) ltac:(lia) (to_arena _ _ _ T2) Hgp') as T3.
  assert (get (put pid p' s') id = Some nl) as Hl2 by (by rewrite get_put_other by (done || lia)).
  destruct (unlock_touches _ id nl ltac:(lia) (to_arena _ _ _ T3) Hl2) as (T4&Hg4&Hn4&Hr4).
  assert (get (unlock id (put pid p' s')) pid = Some p') as Hp4.
  { rewrite (to_other _ _ _ T4) by (lia || set_solver by lia). by eapply get_put. }
  destruct (unlock_touches _ pid p' ltac:(lia) (to_arena _ _ _ T4) Hp4) as (T5&Hg5&Hn5&Hr5).
  exists (unlock pid (unlock id (put pid p' s'))), p'. split.
  { unfold split_turn, lock_pair. rewrite (upgrade_ok s pid p Hgp). cbn [negb].
    rewrite (upgrade_ok _ id n Hg0). cbn [negb fst fmap option_fmap option_map].
    rewrite Esplit, Epub, some_bind. done. }
  rewrite Hrid in *. split_and!; try done.
  - eapply touches_weaken, touches_trans, touches_trans, touches_trans;
      [|exact T012|exact T3|exact T4|exact T5]. set_solver.
  - rewrite Hn5, Hn4. simpl. by rewrite put_next.
  - by rewrite Hr5, Hr4.
  - rewrite (to_other _ _ _ T5) by (lia || set_solver by lia). done.
  - rewrite (to_other _ _ _ T5) by (lia || set_solver by lia).
    rewrite (to_other _ _ _ T4) by (lia || set_solver by lia).
    by rewrite get_put_other by lia.
  - apply (inner_shape s'); [|done]. by split_and!; symmetry.
Qed.
End turn.
