(* ===== verification/L0Grow.v ===== *)
(** The levels of the in-memory tree after a split: the split node and its sibling stand side by
    side in their level, under the parent or a new root, and the level below is as it was. *)

From S2P Require Import Prelude Bloom Run RunRead L0 L0Node L0Leaf L0Arena L0Tree L0Read L0Write L0Split.
Local Open Scope nat_scope.

Definition quiet (s : L0) (A : Level) : Prop :=
  Forall (λ x : Spot, ∃ n, get s x.2 = Some n ∧ Z.land (n_version n) 1 = 0%Z) A.

(** * Spots *)

Lemma spots_grow s s3 (old new news : Level) :
  new ≡ₚ news ++ old → NoDup old.*2 → NoDup news.*2 →
  Forall (λ y : Spot, 0 ≤ y.2 < a_next (l_nodes s))%Z old →
  Forall (λ y : Spot, a_next (l_nodes s) ≤ y.2 < a_next (l_nodes s3))%Z news →
  (0 ≤ a_next (l_nodes s) ≤ a_next (l_nodes s3))%Z →
  quiet s3 news → quiet s3 old →
  NoDup new.*2 ∧ Forall (λ y : Spot, 0 ≤ y.2 < a_next (l_nodes s3))%Z new ∧ quiet s3 new.
Proof.
  intros Hp Ho Hn Hro Hrn Hle Hqn Hqo. unfold quiet in *. rewrite !Hp, fmap_app, !Forall_app.
  split_and!; try done.
  - apply NoDup_app. split_and!; try done. intros i Hi Hj.
    apply list_elem_of_fmap in Hi as (y&->&Hy), Hj as (z&E&Hz).
    rewrite Forall_forall in Hro, Hrn. specialize (Hro z Hz). specialize (Hrn y Hy). simpl in *. lia.
  - eapply Forall_impl; [exact Hrn|]. simpl. lia.
  - eapply Forall_impl; [exact Hro|]. simpl. lia.
Qed.

(** A sibling put after its node in a sorted level. *)
Lemma low_lt_trans a b c : low_lt a b → low_lt b c → low_lt a c.
Proof. destruct a as [a|], b as [b|], c as [c|]; simpl; try done. intros ? ?. by etrans. Qed.

Lemma sorted_insert (l rr : Level) x sep rid :
  lows_sorted (l ++ x :: rr) → low_lt x.1 (Some sep) →
  Forall (λ y : Spot, low_lt (Some sep) y.1) rr → lows_sorted (l ++ x :: (Some sep, rid) :: rr).
Proof.
  unfold lows_sorted. intros Hs Hx Hr. induction l as [|y l IH]; cbn [app] in *;
    rewrite fmap_cons, StronglySorted_cons, Forall_fmap in *; destruct Hs as [Hy Hs].
  - split; [by constructor|]. rewrite fmap_cons. constructor; [done|]. by rewrite Forall_fmap.
  - split; [|by apply IH]. apply Forall_app in Hy as [Hy Hyr]. apply Forall_cons in Hyr as [Hyx Hyr].
    apply Forall_app. split; [done|]. repeat (constructor; [done|]). constructor; [|done].
    by eapply low_lt_trans.
Qed.

(** * Under a parent *)

(** The separators and children of the parent, cut after the child that splits. *)
Lemma kids_split s p kl x kr :
  kids_of s p (kl ++ x :: kr) →
  ∃ n k1 k2 c1 c2, get s p.2 = Some n ∧ inner_view s n (k1 ++ k2) (c1 ++ c2)
    ∧ length k1 = length kl ∧ length c1 = S (length kl)
    ∧ kl ++ [x] = zip (p.1 :: (Some <$> k1)) c1 ∧ kr = zip (Some <$> k2) c2
    ∧ Forall (λ k, length k = l_words s) (k1 ++ k2).
Proof.
  intros (n&ks&cs&Hg&Hv&Hw&E). pose proof (iv_children _ _ _ _ Hv) as Hc.
  assert (length kl ≤ length ks) as Hl.
  { assert (length (kl ++ x :: kr) = length (zip (p.1 :: (Some <$> ks)) cs)) as El by (by rewrite E).
    rewrite length_app, length_zip_with, !length_cons, length_fmap in El. lia. }
  exists n, (take (length kl) ks), (drop (length kl) ks), (take (S (length kl)) cs), (drop (S (length kl)) cs).
  rewrite !take_drop. assert (length (take (length kl) ks) = length kl) by (rewrite length_take; lia).
  assert (length (take (S (length kl)) cs) = S (length kl)) by (rewrite length_take; lia).
  assert (zip (p.1 :: (Some <$> ks)) cs =
    zip (p.1 :: (Some <$> take (length kl) ks)) (take (S (length kl)) cs)
    ++ zip (Some <$> drop (length kl) ks) (drop (S (length kl)) cs)) as Ez.
  { rewrite <-zip_with_app by (simpl; rewrite length_fmap; lia).
    by rewrite <-app_comm_cons, <-fmap_app, !take_drop. }
  rewrite Ez, cons_middle, app_assoc in E. apply app_inj_1 in E as [E1 E2]; [by split_and!|].
  rewrite length_app, length_zip_with, !length_cons, length_fmap, length_nil. lia.
Qed.

Section under_parent.
Context (s s3 : L0) (probe : list Z) (P L : Level) (p x : Spot).
Context (al ar : Level) (yl yr : list Level) (kl kr : Level).
Context (Hlink : child_link s probe P p L x al ar yl yr kl kr).
Context (sep : list Z) (rid : Z) (Hsep : length sep = l_words s).
Notation L' := ((concat yl ++ kl) ++ x :: (Some sep, rid) :: (kr ++ concat yr)).
Context (Hsorted : lows_sorted L').

(** The separators of the parent around the one to come. *)
Lemma parent_seps n k1 k2 c1 c2 :
  inner_view s n (k1 ++ k2) (c1 ++ c2) → length c1 = S (length k1) →
  kl ++ [x] = zip (p.1 :: (Some <$> k1)) c1 → kr = zip (Some <$> k2) c2 →
  StronglySorted klt (k1 ++ k2) ∧ Forall (λ k, klt k sep) k1 ∧ Forall (λ k, klt sep k) k2.
Proof.
  intros Hv Hc1 E1 E2. pose proof (iv_children _ _ _ _ Hv) as Hc. rewrite !length_app in Hc.
  assert ((kl ++ [x]).*1 = p.1 :: (Some <$> k1)) as F1.
  { rewrite E1. apply fst_zip. simpl. rewrite length_fmap. lia. }
  assert (kr.*1 = Some <$> k2) as F2.
  { rewrite E2. apply fst_zip. rewrite length_fmap. lia. }
  assert (StronglySorted low_lt (Some <$> (k1 ++ sep :: k2))) as Hs.
  { unfold lows_sorted in Hsorted.
    assert (L' = concat yl ++ (kl ++ [x]) ++ ((Some sep, rid) :: kr) ++ concat yr) as EL.
    { by rewrite <-!app_assoc. }
    rewrite EL, fmap_app in Hsorted. apply StronglySorted_app_1_r in Hsorted.
    rewrite app_assoc, fmap_app in Hsorted. apply StronglySorted_app_1_l in Hsorted.
    rewrite fmap_app, F1, fmap_cons, F2, <-app_comm_cons in Hsorted.
    apply StronglySorted_cons in Hsorted as [_ Hs]. by rewrite fmap_app, fmap_cons. }
  apply sorted_somes in Hs. apply StronglySorted_app in Hs as (Hs1&Hs2&H12).
  apply StronglySorted_cons in Hs2 as [Hk2 Hs2]. split_and!.
  - apply StronglySorted_app. split_and!; [done..|]. intros a b Ha Hb. apply H12; [done|by right].
  - apply Forall_forall. intros k Hk. apply H12; [done|left].
  - done.
Qed.

(** The level under the parent once it has the sibling. *)
Lemma parent_linked n' k1 k2 c1 c2 :
  same_shape s s3 → get s3 p.2 = Some n' → inner_view s n' (k1 ++ sep :: k2) (c1 ++ rid :: c2) →
  Forall (λ k, length k = l_words s) (k1 ++ k2) → length c1 = S (length k1) →
  kl ++ [x] = zip (p.1 :: (Some <$> k1)) c1 → kr = zip (Some <$> k2) c2 →
  Forall (λ y : Spot, keeps s s3 y.2) (al ++ ar) → linked s3 P L'.
Proof.
  intros Hsh Hg Hv Hw Hc1 E1 E2 [Hkl Hkr]%Forall_app. destruct Hlink as [EP Hl _ Hr _ _ _].
  exists (yl ++ (kl ++ x :: (Some sep, rid) :: kr) :: yr). split.
  - rewrite EP. apply Forall2_app; [by apply (kids_keep_all s)|].
    constructor; [|by apply (kids_keep_all s)].
    exists n', (k1 ++ sep :: k2), (c1 ++ rid :: c2). split_and!; [done|by apply (inner_shape s)|..].
    + destruct Hsh as (_&->&_). apply Forall_app in Hw as [Hw1 Hw2]. apply Forall_app.
      split; [done|by constructor].
    + rewrite fmap_app, fmap_cons, app_comm_cons, zip_with_app by (simpl; rewrite length_fmap; lia).
      rewrite <-E1, E2, <-app_assoc. done.
  - rewrite concat_app, concat_cons, <-!app_assoc. done.
Qed.
End under_parent.

(** * Above a level *)

(** The low end of a node is the low end of its first child. *)
Lemma kids_low_in s A yss y : Forall2 (kids_of s) A yss → y ∈ A → y.1 ∈ (concat yss).*1.
Proof.
  induction 1 as [|z ys A yss Hz _ IH]; [set_solver|]. rewrite concat_cons, fmap_app, elem_of_app.
  intros [->|Hy]%elem_of_cons; [|by right; apply IH].
  left. destruct (kids_cons s z ys Hz) as (k&ys'&->&Ek). rewrite <-Ek, fmap_cons. left.
Qed.

Section over_level.
Context (s : L0) (l rr : Level) (x : Spot) (n : Node) (ks : list (list Z)) (cs : list Z).
Context (yl yr : list Level).
Context (Hl : Forall2 (kids_of s) l yl) (Hr : Forall2 (kids_of s) rr yr).
Context (Hv : inner_view s n ks cs) (Hw : Forall (λ k, length k = l_words s) ks).
Notation B := (concat yl ++ zip (x.1 :: (Some <$> ks)) cs ++ concat yr).
Context (Hsorted : lows_sorted B) (m : nat) (sep : list Z) (Hsep : ks !! m = Some sep).

(** The separator an inner node splits at is between the low ends around it. *)
Lemma inner_sep :
  length sep = l_words s ∧ low_lt x.1 (Some sep) ∧ Forall (λ y : Spot, low_lt (Some sep) y.1) rr.
Proof.
  split; [by eapply Forall_lookup_1 in Hw|].
  unfold lows_sorted in Hsorted. rewrite !fmap_app in Hsorted.
  apply StronglySorted_app_1_r in Hsorted. rewrite (kids_lows s x n ks cs Hv) in Hsorted.
  assert (Some sep ∈ Some <$> ks) as Hin.
  { apply list_elem_of_fmap. exists sep. split; [done|]. by eapply list_elem_of_lookup_2. }
  split.
  - apply StronglySorted_app_1_l, StronglySorted_cons in Hsorted as [Hx _].
    rewrite Forall_forall in Hx. by apply Hx.
  - apply Forall_forall. intros y Hy. eapply StronglySorted_app_1_elem_of; [exact Hsorted|by right|].
    by eapply kids_low_in.
Qed.

Lemma inner_linked s3 nl nr rid :
  same_shape s s3 → Forall (λ y : Spot, keeps s s3 y.2) (l ++ rr) →
  get s3 x.2 = Some nl → inner_view s nl (take m ks) (take (S m) cs) →
  get s3 rid = Some nr → inner_view s nr (drop (S m) ks) (drop (S m) cs) →
  linked s3 (l ++ x :: (Some sep, rid) :: rr) B.
Proof.
  intros Hsh [Hkl Hkr]%Forall_app Hgl Hvl Hgr Hvr.
  exists (yl ++ zip (x.1 :: (Some <$> take m ks)) (take (S m) cs)
          :: zip (Some sep :: (Some <$> drop (S m) ks)) (drop (S m) cs) :: yr). split.
  - destruct Hsh as (E1&E2&E3). assert (same_shape s s3) as Hsh by done.
    apply Forall2_app; [by apply (kids_keep_all s)|]. constructor; [|constructor].
    + exists nl, (take m ks), (take (S m) cs). split_and!; [done|by apply (inner_shape s)| |done].
      rewrite E2. by apply Forall_take.
    + exists nr, (drop (S m) ks), (drop (S m) cs). split_and!; [done|by apply (inner_shape s)| |done].
      rewrite E2. by apply Forall_drop.
    + by apply (kids_keep_all s).
  - rewrite concat_app, !concat_cons. f_equal. rewrite (app_assoc (zip _ _) (zip _ _)). f_equal.
    pose proof (iv_children _ _ _ _ Hv). pose proof (lookup_lt_Some _ _ _ Hsep).
    rewrite <-zip_with_app by (rewrite length_cons, length_fmap, !length_take; lia).
    rewrite take_drop, <-app_comm_cons, <-fmap_cons, <-fmap_app, take_drop_middle by done. done.
Qed.
End over_level.

(** * The leaves *)

Lemma fenced_halves (l rr : Level) x el es er m sep rid :
  length l = length el → fenced (l ++ x :: rr) (el ++ es :: er) →
  (∀ e, e ∈ take m es → klt e.1 sep) → (∀ e, e ∈ drop m es → sle sep e.1) → low_lt x.1 (Some sep) →
  fenced (l ++ x :: (Some sep, rid) :: rr) (el ++ take m es :: drop m es :: er).
Proof.
  intros Hlen Hf Hlow Hhigh Hx. revert el Hlen Hf.
  induction l as [|y l IH]; intros [|ys el] Hlen Hf; try done.
  - destruct Hf as [He Hf]. rewrite <-(take_drop m es), Forall_app in He. destruct He as [H1 H2].
    rewrite Forall_forall in H1, H2. split; [|split; [|done]]; apply Forall_forall; intros e Hin.
    + destruct (H1 e Hin) as [Hlo Hgt]. split; [done|]. constructor; [by apply Hlow|done].
    + destruct (H2 e Hin) as [Hlo Hgt]. split; [by apply Hhigh|done].
  - destruct Hf as [He Hf]. split; [|apply IH; [by injection Hlen|done]].
    eapply Forall_impl; [exact He|]. intros e [Hlo Hgt]. split; [done|].
    rewrite Forall_app, Forall_cons in Hgt. destruct Hgt as (G1&G2&G3).
    apply Forall_app. split; [done|]. repeat (constructor; [done|]). constructor; [|done].
    by eapply low_gt_lt.
Qed.

Lemma chained_insert s s3 (l rr : Level) x sep nl nr rid :
  chained s (l ++ x :: rr) →
  Forall (λ y : Spot, keeps s s3 y.2) l → Forall (λ y : Spot, keeps s s3 y.2) rr →
  get s3 x.2 = Some nl → n_next nl = rid → get s3 rid = Some nr →
  n_next nr = match rr with [] => NONE | y :: _ => y.2 end →
  chained s3 (l ++ x :: (Some sep, rid) :: rr).
Proof.
  intros Hc Hl Hr Hgl Hnl Hgr Hnr. induction l as [|y l IH].
  - destruct Hc as [_ Hc]. split; [|split]; [by exists nl|by exists nr|].
    apply (chained_keep s); [|done]. eapply Forall_impl; [exact Hr|]. intros z. apply keeps_next.
  - destruct Hc as [(n&Hg&Hn) Hc]. apply Forall_cons in Hl as [(n'&v&Hg'&Hg3) Hl].
    split; [|by apply IH]. exists (set_version v n'). split; [done|].
    rewrite Hg in Hg'. injection Hg' as <-. simpl. rewrite Hn. by destruct l.
Qed.

Section leaves.
Context (s s3 : L0) (l rr : Level) (x : Spot) (n : Node).
Context (el er : list (list (list Z * Z))) (es : list (list Z * Z)).
Context (Hl : Forall2 (leaf_at s) l el) (Hr : Forall2 (leaf_at s) rr er).
Context (Hg : get s x.2 = Some n) (Hv : leaf_view s n es) (Hes : in_order es).
Context (Hfence : fenced (l ++ x :: rr) (el ++ es :: er)) (Hchain : chained s (l ++ x :: rr)).
Context (m : nat) (sep : list Z) (Hsep : es.*1 !! m = Some sep) (Hm : 0 < m).

Lemma leaf_halves : ∃ e, es !! m = Some e ∧ e.1 = sep
  ∧ (∀ e', e' ∈ take m es → klt e'.1 sep) ∧ (∀ e', e' ∈ drop m es → sle sep e'.1).
Proof.
  rewrite list_lookup_fmap in Hsep. destruct (es !! m) as [e|] eqn:E; [|done]. injection Hsep as <-.
  exists e. split_and!; try done.
  - intros e' (i&Hi)%list_elem_of_lookup. apply lookup_take_Some in Hi as [Hi Him].
    eapply (sorted_lookup es.*1 i m); [done|by rewrite list_lookup_fmap, Hi|by rewrite list_lookup_fmap, E|done].
  - intros e' (i&Hi)%list_elem_of_lookup. rewrite lookup_drop in Hi. destruct i as [|i].
    + rewrite Nat.add_0_r in Hi. by simplify_eq.
    + apply klt_weaken. eapply (sorted_lookup es.*1 m (m + S i));
        [done|by rewrite list_lookup_fmap, E|by rewrite list_lookup_fmap, Hi|lia].
Qed.

Lemma leaf_sep : low_lt x.1 (Some sep) ∧ Forall (λ y : Spot, low_lt (Some sep) y.1) rr.
Proof.
  destruct leaf_halves as (e&He&<-&Hlow&_).
  destruct (fenced_split l x rr _ Hfence) as (el'&es'&er'&E&Hlen&_&H2&H3&_).
  apply app_inj_1 in E as [-> [= -> ->]]; [|rewrite Hlen; symmetry; by eapply Forall2_length].
  assert (e ∈ es') as Hin by (by eapply list_elem_of_lookup_2). split.
  - destruct (lookup_lt_is_Some_2 es' 0) as [e0 He0]; [apply lookup_lt_Some in He; lia|].
    assert (klt e0.1 e.1) as Hlt.
    { apply Hlow. apply list_elem_of_lookup. exists 0. by rewrite lookup_take_lt. }
    assert (low_le x.1 e0.1) as Hle by (apply H2; by eapply list_elem_of_lookup_2).
    destruct (x.1); simpl in *; [by eapply sle_klt_trans|done].
  - apply Forall_forall. intros y Hy. specialize (H3 e y Hin Hy). by destruct (y.1).
Qed.

Lemma leaf_fenced rid :
  fenced (l ++ x :: (Some sep, rid) :: rr) (el ++ take m es :: drop m es :: er).
Proof.
  destruct leaf_halves as (e&_&_&Hlow&Hhigh). destruct leaf_sep as [Hx _].
  apply fenced_halves; [by eapply Forall2_length|done..].
Qed.

(** The sibling is next to the leaf in the chain. *)
Lemma leaf_chained nl nr rid :
  Forall (λ y : Spot, keeps s s3 y.2) (l ++ rr) → get s3 x.2 = Some nl → n_next nl = rid →
  get s3 rid = Some nr → n_next nr = n_next n → chained s3 (l ++ x :: (Some sep, rid) :: rr).
Proof.
  intros Hk Hgl Hnl Hgr Hnr. pose proof (chained_next s l x rr n Hchain Hg) as Hn.
  apply Forall_app in Hk as [Hkl Hkr].
  apply chained_insert with (s := s) (nl := nl) (nr := nr); try done. by rewrite Hnr, Hn.
Qed.
End leaves.
