(* ===== verification/L0Insert.v ===== *)
(** Inserting in the in-memory tree: every turn of [insert] either puts the entry in its leaf or
    splits the first full node on the way and starts over, and the turns come to an end. *)

From S2P Require Import Prelude Bloom Run RunRead L0 L0Node L0Leaf L0Arena L0Tree L0Read L0Write L0Split L0Grow.
Local Open Scope nat_scope.

(** * The tree after a split *)

Lemma ids_apart (A B : Level) y z : NoDup (A ++ B).*2 → y ∈ A → z ∈ B → y.2 ≠ z.2.
Proof.
  rewrite fmap_app, NoDup_app. intros (_&H&_) Hy Hz E.
  apply (H y.2); [by apply list_elem_of_fmap_2|]. rewrite E. by apply list_elem_of_fmap_2.
Qed.

(** What publishing a sibling leaves of the levels from the root to the one that split: [up] above
    the level [l ++ x :: rr] becomes [up'], and the sibling stands after [x]. *)
Record published (s s3 : L0) (up : list Level) (l rr : Level) (x : Spot) (down : list Level)
    (sep : list Z) (rid : Z) (nl nr : Node) (up' : list Level) : Prop := {
  pb_shape : same_shape s s3;
  pb_arena : arena_ok (l_nodes s3);
  pb_len : l_len s3 = l_len s;
  pb_next : (a_next (l_nodes s) ≤ a_next (l_nodes s3) ≤ a_next (l_nodes s) + 2)%Z;
  pb_left : get s3 x.2 = Some (Node_unlock nl);
  pb_right : get s3 rid = Some nr;
  pb_same : ∀ y, y ∈ l ++ rr ∨ y ∈ concat down → get s3 y.2 = get s y.2;
  pb_top : head (up' ++ [l ++ x :: (Some sep, rid) :: rr]) = Some [(None, l_root s3)];
  pb_links : links s3 (up' ++ [l ++ x :: (Some sep, rid) :: rr]);
  pb_sorted : Forall lows_sorted (up' ++ [l ++ x :: (Some sep, rid) :: rr]);
  pb_spots : ∃ news, concat (up' ++ [l ++ x :: (Some sep, rid) :: rr])
                     ≡ₚ news ++ concat (up ++ [l ++ x :: rr])
    ∧ NoDup news.*2 ∧ quiet s3 news
    ∧ Forall (λ y : Spot, a_next (l_nodes s) ≤ y.2 < a_next (l_nodes s3))%Z news;
  pb_quiet : quiet s3 (concat (up ++ [l ++ x :: rr])) }.

Section grow.
Context (s : L0) (lvs : list Level) (leaves : Level) (ess : list (list (list Z * Z))).
Context (T : Tree s lvs leaves ess).
Context (up : list Level) (l rr : Level) (x : Spot) (down : list Level).
Context (Eall : lvs ++ [leaves] = up ++ (l ++ x :: rr) :: down).
Context (s3 : L0) (sep : list Z) (rid : Z) (nl nr : Node) (up' : list Level).
Context (Pb : published s s3 up l rr x down sep rid nl nr up').
Notation L' := (l ++ x :: (Some sep, rid) :: rr).

Lemma concat_mid (A : Level) (u d : list Level) : concat (u ++ A :: d) = concat (u ++ [A]) ++ concat d.
Proof. rewrite !concat_app, concat_cons. cbn [concat]. by rewrite app_nil_r, app_assoc. Qed.

Lemma grow_same y : y ∈ l ++ rr ∨ y ∈ concat down → keeps s s3 y.2.
Proof.
  intros Hy. assert (y ∈ concat (lvs ++ [leaves])) as Hin.
  { rewrite Eall, concat_mid, concat_app. cbn [concat]. rewrite app_nil_r. set_solver. }
  pose proof (t_quiet _ _ _ _ T) as Hq. rewrite Forall_forall in Hq. destruct (Hq y Hin) as (n&Hn&_).
  exists n, (n_version n). rewrite (pb_same _ _ _ _ _ _ _ _ _ _ _ _ Pb) by done.
  split; [done|]. rewrite Hn. by destruct n.
Qed.

Lemma grow_keeps : Forall (λ y : Spot, keeps s s3 y.2) (l ++ rr) ∧ Forall (λ y : Spot, keeps s s3 y.2) (concat down).
Proof. split; apply Forall_forall; intros y Hy; apply grow_same; auto. Qed.

Lemma grow_spots :
  NoDup (concat (up' ++ L' :: down)).*2
  ∧ Forall (λ y : Spot, 0 ≤ y.2 < a_next (l_nodes s3))%Z (concat (up' ++ L' :: down))
  ∧ quiet s3 (concat (up' ++ L' :: down)).
Proof.
  destruct (pb_spots _ _ _ _ _ _ _ _ _ _ _ _ Pb) as (news&Hp&Hn&Hqn&Hrn).
  pose proof (t_ids _ _ _ _ T) as Hids. pose proof (t_range _ _ _ _ T) as Hr.
  pose proof (t_quiet _ _ _ _ T) as Hq. rewrite Eall, concat_mid in Hids, Hr, Hq.
  pose proof (ao_next _ (t_arena _ _ _ _ T)) as Ha. pose proof (pb_next _ _ _ _ _ _ _ _ _ _ _ _ Pb) as Hnx.
  apply (spots_grow s s3 (concat (up ++ [l ++ x :: rr]) ++ concat down) _ news); try done; [|lia|].
  - rewrite concat_mid, Hp. by rewrite <-app_assoc.
  - apply Forall_app. split; [apply (pb_quiet _ _ _ _ _ _ _ _ _ _ _ _ Pb)|].
    apply Forall_app in Hq as [_ Hq]. rewrite Forall_forall in *. intros y Hy.
    rewrite (pb_same _ _ _ _ _ _ _ _ _ _ _ _ Pb) by auto. by apply Hq.
Qed.

Lemma grow_sorted : Forall lows_sorted (up' ++ L' :: down).
Proof.
  pose proof (t_sorted _ _ _ _ T) as Hs. rewrite Eall in Hs.
  pose proof (pb_sorted _ _ _ _ _ _ _ _ _ _ _ _ Pb) as Hs'.
  rewrite Forall_app, Forall_cons in Hs. rewrite Forall_app, Forall_cons in Hs'.
  apply Forall_app. split; [apply Hs'|]. constructor; [apply Hs'|apply Hs].
Qed.

Lemma grow_top : head (up' ++ L' :: down) = Some [(None, l_root s3)].
Proof. pose proof (pb_top _ _ _ _ _ _ _ _ _ _ _ _ Pb) as H. by destruct up'. Qed.

(** The level that split was inner: the leaves are as they were. *)
Lemma grow_inner mid :
  down = mid ++ [leaves] → links s3 (L' :: down) → Tree s3 (up' ++ L' :: mid) leaves ess.
Proof.
  intros Ed Hlinks. destruct grow_spots as (H1&H2&H3). destruct grow_keeps as [K1 K2].
  assert ((up' ++ L' :: mid) ++ [leaves] = up' ++ L' :: down) as E.
  { by rewrite Ed, <-app_assoc, <-app_comm_cons. }
  assert (Forall (λ y : Spot, keeps s s3 y.2) leaves) as K3.
  { rewrite Ed, concat_app in K2. cbn [concat] in K2. rewrite app_nil_r in K2. by apply Forall_app in K2 as [_ ?]. }
  pose proof (pb_shape _ _ _ _ _ _ _ _ _ _ _ _ Pb) as Hsh.
  split; rewrite ?E; try done.
  - apply Pb.
  - destruct Hsh as (_&_&->). apply T.
  - apply grow_top.
  - apply links_app. split; [apply Pb|done].
  - apply grow_sorted.
  - apply (leaves_keep s); [done..|apply T].
  - apply (chained_keep s); [|apply T]. eapply Forall_impl; [exact K3|]. intros y. apply keeps_next.
  - apply T.
  - apply T.
  - destruct Hsh as (_&->&_). apply T.
  - rewrite (pb_len _ _ _ _ _ _ _ _ _ _ _ _ Pb). apply T.
Qed.

(** The leaves split. *)
Lemma grow_leaf n el es er m :
  down = [] → ess = el ++ es :: er → Forall2 (leaf_at s) l el → Forall2 (leaf_at s) rr er →
  get s x.2 = Some n → leaf_view s n es → es.*1 !! m = Some sep → 0 < m →
  leaf_view s nl (take m es) → leaf_view s nr (drop m es) → n_next nl = rid → n_next nr = n_next n →
  Tree s3 up' L' (el ++ take m es :: drop m es :: er)
  ∧ concat (el ++ take m es :: drop m es :: er) = concat ess.
Proof.
  intros Ed Ees Hl Hr Hg Hv Hsep Hm Hvl Hvr Hnl Hnr.
  destruct grow_spots as (H1&H2&H3). destruct grow_keeps as [K1 _].
  assert (concat (el ++ take m es :: drop m es :: er) = concat ess) as Ec.
  { rewrite Ees, !concat_app, !concat_cons. by rewrite (app_assoc (take m es)), take_drop. }
  split; [|done]. rewrite Ed in *. apply app_inj_2 in Eall as [Elvs [= Elv]]; [|done].
  pose proof (pb_shape _ _ _ _ _ _ _ _ _ _ _ _ Pb) as Hsh.
  assert (in_order es) as Hes.
  { pose proof (t_order _ _ _ _ T) as Ho. rewrite Ees, concat_app, concat_cons in Ho.
    by apply in_order_app in Ho as (_&(?&_)%in_order_app&_). }
  pose proof (t_fenced _ _ _ _ T) as Hf. rewrite Elv, Ees in Hf.
  pose proof (t_chain _ _ _ _ T) as Hch. rewrite Elv in Hch.
  split; try done.
  - apply Pb.
  - destruct Hsh as (_&_&->). apply T.
  - apply Pb.
  - apply Pb.
  - apply Pb.
  - apply Forall_app in K1 as [K1 K2]. apply Forall2_app; [by apply (leaves_keep s)|].
    constructor; [|constructor; [|by apply (leaves_keep s)]].
    + eexists. split; [apply Pb|]. apply (leaf_shape s); [done|]. by destruct Hvl; split.
    + eexists. split; [apply Pb|]. by apply (leaf_shape s).
  - eapply (leaf_chained s s3 l rr x n Hg Hch sep (Node_unlock nl) nr rid); try done; apply Pb.
  - eapply leaf_fenced; try done.
  - rewrite Ec. apply T.
  - rewrite Ec. destruct Hsh as (_&->&_). apply T.
  - rewrite Ec, (pb_len _ _ _ _ _ _ _ _ _ _ _ _ Pb). apply T.
Qed.
End grow.

(** * Publishing, seen in the levels *)

(** Whether the node of a level that holds [probe] is full. *)
Definition flag (s : L0) (probe : list Z) (A : Level) (b : bool) : Prop :=
  ∃ x n, owner probe A x ∧ get s x.2 = Some n ∧ b = (n_count n =? l_capacity s).

Lemma owner_unique probe A x y : owner probe A x → owner probe A y → x = y.
Proof.
  intros (l&r&->&Hx&Hr) (l'&r'&E&Hy&Hr').
  assert (∀ z : Spot, low_le z.1 probe → low_gt z.1 probe → False) as Hno.
  { intros [[k|] i]; simpl; [|done]. rewrite klt_sle. done. }
  destruct (decide (length l < length l')) as [Hlt|Hge].
  - destruct (Hno y); [done|]. rewrite Forall_forall in Hr. apply Hr.
    apply list_elem_of_lookup. exists (length l' - S (length l)).
    assert ((l ++ x :: r) !! length l' = Some y) as Hl by (rewrite E; by apply list_lookup_middle).
    rewrite lookup_app_r in Hl by lia. replace (length l' - length l) with (S (length l' - S (length l))) in Hl by lia. done.
  - destruct (decide (length l' < length l)) as [Hlt'|Hge'].
    + destruct (Hno x); [done|]. rewrite Forall_forall in Hr'. apply Hr'.
      apply list_elem_of_lookup. exists (length l - S (length l')).
      assert ((l' ++ y :: r') !! length l = Some x) as Hl by (rewrite <-E; by apply list_lookup_middle).
      rewrite lookup_app_r in Hl by lia. replace (length l - length l') with (S (length l - S (length l'))) in Hl by lia. done.
    + apply app_inj_1 in E as [_ [= ->]]; [done|lia].
Qed.

Lemma flag_of s probe A b x n :
  flag s probe A b → owner probe A x → get s x.2 = Some n → b = (n_count n =? l_capacity s).
Proof.
  intros (y&n'&Hy&Hg&->) Hx Hg'. rewrite (owner_unique probe A x y Hx Hy) in Hg'. by simplify_eq.
Qed.

Lemma flag_keep s s3 probe A b :
  same_shape s s3 → Forall (λ y : Spot, keeps s s3 y.2) A → flag s probe A b → flag s3 probe A b.
Proof.
  intros (_&_&E) Hk (x&n&Ho&Hg&->). rewrite Forall_forall in Hk.
  destruct (Hk x (owner_in _ _ _ Ho)) as (n'&v&Hg'&Hg3). rewrite Hg in Hg'. injection Hg' as <-.
  exists x, (set_version v n). split_and!; [done..|]. by rewrite E.
Qed.

(** After the split of the node that holds [probe], whichever half holds it now has room. *)
Lemma flag_halves s3 probe (l rr : Level) x sep rid nl nr :
  low_le x.1 probe → Forall (λ y : Spot, low_gt y.1 probe) rr →
  get s3 x.2 = Some nl → get s3 rid = Some nr →
  n_count nl < l_capacity s3 → n_count nr < l_capacity s3 →
  flag s3 probe (l ++ x :: (Some sep, rid) :: rr) false.
Proof.
  intros Hx Hr Hgl Hgr Hcl Hcr. destruct (low_le_or_gt (Some sep) probe) as [Hs|Hs].
  - exists (Some sep, rid), nr. split_and!; [|done|symmetry; apply Nat.eqb_neq; lia].
    exists (l ++ [x]), rr. split_and!; [by rewrite <-app_assoc|done|done].
  - exists x, nl. split_and!; [|done|symmetry; apply Nat.eqb_neq; lia].
    exists l, ((Some sep, rid) :: rr). split_and!; [done|done|]. by constructor.
Qed.

Section publish.
Context (split : Z → option Z → L0 → option (Result unit * L0)).
Context (s : L0) (lvs : list Level) (leaves : Level) (ess : list (list (list Z * Z))).
Context (T : Tree s lvs leaves ess) (probe : list Z).
Context (x : Spot) (n : Node) (Hg : get s x.2 = Some n) (down : list Level).
Context (Hroom : (a_next (l_nodes s) + 1 < NONE)%Z).
Context (s' : L0) (nl nr : Node) (sep : list Z) (rid : Z) (Hsep : length sep = l_words s).
Notation locked n := (set_version (n_version n + 1) n).

Lemma spot_range A y :
  A ∈ lvs ++ [leaves] → y ∈ A →
  (0 ≤ y.2 < a_next (l_nodes s))%Z ∧ ∃ m, get s y.2 = Some m ∧ Z.land (n_version m) 1 = 0%Z.
Proof.
  intros HA Hy. pose proof (t_range _ _ _ _ T) as Hr. pose proof (t_quiet _ _ _ _ T) as Hq.
  rewrite Forall_forall in Hr, Hq.
  assert (y ∈ concat (lvs ++ [leaves])) as Hc by (by eapply elem_of_concat_2).
  split; [by apply (Hr y)|by apply Hq].
Qed.

Lemma published_root :
  x = (None, l_root s) → lvs ++ [leaves] = [] ++ ([] ++ x :: []) :: down →
  split x.2 None (put x.2 (locked n) s) = publish x.2 None sep rid s' →
  halved (put x.2 (locked n) s) s' x.2 rid (locked n) nl nr →
  ∃ s3, split_turn split None (x.2, n_version n) s = Some (Again, s3)
    ∧ published s s3 [] [] [] x down sep rid nl nr [[(None, (rid + 1)%Z)]]
    ∧ flag s3 probe [(None, (rid + 1)%Z)] false.
Proof.
  intros Ex Eall Esplit Hh.
  destruct (spot_range [x] x) as (Hrx&n0&Hg0&Hevx); [rewrite Eall; set_solver|set_solver|].
  rewrite Hg in Hg0. injection Hg0 as <-. pose proof (ha_version _ _ _ _ _ _ _ Hh) as [Hvl Hvr].
  destruct (split_turn_root split s x.2 n (t_arena _ _ _ _ T) Hg Hrx Hroom (t_cap _ _ _ _ T)
    s' nl nr sep rid Esplit Hh Hsep) as (s3&root&E&Ht&Hrid&Hnext&Hroot&Hgl&Hgr&Hgroot&Hvroot&Hverroot).
  pose proof (ao_next _ (t_arena _ _ _ _ T)) as Hn.
  assert (∀ y, y ∈ [] ++ [] ∨ y ∈ concat down → get s3 y.2 = get s y.2) as Hsame.
  { intros y [Hy|Hy]; [set_solver|]. pose proof (t_ids _ _ _ _ T) as Hids. rewrite Eall in Hids.
    cbn [app concat] in Hids. change (x :: concat down) with ([x] ++ concat down) in Hids.
    assert (y ∈ concat (lvs ++ [leaves])) as Hin by (rewrite Eall; cbn [app concat]; set_solver).
    pose proof (t_range _ _ _ _ T) as Hr. rewrite Forall_forall in Hr. specialize (Hr y Hin). simpl in Hr.
    pose proof (ids_apart [x] (concat down) x y Hids ltac:(left) Hy).
    apply (to_other _ _ _ Ht); [lia|]. rewrite !not_elem_of_cons. split_and!; [done|lia|lia|set_solver]. }
  exists s3. split; [done|]. split.
  - split; try done; try (apply Ht).
    + lia.
    + rewrite Hroot. done.
    + split; [|done]. exists [[x; (Some sep, rid)]]. split; [|done]. constructor; [|constructor].
      exists root, [sep], [x.2; rid]. split_and!; [done|by apply (inner_shape s); [apply Ht|]| |by rewrite Ex].
      destruct (to_shape _ _ _ Ht) as (_&->&_). by repeat constructor.
    + repeat constructor. by rewrite Ex.
    + exists [(Some sep, rid); (None, (rid + 1)%Z)]. cbn [app concat]. split_and!.
      * apply (Permutation_app_comm [(None, (rid + 1)%Z); x] [(Some sep, rid)]).
      * apply NoDup_cons. split; [|apply NoDup_singleton].
        cbn [snd fmap list_fmap]. rewrite list_elem_of_singleton. lia.
      * constructor; [|constructor; [|constructor]]; simpl.
        -- exists nr. by rewrite Hvr.
        -- exists root. by rewrite Hverroot.
      * repeat constructor; simpl; lia.
    + constructor; [|constructor]. exists (Node_unlock nl). split; [done|]. simpl. rewrite Hvl.
      by apply even_unlocked.
  - exists (None, (rid + 1)%Z), root. split_and!; [by exists [], []|done|].
    rewrite (iv_count _ _ _ _ Hvroot). destruct (to_shape _ _ _ Ht) as (_&_&->).
    pose proof (t_cap _ _ _ _ T). symmetry. apply Nat.eqb_neq. simpl. lia.
Qed.

Section parent.
Context (up0 : list Level) (P : Level) (p : Spot) (pn : Node).
Context (al ar : Level) (yl yr : list Level) (kl kr : Level).
Notation l := (concat yl ++ kl).
Notation rr := (kr ++ concat yr).
Context (Hlink : child_link s probe P p (l ++ x :: rr) x al ar yl yr kl kr).
Context (Eall : lvs ++ [leaves] = (up0 ++ [P]) ++ (l ++ x :: rr) :: down).
Context (Hgp : get s p.2 = Some pn) (Hpcap : n_count pn < l_capacity s) (Hop : owner probe P p).
Context (Hlow : low_lt x.1 (Some sep)) (Hhigh : Forall (λ y : Spot, low_lt (Some sep) y.1) rr).

(** The spots of the tree by where they are: above the parent's level, beside the parent, the
    parent, beside the node, the node, and below. *)
Lemma parent_spots :
  concat (lvs ++ [leaves]) ≡ₚ x :: p :: concat up0 ++ (al ++ ar) ++ (l ++ rr) ++ concat down.
Proof.
  rewrite Eall, concat_mid, <-app_assoc. rewrite !concat_app. cbn [app concat].
  rewrite app_nil_r, (cl_upper _ _ _ _ _ _ _ _ _ _ _ _ Hlink). solve_Permutation.
Qed.

Lemma parent_apart y :
  y ∈ concat up0 ++ (al ++ ar) ++ (l ++ rr) ++ concat down → y.2 ≠ x.2 ∧ y.2 ≠ p.2.
Proof.
  intros Hy. pose proof (t_ids _ _ _ _ T) as Hids. rewrite parent_spots in Hids.
  rewrite !fmap_cons in Hids. apply NoDup_cons in Hids as [H1 Hids]. apply NoDup_cons in Hids as [H2 _].
  apply (list_elem_of_fmap_2 snd) in Hy. simpl in Hy.
  split; intros E; rewrite E in Hy; [apply H1; by right|by apply H2].
Qed.

Lemma published_parent :
  split x.2 (Some p.2) (put x.2 (locked n) (put p.2 (locked pn) s)) = publish x.2 (Some p.2) sep rid s' →
  halved (put x.2 (locked n) (put p.2 (locked pn) s)) s' x.2 rid (locked n) nl nr →
  ∃ s3, split_turn split (Some (p.2, n_version pn)) (x.2, n_version n) s = Some (Again, s3)
    ∧ published s s3 (up0 ++ [P]) l rr x down sep rid nl nr (up0 ++ [P])
    ∧ (∃ b, flag s3 probe P b) ∧ Forall (λ y : Spot, keeps s s3 y.2) (concat up0).
Proof.
  intros Esplit Hh. pose proof (t_ids _ _ _ _ T) as Hids. rewrite parent_spots in Hids.
  pose proof (t_range _ _ _ _ T) as Hr. rewrite parent_spots in Hr.
  pose proof (t_quiet _ _ _ _ T) as Hq. rewrite parent_spots in Hq.
  apply Forall_cons in Hr as [Hrx Hr]. apply Forall_cons in Hr as [Hrp Hr].
  apply Forall_cons in Hq as [(n0&Hg0&Hevx) Hq]. apply Forall_cons in Hq as [(p0&Hgp0&Hevp) Hq].
  rewrite Hg in Hg0. injection Hg0 as <-. rewrite Hgp in Hgp0. injection Hgp0 as <-.
  pose proof (ha_version _ _ _ _ _ _ _ Hh) as [Hvl Hvr].
  pose proof (t_sorted _ _ _ _ T) as Hs. rewrite Eall in Hs.
  assert (lows_sorted (l ++ x :: (Some sep, rid) :: rr)) as HsL.
  { apply sorted_insert; [|done..]. apply Forall_app in Hs as [_ Hs]. by apply Forall_cons in Hs as [? _]. }
  destruct (kids_split s p kl x kr (cl_kids _ _ _ _ _ _ _ _ _ _ _ _ Hlink))
    as (pn'&k1&k2&c1&c2&Hgp'&Hvp&Hk1&Hc1&E1&E2&Hw). rewrite Hgp in Hgp'. injection Hgp' as <-.
  assert (length c1 = S (length k1)) as Hc1' by congruence.
  destruct (parent_seps s p x yl yr kl kr sep rid Hsep HsL pn k1 k2 c1 c2 Hvp Hc1' E1 E2) as (Hks&Hkl&Hkr).
  assert (p.2 ≠ x.2) as Hne.
  { rewrite !fmap_cons in Hids. apply NoDup_cons in Hids as [H1 _]. intros E. apply H1. rewrite E. left. }
  destruct (split_turn_parent split s x.2 n (t_arena _ _ _ _ T) Hg Hrx Hroom (t_cap _ _ _ _ T)
    s' nl nr sep rid p.2 pn k1 k2 c1 c2) as (s3&p'&E&Ht&Hrid&Hnext&Hroot&Hgl&Hgr&Hgp3&Hverp&Hvp');
    try done; [by rewrite <-(iv_count _ _ _ _ Hvp)|].
  assert (∀ y, y ∈ concat up0 ++ (al ++ ar) ++ (l ++ rr) ++ concat down → get s3 y.2 = get s y.2) as Hsame.
  { intros y Hy. destruct (parent_apart y Hy) as [Hyx Hyp]. rewrite Forall_forall in Hr.
    specialize (Hr y Hy). simpl in Hr. apply (to_other _ _ _ Ht); [lia|].
    rewrite !not_elem_of_cons. split_and!; [done|lia|done|apply not_elem_of_nil]. }
  assert (∀ y, y ∈ concat up0 ++ (al ++ ar) ++ (l ++ rr) ++ concat down → keeps s s3 y.2) as Hkeep.
  { intros y Hy. rewrite Forall_forall in Hq. destruct (Hq y Hy) as (m&Hm&_).
    exists m, (n_version m). rewrite Hsame by done. split; [done|]. rewrite Hm. by destruct m. }
  assert (Forall (λ y : Spot, keeps s s3 y.2) (concat up0)) as Hkup.
  { apply Forall_forall. intros y Hy. apply Hkeep. rewrite !elem_of_app. auto. }
  exists s3. split; [done|]. split; [|split; [|done]].
  - split; try done; try (apply Ht).
    + lia.
    + intros y Hy. apply Hsame. rewrite !elem_of_app in *. tauto.
    + pose proof (t_top _ _ _ _ T) as Htop. rewrite Eall in Htop. rewrite Hroot. by destruct up0.
    + pose proof (t_links _ _ _ _ T) as Hl. rewrite Eall, <-app_assoc in Hl. rewrite <-app_assoc.
      apply links_app in Hl as [Hl _]. apply links_app. split; [by apply (links_keep_above s); [apply Ht|..]|].
      split; [|done]. apply (parent_linked s s3 probe P (l ++ x :: rr) p x al ar yl yr kl kr)
        with (n' := Node_unlock p') (k1 := k1) (k2 := k2) (c1 := c1) (c2 := c2); try done; [apply Ht|..].
      * by destruct Hvp'; split.
      * apply Forall_forall. intros y Hy. apply Hkeep. rewrite !elem_of_app in *. tauto.
    + apply Forall_app in Hs as [Hs _]. apply Forall_app. split; [done|]. by repeat constructor.
    + exists [(Some sep, rid)]. rewrite !concat_app. cbn [concat app]. rewrite !app_nil_r. split_and!.
      * solve_Permutation.
      * apply NoDup_singleton.
      * constructor; [|constructor]. exists nr. by rewrite Hvr.
      * constructor; [|constructor]. simpl. lia.
    + apply Forall_forall. intros y Hy.
      assert (y ∈ x :: p :: concat up0 ++ (al ++ ar) ++ (l ++ rr) ++ concat down) as Hin.
      { rewrite <-parent_spots, Eall, concat_mid, elem_of_app. by left. }
      rewrite !elem_of_cons in Hin. destruct Hin as [->|[->|Hin]].
      * eexists. split; [done|]. simpl. rewrite Hvl. by apply even_unlocked.
      * eexists. split; [done|]. simpl. rewrite Hverp. by apply even_unlocked.
      * rewrite Hsame by done. rewrite Forall_forall in Hq. by apply Hq.
  - exists (n_count p' =? l_capacity s). exists p, (Node_unlock p'). split_and!; [done..|].
    by destruct (to_shape _ _ _ Ht) as (_&_&->).
Qed.
End parent.
End publish.

(** * A turn that splits, seen in the levels *)

(** The flags of the path to [probe] before a split and after it. A split clears the first flag
    set and may set the one above it, or adds a root above a root that was full. *)
Inductive shrinks : list bool → list bool → Prop :=
| shrinks_root rest : shrinks (true :: rest) (false :: false :: rest)
| shrinks_under pre b rest : shrinks (pre ++ false :: true :: rest) (pre ++ b :: false :: rest).

Definition path (s : L0) (probe : list Z) (all : list Level) (fs : list bool) : Prop :=
  Forall2 (flag s probe) all fs.

Lemma path_keep s s3 probe (lv : list Level) fs :
  same_shape s s3 → Forall (λ y : Spot, keeps s s3 y.2) (concat lv) →
  path s probe lv fs → path s3 probe lv fs.
Proof.
  intros Hsh Hk. induction 1 as [|A b lv fs HA _ IH]; [constructor|].
  rewrite concat_cons, Forall_app in Hk. destruct Hk as [HkA Hk].
  constructor; [by eapply flag_keep|by apply IH].
Qed.

(** How the descent came to the node [x] of a level: at the root, or from a parent with room. *)
Inductive arrived (s : L0) (probe : list Z) : list Level → Level → Spot → option Held → Prop :=
| arrived_top : arrived s probe [] [(None, l_root s)] (None, l_root s) None
| arrived_under up0 P p pn L x :
    linked_child s probe P p L x → owner probe P p → get s p.2 = Some pn →
    n_count pn < l_capacity s → arrived s probe (up0 ++ [P]) L x (Some (p.2, n_version pn)).

Section split_turn_levels.
Context (split : Z → option Z → L0 → option (Result unit * L0)).
Context (s : L0) (lvs : list Level) (leaves : Level) (ess : list (list (list Z * Z))).
Context (T : Tree s lvs leaves ess) (probe : list Z).
Context (up : list Level) (L : Level) (down : list Level) (x : Spot) (n : Node) (parent : option Held).
Context (Eall : lvs ++ [leaves] = up ++ L :: down) (Harr : arrived s probe up L x parent).
Context (Hg : get s x.2 = Some n) (Hfull : n_count n = l_capacity s).
Context (Hroom : (a_next (l_nodes s) + 1 < NONE)%Z).
Notation locked n := (set_version (n_version n + 1) n).

(** What a kind of split promises: halves with room, a separator between the low ends around the
    node, and a tree once the sibling is published. *)
Record splits (nl nr : Node) (sep : list Z) (rid : Z) : Prop := {
  sp_words : length sep = l_words s;
  sp_left : n_count nl < l_capacity s;
  sp_right : n_count nr < l_capacity s;
  sp_between : ∀ l rr, L = l ++ x :: rr →
    low_lt x.1 (Some sep) ∧ Forall (λ y : Spot, low_lt (Some sep) y.1) rr;
  sp_tree : ∀ s3 l rr up', L = l ++ x :: rr → published s s3 up l rr x down sep rid nl nr up' →
    ∃ lvs' leaves' ess', lvs' ++ [leaves'] = up' ++ (l ++ x :: (Some sep, rid) :: rr) :: down
      ∧ Tree s3 lvs' leaves' ess' ∧ concat ess' = concat ess }.

Context (Hsplit : ∀ s1 par, arena_ok (l_nodes s1) → get s1 x.2 = Some (locked n) → same_shape s s1 →
  a_next (l_nodes s1) = a_next (l_nodes s) →
  ∃ s' nl nr sep rid, split x.2 par s1 = publish x.2 par sep rid s'
    ∧ halved s1 s' x.2 rid (locked n) nl nr ∧ splits nl nr sep rid).

Lemma published_path s3 l rr sep rid nl nr up' fs_up fs_down :
  L = l ++ x :: rr → published s s3 up l rr x down sep rid nl nr up' → splits nl nr sep rid →
  low_le x.1 probe → Forall (λ y : Spot, low_gt y.1 probe) rr →
  path s3 probe up' fs_up → path s probe down fs_down →
  path s3 probe (up' ++ (l ++ x :: (Some sep, rid) :: rr) :: down) (fs_up ++ false :: fs_down).
Proof.
  intros EL Pb Hsp Hx Hrr Hup Hdown. pose proof (pb_shape _ _ _ _ _ _ _ _ _ _ _ _ Pb) as Hsh.
  rewrite EL in Eall. apply Forall2_app; [done|]. constructor.
  - pose proof Hsh as (_&_&Ec).
    apply (flag_halves s3 probe l rr x sep rid (Node_unlock nl) nr); try done; try (apply Pb);
      rewrite Ec; simpl; apply Hsp.
  - apply (path_keep s); [done| |done].
    by apply (grow_keeps s lvs leaves ess T up l rr x down Eall s3 sep rid nl nr up').
Qed.

(** At the root. *)
Lemma split_turn_top fs_down :
  up = [] → L = [x] → x = (None, l_root s) → parent = None → path s probe down fs_down →
  ∃ s3 lvs' leaves' ess',
    split_turn split parent (x.2, n_version n) s = Some (Again, s3)
    ∧ Tree s3 lvs' leaves' ess' ∧ concat ess' = concat ess ∧ same_shape s s3
    ∧ (a_next (l_nodes s3) ≤ a_next (l_nodes s) + 2)%Z
    ∧ path s3 probe (lvs' ++ [leaves']) (false :: false :: fs_down).
Proof.
  intros Eup EL Ex Epar Hdown. rewrite Epar.
  destruct (spot_range s lvs leaves ess T L x) as (Hrx&_).
  { rewrite Eall. apply elem_of_app. right. left. }
  { rewrite EL. left. }
  pose proof (put_rewritten s x.2 (locked n) n ltac:(lia) (t_arena _ _ _ _ T) Hg) as [R1 R2 R3 R4 R5 R6 R7].
  destruct (Hsplit (put x.2 (locked n) s) None) as (s'&nl&nr&sep&rid&E&Hh&Hsp); [done..|].
  assert (lvs ++ [leaves] = [] ++ ([] ++ x :: []) :: down) as Eall' by (by rewrite Eall, Eup, EL).
  destruct (published_root split s lvs leaves ess T probe x n Hg down Hroom s' nl nr sep rid
    (sp_words _ _ _ _ Hsp) Ex Eall' E Hh) as (s3&Et&Pb&Hfl). rewrite <-Eup in Pb.
  destruct (sp_tree _ _ _ _ Hsp s3 [] [] _ EL Pb) as (lvs'&leaves'&ess'&El&T3&Ec).
  exists s3, lvs', leaves', ess'. split_and!; [done..|apply Pb|apply Pb|].
  rewrite El. apply (published_path s3 [] [] sep rid nl nr _ [false] fs_down); try done.
  - by rewrite Ex.
  - by repeat constructor.
Qed.

(** Under a parent. *)
Lemma split_turn_under up0 P p pn al ar yl yr kl kr pre fs_down :
  up = up0 ++ [P] → parent = Some (p.2, n_version pn) →
  child_link s probe P p L x al ar yl yr kl kr → owner probe P p → get s p.2 = Some pn →
  n_count pn < l_capacity s → path s probe up0 pre → path s probe down fs_down →
  ∃ s3 lvs' leaves' ess' b,
    split_turn split parent (x.2, n_version n) s = Some (Again, s3)
    ∧ Tree s3 lvs' leaves' ess' ∧ concat ess' = concat ess ∧ same_shape s s3
    ∧ (a_next (l_nodes s3) ≤ a_next (l_nodes s) + 2)%Z
    ∧ path s3 probe (lvs' ++ [leaves']) (pre ++ b :: false :: fs_down).
Proof.
  intros Eup Epar Hlink Hop Hgp Hpcap Hpre Hdown. rewrite Epar.
  assert (L = (concat yl ++ kl) ++ x :: (kr ++ concat yr)) as EL.
  { rewrite (cl_lower _ _ _ _ _ _ _ _ _ _ _ _ Hlink), <-!app_assoc. done. }
  destruct (spot_range s lvs leaves ess T L x) as (Hrx&_).
  { rewrite Eall. apply elem_of_app. right. left. }
  { rewrite EL. apply elem_of_app. right. left. }
  destruct (spot_range s lvs leaves ess T P p) as (Hrp&_).
  { rewrite Eall, Eup. apply elem_of_app. left. apply elem_of_app. right. left. }
  { by eapply owner_in. }
  assert (p.2 ≠ x.2) as Hne.
  { eapply (tree_ids_ne s lvs leaves ess T up0 P L down); [by rewrite Eall, Eup, <-app_assoc|by eapply owner_in|].
    rewrite EL. apply elem_of_app. right. left. }
  pose proof (put_rewritten s p.2 (locked pn) pn ltac:(lia) (t_arena _ _ _ _ T) Hgp) as R.
  assert (get (put p.2 (locked pn) s) x.2 = Some n) as Hg1 by (by rewrite get_put_other by (done || lia)).
  pose proof (put_rewritten _ x.2 (locked n) n ltac:(lia) (rw_arena _ _ _ _ _ R) Hg1) as R1.
  destruct (Hsplit (put x.2 (locked n) (put p.2 (locked pn) s)) (Some p.2))
    as (s'&nl&nr&sep&rid&E&Hh&Hsp); [apply R1|apply R1|done|by rewrite (rw_next _ _ _ _ _ R1), (rw_next _ _ _ _ _ R)|].
  destruct (sp_between _ _ _ _ Hsp _ _ EL) as [Hlow Hhigh].
  pose proof Hlink as Hlink'. rewrite EL in Hlink'. pose proof Eall as Eall'. rewrite Eup, EL in Eall'.
  destruct (published_parent split s lvs leaves ess T probe x n Hg down Hroom s' nl nr sep rid
    (sp_words _ _ _ _ Hsp) up0 P p pn al ar yl yr kl kr Hlink' Eall' Hgp Hpcap Hop Hlow Hhigh E Hh)
    as (s3&Et&Pb&(b&Hb)&Hkup). rewrite <-Eup in Pb.
  destruct (sp_tree _ _ _ _ Hsp s3 _ _ _ EL Pb) as (lvs'&leaves'&ess'&El&T3&Ec).
  exists s3, lvs', leaves', ess', b. split_and!; [done..|apply Pb|apply Pb|].
  rewrite El. change (pre ++ b :: false :: fs_down) with (pre ++ [b] ++ false :: fs_down).
  rewrite app_assoc. apply (published_path s3 _ _ sep rid nl nr _ (pre ++ [b]) fs_down); try done.
  - apply Hlink.
  - apply Hlink.
  - rewrite Eup. apply Forall2_app; [|by repeat constructor].
    apply (path_keep s); [apply Pb|done|done].
Qed.

Lemma split_turn_levels fs :
  path s probe (lvs ++ [leaves]) fs →
  ∃ s3 lvs' leaves' ess' fs',
    split_turn split parent (x.2, n_version n) s = Some (Again, s3)
    ∧ Tree s3 lvs' leaves' ess' ∧ concat ess' = concat ess ∧ same_shape s s3
    ∧ (a_next (l_nodes s3) ≤ a_next (l_nodes s) + 2)%Z
    ∧ path s3 probe (lvs' ++ [leaves']) fs' ∧ shrinks fs fs'.
Proof.
  intros Hpath. rewrite Eall in Hpath.
  apply Forall2_app_inv_l in Hpath as (fs_up&fs0&Hup&Hpath&->).
  apply Forall2_cons_inv_l in Hpath as (b&fs_down&Hb&Hdown&->).
  inversion Harr as [E1 E2 E3 E4|up0 P p pn L' x' (al&ar&yl&yr&kl&kr&Hlink) Hop Hgp Hpcap E1 E2 E3 E4].
  - assert (b = true) as ->.
    { rewrite (flag_of s probe L b x n Hb); [by rewrite Hfull, Nat.eqb_refl| |done].
      rewrite <-E2, <-E3. by exists [], []. }
    destruct (split_turn_top fs_down) as (s3&lvs'&leaves'&ess'&H); [done|by rewrite <-E2, <-E3|done..|].
    exists s3, lvs', leaves', ess', (false :: false :: fs_down).
    rewrite <-E1 in Hup. inversion Hup; subst fs_up. destruct H as (H1&H2&H3&H4&H5&H6).
    split_and!; [by rewrite E3, E4|exact H2|exact H3|exact H4|exact H5|exact H6|constructor].
  - subst L' x'. assert (b = true) as ->.
    { rewrite (flag_of s probe L b x n Hb); [by rewrite Hfull, Nat.eqb_refl| |done].
      exists (concat yl ++ kl), (kr ++ concat yr). split_and!; [|apply Hlink..].
      rewrite (cl_lower _ _ _ _ _ _ _ _ _ _ _ _ Hlink), <-!app_assoc. done. }
    rewrite <-E1 in Hup. apply Forall2_app_inv_l in Hup as (pre&fs1&Hpre&Hfs1&->).
    apply Forall2_cons_inv_l in Hfs1 as (c&fs2&Hc&Hnil&->). inversion Hnil; subst fs2.
    assert (c = false) as ->.
    { rewrite (flag_of s probe P c p pn Hc Hop Hgp). apply Nat.eqb_neq. lia. }
    destruct (split_turn_under up0 P p pn al ar yl yr kl kr pre fs_down)
      as (s3&lvs'&leaves'&ess'&b&?&?&?&?&?&?); try done.
    exists s3, lvs', leaves', ess', (pre ++ b :: false :: fs_down).
    split_and!; [by rewrite E4|done..|]. rewrite <-app_assoc. constructor.
Qed.
End split_turn_levels.

(** * The two kinds of split *)

Lemma inner_view_unique s n ks cs ks' cs' :
  inner_view s n ks cs → inner_view s n ks' cs' → ks = ks' ∧ cs = cs'.
Proof.
  intros [_ _ C1 D1 R1 V1] [_ _ C2 D2 R2 V2]. split.
  - apply list_eq_same_length with (length ks); [congruence|done|]. intros i k k' _ Hk Hk'.
    by rewrite <-(R1 _ _ Hk), <-(R2 _ _ Hk').
  - apply list_eq_same_length with (length cs); [congruence|done|]. intros i c c' _ Hc Hc'.
    pose proof (V1 _ _ Hc). pose proof (V2 _ _ Hc'). congruence.
Qed.

Lemma leaf_view_unique s n es es' : leaf_view s n es → leaf_view s n es' → es = es'.
Proof.
  intros [_ _ C1 V1] [_ _ C2 V2]. apply list_eq_same_length with (length es); [congruence|done|].
  intros i [k v] [k' v'] _ He He'. destruct (V1 _ _ He) as [R1 W1], (V2 _ _ He') as [R2 W2].
  simpl in *. congruence.
Qed.

Section kinds.
Context (s : L0) (lvs : list Level) (leaves : Level) (ess : list (list (list Z * Z))).
Context (T : Tree s lvs leaves ess) (probe : list Z).
Context (up : list Level) (L : Level) (down : list Level) (x : Spot) (n : Node).
Context (Eall : lvs ++ [leaves] = up ++ L :: down) (Hx : x ∈ L).
Context (Hg : get s x.2 = Some n) (Hfull : n_count n = l_capacity s).
Context (Hroom : (a_next (l_nodes s) + 1 < NONE)%Z).
Notation locked n := (set_version (n_version n + 1) n).
Notation m := (l_capacity s / 2).

Lemma node_range : (0 ≤ x.2 < NONE)%Z.
Proof.
  destruct (tree_spot s _ _ _ T L x) as [H _]; [|done|done]. rewrite Eall. apply elem_of_app. right. left.
Qed.

Lemma half_capacity : 2 ≤ m ∧ m + 1 < l_capacity s.
Proof.
  pose proof (t_cap _ _ _ _ T). pose proof (Nat.div_mod (l_capacity s) 2 ltac:(lia)).
  pose proof (Nat.mod_upper_bound (l_capacity s) 2 ltac:(lia)). lia.
Qed.

(** The children of the node, with the level below cut around them. *)
Lemma inner_kids B down' l rr :
  down = B :: down' → L = l ++ x :: rr →
  ∃ ks cs yl yr, inner_view s n ks cs ∧ Forall (λ k, length k = l_words s) ks
    ∧ Forall2 (kids_of s) l yl ∧ Forall2 (kids_of s) rr yr
    ∧ B = concat yl ++ zip (x.1 :: (Some <$> ks)) cs ++ concat yr ∧ lows_sorted B.
Proof.
  intros Ed EL. pose proof (t_links _ _ _ _ T) as Hl. rewrite Eall, Ed in Hl.
  apply links_app in Hl as [_ [(yss&Hk&EB) _]].
  pose proof (t_sorted _ _ _ _ T) as Hs. rewrite Eall, Ed, Forall_app, !Forall_cons in Hs.
  rewrite EL in Hk. apply Forall2_app_inv_l in Hk as (yl&yss'&Hyl&Hk&->).
  apply Forall2_cons_inv_l in Hk as (ys&yr&(n'&ks&cs&Hg'&Hv&Hw&->)&Hyr&->).
  rewrite Hg in Hg'. injection Hg' as <-. exists ks, cs, yl, yr.
  rewrite EB, concat_app, concat_cons in *. split_and!; try done. apply Hs.
Qed.

Lemma inner_splits B down' s1 par :
  down = B :: down' →
  arena_ok (l_nodes s1) → get s1 x.2 = Some (locked n) → same_shape s s1 →
  a_next (l_nodes s1) = a_next (l_nodes s) →
  ∃ s' nl nr sep rid, split_inner x.2 par s1 = publish x.2 par sep rid s'
    ∧ halved s1 s' x.2 rid (locked n) nl nr ∧ splits s ess up L down x nl nr sep rid.
Proof.
  intros Ed Ha1 Hg1 Hsh Hn1. pose proof half_capacity as Hm. pose proof Hsh as (_&Ew&Ec).
  pose proof Hx as (l0&rr0&EL0)%list_elem_of_split.
  destruct (inner_kids B down' l0 rr0 Ed EL0) as (ks&cs&_&_&Hv&Hw&_).
  assert (inner_view s1 (locked n) ks cs) as Hv1.
  { apply (inner_shape s); [done|]. by destruct Hv; split. }
  destruct (split_inner_halves s1 x.2 (locked n) Ha1 Hg1 node_range ltac:(lia)
    ltac:(rewrite Ec; apply T) ltac:(rewrite Ec; done) par ks cs Hv1)
    as (s'&nl&nr&sep&rid&E&Hh&Hvl&Hvr&Hsep). rewrite Ec in Hvl, Hvr, Hsep.
  assert (same_shape s1 s) as Hsh' by (destruct Hsh as (?&?&?); by split_and!).
  apply (inner_shape s1 s Hsh') in Hvl, Hvr.
  exists s', nl, nr, sep, rid. split; [done|]. split; [done|].
  assert (∀ l rr, L = l ++ x :: rr → length sep = l_words s ∧ low_lt x.1 (Some sep)
    ∧ Forall (λ y : Spot, low_lt (Some sep) y.1) rr) as Hbetween.
  { intros l rr EL. destruct (inner_kids B down' l rr Ed EL) as (ks'&cs'&yl&yr&Hv'&Hw'&Hyl&Hyr&EB&HsB).
    destruct (inner_view_unique s n _ _ _ _ Hv Hv') as [<- <-]. rewrite EB in HsB.
    by apply (inner_sep s rr x n ks cs yl yr Hyr Hv Hw HsB m sep Hsep). }
  split.
  - by apply (Hbetween l0 rr0).
  - rewrite (iv_count _ _ _ _ Hvl), length_take. lia.
  - rewrite (iv_count _ _ _ _ Hvr), length_drop. pose proof (iv_count _ _ _ _ Hv). lia.
  - intros l rr EL. by apply (Hbetween l rr).
  - intros s3 l rr up' EL Pb.
    destruct (inner_kids B down' l rr Ed EL) as (ks'&cs'&yl&yr&Hv'&Hw'&Hyl&Hyr&EB&HsB).
    destruct (inner_view_unique s n _ _ _ _ Hv Hv') as [<- <-].
    pose proof Eall as Eall'. rewrite EL in Eall'.
    assert (∃ mid, down = mid ++ [leaves]) as [mid Emid].
    { destruct (exists_last (l := down)) as (mid&z&E'); [by rewrite Ed|]. exists mid.
      rewrite E' in Eall. change (up ++ L :: mid ++ [z]) with (up ++ (L :: mid) ++ [z]) in Eall.
      rewrite app_assoc in Eall. apply app_inj_2 in Eall as [_ [= ->]]; [done|done]. }
    exists (up' ++ (l ++ x :: (Some sep, rid) :: rr) :: mid), leaves, ess. split_and!; [|apply (grow_inner s lvs leaves ess T up l rr x down Eall' s3 sep rid nl nr up' Pb mid Emid)|done].
    + by rewrite Emid, <-app_assoc, <-app_comm_cons.
    + destruct (grow_keeps s lvs leaves ess T up l rr x down Eall' s3 sep rid nl nr up' Pb) as [K1 K2].
      rewrite Ed. split.
      * rewrite EB. apply (inner_linked s l rr x n ks cs yl yr Hyl Hyr Hv Hw m sep Hsep s3 (Node_unlock nl) nr rid);
          try done; try (apply Pb). by destruct Hvl; split.
      * apply (links_keep s); [apply Pb|by rewrite <-Ed|]. pose proof (t_links _ _ _ _ T) as Hl.
        rewrite Eall, Ed in Hl. by apply links_app in Hl as [_ [_ ?]].
Qed.

Lemma leaf_entries l rr :
  down = [] → L = l ++ x :: rr →
  ∃ el es er, ess = el ++ es :: er ∧ Forall2 (leaf_at s) l el ∧ leaf_view s n es
    ∧ Forall2 (leaf_at s) rr er ∧ in_order es ∧ Forall (λ e, length e.1 = l_words s) es
    ∧ fenced (l ++ x :: rr) (el ++ es :: er).
Proof.
  intros Ed EL. rewrite Ed in Eall. apply app_inj_2 in Eall as [_ [= Elv]]; [|done].
  pose proof (t_leaves _ _ _ _ T) as Hl. rewrite Elv, EL in Hl.
  apply Forall2_app_inv_l in Hl as (el&ess'&Hl&Hr&Ees).
  apply Forall2_cons_inv_l in Hr as (es&er&(n'&Hg'&Hv)&Hr&->).
  rewrite Hg in Hg'. injection Hg' as <-. exists el, es, er.
  pose proof (t_order _ _ _ _ T) as Ho. rewrite Ees, concat_app, concat_cons in Ho.
  pose proof (t_words _ _ _ _ T) as Hw. rewrite Ees, concat_app, concat_cons, !Forall_app in Hw.
  pose proof (t_fenced _ _ _ _ T) as Hf. rewrite Elv, EL, Ees in Hf.
  split_and!; try done; [by apply in_order_app in Ho as (_&(?&_)%in_order_app&_)|apply Hw].
Qed.

Lemma leaf_splits s1 par :
  down = [] →
  arena_ok (l_nodes s1) → get s1 x.2 = Some (locked n) → same_shape s s1 →
  a_next (l_nodes s1) = a_next (l_nodes s) →
  ∃ s' nl nr sep rid, split_leaf x.2 par s1 = publish x.2 par sep rid s'
    ∧ halved s1 s' x.2 rid (locked n) nl nr ∧ splits s ess up L down x nl nr sep rid.
Proof.
  intros Ed Ha1 Hg1 Hsh Hn1. pose proof half_capacity as Hm. pose proof Hsh as (_&Ew&Ec).
  pose proof Hx as (l0&rr0&EL0)%list_elem_of_split.
  destruct (leaf_entries l0 rr0 Ed EL0) as (el0&es&er0&_&_&Hv&_&Hes&Hw&_).
  assert (leaf_view s1 (locked n) es) as Hv1.
  { apply (leaf_shape s); [done|]. by destruct Hv; split. }
  destruct (split_leaf_halves s1 x.2 (locked n) Ha1 Hg1 node_range ltac:(lia)
    ltac:(rewrite Ec; apply T) ltac:(rewrite Ec; done) par es Hv1)
    as (s'&nl&nr&sep&rid&E&Hh&Hvl&Hvr&Hnl&Hnr&Hsep). rewrite Ec in Hvl, Hvr, Hsep.
  assert (same_shape s1 s) as Hsh' by (destruct Hsh as (?&?&?); by split_and!).
  apply (leaf_shape s1 s Hsh') in Hvl, Hvr.
  exists s', nl, nr, sep, rid. split; [done|]. split; [done|]. split.
  - destruct (leaf_halves es Hes m sep Hsep) as (e&He&<-&_); [lia|].
    rewrite Forall_lookup in Hw. by apply (Hw m).
  - rewrite (lv_count _ _ _ Hvl), length_take. lia.
  - rewrite (lv_count _ _ _ Hvr), length_drop. pose proof (lv_count _ _ _ Hv). lia.
  - intros l rr EL. destruct (leaf_entries l rr Ed EL) as (el&es'&er&_&Hl&Hv'&Hr&_&_&Hf).
    rewrite <-(leaf_view_unique s n _ _ Hv Hv') in Hf.
    apply (leaf_sep s l rr x n el er es Hl Hr Hv Hes Hf m sep Hsep). lia.
  - intros s3 l rr up' EL Pb. destruct (leaf_entries l rr Ed EL) as (el&es'&er&Ees&Hl&Hv'&Hr&_&_&Hf).
    rewrite <-(leaf_view_unique s n _ _ Hv Hv') in Ees.
    pose proof Eall as Eall'. rewrite EL in Eall'.
    destruct (grow_leaf s lvs leaves ess T up l rr x down Eall' s3 sep rid nl nr up' Pb n el es er m)
      as [T3 Ecat]; try done; [lia|].
    eexists up', _, _. split_and!; [|exact T3|exact Ecat]. by rewrite Ed.
Qed.
End kinds.

(** * The turns come to an end *)

(** A flag weighs the more the lower its level, and less than [H] in all. *)
Fixpoint weight (H : nat) (fs : list bool) : nat :=
  match fs with
  | [] => 0
  | b :: fs => (if (b : bool) then H - length fs else 0) + weight H fs
  end.

Fixpoint set_flags (fs : list bool) : nat :=
  match fs with [] => 0 | b :: fs => (if (b : bool) then 1 else 0) + set_flags fs end.

Lemma weight_app H fs fs' :
  weight H (fs ++ fs') = weight (H - length fs') fs + weight H fs'.
Proof.
  induction fs as [|b fs IH]; [done|]. simpl. rewrite IH, length_app. destruct b; lia.
Qed.

Lemma set_flags_app fs fs' : set_flags (fs ++ fs') = set_flags fs + set_flags fs'.
Proof. induction fs as [|b fs IH]; simpl; lia. Qed.

Lemma shrinks_weight H fs fs' :
  shrinks fs fs' → length fs + set_flags fs ≤ H →
  length fs' + set_flags fs' ≤ H ∧ weight H fs' < weight H fs.
Proof.
  destruct 1 as [rest|pre b rest]; simpl.
  - intros HH. lia.
  - rewrite !length_app, !set_flags_app, !weight_app. simpl. intros HH. destruct b; simpl; lia.
Qed.

Lemma set_flags_le fs : set_flags fs ≤ length fs.
Proof. induction fs as [|[] fs IH]; simpl; lia. Qed.

Lemma weight_le H fs : weight H fs ≤ H * length fs.
Proof. induction fs as [|[] fs IH]; simpl; nia. Qed.

(** * One turn *)

Section turn.
Context (s : L0) (lvs : list Level) (leaves : Level) (ess : list (list (list Z * Z))).
Context (T : Tree s lvs leaves ess) (probe : list Z) (Hp : length probe = l_words s) (ts : Z).
Context (fs : list bool) (Hpath : path s probe (lvs ++ [leaves]) fs).
Context (Hroom : (a_next (l_nodes s) + 1 < NONE)%Z).

(** A turn puts the entry in, or splits and is to be followed by another. *)
Definition turn_ok (turn : Turn) (s' : L0) : Prop :=
  same_shape s s' ∧ (a_next (l_nodes s') ≤ a_next (l_nodes s) + 2)%Z
  ∧ ∃ lvs' leaves' ess', Tree s' lvs' leaves' ess'
    ∧ match turn with
      | Return r => r = Ok tt ∧ concat ess' = ins probe ts (concat ess)
                    ∧ length lvs' = length lvs ∧ a_next (l_nodes s') = a_next (l_nodes s)
      | Again => concat ess' = concat ess
                 ∧ ∃ fs', path s' probe (lvs' ++ [leaves']) fs' ∧ shrinks fs fs'
      end.

Lemma split_turn_turn split up L down x n parent :
  lvs ++ [leaves] = up ++ L :: down → arrived s probe up L x parent → get s x.2 = Some n →
  n_count n = l_capacity s →
  (∀ s1 par, arena_ok (l_nodes s1) → get s1 x.2 = Some (set_version (n_version n + 1) n) →
    same_shape s s1 → a_next (l_nodes s1) = a_next (l_nodes s) →
    ∃ s' nl nr sep rid, split x.2 par s1 = publish x.2 par sep rid s'
      ∧ halved s1 s' x.2 rid (set_version (n_version n + 1) n) nl nr
      ∧ splits s ess up L down x nl nr sep rid) →
  ∃ s', split_turn split parent (x.2, n_version n) s = Some (Again, s') ∧ turn_ok Again s'.
Proof.
  intros Eall Harr Hg Hfull Hsplit.
  destruct (split_turn_levels split s lvs leaves ess T probe up L down x n parent Eall Harr Hg Hfull
    Hroom Hsplit fs Hpath) as (s3&lvs'&leaves'&ess'&fs'&E&T3&Ec&Hsh&Hn&Hpath'&Hshr).
  exists s3. split; [done|]. split_and!; [done..|]. exists lvs', leaves', ess'. eauto 10.
Qed.

Lemma descend_turn down up L x n parent fuel :
  lvs ++ [leaves] = up ++ L :: down → arrived s probe up L x parent → owner probe L x →
  get s x.2 = Some n → parent_ok s parent x.2 → length down < fuel →
  ∃ turn s', descend fuel probe ts parent (x.2, n_version n) s = Some (turn, s') ∧ turn_ok turn s'.
Proof.
  revert up L x n parent fuel. induction down as [|B down IH];
    intros up L x n parent [|fuel] Eall Harr Ho Hg Hpar Hf; simpl in Hf; try lia;
    cbn [descend fst]; rewrite Hg, some_bind; cbv zeta;
    pose proof (owner_in _ _ _ Ho) as Hx.
  - pose proof Hx as (l0&rr0&EL0)%list_elem_of_split.
    destruct (leaf_entries s lvs leaves ess T up L [] x n Eall Hg l0 rr0 eq_refl EL0)
      as (el&es&er&Ees&_&Hv&_). rewrite (lv_leaf _ _ _ Hv), (sized_count s n (lv_sized _ _ _ Hv)).
    destruct (Nat.eqb_spec (n_count n) (l_capacity s)) as [Hfull|Hnot].
    + destruct (split_turn_turn split_leaf up L [] x n parent Eall Harr Hg Hfull) as (s'&E&Hok).
      { intros. by eapply (leaf_splits s lvs leaves ess T up L [] x n). }
      exists Again, s'. done.
    + apply app_inj_2 in Eall as [<- [= <-]]; [|done].
      assert (n_count n < l_capacity s) as Hlt by (pose proof (lv_sized _ _ _ Hv) as (_&_&?); lia).
      destruct (leaf_turn_ok s _ _ _ T probe Hp x n parent Ho Hg Hpar ts Hlt)
        as (s'&ess'&E&T'&Ec&Hsh&Hn). exists (Return (Ok tt)), s'. split; [done|].
      split_and!; [done|lia|]. eexists _, _, _. split; [exact T'|]. done.
  - pose proof Hx as (l0&rr0&EL0)%list_elem_of_split.
    destruct (inner_kids s lvs leaves ess T up L (B :: down) x n Eall Hg B down l0 rr0 eq_refl EL0)
      as (ks&cs&_&_&Hv&_). rewrite (iv_inner _ _ _ _ Hv).
    destruct (step_down s lvs leaves ess T probe Hp up L B down x n Eall Ho Hg)
      as (_&y&n'&Hy&Hlink&Hg'&Hchild&Hread&Hpok). rewrite Hchild.
    rewrite (sized_count s n (iv_sized _ _ _ _ Hv)).
    destruct (Nat.eqb_spec (n_count n) (l_capacity s)) as [Hfull|Hnot].
    + destruct (split_turn_turn split_inner up L (B :: down) x n parent Eall Harr Hg Hfull) as (s'&E&Hok).
      { intros. by eapply (inner_splits s lvs leaves ess T up L (B :: down) x n). }
      exists Again, s'. done.
    + assert (n_count n < l_capacity s) as Hlt by (pose proof (iv_sized _ _ _ _ Hv) as (_&_&?); lia).
      assert (match parent with Some p => negb (check s p) | None => false end = false) as ->.
      { destruct parent as [p|]; [|done]. by rewrite (proj1 Hpar). }
      cbn [snd]. assert (Node_check n (n_version n) = true) as -> by apply Z.eqb_refl.
      cbn [negb]. rewrite Hg', some_bind, Hread.
      apply (IH (up ++ [L]) B y n' _ fuel); try done; [by rewrite Eall, <-app_assoc| |lia].
      by eapply arrived_under.
Qed.

Lemma insert_turn_ok : ∃ turn s', insert_turn probe ts s = Some (turn, s') ∧ turn_ok turn s'.
Proof.
  destruct (top_owner s _ _ _ T probe Hp) as (n&Hg&Hread&_&Ho). unfold insert_turn, top.
  rewrite Hg, some_bind, Hread, some_bind. destruct (tree_top s _ _ _ T) as (A&down&E&->).
  apply (descend_turn down [] [(None, l_root s)] (None, l_root s) n None); try done; [constructor|].
  pose proof (tree_depth s _ _ _ T) as Hd. rewrite E in Hd. simpl in Hd. lia.
Qed.
End turn.

Lemma path_exists s lvs leaves ess probe :
  Tree s lvs leaves ess → length probe = l_words s → ∃ fs, path s probe (lvs ++ [leaves]) fs.
Proof.
  intros T Hp. destruct (top_owner s _ _ _ T probe Hp) as (n&Hg&_&_&Ho).
  assert (∀ down up L x n, lvs ++ [leaves] = up ++ L :: down → owner probe L x → get s x.2 = Some n →
    ∃ fs, path s probe (L :: down) fs) as H.
  { induction down as [|B down IH]; intros up L x n0 Eall Hx Hg0.
    - exists [n_count n0 =? l_capacity s]. repeat constructor. by exists x, n0.
    - destruct (step_down s lvs leaves ess T probe Hp up L B down x n0 Eall Hx Hg0)
        as (_&y&n'&Hy&_&Hg'&_).
      destruct (IH (up ++ [L]) B y n') as [fs Hfs]; [by rewrite Eall, <-app_assoc|done..|].
      exists ((n_count n0 =? l_capacity s) :: fs). constructor; [|done]. by exists x, n0. }
  destruct (tree_top s _ _ _ T) as (A&down&E&->). rewrite E. by eapply (H down []).
Qed.

(** The whole of [insert]: it ends within as many turns as the flags weigh, and the entry is set. *)
Lemma insert_loop_ok s lvs leaves ess probe ts fs H fuel :
  Tree s lvs leaves ess → length probe = l_words s → path s probe (lvs ++ [leaves]) fs →
  length fs + set_flags fs ≤ H → weight H fs < fuel →
  (a_next (l_nodes s) + 2 * Z.of_nat (weight H fs) + 1 < NONE)%Z →
  ∃ s' lvs' leaves' ess', insert_loop fuel probe ts s = Some (Ok tt, s')
    ∧ Tree s' lvs' leaves' ess' ∧ concat ess' = ins probe ts (concat ess) ∧ same_shape s s'
    ∧ S (length lvs') ≤ H ∧ (a_next (l_nodes s') ≤ a_next (l_nodes s) + 2 * Z.of_nat (weight H fs))%Z.
Proof.
  revert s lvs leaves ess fs. induction fuel as [|fuel IH]; intros s lvs leaves ess fs T Hp Hpath HH Hw Hroom;
    [lia|]. cbn [insert_loop].
  destruct (insert_turn_ok s lvs leaves ess T probe Hp ts fs Hpath ltac:(lia)) as (turn&s1&->&Hsh&Hn&lvs1&leaves1&ess1&T1&Ht).
  rewrite some_bind. destruct turn as [|r].
  - destruct Ht as (Ec&fs1&Hpath1&Hshr). destruct (shrinks_weight H fs fs1 Hshr HH) as [HH1 Hw1].
    pose proof Hsh as (_&Ew&_).
    destruct (IH s1 lvs1 leaves1 ess1 fs1) as (s'&lvs'&leaves'&ess'&E&T'&Ec'&Hsh'&Hlv&Hn'); [done|congruence|done|done|lia|lia|].
    exists s', lvs', leaves', ess'. rewrite Ec' , Ec. split_and!; try done; [by eapply same_shape_trans|lia].
  - destruct Ht as (->&Ec&El&En). exists s1, lvs1, leaves1, ess1. split_and!; try done; [|lia].
    apply Forall2_length in Hpath. rewrite length_app in Hpath. simpl in Hpath. lia.
Qed.
