(* ===== verification/L0Key.v ===== *)
(** Keys as the words of the in-memory tree: [probe] packs a key of bytes and a rid into words,
    [key_of] takes the key back out, and the words compare as the key and then the rid do. *)

From S2P Require Import Prelude Bloom Run L0 L0Node.
Local Open Scope Z_scope.

(** * Packing *)

Definition key_words (key : list Z) : list Z := word_of <$> chunks8 (length key) key.

Definition padding (n : nat) : nat := (8 * div_ceil n 8 - n)%nat.

Definition padded (chunk : list Z) : list Z := chunk ++ replicate (8 - length chunk) 0.

Lemma padded_ok chunk : bytes_ok chunk → bytes_ok (padded chunk).
Proof. intros. apply Forall_app_2; [done|]. apply Forall_replicate. by vm_compute. Qed.

Lemma length_padded chunk : (length chunk ≤ 8)%nat → length (padded chunk) = 8%nat.
Proof. intros. unfold padded. rewrite length_app, length_replicate. lia. Qed.

Lemma word_of_fits chunk : bytes_ok chunk → (length chunk ≤ 8)%nat → u64 (word_of chunk).
Proof.
  intros Hok Hl. pose proof (be_val_fits (padded chunk) (padded_ok chunk Hok)) as H.
  by rewrite length_padded in H.
Qed.

Lemma word_of_bytes chunk :
  bytes_ok chunk → (length chunk ≤ 8)%nat → be_bytes 8 (word_of chunk) = padded chunk.
Proof.
  intros Hok Hl. pose proof (be_bytes_val (padded chunk) (padded_ok chunk Hok)) as H.
  by rewrite length_padded in H.
Qed.

Lemma padded_cmp a b : length a = length b → slice_cmp (padded a) (padded b) = slice_cmp a b.
Proof.
  intros Hl. unfold padded. rewrite slice_cmp_app, Hl, slice_cmp_refl by done.
  by destruct (slice_cmp a b).
Qed.

Lemma word_of_cmp a b :
  bytes_ok a → bytes_ok b → length a = length b → (length a ≤ 8)%nat →
  (word_of a ?= word_of b) = slice_cmp a b.
Proof.
  intros Ha Hb Hl H8. unfold word_of. rewrite be_val_cmp.
  - by apply padded_cmp.
  - by apply padded_ok.
  - by apply padded_ok.
  - fold (padded a) (padded b). by rewrite !length_padded by lia.
Qed.

Lemma div_ceil_step n : (8 < n)%nat → div_ceil n 8 = S (div_ceil (n - 8) 8).
Proof.
  intros. unfold div_ceil. replace (n + (8 - 1))%nat with (1 * 8 + (n - 8 + (8 - 1)))%nat by lia.
  by rewrite Nat.div_add_l by lia.
Qed.

Lemma div_ceil_one n : (0 < n ≤ 8)%nat → div_ceil n 8 = 1%nat.
Proof. intros. do 9 (destruct n as [|n]; [done || lia|]). lia. Qed.

Lemma chunks8_rest fuel key :
  (length key ≤ fuel)%nat → key ≠ [] →
  chunks8 fuel key = take 8 key :: chunks8 (length (drop 8 key)) (drop 8 key)
  ∧ (length (drop 8 key) < length key)%nat.
Proof.
  revert key. assert (∀ f g key, (length key ≤ f)%nat → (length key ≤ g)%nat → chunks8 f key = chunks8 g key) as H.
  { induction f as [|f IH]; intros [|g] [|b key]; simpl; intros; try lia; try done.
    f_equal. apply IH; rewrite length_drop; lia. }
  intros [|b key] Hf Hne; [done|]. destruct fuel as [|fuel]; [simpl in Hf; lia|]. simpl in Hf |- *. split.
  - f_equal. apply H; rewrite ?length_drop; lia.
  - rewrite length_drop. lia.
Qed.

(** A key, split at its first word. *)
Lemma key_words_cons key :
  key ≠ [] → key_words key = word_of (take 8 key) :: key_words (drop 8 key).
Proof. intros Hne. unfold key_words. by rewrite (proj1 (chunks8_rest (length key) key (le_n _) Hne)). Qed.

(** Induction on a key a word at a time. *)
Lemma key_ind (P : list Z → Prop) :
  P [] → (∀ key, key ≠ [] → P (drop 8 key) → P key) → ∀ key, P key.
Proof.
  intros H0 HS key. remember (length key) as n eqn:E. revert key E.
  induction n as [n IH] using lt_wf_ind. intros key ->. destruct (decide (key = [])) as [->|Hne]; [done|].
  apply HS; [done|]. eapply IH; [|done]. by apply (chunks8_rest (length key)).
Qed.

Lemma length_key_words key : length (key_words key) = div_ceil (length key) 8.
Proof.
  induction key as [|key Hne IH] using key_ind; [done|]. rewrite key_words_cons by done. cbn [length].
  rewrite IH, length_drop. assert (length key ≠ 0%nat) by (by destruct key).
  destruct (decide (8 < length key)%nat); [by rewrite (div_ceil_step (length key))|].
  rewrite (div_ceil_one (length key)) by lia. by replace (length key - 8)%nat with 0%nat by lia.
Qed.

Lemma key_words_ok key : bytes_ok key → Forall u64 (key_words key).
Proof.
  induction key as [|key Hne IH] using key_ind; [constructor|]. intros Hok.
  rewrite key_words_cons by done. constructor; [|by apply IH, Forall_drop].
  apply word_of_fits; [by apply Forall_take|]. rewrite length_take. lia.
Qed.

(** The words of a key spell its bytes, and zeros after them. *)
Lemma key_words_bytes key :
  bytes_ok key → key_words key ≫= be_bytes 8 = key ++ replicate (padding (length key)) 0.
Proof.
  induction key as [|key Hne IH] using key_ind; [done|]. intros Hok. rewrite key_words_cons by done.
  cbn [mbind list_bind]. rewrite word_of_bytes; [|by apply Forall_take|rewrite length_take; lia].
  change (list_bind _ _ (be_bytes 8) (key_words (drop 8 key))) with (key_words (drop 8 key) ≫= be_bytes 8).
  rewrite IH by (by apply Forall_drop). rewrite length_drop. unfold padded.
  assert (length key ≠ 0%nat) by (by destruct key).
  destruct (decide (8 < length key)%nat).
  - replace (8 - length (take 8 key))%nat with 0%nat by (rewrite length_take; lia).
    simpl. rewrite app_nil_r, app_assoc, take_drop. f_equal. f_equal.
    unfold padding. rewrite (div_ceil_step (length key)) by done. lia.
  - rewrite take_ge, drop_ge by lia. simpl.
    replace (length key - 8)%nat with 0%nat by lia. simpl. rewrite app_nil_r. f_equal. f_equal.
    unfold padding. by rewrite (div_ceil_one (length key)) by lia.
Qed.

Lemma key_words_cmp a b :
  bytes_ok a → bytes_ok b → length a = length b →
  slice_cmp (key_words a) (key_words b) = slice_cmp a b.
Proof.
  revert b. induction a as [|a Hne IH] using key_ind; intros b Ha Hb Hl.
  - by rewrite (nil_length_inv b) by done.
  - assert (b ≠ []) as Hne' by (by destruct a, b). rewrite (key_words_cons a), (key_words_cons b) by done. cbn [slice_cmp].
    rewrite word_of_cmp; [|by apply Forall_take..| |]; rewrite ?length_take; [|lia|lia].
    rewrite IH; [|by apply Forall_drop..|rewrite !length_drop; lia].
    trans (slice_cmp (take 8 a ++ drop 8 a) (take 8 b ++ drop 8 b)); [|by rewrite !take_drop].
    rewrite slice_cmp_app by (rewrite !length_take; lia).
    by destruct (slice_cmp (take 8 a) (take 8 b)).
Qed.

(** * Probes *)

Definition pack (key : list Z) (r : Z) : list Z := key_words key ++ [r].

(** What [L0::new] makes of a width. *)
Definition shape_ok (s : L0) : Prop := l_words s = (div_ceil (l_width s) 8 + 1)%nat.

Lemma length_pack key r : length (pack key r) = (div_ceil (length key) 8 + 1)%nat.
Proof. unfold pack. by rewrite length_app, length_key_words. Qed.

Section probe.
Context (s : L0) (Hs : shape_ok s).

Lemma probe_pack key r :
  L0_probe s key r = if (length key =? l_width s)%nat then Some (pack key r) else None.
Proof.
  unfold L0_probe. destruct (Nat.eqb_spec (length key) (l_width s)) as [Hl|]; [|done]. cbn [negb].
  fold (key_words key). pose proof (length_key_words key) as Hk. rewrite Hl in Hk.
  rewrite Hs, Hk. replace (div_ceil (l_width s) 8 + 1 - div_ceil (l_width s) 8)%nat with 1%nat by lia.
  replace (div_ceil (l_width s) 8 + 1 - 1)%nat with (length (key_words key) + 0)%nat by lia.
  rewrite take_ge by (rewrite length_app, Hk; simpl; lia). by rewrite insert_app_r.
Qed.

Lemma keyed_pack key r :
  length key = l_width s →
  take (l_words s - 1) (pack key r) = key_words key ∧ pack key r !! (l_words s - 1)%nat = Some r.
Proof.
  intros Hl. unfold pack. rewrite Hs, <-Hl.
  replace (div_ceil (length key) 8 + 1 - 1)%nat with (length (key_words key) + 0)%nat
    by (rewrite length_key_words; lia).
  split; [by rewrite Nat.add_0_r, take_app_length|].
  by rewrite lookup_app_r, Nat.add_0_r, Nat.sub_diag by lia.
Qed.

Lemma key_of_pack key r : length key = l_width s → bytes_ok key → key_of s (pack key r) = key.
Proof.
  intros Hl Hok. unfold key_of. rewrite (proj1 (keyed_pack key r Hl)), key_words_bytes by done.
  by rewrite <-Hl, take_app_length.
Qed.
End probe.

Lemma pack_cmp a b r r' :
  bytes_ok a → bytes_ok b → length a = length b →
  slice_cmp (pack a r) (pack b r') = then_cmp (slice_cmp a b) (r ?= r').
Proof.
  intros Ha Hb Hl. unfold pack. rewrite slice_cmp_snoc by (rewrite !length_key_words; congruence).
  by rewrite key_words_cmp.
Qed.

Lemma pack_inj a b r r' :
  bytes_ok a → bytes_ok b → length a = length b → pack a r = pack b r' → a = b ∧ r = r'.
Proof.
  intros Ha Hb Hl E. apply slice_cmp_Eq in E. rewrite pack_cmp in E by done.
  destruct (slice_cmp a b) eqn:Ec; try done. split; [by apply slice_cmp_Eq|]. by apply Z.compare_eq_iff.
Qed.
