(* ===== verification/L0Map.v ===== *)
(** What the in-memory tree promises: it is a map from a key and a rid to a ts, listed in key order
    and then by rid. [represents] ties a tree to the map it stands for. *)

From S2P Require Import Prelude Bloom Run RunRead L0 L0Node L0Leaf L0Arena L0Tree L0Read L0Key.
Local Open Scope Z_scope.

(** * The contract *)

Abbreviation Contents := (gmap (list Z * Z) Z).

Definition entry_of (x : (list Z * Z) * Z) : Entry := (x.1.1, mkHit x.1.2 x.2).

Definition entry_cmp (e e' : Entry) : comparison :=
  then_cmp (slice_cmp e.1 e'.1) (rid e.2 ?= rid e'.2).

Definition entry_le (e e' : Entry) : Prop := entry_cmp e e' ≠ Gt.

#[global] Instance entry_le_dec : RelDecision entry_le.
Proof. intros e e'. unfold entry_le. apply _. Defined.

(** The entries of a map in the order a scan gives them. *)
Definition listing (m : Contents) : list Entry := merge_sort entry_le (entry_of <$> map_to_list m).

Lemma entry_cmp_antisym e e' : entry_cmp e' e = CompOpp (entry_cmp e e').
Proof.
  unfold entry_cmp. rewrite (slice_cmp_antisym e.1 e'.1), (Z.compare_antisym (rid e.2) (rid e'.2)).
  by destruct (slice_cmp e.1 e'.1).
Qed.

#[global] Instance entry_le_total : Total entry_le.
Proof.
  intros e e'. unfold entry_le. rewrite (entry_cmp_antisym e e').
  destruct (entry_cmp e e'); simpl; auto.
Qed.

(** The order of entries is the one of byte strings with the rid as one more digit. *)
Lemma entry_le_sle e e' :
  entry_le e e' ↔ slice_lt e.1 e'.1 = true ∨ (e.1 = e'.1 ∧ rid e.2 ≤ rid e'.2).
Proof.
  unfold entry_le, entry_cmp, slice_lt. rewrite <-slice_cmp_Eq.
  destruct (slice_cmp e.1 e'.1); simpl; [|naive_solver..].
  unfold Z.le. naive_solver.
Qed.

#[global] Instance entry_le_trans : Transitive entry_le.
Proof.
  intros a b c. rewrite !entry_le_sle. intros [Hab|[Eab Hab]] [Hbc|[Ebc Hbc]].
  - left. by eapply slice_lt_trans.
  - left. by rewrite <-Ebc.
  - left. by rewrite Eab.
  - right. split; [congruence|lia].
Qed.

Lemma listing_perm m : listing m ≡ₚ entry_of <$> map_to_list m.
Proof. apply merge_sort_Permutation. Qed.

Lemma elem_of_listing m e : e ∈ listing m ↔ m !! (e.1, rid e.2) = Some (ts e.2).
Proof.
  rewrite (listing_perm m), list_elem_of_fmap. split.
  - intros ([[key r] t]&->&Hin). by apply elem_of_map_to_list in Hin.
  - intros Hm. exists ((e.1, rid e.2), ts e.2). split; [by destruct e as [? []]|].
    by apply elem_of_map_to_list.
Qed.

Lemma length_listing m : length (listing m) = size m.
Proof. rewrite listing_perm, length_fmap. apply length_map_to_list. Qed.

Lemma listing_sorted m : StronglySorted entry_le (listing m).
Proof. apply StronglySorted_merge_sort; apply _. Qed.

Lemma listing_NoDup m : NoDup ((λ e : Entry, (e.1, rid e.2)) <$> listing m).
Proof.
  rewrite (listing_perm m), <-list_fmap_compose.
  erewrite (list_fmap_ext _ fst); [apply NoDup_fst_map_to_list|]. by intros i [[? ?] ?].
Qed.

(** * The tree that stands for a map *)

Definition fits_width (width : nat) (key : list Z) : Prop := length key = width ∧ bytes_ok key.

Definition pack_entry (e : Entry) : list Z * Z := (pack e.1 (rid e.2), ts e.2).

(** Keys of the tree's width, and rids and timestamps that are words. *)
Definition contents_ok (width : nat) (m : Contents) : Prop :=
  map_Forall (λ k t, fits_width width k.1 ∧ u64 k.2 ∧ u64 t) m.

(** A tree at rest of [h] levels with the entries of [m]. *)
Record represents (h : nat) (s : L0) (m : Contents) : Prop := {
  rep_shape : shape_ok s;
  rep_fits : contents_ok (l_width s) m;
  rep_tree : ∃ lvs leaves ess, Tree s lvs leaves ess ∧ length (lvs ++ [leaves]) = h
               ∧ concat ess = pack_entry <$> listing m }.

Lemma listing_fits width m e :
  contents_ok width m → e ∈ listing m → fits_width width e.1 ∧ u64 (rid e.2) ∧ u64 (ts e.2).
Proof. intros Hm He. apply elem_of_listing in He. by apply (Hm _ _ He). Qed.

Lemma pack_entry_lt width e e' :
  fits_width width e.1 → fits_width width e'.1 →
  entry_le e e' → (e.1, rid e.2) ≠ (e'.1, rid e'.2) → klt (pack_entry e).1 (pack_entry e').1.
Proof.
  intros [Hl Hok] [Hl' Hok'] Hle Hne. unfold klt, slice_lt, pack_entry. simpl.
  rewrite pack_cmp by (done || congruence). fold (entry_cmp e e').
  unfold entry_le in Hle. destruct (entry_cmp e e') eqn:E; try done. exfalso. apply Hne.
  unfold entry_cmp in E. destruct (slice_cmp e.1 e'.1) eqn:Ec; try done.
  apply slice_cmp_Eq in Ec. apply Z.compare_eq_iff in E. congruence.
Qed.

Lemma listing_in_order width m : contents_ok width m → in_order (pack_entry <$> listing m).
Proof.
  intros Hm. unfold in_order. pose proof (listing_sorted m) as Hs. pose proof (listing_NoDup m) as Hd.
  assert (∀ e, e ∈ listing m → fits_width width e.1) as Hf by (intros; by eapply listing_fits).
  revert Hs Hd Hf. generalize (listing m). intros l Hs.
  induction Hs as [|e es _ IH He]; intros Hd Hf; [constructor|]. apply NoDup_cons in Hd as [Hin Hd].
  constructor; [apply IH; [done|]; intros; apply Hf; by right|].
  change (Forall (klt (pack_entry e).1) (pack_entry <$> es).*1).
  apply Forall_fmap, Forall_fmap, Forall_forall. intros e' He'.
  eapply (pack_entry_lt width); [apply Hf; by left|apply Hf; by right|by eapply Forall_forall in He|].
  intros E. apply Hin. rewrite E. by apply (list_elem_of_fmap_2 (λ e : Entry, (e.1, rid e.2))).
Qed.

(** Two lists in order with the same entries are one list. *)
Lemma in_order_ext es es' : in_order es → in_order es' → (∀ x, x ∈ es ↔ x ∈ es') → es = es'.
Proof.
  unfold in_order. revert es'. induction es as [|e es IH]; intros [|e' es'] Hs Hs' Hin; [done|..].
  - exfalso. eapply not_elem_of_nil, Hin. by left.
  - exfalso. eapply not_elem_of_nil, Hin. by left.
  - rewrite fmap_cons in Hs, Hs'. apply StronglySorted_inv in Hs as [Hs He].
    apply StronglySorted_inv in Hs' as [Hs' He'].
    pose proof (proj1 (Forall_fmap fst (klt e.1) es) He) as Hlt.
    pose proof (proj1 (Forall_fmap fst (klt e'.1) es') He') as Hlt'. clear He He'.
    rewrite Forall_forall in Hlt, Hlt'.
    assert (e = e') as ->.
    { pose proof (proj1 (Hin e) ltac:(by left)) as [|H1]%elem_of_cons; [done|].
      pose proof (proj2 (Hin e') ltac:(by left)) as [|H2]%elem_of_cons; [done|].
      apply Hlt in H2. apply Hlt' in H1. simpl in *. exfalso. eapply (irreflexivity klt). by etrans. }
    f_equal. apply IH; [done..|]. intros x. specialize (Hin x). rewrite !elem_of_cons in Hin.
    split; intros Hx.
    + destruct (proj1 Hin ltac:(by right)) as [->|]; [|done]. apply Hlt in Hx.
      by destruct (irreflexivity klt e'.1).
    + destruct (proj2 Hin ltac:(by right)) as [->|]; [|done]. apply Hlt' in Hx.
      by destruct (irreflexivity klt e'.1).
Qed.

Lemma elem_of_packed m x :
  x ∈ pack_entry <$> listing m ↔ ∃ key r, x.1 = pack key r ∧ m !! (key, r) = Some x.2.
Proof.
  rewrite list_elem_of_fmap. split.
  - intros (e&->&He). apply elem_of_listing in He. by exists e.1, (rid e.2).
  - intros (key&r&E&Hm). exists (key, mkHit r x.2). split; [by destruct x; simpl in *; subst|].
    by apply elem_of_listing.
Qed.

(** A sorted list with the entries of a map is its listing. *)
Lemma packed_listing width m es :
  contents_ok width m → in_order es →
  (∀ x, x ∈ es ↔ ∃ key r, x.1 = pack key r ∧ m !! (key, r) = Some x.2) →
  es = pack_entry <$> listing m.
Proof.
  intros Hm Hes Hin. apply in_order_ext; [done|by eapply listing_in_order|].
  intros x. by rewrite Hin, elem_of_packed.
Qed.

Lemma elem_of_ins_iff k v es x :
  in_order es → x ∈ ins k v es ↔ x = (k, v) ∨ (x.1 ≠ k ∧ x ∈ es).
Proof.
  unfold in_order. induction es as [|e es IH]; intros Hs.
  { simpl. rewrite list_elem_of_singleton, elem_of_nil. naive_solver. }
  rewrite fmap_cons in Hs. apply StronglySorted_inv in Hs as [Hs He].
  assert (∀ y, y ∈ es → klt e.1 y.1) as Hlt.
  { intros y Hy. eapply Forall_forall; [exact He|]. by apply list_elem_of_fmap_2. }
  clear He. specialize (IH Hs). simpl. destruct (slice_cmp e.1 k) eqn:Ec.
  - apply slice_cmp_Eq in Ec as <-. rewrite !elem_of_cons. split; [|naive_solver].
    intros [->|Hx]; [by left|right]. split; [|by right].
    intros E. apply Hlt in Hx. rewrite E in Hx. by destruct (irreflexivity klt e.1).
  - rewrite !elem_of_cons, IH. split; [|naive_solver]. intros [->|[?|?]]; [|naive_solver..].
    right. split; [|by left]. intros E. rewrite E, slice_cmp_refl in Ec. done.
  - rewrite elem_of_cons. split; [|naive_solver]. intros [->|Hx]; [by left|right]. split; [|done].
    assert (klt k e.1) as Hk by (unfold klt, slice_lt; by rewrite slice_cmp_antisym, Ec).
    intros E. apply elem_of_cons in Hx as [->|Hx].
    + rewrite E in Hk. by destruct (irreflexivity klt k).
    + apply Hlt in Hx. rewrite E in Hx. destruct (irreflexivity klt k). by etrans.
Qed.

Lemma elem_of_del k es x : x ∈ del k es ↔ x.1 ≠ k ∧ x ∈ es.
Proof. unfold del. by rewrite list_elem_of_filter. Qed.

(** * What the operations of the tree do to the map *)

Section contents.
Context (width : nat) (m : Contents) (Hm : contents_ok width m).
Context (key : list Z) (r : Z) (Hkey : fits_width width key).

Lemma pack_other key' r' t :
  m !! (key', r') = Some t → pack key' r' = pack key r ↔ (key', r') = (key, r).
Proof.
  intros Hk. destruct (Hm _ _ Hk) as ([Hl Hok]&_), Hkey as [Hl0 Hok0]. simpl in *. split.
  - intros E. by apply pack_inj in E as [-> ->]; [|done..|congruence].
  - by intros [= -> ->].
Qed.

Lemma insert_contents t :
  u64 r → u64 t →
  contents_ok width (<[(key, r) := t]> m)
  ∧ ∀ es, in_order es → es = ins (pack key r) t (pack_entry <$> listing m) →
      es = pack_entry <$> listing (<[(key, r) := t]> m).
Proof.
  intros Hr Ht. assert (contents_ok width (<[(key, r) := t]> m)) as Hm' by by apply map_Forall_insert_2.
  split; [done|]. intros es Hes E. apply (packed_listing width); [done..|]. intros x. subst es.
  rewrite elem_of_ins_iff by by eapply listing_in_order. rewrite elem_of_packed. split.
  - intros [->|(Hne&key'&r'&E&Hk)].
    + exists key, r. split; [done|]. by rewrite lookup_insert_eq.
    + exists key', r'. split; [done|]. rewrite lookup_insert_ne; [done|].
      intros [= <- <-]. by apply Hne.
  - intros (key'&r'&E&[[[= <- <-] Ex]|[Hne Hk]]%lookup_insert_Some).
    + left. destruct x; simpl in *. congruence.
    + right. rewrite E. split; [|by exists key', r'].
      intros Ep. apply (pack_other key' r' x.2 Hk) in Ep. congruence.
Qed.

Lemma delete_contents :
  contents_ok width (delete (key, r) m)
  ∧ ∀ es, in_order es → es = del (pack key r) (pack_entry <$> listing m) →
      es = pack_entry <$> listing (delete (key, r) m).
Proof.
  assert (contents_ok width (delete (key, r) m)) as Hm' by by apply map_Forall_delete.
  split; [done|]. intros es Hes E. apply (packed_listing width); [done..|]. intros x. subst es.
  rewrite elem_of_del, elem_of_packed. split.
  - intros (Hne&key'&r'&E&Hk). exists key', r'. split; [done|]. rewrite lookup_delete_ne; [done|].
    intros [= <- <-]. by apply Hne.
  - intros (key'&r'&E&[Hne Hk]%lookup_delete_Some). rewrite E. split; [|by exists key', r'].
    intros Ep. apply (pack_other key' r' x.2 Hk) in Ep. congruence.
Qed.

Lemma has_contents : has (pack key r) (pack_entry <$> listing m) = bool_decide (is_Some (m !! (key, r))).
Proof.
  unfold has. apply bool_decide_ext. rewrite list_elem_of_fmap. split.
  - intros (x&E&(key'&r'&Ex&Hk)%elem_of_packed). rewrite Ex in E. symmetry in E.
    apply (pack_other key' r' x.2 Hk) in E. rewrite <-E, Hk. eauto.
  - intros [t Hk]. exists (pack key r, t). split; [done|]. apply elem_of_packed. by exists key, r.
Qed.
End contents.
