(* ===== verification/L0Theorems.v ===== *)
(** The theorems on the in-memory tree: [new], [insert], [remove], [find], [range] and [to_run]
    against the map the tree stands for, and what a writer between two steps of a reader does. *)

From S2P Require Import Prelude Bloom Run RunRead L0 L0Node L0Leaf L0Arena L0Tree L0Read L0Write L0Insert L0Key L0Map.
Local Open Scope Z_scope.

(** * Writing *)

Lemma represents_len h s m : represents h s m → l_len s = wrap 64 (Z.of_nat (size m)).
Proof.
  intros [_ _ (lvs&leaves&ess&T&_&E)]. rewrite (t_len _ _ _ _ T), E. unfold zlen.
  by rewrite length_fmap, length_listing.
Qed.

Lemma node_new_view s : leaf_view s (Node_new true (l_capacity s) (l_words s)) [].
Proof.
  split; [|done..]. unfold sized. simpl. rewrite !length_replicate. split_and!; [done..|lia].
Qed.

(** A new tree is one leaf, and stands for the empty map. *)
Lemma new_represents width :
  ∃ s, L0_new width = Some (Ok s) ∧ represents 1 s ∅ ∧ l_width s = width ∧ a_next (l_nodes s) = 1.
Proof.
  unfold L0_new. set (words := (div_ceil width 8 + 1)%nat).
  set (cap := ((NODE / (8 * words + 8)) `max` 4)%nat). cbv zeta.
  destruct (add_ok Arena_new (Node_new true cap words) arena_new_ok) as (a&->&Ha&Hn&Hg&_);
    [by vm_compute|]. rewrite some_bind. eexists. split; [done|]. split; [|done].
  set (s := mkL0 _ _ _ _ _ _ _). split; [done|by apply map_Forall_empty|].
  exists [], [(None, 0)], [[]]. split; [|done]. cbn [app].
  assert (get s 0 = Some (Node_new true (l_capacity s) (l_words s))) as Hg0 by done.
  split; simpl; try done.
  - unfold cap. lia.
  - by repeat constructor.
  - by apply NoDup_singleton.
  - apply Forall_singleton. simpl. rewrite Hn. simpl. lia.
  - apply Forall_singleton. eexists. done.
  - repeat constructor. eexists. split; [done|]. apply node_new_view.
  - split; [|done]. eexists. done.
  - by repeat constructor.
Qed.

Lemma insert_represents h s m fuel key hit :
  represents h s m → fits_width (l_width s) key → u64 (rid hit) → u64 (ts hit) →
  (2 * h * h < fuel)%nat → a_next (l_nodes s) + Z.of_nat (4 * h * h) + 1 < NONE →
  ∃ h' s', L0_insert fuel key hit s = Some (Ok tt, s')
    ∧ represents h' s' (<[(key, rid hit) := ts hit]> m) ∧ l_width s' = l_width s
    ∧ (h' ≤ 2 * h)%nat ∧ a_next (l_nodes s') ≤ a_next (l_nodes s) + Z.of_nat (4 * h * h).
Proof.
  intros [Hs Hm (lvs&leaves&ess&T&Hh&E)] Hkey Hr Ht Hf Hroom. pose proof Hkey as [Hl Hok].
  unfold L0_insert. rewrite probe_pack, Hl, Nat.eqb_refl by done.
  assert (length (pack key (rid hit)) = l_words s) as Hp by (by rewrite length_pack, Hl).
  destruct (path_exists s lvs leaves ess _ T Hp) as [fs Hfs].
  assert (length fs = h) as Hlen by (rewrite <-Hh; by eapply eq_sym, Forall2_length).
  pose proof (set_flags_le fs) as Hflags. pose proof (weight_le (2 * h) fs) as Hw. rewrite Hlen in Hw, Hflags.
  destruct (insert_loop_ok s lvs leaves ess (pack key (rid hit)) (ts hit) fs (2 * h) fuel T Hp Hfs)
    as (s'&lvs'&leaves'&ess'&->&T'&E'&Hsh&Hlv&Hn); [lia..|].
  destruct (insert_contents (l_width s) m Hm key (rid hit) Hkey (ts hit) Hr Ht) as [Hm' Hes].
  exists (length (lvs' ++ [leaves'])), s'. split; [done|]. destruct Hsh as (Ew&Ewords&_).
  split; [|split_and!; [done|rewrite length_app; simpl; lia|lia]].
  split; [unfold shape_ok; congruence|by rewrite Ew|].
  exists lvs', leaves', ess'. split_and!; [done..|]. apply Hes; [apply T'|congruence].
Qed.

Lemma remove_represents h s m fuel key r :
  represents h s m → fits_width (l_width s) key → (0 < fuel)%nat →
  ∃ s', L0_remove fuel key r s = Some (bool_decide (is_Some (m !! (key, r))), s')
    ∧ represents h s' (delete (key, r) m) ∧ l_width s' = l_width s.
Proof.
  intros [Hs Hm (lvs&leaves&ess&T&Hh&E)] Hkey Hf. pose proof Hkey as [Hl Hok].
  destruct fuel as [|fuel]; [lia|].
  unfold L0_remove. rewrite probe_pack, Hl, Nat.eqb_refl by done.
  assert (length (pack key r) = l_words s) as Hp by (by rewrite length_pack, Hl).
  destruct (remove_turn_ok s lvs leaves ess T _ Hp) as (s'&ess'&Er&T'&E'&Hsh&_).
  cbn [remove_loop]. rewrite Er, some_bind, E, (has_contents (l_width s)) by done. exists s'. split; [done|].
  destruct (delete_contents (l_width s) m Hm key r Hkey) as [Hm' Hes]. destruct Hsh as (Ew&Ewords&_).
  split; [|done]. split; [unfold shape_ok; congruence|by rewrite Ew|].
  exists lvs, leaves, ess'. split_and!; [done..|]. apply Hes; [apply T'|congruence].
Qed.

(** * Reading *)

(** Calls [each] on entries until it answers false. *)
Fixpoint for_entries {A : Type} (each : list Z → Hit → A → bool * A) (es : list Entry) (a : A) : A :=
  match es with
  | [] => a
  | e :: es => let '(more, a) := each e.1 e.2 a in if (more : bool) then for_entries each es a else a
  end.

Lemma entry_le_key e e' : entry_le e e' → sle e.1 e'.1.
Proof. rewrite entry_le_sle. intros [H|[-> _]]; [by apply klt_weaken|done]. Qed.

Lemma below_down hi k k' : sle k k' → below hi k' → below hi k.
Proof.
  destruct hi; simpl; intros ? ?; [done|by etrans|by eapply sle_klt_trans].
Qed.

#[global] Instance above_dec lo k : Decision (above lo k).
Proof. destruct lo; simpl; apply _. Defined.
#[global] Instance below_dec hi k : Decision (below hi k).
Proof. destruct hi; simpl; apply _. Defined.

(** A scan whose caller stops past [hi] hands on the entries between the bounds. *)
Lemma visit_between {A} (f : list Z → Z → A → bool * A) (each : list Z → Hit → A → bool * A)
    from after lo hi es a :
  StronglySorted entry_le es →
  (∀ e, e ∈ es → reached from after (pack_entry e).1 ↔ above lo e.1) →
  (∀ e a, e ∈ es → above lo e.1 →
    f (pack_entry e).1 (pack_entry e).2 a = if decide (below hi e.1) then each e.1 e.2 a else (false, a)) →
  (visit f (filter (λ x, reached from after x.1) (pack_entry <$> es)) a).2
  = for_entries each (filter (λ e : Entry, above lo e.1 ∧ below hi e.1) es) a.
Proof.
  intros Hs. revert a. induction Hs as [|e es Hs IH He]; intros a Hlo Hf; [done|].
  assert (∀ a, (visit f (filter (λ x, reached from after x.1) (pack_entry <$> es)) a).2
    = for_entries each (filter (λ e : Entry, above lo e.1 ∧ below hi e.1) es) a) as IH'.
  { intros b. apply IH; intros; [apply Hlo|apply Hf]; done || by right. }
  rewrite fmap_cons, !filter_cons. pose proof (Hlo e ltac:(by left)) as Hr.
  destruct (decide (above lo e.1)) as [Ha|Ha].
  - rewrite decide_True by by apply Hr. cbn [visit]. rewrite Hf by (done || by left).
    destruct (decide (below hi e.1)) as [Hb|Hb].
    + rewrite decide_True by done. cbn [for_entries]. destruct (each e.1 e.2 a) as [[] b]; [apply IH'|done].
    + rewrite decide_False by naive_solver. rewrite list_filter_none; [done|].
      rewrite Forall_forall in He |- *. intros e' He' [_ Hb']. apply Hb.
      eapply below_down; [|exact Hb']. by apply entry_le_key, He.
  - rewrite !decide_False by naive_solver. apply IH'.
Qed.

Lemma pack_above width lo r after key r' :
  fits_width width lo → fits_width width key → u64 r' →
  (after = false ∧ r = 0 ∨ after = true ∧ r = 2 ^ 64 - 1) →
  reached (pack lo r) after (pack key r')
  ↔ above (if (after : bool) then Excluded lo else Included lo) key.
Proof.
  intros [Hl Hok] [Hl' Hok'] Hr' Ha. unfold reached, klt, sle, slice_lt, slice_le.
  destruct Ha as [[-> ->]|[-> ->]]; cbn [above]; unfold sle, slice_le, slice_lt;
    rewrite pack_cmp by (done || congruence); destruct (slice_cmp lo key); cbn [then_cmp]; try done.
  - destruct (Z.compare_spec 0 r'); [done..|]. unfold fits in *. lia.
  - destruct (Z.compare_spec (2 ^ 64 - 1) r'); [done| |done]. unfold fits in *. lia.
Qed.

Lemma zeros_reached words : Forall u64 words → sle (replicate (length words) 0) words.
Proof.
  unfold sle, slice_le. induction 1 as [|x words Hx _ IH]; [done|]. cbn [length replicate slice_cmp].
  destruct (Z.compare_spec 0 x); [done..|]. unfold fits in Hx. lia.
Qed.

Lemma pack_words width key r : fits_width width key → u64 r → Forall u64 (pack key r).
Proof. intros [_ Hok] Hr. apply Forall_app_2; [by apply key_words_ok|by apply Forall_singleton]. Qed.

(** A bound a tree of the width takes. *)
Definition bound_fits (width : nat) (b : Bound) : Prop :=
  match b with Unbounded => True | Included key | Excluded key => fits_width width key end.

Section reads.
Context (h : nat) (s : L0) (m : Contents) (Hrep : represents h s m).
Context {A : Type} (fuel t : nat) (Hfuel : (0 < fuel)%nat).

(** Where a scan of the entries from [lo] on starts. *)
Record starts_at (lo : Bound) (from : list Z) (after : bool) : Prop := {
  sa_length : length from = l_words s;
  sa_reached : ∀ e : Entry, fits_width (l_width s) e.1 → u64 (rid e.2) →
                 reached from after (pack_entry e).1 ↔ above lo e.1 }.

Lemma pack_fits key r : fits_width (l_width s) key → length (pack key r) = l_words s.
Proof. intros [Hl _]. by rewrite length_pack, Hl, (rep_shape _ _ _ Hrep). Qed.

Lemma starts_included key : fits_width (l_width s) key → starts_at (Included key) (pack key 0) false.
Proof.
  intros Hk. split; [by apply pack_fits|]. intros e He Hr.
  apply (pack_above (l_width s) key 0 false); [done..|by left].
Qed.

Lemma starts_excluded key :
  fits_width (l_width s) key → starts_at (Excluded key) (pack key (2 ^ 64 - 1)) true.
Proof.
  intros Hk. split; [by apply pack_fits|]. intros e He Hr.
  apply (pack_above (l_width s) key (2 ^ 64 - 1) true); [done..|by right].
Qed.

Lemma starts_unbounded : starts_at Unbounded (replicate (l_words s) 0) false.
Proof.
  split; [apply length_replicate|]. intros e He Hr. split; [done|]. intros _. simpl.
  rewrite <-(pack_fits e.1 (rid e.2) He). by eapply zeros_reached, pack_words.
Qed.

Lemma scan_between (f : list Z → Z → A → bool * A) (each : list Z → Hit → A → bool * A) from after lo hi a :
  starts_at lo from after →
  (∀ (e : Entry) a, fits_width (l_width s) e.1 → above lo e.1 →
    f (pack_entry e).1 (pack_entry e).2 a = if decide (below hi e.1) then each e.1 e.2 a else (false, a)) →
  scan (λ _, s) fuel from after f a t
  = Some (for_entries each (filter (λ e : Entry, above lo e.1 ∧ below hi e.1) (listing m)) a).
Proof.
  intros [Hl Hlo] Hf. destruct Hrep as [_ Hm (lvs&leaves&ess&T&_&E)].
  rewrite (scan_visit s lvs leaves ess T f from after a t fuel Hfuel Hl), E. f_equal.
  apply visit_between; [apply listing_sorted|..]; intros e; intros;
    destruct (listing_fits (l_width s) m e) as (Hw&Hr&_); auto.
Qed.

Lemma keyed_entry (e : Entry) :
  fits_width (l_width s) e.1 →
  take (l_words s - 1) (pack_entry e).1 = key_words e.1
  ∧ (pack_entry e).1 !! (l_words s - 1)%nat = Some (rid e.2).
Proof. intros [Hl _]. apply (keyed_pack s (rep_shape _ _ _ Hrep)). done. Qed.

Lemma hit_eta (x : Hit) : mkHit (rid x) (ts x) = x.
Proof. by destruct x. Qed.

(** The upper bound of [range], as its words compare. *)
Lemma past_below hi (e : Entry) :
  fits_width (l_width s) e.1 → bound_fits (l_width s) hi →
  match
    match hi with
    | Included key => (L0_probe s key 0, true)
    | Excluded key => (L0_probe s key 0, false)
    | Unbounded => (None, true)
    end
  with
  | (Some end_, inclusive) =>
      match slice_cmp (take (l_words s - 1) (pack_entry e).1) (take (l_words s - 1) end_) with
      | Gt => true | Eq => negb inclusive | Lt => false
      end
  | (None, _) => false
  end = negb (bool_decide (below hi e.1)).
Proof.
  intros He Hhi. rewrite (proj1 (keyed_entry e He)). destruct He as [Hl Hok].
  pose proof (rep_shape _ _ _ Hrep) as Hs.
  destruct hi as [|key|key]; cbn [below]; [by rewrite bool_decide_true| |];
    destruct Hhi as [Hl' Hok']; rewrite (probe_pack s Hs), Hl', Nat.eqb_refl;
    rewrite (proj1 (keyed_pack s Hs key 0 Hl')), key_words_cmp by (done || congruence);
    case_bool_decide as Hb; unfold sle, slice_le, slice_lt in Hb; by destruct (slice_cmp e.1 key).
Qed.

Lemma range_represents (each : list Z → Hit → A → bool * A) lo hi a :
  bound_fits (l_width s) lo → bound_fits (l_width s) hi →
  L0_range (λ _, s) fuel lo hi each a t
  = Some (for_entries each (filter (λ e : Entry, above lo e.1 ∧ below hi e.1) (listing m)) a).
Proof.
  intros Hlo Hhi. pose proof (rep_shape _ _ _ Hrep) as Hs.
  assert (∃ from after, starts_at lo from after ∧
    match lo with
    | Included key => (L0_probe s key 0, false)
    | Excluded key => (L0_probe s key (2 ^ 64 - 1), true)
    | Unbounded => (Some (replicate (l_words s) 0), false)
    end = (Some from, after)) as (from&after&Hstart&E).
  { destruct lo as [|key|key]; [eauto using starts_unbounded|..];
      rewrite (probe_pack s Hs), (proj1 Hlo), Nat.eqb_refl;
      eauto using starts_included, starts_excluded. }
  unfold L0_range. rewrite E. pose proof (past_below hi) as Hpast.
  destruct (match hi with Unbounded => _ | Included _ => _ | Excluded _ => _ end) as [end_ inclusive] eqn:Eend.
  etrans; [|apply (scan_between (λ words ts a,
    if (match end_ with
        | Some end_ => match slice_cmp (take (l_words s - 1) words) (take (l_words s - 1) end_) with
                       | Gt => true | Eq => negb inclusive | Lt => false end
        | None => false end : bool)
    then (false, a)
    else each (key_of s words) (mkHit (default 0 (words !! (l_words s - 1)%nat)) ts) a) each); [done|]].
  - destruct hi as [|key|key]; [done|..]; rewrite (probe_pack s Hs), (proj1 Hhi), Nat.eqb_refl in Eend;
      by injection Eend as <- <-.
  - intros e b He Ha. assert (∀ (x y : bool * A), (if (match end_ with
        | Some end_ => match slice_cmp (take (l_words s - 1) (pack_entry e).1) (take (l_words s - 1) end_) with
                       | Gt => true | Eq => negb inclusive | Lt => false end
        | None => false end : bool) then x else y) = if decide (below hi e.1) then y else x) as ->.
    { intros x y. specialize (Hpast e He Hhi). rewrite Hpast.
      by case_bool_decide; case_decide. }
    rewrite (proj2 (keyed_entry e He)). cbn [from_option pack_entry fst snd]. unfold id.
    rewrite (key_of_pack s Hs), hit_eta; [done|apply He..].
Qed.
End reads.

Lemma for_entries_accept {A} (accept : Hit → A → bool * A) es a :
  for_entries (λ _ hit '(found, a), let '(taken, a) := accept hit a in
    if (taken : bool) then (false, (Some hit, a)) else (true, (found, a))) es (None, a)
  = accept_first accept ((λ e, e.2) <$> es) a.
Proof.
  revert a. induction es as [|e es IH]; intros a; [done|]. cbn [for_entries fmap list_fmap accept_first].
  destruct (accept e.2 a) as [[] b]; [done|apply IH].
Qed.

(** [find], on a key of the tree's width and on any other. *)
Lemma find_represents {A} h s m fuel t (accept : Hit → A → bool * A) key a :
  represents h s m → bytes_ok key → (0 < fuel)%nat →
  L0_find (λ _, s) fuel key accept a t = Some (accept_first accept (hits_of key (listing m)) a).
Proof.
  intros Hrep Hok Hf. pose proof (rep_shape _ _ _ Hrep) as Hs. unfold L0_find. rewrite (probe_pack s Hs).
  destruct (Nat.eqb_spec (length key) (l_width s)) as [Hl|Hl].
  - assert (fits_width (l_width s) key) as Hk by done.
    rewrite (scan_between h s m Hrep fuel t Hf _ (λ _ hit '(found, a), let '(taken, a) := accept hit a in
      if (taken : bool) then (false, (Some hit, a)) else (true, (found, a)))
      _ _ (Included key) (Included key)); [|by apply (starts_included h s m)|].
    + f_equal. unfold hits_of. rewrite <-for_entries_accept. f_equal. apply list_filter_iff.
      intros e. simpl. split; [intros [? ?]; by apply (anti_symm sle)|by intros ->].
    + intros e [found b] He Ha. rewrite (proj1 (keyed_entry h s m Hrep e He)).
      rewrite (proj1 (keyed_pack s Hs key 0 Hl)), (proj2 (keyed_entry h s m Hrep e He)).
      destruct He as [Hel Heok]. unfold slice_eq. rewrite key_words_cmp by (done || congruence).
      cbn [from_option pack_entry snd]. unfold id. rewrite hit_eta. simpl in Ha |- *.
      destruct (decide (sle e.1 key)) as [Hb|Hb].
      * by rewrite (anti_symm sle _ _ Hb Ha), slice_cmp_refl.
      * unfold sle, slice_le in Hb. by destruct (slice_cmp e.1 key).
  - unfold hits_of. rewrite list_filter_none; [done|]. apply Forall_forall. intros e He E.
    destruct (listing_fits _ _ e (rep_fits _ _ _ Hrep) He) as [[? _] _]. congruence.
Qed.

(** A flush pushes the entries in order. *)
Lemma for_entries_push es w w' :
  push_all es w = Ok w' →
  for_entries (λ key hit w, match RunWriter_push key hit w with Ok w => (true, w) | Err _ => (false, w) end)
    es w = w'.
Proof.
  revert w. induction es as [|e es IH]; intros w; cbn [push_all for_entries]; [by intros [= ->]|].
  destruct (RunWriter_push e.1 e.2 w) as [w1|]; [apply IH|done].
Qed.

Lemma to_run_represents h s m fuel t :
  represents h s m → u64 (Z.of_nat (l_width s)) → (0 < fuel)%nat →
  ∃ r, L0_to_run (λ _, s) fuel t = Some r ∧ written r (listing m).
Proof.
  intros Hrep Hw Hf. unfold L0_to_run. rewrite (range_represents h s m Hrep fuel t Hf) by done.
  rewrite some_bind, list_filter_all by (by apply Forall_forall).
  destruct (push_all_view (listing m) RunWriter_new [] writer_new_view) as (w&bs&E&Hv&Eb).
  - apply Forall_forall. intros e He.
    destruct (listing_fits _ _ e (rep_fits _ _ _ Hrep) He) as ([Hl _]&Hr&Ht).
    split; [|done]. unfold zlen. by rewrite Hl.
  - cbn [concat app]. rewrite <-(list_fmap_id (listing m)).
    eapply StronglySorted_fmap; [|apply listing_sorted]. intros e e'. apply entry_le_key.
  - rewrite (for_entries_push _ _ _ E). eexists. split; [done|]. exists bs.
    split; [by apply finish_view|done].
Qed.

(** * A key of another width *)

Lemma probe_other s key r : shape_ok s → length key ≠ l_width s → L0_probe s key r = None.
Proof. intros Hs Hl. rewrite (probe_pack s Hs). by destruct (Nat.eqb_spec (length key) (l_width s)). Qed.

(** * Claims *)

(** A tree for the witnesses: three entries of two keys. *)
Definition example_contents : Contents :=
  <[([1; 2; 4], 1) := 5]> (<[([1; 2; 3], 7) := 4]> (<[([1; 2; 3], 8) := 9]> ∅)).

Definition grown (s : L0) (m : Contents) (h : nat) (n : Z) : Prop :=
  ∃ h', (h' ≤ h)%nat ∧ represents h' s m ∧ l_width s = 3%nat ∧ a_next (l_nodes s) ≤ n.

Lemma grown_insert s m h n key hit :
  grown s m h n → fits_width 3 key → u64 (rid hit) → u64 (ts hit) → (h ≤ 10)%nat → n ≤ 1000000 →
  ∃ s', grown s' (<[(key, rid hit) := ts hit]> m) (2 * h) (n + Z.of_nat (4 * h * h)).
Proof.
  intros (h0&Hh&Hrep&Hw&Hn) Hkey Hr Ht Hh1 Hn1. assert (h0 * h0 ≤ h * h)%nat by nia.
  assert (h * h ≤ 100)%nat by nia.
  destruct (insert_represents h0 s m 201 key hit Hrep) as (h'&s'&_&Hrep'&Hw'&Hh'&Hn');
    [by rewrite Hw|done|done|lia|unfold NONE; lia|]. exists s', h'. split_and!; [lia|done|congruence|lia].
Qed.

Lemma example_grown : ∃ h s, represents h s example_contents ∧ l_width s = 3%nat.
Proof.
  destruct (new_represents 3) as (s&_&Hrep&Hw&Hn).
  assert (grown s ∅ 1 1) as Hg by (exists 1%nat; rewrite Hn; by split_and!).
  destruct (grown_insert s _ _ _ [1; 2; 3] (mkHit 8 9) Hg) as [s1 Hg1]; [decided|by vm_compute..|lia|lia|].
  destruct (grown_insert s1 _ _ _ [1; 2; 3] (mkHit 7 4) Hg1) as [s2 Hg2]; [decided|by vm_compute..|lia|lia|].
  destruct (grown_insert s2 _ _ _ [1; 2; 4] (mkHit 1 5) Hg2) as [s3 (h'&_&Hrep3&Hw3&_)];
    [decided|by vm_compute..|lia|lia|]. by exists h', s3.
Qed.

Lemma example_listing :
  listing example_contents = [([1; 2; 3], mkHit 7 4); ([1; 2; 3], mkHit 8 9); ([1; 2; 4], mkHit 1 5)].
Proof. vm_compute. reflexivity. Qed.

(** C12. [insert] ends and sets the entry of its key and rid: on a tree that stands for a map the
    answer is a tree that stands for the map with the entry in it, new or in place of the old ts,
    whatever nodes had to be split and however many times the writer had to start over, and the
    count of the tree is the size of the map. With [h] levels, twice the square of [h] turns are
    enough, and as many new nodes twice over. A key of another width is refused and leaves the
    tree as it was. *)
Theorem insert_refines h s m fuel key hit (Hrep : represents h s m)
    (Hkey : bytes_ok key) (Hrid : u64 (rid hit)) (Hts : u64 (ts hit)) (Hfuel : (2 * h * h < fuel)%nat)
    (Hroom : a_next (l_nodes s) + Z.of_nat (4 * h * h) + 1 < NONE) :
  if (length key =? l_width s)%nat then
    ∃ h' s', L0_insert fuel key hit s = Some (Ok tt, s')
      ∧ represents h' s' (<[(key, rid hit) := ts hit]> m)
      ∧ l_len s' = wrap 64 (Z.of_nat (size (<[(key, rid hit) := ts hit]> m)))
      ∧ (h' ≤ 2 * h)%nat ∧ a_next (l_nodes s') ≤ a_next (l_nodes s) + Z.of_nat (4 * h * h)
  else L0_insert fuel key hit s
       = Some (Err (Internal "a key of bytes for an index L0 of -byte keys"), s).
Proof.
  destruct (Nat.eqb_spec (length key) (l_width s)) as [Hl|Hl].
  - destruct (insert_represents h s m fuel key hit) as (h'&s'&E&Hr&_&Hh&Hn); try done.
    exists h', s'. split_and!; try done. by eapply represents_len.
  - unfold L0_insert. by rewrite probe_other by (done || by apply (rep_shape _ _ _ Hrep)).
Qed.

Lemma insert_refines_witness :
  ∃ s h' s', L0_new 3 = Some (Ok s) ∧ L0_insert 3 [1; 2; 3] (mkHit 7 9) s = Some (Ok tt, s')
    ∧ represents h' s' {[([1; 2; 3], 7) := 9]}.
Proof.
  destruct (new_represents 3) as (s&E&Hrep&Hw&Hn). exists s.
  pose proof (insert_refines 1 s ∅ 3 [1; 2; 3] (mkHit 7 9) Hrep) as H. rewrite Hw, Hn in H.
  destruct H as (h'&s'&E'&Hrep'&_); [decided|by vm_compute..|lia|by vm_compute|]. by exists h', s'.
Defined.

(** [remove] ends, answers whether the map had an entry for the key and rid, and leaves a tree
    that stands for the map without it. *)
Theorem remove_refines h s m fuel key r (Hrep : represents h s m) (Hkey : bytes_ok key)
    (Hfuel : (0 < fuel)%nat) :
  ∃ s', L0_remove fuel key r s = Some (bool_decide (is_Some (m !! (key, r))), s')
    ∧ represents h s' (delete (key, r) m)
    ∧ l_len s' = wrap 64 (Z.of_nat (size (delete (key, r) m))).
Proof.
  destruct (decide (length key = l_width s)) as [Hl|Hl].
  - destruct (remove_represents h s m fuel key r) as (s'&E&Hr&_); try done.
    exists s'. split_and!; [done..|]. by eapply represents_len.
  - exists s. unfold L0_remove. rewrite probe_other by (done || by apply (rep_shape _ _ _ Hrep)).
    assert (m !! (key, r) = None) as Hno.
    { destruct (m !! (key, r)) as [t|] eqn:E; [|done].
      by destruct (rep_fits _ _ _ Hrep _ _ E) as ([? _]&_). }
    rewrite delete_id by done. rewrite bool_decide_false by (rewrite Hno; by intros []).
    split_and!; [done..|]. by eapply represents_len.
Qed.

Lemma remove_refines_witness :
  ∃ h s s', represents h s example_contents ∧ L0_remove 1 [1; 2; 3] 8 s = Some (true, s')
    ∧ represents h s' (delete ([1; 2; 3], 8) example_contents).
Proof.
  destruct example_grown as (h&s&Hrep&Hw).
  destruct (remove_refines h s example_contents 1 [1; 2; 3] 8 Hrep) as (s'&E&Hrep'&_); [decided|lia|].
  by exists h, s, s'.
Defined.

(** [find] at rest hands its caller the entries of the key, lowest rid first, until it takes
    one, and answers that one: the map's entries for the key, all of them and no other. *)
Theorem L0_find_refines {A} h s m fuel t (accept : Hit → A → bool * A) key a
    (Hrep : represents h s m) (Hkey : bytes_ok key) (Hfuel : (0 < fuel)%nat) :
  L0_find (λ _, s) fuel key accept a t = Some (accept_first accept (hits_of key (listing m)) a).
Proof. by apply (find_represents h). Qed.

Lemma L0_find_refines_witness :
  ∃ h s, represents h s example_contents
    ∧ L0_find (λ _, s) 1 [1; 2; 3] (λ hit (n : nat), (7 <? rid hit, S n)) 0%nat 0
      = Some (Some (mkHit 8 9), 2%nat).
Proof.
  destruct example_grown as (h&s&Hrep&Hw). exists h, s. split; [done|].
  rewrite (L0_find_refines h s example_contents) by (done || lia || decided).
  by rewrite example_listing.
Defined.

(** [range] at rest hands its caller the entries whose keys are within the bounds, in key
    order and then by rid, until it has had enough; a bound of another width yields nothing. *)
Theorem L0_range_refines {A} h s m fuel t lo hi (each : list Z → Hit → A → bool * A) a
    (Hrep : represents h s m) (Hfuel : (0 < fuel)%nat) :
  (bound_fits (l_width s) lo ∧ bound_fits (l_width s) hi →
     L0_range (λ _, s) fuel lo hi each a t
     = Some (for_entries each (filter (λ e : Entry, above lo e.1 ∧ below hi e.1) (listing m)) a))
  ∧ ((∃ key, length key ≠ l_width s ∧ (lo = Included key ∨ lo = Excluded key ∨ hi = Included key
        ∨ hi = Excluded key)) → L0_range (λ _, s) fuel lo hi each a t = Some a).
Proof.
  split; [intros [? ?]; by apply (range_represents h)|].
  intros (key&Hl&Hb). pose proof (λ r, probe_other s key r (rep_shape _ _ _ Hrep) Hl) as Hno.
  unfold L0_range. destruct Hb as [-> | [-> | [-> | ->]]]; rewrite !Hno; [done..| |];
    destruct lo; by repeat case_match; simplify_eq.
Qed.

Lemma L0_range_refines_witness :
  ∃ h s, represents h s example_contents
    ∧ L0_range (λ _, s) 1 (Excluded [1; 2; 3]) Unbounded (λ key hit es, (true, es ++ [(key, hit)])) [] 0
      = Some [([1; 2; 4], mkHit 1 5)].
Proof.
  destruct example_grown as (h&s&Hrep&Hw). exists h, s. split; [done|].
  rewrite (proj1 (L0_range_refines h s example_contents 1 0 (Excluded [1; 2; 3]) Unbounded
    (λ key hit es, (true, es ++ [(key, hit)])) [] Hrep ltac:(lia))).
  - by rewrite example_listing.
  - rewrite Hw. split; [decided|done].
Defined.

(** C30. A flush keeps everything: [to_run] never stops on a refused push, the run it writes holds
    exactly the entries of the tree in order, and a lookup in the run answers what the same
    lookup in the tree does. *)
Theorem to_run_refines h s m fuel t (Hrep : represents h s m) (Hw : u64 (Z.of_nat (l_width s)))
    (Hfuel : (0 < fuel)%nat) :
  ∃ r, L0_to_run (λ _, s) fuel t = Some r ∧ written r (listing m)
    ∧ (zlen (run_blocks r) ≤ usize_max → ∀ A (accept : Hit → A → bool * A) key a, bytes_ok key →
         Run_find r key accept a = L0_find (λ _, s) fuel key accept a t).
Proof.
  destruct (to_run_represents h s m fuel t Hrep Hw Hfuel) as (r&E&Hr). exists r. split_and!; [done..|].
  intros Hmax A accept key a Hkey. destruct Hr as (bs&Hv&Eb).
  rewrite (find_view r bs Hv Hmax), Eb. by rewrite (find_represents h s m).
Qed.

Lemma to_run_refines_witness :
  ∃ h s r, represents h s example_contents ∧ L0_to_run (λ _, s) 1 0 = Some r
    ∧ written r [([1; 2; 3], mkHit 7 4); ([1; 2; 3], mkHit 8 9); ([1; 2; 4], mkHit 1 5)].
Proof.
  destruct example_grown as (h&s&Hrep&Hw).
  destruct (to_run_refines h s example_contents 1 0 Hrep) as (r&E&Hr&_); [by rewrite Hw|lia|].
  rewrite example_listing in Hr. by exists h, s, r.
Defined.

(** * A lookup that races with a split

    The way down checks a node's version before it reads the version of the child it found there, and
    nothing looks at the node again: a split between the two leaves the reader in the left half of
    what it was after. *)

Definition key8 (n : Z) : list Z := be_bytes 8 n.

Fixpoint insert_each (ns : list Z) (s : L0) : option L0 :=
  match ns with
  | [] => Some s
  | n :: ns =>
      match L0_insert 10 (key8 n) (mkHit n 1) s with
      | Some (Ok _, s) => insert_each ns s
      | _ => None
      end
  end.

(** The keys from 1 to 255: a root over a leaf of 85 entries and one of 170, which is full. *)
Definition full_leaf : option L0 :=
  match L0_new 8 with
  | Some (Ok s) => insert_each (Z.of_nat <$> seq 1 255) s
  | _ => None
  end.

(** One more, past the others, for which the full leaf is split. *)
Definition split_leaf_tree : option L0 := s ← full_leaf; insert_each [1000] s.

Definition find_first (mem : nat → option L0) (n : Z) : option (option Hit * unit) :=
  s0 ← mem 0%nat;
  L0_find (λ t, default s0 (mem t)) 5 (key8 n) (λ _ u, (true, u)) tt 0.

(** C36. A lookup misses a key that is in the tree all along. With the tree of [full_leaf] at every
    tick before the sixth and the one of [split_leaf_tree] from there on, the state between the
    reader's check of the root and its read of the leaf's version being the only one to change,
    [find] answers [None] for the key 200, which it finds in the tree before and in the tree
    after. *)
Theorem find_misses_under_split :
  find_first (λ _, full_leaf) 200 = Some (Some (mkHit 200 1), tt)
  ∧ find_first (λ _, split_leaf_tree) 200 = Some (Some (mkHit 200 1), tt)
  ∧ find_first (λ t, if (t <? 5)%nat then full_leaf else split_leaf_tree) 200 = Some (None, tt).
Proof. split_and!; vm_compute; reflexivity. Qed.
