(* ===== verification/Free.v ===== *)
(** The free extents of a database file: [rudb-native/src/free.rs].

    A commit starts from the list of runs the generations before it gave back ([Space_new]),
    finds places for what it writes ([Space_take], [Space_catalog]), gives back what it stops
    naming ([Space_give]) and writes the list down again ([encode], [decode]). *)

From S2P Require Import Prelude.
Local Open Scope Z_scope.

Definition HEADER : Z := 80.
(** [b"RUDBFX1\0"] and [b"RUDBOE1\0"] *)
Definition FREE_EXTENTS : list Z := [82; 85; 68; 66; 70; 88; 49; 0].
Definition OWNED : list Z := [82; 85; 68; 66; 79; 69; 49; 0].
Definition MAX_FREE : Z := 2 ^ 16.
Definition MAX_OWNED : Z := 2 ^ 24.
Definition u64_max : Z := 2 ^ 64 - 1.

Definition invalid (message : string) : Error :=
  InvalidInput ("invalid rudb native file: " +:+ message).

Record Freed : Type := mkFreed { f_offset : Z; f_length : Z; f_since : Z; f_table : Z }.

Definition Freed_end (run : Freed) : Z := f_offset run + f_length run.

#[global] Instance Freed_eq_dec : EqDecision Freed.
Proof. solve_decision. Defined.

(** ** The cursor, over bytes in memory *)

Definition Cursor_take (bytes : list Z) (len at_ : Z) : Result (list Z * Z) :=
  let end_ := at_ + len in
  if end_ >? u64_max then Err (invalid "directory offset overflow") else
  if end_ >? zlen bytes then Err (invalid "directory is truncated") else
  Ok (slice at_ end_ bytes, end_).

Definition Cursor_u32 (bytes : list Z) (at_ : Z) : Result (Z * Z) :=
  '(taken, at_) ← Cursor_take bytes 4 at_; Ok (le_val taken, at_).

Definition Cursor_u64 (bytes : list Z) (at_ : Z) : Result (Z * Z) :=
  '(taken, at_) ← Cursor_take bytes 8 at_; Ok (le_val taken, at_).

(** ** Writing the lists down *)

Definition put_u32 (value : Z) : list Z := le_bytes 4 value.
Definition put_u64 (value : Z) : list Z := le_bytes 8 value.

(** The bytes [encode] appends. *)
Definition encode (free : list Freed) : Result (list Z) :=
  match free with
  | [] => Ok []
  | _ =>
      if zlen free <? 2 ^ 32 then
        Ok (FREE_EXTENTS ++ put_u32 (zlen free)
            ++ concat ((λ run, put_u64 (f_offset run) ++ put_u64 (f_length run)
                               ++ put_u64 (f_since run) ++ put_u64 (f_table run)) <$> free))
      else Err (invalid "too many free runs")
  end.

Fixpoint decode_loop (count : nat) (bytes : list Z) (size after : Z) (free : list Freed) (at_ : Z)
    : Result (list Freed * Z) :=
  match count with
  | O => Ok (free, at_)
  | S count =>
      '(offset, at_) ← Cursor_u64 bytes at_;
      '(length, at_) ← Cursor_u64 bytes at_;
      '(since, at_) ← Cursor_u64 bytes at_;
      '(table, at_) ← Cursor_u64 bytes at_;
      let end_ := offset + length in
      if end_ >? u64_max then Err (invalid "free run overflows") else
      if (length =? 0) || (since =? 0) || (offset <? after) || (end_ >? size)
      then Err (invalid "free runs overlap, are out of order or leave the file")
      else decode_loop count bytes size end_ (free ++ [mkFreed offset length since table]) at_
  end.

Definition decode (bytes : list Z) (size at_ : Z) : Result (list Freed * Z) :=
  '(count, at_) ← Cursor_u32 bytes at_;
  if (count =? 0) || (count >? MAX_FREE)
  then Err (invalid "free run count is outside its bound")
  else decode_loop (Z.to_nat count) bytes size HEADER [] at_.

Definition encode_owned (owned : list (Z * Z)) : Result (list Z) :=
  match owned with
  | [] => Ok []
  | _ =>
      if zlen owned <? 2 ^ 32 then
        Ok (OWNED ++ put_u32 (zlen owned)
            ++ concat ((λ run, put_u64 run.1 ++ put_u64 run.2) <$> owned))
      else Err (invalid "too many owned runs")
  end.

Fixpoint decode_owned_loop (count : nat) (bytes : list Z) (size after : Z) (owned : list (Z * Z))
    (at_ : Z) : Result (list (Z * Z) * Z) :=
  match count with
  | O => Ok (owned, at_)
  | S count =>
      '(offset, at_) ← Cursor_u64 bytes at_;
      '(length, at_) ← Cursor_u64 bytes at_;
      let end_ := offset + length in
      if end_ >? u64_max then Err (invalid "owned run overflows") else
      if (length =? 0) || (offset <? after) || (end_ >? size)
      then Err (invalid "owned runs overlap, are out of order or leave the file")
      else decode_owned_loop count bytes size end_ (owned ++ [(offset, length)]) at_
  end.

Definition decode_owned (bytes : list Z) (size at_ : Z) : Result (list (Z * Z) * Z) :=
  '(count, at_) ← Cursor_u32 bytes at_;
  if (count =? 0) || (count >? MAX_OWNED)
  then Err (invalid "owned run count is outside its bound")
  else decode_owned_loop (Z.to_nat count) bytes size HEADER [] at_.

(** ** Joining the runs of a table *)

(** The order of pairs, [sort_unstable]'s. Equal pairs cannot be told apart, so that sort has
    one outcome. *)
Definition run_le (a b : Z * Z) : Prop := a.1 < b.1 ∨ (a.1 = b.1 ∧ a.2 ≤ b.2).

#[global] Instance run_le_dec : RelDecision run_le.
Proof. intros a b. unfold run_le. apply _. Defined.

Fixpoint coalesce_loop (joined : list (Z * Z)) (runs : list (Z * Z)) : list (Z * Z) :=
  match runs with
  | [] => joined
  | (offset, length) :: runs =>
      match last joined with
      | Some (at_, len) =>
          if at_ + len =? offset
          then coalesce_loop (removelast joined ++ [(at_, len + length)]) runs
          else coalesce_loop (joined ++ [(offset, length)]) runs
      | None => coalesce_loop (joined ++ [(offset, length)]) runs
      end
  end.

Definition coalesce (runs : list (Z * Z)) : list (Z * Z) :=
  coalesce_loop [] (merge_sort run_le (filter (λ run, run.2 > 0) runs)).

(** ** Space *)

Record Space : Type := mkSpace {
  s_end : Z;
  s_start : Z;
  s_free : list Freed;
  s_generation : Z;
  s_holds : list (Z * Z);
  s_taken : list (Z * Z) }.

Definition saturating_add (a b : Z) : Z := Z.min (a + b) u64_max.

Definition usable (generation : Z) (holds : list (Z * Z)) (run : Freed) : bool :=
  (saturating_add (f_since run) 2 <=? generation)
  && forallb (λ h : Z * Z, (f_since run <=? h.1)
       || (negb (h.2 =? 0) && negb (f_table run =? 0) && negb (h.2 =? f_table run))) holds.

Definition Space_usable (s : Space) (run : Freed) : bool := usable (s_generation s) (s_holds s) run.

Fixpoint merge_runs (s : Space) (merged : list Freed) (free : list Freed) : list Freed :=
  match free with
  | [] => merged
  | run :: free =>
      match last merged with
      | Some l =>
          if (Freed_end l =? f_offset run) && Space_usable s l && Space_usable s run then
            let joined := mkFreed (f_offset l) (f_length l + f_length run)
                            (Z.max (f_since l) (f_since run))
                            (if f_table l =? f_table run then f_table l else 0) in
            merge_runs s (removelast merged ++ [joined]) free
          else merge_runs s (merged ++ [run]) free
      | None => merge_runs s (merged ++ [run]) free
      end
  end.

Definition with_free (s : Space) (free : list Freed) : Space :=
  mkSpace (s_end s) (s_start s) free (s_generation s) (s_holds s) (s_taken s).

Definition Space_merge (s : Space) : Space := with_free s (merge_runs s [] (s_free s)).

(** The loop of [trim], over the runs from the last to the first. *)
Fixpoint trim_loop (s : Space) (end_ : Z) (rev_free : list Freed) : Z * list Freed :=
  match rev_free with
  | [] => (end_, [])
  | run :: rest =>
      if (Freed_end run =? end_) && Space_usable s run then trim_loop s (f_offset run) rest
      else (end_, rev_free)
  end.

Definition Space_trim (s : Space) : Space :=
  let '(end_, rev_free) := trim_loop s (s_end s) (reverse (s_free s)) in
  mkSpace end_ end_ (reverse rev_free) (s_generation s) (s_holds s) (s_taken s).

(** [holds] is what [holds(path)] answers: the holds alive on the file. *)
Definition Space_new (holds : list (Z * Z)) (end_ : Z) (free : list Freed) (generation : Z) : Space :=
  Space_trim (Space_merge (mkSpace end_ end_ free generation holds [])).

Definition Space_fresh (end_ : Z) : Space := mkSpace end_ end_ [] 1 [] [].

Definition Space_committed (s : Space) (offset : Z) : bool :=
  (offset <? s_start s)
  && negb (existsb (λ r : Z * Z, (r.1 <=? offset) && (offset <? r.1 + r.2)) (s_taken s)).

Definition Space_append (s : Space) (length : Z) : Result (Z * Space) :=
  let offset := s_end s in
  if offset + length >? u64_max then Err (invalid "native file length overflow") else
  Ok (offset, mkSpace (offset + length) (s_start s) (s_free s) (s_generation s) (s_holds s) (s_taken s)).

(** The run at [at] with [length] bytes taken off its front. *)
Definition shorter (run : Freed) (length : Z) : Freed :=
  mkFreed (f_offset run + length) (f_length run - length) (f_since run) (f_table run).

Definition Space_take (s : Space) (length : Z) : Result (Z * bool * Space) :=
  let append := '(offset, s) ← Space_append s length; Ok (offset, true, s) in
  if length >? 0 then
    match position (λ run, (f_length run >=? length) && Space_usable s run) (s_free s) with
    | Some at_ =>
        match s_free s !! at_ with
        | Some run =>
            let rest := shorter run length in
            let free := if f_length rest =? 0 then delete at_ (s_free s)
                        else <[at_ := rest]> (s_free s) in
            Ok (f_offset run, false,
                mkSpace (s_end s) (s_start s) free (s_generation s) (s_holds s)
                  (s_taken s ++ [(f_offset run, length)]))
        | None => append
        end
    | None => append
    end
  else append.

Definition Space_catalog (s : Space) (length : Z) : Result (Z * bool * Space) :=
  let append := '(offset, s) ← Space_append s length; Ok (offset, false, s) in
  match position (λ run, (f_length run >? length) && Space_usable s run) (s_free s) with
  | Some at_ =>
      match s_free s !! at_ with
      | Some run =>
          Ok (f_offset run, true,
              mkSpace (s_end s) (s_start s) (<[at_ := shorter run length]> (s_free s))
                (s_generation s) (s_holds s) (s_taken s ++ [(f_offset run, length)]))
      | None => append
      end
  | None => append
  end.

Definition clashes (s : Space) (offset length : Z) : bool :=
  let end_ := saturating_add offset length in
  (offset <? HEADER) || (end_ >? s_start s)
  || existsb (λ run, (offset <? Freed_end run) && (f_offset run <? end_)) (s_free s)
  || existsb (λ r : Z * Z, (offset <? r.1 + r.2) && (r.1 <? end_)) (s_taken s).

(** [partition_point(p)] of a list [p] holds on a prefix of. *)
Fixpoint partition_point {A} (p : A → bool) (l : list A) : nat :=
  match l with
  | x :: l => if p x then S (partition_point p l) else 0
  | [] => 0
  end.

Definition joins (left_ right_ : Freed) : bool :=
  (Freed_end left_ =? f_offset right_) && (f_table left_ =? f_table right_)
  && (f_since left_ =? f_since right_).

Definition longer (run : Freed) (length : Z) : Freed :=
  mkFreed (f_offset run) (f_length run + length) (f_since run) (f_table run).

(** Joins the run at [at] with the one after it when they join. *)
Definition join_at (at_ : nat) (free : list Freed) : list Freed :=
  match free !! at_, free !! S at_ with
  | Some l, Some r =>
      if joins l r then <[at_ := longer l (f_length r)]> (delete (S at_) free) else free
  | _, _ => free
  end.

(** A release build: the [debug_assert] is not compiled. *)
Definition Space_give (offset length table : Z) (s : Space) : Space :=
  if length =? 0 then s else
  if clashes s offset length then s else
  let at_ := partition_point (λ run, f_offset run <? offset) (s_free s) in
  let free := take at_ (s_free s) ++ [mkFreed offset length (s_generation s) table]
              ++ drop at_ (s_free s) in
  let free := join_at at_ free in
  let free := match at_ with O => free | S before => join_at before free end in
  with_free s free.

(** FNV-1a over the bytes of the name. *)
Definition tag (name : list Z) : Z :=
  Z.max 1 (foldl (λ hash byte, wrap 64 (Z.lxor hash byte * 0x100000001b3)) 0xcbf29ce484222325 name).

(** [sort_unstable_by_key]: some sorted permutation, which one is not said. *)
Class UnstableSort : Type := {
  sort_by_key : ∀ {A : Type}, (A → Z) → list A → list A;
  sort_by_key_perm : ∀ A (key : A → Z) l, sort_by_key key l ≡ₚ l;
  sort_by_key_sorted : ∀ A (key : A → Z) l,
    StronglySorted (λ x y, key x ≤ key y) (sort_by_key key l) }.

Definition Space_list `{UnstableSort} (s : Space) : list Freed :=
  if zlen (s_free s) >? MAX_FREE then
    sort_by_key f_offset
      (take (Z.to_nat MAX_FREE) (sort_by_key (λ run, - f_length run) (s_free s)))
  else s_free s.

(** [placed_catalog] of [rudb-native/src/lib.rs]. *)
Definition MAX_DIRECTORY : Z := 128 * 1024 * 1024.

Definition placed_catalog `{UnstableSort} (encode_catalog : list Freed → Result (list Z)) (s : Space)
    : Result (Z * list Z * Space) :=
  catalog ← encode_catalog (Space_list s);
  if zlen catalog >? MAX_DIRECTORY then Err (invalid "catalog exceeds the configured bound") else
  '(offset, moved, s) ← Space_catalog s (zlen catalog);
  if negb moved then Ok (offset, catalog, s) else
  again ← encode_catalog (Space_list s);
  if negb (zlen again =? zlen catalog)
  then Err (invalid "catalog changed length when it took its place")
  else Ok (offset, again, s).

(** ** Holds *)

(** [OPEN]: every hold's file, generation, table tag and which [Arc] it is. The [Arc]s with a
    clone alive are [h_live]. *)
Record Holds : Type := mkHolds { h_open : list (string * Z * Z * nat); h_live : list nat; h_next : nat }.

Definition retain_live (h : Holds) : list (string * Z * Z * nat) :=
  filter (λ o : string * Z * Z * nat, o.2 ∈ h_live h) (h_open h).

(** [hold]: the new registry and the [Arc]. *)
Definition hold (key : string) (generation table : Z) (h : Holds) : Holds * nat :=
  (mkHolds (retain_live h ++ [(key, generation, table, h_next h)]) (h_next h :: h_live h) (S (h_next h)),
   h_next h).

(** The last clone of the [Arc] is dropped. *)
Definition drop_hold (arc : nat) (h : Holds) : Holds :=
  mkHolds (h_open h) (filter (λ a, a ≠ arc) (h_live h)) (h_next h).

Definition holds (key : string) (h : Holds) : list (Z * Z) * Holds :=
  let open_ := retain_live h in
  ((λ o : string * Z * Z * nat, (o.1.1.2, o.1.2)) <$> filter (λ o : string * Z * Z * nat, o.1.1.1 = key) open_,
   mkHolds open_ (h_live h) (h_next h)).

(** * Lists of runs in order *)

(** The runs of [free] are not empty, start at [after] or later, are in order without an
    overlap, and end at [limit] or before. *)
Fixpoint chain (after : Z) (free : list Freed) (limit : Z) : Prop :=
  match free with
  | [] => after ≤ limit
  | r :: free => after ≤ f_offset r ∧ 0 < f_length r ∧ chain (Freed_end r) free limit
  end.

#[global] Instance chain_dec after free limit : Decision (chain after free limit).
Proof. revert after. induction free as [|r free IH]; intros after; simpl; apply _. Defined.

Definition covers (r : Freed) (x : Z) : Prop := f_offset r ≤ x < Freed_end r.

(** The byte [x] is in a run of [free] that was freed at [since] and held [table]. *)
Definition freed_at (free : list Freed) (x since table : Z) : Prop :=
  ∃ r, r ∈ free ∧ covers r x ∧ f_since r = since ∧ f_table r = table.

Lemma chain_le after free limit : chain after free limit → after ≤ limit.
Proof.
  revert after. induction free as [|r free IH]; intros after; simpl; [done|].
  intros (?&?&Hc%IH). unfold Freed_end in Hc. lia.
Qed.

Lemma chain_weaken after after' free limit limit' :
  after' ≤ after → limit ≤ limit' → chain after free limit → chain after' free limit'.
Proof.
  revert after after'. induction free as [|r free IH]; intros after after' Ha Hl; simpl; [lia|].
  intros (?&?&?). split; [lia|]. split; [done|]. by eapply IH; [..|done].
Qed.

Lemma chain_app after l l' limit :
  chain after (l ++ l') limit ↔ ∃ m, chain after l m ∧ chain m l' limit.
Proof.
  revert after. induction l as [|r l IH]; intros after; simpl.
  - split; [intros H; exists after; done|]. intros (m&?&?). by eapply chain_weaken; [..|done].
  - rewrite IH. naive_solver.
Qed.

Lemma chain_in after free limit r :
  chain after free limit → r ∈ free → after ≤ f_offset r ∧ 0 < f_length r ∧ Freed_end r ≤ limit.
Proof.
  revert after. induction free as [|r' free IH]; intros after Hc Hin; [set_solver|].
  destruct Hc as (?&?&Hc). apply elem_of_cons in Hin as [->|Hin].
  - apply chain_le in Hc. done.
  - destruct (IH _ Hc Hin) as (?&?&?). unfold Freed_end in *. lia.
Qed.

(** Nothing of the runs ends past [o], or starts before it. *)
Lemma chain_bound after free limit o :
  chain after free limit → after ≤ o → (∀ r, r ∈ free → Freed_end r ≤ o) → chain after free o.
Proof.
  revert after. induction free as [|r free IH]; intros after Hc Ha Hr; [done|].
  destruct Hc as (?&?&Hc). split; [done|]. split; [done|].
  apply IH; [done| |]; [apply Hr; set_solver|]. intros r' Hr'. apply Hr. set_solver.
Qed.

Lemma chain_raise after free limit o :
  chain after free limit → o ≤ limit → (∀ r, r ∈ free → o ≤ f_offset r) → chain o free limit.
Proof.
  destruct free as [|r free]; intros Hc Ho Hr; [done|]. destruct Hc as (?&?&?).
  split; [|done]. apply Hr. set_solver.
Qed.

(** Two runs of a list in order that share a byte are one. *)
Lemma chain_unique after free limit r r' x :
  chain after free limit → r ∈ free → r' ∈ free → covers r x → covers r' x → r = r'.
Proof.
  revert after. induction free as [|r0 free IH]; intros after Hc Hr Hr'; [set_solver|].
  destruct Hc as (?&?&Hc). intros [? ?] [? ?].
  apply elem_of_cons in Hr as [->|Hr], Hr' as [->|Hr']; try done.
  - destruct (chain_in _ _ _ _ Hc Hr') as (?&_&_). unfold Freed_end in *. lia.
  - destruct (chain_in _ _ _ _ Hc Hr) as (?&_&_). unfold Freed_end in *. lia.
  - by eapply IH.
Qed.

Lemma freed_at_app l l' x a b : freed_at (l ++ l') x a b ↔ freed_at l x a b ∨ freed_at l' x a b.
Proof. unfold freed_at. set_solver. Qed.

Lemma freed_at_cons r l x a b :
  freed_at (r :: l) x a b ↔ (covers r x ∧ f_since r = a ∧ f_table r = b) ∨ freed_at l x a b.
Proof. unfold freed_at. set_solver. Qed.

Lemma freed_at_nil x a b : ¬ freed_at [] x a b.
Proof. unfold freed_at. set_solver. Qed.

(** * Finding a place *)

Lemma position_Some {A} (p : A → bool) l i :
  position p l = Some i →
  ∃ pre x post, l = pre ++ x :: post ∧ length pre = i ∧ p x = true ∧ Forall (λ y, p y = false) pre.
Proof.
  revert i. induction l as [|y l IH]; intros i; simpl; [done|]. destruct (p y) eqn:E.
  - intros [= <-]. by exists [], y, l.
  - destruct (position p l) as [j|]; [|done]. intros [= <-].
    destruct (IH j eq_refl) as (pre&x&post&->&<-&?&?).
    exists (y :: pre), x, post. by repeat constructor.
Qed.

Lemma position_None {A} (p : A → bool) l : position p l = None → Forall (λ y, p y = false) l.
Proof.
  induction l as [|y l IH]; simpl; [constructor|]. destruct (p y) eqn:E; [done|].
  destruct (position p l); [done|]. intros _. constructor; auto.
Qed.

Lemma delete_middle {A} (pre post : list A) x : delete (length pre) (pre ++ x :: post) = pre ++ post.
Proof. induction pre as [|y pre IH]; [done|]. simpl. by f_equal. Qed.

Lemma insert_middle {A} (pre post : list A) x y :
  <[length pre := y]> (pre ++ x :: post) = pre ++ y :: post.
Proof. by rewrite insert_app_r_alt, Nat.sub_diag by lia. Qed.

(** Takes [n] bytes off the front of a run, which goes when none are left. *)
Definition cut_run (r : Freed) (n : Z) : list Freed :=
  if f_length r - n =? 0 then [] else [shorter r n].

Lemma cut_run_chain m r n post limit :
  0 ≤ n ≤ f_length r → chain m (r :: post) limit → chain m (cut_run r n ++ post) limit.
Proof.
  intros Hn (?&?&Hc). unfold cut_run. destruct (Z.eqb_spec (f_length r - n) 0); simpl.
  - eapply chain_weaken; [| |done]; unfold Freed_end; lia.
  - split; [lia|]. split; [lia|]. unfold Freed_end in *. simpl.
    by replace (f_offset r + n + (f_length r - n)) with (f_offset r + f_length r) by lia.
Qed.

Lemma cut_run_at r n x a b :
  0 ≤ n ≤ f_length r →
  freed_at (cut_run r n) x a b ↔
    (covers r x ∧ f_since r = a ∧ f_table r = b) ∧ ¬ (f_offset r ≤ x < f_offset r + n).
Proof.
  intros Hn. unfold cut_run, covers, Freed_end. destruct (Z.eqb_spec (f_length r - n) 0).
  - split; [by intros ?%freed_at_nil|]. intros ((?&?&?)&?). lia.
  - rewrite freed_at_cons. unfold covers, Freed_end. simpl. split.
    + intros [(?&?&?)|?%freed_at_nil]; [|done]. lia.
    + intros ((?&?&?)&?). left. lia.
Qed.

(** What handing out [o, o + n) of the list does, [o] being the start of a run. *)
Record handed_out (usable : Freed → bool) (free free' : list Freed) (o n : Z) : Prop := {
  handed_run : ∃ r, r ∈ free ∧ usable r = true ∧ f_offset r = o ∧ n ≤ f_length r;
  handed_chain : ∀ a limit, chain a free limit → chain a free' limit;
  handed_bytes : ∀ a limit, chain a free limit →
    ∀ x since table, freed_at free' x since table ↔
      freed_at free x since table ∧ ¬ (o ≤ x < o + n) }.

Lemma cut_handed_out (u : Freed → bool) pre r post n :
  u r = true → 0 ≤ n ≤ f_length r →
  handed_out u (pre ++ r :: post) (pre ++ cut_run r n ++ post) (f_offset r) n.
Proof.
  intros Hu Hn. split.
  - exists r. set_solver.
  - intros a limit. rewrite !chain_app. intros (m&?&?). exists m. split; [done|].
    by apply cut_run_chain.
  - intros a limit Hc x since table. rewrite !freed_at_app, freed_at_cons, cut_run_at by done.
    apply chain_app in Hc as (m&Hpre&?&?&Hpost).
    assert (∀ l since table, freed_at l x since table → (l = pre ∨ l = post) →
      ¬ (f_offset r ≤ x < f_offset r + n)) as Hout.
    { intros l ? ? (r'&Hin&[? ?]&_) [->|Epost].
      - destruct (chain_in _ _ _ _ Hpre Hin) as (_&_&?). lia.
      - rewrite Epost in Hin. destruct (chain_in _ _ _ _ Hpost Hin) as (?&_&_).
        unfold Freed_end in *. lia. }
    naive_solver.
Qed.

(** The lowest run of a list in order that takes [n] bytes. *)
Definition lowest (usable : Freed → bool) (free : list Freed) (fits_ : Freed → bool) (o : Z) : Prop :=
  ∀ r, r ∈ free → usable r = true → fits_ r = true → o ≤ f_offset r.

Lemma position_lowest (u f : Freed → bool) a limit pre r post :
  chain a (pre ++ r :: post) limit →
  Forall (λ r, f r && u r = false) pre → lowest u (pre ++ r :: post) f (f_offset r).
Proof.
  intros (m&Hpre&?&?&Hpost)%chain_app Hno r' Hin Hu Hf.
  apply elem_of_app in Hin as [Hin|[->|Hin]%elem_of_cons]; [|done|].
  - rewrite Forall_forall in Hno. specialize (Hno _ Hin). by rewrite Hf, Hu in Hno.
  - destruct (chain_in _ _ _ _ Hpost Hin) as (?&_&_). unfold Freed_end in *. lia.
Qed.

(** The outcome of [take] for a length that is not zero: the lowest run that fits and that
    nothing reads, or the end of the file when there is none. *)
Lemma take_spec s n :
  0 < n → (∃ a limit, chain a (s_free s) limit) →
  (∃ o s', Space_take s n = Ok (o, false, s')
     ∧ handed_out (Space_usable s) (s_free s) (s_free s') o n
     ∧ lowest (Space_usable s) (s_free s) (λ r, f_length r >=? n) o
     ∧ s' = mkSpace (s_end s) (s_start s) (s_free s') (s_generation s) (s_holds s)
              (s_taken s ++ [(o, n)]))
  ∨ (Forall (λ r, (f_length r >=? n) && Space_usable s r = false) (s_free s)
     ∧ Space_take s n = ('(offset, s) ← Space_append s n; Ok (offset, true, s))).
Proof.
  intros Hn (a&limit&Hc). unfold Space_take. rewrite (proj2 (Z.gtb_lt n 0)) by lia.
  destruct (position _ (s_free s)) as [i|] eqn:E.
  2:{ right. split; [by apply position_None|done]. }
  left. apply position_Some in E as (pre&r&post&Ef&<-&Hr&Hno). rewrite Ef in *.
  rewrite list_lookup_middle by done. apply andb_true_iff in Hr as [Hlen Hu].
  apply Z.geb_le in Hlen. eexists _, _. split; [done|]. cbn [s_free].
  rewrite delete_middle, insert_middle.
  replace (if f_length (shorter r n) =? 0 then _ else _) with (pre ++ cut_run r n ++ post).
  2:{ unfold cut_run, shorter. simpl. by destruct (_ =? 0). }
  split; [apply cut_handed_out; [done|lia]|]. split; [|done]. by eapply position_lowest.
Qed.

Lemma catalog_spec s n :
  0 ≤ n → (∃ a limit, chain a (s_free s) limit) →
  (∃ o s', Space_catalog s n = Ok (o, true, s')
     ∧ handed_out (Space_usable s) (s_free s) (s_free s') o n
     ∧ lowest (Space_usable s) (s_free s) (λ r, f_length r >? n) o
     ∧ length (s_free s') = length (s_free s)
     ∧ s' = mkSpace (s_end s) (s_start s) (s_free s') (s_generation s) (s_holds s)
              (s_taken s ++ [(o, n)]))
  ∨ (Forall (λ r, (f_length r >? n) && Space_usable s r = false) (s_free s)
     ∧ Space_catalog s n = ('(offset, s) ← Space_append s n; Ok (offset, false, s))).
Proof.
  intros Hn (a&limit&Hc). unfold Space_catalog.
  destruct (position _ (s_free s)) as [i|] eqn:E.
  2:{ right. split; [by apply position_None|done]. }
  left. apply position_Some in E as (pre&r&post&Ef&<-&Hr&Hno). rewrite Ef in *.
  rewrite list_lookup_middle by done. apply andb_true_iff in Hr as [Hlen Hu].
  apply Z.gtb_lt in Hlen. eexists _, _. split; [done|]. cbn [s_free].
  rewrite insert_middle.
  replace (pre ++ shorter r n :: post) with (pre ++ cut_run r n ++ post).
  2:{ unfold cut_run. destruct (Z.eqb_spec (f_length r - n) 0); [lia|done]. }
  split; [apply cut_handed_out; [done|lia]|]. split; [by eapply position_lowest|].
  split; [|done]. unfold cut_run. destruct (Z.eqb_spec (f_length r - n) 0); [lia|].
  rewrite !length_app. done.
Qed.

(** * Giving back *)

Lemma joins_true l r :
  joins l r = true ↔ Freed_end l = f_offset r ∧ f_table l = f_table r ∧ f_since l = f_since r.
Proof. unfold joins. rewrite !andb_true_iff, !Z.eqb_eq. naive_solver. Qed.

(** Joining two runs changes no byte of the list. *)
Record same_bytes (free free' : list Freed) : Prop := {
  same_chain : ∀ a limit, chain a free limit → chain a free' limit;
  same_at : (∃ a limit, chain a free limit) →
    ∀ x since table, freed_at free' x since table ↔ freed_at free x since table }.

#[global] Instance same_bytes_preorder : PreOrder same_bytes.
Proof.
  split.
  - intros free. by split.
  - intros f1 f2 f3 [Hc1 Ha1] [Hc2 Ha2]. split; [by eauto|].
    intros Hc x a b. rewrite Ha2; [by apply Ha1|]. naive_solver.
Qed.

Lemma join_at_same pre l post : same_bytes (pre ++ l :: post) (join_at (length pre) (pre ++ l :: post)).
Proof.
  unfold join_at. rewrite list_lookup_middle by done.
  destruct ((pre ++ l :: post) !! S (length pre)) as [r|] eqn:E; [|reflexivity].
  rewrite lookup_app_r in E by lia. replace (S (length pre) - length pre)%nat with 1%nat in E by lia.
  destruct post as [|r' post]; simpl in E; [done|]. simplify_eq.
  destruct (joins l r) eqn:Ej; [|reflexivity]. apply joins_true in Ej as (Eend&Et&Es).
  replace (delete (S (length pre)) (pre ++ l :: r :: post)) with (pre ++ l :: post).
  2:{ symmetry. rewrite (app_assoc pre [l] (r :: post) : pre ++ l :: r :: post = _).
      replace (S (length pre)) with (length (pre ++ [l])) by (rewrite length_app; simpl; lia).
      rewrite delete_middle. by rewrite <-app_assoc. }
  rewrite insert_middle. split.
  - intros a limit. rewrite !chain_app. intros (m&?&?&?&?&?&Hc). exists m. split; [done|].
    unfold Freed_end in *. simpl. split; [done|]. split; [lia|].
    unfold longer, Freed_end. simpl.
    by replace (f_offset l + (f_length l + f_length r)) with (f_offset r + f_length r) by lia.
  - intros (a&limit&Hc) x since table. rewrite !freed_at_app, !freed_at_cons.
    apply chain_app in Hc as (m&_&?&?&?&?&_). unfold covers, Freed_end in *. simpl.
    rewrite Et, Es.
    assert (f_offset l ≤ x < f_offset l + (f_length l + f_length r) ↔
      f_offset l ≤ x < f_offset l + f_length l ∨ f_offset r ≤ x < f_offset r + f_length r) as Hx by lia.
    rewrite Hx. naive_solver.
Qed.

Lemma partition_point_split {A} (p : A → bool) l :
  let i := partition_point p l in
  Forall (λ x, p x = true) (take i l) ∧ (∀ x, head (drop i l) = Some x → p x = false)
  ∧ (i ≤ length l)%nat.
Proof.
  simpl. induction l as [|x l (IH1&IH2&IH3)]; simpl; [by repeat constructor|].
  destruct (p x) eqn:E; simpl.
  - split; [by constructor|]. split; [done|lia].
  - split; [constructor|]. split; [|lia]. congruence.
Qed.

Lemma chain_head_le a r post limit r' : chain a (r :: post) limit → r' ∈ r :: post → f_offset r ≤ f_offset r'.
Proof.
  intros (?&?&Hc) [->|Hin]%elem_of_cons; [done|].
  destruct (chain_in _ _ _ _ Hc Hin) as (?&_&_). unfold Freed_end in *. lia.
Qed.

(** What the two guards of [give] leave: a run inside the committed file, clear of every free
    run and of everything this commit wrote. *)
Record clear_run (s : Space) (o n : Z) : Prop := {
  clear_in : HEADER ≤ o ∧ o + n ≤ s_start s;
  clear_free : ∀ r, r ∈ s_free s → Freed_end r ≤ o ∨ o + n ≤ f_offset r;
  clear_taken : ∀ t, t ∈ s_taken s → t.1 + t.2 ≤ o ∨ o + n ≤ t.1 }.

Lemma existsb_none {A} (p : A → bool) l : existsb p l = false ↔ ∀ x, x ∈ l → p x = false.
Proof.
  induction l as [|y l IH]; simpl; [set_solver|]. rewrite orb_false_iff, IH. set_solver.
Qed.

Lemma clashes_clear s o n :
  0 < n → s_start s < u64_max → clashes s o n = false ↔ clear_run s o n.
Proof.
  intros Hn Hs. unfold clashes, saturating_add. rewrite !orb_false_iff, !existsb_none.
  rewrite Z.ltb_ge, Z.gtb_ltb, Z.ltb_ge. split.
  - intros (((?&?)&Hf)&Ht). assert (o + n ≤ s_start s) by lia.
    rewrite Z.min_l in Hf, Ht by lia. split; [done|..].
    + intros r Hr. specialize (Hf r Hr). apply andb_false_iff in Hf. rewrite !Z.ltb_ge in Hf. lia.
    + intros t Hr. specialize (Ht t Hr). apply andb_false_iff in Ht. rewrite !Z.ltb_ge in Ht. lia.
  - intros [[? ?] Hf Ht]. rewrite Z.min_l by lia. repeat split; try lia.
    + intros r Hr. apply andb_false_iff. rewrite !Z.ltb_ge. specialize (Hf r Hr). lia.
    + intros t Hr. apply andb_false_iff. rewrite !Z.ltb_ge. specialize (Ht t Hr). lia.
Qed.

Lemma give_insert s o n table a limit :
  let at_ := partition_point (λ run, f_offset run <? o) (s_free s) in
  0 < n → a ≤ o → o + n ≤ limit → clear_run s o n → chain a (s_free s) limit →
  chain a (take at_ (s_free s) ++ mkFreed o n (s_generation s) table :: drop at_ (s_free s)) limit.
Proof.
  intros at_ Hn Ha Hl [_ Hf _] Hc. destruct (partition_point_split (λ run, f_offset run <? o) (s_free s))
    as (Hlow&Hhigh&_). fold at_ in Hlow, Hhigh.
  rewrite <-(take_drop at_ (s_free s)) in Hc. apply chain_app in Hc as (m&Hpre&Hpost).
  apply chain_app. exists o. split; [|split; [done|split; [done|]]].
  - eapply chain_bound; [done..|]. intros r Hr. rewrite Forall_forall in Hlow.
    pose proof (Hlow r Hr) as Hlt. simpl in Hlt. apply Z.ltb_lt in Hlt.
    destruct (Hf r) as [|]; [|done|lia]. rewrite <-(take_drop at_ (s_free s)). set_solver.
  - unfold Freed_end. simpl. eapply chain_raise; [done..|]. intros r Hr.
    destruct (drop at_ (s_free s)) as [|r0 post] eqn:Ed; [set_solver|].
    assert (o ≤ f_offset r0) by (apply Z.ltb_ge; by apply Hhigh).
    pose proof (chain_head_le _ _ _ _ _ Hpost Hr) as Hle.
    destruct (Hf r) as [He|]; [| |done].
    { rewrite <-(take_drop at_ (s_free s)), Ed. set_solver. }
    destruct (chain_in _ _ _ _ Hpost Hr) as (_&?&_). unfold Freed_end in He. lia.
Qed.

Lemma join_at_prefix pre l post :
  ∃ l' post', join_at (length pre) (pre ++ l :: post) = pre ++ l' :: post'.
Proof.
  unfold join_at. rewrite list_lookup_middle by done.
  destruct ((pre ++ l :: post) !! S (length pre)) as [r|] eqn:E; [|eauto].
  destruct (joins l r); [|eauto].
  rewrite lookup_app_r in E by lia. replace (S (length pre) - length pre)%nat with 1%nat in E by lia.
  destruct post as [|r' post]; simpl in E; [done|].
  exists (longer l (f_length r)), post.
  replace (delete (S (length pre)) (pre ++ l :: r' :: post)) with (pre ++ l :: post).
  2:{ clear. induction pre as [|y pre IH]; [done|]. simpl. by f_equal. }
  apply insert_middle.
Qed.

Lemma give_joins pre new post :
  same_bytes (pre ++ new :: post)
    (match length pre with
     | O => join_at (length pre) (pre ++ new :: post)
     | S before => join_at before (join_at (length pre) (pre ++ new :: post))
     end).
Proof.
  destruct pre as [|q pre _] using rev_ind; [apply (join_at_same [])|].
  destruct (join_at_prefix (pre ++ [q]) new post) as (l'&post'&E).
  etrans; [apply join_at_same|]. rewrite E, length_app, Nat.add_comm. cbn [length Nat.add].
  rewrite <-app_assoc. apply join_at_same.
Qed.

(** What [give] of a clear run does: the run is on the list, tagged with the generation being
    written, and every other byte is as it was. *)
Lemma give_spec s o n table a :
  0 < n → s_start s < u64_max → a ≤ HEADER → clear_run s o n → chain a (s_free s) (s_start s) →
  let s' := Space_give o n table s in
  s' = with_free s (s_free s') ∧ chain a (s_free s') (s_start s)
  ∧ ∀ x since t, freed_at (s_free s') x since t ↔
      freed_at (s_free s) x since t ∨ (o ≤ x < o + n ∧ since = s_generation s ∧ t = table).
Proof.
  intros Hn Hs Ha Hclear Hc. unfold Space_give. destruct (Z.eqb_spec n 0); [lia|].
  rewrite (proj2 (clashes_clear s o n Hn Hs) Hclear). cbn [with_free s_free].
  pose proof (clear_in _ _ _ Hclear) as [Hin1 Hin2].
  pose proof (give_insert s o n table a (s_start s) Hn ltac:(lia) Hin2 Hclear Hc) as Hins.
  cbv zeta in Hins.
  set (i := partition_point (λ run, f_offset run <? o) (s_free s)) in *.
  assert (Ei : length (take i (s_free s)) = i).
  { rewrite length_take. pose proof (partition_point_split (λ run, f_offset run <? o) (s_free s)) as (_&_&?).
    fold i in H. lia. }
  pose proof (give_joins (take i (s_free s)) (mkFreed o n (s_generation s) table) (drop i (s_free s)))
    as [Hsc Hsa]. rewrite Ei in Hsc, Hsa. cbn [app].
  split; [done|]. split.
  - destruct i; apply Hsc, Hins.
  - intros x since t. assert (∃ a limit, chain a (take i (s_free s) ++
      mkFreed o n (s_generation s) table :: drop i (s_free s)) limit) as Hex by eauto.
    transitivity (freed_at (take i (s_free s) ++
      mkFreed o n (s_generation s) table :: drop i (s_free s)) x since t).
    { destruct i; apply Hsa, Hex. }
    rewrite freed_at_app, freed_at_cons. rewrite <-(take_drop i (s_free s)) at 3.
    rewrite freed_at_app. unfold covers, Freed_end. simpl. naive_solver.
Qed.

Lemma give_clash s o n table :
  n = 0 ∨ clashes s o n = true → Space_give o n table s = s.
Proof.
  unfold Space_give. intros [->|Hc]; [done|]. destruct (n =? 0); [done|]. by rewrite Hc.
Qed.

(** * The start of a commit *)

Definition free_byte (free : list Freed) (x : Z) : Prop := ∃ r, r ∈ free ∧ covers r x.

(** The byte is in a run that nothing can read. *)
Definition usable_byte (u : Freed → bool) (free : list Freed) (x : Z) : Prop :=
  ∃ r, r ∈ free ∧ covers r x ∧ u r = true.

Lemma free_byte_app l l' x : free_byte (l ++ l') x ↔ free_byte l x ∨ free_byte l' x.
Proof. unfold free_byte. set_solver. Qed.

Lemma free_byte_cons r l x : free_byte (r :: l) x ↔ covers r x ∨ free_byte l x.
Proof. unfold free_byte. set_solver. Qed.

Lemma usable_byte_app u l l' x : usable_byte u (l ++ l') x ↔ usable_byte u l x ∨ usable_byte u l' x.
Proof. unfold usable_byte. set_solver. Qed.

Lemma usable_byte_cons u r l x :
  usable_byte u (r :: l) x ↔ (covers r x ∧ u r = true) ∨ usable_byte u l x.
Proof. unfold usable_byte. set_solver. Qed.

(** A run that two were joined into is usable only when both were. *)
Lemma usable_joined g h l r o n :
  usable g h (mkFreed o n (Z.max (f_since l) (f_since r))
                (if f_table l =? f_table r then f_table l else 0)) = true →
  usable g h l = true ∧ usable g h r = true.
Proof.
  unfold usable, saturating_add. simpl. rewrite !andb_true_iff, !Z.leb_le, !forallb_forall.
  intros [Hg Hh]. split; (split; [lia|]); intros p Hp; specialize (Hh p Hp);
    rewrite orb_true_iff, !andb_true_iff, !negb_true_iff, !Z.eqb_neq, Z.leb_le in *;
    destruct (Z.eqb_spec (f_table l) (f_table r)); try lia.
Qed.

Lemma removelast_snoc {A} (l : list A) x : removelast (l ++ [x]) = l.
Proof. by rewrite removelast_app, app_nil_r. Qed.

Lemma merge_runs_spec s merged free a limit :
  chain a (merged ++ free) limit →
  chain a (merge_runs s merged free) limit
  ∧ (∀ x, free_byte (merge_runs s merged free) x ↔ free_byte (merged ++ free) x)
  ∧ (∀ x, usable_byte (Space_usable s) (merge_runs s merged free) x →
          usable_byte (Space_usable s) (merged ++ free) x).
Proof.
  revert merged. induction free as [|r free IH]; intros merged Hc.
  { rewrite app_nil_r in *. done. }
  assert (Hskip : chain a (merge_runs s (merged ++ [r]) free) limit
    ∧ (∀ x, free_byte (merge_runs s (merged ++ [r]) free) x ↔ free_byte (merged ++ r :: free) x)
    ∧ (∀ x, usable_byte (Space_usable s) (merge_runs s (merged ++ [r]) free) x →
          usable_byte (Space_usable s) (merged ++ r :: free) x)).
  { specialize (IH (merged ++ [r])). rewrite <-app_assoc in IH. by apply IH. }
  cbn [merge_runs]. destruct (last merged) as [l|] eqn:El; [|exact Hskip].
  destruct (_ && Space_usable s l && Space_usable s r) eqn:Ej; [|exact Hskip]. clear Hskip.
  apply last_Some in El as [m ->]. rewrite removelast_snoc. rewrite !andb_true_iff, Z.eqb_eq in Ej.
  destruct Ej as ((Eend&Hul)&Hur). rewrite <-app_assoc in Hc.
  set (j := mkFreed _ _ _ _). destruct (IH (m ++ [j])) as (H1&H2&H3).
  { rewrite <-app_assoc. simpl in *. apply chain_app in Hc as (k&Hm&?&?&?&?&Hf).
    apply chain_app. exists k. split; [done|]. cbn [chain]. unfold j, Freed_end in *. simpl.
    split; [done|]. split; [lia|].
    by replace (f_offset l + (f_length l + f_length r)) with (f_offset r + f_length r) by lia. }
  apply chain_app in Hc as (k&Hm&?&?&?&?&Hf).
  assert (Hj : ∀ x, covers j x ↔ covers l x ∨ covers r x).
  { intros x. unfold j, covers, Freed_end in *. simpl. lia. }
  split; [done|]. split; intros x.
  - rewrite H2, <-!app_assoc. cbn [app]. rewrite !free_byte_app, !free_byte_cons, Hj. naive_solver.
  - intros Hx%H3. revert Hx. rewrite <-!app_assoc. cbn [app].
    rewrite !usable_byte_app, !usable_byte_cons, Hj. naive_solver.
Qed.

Lemma trim_loop_spec s a end_ rev_free :
  chain a (reverse rev_free) end_ →
  let '(end', rest) := trim_loop s end_ rev_free in
  end' ≤ end_ ∧ chain a (reverse rest) end'
  ∧ (∀ x, end' ≤ x < end_ → usable_byte (Space_usable s) (reverse rev_free) x)
  ∧ (∀ r, r ∈ rest → r ∈ rev_free).
Proof.
  revert end_. induction rev_free as [|r rest IH]; intros end_ Hc; simpl.
  { repeat split; [done|done|lia|done]. }
  destruct (_ && _) eqn:E.
  2:{ repeat split; [done|done|lia|done]. }
  apply andb_true_iff in E as [Eend%Z.eqb_eq Hu]. rewrite reverse_cons in Hc.
  apply chain_app in Hc as (m&Hm&?&?&?).
  specialize (IH (f_offset r)). destruct (trim_loop s (f_offset r) rest) as [end' rest'].
  destruct IH as (?&?&Hbytes&Hin); [by eapply chain_weaken; [..|done]|].
  split; [unfold Freed_end in *; lia|]. split; [done|]. split; [|set_solver].
  intros x Hx. rewrite reverse_cons. destruct (decide (x < f_offset r)).
  - destruct (Hbytes x) as (r'&?&?&?); [lia|]. exists r'. set_solver.
  - exists r. split; [set_solver|]. split; [|done]. unfold covers. lia.
Qed.

Lemma reverse_in (l : list Freed) r : r ∈ reverse l → r ∈ l.
Proof. by rewrite elem_of_reverse. Qed.

(** A commit starts with the runs that are still read, or not at the end of the file. *)
Lemma new_spec hs end_ free gen :
  chain HEADER free end_ →
  let s := Space_new hs end_ free gen in
  s = mkSpace (s_start s) (s_start s) (s_free s) gen hs []
  ∧ s_start s ≤ end_ ∧ chain HEADER (s_free s) (s_start s)
  ∧ (∀ x, s_start s ≤ x < end_ → usable_byte (usable gen hs) free x)
  ∧ (∀ x, usable_byte (usable gen hs) (s_free s) x → usable_byte (usable gen hs) free x).
Proof.
  intros Hc. set (s0 := mkSpace end_ end_ free gen hs []).
  destruct (merge_runs_spec s0 [] free HEADER end_ Hc) as (Hc1&_&Hu1). cbn [app] in Hu1.
  unfold Space_new. fold s0. unfold Space_trim.
  pose proof (trim_loop_spec (Space_merge s0) HEADER end_ (reverse (merge_runs s0 [] free))) as Ht.
  rewrite reverse_involutive in Ht. specialize (Ht Hc1).
  change (s_free (Space_merge s0)) with (merge_runs s0 [] free).
  change (s_end (Space_merge s0)) with end_.
  destruct (trim_loop (Space_merge s0) end_ (reverse (merge_runs s0 [] free))) as [e' rest].
  destruct Ht as (?&?&Hb&Hin). cbn [s_start s_free].
  split; [done|]. split; [done|]. split; [done|]. split.
  - intros x Hx. by apply Hu1, Hb.
  - intros x (r&Hr&Hx&Hu). apply Hu1. exists r. split; [|done].
    by apply reverse_in, Hin, reverse_in.
Qed.

(** * A commit *)

Inductive CommitOp : Type :=
| OpTake (length : Z)
| OpCatalog (length : Z)
| OpGive (offset length table : Z).

Record Commit : Type := mkCommit {
  c_space : Space;
  (** What [take] and [catalog] answered, and what [give] listed. *)
  c_placed : list (Z * Z);
  c_given : list (Z * Z) }.

Definition commit_step (c : Commit) (op : CommitOp) : Result Commit :=
  match op with
  | OpTake n =>
      '(o, _, s) ← Space_take (c_space c) n; Ok (mkCommit s (c_placed c ++ [(o, n)]) (c_given c))
  | OpCatalog n =>
      '(o, _, s) ← Space_catalog (c_space c) n; Ok (mkCommit s (c_placed c ++ [(o, n)]) (c_given c))
  | OpGive o n table =>
      let listed := negb (n =? 0) && negb (clashes (c_space c) o n) in
      Ok (mkCommit (Space_give o n table (c_space c)) (c_placed c)
            (if listed then c_given c ++ [(o, n)] else c_given c))
  end.

Fixpoint commit_run (c : Commit) (ops : list CommitOp) : Result Commit :=
  match ops with
  | [] => Ok c
  | op :: ops => c ← commit_step c op; commit_run c ops
  end.

Definition op_ok (op : CommitOp) : Prop :=
  match op with
  | OpTake n | OpCatalog n => u64 n
  | OpGive o n t => u64 o ∧ u64 n ∧ u64 t
  end.

Definition inside (a : Z * Z) (x : Z) : Prop := a.1 ≤ x < a.1 + a.2.
Definition apart (a b : Z * Z) : Prop := ∀ x, ¬ (inside a x ∧ inside b x).

(** What a commit keeps, [free0] being the list it started with and [start] where the file
    ended for it. *)
Record commit_inv (start : Z) (free0 : list Freed) (gen : Z) (hs : list (Z * Z)) (c : Commit) : Prop := {
  ci_gen : s_generation (c_space c) = gen;
  ci_holds : s_holds (c_space c) = hs;
  ci_start : s_start (c_space c) = start;
  ci_end : start ≤ s_end (c_space c) ≤ u64_max;
  ci_chain : chain HEADER (s_free (c_space c)) start;
  ci_usable : ∀ x, usable_byte (usable gen hs) (s_free (c_space c)) x →
    usable_byte (usable gen hs) free0 x;
  ci_taken : ∀ t x, t ∈ s_taken (c_space c) → inside t x →
    x < start ∧ usable_byte (usable gen hs) free0 x ∧ ¬ free_byte (s_free (c_space c)) x;
  ci_placed : ∀ p x, p ∈ c_placed c → inside p x →
    p ∈ s_taken (c_space c) ∨ start ≤ x < s_end (c_space c);
  ci_apart : ∀ i j p q, c_placed c !! i = Some p → c_placed c !! j = Some q → (i < j)%nat → apart p q;
  ci_given : ∀ g x, g ∈ c_given c → inside g x →
    x < start ∧ ∃ t, freed_at (s_free (c_space c)) x gen t }.

Lemma free_byte_at free x : free_byte free x ↔ ∃ a b, freed_at free x a b.
Proof. unfold free_byte, freed_at. naive_solver. Qed.

Lemma usable_byte_at g h free x :
  usable_byte (usable g h) free x ↔
    ∃ a b, freed_at free x a b ∧ usable g h (mkFreed 0 0 a b) = true.
Proof.
  unfold usable_byte, freed_at. split.
  - intros (r&?&?&Hu). exists (f_since r), (f_table r). split; [by exists r|done].
  - intros (a&b&(r&?&?&<-&<-)&Hu). by exists r.
Qed.

(** A run of the generation being written is never usable. *)
Lemma usable_not_new g h r : u64 g → g < u64_max → usable g h r = true → f_since r ≠ g.
Proof.
  intros Hg Hlt. unfold usable, saturating_add. rewrite andb_true_iff, Z.leb_le.
  intros [Hle _] Heq. lia.
Qed.

Section steps.
Context (start : Z) (free0 : list Freed) (gen : Z) (hs : list (Z * Z)).
Context (Hgen : u64 gen) (Hmax : gen < u64_max) (Hstart : start < u64_max).

Lemma placed_apart c o n :
  commit_inv start free0 gen hs c →
  (∀ p x, p ∈ c_placed c → inside p x → ¬ inside (o, n) x) →
  ∀ i j p q, (c_placed c ++ [(o, n)]) !! i = Some p → (c_placed c ++ [(o, n)]) !! j = Some q →
    (i < j)%nat → apart p q.
Proof.
  intros Hinv Hnew i j p q Hi Hj Hij.
  apply lookup_lt_Some in Hj as Hlt. rewrite length_app in Hlt. simpl in Hlt.
  rewrite lookup_app_l in Hi by lia.
  destruct (decide (j < length (c_placed c))%nat) as [Hjl|Hjl].
  - rewrite lookup_app_l in Hj by done. by eapply (ci_apart _ _ _ _ _ Hinv).
  - replace j with (length (c_placed c)) in Hj by lia.
    rewrite list_lookup_middle in Hj by done. simplify_eq.
    intros x [Hp Hq]. apply (Hnew p x); [|done..]. by eapply list_elem_of_lookup_2.
Qed.

(** A place out of the list. *)
Lemma step_handed c s' o n :
  commit_inv start free0 gen hs c →
  handed_out (Space_usable (c_space c)) (s_free (c_space c)) (s_free s') o n →
  s' = mkSpace (s_end (c_space c)) (s_start (c_space c)) (s_free s') (s_generation (c_space c))
         (s_holds (c_space c)) (s_taken (c_space c) ++ [(o, n)]) →
  commit_inv start free0 gen hs (mkCommit s' (c_placed c ++ [(o, n)]) (c_given c)).
Proof.
  intros Hinv [Hrun Hch Hby] Es. pose proof Hinv as Hinv'.
  destruct Hinv as [E1 E2 E3 Hend Hc Hus Ht Hp Ha Hg]. specialize (Hby _ _ Hc).
  destruct Hrun as (r&Hr&Hu&<-&Hn). unfold Space_usable in Hu. rewrite E1, E2 in Hu.
  assert (Hin : ∀ x, inside (f_offset r, n) x → covers r x).
  { intros x. unfold inside, covers, Freed_end. simpl. lia. }
  rewrite Es. split; cbn [c_space c_placed c_given s_generation s_holds s_start s_end s_free s_taken]; auto.
  - intros x. rewrite usable_byte_at. intros (a&b&[Hf _]%Hby&Hub). apply Hus, usable_byte_at. eauto.
  - intros t x [Hin'| ->%list_elem_of_singleton]%elem_of_app Hx.
    + destruct (Ht t x Hin' Hx) as (?&?&Hnf). split; [done|]. split; [done|].
      rewrite free_byte_at. intros (a&b&[Hf _]%Hby). apply Hnf, free_byte_at. eauto.
    + destruct (chain_in _ _ _ _ Hc Hr) as (_&_&?). pose proof (Hin x Hx) as [? ?].
      split; [lia|]. split; [apply Hus; exists r; by repeat split|].
      rewrite free_byte_at. intros (a&b&[_ Hf]%Hby). by apply Hf.
  - intros p x [Hin'| ->%list_elem_of_singleton]%elem_of_app Hx; [|left; set_solver].
    destruct (Hp p x Hin' Hx) as [?|?]; [left; set_solver|by right].
  - apply (placed_apart c); [done|]. intros p x Hin' Hx Hq. destruct (Hp p x Hin' Hx) as [Htk|Hge].
    + destruct (Ht p x Htk Hx) as (_&_&Hnf). apply Hnf. exists r. auto.
    + destruct (chain_in _ _ _ _ Hc Hr) as (_&_&?). pose proof (Hin x Hq) as [? ?]. lia.
  - intros g x Hin' Hx. destruct (Hg g x Hin' Hx) as (?&t&Hf). split; [done|]. exists t.
    apply Hby. split; [done|]. intros Hx'. destruct Hf as (r'&Hr'&Hx''&Hs&_).
    assert (r' = r) as -> by (eapply chain_unique; [done..|by apply Hin]).
    by apply (usable_not_new gen hs r).
Qed.

(** A place on the end of the file. *)
Lemma step_append c s' o n :
  commit_inv start free0 gen hs c → 0 ≤ n → Space_append (c_space c) n = Ok (o, s') →
  commit_inv start free0 gen hs (mkCommit s' (c_placed c ++ [(o, n)]) (c_given c)).
Proof.
  intros Hinv Hn. unfold Space_append.
  destruct (Z.gtb_spec (s_end (c_space c) + n) u64_max) as [|Hle]; [done|]. intros [= <- <-].
  pose proof Hinv as Hinv'. destruct Hinv as [E1 E2 E3 Hend Hc Hus Ht Hp Ha Hg].
  split; cbn [c_space c_placed c_given s_generation s_holds s_start s_end s_free s_taken]; auto.
  - lia.
  - intros p x [Hin'| ->%list_elem_of_singleton]%elem_of_app Hx.
    + destruct (Hp p x Hin' Hx) as [?|?]; [by left|right; lia].
    + right. unfold inside in Hx. simpl in Hx. lia.
  - apply (placed_apart c); [done|]. intros p x Hin' Hx Hq. unfold inside in Hq. simpl in Hq.
    destruct (Hp p x Hin' Hx) as [Htk|?]; [|lia]. destruct (Ht p x Htk Hx) as (?&_). lia.
Qed.

Lemma step_give c o n table :
  commit_inv start free0 gen hs c → u64 o → u64 n →
  commit_inv start free0 gen hs
    (mkCommit (Space_give o n table (c_space c)) (c_placed c)
       (if negb (n =? 0) && negb (clashes (c_space c) o n) then c_given c ++ [(o, n)] else c_given c)).
Proof.
  intros Hinv Ho Hn. destruct (negb (n =? 0) && _) eqn:El.
  2:{ rewrite give_clash; [by destruct c|]. apply andb_false_iff in El.
      rewrite !negb_false_iff, Z.eqb_eq in El. done. }
  rewrite andb_true_iff, !negb_true_iff, Z.eqb_neq in El. destruct El as [Hn0 Hcl].
  destruct Hinv as [E1 E2 E3 Hend Hc Hus Ht Hp Ha Hg]. unfold fits in Hn.
  apply clashes_clear in Hcl; [|lia|lia].
  destruct (give_spec (c_space c) o n table HEADER) as (Es&Hc'&Hby); [lia|lia|lia|done|by rewrite E3|].
  rewrite Es. rewrite E3 in Hc'. rewrite E1 in Hby.
  split; cbn [with_free c_space c_placed c_given s_generation s_holds s_start s_end s_free s_taken]; auto.
  - intros x. rewrite usable_byte_at. intros (a&b&[Hf|(_&->&_)]%Hby&Hub).
    + apply Hus, usable_byte_at. eauto.
    + by apply usable_not_new in Hub.
  - intros t x Hin Hx. destruct (Ht t x Hin Hx) as (?&?&Hnf). split; [done|]. split; [done|].
    rewrite free_byte_at. intros (a&b&[Hf|(Hxo&_)]%Hby).
    + apply Hnf, free_byte_at. eauto.
    + destruct (clear_taken _ _ _ Hcl t Hin); unfold inside in Hx; lia.
  - intros g x [Hin| ->%list_elem_of_singleton]%elem_of_app Hx.
    + destruct (Hg g x Hin Hx) as (?&t&Hf). split; [done|]. exists t. apply Hby. by left.
    + destruct (clear_in _ _ _ Hcl) as [_ ?]. unfold inside in Hx. simpl in Hx.
      split; [lia|]. exists table. apply Hby. by right.
Qed.
End steps.

Lemma commit_step_inv start free0 gen hs c op c' :
  u64 gen → gen < u64_max → start < u64_max → op_ok op →
  commit_inv start free0 gen hs c → commit_step c op = Ok c' → commit_inv start free0 gen hs c'.
Proof.
  intros Hg Hm Hs Hop Hinv.
  assert (Hch : ∃ a limit, chain a (s_free (c_space c)) limit) by (eexists _, _; apply (ci_chain _ _ _ _ _ Hinv)).
  destruct op as [n|n|o n t]; cbn [commit_step]; simpl in Hop.
  - destruct (decide (0 < n)) as [Hn|Hn].
    + destruct (take_spec (c_space c) n Hn Hch) as [(o&s'&->&Hh&_&Es)|[_ ->]].
      * intros [= <-]. by apply step_handed.
      * destruct (Space_append (c_space c) n) as [[o s']|] eqn:Ea; [|done]. intros [= <-].
        apply step_append; [done|lia|done].
    + assert (n = 0) as -> by (unfold fits in Hop; lia). unfold Space_take. simpl.
      destruct (Space_append (c_space c) 0) as [[o s']|] eqn:Ea; [|done]. intros [= <-].
      by apply step_append.
  - unfold fits in Hop. destruct (catalog_spec (c_space c) n ltac:(lia) Hch) as [(o&s'&->&Hh&_&_&Es)|[_ ->]].
    + intros [= <-]. by apply step_handed.
    + destruct (Space_append (c_space c) n) as [[o s']|] eqn:Ea; [|done]. intros [= <-].
      apply step_append; [done|lia|done].
  - intros [= <-]. destruct Hop as (?&?&?). by apply step_give.
Qed.

Lemma commit_run_inv start free0 gen hs c ops c' :
  u64 gen → gen < u64_max → start < u64_max → Forall op_ok ops →
  commit_inv start free0 gen hs c → commit_run c ops = Ok c' → commit_inv start free0 gen hs c'.
Proof.
  intros Hg Hm Hs Hops. revert c. induction Hops as [|op ops Hop _ IH]; intros c Hinv; simpl.
  - by intros [= <-].
  - destruct (commit_step c op) as [c1|] eqn:E; [|done]. apply IH. by eapply commit_step_inv.
Qed.

Lemma commit_start_inv hs size free gen :
  chain HEADER free size → size < u64_max →
  let s := Space_new hs size free gen in
  commit_inv (s_start s) free gen hs (mkCommit s [] []).
Proof.
  intros Hc Hsize. destruct (new_spec hs size free gen Hc) as (Es&?&?&?&?).
  set (s := Space_new hs size free gen) in *. simpl.
  assert (s_end s = s_start s) as Ee by (by rewrite Es). assert (s_taken s = []) as Et by (by rewrite Es).
  split; simpl; try set_solver; try (by rewrite Es).
  - lia.
  - rewrite Et. set_solver.
Qed.

(** * The promise of a commit *)

(** C18. Whatever a commit takes and gives back, in any order, every byte it is handed to write
    is past the end of the file or in a run that the list it started from says was freed two
    generations ago and that no hold alive when it started can read; no two places it is handed
    share a byte, and none shares one with a run it gives back. *)
Theorem commit_places_safe hs size free gen ops c
    (Hfree : chain HEADER free size) (Hsize : size < u64_max) (Hgen : 0 ≤ gen < u64_max)
    (Hops : Forall op_ok ops)
    (Hrun : commit_run (mkCommit (Space_new hs size free gen) [] []) ops = Ok c) :
  (∀ p x, p ∈ c_placed c → inside p x →
     size ≤ x ∨ ∃ r, r ∈ free ∧ covers r x ∧ f_since r + 2 ≤ gen
       ∧ ∀ h, h ∈ hs → f_since r ≤ h.1 ∨ (h.2 ≠ 0 ∧ f_table r ≠ 0 ∧ h.2 ≠ f_table r))
  ∧ (∀ i j p q, c_placed c !! i = Some p → c_placed c !! j = Some q → (i < j)%nat → apart p q)
  ∧ (∀ p g, p ∈ c_placed c → g ∈ c_given c → apart p g)
  ∧ chain HEADER (s_free (c_space c)) (s_end (c_space c)).
Proof.
  pose proof (new_spec hs size free gen Hfree) as (_&Hle&_&Htail&_).
  assert (Hinv : commit_inv (s_start (Space_new hs size free gen)) free gen hs c).
  { eapply commit_run_inv; [..|by apply commit_start_inv|done]; [|lia|lia|done].
    unfold fits, u64_max in *. lia. }
  destruct Hinv as [E1 E2 E3 Hend Hc Hus Ht Hp Ha Hg].
  assert (Husable : ∀ x, usable_byte (usable gen hs) free x → ∃ r, r ∈ free ∧ covers r x
    ∧ f_since r + 2 ≤ gen ∧ ∀ h, h ∈ hs → f_since r ≤ h.1 ∨ (h.2 ≠ 0 ∧ f_table r ≠ 0 ∧ h.2 ≠ f_table r)).
  { intros x (r&Hr&Hx&Hu). exists r. split; [done|]. split; [done|].
    unfold usable, saturating_add in Hu. rewrite andb_true_iff, Z.leb_le, forallb_forall in Hu.
    destruct Hu as [Hs Hh]. split; [lia|]. intros h Hin%list_elem_of_In. specialize (Hh h Hin).
    rewrite orb_true_iff, !andb_true_iff, !negb_true_iff, !Z.eqb_neq, Z.leb_le in Hh. naive_solver. }
  split; [|split; [done|split]].
  - intros p x Hin Hx. destruct (decide (size ≤ x)) as [|Hlt]; [by left|right].
    apply Husable. destruct (Hp p x Hin Hx) as [Htk|Hx']; [by apply (Ht p x)|].
    apply Htail. lia.
  - intros p g Hin Hgin x [Hx Hx']. destruct (Hg g x Hgin Hx') as (Hlt&t&Hf).
    destruct (Hp p x Hin Hx) as [Htk|?]; [|lia].
    destruct (Ht p x Htk Hx) as (_&_&Hnf). apply Hnf, free_byte_at. eauto.
  - eapply chain_weaken; [done| |done]. lia.
Qed.

Definition example_free : list Freed := [mkFreed 100 50 3 0; mkFreed 200 20 3 7; mkFreed 300 80 4 9].
Definition example_ops : list CommitOp :=
  [OpTake 60; OpGive 400 30 7; OpTake 10; OpGive 430 10 7; OpTake 30; OpCatalog 45].

Lemma commit_places_safe_witness :
  ∃ c, commit_run (mkCommit (Space_new [(3, 7)] 1000 example_free 6) [] []) example_ops = Ok c
    ∧ c_placed c = [(300, 60); (100, 10); (110, 30); (1000, 45)] ∧ c_given c = [(400, 30); (430, 10)]
    ∧ ∀ p g, p ∈ c_placed c → g ∈ c_given c → apart p g.
Proof.
  eexists. split; [vm_compute; reflexivity|]. split; [reflexivity|]. split; [reflexivity|].
  refine (proj1 (proj2 (proj2 (commit_places_safe [(3, 7)] 1000 example_free 6 example_ops _ _ _ _ _ _)))).
  - decided.
  - reflexivity.
  - split; [discriminate|reflexivity].
  - repeat (constructor; [vm_compute; done|]). constructor.
  - vm_compute. reflexivity.
Defined.
