(* ===== verification/FreeList.v ===== *)
(** The lists of runs written down and read back, and the catalog that holds one:
    [rudb-native/src/free.rs], whose definitions are in [Free]. *)

From S2P Require Import Prelude Free.
Local Open Scope Z_scope.

(** * The list a commit writes *)

Definition runs_apart (r r' : Freed) : Prop :=
  Freed_end r ≤ f_offset r' ∨ Freed_end r' ≤ f_offset r.

(** A list in order, without its order. *)
Record run_set (a limit : Z) (l : list Freed) : Prop := {
  rs_nodup : NoDup l;
  rs_in : ∀ r, r ∈ l → a ≤ f_offset r ∧ 0 < f_length r ∧ Freed_end r ≤ limit;
  rs_apart : ∀ r r', r ∈ l → r' ∈ l → r ≠ r' → runs_apart r r' }.

Lemma chain_run_set a l limit : chain a l limit → run_set a limit l.
Proof.
  intros Hc. split.
  - revert a Hc. induction l as [|r l IH]; intros a Hc; [constructor|]. destruct Hc as (?&?&Hc).
    constructor; [|by eapply IH]. intros Hin. destruct (chain_in _ _ _ _ Hc Hin) as (?&_&_).
    unfold Freed_end in *. lia.
  - intros r. by apply chain_in.
  - revert a Hc. induction l as [|r0 l IH]; intros a Hc r r' Hr Hr' Hne; [set_solver|].
    destruct Hc as (?&?&Hc).
    apply elem_of_cons in Hr as [->|Hr], Hr' as [->|Hr']; [done|..|by eapply IH].
    + destruct (chain_in _ _ _ _ Hc Hr') as (?&_&_). by left.
    + destruct (chain_in _ _ _ _ Hc Hr) as (?&_&_). by right.
Qed.

Lemma run_set_chain a l limit :
  a ≤ limit → run_set a limit l → StronglySorted (λ x y, f_offset x ≤ f_offset y) l → chain a l limit.
Proof.
  intros Ha [Hnd Hin Hap] Hs. revert a Ha Hnd Hin Hap.
  induction Hs as [|r l Hs IH Hr]; intros a Ha Hnd Hin Hap; [done|].
  apply NoDup_cons in Hnd as [Hnr Hnd]. rewrite Forall_forall in Hr.
  destruct (Hin r) as (?&?&?); [set_solver|]. split; [done|]. split; [done|]. apply IH; [done|done| |].
  - intros r' Hr'. destruct (Hin r') as (?&?&?); [set_solver|]. split; [|done].
    specialize (Hr r' Hr'). destruct (Hap r r') as [|]; [set_solver..|set_solver|done|].
    unfold Freed_end in *. lia.
  - intros r1 r2 ? ? ?. apply Hap; set_solver.
Qed.

Lemma run_set_sub a limit l l' :
  run_set a limit l → NoDup l' → (∀ r, r ∈ l' → r ∈ l) → run_set a limit l'.
Proof. intros [_ Hin Hap] Hnd Hsub. split; [done|by auto|by auto]. Qed.

Section list.
Context `{UnstableSort}.

(** The list written down is the free list, or the longest [MAX_FREE] runs of it: in order,
    without an overlap, and never a byte that is not free. *)
Lemma Space_list_chain s limit :
  chain HEADER (s_free s) limit →
  chain HEADER (Space_list s) limit ∧ zlen (Space_list s) ≤ MAX_FREE
  ∧ zlen (Space_list s) = Z.min MAX_FREE (zlen (s_free s))
  ∧ ∀ r, r ∈ Space_list s → r ∈ s_free s.
Proof.
  intros Hc. unfold Space_list. destruct (Z.gtb_spec (zlen (s_free s)) MAX_FREE) as [Hgt|Hle].
  2:{ split; [done|]. split; [lia|]. split; [lia|done]. }
  set (longest := sort_by_key (λ run, - f_length run) (s_free s)).
  set (kept := take (Z.to_nat MAX_FREE) longest).
  assert (Hp : longest ≡ₚ s_free s) by apply sort_by_key_perm.
  assert (Hp2 : sort_by_key f_offset kept ≡ₚ kept) by apply sort_by_key_perm.
  assert (Hsub : ∀ r, r ∈ kept → r ∈ s_free s).
  { intros r Hr. rewrite <-Hp. unfold kept in Hr.
    apply elem_of_take in Hr as (i&Hi&_). by eapply list_elem_of_lookup_2. }
  assert (Hlen : zlen (sort_by_key f_offset kept) = MAX_FREE).
  { assert (0 ≤ MAX_FREE) by done. unfold zlen in *. rewrite Hp2. unfold kept. rewrite length_take, Hp. lia. }
  assert (Hsub2 : ∀ r, r ∈ sort_by_key f_offset kept → r ∈ s_free s).
  { intros r. rewrite Hp2. apply Hsub. }
  split; [|split; [lia|split; [lia|done]]].
  apply run_set_chain; [by eapply chain_le| |apply sort_by_key_sorted].
  apply chain_run_set in Hc as Hrs. eapply run_set_sub; [done| |done].
  rewrite Hp2. unfold kept. apply (NoDup_app _ (drop (Z.to_nat MAX_FREE) longest)).
  rewrite take_drop, Hp. by eapply rs_nodup.
Qed.
End list.

(** * Reading a list back *)

Definition tags_ok (r : Freed) : Prop := u64 (f_since r) ∧ f_since r ≠ 0 ∧ u64 (f_table r).

(** A list [decode] takes from a file of [size] bytes. *)
Definition list_ok (free : list Freed) (size : Z) : Prop :=
  free ≠ [] ∧ zlen free ≤ MAX_FREE ∧ chain HEADER free size ∧ Forall tags_ok free.

Definition run_bytes (run : Freed) : list Z :=
  put_u64 (f_offset run) ++ put_u64 (f_length run) ++ put_u64 (f_since run) ++ put_u64 (f_table run).

Lemma result_bind {A B} (f : A → Result B) x : Ok x ≫= f = f x.
Proof. done. Qed.

Lemma cursor_take_at pre x suf n at_ :
  at_ = zlen pre → n = zlen x → zlen (pre ++ x ++ suf) ≤ u64_max →
  Cursor_take (pre ++ x ++ suf) n at_ = Ok (x, zlen (pre ++ x)).
Proof.
  intros -> -> Hmax. unfold Cursor_take.
  destruct (Z.gtb_spec (zlen pre + zlen x) u64_max) as [|_]; [zlen_lia|].
  destruct (Z.gtb_spec (zlen pre + zlen x) (zlen (pre ++ x ++ suf))) as [|_]; [zlen_lia|].
  rewrite zlen_app. f_equal. f_equal. slice_field. done.
Qed.

Lemma cursor_u64_at pre v suf at_ :
  at_ = zlen pre → u64 v → zlen (pre ++ put_u64 v ++ suf) ≤ u64_max →
  Cursor_u64 (pre ++ put_u64 v ++ suf) at_ = Ok (v, zlen (pre ++ put_u64 v)).
Proof.
  intros Hat Hv Hmax. unfold Cursor_u64, put_u64 in *.
  rewrite cursor_take_at by (done || by rewrite zlen_le_bytes).
  rewrite result_bind. by rewrite le_val_bytes.
Qed.

Lemma cursor_u32_at pre v suf at_ :
  at_ = zlen pre → u32 v → zlen (pre ++ put_u32 v ++ suf) ≤ u64_max →
  Cursor_u32 (pre ++ put_u32 v ++ suf) at_ = Ok (v, zlen (pre ++ put_u32 v)).
Proof.
  intros Hat Hv Hmax. unfold Cursor_u32, put_u32 in *.
  rewrite cursor_take_at by (done || by rewrite zlen_le_bytes).
  rewrite result_bind. by rewrite le_val_bytes.
Qed.

Lemma decode_loop_at pre free suf size after acc :
  chain after free size → 0 ≤ after → size ≤ u64_max → Forall tags_ok free →
  zlen (pre ++ concat (run_bytes <$> free) ++ suf) ≤ u64_max →
  decode_loop (length free) (pre ++ concat (run_bytes <$> free) ++ suf) size after acc (zlen pre) =
    Ok (acc ++ free, zlen (pre ++ concat (run_bytes <$> free))).
Proof.
  revert pre after acc. induction free as [|r free IH]; intros pre after acc Hc Ha Hs Ht Hmax.
  { by rewrite !app_nil_r. }
  apply Forall_cons in Ht as [(Hsi&Hs0&Hta) Ht]. rewrite fmap_cons in *.
  cbn [concat length decode_loop] in *.
  change (run_bytes r) with (put_u64 (f_offset r) ++ put_u64 (f_length r)
    ++ put_u64 (f_since r) ++ put_u64 (f_table r)) in *. destruct Hc as (Ho&Hl&Hc). pose proof (chain_le _ _ _ Hc) as Hle.
  unfold Freed_end in *. rewrite <-!app_assoc in *.
  assert (u64 (f_offset r) ∧ u64 (f_length r)) as [Huo Hul] by (unfold fits, u64_max in *; lia).
  rewrite cursor_u64_at by done. rewrite result_bind, (app_assoc pre).
  rewrite (app_assoc pre) in Hmax. rewrite cursor_u64_at by done.
  set (p1 := pre ++ _) in *. rewrite result_bind, (app_assoc p1). rewrite (app_assoc p1) in Hmax.
  rewrite cursor_u64_at by done.
  set (p2 := p1 ++ _) in *. rewrite result_bind, (app_assoc p2). rewrite (app_assoc p2) in Hmax.
  rewrite cursor_u64_at by done.
  set (p3 := p2 ++ _) in *. rewrite result_bind, (app_assoc p3). rewrite (app_assoc p3) in Hmax.
  set (p4 := p3 ++ _) in *. cbv zeta.
  destruct (Z.gtb_spec (f_offset r + f_length r) u64_max) as [|_]; [lia|].
  rewrite (proj2 (orb_false_iff _ _)).
  2:{ rewrite !orb_false_iff, !Z.eqb_neq, Z.ltb_ge, Z.gtb_ltb, Z.ltb_ge. lia. }
  replace (mkFreed (f_offset r) (f_length r) (f_since r) (f_table r)) with r by (by destruct r).
  rewrite IH by (done || lia).
  unfold p4, p3, p2, p1. by rewrite <-!app_assoc.
Qed.

Section cursor_back.
Context (bytes : list Z) (Hok : bytes_ok bytes).

Lemma cursor_take_inv n at_ x at' pre suf :
  Cursor_take bytes n at_ = Ok (x, at') → 0 ≤ n → bytes = pre ++ suf → at_ = zlen pre →
  ∃ suf', bytes = (pre ++ x) ++ suf' ∧ zlen x = n ∧ at' = zlen (pre ++ x) ∧ bytes_ok x.
Proof.
  unfold Cursor_take. destruct (_ >? u64_max); [done|].
  destruct (Z.gtb_spec (at_ + n) (zlen bytes)) as [|Hle]; [done|]. intros [= <- <-] Hn Eb ->.
  assert (bytes_ok (slice (zlen pre) (zlen pre + n) bytes)) by auto with machine.
  rewrite Eb in *. rewrite slice_skip in * by lia.
  replace (zlen pre - zlen pre) with 0 in * by lia. replace (zlen pre + n - zlen pre) with n in * by lia.
  exists (drop (Z.to_nat n) suf). rewrite <-app_assoc, slice_drop.
  assert (zlen (slice 0 n suf) = n) by (rewrite zlen_slice; zlen_lia).
  split; [done|]. split; [done|]. split; [zlen_lia|done].
Qed.

Lemma cursor_int_inv (k : nat) at_ x at' pre suf :
  Cursor_take bytes (Z.of_nat k) at_ = Ok (x, at') → bytes = pre ++ suf → at_ = zlen pre →
  ∃ suf', bytes = (pre ++ le_bytes k (le_val x)) ++ suf' ∧ fits (8 * Z.of_nat k) (le_val x)
    ∧ at' = zlen (pre ++ le_bytes k (le_val x)).
Proof.
  intros E Eb Hat. destruct (cursor_take_inv _ _ _ _ _ _ E ltac:(lia) Eb Hat) as (suf'&E1&Hx&->&Hxok).
  assert (length x = k) as Hl by (unfold zlen in Hx; lia).
  exists suf'. rewrite le_bytes_val by done. split; [done|]. split; [|done].
  pose proof (le_val_fits x Hxok) as Hf. by rewrite Hl in Hf.
Qed.

Lemma cursor_u64_inv at_ v at' pre suf :
  Cursor_u64 bytes at_ = Ok (v, at') → bytes = pre ++ suf → at_ = zlen pre →
  ∃ suf', bytes = (pre ++ put_u64 v) ++ suf' ∧ u64 v ∧ at' = zlen (pre ++ put_u64 v).
Proof.
  unfold Cursor_u64. destruct (Cursor_take bytes 8 at_) as [[x at1]|] eqn:E; [|done].
  rewrite result_bind. intros [= <- <-]. by apply (cursor_int_inv 8).
Qed.

Lemma cursor_u32_inv at_ v at' pre suf :
  Cursor_u32 bytes at_ = Ok (v, at') → bytes = pre ++ suf → at_ = zlen pre →
  ∃ suf', bytes = (pre ++ put_u32 v) ++ suf' ∧ u32 v ∧ at' = zlen (pre ++ put_u32 v).
Proof.
  unfold Cursor_u32. destruct (Cursor_take bytes 4 at_) as [[x at1]|] eqn:E; [|done].
  rewrite result_bind. intros [= <- <-]. by apply (cursor_int_inv 4).
Qed.

Lemma decode_loop_inv n size after acc at_ free at' pre suf :
  decode_loop n bytes size after acc at_ = Ok (free, at') → 0 ≤ after ≤ size →
  bytes = pre ++ suf → at_ = zlen pre →
  ∃ l suf', free = acc ++ l ∧ length l = n ∧ chain after l size ∧ Forall tags_ok l
    ∧ bytes = (pre ++ concat (run_bytes <$> l)) ++ suf'
    ∧ at' = zlen (pre ++ concat (run_bytes <$> l)).
Proof.
  revert after acc at_ pre suf. induction n as [|n IH]; intros after acc at_ pre suf H Ha Eb Hat.
  { cbn [decode_loop] in H. injection H as <- <-. exists [], suf. rewrite !app_nil_r.
    split; [done|]. split; [done|]. split; [simpl; lia|]. split; [constructor|done]. }
  cbn [decode_loop] in H.
  destruct (Cursor_u64 bytes at_) as [[o a1]|] eqn:E1; [rewrite result_bind in H|done].
  destruct (cursor_u64_inv _ _ _ _ _ E1 Eb Hat) as (s1&B1&U1&A1).
  destruct (Cursor_u64 bytes a1) as [[l a2]|] eqn:E2; [rewrite result_bind in H|done].
  destruct (cursor_u64_inv _ _ _ _ _ E2 B1 A1) as (s2&B2&U2&A2).
  destruct (Cursor_u64 bytes a2) as [[si a3]|] eqn:E3; [rewrite result_bind in H|done].
  destruct (cursor_u64_inv _ _ _ _ _ E3 B2 A2) as (s3&B3&U3&A3).
  destruct (Cursor_u64 bytes a3) as [[t a4]|] eqn:E4; [rewrite result_bind in H|done].
  destruct (cursor_u64_inv _ _ _ _ _ E4 B3 A3) as (s4&B4&U4&A4). cbv zeta in H.
  destruct (_ >? u64_max); [done|]. destruct (_ || _) eqn:Ec; [done|].
  rewrite !orb_false_iff, !Z.eqb_neq, Z.ltb_ge, Z.gtb_ltb, Z.ltb_ge in Ec.
  destruct Ec as (((Hl&Hsi)&Ho)&He). unfold fits in U1, U2.
  destruct (IH _ _ _ _ _ H ltac:(lia) B4 A4) as (rest&suf'&->&Hlen&Hc&Ht&Eb'&->).
  exists (mkFreed o l si t :: rest), suf'. rewrite fmap_cons. cbn [concat length].
  unfold run_bytes at 1 3. cbn [f_offset f_length f_since f_table].
  rewrite <-!app_assoc in *. split; [done|]. split; [lia|].
  split; [split; [done|split; [simpl; lia|done]]|]. split; [by constructor|]. done.
Qed.
End cursor_back.

Lemma encode_free_bytes free :
  free ≠ [] → zlen free ≤ MAX_FREE →
  encode free = Ok (FREE_EXTENTS ++ put_u32 (zlen free) ++ concat (run_bytes <$> free)).
Proof.
  intros Hne Hlen. unfold encode. destruct free as [|r free]; [done|].
  by rewrite (proj2 (Z.ltb_lt _ _)) by (assert (MAX_FREE < 2 ^ 32) by done; lia).
Qed.

(** [decode] of what follows the magic. *)
Lemma decode_encode_free free size suf :
  list_ok free size → size ≤ u64_max → zlen (concat (run_bytes <$> free)) + 4 + zlen suf ≤ u64_max →
  ∃ bs, encode free = Ok (FREE_EXTENTS ++ bs) ∧ decode (bs ++ suf) size 0 = Ok (free, zlen bs).
Proof.
  intros (Hne&Hlen&Hc&Ht) Hs Hmax. exists (put_u32 (zlen free) ++ concat (run_bytes <$> free)).
  assert (0 < zlen free) by (destruct free; [done|zlen_lia]).
  assert (HM : MAX_FREE < 2 ^ 32) by done. split; [by apply encode_free_bytes|].
  - unfold decode. rewrite <-app_assoc. change (put_u32 (zlen free) ++ ?l) with ([] ++ put_u32 (zlen free) ++ l).
    assert (zlen (put_u32 (zlen free)) = 4) by (unfold put_u32; by rewrite zlen_le_bytes).
    rewrite cursor_u32_at; [|done|unfold fits; lia|zlen_lia]. rewrite result_bind.
    rewrite (proj2 (orb_false_iff _ _)) by (rewrite Z.eqb_neq, Z.gtb_ltb, Z.ltb_ge; lia).
    replace (Z.to_nat (zlen free)) with (length free) by (unfold zlen; lia). cbn [app].
    rewrite decode_loop_at; [done|done|done|done|done|]. zlen_lia.
Qed.

Lemma decode_free_inv bytes size free at_ :
  bytes_ok bytes → HEADER ≤ size → decode bytes size 0 = Ok (free, at_) →
  list_ok free size
  ∧ ∃ bs suf, bytes = bs ++ suf ∧ at_ = zlen bs ∧ encode free = Ok (FREE_EXTENTS ++ bs).
Proof.
  intros Hok Hs H. unfold decode in H.
  destruct (Cursor_u32 bytes 0) as [[count a1]|] eqn:E; [rewrite result_bind in H|done].
  destruct (cursor_u32_inv bytes Hok _ _ _ [] bytes E eq_refl eq_refl) as (s1&B1&U1&A1).
  destruct (_ || _) eqn:Ec; [done|]. rewrite orb_false_iff, Z.eqb_neq, Z.gtb_ltb, Z.ltb_ge in Ec.
  unfold fits in U1.
  destruct (decode_loop_inv bytes Hok _ _ _ _ _ _ _ _ _ H ltac:(vm_compute in Hs |- *; done) B1 A1)
    as (l&suf&->&Hl&Hc&Ht&Eb&->).
  assert (zlen l = count) as El by (unfold zlen; lia). cbn [app] in *.
  assert (l ≠ []) as Hne by (intros ->; simpl in *; unfold zlen in El; simpl in El; lia).
  split; [split; [done|]; split; [lia|]; done|].
  exists (put_u32 count ++ concat (run_bytes <$> l)), suf. split; [done|]. split; [done|].
  rewrite <-El. apply encode_free_bytes; [done|lia].
Qed.

(** * The tags of the runs *)

Definition tagged (free : list Freed) : Prop :=
  ∀ x a b, freed_at free x a b → u64 a ∧ a ≠ 0 ∧ u64 b.

Lemma tagged_runs a free limit : chain a free limit → tagged free ↔ Forall tags_ok free.
Proof.
  intros Hc. rewrite Forall_forall. split.
  - intros Ht r Hr. apply (Ht (f_offset r)). exists r.
    destruct (chain_in _ _ _ _ Hc Hr) as (_&?&_). unfold covers, Freed_end. split; [done|]. lia.
  - intros Ht x s t (r&Hr&_&<-&<-). by apply Ht.
Qed.

Lemma merge_runs_tags s merged free :
  Forall tags_ok merged → Forall tags_ok free → Forall tags_ok (merge_runs s merged free).
Proof.
  intros Hm Hf. revert merged Hm. induction Hf as [|r free Hr Hf IH]; intros merged Hm; [done|].
  cbn [merge_runs].
  assert (Hskip : Forall tags_ok (merge_runs s (merged ++ [r]) free)).
  { apply IH, Forall_app. split; [done|]. by constructor. }
  destruct (last merged) as [l|] eqn:El; [|done]. destruct (_ && _ && _); [|done].
  apply last_Some in El as [m ->]. rewrite removelast_snoc. apply IH.
  apply Forall_app in Hm as [Hm [Hl _]%Forall_cons]. apply Forall_app. split; [done|].
  constructor; [|done]. destruct Hl as (?&?&?), Hr as (?&?&?).
  unfold tags_ok, fits in *. simpl. destruct (_ =? _); lia.
Qed.

Lemma trim_loop_in s end_ rev_free r : r ∈ (trim_loop s end_ rev_free).2 → r ∈ rev_free.
Proof.
  revert end_. induction rev_free as [|r' rest IH]; intros end_; simpl; [done|].
  destruct (_ && _); [|done]. intros Hin%IH. set_solver.
Qed.

Lemma new_tags hs size free gen :
  chain HEADER free size → Forall tags_ok free → tagged (s_free (Space_new hs size free gen)).
Proof.
  intros Hc Ht. destruct (new_spec hs size free gen Hc) as (_&_&Hc'&_).
  apply (tagged_runs _ _ _ Hc'). unfold Space_new, Space_trim in *.
  set (s := Space_merge _) in *.
  pose proof (trim_loop_in s (s_end s) (reverse (s_free s))) as Hin.
  destruct (trim_loop s (s_end s) (reverse (s_free s))) as [e rest]. simpl in *.
  assert (Hm : Forall tags_ok (s_free s)) by (by apply merge_runs_tags).
  rewrite Forall_forall in *. intros r Hr%reverse_in. by apply Hm, reverse_in, Hin.
Qed.

Lemma commit_step_tags start free0 gen hs c op c' :
  u64 gen → gen ≠ 0 → start < u64_max → op_ok op → commit_inv start free0 gen hs c →
  tagged (s_free (c_space c)) → commit_step c op = Ok c' → tagged (s_free (c_space c')).
Proof.
  intros Hg Hg0 Hs Hop [E1 E2 E3 Hend Hc _ _ _ _ _] Ht.
  assert (Hch : ∃ a limit, chain a (s_free (c_space c)) limit) by eauto.
  assert (Happ : ∀ n o s', Space_append (c_space c) n = Ok (o, s') → tagged (s_free s')).
  { intros n o s'. unfold Space_append. destruct (_ >? _); [done|]. by intros [= _ <-]. }
  assert (Hand : ∀ s' o n, handed_out (Space_usable (c_space c)) (s_free (c_space c)) (s_free s') o n →
    tagged (s_free s')).
  { intros s' o n [_ _ Hb] x a b Hf. eapply Ht, (Hb _ _ Hc); done. }
  destruct op as [n|n|o n t]; cbn [commit_step]; simpl in Hop.
  - destruct (decide (0 < n)) as [Hn|Hn].
    + destruct (take_spec (c_space c) n Hn Hch) as [(o&s'&->&Hh&_&Es)|[_ ->]].
      * intros [= <-]. by eapply Hand.
      * destruct (Space_append (c_space c) n) as [[o s']|] eqn:Ea; [|done]. intros [= <-]. by eapply Happ.
    + unfold Space_take. rewrite Z.gtb_ltb, (proj2 (Z.ltb_ge 0 n)) by lia.
      destruct (Space_append (c_space c) n) as [[o s']|] eqn:Ea; [|done]. intros [= <-]. by eapply Happ.
  - unfold fits in Hop. destruct (catalog_spec (c_space c) n ltac:(lia) Hch) as [(o&s'&->&Hh&_&_&Es)|[_ ->]].
    + intros [= <-]. by eapply Hand.
    + destruct (Space_append (c_space c) n) as [[o s']|] eqn:Ea; [|done]. intros [= <-]. by eapply Happ.
  - intros [= <-]. destruct Hop as (Ho&Hn&Htab). cbn [c_space].
    destruct (decide (n = 0 ∨ clashes (c_space c) o n = true)) as [Hno|Hyes]; [by rewrite give_clash|].
    unfold fits in Hn. assert (clear_run (c_space c) o n) as Hcl.
    { apply clashes_clear; [naive_solver lia|lia|]. destruct (clashes _ _ _); naive_solver. }
    destruct (give_spec (c_space c) o n t HEADER) as (_&_&Hby); [naive_solver lia|lia|lia|done|by rewrite E3|].
    intros x a b [Hf|(_&->&->)]%Hby; [by eapply Ht|]. by rewrite E1.
Qed.

Lemma commit_run_tags start free0 gen hs c ops c' :
  u64 gen → gen ≠ 0 → gen < u64_max → start < u64_max → Forall op_ok ops →
  commit_inv start free0 gen hs c → tagged (s_free (c_space c)) →
  commit_run c ops = Ok c' → tagged (s_free (c_space c')).
Proof.
  intros Hg Hg0 Hm Hs Hops. revert c. induction Hops as [|op ops Hop _ IH]; intros c Hinv Ht; simpl.
  - by intros [= <-].
  - destruct (commit_step c op) as [c1|] eqn:E; [|done].
    apply IH; [by eapply commit_step_inv|by eapply commit_step_tags].
Qed.

(** * What is promised of the lists *)

(** An instance of the sort, for the examples. *)
Definition by_key {A} (key : A → Z) (x y : A) : Prop := key x ≤ key y.

#[global] Instance by_key_dec {A} (key : A → Z) : RelDecision (by_key key).
Proof. intros x y. unfold by_key. apply _. Defined.

#[global] Instance by_key_trans {A} (key : A → Z) : Transitive (by_key key).
Proof. intros x y z. unfold by_key. lia. Qed.

#[global] Instance by_key_total {A} (key : A → Z) : Total (by_key key).
Proof. intros x y. unfold by_key. lia. Qed.

Definition stable_sort {A} (key : A → Z) (l : list A) : list A := merge_sort (by_key key) l.

#[global] Instance example_sort : UnstableSort.
Proof.
  refine {| sort_by_key := @stable_sort |}.
  - intros A key l. apply merge_sort_Permutation.
  - intros A key l. exact (StronglySorted_merge_sort (by_key key) l).
Defined.

(** [decode] answers a list exactly when the bytes are what [encode] writes of it after
    the magic, the runs being in order, apart, not empty, inside the file and past its header,
    at most [MAX_FREE] of them: a torn or damaged list is refused, never taken. *)
Theorem free_list_iff bytes size free at_ (Hok : bytes_ok bytes) (Hsize : HEADER ≤ size ≤ u64_max)
    (Hlen : zlen bytes ≤ u64_max) :
  decode bytes size 0 = Ok (free, at_) ↔
    list_ok free size
    ∧ ∃ bs suf, bytes = bs ++ suf ∧ at_ = zlen bs ∧ encode free = Ok (FREE_EXTENTS ++ bs).
Proof.
  split; [apply decode_free_inv; [done|lia]|].
  intros (Hl&bs&suf&->&->&Ee). destruct (decode_encode_free free size suf Hl) as (bs'&Ee'&Hd); [lia| |].
  - destruct Hl as (Hne&Hcount&_). rewrite (encode_free_bytes free Hne Hcount) in Ee.
    injection Ee as <-. unfold put_u32 in Hlen. zlen_lia.
  - rewrite Ee in Ee'. by injection Ee' as <-.
Qed.

Definition example_bytes : list Z :=
  put_u32 2 ++ run_bytes (mkFreed 100 50 3 0) ++ run_bytes (mkFreed 150 20 4 7).

Lemma free_list_iff_witness :
  list_ok [mkFreed 100 50 3 0; mkFreed 150 20 4 7] 1000.
Proof.
  refine (proj1 (proj1 (free_list_iff example_bytes 1000 _ 68 _ _ _) _)).
  - decided.
  - split; discriminate.
  - vm_compute. discriminate.
  - vm_compute. reflexivity.
Defined.

Lemma zlen_runs free : zlen (concat (run_bytes <$> free)) = 32 * zlen free.
Proof.
  induction free as [|r free IH]; [done|]. rewrite fmap_cons. cbn [concat].
  rewrite zlen_app, IH, zlen_cons. unfold run_bytes, put_u64. rewrite !zlen_app, !zlen_le_bytes. lia.
Qed.

(** The list a commit writes down, whatever it took and gave back, reads back from the
    file it leaves as the same list: the next commit starts from exactly what this one ended
    with. *)
Theorem commit_list_reads_back `{UnstableSort} hs size free gen ops c
    (Hfree : chain HEADER free size) (Htags : Forall tags_ok free) (Hsize : size < u64_max)
    (Hgen : 0 < gen < u64_max) (Hops : Forall op_ok ops)
    (Hrun : commit_run (mkCommit (Space_new hs size free gen) [] []) ops = Ok c) :
  let l := Space_list (c_space c) in
  l = [] ∨ ∃ bs, encode l = Ok (FREE_EXTENTS ++ bs)
                 ∧ decode bs (s_end (c_space c)) 0 = Ok (l, zlen bs).
Proof.
  pose proof (new_spec hs size free gen Hfree) as (_&Hle&_).
  assert (Hg : u64 gen) by (unfold fits, u64_max in *; lia).
  pose proof (commit_start_inv hs size free gen Hfree Hsize) as Hinv0. cbv zeta in Hinv0.
  assert (Hst : s_start (Space_new hs size free gen) < u64_max) by lia.
  assert (Hg0 : gen ≠ 0) by lia. assert (Hgm : gen < u64_max) by lia.
  pose proof (commit_run_inv _ _ _ _ _ _ _ Hg Hgm Hst Hops Hinv0 Hrun) as Hinv.
  pose proof (commit_run_tags _ _ _ _ _ _ _ Hg Hg0 Hgm Hst Hops Hinv0
    (new_tags _ _ _ _ Hfree Htags) Hrun) as Ht.
  destruct (ci_end _ _ _ _ _ Hinv) as [He1 He2].
  pose proof (chain_weaken _ _ _ _ _ (Z.le_refl _) He1 (ci_chain _ _ _ _ _ Hinv)) as Hc.
  apply (tagged_runs _ _ _ Hc) in Ht.
  destruct (Space_list_chain (c_space c) _ Hc) as (Hlc&Hll&_&Hsub). intros l.
  destruct (decide (l = [])) as [|Hne]; [by left|right].
  destruct (decode_encode_free l (s_end (c_space c)) []) as (bs&Ee&Hd).
  - split; [done|]. split; [done|]. split; [done|]. rewrite Forall_forall in *. auto.
  - done.
  - rewrite zlen_runs. assert (32 * MAX_FREE + 4 + 0 ≤ u64_max) by done.
    unfold l. rewrite zlen_nil. lia.
  - exists bs. by rewrite app_nil_r in Hd.
Qed.

Lemma commit_list_reads_back_witness :
  ∃ c, commit_run (mkCommit (Space_new [(3, 7)] 1000 example_free 6) [] []) example_ops = Ok c
    ∧ let l := Space_list (c_space c) in
      l = [] ∨ ∃ bs, encode l = Ok (FREE_EXTENTS ++ bs)
                     ∧ decode bs (s_end (c_space c)) 0 = Ok (l, zlen bs).
Proof.
  eexists. split; [vm_compute; reflexivity|].
  refine (commit_list_reads_back [(3, 7)] 1000 example_free 6 example_ops _ _ _ _ _ _ _).
  - decided.
  - repeat (constructor; [vm_compute; done|]). constructor.
  - reflexivity.
  - split; reflexivity.
  - repeat (constructor; [vm_compute; done|]). constructor.
  - vm_compute. reflexivity.
Defined.

(** A catalog whose length depends only on how many runs it lists always finds its place:
    [placed_catalog] never answers that the catalog changed its length, and the bytes it
    answers list the runs left once the place of those bytes is taken. *)
Theorem placed_catalog_lists_what_is_left `{UnstableSort} encode_catalog s limit catalog
    (Hfree : chain HEADER (s_free s) limit)
    (Hfirst : encode_catalog (Space_list s) = Ok catalog)
    (Hcount : ∀ l, zlen l = zlen (Space_list s) →
       ∃ again, encode_catalog l = Ok again ∧ zlen again = zlen catalog)
    (Hbound : zlen catalog ≤ MAX_DIRECTORY) (Hend : s_end s + zlen catalog ≤ u64_max) :
  ∃ offset written s', placed_catalog encode_catalog s = Ok (offset, written, s')
    ∧ encode_catalog (Space_list s') = Ok written ∧ zlen written = zlen catalog
    ∧ chain HEADER (s_free s') limit.
Proof.
  unfold placed_catalog. rewrite Hfirst, result_bind.
  destruct (Z.gtb_spec (zlen catalog) MAX_DIRECTORY) as [|_]; [lia|].
  destruct (catalog_spec s (zlen catalog)) as [(o&s'&->&Hh&_&Hl&Es)|[_ ->]];
    [apply zlen_nonneg|eauto|..].
  - rewrite result_bind. cbn [negb]. pose proof (handed_chain _ _ _ _ _ Hh _ _ Hfree) as Hc'.
    destruct (Hcount (Space_list s')) as (again&Ea&El).
    { destruct (Space_list_chain s limit Hfree) as (_&_&->&_).
      destruct (Space_list_chain s' limit Hc') as (_&_&->&_). unfold zlen. by rewrite Hl. }
    rewrite Ea, result_bind, El, Z.eqb_refl. cbn [negb]. exists o, again, s'. done.
  - unfold Space_append. destruct (Z.gtb_spec (s_end s + zlen catalog) u64_max) as [|_]; [lia|].
    rewrite !result_bind. cbn [negb]. eexists _, _, _. split; [done|]. done.
Qed.

Definition example_space : Space := Space_new [] 1000 example_free 6.

Lemma placed_catalog_lists_what_is_left_witness :
  ∃ offset written s', placed_catalog (λ l, encode l) example_space = Ok (offset, written, s')
    ∧ encode (Space_list s') = Ok written ∧ zlen written = 108 ∧ chain HEADER (s_free s') 1000.
Proof.
  apply (placed_catalog_lists_what_is_left (λ l, encode l) example_space 1000
    (match encode example_free with Ok b => b | Err _ => [] end)).
  - decided.
  - vm_compute. reflexivity.
  - change (zlen (Space_list example_space)) with 3. intros l Hl.
    assert (Hne : l ≠ []) by (intros ->; discriminate).
    rewrite encode_free_bytes; [|exact Hne|rewrite Hl; discriminate].
    eexists. split; [reflexivity|]. rewrite !zlen_app, zlen_runs, Hl. reflexivity.
  - vm_compute. discriminate.
  - vm_compute. discriminate.
Defined.

(** C34. [merge] joins two runs this commit may both write into, and says the run they make
    stays one nothing can read. It can be one the commit may not write into: here a reader
    that opened table 9 at generation 4 can read neither run, the first being freed before it
    opened and the second having been table 7's, and the run they are joined into has the
    later generation and no table, so the write goes on the end of the file. *)
Theorem merge_hides_usable_run :
  let holds := [(4, 9)] in
  let free := [mkFreed 100 50 3 0; mkFreed 150 50 5 7] in
  let s := mkSpace 1000 1000 free 7 holds [] in
  Forall (λ r, usable 7 holds r = true) free
  ∧ s_free (Space_merge s) = [mkFreed 100 100 5 0]
  ∧ usable 7 holds (mkFreed 100 100 5 0) = false
  ∧ (∃ s', Space_take s 10 = Ok (100, false, s'))
  ∧ ∃ s', Space_take (Space_merge s) 10 = Ok (1000, true, s').
Proof.
  split; [repeat constructor|]. split; [reflexivity|]. split; [reflexivity|].
  split; eexists; reflexivity.
Qed.

(** * The runs of a table *)

#[global] Instance run_le_trans : Transitive run_le.
Proof. intros x y z. unfold run_le. lia. Qed.
#[global] Instance run_le_total : Total run_le.
Proof. intros x y. unfold run_le. lia. Qed.

Definition in_runs (runs : list (Z * Z)) (x : Z) : Prop := ∃ r, r ∈ runs ∧ inside r x.

Lemma in_runs_app l l' x : in_runs (l ++ l') x ↔ in_runs l x ∨ in_runs l' x.
Proof. unfold in_runs. set_solver. Qed.
Lemma in_runs_cons r l x : in_runs (r :: l) x ↔ inside r x ∨ in_runs l x.
Proof. unfold in_runs. set_solver. Qed.
Lemma in_runs_nil x : ¬ in_runs [] x.
Proof. unfold in_runs. set_solver. Qed.

(** In order with a gap between any two. *)
Definition gapped (runs : list (Z * Z)) : Prop := StronglySorted (λ a b, a.1 + a.2 < b.1) runs.

Lemma coalesce_loop_spec runs joined :
  StronglySorted (λ a b, a.1 + a.2 ≤ b.1) runs → Forall (λ r, 0 < r.2) runs →
  gapped joined → Forall (λ r, 0 < r.2) joined →
  (∀ a b, a ∈ joined → b ∈ runs → a.1 + a.2 ≤ b.1) →
  let out := coalesce_loop joined runs in
  gapped out ∧ Forall (λ r, 0 < r.2) out ∧ ∀ x, in_runs out x ↔ in_runs (joined ++ runs) x.
Proof.
  intros Hs. revert joined. induction Hs as [|[o n] runs Hs IH Hr]; intros joined Hn Hg Hj Hle.
  { simpl. by rewrite app_nil_r. }
  apply Forall_cons in Hn as [Hn0 Hn]. simpl in Hn0. rewrite Forall_forall in Hr. cbn [coalesce_loop].
  assert (Hpush : (∀ a, a ∈ joined → a.1 + a.2 < o) →
    let out := coalesce_loop (joined ++ [(o, n)]) runs in
    gapped out ∧ Forall (λ r, 0 < r.2) out ∧ ∀ x, in_runs out x ↔ in_runs (joined ++ (o, n) :: runs) x).
  { intros Hlt. specialize (IH (joined ++ [(o, n)])). rewrite <-app_assoc in IH. apply IH; [done|..].
    - apply StronglySorted_app. split; [done|]. split; [by repeat constructor|].
      intros a b Ha ->%list_elem_of_singleton. by apply Hlt.
    - apply Forall_app. split; [done|]. by constructor.
    - intros a b [Ha| ->%list_elem_of_singleton]%elem_of_app Hb; [|by apply Hr].
      apply Hle; [done|set_solver]. }
  destruct (last joined) as [[at_ len]|] eqn:El.
  2:{ apply last_None in El as ->. apply Hpush. set_solver. }
  apply last_Some in El as [m ->]. apply StronglySorted_app in Hg as (Hgm&_&Hgl).
  apply Forall_app in Hj as [Hjm [Hjl _]%Forall_cons]. simpl in Hjl.
  pose proof (Hle (at_, len) (o, n) ltac:(set_solver) ltac:(set_solver)) as Hao. simpl in Hao.
  assert (Hm : ∀ a, a ∈ m → a.1 + a.2 < at_) by (intros a Ha; apply (Hgl a (at_, len)); set_solver).
  destruct (Z.eqb_spec (at_ + len) o) as [<-|Hne].
  - rewrite removelast_snoc. specialize (IH (m ++ [(at_, len + n)])). cbv zeta in IH.
    destruct IH as (H1&H2&H3); [done|..].
    + apply StronglySorted_app. split; [done|]. split; [by repeat constructor|].
      intros a b Ha ->%list_elem_of_singleton. by apply Hm.
    + apply Forall_app. split; [done|]. constructor; [simpl; lia|done].
    + intros a b [Ha| ->%list_elem_of_singleton]%elem_of_app Hb.
      * apply Hle; set_solver.
      * specialize (Hr b Hb). simpl in *. lia.
    + split; [done|]. split; [done|]. intros x. rewrite H3, <-!app_assoc. cbn [app].
      rewrite !in_runs_app, !in_runs_cons. unfold inside. simpl.
      assert (at_ ≤ x < at_ + (len + n) ↔ at_ ≤ x < at_ + len ∨ at_ + len ≤ x < at_ + len + n) as -> by lia.
      tauto.
  - apply Hpush. intros a [Ha| ->%list_elem_of_singleton]%elem_of_app; [|simpl; lia].
    specialize (Hm a Ha). simpl in *. lia.
Qed.

(** [coalesce] of runs that share no byte leaves the same bytes in the fewest runs: in
    order, none empty, and no two of them touching. *)
Theorem coalesce_joins runs (Hlen : Forall (λ r, 0 ≤ r.2) runs)
    (Hnodup : NoDup (filter (λ r : Z * Z, r.2 > 0) runs))
    (Hapart : ∀ p q, p ∈ runs → q ∈ runs → p ≠ q → apart p q) :
  gapped (coalesce runs) ∧ Forall (λ r, 0 < r.2) (coalesce runs)
  ∧ ∀ x, in_runs (coalesce runs) x ↔ in_runs runs x.
Proof.
  unfold coalesce. set (nonempty := filter _ runs) in *. set (sorted := merge_sort run_le nonempty).
  assert (Hp : sorted ≡ₚ nonempty) by apply merge_sort_Permutation.
  assert (Hin : ∀ r, r ∈ sorted → r ∈ runs ∧ 0 < r.2).
  { intros r. rewrite Hp. unfold nonempty. rewrite list_elem_of_filter. intros [? ?]. split; [done|lia]. }
  assert (Hnd : NoDup sorted) by (by rewrite Hp).
  assert (Hs : StronglySorted run_le sorted) by (apply StronglySorted_merge_sort; apply _).
  destruct (coalesce_loop_spec sorted []) as (H1&H2&H3).
  - clear Hp. induction Hs as [|r l Hs IH Hr]; [constructor|].
    apply NoDup_cons in Hnd as [Hnr Hnd]. constructor; [apply IH; [set_solver|done]|].
    rewrite Forall_forall in *. intros r' Hr'. destruct (Hin r) as [Hr1 Hr2]; [set_solver|].
    destruct (Hin r') as [Hr3 Hr4]; [set_solver|]. specialize (Hr r' Hr').
    assert (r ≠ r') as Hne by (by intros ->). pose proof (Hapart r r' Hr1 Hr3 Hne (r'.1)) as Hx.
    unfold inside, run_le in *. lia.
  - apply Forall_forall. intros r Hr. by apply Hin.
  - constructor.
  - constructor.
  - set_solver.
  - split; [done|]. split; [done|]. intros x. rewrite H3. simpl. unfold in_runs.
    setoid_rewrite Hp. unfold nonempty. setoid_rewrite list_elem_of_filter.
    unfold inside. split; [naive_solver|]. intros (r&?&?). exists r. split; [|done]. split; [lia|done].
Qed.

Lemma coalesce_joins_witness :
  gapped (coalesce [(300, 10); (100, 50); (150, 20); (0, 0)]).
Proof.
  refine (proj1 (coalesce_joins _ _ _ _)).
  - decided.
  - decided.
  - intros p q Hp Hq Hne x. unfold inside.
    rewrite !elem_of_cons in Hp, Hq.
    destruct Hp as [->|[->|[->|[->|Hp]]]], Hq as [->|[->|[->|[->|Hq]]]]; simpl;
      try (by apply not_elem_of_nil in Hp); try (by apply not_elem_of_nil in Hq); try done; lia.
Defined.

(** * Holds *)

Inductive HoldOp : Type :=
| HoldTaken (key : string) (generation table : Z)
| HoldDropped (arc : nat)
| HoldsAsked (key : string).

Definition hold_step (h : Holds) (op : HoldOp) : Holds :=
  match op with
  | HoldTaken key g t => (hold key g t h).1
  | HoldDropped arc => drop_hold arc h
  | HoldsAsked key => (holds key h).2
  end.

(** What the registry is to know: the holds that were taken and not dropped, in order, and
    the number the next is given. *)
Definition hold_spec (st : list (string * Z * Z * nat) * nat) (op : HoldOp)
    : list (string * Z * Z * nat) * nat :=
  match op with
  | HoldTaken key g t => (st.1 ++ [(key, g, t, st.2)], S st.2)
  | HoldDropped arc => (filter (λ o : string * Z * Z * nat, o.2 ≠ arc) st.1, st.2)
  | HoldsAsked _ => st
  end.

Lemma hold_refines ops h st :
  retain_live h = st.1 → h_next h = st.2 → Forall (λ a, a < h_next h)%nat (h_live h) →
  let h' := foldl hold_step h ops in
  retain_live h' = (foldl hold_spec st ops).1.
Proof.
  revert h st. induction ops as [|op ops IH]; intros h [live next] El En Hlt; [done|].
  simpl in *. apply IH; destruct op as [key g t|arc|key]; simpl; try done.
  - unfold retain_live. simpl. rewrite filter_app, filter_cons_True by (simpl; set_solver).
    rewrite filter_nil, En. f_equal. rewrite <-El. unfold retain_live.
    rewrite list_filter_filter. apply list_filter_iff. set_solver.
  - unfold retain_live. simpl. rewrite <-El. unfold retain_live. rewrite list_filter_filter.
    apply list_filter_iff. intros o. rewrite list_elem_of_filter. done.
  - rewrite <-El. unfold retain_live. simpl. unfold retain_live. rewrite list_filter_filter.
    apply list_filter_iff. naive_solver.
  - by rewrite En.
  - constructor; [lia|]. eapply Forall_impl; [done|]. simpl. lia.
  - rewrite Forall_forall in *. intros a Ha. apply list_elem_of_filter in Ha as [_ Ha]. by apply Hlt.
Qed.

(** However holds are taken, dropped and asked after, [holds] answers the generation and
    the table of exactly the holds on the file that are still alive, in the order they were
    taken. *)
Theorem holds_are_the_live_ones ops key :
  let h := foldl hold_step (mkHolds [] [] 0) ops in
  (holds key h).1 =
    (λ o : string * Z * Z * nat, (o.1.1.2, o.1.2)) <$>
      filter (λ o : string * Z * Z * nat, o.1.1.1 = key) (foldl hold_spec ([], 0%nat) ops).1.
Proof.
  unfold holds. cbn [fst]. by rewrite (hold_refines ops (mkHolds [] [] 0) ([], 0%nat)) by constructor.
Qed.
