(* ===== verification/Undo.v ===== *)
(** Undo records, the old versions of rows: [rudb-storage/src/undo.rs].

    The two levels of directories that keep the chunks are one map from a chunk's id to its words.
    A record is read in place in the source, each field with a load of its own; here [record] gives
    the words it stands at, and the operations that write one change the words of the space. A
    mutex is the state it guards. The spill file is its bytes, and whether it can be written is a
    field the environment sets. *)

From S2P Require Import Prelude.
Local Open Scope Z_scope.

Definition UNCOMMITTED : Z := 1 ≪ 63.
Definition ABORTED : Z := 2 ^ 64 - 1.

Definition CHUNK_WORDS : nat := Z.to_nat 8192.
Definition CHUNK_BYTES : Z := Z.of_nat CHUNK_WORDS * 8.
Definition HEADER_WORDS : nat := 4.
Definition IMAGE_WORDS : nat := 3.
Definition MOST_IMAGES : nat := ((CHUNK_WORDS - HEADER_WORDS) / IMAGE_WORDS)%nat.

Lemma CHUNK_WORDS_Z : Z.of_nat CHUNK_WORDS = 8192.
Proof. by vm_compute. Qed.
Lemma half_CHUNK_WORDS : Z.of_nat (CHUNK_WORDS / 2) = 4096.
Proof. by vm_compute. Qed.
Lemma MOST_IMAGES_Z : Z.of_nat MOST_IMAGES = 2729.
Proof. by vm_compute. Qed.

#[global] Opaque CHUNK_WORDS MOST_IMAGES.

Inductive UndoKind : Type :=
| Update
| Delete
| Spilled.

#[global] Instance UndoKind_eq_dec : EqDecision UndoKind.
Proof. solve_decision. Defined.

Definition UndoKind_code (k : UndoKind) : Z :=
  match k with Update => 0 | Delete => 1 | Spilled => 2 end.

Definition UndoKind_of (code : Z) : UndoKind :=
  if code =? 1 then Delete else if code =? 2 then Spilled else Update.

(** The value a column had before a change. *)
Record Image : Type := mkImage {
  i_column : Z;
  i_value : option Z }.

(** A record read back from the spill file. *)
Record SpilledRecord : Type := mkSpilled {
  sr_ts : Z;
  sr_kind : UndoKind;
  sr_images : list Image }.

(** Where a record belongs. *)
Record Row : Type := mkRow {
  row_table : Z;
  row_rid : Z }.

#[global] Instance Row_eq_dec : EqDecision Row.
Proof. solve_decision. Defined.
#[global] Instance Row_countable : Countable Row.
Proof. refine (inj_countable' (λ r, (row_table r, row_rid r)) (λ x, mkRow x.1 x.2) _). by intros []. Defined.

(** * The space *)

Record SpillLimits : Type := mkLimits {
  li_at : Z;
  li_most : Z }.

Record Spill : Type := mkSpill {
  sp_limits : option SpillLimits;
  sp_file : option (list Z);
  sp_written : Z;
  sp_stubs : Z;
  sp_works : bool }.

Record UndoBuffer : Type := mkBuffer {
  b_chunk : Z;
  b_next : Z }.

(** A chunk on its way to the free list. *)
Record Held : Type := mkHeld {
  h_chunk : Z;
  h_units : Z;
  h_epoch : Z;
  h_tables : list Z }.

Record Rounds : Type := mkRounds {
  rd_waiting : list (Z * Z);
  rd_found : list Held;
  rd_cut : list Held;
  rd_pruned : gset Z;
  rd_own : UndoBuffer }.

Record UndoSpace : Type := mkSpace {
  us_chunks : gmap Z (list Z);
  us_next : Z;
  us_free : list Z;
  us_sealed : list (Z * Z);
  us_rounds : Rounds;
  us_spill : Spill;
  us_due : Z }.

Definition UndoBuffer_default : UndoBuffer := mkBuffer 0 0.
Definition Rounds_default : Rounds := mkRounds [] [] [] ∅ UndoBuffer_default.
Definition Spill_default : Spill := mkSpill None None 0 0 true.

Definition UndoSpace_new : UndoSpace := mkSpace ∅ 1 [] [] Rounds_default Spill_default 0.

Definition with_chunks (cs : gmap Z (list Z)) (sp : UndoSpace) : UndoSpace :=
  mkSpace cs (us_next sp) (us_free sp) (us_sealed sp) (us_rounds sp) (us_spill sp) (us_due sp).
Definition with_next (n : Z) (sp : UndoSpace) : UndoSpace :=
  mkSpace (us_chunks sp) n (us_free sp) (us_sealed sp) (us_rounds sp) (us_spill sp) (us_due sp).
Definition with_free (l : list Z) (sp : UndoSpace) : UndoSpace :=
  mkSpace (us_chunks sp) (us_next sp) l (us_sealed sp) (us_rounds sp) (us_spill sp) (us_due sp).
Definition with_sealed (l : list (Z * Z)) (sp : UndoSpace) : UndoSpace :=
  mkSpace (us_chunks sp) (us_next sp) (us_free sp) l (us_rounds sp) (us_spill sp) (us_due sp).
Definition with_rounds (r : Rounds) (sp : UndoSpace) : UndoSpace :=
  mkSpace (us_chunks sp) (us_next sp) (us_free sp) (us_sealed sp) r (us_spill sp) (us_due sp).
Definition with_spill (s : Spill) (sp : UndoSpace) : UndoSpace :=
  mkSpace (us_chunks sp) (us_next sp) (us_free sp) (us_sealed sp) (us_rounds sp) s (us_due sp).
Definition with_due (n : Z) (sp : UndoSpace) : UndoSpace :=
  mkSpace (us_chunks sp) (us_next sp) (us_free sp) (us_sealed sp) (us_rounds sp) (us_spill sp) n.

Definition spill_at (limits : option SpillLimits) (sp : UndoSpace) : UndoSpace :=
  let s := us_spill sp in
  with_spill (mkSpill limits (sp_file s) (sp_written s) (sp_stubs s) (sp_works s)) sp.

Definition chunks (sp : UndoSpace) : Z := Z.min (us_next sp) (1 ≪ 20) - 1.
Definition free_chunks (sp : UndoSpace) : Z := zlen (us_free sp).
Definition live_chunks (sp : UndoSpace) : Z := chunks sp - free_chunks sp.
Definition space_bytes (sp : UndoSpace) : Z := live_chunks sp * CHUNK_BYTES.
Definition spilled_bytes (sp : UndoSpace) : Z := sp_written (us_spill sp).

Definition words (sp : UndoSpace) (chunk : Z) : option (list Z) := us_chunks sp !! chunk.

Definition zeros : list Z := replicate CHUNK_WORDS 0.

Lemma length_zeros : length zeros = CHUNK_WORDS.
Proof. apply length_replicate. Qed.

#[global] Opaque zeros.

(** A chunk's id: one collected, the last put on the list, or a new one of zeros. *)
Definition make (sp : UndoSpace) : option Z * UndoSpace :=
  match last (us_free sp) with
  | Some id => (Some id, with_free (removelast (us_free sp)) sp)
  | None =>
      let id := us_next sp in
      let sp := with_next (wrap 32 (id + 1)) sp in
      if 1 ≪ 20 <=? id then (None, sp) else
      (Some id, with_chunks (<[id := default zeros (us_chunks sp !! id)]>
                               (us_chunks sp)) sp)
  end.

(** * Records *)

(** A reference: the chunk, and the unit of 16 bytes in it. *)
Definition ref_chunk (at_ : Z) : Z := at_ ≫ 12.
Definition ref_word (at_ : Z) : nat := (Z.to_nat (Z.land at_ (Z.ones 12)) * 2)%nat.

Definition image_count (w0 : Z) : nat := Z.to_nat (Z.land (w0 ≫ 40) (Z.ones 16)).

Record UndoRecord : Type := mkRecord {
  r_at : Z;
  r_words : list Z }.

Definition record (sp : UndoSpace) (at_ : Z) : option UndoRecord :=
  ws ← words sp (ref_chunk at_);
  ws ← (if (ref_word at_ <=? length ws)%nat then Some (drop (ref_word at_) ws) else None);
  w0 ← ws !! 0%nat;
  let len := (HEADER_WORDS + IMAGE_WORDS * image_count w0)%nat in
  ws ← (if (len <=? length ws)%nat then Some (take len ws) else None);
  Some (mkRecord at_ ws).

Definition r_word (r : UndoRecord) (i : nat) : Z := default 0 (r_words r !! i).

Definition r_prev (r : UndoRecord) : Z := wrap 32 (r_word r 0).
Definition r_kind (r : UndoRecord) : UndoKind := UndoKind_of (wrap 8 (r_word r 0 ≫ 32)).
Definition r_ts (r : UndoRecord) : Z := r_word r 1.
Definition r_rid (r : UndoRecord) : Z := r_word r 2.
Definition r_table (r : UndoRecord) : Z := wrap 32 (r_word r 3).

Definition image_of (ws : list Z) : Image :=
  let word i := default 0 (ws !! i) in
  let head := word 0%nat in
  let value := Z.lor (word 1%nat) (word 2%nat ≪ 64) in
  mkImage (wrap 16 head) (if Z.testbit head 16 then Some value else None).

Fixpoint images_of (n : nat) (ws : list Z) : list Image :=
  match n with
  | O => []
  | S n => image_of (take IMAGE_WORDS ws) :: images_of n (drop IMAGE_WORDS ws)
  end.

(** [chunks_exact] of what follows the header. *)
Definition r_images (r : UndoRecord) : list Image :=
  images_of ((length (r_words r) - HEADER_WORDS) / IMAGE_WORDS)%nat (drop HEADER_WORDS (r_words r)).

(** A store to word [i] of the record at [at_]. *)
Definition store_word (at_ : Z) (i : nat) (x : Z) (sp : UndoSpace) : UndoSpace :=
  match words sp (ref_chunk at_) with
  | Some ws => with_chunks (<[ref_chunk at_ := <[(ref_word at_ + i)%nat := x]> ws]> (us_chunks sp)) sp
  | None => sp
  end.

Definition set_prev (r : UndoRecord) (prev : Z) (sp : UndoSpace) : UndoSpace :=
  store_word (r_at r) 0 (Z.lor (Z.land (r_word r 0) (wnot 64 (Z.ones 32))) prev) sp.

Definition stamp (r : UndoRecord) (ts : Z) (sp : UndoSpace) : UndoSpace :=
  store_word (r_at r) 1 ts sp.

(** The records in the first [units] units of a chunk, oldest first. *)
Fixpoint records_loop (fuel : nat) (sp : UndoSpace) (chunk units next : Z) : list (Z * UndoRecord) :=
  match fuel with
  | O => []
  | S fuel =>
      if units <=? next then [] else
      let at_ := Z.lor (chunk ≪ 12) next in
      match record sp at_ with
      | None => []
      | Some r => (at_, r) :: records_loop fuel sp chunk units
                                (next + Z.of_nat ((length (r_words r) + 1) / 2))
      end
  end.

Definition records (sp : UndoSpace) (chunk units : Z) : list (Z * UndoRecord) :=
  records_loop (Z.to_nat units) sp chunk units 0.

(** * Writing records *)

Definition seal (b : UndoBuffer) (sp : UndoSpace) : UndoBuffer * UndoSpace :=
  (mkBuffer 0 0,
   if negb (b_chunk b =? 0) && (0 <? b_next b)
   then with_sealed (us_sealed sp ++ [(b_chunk b, b_next b)]) sp else sp).

Definition image_words (i : Image) : list Z :=
  let valid := (if i_value i then 1 else 0) ≪ 16 in
  let value := default 0 (i_value i) in
  [Z.lor (i_column i) valid; wrap 64 value; wrap 64 (value ≫ 64)].

Definition record_words (kind : UndoKind) (ts : Z) (row : Row) (prev : Z) (images : list Image) : list Z :=
  Z.lor (Z.lor prev (UndoKind_code kind ≪ 32)) (zlen images ≪ 40)
    :: ts :: row_rid row :: row_table row :: (images ≫= image_words).

(** A chunk with room for [units] more: the buffer's, or another one once it is sealed. *)
Definition ready (units : Z) (b : UndoBuffer) (sp : UndoSpace) : bool * (UndoBuffer * UndoSpace) :=
  if (b_chunk b =? 0) || (Z.of_nat (CHUNK_WORDS / 2) <? b_next b + units) then
    let '(b, sp) := seal b sp in
    let '(id, sp) := make sp in
    match id with
    | None => (false, (b, sp))
    | Some id => (true, (mkBuffer id 0, sp))
    end
  else (true, (b, sp)).

Definition one (kind : UndoKind) (ts : Z) (row : Row) (prev : Z) (images : list Image)
    (b : UndoBuffer) (sp : UndoSpace) : option Z * (UndoBuffer * UndoSpace) :=
  let len := (HEADER_WORDS + IMAGE_WORDS * length images)%nat in
  let units := Z.of_nat ((len + 1) / 2) in
  let '(made, (b, sp)) := ready units b sp in
  if negb made then (None, (b, sp)) else
  let at_ := Z.lor (b_chunk b ≪ 12) (b_next b) in
  match words sp (b_chunk b) with
  | None => (None, (b, sp))
  | Some ws =>
      let start := b_next b * 2 in
      let ws := put_slice start (record_words kind ts row prev images) ws in
      (Some at_, (mkBuffer (b_chunk b) (b_next b + units), with_chunks (<[b_chunk b := ws]> (us_chunks sp)) sp))
  end.

Fixpoint pieces_of (fuel : nat) (images : list Image) : list (list Image) :=
  match fuel, images with
  | S fuel, _ :: _ => take MOST_IMAGES images :: pieces_of fuel (drop MOST_IMAGES images)
  | _, _ => []
  end.

Fixpoint write_pieces (pieces : list (list Image)) (kind : UndoKind) (ts : Z) (row : Row) (prev : Z)
    (b : UndoBuffer) (sp : UndoSpace) : option Z * (UndoBuffer * UndoSpace) :=
  match pieces with
  | [] => (Some prev, (b, sp))
  | piece :: pieces =>
      let '(at_, (b, sp)) := one kind ts row prev piece b sp in
      match at_ with
      | None => (None, (b, sp))
      | Some at_ => write_pieces pieces kind ts row at_ b sp
      end
  end.

Definition UndoBuffer_write (kind : UndoKind) (ts : Z) (row : Row) (prev : Z) (images : list Image)
    (b : UndoBuffer) (sp : UndoSpace) : option Z * (UndoBuffer * UndoSpace) :=
  let pieces := match pieces_of (length images) images with [] => [[]] | pieces => pieces end in
  write_pieces pieces kind ts row prev b sp.

(** * The spill file *)

Definition Spill_append (bytes : list Z) (s : Spill) : option Z * Spill :=
  match (match sp_file s with
         | Some file => Some file
         | None => match sp_limits s with
                   | Some _ => if sp_works s then Some [] else None
                   | None => None
                   end
         end) with
  | None => (None, s)
  | Some file =>
      let s := mkSpill (sp_limits s) (Some file) (sp_written s) (sp_stubs s) (sp_works s) in
      if negb (sp_works s) then (None, s) else
      let offset := sp_written s in
      (Some offset,
       mkSpill (sp_limits s) (Some (put_slice offset bytes file)) (offset + zlen bytes)
         (sp_stubs s) (sp_works s))
  end.

(** Notes that stubs were freed, and starts the file again when none is left. *)
Definition forget (stubs : Z) (sp : UndoSpace) : UndoSpace :=
  let s := us_spill sp in
  let left_ := Z.max 0 (sp_stubs s - stubs) in
  with_spill
    (if left_ =? 0 then mkSpill (sp_limits s) ((λ _, []) <$> sp_file s) 0 left_ (sp_works s)
     else mkSpill (sp_limits s) (sp_file s) (sp_written s) left_ (sp_works s)) sp.

Definition encode_image (i : Image) : list Z :=
  le_bytes 2 (i_column i) ++ [if i_value i then 1 else 0] ++ le_bytes 16 (default 0 (i_value i)).

Definition encode (r : UndoRecord) : list Z :=
  le_bytes 8 (r_ts r) ++ [UndoKind_code (r_kind r)]
  ++ le_bytes 2 (wrap 16 (zlen (r_images r))) ++ (r_images r ≫= encode_image).

(** [split_at], which panics past the end. *)
Definition take_from (n : nat) (bytes : list Z) : option (list Z * list Z) :=
  if (n <=? length bytes)%nat then Some (take n bytes, drop n bytes) else None.

Fixpoint decode_images (count : nat) (bytes : list Z) : option (list Image * list Z) :=
  match count with
  | O => Some ([], bytes)
  | S count =>
      '(column, bytes) ← take_from 2 bytes;
      '(valid, bytes) ← take_from 1 bytes;
      '(value, bytes) ← take_from 16 bytes;
      '(images, bytes) ← decode_images count bytes;
      Some (mkImage (le_val column)
              (if negb (byte_at valid 0 =? 0) then Some (le_val value) else None) :: images, bytes)
  end.

Fixpoint decode_loop (fuel : nat) (bytes : list Z) : option (list SpilledRecord) :=
  match fuel, bytes with
  | _, [] => Some []
  | O, _ => None
  | S fuel, _ =>
      '(ts, bytes) ← take_from 8 bytes;
      '(kind, bytes) ← take_from 1 bytes;
      '(count, bytes) ← take_from 2 bytes;
      '(images, bytes) ← decode_images (Z.to_nat (le_val count)) bytes;
      rest ← decode_loop fuel bytes;
      Some (mkSpilled (le_val ts) (UndoKind_of (byte_at kind 0)) images :: rest)
  end.

Definition decode (bytes : list Z) : option (list SpilledRecord) := decode_loop (length bytes) bytes.

(** The records a stub stands for; [None] where the source panics. *)
Definition unspill (sp : UndoSpace) (stub : UndoRecord) : option (list SpilledRecord) :=
  image ← head (r_images stub);
  value ← i_value image;
  let offset := wrap 64 value in
  let len := wrap 64 (value ≫ 64) in
  file ← sp_file (us_spill sp);
  bytes ← get_range offset (offset + len) file;
  decode bytes.
