(* ===== verification/UndoWords.v ===== *)
(** Undo records as words: what [one] writes, [record] reads back, field by field, and a record
    spilled to a file reads back as the record it was. *)

From S2P Require Import Prelude Undo.
Local Open Scope Z_scope.

(** * Fields of a word *)

Lemma lor_shiftl_add k a b : 0 ≤ k → fits k a → 0 ≤ b → Z.lor a (b ≪ k) = a + b * 2 ^ k.
Proof.
  intros Hk Ha Hb. assert (Z.land a (b ≪ k) = 0) as H0.
  { apply Z.bits_inj'. intros i Hi. rewrite Z.land_spec, Z.bits_0.
    destruct (decide (i < k)); [by rewrite Z.shiftl_spec_low, andb_false_r|].
    by rewrite (fits_testbit k a) by (done || lia). }
  rewrite <-Z.lxor_lor, <-Z.add_nocarry_lxor by done. by rewrite Z.shiftl_mul_pow2 by lia.
Qed.

Lemma wrap_low k a b : fits k a → wrap k (a + b * 2 ^ k) = a.
Proof. intros Ha. unfold wrap. rewrite Z.mod_add by (unfold fits in Ha; lia). by apply Z.mod_small. Qed.

Lemma shiftr_high k a b : 0 ≤ k → fits k a → (a + b * 2 ^ k) ≫ k = b.
Proof.
  intros Hk Ha. rewrite Z.shiftr_div_pow2, Z.div_add by lia. rewrite Z.div_small by done. lia.
Qed.

Lemma fits_pair k l a b : 0 ≤ k → 0 ≤ l → fits k a → fits l b → fits (k + l) (a + b * 2 ^ k).
Proof. unfold fits. intros Hk Hl Ha Hb. rewrite Z.pow_add_r by done. nia. Qed.

(** * References *)

Lemma ref_of chunk next :
  0 ≤ chunk → fits 12 next →
  ref_chunk (Z.lor (chunk ≪ 12) next) = chunk
  ∧ ref_word (Z.lor (chunk ≪ 12) next) = (Z.to_nat next * 2)%nat.
Proof.
  intros Hc Hn. unfold ref_chunk, ref_word. rewrite Z.lor_comm, lor_shiftl_add by (done || lia).
  rewrite shiftr_high by (done || lia). split; [done|].
  rewrite Z.land_ones by lia. change ((next + chunk * 2 ^ 12) `mod` 2 ^ 12) with (wrap 12 (next + chunk * 2 ^ 12)).
  by rewrite wrap_low.
Qed.

(** * What a record says *)

Record Rec : Type := mkRec {
  c_prev : Z;
  c_kind : UndoKind;
  c_ts : Z;
  c_row : Row;
  c_images : list Image }.

Definition rec_of (r : UndoRecord) : Rec :=
  mkRec (r_prev r) (r_kind r) (r_ts r) (mkRow (r_table r) (r_rid r)) (r_images r).

Definition rec_at (sp : UndoSpace) (at_ : Z) : option Rec := rec_of <$> record sp at_.

Definition image_ok (i : Image) : Prop :=
  u16 (i_column i) ∧ match i_value i with Some v => fits 128 v | None => True end.

Record rec_ok (c : Rec) : Prop := {
  ro_prev : u32 (c_prev c);
  ro_ts : u64 (c_ts c);
  ro_rid : u64 (row_rid (c_row c));
  ro_table : u32 (row_table (c_row c));
  ro_images : Forall image_ok (c_images c);
  ro_count : (length (c_images c) ≤ MOST_IMAGES)%nat }.

Definition words_of (c : Rec) : list Z :=
  record_words (c_kind c) (c_ts c) (c_row c) (c_prev c) (c_images c).

Definition head_word (prev kind n : Z) : Z := prev + (kind + n * 2 ^ 8) * 2 ^ 32.

Lemma kind_code_fits k : fits 8 (UndoKind_code k).
Proof. by destruct k. Qed.

Lemma kind_of_code k : UndoKind_of (UndoKind_code k) = k.
Proof. by destruct k. Qed.

Lemma undo_head_word prev k n :
  u32 prev → 0 ≤ n →
  Z.lor (Z.lor prev (UndoKind_code k ≪ 32)) (n ≪ 40) = head_word prev (UndoKind_code k) n.
Proof.
  intros Hp Hn. pose proof (kind_code_fits k) as Hk. unfold head_word.
  rewrite (lor_shiftl_add 32) by (done || unfold fits in Hk; lia).
  rewrite (lor_shiftl_add 40) by (done || lia || apply (fits_pair 32 8); done || lia). lia.
Qed.

Lemma head_fields prev kind n :
  u32 prev → fits 8 kind → u16 n →
  wrap 32 (head_word prev kind n) = prev ∧ wrap 8 (head_word prev kind n ≫ 32) = kind
  ∧ image_count (head_word prev kind n) = Z.to_nat n.
Proof.
  intros Hp Hk Hn. unfold head_word, image_count. rewrite wrap_low by done.
  rewrite shiftr_high by (done || lia). rewrite wrap_low by done. split_and!; [done..|].
  change 40 with (32 + 8). rewrite <-Z.shiftr_shiftr, shiftr_high by (done || lia).
  rewrite shiftr_high by (done || lia). rewrite Z.land_ones by lia. by rewrite Z.mod_small.
Qed.

Lemma image_words_back i : image_ok i → image_of (image_words i) = i.
Proof.
  intros [Hc Hv]. unfold image_of, image_words. cbn [lookup list_lookup default from_option id].
  set (b := if i_value i then 1 else 0).
  assert (fits 1 b) as Hb by (unfold b; by destruct (i_value i)).
  rewrite (lor_shiftl_add 16) by (done || unfold fits in Hb; lia). rewrite wrap_low by done.
  assert (Z.testbit (i_column i + b * 2 ^ 16) 16 = bool_decide (b = 1)) as ->.
  { rewrite <-(Z.add_0_l 16) at 2. rewrite <-Z.shiftr_spec by lia.
    rewrite shiftr_high by (done || lia). unfold b. by destruct (i_value i). }
  destruct i as [c [v|]]; unfold b; simpl in *; [|done].
  f_equal. f_equal. unfold wrap.
  rewrite Z.lor_comm, Z.lor_comm, lor_shiftl_add; [|lia|by apply wrap_fits|by apply Z.mod_pos_bound].
  rewrite Z.shiftr_div_pow2 by lia. rewrite (Z.mod_small (v / 2 ^ 64)).
  - rewrite Z.mul_comm, Z.add_comm. symmetry. apply Z.div_mod. lia.
  - unfold fits in Hv. split; [apply Z.div_pos; lia|]. apply Z.div_lt_upper_bound; lia.
Qed.

Lemma length_images_words il : length (il ≫= image_words) = (IMAGE_WORDS * length il)%nat.
Proof. induction il as [|i il IH]; [done|]. cbn [mbind list_bind]. rewrite length_app. simpl in *. lia. Qed.

Lemma images_of_words il : Forall image_ok il → images_of (length il) (il ≫= image_words) = il.
Proof.
  induction 1 as [|i il Hi _ IH]; [done|].
  assert ((i :: il) ≫= image_words = image_words i ++ (il ≫= image_words)) as -> by done.
  cbn [length images_of]. assert (length (image_words i) = IMAGE_WORDS) as Hl by done.
  rewrite <-Hl, take_app_length, drop_app_length, IH. by rewrite image_words_back.
Qed.

Lemma length_words_of c : length (words_of c) = (HEADER_WORDS + IMAGE_WORDS * length (c_images c))%nat.
Proof. unfold words_of, record_words. cbn [length]. by rewrite length_images_words. Qed.

Lemma count_fits c : rec_ok c → u16 (zlen (c_images c)).
Proof. intros H. pose proof (ro_count c H) as Hc. pose proof MOST_IMAGES_Z. unfold zlen, fits. lia. Qed.

Lemma words_of_head c :
  rec_ok c → words_of c !! 0%nat = Some (head_word (c_prev c) (UndoKind_code (c_kind c)) (zlen (c_images c))).
Proof.
  intros H. unfold words_of, record_words. simpl. f_equal. apply undo_head_word; [apply H|apply zlen_nonneg].
Qed.

(** The words of a record say what it is. *)
Lemma rec_of_words c at_ : rec_ok c → rec_of (mkRecord at_ (words_of c)) = c.
Proof.
  intros H. pose proof (count_fits c H) as Hn.
  destruct (head_fields (c_prev c) (UndoKind_code (c_kind c)) (zlen (c_images c))) as (E1&E2&_);
    [apply H|apply kind_code_fits|done|].
  unfold rec_of, r_prev, r_kind, r_ts, r_table, r_rid, r_word. cbn [r_words].
  rewrite words_of_head by done. cbn [default from_option id]. rewrite E1, E2, kind_of_code.
  assert (r_images (mkRecord at_ (words_of c)) = c_images c) as ->.
  { unfold r_images. cbn [r_words]. rewrite length_words_of.
    replace (HEADER_WORDS + IMAGE_WORDS * length (c_images c) - HEADER_WORDS)%nat
      with (length (c_images c) * IMAGE_WORDS)%nat by lia.
    rewrite Nat.div_mul by done. apply images_of_words, H. }
  unfold words_of, record_words. cbn [lookup list_lookup default from_option id].
  rewrite wrap_id by apply H. by destruct c as [? ? ? [? ?] ?].
Qed.

(** ** A record in a chunk *)

(** The words [ws] of a chunk have the record [c] at word [w]. *)
Definition stands (ws : list Z) (w : nat) (c : Rec) : Prop :=
  ∃ pre post, ws = pre ++ words_of c ++ post ∧ length pre = w.

Lemma record_stands sp at_ ws c :
  rec_ok c → words sp (ref_chunk at_) = Some ws → stands ws (ref_word at_) c →
  record sp at_ = Some (mkRecord at_ (words_of c)).
Proof.
  intros Hc Hw (pre&post&->&Hl). unfold record. rewrite Hw, some_bind.
  assert ((ref_word at_ <=? length (pre ++ words_of c ++ post))%nat = true) as ->.
  { apply Nat.leb_le. rewrite length_app. lia. }
  rewrite some_bind, <-Hl, drop_app_length.
  rewrite lookup_app_l by (rewrite length_words_of; unfold HEADER_WORDS; lia).
  rewrite words_of_head, some_bind by done.
  destruct (head_fields (c_prev c) (UndoKind_code (c_kind c)) (zlen (c_images c))) as (_&_&->);
    [apply Hc|apply kind_code_fits|by apply count_fits|].
  unfold zlen. rewrite Nat2Z.id, <-length_words_of.
  assert ((length (words_of c) <=? length (words_of c ++ post))%nat = true) as ->.
  { apply Nat.leb_le. rewrite length_app. lia. }
  by rewrite some_bind, take_app_length.
Qed.

Lemma rec_at_stands sp at_ ws c :
  rec_ok c → words sp (ref_chunk at_) = Some ws → stands ws (ref_word at_) c → rec_at sp at_ = Some c.
Proof.
  intros Hc Hw Hst. unfold rec_at. rewrite (record_stands sp at_ ws c) by done. simpl.
  by rewrite rec_of_words.
Qed.

(** Writing words past a record, or before it, leaves it. *)
Lemma stands_put ws w c start new :
  stands ws w c → (start + length new ≤ w ∨ w + length (words_of c) ≤ start)%nat →
  (start + length new ≤ length ws)%nat →
  stands (put_slice (Z.of_nat start) new ws) w c.
Proof.
  intros (pre&post&->&Hl) Hout Hlen. unfold put_slice. rewrite Nat2Z.id.
  rewrite !length_app in Hlen. destruct Hout as [Hout|Hout].
  - exists (take start pre ++ new ++ drop (start + length new) pre), post. split.
    + rewrite take_app_le, drop_app_le by lia. by rewrite <-!app_assoc.
    + rewrite !length_app, length_take, length_drop. lia.
  - exists pre, (take (start - w - length (words_of c)) post ++ new
      ++ drop (start - w - length (words_of c) + length new) post). split; [|done].
    rewrite (app_assoc pre), take_app_ge, drop_app_ge by (rewrite length_app; lia).
    rewrite length_app, <-!app_assoc. do 2 f_equal. rewrite !Hl.
    replace (start - (w + length (words_of c)))%nat with (start - w - length (words_of c))%nat by lia.
    f_equal. f_equal. f_equal. lia.
Qed.

Lemma stands_new ws c start :
  (start + length (words_of c) ≤ length ws)%nat →
  stands (put_slice (Z.of_nat start) (words_of c) ws) start c.
Proof.
  intros Hlen. unfold put_slice. rewrite Nat2Z.id.
  exists (take start ws), (drop (start + length (words_of c)) ws). split; [done|].
  rewrite length_take. lia.
Qed.

Lemma length_put_slice {A} start (new ws : list A) :
  (start + length new ≤ length ws)%nat → length (put_slice (Z.of_nat start) new ws) = length ws.
Proof.
  intros. unfold put_slice. rewrite Nat2Z.id, !length_app, length_take, length_drop. lia.
Qed.

(** * The spill file *)

Definition spilled_of (c : Rec) : SpilledRecord := mkSpilled (c_ts c) (c_kind c) (c_images c).

Lemma take_at_app n a b : length a = n → take_from n (a ++ b) = Some (a, b).
Proof.
  intros <-. unfold take_from. rewrite length_app.
  destruct (Nat.leb_spec (length a) (length a + length b)); [|lia].
  by rewrite take_app_length, drop_app_length.
Qed.

Lemma decode_images_at il rest :
  Forall image_ok il → decode_images (length il) ((il ≫= encode_image) ++ rest) = Some (il, rest).
Proof.
  induction 1 as [|i il [Hc Hv] _ IH]; [done|].
  assert ((i :: il) ≫= encode_image = encode_image i ++ (il ≫= encode_image)) as -> by done.
  cbn [length decode_images]. unfold encode_image at 1. rewrite <-!app_assoc.
  rewrite take_at_app, some_bind by apply length_le_bytes.
  rewrite take_at_app, some_bind by done.
  rewrite take_at_app, some_bind by apply length_le_bytes. rewrite IH, some_bind.
  rewrite le_val_bytes by done. f_equal. f_equal. f_equal.
  destruct i as [c [v|]]; simpl in *; [|done]. by rewrite le_val_bytes.
Qed.

Lemma decode_loop_records rs fuel :
  Forall (λ r, rec_ok (rec_of r)) rs → (length (rs ≫= encode) ≤ fuel)%nat →
  decode_loop fuel (rs ≫= encode) = Some ((λ r, spilled_of (rec_of r)) <$> rs).
Proof.
  intros Hrs. revert fuel. induction Hrs as [|r rs Hr _ IH]; intros fuel Hf; [by destruct fuel|].
  assert ((r :: rs) ≫= encode = encode r ++ (rs ≫= encode)) as E by done. rewrite E in *.
  rewrite length_app in Hf. destruct fuel as [|fuel].
  { unfold encode in Hf. rewrite length_app, length_le_bytes in Hf. lia. }
  pose proof (count_fits _ Hr) as Hcount. simpl in Hcount.
  assert (∃ b bs, encode r ++ (rs ≫= encode) = b :: bs) as (b&bs&Eb).
  { destruct (encode r ++ (rs ≫= encode)) as [|b bs] eqn:E0; [|by eauto].
    apply app_nil in E0 as [E0 _]. unfold encode in E0. apply app_nil in E0 as [E0 _].
    apply (f_equal length) in E0. by rewrite length_le_bytes in E0. }
  assert (decode_loop (S fuel) (encode r ++ (rs ≫= encode)) = '(ts, bytes) ← take_from 8 (encode r ++ (rs ≫= encode));
      '(kind, bytes) ← take_from 1 bytes;
      '(count, bytes) ← take_from 2 bytes;
      '(images, bytes) ← decode_images (Z.to_nat (le_val count)) bytes;
      rest ← decode_loop fuel bytes;
      Some (mkSpilled (le_val ts) (UndoKind_of (byte_at kind 0)) images :: rest)) as ->.
  { by rewrite Eb. }
  unfold encode at 1. rewrite <-!app_assoc.
  rewrite take_at_app, some_bind by apply length_le_bytes.
  rewrite take_at_app, some_bind by done.
  rewrite take_at_app, some_bind by apply length_le_bytes.
  rewrite wrap_id by done. rewrite (le_val_bytes 2) by done.
  unfold zlen at 1. rewrite Nat2Z.id, decode_images_at, some_bind by apply Hr.
  rewrite IH, some_bind.
  - rewrite (le_val_bytes 8) by apply (ro_ts _ Hr).
    change (byte_at [UndoKind_code (r_kind r)] 0) with (UndoKind_code (r_kind r)). by rewrite kind_of_code.
  - unfold encode in Hf at 1. rewrite length_app, length_le_bytes in Hf. lia.
Qed.

(** What is written to the spill file reads back. *)
Lemma decode_encode rs :
  Forall (λ r, rec_ok (rec_of r)) rs →
  decode (rs ≫= encode) = Some ((λ r, spilled_of (rec_of r)) <$> rs).
Proof. intros. by apply decode_loop_records. Qed.

(** * Timestamps *)

Lemma committed_bit ts : fits 63 ts → Z.land ts UNCOMMITTED = 0.
Proof.
  intros H. apply Z.bits_inj'. intros i Hi. unfold UNCOMMITTED. rewrite Z.land_spec, Z.shiftl_1_l, Z.bits_0.
  destruct (decide (i = 63)) as [->|]; [by rewrite (fits_testbit 63)|].
  by rewrite Z.pow2_bits_false, andb_false_r by done.
Qed.
