(* ===== verification/UndoAlloc.v ===== *)
(** The undo space as a store of records. [space_ok] ties the words of the space and the buffers that
    write in it to the records kept, a map from references: a write adds one at a fresh reference,
    and a stamp or a new link changes one and no other. *)

From S2P Require Import Prelude Undo UndoWords.
Local Open Scope Z_scope.

Abbreviation Kept := (gmap Z Rec).

Definition extent (at_ : Z) (c : Rec) : nat := (ref_word at_ + length (words_of c))%nat.

Record space_ok (sp : UndoSpace) (bufs : list UndoBuffer) (G : Kept) : Prop := {
  so_next : 1 ≤ us_next sp;
  so_chunks : ∀ id ws, words sp id = Some ws → length ws = CHUNK_WORDS ∧ 1 ≤ id < us_next sp ∧ id < 2 ^ 20;
  so_free : NoDup (us_free sp) ∧ ∀ id, id ∈ us_free sp → is_Some (words sp id);
  so_bufs : ∀ b, b ∈ bufs → b_chunk b ≠ 0 →
    is_Some (words sp (b_chunk b)) ∧ b_chunk b ∉ us_free sp ∧ 0 ≤ b_next b ≤ Z.of_nat (CHUNK_WORDS / 2);
  so_apart : NoDup (filter (λ c, c ≠ 0) (b_chunk <$> bufs));
  so_recs : ∀ at_ c, G !! at_ = Some c →
    rec_ok c ∧ (∃ ws, words sp (ref_chunk at_) = Some ws ∧ stands ws (ref_word at_) c)
    ∧ ref_chunk at_ ∉ us_free sp ∧ 0 < at_ < 2 ^ 32;
  so_disjoint : ∀ at_ c at_' c', G !! at_ = Some c → G !! at_' = Some c' → at_ ≠ at_' →
    ref_chunk at_ = ref_chunk at_' → (extent at_ c ≤ ref_word at_' ∨ extent at_' c' ≤ ref_word at_)%nat;
  so_below : ∀ at_ c b, G !! at_ = Some c → b ∈ bufs → b_chunk b = ref_chunk at_ →
    Z.of_nat (extent at_ c) ≤ 2 * b_next b }.

Lemma space_new_ok bufs : Forall (λ b, b_chunk b = 0) bufs → space_ok UndoSpace_new bufs ∅.
Proof.
  intros Hb. rewrite Forall_forall in Hb. split; try done.
  - split; [constructor|]. simpl. set_solver.
  - intros b Hin Hne. by apply Hb in Hin.
  - rewrite list_filter_none; [constructor|]. apply Forall_fmap, Forall_forall. intros b Hin. simpl.
    intros Hne. by apply Hne, Hb.
Qed.

Lemma space_forget sp bufs G G' : space_ok sp bufs G → G' ⊆ G → space_ok sp bufs G'.
Proof.
  intros [H1 H2 H3 H4 H5 H6 H7 H8] Hsub. split; try done.
  - intros at_ c Hc. apply H6. by eapply lookup_weaken.
  - intros at_ c at_' c' Hc Hc'. apply H7; by eapply lookup_weaken.
  - intros at_ c b Hc. apply H8. by eapply lookup_weaken.
Qed.

Lemma space_record sp bufs G at_ c :
  space_ok sp bufs G → G !! at_ = Some c →
  record sp at_ = Some (mkRecord at_ (words_of c)) ∧ rec_at sp at_ = Some c.
Proof.
  intros Hsp Hc. destruct (so_recs _ _ _ Hsp at_ c Hc) as (Hok&(ws&Hw&Hst)&_).
  split; [by eapply record_stands|by eapply rec_at_stands].
Qed.

Lemma half_words c : rec_ok c → (length (words_of c) ≤ 2 * ((length (words_of c) + 1) / 2) ∧
  2 * ((length (words_of c) + 1) / 2) ≤ CHUNK_WORDS)%nat.
Proof.
  intros H. pose proof (ro_count c H) as Hc. rewrite length_words_of.
  pose proof CHUNK_WORDS_Z. pose proof MOST_IMAGES_Z. unfold HEADER_WORDS, IMAGE_WORDS in *.
  pose proof (Nat.div_mod (4 + 3 * length (c_images c) + 1) 2 ltac:(lia)).
  pose proof (Nat.mod_upper_bound (4 + 3 * length (c_images c) + 1) 2 ltac:(lia)). lia.
Qed.

(** ** Writing a record *)

(** Everything but the chunks, the lists of free and sealed chunks and the next id. *)
Definition same_rest (sp sp' : UndoSpace) : Prop :=
  us_rounds sp' = us_rounds sp ∧ us_spill sp' = us_spill sp ∧ us_due sp' = us_due sp.

Lemma seal_ok b sp bufs G :
  space_ok sp (b :: bufs) G →
  let '(b', sp') := seal b sp in space_ok sp' (b' :: bufs) G ∧ same_rest sp sp'.
Proof.
  intros [H1 H2 H3 H4 H5 H6 H7 H8]. destruct (seal b sp) as [b' sp'] eqn:E.
  assert (b' = mkBuffer 0 0 ∧ us_next sp' = us_next sp ∧ us_chunks sp' = us_chunks sp
    ∧ us_free sp' = us_free sp ∧ same_rest sp sp') as (->&E1&E2&E3&E4).
  { unfold seal in E. injection E as <- <-. by case_match. }
  split; [|done]. unfold words in *. split; unfold words; rewrite ?E1, ?E2, ?E3; try done.
  - intros b' [->|Hin]%elem_of_cons Hne; [done|]. apply H4; [by right|done].
  - rewrite fmap_cons, filter_cons in H5 |- *. rewrite decide_False by (simpl; auto).
    case_decide; [by apply NoDup_cons in H5 as [_ ?]|done].
  - intros at_ c b' Hc [->|Hin]%elem_of_cons Hb; simpl in *; [|by eapply H8; [done|right|]].
    destruct (H6 at_ c Hc) as (_&(ws&Hw&_)&_). apply H2 in Hw as (_&?&_). lia.
Qed.

Lemma removelast_last {A} (l : list A) x : last l = Some x → l = removelast l ++ [x].
Proof.
  intros H. apply last_Some in H as [l' ->]. by rewrite removelast_app, app_nil_r by done.
Qed.

(** A chunk a buffer may start on. *)
Definition fresh_chunk (sp : UndoSpace) (bufs : list UndoBuffer) (G : Kept) (id : Z) : Prop :=
  is_Some (words sp id) ∧ id ∉ us_free sp ∧ 1 ≤ id < 2 ^ 20
  ∧ (∀ b, b ∈ bufs → b_chunk b ≠ id) ∧ ∀ at_ c, G !! at_ = Some c → ref_chunk at_ ≠ id.

Lemma make_ok sp bufs G id sp' :
  space_ok sp bufs G → make sp = (Some id, sp') →
  space_ok sp' bufs G ∧ fresh_chunk sp' bufs G id ∧ same_rest sp sp'.
Proof.
  intros Hsp. pose proof Hsp as [H1 H2 [H3 H3'] H4 H5 H6 H7 H8]. unfold make.
  destruct (last (us_free sp)) as [x|] eqn:El.
  - intros [= -> <-]. apply removelast_last in El.
    assert (id ∈ us_free sp) as Hid by (clear -El; rewrite El; set_solver).
    assert (NoDup (removelast (us_free sp)) ∧ id ∉ removelast (us_free sp)) as [Hnd Hout].
    { rewrite El in H3. apply NoDup_app in H3 as (?&Ho&_). split; [done|].
      intros Hin. apply (Ho id Hin). by left. }
    assert (∀ x, x ∈ removelast (us_free sp) → x ∈ us_free sp) as Hsub by (clear -El; intros; rewrite El; set_solver).
    split; [|split; [|done]].
    + split; try done; cbn [with_free us_free].
      * split; [done|]. intros y Hy. by apply H3', Hsub.
      * intros b Hb Hne. destruct (H4 b Hb Hne) as (?&?&?). split_and!; try done; try lia. auto.
      * intros at_ c Hc. destruct (H6 at_ c Hc) as (?&?&?&?). split_and!; try done; try lia. auto.
    + split; [by apply H3'|]. split; [done|].
      destruct (H3' id Hid) as [ws Hw]. apply H2 in Hw as (_&?&?). split; [lia|]. split.
      * intros b Hb <-. destruct (H4 b Hb) as (_&?&_); [lia|done].
      * intros at_ c Hc E. destruct (H6 at_ c Hc) as (_&_&?&_). by rewrite E in *.
  - apply last_None in El. destruct (Z.leb_spec (1 ≪ 20) (us_next sp)) as [|Hlt]; [done|].
    intros [= <- <-]. change (1 ≪ 20) with (2 ^ 20) in Hlt.
    assert (wrap 32 (us_next sp + 1) = us_next sp + 1) as Ew by (apply wrap_id; unfold fits; lia).
    assert (words sp (us_next sp) = None) as Hno.
    { destruct (words sp (us_next sp)) as [ws|] eqn:E; [|done]. apply H2 in E. lia. }
    assert (∀ i ws, words sp i = Some ws → i ≠ us_next sp) as Hne by (intros i ws Hw ->; congruence).
    unfold words in *. simpl. rewrite Hno. simpl.
    assert (∀ i ws, us_chunks sp !! i = Some ws →
      <[us_next sp := zeros]> (us_chunks sp) !! i = Some ws) as Hkeep.
    { intros i ws Hw. rewrite lookup_insert_ne; [done|]. by eapply not_eq_sym, Hne. }
    split; [|split; [|done]].
    + split; unfold words; cbn [with_chunks with_next us_next us_chunks us_free]; rewrite ?Ew, ?El; try done; [lia|..].
      * intros i ws [[<- <-]|[Hi Hw]]%lookup_insert_Some.
        { rewrite length_zeros. split; [done|lia]. }
        apply H2 in Hw. lia.
      * split; [constructor|clear; set_solver].
      * intros b Hb Hb0. destruct (H4 b Hb Hb0) as ([ws Hw]&?&?). split_and!; try lia; [|clear; set_solver].
        exists ws. by apply Hkeep.
      * intros at_ c Hc. destruct (H6 at_ c Hc) as (?&(ws&Hw&?)&?&?). split_and!; try done; try lia; [|clear; set_solver].
        exists ws. split; [by apply Hkeep|done].
    + unfold fresh_chunk, words. simpl. rewrite El. split_and!; [|clear; set_solver|lia|lia|..].
      * rewrite lookup_insert_eq. eauto.
      * intros b Hb E. destruct (H4 b Hb) as ([ws Hw]&_); [lia|]. by apply (Hne _ _ Hw).
      * intros at_ c Hc E. destruct (H6 at_ c Hc) as (_&(ws&Hw&_)&_). by apply (Hne _ _ Hw).
Qed.

(** The buffer has room for a record of [units] units. *)
Record ready_view (sp : UndoSpace) (b : UndoBuffer) (bufs : list UndoBuffer) (G : Kept) (units : Z) : Prop := {
  rv_space : space_ok sp (b :: bufs) G;
  rv_chunk : 1 ≤ b_chunk b < 2 ^ 20;
  rv_room : 0 ≤ b_next b ∧ b_next b + units ≤ Z.of_nat (CHUNK_WORDS / 2) }.

Lemma half_chunk : 4096 ≤ Z.of_nat (CHUNK_WORDS / 2) ≤ 4096 ∧ (Z.to_nat 8192 ≤ CHUNK_WORDS ≤ Z.to_nat 8192)%nat.
Proof. pose proof CHUNK_WORDS_Z. rewrite half_CHUNK_WORDS. lia. Qed.

(** A buffer starts on a fresh chunk. *)
Lemma fresh_ready sp bufs G id :
  space_ok sp (mkBuffer 0 0 :: bufs) G → fresh_chunk sp (mkBuffer 0 0 :: bufs) G id →
  space_ok sp (mkBuffer id 0 :: bufs) G.
Proof.
  intros [H1 H2 H3 H4 H5 H6 H7 H8] (F1&F2&F3&F4&F5). pose proof half_chunk as [Hh _]. split; try done.
  - intros b' [->|Hin]%elem_of_cons Hne; [|by apply H4; [right|]]. cbn [b_chunk b_next]. split_and!; [done|done|lia..].
  - rewrite fmap_cons, filter_cons in H5 |- *. cbn [b_chunk] in *. rewrite decide_True by lia.
    rewrite decide_False in H5 by auto. apply NoDup_cons. split; [|done].
    intros (_&(b'&Eb&Hb)%list_elem_of_fmap)%list_elem_of_filter. by destruct (F4 b'); [right|].
  - intros at_ c b' Hc [->|Hin]%elem_of_cons Hb; [by destruct (F5 at_ c Hc)|].
    eapply H8; [done|by right|done].
Qed.

Lemma ready_ok units b sp bufs G b' sp' :
  space_ok sp (b :: bufs) G → 0 < units ≤ 4096 → 0 ≤ b_next b →
  ready units b sp = (true, (b', sp')) → ready_view sp' b' bufs G units ∧ same_rest sp sp'.
Proof.
  intros Hsp Hu Hn. pose proof half_chunk as [Hh _]. unfold ready.
  destruct ((b_chunk b =? 0) || (Z.of_nat (CHUNK_WORDS / 2) <? b_next b + units)) eqn:Efull.
  - pose proof (seal_ok b sp bufs G Hsp) as Hseal.
    assert ((seal b sp).1 = mkBuffer 0 0) as Eb by done.
    destruct (seal b sp) as [b1 sp1]. cbn [fst] in Eb. subst b1. destruct Hseal as [Hs1 Hr1].
    destruct (make sp1) as [[id|] sp2] eqn:Em; [|done]. intros [= <- <-].
    destruct (make_ok sp1 _ G id sp2 Hs1 Em) as (Hs2&Hf&Hr2). split.
    + split; [by apply fresh_ready|apply Hf|cbn [b_next]; lia].
    + destruct Hr1 as (?&?&?), Hr2 as (?&?&?). split_and!; congruence.
  - apply orb_false_iff in Efull as [E0%Z.eqb_neq Hfits%Z.ltb_ge]. intros [= <- <-].
    split; [|done]. split; [done| |lia].
    destruct (so_bufs _ _ _ Hsp b) as ([ws Hw]&_&_); [by left|done|].
    apply (so_chunks _ _ _ Hsp) in Hw. lia.
Qed.

(** Writing a record where the buffer is: it is kept from then on, at a reference of its own. *)
Lemma put_record_ok sp b bufs G c ws :
  let units := Z.of_nat ((length (words_of c) + 1) / 2) in
  let at_ := Z.lor (b_chunk b ≪ 12) (b_next b) in
  ready_view sp b bufs G units → rec_ok c → words sp (b_chunk b) = Some ws →
  G !! at_ = None ∧ 0 < at_ < 2 ^ 32
  ∧ space_ok (with_chunks (<[b_chunk b := put_slice (b_next b * 2) (words_of c) ws]> (us_chunks sp)) sp)
      (mkBuffer (b_chunk b) (b_next b + units) :: bufs) (<[at_ := c]> G).
Proof.
  intros units at_ [[H1 H2 H3 H4 H5 H6 H7 H8] Hchunk [Hn Hroom]] Hc Hw.
  pose proof half_chunk as [Hh Hcw]. pose proof (half_words c Hc) as [Hlen _].
  assert (0 < length (words_of c))%nat as Hpos by (rewrite length_words_of; unfold HEADER_WORDS; lia).
  assert (0 < units) as Hu.
  { unfold units. destruct ((length (words_of c) + 1) / 2)%nat eqn:E; [simpl in Hlen; lia|lia]. }
  destruct (ref_of (b_chunk b) (b_next b)) as [Erc Erw]; [lia|unfold fits; lia|].
  fold at_ in Erc, Erw. destruct (H2 _ _ Hw) as (Hlw&_&_).
  set (start := (Z.to_nat (b_next b) * 2)%nat). assert (b_next b * 2 = Z.of_nat start) as -> by lia.
  assert (start + length (words_of c) ≤ length ws)%nat as Hfit by (rewrite Hlw; unfold units in *; lia).
  assert (∀ at_' c', G !! at_' = Some c' → ref_chunk at_' = b_chunk b → extent at_' c' ≤ start)%nat as Hbelow.
  { intros at_' c' Hc' E. pose proof (H8 at_' c' b Hc' ltac:(by left) (eq_sym E)). lia. }
  assert (G !! at_ = None) as Hfresh.
  { destruct (G !! at_) as [c'|] eqn:E; [|done]. pose proof (Hbelow at_ c' E Erc) as Hx.
    unfold extent in Hx. rewrite Erw in Hx. rewrite length_words_of in Hx. unfold HEADER_WORDS in Hx. lia. }
  assert (0 < at_ < 2 ^ 32) as Hat.
  { unfold at_. rewrite Z.lor_comm, lor_shiftl_add by (lia || unfold fits; lia). lia. }
  split; [done|]. split; [done|]. set (ws' := put_slice (Z.of_nat start) (words_of c) ws).
  assert (∀ i, words (with_chunks (<[b_chunk b := ws']> (us_chunks sp)) sp) i
    = if decide (i = b_chunk b) then Some ws' else words sp i) as Hwords.
  { intros i. unfold words. simpl. case_decide as E; [by rewrite E, lookup_insert_eq|].
    by rewrite lookup_insert_ne. }
  split; cbn [with_chunks us_next us_free].
  - done.
  - intros i ws0. rewrite Hwords. case_decide as E; [|apply H2]. intros [= <-]. rewrite E.
    unfold ws'. rewrite length_put_slice by done. by apply H2.
  - split; [apply H3|]. intros i Hi. rewrite Hwords. case_decide; [eauto|by apply H3].
  - intros b' [->|Hin]%elem_of_cons Hne; cbn [b_chunk b_next] in *.
    + rewrite Hwords, decide_True by done. destruct (H4 b ltac:(by left) Hne) as (_&?&?).
      split_and!; [eauto|done|lia|lia].
    + rewrite Hwords. destruct (H4 b' ltac:(by right) Hne) as (?&?&?). split_and!; try done; try lia.
      case_decide; eauto.
  - done.
  - intros at_' c' [[<- <-]|[Hne Hc']]%lookup_insert_Some.
    + split; [done|]. rewrite Hwords, Erc, decide_True, Erw by done. split.
      * exists ws'. split; [done|]. by apply stands_new.
      * destruct (H4 b ltac:(by left)) as (_&?&_); [lia|done].
    + destruct (H6 at_' c' Hc') as (Hok&(ws0&Hw0&Hst)&Hrest). split; [done|]. split; [|done].
      rewrite Hwords. case_decide as E; [|by eauto]. exists ws'. split; [done|].
      rewrite E, Hw in Hw0. injection Hw0 as <-. apply stands_put; [done| |done].
      right. apply (Hbelow at_' c' Hc' E).
  - intros a1 c1 a2 c2 [[<- <-]|[Hne1 Hc1]]%lookup_insert_Some [[<- <-]|[Hne2 Hc2]]%lookup_insert_Some Hne E.
    + done.
    + right. rewrite Erw. apply (Hbelow a2 c2 Hc2). congruence.
    + left. rewrite Erw. apply (Hbelow a1 c1 Hc1). congruence.
    + by apply H7.
  - intros a1 c1 b' [[<- <-]|[Hne1 Hc1]]%lookup_insert_Some [->|Hin]%elem_of_cons E; cbn [b_chunk b_next] in *.
    + unfold extent. rewrite Erw. unfold units. lia.
    + exfalso. assert (b_chunk b ∈ filter (λ c, c ≠ 0) (b_chunk <$> bufs)) as Hx.
      { apply list_elem_of_filter. split; [lia|]. apply list_elem_of_fmap. exists b'. split; [congruence|done]. }
      rewrite fmap_cons, filter_cons, decide_True in H5 by lia. by apply NoDup_cons in H5 as [? _].
    + pose proof (H8 a1 c1 b Hc1 ltac:(by left) E). lia.
    + by apply (H8 a1 c1 b' Hc1); [right|].
Qed.

Lemma one_ok c b sp bufs G at_ b' sp' :
  space_ok sp (b :: bufs) G → rec_ok c → 0 ≤ b_next b →
  one (c_kind c) (c_ts c) (c_row c) (c_prev c) (c_images c) b sp = (Some at_, (b', sp')) →
  G !! at_ = None ∧ 0 < at_ < 2 ^ 32 ∧ space_ok sp' (b' :: bufs) (<[at_ := c]> G)
  ∧ same_rest sp sp' ∧ 0 ≤ b_next b'.
Proof.
  intros Hsp Hc Hn. unfold one. rewrite <-length_words_of.
  pose proof (half_words c Hc) as [Hlen Hle]. pose proof half_chunk as [Hh Hcw].
  set (units := Z.of_nat ((length (words_of c) + 1) / 2)).
  destruct (ready units b sp) as [[] [b1 sp1]] eqn:Er; cbn [negb]; [|done].
  destruct (ready_ok units b sp bufs G b1 sp1 Hsp) as [Hv Hr]; [|done..|].
  { unfold units. rewrite length_words_of in *. unfold HEADER_WORDS in *.
    destruct ((4 + IMAGE_WORDS * length (c_images c) + 1) / 2)%nat eqn:E; lia. }
  destruct (words sp1 (b_chunk b1)) as [ws|] eqn:Ew; [|done]. intros [= <- <- <-].
  destruct (put_record_ok sp1 b1 bufs G c ws Hv Hc Ew) as (H1&H2&H3).
  split_and!; try done; try apply H2.
  destruct Hv as [_ _ [? _]]. cbn [b_next]. unfold units. lia.
Qed.

(** A write succeeds while there are chunks to make. *)
Lemma one_some c b sp bufs G :
  space_ok sp (b :: bufs) G → rec_ok c → 0 ≤ b_next b → us_next sp < 2 ^ 20 →
  ∃ at_ b' sp', one (c_kind c) (c_ts c) (c_row c) (c_prev c) (c_images c) b sp = (Some at_, (b', sp'))
    ∧ us_next sp' ≤ us_next sp + 1.
Proof.
  intros Hsp Hc Hn Hnext. unfold one. rewrite <-length_words_of.
  pose proof (half_words c Hc) as [Hlen Hle]. pose proof half_chunk as [Hh Hcw].
  set (units := Z.of_nat ((length (words_of c) + 1) / 2)).
  assert (∃ b1 sp1, ready units b sp = (true, (b1, sp1)) ∧ us_next sp1 ≤ us_next sp + 1)
    as (b1&sp1&Er&Hn1).
  { unfold ready. case_match; [|by eexists _, _; split; [done|lia]].
    assert (us_next (seal b sp).2 = us_next sp) as Es by (unfold seal; simpl; by case_match).
    destruct (seal b sp) as [b1 sp1]. cbn [snd] in Es. unfold make.
    destruct (last (us_free sp1)) as [id|]; [by eexists _, _; split; [done|simpl; lia]|].
    destruct (Z.leb_spec (1 ≪ 20) (us_next sp1)) as [Hle1|_].
    { change (1 ≪ 20) with (2 ^ 20) in Hle1. lia. }
    eexists _, _. split; [done|]. cbn [with_chunks with_next us_next].
    pose proof (so_next _ _ _ Hsp). rewrite wrap_id by (unfold fits; lia). lia. }
  rewrite Er. cbn [negb].
  destruct (ready_ok units b sp bufs G b1 sp1 Hsp) as [Hv Hr]; [|done..|].
  { unfold units. rewrite length_words_of in *. unfold HEADER_WORDS in *.
    destruct ((4 + IMAGE_WORDS * length (c_images c) + 1) / 2)%nat eqn:E; lia. }
  destruct Hv as [Hv Hch _]. destruct (so_bufs _ _ _ Hv b1) as ([ws Hw]&_&_); [by left|lia|].
  rewrite Hw. eexists _, _, _. split; [done|]. done.
Qed.

(** ** Changing a word of a record *)

Lemma insert_put_slice (ws : list Z) i x : (i < length ws)%nat → <[i := x]> ws = put_slice (Z.of_nat i) [x] ws.
Proof.
  intros Hi. unfold put_slice. rewrite Nat2Z.id. rewrite insert_take_drop by done. simpl.
  by replace (i + 1)%nat with (S i) by lia.
Qed.

Lemma store_word_ok sp bufs G at_ c c' i x :
  space_ok sp bufs G → G !! at_ = Some c → rec_ok c' → (i < length (words_of c))%nat →
  words_of c' = <[i := x]> (words_of c) →
  space_ok (store_word at_ i x sp) bufs (<[at_ := c']> G) ∧ same_rest sp (store_word at_ i x sp)
  ∧ us_next (store_word at_ i x sp) = us_next sp.
Proof.
  intros [H1 H2 H3 H4 H5 H6 H7 H8] Hc Hc' Hi Ew.
  destruct (H6 at_ c Hc) as (_&(ws&Hw&pre&post&Eq&Hpre)&Hnf&Hat).
  unfold store_word. rewrite Hw. split; [|done].
  assert (length (words_of c') = length (words_of c)) as El by (rewrite Ew; apply length_insert).
  set (ws' := <[(ref_word at_ + i)%nat := x]> ws).
  assert (ws' = pre ++ words_of c' ++ post) as Eq'.
  { unfold ws'. rewrite Eq, <-Hpre, insert_app_r, Ew. f_equal. by rewrite insert_app_l. }
  assert (length ws' = length ws) as Elw by (unfold ws'; apply length_insert).
  assert (∀ j, words (with_chunks (<[ref_chunk at_ := ws']> (us_chunks sp)) sp) j
    = if decide (j = ref_chunk at_) then Some ws' else words sp j) as Hwords.
  { intros j. unfold words. simpl. case_decide as E; [by rewrite E, lookup_insert_eq|].
    by rewrite lookup_insert_ne. }
  assert (∀ a d, <[at_ := c']> G !! a = Some d → ∃ d0, G !! a = Some d0 ∧ extent a d = extent a d0) as Hext.
  { intros a d [[<- <-]|[Hne Hd]]%lookup_insert_Some; [|by eauto]. exists c. unfold extent. by rewrite El. }
  split; cbn [with_chunks us_next us_free].
  - done.
  - intros j ws0. rewrite Hwords. case_decide as E; [|apply H2]. intros [= <-]. rewrite E, Elw. by apply H2.
  - split; [apply H3|]. intros j Hj. rewrite Hwords. case_decide; [eauto|by apply H3].
  - intros b Hb Hne. destruct (H4 b Hb Hne) as (?&?&?). rewrite Hwords. split_and!; try done; try lia.
    case_decide; eauto.
  - done.
  - intros a d [[<- <-]|[Hne Hd]]%lookup_insert_Some.
    + split; [done|]. rewrite Hwords, decide_True by done. split; [|done].
      exists ws'. split; [done|]. by exists pre, post.
    + destruct (H6 a d Hd) as (?&(ws0&Hw0&Hst)&?). split; [done|]. split; [|done]. rewrite Hwords.
      case_decide as E; [|by eauto]. exists ws'. split; [done|]. rewrite E, Hw in Hw0. injection Hw0 as <-.
      assert (ref_word at_ + i < length ws)%nat by (rewrite Eq, !length_app; lia).
      unfold ws'. rewrite insert_put_slice by done. apply stands_put; [done| |cbn [length]; lia].
      destruct (H7 at_ c a d Hc Hd ltac:(congruence) ltac:(congruence)) as [Hx|Hx]; unfold extent in Hx; cbn [length]; lia.
  - intros a1 d1 a2 d2 Hd1 Hd2 Hne E. destruct (Hext _ _ Hd1) as (e1&He1&->), (Hext _ _ Hd2) as (e2&He2&->).
    by apply H7.
  - intros a d b Hd Hb E. destruct (Hext _ _ Hd) as (e&He&->). by apply H8.
Qed.

Definition with_ts (ts : Z) (c : Rec) : Rec := mkRec (c_prev c) (c_kind c) ts (c_row c) (c_images c).
Definition with_prev (prev : Z) (c : Rec) : Rec := mkRec prev (c_kind c) (c_ts c) (c_row c) (c_images c).

Lemma stamp_ok sp bufs G at_ c ts :
  space_ok sp bufs G → G !! at_ = Some c → u64 ts →
  let sp' := stamp (mkRecord at_ (words_of c)) ts sp in
  space_ok sp' bufs (<[at_ := with_ts ts c]> G) ∧ same_rest sp sp' ∧ us_next sp' = us_next sp.
Proof.
  intros Hsp Hc Hts. destruct (so_recs _ _ _ Hsp at_ c Hc) as ([Ho1 Ho2 Ho3 Ho4 Ho5 Ho6]&_).
  unfold stamp. cbn [r_at]. eapply store_word_ok; [done..|by split| |done].
  rewrite length_words_of. unfold HEADER_WORDS. lia.
Qed.

Lemma land_high prev kind n prev' :
  u32 prev → fits 8 kind → u16 n → u32 prev' →
  Z.lor (Z.land (head_word prev kind n) (wnot 64 (Z.ones 32))) prev' = head_word prev' kind n.
Proof.
  intros Hp Hk Hn Hp'. assert (fits 24 (kind + n * 2 ^ 8)) as Hh by (apply (fits_pair 8 16); done || lia).
  unfold head_word. set (hi := kind + n * 2 ^ 8) in *.
  assert (Z.land (prev + hi * 2 ^ 32) (wnot 64 (Z.ones 32)) = hi ≪ 32) as ->.
  { change (wnot 64 (Z.ones 32)) with (Z.ones 32 ≪ 32).
    rewrite <-(lor_shiftl_add 32) by (done || unfold fits in Hh; lia).
    apply Z.bits_inj'. intros i Hi. rewrite Z.land_spec, Z.lor_spec.
    destruct (decide (i < 32)).
    - rewrite !(Z.shiftl_spec_low _ 32 i) by lia. by rewrite andb_false_r.
    - rewrite !(Z.shiftl_spec _ 32 i) by lia. rewrite (fits_testbit 32 prev) by (done || lia). simpl.
      rewrite Z.testbit_ones_nonneg by lia. destruct (Z.ltb_spec (i - 32) 32); [by rewrite andb_true_r|].
      rewrite (fits_testbit 24 hi) by (done || lia). done. }
  rewrite Z.lor_comm. by rewrite lor_shiftl_add by (done || unfold fits in Hh; lia).
Qed.

Lemma set_prev_ok sp bufs G at_ c prev :
  space_ok sp bufs G → G !! at_ = Some c → u32 prev →
  let sp' := set_prev (mkRecord at_ (words_of c)) prev sp in
  space_ok sp' bufs (<[at_ := with_prev prev c]> G) ∧ same_rest sp sp' ∧ us_next sp' = us_next sp.
Proof.
  intros Hsp Hc Hp. destruct (so_recs _ _ _ Hsp at_ c Hc) as (Hok&_). pose proof Hok as [Ho1 Ho2 Ho3 Ho4 Ho5 Ho6].
  unfold set_prev. cbn [r_at]. assert (rec_ok (with_prev prev c)) as Hok' by by split.
  eapply store_word_ok; [done..| |].
  - rewrite length_words_of. unfold HEADER_WORDS. lia.
  - unfold r_word. cbn [r_words]. rewrite words_of_head by done. cbn [default from_option id].
    rewrite land_high by (done || apply kind_code_fits || by apply count_fits).
    unfold words_of, record_words. simpl. by rewrite undo_head_word by (done || apply zlen_nonneg).
Qed.
