(* ===== verification/Deletes.v ===== *)
(** The delete vector of a frozen stripe: [rudb-storage/src/deletes.rs].

    A slot and a count are a [Z]. [partition_point] and [binary_search_by_key] of a sorted slice are
    the length of the prefix below, which is what they answer for one. *)

From S2P Require Import Prelude Undo.
Local Open Scope Z_scope.

Definition STRIPE_ROWS : Z := 524288.
Definition PART_ROWS : Z := 8192.
Definition PART_WORDS : nat := Z.to_nat (PART_ROWS / 64).
Definition ARRAY_MAX : Z := 4096.
Definition BITMAP_WORDS : nat := Z.to_nat (STRIPE_ROWS / 64).

Lemma PART_WORDS_Z : Z.of_nat PART_WORDS = 128.
Proof. by vm_compute. Qed.
Lemma BITMAP_WORDS_Z : Z.of_nat BITMAP_WORDS = 8192.
Proof. by vm_compute. Qed.

#[global] Opaque PART_WORDS BITMAP_WORDS.

(** Why a write of a row was refused. *)
Inductive Refusal : Type :=
| Gone
| Conflict
| Freezing
| Thawed.

#[global] Instance Refusal_eq_dec : EqDecision Refusal.
Proof. solve_decision. Defined.

(** * The base *)

Inductive Base : Type :=
| BEmpty
| BArray (slots : list Z)
| BBitmap (words : list Z)
| BRuns (runs : list (Z * Z)).

Fixpoint prefix_length {A : Type} (p : A → bool) (l : list A) : nat :=
  match l with
  | [] => 0
  | x :: l => if p x then S (prefix_length p l) else 0
  end.

Fixpoint take_while {A : Type} (p : A → bool) (l : list A) : list A :=
  match l with
  | [] => []
  | x :: l => if p x then x :: take_while p l else []
  end.

(** The loop's turn: the last run grows, or a new one is pushed. *)
Definition run_push (runs : list (Z * Z)) (slot : Z) : list (Z * Z) :=
  match last runs with
  | Some (first, last_) => if last_ + 1 =? slot then removelast runs ++ [(first, slot)]
                           else runs ++ [(slot, slot)]
  | None => runs ++ [(slot, slot)]
  end.

Definition runs_of (slots : list Z) : list (Z * Z) := foldl run_push [] slots.

(** Bit [bit] of an array of words; past its end the source panics. *)
Definition set_bit (mask : list Z) (bit : Z) : list Z :=
  alter (λ word, Z.lor word (1 ≪ (bit `mod` 64))) (Z.to_nat (bit / 64)) mask.

Definition get_bit (mask : list Z) (bit : Z) : bool :=
  match mask !! Z.to_nat (bit / 64) with
  | Some word => negb (Z.land word (1 ≪ (bit `mod` 64)) =? 0)
  | None => false
  end.

Definition Base_of (slots : list Z) : Base :=
  if bool_decide (slots = []) then BEmpty else
  let runs := runs_of slots in
  let array := if zlen slots <=? ARRAY_MAX then zlen slots * 4 else 2 ^ 64 - 1 in
  let bitmap := Z.of_nat BITMAP_WORDS * 8 in
  let run := zlen runs * 8 in
  if run <? Z.min array bitmap then BRuns runs
  else if array <=? bitmap then BArray slots
  else BBitmap (foldl set_bit (replicate BITMAP_WORDS 0) slots).

Definition Base_contains (b : Base) (slot : Z) : bool :=
  match b with
  | BEmpty => false
  | BArray slots => bool_decide (slots !! prefix_length (λ s, s <? slot) slots = Some slot)
  | BBitmap words => get_bit words slot
  | BRuns runs =>
      match runs !! prefix_length (λ r : Z * Z, r.2 <? slot) runs with
      | Some (first, _) => first <=? slot
      | None => false
      end
  end.

(** The loop that takes the lowest set bit of a word until none is left. *)
Fixpoint bits_loop (fuel : nat) (at_ bits : Z) : list Z :=
  match fuel with
  | O => []
  | S fuel =>
      if bits =? 0 then [] else
      (at_ * 64 + Z.log2 (Z.land bits (- bits))) :: bits_loop fuel at_ (Z.land bits (bits - 1))
  end.

Fixpoint count_ones (n : nat) (word : Z) : Z :=
  match n with
  | O => 0
  | S n => (if Z.testbit word (Z.of_nat n) then 1 else 0) + count_ones n word
  end.

Definition range (first last_ : Z) : list Z :=
  (λ i, first + Z.of_nat i) <$> seq 0 (Z.to_nat (last_ + 1 - first)).

Definition Base_slots (b : Base) : list Z :=
  match b with
  | BEmpty => []
  | BArray slots => slots
  | BBitmap words => concat (imap (λ at_ word, bits_loop 64 (Z.of_nat at_) word) words)
  | BRuns runs => runs ≫= λ r, range r.1 r.2
  end.

Definition Base_len (b : Base) : Z :=
  match b with
  | BEmpty => 0
  | BArray slots => zlen slots
  | BBitmap words => foldr (λ word n, count_ones 64 word + n) 0 words
  | BRuns runs => foldr (λ r n, (r.2 - r.1) + 1 + n) 0 runs
  end.

Definition Base_is_empty (b : Base) : bool := Base_len b =? 0.

Definition Base_mark (b : Base) (part : Z) (mask : list Z) : bool * list Z :=
  let start := part * PART_ROWS in
  let end_ := start + PART_ROWS in
  match b with
  | BEmpty => (false, mask)
  | BArray slots =>
      let from := prefix_length (λ s, s <? start) slots in
      let marked := take_while (λ s, s <? end_) (drop from slots) in
      (negb (bool_decide (marked = [])), foldl (λ mask s, set_bit mask (s - start)) mask marked)
  | BBitmap words =>
      let first := Z.to_nat (start / 64) in
      let words := take PART_WORDS (drop first words) in
      (negb (foldr Z.lor 0 words =? 0), zip_with Z.lor mask words)
  | BRuns runs =>
      let from := prefix_length (λ r : Z * Z, r.2 <? start) runs in
      let marked := take_while (λ r : Z * Z, r.1 <? end_) (drop from runs) in
      (negb (bool_decide (marked = [])),
       foldl (λ mask r, foldl (λ mask s, set_bit mask (s - start)) mask
                          (range (Z.max r.1 start) (Z.min r.2 (end_ - 1)))) mask marked)
  end.

Definition Base_words (b : Base) : Z * Z * list Z :=
  match b with
  | BEmpty => (0, 0, [])
  | BArray slots => (1, zlen slots, slots)
  | BBitmap words => (2, zlen words, words ≫= λ word, [wrap 32 word; wrap 32 (word ≫ 32)])
  | BRuns runs => (3, zlen runs, runs ≫= λ r, [r.1; r.2])
  end.

Definition Base_encode (b : Base) : list Z :=
  let '(kind, count, words) := Base_words b in
  [kind; 0; 0; 0] ++ le_bytes 4 (wrap 32 count) ++ (words ≫= le_bytes 4).

Fixpoint chunks_exact {A : Type} (n fuel : nat) (l : list A) : list (list A) :=
  match fuel with
  | O => []
  | S fuel => if (n <=? length l)%nat then take n l :: chunks_exact n fuel (drop n l) else []
  end.

Fixpoint windows2 {A : Type} (p : A → A → bool) (l : list A) : bool :=
  match l with
  | x :: ((y :: _) as rest) => p x y && windows2 p rest
  | _ => true
  end.

Definition pair_of (l : list Z) : Z * Z := (default 0 (l !! 0%nat), default 0 (l !! 1%nat)).

Definition bad {A : Type} (why : string) : Result A :=
  Err (Internal ("a delete vector does not read back: " +:+ why)).

(** The match on the first byte. *)
Definition decode_words (kind count : Z) (words : list Z) : Result Base :=
  let inside slot := slot <? STRIPE_ROWS in
  if (kind =? 0) && (count =? 0) && bool_decide (words = []) then Ok BEmpty
  else if (kind =? 1) && (zlen words =? count) && (count <=? ARRAY_MAX) && windows2 Z.ltb words
          && forallb inside words then Ok (BArray words)
  else if (kind =? 2) && (count =? Z.of_nat BITMAP_WORDS) && (zlen words =? 2 * count) then
    Ok (BBitmap ((λ l, let '(lo, hi) := pair_of l in Z.lor lo (hi ≪ 32))
                 <$> chunks_exact 2 (length words) words))
  else if (kind =? 3) && (zlen words =? 2 * count) then
    let runs := pair_of <$> chunks_exact 2 (length words) words in
    if forallb (λ r, (r.1 <=? r.2) && inside r.2) runs && windows2 (λ r r', r.2 + 1 <? r'.1) runs
    then Ok (BRuns runs) else bad "the runs overlap or touch"
  else bad "the kind or the count is wrong".

Definition Base_decode (bytes : list Z) : Result Base :=
  if (zlen bytes <? 8) || negb (bool_decide (slice 1 4 bytes = [0; 0; 0])) then bad "the header is damaged" else
  let count := le_val (slice 4 8 bytes) in
  let words := le_val <$> chunks_exact 4 (length bytes) (drop 8 bytes) in
  if negb ((zlen bytes - 8) `mod` 4 =? 0) then bad "the length is not whole words" else
  decode_words (byte_at bytes 0) count words.

(** * The vector *)

Record DeleteVector : Type := mkDeletes {
  dv_base : Base;
  dv_recent : list (Z * Z) }.

Definition DeleteVector_new : DeleteVector := mkDeletes BEmpty [].
Definition from_base (base : Base) : DeleteVector := mkDeletes base [].

Definition dv_is_empty (d : DeleteVector) : bool :=
  match dv_base d with BEmpty => bool_decide (dv_recent d = []) | _ => false end.

(** Whether a delete stamped [ts] is visible to a reader at [snapshot] running as [txn]. *)
Definition visible_ts (ts snapshot txn : Z) : bool :=
  if negb (Z.land ts UNCOMMITTED =? 0) then ts =? Z.lor txn UNCOMMITTED else ts <=? snapshot.

(** Where [slot] is in the list, or where it would go. *)
Definition find_slot (slot : Z) (recent : list (Z * Z)) : nat * option Z :=
  let at_ := prefix_length (λ e : Z * Z, e.1 <? slot) recent in
  (at_, match recent !! at_ with
        | Some (s, ts) => if s =? slot then Some ts else None
        | None => None
        end).

Definition is_deleted (d : DeleteVector) (slot snapshot txn : Z) : bool :=
  Base_contains (dv_base d) slot
  || match (find_slot slot (dv_recent d)).2 with Some ts => visible_ts ts snapshot txn | None => false end.

(** [None] where the source panics. *)
Definition dv_delete (slot snapshot txn : Z) (d : DeleteVector)
    : option (option Refusal * DeleteVector) :=
  if negb (slot <? STRIPE_ROWS) then None else
  if negb (Z.land txn UNCOMMITTED =? 0) then None else
  if Base_contains (dv_base d) slot then Some (Some Gone, d) else
  match find_slot slot (dv_recent d) with
  | (_, Some ts) => Some (Some (if visible_ts ts snapshot txn then Gone else Conflict), d)
  | (at_, None) =>
      Some (None, mkDeletes (dv_base d)
                    (take at_ (dv_recent d) ++ (slot, Z.lor txn UNCOMMITTED) :: drop at_ (dv_recent d)))
  end.

Definition dv_commit (txn ts : Z) (d : DeleteVector) : option (Z * DeleteVector) :=
  if negb (Z.land ts UNCOMMITTED =? 0) then None else
  let mine e := e.2 =? Z.lor txn UNCOMMITTED in
  Some (zlen (filter (λ e : Z * Z, mine e = true) (dv_recent d)),
        mkDeletes (dv_base d) ((λ e : Z * Z, if mine e then (e.1, ts) else e) <$> dv_recent d)).

Definition dv_abort (txn : Z) (d : DeleteVector) : Z * DeleteVector :=
  let kept := filter (λ e : Z * Z, e.2 ≠ Z.lor txn UNCOMMITTED) (dv_recent d) in
  (zlen (dv_recent d) - zlen kept, mkDeletes (dv_base d) kept).

Definition dv_mask (d : DeleteVector) (part snapshot txn : Z) (mask : list Z) : option (bool * list Z) :=
  if negb (part <? STRIPE_ROWS / PART_ROWS) then None else
  let '(any, mask) := Base_mark (dv_base d) part mask in
  let start := part * PART_ROWS in
  let from := prefix_length (λ e : Z * Z, e.1 <? start) (dv_recent d) in
  let seen := filter (λ e : Z * Z, visible_ts e.2 snapshot txn = true)
                (take_while (λ e : Z * Z, e.1 <? start + PART_ROWS) (drop from (dv_recent d))) in
  Some (any || negb (bool_decide (seen = [])),
        foldl (λ mask (e : Z * Z), set_bit mask (e.1 - start)) mask seen).

Definition set_base (slots : list Z) (d : DeleteVector) : option DeleteVector :=
  match dv_base d with
  | BEmpty => Some (mkDeletes (Base_of slots) (dv_recent d))
  | _ => None
  end.

(** The loop that merges the two sorted lists. *)
Fixpoint merge_slots (left_ : list Z) : list Z → list Z :=
  fix go right_ :=
    match left_, right_ with
    | a :: left', b :: right' => if a <=? b then a :: merge_slots left' right_ else b :: go right'
    | [], b :: right' => b :: go right'
    | a :: left', [] => a :: merge_slots left' []
    | [], [] => []
    end.

Definition fold_at (horizon : Z) (d : DeleteVector) : Z * DeleteVector :=
  let below e := (Z.land e.2 UNCOMMITTED =? 0) && (e.2 <=? horizon) in
  let folded := (λ e : Z * Z, e.1) <$> filter (λ e : Z * Z, below e = true) (dv_recent d) in
  if bool_decide (folded = []) then (0, d) else
  let recent := filter (λ e : Z * Z, below e = false) (dv_recent d) in
  (zlen folded, mkDeletes (Base_of (merge_slots (Base_slots (dv_base d)) folded)) recent).
