(* ===== verification/Hot.v ===== *)
(** The hot stripe, the rows that are written in place: [rudb-storage/src/hot.rs].

    A [Parts] is the parts allocated, each the cells stored to since it was; a cell no one stored to
    holds what the part was filled with. The two halves of a 16-byte cell are one value. The space of
    undo records the stripe shares is passed beside it. An operation runs to its end here; what a
    compare-and-swap tries again when it lost a race is tried once. A writer that finds a row held
    does not wait ([Wait::NEVER]), so a lock has no waiters to be handed to.

    The outer [option] of an operation is a panic: a part never allocated, a column that does not
    exist, an undo space used up, or a chain that is longer than there are records. *)

From S2P Require Import Prelude Undo Deletes.
Local Open Scope Z_scope.

Definition LIVE : Z := 2 ^ 64 - 1.
Definition BEFORE_ALL : Z := 1.
Definition OPEN : Z := 0.
Definition SEALED : Z := 1.
Definition FREEZING : Z := 2.
Definition FROZEN : Z := 3.
Definition HELD : Z := 1 ≪ 63.
Definition WAITERS : Z := 1 ≪ 62.
Definition DELTA : Z := 1 ≪ 61.

Inductive Width : Type := One | Two | Four | Eight | Sixteen | Text.

Definition Width_bytes (w : Width) : Z :=
  match w with One => 1 | Two => 2 | Four => 4 | Eight => 8 | Sixteen | Text => 16 end.

(** * Parts *)

Abbreviation Parts := (gmap Z (gmap Z Z)).

Definition place (slot : Z) : Z * Z := (slot / PART_ROWS, slot `mod` PART_ROWS).

Definition parts_get (fill : Z) (ps : Parts) (part at_ : Z) : option Z :=
  (λ cells : gmap Z Z, default fill (cells !! at_)) <$> ps !! part.

Definition get_or (ps : Parts) (part : Z) : Parts :=
  match ps !! part with Some _ => ps | None => <[part := ∅]> ps end.

(** A store to a cell of a part that is allocated. *)
Definition parts_set (ps : Parts) (part at_ x : Z) : option Parts :=
  cells ← ps !! part; Some (<[part := <[at_ := x]> cells]> ps).

(** * The stripe *)

Record Column : Type := mkColumn {
  col_width : Width;
  col_cells : Parts;
  col_valid : Parts }.

Record HotStripe : Type := mkStripe {
  st_id : Z;
  st_table : Z;
  st_reserved : Z;
  st_columns : list Column;
  st_created : Parts;
  st_deleted : Parts;
  st_lock : Parts;
  st_undo : Parts;
  st_state : Z;
  st_changed : Z;
  st_pending : option DeleteVector;
  st_thawed : bool;
  st_writes : Z;
  st_stamps : gmap (Z * Z) Z;
  st_erased : gmap Z Z }.

Definition with_undo (id : Z) (widths : list Width) : HotStripe :=
  mkStripe id 0 0 ((λ w, mkColumn w ∅ ∅) <$> widths) ∅ ∅ ∅ ∅ OPEN 0 None false 0 ∅ ∅.

Definition in_table (table : Z) (s : HotStripe) : HotStripe :=
  mkStripe (st_id s) table (st_reserved s) (st_columns s) (st_created s) (st_deleted s) (st_lock s)
    (st_undo s) (st_state s) (st_changed s) (st_pending s) (st_thawed s) (st_writes s) (st_stamps s) (st_erased s).
Definition with_reserved (n : Z) (s : HotStripe) : HotStripe :=
  mkStripe (st_id s) (st_table s) n (st_columns s) (st_created s) (st_deleted s) (st_lock s)
    (st_undo s) (st_state s) (st_changed s) (st_pending s) (st_thawed s) (st_writes s) (st_stamps s) (st_erased s).
Definition with_columns (cs : list Column) (s : HotStripe) : HotStripe :=
  mkStripe (st_id s) (st_table s) (st_reserved s) cs (st_created s) (st_deleted s) (st_lock s)
    (st_undo s) (st_state s) (st_changed s) (st_pending s) (st_thawed s) (st_writes s) (st_stamps s) (st_erased s).
Definition with_created (p : Parts) (s : HotStripe) : HotStripe :=
  mkStripe (st_id s) (st_table s) (st_reserved s) (st_columns s) p (st_deleted s) (st_lock s)
    (st_undo s) (st_state s) (st_changed s) (st_pending s) (st_thawed s) (st_writes s) (st_stamps s) (st_erased s).
Definition with_deleted (p : Parts) (s : HotStripe) : HotStripe :=
  mkStripe (st_id s) (st_table s) (st_reserved s) (st_columns s) (st_created s) p (st_lock s)
    (st_undo s) (st_state s) (st_changed s) (st_pending s) (st_thawed s) (st_writes s) (st_stamps s) (st_erased s).
Definition with_lock (p : Parts) (s : HotStripe) : HotStripe :=
  mkStripe (st_id s) (st_table s) (st_reserved s) (st_columns s) (st_created s) (st_deleted s) p
    (st_undo s) (st_state s) (st_changed s) (st_pending s) (st_thawed s) (st_writes s) (st_stamps s) (st_erased s).
Definition with_heads (p : Parts) (s : HotStripe) : HotStripe :=
  mkStripe (st_id s) (st_table s) (st_reserved s) (st_columns s) (st_created s) (st_deleted s) (st_lock s)
    p (st_state s) (st_changed s) (st_pending s) (st_thawed s) (st_writes s) (st_stamps s) (st_erased s).
Definition with_state (n : Z) (s : HotStripe) : HotStripe :=
  mkStripe (st_id s) (st_table s) (st_reserved s) (st_columns s) (st_created s) (st_deleted s) (st_lock s)
    (st_undo s) n (st_changed s) (st_pending s) (st_thawed s) (st_writes s) (st_stamps s) (st_erased s).
Definition with_changed (n : Z) (s : HotStripe) : HotStripe :=
  mkStripe (st_id s) (st_table s) (st_reserved s) (st_columns s) (st_created s) (st_deleted s) (st_lock s)
    (st_undo s) (st_state s) n (st_pending s) (st_thawed s) (st_writes s) (st_stamps s) (st_erased s).
Definition with_pending (d : option DeleteVector) (s : HotStripe) : HotStripe :=
  mkStripe (st_id s) (st_table s) (st_reserved s) (st_columns s) (st_created s) (st_deleted s) (st_lock s)
    (st_undo s) (st_state s) (st_changed s) d (st_thawed s) (st_writes s) (st_stamps s) (st_erased s).
Definition with_thawed (b : bool) (s : HotStripe) : HotStripe :=
  mkStripe (st_id s) (st_table s) (st_reserved s) (st_columns s) (st_created s) (st_deleted s) (st_lock s)
    (st_undo s) (st_state s) (st_changed s) (st_pending s) b (st_writes s) (st_stamps s) (st_erased s).
Definition with_writes (n : Z) (s : HotStripe) : HotStripe :=
  mkStripe (st_id s) (st_table s) (st_reserved s) (st_columns s) (st_created s) (st_deleted s) (st_lock s)
    (st_undo s) (st_state s) (st_changed s) (st_pending s) (st_thawed s) n (st_stamps s) (st_erased s).
Definition with_stamps (m : gmap (Z * Z) Z) (s : HotStripe) : HotStripe :=
  mkStripe (st_id s) (st_table s) (st_reserved s) (st_columns s) (st_created s) (st_deleted s) (st_lock s)
    (st_undo s) (st_state s) (st_changed s) (st_pending s) (st_thawed s) (st_writes s) m (st_erased s).
Definition with_erased (m : gmap Z Z) (s : HotStripe) : HotStripe :=
  mkStripe (st_id s) (st_table s) (st_reserved s) (st_columns s) (st_created s) (st_deleted s) (st_lock s)
    (st_undo s) (st_state s) (st_changed s) (st_pending s) (st_thawed s) (st_writes s) (st_stamps s) m.

(** A field of a row, with what a part never allocated reads as. *)
Definition created_at (s : HotStripe) (slot : Z) : Z :=
  let '(part, at_) := place slot in default 0 (parts_get 0 (st_created s) part at_).
Definition deleted_at (s : HotStripe) (slot : Z) : Z :=
  let '(part, at_) := place slot in default LIVE (parts_get LIVE (st_deleted s) part at_).
Definition lock_at (s : HotStripe) (slot : Z) : Z :=
  let '(part, at_) := place slot in default 0 (parts_get 0 (st_lock s) part at_).
Definition Hot_head (s : HotStripe) (slot : Z) : Z :=
  let '(part, at_) := place slot in default 0 (parts_get 0 (st_undo s) part at_).

Definition reserved (s : HotStripe) : Z := Z.min (st_reserved s) STRIPE_ROWS.
Definition is_full (s : HotStripe) : bool :=
  (STRIPE_ROWS <=? st_reserved s) || negb (st_state s =? OPEN).
Definition Hot_seal (s : HotStripe) : bool * HotStripe :=
  if st_state s =? OPEN then (true, with_state SEALED s) else (false, s).
Definition is_freezing (s : HotStripe) : bool := FREEZING <=? st_state s.

(** * Slots and values *)

Definition allocate (part : Z) (s : HotStripe) : HotStripe :=
  with_created (get_or (st_created s) part)
    (with_columns ((λ c, mkColumn (col_width c) (get_or (col_cells c) part) (get_or (col_valid c) part))
                   <$> st_columns s) s).

Definition lease (want : Z) (s : HotStripe) : option (Z * Z) * HotStripe :=
  if negb (st_state s =? OPEN) then (None, s) else
  let first := st_reserved s in
  let s := with_reserved (wrap 32 (first + want)) s in
  if STRIPE_ROWS <=? first then (None, s) else
  let end_ := Z.min (Z.min (first + want) (2 ^ 32 - 1)) STRIPE_ROWS in
  (Some (first, end_), foldl (λ s part, allocate part s) s (range (first / PART_ROWS) ((end_ - 1) / PART_ROWS))).

Definition Hot_write (slot column : Z) (value : option Z) (s : HotStripe) : option HotStripe :=
  let '(part, at_) := place slot in
  c ← st_columns s !! Z.to_nat column;
  word ← parts_get 0 (col_valid c) part (at_ / 64);
  let bit := 1 ≪ (at_ `mod` 64) in
  cells ← parts_set (col_cells c) part at_ (wrap (8 * Width_bytes (col_width c)) (default 0 value));
  valid ← parts_set (col_valid c) part (at_ / 64)
            (if value then Z.lor word bit else Z.land word (wnot 64 bit));
  Some (with_columns (<[Z.to_nat column := mkColumn (col_width c) cells valid]> (st_columns s)) s).

(** The value of a column now, whoever may see it. *)
Definition Hot_read (s : HotStripe) (slot column : Z) : option (option Z) :=
  let '(part, at_) := place slot in
  c ← st_columns s !! Z.to_nat column;
  Some (match parts_get 0 (col_valid c) part (at_ / 64) with
        | None => None
        | Some word =>
            if negb (Z.land word (1 ≪ (at_ `mod` 64)) =? 0)
            then Some (default 0 (parts_get 0 (col_cells c) part at_)) else None
        end).

(** * Chains *)

(** More than the references there are. *)
Definition chain_fuel (sp : UndoSpace) : nat := S (size (us_chunks sp) * (CHUNK_WORDS / 2)).

Definition apply_image (columns : list Z) (out : list (option Z)) (i : Image) : list (option Z) :=
  match list_find (λ c, c = i_column i) columns with
  | Some (at_, _) => <[at_ := i_value i]> out
  | None => out
  end.

(** Whether a reader at [snapshot] running as [me] sees a change stamped [ts]. *)
Definition stops (ts snapshot me : Z) : bool :=
  (ts =? me) || ((Z.land ts UNCOMMITTED =? 0) && (ts <=? snapshot)).

Fixpoint apply_spilled (older : list SpilledRecord) (columns : list Z) (snapshot : Z) (out : list (option Z))
    : list (option Z) :=
  match older with
  | [] => out
  | o :: older =>
      if (Z.land (sr_ts o) UNCOMMITTED =? 0) && (sr_ts o <=? snapshot) then out
      else apply_spilled older columns snapshot (foldl (apply_image columns) out (sr_images o))
  end.

Fixpoint undo_into (fuel : nat) (sp : UndoSpace) (next : Z) (columns : list Z) (snapshot me : Z)
    (out : list (option Z)) : option (list (option Z)) :=
  match record sp next with
  | None => Some out
  | Some r =>
      match fuel with
      | O => None
      | S fuel =>
          if stops (r_ts r) snapshot me then Some out
          else if decide (r_kind r = Spilled) then
            older ← unspill sp r; Some (apply_spilled older columns snapshot out)
          else undo_into fuel sp (r_prev r) columns snapshot me (foldl (apply_image columns) out (r_images r))
      end
  end.

Definition read_as_of (s : HotStripe) (sp : UndoSpace) (slot : Z) (columns : list Z) (snapshot txn : Z)
    : option (list (option Z)) :=
  out ← mapM (λ column, Hot_read s slot column) columns;
  let '(part, at_) := place slot in
  match parts_get 0 (st_undo s) part at_ with
  | None => Some out
  | Some head => undo_into (chain_fuel sp) sp head columns snapshot (Z.lor txn UNCOMMITTED) out
  end.

Fixpoint newest_change_loop (fuel : nat) (sp : UndoSpace) (next : Z) : option Z :=
  match record sp next with
  | None => Some 0
  | Some r =>
      match fuel with
      | O => None
      | S fuel => if negb (r_ts r =? ABORTED) then Some (r_ts r)
                  else newest_change_loop fuel sp (r_prev r)
      end
  end.

Definition newest_change (s : HotStripe) (sp : UndoSpace) (slot : Z) : option Z :=
  newest_change_loop (chain_fuel sp) sp (Hot_head s slot).

(** The record is written and is the row's newest from then on. *)
Definition push_undo (slot : Z) (kind : UndoKind) (me : Z) (images : list Image)
    (s : HotStripe) (b : UndoBuffer) (sp : UndoSpace) : option (HotStripe * (UndoBuffer * UndoSpace)) :=
  let '(part, at_) := place slot in
  let heads := get_or (st_undo s) part in
  let s := with_heads heads s in
  prev ← parts_get 0 heads part at_;
  let row := mkRow (st_table s) (Z.lor (st_id s ≪ 32) slot) in
  let '(at', (b, sp)) := UndoBuffer_write kind me row prev images b sp in
  at' ← at';
  heads ← parts_set heads part at_ at';
  Some (with_heads heads s, (b, sp)).

(** Points the record above [record_], or the row's head, at [to]. *)
Fixpoint relink_loop (fuel : nat) (sp : UndoSpace) (next record_ to : Z) : option (bool * UndoSpace) :=
  match record sp next with
  | None => Some (false, sp)
  | Some newer =>
      match fuel with
      | O => None
      | S fuel => if r_prev newer =? record_ then Some (true, set_prev newer to sp)
                  else relink_loop fuel sp (r_prev newer) record_ to
      end
  end.

Definition relink (slot record_ to : Z) (s : HotStripe) (sp : UndoSpace)
    : option (bool * (HotStripe * UndoSpace)) :=
  let '(part, at_) := place slot in
  match parts_get 0 (st_undo s) part at_ with
  | None => Some (false, (s, sp))
  | Some next =>
      if next =? record_ then
        heads ← parts_set (st_undo s) part at_ to; Some (true, (with_heads heads s, sp))
      else
        '(found, sp) ← relink_loop (chain_fuel sp) sp next record_ to; Some (found, (s, sp))
  end.

Definition unlink (slot record_ : Z) (older : bool) (s : HotStripe) (sp : UndoSpace)
    : option (HotStripe * UndoSpace) :=
  match record sp record_ with
  | None => Some (s, sp)
  | Some r => '(_, (s, sp)) ← relink slot record_ (if older then 0 else r_prev r) s sp; Some (s, sp)
  end.

Definition replace (slot record_ with_ : Z) (s : HotStripe) (sp : UndoSpace)
    : option (bool * (HotStripe * UndoSpace)) := relink slot record_ with_ s sp.

Fixpoint chain_loop (fuel : nat) (sp : UndoSpace) (next : Z) : option (list Z) :=
  match record sp next with
  | None => Some []
  | Some r =>
      match fuel with
      | O => None
      | S fuel => chain ← chain_loop fuel sp (r_prev r); Some (next :: chain)
      end
  end.

(** Down the chain from its oldest record, each asked with the one above it. *)
Fixpoint prune_loop (spare : UndoSpace → Z → bool) (above : list (Z * Z)) (taken : list Z) (sp : UndoSpace)
    : list Z * UndoSpace :=
  match above with
  | [] => (taken, sp)
  | (newer, at_) :: above =>
      if negb (spare sp at_) then prune_loop spare above taken sp else
      match record sp at_, record sp newer with
      | Some r, Some n => prune_loop spare above (taken ++ [at_]) (set_prev n (r_prev r) sp)
      | _, _ => prune_loop spare above taken sp
      end
  end.

Definition prune (slot : Z) (spare : UndoSpace → Z → bool) (s : HotStripe) (sp : UndoSpace)
    : option (list Z * UndoSpace) :=
  let '(part, at_) := place slot in
  match parts_get 0 (st_undo s) part at_ with
  | None => Some ([], sp)
  | Some next =>
      chain ← chain_loop (chain_fuel sp) sp next;
      Some (prune_loop spare (reverse (zip chain (tail chain))) [] sp)
  end.

(** * Row locks *)

Definition holder (word : Z) : Z := Z.land word (wnot 64 (Z.lor WAITERS DELTA)).

Definition Hot_holds (s : HotStripe) (slot me : Z) : bool :=
  let '(part, at_) := place slot in
  match parts_get 0 (st_lock s) part at_ with
  | Some word => holder word =? me
  | None => false
  end.

Definition release (slot : Z) (s : HotStripe) : HotStripe :=
  let '(part, at_) := place slot in
  match parts_get 0 (st_lock s) part at_ with
  | Some word =>
      match parts_set (st_lock s) part at_ (Z.land word DELTA) with
      | Some locks => with_lock locks s
      | None => s
      end
  | None => s
  end.

(** What a claim checks once it has the row's lock. *)
Definition claim_checks (slot snapshot : Z) (s : HotStripe) (sp : UndoSpace)
    : option (option Refusal * HotStripe) :=
  let deleted := deleted_at s slot in
  refusal ←
    (if FREEZING <=? st_state s then Some (Some Freezing)
     else if negb (deleted =? LIVE) then Some (Some (if deleted <=? snapshot then Gone else Conflict))
     else newest ← newest_change s sp slot;
          Some (if snapshot <? newest then Some Conflict else None));
  Some (refusal, match refusal with Some _ => release slot s | None => s end).

Definition claim (slot snapshot me : Z) (s : HotStripe) (sp : UndoSpace)
    : option (option Refusal * HotStripe) :=
  let '(part, at_) := place slot in
  let created := created_at s slot in
  if (snapshot <=? wrap 64 (created - 1)) && negb (created =? me) then Some (Some Gone, s) else
  let locks := get_or (st_lock s) part in
  let s := with_lock locks s in
  word ← parts_get 0 locks part at_;
  if negb (Z.land word HELD =? 0) && negb (holder word =? me) then Some (Some Conflict, s)
  else if negb (Z.land word HELD =? 0) then
    let '(part, at_) := place slot in
    Some (match parts_get LIVE (st_deleted s) part at_ with
          | Some d => if d =? me then Some Gone else None
          | None => None
          end, s)
  else
    locks ← parts_set locks part at_ (Z.lor me (Z.land word (Z.lor WAITERS DELTA)));
    claim_checks slot snapshot (with_lock locks s) sp.

(** * Inserts *)

Definition restamp (parts : Parts) (slots : list Z) (from to : Z) : Parts :=
  foldl (λ ps slot,
    let '(part, at_) := place slot in
    match parts_get 0 ps part at_ with
    | Some x => if x =? from then default ps (parts_set ps part at_ to) else ps
    | None => ps
    end) parts slots.

Definition Hot_stamped (ts : Z) (s : HotStripe) : HotStripe := with_changed (Z.max (st_changed s) ts) s.

Fixpoint stamp_created (slots : list Z) (x : Z) (ps : Parts) : option Parts :=
  match slots with
  | [] => Some ps
  | slot :: slots =>
      let '(part, at_) := place slot in
      ps ← parts_set ps part at_ x; stamp_created slots x ps
  end.

Definition Hot_insert (slots : list Z) (txn : Z) (s : HotStripe) : option (bool * HotStripe) :=
  let me := Z.lor txn UNCOMMITTED in
  created ← stamp_created slots me (st_created s);
  let s := with_created created s in
  if st_state s <? FREEZING then Some (true, s)
  else Some (false, with_created (restamp (st_created s) slots me 0) s).

Definition fetch_max {K} `{Countable K} (k : K) (x : Z) (m : gmap K Z) : gmap K Z :=
  <[k := Z.max (default 0 (m !! k)) x]> m.

Definition Hot_commit_insert (slots : list Z) (txn ts : Z) (s : HotStripe) : HotStripe :=
  let parts := match slots, last slots with
               | first :: _, Some last_ => range (place first).1 (place last_).1
               | _, _ => []
               end in
  let cols := seq 0 (length (st_columns s)) in
  let stamps := foldl (λ m part, foldl (λ m column, fetch_max (Z.of_nat column, part) ts m) m cols)
                  (st_stamps s) parts in
  let s := with_stamps stamps s in
  Hot_stamped ts (with_created (restamp (st_created s) slots (Z.lor txn UNCOMMITTED) ts) s).

Definition Hot_abort_insert (slots : list Z) (txn : Z) (s : HotStripe) : HotStripe :=
  with_created (restamp (st_created s) slots (Z.lor txn UNCOMMITTED) 0) s.

(** * Writes in place *)

Fixpoint write_all (slot : Z) (changes : list (Z * option Z)) (s : HotStripe) : option HotStripe :=
  match changes with
  | [] => Some s
  | (column, value) :: changes => s ← Hot_write slot column value s; write_all slot changes s
  end.

Definition Hot_update (slot : Z) (changes : list (Z * option Z)) (snapshot txn : Z)
    (s : HotStripe) (b : UndoBuffer) (sp : UndoSpace)
    : option (option Refusal * (HotStripe * (UndoBuffer * UndoSpace))) :=
  let me := Z.lor txn UNCOMMITTED in
  '(refusal, s) ← claim slot snapshot me s sp;
  match refusal with
  | Some r => Some (Some r, (s, (b, sp)))
  | None =>
      images ← mapM (λ change : Z * option Z,
                 value ← Hot_read s slot change.1; Some (mkImage (wrap 16 change.1) value)) changes;
      '(s, (b, sp)) ← push_undo slot Update me images s b sp;
      s ← write_all slot changes s;
      Some (None, (s, (b, sp)))
  end.

(** The delete vector the frozen stripe keeps, made when the freeze begins. *)
Definition pending (s : HotStripe) : DeleteVector * HotStripe :=
  let d := default DeleteVector_new (st_pending s) in (d, with_pending (Some d) s).

Definition delete_pending (slot snapshot txn : Z) (s : HotStripe) (sp : UndoSpace)
    : option (option Refusal * HotStripe) :=
  let me := Z.lor txn UNCOMMITTED in
  let created := created_at s slot in
  if (snapshot <=? wrap 64 (created - 1)) && negb (created =? me) then Some (Some Gone, s) else
  let word := lock_at s slot in
  let mine := negb (Z.land word HELD =? 0) && (holder word =? me) in
  if negb (Z.land word HELD =? 0) && negb mine then Some (Some Conflict, s) else
  let deleted := deleted_at s slot in
  if (deleted =? me) || (negb (deleted =? LIVE) && (deleted <=? snapshot)) then Some (Some Gone, s) else
  newest ← (if negb (deleted =? LIVE) || mine then Some 0 else newest_change s sp slot);
  if negb (deleted =? LIVE) || (negb mine && (snapshot <? newest)) then Some (Some Conflict, s) else
  let '(d, s) := pending s in
  '(refusal, d) ← dv_delete slot snapshot txn d;
  Some (refusal, with_pending (Some d) s).

Definition Hot_delete (slot snapshot txn : Z) (s : HotStripe) (b : UndoBuffer) (sp : UndoSpace)
    : option (option Refusal * (HotStripe * (UndoBuffer * UndoSpace))) :=
  let me := Z.lor txn UNCOMMITTED in
  '(refusal, s) ← claim slot snapshot me s sp;
  match refusal with
  | Some Freezing => '(refusal, s) ← delete_pending slot snapshot txn s sp; Some (refusal, (s, (b, sp)))
  | Some r => Some (Some r, (s, (b, sp)))
  | None =>
      let '(part, at_) := place slot in
      let s := with_deleted (get_or (st_deleted s) part) s in
      '(s, (b, sp)) ← push_undo slot Delete me [] s b sp;
      deleted ← parts_set (st_deleted s) part at_ me;
      Some (None, (with_deleted deleted s, (b, sp)))
  end.

(** Runs [f] over the undo records of the row that [me] wrote, newest first. *)
Fixpoint walk_own (fuel : nat) (me : Z) (f : UndoRecord → HotStripe * UndoSpace → option (HotStripe * UndoSpace))
    (next : Z) (x : HotStripe * UndoSpace) : option (HotStripe * UndoSpace) :=
  match record x.2 next with
  | None => Some x
  | Some r =>
      match fuel with
      | O => None
      | S fuel =>
          if negb (r_ts r =? me) then Some x else
          x ← f r x;
          next ← r_prev <$> record x.2 next;
          walk_own fuel me f next x
      end
  end.

(** A compare-and-swap of the row's [deleted] stamp, and whether it was [from]. *)
Definition swap_deleted (slot from to : Z) (s : HotStripe) : bool * HotStripe :=
  let '(part, at_) := place slot in
  match parts_get LIVE (st_deleted s) part at_ with
  | Some x =>
      if x =? from then
        match parts_set (st_deleted s) part at_ to with
        | Some deleted => (true, with_deleted deleted s)
        | None => (false, s)
        end
      else (false, s)
  | None => (false, s)
  end.

Definition Hot_commit_write (slot txn ts : Z) (s : HotStripe) (sp : UndoSpace)
    : option (HotStripe * UndoSpace) :=
  let me := Z.lor txn UNCOMMITTED in
  s ← match st_pending s with
      | Some d => '(_, d) ← dv_commit txn ts d; Some (with_pending (Some d) s)
      | None => Some s
      end;
  if negb (Hot_holds s slot me) then Some (s, sp) else
  let s := Hot_stamped ts s in
  let s := with_writes (wrap 64 (st_writes s + 1)) s in
  let part := (place slot).1 in
  '(s, sp) ← walk_own (chain_fuel sp) me (λ r x,
       let stamps := foldl (λ m i, fetch_max (i_column i, part) ts m) (st_stamps x.1) (r_images r) in
       Some (with_stamps stamps x.1, stamp r ts x.2)) (Hot_head s slot) (s, sp);
  let '(swapped, s) := swap_deleted slot me ts s in
  let s := if (swapped : bool) then with_erased (fetch_max part ts (st_erased s)) s else s in
  Some (release slot s, sp).

Definition Hot_abort_write (slot txn : Z) (s : HotStripe) (sp : UndoSpace)
    : option (HotStripe * UndoSpace) :=
  let me := Z.lor txn UNCOMMITTED in
  let s := match st_pending s with
           | Some d => with_pending (Some (dv_abort txn d).2) s
           | None => s
           end in
  if negb (Hot_holds s slot me) then Some (s, sp) else
  '(s, sp) ← walk_own (chain_fuel sp) me (λ r x,
       s ← write_all slot ((λ i, (i_column i, i_value i)) <$> r_images r) x.1;
       Some (s, stamp r ABORTED x.2)) (Hot_head s slot) (s, sp);
  let '(_, s) := swap_deleted slot me LIVE s in
  Some (release slot s, sp).

(** * Who sees a row *)

Definition seen (created deleted snapshot me : Z) : bool :=
  ((wrap 64 (created - 1) <? snapshot) || (created =? me))
  && negb ((deleted <=? snapshot) || (deleted =? me)).

Definition Hot_visible (s : HotStripe) (slot snapshot txn : Z) : bool :=
  seen (created_at s slot) (deleted_at s slot) snapshot (Z.lor txn UNCOMMITTED)
  && negb match st_pending s with Some d => is_deleted d slot snapshot txn | None => false end.

Definition there (s : HotStripe) (slot snapshot : Z) : bool :=
  seen (created_at s slot) (deleted_at s slot) snapshot UNCOMMITTED.

Definition changed_after (s : HotStripe) (sp : UndoSpace) (slot since : Z) : option bool :=
  let created := created_at s slot in
  let deleted := deleted_at s slot in
  if (negb (created =? 0) && (since <? created)) || (negb (deleted =? LIVE) && (since <? deleted))
  then Some true else
  newest ← newest_change s sp slot; Some (since <? newest).

(** * Freezing *)

Definition begin_freeze (s : HotStripe) : bool * HotStripe :=
  let s := (pending s).2 in
  (st_state s <? FREEZING, with_state (Z.max (st_state s) FREEZING) s).

(** The slots that are holes or deleted, [None] while a write is in flight. *)
Fixpoint settled_loop (slots : list Z) (s : HotStripe) (gone : list Z) : option (list Z) :=
  match slots with
  | [] => Some gone
  | slot :: slots =>
      if negb (Z.land (lock_at s slot) (Z.lor HELD DELTA) =? 0) then None else
      if negb (Z.land (created_at s slot) UNCOMMITTED =? 0) then None else
      settled_loop slots s
        (if (created_at s slot =? 0) || negb (deleted_at s slot =? LIVE) then gone ++ [slot] else gone)
  end.

Definition settled (clock : Z) (s : HotStripe) : option (option (Z * Z * list Z)) :=
  if negb (is_freezing s) then None else
  let rows := reserved s in
  Some (gone ← settled_loop (range 0 (rows - 1)) s [];
        if st_changed s <=? clock then Some (clock, rows, gone) else None).

(** * Thawing *)

Definition thawing (id table : Z) (widths : list Width) (rows : Z) : option HotStripe :=
  let s := with_thawed true (in_table table (with_undo id widths)) in
  s ← (if 0 <? rows then
         let '(slots, s) := lease rows s in
         slots ← slots;
         created ← stamp_created (range slots.1 (slots.2 - 1)) BEFORE_ALL (st_created s);
         Some (with_created created s)
       else Some s);
  Some (with_state SEALED s).

Definition stamp_deleted (s : HotStripe) (slot ts : Z) : HotStripe :=
  let '(part, at_) := place slot in
  let deleted := get_or (st_deleted s) part in
  with_deleted (default deleted (parts_set deleted part at_ ts)) s.

Definition take_deletes (d : DeleteVector) (checkpoint : Z) (s : HotStripe) : HotStripe :=
  let s := foldl (λ s slot, stamp_deleted s slot BEFORE_ALL) s (Base_slots (dv_base d)) in
  let s := with_changed (Z.max (st_changed s) checkpoint) s in
  foldl (λ s (e : Z * Z),
    let s := stamp_deleted s e.1 e.2 in
    if Z.land e.2 UNCOMMITTED =? 0 then with_changed (Z.max (st_changed s) e.2) s
    else let '(part, at_) := place e.1 in
         let locks := get_or (st_lock s) part in
         with_lock (default locks (parts_set locks part at_ e.2)) s) s (dv_recent d).
