(* ===== verification/HotCells.v ===== *)
(** The cells of a hot stripe: a store is read back by its slot and by no other. *)

From S2P Require Import Prelude Undo Deletes Hot.
Local Open Scope Z_scope.

(** * Parts *)

Definition slot_get (fill : Z) (ps : Parts) (slot : Z) : option Z := parts_get fill ps (place slot).1 (place slot).2.

Lemma place_inj a b : place a = place b → a = b.
Proof.
  unfold place. intros [= Hd Hm]. rewrite (Z.div_mod a PART_ROWS), (Z.div_mod b PART_ROWS) by done. congruence.
Qed.

Lemma parts_get_or fill ps part p at_ :
  parts_get fill (get_or ps part) p at_
  = match parts_get fill ps p at_ with
    | Some x => Some x
    | None => if decide (p = part) then Some fill else None
    end.
Proof.
  unfold parts_get, get_or. destruct (ps !! part) as [cells|] eqn:E.
  - destruct (ps !! p) as [m|] eqn:Ep; [done|]. simpl. by rewrite decide_False by congruence.
  - destruct (decide (p = part)) as [->|Hne].
    + by rewrite lookup_insert_eq, E.
    + rewrite lookup_insert_ne by done. by destruct (ps !! p).
Qed.

Lemma parts_set_some fill ps part at_ x :
  is_Some (parts_get fill ps part at_) →
  ∃ ps', parts_set ps part at_ x = Some ps'
    ∧ ∀ p a, parts_get fill ps' p a = if decide ((p, a) = (part, at_)) then Some x else parts_get fill ps p a.
Proof.
  unfold parts_get, parts_set. intros [y Hy]. destruct (ps !! part) as [cells|] eqn:E; [|done].
  eexists. split; [done|]. intros p a. destruct (decide (p = part)) as [->|Hp].
  - rewrite lookup_insert_eq, E. simpl. destruct (decide (a = at_)) as [->|Ha].
    + by rewrite lookup_insert_eq, decide_True.
    + by rewrite lookup_insert_ne, decide_False by (done || congruence).
  - by rewrite lookup_insert_ne, decide_False by (done || congruence).
Qed.

Lemma parts_set_slot fill ps slot x ps' :
  parts_set ps (place slot).1 (place slot).2 x = Some ps' →
  ∀ t, slot_get fill ps' t = if decide (t = slot) then Some x else slot_get fill ps t.
Proof.
  intros H t. unfold slot_get.
  destruct (parts_set_some fill ps (place slot).1 (place slot).2 x) as (ps2&E&Hg).
  { unfold parts_set in H. unfold parts_get. by destruct (ps !! (place slot).1). }
  rewrite H in E. injection E as <-. rewrite Hg. destruct (decide (t = slot)) as [->|Hne].
  - by rewrite decide_True.
  - rewrite decide_False; [done|]. intros Eq. apply Hne, place_inj. by rewrite (surjective_pairing (place t)), Eq, <-surjective_pairing.
Qed.

(** * Bits of a word *)

Lemma word_bit word k : 0 ≤ k → negb (Z.land word (1 ≪ k) =? 0) = Z.testbit word k.
Proof.
  intros Hk. rewrite Z.shiftl_1_l. destruct (Z.testbit word k) eqn:E.
  - apply negb_true_iff, Z.eqb_neq. intros H0. apply (f_equal (λ z, Z.testbit z k)) in H0.
    by rewrite Z.land_spec, E, Z.pow2_bits_true, Z.bits_0 in H0 by done.
  - apply negb_false_iff, Z.eqb_eq. apply Z.bits_inj'. intros i Hi. rewrite Z.land_spec, Z.bits_0.
    destruct (decide (i = k)) as [->|]; [by rewrite E|].
    by rewrite Z.pow2_bits_false, andb_false_r by done.
Qed.

Lemma set_word_bit word k i :
  0 ≤ k → 0 ≤ i → Z.testbit (Z.lor word (1 ≪ k)) i = if decide (i = k) then true else Z.testbit word i.
Proof.
  intros Hk Hi. rewrite Z.lor_spec, Z.shiftl_1_l. case_decide as E.
  - by rewrite E, Z.pow2_bits_true, orb_true_r.
  - by rewrite Z.pow2_bits_false, orb_false_r by done.
Qed.

Lemma clear_word_bit word k i :
  0 ≤ k < 64 → 0 ≤ i < 64 →
  Z.testbit (Z.land word (wnot 64 (1 ≪ k))) i = if decide (i = k) then false else Z.testbit word i.
Proof.
  intros Hk Hi. unfold wnot. rewrite Z.land_spec, Z.lxor_spec, Z.shiftl_1_l, Z.testbit_ones_nonneg by lia.
  destruct (Z.ltb_spec i 64); [|lia]. case_decide as E.
  - by rewrite E, Z.pow2_bits_true, andb_false_r by lia.
  - by rewrite Z.pow2_bits_false, andb_true_r by lia.
Qed.

(** * Reading and writing values *)

(** The value a column takes to a cell of its width. *)
Definition fits_cell (w : Width) (value : option Z) : Prop :=
  match value with Some v => fits (8 * Width_bytes w) v | None => True end.

(** Every slot of [slots] is in parts the columns have. *)
Definition allocated (s : HotStripe) (slot : Z) : Prop :=
  Forall (λ c, is_Some (col_cells c !! (place slot).1) ∧ is_Some (col_valid c !! (place slot).1)) (st_columns s).

Lemma slot_word slot : 0 ≤ slot → 0 ≤ (place slot).2 / 64 ∧ 0 ≤ (place slot).2 `mod` 64 < 64.
Proof.
  intros. unfold place. simpl. pose proof (Z.mod_pos_bound slot PART_ROWS ltac:(done)).
  split; [apply Z.div_pos; lia|apply Z.mod_pos_bound; lia].
Qed.

Definition column_value (c : Column) (slot : Z) : option Z :=
  match parts_get 0 (col_valid c) (place slot).1 ((place slot).2 / 64) with
  | None => None
  | Some word =>
      if negb (Z.land word (1 ≪ ((place slot).2 `mod` 64)) =? 0)
      then Some (default 0 (parts_get 0 (col_cells c) (place slot).1 (place slot).2)) else None
  end.

Lemma Hot_read_value s slot column c :
  st_columns s !! Z.to_nat column = Some c → Hot_read s slot column = Some (column_value c slot).
Proof. intros E. unfold Hot_read. destruct (place slot) as [part at_] eqn:Ep. rewrite E, some_bind. unfold column_value. by rewrite Ep. Qed.

(** A column after a store. *)
Lemma column_store c slot value :
  0 ≤ slot → is_Some (col_cells c !! (place slot).1) → is_Some (col_valid c !! (place slot).1) →
  fits_cell (col_width c) value →
  ∃ word cells valid,
    parts_get 0 (col_valid c) (place slot).1 ((place slot).2 / 64) = Some word
    ∧ parts_set (col_cells c) (place slot).1 (place slot).2 (wrap (8 * Width_bytes (col_width c)) (default 0 value)) = Some cells
    ∧ parts_set (col_valid c) (place slot).1 ((place slot).2 / 64)
        (if value then Z.lor word (1 ≪ ((place slot).2 `mod` 64))
         else Z.land word (wnot 64 (1 ≪ ((place slot).2 `mod` 64)))) = Some valid
    ∧ (∀ t, 0 ≤ t → column_value (mkColumn (col_width c) cells valid) t
          = if decide (t = slot) then value else column_value c t)
    ∧ ∀ p, is_Some (cells !! p) ∧ is_Some (valid !! p) ↔ is_Some (col_cells c !! p) ∧ is_Some (col_valid c !! p).
Proof.
  intros Hslot [cm Hc] [vm Hv] Hfit. destruct (slot_word slot Hslot) as [Hw Hb].
  set (word := default 0 (vm !! ((place slot).2 / 64))).
  assert (parts_get 0 (col_valid c) (place slot).1 ((place slot).2 / 64) = Some word) as Eword.
  { unfold parts_get. by rewrite Hv. }
  destruct (parts_set_some 0 (col_cells c) (place slot).1 (place slot).2
    (wrap (8 * Width_bytes (col_width c)) (default 0 value))) as (cells&Ec&Hgc).
  { unfold parts_get. rewrite Hc. eauto. }
  destruct (parts_set_some 0 (col_valid c) (place slot).1 ((place slot).2 / 64)
    (if value then Z.lor word (1 ≪ ((place slot).2 `mod` 64))
     else Z.land word (wnot 64 (1 ≪ ((place slot).2 `mod` 64))))) as (valid&Ev&Hgv); [by rewrite Eword|].
  exists word, cells, valid. split_and!; [done..| |].
  - intros t Ht. destruct (slot_word t Ht) as [Htw Htb]. unfold column_value. cbn [col_valid col_cells].
    rewrite Hgv, Hgc. destruct (decide (t = slot)) as [->|Hne].
    + rewrite !decide_True by done. rewrite word_bit by lia. destruct value as [v|].
      * rewrite set_word_bit, decide_True by (done || lia). simpl. simpl in Hfit. by rewrite wrap_id.
      * by rewrite clear_word_bit, decide_True by (done || lia).
    + destruct (decide ((place t).1 = (place slot).1 ∧ (place t).2 / 64 = (place slot).2 / 64)) as [[E1 E2]|Hd].
      * rewrite decide_True by congruence. rewrite E1, E2, Eword.
        assert ((place t).2 `mod` 64 ≠ (place slot).2 `mod` 64) as Hm.
        { intros Hm. apply Hne, place_inj. rewrite (surjective_pairing (place t)), (surjective_pairing (place slot)), E1.
          f_equal. rewrite (Z.div_mod (place t).2 64), (Z.div_mod (place slot).2 64) by done. congruence. }
        assert ((place t).2 ≠ (place slot).2) as Ha by congruence.
        rewrite !word_bit by lia. rewrite (decide_False (P := ((place slot).1, (place t).2) = _)) by congruence.
        assert (Z.testbit (if value then Z.lor word (1 ≪ ((place slot).2 `mod` 64))
          else Z.land word (wnot 64 (1 ≪ ((place slot).2 `mod` 64)))) ((place t).2 `mod` 64)
          = Z.testbit word ((place t).2 `mod` 64)) as ->; [|done].
        destruct value; [rewrite set_word_bit by lia|rewrite clear_word_bit by lia]; by rewrite decide_False.
      * rewrite decide_False by (intros [= ??]; tauto).
        rewrite decide_False; [done|]. intros E. apply Hne, place_inj.
        by rewrite (surjective_pairing (place t)), E, <-surjective_pairing.
  - intros p. unfold parts_set in Ec, Ev. rewrite Hc in Ec. rewrite Hv in Ev. injection Ec as <-. injection Ev as <-.
    rewrite !lookup_insert_is_Some. clear -Hc Hv.
    destruct (decide (p = (place slot).1)) as [->|]; [rewrite Hc, Hv; naive_solver|naive_solver].
Qed.
