(* ===== verification/DeletesLaws.v ===== *)
(** What the delete vector of a frozen stripe answers: its containers hold the set of slots they
    were made of, a mask of a part is the vector asked slot by slot, and folding below the oldest
    snapshot changes what no reader sees. *)

From S2P Require Import Prelude Undo UndoWords Deletes HotCells.
Local Open Scope Z_scope.

(** * Sorted lists *)

Abbreviation increasing := (StronglySorted Z.lt).

Lemma increasing_ext l l' : increasing l → increasing l' → (∀ x, x ∈ l ↔ x ∈ l') → l = l'.
Proof.
  intros Hl Hl' H.
  assert (∀ l, increasing l → NoDup l ∧ StronglySorted Z.le l) as Hs.
  { clear. induction 1 as [|x l _ [IH1 IH2] Hx]; [split; constructor|]. rewrite Forall_forall in Hx. split; constructor; try done.
    - intros Hin. apply Hx in Hin. lia.
    - apply Forall_forall. intros y Hy. apply Hx in Hy. lia. }
  destruct (Hs l Hl), (Hs l' Hl'). apply (StronglySorted_unique Z.le); [done..|]. by apply NoDup_Permutation.
Qed.

(** The prefix below a bound, and the run from there that a condition holds on, of a list on which
    both fall together. *)
Lemma prefix_split {A} (p : A → bool) l :
  l = take (prefix_length p l) l ++ drop (prefix_length p l) l
  ∧ Forall (λ x, p x = true) (take (prefix_length p l) l)
  ∧ (∀ x, head (drop (prefix_length p l) l) = Some x → p x = false).
Proof.
  split; [by rewrite take_drop|]. induction l as [|x l [IH1 IH2]]; [by split|]. simpl. destruct (p x) eqn:E; simpl.
  - split; [by constructor|done].
  - split; [done|]. by intros y [= <-].
Qed.

Lemma take_while_filter {A} (p : A → bool) l :
  StronglySorted (λ x y, p y = true → p x = true) l → take_while p l = filter (λ x, p x = true) l.
Proof.
  induction 1 as [|x l _ IH Hx]; [done|]. simpl. rewrite filter_cons. destruct (p x) eqn:E.
  - rewrite decide_True by done. by f_equal.
  - rewrite decide_False by done. symmetry. apply list_filter_none. eapply Forall_impl; [exact Hx|].
    intros y Hy Hp. apply Hy in Hp. congruence.
Qed.

Lemma drop_prefix_filter {A} (p : A → bool) l :
  StronglySorted (λ x y, p y = true → p x = true) l → drop (prefix_length p l) l = filter (λ x, p x = false) l.
Proof.
  induction 1 as [|x l Hl IH Hx]; [done|]. cbn [prefix_length]. rewrite filter_cons. destruct (p x) eqn:E.
  - rewrite decide_False by done. exact IH.
  - rewrite decide_True by done. cbn [drop]. f_equal. symmetry. apply list_filter_all. eapply Forall_impl; [exact Hx|].
    intros y Hy. simpl in *. destruct (p y); [|done]. specialize (Hy eq_refl). congruence.
Qed.

Lemma sorted_weaken {A} (R R' : relation A) l : (∀ x y, R x y → R' x y) → StronglySorted R l → StronglySorted R' l.
Proof. intros H. induction 1 as [|x l _ IH Hx]; constructor; [done|]. eapply Forall_impl; [exact Hx|]. auto. Qed.

Lemma sorted_filter {A} (R : relation A) P `{!∀ x, Decision (P x)} l : StronglySorted R l → StronglySorted R (filter P l).
Proof.
  induction 1 as [|x l _ IH Hx]; [constructor|]. rewrite filter_cons. case_decide; [|done]. constructor; [done|].
  apply Forall_forall. intros y [_ Hy]%list_elem_of_filter. rewrite Forall_forall in Hx. auto.
Qed.

(** * Bits of arrays of words *)

Lemma length_set_bit mask bit : length (set_bit mask bit) = length mask.
Proof. apply length_alter. Qed.

Lemma get_bit_testbit mask bit :
  0 ≤ bit → get_bit mask bit = match mask !! Z.to_nat (bit / 64) with Some w => Z.testbit w (bit `mod` 64) | None => false end.
Proof.
  intros H. unfold get_bit. destruct (mask !! Z.to_nat (bit / 64)); [|done]. apply word_bit.
  apply Z.mod_pos_bound. lia.
Qed.

Lemma get_set_bit mask bit b :
  0 ≤ bit < 64 * zlen mask → 0 ≤ b → get_bit (set_bit mask bit) b = (b =? bit) || get_bit mask b.
Proof.
  intros Hbit Hb. rewrite !get_bit_testbit by lia. unfold set_bit.
  pose proof (Z.mod_pos_bound bit 64 ltac:(lia)). pose proof (Z.mod_pos_bound b 64 ltac:(lia)).
  assert (bit / 64 < zlen mask) as Hlt by (apply Z.div_lt_upper_bound; lia). assert (0 ≤ bit / 64) by (apply Z.div_pos; lia).
  assert (0 ≤ b / 64) by (apply Z.div_pos; lia). unfold zlen in Hlt.
  pose proof (Z.div_mod bit 64 ltac:(done)). pose proof (Z.div_mod b 64 ltac:(done)).
  destruct (decide (b / 64 = bit / 64)) as [E|E].
  - rewrite E, list_lookup_alter_eq. destruct (mask !! Z.to_nat (bit / 64)) as [w|] eqn:Ew; [|apply lookup_ge_None in Ew; lia].
    simpl. rewrite set_word_bit by lia. destruct (Z.eqb_spec b bit) as [->|Hne]; [by rewrite decide_True|].
    rewrite decide_False by lia. done.
  - rewrite list_lookup_alter_ne by lia. by rewrite (proj2 (Z.eqb_neq b bit)) by congruence.
Qed.

Lemma get_set_bits l mask b :
  Forall (λ bit, 0 ≤ bit < 64 * zlen mask) l → 0 ≤ b →
  get_bit (foldl set_bit mask l) b = bool_decide (b ∈ l) || get_bit mask b.
Proof.
  intros Hl Hb. revert mask Hl. induction l as [|x l IH]; intros mask Hl; [done|]. apply Forall_cons in Hl as [Hx Hl]. simpl.
  assert (zlen (set_bit mask x) = zlen mask) as Ez by (unfold zlen; by rewrite length_set_bit).
  rewrite IH by by rewrite Ez. rewrite get_set_bit by done.
  rewrite orb_assoc. f_equal. destruct (Z.eqb_spec b x) as [->|Hne].
  - rewrite orb_true_r. symmetry. apply bool_decide_true. by left.
  - rewrite orb_false_r. apply bool_decide_ext. rewrite elem_of_cons. tauto.
Qed.

Lemma length_set_bits l mask : length (foldl set_bit mask l) = length mask.
Proof. revert mask. induction l as [|x l IH]; intros mask; [done|]. simpl. by rewrite IH, length_set_bit. Qed.

Lemma set_bits_u64 l mask : Forall u64 mask → Forall u64 (foldl set_bit mask l).
Proof.
  revert mask. induction l as [|x l IH]; intros mask Hm; [done|]. apply IH. unfold set_bit. apply Forall_alter; [done|].
  intros w _ Hw. pose proof (Z.mod_pos_bound x 64 ltac:(lia)). apply fits_lor; [lia|done|]. unfold fits. rewrite Z.shiftl_1_l.
  split; [lia|]. apply Z.pow_lt_mono_r; lia.
Qed.

(** ** The lowest set bit *)

Lemma lowest_bit x : 0 < x → ∃ k m, 0 ≤ k ∧ 0 ≤ m ∧ x = 2 ^ k * (2 * m + 1).
Proof.
  intros Hx. destruct x as [|p|p]; try lia. clear Hx. induction p as [p _|p (k&m&Hk&Hm&E)|].
  - exists 0, (Z.pos p). lia.
  - exists (Z.succ k), m. rewrite Z.pow_succ_r by done. lia.
  - exists 0, 0. lia.
Qed.

Lemma land_odd m : Z.land (2 * m + 1) (- (2 * m + 1)) = 1.
Proof.
  replace (- (2 * m + 1)) with (2 * Z.lnot m + 1) by (unfold Z.lnot; lia).
  apply Z.bits_inj'. intros i Hi. rewrite Z.land_spec. destruct (decide (i = 0)) as [->|].
  - by rewrite !Z.testbit_odd_0.
  - replace i with (Z.succ (i - 1)) by lia. rewrite !Z.testbit_odd_succ by lia. rewrite Z.lnot_spec by lia.
    rewrite andb_negb_r. symmetry. change 1 with (2 * 0 + 1). rewrite Z.testbit_odd_succ by lia. apply Z.bits_0.
Qed.

Lemma land_pred m : Z.land (2 * m + 1) (2 * m) = 2 * m.
Proof.
  apply Z.bits_inj'. intros i Hi. rewrite Z.land_spec. destruct (decide (i = 0)) as [->|].
  - by rewrite Z.testbit_even_0, andb_false_r.
  - replace i with (Z.succ (i - 1)) by lia. rewrite Z.testbit_odd_succ, Z.testbit_even_succ by lia. apply andb_diag.
Qed.

Lemma take_lowest k m :
  0 ≤ k → 0 ≤ m →
  let x := 2 ^ k * (2 * m + 1) in
  Z.log2 (Z.land x (- x)) = k ∧ Z.land x (x - 1) = 2 ^ k * (2 * m).
Proof.
  intros Hk Hm x. assert (x = (2 * m + 1) ≪ k) as Ex by (unfold x; rewrite Z.shiftl_mul_pow2 by done; lia). split.
  - assert (- x = (- (2 * m + 1)) ≪ k) as -> by (unfold x; rewrite Z.shiftl_mul_pow2 by done; lia).
    rewrite Ex, <-Z.shiftl_land, land_odd, Z.shiftl_mul_pow2, Z.mul_1_l by done. by apply Z.log2_pow2.
  - replace (2 ^ k * (2 * m)) with ((2 * m) ≪ k) by (rewrite Z.shiftl_mul_pow2 by done; lia).
    assert (x - 1 = Z.lor (Z.ones k) ((2 * m) ≪ k)) as ->.
    { rewrite lor_shiftl_add by (done || lia || by apply fits_ones). rewrite Z.ones_equiv. unfold x. lia. }
    rewrite Z.land_lor_distr_r, Ex, <-Z.shiftl_land, land_pred.
    assert (Z.land ((2 * m + 1) ≪ k) (Z.ones k) = 0) as ->; [|done].
    rewrite Z.land_ones by done. rewrite Z.shiftl_mul_pow2 by done. apply Z.mod_mul. lia.
Qed.

Lemma lowest_testbit k m i :
  0 ≤ k → 0 ≤ i → Z.testbit (2 ^ k * (2 * m + 1)) i = (i =? k) || Z.testbit (2 ^ k * (2 * m)) i.
Proof.
  intros Hk Hi. rewrite !(Z.mul_comm (2 ^ k)), <-!Z.shiftl_mul_pow2 by done. rewrite !Z.shiftl_spec by done.
  destruct (Z.eqb_spec i k) as [->|Hne].
  - by rewrite Z.sub_diag, Z.testbit_odd_0.
  - destruct (decide (i < k)); [by rewrite !Z.testbit_neg_r by lia|].
    replace (i - k) with (Z.succ (i - k - 1)) by lia. by rewrite Z.testbit_odd_succ, Z.testbit_even_succ by lia.
Qed.

Lemma even_testbit k m i : 0 ≤ k → 0 ≤ i → Z.testbit (2 ^ k * (2 * m)) i = true → k < i.
Proof.
  intros Hk Hi. rewrite (Z.mul_comm (2 ^ k)), <-Z.shiftl_mul_pow2, Z.shiftl_spec by done. intros H.
  destruct (decide (i < k)); [by rewrite Z.testbit_neg_r in H by lia|]. destruct (decide (i = k)) as [->|]; [|lia].
  by rewrite Z.sub_diag, Z.testbit_even_0 in H.
Qed.

(** The loop over a word lists its set bits, the lowest first, and the fuel is enough. *)
Lemma bits_loop_spec fuel at_ bits :
  u64 bits → (∀ i, 0 ≤ i → Z.testbit bits i = true → 64 - Z.of_nat fuel ≤ i) →
  increasing (bits_loop fuel at_ bits)
  ∧ ∀ x, x ∈ bits_loop fuel at_ bits ↔ ∃ i, x = at_ * 64 + i ∧ 0 ≤ i < 64 ∧ Z.testbit bits i = true.
Proof.
  revert bits. induction fuel as [|fuel IH]; intros bits Hu Hlow.
  - split; [constructor|]. intros x. split; [by intros ?%elem_of_nil|]. intros (i&->&Hi&Ht). apply Hlow in Ht; lia.
  - cbn [bits_loop]. destruct (Z.eqb_spec bits 0) as [->|Hne].
    { split; [constructor|]. intros x. split; [by intros ?%elem_of_nil|]. intros (i&->&Hi&Ht). by rewrite Z.bits_0 in Ht. }
    unfold fits in Hu. destruct (lowest_bit bits) as (k&m&Hk&Hm&E); [lia|].
    destruct (take_lowest k m Hk Hm) as [E1 E2]. rewrite <-E in E1, E2. rewrite E1, E2.
    assert (∀ i, 0 ≤ i → Z.testbit bits i = (i =? k) || Z.testbit (2 ^ k * (2 * m)) i) as Hbits
      by (intros; rewrite E; by apply lowest_testbit).
    assert (64 - Z.of_nat (S fuel) ≤ k < 64) as Hk64.
    { split; [apply Hlow; [done|]; by rewrite Hbits, Z.eqb_refl|].
      destruct (decide (k < 64)); [done|]. assert (2 ^ 64 ≤ 2 ^ k) by (apply Z.pow_le_mono_r; lia). nia. }
    destruct (IH (2 ^ k * (2 * m))) as [IH1 IH2].
    { unfold fits. assert (0 < 2 ^ k) by lia. nia. }
    { intros i Hi Ht. pose proof (even_testbit k m i Hk Hi Ht). lia. }
    split.
    + constructor; [done|]. apply Forall_forall. intros x Hx. apply IH2 in Hx as (i&->&Hi&Ht).
      pose proof (even_testbit k m i Hk ltac:(lia) Ht). lia.
    + intros x. rewrite elem_of_cons, IH2. split.
      * intros [->|(i&->&Hi&Ht)]; [exists k; rewrite Hbits, Z.eqb_refl by done; split_and!; done || lia|].
        exists i. rewrite Hbits, Ht by lia. by rewrite orb_true_r.
      * intros (i&->&Hi&Ht). rewrite Hbits in Ht by lia. apply orb_true_iff in Ht as [->%Z.eqb_eq|Ht]; [by left|]. right. eauto.
Qed.

(** * Containers *)

Definition in_stripe (slot : Z) : Prop := 0 ≤ slot < STRIPE_ROWS.

Definition base_wf (b : Base) : Prop :=
  match b with
  | BEmpty => True
  | BArray slots => increasing slots ∧ Forall in_stripe slots
  | BBitmap words => length words = BITMAP_WORDS ∧ Forall u64 words
  | BRuns runs => Forall (λ r, 0 ≤ r.1 ≤ r.2 ∧ r.2 < STRIPE_ROWS) runs ∧ StronglySorted (λ r r', r.2 + 1 < r'.1) runs
  end.

Lemma elem_of_range a b x : x ∈ range a b ↔ a ≤ x ≤ b.
Proof.
  unfold range. rewrite list_elem_of_fmap. setoid_rewrite elem_of_seq. split.
  - intros (i&->&?). lia.
  - intros Hx. exists (Z.to_nat (x - a)). lia.
Qed.

Lemma range_increasing a b : increasing (range a b).
Proof.
  unfold range. eapply (StronglySorted_fmap _ lt); [lia|]. generalize 0%nat. generalize (Z.to_nat (b + 1 - a)).
  induction n as [|n IH]; intros k; simpl; constructor; [apply IH|]. apply Forall_forall. intros x Hx%elem_of_seq. lia.
Qed.

Lemma imap_concat_sorted (f : nat → Z → list Z) words :
  (∀ k w, words !! k = Some w → increasing (f k w) ∧ ∀ x, x ∈ f k w → Z.of_nat k * 64 ≤ x < Z.of_nat k * 64 + 64) →
  increasing (concat (imap f words)) ∧ ∀ x, x ∈ concat (imap f words) ↔ ∃ k w, words !! k = Some w ∧ x ∈ f k w.
Proof.
  induction words as [|w words IH] using rev_ind; intros H.
  { split; [constructor|]. intros x. split; [by intros ?%elem_of_nil|]. by intros (k&w&?&_). }
  destruct IH as [IH1 IH2].
  { intros k w' Hk. apply H. by apply lookup_app_l_Some. }
  assert ((words ++ [w]) !! length words = Some w) as Hlast by by apply list_lookup_middle.
  destruct (H (length words) w Hlast) as [Hs Hx].
  rewrite imap_app, concat_app. cbn [imap concat]. rewrite Nat.add_0_r, app_nil_r. split.
  - apply StronglySorted_app. split_and!; [done|done|]. intros x1 x2 (k&w'&Hk&Hx1)%IH2 Hx2.
    apply Hx in Hx2. destruct (H k w') as [_ Hk']; [by apply lookup_app_l_Some|]. apply Hk' in Hx1. apply lookup_lt_Some in Hk. lia.
  - intros x. rewrite elem_of_app, IH2. split.
    + intros [(k&w'&Hk&?)|?]; [exists k, w'|exists (length words), w]; (split; [|done]);
        [by apply lookup_app_l_Some|done].
    + intros (k&w'&Hk&Hin). apply lookup_snoc_Some in Hk as [[_ Hk]|[-> <-]]; [left; eauto|by right].
Qed.

(** A word of a bitmap, and the slots it holds. *)
Lemma bitmap_word k w : u64 w →
  increasing (bits_loop 64 (Z.of_nat k) w)
  ∧ ∀ x, x ∈ bits_loop 64 (Z.of_nat k) w ↔ ∃ i, x = Z.of_nat k * 64 + i ∧ 0 ≤ i < 64 ∧ Z.testbit w i = true.
Proof. intros Hw. apply bits_loop_spec; [done|]. intros i Hi _. lia. Qed.

Lemma bitmap_slots words :
  Forall u64 words →
  increasing (Base_slots (BBitmap words)) ∧ ∀ x, x ∈ Base_slots (BBitmap words) ↔ 0 ≤ x ∧ get_bit words x = true.
Proof.
  intros Hw. rewrite Forall_lookup in Hw. cbn [Base_slots].
  destruct (imap_concat_sorted (λ k w, bits_loop 64 (Z.of_nat k) w) words) as [H1 H2].
  { intros k w Hk. destruct (bitmap_word k w (Hw k w Hk)) as [? H]. split; [done|]. intros x (i&->&Hi&_)%H. lia. }
  split; [done|]. intros x. rewrite H2. split.
  - intros (k&w&Hk&Hin). destruct (bitmap_word k w (Hw k w Hk)) as [_ H]. apply H in Hin as (i&->&Hi&Ht). split; [lia|].
    rewrite get_bit_testbit by lia. rewrite Z.add_comm, Z.div_add, Z.div_small, Z.add_0_l by lia.
    rewrite Z.mod_add, Z.mod_small by lia. by rewrite Nat2Z.id, Hk.
  - intros [Hx Hg]. rewrite get_bit_testbit in Hg by done. destruct (words !! Z.to_nat (x / 64)) as [w|] eqn:Hk; [|done].
    exists (Z.to_nat (x / 64)), w. split; [done|]. destruct (bitmap_word (Z.to_nat (x / 64)) w (Hw _ w Hk)) as [_ H]. apply H.
    exists (x `mod` 64). split; [|split; [apply Z.mod_pos_bound; lia|done]].
    rewrite Z2Nat.id by (apply Z.div_pos; lia). pose proof (Z.div_mod x 64 ltac:(done)). lia.
Qed.

Lemma bitmap_in_stripe words x : length words = BITMAP_WORDS → 0 ≤ x → get_bit words x = true → x < STRIPE_ROWS.
Proof.
  intros Hl Hx Hg. rewrite get_bit_testbit in Hg by done. destruct (words !! Z.to_nat (x / 64)) as [w|] eqn:Hk; [|done].
  apply lookup_lt_Some in Hk. pose proof BITMAP_WORDS_Z. unfold STRIPE_ROWS.
  assert (x / 64 < 8192) as Hlt by lia. pose proof (Z.div_mod x 64 ltac:(done)). pose proof (Z.mod_pos_bound x 64 ltac:(lia)). lia.
Qed.

Lemma runs_slots runs :
  StronglySorted (λ r r' : Z * Z, r.2 + 1 < r'.1) runs → Forall (λ r, r.1 ≤ r.2) runs →
  increasing (Base_slots (BRuns runs)) ∧ ∀ x, x ∈ Base_slots (BRuns runs) ↔ ∃ r, r ∈ runs ∧ r.1 ≤ x ≤ r.2.
Proof.
  intros Hs Hr. assert (∀ x, x ∈ Base_slots (BRuns runs) ↔ ∃ r, r ∈ runs ∧ r.1 ≤ x ≤ r.2) as Hin.
  { intros x. cbn [Base_slots]. rewrite list_elem_of_bind. setoid_rewrite elem_of_range. naive_solver. }
  split; [|done]. clear Hin. cbn [Base_slots]. induction Hs as [|r runs _ IH Hr']; [constructor|].
  apply Forall_cons in Hr as [Hle Hr]. cbn [mbind list_bind]. apply StronglySorted_app. split_and!; [apply range_increasing|auto|].
  intros x1 x2 Hx1%elem_of_range (r'&Hx2%elem_of_range&Hin)%list_elem_of_bind. rewrite Forall_forall in Hr'. apply Hr' in Hin. lia.
Qed.

(** A container lists its slots in order, and they are in the stripe. *)
Lemma base_slots_wf b : base_wf b → increasing (Base_slots b) ∧ ∀ x, x ∈ Base_slots b → in_stripe x.
Proof.
  destruct b as [|slots|words|runs]; simpl base_wf.
  - intros _. split; [constructor|]. by intros x ?%elem_of_nil.
  - intros [H1 H2]. split; [done|]. by rewrite Forall_forall in H2.
  - intros [H1 H2]. destruct (bitmap_slots words H2) as [H3 H4]. split; [done|]. intros x [Hx Hg]%H4. split; [done|].
    by eapply bitmap_in_stripe.
  - intros [H1 H2]. destruct (runs_slots runs H2) as [H3 H4]; [eapply Forall_impl; [exact H1|]; simpl; lia|].
    split; [done|]. intros x (r&Hr&Hx)%H4. rewrite Forall_forall in H1. apply H1 in Hr. unfold in_stripe. lia.
Qed.

(** Looking a slot up is asking whether it is listed. *)
Lemma base_contains_slots b slot : base_wf b → 0 ≤ slot → Base_contains b slot = bool_decide (slot ∈ Base_slots b).
Proof.
  intros Hwf Hslot. destruct b as [|slots|words|runs]; cbn [Base_contains]; symmetry.
  - by apply bool_decide_false, not_elem_of_nil.
  - destruct Hwf as [Hs _]. apply bool_decide_ext. cbn [Base_slots].
    assert (StronglySorted (λ x y, (y <? slot) = true → (x <? slot) = true) slots) as Hm.
    { eapply sorted_weaken; [|exact Hs]. intros x y ?. rewrite !Z.ltb_lt. lia. }
    pose proof (drop_prefix_filter _ _ Hm) as Hd. destruct (prefix_split (λ s, s <? slot) slots) as (_&Hlow&Hhd).
    set (k := prefix_length (λ s, s <? slot) slots) in *.
    rewrite <-(Nat.add_0_r k), <-lookup_drop. split.
    + intros Hin. assert (slot ∈ drop k slots) as Hin'.
      { rewrite Hd. apply list_elem_of_filter. split; [apply Z.ltb_irrefl|done]. }
      destruct (drop k slots) as [|y rest] eqn:Ey; [by apply elem_of_nil in Hin'|]. simpl. f_equal.
      specialize (Hhd y eq_refl). apply Z.ltb_ge in Hhd. apply elem_of_cons in Hin' as [->|Hin']; [done|].
      assert (increasing (drop k slots)) as Hs' by (rewrite <-(take_drop k slots) in Hs; by apply StronglySorted_app_1_r in Hs).
      rewrite Ey in Hs'. apply StronglySorted_cons in Hs' as [Hf _]. rewrite Forall_forall in Hf. apply Hf in Hin'. lia.
    + intros Hk. apply list_elem_of_lookup_2 in Hk. rewrite Hd in Hk. by apply list_elem_of_filter in Hk as [_ ?].
  - destruct Hwf as [_ Hw]. destruct (bitmap_slots words Hw) as [_ H]. destruct (get_bit words slot) eqn:Hg.
    + apply bool_decide_true, H. done.
    + apply bool_decide_false. intros [_ ?]%H. congruence.
  - destruct Hwf as [Hr Hs]. assert (Forall (λ r : Z * Z, r.1 ≤ r.2) runs) as Hle by (eapply Forall_impl; [exact Hr|]; simpl; lia).
    destruct (runs_slots runs Hs Hle) as [_ H].
    destruct (prefix_split (λ r : Z * Z, r.2 <? slot) runs) as (Esplit&Hlow&Hhd).
    set (k := prefix_length (λ r : Z * Z, r.2 <? slot) runs) in *. rewrite <-(Nat.add_0_r k), <-lookup_drop.
    destruct (drop k runs) as [|[first last_] rest] eqn:Ed; simpl.
    + apply bool_decide_false. intros (r&Hin&Hx)%H. rewrite Esplit, app_nil_r in Hin. rewrite Forall_forall in Hlow.
      apply Hlow, Z.ltb_lt in Hin. lia.
    + specialize (Hhd _ eq_refl). apply Z.ltb_ge in Hhd. simpl in Hhd. destruct (Z.leb_spec first slot).
      * apply bool_decide_true, H. exists (first, last_). split; [rewrite Esplit; set_solver|simpl; lia].
      * apply bool_decide_false. intros (r&Hin&Hx)%H. rewrite Esplit in Hin, Hs. apply elem_of_app in Hin as [Hin|Hin].
        -- rewrite Forall_forall in Hlow. apply Hlow, Z.ltb_lt in Hin. lia.
        -- apply StronglySorted_app_1_r, StronglySorted_cons in Hs as [Hf _]. rewrite Forall_forall in Hf.
           apply elem_of_cons in Hin as [->|Hin]; [simpl in Hx; lia|]. rewrite Forall_forall in Hle.
           assert (first ≤ last_) by (apply (Hle (first, last_)); rewrite Esplit; set_solver). apply Hf in Hin. simpl in Hin. lia.
Qed.

(** ** Made of a set of slots *)

Definition runs_wf (runs : list (Z * Z)) : Prop :=
  Forall (λ r, 0 ≤ r.1 ≤ r.2 ∧ r.2 < STRIPE_ROWS) runs ∧ StronglySorted (λ r r' : Z * Z, r.2 + 1 < r'.1) runs.

Lemma run_push_spec runs x :
  runs_wf runs → in_stripe x → (∀ r, r ∈ runs → r.2 < x) →
  runs_wf (run_push runs x)
  ∧ (∀ y, (∃ r, r ∈ run_push runs x ∧ r.1 ≤ y ≤ r.2) ↔ (∃ r, r ∈ runs ∧ r.1 ≤ y ≤ r.2) ∨ y = x)
  ∧ ∀ r, r ∈ run_push runs x → r.2 ≤ x.
Proof.
  intros [Hr Hs] Hx Hbelow. unfold in_stripe in Hx.
  assert (∀ r, r ∈ runs → 0 ≤ r.1 ≤ r.2) as Hr' by (intros r Hin; rewrite Forall_forall in Hr; by apply Hr).
  assert ((∀ r, r ∈ runs → r.2 + 1 < x) → runs_wf (runs ++ [(x, x)])
    ∧ (∀ y, (∃ r, r ∈ runs ++ [(x, x)] ∧ r.1 ≤ y ≤ r.2) ↔ (∃ r, r ∈ runs ∧ r.1 ≤ y ≤ r.2) ∨ y = x)
    ∧ ∀ r, r ∈ runs ++ [(x, x)] → r.2 ≤ x) as Hnew.
  { intros Hgap. split_and!.
    - split; [apply Forall_app; split; [done|]; apply Forall_singleton; simpl; lia|].
      apply StronglySorted_app. split_and!; [done|by repeat constructor|].
      intros r r' Hin ->%list_elem_of_singleton. simpl. by apply Hgap.
    - intros y. setoid_rewrite elem_of_app. setoid_rewrite list_elem_of_singleton. split.
      + intros (r&[Hin| ->]&Hy); [left; eauto|right; simpl in Hy; lia].
      + intros [(r&Hin&Hy)| ->]; [eauto|]. exists (x, x). simpl. split; [by right|lia].
    - intros r [Hin| ->%list_elem_of_singleton]%elem_of_app; [apply Hbelow in Hin; lia|done]. }
  unfold run_push. destruct (last runs) as [[first last_]|] eqn:El.
  - assert (runs = removelast runs ++ [(first, last_)]) as Erl.
    { apply last_Some in El as [l ->]. by rewrite removelast_app, app_nil_r by done. }
    set (front := removelast runs) in *. clearbody front. subst runs.
    assert ((first, last_) ∈ front ++ [(first, last_)]) as Hin by set_solver.
    pose proof (Hbelow _ Hin) as Hb. pose proof (Hr' _ Hin) as Hb'. simpl in Hb, Hb'.
    assert (∀ r, r ∈ front → r.2 + 1 < first) as Hfront.
    { intros r Hf. apply StronglySorted_app in Hs as (_&_&H). apply (H r (first, last_)); [done|by left]. }
    destruct (Z.eqb_spec (last_ + 1) x) as [<-|Hne].
    + split_and!.
      * apply Forall_app in Hr as [Hr1 _]. apply StronglySorted_app in Hs as (Hs1&_&_). split.
        -- apply Forall_app. split; [done|]. apply Forall_singleton. simpl. lia.
        -- apply StronglySorted_app. split_and!; [done|by repeat constructor|]. intros r r' Hf ->%list_elem_of_singleton. simpl. by apply Hfront.
      * intros y. setoid_rewrite elem_of_app. setoid_rewrite list_elem_of_singleton. split.
        -- intros (r&[Hf| ->]&Hy); [left; eauto|]. simpl in Hy. destruct (decide (y = last_ + 1)); [by right|left].
           exists (first, last_). simpl. split; [by right|lia].
        -- intros [(r&[Hf| ->]&Hy)| ->]; [eauto| |]; exists (first, last_ + 1); simpl in *; (split; [by right|lia]).
      * intros r [Hf| ->%list_elem_of_singleton]%elem_of_app; [apply Hfront in Hf; lia|done].
    + apply Hnew. intros r [Hf| ->%list_elem_of_singleton]%elem_of_app; [apply Hfront in Hf; lia|simpl; lia].
  - apply last_None in El. subst runs. apply Hnew. by intros r ?%elem_of_nil.
Qed.

Lemma runs_of_spec slots :
  increasing slots → Forall in_stripe slots →
  runs_wf (runs_of slots) ∧ (∀ y, (∃ r, r ∈ runs_of slots ∧ r.1 ≤ y ≤ r.2) ↔ y ∈ slots)
  ∧ ∀ r, r ∈ runs_of slots → r.2 ∈ slots.
Proof.
  induction slots as [|x slots IH] using rev_ind; intros Hs Hin.
  { split; [split; constructor|]. split; [intros y; split; [by intros (r&?%elem_of_nil&_)|by intros ?%elem_of_nil]|]. by intros r ?%elem_of_nil. }
  apply StronglySorted_app in Hs as (Hs&_&Hlt). apply Forall_app in Hin as [Hin Hx]. apply Forall_cons in Hx as [Hx _].
  destruct (IH Hs Hin) as (W&M&L). unfold runs_of in *. rewrite foldl_app. cbn [foldl].
  destruct (run_push_spec (foldl run_push [] slots) x W Hx) as (W'&M'&L').
  { intros r Hr. apply Hlt; [by apply L|by left]. }
  split; [done|]. assert (∀ y, (∃ r, r ∈ run_push (foldl run_push [] slots) x ∧ r.1 ≤ y ≤ r.2) ↔ y ∈ slots ++ [x]) as M2.
  { intros y. rewrite M', M, elem_of_app, list_elem_of_singleton. done. }
  split; [done|]. intros r Hr. apply M2. exists r. split; [done|]. destruct W' as [Wf _]. rewrite Forall_forall in Wf.
  apply Wf in Hr. lia.
Qed.

Definition slots_ok (slots : list Z) : Prop := increasing slots ∧ Forall in_stripe slots.

Lemma Base_of_wf slots : slots_ok slots → base_wf (Base_of slots) ∧ Base_slots (Base_of slots) = slots.
Proof.
  intros [Hs Hin]. unfold Base_of. case_bool_decide as He; [by rewrite He|]. cbv zeta.
  destruct (runs_of_spec slots Hs Hin) as ([Wr Ws]&M&_).
  destruct (_ <? Z.min _ _); [|destruct (_ <=? Z.of_nat BITMAP_WORDS * 8)].
  - split; [by split|]. destruct (runs_slots (runs_of slots) Ws) as [H1 H2]; [eapply Forall_impl; [exact Wr|]; simpl; lia|].
    apply increasing_ext; [done..|]. intros x. by rewrite H2.
  - split; [by split|done].
  - pose proof BITMAP_WORDS_Z as HB.
    assert (Forall u64 (replicate BITMAP_WORDS 0)) as Hz by by apply Forall_replicate.
    assert (Forall u64 (foldl set_bit (replicate BITMAP_WORDS 0) slots)) as Hw by by apply set_bits_u64.
    split; [split; [by rewrite length_set_bits, length_replicate|done]|].
    destruct (bitmap_slots _ Hw) as [H1 H2]. apply increasing_ext; [done..|]. intros x. rewrite H2.
    rewrite Forall_forall in Hin. assert (Forall (λ bit, 0 ≤ bit < 64 * zlen (replicate BITMAP_WORDS 0)) slots) as Hbits.
    { apply Forall_forall. intros y Hy. apply Hin in Hy. unfold in_stripe, STRIPE_ROWS in Hy. rewrite zlen_replicate, HB. lia. }
    split.
    + intros [Hx Hg]. rewrite get_set_bits in Hg by done. apply orb_true_iff in Hg as [Hg|Hg]; [by apply bool_decide_eq_true in Hg|].
      rewrite get_bit_testbit in Hg by done. destruct (replicate BITMAP_WORDS 0 !! Z.to_nat (x / 64)) as [w|] eqn:Ew; [|done].
      apply lookup_replicate in Ew as [-> _]. by rewrite Z.bits_0 in Hg.
    + intros Hx. pose proof (Hin x Hx) as [H0 _]. split; [done|]. rewrite get_set_bits by done. by rewrite bool_decide_true.
Qed.

(** ** How many *)

Lemma count_ones_filter n w :
  count_ones n w = Z.of_nat (length (filter (λ i, Z.testbit w (Z.of_nat i) = true) (seq 0 n))).
Proof.
  induction n as [|n IH]; [done|]. cbn [count_ones]. rewrite IH, seq_S, filter_app, length_app, filter_cons, filter_nil, Nat.add_0_l.
  destruct (Z.testbit w (Z.of_nat n)); [rewrite decide_True by done|rewrite decide_False by done]; simpl; lia.
Qed.

Lemma bits_loop_count k w : u64 w → Z.of_nat (length (bits_loop 64 (Z.of_nat k) w)) = count_ones 64 w.
Proof.
  intros Hw. destruct (bitmap_word k w Hw) as [Hs Hx]. rewrite count_ones_filter.
  assert (bits_loop 64 (Z.of_nat k) w
    = (λ i, Z.of_nat k * 64 + Z.of_nat i) <$> filter (λ i, Z.testbit w (Z.of_nat i) = true) (seq 0 64)) as ->; [|by rewrite length_fmap].
  apply increasing_ext; [done| |].
  - eapply (StronglySorted_fmap _ lt); [lia|]. apply sorted_filter. by apply (bool_decide_unpack _); vm_compute.
  - intros x. rewrite Hx, list_elem_of_fmap. setoid_rewrite list_elem_of_filter. setoid_rewrite elem_of_seq. split.
    + intros (i&->&Hi&Ht). exists (Z.to_nat i). rewrite Z2Nat.id by lia. split_and!; done || lia.
    + intros (i&->&Ht&Hi). exists (Z.of_nat i). split_and!; done || lia.
Qed.

Lemma count_words (f : nat → Z → list Z) words :
  (∀ k w, u64 w → Z.of_nat (length (f k w)) = count_ones 64 w) → Forall u64 words →
  foldr (λ word n, count_ones 64 word + n) 0 words = zlen (concat (imap f words)).
Proof.
  unfold zlen. intros Hf Hw. revert f Hf. induction Hw as [|w words Hw _ IH]; intros f Hf; [done|]. cbn [foldr].
  rewrite imap_cons. cbn [concat]. rewrite length_app, Nat2Z.inj_add, (Hf 0%nat w Hw). f_equal. apply IH. intros k. apply Hf.
Qed.

Lemma Base_len_slots b : base_wf b → Base_len b = zlen (Base_slots b).
Proof.
  destruct b as [|slots|words|runs]; cbn [base_wf Base_len Base_slots]; [done|done|..].
  - intros [_ Hw]. apply count_words; [|done]. intros k w. apply bits_loop_count.
  - intros [Hr _]. induction Hr as [|r runs Hr _ IH]; [done|]. cbn [foldr mbind list_bind]. rewrite IH. rewrite zlen_app.
    unfold range at 2. rewrite zlen_fmap. unfold zlen at 2. rewrite length_seq. lia.
Qed.

(** ** Marking a part *)

Lemma foldl_moved (mask : list Z) (d : Z) l :
  foldl (λ mask s, set_bit mask (s - d)) mask l = foldl set_bit mask ((λ s, s - d) <$> l).
Proof. revert mask. induction l as [|x l IH]; intros mask; [done|]. simpl. apply IH. Qed.

Lemma foldl_moved_pairs (mask : list Z) (d : Z) (l : list (Z * Z)) :
  foldl (λ mask e, set_bit mask (e.1 - d)) mask l = foldl set_bit mask ((λ s, s - d) <$> l.*1).
Proof. revert mask. induction l as [|x l IH]; intros mask; [done|]. simpl. apply IH. Qed.

Lemma foldl_runs {A} (f : A → list Z) (d : Z) (mask : list Z) (l : list A) :
  foldl (λ mask r, foldl (λ mask s, set_bit mask (s - d)) mask (f r)) mask l
  = foldl set_bit mask ((λ s, s - d) <$> (l ≫= f)).
Proof.
  revert mask. induction l as [|x l IH]; intros mask; [done|]. cbn [foldl mbind list_bind].
  rewrite fmap_app, foldl_app, IH. by rewrite foldl_moved.
Qed.

Definition part_of (part slot : Z) : Prop := part * PART_ROWS ≤ slot < part * PART_ROWS + PART_ROWS.

(** What a mask of a part is left by marking the slots [l]. *)
Lemma marked_bits part mask l at_ :
  length mask = PART_WORDS → (∀ x, x ∈ l → part_of part x) → 0 ≤ at_ →
  get_bit (foldl set_bit mask ((λ s, s - part * PART_ROWS) <$> l)) at_
  = get_bit mask at_ || bool_decide (part * PART_ROWS + at_ ∈ l).
Proof.
  intros Hl Hin Hat. pose proof PART_WORDS_Z. rewrite get_set_bits by (done || apply Forall_fmap, Forall_forall;
    intros x Hx; apply Hin in Hx; unfold part_of, PART_ROWS in *; simpl; unfold zlen; lia).
  rewrite orb_comm. f_equal. apply bool_decide_ext. rewrite list_elem_of_fmap. split.
  - intros (x&->&Hx). by replace (part * PART_ROWS + (x - part * PART_ROWS)) with x by lia.
  - intros Hx. exists (part * PART_ROWS + at_). split; [lia|done].
Qed.

Record marks (b : Base) (part : Z) (mask : list Z) (any : bool) (mask' : list Z) : Prop := {
  mk_length : length mask' = length mask;
  mk_bits : ∀ at_, 0 ≤ at_ < PART_ROWS →
    get_bit mask' at_ = get_bit mask at_ || bool_decide (part * PART_ROWS + at_ ∈ Base_slots b);
  mk_any : any = true ↔ ∃ x, x ∈ Base_slots b ∧ part_of part x }.

Lemma marks_list b part mask any (l : list Z) :
  length mask = PART_WORDS → (∀ x, x ∈ l ↔ x ∈ Base_slots b ∧ part_of part x) → (any = true ↔ l ≠ []) →
  marks b part mask any (foldl set_bit mask ((λ s, s - part * PART_ROWS) <$> l)).
Proof.
  intros Hl Hin Hany. split.
  - apply length_set_bits.
  - intros at_ Hat. rewrite marked_bits; [|done|intros x Hx; by apply Hin|lia]. f_equal. apply bool_decide_ext. rewrite Hin.
    unfold part_of. split; [by intros [? _]|]. intros ?. split; [done|lia].
  - rewrite Hany. split.
    + intros Hne. destruct l as [|x l]; [done|]. exists x. apply Hin. by left.
    + intros (x&Hx) ->. apply Hin in Hx. by apply elem_of_nil in Hx.
Qed.

Lemma negb_nil {A} `{EqDecision A} (l : list A) : negb (bool_decide (l = [])) = true ↔ l ≠ [].
Proof. destruct (decide (l = [])); [rewrite bool_decide_true by done|rewrite bool_decide_false by done]; simpl; naive_solver. Qed.

(** The slots from a bound and below another of a sorted list, as the loops find them. *)
Lemma between_filter {A} (f g : A → Z) (a b : Z) l :
  StronglySorted (λ x y, f x ≤ f y ∧ g x ≤ g y) l →
  take_while (λ x, g x <? b) (drop (prefix_length (λ x, f x <? a) l) l)
  = filter (λ x, (g x <? b) = true) (filter (λ x, (f x <? a) = false) l).
Proof.
  intros Hs. rewrite drop_prefix_filter.
  - apply take_while_filter. apply sorted_filter. eapply sorted_weaken; [|exact Hs]. intros x y [_ ?]. rewrite !Z.ltb_lt. lia.
  - eapply sorted_weaken; [|exact Hs]. intros x y [? _]. rewrite !Z.ltb_lt. lia.
Qed.

Lemma bitmap_part_bit words part mask at_ :
  length words = BITMAP_WORDS → 0 ≤ part < STRIPE_ROWS / PART_ROWS → length mask = PART_WORDS → 0 ≤ at_ < PART_ROWS →
  get_bit (zip_with Z.lor mask (take PART_WORDS (drop (Z.to_nat (part * PART_ROWS / 64)) words))) at_
  = get_bit mask at_ || get_bit words (part * PART_ROWS + at_).
Proof.
  intros Hw Hp Hm Hat. pose proof PART_WORDS_Z. pose proof BITMAP_WORDS_Z. unfold PART_ROWS in *.
  change (STRIPE_ROWS / 8192) with 64 in Hp. rewrite !get_bit_testbit by lia.
  replace (part * 8192 / 64) with (part * 128) by (replace (part * 8192) with (part * 128 * 64) by lia; by rewrite Z.div_mul).
  replace ((part * 8192 + at_) / 64) with (part * 128 + at_ / 64)
    by (replace (part * 8192 + at_) with (at_ + part * 128 * 64) by lia; rewrite Z.div_add by lia; lia).
  replace ((part * 8192 + at_) `mod` 64) with (at_ `mod` 64)
    by (replace (part * 8192 + at_) with (at_ + part * 128 * 64) by lia; by rewrite Z.mod_add).
  assert (0 ≤ at_ / 64 < 128) as Hd by (split; [apply Z.div_pos; lia|apply Z.div_lt_upper_bound; lia]).
  pose proof (Z.mod_pos_bound at_ 64 ltac:(lia)).
  destruct (mask !! Z.to_nat (at_ / 64)) as [m|] eqn:Em; [|apply lookup_ge_None in Em; lia].
  destruct (words !! Z.to_nat (part * 128 + at_ / 64)) as [w|] eqn:Ew; [|apply lookup_ge_None in Ew; lia].
  rewrite lookup_zip_with, Em, some_bind, lookup_take_lt, lookup_drop by lia.
  replace (Z.to_nat (part * 128) + Z.to_nat (at_ / 64))%nat with (Z.to_nat (part * 128 + at_ / 64)) by lia.
  rewrite Ew, some_bind.
  by rewrite Z.lor_spec.
Qed.

Lemma lor_all ws : negb (foldr Z.lor 0 ws =? 0) = true ↔ ∃ w, w ∈ ws ∧ w ≠ 0.
Proof.
  rewrite negb_true_iff, Z.eqb_neq. induction ws as [|w ws IH]; simpl.
  - split; [done|]. by intros (w&?%elem_of_nil&_).
  - rewrite Z.lor_eq_0_iff. split.
    + intros H. destruct (decide (w = 0)) as [->|Hw]; [|exists w; split; [by left|done]].
      destruct (proj1 IH) as (x&Hx&?); [tauto|]. exists x. split; [by right|done].
    + intros (x&[->|Hx]%elem_of_cons&Hne) [E1 E2]; [done|]. apply IH; [|done]. eauto.
Qed.

(** A bit of a part of a bitmap is a slot of the part. *)
Lemma bitmap_part_any words part :
  length words = BITMAP_WORDS → Forall u64 words → 0 ≤ part < STRIPE_ROWS / PART_ROWS →
  (∃ w, w ∈ take PART_WORDS (drop (Z.to_nat (part * PART_ROWS / 64)) words) ∧ w ≠ 0)
  ↔ ∃ x, x ∈ Base_slots (BBitmap words) ∧ part_of part x.
Proof.
  intros Hl Hw Hp. destruct (bitmap_slots words Hw) as [_ Hx]. pose proof PART_WORDS_Z. unfold part_of, PART_ROWS in *.
  replace (part * 8192 / 64) with (part * 128) by (replace (part * 8192) with (part * 128 * 64) by lia; by rewrite Z.div_mul).
  setoid_rewrite Hx. split.
  - intros (w&(k&Hk)%list_elem_of_lookup&Hne). apply lookup_take_Some in Hk as [Hk Hlt]. rewrite lookup_drop in Hk.
    rewrite Forall_lookup in Hw. pose proof (Hw _ _ Hk) as Hu. unfold fits in Hu. destruct (lowest_bit w) as (i&m&Hi&Hm&E); [lia|].
    assert (i < 64) as Hi64. { destruct (decide (i < 64)); [done|]. assert (2 ^ 64 ≤ 2 ^ i) by (apply Z.pow_le_mono_r; lia). nia. }
    exists (part * 8192 + Z.of_nat k * 64 + i). split; [split; [lia|]|lia].
    rewrite get_bit_testbit by lia. replace (part * 8192 + Z.of_nat k * 64 + i) with (i + (part * 128 + Z.of_nat k) * 64) by lia.
    rewrite Z.div_add, Z.div_small, Z.add_0_l, Z.mod_add, Z.mod_small by lia.
    replace (Z.to_nat (part * 128 + Z.of_nat k)) with (Z.to_nat (part * 128) + k)%nat by lia. rewrite Hk, E.
    rewrite lowest_testbit by lia. by rewrite Z.eqb_refl.
  - intros (x&[Hx0 Hg]&Hpart). rewrite get_bit_testbit in Hg by done. destruct (words !! Z.to_nat (x / 64)) as [w|] eqn:Ew; [|done].
    exists w. split; [|intros ->; by rewrite Z.bits_0 in Hg]. apply list_elem_of_lookup. exists (Z.to_nat (x / 64 - part * 128)).
    pose proof (Z.div_mod x 64 ltac:(done)). pose proof (Z.mod_pos_bound x 64 ltac:(lia)).
    apply lookup_take_Some. rewrite lookup_drop. split; [|lia].
    by replace (Z.to_nat (part * 128) + Z.to_nat (x / 64 - part * 128))%nat with (Z.to_nat (x / 64)) by lia.
Qed.

Lemma Base_mark_ok b part mask :
  base_wf b → 0 ≤ part < STRIPE_ROWS / PART_ROWS → length mask = PART_WORDS →
  let '(any, mask') := Base_mark b part mask in marks b part mask any mask'.
Proof.
  intros Hwf Hp Hm. destruct b as [|slots|words|runs]; cbn [Base_mark].
  - split; [done| |].
    + intros at_ _. cbn [Base_slots]. by rewrite bool_decide_false, orb_false_r by apply not_elem_of_nil.
    + split; [done|]. by intros (x&?%elem_of_nil&_).
  - destruct Hwf as [Hs _]. rewrite (between_filter id id).
    2:{ eapply sorted_weaken; [|exact Hs]. unfold id. intros x y ?. lia. }
    rewrite foldl_moved. apply marks_list; [done| |apply negb_nil].
    intros x. rewrite !list_elem_of_filter, Z.ltb_lt, Z.ltb_ge. unfold part_of, id. tauto.
  - destruct Hwf as [Hl Hw]. split.
    + rewrite length_zip_with, length_take, length_drop. pose proof PART_WORDS_Z. pose proof BITMAP_WORDS_Z.
      unfold PART_ROWS in *. change (STRIPE_ROWS / 8192) with 64 in Hp.
      replace (part * 8192 / 64) with (part * 128) by (replace (part * 8192) with (part * 128 * 64) by lia; by rewrite Z.div_mul). lia.
    + intros at_ Hat. rewrite bitmap_part_bit by done. f_equal. symmetry. destruct (bitmap_slots words Hw) as [_ Hx].
      destruct (get_bit words (part * PART_ROWS + at_)) eqn:Hg.
      * apply bool_decide_true, Hx. unfold PART_ROWS in *. split; [lia|done].
      * apply bool_decide_false. intros [_ ?]%Hx. congruence.
    + rewrite lor_all. by apply bitmap_part_any.
  - destruct Hwf as [Hr Hs]. assert (Forall (λ r : Z * Z, r.1 ≤ r.2) runs) as Hle by (eapply Forall_impl; [exact Hr|]; simpl; lia).
    destruct (runs_slots runs Hs Hle) as [_ Hx]. rewrite (between_filter snd fst).
    2:{ clear -Hs Hle. induction Hs as [|r l _ IH Hf]; [constructor|]. apply Forall_cons in Hle as [Hr Hle]. constructor; [auto|].
        apply Forall_forall. intros r' Hin. rewrite Forall_forall in Hf, Hle. apply Hf in Hin as H1. apply Hle in Hin. lia. }
    rewrite foldl_runs. set (marked := filter _ (filter _ runs)).
    assert (∀ r, r ∈ marked ↔ r ∈ runs ∧ part * PART_ROWS ≤ r.2 ∧ r.1 < part * PART_ROWS + PART_ROWS) as Hmk.
    { intros r. unfold marked. rewrite !list_elem_of_filter, Z.ltb_lt, Z.ltb_ge. tauto. }
    rewrite Forall_forall in Hle. apply marks_list; [done| |].
    + intros x. rewrite list_elem_of_bind, Hx. setoid_rewrite elem_of_range. unfold part_of. split.
      * intros (r&Hin&(Hr'&?&?)%Hmk). split; [exists r; split; [done|lia]|lia].
      * intros [(r&Hin&?) ?]. exists r. split; [lia|]. apply Hmk. split; [done|lia].
    + rewrite negb_nil. split; intros Hne E.
      * apply Hne. destruct marked as [|r l]; [done|]. exfalso.
        assert (r ∈ r :: l) as Hin by by left. pose proof (proj1 (Hmk r) Hin) as (Hr'&?&?). apply Hle in Hr'.
        assert (Z.max r.1 (part * PART_ROWS) ∈ (r :: l) ≫= (λ r0 : Z * Z, range (r0.1 `max` (part * PART_ROWS)) (r0.2 `min` (part * PART_ROWS + PART_ROWS - 1)))) as Hy.
        { apply list_elem_of_bind. exists r. split; [|done]. apply elem_of_range. unfold PART_ROWS in *. lia. }
        rewrite E in Hy. by apply elem_of_nil in Hy.
      * rewrite E in Hne. done.
Qed.

(** * The vector *)

Abbreviation by_slot := (StronglySorted (λ e e' : Z * Z, e.1 < e'.1)).

Record dv_wf (d : DeleteVector) : Prop := {
  dw_base : base_wf (dv_base d);
  dw_sorted : by_slot (dv_recent d);
  dw_slots : Forall (λ e, in_stripe e.1) (dv_recent d);
  dw_apart : ∀ e, e ∈ dv_recent d → e.1 ∉ Base_slots (dv_base d) }.

Lemma by_slot_fun l slot ts ts' : by_slot l → (slot, ts) ∈ l → (slot, ts') ∈ l → ts = ts'.
Proof.
  induction 1 as [|e l _ IH He]; [by intros ?%elem_of_nil|]. rewrite Forall_forall in He.
  intros [<-|H1]%elem_of_cons [E|H2]%elem_of_cons; [congruence| | |auto].
  - apply He in H2. simpl in H2. lia.
  - subst e. apply He in H1. simpl in H1. lia.
Qed.

Lemma find_slot_spec slot l : by_slot l → ∀ ts, (find_slot slot l).2 = Some ts ↔ (slot, ts) ∈ l.
Proof.
  intros Hs ts. unfold find_slot. cbn [snd].
  assert (StronglySorted (λ x y : Z * Z, (y.1 <? slot) = true → (x.1 <? slot) = true) l) as Hm.
  { eapply sorted_weaken; [|exact Hs]. intros x y. simpl. rewrite !Z.ltb_lt. lia. }
  pose proof (drop_prefix_filter _ _ Hm) as Hd. destruct (prefix_split (λ e : Z * Z, e.1 <? slot) l) as (_&_&Hhd).
  set (k := prefix_length _ l) in *. rewrite <-(Nat.add_0_r k), <-lookup_drop.
  assert ((slot, ts) ∈ l ↔ (slot, ts) ∈ drop k l) as ->.
  { rewrite Hd, list_elem_of_filter. simpl. rewrite Z.ltb_irrefl. tauto. }
  assert (by_slot (drop k l)) as Hs' by (rewrite <-(take_drop k l) in Hs; by apply StronglySorted_app in Hs as (_&?&_)).
  destruct (drop k l) as [|[x t] rest]; simpl.
  { split; [done|]. by intros ?%elem_of_nil. }
  specialize (Hhd _ eq_refl). apply Z.ltb_ge in Hhd. simpl in Hhd. apply StronglySorted_cons in Hs' as [Hf _]. rewrite Forall_forall in Hf.
  rewrite elem_of_cons. destruct (Z.eqb_spec x slot) as [->|Hne].
  - split; [intros [= ->]; by left|]. intros [[= ->]|Hin]; [done|]. apply Hf in Hin. simpl in Hin. lia.
  - split; [done|]. intros [[= -> ->]|Hin]; [done|]. apply Hf in Hin. simpl in Hin. lia.
Qed.

Lemma is_deleted_iff d slot snapshot txn :
  dv_wf d → 0 ≤ slot →
  is_deleted d slot snapshot txn = true
  ↔ slot ∈ Base_slots (dv_base d) ∨ ∃ ts, (slot, ts) ∈ dv_recent d ∧ visible_ts ts snapshot txn = true.
Proof.
  intros [Hb Hs _ _] Hslot. unfold is_deleted. rewrite orb_true_iff, base_contains_slots, bool_decide_eq_true by done.
  pose proof (find_slot_spec slot _ Hs) as Hf. destruct ((find_slot slot (dv_recent d)).2) as [ts|] eqn:E.
  - assert ((slot, ts) ∈ dv_recent d) as Hin by by apply Hf. split; [intros [?|?]; [by left|right; eauto]|].
    intros [?|(ts'&Hin'&?)]; [by left|right]. by rewrite (by_slot_fun _ _ _ _ Hs Hin Hin').
  - split; [intros [?|?]; [by left|done]|]. intros [?|(ts'&Hin'&_)]; [by left|]. by apply Hf in Hin'.
Qed.

(** A mask of a part is the vector asked for each slot of it. *)
Lemma dv_mask_ok d part snapshot txn mask :
  dv_wf d → 0 ≤ part < STRIPE_ROWS / PART_ROWS → length mask = PART_WORDS →
  ∃ any mask', dv_mask d part snapshot txn mask = Some (any, mask') ∧ length mask' = length mask
    ∧ (∀ at_, 0 ≤ at_ < PART_ROWS → get_bit mask' at_ = get_bit mask at_ || is_deleted d (part * PART_ROWS + at_) snapshot txn)
    ∧ (any = true ↔ ∃ at_, 0 ≤ at_ < PART_ROWS ∧ is_deleted d (part * PART_ROWS + at_) snapshot txn = true).
Proof.
  intros Hwf Hp Hm. pose proof Hwf as [Hb Hs Hin _]. unfold dv_mask. rewrite (proj2 (Z.ltb_lt part _)) by lia. cbn [negb].
  assert (∀ x, 0 ≤ x → 0 ≤ part * PART_ROWS + x) as Hnn by (intros; unfold PART_ROWS; lia).
  pose proof (Base_mark_ok (dv_base d) part mask Hb Hp Hm) as Hmk. destruct (Base_mark (dv_base d) part mask) as [any mask1].
  destruct Hmk as [M1 M2 M3]. cbv zeta. rewrite (between_filter fst fst).
  2:{ eapply sorted_weaken; [|exact Hs]. intros x y. simpl. lia. }
  set (near := filter _ (filter _ (filter _ (dv_recent d)))).
  assert (∀ e, e ∈ near ↔ e ∈ dv_recent d ∧ part_of part e.1 ∧ visible_ts e.2 snapshot txn = true) as Hnear.
  { intros e. unfold near. rewrite !list_elem_of_filter, Z.ltb_lt, Z.ltb_ge. unfold part_of. tauto. }
  rewrite foldl_moved_pairs.
  assert (∀ at_, 0 ≤ at_ < PART_ROWS → get_bit (foldl set_bit mask1 ((λ s, s - part * PART_ROWS) <$> near.*1)) at_
    = get_bit mask at_ || is_deleted d (part * PART_ROWS + at_) snapshot txn) as Hbits.
  { intros at_ Hat. rewrite marked_bits by (congruence || lia || intros x (e&->&(_&?&_)%Hnear)%list_elem_of_fmap; done).
    rewrite M2 by done. rewrite <-orb_assoc. f_equal. apply eq_true_iff_eq. rewrite orb_true_iff, !bool_decide_eq_true. rewrite (is_deleted_iff d); [|done|apply Hnn; lia].
    rewrite list_elem_of_fmap. setoid_rewrite Hnear. split.
    - intros [?|([s ts]&E&Hr&_&Hv)]; [by left|right]. exists ts. simpl in E. by rewrite E.
    - intros [?|(ts&Hr&Hv)]; [by left|right]. exists (part * PART_ROWS + at_, ts). split; [done|]. split_and!; [done| |done]. unfold part_of. cbn [fst]. lia. }
  eexists _, _. split; [done|]. split; [by rewrite length_set_bits|]. split; [done|].
  rewrite orb_true_iff, negb_nil, M3. split.
  - intros [(x&Hx&Hpx)|Hne].
    + exists (x - part * PART_ROWS). unfold part_of in Hpx. split; [lia|]. replace (part * PART_ROWS + (x - part * PART_ROWS)) with x by lia.
      apply is_deleted_iff; [done|pose proof (Hnn 0); lia|by left].
    + destruct near as [|[x ts] l] eqn:E; [done|]. assert ((x, ts) ∈ near) as Hx by (rewrite E; by left). rewrite E in Hx.
      apply Hnear in Hx as (Hr&Hpx&Hv). unfold part_of in Hpx. simpl in Hpx, Hv. exists (x - part * PART_ROWS). split; [lia|].
      replace (part * PART_ROWS + (x - part * PART_ROWS)) with x by lia.
      apply is_deleted_iff; [done|pose proof (Hnn 0); lia|right; eauto].
  - intros (at_&Hat&Hdel). apply is_deleted_iff in Hdel as [Hx|(ts&Hr&Hv)]; [| |done|apply Hnn; lia].
    + left. eexists. split; [done|]. unfold part_of. lia.
    + right. intros E. assert ((part * PART_ROWS + at_, ts) ∈ near) as Hx.
      { apply Hnear. split_and!; [done| |done]. unfold part_of. cbn [fst]. lia. }
      rewrite E in Hx. by apply elem_of_nil in Hx.
Qed.

(** ** Its operations *)

Lemma merge_slots_spec l r :
  increasing l → increasing r → (∀ x, x ∈ l → x ∉ r) →
  increasing (merge_slots l r) ∧ ∀ x, x ∈ merge_slots l r ↔ x ∈ l ∨ x ∈ r.
Proof.
  intros Hl. revert r. induction Hl as [|a l Hl IHl Ha].
  - intros r Hr _. assert (merge_slots [] r = r) as ->.
    { clear Hr. induction r as [|b r IH]; [done|]. cbn [merge_slots]. f_equal. exact IH. }
    split; [done|]. intros x. rewrite elem_of_nil. tauto.
  - intros r Hr. induction Hr as [|b r Hr IHr Hb]; intros Hout.
    + cbn [merge_slots]. destruct (IHl []) as [H1 H2]; [constructor|intros ? ? ?%elem_of_nil; done|].
      split.
      * constructor; [done|]. apply Forall_forall. intros x [Hx|?%elem_of_nil]%H2; [|done]. rewrite Forall_forall in Ha. auto.
      * intros x. rewrite elem_of_cons, H2, elem_of_cons, elem_of_nil. tauto.
    + cbn [merge_slots]. rewrite Forall_forall in Ha, Hb. destruct (Z.leb_spec a b) as [Hle|Hgt].
      * assert (a < b) as Hlt. { assert (a ≠ b) as Hne by (intros ->; apply (Hout b); by left). lia. }
        destruct (IHl (b :: r)) as [H1 H2]; [by constructor; [|apply Forall_forall]|intros x Hx; apply Hout; by right|].
        split.
        -- constructor; [done|]. apply Forall_forall. intros x [Hx|[->|Hx]%elem_of_cons]%H2; [auto|done|]. apply Hb in Hx. lia.
        -- intros x. rewrite elem_of_cons, H2, !elem_of_cons. tauto.
      * destruct IHr as [H1 H2]; [intros x Hx Hin; apply (Hout x Hx); by right|].
        split.
        -- constructor; [done|]. apply Forall_forall. intros x [[->|Hx]%elem_of_cons|Hx]%H2; [lia|apply Ha in Hx; lia|auto].
        -- intros x. rewrite elem_of_cons. setoid_rewrite H2. rewrite !elem_of_cons. tauto.
Qed.

(** ** A map of stamps

    A slot of the base has no stamp left; everyone sees it deleted, as they would one stamped 0. *)

Definition stamp_of (d : DeleteVector) (slot : Z) : option Z :=
  if Base_contains (dv_base d) slot then Some 0 else (find_slot slot (dv_recent d)).2.

Lemma stamp_of_iff d slot ts :
  dv_wf d → 0 ≤ slot →
  stamp_of d slot = Some ts ↔ (slot ∈ Base_slots (dv_base d) ∧ ts = 0) ∨ (slot, ts) ∈ dv_recent d.
Proof.
  intros [Hb Hs _ Hap] Hslot. unfold stamp_of. rewrite base_contains_slots by done. case_bool_decide as Hin.
  - split; [intros [= <-]; by left|]. intros [[_ ->]|Hr]; [done|]. by apply Hap in Hr.
  - rewrite find_slot_spec by done. tauto.
Qed.

Lemma stamp_of_none d slot :
  dv_wf d → 0 ≤ slot → stamp_of d slot = None ↔ slot ∉ Base_slots (dv_base d) ∧ ∀ ts, (slot, ts) ∉ dv_recent d.
Proof.
  intros Hwf Hslot. split.
  - intros E. split; [intros Hin|intros ts Hin]; [assert (stamp_of d slot = Some 0) by (apply stamp_of_iff; auto)|
      assert (stamp_of d slot = Some ts) by (apply stamp_of_iff; auto)]; congruence.
  - intros [H1 H2]. destruct (stamp_of d slot) as [ts|] eqn:E; [|done]. apply stamp_of_iff in E as [[? _]|?]; [done| |done..]. by apply H2 in H.
Qed.

Lemma is_deleted_stamp d slot snapshot txn :
  0 ≤ snapshot → is_deleted d slot snapshot txn = from_option (λ ts, visible_ts ts snapshot txn) false (stamp_of d slot).
Proof.
  intros Hs. unfold is_deleted, stamp_of. destruct (Base_contains (dv_base d) slot); simpl; [|by destruct ((find_slot slot (dv_recent d)).2)].
  symmetry. by apply Z.leb_le.
Qed.

Lemma stamp_of_ext d slot x :
  dv_wf d → 0 ≤ slot →
  (∀ ts, x = Some ts ↔ (slot ∈ Base_slots (dv_base d) ∧ ts = 0) ∨ (slot, ts) ∈ dv_recent d) → stamp_of d slot = x.
Proof.
  intros Hwf Hslot H. destruct (stamp_of d slot) as [ts|] eqn:E.
  - apply stamp_of_iff in E; [|done..]. apply H in E. done.
  - destruct x as [ts|]; [|done]. specialize (H ts) as [H _]. specialize (H eq_refl). apply stamp_of_iff in H; [congruence|done..].
Qed.

(** Inserting where the search says keeps the list sorted. *)
Lemma insert_by_slot slot ts l :
  by_slot l → (∀ t, (slot, t) ∉ l) →
  let at_ := prefix_length (λ e : Z * Z, e.1 <? slot) l in
  by_slot (take at_ l ++ (slot, ts) :: drop at_ l) ∧ take at_ l ++ (slot, ts) :: drop at_ l ≡ₚ (slot, ts) :: l.
Proof.
  intros Hs Hno at_. split; [|by rewrite <-Permutation_middle, take_drop].
  destruct (prefix_split (λ e : Z * Z, e.1 <? slot) l) as (_&Hlow&_). fold at_ in Hlow. rewrite Forall_forall in Hlow.
  assert (StronglySorted (λ x y : Z * Z, (y.1 <? slot) = true → (x.1 <? slot) = true) l) as Hm.
  { eapply sorted_weaken; [|exact Hs]. intros x y. simpl. rewrite !Z.ltb_lt. lia. }
  pose proof (drop_prefix_filter _ _ Hm) as Hd. fold at_ in Hd.
  assert (∀ e, e ∈ drop at_ l → slot < e.1) as Hhigh.
  { intros [x t] Hin. rewrite Hd in Hin. apply list_elem_of_filter in Hin as [Hge%Z.ltb_ge Hin]. simpl in *.
    assert (x ≠ slot) as Hne by (intros ->; by apply Hno in Hin). lia. }
  rewrite <-(take_drop at_ l) in Hs. apply StronglySorted_app in Hs as (Hs1&Hs2&Hs3).
  apply StronglySorted_app. split_and!; [done| |].
  - constructor; [done|]. apply Forall_forall. exact Hhigh.
  - intros x y Hx [->|Hy]%elem_of_cons; [|by apply Hs3]. apply Hlow in Hx. by apply Z.ltb_lt in Hx.
Qed.

Lemma dv_delete_ok slot snapshot txn d :
  dv_wf d → in_stripe slot → fits 63 txn → 0 ≤ snapshot →
  ∃ d', dv_delete slot snapshot txn d
      = Some ((λ ts, if visible_ts ts snapshot txn then Gone else Conflict) <$> stamp_of d slot, d')
    ∧ dv_wf d' ∧ ∀ t, 0 ≤ t → stamp_of d' t
        = if decide (t = slot ∧ stamp_of d slot = None) then Some (Z.lor txn UNCOMMITTED) else stamp_of d t.
Proof.
  intros Hwf [H0 H1] Ht Hs. unfold dv_delete. rewrite (proj2 (Z.ltb_lt slot _)) by done.
  rewrite (committed_bit txn) by done. cbn [negb Z.eqb]. pose proof (stamp_of_none d slot Hwf H0) as Hnone. unfold stamp_of at 1. unfold stamp_of in Hnone.
  destruct (Base_contains (dv_base d) slot) eqn:Eb.
  { exists d. split; [simpl; unfold visible_ts; simpl; by rewrite (proj2 (Z.leb_le 0 snapshot))|]. split; [done|].
    intros t _. rewrite decide_False; [done|]. unfold stamp_of. rewrite Eb. by intros [_ ?]. }
  unfold find_slot in *. cbn [snd] in *. set (at_ := prefix_length _ (dv_recent d)) in *.
  destruct (match dv_recent d !! at_ with Some (s, ts) => _ | None => None end) as [ts|] eqn:Ef.
  { exists d. split; [done|]. split; [done|]. intros t _. rewrite decide_False; [done|]. unfold stamp_of, find_slot. rewrite Eb. fold at_. cbn [snd].
    rewrite Ef. by intros [_ ?]. }
  destruct (proj1 Hnone eq_refl) as [Hnb Hnr]. pose proof Hwf as [W1 W2 W3 W4].
  destruct (insert_by_slot slot (Z.lor txn UNCOMMITTED) (dv_recent d) W2 Hnr) as [I1 I2]. fold at_ in I1, I2.
  eexists. split; [done|]. set (d' := mkDeletes _ _).
  assert (dv_wf d') as Hwf'.
  { split; [done|done|cbn [dv_recent d']; rewrite I2; by constructor|]. intros e He. cbn [dv_recent dv_base d'] in *. rewrite I2 in He.
    apply elem_of_cons in He as [->|He]; [done|by apply W4]. }
  split; [done|]. intros t Ht0. apply stamp_of_ext; [done..|]. intros ts. cbn [dv_recent dv_base d']. rewrite I2, elem_of_cons.
  case_decide as Hd.
  - destruct Hd as [-> _]. split; [intros [= <-]; by right; left|]. intros [[? _]|[[= ->]|Hin]]; [done..|by apply Hnr in Hin].
  - rewrite stamp_of_iff by done. assert (t ≠ slot) as Hne.
    { intros ->. apply Hd. split; [done|]. unfold stamp_of, find_slot. rewrite Eb. fold at_. cbn [snd]. by rewrite Ef. }
    naive_solver congruence.
Qed.

Lemma uncommitted_not_zero txn : Z.lor txn UNCOMMITTED ≠ 0.
Proof. intros E. apply Z.lor_eq_0_iff in E as [_ E]. done. Qed.

Lemma dv_commit_ok txn ts d :
  dv_wf d → fits 63 ts →
  ∃ n d', dv_commit txn ts d = Some (n, d') ∧ dv_wf d'
    ∧ ∀ t, 0 ≤ t → stamp_of d' t = if decide (stamp_of d t = Some (Z.lor txn UNCOMMITTED)) then Some ts else stamp_of d t.
Proof.
  intros Hwf Hts. unfold dv_commit.
  rewrite (committed_bit ts) by done. cbn [negb Z.eqb]. eexists _, _. split; [done|]. pose proof Hwf as [W1 W2 W3 W4]. set (me := Z.lor txn UNCOMMITTED).
  set (f := λ e : Z * Z, if e.2 =? me then (e.1, ts) else e). set (d' := mkDeletes _ _).
  assert (∀ e, (f e).1 = e.1) as Hf1 by (intros e; unfold f; by case_match).
  assert (∀ x t, (x, t) ∈ f <$> dv_recent d ↔ (t = ts ∧ (x, me) ∈ dv_recent d) ∨ (t ≠ me ∧ (x, t) ∈ dv_recent d)) as Hin.
  { intros x t. rewrite list_elem_of_fmap. split.
    - intros ([y u]&E&Hy). unfold f in E. simpl in E. destruct (Z.eqb_spec u me) as [Eu|Hu]; injection E as Ex Et; subst x t.
      + left. split; [done|]. by rewrite <-Eu.
      + by right.
    - intros [[-> Hx]|[Hne Hx]]; [exists (x, me)|exists (x, t)]; unfold f; simpl; [by rewrite Z.eqb_refl|].
      by rewrite (proj2 (Z.eqb_neq _ _)). }
  assert (dv_wf d') as Hwf'.
  { split; [done| | |].
    - cbn [dv_recent d']. eapply (StronglySorted_fmap _ (λ e e' : Z * Z, e.1 < e'.1)); [|done]. intros x y. by rewrite !Hf1.
    - cbn [dv_recent d']. apply Forall_fmap. eapply Forall_impl; [exact W3|]. intros e He. simpl. by rewrite Hf1.
    - cbn [dv_recent dv_base d']. intros e (x&->&Hx)%list_elem_of_fmap. rewrite Hf1. by apply W4. }
  split; [done|]. intros t Ht. apply stamp_of_ext; [done..|]. intros u. cbn [dv_recent dv_base d']. rewrite Hin.
  pose proof (uncommitted_not_zero txn) as Hnz. case_decide as Hd.
  - apply stamp_of_iff in Hd as [[_ ?]|Hr]; [done| |done..]. split; [intros [= <-]; right; by left|].
    intros [[Hb _]|[[-> _]|[Hne Hr']]]; [by apply W4 in Hr|done|]. by rewrite (by_slot_fun _ _ _ _ W2 Hr' Hr) in Hne.
  - rewrite stamp_of_iff by done. split.
    + intros [[? ?]|Hr]; [by left|]. right. right. split; [|done]. intros E. rewrite E in Hr. apply Hd, stamp_of_iff; auto.
    + intros [[? ?]|[[_ Hr]|[? ?]]]; [by left| |by right]. destruct Hd. apply stamp_of_iff; auto.
Qed.

Lemma dv_abort_ok txn d :
  dv_wf d →
  let d' := (dv_abort txn d).2 in
  dv_wf d' ∧ ∀ t, 0 ≤ t → stamp_of d' t = if decide (stamp_of d t = Some (Z.lor txn UNCOMMITTED)) then None else stamp_of d t.
Proof.
  intros Hwf d'. pose proof Hwf as [W1 W2 W3 W4]. cbn [dv_abort snd] in d'.
  assert (dv_wf d') as Hwf'.
  { split; [done|by apply sorted_filter| |].
    - apply Forall_forall. intros e [_ He]%list_elem_of_filter. rewrite Forall_forall in W3. auto.
    - intros e [_ He]%list_elem_of_filter. by apply W4. }
  split; [done|]. intros t Ht. apply stamp_of_ext; [done..|]. intros u. cbn [dv_recent dv_base d']. rewrite list_elem_of_filter. simpl.
  pose proof (uncommitted_not_zero txn) as Hnz. case_decide as Hd.
  - apply stamp_of_iff in Hd as [[_ ?]|Hr]; [done| |done..]. split; [done|]. intros [[Hb _]|[Hne Hr']]; [by apply W4 in Hr|].
    by rewrite (by_slot_fun _ _ _ _ W2 Hr' Hr) in Hne.
  - rewrite stamp_of_iff by done. split.
    + intros [[? ?]|Hr]; [by left|right]. split; [|done]. intros E. rewrite E in Hr. apply Hd, stamp_of_iff; auto.
    + intros [?|[_ ?]]; auto.
Qed.

(** Folding moves the deletes committed by the horizon into the base. *)
Lemma fold_at_ok horizon d :
  dv_wf d → let d' := (fold_at horizon d).2 in
  dv_wf d' ∧ ∀ t, 0 ≤ t → stamp_of d' t
    = (λ ts, if (Z.land ts UNCOMMITTED =? 0) && (ts <=? horizon) then 0 else ts) <$> stamp_of d t.
Proof.
  intros Hwf. pose proof Hwf as [Hb Hs Hin Hap].
  set (below := λ e : Z * Z, (Z.land e.2 UNCOMMITTED =? 0) && (e.2 <=? horizon)).
  set (folded := fst <$> filter (λ e, below e = true) (dv_recent d)).
  set (recent := filter (λ e, below e = false) (dv_recent d)).
  assert (fold_at horizon d = if bool_decide (folded = []) then (0, d)
    else (zlen folded, mkDeletes (Base_of (merge_slots (Base_slots (dv_base d)) folded)) recent)) as -> by reflexivity.
  destruct (bool_decide (folded = [])) eqn:Ef.
  { split; [exact Hwf|]. intros t Ht. cbn [snd]. destruct (stamp_of d t) as [ts|] eqn:Es; [|done]. simpl. f_equal.
    apply stamp_of_iff in Es as [[_ ->]|Hr]; [by case_match| |done..]. change (ts = if below (t, ts) then 0 else ts).
    destruct (below (t, ts)) eqn:Hbe; [|done]. apply bool_decide_eq_true in Ef.
    assert (t ∈ folded) as Hf by (apply list_elem_of_fmap; exists (t, ts); by rewrite list_elem_of_filter).
    rewrite Ef in Hf. by apply elem_of_nil in Hf. }
  cbn [snd]. cbv zeta.
  set (d' := mkDeletes _ recent).
  destruct (base_slots_wf _ Hb) as [Hbs Hbi]. rewrite Forall_forall in Hin.
  assert (∀ x, x ∈ folded ↔ ∃ ts, (x, ts) ∈ dv_recent d ∧ below (x, ts) = true) as Hfold.
  { intros x. unfold folded. rewrite list_elem_of_fmap. setoid_rewrite list_elem_of_filter. split.
    - intros ([s ts]&->&?&?). eauto.
    - intros (ts&?&?). by exists (x, ts). }
  assert (increasing folded) as Hfi by (eapply (StronglySorted_fmap _ (λ e e' : Z * Z, e.1 < e'.1)); [done|by apply sorted_filter]).
  destruct (merge_slots_spec (Base_slots (dv_base d)) folded) as [M1 M2]; [done..| |].
  { intros x Hx (ts&Hr&_)%Hfold. by apply (Hap _ Hr). }
  destruct (Base_of_wf (merge_slots (Base_slots (dv_base d)) folded)) as [W1 W2].
  { split; [done|]. apply Forall_forall. intros x [Hx|(ts&Hr&_)%Hfold]%M2; [auto|by apply (Hin _ Hr)]. }
  assert (dv_wf d') as Hwf'.
  { split; [done|by apply sorted_filter| |].
    - apply Forall_forall. intros e [_ He]%list_elem_of_filter. auto.
    - intros e [Hbe He]%list_elem_of_filter. unfold d'. cbn [dv_base]. rewrite W2, M2, Hfold. intros [Hx|(ts&Hr&Hb')]; [by apply (Hap _ He)|].
      destruct e as [s t]. rewrite (by_slot_fun _ _ _ _ Hs Hr He) in Hb'. cbn [fst] in Hb'. change (below (s, t) = false) in Hbe. by rewrite Hbe in Hb'. }
  split; [done|]. intros t Ht. apply stamp_of_ext; [done..|]. intros u. unfold d'. cbn [dv_base dv_recent]. rewrite W2, M2, Hfold.
  unfold recent. rewrite list_elem_of_filter. destruct (stamp_of d t) as [ts|] eqn:Es; cbn [fmap option_fmap option_map].
  - change ((Z.land ts UNCOMMITTED =? 0) && (ts <=? horizon)) with (below (t, ts)). apply stamp_of_iff in Es as [[Hx ->]|Hr]; [| |done..].
    + assert ((if below (t, 0) then 0 else 0) = 0) as -> by by case_match. split; [intros [= <-]; auto|].
      intros [[_ ->]|[_ Hr]]; [done|]. by apply Hap in Hr.
    + destruct (below (t, ts)) eqn:Hbe.
      * split; [intros [= <-]; left; eauto|]. intros [[_ ->]|[Hbe' Hr']]; [done|]. rewrite (by_slot_fun _ _ _ _ Hs Hr' Hr) in Hbe'. congruence.
      * split; [intros [= <-]; auto|]. intros [[[Hx|(u'&Hr'&Hb')] _]|[_ Hr']]; [by apply Hap in Hr| |by rewrite (by_slot_fun _ _ _ _ Hs Hr' Hr)].
        rewrite (by_slot_fun _ _ _ _ Hs Hr' Hr) in Hb'. congruence.
  - apply stamp_of_none in Es as [Hx Hr]; [|done..]. split; [done|]. intros [[[?|(u'&Hr'&_)] _]|[_ Hr']]; [done|by apply Hr in Hr'..].
Qed.
