(* ===== verification/DeletesFile.v ===== *)
(** The file of a delete vector's base, and what the vector as a whole promises: the encoding reads
    back, the decoder answers nothing but a container the other operations may rely on, and every
    operation is one on a map from a slot to the stamp of its delete. *)

From S2P Require Import Prelude Undo UndoWords Deletes HotCells DeletesLaws.
Local Open Scope Z_scope.

(** * The base in the file *)

Section chunks.
Context {A : Type} (n : nat) (Hn : (0 < n)%nat).

Lemma chunks_exact_join fuel (l : list A) (m : nat) :
  length l = (n * m)%nat → (m ≤ fuel)%nat →
  concat (chunks_exact n fuel l) = l ∧ Forall (λ c, length c = n) (chunks_exact n fuel l) ∧ length (chunks_exact n fuel l) = m.
Proof.
  revert l m. induction fuel as [|fuel IH]; intros l m Hl Hm.
  { assert (m = 0)%nat as -> by lia. rewrite Nat.mul_0_r in Hl. destruct l; [|done]. done. }
  cbn [chunks_exact]. destruct m as [|m].
  - rewrite Nat.mul_0_r in Hl. destruct l; [|done]. cbn [length]. rewrite (proj2 (Nat.leb_gt n 0)) by lia. done.
  - rewrite (proj2 (Nat.leb_le _ _)) by nia. destruct (IH (drop n l) m) as (E1&E2&E3); [rewrite length_drop; nia|lia|].
    cbn [concat length]. rewrite E1, take_drop, E3. split_and!; [done| |done]. constructor; [rewrite length_take; nia|done].
Qed.

Lemma chunks_exact_concat fuel (ls : list (list A)) :
  Forall (λ c, length c = n) ls → (length ls ≤ fuel)%nat → chunks_exact n fuel (concat ls) = ls.
Proof.
  intros H. revert fuel. induction H as [|c ls Hc _ IH]; intros fuel Hf; [destruct fuel; [done|]|].
  - cbn [concat chunks_exact length]. by rewrite (proj2 (Nat.leb_gt n 0)) by lia.
  - destruct fuel as [|fuel]; [simpl in Hf; lia|]. cbn [concat chunks_exact]. rewrite length_app.
    rewrite (proj2 (Nat.leb_le _ _)) by lia. rewrite <-Hc, take_app_length, drop_app_length, Hc. f_equal. apply IH. simpl in Hf. lia.
Qed.
End chunks.

Lemma windows2_sorted {A} (p : A → A → bool) (l : list A) :
  (∀ x y z, p x y = true → p y z = true → p x z = true) → windows2 p l = true ↔ StronglySorted (λ x y, p x y = true) l.
Proof.
  intros Htr. induction l as [|x l IH]; [split; [constructor|done]|]. destruct l as [|y l].
  - split; [by repeat constructor|done].
  - change (windows2 p (x :: y :: l)) with (p x y && windows2 p (y :: l)). rewrite andb_true_iff, IH. split.
    + intros [Hxy Hs]. constructor; [done|]. apply StronglySorted_cons in Hs as [Hy _]. constructor; [done|].
      eapply Forall_impl; [exact Hy|]. intros z Hz. by apply (Htr x y z).
    + intros [Hf Hs]%StronglySorted_cons. by apply Forall_cons in Hf as [? _].
Qed.

Definition codable (b : Base) : Prop :=
  base_wf b ∧ match b with BArray slots => zlen slots ≤ ARRAY_MAX | _ => True end.

(** ** Words of four bytes *)

Lemma zlen_words (words : list Z) : length (words ≫= le_bytes 4) = (4 * length words)%nat.
Proof.
  induction words as [|w words IH]; [done|]. rewrite bind_cons, length_app, length_le_bytes, IH. cbn [length]. lia.
Qed.

Lemma words_chunks words : words ≫= le_bytes 4 = concat (le_bytes 4 <$> words).
Proof. induction words as [|w words IH]; [done|]. by rewrite bind_cons, IH. Qed.

Lemma words_read words fuel :
  Forall u32 words → (length words ≤ fuel)%nat → le_val <$> chunks_exact 4 fuel (words ≫= le_bytes 4) = words.
Proof.
  intros Hw Hf. rewrite words_chunks, chunks_exact_concat; [|lia| |by rewrite length_fmap].
  - rewrite <-list_fmap_compose. induction Hw as [|w words Hu Hw IH]; [done|]. cbn [fmap list_fmap]. f_equal.
    + by apply le_val_bytes.
    + apply IH. cbn [length] in Hf. lia.
  - apply Forall_fmap, Forall_true. intros x. apply length_le_bytes.
Qed.

Lemma words_written bytes m :
  bytes_ok bytes → length bytes = (4 * m)%nat →
  Forall u32 (le_val <$> chunks_exact 4 (length bytes + 8) bytes)
  ∧ (le_val <$> chunks_exact 4 (length bytes + 8) bytes) ≫= le_bytes 4 = bytes.
Proof.
  intros Hb Hl. destruct (chunks_exact_join 4 ltac:(lia) (length bytes + 8) bytes m Hl ltac:(lia)) as (E1&E2&E3).
  assert (Forall (λ c, length c = 4%nat ∧ bytes_ok c) (chunks_exact 4 (length bytes + 8) bytes)) as Hc.
  { apply Forall_and; split; [done|]. rewrite <-E1 in Hb. by apply Forall_concat in Hb. }
  split.
  - apply Forall_fmap. eapply Forall_impl; [exact Hc|]. intros c [Hlc Hbc]. pose proof (le_val_fits c Hbc) as H. by rewrite Hlc in H.
  - rewrite words_chunks, <-list_fmap_compose. etransitivity; [|exact E1]. f_equal.
    etransitivity; [|apply list_fmap_id]. apply list_fmap_ext. intros i c Hi. rewrite Forall_lookup in Hc. destruct (Hc i c Hi). by apply le_bytes_val.
Qed.

(** ** The bytes and their words *)

Definition file_of (kind count : Z) (words : list Z) : list Z :=
  [kind; 0; 0; 0] ++ le_bytes 4 count ++ (words ≫= le_bytes 4).

Lemma decode_file kind count words :
  u32 count → Forall u32 words → Base_decode (file_of kind count words) = decode_words kind count words.
Proof.
  intros Hc Hw. assert (zlen (file_of kind count words) = 8 + 4 * zlen words) as Hlen.
  { unfold file_of, zlen. rewrite !length_app, length_le_bytes, zlen_words. cbn [length]. lia. }
  unfold Base_decode. rewrite Hlen. rewrite (proj2 (Z.ltb_ge _ _)) by (unfold zlen; lia).
  assert (slice 1 4 (file_of kind count words) = [0; 0; 0]) as -> by done.
  assert (slice 4 8 (file_of kind count words) = le_bytes 4 count) as ->.
  { unfold file_of. rewrite slice_skip by done. apply slice_hit; [done|]. by rewrite zlen_le_bytes. }
  rewrite bool_decide_eq_true_2 by done. cbn [orb negb].
  rewrite Z.add_simpl_l, Z.mul_comm, Z.mod_mul by lia. cbn [Z.eqb negb]. rewrite le_val_bytes by done.
  assert (drop 8 (file_of kind count words) = words ≫= le_bytes 4) as ->.
  { unfold file_of. rewrite (assoc_L app). apply drop_app_length'. rewrite length_app, length_le_bytes. done. }
  rewrite words_read; [done..|]. unfold zlen in Hlen. lia.
Qed.

Lemma decode_shape bytes b :
  bytes_ok bytes → Base_decode bytes = Ok b →
  ∃ kind count words, u8 kind ∧ u32 count ∧ Forall u32 words ∧ bytes = file_of kind count words ∧ decode_words kind count words = Ok b.
Proof.
  intros Hb Hd. assert (∃ kind count words, u8 kind ∧ u32 count ∧ Forall u32 words ∧ bytes = file_of kind count words) as Hex.
  { revert Hd. unfold Base_decode. destruct (Z.ltb_spec (zlen bytes) 8) as [|Hl]; [done|]. cbn [orb].
    case_bool_decide as Hz; [|done]. cbn [negb]. destruct (Z.eqb_spec ((zlen bytes - 8) `mod` 4) 0) as [Hm|]; [|done]. intros _.
    assert (length (drop 8 bytes) = 4 * Z.to_nat ((zlen bytes - 8) / 4))%nat as Hlen.
    { rewrite length_drop. unfold zlen in *. pose proof (Z.div_mod (Z.of_nat (length bytes) - 8) 4 ltac:(lia)). lia. }
    destruct (words_written (drop 8 bytes) _ (Forall_drop _ _ _ Hb) Hlen) as [W1 W2].
    assert (length (slice 4 8 bytes) = 4%nat) as Hs by (apply Nat2Z.inj; change (zlen (slice 4 8 bytes) = 4); rewrite zlen_slice; lia).
    exists (byte_at bytes 0), (le_val (slice 4 8 bytes)), (le_val <$> chunks_exact 4 (length (drop 8 bytes) + 8) (drop 8 bytes)).
    split_and!; [by apply byte_at_ok| |done|].
    { pose proof (le_val_fits (slice 4 8 bytes) ltac:(auto with machine)) as H. by rewrite Hs in H. }
    unfold file_of. rewrite W2, le_bytes_val by auto with machine.
    rewrite <-(slice_drop 8 bytes) at 1. rewrite (slice_split 0 1 8), (slice_split 1 4 8) by lia.
    change (slice 0 1 bytes) with (slice 0 (0 + 1) bytes). rewrite (byte_at_slice bytes 0) by lia. rewrite Hz. by rewrite <-!(assoc_L app). }
  destruct Hex as (kind&count&words&Hk&Hc&Hw&->). rewrite decode_file in Hd by done. eauto 8.
Qed.

(** ** Words two by two *)

Definition unpair (r : Z * Z) : list Z := [r.1; r.2].

Lemma unpair_chunks l : l ≫= unpair = concat (unpair <$> l).
Proof. induction l as [|r l IH]; [done|]. by rewrite bind_cons, IH. Qed.

Lemma length_unpairs l : length (l ≫= unpair) = (2 * length l)%nat.
Proof. induction l as [|r l IH]; [done|]. rewrite bind_cons, length_app, IH. cbn [length unpair]. lia. Qed.

Lemma pairs_read l fuel : (length l ≤ fuel)%nat → pair_of <$> chunks_exact 2 fuel (l ≫= unpair) = l.
Proof.
  intros Hf. rewrite unpair_chunks, chunks_exact_concat; [|lia| |by rewrite length_fmap].
  - rewrite <-list_fmap_compose. clear Hf. induction l as [|[a b] l IH]; [done|]. cbn [fmap list_fmap]. by rewrite IH.
  - by apply Forall_fmap, Forall_true.
Qed.

Lemma pairs_written (words : list Z) m fuel :
  length words = (2 * m)%nat → (m ≤ fuel)%nat →
  (pair_of <$> chunks_exact 2 fuel words) ≫= unpair = words ∧ length (pair_of <$> chunks_exact 2 fuel words) = m.
Proof.
  intros Hl Hf. destruct (chunks_exact_join 2 ltac:(lia) fuel words m Hl Hf) as (E1&E2&E3). split; [|by rewrite length_fmap].
  rewrite unpair_chunks, <-list_fmap_compose. etransitivity; [|exact E1]. f_equal.
  etransitivity; [|apply list_fmap_id]. apply list_fmap_ext. intros i c Hi. rewrite Forall_lookup in E2. specialize (E2 i c Hi).
  by destruct c as [|x [|y []]].
Qed.

(** A word of a bitmap is two words of the file. *)
Definition halves (word : Z) : Z * Z := (wrap 32 word, wrap 32 (word ≫ 32)).
Definition whole (r : Z * Z) : Z := Z.lor r.1 (r.2 ≪ 32).

Lemma whole_halves word : u64 word → whole (halves word) = word.
Proof.
  intros H. unfold whole, halves. cbn [fst snd]. unfold fits in H. rewrite lor_shiftl_add by (lia || apply wrap_fits; lia).
  unfold wrap. rewrite Z.shiftr_div_pow2 by lia. rewrite (Z.mod_small (word / 2 ^ 32)) by (split; [apply Z.div_pos|apply Z.div_lt_upper_bound]; lia).
  pose proof (Z.div_mod word (2 ^ 32)). lia.
Qed.

Lemma halves_whole r : u32 r.1 → u32 r.2 → halves (whole r) = r ∧ u64 (whole r).
Proof.
  destruct r as [a b]. unfold fits, whole, halves. cbn [fst snd]. intros Ha Hb. rewrite lor_shiftl_add by (done || lia).
  unfold wrap. rewrite Z.shiftr_div_pow2 by lia. split; [|lia].
  rewrite Z.mod_add, Z.div_add by lia. rewrite (Z.div_small a), !Z.mod_small by lia. done.
Qed.

(** ** The containers a file holds *)

Lemma forallb_all {A} (p : A → bool) (P : A → Prop) l : (∀ x, p x = true ↔ P x) → forallb p l = true ↔ Forall P l.
Proof.
  intros Hp. induction l as [|x l IH]; [done|]. cbn [forallb]. by rewrite andb_true_iff, Forall_cons, IH, Hp.
Qed.

Lemma windows2_all {A} (p : A → A → bool) (R : relation A) l :
  (∀ x y, p x y = true ↔ R x y) → (∀ x y z, R x y → R y z → R x z) → windows2 p l = true ↔ StronglySorted R l.
Proof.
  intros Hp Htr. rewrite windows2_sorted; [split; apply sorted_weaken; intros x y; apply Hp|].
  intros x y z. rewrite !Hp. apply Htr.
Qed.

(** Runs that neither overlap nor touch are compared pairwise: a run is at least one slot. *)
Lemma runs_windows runs :
  Forall (λ r : Z * Z, r.1 ≤ r.2 ∧ r.2 < STRIPE_ROWS) runs →
  windows2 (λ r r' : Z * Z, r.2 + 1 <? r'.1) runs = true ↔ StronglySorted (λ r r' : Z * Z, r.2 + 1 < r'.1) runs.
Proof.
  induction 1 as [|r runs Hr Hrs IH]; [split; [constructor|done]|]. destruct runs as [|r' runs]; [split; [by repeat constructor|done]|].
  cbn [windows2] in *. rewrite andb_true_iff, IH, Z.ltb_lt. split.
  - intros [Hlt Hs]. constructor; [done|]. apply StronglySorted_cons in Hs as [Hr' _]. constructor; [done|].
    apply Forall_cons in Hrs as [[? _] _]. eapply Forall_impl; [exact Hr'|]. cbn beta. lia.
  - intros [Hf Hs]%StronglySorted_cons. by apply Forall_cons in Hf as [? _].
Qed.

Lemma runs_words runs :
  Forall (λ r : Z * Z, 0 ≤ r.1) runs →
  forallb (λ r : Z * Z, (r.1 <=? r.2) && (r.2 <? STRIPE_ROWS)) runs && windows2 (λ r r' : Z * Z, r.2 + 1 <? r'.1) runs = true
  ↔ base_wf (BRuns runs).
Proof.
  intros H0. rewrite andb_true_iff, (forallb_all _ (λ r : Z * Z, r.1 ≤ r.2 ∧ r.2 < STRIPE_ROWS)) by (intros; lia). cbn [base_wf]. split.
  - intros [H1 H2%runs_windows]; [|done]. split; [|done]. apply Forall_forall. intros r Hr. rewrite Forall_forall in H0, H1. specialize (H0 r Hr). specialize (H1 r Hr). lia.
  - intros [H1 H2]. assert (Forall (λ r : Z * Z, r.1 ≤ r.2 ∧ r.2 < STRIPE_ROWS) runs) as H3 by (eapply Forall_impl; [exact H1|]; cbn beta; lia).
    split; [done|]. by apply runs_windows.
Qed.

Lemma unpairs_u32 l : Forall u32 (l ≫= unpair) ↔ Forall (λ r : Z * Z, u32 r.1 ∧ u32 r.2) l.
Proof.
  induction l as [|r l IH]; [done|]. rewrite bind_cons, Forall_app, IH, Forall_cons. unfold unpair. rewrite !Forall_cons, Forall_nil. tauto.
Qed.

(** There are fewer runs than slots of a stripe. *)
Lemma runs_few runs lo :
  Forall (λ r : Z * Z, lo ≤ r.1 ≤ r.2 ∧ r.2 < STRIPE_ROWS) runs → StronglySorted (λ r r' : Z * Z, r.2 + 1 < r'.1) runs →
  lo ≤ STRIPE_ROWS → lo + zlen runs ≤ STRIPE_ROWS.
Proof.
  intros Hr Hs. revert lo Hr. induction Hs as [|r runs Hs IH Hlt]; intros lo Hr Hlo; [unfold zlen; cbn [length]; lia|].
  apply Forall_cons in Hr as [Hr Hrs]. assert (r.2 + 1 + zlen runs ≤ STRIPE_ROWS).
  { apply IH; [|lia]. apply Forall_forall. intros r' Hr'. rewrite Forall_forall in Hlt, Hrs. specialize (Hlt r' Hr'). specialize (Hrs r' Hr'). lia. }
  unfold zlen in *. cbn [length]. lia.
Qed.

Lemma Base_words_unpair b :
  Base_words b = match b with
                 | BEmpty => (0, 0, [])
                 | BArray slots => (1, zlen slots, slots)
                 | BBitmap words => (2, zlen words, (halves <$> words) ≫= unpair)
                 | BRuns runs => (3, zlen runs, runs ≫= unpair)
                 end.
Proof.
  destruct b as [| |words|]; [done..| |done]. cbn [Base_words]. f_equal. induction words as [|w words IH]; [done|].
  rewrite fmap_cons, !bind_cons, IH. done.
Qed.

Lemma codable_u32 b kind count words :
  codable b → Base_words b = (kind, count, words) → u8 kind ∧ u32 count ∧ Forall u32 words.
Proof.
  intros [Hwf Hc]. rewrite Base_words_unpair. pose proof BITMAP_WORDS_Z as HB. unfold ARRAY_MAX in *.
  destruct b as [|slots|ws|runs]; intros [= <- <- <-]; (split; [done|]); cbn [base_wf] in Hwf.
  - done.
  - split; [unfold fits, zlen in *; lia|]. eapply Forall_impl; [apply Hwf|]. intros x. unfold in_stripe, STRIPE_ROWS, fits. lia.
  - destruct Hwf as [Hl Hu]. split; [unfold fits, zlen; rewrite Hl, HB; lia|]. apply unpairs_u32, Forall_fmap. eapply Forall_impl; [exact Hu|].
    intros w Hw. split; apply wrap_fits; lia.
  - destruct Hwf as [Hr Hs]. pose proof (runs_few runs 0 Hr Hs ltac:(done)) as Hfew. unfold STRIPE_ROWS in *.
    split; [unfold fits, zlen in *; lia|]. apply unpairs_u32. eapply Forall_impl; [exact Hr|]. intros r. cbn beta. unfold fits. lia.
Qed.

Lemma decode_words_back b kind count words :
  codable b → Base_words b = (kind, count, words) → decode_words kind count words = Ok b.
Proof.
  intros [Hwf Hc]. rewrite Base_words_unpair. unfold decode_words.
  destruct b as [|slots|ws|runs]; intros [= <- <- <-]; cbn [Z.eqb Pos.eqb andb base_wf] in *.
  - done.
  - rewrite Z.eqb_refl, (proj2 (Z.leb_le _ _)) by done. cbn [andb].
    rewrite (proj2 (windows2_all Z.ltb Z.lt slots Z.ltb_lt Z.lt_trans)) by apply Hwf. cbn [andb].
    rewrite (proj2 (forallb_all _ (λ s, s < STRIPE_ROWS) slots ltac:(intros; apply Z.ltb_lt))); [done|].
    eapply Forall_impl; [apply Hwf|]. unfold in_stripe. lia.
  - destruct Hwf as [Hl Hu]. rewrite (proj2 (Z.eqb_eq (zlen ws) _)) by (unfold zlen; by rewrite Hl).
    rewrite (proj2 (Z.eqb_eq _ (2 * zlen ws))) by (unfold zlen; rewrite length_unpairs, length_fmap; lia). cbn [andb]. do 2 f_equal.
    change (λ l, let '(lo, hi) := pair_of l in Z.lor lo (hi ≪ 32)) with (whole ∘ pair_of).
    rewrite list_fmap_compose, pairs_read by (rewrite length_unpairs, length_fmap; lia).
    rewrite <-list_fmap_compose. etransitivity; [|apply list_fmap_id]. apply list_fmap_ext. intros i w Hi.
    rewrite Forall_lookup in Hu. apply whole_halves. by apply (Hu i).
  - rewrite (proj2 (Z.eqb_eq _ (2 * zlen runs))) by (unfold zlen; rewrite length_unpairs; lia). cbn [andb].
    rewrite pairs_read by (rewrite length_unpairs; lia). assert (Forall (λ r : Z * Z, 0 ≤ r.1) runs) as H0 by (eapply Forall_impl; [apply Hwf|]; cbn beta; lia).
    by rewrite (proj2 (runs_words runs H0) Hwf).
Qed.

Lemma decode_words_ok b kind count words :
  u8 kind → u32 count → Forall u32 words → decode_words kind count words = Ok b → codable b ∧ Base_words b = (kind, count, words).
Proof.
  intros Hk Hc Hw. rewrite Base_words_unpair. unfold decode_words.
  destruct ((kind =? 0) && (count =? 0) && bool_decide (words = [])) eqn:E0.
  { intros [= <-]. rewrite !andb_true_iff, bool_decide_eq_true in E0. destruct E0 as [[->%Z.eqb_eq ->%Z.eqb_eq] ->]. done. }
  clear E0. case_match eqn:E1.
  { intros [= <-]. rewrite !andb_true_iff in E1. destruct E1 as [[[[->%Z.eqb_eq <-%Z.eqb_eq] Hmax%Z.leb_le] Hs] Hin].
    rewrite (windows2_all Z.ltb Z.lt words Z.ltb_lt Z.lt_trans) in Hs. rewrite (forallb_all _ (λ s, s < STRIPE_ROWS)) in Hin by (intros; apply Z.ltb_lt).
    split; [|done]. split; [|done]. split; [done|]. apply Forall_forall. intros x Hx. rewrite Forall_forall in Hin, Hw. specialize (Hin x Hx). specialize (Hw x Hx).
    unfold in_stripe, fits in *. lia. }
  clear E1. case_match eqn:E2.
  { intros [= <-]. rewrite !andb_true_iff in E2. destruct E2 as [[->%Z.eqb_eq ->%Z.eqb_eq] Hl%Z.eqb_eq].
    change (λ l : list Z, Z.lor (default 0 (l !! 0%nat)) (default 0 (l !! 1%nat) ≪ 32)) with (whole ∘ pair_of).
    assert (length words = 2 * BITMAP_WORDS)%nat as Hl' by (unfold zlen in Hl; lia).
    destruct (pairs_written words BITMAP_WORDS (length words) Hl' ltac:(lia)) as [E1 E2].
    rewrite list_fmap_compose. set (pairs := pair_of <$> chunks_exact 2 (length words) words) in *.
    rewrite <-E1 in Hw. apply unpairs_u32 in Hw. rewrite Forall_forall in Hw.
    split; [split; [split|done]|].
    - by rewrite length_fmap.
    - apply Forall_fmap, Forall_forall. intros r Hr. destruct (Hw r Hr). by apply halves_whole.
    - f_equal; [f_equal; unfold zlen; by rewrite length_fmap, E2|]. rewrite <-E1. f_equal. rewrite <-list_fmap_compose.
      etransitivity; [|apply list_fmap_id]. apply list_fmap_ext. intros i r Hi. apply list_elem_of_lookup_2 in Hi. destruct (Hw r Hi). by apply halves_whole. }
  clear E2. case_match eqn:E3; [|done]. rewrite andb_true_iff in E3. destruct E3 as [->%Z.eqb_eq Hl%Z.eqb_eq].
  assert (length words = 2 * Z.to_nat count)%nat as Hl' by (unfold zlen, fits in *; lia).
  destruct (pairs_written words (Z.to_nat count) (length words) Hl' ltac:(lia)) as [E1 E2].
  set (runs := pair_of <$> chunks_exact 2 (length words) words) in *. case_match eqn:E4; [|done]. intros [= <-].
  rewrite <-E1 in Hw. apply unpairs_u32 in Hw. apply runs_words in E4; [|eapply Forall_impl; [exact Hw|]; cbn beta; unfold fits; lia].
  split; [done|]. rewrite E1. f_equal. f_equal. unfold zlen, fits in *. lia.
Qed.

Lemma encode_bytes_ok b : codable b → bytes_ok (Base_encode b).
Proof.
  intros Hb. unfold Base_encode. destruct (Base_words b) as [[kind count] words] eqn:E.
  destruct (codable_u32 _ _ _ _ Hb E) as (Hk&_&_). rewrite !Forall_app. split_and!; [by repeat (apply Forall_cons; split; [done|])|apply le_bytes_ok|].
  apply Forall_bind, Forall_true. intros x. apply le_bytes_ok.
Qed.

(** The file of a delete vector reads back, and reads as nothing else: for any bytes,
    [Base::decode] answers a container exactly when that container can be written (its slots are
    inside the stripe, in order and, in an array, no more than an array holds) and the bytes are its
    encoding. So every damaged, truncated, reordered or padded file is refused, and every container
    the decoder does answer is well-formed. *)
Theorem delete_vector_reads_back bytes b :
  bytes_ok bytes → Base_decode bytes = Ok b ↔ codable b ∧ bytes = Base_encode b.
Proof.
  intros Hb. split.
  - intros (kind&count&words&Hk&Hc&Hw&->&Hd)%decode_shape; [|done]. apply decode_words_ok in Hd as [Hwf E]; [|done..].
    split; [done|]. unfold Base_encode. rewrite E, (wrap_id 32) by done. done.
  - intros [Hwf ->]. unfold Base_encode. destruct (Base_words b) as [[kind count] words] eqn:E.
    destruct (codable_u32 _ _ _ _ Hwf E) as (Hk&Hc&Hw). rewrite (wrap_id 32) by done.
    rewrite <-(decode_words_back _ _ _ _ Hwf E). by apply decode_file.
Qed.

Lemma delete_vector_reads_back_witness :
  Base_decode (Base_encode (BRuns [(3, 9); (20, 20)])) = Ok (BRuns [(3, 9); (20, 20)])
  ∧ codable (BRuns [(3, 9); (20, 20)]).
Proof.
  assert (codable (BRuns [(3, 9); (20, 20)])) as Hc.
  { split; [|done]. split; repeat constructor; done. }
  split; [|exact Hc]. apply (delete_vector_reads_back (Base_encode (BRuns [(3, 9); (20, 20)]))); [|by split].
  by apply encode_bytes_ok.
Defined.
