(* ===== verification/DeletesTheorems.v ===== *)
(** The delete vector against its specification: a map from a slot to the stamp of the delete that
    took its row, which is never folded. A vector that is folded as the oldest snapshot moves on
    cannot be told from it by any statement that is not older. *)

From S2P Require Import Prelude Undo UndoWords Deletes HotCells DeletesLaws.
Local Open Scope Z_scope.

(** * Containers *)

(** Whatever container [Base::of] chooses for a sorted set of slots, it is that set: a slot is
    contained exactly when it is one of them, the slots read back in order, their count is right,
    and the mask of a part is their bits in it. *)
Theorem base_is_the_set slots part mask :
  slots_ok slots → 0 ≤ part < STRIPE_ROWS / PART_ROWS → length mask = PART_WORDS →
  let b := Base_of slots in
  Base_slots b = slots ∧ Base_len b = zlen slots ∧ Base_is_empty b = bool_decide (slots = [])
  ∧ (∀ slot, 0 ≤ slot → Base_contains b slot = bool_decide (slot ∈ slots))
  ∧ length (Base_mark b part mask).2 = PART_WORDS
  ∧ (∀ at_, 0 ≤ at_ < PART_ROWS →
      get_bit (Base_mark b part mask).2 at_ = get_bit mask at_ || bool_decide (part * PART_ROWS + at_ ∈ slots))
  ∧ ((Base_mark b part mask).1 = true ↔ ∃ slot, slot ∈ slots ∧ part_of part slot).
Proof.
  intros Hs Hp Hm b. destruct (Base_of_wf slots Hs) as [Hwf Hback]. fold b in Hwf, Hback.
  pose proof (Base_len_slots b Hwf) as Hlen. rewrite Hback in Hlen.
  pose proof (Base_mark_ok b part mask Hwf Hp Hm) as Hmk. destruct (Base_mark b part mask) as [any mask'].
  destruct Hmk as [M1 M2 M3]. rewrite Hback in *. split_and!; [done|done| | |by rewrite <-Hm|exact M2|exact M3].
  - unfold Base_is_empty. rewrite Hlen. destruct slots; [done|]. rewrite bool_decide_eq_false_2 by done. apply Z.eqb_neq. unfold zlen. cbn [length]. lia.
  - intros slot H0. by rewrite base_contains_slots, Hback.
Qed.

Lemma base_is_the_set_witness :
  Base_slots (Base_of [2; 3; 4; 9000; 9001]) = [2; 3; 4; 9000; 9001]
  ∧ Base_contains (Base_of [2; 3; 4; 9000; 9001]) 9001 = true.
Proof.
  destruct (base_is_the_set [2; 3; 4; 9000; 9001] 1 (replicate PART_WORDS 0)) as (E&_&_&H&_);
    [by split; repeat constructor|done|apply length_replicate|].
  split; [exact E|]. by rewrite H.
Defined.

(** * The specification *)

Inductive DeleteOp : Type :=
| Delete (slot snapshot txn : Z)
| CommitDeletes (txn ts : Z)
| AbortDeletes (txn : Z)
| FoldDeletes (horizon : Z).

(** [None] where the source panics; a refused delete is an answer. *)
Definition dv_exec (op : DeleteOp) (d : DeleteVector) : option (option Refusal * DeleteVector) :=
  match op with
  | Delete slot snapshot txn => dv_delete slot snapshot txn d
  | CommitDeletes txn ts => '(_, d) ← dv_commit txn ts d; Some (None, d)
  | AbortDeletes txn => Some (None, (dv_abort txn d).2)
  | FoldDeletes horizon => Some (None, (fold_at horizon d).2)
  end.

Fixpoint dv_run (ops : list DeleteOp) (d : DeleteVector) : option (list (option Refusal) * DeleteVector) :=
  match ops with
  | [] => Some ([], d)
  | op :: ops => '(r, d) ← dv_exec op d; '(rs, d) ← dv_run ops d; Some (r :: rs, d)
  end.

Abbreviation Stamps := (gmap Z Z).

Definition seen_deleted (m : Stamps) (slot snapshot txn : Z) : bool :=
  from_option (λ ts, visible_ts ts snapshot txn) false (m !! slot).

(** The map is not folded: the specification has no horizon. *)
Definition map_exec (op : DeleteOp) (m : Stamps) : option Refusal * Stamps :=
  match op with
  | Delete slot snapshot txn =>
      match m !! slot with
      | Some ts => (Some (if visible_ts ts snapshot txn then Gone else Conflict), m)
      | None => (None, <[slot := Z.lor txn UNCOMMITTED]> m)
      end
  | CommitDeletes txn ts => (None, (λ t, if t =? Z.lor txn UNCOMMITTED then ts else t) <$> m)
  | AbortDeletes txn => (None, filter (λ kv, kv.2 ≠ Z.lor txn UNCOMMITTED) m)
  | FoldDeletes _ => (None, m)
  end.

Fixpoint map_run (ops : list DeleteOp) (m : Stamps) : list (option Refusal) * Stamps :=
  match ops with
  | [] => ([], m)
  | op :: ops => let '(r, m) := map_exec op m in let '(rs, m) := map_run ops m in (r :: rs, m)
  end.

Definition horizon_after (op : DeleteOp) (h : Z) : Z :=
  match op with FoldDeletes horizon => Z.max h horizon | _ => h end.

Definition horizon_of (ops : list DeleteOp) (h : Z) : Z := foldl (λ h op, horizon_after op h) h ops.

(** A statement that runs is not older than what has been folded. *)
Definition legal_delete (h : Z) (op : DeleteOp) : Prop :=
  match op with
  | Delete slot snapshot txn => in_stripe slot ∧ fits 63 txn ∧ 0 ≤ snapshot ∧ h ≤ snapshot
  | CommitDeletes txn ts => fits 63 ts
  | AbortDeletes _ | FoldDeletes _ => True
  end.

Fixpoint legal_deletes (h : Z) (ops : list DeleteOp) : Prop :=
  match ops with
  | [] => True
  | op :: ops => legal_delete h op ∧ legal_deletes (horizon_after op h) ops
  end.

Definition map_of (b : Base) : Stamps := list_to_map ((λ slot, (slot, 0)) <$> Base_slots b).

(** * The simulation *)

(** The stamp [ts] may have been folded: it stands in the vector as it is, or as a slot of the base. *)
Definition folded_to (h ts ts' : Z) : Prop :=
  ts' = ts ∨ (ts' = 0 ∧ Z.land ts UNCOMMITTED = 0 ∧ ts ≤ h).

Definition folds (h : Z) (d : DeleteVector) (m : Stamps) : Prop :=
  dv_wf d ∧ ∀ slot, 0 ≤ slot → option_Forall2 (folded_to h) (m !! slot) (stamp_of d slot).

Lemma folded_visible h ts ts' snapshot txn :
  folded_to h ts ts' → 0 ≤ snapshot → h ≤ snapshot → visible_ts ts' snapshot txn = visible_ts ts snapshot txn.
Proof.
  intros [->|(->&Hc&Hle)] H0 Hs; [done|]. unfold visible_ts. rewrite Hc. cbn [Z.eqb negb Z.land].
  rewrite !(proj2 (Z.leb_le _ snapshot)); [done|lia..].
Qed.

Lemma folded_mine h ts ts' txn : folded_to h ts ts' → ts' = Z.lor txn UNCOMMITTED ↔ ts = Z.lor txn UNCOMMITTED.
Proof.
  intros [->|(->&Hc&_)]; [done|]. split; [intros E; by destruct (uncommitted_not_zero txn)|].
  intros ->. exfalso. assert (Z.testbit (Z.land (Z.lor txn UNCOMMITTED) UNCOMMITTED) 63 = true) as H.
  { by rewrite Z.land_spec, Z.lor_spec, orb_true_r. }
  by rewrite Hc in H.
Qed.

Lemma folded_weaken h h' ts ts' : folded_to h ts ts' → h ≤ h' → folded_to h' ts ts'.
Proof. intros [->|(->&?&?)] ?; [by left|right]. split_and!; [done..|lia]. Qed.

Lemma increasing_NoDup l : increasing l → NoDup l.
Proof.
  induction 1 as [|x l _ IH Hx]; constructor; [|done]. intros Hin. rewrite Forall_forall in Hx. apply Hx in Hin. lia.
Qed.

Lemma map_of_folds b h : base_wf b → folds h (from_base b) (map_of b).
Proof.
  intros Hb. assert (dv_wf (from_base b)) as Hwf.
  { split; [done|constructor|constructor|]. by intros e ?%elem_of_nil. }
  split; [done|]. intros slot H0. destruct (base_slots_wf b Hb) as [Hs _].
  assert (NoDup ((λ s, (s, 0)) <$> Base_slots b).*1) as Hnd.
  { rewrite <-list_fmap_compose. cbn [compose fst]. rewrite list_fmap_id. by apply increasing_NoDup. }
  destruct (stamp_of (from_base b) slot) as [ts|] eqn:E.
  - apply stamp_of_iff in E as [[Hin ->]|Hin%elem_of_nil]; [|done..].
    unfold map_of. erewrite elem_of_list_to_map_1; [constructor; by left|done|]. apply list_elem_of_fmap. eauto.
  - apply stamp_of_none in E as [Hno _]; [|done..]. unfold map_of. rewrite not_elem_of_list_to_map_1; [constructor|].
    rewrite <-list_fmap_compose. cbn [compose fst]. by rewrite list_fmap_id.
Qed.

Lemma dv_exec_ok h d m op :
  folds h d m → legal_delete h op →
  ∃ d', dv_exec op d = Some ((map_exec op m).1, d') ∧ folds (horizon_after op h) d' (map_exec op m).2.
Proof.
  intros [Hwf Hm]. destruct op as [slot snapshot txn|txn ts|txn|horizon]; cbn [legal_delete dv_exec map_exec horizon_after].
  - intros (Hslot&Ht&H0&Hh). destruct (dv_delete_ok slot snapshot txn d Hwf Hslot Ht H0) as (d'&->&Hwf'&Hst). exists d'.
    destruct Hslot as [Hpos _]. pose proof (Hm slot Hpos) as Hs. destruct Hs as [ts ts' Hf|]; cbn [fmap option_fmap option_map fst snd].
    + rewrite (folded_visible h ts ts') by done. split; [done|]. split; [done|]. intros t Ht0. rewrite Hst, decide_False by (done || by intros [_ ?]). by apply Hm.
    + split; [done|]. split; [done|]. intros t Ht0. rewrite Hst by done. destruct (decide (t = slot)) as [->|Hne].
      * rewrite lookup_insert_eq. rewrite decide_True by done. constructor. by left.
      * rewrite lookup_insert_ne, decide_False by (done || by intros [? _]). by apply Hm.
  - intros Hts. destruct (dv_commit_ok txn ts d Hwf Hts) as (n&d'&->&Hwf'&Hst). exists d'. split; [done|]. split; [done|]. intros t Ht0.
    rewrite Hst by done. cbn [snd]. rewrite lookup_fmap. destruct (Hm t Ht0) as [u u' Hf|]; [|constructor]. cbn [fmap option_fmap option_map].
    pose proof (folded_mine h u u' txn Hf) as Hmine. destruct (Z.eqb_spec u (Z.lor txn UNCOMMITTED)) as [E|E].
    + rewrite decide_True by (f_equal; by apply Hmine). constructor. by left.
    + rewrite decide_False by (intros [= ?]; tauto). by constructor.
  - intros _. destruct (dv_abort_ok txn d Hwf) as [Hwf' Hst]. eexists. split; [done|]. split; [done|]. intros t Ht0. rewrite Hst by done. cbn [snd].
    rewrite map_lookup_filter. destruct (Hm t Ht0) as [u u' Hf|]; [|constructor]. cbn [mbind option_bind].
    pose proof (folded_mine h u u' txn Hf) as Hmine. destruct (decide (u = Z.lor txn UNCOMMITTED)) as [E|E].
    + rewrite decide_True by (f_equal; by apply Hmine). rewrite option_guard_False by (cbn [snd]; tauto). constructor.
    + rewrite decide_False by (intros [= ?]; tauto). rewrite option_guard_True by (cbn [snd]; tauto). by constructor.
  - intros _. destruct (fold_at_ok horizon d Hwf) as [Hwf' Hst]. eexists. split; [done|]. split; [done|]. intros t Ht0. rewrite Hst by done. cbn [snd].
    destruct (Hm t Ht0) as [u u' Hf|]; [|constructor]. cbn [fmap option_fmap option_map]. constructor.
    destruct Hf as [->|(->&Hc&Hle)].
    + destruct (Z.eqb_spec (Z.land u UNCOMMITTED) 0) as [Ec|]; [|by left]. destruct (Z.leb_spec u horizon); [|by left].
      right. split_and!; [done..|lia].
    + right. split_and!; [by case_match|done|lia].
Qed.

Lemma horizon_of_le ops h : h ≤ horizon_of ops h.
Proof.
  revert h. induction ops as [|op ops IH]; intros h; [done|]. cbn [horizon_of foldl]. etransitivity; [|apply IH].
  destruct op; cbn [horizon_after]; lia.
Qed.

Lemma dv_run_ok ops h d m :
  folds h d m → legal_deletes h ops →
  ∃ d', dv_run ops d = Some ((map_run ops m).1, d') ∧ folds (horizon_of ops h) d' (map_run ops m).2.
Proof.
  revert h d m. induction ops as [|op ops IH]; intros h d m Hf Hl; [by exists d|]. destruct Hl as [Hop Hl].
  destruct (dv_exec_ok h d m op Hf Hop) as (d1&E1&Hf1). cbn [dv_run map_run]. rewrite E1, some_bind.
  destruct (map_exec op m) as [r m1]. cbn [fst snd] in *. destruct (IH _ _ _ Hf1 Hl) as (d2&E2&Hf2).
  rewrite E2, some_bind. destruct (map_run ops m1) as [rs m2]. by exists d2.
Qed.

(** C24. A delete vector is a map of stamps that is never folded: after any run of deletes, commits,
    aborts and folds in which no statement is older than what was folded before it, no assertion has
    failed, every delete was let through or refused (gone or in conflict) as the map says, and for
    any reader that is not older than the horizon folded to, a slot is deleted, and its bit of the
    part's mask set, exactly when the map has a stamp the reader sees. *)
Theorem delete_vector_is_a_map_of_stamps b ops h :
  base_wf b → legal_deletes h ops →
  ∃ d, dv_run ops (from_base b) = Some ((map_run ops (map_of b)).1, d) ∧ dv_wf d ∧
    let m := (map_run ops (map_of b)).2 in
    ∀ snapshot txn, 0 ≤ snapshot → horizon_of ops h ≤ snapshot →
      (∀ slot, 0 ≤ slot → is_deleted d slot snapshot txn = seen_deleted m slot snapshot txn)
      ∧ (∀ part mask, 0 ≤ part < STRIPE_ROWS / PART_ROWS → length mask = PART_WORDS →
          ∃ any mask', dv_mask d part snapshot txn mask = Some (any, mask') ∧ length mask' = PART_WORDS
            ∧ (∀ at_, 0 ≤ at_ < PART_ROWS →
                get_bit mask' at_ = get_bit mask at_ || seen_deleted m (part * PART_ROWS + at_) snapshot txn)
            ∧ (any = true ↔ ∃ at_, 0 ≤ at_ < PART_ROWS ∧ seen_deleted m (part * PART_ROWS + at_) snapshot txn = true)).
Proof.
  intros Hb Hl. destruct (dv_run_ok ops h (from_base b) (map_of b) (map_of_folds b h Hb) Hl) as (d&E&Hwf&Hm).
  exists d. split; [done|]. split; [done|]. intros m snapshot txn H0 Hh. fold m in Hm.
  assert (∀ slot, 0 ≤ slot → is_deleted d slot snapshot txn = seen_deleted m slot snapshot txn) as Hsame.
  { intros slot Hslot. rewrite is_deleted_stamp by done. unfold seen_deleted. destruct (Hm slot Hslot) as [ts ts' Hf|]; [|done].
    cbn [from_option]. by eapply folded_visible. }
  split; [done|]. intros part mask Hp Hmask. destruct (dv_mask_ok d part snapshot txn mask Hwf Hp Hmask) as (any&mask'&E'&Hlen&Hbits&Hany).
  exists any, mask'. split; [done|]. split; [congruence|]. assert (∀ at_, 0 ≤ at_ → 0 ≤ part * PART_ROWS + at_) as Hnn by (intros; unfold PART_ROWS; lia).
  split.
  - intros at_ Hat. rewrite Hbits, Hsame by (done || apply Hnn; lia). done.
  - rewrite Hany. split; intros (at_&Hat&Hd); exists at_; (split; [exact Hat|]);
      [rewrite <-Hsame by (apply Hnn; lia)|rewrite Hsame by (apply Hnn; lia)]; exact Hd.
Qed.

Definition sample_deletes : list DeleteOp :=
  [Delete 7 5 2; Delete 8 5 3; CommitDeletes 2 6; FoldDeletes 6; Delete 7 6 4; Delete 8 6 4; AbortDeletes 3; Delete 8 9 4].

Lemma delete_vector_is_a_map_of_stamps_witness :
  ∃ d, dv_run sample_deletes (from_base (BArray [1])) = Some ([None; None; None; None; Some Gone; Some Conflict; None; None], d)
    ∧ is_deleted d 7 6 9 = true ∧ is_deleted d 8 6 9 = false.
Proof.
  destruct (delete_vector_is_a_map_of_stamps (BArray [1]) sample_deletes 0) as (d&E&_&H).
  - by split; repeat constructor.
  - unfold sample_deletes. cbn [legal_deletes legal_delete horizon_after]. unfold in_stripe, STRIPE_ROWS, fits. repeat split; lia.
  - exists d. split; [rewrite E; by vm_compute|]. destruct (H 6 9) as [Hd _]; [lia|by vm_compute|]. rewrite !Hd by lia. by vm_compute.
Defined.
