(* ===== verification/HotChain.v ===== *)
(** Chains of undo records: what a reader makes of a row by walking one, and the chains the
    records of a space are linked into. *)

From S2P Require Import Prelude Undo UndoWords UndoAlloc Deletes Hot.
Local Open Scope Z_scope.

(** * Taking changes back

    The values of a row are a list with a column a place. *)

Abbreviation Values := (list (option Z)).

Definition put (v : Values) (i : Image) : Values := <[Z.to_nat (i_column i) := i_value i]> v.

Definition undo_all (v : Values) (images : list Image) : Values := foldl put v images.

Lemma length_undo_all v il : length (undo_all v il) = length v.
Proof. revert v. induction il as [|i il IH]; intros v; [done|]. simpl. rewrite IH. apply length_insert. Qed.

(** The image that settles a column is the last there is of it. *)
Definition settles (k : nat) (il : list Image) : option (option Z) :=
  i_value <$> last (filter (λ i, Z.to_nat (i_column i) = k) il).

Lemma undo_all_lookup v il k :
  (k < length v)%nat →
  undo_all v il !! k = match settles k il with Some x => Some x | None => v !! k end.
Proof.
  revert v. induction il as [|i il IH] using rev_ind; intros v Hk; [done|].
  unfold undo_all. rewrite foldl_app. simpl. unfold settles in *. rewrite filter_app, filter_cons, filter_nil.
  unfold put at 1. fold (undo_all v il). destruct (decide (Z.to_nat (i_column i) = k)) as [->|Hne].
  - rewrite list_lookup_insert_eq by by rewrite length_undo_all. by rewrite last_snoc.
  - rewrite list_lookup_insert_ne by done. rewrite app_nil_r. by apply IH.
Qed.

(** Taking the same changes back once more changes nothing. *)
Lemma undo_all_twice v il : undo_all (undo_all v il) il = undo_all v il.
Proof.
  apply list_eq. intros k. destruct (decide (k < length v)%nat) as [Hk|Hk].
  - rewrite undo_all_lookup by by rewrite length_undo_all.
    rewrite (undo_all_lookup v) by done. by destruct (settles k il).
  - by rewrite !lookup_ge_None_2 by (rewrite ?length_undo_all; lia).
Qed.

(** Images of what a row was put back over it, whatever their order, give it back. *)
Lemma undo_all_restores v v' il :
  length v' = length v →
  Forall (λ i, v !! Z.to_nat (i_column i) = Some (i_value i)) il →
  (∀ k, v' !! k = v !! k ∨ k ∈ ((λ i, Z.to_nat (i_column i)) <$> il)) →
  undo_all v' il = v.
Proof.
  intros Hl Hil Hk. apply list_eq. intros k. destruct (decide (k < length v)%nat) as [Hlt|Hge].
  2:{ by rewrite !lookup_ge_None_2 by (rewrite ?length_undo_all; lia). }
  rewrite undo_all_lookup by lia. unfold settles.
  destruct (last (filter (λ i, Z.to_nat (i_column i) = k) il)) as [i|] eqn:E; simpl.
  - apply last_Some in E as [l El]. assert (i ∈ filter (λ i, Z.to_nat (i_column i) = k) il) as Hi by (rewrite El; set_solver).
    apply list_elem_of_filter in Hi as [<- Hi]. rewrite Forall_forall in Hil. by rewrite (Hil i Hi).
  - apply last_None in E. destruct (Hk k) as [?|(i&->&Hi)%list_elem_of_fmap]; [done|].
    assert (i ∈ filter (λ j, Z.to_nat (i_column j) = Z.to_nat (i_column i)) il) as Hin
      by by apply list_elem_of_filter. rewrite E in Hin. set_solver.
Qed.

(** * Reading a chain *)

Fixpoint readc (chain : list Rec) (snapshot me : Z) (v : Values) : Values :=
  match chain with
  | [] => v
  | c :: chain => if stops (c_ts c) snapshot me then v else readc chain snapshot me (undo_all v (c_images c))
  end.

Abbreviation images_in chain := ((chain : list Rec) ≫= c_images).

Lemma readc_passes own rest snapshot me v :
  Forall (λ c, stops (c_ts c) snapshot me = false) own →
  readc (own ++ rest) snapshot me v = readc rest snapshot me (undo_all v (images_in own)).
Proof.
  intros H. revert v. induction H as [|c own Hc _ IH]; intros v; [done|]. simpl. rewrite Hc, IH.
  f_equal. unfold undo_all. change (images_in (c :: own)) with (c_images c ++ images_in own). by rewrite foldl_app.
Qed.

Lemma readc_stops own rest snapshot me v :
  own ≠ [] → Forall (λ c, stops (c_ts c) snapshot me = true) own → readc (own ++ rest) snapshot me v = v.
Proof. intros Hne H. destruct H as [|c own Hc _]; [done|]. simpl. by rewrite Hc. Qed.

Lemma length_readc chain snapshot me v : length (readc chain snapshot me v) = length v.
Proof.
  revert v. induction chain as [|c chain IH]; intros v; [done|]. simpl. case_match; [done|].
  by rewrite IH, length_undo_all.
Qed.

(** A chain is read the same by two that stop at the same records. *)
Lemma readc_same chain snapshot snapshot' me me' v :
  Forall (λ c, stops (c_ts c) snapshot me = stops (c_ts c) snapshot' me') chain →
  readc chain snapshot me v = readc chain snapshot' me' v.
Proof.
  intros H. revert v. induction H as [|c chain Hc _ IH]; intros v; [done|]. simpl. rewrite Hc.
  by destruct (stops (c_ts c) snapshot' me').
Qed.

(** * Timestamps *)

Definition txn_ok (txn : Z) : Prop := fits 61 txn.

Lemma me_of txn : fits 63 txn → Z.lor txn UNCOMMITTED = txn + 2 ^ 63.
Proof. intros H. unfold UNCOMMITTED. rewrite (lor_shiftl_add 63) by (done || lia). lia. Qed.

Lemma me_bit txn : fits 63 txn → Z.land (Z.lor txn UNCOMMITTED) UNCOMMITTED = UNCOMMITTED.
Proof. intros H. by rewrite Z.land_lor_distr_l, Z.land_diag, committed_bit. Qed.

Lemma stops_committed ts snapshot me : fits 63 ts → 2 ^ 63 ≤ me → stops ts snapshot me = (ts <=? snapshot).
Proof.
  intros Ht Hme. unfold stops. rewrite committed_bit by done. unfold fits in Ht.
  destruct (Z.eqb_spec ts me); [lia|done].
Qed.

Lemma stops_running txn snapshot me :
  fits 61 txn → stops (Z.lor txn UNCOMMITTED) snapshot me = (Z.lor txn UNCOMMITTED =? me).
Proof.
  intros Ht. unfold stops. rewrite me_bit by (apply (fits_weaken 61); done || lia). by rewrite orb_false_r.
Qed.

Lemma stops_aborted snapshot txn : fits 61 txn → stops ABORTED snapshot (Z.lor txn UNCOMMITTED) = false.
Proof.
  intros Ht. unfold stops. rewrite me_of by (apply (fits_weaken 61); done || lia).
  unfold fits in Ht. destruct (Z.eqb_spec ABORTED (txn + 2 ^ 63)) as [E|]; [|done].
  unfold ABORTED in E. lia.
Qed.

(** * Linked records *)

(** The records at [refs], in their order, are the chain from [head]. *)
Fixpoint linked (G : Kept) (head : Z) (refs : list Z) : Prop :=
  match refs with
  | [] => head = 0
  | at_ :: refs => head = at_ ∧ ∃ c, G !! at_ = Some c ∧ linked G (c_prev c) refs
  end.

Definition recs (G : Kept) (refs : list Z) : list Rec := omap (λ at_, G !! at_) refs.

Lemma recs_cons G at_ refs c : G !! at_ = Some c → recs G (at_ :: refs) = c :: recs G refs.
Proof. intros H. unfold recs. simpl. by rewrite H. Qed.

(** Records kept beside those of a chain do not matter to it. *)
Lemma linked_frame G G' head refs :
  (∀ at_, at_ ∈ refs → G' !! at_ = G !! at_) → linked G head refs → linked G' head refs.
Proof.
  revert head. induction refs as [|at_ refs IH]; intros head Hf; [done|]. intros (->&c&Hc&Hl).
  split; [done|]. exists c. split; [rewrite Hf by (by left); done|]. apply IH; [|done]. intros x Hx. apply Hf. by right.
Qed.

Lemma recs_frame G G' refs : (∀ at_, at_ ∈ refs → G' !! at_ = G !! at_) → recs G' refs = recs G refs.
Proof.
  induction refs as [|at_ refs IH]; intros Hf; [done|].
  assert (recs G' refs = recs G refs) as E by (apply IH; intros x Hx; apply Hf; by right).
  unfold recs in *. cbn [omap list_omap]. rewrite Hf by by left. by destruct (G !! at_); simpl; rewrite E.
Qed.

Lemma linked_kept G head refs at_ : linked G head refs → at_ ∈ refs → is_Some (G !! at_).
Proof.
  revert head. induction refs as [|a refs IH]; intros head; [by intros _ ?%elem_of_nil|].
  intros (->&c&Hc&Hl) [->|Hin]%elem_of_cons; [eauto|by eapply IH].
Qed.

(** ** Walking one *)

Lemma no_record_zero sp bufs G : space_ok sp bufs G → record sp 0 = None.
Proof.
  intros H. unfold record. change (ref_chunk 0) with 0. destruct (words sp 0) as [ws|] eqn:E; [|done].
  apply (so_chunks _ _ _ H) in E. lia.
Qed.

(** A reference is its chunk and its unit. *)
Lemma ref_inj a b :
  0 ≤ a → 0 ≤ b → ref_chunk a = ref_chunk b → Z.land a (Z.ones 12) = Z.land b (Z.ones 12) → a = b.
Proof.
  unfold ref_chunk. intros Ha Hb. rewrite !Z.shiftr_div_pow2, !Z.land_ones by lia. intros E1 E2.
  rewrite (Z.div_mod a (2 ^ 12)), (Z.div_mod b (2 ^ 12)) by done. congruence.
Qed.

(** There are no more records than units in the chunks, so no chain is longer than the fuel. *)
Lemma refs_bound sp bufs G refs :
  space_ok sp bufs G → NoDup refs → (∀ at_, at_ ∈ refs → is_Some (G !! at_)) →
  (length refs < chain_fuel sp)%nat.
Proof.
  intros Hsp Hnd Hin. unfold chain_fuel.
  set (place at_ := (ref_chunk at_, Z.to_nat (Z.land at_ (Z.ones 12)))).
  set (all := map_to_list (us_chunks sp) ≫= λ e, (λ u, (e.1, u)) <$> seq 0 (CHUNK_WORDS / 2)).
  assert (length all = size (us_chunks sp) * (CHUNK_WORDS / 2))%nat as Hall.
  { unfold all. rewrite <-length_map_to_list. induction (map_to_list (us_chunks sp)) as [|e l IH]; [done|].
    change ((e :: l) ≫= ?f) with (f e ++ (l ≫= f)). rewrite length_app, IH, length_fmap, length_seq. simpl. lia. }
  rewrite <-Hall. assert (length (place <$> refs) ≤ length all)%nat as Hle.
  2:{ rewrite length_fmap in Hle. lia. }
  apply submseteq_length, NoDup_submseteq.
  - apply NoDup_fmap_2_strong; [|done]. intros a b Ha Hb [= E1 E2].
    destruct (Hin a Ha) as [ca Hca], (Hin b Hb) as [cb Hcb].
    apply (so_recs _ _ _ Hsp) in Hca as (_&_&_&?), Hcb as (_&_&_&?).
    apply ref_inj; [lia..|done|]. apply Z2Nat.inj; [apply Z.land_nonneg; lia..|done].
  - intros x (a&->&Ha)%list_elem_of_fmap. destruct (Hin a Ha) as [ca Hca].
    apply (so_recs _ _ _ Hsp) in Hca as (_&(ws&Hw&_)&_&?). unfold all. apply list_elem_of_bind.
    exists (ref_chunk a, ws). split; [|by apply elem_of_map_to_list].
    apply list_elem_of_fmap. eexists. split; [done|]. apply elem_of_seq. split; [lia|].
    rewrite Z.land_ones by lia. pose proof (Z.mod_pos_bound a (2 ^ 12) ltac:(lia)). pose proof half_CHUNK_WORDS. lia.
Qed.

(** The values a reader asked for. *)
Definition asked (columns : list Z) (v : Values) : Values := (λ c, default None (v !! Z.to_nat c)) <$> columns.

Lemma apply_image_asked columns v i :
  NoDup columns → Forall (λ c, 0 ≤ c < zlen v) columns → 0 ≤ i_column i →
  apply_image columns (asked columns v) i = asked columns (put v i).
Proof.
  intros Hnd Hc Hi. unfold apply_image, asked, put.
  destruct (list_find (λ c, c = i_column i) columns) as [[at_ c]|] eqn:E.
  - apply list_find_Some in E as (Hat&->&_). apply list_eq. intros k.
    destruct (decide (k = at_)) as [->|Hne].
    + rewrite list_lookup_insert_eq by (rewrite length_fmap; by eapply lookup_lt_Some).
      rewrite list_lookup_fmap, Hat. simpl. rewrite list_lookup_insert_eq; [done|].
      rewrite Forall_lookup in Hc. apply Hc in Hat. unfold zlen in Hat. lia.
    + rewrite list_lookup_insert_ne by done. rewrite !list_lookup_fmap.
      destruct (columns !! k) as [c|] eqn:Ek; [|done]. simpl. rewrite list_lookup_insert_ne; [done|].
      intros Eq. apply Hne. rewrite Forall_lookup in Hc. pose proof (Hc k c Ek).
      apply (NoDup_lookup columns k at_ c); [done..|]. rewrite Hat. f_equal. lia.
  - apply list_find_None in E. apply list_fmap_ext. intros k c Ek. rewrite list_lookup_insert_ne; [done|].
    rewrite Forall_lookup in E, Hc. pose proof (E k c Ek). pose proof (Hc k c Ek). lia.
Qed.

Lemma apply_images_asked columns v il :
  NoDup columns → Forall (λ c, 0 ≤ c < zlen v) columns → Forall (λ i, 0 ≤ i_column i) il →
  foldl (apply_image columns) (asked columns v) il = asked columns (undo_all v il).
Proof.
  intros Hnd Hc Hil. revert v Hc. induction Hil as [|i il Hi _ IH]; intros v Hc; [done|]. simpl.
  rewrite apply_image_asked by done. apply IH. unfold put, zlen. by rewrite length_insert.
Qed.

Definition in_memory (c : Rec) : Prop := c_kind c ≠ Spilled.

Lemma images_nonneg c : rec_ok c → Forall (λ i, 0 ≤ i_column i) (c_images c).
Proof. intros H. eapply Forall_impl; [apply (ro_images c H)|]. intros i [Hi _]. unfold fits in Hi. lia. Qed.

Lemma rec_of_fields c at_ :
  rec_ok c →
  let r := mkRecord at_ (words_of c) in
  r_prev r = c_prev c ∧ r_ts r = c_ts c ∧ r_kind r = c_kind c ∧ r_images r = c_images c.
Proof.
  intros H. pose proof (rec_of_words c at_ H) as E. destruct c as [p k t w i]. unfold rec_of in E. by injection E.
Qed.

(** What a walk sees at a record of a chain. *)
Lemma linked_step sp bufs G at_ refs head :
  space_ok sp bufs G → linked G head (at_ :: refs) →
  ∃ c, head = at_ ∧ G !! at_ = Some c ∧ rec_ok c ∧ record sp head = Some (mkRecord at_ (words_of c))
    ∧ linked G (c_prev c) refs ∧ recs G (at_ :: refs) = c :: recs G refs.
Proof.
  intros Hsp (->&c&Hc&Hl). exists c. destruct (space_record _ _ _ _ _ Hsp Hc) as [Hr _].
  destruct (so_recs _ _ _ Hsp _ _ Hc) as [Hok _]. split_and!; [done..|]. by apply recs_cons.
Qed.

Lemma undo_into_readc sp bufs G head refs columns snapshot me v fuel :
  space_ok sp bufs G → linked G head refs → Forall in_memory (recs G refs) →
  NoDup columns → Forall (λ c, 0 ≤ c < zlen v) columns → (length refs < fuel)%nat →
  undo_into fuel sp head columns snapshot me (asked columns v)
  = Some (asked columns (readc (recs G refs) snapshot me v)).
Proof.
  intros Hsp. revert head v fuel. induction refs as [|at_ refs IH]; intros head v fuel Hl Hm Hnd Hc Hf.
  - rewrite Hl. destruct fuel; cbn [undo_into]; rewrite (no_record_zero _ _ _ Hsp); reflexivity.
  - destruct (linked_step _ _ _ _ _ _ Hsp Hl) as (c&->&Hg&Hok&Hr&Hl'&Er).
    destruct (rec_of_fields c at_ Hok) as (E1&E2&E3&E4). rewrite Er in *.
    apply Forall_cons in Hm as [Hk Hm]. destruct fuel as [|fuel]; [simpl in Hf; lia|].
    cbn [undo_into]. rewrite Hr, E1, E2, E3, E4. cbn [readc]. case_match; [done|].
    rewrite decide_False by done. rewrite apply_images_asked by (done || by apply images_nonneg).
    apply IH; [done..| |simpl in Hf; lia]. unfold zlen in *. by rewrite length_undo_all.
Qed.

(** The newest change of a chain not aborted, 0 when there is none. *)
Fixpoint newestc (chain : list Rec) : Z :=
  match chain with
  | [] => 0
  | c :: chain => if negb (c_ts c =? ABORTED) then c_ts c else newestc chain
  end.

Lemma newest_change_newestc sp bufs G head refs fuel :
  space_ok sp bufs G → linked G head refs → (length refs < fuel)%nat →
  newest_change_loop fuel sp head = Some (newestc (recs G refs)).
Proof.
  intros Hsp. revert head fuel. induction refs as [|at_ refs IH]; intros head fuel Hl Hf.
  - rewrite Hl. destruct fuel; cbn [newest_change_loop]; rewrite (no_record_zero _ _ _ Hsp); reflexivity.
  - destruct (linked_step _ _ _ _ _ _ Hsp Hl) as (c&->&Hg&Hok&Hr&Hl'&Er).
    destruct (rec_of_fields c at_ Hok) as (E1&E2&_&_). rewrite Er.
    destruct fuel as [|fuel]; [simpl in Hf; lia|]. cbn [newest_change_loop newestc]. rewrite Hr, E1, E2.
    case_match; [done|]. apply IH; [done|simpl in Hf; lia].
Qed.

(** ** Writing records onto one *)

(** [pieces_of] cuts the images into runs that fit a record. *)
Lemma pieces_of_join fuel il : (length il ≤ fuel)%nat → mjoin (pieces_of fuel il) = il.
Proof.
  revert il. induction fuel as [|fuel IH]; intros il Hf; [by destruct il; [|simpl in Hf; lia]|].
  destruct il as [|i il]; [done|]. cbn [pieces_of mjoin list_join]. pose proof MOST_IMAGES_Z.
  rewrite IH by (rewrite length_drop; simpl in *; lia). apply take_drop.
Qed.

Lemma pieces_of_short fuel il piece : piece ∈ pieces_of fuel il → (length piece ≤ MOST_IMAGES)%nat.
Proof.
  revert il. induction fuel as [|fuel IH]; intros il; [by destruct il; intros ?%elem_of_nil|].
  destruct il as [|i il]; [by intros ?%elem_of_nil|]. cbn [pieces_of].
  intros [->|Hin]%elem_of_cons; [rewrite length_take; lia|by eapply IH].
Qed.

Lemma length_pieces_of fuel il : (length (pieces_of fuel il) ≤ fuel)%nat.
Proof.
  revert il. induction fuel as [|fuel IH]; intros il; [by destruct il|]. destruct il; simpl; [lia|].
  specialize (IH (drop MOST_IMAGES (i :: il))). simpl in *. lia.
Qed.

(** What a write leaves: new records [news] on top of the chain, and nothing else of the space. *)
Record wrote (G G' : Kept) (kind : UndoKind) (ts : Z) (images : list Image) (news : list Z) : Prop := {
  wr_fresh : ∀ at_, at_ ∈ news → G !! at_ = None;
  wr_nodup : NoDup news;
  wr_rest : ∀ at_, at_ ∉ news → G' !! at_ = G !! at_;
  wr_recs : Forall (λ c, c_ts c = ts ∧ c_kind c = kind) (recs G' news);
  wr_images : images_in (recs G' news) ≡ₚ images }.

Lemma linked_fresh G head refs at_ : linked G head refs → G !! at_ = None → at_ ∉ refs.
Proof. intros Hl Hn Hin. destruct (linked_kept _ _ _ _ Hl Hin) as [c Hc]. congruence. Qed.

Lemma write_pieces_ok pieces kind ts row prev refs b sp bufs G :
  space_ok sp (b :: bufs) G → 0 ≤ b_next b → linked G prev refs →
  u64 ts → u64 (row_rid row) → u32 (row_table row) →
  Forall (λ piece, (length piece ≤ MOST_IMAGES)%nat ∧ Forall image_ok piece) pieces →
  us_next sp + zlen pieces ≤ 2 ^ 20 →
  ∃ at_ b' sp' G' news, write_pieces pieces kind ts row prev b sp = (Some at_, (b', sp'))
    ∧ space_ok sp' (b' :: bufs) G' ∧ 0 ≤ b_next b' ∧ linked G' at_ (news ++ refs)
    ∧ wrote G G' kind ts (mjoin pieces) news ∧ length news = length pieces
    ∧ us_next sp' ≤ us_next sp + zlen pieces ∧ same_rest sp sp'.
Proof.
  revert prev refs b sp G. induction pieces as [|piece pieces IH]; intros prev refs b sp G Hsp Hn Hl Hts Hrid Htab Hp Hroom.
  { exists prev, b, sp, G, []. split_and!; [done..| |done|unfold zlen; simpl; lia|done].
    split; [by intros ? ?%elem_of_nil|constructor|done|constructor|done]. }
  apply Forall_cons in Hp as [[Hlen Hok] Hp]. rewrite zlen_cons in *. pose proof (zlen_nonneg pieces).
  set (c := mkRec prev kind ts row piece).
  assert (u32 prev) as Hprev.
  { destruct refs as [|a refs]; simpl in Hl; [subst; done|]. destruct Hl as (->&c0&Hc0&_).
    apply (so_recs _ _ _ Hsp) in Hc0 as (_&_&_&?). unfold fits. lia. }
  assert (rec_ok c) as Hc by by split.
  destruct (one_some c b sp bufs G Hsp Hc Hn) as (at_&b1&sp1&E&Hn1); [lia|].
  destruct (one_ok c b sp bufs G at_ b1 sp1 Hsp Hc Hn E) as (Hfresh&Hat&Hsp1&Hr1&Hb1).
  assert (linked (<[at_ := c]> G) at_ (at_ :: refs)) as Hl1.
  { split; [done|]. exists c. rewrite lookup_insert_eq. split; [done|]. eapply linked_frame; [|done].
    intros a Ha. apply lookup_insert_ne. intros ->. by apply (linked_fresh _ _ _ _ Hl Hfresh). }
  destruct (IH at_ (at_ :: refs) b1 sp1 _ Hsp1 Hb1 Hl1 Hts Hrid Htab Hp) as
    (at'&b'&sp'&G'&news&E'&Hsp'&Hb'&Hl'&[W1 W2 W3 W4 W5]&Hlen'&Hn'&Hr'); [lia|].
  cbn [c_kind c_ts c_row c_prev c_images c] in E.
  assert (at_ ∉ news) as Hnew. { intros Hin. apply W1 in Hin. by rewrite lookup_insert_eq in Hin. }
  assert (recs G' (news ++ [at_]) = recs G' news ++ [c]) as Erecs.
  { unfold recs. rewrite omap_app. f_equal. simpl. by rewrite W3, lookup_insert_eq. }
  exists at', b', sp', G', (news ++ [at_]). cbn [write_pieces]. rewrite E, <-app_assoc. simpl (([at_] ++ refs)).
  split_and!; [done..| | |lia|].
  - split.
    + intros a [Ha|Ha]%elem_of_app; [|by apply list_elem_of_singleton in Ha as ->].
      apply W1 in Ha. by apply lookup_insert_None in Ha as [? _].
    + apply NoDup_app. split_and!; [done| |apply NoDup_singleton]. by intros a Ha ->%list_elem_of_singleton.
    + intros a Ha. apply not_elem_of_app in Ha as [Ha1 Ha2]. rewrite W3 by done. apply lookup_insert_ne.
      intros ->. apply Ha2. by left.
    + rewrite Erecs. apply Forall_app. split; [done|]. by apply Forall_singleton.
    + rewrite Erecs, bind_app. cbn [mjoin list_join]. rewrite W5. simpl. rewrite app_nil_r.
      apply Permutation_app_comm.
  - rewrite length_app, Hlen'. simpl. lia.
  - destruct Hr1 as (?&?&?), Hr' as (?&?&?). split_and!; congruence.
Qed.

Lemma UndoBuffer_write_ok kind ts row prev images refs b sp bufs G :
  space_ok sp (b :: bufs) G → 0 ≤ b_next b → linked G prev refs →
  u64 ts → u64 (row_rid row) → u32 (row_table row) → Forall image_ok images →
  us_next sp + zlen images + 1 ≤ 2 ^ 20 →
  ∃ at_ b' sp' G' news, UndoBuffer_write kind ts row prev images b sp = (Some at_, (b', sp'))
    ∧ space_ok sp' (b' :: bufs) G' ∧ 0 ≤ b_next b' ∧ linked G' at_ (news ++ refs)
    ∧ wrote G G' kind ts images news ∧ news ≠ []
    ∧ us_next sp' ≤ us_next sp + zlen images + 1 ∧ same_rest sp sp'.
Proof.
  intros Hsp Hn Hl Hts Hrid Htab Hok Hroom. unfold UndoBuffer_write.
  set (pieces := match pieces_of (length images) images with [] => [[]] | p => p end).
  assert (mjoin pieces = images ∧ pieces ≠ [] ∧ zlen pieces ≤ zlen images + 1
    ∧ Forall (λ piece, (length piece ≤ MOST_IMAGES)%nat) pieces) as (Ej&Hne&Hlen&Hshort).
  { pose proof (pieces_of_join (length images) images ltac:(lia)) as Ej.
    pose proof (length_pieces_of (length images) images). pose proof (pieces_of_short (length images) images) as Hs.
    unfold pieces, zlen. destruct (pieces_of (length images) images) as [|p ps].
    - rewrite <-Ej. split_and!; [done..|simpl; lia|]. apply Forall_singleton. simpl. lia.
    - split_and!; [done..|lia|]. apply Forall_forall. intros x Hx. by apply Hs. }
  assert (∀ piece, piece ∈ pieces → Forall image_ok piece) as Hpiece.
  { intros piece Hin. apply Forall_forall. intros i Hi. rewrite Forall_forall in Hok. apply Hok.
    rewrite <-Ej. apply list_elem_of_join. by exists piece. }
  destruct (write_pieces_ok pieces kind ts row prev refs b sp bufs G) as
    (at_&b'&sp'&G'&news&E&?&?&?&?&Hl'&?&?); [done..| |lia|].
  { apply Forall_forall. intros piece Hin. rewrite Forall_forall in Hshort. auto. }
  exists at_, b', sp', G', news. rewrite Ej in *. split_and!; [done..| |lia|done].
  intros ->. by destruct pieces.
Qed.

(** ** Stamping a writer's records *)

(** The records of [own] stamped [ts], the others as they were. *)
Record stamped (G G' : Kept) (own : list Z) (ts : Z) : Prop := {
  st_own : ∀ at_, at_ ∈ own → G' !! at_ = with_ts ts <$> G !! at_;
  st_others : ∀ at_, at_ ∉ own → G' !! at_ = G !! at_ }.

Lemma stamped_recs G G' own ts refs :
  stamped G G' own ts → (∀ at_, at_ ∈ refs → at_ ∈ own) → recs G' refs = with_ts ts <$> recs G refs.
Proof.
  intros [H _]. induction refs as [|a refs IH]; intros Hin; [done|].
  assert (recs G' refs = with_ts ts <$> recs G refs) as E by (apply IH; intros; apply Hin; by right).
  unfold recs in *. cbn [omap list_omap]. rewrite H by (apply Hin; by left). by destruct (G !! a); simpl; rewrite E.
Qed.

Lemma stamped_linked G G' own ts head refs : stamped G G' own ts → linked G head refs → linked G' head refs.
Proof.
  intros [H1 H2]. revert head. induction refs as [|a refs IH]; intros head; [done|]. intros (->&c&Hc&Hl).
  split; [done|]. destruct (decide (a ∈ own)) as [Hin|Hout].
  - exists (with_ts ts c). rewrite H1, Hc by done. split; [done|]. by apply IH.
  - exists c. rewrite H2, Hc by done. split; [done|]. by apply IH.
Qed.

(** What the walk does to the stripe, record by record. *)
Fixpoint each_record (f : list Image → HotStripe → option HotStripe) (chain : list Rec) (s : HotStripe) : option HotStripe :=
  match chain with
  | [] => Some s
  | c :: chain => s ← f (c_images c) s; each_record f chain s
  end.

Lemma walk_own_ok f g me ts own rest sp bufs G head s s' fuel :
  (∀ r x, f r x = (s ← g (r_images r) x.1; Some (s, stamp r ts x.2))) →
  space_ok sp bufs G → linked G head (own ++ rest) → NoDup own → u64 ts →
  Forall (λ c, c_ts c = me) (recs G own) → (∀ c, hd_error (recs G rest) = Some c → c_ts c ≠ me) →
  (∀ at_, at_ ∈ own → at_ ∉ rest) → (length (own ++ rest) < fuel)%nat →
  each_record g (recs G own) s = Some s' →
  ∃ sp' G', walk_own fuel me f head (s, sp) = Some (s', sp') ∧ space_ok sp' bufs G' ∧ stamped G G' own ts
    ∧ us_next sp' = us_next sp ∧ same_rest sp sp'.
Proof.
  intros Hf. revert sp G head s fuel. induction own as [|at_ own IH];
    intros sp G head s fuel Hsp Hl Hnd Hts Hme Hrest Hout Hfuel Hs.
  - injection Hs as <-. exists sp, G.
    assert (walk_own fuel me f head (s, sp) = Some (s, sp)) as ->; [|by split_and!; [done..|split; [by intros ? ?%elem_of_nil|done]| |]].
    destruct rest as [|at_ rest].
    + rewrite Hl. destruct fuel; cbn [walk_own snd]; rewrite (no_record_zero _ _ _ Hsp); reflexivity.
    + destruct (linked_step _ _ _ _ _ _ Hsp Hl) as (c&->&_&Hok&Hr&_&Er). destruct fuel as [|fuel]; [simpl in Hfuel; lia|].
      destruct (rec_of_fields c at_ Hok) as (_&E2&_&_). cbn [walk_own snd]. rewrite Hr, E2.
      rewrite (proj2 (Z.eqb_neq _ _)); [done|]. apply Hrest. by rewrite Er.
  - change ((at_ :: own) ++ rest) with (at_ :: (own ++ rest)) in *.
    destruct (linked_step _ _ _ _ _ _ Hsp Hl) as (c&->&Hc&Hok&Hr&Hl'&_).
    destruct (rec_of_fields c at_ Hok) as (E1&E2&_&E4). apply NoDup_cons in Hnd as [Hat Hnd].
    rewrite (recs_cons _ _ _ _ Hc) in Hme, Hs. apply Forall_cons in Hme as [Hcme Hme].
    cbn [each_record] in Hs. apply bind_Some in Hs as (s1&Hs1&Hs).
    destruct fuel as [|fuel]; [simpl in Hfuel; lia|]. cbn [walk_own snd]. rewrite Hr, E2, Hcme, Z.eqb_refl. cbn [negb].
    rewrite Hf, E4. cbn [fst snd]. rewrite Hs1, !some_bind. cbn [snd].
    destruct (stamp_ok sp bufs G at_ c ts Hsp Hc Hts) as (Hsp1&Hr1&Hn1).
    set (sp1 := stamp (mkRecord at_ (words_of c)) ts sp) in *.
    assert (at_ ∉ rest) as Hnr by (apply Hout; by left).
    assert (∀ a, a ∈ own ++ rest → <[at_ := with_ts ts c]> G !! a = G !! a) as Hframe.
    { intros a Ha. apply lookup_insert_ne. intros ->. apply elem_of_app in Ha as [?|?]; done. }
    assert (record sp1 at_ = Some (mkRecord at_ (words_of (with_ts ts c)))) as ->.
    { eapply space_record; [exact Hsp1|apply lookup_insert_eq]. }
    cbn [fmap option_fmap option_map]. rewrite some_bind.
    destruct (rec_of_fields (with_ts ts c) at_) as (->&_); [by destruct Hok|].
    cbn [with_ts c_prev].
    destruct (IH sp1 (<[at_ := with_ts ts c]> G) (c_prev c) s1 fuel) as (sp'&G'&->&Hsp'&[S1 S2]&Hn'&Hr').
    + done.
    + by eapply linked_frame.
    + done.
    + done.
    + rewrite (recs_frame G); [done|]. intros a Ha. apply Hframe, elem_of_app. by left.
    + rewrite (recs_frame G); [done|]. intros a Ha. apply Hframe, elem_of_app. by right.
    + intros a Ha. apply Hout. by right.
    + simpl in Hfuel. lia.
    + rewrite (recs_frame G); [done|]. intros a Ha. apply Hframe, elem_of_app. by left.
    + exists sp', G'. split_and!; [done..| |congruence|].
      * split.
        -- intros a [->|Ha]%elem_of_cons; [by rewrite S2, lookup_insert_eq, Hc by done|].
           rewrite S1 by done. f_equal. apply Hframe, elem_of_app. by left.
        -- intros a [Hne Ha]%not_elem_of_cons. rewrite S2 by done. by apply lookup_insert_ne.
      * destruct Hr1 as (?&?&?), Hr' as (?&?&?). split_and!; congruence.
Qed.
