(* ===== verification/HotRow.v ===== *)
(** One row of a hot stripe: its stamps, its lock and its values, and what each step of an
    operation does to them and to the rows beside it. *)

From S2P Require Import Prelude Undo UndoWords UndoAlloc Deletes Hot HotCells HotChain.
Local Open Scope Z_scope.

(** * Stamps *)

Definition at_def (fill : Z) (ps : Parts) (slot : Z) : Z := default fill (slot_get fill ps slot).

Lemma created_at_def s slot : created_at s slot = at_def 0 (st_created s) slot.
Proof. done. Qed.
Lemma deleted_at_def s slot : deleted_at s slot = at_def LIVE (st_deleted s) slot.
Proof. done. Qed.
Lemma lock_at_def s slot : lock_at s slot = at_def 0 (st_lock s) slot.
Proof. done. Qed.
Lemma head_def s slot : Hot_head s slot = at_def 0 (st_undo s) slot.
Proof. done. Qed.

Lemma at_def_get_or fill ps part slot : at_def fill (get_or ps part) slot = at_def fill ps slot.
Proof.
  unfold at_def, slot_get. rewrite parts_get_or. destruct (parts_get fill ps _ _); [done|]. by case_decide.
Qed.

Lemma get_or_there fill ps slot : slot_get fill (get_or ps (place slot).1) slot = Some (at_def fill ps slot).
Proof.
  unfold at_def, slot_get. rewrite parts_get_or. destruct (parts_get fill ps _ _); [done|]. by rewrite decide_True.
Qed.

Lemma set_there fill ps slot x :
  is_Some (slot_get fill ps slot) →
  ∃ ps', parts_set ps (place slot).1 (place slot).2 x = Some ps'
    ∧ (∀ t, at_def fill ps' t = if decide (t = slot) then x else at_def fill ps t)
    ∧ ∀ t, is_Some (slot_get fill ps t) → is_Some (slot_get fill ps' t).
Proof.
  intros Hs. destruct (parts_set_some fill ps (place slot).1 (place slot).2 x Hs) as (ps'&E&_).
  exists ps'. pose proof (parts_set_slot fill ps slot x ps' E) as H. split_and!; [done| |].
  - intros t. unfold at_def. rewrite H. by case_decide.
  - intros t Ht. rewrite H. by case_decide.
Qed.

Lemma set_get_or fill ps slot x :
  ∃ ps', parts_set (get_or ps (place slot).1) (place slot).1 (place slot).2 x = Some ps'
    ∧ ∀ t, at_def fill ps' t = if decide (t = slot) then x else at_def fill ps t.
Proof.
  destruct (set_there fill (get_or ps (place slot).1) slot x) as (ps'&E&H&_); [by rewrite get_or_there|].
  exists ps'. split; [done|]. intros t. rewrite H. case_decide; [done|]. apply at_def_get_or.
Qed.

(** * Values *)

Definition row_values (s : HotStripe) (slot : Z) : Values := (λ c, column_value c slot) <$> st_columns s.

Definition widths (s : HotStripe) : list Width := col_width <$> st_columns s.

(** A change of a column there is, to a value its cells take. *)
Definition change_ok (ws : list Width) (i : Image) : Prop :=
  0 ≤ i_column i ∧ ∃ w, ws !! Z.to_nat (i_column i) = Some w ∧ fits_cell w (i_value i).

Lemma length_row_values s slot : length (row_values s slot) = length (widths s).
Proof. unfold row_values, widths. by rewrite !length_fmap. Qed.

(** [s'] is [s] with the values of [slot] changed to [v]. *)
Record revalued (s s' : HotStripe) (slot : Z) (v : Values) : Prop := {
  rv_only : s' = with_columns (st_columns s') s;
  rv_row : row_values s' slot = v;
  rv_rows : ∀ t, 0 ≤ t → t ≠ slot → row_values s' t = row_values s t;
  rv_widths : widths s' = widths s;
  rv_allocated : ∀ t, allocated s t → allocated s' t }.

Lemma revalued_refl s slot : revalued s s slot (row_values s slot).
Proof. split; [by destruct s|done..]. Qed.

Lemma revalued_trans s s1 s2 slot v v' :
  revalued s s1 slot v → revalued s1 s2 slot v' → revalued s s2 slot v'.
Proof.
  intros [A1 A2 A3 A4 A5] [B1 B2 B3 B4 B5]. split; [|done|..].
  - rewrite B1 at 1. by rewrite A1 at 1.
  - intros t Ht Hne. rewrite B3, A3; done.
  - congruence.
  - auto.
Qed.

Lemma Hot_write_ok slot i s :
  0 ≤ slot → allocated s slot → change_ok (widths s) i →
  ∃ s', Hot_write slot (i_column i) (i_value i) s = Some s' ∧ revalued s s' slot (put (row_values s slot) i).
Proof.
  intros Hslot Hal (Hc&w&Hw&Hfit). unfold widths in Hw. rewrite list_lookup_fmap in Hw.
  destruct (st_columns s !! Z.to_nat (i_column i)) as [c|] eqn:Ec; [|done]. injection Hw as <-.
  pose proof Hal as Hal0. unfold allocated in Hal. rewrite Forall_lookup in Hal. destruct (Hal _ _ Ec) as [Hcells Hvalid].
  destruct (column_store c slot (i_value i) Hslot Hcells Hvalid Hfit) as (word&cells&valid&E1&E2&E3&Hv&Hthere).
  unfold Hot_write. destruct (place slot) as [part at_] eqn:Ep. cbn [fst snd] in *.
  rewrite Ec, some_bind, E1, some_bind. cbv zeta. rewrite E2, some_bind, E3, some_bind.
  eexists. split; [done|]. set (c' := mkColumn (col_width c) cells valid) in *. split; [done|..].
  - unfold row_values, put. cbn [with_columns st_columns]. rewrite list_fmap_insert. rewrite Hv, decide_True by done. done.
  - intros t Ht Hne. unfold row_values. cbn [with_columns st_columns]. rewrite list_fmap_insert.
    rewrite Hv, decide_False by done. apply list_insert_id. by rewrite list_lookup_fmap, Ec.
  - unfold widths. cbn [with_columns st_columns]. rewrite list_fmap_insert. apply list_insert_id.
    by rewrite list_lookup_fmap, Ec.
  - intros t Ht. unfold allocated in *. cbn [with_columns st_columns]. apply Forall_insert; [done|].
    rewrite Forall_lookup in Ht. apply Hthere. by eapply Ht.
Qed.

Definition images_pairs (il : list Image) : list (Z * option Z) := (λ i, (i_column i, i_value i)) <$> il.

Lemma write_all_ok slot il s :
  0 ≤ slot → allocated s slot → Forall (change_ok (widths s)) il →
  ∃ s', write_all slot (images_pairs il) s = Some s' ∧ revalued s s' slot (undo_all (row_values s slot) il).
Proof.
  intros Hslot Hal Hil. revert s Hal Hil. induction il as [|i il IH]; intros s Hal Hil.
  - exists s. split; [done|]. apply revalued_refl.
  - apply Forall_cons in Hil as [Hi Hil]. destruct (Hot_write_ok slot i s Hslot Hal Hi) as (s1&E1&R1).
    destruct (IH s1) as (s2&E2&R2); [by apply R1|by rewrite (rv_widths _ _ _ _ R1)|].
    exists s2. split; [by cbn [images_pairs fmap list_fmap write_all]; rewrite E1, some_bind|].
    eapply revalued_trans; [exact R1|]. by rewrite (rv_row _ _ _ _ R1) in R2.
Qed.

Lemma Hot_read_row s slot column :
  0 ≤ column < zlen (row_values s slot) →
  Hot_read s slot column = row_values s slot !! Z.to_nat column.
Proof.
  intros Hc. unfold row_values in *. rewrite zlen_fmap in Hc. rewrite list_lookup_fmap.
  destruct (st_columns s !! Z.to_nat column) as [c|] eqn:E; [by apply Hot_read_value|].
  apply lookup_ge_None in E. unfold zlen in Hc. lia.
Qed.

Lemma mapM_each {A B C} (f : B → option C) (g : A → B) (h : A → C) l :
  Forall (λ x, f (g x) = Some (h x)) l → mapM f (g <$> l) = Some (h <$> l).
Proof.
  intros H. apply mapM_Some. induction H as [|x l Hx _ IH]; constructor; done.
Qed.

Lemma read_columns s slot columns :
  Forall (λ c, 0 ≤ c < zlen (row_values s slot)) columns →
  mapM (λ column, Hot_read s slot column) columns = Some (asked columns (row_values s slot)).
Proof.
  intros H. rewrite <-(list_fmap_id columns) at 1. apply mapM_each. eapply Forall_impl; [exact H|].
  intros c Hc. simpl. rewrite Hot_read_row by done. destruct (row_values s slot !! Z.to_nat c) eqn:E; [done|].
  apply lookup_ge_None in E. unfold zlen in Hc. lia.
Qed.

(** The images an update takes: what the columns it changes hold now. *)
Definition images_before (v : Values) (changes : list Image) : list Image :=
  (λ i, mkImage (i_column i) (default None (v !! Z.to_nat (i_column i)))) <$> changes.

Lemma images_taken s slot changes :
  Forall (λ i, 0 ≤ i_column i < zlen (row_values s slot)) changes → zlen (row_values s slot) ≤ 2 ^ 16 →
  mapM (λ change : Z * option Z, value ← Hot_read s slot change.1; Some (mkImage (wrap 16 change.1) value))
    (images_pairs changes) = Some (images_before (row_values s slot) changes).
Proof.
  intros H H16. apply mapM_each. eapply Forall_impl; [exact H|]. intros i Hi. simpl. rewrite Hot_read_row by done.
  destruct (row_values s slot !! Z.to_nat (i_column i)) as [x|] eqn:E; [|apply lookup_ge_None in E; unfold zlen in Hi; lia].
  simpl. cbv beta in Hi. by rewrite wrap_id by (unfold fits; lia).
Qed.

(** * Row locks *)

(** A word of a lock no one waits for: free, or the writer that holds it. *)
Inductive lock_word : Z → Prop :=
| Lock_free : lock_word 0
| Lock_held txn : txn_ok txn → lock_word (Z.lor txn UNCOMMITTED).

Lemma bit_lor_63 txn i :
  fits 61 txn → 0 ≤ i → Z.testbit (Z.lor txn UNCOMMITTED) i = Z.testbit txn i || bool_decide (i = 63).
Proof.
  intros H Hi. unfold UNCOMMITTED. rewrite Z.lor_spec, Z.shiftl_1_l. f_equal. case_bool_decide as E.
  - by rewrite E, Z.pow2_bits_true.
  - by apply Z.pow2_bits_false.
Qed.

Lemma held_bits txn :
  txn_ok txn →
  let me := Z.lor txn UNCOMMITTED in
  Z.land me HELD = HELD ∧ holder me = me ∧ Z.land me (Z.lor WAITERS DELTA) = 0 ∧ Z.land me DELTA = 0.
Proof.
  intros H me. assert (∀ i, 61 ≤ i → Z.testbit txn i = false) as Hb by (intros; by apply (fits_testbit 61)).
  assert (∀ i, 0 ≤ i → Z.testbit (Z.lor WAITERS DELTA) i = bool_decide (i = 62) || bool_decide (i = 61)) as HWD.
  { intros i Hi. unfold WAITERS, DELTA. rewrite Z.lor_spec, !Z.shiftl_1_l.
    f_equal; case_bool_decide as E; [by rewrite E, Z.pow2_bits_true|by apply Z.pow2_bits_false| |];
      [by rewrite E, Z.pow2_bits_true|by apply Z.pow2_bits_false]. }
  assert (Z.land me (Z.lor WAITERS DELTA) = 0) as H0.
  { apply Z.bits_inj'. intros i Hi. rewrite Z.land_spec, Z.bits_0. unfold me. rewrite bit_lor_63, HWD by done.
    destruct (decide (i = 62)) as [->|]; [by rewrite Hb|]. destruct (decide (i = 61)) as [->|]; [by rewrite Hb|].
    rewrite !(bool_decide_false (i = 61)), !(bool_decide_false (i = 62)) by done. apply andb_false_r. }
  split_and!.
  - change HELD with UNCOMMITTED. unfold me. by rewrite Z.land_lor_distr_l, Z.land_diag, (committed_bit txn) by (apply (fits_weaken 61); done || lia).
  - unfold holder. apply Z.bits_inj'. intros i Hi. unfold wnot. rewrite Z.land_spec, Z.lxor_spec, HWD by done.
    unfold me. rewrite bit_lor_63 by done. destruct (decide (i < 64)) as [Hlt|Hge].
    + rewrite Z.ones_spec_low by lia.
      destruct (decide (i = 62)) as [->|]; [by rewrite Hb|]. destruct (decide (i = 61)) as [->|]; [by rewrite Hb|].
      rewrite !(bool_decide_false (i = 61)), !(bool_decide_false (i = 62)) by done. apply andb_true_r.
    + rewrite Hb by lia. by rewrite (bool_decide_false (i = 63)) by lia.
  - done.
  - apply Z.bits_inj'. intros i Hi. apply (f_equal (λ z, Z.testbit z i)) in H0. rewrite Z.land_spec, Z.lor_spec in H0.
    rewrite Z.land_spec. destruct (Z.testbit me i); simpl in *; [|done]. rewrite Z.bits_0 in *.
    by apply orb_false_iff in H0 as [_ ?].
Qed.

Lemma held_nonzero txn : txn_ok txn → Z.lor txn UNCOMMITTED ≠ 0 ∧ Z.lor txn UNCOMMITTED ≠ LIVE ∧ 2 ^ 63 ≤ Z.lor txn UNCOMMITTED < 2 ^ 64 - 1.
Proof.
  intros H. rewrite me_of by (apply (fits_weaken 61); done || lia). unfold txn_ok, fits in H. unfold LIVE. lia.
Qed.

(** [s'] is [s] with the lock of [slot] at [word]. *)
Record relocked (s s' : HotStripe) (slot word : Z) : Prop := {
  rl_only : s' = with_lock (st_lock s') s;
  rl_locks : ∀ t, lock_at s' t = if decide (t = slot) then word else lock_at s t }.

Lemma release_ok s slot : lock_word (lock_at s slot) → relocked s (release slot s) slot 0.
Proof.
  intros Hw. rewrite lock_at_def in Hw. unfold release.
  destruct (place slot) as [part at_] eqn:Ep. destruct (parts_get 0 (st_lock s) part at_) as [word|] eqn:E.
  - assert (slot_get 0 (st_lock s) slot = Some word) as Es by (unfold slot_get; by rewrite Ep).
    destruct (set_there 0 (st_lock s) slot (Z.land word DELTA)) as (ps&Eps&Hps&_); [by rewrite Es|].
    rewrite Ep in Eps. cbn [fst snd] in Eps. rewrite Eps. split; [done|]. intros t. rewrite !lock_at_def. cbn [with_lock st_lock].
    rewrite Hps. case_decide; [|done]. unfold at_def in Hw. rewrite Es in Hw. simpl in Hw.
    destruct Hw as [|txn Ht]; [done|]. by apply held_bits.
  - split; [by destruct s|]. intros t. case_decide as Et; [|done]. subst t. rewrite lock_at_def.
    unfold at_def, slot_get. rewrite Ep. simpl. by rewrite E.
Qed.

(** Whether a writer may have a row, from what the row is. *)
Definition claim_refusal (created word deleted newest snapshot me : Z) : option Refusal :=
  if (snapshot <=? wrap 64 (created - 1)) && negb (created =? me) then Some Gone
  else if negb (word =? 0) && negb (word =? me) then Some Conflict
  else if negb (word =? 0) then (if deleted =? me then Some Gone else None)
  else if negb (deleted =? LIVE) then Some (if deleted <=? snapshot then Gone else Conflict)
  else if snapshot <? newest then Some Conflict else None.

Lemma lock_word_held word : lock_word word → (Z.land word HELD =? 0) = (word =? 0) ∧ holder word = word.
Proof.
  intros [|txn H]; [done|]. destruct (held_bits txn H) as (->&->&_). split; [|done].
  by rewrite (proj2 (Z.eqb_neq (Z.lor txn UNCOMMITTED) 0)) by apply (held_nonzero txn H).
Qed.

Lemma claim_ok slot snapshot txn s sp newest :
  let me := Z.lor txn UNCOMMITTED in
  let refusal := claim_refusal (created_at s slot) (lock_at s slot) (deleted_at s slot) newest snapshot me in
  txn_ok txn → lock_word (lock_at s slot) → st_state s < FREEZING → newest_change s sp slot = Some newest →
  ∃ s', claim slot snapshot me s sp = Some (refusal, s')
    ∧ relocked s s' slot (match refusal with Some _ => lock_at s slot | None => me end).
Proof.
  intros me refusal Htxn Hword Hstate Hnew. unfold refusal, claim_refusal, claim.
  destruct (place slot) as [part at_] eqn:Ep.
  destruct ((snapshot <=? wrap 64 (created_at s slot - 1)) && negb (created_at s slot =? me)) eqn:Ec.
  { exists s. split; [done|]. split; [by destruct s|]. intros t. by case_decide; subst. }
  pose proof (get_or_there 0 (st_lock s) slot) as Eg. unfold slot_get in Eg. rewrite Ep in Eg. cbn [fst snd] in Eg.
  rewrite Eg, some_bind, <-lock_at_def. destruct (lock_word_held _ Hword) as [-> ->].
  assert (relocked s (with_lock (get_or (st_lock s) part) s) slot (lock_at s slot)) as Hsame.
  { split; [done|]. intros t. rewrite !lock_at_def. cbn [with_lock st_lock]. rewrite at_def_get_or. by case_decide; subst. }
  destruct (Z.eqb_spec (lock_at s slot) 0) as [E0|E0]; cbn [negb andb].
  - destruct (set_get_or 0 (st_lock s) slot (Z.lor me (Z.land (lock_at s slot) (Z.lor WAITERS DELTA)))) as (ps&Eps&Hps).
    rewrite Ep in Eps. cbn [fst snd] in Eps. rewrite Eps, some_bind.
    assert (Z.lor me (Z.land (lock_at s slot) (Z.lor WAITERS DELTA)) = me) as Eme by (rewrite E0; apply Z.lor_0_r).
    rewrite Eme in *. unfold claim_checks. cbn [with_lock st_state]. rewrite (proj2 (Z.leb_gt _ _)) by done.
    change (newest_change (with_lock ps (with_lock (get_or (st_lock s) part) s)) sp slot) with (newest_change s sp slot).
    rewrite Hnew. change (deleted_at (with_lock ps (with_lock (get_or (st_lock s) part) s)) slot) with (deleted_at s slot).
    set (s1 := with_lock ps (with_lock (get_or (st_lock s) part) s)).
    assert (relocked s s1 slot me) as [R1 R2] by (split; [done|]; intros t; rewrite !lock_at_def; apply Hps).
    assert (relocked s (release slot s1) slot (lock_at s slot)) as Hrel.
    { destruct (release_ok s1 slot) as [Q1 Q2]; [rewrite R2, decide_True by done; by apply Lock_held|].
      split; [by rewrite Q1 at 1; rewrite R1 at 1|]. intros t. rewrite Q2, R2, E0. by case_decide. }
    destruct (deleted_at s slot =? LIVE); cbn [negb].
    + rewrite some_bind. destruct (snapshot <? newest); (eexists; split; [done|done]).
    + eexists. split; [done|done].
  - destruct (Z.eqb_spec (lock_at s slot) me) as [Em|Em]; cbn [negb andb].
    + eexists. split; [|destruct (deleted_at s slot =? me); [|rewrite Em in Hsame]; exact Hsame].
      do 2 f_equal. cbn [with_lock st_deleted]. rewrite deleted_at_def. unfold at_def, slot_get. rewrite Ep. cbn [fst snd].
      destruct (parts_get LIVE (st_deleted s) part at_); cbn [default from_option id]; [done|].
      by rewrite (proj2 (Z.eqb_neq LIVE me)) by (apply not_eq_sym, (held_nonzero txn Htxn)).
    + eexists. split; [done|done].
Qed.

(** * Undo records of a row *)

Definition row_of (s : HotStripe) (slot : Z) : Row := mkRow (st_table s) (Z.lor (st_id s ≪ 32) slot).

Lemma row_of_ok s slot : u32 (st_id s) → u32 slot → u64 (row_rid (row_of s slot)).
Proof.
  intros Hi Hs. unfold row_of. simpl. rewrite Z.lor_comm, lor_shiftl_add by (done || unfold fits in Hi; lia).
  by apply (fits_pair 32 32).
Qed.

Lemma push_undo_ok slot kind me images s b sp bufs G refs :
  space_ok sp (b :: bufs) G → 0 ≤ b_next b → linked G (Hot_head s slot) refs →
  u64 me → u32 (st_id s) → u32 slot → u32 (st_table s) → Forall image_ok images →
  us_next sp + zlen images + 1 ≤ 2 ^ 20 →
  ∃ s' b' sp' G' news, push_undo slot kind me images s b sp = Some (s', (b', sp'))
    ∧ s' = with_heads (st_undo s') s
    ∧ (∀ t, t ≠ slot → Hot_head s' t = Hot_head s t)
    ∧ space_ok sp' (b' :: bufs) G' ∧ 0 ≤ b_next b' ∧ linked G' (Hot_head s' slot) (news ++ refs)
    ∧ wrote G G' kind me images news ∧ news ≠ []
    ∧ us_next sp' ≤ us_next sp + zlen images + 1 ∧ same_rest sp sp'.
Proof.
  intros Hsp Hn Hl Hme Hid Hslot Htab Hok Hroom. unfold push_undo. destruct (place slot) as [part at_] eqn:Ep.
  pose proof (get_or_there 0 (st_undo s) slot) as Eg. unfold slot_get in Eg. rewrite Ep in Eg. cbn [fst snd] in Eg.
  rewrite Eg, some_bind, <-head_def. change (mkRow (st_table (with_heads _ s)) _) with (row_of s slot).
  destruct (UndoBuffer_write_ok kind me (row_of s slot) (Hot_head s slot) images refs b sp bufs G) as
    (at'&b'&sp'&G'&news&->&Hsp'&Hb'&Hl'&Hwr&Hne&Hn'&Hr'); [done|done|done|done|by apply row_of_ok|done|done|done|].
  rewrite some_bind. destruct (set_get_or 0 (st_undo s) slot at') as (ps&Eps&Hps). rewrite Ep in Eps. cbn [fst snd] in Eps.
  rewrite Eps, some_bind. do 5 eexists. split; [done|]. split; [done|].
  assert (∀ t, Hot_head (with_heads ps (with_heads (get_or (st_undo s) part) s)) t = if decide (t = slot) then at' else Hot_head s t) as Hh.
  { intros t. rewrite !head_def. apply Hps. }
  split; [intros t Ht; by rewrite Hh, decide_False|]. split_and!; [done..| |done|done|done|done].
  by rewrite Hh, decide_True.
Qed.

(** * Deletes *)

Lemma swap_deleted_ok slot from to s :
  from ≠ LIVE →
  ∃ s', swap_deleted slot from to s = (deleted_at s slot =? from, s') ∧ s' = with_deleted (st_deleted s') s
    ∧ ∀ t, deleted_at s' t = if decide (t = slot ∧ deleted_at s slot = from) then to else deleted_at s t.
Proof.
  intros Hf. unfold swap_deleted. destruct (place slot) as [part at_] eqn:Ep.
  assert (deleted_at s slot = default LIVE (parts_get LIVE (st_deleted s) part at_)) as Ed.
  { rewrite deleted_at_def. unfold at_def, slot_get. by rewrite Ep. }
  destruct (parts_get LIVE (st_deleted s) part at_) as [x|] eqn:Eg; cbn [default from_option id] in Ed.
  - rewrite Ed. destruct (Z.eqb_spec x from) as [->|Hne].
    + destruct (set_there LIVE (st_deleted s) slot to) as (ps&Eps&Hps&_).
      { unfold slot_get. rewrite Ep. cbn [fst snd]. by rewrite Eg. }
      rewrite Ep in Eps. cbn [fst snd] in Eps. rewrite Eps. eexists. split; [done|]. split; [done|].
      intros t. rewrite !deleted_at_def. cbn [with_deleted st_deleted]. rewrite Hps.
      destruct (decide (t = slot)); [by rewrite decide_True|by rewrite decide_False by tauto].
    + exists s. split; [done|]. split; [by destruct s|]. intros t. by rewrite decide_False by tauto.
  - exists s. rewrite Ed, (proj2 (Z.eqb_neq LIVE from)) by done. split; [done|]. split; [by destruct s|].
    intros t. by rewrite decide_False by (intros [_ ?]; done).
Qed.

Lemma Hot_holds_lock s slot txn :
  txn_ok txn → lock_word (lock_at s slot) →
  Hot_holds s slot (Z.lor txn UNCOMMITTED) = (lock_at s slot =? Z.lor txn UNCOMMITTED).
Proof.
  intros Ht Hw. unfold Hot_holds. rewrite lock_at_def in *. unfold at_def, slot_get in *.
  destruct (place slot) as [part at_]. cbn [fst snd] in *.
  destruct (parts_get 0 (st_lock s) part at_); cbn [default from_option id] in *.
  - by rewrite (proj2 (lock_word_held _ Hw)).
  - symmetry. apply Z.eqb_neq, not_eq_sym, (held_nonzero txn Ht).
Qed.
