(* ===== verification/HotStore.v ===== *)
(** The multiversion store a hot stripe promises, and a row of a stripe that keeps the promise.

    A row of the store is what it was inserted with, the changes committed to it in the order of
    their timestamps, and the changes of the one transaction writing it. A reader at a snapshot
    sees the changes committed at or below it; the writer sees all of them and its own. *)

From S2P Require Import Prelude Undo UndoWords UndoAlloc Deletes Hot HotCells HotChain HotRow.
Local Open Scope Z_scope.

(** * The store *)

Inductive Effect : Type :=
| Change (changes : list Image)
| Remove.

Definition is_remove (e : Effect) : bool := match e with Remove => true | Change _ => false end.

Record VRow : Type := mkVRow {
  v_created : option Z;
  v_base : Values;
  v_hist : list (Z * Effect);
  v_own : option (Z * list Effect) }.

Definition apply_effect (v : Values) (e : Effect) : Values :=
  match e with Change il => undo_all v il | Remove => v end.

Abbreviation apply_all := (foldl apply_effect).

Definition committed_by (snapshot : Z) (a : VRow) : list Effect := (filter (λ e, e.1 ≤ snapshot) (v_hist a)).*2.

Definition all_effects (a : VRow) (es : list Effect) : list Effect := (v_hist a).*2 ++ es.

Definition effects_seen (a : VRow) (snapshot me : Z) : list Effect :=
  match v_own a with
  | Some (w, es) => if w =? me then all_effects a es else committed_by snapshot a
  | None => committed_by snapshot a
  end.

Definition created_seen (a : VRow) (snapshot me : Z) : bool :=
  match v_created a with
  | None => false
  | Some c => (negb (c =? 0) && (c <=? snapshot)) || (c =? me)
  end.

Definition v_values (a : VRow) (snapshot me : Z) : Values := apply_all (v_base a) (effects_seen a snapshot me).

Definition v_visible (a : VRow) (snapshot me : Z) : bool :=
  created_seen a snapshot me && negb (existsb is_remove (effects_seen a snapshot me)).

(** When the last change was committed. *)
Definition v_newest (a : VRow) : Z := from_option fst 0 (last (v_hist a)).

Definition v_removed (a : VRow) : option Z :=
  fst <$> head (filter (λ e : Z * Effect, is_remove e.2 = true) (v_hist a)).

(** Whether a transaction may change the row: the first to write it wins. *)
Definition v_claim (a : VRow) (snapshot me : Z) : option Refusal :=
  if negb (created_seen a snapshot me) then Some Gone else
  match v_own a with
  | Some (w, es) =>
      if w =? me then if existsb is_remove es then Some Gone else None else Some Conflict
  | None =>
      match v_removed a with
      | Some ts => Some (if ts <=? snapshot then Gone else Conflict)
      | None => if snapshot <? v_newest a then Some Conflict else None
      end
  end.

Definition v_with_own (own : option (Z * list Effect)) (a : VRow) : VRow :=
  mkVRow (v_created a) (v_base a) (v_hist a) own.

Definition own_effects (a : VRow) : list Effect := from_option snd [] (v_own a).

Definition v_change (e : Effect) (snapshot me : Z) (a : VRow) : option Refusal * VRow :=
  match v_claim a snapshot me with
  | Some r => (Some r, a)
  | None => (None, v_with_own (Some (me, own_effects a ++ [e])) a)
  end.

Definition holds_row (me : Z) (a : VRow) : bool :=
  match v_own a with Some (w, _) => w =? me | None => false end.

Definition v_commit (me ts : Z) (a : VRow) : VRow :=
  if holds_row me a
  then mkVRow (v_created a) (v_base a) (v_hist a ++ ((λ e, (ts, e)) <$> own_effects a)) None else a.

Definition v_abort (me : Z) (a : VRow) : VRow := if holds_row me a then v_with_own None a else a.

(** Before it is inserted a row is filled, and its values are what it starts with. *)
Definition v_fill (i : Image) (a : VRow) : VRow :=
  mkVRow (v_created a) (put (v_base a) i) (v_hist a) (v_own a).

Definition v_create (c : Z) (a : VRow) : VRow := mkVRow (Some c) (v_base a) (v_hist a) (v_own a).

Definition v_restamp (from to : Z) (a : VRow) : VRow :=
  match v_created a with Some c => if c =? from then v_create to a else a | None => a end.

(** * A row that keeps it *)

(** What [deleted] says of the row. *)
Inductive deleted_ok (a : VRow) : Z → Prop :=
| Deleted_never : existsb is_remove (all_effects a (own_effects a)) = false → deleted_ok a LIVE
| Deleted_at ts :
    fits 63 ts → v_own a = None → v_removed a = Some ts →
    (∀ e, e ∈ v_hist a → is_remove e.2 = true → e.1 = ts) → deleted_ok a ts
| Deleted_own me es :
    v_own a = Some (me, es) → existsb is_remove es = true → existsb is_remove (v_hist a).*2 = false →
    deleted_ok a me.

(** What [created] says of it. *)
Inductive created_ok : option Z → Z → Prop :=
| Created_not : created_ok None 0
| Created_dead : created_ok (Some 0) 0
| Created_at ts : 0 < ts → fits 63 ts → created_ok (Some ts) ts
| Created_by txn : txn_ok txn → created_ok (Some (Z.lor txn UNCOMMITTED)) (Z.lor txn UNCOMMITTED).

Definition settled_ts (c : Rec) : Prop := fits 63 (c_ts c) ∨ c_ts c = ABORTED.

(** The records a writer has on the row, and the word of the lock. *)
Inductive owned (a : VRow) (cur : Values) : list Rec → Z → Prop :=
| Owned_not : v_own a = None → owned a cur [] 0
| Owned_by txn es own :
    v_own a = Some (Z.lor txn UNCOMMITTED, es) → txn_ok txn → own ≠ [] → es ≠ [] →
    Forall (λ c, c_ts c = Z.lor txn UNCOMMITTED) own →
    cur = apply_all (v_base a) (all_effects a es) → owned a cur own (Z.lor txn UNCOMMITTED).

Record row_ok (ws : list Width) (own rest : list Rec) (cur : Values) (created deleted lock : Z) (a : VRow) : Prop := {
  ok_created : created_ok (v_created a) created;
  ok_deleted : deleted_ok a deleted;
  ok_owned : owned a cur own lock;
  ok_fresh : v_created a = None → own = [] ∧ rest = [] ∧ v_hist a = [];
  ok_rest : Forall settled_ts rest;
  ok_now : undo_all cur (images_in own) = apply_all (v_base a) (v_hist a).*2;
  ok_reads : ∀ snapshot txn, fits 63 snapshot → txn_ok txn →
    readc rest snapshot (Z.lor txn UNCOMMITTED) (undo_all cur (images_in own))
    = apply_all (v_base a) (committed_by snapshot a);
  ok_newest : newestc rest = v_newest a;
  ok_hist : Forall (λ e, fits 63 e.1 ∧ e.1 ≤ v_newest a) (v_hist a);
  ok_memory : Forall in_memory (own ++ rest);
  ok_images : Forall (change_ok ws) (images_in (own ++ rest));
  ok_cells : Forall2 fits_cell ws cur }.

(** ** Reading it *)

Section row.
Context {ws : list Width} {own rest : list Rec} {cur : Values} {created deleted lock : Z} {a : VRow}.
Context (Hok : row_ok ws own rest cur created deleted lock a).

Lemma running_not_seen txn snapshot txn' :
  txn_ok txn → Z.lor txn UNCOMMITTED ≠ Z.lor txn' UNCOMMITTED →
  stops (Z.lor txn UNCOMMITTED) snapshot (Z.lor txn' UNCOMMITTED) = false.
Proof. intros Ht Hne. rewrite stops_running by done. by apply Z.eqb_neq. Qed.

Lemma row_read snapshot txn :
  fits 63 snapshot → txn_ok txn →
  readc (own ++ rest) snapshot (Z.lor txn UNCOMMITTED) cur = v_values a snapshot (Z.lor txn UNCOMMITTED).
Proof.
  intros Hs Ht. pose proof (ok_reads _ _ _ _ _ _ _ _ Hok snapshot txn Hs Ht) as Hr. unfold v_values, effects_seen.
  destruct (ok_owned _ _ _ _ _ _ _ _ Hok) as [Ho|w es own' Ho Hw Hne Hes Hown Hcur].
  - by rewrite Ho.
  - rewrite Ho. destruct (Z.eqb_spec (Z.lor w UNCOMMITTED) (Z.lor txn UNCOMMITTED)) as [E|E].
    + rewrite readc_stops; [done..|]. eapply Forall_impl; [exact Hown|]. intros c Hc. simpl. rewrite Hc, stops_running by done.
      by apply Z.eqb_eq.
    + rewrite readc_passes; [done|]. eapply Forall_impl; [exact Hown|]. intros c Hc. simpl. rewrite Hc.
      by apply running_not_seen.
Qed.

Lemma created_seen_ok snapshot txn :
  fits 63 snapshot → txn_ok txn →
  (wrap 64 (created - 1) <? snapshot) || (created =? Z.lor txn UNCOMMITTED)
  = created_seen a snapshot (Z.lor txn UNCOMMITTED).
Proof.
  intros Hs Ht. unfold created_seen. pose proof (held_nonzero txn Ht) as (H0&_&_). unfold fits in Hs.
  destruct (ok_created _ _ _ _ _ _ _ _ Hok) as [| |ts Hp Hf|w Hw].
  - change (wrap 64 (0 - 1)) with (2 ^ 64 - 1). rewrite (proj2 (Z.ltb_ge _ _)) by lia. by apply Z.eqb_neq, not_eq_sym.
  - change (wrap 64 (0 - 1)) with (2 ^ 64 - 1). by rewrite (proj2 (Z.ltb_ge _ _)) by lia.
  - unfold fits in Hf. rewrite wrap_id by (unfold fits; lia). rewrite (proj2 (Z.eqb_neq ts 0)) by lia. cbn [negb andb]. f_equal.
    destruct (Z.ltb_spec (ts - 1) snapshot), (Z.leb_spec ts snapshot); lia || done.
  - pose proof (held_nonzero w Hw) as (?&_&?). rewrite wrap_id by (unfold fits; lia).
    rewrite (proj2 (Z.ltb_ge _ _)) by lia. rewrite (proj2 (Z.leb_gt (Z.lor w UNCOMMITTED) snapshot)) by lia.
    by rewrite andb_false_r.
Qed.

Lemma removed_head l ts :
  fst <$> head (filter (λ e : Z * Effect, is_remove e.2 = true) l) = Some ts → ∃ e, e ∈ l ∧ is_remove e.2 = true ∧ e.1 = ts.
Proof.
  destruct (filter _ l) as [|e es] eqn:E; [done|]. intros [= <-]. exists e.
  assert (e ∈ filter (λ e : Z * Effect, is_remove e.2 = true) l) as [? ?]%list_elem_of_filter by (rewrite E; by left). done.
Qed.

Lemma existsb_false {A} (f : A → bool) l : existsb f l = false ↔ ∀ x, x ∈ l → f x = false.
Proof.
  rewrite <-not_true_iff_false, existsb_exists. split.
  - intros H x Hx. apply not_true_iff_false. intros Hf. apply H. exists x. by rewrite <-list_elem_of_In.
  - intros H (x&Hx&Hf). rewrite H in Hf; [done|]. by apply list_elem_of_In.
Qed.

Lemma deleted_seen_ok snapshot txn :
  fits 63 snapshot → txn_ok txn →
  (deleted <=? snapshot) || (deleted =? Z.lor txn UNCOMMITTED)
  = existsb is_remove (effects_seen a snapshot (Z.lor txn UNCOMMITTED)).
Proof.
  intros Hs Ht. pose proof (held_nonzero txn Ht) as (H0&Hl&Hb). unfold fits in Hs. unfold effects_seen.
  assert (∀ e, e ∈ committed_by snapshot a → e ∈ (v_hist a).*2) as Hsub.
  { intros e (x&->&[_ Hx]%list_elem_of_filter)%list_elem_of_fmap. by apply list_elem_of_fmap_2. }
  destruct (ok_deleted _ _ _ _ _ _ _ _ Hok) as [Hn|ts Hts Ho Hrem Hall|me es Ho Hrem Hno].
  - rewrite (proj2 (Z.leb_gt LIVE snapshot)) by (unfold LIVE; lia). rewrite (proj2 (Z.eqb_neq LIVE _)) by done. symmetry.
    unfold all_effects, own_effects in Hn. rewrite existsb_app in Hn. apply orb_false_iff in Hn as [Hh Hes].
    assert (existsb is_remove (committed_by snapshot a) = false) as Hc.
    { apply existsb_false. intros e He. by apply (proj1 (existsb_false _ _) Hh), Hsub. }
    destruct (v_own a) as [[w es]|]; [|done]. case_match; [|done]. unfold all_effects. rewrite existsb_app, Hh. done.
  - rewrite Ho. unfold fits in Hts. rewrite (proj2 (Z.eqb_neq ts _)) by lia. rewrite orb_false_r.
    apply removed_head in Hrem as (e&He&Hr&Et). destruct (Z.leb_spec ts snapshot) as [Hle|Hgt]; symmetry.
    + apply existsb_exists. exists e.2. split; [|done]. apply list_elem_of_In. unfold committed_by. apply list_elem_of_fmap_2.
      apply list_elem_of_filter. split; [lia|done].
    + apply existsb_false. intros x (y&->&[Hy1 Hy2]%list_elem_of_filter)%list_elem_of_fmap.
      apply not_true_iff_false. intros Hf. apply Hall in Hf; [lia|done].
  - rewrite Ho. pose proof (ok_owned _ _ _ _ _ _ _ _ Hok) as Hown. inversion Hown as [Ho'|w es' own' Ho' Hw]; [congruence|].
    rewrite Ho in Ho'. injection Ho' as -> <-. pose proof (held_nonzero w Hw) as (_&_&?).
    rewrite (proj2 (Z.leb_gt _ snapshot)) by lia. simpl. destruct (Z.lor w UNCOMMITTED =? Z.lor txn UNCOMMITTED); symmetry.
    + unfold all_effects. rewrite existsb_app, Hrem. apply orb_true_r.
    + apply existsb_false. intros e He. by apply (proj1 (existsb_false _ _) Hno), Hsub.
Qed.

Lemma row_visible snapshot txn :
  fits 63 snapshot → txn_ok txn →
  seen created deleted snapshot (Z.lor txn UNCOMMITTED) = v_visible a snapshot (Z.lor txn UNCOMMITTED).
Proof. intros Hs Ht. unfold seen, v_visible. by rewrite created_seen_ok, deleted_seen_ok. Qed.

Lemma owned_newest : v_own a = None → own = [] ∧ lock = 0.
Proof. intros Ho. destruct (ok_owned _ _ _ _ _ _ _ _ Hok); [done|congruence]. Qed.

Lemma row_claim snapshot txn :
  fits 63 snapshot → txn_ok txn →
  claim_refusal created lock deleted (newestc (own ++ rest)) snapshot (Z.lor txn UNCOMMITTED)
  = v_claim a snapshot (Z.lor txn UNCOMMITTED).
Proof.
  intros Hs Ht. unfold claim_refusal, v_claim. rewrite <-created_seen_ok by done.
  rewrite negb_orb, <-Z.leb_antisym. case_match; [done|]. clear H.
  destruct (ok_owned _ _ _ _ _ _ _ _ Hok) as [Ho|w es own' Ho Hw Hne Hes Hown Hcur]; rewrite Ho.
  - cbn [Z.eqb negb andb app]. rewrite (ok_newest _ _ _ _ _ _ _ _ Hok).
    destruct (ok_deleted _ _ _ _ _ _ _ _ Hok) as [Hn|ts Hts _ Hrem Hall|me es Ho' _ _]; [| |congruence].
    + rewrite Z.eqb_refl. assert (v_removed a = None) as ->; [|done].
      unfold v_removed. destruct (filter _ (v_hist a)) as [|e es] eqn:E; [done|].
      assert (e ∈ filter (λ e : Z * Effect, is_remove e.2 = true) (v_hist a)) as [Hr He]%list_elem_of_filter by (rewrite E; by left).
      unfold all_effects in Hn. rewrite existsb_app in Hn. apply orb_false_iff in Hn as [Hh _].
      rewrite (proj1 (existsb_false _ _) Hh) in Hr; [done|]. by apply list_elem_of_fmap_2.
    + rewrite Hrem. unfold fits in Hts. rewrite (proj2 (Z.eqb_neq ts LIVE)) by (unfold LIVE; lia). done.
  - pose proof (held_nonzero w Hw) as (H0&Hl&_). rewrite (proj2 (Z.eqb_neq _ 0)) by done. cbn [negb andb].
    destruct (Z.eqb_spec (Z.lor w UNCOMMITTED) (Z.lor txn UNCOMMITTED)) as [E|E]; cbn [negb]; [|done].
    destruct (ok_deleted _ _ _ _ _ _ _ _ Hok) as [Hn|ts Hts Ho' _ _|me es' Ho' Hr _]; [|congruence|].
    + rewrite (proj2 (Z.eqb_neq LIVE _)) by congruence. unfold all_effects, own_effects in Hn. rewrite Ho in Hn. simpl in Hn.
      rewrite existsb_app in Hn. apply orb_false_iff in Hn as [_ ->]. done.
    + rewrite Ho in Ho'. injection Ho' as <- <-. by rewrite E, Z.eqb_refl, Hr.
Qed.
End row.

(** ** Changing it *)

Lemma fits_cells ws v il : Forall2 fits_cell ws v → Forall (change_ok ws) il → Forall2 fits_cell ws (undo_all v il).
Proof.
  intros Hv Hil. revert v Hv. induction Hil as [|i il (_&w&Hw&Hf) _ IH]; intros v Hv; [done|]. apply IH. unfold put.
  rewrite <-(list_insert_id ws (Z.to_nat (i_column i)) w) by done. by apply Forall2_insert.
Qed.

Lemma changes_there ws (v : Values) il :
  length v = length ws → Forall (change_ok ws) il → Forall (λ i, 0 ≤ i_column i < zlen v) il.
Proof.
  intros Hl Hil. eapply Forall_impl; [exact Hil|]. intros i (H0&w&Hw&_). simpl. apply lookup_lt_Some in Hw. unfold zlen. lia.
Qed.

Lemma undo_all_outside v il k : k ∉ ((λ i, Z.to_nat (i_column i)) <$> il) → undo_all v il !! k = v !! k.
Proof.
  revert v. induction il as [|i il IH]; intros v Hk; [done|]. apply not_elem_of_cons in Hk as [Hne Hk]. simpl.
  rewrite IH by done. by apply list_lookup_insert_ne.
Qed.

(** The images an update takes undo it. *)
Lemma before_undoes v il taken :
  Forall (λ i, 0 ≤ i_column i < zlen v) il → taken ≡ₚ images_before v il → undo_all (undo_all v il) taken = v.
Proof.
  intros Hil Hp. apply undo_all_restores; [apply length_undo_all| |].
  - rewrite Hp. unfold images_before. apply Forall_fmap. eapply Forall_impl; [exact Hil|]. intros i Hi. simpl in *.
    destruct (v !! Z.to_nat (i_column i)) eqn:E; [done|]. apply lookup_ge_None in E. unfold zlen in Hi. lia.
  - intros k. destruct (decide (k ∈ ((λ i, Z.to_nat (i_column i)) <$> il))) as [Hin|Hout]; [right|left; by apply undo_all_outside].
    rewrite Hp. unfold images_before. rewrite <-list_fmap_compose. done.
Qed.

(** *** Stamped records *)

Lemma images_with_ts ts chain : images_in (with_ts ts <$> chain) = images_in chain.
Proof. induction chain as [|c chain IH]; [done|]. cbn [fmap list_fmap mbind list_bind]. by f_equal. Qed.

Lemma memory_with_ts ts chain : Forall in_memory chain → Forall in_memory (with_ts ts <$> chain).
Proof. intros H. apply Forall_fmap. eapply Forall_impl; [exact H|]. done. Qed.

Lemma stops_with_ts ts snapshot me b chain :
  stops ts snapshot me = b → Forall (λ c, stops (c_ts c) snapshot me = b) (with_ts ts <$> chain).
Proof. intros H. apply Forall_fmap, Forall_forall. intros c _. done. Qed.

Lemma newest_stamped ts chain rest : chain ≠ [] → ts ≠ ABORTED → newestc ((with_ts ts <$> chain) ++ rest) = ts.
Proof. intros Hne Hts. destruct chain as [|c chain]; [done|]. simpl. by rewrite (proj2 (Z.eqb_neq _ _)). Qed.

Lemma newest_aborted chain rest : newestc ((with_ts ABORTED <$> chain) ++ rest) = newestc rest.
Proof. by induction chain. Qed.

Lemma committed_by_all snapshot hist es ts :
  Forall (λ e : Z * Effect, e.1 ≤ snapshot) hist → ts ≤ snapshot →
  (filter (λ e, e.1 ≤ snapshot) (hist ++ ((λ e, (ts, e)) <$> es))).*2 = hist.*2 ++ es.
Proof.
  intros Hh Hts. rewrite filter_app, fmap_app. f_equal.
  - by rewrite list_filter_all.
  - rewrite list_filter_all; [by rewrite <-list_fmap_compose, list_fmap_id|]. by apply Forall_fmap, Forall_forall.
Qed.

Lemma committed_by_none snapshot hist es ts :
  snapshot < ts → filter (λ e : Z * Effect, e.1 ≤ snapshot) (hist ++ ((λ e, (ts, e)) <$> es)) = filter (λ e, e.1 ≤ snapshot) hist.
Proof.
  intros Hts. rewrite filter_app, (list_filter_none _ (_ <$> es)); [by rewrite app_nil_r|].
  apply Forall_fmap, Forall_forall. intros e _. simpl. lia.
Qed.

Section changes.
Context {ws : list Width} {own rest : list Rec} {cur : Values} {created deleted lock : Z} {a : VRow}.
Context (Hok : row_ok ws own rest cur created deleted lock a).

(** A row a writer may change. *)
Lemma claimed snapshot txn :
  txn_ok txn → v_claim a snapshot (Z.lor txn UNCOMMITTED) = None →
  v_created a ≠ None ∧ existsb is_remove (all_effects a (own_effects a)) = false ∧ deleted = LIVE
  ∧ cur = apply_all (v_base a) (all_effects a (own_effects a))
  ∧ Forall (λ c, c_ts c = Z.lor txn UNCOMMITTED) own.
Proof.
  intros Ht. unfold v_claim. destruct (created_seen a snapshot _) eqn:Ec; [|done]. cbn [negb]. intros Hc.
  assert (v_created a ≠ None) as Hcr by (intros E; unfold created_seen in Ec; by rewrite E in Ec).
  split; [done|]. pose proof (ok_now _ _ _ _ _ _ _ _ Hok) as Hnow.
  destruct (ok_owned _ _ _ _ _ _ _ _ Hok) as [Ho|w es own' Ho Hw Hne Hes Hown Hcur]; rewrite Ho in Hc.
  - assert (existsb is_remove (all_effects a (own_effects a)) = false ∧ deleted = LIVE) as [H1 ->].
    { destruct (ok_deleted _ _ _ _ _ _ _ _ Hok) as [Hn|ts _ _ Hrem _|? ? Ho' _ _]; [done| |congruence]. by rewrite Hrem in Hc. }
    split_and!; [done..| |constructor]. unfold own_effects. rewrite Ho. unfold all_effects. simpl. rewrite app_nil_r. done.
  - destruct (Z.eqb_spec (Z.lor w UNCOMMITTED) (Z.lor txn UNCOMMITTED)) as [E|E]; [|done]. rewrite <-E.
    assert (own_effects a = es) as Ee by (unfold own_effects; by rewrite Ho). rewrite Ee.
    destruct (existsb is_remove es) eqn:Er; [done|].
    destruct (ok_deleted _ _ _ _ _ _ _ _ Hok) as [Hn|ts _ Ho' _ _|? ? Ho' Hr _]; [|congruence|].
    + rewrite Ee in Hn. done.
    + rewrite Ho in Ho'. injection Ho' as <- <-. congruence.
Qed.

Lemma row_push snapshot txn e news :
  let me := Z.lor txn UNCOMMITTED in
  txn_ok txn → v_claim a snapshot me = None →
  news ≠ [] → Forall (λ c, c_ts c = me) news → Forall in_memory news → Forall (change_ok ws) (images_in news) →
  undo_all (apply_effect cur e) (images_in news) = cur → Forall2 fits_cell ws (apply_effect cur e) →
  row_ok ws (news ++ own) rest (apply_effect cur e) created (if is_remove e then me else deleted) me
    (v_with_own (Some (me, own_effects a ++ [e])) a).
Proof.
  intros me Ht Hc Hne Hnews Hmem Himg Hundo Hcells. destruct (claimed snapshot txn Ht Hc) as (Hcr&Hrm&->&Hcur&Hown).
  assert (undo_all (apply_effect cur e) (images_in (news ++ own)) = undo_all cur (images_in own)) as Eu.
  { rewrite bind_app. unfold undo_all at 1. rewrite foldl_app. fold (undo_all (apply_effect cur e) (images_in news)).
    by rewrite Hundo. }
  destruct Hok as [K1 K2 K3 K4 K5 K6 K7 K8 K9 K10 K11 K12].
  split; try done.
  - destruct e as [il|]; simpl.
    + apply Deleted_never. unfold own_effects, all_effects in *. simpl. rewrite !existsb_app in *. simpl.
      by rewrite !orb_false_r.
    + apply (Deleted_own _ _ (own_effects a ++ [Remove])); [done|by rewrite existsb_app; simpl; rewrite orb_true_r|].
      simpl. unfold all_effects in Hrm. rewrite existsb_app in Hrm. by apply orb_false_iff in Hrm as [? _].
  - apply (Owned_by _ _ txn (own_effects a ++ [e])); [done..| | | |].
    + intros E. by apply app_eq_nil in E as [-> _].
    + intros E. by apply app_eq_nil in E as [_ ?].
    + by apply Forall_app.
    + unfold all_effects. cbn [v_with_own v_base v_hist]. rewrite app_assoc, foldl_app. fold (all_effects a (own_effects a)).
      by rewrite <-Hcur.
  - by rewrite Eu.
  - intros snapshot' txn' Hs' Ht'. rewrite Eu. by apply K7.
  - rewrite <-app_assoc. by apply Forall_app.
  - rewrite <-app_assoc, bind_app. by apply Forall_app.
Qed.

(** ** Ending a change *)

(** The writer the row has. *)
Lemma holding me :
  holds_row me a = true →
  ∃ txn es, me = Z.lor txn UNCOMMITTED ∧ txn_ok txn ∧ v_own a = Some (me, es) ∧ own_effects a = es ∧ es ≠ [] ∧ own ≠ []
    ∧ lock = me ∧ Forall (λ c, c_ts c = me) own ∧ cur = apply_all (v_base a) (all_effects a es) ∧ v_created a ≠ None.
Proof.
  intros Hh. unfold holds_row in Hh. destruct (ok_owned _ _ _ _ _ _ _ _ Hok) as [Ho|w es own' Ho Hw Hne Hes Hown Hcur];
    rewrite Ho in Hh; [done|]. apply Z.eqb_eq in Hh as <-. exists w, es. split_and!; try done.
  - unfold own_effects. by rewrite Ho.
  - intros E. by apply (ok_fresh _ _ _ _ _ _ _ _ Hok) in E as [-> _].
Qed.

Lemma row_commit me ts :
  holds_row me a = true → fits 63 ts → v_newest a ≤ ts →
  row_ok ws [] ((with_ts ts <$> own) ++ rest) cur created (if deleted =? me then ts else deleted) 0 (v_commit me ts a).
Proof.
  intros Hh Hts Hnew. destruct (holding me Hh) as (txn&es&->&Ht&Ho&Ee&Hes&Hne&->&Hown&Hcur&Hcr).
  unfold v_commit. rewrite Hh, Ee. pose proof Hok as [K1 K2 K3 K4 K5 K6 K7 K8 K9 K10 K11 K12].
  set (a' := mkVRow _ _ _ None).
  assert (v_newest a' = ts) as En.
  { unfold v_newest, a'. simpl. destruct es as [|e es _] using rev_ind; [done|].
    change ((λ e0, (ts, e0)) <$> es ++ [e]) with (fmap (λ e0 : Effect, (ts, e0)) (es ++ [e])). rewrite fmap_app.
    change ((λ e0, (ts, e0)) <$> [e]) with [(ts, e)]. by rewrite app_assoc, last_snoc. }
  assert (ts ≠ ABORTED) as Hab by (unfold fits in Hts; unfold ABORTED; lia).
  split; try done.
  - destruct K2 as [Hn|ts' Hts' Ho' _ _|me' es' Ho' Hr Hnr]; [|congruence|].
    + rewrite (proj2 (Z.eqb_neq LIVE _)) by apply not_eq_sym, (held_nonzero txn Ht). apply Deleted_never.
      unfold a', own_effects, all_effects. simpl. rewrite app_nil_r, fmap_app, <-list_fmap_compose, list_fmap_id.
      by rewrite Ee in Hn.
    + rewrite Ho in Ho'. injection Ho' as <- <-. rewrite Z.eqb_refl.
      assert (∀ e, e ∈ v_hist a → is_remove e.2 = false) as Hnone.
      { intros e He. apply (proj1 (existsb_false _ _) Hnr). by apply list_elem_of_fmap_2. }
      apply Deleted_at; [done..| |].
      * unfold v_removed, a'. simpl. rewrite filter_app, list_filter_none; [|apply Forall_forall; intros e He; by rewrite Hnone].
        apply existsb_exists in Hr as (e&Hin%list_elem_of_In&He). destruct (filter _ ((λ e, (ts, e)) <$> es)) as [|x xs] eqn:E.
        { assert ((ts, e) ∈ filter (λ e : Z * Effect, is_remove e.2 = true) ((λ e, (ts, e)) <$> es)) as Hx.
          { apply list_elem_of_filter. split; [done|]. by apply list_elem_of_fmap_2. }
          rewrite E in Hx. by apply elem_of_nil in Hx. }
        simpl. assert (x ∈ filter (λ e : Z * Effect, is_remove e.2 = true) ((λ e, (ts, e)) <$> es)) as Hx by (rewrite E; by left).
        apply list_elem_of_filter in Hx as (_&(y&->&_)%list_elem_of_fmap). done.
      * intros x [Hx|(y&->&_)%list_elem_of_fmap]%elem_of_app Hrx; [|done]. by rewrite Hnone in Hrx.
  - by constructor.
  - apply Forall_app. split; [|done]. apply Forall_fmap, Forall_forall. intros c _. by left.
  - unfold a'. simpl. by rewrite fmap_app, <-list_fmap_compose, list_fmap_id.
  - intros snapshot txn' Hs Ht'. change (undo_all cur (images_in [])) with cur. unfold committed_by, a'. cbn [v_hist v_base].
    pose proof (held_nonzero txn' Ht') as (_&_&?).
    assert (stops ts snapshot (Z.lor txn' UNCOMMITTED) = (ts <=? snapshot)) as Est by (apply stops_committed; [done|lia]).
    destruct (Z.leb_spec ts snapshot).
    + rewrite readc_stops, committed_by_all; [done| |lia| |by apply stops_with_ts].
      * eapply Forall_impl; [exact K9|]. intros x [_ ?]. simpl. lia.
      * intros E. by apply fmap_nil_inv in E.
    + rewrite readc_passes, committed_by_none by (lia || by apply stops_with_ts). rewrite images_with_ts. by apply K7.
  - rewrite En. by apply newest_stamped.
  - rewrite En. unfold a'. simpl. apply Forall_app. split.
    + eapply Forall_impl; [exact K9|]. intros x [? ?]. simpl. split; [done|lia].
    + apply Forall_fmap, Forall_forall. intros e _. done.
  - cbn [app]. apply Forall_app in K10 as [? ?]. apply Forall_app. split; [by apply memory_with_ts|done].
  - simpl. rewrite bind_app in K11 |- *. by rewrite images_with_ts.
Qed.

Lemma row_abort me :
  holds_row me a = true →
  row_ok ws [] ((with_ts ABORTED <$> own) ++ rest) (undo_all cur (images_in own)) created
    (if deleted =? me then LIVE else deleted) 0 (v_abort me a).
Proof.
  intros Hh. destruct (holding me Hh) as (txn&es&->&Ht&Ho&Ee&Hes&Hne&->&Hown&Hcur&Hcr).
  unfold v_abort. rewrite Hh. pose proof Hok as [K1 K2 K3 K4 K5 K6 K7 K8 K9 K10 K11 K12].
  split; try done.
  - assert (existsb is_remove (v_hist a).*2 = false → deleted_ok (v_with_own None a) LIVE) as Hlive.
    { intros Hn. apply Deleted_never. unfold own_effects, all_effects. simpl. by rewrite app_nil_r. }
    destruct K2 as [Hn|ts' Hts' Ho' _ _|me' es' Ho' Hr Hnr]; [|congruence|].
    + rewrite (proj2 (Z.eqb_neq LIVE _)) by apply not_eq_sym, (held_nonzero txn Ht). apply Hlive.
      unfold all_effects in Hn. rewrite existsb_app in Hn. by apply orb_false_iff in Hn as [? _].
    + rewrite Ho in Ho'. injection Ho' as <- <-. rewrite Z.eqb_refl. by apply Hlive.
  - by constructor.
  - apply Forall_app. split; [|done]. apply Forall_fmap, Forall_forall. intros c _. by right.
  - intros snapshot txn' Hs Ht'. cbn [mbind list_bind undo_all foldl].
    rewrite readc_passes by by apply stops_with_ts, stops_aborted.
    rewrite images_with_ts. fold (undo_all cur (images_in own)). rewrite undo_all_twice. by apply K7.
  - by rewrite newest_aborted.
  - cbn [app]. apply Forall_app in K10 as [? ?]. apply Forall_app. split; [by apply memory_with_ts|done].
  - simpl. rewrite bind_app in K11 |- *. by rewrite images_with_ts.
  - apply fits_cells; [done|]. rewrite bind_app in K11. by apply Forall_app in K11 as [? _].
Qed.

(** ** Inserting it *)

Lemma row_fill i :
  v_created a = None → change_ok ws i →
  row_ok ws own rest (put cur i) created deleted lock (v_fill i a).
Proof.
  intros Hc Hi. pose proof Hok as [K1 K2 K3 K4 K5 K6 K7 K8 K9 K10 K11 K12].
  destruct (K4 Hc) as (->&->&Hh). rewrite Hh in K6.
  assert (cur = v_base a) as Ecur by done.
  split; try done.
  - destruct K2 as [Hn|? ? ? ? ?|? ? ? ? ?]; [by apply Deleted_never|by apply Deleted_at|by eapply Deleted_own].
  - inversion K3 as [Ho|]; [by constructor|done].
  - unfold v_fill. simpl. rewrite Hh. by rewrite Ecur.
  - intros. unfold committed_by, v_fill. simpl. rewrite Hh. by rewrite Ecur.
  - apply (fits_cells ws cur [i]); [done|by constructor].
Qed.

Lemma row_created c created' :
  created_ok (Some c) created' → row_ok ws own rest cur created' deleted lock (v_create c a).
Proof.
  intros Hc. pose proof Hok as [K1 K2 K3 K4 K5 K6 K7 K8 K9 K10 K11 K12]. split; try done.
  - destruct K2 as [Hn|? ? ? ? ?|? ? ? ? ?]; [by apply Deleted_never|by apply Deleted_at|by eapply Deleted_own].
  - destruct K3; [by constructor|by eapply Owned_by].
Qed.
End changes.
