(* ===== verification/HotWorld.v ===== *)
(** A hot stripe, the undo space and the buffers of its writers together, each operation run on
    them, and the multiversion store they keep: every operation answers what the store does and
    leaves a stripe that keeps the store after it. *)

From S2P Require Import Prelude Undo UndoWords UndoAlloc Deletes Hot HotCells HotChain HotRow HotStore.
Local Open Scope Z_scope.

(** * Operations *)

Record World : Type := mkWorld {
  w_stripe : HotStripe;
  w_space : UndoSpace;
  w_bufs : list UndoBuffer }.

Inductive Op : Type :=
| Fill (slot : Z) (i : Image)
| Insert (slots : list Z) (txn : Z)
| CommitInsert (slots : list Z) (txn ts : Z)
| AbortInsert (slots : list Z) (txn : Z)
| UpdateRow (worker : nat) (slot : Z) (changes : list Image) (snapshot txn : Z)
| DeleteRow (worker : nat) (slot snapshot txn : Z)
| CommitRow (slot txn ts : Z)
| AbortRow (slot txn : Z).

(** An operation run on the stripe; [None] is a panic. *)
Definition exec (op : Op) (w : World) : option (option Refusal * World) :=
  let '(mkWorld s sp bufs) := w in
  match op with
  | Fill slot i => s ← Hot_write slot (i_column i) (i_value i) s; Some (None, mkWorld s sp bufs)
  | Insert slots txn => '(_, s) ← Hot_insert slots txn s; Some (None, mkWorld s sp bufs)
  | CommitInsert slots txn ts => Some (None, mkWorld (Hot_commit_insert slots txn ts s) sp bufs)
  | AbortInsert slots txn => Some (None, mkWorld (Hot_abort_insert slots txn s) sp bufs)
  | UpdateRow k slot changes snapshot txn =>
      b ← bufs !! k;
      '(r, (s, (b, sp))) ← Hot_update slot (images_pairs changes) snapshot txn s b sp;
      Some (r, mkWorld s sp (<[k := b]> bufs))
  | DeleteRow k slot snapshot txn =>
      b ← bufs !! k;
      '(r, (s, (b, sp))) ← Hot_delete slot snapshot txn s b sp;
      Some (r, mkWorld s sp (<[k := b]> bufs))
  | CommitRow slot txn ts => '(s, sp) ← Hot_commit_write slot txn ts s sp; Some (None, mkWorld s sp bufs)
  | AbortRow slot txn => '(s, sp) ← Hot_abort_write slot txn s sp; Some (None, mkWorld s sp bufs)
  end.

Abbreviation VStore := (gmap Z VRow).

Definition at_slots (f : VRow → VRow) (slots : list Z) (A : VStore) : VStore :=
  map_imap (λ t a, Some (if bool_decide (t ∈ slots) then f a else a)) A.

(** The same on the store. *)
Definition vexec (op : Op) (A : VStore) : option Refusal * VStore :=
  match op with
  | Fill slot i => (None, alter (v_fill i) slot A)
  | Insert slots txn => (None, at_slots (v_create (Z.lor txn UNCOMMITTED)) slots A)
  | CommitInsert slots txn ts => (None, at_slots (v_restamp (Z.lor txn UNCOMMITTED) ts) slots A)
  | AbortInsert slots txn => (None, at_slots (v_restamp (Z.lor txn UNCOMMITTED) 0) slots A)
  | UpdateRow _ slot changes snapshot txn =>
      match A !! slot with
      | Some a => let '(r, a) := v_change (Change changes) snapshot (Z.lor txn UNCOMMITTED) a in (r, <[slot := a]> A)
      | None => (None, A)
      end
  | DeleteRow _ slot snapshot txn =>
      match A !! slot with
      | Some a => let '(r, a) := v_change Remove snapshot (Z.lor txn UNCOMMITTED) a in (r, <[slot := a]> A)
      | None => (None, A)
      end
  | CommitRow slot txn ts => (None, alter (v_commit (Z.lor txn UNCOMMITTED) ts) slot A)
  | AbortRow slot txn => (None, alter (v_abort (Z.lor txn UNCOMMITTED)) slot A)
  end.

(** What the callers of an operation keep to. *)
Definition legal (ws : list Width) (workers : nat) (A : VStore) (op : Op) : Prop :=
  match op with
  | Fill slot i => (∃ a, A !! slot = Some a ∧ v_created a = None) ∧ change_ok ws i
  | Insert slots txn => txn_ok txn ∧ ∀ t, t ∈ slots → ∃ a, A !! t = Some a ∧ v_created a = None
  | CommitInsert slots txn ts => txn_ok txn ∧ 0 < ts ∧ fits 63 ts
  | AbortInsert slots txn => txn_ok txn
  | UpdateRow k slot changes snapshot txn =>
      (k < workers)%nat ∧ is_Some (A !! slot) ∧ Forall (change_ok ws) changes ∧ fits 63 snapshot ∧ txn_ok txn
  | DeleteRow k slot snapshot txn => (k < workers)%nat ∧ is_Some (A !! slot) ∧ fits 63 snapshot ∧ txn_ok txn
  | CommitRow slot txn ts => (∃ a, A !! slot = Some a ∧ v_newest a ≤ ts) ∧ fits 63 ts ∧ txn_ok txn
  | AbortRow slot txn => is_Some (A !! slot) ∧ txn_ok txn
  end.

(** The chunks an operation may have to make. *)
Definition weight (op : Op) : Z :=
  match op with
  | UpdateRow _ _ changes _ _ => zlen changes + 1
  | DeleteRow _ _ _ _ => 1
  | _ => 0
  end.

(** * A world that keeps a store *)

Record slot_ok (ws : list Width) (s : HotStripe) (G : Kept) (refs : list Z) (slot : Z) (a : VRow) : Prop := {
  sl_slot : 0 ≤ slot < STRIPE_ROWS;
  sl_alloc : allocated s slot;
  sl_created : is_Some (slot_get 0 (st_created s) slot);
  sl_linked : linked G (Hot_head s slot) refs;
  sl_nodup : NoDup refs;
  sl_row : ∃ own rest, refs = own ++ rest
    ∧ row_ok ws (recs G own) (recs G rest) (row_values s slot) (created_at s slot) (deleted_at s slot) (lock_at s slot) a }.

(** What no operation changes. *)
Record same_stripe (s s' : HotStripe) : Prop := {
  sm_id : st_id s' = st_id s;
  sm_table : st_table s' = st_table s;
  sm_state : st_state s' = st_state s;
  sm_pending : st_pending s' = st_pending s;
  sm_widths : widths s' = widths s }.

Record stripe_ok (ws : list Width) (s : HotStripe) : Prop := {
  sk_id : u32 (st_id s);
  sk_table : u32 (st_table s);
  sk_state : st_state s < FREEZING;
  sk_pending : st_pending s = None;
  sk_widths : widths s = ws;
  sk_columns : zlen ws ≤ 2 ^ 16 }.

(** A slot no row of the store is at. *)
Definition untouched (s : HotStripe) (slot : Z) : Prop := Hot_head s slot = 0 ∧ created_at s slot = 0.

Record kept (ws : list Width) (w : World) (A : VStore) (G : Kept) (R : Z → list Z) : Prop := {
  kp_space : space_ok (w_space w) (w_bufs w) G;
  kp_bufs : Forall (λ b, 0 ≤ b_next b) (w_bufs w);
  kp_stripe : stripe_ok ws (w_stripe w);
  kp_slots : ∀ slot a, A !! slot = Some a → slot_ok ws (w_stripe w) G (R slot) slot a;
  kp_apart : ∀ t u a b, A !! t = Some a → A !! u = Some b → t ≠ u → ∀ at_, at_ ∈ R t → at_ ∉ R u;
  kp_rest : ∀ slot, 0 ≤ slot → A !! slot = None → untouched (w_stripe w) slot }.

Definition keeps (ws : list Width) (w : World) (A : VStore) : Prop := ∃ G R, kept ws w A G R.

(** ** One row changes *)

(** Another row is as it was. *)
Record same_row (s s' : HotStripe) (t : Z) : Prop := {
  sr_alloc : allocated s t → allocated s' t;
  sr_there : is_Some (slot_get 0 (st_created s) t) → is_Some (slot_get 0 (st_created s') t);
  sr_head : Hot_head s' t = Hot_head s t;
  sr_values : row_values s' t = row_values s t;
  sr_created : created_at s' t = created_at s t;
  sr_deleted : deleted_at s' t = deleted_at s t;
  sr_lock : lock_at s' t = lock_at s t }.

Lemma same_row_trans s s1 s2 t : same_row s s1 t → same_row s1 s2 t → same_row s s2 t.
Proof. intros [] []. split; auto; congruence. Qed.

Lemma same_stripe_ok ws s s' : stripe_ok ws s → same_stripe s s' → stripe_ok ws s'.
Proof. intros [] []. split; congruence. Qed.

Lemma recs_app G l l' : recs G (l ++ l') = recs G l ++ recs G l'.
Proof. apply omap_app. Qed.

Lemma slot_ok_frame ws s s' G G' refs t a :
  slot_ok ws s G refs t a → same_row s s' t → (∀ at_, at_ ∈ refs → G' !! at_ = G !! at_) → slot_ok ws s' G' refs t a.
Proof.
  intros [L1 L2 L3 L4 L5 (own&rest&->&Hrow)] [S1 S2 S3 S4 S5 S6 S7] HG. split; [done|auto..| |done|].
  - rewrite S3. by eapply linked_frame.
  - exists own, rest. split; [done|]. rewrite S4, S5, S6, S7, !(recs_frame G G') by (intros; apply HG; set_solver). done.
Qed.

Lemma space_ok_perm sp bufs bufs' G : bufs ≡ₚ bufs' → space_ok sp bufs G → space_ok sp bufs' G.
Proof.
  intros Hp [H1 H2 H3 H4 H5 H6 H7 H8]. split; try done.
  - intros b Hb. apply H4. by rewrite Hp.
  - by rewrite <-Hp.
  - intros at_ c b Hc Hb. apply (H8 at_ c b Hc). by rewrite Hp.
Qed.

Lemma bufs_out (bufs : list UndoBuffer) k b : bufs !! k = Some b → bufs ≡ₚ b :: delete k bufs.
Proof. apply delete_Permutation. Qed.

Lemma bufs_in (bufs : list UndoBuffer) k b b' : bufs !! k = Some b → <[k := b']> bufs ≡ₚ b' :: delete k bufs.
Proof.
  intros Hb. rewrite (insert_take_drop bufs k b') by by eapply lookup_lt_Some. rewrite delete_take_drop.
  by rewrite Permutation_middle.
Qed.

(** The world after a row of it changed. *)
Lemma kept_row ws s sp bufs A G R slot a a' s' sp' bufs' G' refs' :
  kept ws (mkWorld s sp bufs) A G R → A !! slot = Some a →
  space_ok sp' bufs' G' → Forall (λ b, 0 ≤ b_next b) bufs' → same_stripe s s' →
  slot_ok ws s' G' refs' slot a' →
  (∀ t, 0 ≤ t → t ≠ slot → same_row s s' t) →
  (∀ at_, is_Some (G !! at_) → at_ ∉ R slot → G' !! at_ = G !! at_) →
  (∀ at_, at_ ∈ refs' → at_ ∈ R slot ∨ G !! at_ = None) →
  keeps ws (mkWorld s' sp' bufs') (<[slot := a']> A).
Proof.
  intros [P1 P2 P3 P4 P5 P6] Ha Hsp Hbufs Hsame Hslot Hrows HG Hrefs. simpl in *.
  exists G', (λ t, if decide (t = slot) then refs' else R t).
  assert (∀ t b at_, t ≠ slot → A !! t = Some b → at_ ∈ R t → at_ ∉ R slot ∧ is_Some (G !! at_)) as Hother.
  { intros t b at_ Ht Hb Hin. split; [by apply (P5 t slot b a)|].
    eapply linked_kept; [apply (P4 t b Hb)|done]. }
  split; simpl; [done|done|by eapply same_stripe_ok| | |].
  - intros t b [[<- <-]|[Ht Hb]]%lookup_insert_Some; [by rewrite decide_True|]. rewrite decide_False by done.
    pose proof (sl_slot _ _ _ _ _ _ (P4 t b Hb)) as L1. eapply slot_ok_frame; [by apply P4|apply Hrows; [lia|done]|].
    intros at_ Hin. destruct (Hother t b at_) as [? ?]; [done..|]. by apply HG.
  - intros t u x y Hx Hy Htu at_. destruct (decide (t = slot)) as [->|Ht], (decide (u = slot)) as [->|Hu]; [done| | |].
    + rewrite lookup_insert_ne in Hy by done. intros Hin Hin'. destruct (Hother u y at_) as [Hn [c Hc]]; [done..|].
      destruct (Hrefs at_ Hin) as [?|?]; [done|congruence].
    + rewrite lookup_insert_ne in Hx by done. intros Hin Hin'. destruct (Hother t x at_) as [Hn [c Hc]]; [done..|].
      destruct (Hrefs at_ Hin') as [?|?]; [done|congruence].
    + rewrite lookup_insert_ne in Hx, Hy by done. by apply (P5 t u x y).
  - intros t Ht [Hn Hne]%lookup_insert_None. unfold untouched. rewrite (sr_head _ _ _ (Hrows t Ht ltac:(done))), (sr_created _ _ _ (Hrows t Ht ltac:(done))). by apply P6.
Qed.

(** ** Claiming a row *)

Lemma owned_lock a cur own lock : owned a cur own lock → lock_word lock.
Proof. intros [|]; constructor. done. Qed.

Lemma relocked_row s s' slot word t : relocked s s' slot word → t ≠ slot → same_row s s' t.
Proof.
  intros [E H] Ht. rewrite E in *. split; try done. rewrite H. by rewrite decide_False.
Qed.

Lemma relocked_stripe s s' slot word : relocked s s' slot word → same_stripe s s'.
Proof. intros [-> _]. done. Qed.

Section step.
Context {ws : list Width} {s : HotStripe} {sp : UndoSpace} {bufs : list UndoBuffer} {A : VStore} {G : Kept} {R : Z → list Z}.
Context (HK : kept ws (mkWorld s sp bufs) A G R).
Context {slot : Z} {a : VRow} (Ha : A !! slot = Some a).

Lemma the_slot : slot_ok ws s G (R slot) slot a.
Proof. exact (kp_slots _ _ _ _ _ HK slot a Ha). Qed.

Lemma refs_in_fuel : (length (R slot) < chain_fuel sp)%nat.
Proof.
  destruct the_slot as [_ _ _ L N _]. eapply refs_bound; [exact (kp_space _ _ _ _ _ HK)|done|].
  intros at_ Hin. by eapply linked_kept.
Qed.

Lemma newest_here : newest_change s sp slot = Some (newestc (recs G (R slot))).
Proof.
  unfold newest_change. eapply newest_change_newestc; [exact (kp_space _ _ _ _ _ HK)|apply the_slot|apply refs_in_fuel].
Qed.

Lemma claim_step snapshot txn :
  fits 63 snapshot → txn_ok txn →
  let me := Z.lor txn UNCOMMITTED in
  ∃ s1, claim slot snapshot me s sp = Some (v_claim a snapshot me, s1)
    ∧ relocked s s1 slot (match v_claim a snapshot me with Some _ => lock_at s slot | None => me end).
Proof.
  intros Hs Ht me. destruct the_slot as [_ _ _ _ _ (own&rest&E&Hrow)].
  pose proof newest_here as Hnew. rewrite E, recs_app in Hnew.
  destruct (claim_ok slot snapshot txn s sp _ Ht (owned_lock _ _ _ _ (ok_owned _ _ _ _ _ _ _ _ Hrow))
    (sk_state _ _ (kp_stripe _ _ _ _ _ HK)) Hnew) as (s1&Ec&Hr).
  rewrite (row_claim Hrow snapshot txn Hs Ht) in Ec, Hr. eauto.
Qed.

(** A row refused stays as it is. *)
Lemma refused s1 : relocked s s1 slot (lock_at s slot) → keeps ws (mkWorld s1 sp bufs) A.
Proof.
  intros Hr. assert (∀ t, same_row s s1 t) as Hsame.
  { intros t. destruct Hr as [E H]. split; try (rewrite E; done). rewrite H. by case_decide; subst. }
  destruct HK as [P1 P2 P3 P4 P5 P6]. exists G, R. split; simpl; [done|done| | |done|].
  - eapply same_stripe_ok; [done|by eapply relocked_stripe].
  - intros t b Hb. eapply slot_ok_frame; [by apply P4|done|done].
  - intros t Ht Hn. unfold untouched. rewrite (sr_head _ _ _ (Hsame t)), (sr_created _ _ _ (Hsame t)). by apply P6.
Qed.
End step.

(** ** Writing a row *)

Lemma fits_cell_128 w v : fits_cell w (Some v) → fits 128 v.
Proof. simpl. intros H. eapply fits_weaken; [|exact H]. by destruct w. Qed.

Lemma before_ok ws cur changes :
  zlen ws ≤ 2 ^ 16 → Forall2 fits_cell ws cur → Forall (change_ok ws) changes →
  Forall (change_ok ws) (images_before cur changes) ∧ Forall image_ok (images_before cur changes).
Proof.
  intros H16 Hcur Hch. unfold images_before.
  assert (∀ i, i ∈ changes → ∃ w x, 0 ≤ i_column i < 2 ^ 16 ∧ ws !! Z.to_nat (i_column i) = Some w
    ∧ cur !! Z.to_nat (i_column i) = Some x ∧ fits_cell w x) as Hi.
  { intros i Hin. rewrite Forall_forall in Hch. destruct (Hch i Hin) as (H0&w&Hw&_).
    destruct (Forall2_lookup_l _ _ _ _ _ Hcur Hw) as (x&Hx&Hf). exists w, x. split_and!; try done.
    apply lookup_lt_Some in Hw. unfold zlen in H16. lia. }
  split; apply Forall_fmap, Forall_forall; intros i Hin; destruct (Hi i Hin) as (w&x&H0&Hw&Hx&Hf).
  - split; [simpl; lia|]. exists w. simpl. rewrite Hx. done.
  - unfold compose. split; [unfold fits; simpl; lia|]. cbn [i_value]. rewrite Hx. simpl. destruct x as [v|]; [|done]. by apply (fits_cell_128 w).
Qed.

(** The undo records of a change go on top of the row's chain. *)
Lemma push_step ws s sp bufs A G R slot a s1 k b kind txn images :
  kept ws (mkWorld s sp bufs) A G R → A !! slot = Some a → relocked s s1 slot (Z.lor txn UNCOMMITTED) → txn_ok txn →
  bufs !! k = Some b → Forall image_ok images → us_next sp + zlen images + 1 ≤ 2 ^ 20 →
  ∃ s2 b' sp' G' news, push_undo slot kind (Z.lor txn UNCOMMITTED) images s1 b sp = Some (s2, (b', sp'))
    ∧ s2 = with_heads (st_undo s2) s1 ∧ (∀ t, t ≠ slot → Hot_head s2 t = Hot_head s t)
    ∧ space_ok sp' (<[k := b']> bufs) G' ∧ Forall (λ b, 0 ≤ b_next b) (<[k := b']> bufs)
    ∧ linked G' (Hot_head s2 slot) (news ++ R slot) ∧ wrote G G' kind (Z.lor txn UNCOMMITTED) images news ∧ news ≠ []
    ∧ us_next sp' ≤ us_next sp + zlen images + 1.
Proof.
  intros HK Ha Hrl Ht Hb Himg Hroom. destruct (the_slot HK Ha) as [L1 _ _ L4 _ _]. pose proof HK as [P1 P2 [K1 K2 _ _ _ _] _ _]. simpl in *.
  destruct Hrl as [Es1 _]. assert (Hot_head s1 = Hot_head s) as Eh by (rewrite Es1; done).
  destruct (push_undo_ok slot kind (Z.lor txn UNCOMMITTED) images s1 b sp (delete k bufs) G (R slot)) as
    (s2&b'&sp'&G'&news&E&E2&Hh&Hsp&Hb'&Hl&Hw&Hne&Hn&_).
  - by eapply space_ok_perm; [apply bufs_out|].
  - rewrite Forall_lookup in P2. by eapply P2.
  - by rewrite Eh.
  - pose proof (held_nonzero txn Ht) as (_&_&?). unfold fits. lia.
  - by rewrite Es1.
  - unfold STRIPE_ROWS in L1. unfold fits. lia.
  - by rewrite Es1.
  - done.
  - done.
  - exists s2, b', sp', G', news. rewrite Eh in Hh. split_and!; try done.
    + eapply space_ok_perm; [symmetry; by eapply bufs_in|done].
    + by apply Forall_insert.
Qed.

(** The row after the records of a change are on it and the change is made. *)
Lemma pushed_row ws s s' G G' R slot a snapshot txn e kind images news :
  let me := Z.lor txn UNCOMMITTED in
  slot_ok ws s G R slot a → txn_ok txn → v_claim a snapshot me = None → kind ≠ Spilled →
  wrote G G' kind me images news → news ≠ [] → linked G' (Hot_head s' slot) (news ++ R) →
  Forall (change_ok ws) images →
  (∀ taken, taken ≡ₚ images → undo_all (apply_effect (row_values s slot) e) taken = row_values s slot) →
  Forall2 fits_cell ws (apply_effect (row_values s slot) e) →
  allocated s' slot → is_Some (slot_get 0 (st_created s') slot) →
  row_values s' slot = apply_effect (row_values s slot) e → created_at s' slot = created_at s slot →
  deleted_at s' slot = (if is_remove e then me else deleted_at s slot) → lock_at s' slot = me →
  slot_ok ws s' G' (news ++ R) slot (v_with_own (Some (me, own_effects a ++ [e])) a).
Proof.
  intros me [L1 L2 L3 L4 L5 (own&rest&->&Hrow)] Ht Hc Hk [W1 W2 W3 W4 W5] Hne Hl Himg Hundo Hcells Hal Hcr Ev Ec Ed El.
  assert (∀ at_, at_ ∈ own ++ rest → at_ ∉ news) as Hout.
  { intros at_ Hin Hin'. apply W1 in Hin'. by apply (linked_fresh _ _ _ _ L4 Hin'). }
  split; [done..| |].
  - apply NoDup_app. split_and!; [done| |done]. intros x Hx Hx'. by apply (Hout x).
  - exists (news ++ own), rest. split; [by rewrite app_assoc|]. rewrite Ev, Ec, Ed, El, recs_app.
    rewrite (recs_frame G G' own), (recs_frame G G' rest) by (intros; apply W3, Hout; set_solver).
    apply (row_push Hrow snapshot); try done.
    + destruct news as [|n news]; [done|]. assert (is_Some (G' !! n)) as [c Hn] by (eapply linked_kept; [exact Hl|by left]).
      by rewrite (recs_cons _ _ _ _ Hn).
    + eapply Forall_impl; [exact W4|]. by intros c [? _].
    + eapply Forall_impl; [exact W4|]. intros c [_ E]. unfold in_memory. by rewrite E.
    + by rewrite W5.
    + by apply Hundo.
Qed.

(** The world once they are. *)
Lemma pushed_world ws s sp bufs A G R slot a a' me s1 s2 s3 sp' bufs' G' kind images news :
  kept ws (mkWorld s sp bufs) A G R → A !! slot = Some a → relocked s s1 slot me →
  s2 = with_heads (st_undo s2) s1 → (∀ t, t ≠ slot → Hot_head s2 t = Hot_head s t) →
  space_ok sp' bufs' G' → Forall (λ b, 0 ≤ b_next b) bufs' → wrote G G' kind me images news →
  same_stripe s2 s3 → (∀ t, 0 ≤ t → t ≠ slot → same_row s2 s3 t) → slot_ok ws s3 G' (news ++ R slot) slot a' →
  keeps ws (mkWorld s3 sp' bufs') (<[slot := a']> A).
Proof.
  intros HK Ha [Es1 Hl1] Es2 Hh Hsp Hbufs Hwr [T1 T2 T3 T4 T5] Hsame Hslot.
  eapply (kept_row ws s sp bufs A G R slot a a' s3 sp' bufs' G' (news ++ R slot)); [done|done|done|done| |done| | |].
  - split; [rewrite T1|rewrite T2|rewrite T3|rewrite T4|rewrite T5]; rewrite Es2, Es1; done.
  - intros t Ht0 Hne. apply same_row_trans with s2; [|by apply Hsame].
    assert (same_row s s1 t) as [] by by apply (relocked_row s s1 slot me).
    split; try (rewrite Es2; done). by apply Hh.
  - intros at_ [c Hc] Hout. apply (wr_rest _ _ _ _ _ _ Hwr). intros Hin. apply (wr_fresh _ _ _ _ _ _ Hwr) in Hin. congruence.
  - intros at_ [Hin|Hin]%elem_of_app; [right; by apply (wr_fresh _ _ _ _ _ _ Hwr)|by left].
Qed.

Lemma update_step ws s sp bufs A G R slot a k b changes snapshot txn :
  let me := Z.lor txn UNCOMMITTED in
  kept ws (mkWorld s sp bufs) A G R → A !! slot = Some a → bufs !! k = Some b →
  Forall (change_ok ws) changes → fits 63 snapshot → txn_ok txn → us_next sp + zlen changes + 1 ≤ 2 ^ 20 →
  ∃ s' b' sp', Hot_update slot (images_pairs changes) snapshot txn s b sp
      = Some ((v_change (Change changes) snapshot me a).1, (s', (b', sp')))
    ∧ keeps ws (mkWorld s' sp' (<[k := b']> bufs)) (<[slot := (v_change (Change changes) snapshot me a).2]> A)
    ∧ us_next sp' ≤ us_next sp + zlen changes + 1.
Proof.
  intros me HK Ha Hb Hch Hs Ht Hroom. pose proof (zlen_nonneg changes). unfold Hot_update, v_change. fold me.
  destruct (claim_step HK Ha snapshot txn Hs Ht) as (s1&Ecl&Hrl). fold me in Ecl, Hrl. rewrite Ecl, some_bind.
  destruct (v_claim a snapshot me) as [r|] eqn:Ec.
  { exists s1, b, sp. split; [done|]. cbn [snd]. rewrite (list_insert_id bufs), (insert_id A) by done. split; [by eapply refused|lia]. }
  pose proof (the_slot HK Ha) as Hsl. pose proof Hsl as [L1 L2 L3 L4 L5 (own&rest&ER&Hrow)].
  pose proof (kp_stripe _ _ _ _ _ HK) as [_ _ _ _ Kw K16]. simpl in Kw.
  pose proof (ok_cells _ _ _ _ _ _ _ _ Hrow) as Hcells. pose proof Hrl as [Es1 Hl1].
  assert (row_values s1 = row_values s ∧ allocated s1 slot ∧ widths s1 = ws) as (Ev&Hal&Ew) by (rewrite Es1; done).
  assert (length (row_values s slot) = length ws) as Elen by (rewrite length_row_values; congruence).
  destruct (before_ok ws (row_values s slot) changes K16 Hcells Hch) as [Hb1 Hb2].
  pose proof (changes_there ws _ changes Elen Hch) as Hthere.
  rewrite (images_taken s1 slot changes); [|by rewrite Ev|rewrite Ev; unfold zlen in *; lia]. rewrite some_bind, Ev.
  destruct (push_step _ _ _ _ _ _ _ slot a s1 k b Update txn (images_before (row_values s slot) changes) HK Ha Hrl Ht Hb Hb2)
    as (s2&b'&sp'&G'&news&Ep&Es2&Hh&Hsp&Hbufs&Hlk&Hwr&Hne&Hn); [unfold images_before; by rewrite zlen_fmap|].
  fold me in Ep. rewrite Ep, some_bind.
  assert (row_values s2 = row_values s1 ∧ allocated s2 slot ∧ widths s2 = ws) as (Ev2&Hal2&Ew2) by (rewrite Es2; done).
  destruct (write_all_ok slot changes s2) as (s3&->&[V1 V2 V3 V4 V5]); [lia|done|by rewrite Ew2|].
  rewrite some_bind. exists s3, b', sp'. split; [done|]. rewrite Ev2, Ev in V2.
  split; [|unfold images_before in Hn; rewrite zlen_fmap in Hn; lia].
  eapply (pushed_world ws s sp bufs A G R slot a); [done..| | |].
  - split; [| | | |congruence]; by rewrite V1.
  - intros t Ht0 Hne'. split; [by apply V5| | |by apply V3|..]; by rewrite V1.
  - eapply (pushed_row ws s s3 G G' (R slot) slot a snapshot txn (Change changes) Update); try done.
    + by rewrite V1.
    + intros taken Hp. by apply before_undoes.
    + by apply fits_cells.
    + by apply V5.
    + by rewrite V1, Es2, Es1.
    + by rewrite V1, Es2, Es1.
    + by rewrite V1, Es2, Es1.
    + rewrite V1, Es2. change (lock_at s1 slot = me). by rewrite Hl1, decide_True.
Qed.

Lemma push_undo_deleted slot kind me images s b sp d :
  push_undo slot kind me images (with_deleted d s) b sp
  = (x ← push_undo slot kind me images s b sp; Some (with_deleted d x.1, x.2)).
Proof.
  unfold push_undo. destruct (place slot) as [part at_].
  change (st_undo (with_deleted d s)) with (st_undo s). destruct (parts_get 0 (get_or (st_undo s) part) part at_); [|done].
  rewrite !some_bind. change (mkRow (st_table (with_heads _ (with_deleted d s))) _) with (row_of s slot).
  change (mkRow (st_table (with_heads _ s)) _) with (row_of s slot).
  destruct (UndoBuffer_write _ _ _ _ _ _ _) as [[at'|] [b' sp']]; [|done]. rewrite !some_bind.
  by destruct (parts_set (get_or (st_undo s) part) part at_ at').
Qed.

Lemma delete_step ws s sp bufs A G R slot a k b snapshot txn :
  let me := Z.lor txn UNCOMMITTED in
  kept ws (mkWorld s sp bufs) A G R → A !! slot = Some a → bufs !! k = Some b →
  fits 63 snapshot → txn_ok txn → us_next sp + 1 ≤ 2 ^ 20 →
  ∃ s' b' sp', Hot_delete slot snapshot txn s b sp = Some ((v_change Remove snapshot me a).1, (s', (b', sp')))
    ∧ keeps ws (mkWorld s' sp' (<[k := b']> bufs)) (<[slot := (v_change Remove snapshot me a).2]> A)
    ∧ us_next sp' ≤ us_next sp + 1.
Proof.
  intros me HK Ha Hb Hs Ht Hroom. unfold Hot_delete, v_change. fold me.
  destruct (claim_step HK Ha snapshot txn Hs Ht) as (s1&Ecl&Hrl). fold me in Ecl, Hrl. rewrite Ecl, some_bind.
  destruct (v_claim a snapshot me) as [r|] eqn:Ec.
  { assert (r ≠ Freezing) as Hr by (unfold v_claim in Ec; intros ->; repeat case_match; congruence).
    exists s1, b, sp. cbn [snd fst]. rewrite (list_insert_id bufs), (insert_id A) by done.
    split; [by destruct r|]. split; [by eapply refused|lia]. }
  pose proof (the_slot HK Ha) as Hsl. pose proof Hsl as [L1 L2 L3 L4 L5 (own&rest&ER&Hrow)].
  pose proof (ok_cells _ _ _ _ _ _ _ _ Hrow) as Hcells. pose proof Hrl as [Es1 Hl1].
  destruct (push_step _ _ _ _ _ _ _ slot a s1 k b Delete txn [] HK Ha Hrl Ht Hb ltac:(by constructor))
    as (s2&b'&sp'&G'&news&Ep&Es2&Hh&Hsp&Hbufs&Hlk&Hwr&Hne&Hn); [rewrite zlen_nil; lia|]. fold me in Ep, Hwr.
  rewrite zlen_nil in Hn.
  destruct (place slot) as [part at_] eqn:Epl. rewrite push_undo_deleted, Ep, !some_bind. cbn [fst snd].
  destruct (set_get_or LIVE (st_deleted s1) slot me) as (ps&Eps&Hps). rewrite Epl in Eps. cbn [fst snd] in Eps.
  change (st_deleted (with_deleted (get_or (st_deleted s1) part) s2)) with (get_or (st_deleted s1) part).
  rewrite Eps, some_bind. exists (with_deleted ps s2), b', sp'. split; [done|]. split; [|lia].
  assert (st_deleted s1 = st_deleted s) as Ed by (rewrite Es1; done).
  eapply (pushed_world ws s sp bufs A G R slot a _ me s1 s2); [done..| | |].
  - by split.
  - intros t Ht0 Hne'. split; try done. rewrite !deleted_at_def. cbn [with_deleted st_deleted]. rewrite Hps, decide_False by done.
    by rewrite Es2.
  - eapply (pushed_row ws s (with_deleted ps s2) G G' (R slot) slot a snapshot txn Remove Delete); try done.
    + by intros taken ->%Permutation_nil_r.
    + by rewrite Es2, Es1.
    + by rewrite Es2, Es1.
    + by rewrite Es2, Es1.
    + by rewrite Es2, Es1.
    + rewrite deleted_at_def. cbn [with_deleted st_deleted is_remove]. by rewrite Hps, decide_True.
    + rewrite Es2. change (lock_at s1 slot = me). by rewrite Hl1, decide_True.
Qed.

(** ** Ending a write *)

(** The stripe once a writer's changes of a row are stamped and the row is let go. *)
Record ended (s s' : HotStripe) (slot me to : Z) (v : Values) : Prop := {
  en_stripe : same_stripe s s';
  en_rows : ∀ t, 0 ≤ t → t ≠ slot → same_row s s' t;
  en_alloc : allocated s slot → allocated s' slot;
  en_there : is_Some (slot_get 0 (st_created s) slot) → is_Some (slot_get 0 (st_created s') slot);
  en_head : Hot_head s' slot = Hot_head s slot;
  en_values : row_values s' slot = v;
  en_created : created_at s' slot = created_at s slot;
  en_deleted : deleted_at s' slot = if deleted_at s slot =? me then to else deleted_at s slot;
  en_lock : lock_at s' slot = 0 }.

(** The walk over the writer's records touches the row's values and what is counted, no more. *)
Record walked (s s' : HotStripe) (slot : Z) (v : Values) : Prop := {
  wk_stripe : same_stripe s s';
  wk_rows : ∀ t, 0 ≤ t → t ≠ slot → row_values s' t = row_values s t;
  wk_alloc : ∀ t, allocated s t → allocated s' t;
  wk_values : row_values s' slot = v;
  wk_parts : st_created s' = st_created s ∧ st_deleted s' = st_deleted s ∧ st_lock s' = st_lock s ∧ st_undo s' = st_undo s }.

Lemma ended_release s s2 slot txn to v m :
  let me := Z.lor txn UNCOMMITTED in
  walked s s2 slot v → lock_at s slot = me → txn_ok txn →
  let '(swapped, s3) := swap_deleted slot me to s2 in
  ended s (release slot (if swapped : bool then with_erased (m s3) s3 else s3)) slot me to v
  ∧ ended s (release slot s3) slot me to v.
Proof.
  intros me [[K1 K2 K3 K4 K5] K6 K7 K8 (P1&P2&P3&P4)] Hlock Ht.
  destruct (swap_deleted_ok slot me to s2) as (s3&->&Es3&Hd); [by apply (held_nonzero txn)|].
  assert (∃ d, s3 = with_deleted d s2) as [d ->] by eauto. clear Es3. set (s3 := with_deleted d s2) in *.
  assert (∀ s4, s4 = s3 ∨ s4 = with_erased (m s3) s3 → ended s (release slot s4) slot me to v) as H.
  2:{ split; [|apply H; by left]. apply H. destruct (deleted_at s2 slot =? me); [by right|by left]. }
  intros s4 H4.
  assert (st_lock s4 = st_lock s ∧ st_undo s4 = st_undo s ∧ st_created s4 = st_created s ∧ st_columns s4 = st_columns s2
    ∧ same_stripe s s4 ∧ ∀ t, deleted_at s4 t = deleted_at s3 t) as (Q1&Q2&Q3&Q4&[]&Q6).
  { destruct H4 as [->| ->]; split_and!; try done; by split. }
  assert (∀ t, lock_at s4 t = lock_at s t) as Hl4 by (intros t; rewrite !lock_at_def; by rewrite Q1).
  destruct (release_ok s4 slot) as [Er Hr]; [rewrite Hl4, Hlock; by constructor|].
  set (s5 := release slot s4) in *.
  assert (∀ t, row_values s5 t = row_values s2 t) as Hv by (intros t; rewrite Er; unfold row_values; simpl; by rewrite Q4).
  assert (∀ t, allocated s2 t → allocated s5 t) as Hal by (intros t; rewrite Er; unfold allocated; simpl; by rewrite Q4).
  assert (∀ t, Hot_head s5 t = Hot_head s t) as Hh by (intros t; rewrite Er, !head_def; simpl; by rewrite Q2).
  assert (st_created s5 = st_created s) as Hc by (rewrite Er; done).
  assert (∀ t, deleted_at s2 t = deleted_at s t) as Hd2 by (intros t; rewrite !deleted_at_def; by rewrite P2).
  assert (∀ t, deleted_at s5 t = if decide (t = slot ∧ deleted_at s slot = me) then to else deleted_at s t) as Hd5.
  { intros t. rewrite Er. change (deleted_at s4 t = if decide (t = slot ∧ deleted_at s slot = me) then to else deleted_at s t).
    by rewrite Q6, Hd, !Hd2. }
  split; [split; rewrite Er; done|..].
  - intros t Ht0 Hne. split; [auto|by rewrite Hc|apply Hh|by rewrite Hv, K6|by rewrite !created_at_def, Hc| |].
    + by rewrite Hd5, decide_False by tauto.
    + by rewrite Hr, decide_False by done.
  - auto.
  - by rewrite Hc.
  - apply Hh.
  - by rewrite Hv.
  - by rewrite !created_at_def, Hc.
  - rewrite Hd5. destruct (Z.eqb_spec (deleted_at s slot) me); [by rewrite decide_True|by rewrite decide_False by tauto].
  - by rewrite Hr, decide_True.
Qed.

(** Nobody but the writer holds the row. *)
Lemma holds_lock ws own rest cur created deleted lock a txn :
  row_ok ws own rest cur created deleted lock a → txn_ok txn →
  (lock =? Z.lor txn UNCOMMITTED) = holds_row (Z.lor txn UNCOMMITTED) a.
Proof.
  intros Hrow Ht. unfold holds_row. destruct (ok_owned _ _ _ _ _ _ _ _ Hrow) as [Ho|w es own' Ho]; rewrite Ho; [|done].
  by apply Z.eqb_neq, not_eq_sym, (held_nonzero txn Ht).
Qed.

(** The walk of a commit or an abort reaches every record of the writer and stamps it. *)
Lemma walk_step ws s s0 sp bufs A G R slot a txn ts f g s' own rest :
  let me := Z.lor txn UNCOMMITTED in
  kept ws (mkWorld s sp bufs) A G R → A !! slot = Some a → R slot = own ++ rest →
  row_ok ws (recs G own) (recs G rest) (row_values s slot) (created_at s slot) (deleted_at s slot) (lock_at s slot) a →
  holds_row me a = true → u64 ts → Hot_head s0 slot = Hot_head s slot →
  (∀ r x, f r x = (s ← g (r_images r) x.1; Some (s, stamp r ts x.2))) →
  each_record g (recs G own) s0 = Some s' →
  ∃ sp' G', walk_own (chain_fuel sp) me f (Hot_head s0 slot) (s0, sp) = Some (s', sp') ∧ space_ok sp' bufs G'
    ∧ stamped G G' own ts ∧ us_next sp' = us_next sp.
Proof.
  intros me HK Ha ER Hrow Hh Hts Ehead Hf Hg. destruct (holding Hrow me Hh) as (txn'&es&Eme&Ht'&_&_&_&_&_&Hown&_).
  destruct (the_slot HK Ha) as [_ _ _ L4 L5 _]. rewrite ER in L4, L5. pose proof (refs_in_fuel HK Ha) as Hb. rewrite ER in Hb.
  apply NoDup_app in L5 as (N1&N2&_). rewrite Ehead.
  destruct (walk_own_ok f g me ts own rest sp bufs G (Hot_head s slot) s0 s' (chain_fuel sp)) as (sp'&G'&E&Hsp&Hst&Hn&_);
    try done; [exact (kp_space _ _ _ _ _ HK)| |by exists sp', G'].
  intros c Hc Ec. pose proof (ok_rest _ _ _ _ _ _ _ _ Hrow) as Hrest. destruct (recs G rest) as [|c' cs]; [done|].
  injection Hc as ->. apply Forall_cons in Hrest as [Hs _]. pose proof (held_nonzero txn' Ht') as (_&_&?).
  unfold settled_ts in Hs. rewrite Ec, Eme in Hs. destruct Hs as [Hs|Hs]; [unfold fits in Hs; lia|unfold ABORTED in Hs; lia].
Qed.

(** The world after it. *)
Lemma ended_world ws s sp bufs A G R slot a a' me to v ts s' sp' G' own rest :
  kept ws (mkWorld s sp bufs) A G R → A !! slot = Some a → R slot = own ++ rest →
  space_ok sp' bufs G' → stamped G G' own ts → ended s s' slot me to v →
  row_ok ws [] ((with_ts ts <$> recs G own) ++ recs G rest) v (created_at s slot)
    (if deleted_at s slot =? me then to else deleted_at s slot) 0 a' →
  keeps ws (mkWorld s' sp' bufs) (<[slot := a']> A).
Proof.
  intros HK Ha ER Hsp Hst Hend Hrow. destruct (the_slot HK Ha) as [L1 L2 L3 L4 L5 _].
  assert (∀ at_, at_ ∈ rest → at_ ∉ own) as Hout.
  { rewrite ER in L5. apply NoDup_app in L5 as (_&N2&_). intros x Hx Hx'. by apply (N2 x). }
  eapply (kept_row ws s sp bufs A G R slot a a' s' sp' bufs G' (R slot)); try done.
  - exact (kp_bufs _ _ _ _ _ HK).
  - apply Hend.
  - split; [done|by apply (en_alloc _ _ _ _ _ _ Hend)|by apply (en_there _ _ _ _ _ _ Hend)| |done|].
    + rewrite (en_head _ _ _ _ _ _ Hend). by eapply stamped_linked.
    + exists [], (R slot). split; [done|]. rewrite ER, recs_app, (stamped_recs G G' own ts own) by done.
      rewrite (recs_frame G G' rest) by (intros; by apply (st_others _ _ _ _ Hst), Hout).
      rewrite (en_values _ _ _ _ _ _ Hend), (en_created _ _ _ _ _ _ Hend), (en_deleted _ _ _ _ _ _ Hend), (en_lock _ _ _ _ _ _ Hend).
      done.
  - apply Hend.
  - intros at_ _ Hno. apply (st_others _ _ _ _ Hst). rewrite ER in Hno. set_solver.
  - by left.
Qed.

Lemma each_stamps (f : HotStripe → list Image → gmap (Z * Z) Z) chain s :
  ∃ m, each_record (λ il s, Some (with_stamps (f s il) s)) chain s = Some (with_stamps m s).
Proof.
  revert s. induction chain as [|c chain IH]; intros s; [exists (st_stamps s); by destruct s|].
  simpl. destruct (IH (with_stamps (f s (c_images c)) s)) as [m Hm]. by exists m.
Qed.

Lemma hot_commit_step ws s sp bufs A G R slot a txn ts :
  let me := Z.lor txn UNCOMMITTED in
  kept ws (mkWorld s sp bufs) A G R → A !! slot = Some a → txn_ok txn → fits 63 ts → v_newest a ≤ ts →
  ∃ s' sp', Hot_commit_write slot txn ts s sp = Some (s', sp')
    ∧ keeps ws (mkWorld s' sp' bufs) (<[slot := v_commit me ts a]> A) ∧ us_next sp' = us_next sp.
Proof.
  intros me HK Ha Ht Hts Hnew. unfold Hot_commit_write. fold me.
  destruct (the_slot HK Ha) as [L1 L2 L3 L4 L5 (own&rest&ER&Hrow)].
  pose proof (sk_pending _ _ (kp_stripe _ _ _ _ _ HK)) as Epend. cbn [w_stripe] in Epend. rewrite Epend, some_bind.
  unfold me at 1. rewrite Hot_holds_lock by (done || eapply owned_lock; apply Hrow). rewrite (holds_lock _ _ _ _ _ _ _ _ _ Hrow Ht).
  fold me. destruct (holds_row me a) eqn:Hh; cbn [negb].
  2:{ exists s, sp. split; [done|]. split; [|done]. unfold v_commit. rewrite Hh, insert_id by done. by exists G, R. }
  set (s0 := with_writes _ (Hot_stamped ts s)).
  set (f := λ (s : HotStripe) il, foldl (λ m i, fetch_max (i_column i, (place slot).1) ts m) (st_stamps s) il).
  destruct (each_stamps f (recs G own) s0) as [m Hm].
  destruct (walk_step ws s s0 sp bufs A G R slot a txn ts
    (λ r x, let stamps := foldl (λ m i, fetch_max (i_column i, (place slot).1) ts m) (st_stamps x.1) (r_images r) in
            Some (with_stamps stamps x.1, stamp r ts x.2))
    (λ il s, Some (with_stamps (f s il) s)) (with_stamps m s0) own rest HK Ha ER Hrow Hh) as (sp'&G'&Ew&Hsp&Hst&Hn); [|done..|exact Hm|].
  { unfold fits in *. lia. }
  fold me in Ew. cbv zeta in Ew |- *. rewrite Ew, some_bind.
  destruct (holding Hrow me Hh) as (txn'&es&_&_&_&_&_&_&El&_&_&_).
  pose proof (ended_release s (with_stamps m s0) slot txn ts (row_values s slot) (λ s, fetch_max (place slot).1 ts (st_erased s))) as He.
  cbv zeta in He. fold me in He. destruct (swap_deleted slot me ts (with_stamps m s0)) as [swapped s3].
  destruct He as [He _]; [by split|done|done|]. eexists _, sp'. split; [done|]. split; [|done].
  eapply (ended_world ws s sp bufs A G R slot a (v_commit me ts a) me ts _ ts); [done..|]. by apply (row_commit Hrow).
Qed.

Lemma each_writes ws slot chain s :
  0 ≤ slot → allocated s slot → widths s = ws → Forall (change_ok ws) (images_in chain) →
  ∃ s', each_record (λ il s, write_all slot (images_pairs il) s) chain s = Some s'
    ∧ revalued s s' slot (undo_all (row_values s slot) (images_in chain)).
Proof.
  intros H0. revert s. induction chain as [|c chain IH]; intros s Hal Ew Hch; [exists s; split; [done|apply revalued_refl]|].
  change (images_in (c :: chain)) with (c_images c ++ images_in chain) in *. apply Forall_app in Hch as [Hc Hch].
  destruct (write_all_ok slot (c_images c) s) as (s1&E1&R1); [done..|by rewrite Ew|].
  destruct (IH s1) as (s2&E2&R2); [by apply R1|rewrite (rv_widths _ _ _ _ R1); done|done|].
  exists s2. split; [simpl; by rewrite E1, some_bind|]. eapply revalued_trans; [exact R1|].
  rewrite (rv_row _ _ _ _ R1) in R2. unfold undo_all in *. by rewrite foldl_app.
Qed.

Lemma abort_step ws s sp bufs A G R slot a txn :
  let me := Z.lor txn UNCOMMITTED in
  kept ws (mkWorld s sp bufs) A G R → A !! slot = Some a → txn_ok txn →
  ∃ s' sp', Hot_abort_write slot txn s sp = Some (s', sp')
    ∧ keeps ws (mkWorld s' sp' bufs) (<[slot := v_abort me a]> A) ∧ us_next sp' = us_next sp.
Proof.
  intros me HK Ha Ht. unfold Hot_abort_write. fold me.
  destruct (the_slot HK Ha) as [L1 L2 L3 L4 L5 (own&rest&ER&Hrow)].
  pose proof (sk_pending _ _ (kp_stripe _ _ _ _ _ HK)) as Epend. cbn [w_stripe] in Epend. rewrite Epend.
  unfold me at 1. rewrite Hot_holds_lock by (done || eapply owned_lock; apply Hrow). rewrite (holds_lock _ _ _ _ _ _ _ _ _ Hrow Ht).
  fold me. destruct (holds_row me a) eqn:Hh; cbn [negb].
  2:{ exists s, sp. split; [done|]. split; [|done]. unfold v_abort. rewrite Hh, insert_id by done. by exists G, R. }
  pose proof (ok_images _ _ _ _ _ _ _ _ Hrow) as Himg. rewrite bind_app in Himg. apply Forall_app in Himg as [Himg _].
  destruct (each_writes ws slot (recs G own) s) as (s2&Hs2&Hrv); [lia|done|apply (kp_stripe _ _ _ _ _ HK)|done|].
  destruct (walk_step ws s s sp bufs A G R slot a txn ABORTED
    (λ r x, s ← write_all slot ((λ i, (i_column i, i_value i)) <$> r_images r) x.1; Some (s, stamp r ABORTED x.2))
    (λ il s, write_all slot (images_pairs il) s) s2 own rest HK Ha ER Hrow Hh) as (sp'&G'&Ew&Hsp&Hst&Hn); [done|done|done|exact Hs2|].
  fold me in Ew. rewrite Ew, some_bind.
  destruct (holding Hrow me Hh) as (txn'&es&_&_&_&_&_&_&El&_&_&_).
  pose proof (ended_release s s2 slot txn LIVE (undo_all (row_values s slot) (images_in (recs G own))) st_erased) as He.
  cbv zeta in He. fold me in He. destruct (swap_deleted slot me LIVE s2) as [swapped s3].
  destruct He as [_ He]; [|done|done|].
  { destruct Hrv as [V1 V2 V3 V4 V5]. split; [split; [| | | |done]; by rewrite V1|done..|]. by rewrite V1. }
  eexists _, sp'. split; [done|]. split; [|done].
  eapply (ended_world ws s sp bufs A G R slot a (v_abort me a) me LIVE _ ABORTED); [done..|]. by apply (row_abort Hrow).
Qed.

(** ** Inserting rows *)

(** The rows of the store change one by one and only in their values and stamps. *)
Lemma kept_all ws s sp bufs A G R s' A' :
  kept ws (mkWorld s sp bufs) A G R → same_stripe s s' →
  (∀ t b, A' !! t = Some b → ∃ a, A !! t = Some a ∧ slot_ok ws s' G (R t) t b) →
  (∀ t, 0 ≤ t → A' !! t = None → A !! t = None ∧ (untouched s t → untouched s' t)) →
  keeps ws (mkWorld s' sp bufs) A'.
Proof.
  intros [P1 P2 P3 P4 P5 P6] Hsame H Hno. exists G, R. split; simpl; [done|done|by eapply same_stripe_ok| | |].
  - intros t b Hb. by destruct (H t b Hb) as (?&_&?).
  - intros t u x y Hx Hy. destruct (H t x Hx) as (?&?&_), (H u y Hy) as (?&?&_). by eapply P5.
  - intros t Ht Hn. destruct (Hno t Ht Hn) as [? Hu]. by apply Hu, P6.
Qed.

Lemma at_slots_none f slots A t : at_slots f slots A !! t = None → A !! t = None.
Proof. unfold at_slots. rewrite map_lookup_imap. by destruct (A !! t). Qed.

Lemma fill_step ws s sp bufs A G R slot a i :
  kept ws (mkWorld s sp bufs) A G R → A !! slot = Some a → v_created a = None → change_ok ws i →
  ∃ s', Hot_write slot (i_column i) (i_value i) s = Some s' ∧ keeps ws (mkWorld s' sp bufs) (<[slot := v_fill i a]> A).
Proof.
  intros HK Ha Hc Hi. destruct (the_slot HK Ha) as [L1 L2 L3 L4 L5 (own&rest&ER&Hrow)].
  pose proof (sk_widths _ _ (kp_stripe _ _ _ _ _ HK)) as Ew. cbn [w_stripe] in Ew.
  destruct (Hot_write_ok slot i s) as (s'&E&[V1 V2 V3 V4 V5]); [lia|done|by rewrite Ew|].
  exists s'. split; [done|]. eapply kept_all; [done|split; [| | | |done]; by rewrite V1| |].
  2:{ intros t _ [Hn _]%lookup_insert_None. split; [done|]. unfold untouched. by rewrite V1. }
  intros t b [[<- <-]|[Hne Hb]]%lookup_insert_Some.
  - exists a. split; [done|]. split; [done|by apply V5|by rewrite V1|by rewrite V1|done|].
    exists own, rest. split; [done|]. rewrite V2, V1. by apply (row_fill Hrow).
  - exists b. split; [done|]. pose proof (kp_slots _ _ _ _ _ HK t b Hb) as Hs. eapply slot_ok_frame; [exact Hs| |done].
    split; [by apply V5| | |apply V3; [apply Hs|done]|..]; by rewrite V1.
Qed.

Lemma stamp_created_ok slots x ps :
  (∀ t, t ∈ slots → is_Some (slot_get 0 ps t)) →
  ∃ ps', stamp_created slots x ps = Some ps'
    ∧ (∀ t, at_def 0 ps' t = if decide (t ∈ slots) then x else at_def 0 ps t)
    ∧ ∀ t, is_Some (slot_get 0 ps t) → is_Some (slot_get 0 ps' t).
Proof.
  revert ps. induction slots as [|slot slots IH]; intros ps Hs.
  { exists ps. split; [done|]. split; [|done]. intros t. by rewrite decide_False by by intros ?%elem_of_nil. }
  destruct (set_there 0 ps slot x) as (ps1&E1&H1&T1); [by apply Hs; left|].
  destruct (IH ps1) as (ps'&E&H&T); [intros t Ht; apply T1, Hs; by right|].
  exists ps'. cbn [stamp_created]. destruct (place slot) as [part at_] eqn:Ep. cbn [fst snd] in E1. rewrite E1, some_bind.
  split; [done|]. split; [|auto]. intros t. rewrite H, H1.
  destruct (decide (t = slot)) as [->|Hne]; [by rewrite (decide_True (P := slot ∈ slot :: slots)) by (by left); case_decide|].
  destruct (decide (t ∈ slots)) as [Hin|Hout]; [by rewrite decide_True by by right|]. by rewrite decide_False by set_solver.
Qed.

Lemma restamp_ok slots from to ps :
  from ≠ 0 →
  (∀ t, at_def 0 (restamp ps slots from to) t
    = if decide (t ∈ slots ∧ at_def 0 ps t = from) then to else at_def 0 ps t)
  ∧ ∀ t, is_Some (slot_get 0 ps t) → is_Some (slot_get 0 (restamp ps slots from to) t).
Proof.
  intros Hf. revert ps. induction slots as [|slot slots IH]; intros ps.
  { split; [|done]. intros t. by rewrite decide_False by (intros [?%elem_of_nil _]; done). }
  cbn [restamp foldl]. set (ps1 := let '(part, at_) := place slot in _).
  assert ((∀ t, at_def 0 ps1 t = if decide (t = slot ∧ at_def 0 ps t = from) then to else at_def 0 ps t)
    ∧ ∀ t, is_Some (slot_get 0 ps t) → is_Some (slot_get 0 ps1 t)) as [H1 T1].
  { unfold ps1. destruct (place slot) as [part at_] eqn:Ep.
    assert (slot_get 0 ps slot = parts_get 0 ps part at_) as Es by (unfold slot_get; by rewrite Ep).
    destruct (parts_get 0 ps part at_) as [x|] eqn:Ex.
    - assert (at_def 0 ps slot = x) as Ed by (unfold at_def; by rewrite Es). destruct (Z.eqb_spec x from) as [->|Hne].
      + destruct (set_there 0 ps slot to) as (ps'&E'&H'&T'); [by rewrite Es|]. rewrite Ep in E'. cbn [fst snd] in E'. rewrite E'. cbn [default from_option id].
        split; [|done]. intros t. rewrite H'. destruct (decide (t = slot)) as [->|]; [by rewrite decide_True|by rewrite decide_False by tauto].
      + split; [|done]. intros t. rewrite decide_False; [done|]. by intros [-> ?]; congruence.
    - assert (at_def 0 ps slot = 0) as Ed by (unfold at_def; by rewrite Es). split; [|done].
      intros t. rewrite decide_False; [done|]. intros [-> ?]. congruence. }
  destruct (IH ps1) as [H T]. split; [|auto]. intros t. change (foldl _ ps1 slots) with (restamp ps1 slots from to). rewrite H, !H1.
  destruct (decide (at_def 0 ps t = from)) as [E|E].
  - destruct (decide (t = slot)) as [->|Hne].
    + rewrite !(decide_True (P := slot = slot ∧ _)) by done. rewrite (decide_True (P := slot ∈ slot :: slots ∧ _)) by (split; [by left|done]). by case_decide.
    + rewrite !(decide_False (P := t = slot ∧ _)) by tauto.
      destruct (decide (t ∈ slots)); [rewrite !decide_True by (split; [set_solver|done])|rewrite !decide_False by set_solver]; done.
  - rewrite !(decide_False (P := t = slot ∧ _)) by tauto. by rewrite !decide_False by tauto.
Qed.

(** The stripe with other [created] stamps, whatever is counted beside them. *)
Lemma recreated_slot ws s s' ps G refs t a a' :
  s' = with_created ps (with_changed (st_changed s') (with_stamps (st_stamps s') s)) →
  slot_ok ws s G refs t a → (is_Some (slot_get 0 (st_created s) t) → is_Some (slot_get 0 ps t)) →
  (∀ own rest, row_ok ws own rest (row_values s t) (created_at s t) (deleted_at s t) (lock_at s t) a →
     row_ok ws own rest (row_values s t) (at_def 0 ps t) (deleted_at s t) (lock_at s t) a') →
  slot_ok ws s' G refs t a'.
Proof.
  intros E [L1 L2 L3 L4 L5 (own&rest&ER&Hrow)] Hps H. split; [done|by rewrite E|rewrite E; by apply Hps|by rewrite E|done|].
  exists own, rest. split; [done|]. rewrite E. by apply H.
Qed.

Lemma insert_step ws s sp bufs A G R slots txn :
  kept ws (mkWorld s sp bufs) A G R → txn_ok txn →
  (∀ t, t ∈ slots → ∃ a, A !! t = Some a ∧ v_created a = None) →
  ∃ s', Hot_insert slots txn s = Some (true, s')
    ∧ keeps ws (mkWorld s' sp bufs) (at_slots (v_create (Z.lor txn UNCOMMITTED)) slots A).
Proof.
  intros HK Ht Hs. unfold Hot_insert. set (me := Z.lor txn UNCOMMITTED).
  destruct (stamp_created_ok slots me (st_created s)) as (ps&->&Hps&Tps).
  { intros t Hin. destruct (Hs t Hin) as (a&Ha&_). apply (kp_slots _ _ _ _ _ HK t a Ha). }
  rewrite some_bind. pose proof (sk_state _ _ (kp_stripe _ _ _ _ _ HK)) as Hst. cbn [w_stripe] in Hst.
  rewrite (proj2 (Z.ltb_lt _ _)) by done. eexists. split; [done|]. eapply kept_all; [done|by split| |].
  2:{ intros t _ Hn%at_slots_none. split; [done|]. unfold untouched. rewrite !created_at_def. cbn [st_created with_created]. rewrite Hps.
      rewrite decide_False; [done|]. intros Hin. destruct (Hs t Hin) as (a&Ha&_). congruence. }
  intros t b Hb. unfold at_slots in Hb. rewrite map_lookup_imap in Hb. apply bind_Some in Hb as (a&Ha&[= <-]).
  exists a. split; [done|]. eapply (recreated_slot ws s _ ps); [by destruct s|by apply (kp_slots _ _ _ _ _ HK)|auto|].
  intros own rest Hrow. rewrite Hps. case_bool_decide as Hin.
  - rewrite decide_True by done. apply (row_created Hrow). by constructor.
  - by rewrite decide_False.
Qed.

Lemma restamp_row ws own rest cur created deleted lock a from to created' :
  row_ok ws own rest cur created deleted lock a → from ≠ 0 → created_ok (Some to) to →
  created' = (if decide (created = from) then to else created) →
  row_ok ws own rest cur created' deleted lock (v_restamp from to a).
Proof.
  intros Hrow Hf Hto ->. unfold v_restamp. pose proof (ok_created _ _ _ _ _ _ _ _ Hrow) as Hc.
  destruct (v_created a) as [c|] eqn:Ea.
  - assert (created = c) as -> by by inversion Hc. destruct (Z.eqb_spec c from) as [E|E].
    + rewrite decide_True by done. by apply (row_created Hrow).
    + by rewrite decide_False.
  - assert (created = 0) as -> by by inversion Hc. by rewrite decide_False by congruence.
Qed.

Lemma restamp_step ws s s' sp bufs A G R slots txn to :
  kept ws (mkWorld s sp bufs) A G R → txn_ok txn → created_ok (Some to) to →
  s' = with_created (restamp (st_created s) slots (Z.lor txn UNCOMMITTED) to)
         (with_changed (st_changed s') (with_stamps (st_stamps s') s)) →
  keeps ws (mkWorld s' sp bufs) (at_slots (v_restamp (Z.lor txn UNCOMMITTED) to) slots A).
Proof.
  intros HK Ht Hto Es'. pose proof (held_nonzero txn Ht) as (H0&_).
  destruct (restamp_ok slots (Z.lor txn UNCOMMITTED) to (st_created s) H0) as [Hps Tps].
  eapply kept_all; [done|split; by rewrite Es'| |].
  2:{ intros t _ Hn%at_slots_none. split; [done|]. unfold untouched. rewrite Es', !created_at_def. cbn [st_created with_created]. rewrite Hps.
      intros [Hh Hc]. split; [done|]. rewrite decide_False; [done|]. intros [_ ?]. congruence. }
  intros t b Hb. unfold at_slots in Hb. rewrite map_lookup_imap in Hb.
  apply bind_Some in Hb as (a&Ha&[= <-]). exists a. split; [done|].
  eapply recreated_slot; [exact Es'|by apply (kp_slots _ _ _ _ _ HK)|auto|]. intros own rest Hrow. rewrite Hps.
  case_bool_decide as Hin.
  - eapply restamp_row; [exact Hrow|done|done|]. rewrite <-created_at_def.
    destruct (decide (created_at s t = Z.lor txn UNCOMMITTED)); [by rewrite decide_True|by rewrite decide_False by tauto].
  - by rewrite decide_False by tauto.
Qed.
