(* ===== verification/HotTheorems.v ===== *)
(** What a hot stripe promises: from a stripe just leased, whatever legal operations writers run,
    it answers as the multiversion store does, and a snapshot reads the same for as long as it is held. *)

From S2P Require Import Prelude Undo UndoWords UndoAlloc Deletes Hot HotCells DeletesLaws HotChain HotRow HotStore HotWorld.
Local Open Scope Z_scope.

(** * Runs *)

Fixpoint run (ops : list Op) (w : World) : option (list (option Refusal) * World) :=
  match ops with
  | [] => Some ([], w)
  | op :: ops => '(r, w) ← exec op w; '(rs, w) ← run ops w; Some (r :: rs, w)
  end.

Fixpoint vrun (ops : list Op) (A : VStore) : list (option Refusal) * VStore :=
  match ops with
  | [] => ([], A)
  | op :: ops => let '(r, A) := vexec op A in let '(rs, A) := vrun ops A in (r :: rs, A)
  end.

Fixpoint legal_run (ws : list Width) (workers : nat) (A : VStore) (ops : list Op) : Prop :=
  match ops with
  | [] => True
  | op :: ops => legal ws workers A op ∧ legal_run ws workers (vexec op A).2 ops
  end.

Definition run_weight (ops : list Op) : Z := foldr (λ op n, weight op + n) 0 ops.

Lemma weight_nonneg op : 0 ≤ weight op.
Proof. destruct op; simpl; try lia. pose proof (zlen_nonneg changes). lia. Qed.

Lemma run_weight_nonneg ops : 0 ≤ run_weight ops.
Proof. induction ops as [|op ops IH]; [done|]. change (0 ≤ weight op + run_weight ops). pose proof (weight_nonneg op). lia. Qed.

Lemma alter_insert_at {V} (f : V → V) (m : gmap Z V) k x : m !! k = Some x → alter f k m = <[k := f x]> m.
Proof.
  intros H. apply map_eq. intros j. destruct (decide (j = k)) as [->|Hne].
  - by rewrite lookup_alter_eq, lookup_insert_eq, H.
  - by rewrite lookup_alter_ne, lookup_insert_ne by done.
Qed.

(** Every operation the callers may run goes through, answers what the store does and leaves a
    world that keeps the store. *)
Lemma exec_step ws w A op :
  keeps ws w A → legal ws (length (w_bufs w)) A op → us_next (w_space w) + weight op ≤ 2 ^ 20 →
  ∃ w', exec op w = Some ((vexec op A).1, w') ∧ keeps ws w' (vexec op A).2
    ∧ us_next (w_space w') ≤ us_next (w_space w) + weight op ∧ length (w_bufs w') = length (w_bufs w).
Proof.
  intros (G&R&HK). destruct w as [s sp bufs]. destruct op as [slot i|slots txn|slots txn ts|slots txn|k slot changes snapshot txn|k slot snapshot txn|slot txn ts|slot txn];
    cbn [legal weight exec vexec w_space w_bufs fst snd].
  - intros [(a&Ha&Hc) Hi] _. destruct (fill_step ws s sp bufs A G R slot a i) as (s'&->&Hk); [done..|].
    rewrite (alter_insert_at _ A slot a) by done. eexists. split; [done|]. split_and!; [done|simpl; lia|done].
  - intros [Ht Hs] _. destruct (insert_step ws s sp bufs A G R slots txn) as (s'&->&Hk); [done..|].
    eexists. split; [done|]. split_and!; [done|simpl; lia|done].
  - intros (Ht&H0&Hts) _. eexists. split; [done|]. split_and!; [|simpl; lia|done].
    eapply restamp_step; [done|done|by constructor|]. by destruct s.
  - intros Ht _. eexists. split; [done|]. split_and!; [|simpl; lia|done].
    eapply restamp_step; [done|done|constructor|]. by destruct s.
  - intros (Hk&[a Ha]&Hch&Hs&Ht) Hroom. destruct (lookup_lt_is_Some_2 bufs k Hk) as [b Hb].
    destruct (update_step ws s sp bufs A G R slot a k b changes snapshot txn) as (s'&b'&sp'&E&Hkeep&Hn); [done..|lia|].
    rewrite Hb, some_bind, E, some_bind, Ha. eexists.
    destruct (v_change (Change changes) snapshot (Z.lor txn UNCOMMITTED) a) as [r a']. split; [done|].
    split_and!; [done|simpl; lia|simpl; by rewrite length_insert].
  - intros (Hk&[a Ha]&Hs&Ht) Hroom. destruct (lookup_lt_is_Some_2 bufs k Hk) as [b Hb].
    destruct (delete_step ws s sp bufs A G R slot a k b snapshot txn) as (s'&b'&sp'&E&Hkeep&Hn); [done..|].
    rewrite Hb, some_bind, E, some_bind, Ha. eexists.
    destruct (v_change Remove snapshot (Z.lor txn UNCOMMITTED) a) as [r a']. split; [done|].
    split_and!; [done|simpl; lia|simpl; by rewrite length_insert].
  - intros ((a&Ha&Hnew)&Hts&Ht) _. destruct (hot_commit_step ws s sp bufs A G R slot a txn ts) as (s'&sp'&->&Hk&Hn); [done..|].
    rewrite (alter_insert_at _ A slot a) by done. eexists. split; [done|]. split_and!; [done|simpl; lia|done].
  - intros ([a Ha]&Ht) _. destruct (abort_step ws s sp bufs A G R slot a txn) as (s'&sp'&->&Hk&Hn); [done..|].
    rewrite (alter_insert_at _ A slot a) by done. eexists. split; [done|]. split_and!; [done|simpl; lia|done].
Qed.

Lemma run_keeps ws ops w A :
  keeps ws w A → legal_run ws (length (w_bufs w)) A ops → us_next (w_space w) + run_weight ops ≤ 2 ^ 20 →
  ∃ w', run ops w = Some ((vrun ops A).1, w') ∧ keeps ws w' (vrun ops A).2 ∧ length (w_bufs w') = length (w_bufs w)
    ∧ us_next (w_space w') ≤ us_next (w_space w) + run_weight ops.
Proof.
  revert w A. induction ops as [|op ops IH]; intros w A Hk Hl Hw; [exists w; simpl; split_and!; done || lia|]. destruct Hl as [Hop Hl].
  change (run_weight (op :: ops)) with (weight op + run_weight ops) in Hw. pose proof (run_weight_nonneg ops).
  destruct (exec_step ws w A op) as (w1&E1&Hk1&Hn1&Hl1); [done..|lia|].
  destruct (IH w1 (vexec op A).2) as (w'&E&Hk'&Hl'&Hn'); [done|by rewrite Hl1|lia|].
  change (run_weight (op :: ops)) with (weight op + run_weight ops). exists w'. cbn [run vrun]. rewrite E1, some_bind. destruct (vexec op A) as [r A1]. cbn [fst snd] in *. rewrite E, some_bind.
  destruct (vrun ops A1) as [rs A']. split_and!; [done..|congruence|lia].
Qed.

(** * Reading *)

Lemma world_reads ws w A slot a columns snapshot txn :
  keeps ws w A → A !! slot = Some a → fits 63 snapshot → txn_ok txn →
  NoDup columns → Forall (λ c, 0 ≤ c < zlen ws) columns →
  read_as_of (w_stripe w) (w_space w) slot columns snapshot txn
    = Some (asked columns (v_values a snapshot (Z.lor txn UNCOMMITTED)))
  ∧ Hot_visible (w_stripe w) slot snapshot txn = v_visible a snapshot (Z.lor txn UNCOMMITTED).
Proof.
  intros (G&R&HK) Ha Hs Ht Hnd Hc. destruct w as [s sp bufs]. cbn [w_stripe w_space].
  destruct (the_slot HK Ha) as [L1 L2 L3 L4 L5 (own&rest&ER&Hrow)]. pose proof (kp_stripe _ _ _ _ _ HK) as [_ _ _ Kp Kw _].
  cbn [w_stripe] in *. assert (zlen (row_values s slot) = zlen ws) as Elen by (unfold zlen; rewrite length_row_values; congruence).
  split.
  - unfold read_as_of. rewrite read_columns by by rewrite Elen. rewrite some_bind. rewrite <-(row_read Hrow) by done.
    rewrite head_def in L4. unfold at_def, slot_get in L4. destruct (place slot) as [part at_]. cbn [fst snd] in L4.
    destruct (parts_get 0 (st_undo s) part at_) as [head|]; cbn [default from_option id] in L4.
    + rewrite (undo_into_readc sp bufs G head (R slot)); [by rewrite ER, recs_app|exact (kp_space _ _ _ _ _ HK)|done| |done|by rewrite Elen|exact (refs_in_fuel HK Ha)].
      rewrite ER, recs_app. apply (ok_memory _ _ _ _ _ _ _ _ Hrow).
    + destruct (R slot) as [|x xs].
      * symmetry in ER. apply app_nil in ER as [-> ->]. done.
      * destruct L4 as (<-&c&Hc0&_). apply (so_recs _ _ _ (kp_space _ _ _ _ _ HK)) in Hc0 as (_&_&_&?). lia.
  - unfold Hot_visible. rewrite Kp. cbn [negb]. rewrite andb_true_r. by apply (row_visible Hrow).
Qed.

(** * A stripe just leased *)

Definition leased (id table : Z) (ws : list Width) (n : Z) (workers : nat) : World :=
  mkWorld (lease n (in_table table (with_undo id ws))).2 UndoSpace_new (replicate workers UndoBuffer_default).

Definition empty_row (ws : list Width) : VRow := mkVRow None (replicate (length ws) None) [] None.

Definition empty_store (ws : list Width) (n : Z) : VStore :=
  list_to_map ((λ t, (t, empty_row ws)) <$> range 0 (n - 1)).

Lemma allocate_all parts s :
  foldl (λ s part, allocate part s) s parts
  = with_created (foldl get_or (st_created s) parts)
      (with_columns ((λ c, mkColumn (col_width c) (foldl get_or (col_cells c) parts) (foldl get_or (col_valid c) parts)) <$> st_columns s) s).
Proof.
  revert s. induction parts as [|p parts IH]; intros s; simpl.
  - destruct s as [? ? ? cs]. unfold with_created, with_columns. simpl. f_equal. rewrite <-(list_fmap_id cs) at 1.
    apply list_fmap_ext. by intros ? [] ?.
  - rewrite IH. unfold allocate, with_created, with_columns. simpl. f_equal. by rewrite <-list_fmap_compose.
Qed.

Lemma get_or_all parts (ps : Parts) p :
  foldl get_or ps parts !! p = match ps !! p with Some c => Some c | None => if decide (p ∈ parts) then Some ∅ else None end.
Proof.
  revert ps. induction parts as [|q parts IH]; intros ps; cbn [foldl].
  - destruct (ps !! p); [done|]. by rewrite decide_False by by intros ?%elem_of_nil.
  - rewrite IH. unfold get_or. destruct (ps !! q) as [c|] eqn:Eq.
    + destruct (ps !! p) eqn:Ep; [done|]. destruct (decide (p ∈ parts)); [by rewrite decide_True by by right|].
      rewrite decide_False; [done|]. intros [->|?]%elem_of_cons; congruence.
    + destruct (decide (p = q)) as [->|Hne]; [by rewrite lookup_insert_eq, Eq, decide_True by by left|].
      rewrite lookup_insert_ne by done. destruct (ps !! p); [done|].
      destruct (decide (p ∈ parts)); [by rewrite decide_True by by right|].
      rewrite decide_False; [done|]. intros [?|?]%elem_of_cons; done.
Qed.

Lemma lease_all id table ws n :
  0 < n ≤ STRIPE_ROWS →
  (lease n (in_table table (with_undo id ws))).1 = Some (0, n)
  ∧ (lease n (in_table table (with_undo id ws))).2
    = foldl (λ s part, allocate part s) (with_reserved (wrap 32 (0 + n)) (in_table table (with_undo id ws))) (range 0 ((n - 1) / PART_ROWS)).
Proof.
  intros Hn. assert (Z.min (Z.min (0 + n) (2 ^ 32 - 1)) STRIPE_ROWS = n) as E by (unfold STRIPE_ROWS in *; lia).
  unfold lease. change (st_reserved (in_table table (with_undo id ws))) with 0.
  change (negb (st_state (in_table table (with_undo id ws)) =? OPEN)) with false. change (STRIPE_ROWS <=? 0) with false.
  cbv zeta. by rewrite E.
Qed.

Lemma leased_keeps id table ws n workers :
  u32 id → u32 table → 0 < n ≤ STRIPE_ROWS → zlen ws ≤ 2 ^ 16 →
  keeps ws (leased id table ws n workers) (empty_store ws n).
Proof.
  intros Hid Htab Hn Hws. destruct (lease_all id table ws n Hn) as [_ El]. unfold leased. rewrite El, allocate_all.
  set (parts := range 0 ((n - 1) / PART_ROWS)). set (s := with_created _ _).
  assert (widths s = ws) as Ew.
  { unfold widths, s. simpl. rewrite <-!list_fmap_compose. apply list_fmap_id. }
  exists ∅, (λ _, []). split; simpl.
  - apply space_new_ok, Forall_forall. by intros b [-> _]%elem_of_replicate.
  - apply Forall_forall. by intros b [-> _]%elem_of_replicate.
  - by split.
  - intros t a Ha. apply elem_of_list_to_map_2 in Ha.
    apply list_elem_of_fmap in Ha as (t'&[= <- ->]&[Ht1 Ht2]%elem_of_range).
    assert ((place t).1 ∈ parts) as Hp.
    { apply elem_of_range. unfold place. simpl. split; [by apply Z.div_pos|]. apply Z.div_le_mono; [done|lia]. }
    assert (row_values s t = replicate (length ws) None) as Ev.
    { unfold row_values, s. simpl. rewrite <-!list_fmap_compose.
      apply list_eq. intros k. rewrite list_lookup_fmap. destruct (ws !! k) as [w|] eqn:Ek; simpl.
      - rewrite lookup_replicate_2 by by eapply lookup_lt_Some. unfold column_value, parts_get. simpl.
        rewrite get_or_all, lookup_empty, decide_True by done. done.
      - symmetry. apply lookup_ge_None. rewrite length_replicate. by apply lookup_ge_None. }
    split; [lia| |unfold slot_get, parts_get, s; simpl; by rewrite get_or_all, lookup_empty, decide_True by done|done|constructor|].
    + unfold allocated, s. simpl. apply Forall_fmap, Forall_fmap, Forall_forall. intros w _. simpl.
      by rewrite get_or_all, lookup_empty, decide_True by done.
    + exists [], []. split; [done|].
      assert (created_at s t = 0) as ->.
      { rewrite created_at_def. unfold at_def, slot_get, parts_get, s. simpl. by rewrite get_or_all, lookup_empty, decide_True by done. }
      change (deleted_at s t) with LIVE. change (lock_at s t) with 0. rewrite Ev.
      split; try done; [apply Created_not|by apply Deleted_never|by apply Owned_not|].
      apply Forall2_replicate_r; [done|]. by apply Forall_forall.
  - intros t u a b _ _ _ x Hx. by apply elem_of_nil in Hx.
  - intros t _ _. split; [done|]. rewrite created_at_def. unfold at_def, slot_get, parts_get, s. simpl. rewrite get_or_all, lookup_empty. by case_decide.
Qed.

(** * A snapshot held *)

(** What a reader makes of a row: nothing when it does not see it. *)
Definition v_row (a : VRow) (snapshot me : Z) : option Values :=
  if v_visible a snapshot me then Some (v_values a snapshot me) else None.

(** An operation of another transaction, that commits nothing at or below the snapshot. *)
Definition beyond (snapshot txn : Z) (op : Op) : Prop :=
  match op with
  | Fill _ _ => True
  | Insert _ t | AbortInsert _ t | UpdateRow _ _ _ _ t | DeleteRow _ _ _ t | AbortRow _ t => t ≠ txn
  | CommitInsert _ t ts | CommitRow _ t ts => t ≠ txn ∧ snapshot < ts
  end.

Lemma me_inj t t' : txn_ok t → txn_ok t' → t ≠ t' → Z.lor t UNCOMMITTED ≠ Z.lor t' UNCOMMITTED.
Proof.
  intros Ht Ht' Hne. rewrite !me_of by (apply (fits_weaken 61); done || lia). lia.
Qed.

Lemma v_row_effects a a' snapshot me :
  v_created a' = v_created a → v_base a' = v_base a → effects_seen a' snapshot me = effects_seen a snapshot me →
  v_row a' snapshot me = v_row a snapshot me.
Proof. intros E1 E2 E3. unfold v_row, v_visible, v_values, created_seen. by rewrite E1, E2, E3. Qed.

Lemma v_row_unseen a snapshot me : created_seen a snapshot me = false → v_row a snapshot me = None.
Proof. intros H. unfold v_row, v_visible. by rewrite H. Qed.

Lemma effects_other a own snapshot me :
  holds_row me a = false → holds_row me (v_with_own own a) = false →
  effects_seen (v_with_own own a) snapshot me = effects_seen a snapshot me.
Proof.
  unfold holds_row, effects_seen. simpl. intros H1 H2.
  destruct (v_own a) as [[w es]|], own as [[w' es']|]; try rewrite H1; try rewrite H2; done.
Qed.

Section beyond.
Context (snapshot txn : Z) (Hs : fits 63 snapshot) (Ht : txn_ok txn).
Abbreviation me := (Z.lor txn UNCOMMITTED).

Lemma running_unseen a t : txn_ok t → t ≠ txn → v_created a = Some (Z.lor t UNCOMMITTED) → created_seen a snapshot me = false.
Proof.
  intros Ht' Hne E. unfold created_seen. rewrite E. pose proof (held_nonzero t Ht') as (_&_&?). unfold fits in Hs.
  rewrite (proj2 (Z.leb_gt _ _)) by lia. rewrite (proj2 (Z.eqb_neq _ me)) by by apply me_inj. by rewrite andb_false_r.
Qed.

Lemma change_beyond a e t snapshot' :
  txn_ok t → t ≠ txn → v_row (v_change e snapshot' (Z.lor t UNCOMMITTED) a).2 snapshot me = v_row a snapshot me.
Proof.
  intros Ht' Hne. pose proof (me_inj t txn Ht' Ht Hne) as Hme. unfold v_change.
  destruct (v_claim a snapshot' (Z.lor t UNCOMMITTED)) eqn:Ec; [done|]. simpl. apply v_row_effects; [done..|].
  apply effects_other.
  - unfold v_claim in Ec. unfold holds_row. destruct (negb _); [done|]. destruct (v_own a) as [[w es]|]; [|done].
    destruct (Z.eqb_spec w (Z.lor t UNCOMMITTED)) as [->|]; [by apply Z.eqb_neq|done].
  - simpl. by apply Z.eqb_neq.
Qed.

Lemma commit_beyond a t ts :
  txn_ok t → t ≠ txn → snapshot < ts → v_row (v_commit (Z.lor t UNCOMMITTED) ts a) snapshot me = v_row a snapshot me.
Proof.
  intros Ht' Hne Hts. pose proof (me_inj t txn Ht' Ht Hne) as Hme. unfold v_commit.
  destruct (holds_row _ a) eqn:Hh; [|done]. apply v_row_effects; [done..|]. unfold holds_row in Hh. unfold effects_seen. simpl.
  destruct (v_own a) as [[w es]|] eqn:Eo; [|done]. apply Z.eqb_eq in Hh as ->. rewrite (proj2 (Z.eqb_neq _ _)) by done.
  unfold committed_by. simpl. by rewrite committed_by_none.
Qed.

Lemma abort_beyond a t :
  txn_ok t → t ≠ txn → v_row (v_abort (Z.lor t UNCOMMITTED) a) snapshot me = v_row a snapshot me.
Proof.
  intros Ht' Hne. pose proof (me_inj t txn Ht' Ht Hne) as Hme. unfold v_abort. destruct (holds_row _ a) eqn:Hh; [|done].
  apply v_row_effects; [done..|]. apply effects_other; [|done]. unfold holds_row in *.
  destruct (v_own a) as [[w es]|]; [|done]. apply Z.eqb_eq in Hh as ->. by apply Z.eqb_neq.
Qed.

Lemma restamp_beyond a t to :
  txn_ok t → t ≠ txn → (to = 0 ∨ snapshot < to ∧ fits 63 to) →
  v_row (v_restamp (Z.lor t UNCOMMITTED) to a) snapshot me = v_row a snapshot me.
Proof.
  intros Ht' Hne Hto. unfold v_restamp. destruct (v_created a) as [c|] eqn:Ec; [|done].
  destruct (Z.eqb_spec c (Z.lor t UNCOMMITTED)) as [->|]; [|done].
  rewrite (v_row_unseen a) by by eapply running_unseen. apply v_row_unseen. unfold created_seen. simpl.
  pose proof (held_nonzero txn Ht) as (H0&_&?). destruct Hto as [->|[Hto Hf]]; [by apply Z.eqb_neq, not_eq_sym|].
  unfold fits in Hf. rewrite (proj2 (Z.leb_gt _ _)), (proj2 (Z.eqb_neq _ me)) by lia. by rewrite andb_false_r.
Qed.

(** An operation beyond the snapshot changes nothing a reader of it sees. *)
Lemma vexec_beyond ws workers A op t a :
  legal ws workers A op → beyond snapshot txn op → A !! t = Some a →
  ∃ a', (vexec op A).2 !! t = Some a' ∧ v_row a' snapshot me = v_row a snapshot me.
Proof.
  intros Hl Hb Ha.
  assert (∀ f slot, (slot = t → v_row (f a) snapshot me = v_row a snapshot me) →
    ∃ a', alter f slot A !! t = Some a' ∧ v_row a' snapshot me = v_row a snapshot me) as Halter.
  { intros f slot H. destruct (decide (slot = t)) as [->|Hne].
    - exists (f a). by rewrite lookup_alter_eq, Ha, H.
    - exists a. by rewrite lookup_alter_ne. }
  assert (∀ f slots, (t ∈ slots → v_row (f a) snapshot me = v_row a snapshot me) →
    ∃ a', at_slots f slots A !! t = Some a' ∧ v_row a' snapshot me = v_row a snapshot me) as Hslots.
  { intros f slots H. unfold at_slots. rewrite map_lookup_imap, Ha. simpl. eexists. split; [done|]. case_bool_decide; auto. }
  assert (∀ e slot snapshot' t', txn_ok t' → t' ≠ txn → ∃ a', (match A !! slot with
      | Some a => let '(r, a) := v_change e snapshot' (Z.lor t' UNCOMMITTED) a in (r, <[slot := a]> A)
      | None => (None, A) end).2 !! t = Some a' ∧ v_row a' snapshot me = v_row a snapshot me) as Hchange.
  { intros e slot snapshot' t' Ht' Hne. destruct (A !! slot) as [x|] eqn:Ex; [|by exists a].
    pose proof (change_beyond x e t' snapshot' Ht' Hne) as H. destruct (v_change _ _ _ x) as [r x']. simpl in *.
    destruct (decide (slot = t)) as [->|Hne']; [|exists a; by rewrite lookup_insert_ne].
    exists x'. rewrite lookup_insert_eq. split; [done|]. congruence. }
  destruct op as [slot i|slots t'|slots t' ts|slots t'|k slot changes snapshot' t'|k slot snapshot' t'|slot t' ts|slot t'];
    cbn [legal beyond vexec snd] in *.
  - destruct Hl as [(x&Hx&Hc) _]. apply Halter. intros ->. rewrite Ha in Hx. injection Hx as <-.
    rewrite !v_row_unseen; [done|..]; unfold created_seen; simpl; by rewrite Hc.
  - destruct Hl as [Ht' Hl]. apply Hslots. intros Hin. destruct (Hl t Hin) as (x&Hx&Hc). rewrite Ha in Hx. injection Hx as <-.
    rewrite !v_row_unseen; [done| |by eapply running_unseen]. unfold created_seen. by rewrite Hc.
  - destruct Hl as (?&?&?), Hb as [? ?]. apply Hslots. intros _. apply restamp_beyond; [done..|]. by right.
  - apply Hslots. intros _. apply restamp_beyond; [done..|]. by left.
  - destruct Hl as (_&_&_&_&?). by apply Hchange.
  - destruct Hl as (_&_&_&?). by apply Hchange.
  - destruct Hl as (_&_&?), Hb as [? ?]. apply Halter. intros _. by apply commit_beyond.
  - destruct Hl as (_&?). apply Halter. intros _. by apply abort_beyond.
Qed.

Lemma vrun_beyond ws workers ops A t a :
  legal_run ws workers A ops → Forall (beyond snapshot txn) ops → A !! t = Some a →
  ∃ a', (vrun ops A).2 !! t = Some a' ∧ v_row a' snapshot me = v_row a snapshot me.
Proof.
  revert A a. induction ops as [|op ops IH]; intros A a Hl Hb Ha; [by exists a|].
  destruct Hl as [Hop Hl]. apply Forall_cons in Hb as [Hb1 Hb].
  destruct (vexec_beyond ws workers A op t a) as (a1&Ha1&E1); [done..|]. cbn [vrun]. destruct (vexec op A) as [r A1].
  destruct (IH A1 a1) as (a'&Ha'&E'); [done..|]. destruct (vrun ops A1) as [rs A']. exists a'. split; [done|]. congruence.
Qed.
End beyond.

(** * Accepted writes *)

Lemma committed_by_newest ws own rest cur created deleted lock a snapshot :
  row_ok ws own rest cur created deleted lock a → v_newest a ≤ snapshot → committed_by snapshot a = (v_hist a).*2.
Proof.
  intros Hrow Hn. unfold committed_by. rewrite list_filter_all; [done|].
  eapply Forall_impl; [apply (ok_hist _ _ _ _ _ _ _ _ Hrow)|]. intros e [_ ?]. simpl. lia.
Qed.

(** A row a writer is let change is at the snapshot as it is at any later one. *)
Lemma claimed_newest ws own rest cur created deleted lock a snapshot later me :
  row_ok ws own rest cur created deleted lock a → v_claim a snapshot me = None → snapshot ≤ later →
  v_row a later me = v_row a snapshot me ∧ v_visible a snapshot me = true.
Proof.
  intros Hrow Hc Hle. unfold v_claim in Hc. destruct (created_seen a snapshot me) eqn:Ecr; [|done]. cbn [negb] in Hc.
  assert (created_seen a later me = true) as Ecr'.
  { unfold created_seen in *. destruct (v_created a) as [c|]; [|done]. destruct (c =? me); [by rewrite orb_true_r|].
    rewrite orb_false_r in *. apply andb_true_iff in Ecr as [-> H]. apply Z.leb_le in H. apply Z.leb_le. lia. }
  assert (effects_seen a later me = effects_seen a snapshot me
    ∧ existsb is_remove (effects_seen a snapshot me) = false) as [Ee Er].
  { unfold effects_seen in *. destruct (v_own a) as [[w es]|] eqn:Eo.
    - destruct (w =? me); [|done]. destruct (existsb is_remove es) eqn:Ees; [done|]. split; [done|].
      unfold all_effects. rewrite existsb_app, Ees, orb_false_r.
      destruct (ok_deleted _ _ _ _ _ _ _ _ Hrow) as [Hn|? ? Ho _ _|? ? _ _ Hn]; [|congruence|done].
      unfold all_effects in Hn. rewrite existsb_app in Hn. by apply orb_false_iff in Hn as [? _].
    - destruct (v_removed a) eqn:Erm; [done|]. destruct (Z.ltb_spec snapshot (v_newest a)) as [|Hn]; [done|].
      rewrite !(committed_by_newest _ _ _ _ _ _ _ _ _ Hrow) by lia. split; [done|].
      apply existsb_false. intros e (x&->&Hx)%list_elem_of_fmap. apply not_true_iff_false. intros Hr. unfold v_removed in Erm.
      destruct (filter _ (v_hist a)) eqn:E; [|done].
      assert (x ∈ filter (λ e : Z * Effect, is_remove e.2 = true) (v_hist a)) as Hin by by apply list_elem_of_filter.
      rewrite E in Hin. by apply elem_of_nil in Hin. }
  unfold v_row, v_visible. rewrite Ecr, Ecr'. unfold v_values. by rewrite Ee, Er.
Qed.

(** * Theorems *)

Section theorems.
Context (id table : Z) (ws : list Width) (n : Z) (workers : nat).
Context (Hid : u32 id) (Htable : u32 table) (Hn : 0 < n ≤ STRIPE_ROWS) (Hws : zlen ws ≤ 2 ^ 16).

Lemma run_from_lease ops :
  legal_run ws workers (empty_store ws n) ops → run_weight ops < 2 ^ 20 →
  ∃ w, run ops (leased id table ws n workers) = Some ((vrun ops (empty_store ws n)).1, w)
    ∧ keeps ws w (vrun ops (empty_store ws n)).2 ∧ length (w_bufs w) = workers
    ∧ us_next (w_space w) ≤ 1 + run_weight ops.
Proof.
  intros Hl Hw. pose proof (leased_keeps id table ws n workers Hid Htable Hn Hws) as Hk.
  assert (length (w_bufs (leased id table ws n workers)) = workers) as El by apply length_replicate.
  destruct (run_keeps ws ops _ _ Hk) as (w&E&Hk'&Hl'&Hn'); [by rewrite El|simpl; lia|].
  exists w. rewrite Hl', El. split_and!; done.
Qed.
End theorems.

Lemma legal_run_app ws workers A ops more :
  legal_run ws workers A (ops ++ more) ↔ legal_run ws workers A ops ∧ legal_run ws workers (vrun ops A).2 more.
Proof.
  revert A. induction ops as [|op ops IH]; intros A; simpl; [tauto|]. rewrite IH.
  destruct (vexec op A) as [r A1]. simpl. destruct (vrun ops A1). simpl. tauto.
Qed.

Lemma vrun_app ops more A : (vrun (ops ++ more) A).2 = (vrun more (vrun ops A).2).2.
Proof.
  revert A. induction ops as [|op ops IH]; intros A; [done|]. simpl. destruct (vexec op A) as [r A1]. specialize (IH A1).
  destruct (vrun ops A1), (vrun (ops ++ more) A1). done.
Qed.

Lemma run_weight_app ops more : run_weight (ops ++ more) = run_weight ops + run_weight more.
Proof.
  induction ops as [|op ops IH]; [done|]. change (weight op + run_weight (ops ++ more) = weight op + run_weight ops + run_weight more).
  lia.
Qed.

(** C2. From a stripe just leased, whatever operations its writers run within what they may ask,
    none of them panics, each is refused or let through as the multiversion store says, and every
    reader then sees of every row exactly the version the store has at its snapshot, its own
    uncommitted changes included: undo chains, stamps and row locks implement the store. *)
Theorem hot_stripe_keeps_versions id table ws n workers ops :
  u32 id → u32 table → 0 < n ≤ STRIPE_ROWS → zlen ws ≤ 2 ^ 16 →
  legal_run ws workers (empty_store ws n) ops → run_weight ops < 2 ^ 20 →
  ∃ w, run ops (leased id table ws n workers) = Some ((vrun ops (empty_store ws n)).1, w)
    ∧ ∀ slot a columns snapshot txn,
        (vrun ops (empty_store ws n)).2 !! slot = Some a → fits 63 snapshot → txn_ok txn →
        NoDup columns → Forall (λ c, 0 ≤ c < zlen ws) columns →
        read_as_of (w_stripe w) (w_space w) slot columns snapshot txn
          = Some (asked columns (v_values a snapshot (Z.lor txn UNCOMMITTED)))
        ∧ Hot_visible (w_stripe w) slot snapshot txn = v_visible a snapshot (Z.lor txn UNCOMMITTED).
Proof.
  intros Hid Htab Hn Hws Hl Hw. destruct (run_from_lease id table ws n workers Hid Htab Hn Hws ops Hl Hw) as (w&E&Hk&_).
  exists w. split; [done|]. intros. by eapply world_reads.
Qed.

Lemma run_app ops more w :
  run (ops ++ more) w = ('(rs, w) ← run ops w; '(rs', w) ← run more w; Some (rs ++ rs', w)).
Proof.
  revert w. induction ops as [|op ops IH]; intros w; simpl; [by destruct (run more w) as [[? ?]|]|].
  destruct (exec op w) as [[r w1]|]; [|done]. simpl. rewrite IH. destruct (run ops w1) as [[rs w2]|]; [|done]. simpl.
  by destruct (run more w2) as [[? ?]|].
Qed.

Lemma vexec_there op A t : is_Some (A !! t) → is_Some ((vexec op A).2 !! t).
Proof.
  intros Ht. assert (∀ f slots, is_Some (at_slots f slots A !! t)) as Hs.
  { intros f slots. unfold at_slots. rewrite map_lookup_imap. destruct Ht as [a ->]. eauto. }
  assert (∀ e slot snapshot me, is_Some ((match A !! slot with
      | Some a => let '(r, a) := v_change e snapshot me a in (r, <[slot := a]> A)
      | None => (None, A) end).2 !! t)) as Hc.
  { intros e slot snapshot me. destruct (A !! slot); [|done]. destruct (v_change _ _ _ _) as [r a]. simpl.
    apply lookup_insert_is_Some'. by right. }
  destruct op; cbn [vexec snd]; [by rewrite lookup_alter_is_Some|apply Hs|apply Hs|apply Hs|apply Hc|apply Hc|by rewrite lookup_alter_is_Some..].
Qed.

Lemma vrun_there ops A t : is_Some (A !! t) → is_Some ((vrun ops A).2 !! t).
Proof.
  revert A. induction ops as [|op ops IH]; intros A Ht; [done|]. simpl. pose proof (vexec_there op A t Ht) as H.
  destruct (vexec op A) as [r A1]. specialize (IH A1 H). by destruct (vrun ops A1).
Qed.

Lemma empty_store_there ws n t : 0 ≤ t < n → is_Some (empty_store ws n !! t).
Proof.
  intros Ht. unfold empty_store. eexists. apply elem_of_list_to_map_1'.
  - intros y. by intros (x&[= <- ->]&_)%list_elem_of_fmap.
  - apply list_elem_of_fmap. exists t. split; [done|]. apply elem_of_range. lia.
Qed.

(** What a read and the visibility check make of a row together. *)
Definition row_at (w : World) (slot : Z) (columns : list Z) (snapshot txn : Z) : option (option Values) :=
  v ← read_as_of (w_stripe w) (w_space w) slot columns snapshot txn;
  Some (if Hot_visible (w_stripe w) slot snapshot txn then Some v else None).

Lemma row_at_v_row ws w A slot a columns snapshot txn :
  keeps ws w A → A !! slot = Some a → fits 63 snapshot → txn_ok txn →
  NoDup columns → Forall (λ c, 0 ≤ c < zlen ws) columns →
  row_at w slot columns snapshot txn = Some (asked columns <$> v_row a snapshot (Z.lor txn UNCOMMITTED)).
Proof.
  intros Hk Ha Hs Ht Hnd Hc. destruct (world_reads ws w A slot a columns snapshot txn) as [E1 E2]; [done..|].
  unfold row_at, v_row. rewrite E1, E2, some_bind. by destruct (v_visible a snapshot (Z.lor txn UNCOMMITTED)).
Qed.

(** C6. A snapshot is repeatable: while it is held, whatever other transactions insert, update,
    delete, commit after it and abort, a reader at the snapshot sees of every row the same values,
    or that it is not there, as it did before. *)
Theorem snapshot_reads_repeat id table ws n workers ops more slot columns snapshot txn :
  u32 id → u32 table → 0 < n ≤ STRIPE_ROWS → zlen ws ≤ 2 ^ 16 →
  legal_run ws workers (empty_store ws n) (ops ++ more) → run_weight (ops ++ more) < 2 ^ 20 →
  fits 63 snapshot → txn_ok txn → Forall (beyond snapshot txn) more →
  0 ≤ slot < n → NoDup columns → Forall (λ c, 0 ≤ c < zlen ws) columns →
  ∃ rs w rs' w', run ops (leased id table ws n workers) = Some (rs, w) ∧ run more w = Some (rs', w')
    ∧ is_Some (row_at w slot columns snapshot txn)
    ∧ row_at w' slot columns snapshot txn = row_at w slot columns snapshot txn.
Proof.
  intros Hid Htab Hn Hws Hl Hw Hs Ht Hb Hslot Hnd Hc.
  pose proof Hl as [Hl1 Hl2]%legal_run_app. pose proof (run_weight_nonneg more). pose proof Hw as Hw'. rewrite run_weight_app in Hw'.
  destruct (run_from_lease id table ws n workers Hid Htab Hn Hws ops Hl1) as (w&E&Hk&_); [lia|].
  destruct (run_from_lease id table ws n workers Hid Htab Hn Hws (ops ++ more) Hl Hw) as (w2&E2&Hk2&_).
  rewrite run_app, E, some_bind in E2. destruct (run more w) as [[rs' w3]|] eqn:Em; [|done]. injection E2 as _ ->.
  eexists _, w, rs', w2. split; [done|]. split; [done|].
  destruct (vrun_there ops (empty_store ws n) slot) as [a Ha]; [by apply empty_store_there|].
  destruct (vrun_beyond snapshot txn Hs Ht ws workers more _ slot a Hl2 Hb Ha) as (a'&Ha'&Ea).
  rewrite vrun_app in Hk2. rewrite (row_at_v_row ws w _ slot a), (row_at_v_row ws w2 _ slot a') by done. rewrite Ea. eauto.
Qed.

(** A write of [slot] the world lets through is one the store lets through. *)
Lemma accepted_claim ws w A slot a snapshot txn op e :
  keeps ws w A → A !! slot = Some a → legal ws (length (w_bufs w)) A op → us_next (w_space w) + weight op ≤ 2 ^ 20 →
  (vexec op A).1 = (v_change e snapshot (Z.lor txn UNCOMMITTED) a).1 → fst <$> exec op w = Some None →
  v_claim a snapshot (Z.lor txn UNCOMMITTED) = None.
Proof.
  intros Hk Ha Hop Hw Ev Hex. destruct (exec_step ws w A op Hk Hop Hw) as (w'&Ew&_). rewrite Ew in Hex. simpl in Hex.
  rewrite Ev in Hex. unfold v_change in Hex. by destruct (v_claim a snapshot (Z.lor txn UNCOMMITTED)).
Qed.

(** C14. No update is lost: a transaction that is let change or delete a row saw it as it is, the
    version at its snapshot is the newest committed or its own, and it is there to be seen. *)
Theorem accepted_write_saw_newest id table ws n workers ops slot columns snapshot later txn k changes rs w :
  u32 id → u32 table → 0 < n ≤ STRIPE_ROWS → zlen ws ≤ 2 ^ 16 →
  legal_run ws workers (empty_store ws n) ops → run_weight ops + zlen changes + 1 < 2 ^ 20 →
  run ops (leased id table ws n workers) = Some (rs, w) →
  fits 63 snapshot → fits 63 later → snapshot ≤ later → txn_ok txn → 0 ≤ slot < n → (k < workers)%nat →
  Forall (change_ok ws) changes → NoDup columns → Forall (λ c, 0 ≤ c < zlen ws) columns →
  (fst <$> exec (UpdateRow k slot changes snapshot txn) w = Some None
   ∨ fst <$> exec (DeleteRow k slot snapshot txn) w = Some None) →
  ∃ v, row_at w slot columns snapshot txn = Some (Some v) ∧ row_at w slot columns later txn = Some (Some v).
Proof.
  intros Hid Htab Hn Hws Hl Hw E Hs Hs' Hle Ht Hslot Hk Hch Hnd Hc Hok. pose proof (zlen_nonneg changes).
  destruct (run_from_lease id table ws n workers Hid Htab Hn Hws ops Hl) as (w0&E0&Hkeep&Hb&Hnext); [lia|].
  rewrite E in E0. injection E0 as -> <-.
  destruct (vrun_there ops (empty_store ws n) slot) as [a Ha]; [by apply empty_store_there|].
  assert (v_claim a snapshot (Z.lor txn UNCOMMITTED) = None) as Hclaim.
  { destruct Hok as [Hok|Hok]; [eapply (accepted_claim _ _ _ _ _ _ _ _ (Change changes)) in Hok|eapply (accepted_claim _ _ _ _ _ _ _ _ Remove) in Hok]; try done;
      cbn [legal weight vexec]; rewrite ?Hb; try lia; try (by split_and!; eauto); rewrite Ha; by destruct (v_change _ _ _ a). }
  pose proof Hkeep as (G&R&HK). destruct w as [s sp bufs]. destruct (the_slot HK Ha) as [_ _ _ _ _ (own&rest&_&Hrow)].
  destruct (claimed_newest ws _ _ _ _ _ _ a snapshot later (Z.lor txn UNCOMMITTED) Hrow Hclaim Hle) as [Er Ev].
  rewrite !(row_at_v_row ws _ _ slot a) by done. rewrite Er. unfold v_row. rewrite Ev. simpl. eauto.
Qed.

(** * Witnesses

    A row is inserted and committed at 5, changed twice by one transaction that commits at 7, by
    another that aborts, and then deleted by one that commits at 9. *)

Definition sample_widths : list Width := [Eight; Four].

Definition sample_ops : list Op :=
  [Fill 0 (mkImage 0 (Some 10)); Insert [0] 1; CommitInsert [0] 1 5;
   UpdateRow 0 0 [mkImage 0 (Some 20)] 5 2].

Definition sample_more : list Op :=
  [UpdateRow 0 0 [mkImage 0 (Some 21); mkImage 1 (Some 3)] 5 2; CommitRow 0 2 7;
   UpdateRow 1 0 [mkImage 1 None] 7 3; AbortRow 0 3; DeleteRow 1 0 7 4; CommitRow 0 4 9].

Ltac legal_sample :=
  repeat match goal with
  | |- _ ∧ _ => split
  | |- True => exact I
  | |- Forall _ _ => constructor
  | |- change_ok _ _ => unfold change_ok
  | |- ∃ w, sample_widths !! _ = Some w ∧ _ => eexists; split; [reflexivity|]
  | |- ∃ a, ?m !! _ = Some a ∧ _ => eexists; split; [vm_compute; reflexivity|]
  | |- is_Some _ => eexists; vm_compute; reflexivity
  | |- ∀ t, t ∈ [0] → _ => intros t ->%list_elem_of_singleton
  | |- _ ≠ _ => done
  | |- _ => first [progress cbn [legal legal_run sample_ops sample_more app beyond] | by vm_compute | lia]
  end.

Lemma sample_legal : legal_run sample_widths 2 (empty_store sample_widths 2) (sample_ops ++ sample_more).
Proof. legal_sample. Qed.

Lemma sample_columns :
  NoDup [0; 1] ∧ NoDup [1; 0] ∧ Forall (λ c, 0 ≤ c < zlen sample_widths) [0; 1] ∧ Forall (λ c, 0 ≤ c < zlen sample_widths) [1; 0].
Proof. split_and!; [by apply (bool_decide_unpack _); vm_compute..|by repeat constructor|by repeat constructor]. Qed.

Ltac sample_ask := first [apply sample_columns | unfold txn_ok, fits; lia].

Lemma hot_stripe_keeps_versions_witness :
  ∃ w, run (sample_ops ++ sample_more) (leased 1 1 sample_widths 2 2)
         = Some (replicate 10 None, w)
    ∧ read_as_of (w_stripe w) (w_space w) 0 [0; 1] 6 8 = Some [Some 10; None]
    ∧ read_as_of (w_stripe w) (w_space w) 0 [1; 0] 8 8 = Some [Some 3; Some 21]
    ∧ Hot_visible (w_stripe w) 0 8 8 = true ∧ Hot_visible (w_stripe w) 0 9 8 = false.
Proof.
  destruct (hot_stripe_keeps_versions 1 1 sample_widths 2 2 (sample_ops ++ sample_more)) as (w&E&H);
    [done|done|done|done|apply sample_legal|done|].
  exists w. split; [rewrite E; by vm_compute|].
  assert (∃ a, (vrun (sample_ops ++ sample_more) (empty_store sample_widths 2)).2 !! 0 = Some a
    ∧ asked [0; 1] (v_values a 6 (Z.lor 8 UNCOMMITTED)) = [Some 10; None]
    ∧ asked [1; 0] (v_values a 8 (Z.lor 8 UNCOMMITTED)) = [Some 3; Some 21]
    ∧ v_visible a 8 (Z.lor 8 UNCOMMITTED) = true ∧ v_visible a 9 (Z.lor 8 UNCOMMITTED) = false) as (a&Ha&E1&E2&E3&E4)
    by (eexists; vm_compute; repeat split).
  destruct (H 0 a [0; 1] 6 8 Ha) as [-> _]; try sample_ask.
  destruct (H 0 a [1; 0] 8 8 Ha) as [-> ->]; try sample_ask.
  destruct (H 0 a [1; 0] 9 8 Ha) as [_ ->]; try sample_ask.
  rewrite E1, E2, E3, E4. repeat split.
Defined.

Lemma snapshot_reads_repeat_witness :
  ∃ rs w rs' w', run sample_ops (leased 1 1 sample_widths 2 2) = Some (rs, w) ∧ run sample_more w = Some (rs', w')
    ∧ is_Some (row_at w 0 [0; 1] 5 8)
    ∧ row_at w' 0 [0; 1] 5 8 = row_at w 0 [0; 1] 5 8.
Proof.
  apply (snapshot_reads_repeat 1 1 sample_widths 2 2 sample_ops sample_more 0 [0; 1] 5 8);
    [done|done|done|done|apply sample_legal|done|done|done|legal_sample|done|apply sample_columns|apply sample_columns].
Defined.

Lemma accepted_write_saw_newest_witness :
  ∃ rs w v, run sample_ops (leased 1 1 sample_widths 2 2) = Some (rs, w)
    ∧ row_at w 0 [0; 1] 5 2 = Some (Some v) ∧ row_at w 0 [0; 1] 6 2 = Some (Some v).
Proof.
  assert (∀ rs w, run sample_ops (leased 1 1 sample_widths 2 2) = Some (rs, w) →
    fst <$> exec (UpdateRow 0 0 [mkImage 1 (Some 4)] 5 2) w = Some None →
    ∃ v, row_at w 0 [0; 1] 5 2 = Some (Some v) ∧ row_at w 0 [0; 1] 6 2 = Some (Some v)) as H.
  { assert (Forall (change_ok sample_widths) [mkImage 1 (Some 4)]) as Hch by legal_sample.
    pose proof sample_legal as [Hl _]%legal_run_app.
    assert (run_weight sample_ops + zlen [mkImage 1 (Some 4)] + 1 < 2 ^ 20) as Hw by by vm_compute.
    intros rs w E Hx.
    apply (accepted_write_saw_newest 1 1 sample_widths 2 2 sample_ops 0 [0; 1] 5 6 2 0 [mkImage 1 (Some 4)] rs w);
      [sample_ask|sample_ask|unfold STRIPE_ROWS; lia|vm_compute; discriminate|exact Hl|exact Hw|exact E|sample_ask|sample_ask|lia|sample_ask|lia|lia
      |exact Hch|apply sample_columns|apply sample_columns|left; exact Hx]. }
  assert (∃ rs w, run sample_ops (leased 1 1 sample_widths 2 2) = Some (rs, w)
    ∧ fst <$> exec (UpdateRow 0 0 [mkImage 1 (Some 4)] 5 2) w = Some None) as (rs&w&E&Hx)
    by (eexists _, _; split; [vm_compute; reflexivity|vm_compute; reflexivity]).
  destruct (H rs w E Hx) as (v&E1&E2). exists rs, w, v. exact (conj E (conj E1 E2)).
Defined.
