(* ===== verification/HotPart.v ===== *)
(** Reading a hot stripe a part at a time: [HotStripe::mask] and [HotStripe::read_part] of
    [rudb-storage/src/hot.rs], which a scan uses in place of asking row by row, and that they answer
    what [visible] and [read_as_of] do. *)

From S2P Require Import Prelude Undo UndoWords UndoAlloc Deletes Hot HotCells DeletesLaws HotChain HotRow HotStore HotWorld HotTheorems.
Local Open Scope Z_scope.

Definition PARTS : Z := STRIPE_ROWS / PART_ROWS.
Definition ROWS : nat := Z.to_nat PART_ROWS.

Lemma ROWS_Z : Z.of_nat ROWS = PART_ROWS.
Proof. by vm_compute. Qed.
#[global] Opaque ROWS.

(** * Who is visible in a part *)

Fixpoint word_bits (s : HotStripe) (first snapshot me : Z) (n : nat) : Z :=
  match n with
  | O => 0
  | S n =>
      let slot := first + Z.of_nat n in
      let bits := word_bits s first snapshot me n in
      if seen (created_at s slot) (deleted_at s slot) snapshot me then Z.lor bits (1 ≪ Z.of_nat n) else bits
  end.

Definition ones (mask : list Z) : Z := foldr (λ word n, count_ones 64 word + n) 0 mask.

(** How many slots are visible, and the mask. *)
Definition Hot_mask (s : HotStripe) (part snapshot txn : Z) : option (Z * list Z) :=
  if negb (part <? PARTS) then None else
  match st_created s !! part with
  | None => Some (0, replicate PART_WORDS 0)
  | Some _ =>
      let me := Z.lor txn UNCOMMITTED in
      let mask := (λ word, word_bits s (part * PART_ROWS + Z.of_nat word * 64) snapshot me 64) <$> seq 0 PART_WORDS in
      match st_pending s with
      | None => Some (ones mask, mask)
      | Some d =>
          '(any, gone) ← dv_mask d part snapshot txn (replicate PART_WORDS 0);
          if (any : bool) then
            let mask := zip_with (λ word gone, Z.land word (wnot 64 gone)) mask gone in Some (ones mask, mask)
          else Some (ones mask, mask)
      end
  end.

(** * The values of a part *)

(** A [Lane] is the width of its cells and the cells; past its end the source panics. *)
Record PartColumn : Type := mkPart {
  pc_width : Width;
  pc_values : list Z;
  pc_valid : list Z }.

Definition pc_value (at_ : Z) (c : PartColumn) : option Z :=
  if get_bit (pc_valid c) at_ then Some (default 0 (pc_values c !! Z.to_nat at_)) else None.

Definition clear_bit (mask : list Z) (bit : Z) : list Z :=
  alter (λ word, Z.land word (wnot 64 (1 ≪ (bit `mod` 64)))) (Z.to_nat (bit / 64)) mask.

Definition pc_put (at_ : Z) (value : option Z) (c : PartColumn) : PartColumn :=
  mkPart (pc_width c) (<[Z.to_nat at_ := wrap (8 * Width_bytes (pc_width c)) (default 0 value)]> (pc_values c))
    (match value with Some _ => set_bit (pc_valid c) at_ | None => clear_bit (pc_valid c) at_ end).

(** The cells of a part as they are, and 0s if it was never allocated. *)
Definition copy_part (ps : Parts) (part : Z) (n : nat) : list Z :=
  match ps !! part with
  | Some cells => (λ i, default 0 (cells !! Z.of_nat i)) <$> seq 0 n
  | None => replicate n 0
  end.

Definition copy_column (part : Z) (c : Column) : PartColumn :=
  mkPart (col_width c) (copy_part (col_cells c) part ROWS) (copy_part (col_valid c) part PART_WORDS).

(** One turn of the loop over the heads. *)
Definition patch_row (sp : UndoSpace) (columns : list Z) (snapshot me at_ head : Z) (out : list PartColumn)
    : option (Z * list PartColumn) :=
  if head =? 0 then Some (0, out) else
  match record sp head with
  | None => Some (0, out)
  | Some r =>
      if stops (r_ts r) snapshot me then Some (0, out) else
      values ← undo_into (chain_fuel sp) sp head columns snapshot me (pc_value at_ <$> out);
      Some (1, zip_with (pc_put at_) values out)
  end.

Fixpoint patch_rows (sp : UndoSpace) (columns : list Z) (snapshot me : Z) (heads : gmap Z Z) (ats : list Z)
    (out : list PartColumn) : option (Z * list PartColumn) :=
  match ats with
  | [] => Some (0, out)
  | at_ :: ats =>
      '(n, out) ← patch_row sp columns snapshot me at_ (default 0 (heads !! at_)) out;
      '(patched, out) ← patch_rows sp columns snapshot me heads ats out;
      Some (n + patched, out)
  end.

Definition read_part (s : HotStripe) (sp : UndoSpace) (part : Z) (columns : list Z) (snapshot txn : Z)
    : option (Z * list PartColumn) :=
  if negb (part <? PARTS) then None else
  out ← mapM (λ column, copy_column part <$> st_columns s !! Z.to_nat column) columns;
  match st_undo s !! part with
  | None => Some (0, out)
  | Some heads => patch_rows sp columns snapshot (Z.lor txn UNCOMMITTED) heads (range 0 (PART_ROWS - 1)) out
  end.

(** * The mask is the rows asked one by one *)

Lemma word_bits_testbit s first snapshot me n i :
  0 ≤ i → Z.testbit (word_bits s first snapshot me n) i
  = bool_decide (i < Z.of_nat n) && seen (created_at s (first + i)) (deleted_at s (first + i)) snapshot me.
Proof.
  intros Hi. induction n as [|n IH]; [by rewrite Z.bits_0, bool_decide_eq_false_2 by lia|]. cbn [word_bits]. cbv zeta.
  destruct (decide (i = Z.of_nat n)) as [->|Hne].
  - rewrite (bool_decide_eq_true_2 (_ < Z.of_nat (S n))) by lia. rewrite bool_decide_eq_false_2 in IH by lia. cbn [andb] in *.
    case_match; [by rewrite set_word_bit, decide_True by lia|done].
  - assert (bool_decide (i < Z.of_nat (S n)) = bool_decide (i < Z.of_nat n)) as -> by (apply bool_decide_ext; lia).
    rewrite <-IH. case_match; [by rewrite set_word_bit, decide_False by lia|done].
Qed.

Lemma word_bits_u64 s first snapshot me : u64 (word_bits s first snapshot me 64).
Proof.
  assert (∀ n, 0 ≤ word_bits s first snapshot me n) as H0.
  { induction n as [|n IH]; [done|]. cbn [word_bits]. cbv zeta. case_match; [|done]. apply Z.lor_nonneg. split; [done|]. apply Z.shiftl_nonneg. lia. }
  split; [apply H0|]. destruct (Z.lt_ge_cases (word_bits s first snapshot me 64) (2 ^ 64)) as [|Hge]; [done|]. exfalso.
  assert (64 ≤ Z.log2 (word_bits s first snapshot me 64)) as Hl by (apply Z.log2_le_pow2; lia).
  pose proof (Z.bit_log2 (word_bits s first snapshot me 64) ltac:(lia)) as Hb.
  rewrite word_bits_testbit, bool_decide_eq_false_2 in Hb by lia. done.
Qed.

Lemma filter_same {A} (P Q : A → Prop) `{!∀ x, Decision (P x), !∀ x, Decision (Q x)} (l : list A) :
  (∀ x, x ∈ l → P x ↔ Q x) → filter P l = filter Q l.
Proof.
  induction l as [|x l IH]; intros HPQ; [done|]. rewrite !filter_cons, IH by (intros; apply HPQ; by right).
  specialize (HPQ x ltac:(by left)). destruct (decide (P x)), (decide (Q x)); tauto.
Qed.

Lemma filter_fmap_length {A B} (f : A → B) (P : B → Prop) `{!∀ x, Decision (P x)} (l : list A) :
  length (filter P (f <$> l)) = length (filter (P ∘ f) l).
Proof.
  induction l as [|x l IH]; [done|]. rewrite fmap_cons, !filter_cons. unfold compose at 1.
  destruct (decide (P (f x))); cbn [length]; by rewrite IH.
Qed.

(** The set bits of an array of words, counted. *)
Lemma ones_count mask : ones mask = zlen (filter (λ at_, get_bit mask at_ = true) (range 0 (64 * zlen mask - 1))).
Proof.
  induction mask as [|w mask IH] using rev_ind; [done|].
  assert (range 0 (64 * zlen (mask ++ [w]) - 1) = range 0 (64 * zlen mask - 1) ++ ((λ i, 64 * zlen mask + Z.of_nat i) <$> seq 0 64)) as ->.
  { unfold range. rewrite zlen_app. unfold zlen. cbn [length].
    replace (Z.to_nat (64 * (Z.of_nat (length mask) + Z.of_nat 1) - 1 + 1 - 0)) with (64 * length mask + 64)%nat by lia.
    replace (Z.to_nat (64 * Z.of_nat (length mask) - 1 + 1 - 0)) with (64 * length mask)%nat by lia.
    rewrite seq_app, fmap_app. f_equal.
    apply list_eq. intros k. rewrite !list_lookup_fmap. destruct (decide (k < 64)%nat) as [Hk|Hk].
    - rewrite !lookup_seq_lt by done. simpl. f_equal. lia.
    - by rewrite !lookup_seq_ge by lia. }
  rewrite filter_app, zlen_app. unfold ones. rewrite foldr_app. cbn [foldr]. rewrite Z.add_0_r.
  assert (∀ l x, foldr (λ word n, count_ones 64 word + n) x l = ones l + x) as Hsum.
  { induction l as [|y l IHl]; intros x; [done|]. unfold ones in *. cbn [foldr]. rewrite IHl. lia. }
  rewrite Hsum, IH. f_equal.
  - f_equal. apply filter_same. intros x Hx%elem_of_range. unfold zlen in Hx. rewrite !get_bit_testbit by lia.
    by rewrite lookup_app_l by (assert (x / 64 < Z.of_nat (length mask)) by (apply Z.div_lt_upper_bound; lia); lia).
  - unfold zlen at 1. rewrite filter_fmap_length, count_ones_filter. f_equal. f_equal. apply filter_same. intros i Hi%elem_of_seq.
    unfold compose. rewrite get_bit_testbit by (unfold zlen; lia).
    rewrite Z.add_comm, Z.mul_comm, Z.div_add, Z.mod_add, Z.div_small, Z.mod_small by lia.
    rewrite Z.add_0_l. unfold zlen. rewrite Nat2Z.id, lookup_app_r, Nat.sub_diag by lia. done.
Qed.

Lemma slot_in_part part at_ : 0 ≤ at_ < PART_ROWS → place (part * PART_ROWS + at_) = (part, at_).
Proof.
  intros H. unfold place. rewrite Z.add_comm, Z.div_add, Z.mod_add, Z.div_small, Z.mod_small by (done || lia). done.
Qed.

Lemma wnot_testbit x i : 0 ≤ i < 64 → Z.testbit (wnot 64 x) i = negb (Z.testbit x i).
Proof.
  intros Hi. unfold wnot. rewrite Z.lxor_spec, Z.testbit_ones_nonneg by lia. rewrite (proj2 (Z.ltb_lt _ _)) by lia. apply xorb_true_r.
Qed.

Lemma get_bit_mapped (f : nat → Z) n at_ :
  0 ≤ at_ < 64 * Z.of_nat n → get_bit (f <$> seq 0 n) at_ = Z.testbit (f (Z.to_nat (at_ / 64))) (at_ `mod` 64).
Proof.
  intros H. rewrite get_bit_testbit by lia. assert (at_ / 64 < Z.of_nat n) by (apply Z.div_lt_upper_bound; lia).
  assert (0 ≤ at_ / 64) by (apply Z.div_pos; lia). by rewrite list_lookup_fmap, lookup_seq_lt by lia.
Qed.

Lemma get_bit_zip f (l l' : list Z) (g : bool → bool → bool) at_ :
  (∀ x y i, 0 ≤ i < 64 → Z.testbit (f x y) i = g (Z.testbit x i) (Z.testbit y i)) → length l = length l' →
  0 ≤ at_ < 64 * zlen l → get_bit (zip_with f l l') at_ = g (get_bit l at_) (get_bit l' at_).
Proof.
  intros Hf Hl Hat. rewrite !get_bit_testbit by lia. unfold zlen in Hat. assert (at_ / 64 < Z.of_nat (length l)) by (apply Z.div_lt_upper_bound; lia).
  assert (0 ≤ at_ / 64) by (apply Z.div_pos; lia). rewrite lookup_zip_with.
  destruct (lookup_lt_is_Some_2 l (Z.to_nat (at_ / 64))) as [x ->]; [lia|]. destruct (lookup_lt_is_Some_2 l' (Z.to_nat (at_ / 64))) as [y ->]; [lia|].
  simpl. apply Hf. apply Z.mod_pos_bound. lia.
Qed.

Lemma get_bit_zeros n at_ : 0 ≤ at_ → get_bit (replicate n 0) at_ = false.
Proof.
  intros H. rewrite get_bit_testbit by done. destruct (replicate n 0 !! _) eqn:E; [|done]. apply lookup_replicate in E as [-> _]. apply Z.bits_0.
Qed.

Definition seen_at (s : HotStripe) (slot snapshot txn : Z) : bool :=
  seen (created_at s slot) (deleted_at s slot) snapshot (Z.lor txn UNCOMMITTED).

Lemma seen_mask s part snapshot txn at_ :
  0 ≤ at_ < PART_ROWS →
  get_bit ((λ word, word_bits s (part * PART_ROWS + Z.of_nat word * 64) snapshot (Z.lor txn UNCOMMITTED) 64) <$> seq 0 PART_WORDS) at_
  = seen_at s (part * PART_ROWS + at_) snapshot txn.
Proof.
  intros H. pose proof PART_WORDS_Z as HW. unfold PART_ROWS in H. rewrite get_bit_mapped by lia.
  pose proof (Z.mod_pos_bound at_ 64 ltac:(lia)). assert (0 ≤ at_ / 64) by (apply Z.div_pos; lia). pose proof (Z.div_mod at_ 64 ltac:(lia)).
  rewrite word_bits_testbit, bool_decide_eq_true_2 by lia. cbn [andb].
  by replace (part * PART_ROWS + Z.of_nat (Z.to_nat (at_ / 64)) * 64 + at_ `mod` 64) with (part * PART_ROWS + at_) by lia.
Qed.

Lemma ones_part mask (p : Z → bool) :
  length mask = PART_WORDS → (∀ at_, 0 ≤ at_ < PART_ROWS → get_bit mask at_ = p at_) →
  ones mask = zlen (filter (λ at_, p at_ = true) (range 0 (PART_ROWS - 1))).
Proof.
  intros Hl Hp. rewrite ones_count. pose proof PART_WORDS_Z as HW.
  assert (64 * zlen mask - 1 = PART_ROWS - 1) as -> by (unfold zlen, PART_ROWS; rewrite Hl; lia). f_equal.
  apply filter_same. intros x Hx%elem_of_range. by rewrite Hp by lia.
Qed.

(** The mask of a part is its rows asked one by one: for any stripe, [HotStripe::mask] answers
    without a panic, its bit of a slot is what [visible] says of that slot to the same reader, the
    deletes a frozen stripe has pending included, and its count is the number of them. *)
Theorem part_mask_is_visible s part snapshot txn :
  0 ≤ part < PARTS → u64 snapshot → from_option dv_wf True (st_pending s) →
  ∃ count mask, Hot_mask s part snapshot txn = Some (count, mask) ∧ length mask = PART_WORDS
    ∧ (∀ at_, 0 ≤ at_ < PART_ROWS → get_bit mask at_ = Hot_visible s (part * PART_ROWS + at_) snapshot txn)
    ∧ count = zlen (filter (λ at_, Hot_visible s (part * PART_ROWS + at_) snapshot txn = true) (range 0 (PART_ROWS - 1))).
Proof.
  intros Hp Hs Hd.
  assert (∃ count mask, Hot_mask s part snapshot txn = Some (count, mask) ∧ length mask = PART_WORDS ∧ count = ones mask
    ∧ (∀ at_, 0 ≤ at_ < PART_ROWS → get_bit mask at_ = Hot_visible s (part * PART_ROWS + at_) snapshot txn)) as (count&mask&E&Hl&->&Hbits).
  2:{ exists (ones mask), mask. split_and!; [done..|]. by apply ones_part. }
  pose proof PART_WORDS_Z as HW. unfold Hot_mask. rewrite (proj2 (Z.ltb_lt part _)) by lia. cbn [negb].
  destruct (st_created s !! part) as [cells|] eqn:Ec.
  2:{ exists 0, (replicate PART_WORDS 0). split_and!; [done|apply length_replicate| |].
      - assert (∀ n, ones (replicate n 0) = 0) as -> by (induction n as [|n IH]; [done|]; unfold ones in *; cbn [replicate foldr]; by rewrite IH). done.
      - intros at_ Hat. rewrite get_bit_zeros by lia. unfold Hot_visible, created_at. rewrite slot_in_part by done.
        unfold parts_get. rewrite Ec. cbn [fmap option_fmap option_map default]. unfold seen.
        assert (wrap 64 (0 - 1) <? snapshot = false) as -> by (apply Z.ltb_ge; unfold fits in Hs; change (wrap 64 (0 - 1)) with (2 ^ 64 - 1); lia).
        rewrite (proj2 (Z.eqb_neq 0 _)) by (intros E; by destruct (uncommitted_not_zero txn)). done. }
  set (mask := _ <$> seq 0 PART_WORDS). assert (length mask = PART_WORDS) as Hl by (unfold mask; by rewrite length_fmap, length_seq).
  unfold Hot_visible. destruct (st_pending s) as [d|] eqn:Ep.
  - destruct (dv_mask_ok d part snapshot txn (replicate PART_WORDS 0)) as (any&gone&Em&Hg&Hgone&Hany); [done|done|apply length_replicate|].
    rewrite Em, some_bind. rewrite length_replicate in Hg. destruct any.
    + eexists _, _. split; [done|]. split_and!; [rewrite length_zip_with; lia|done|]. intros at_ Hat.
      rewrite (get_bit_zip _ _ _ (λ a b, a && negb b)); [|intros; by rewrite Z.land_spec, wnot_testbit|lia|unfold zlen, PART_ROWS in *; lia].
      unfold mask. rewrite seen_mask, Hgone, get_bit_zeros by (done || lia). done.
    + exists (ones mask), mask. split_and!; [done..|]. intros at_ Hat. unfold mask. rewrite seen_mask by done.
      destruct (is_deleted d (part * PART_ROWS + at_) snapshot txn) eqn:Edel; [|cbn [negb]; by rewrite andb_true_r].
      assert (false = true) by (apply Hany; eauto). done.
  - exists (ones mask), mask. split_and!; [done..|]. intros at_ Hat. unfold mask. rewrite seen_mask by done. cbn [negb]. by rewrite andb_true_r.
Qed.

(** * The columns are the rows read one by one *)

Record part_wf (c : PartColumn) : Prop := {
  pw_values : length (pc_values c) = ROWS;
  pw_valid : length (pc_valid c) = PART_WORDS }.

Lemma clear_get_bit mask bit b :
  0 ≤ bit → 0 ≤ b → get_bit (clear_bit mask bit) b = negb (b =? bit) && get_bit mask b.
Proof.
  intros Hbit Hb. rewrite !get_bit_testbit by lia. unfold clear_bit.
  pose proof (Z.mod_pos_bound bit 64 ltac:(lia)). pose proof (Z.mod_pos_bound b 64 ltac:(lia)).
  assert (0 ≤ bit / 64) by (apply Z.div_pos; lia). assert (0 ≤ b / 64) by (apply Z.div_pos; lia).
  pose proof (Z.div_mod bit 64 ltac:(done)). pose proof (Z.div_mod b 64 ltac:(done)).
  destruct (decide (b / 64 = bit / 64)) as [E|E].
  - rewrite E, list_lookup_alter_eq. destruct (mask !! Z.to_nat (bit / 64)) as [w|]; simpl; [|by rewrite andb_false_r].
    rewrite clear_word_bit by lia. destruct (Z.eqb_spec b bit) as [->|Hne]; [by rewrite decide_True|].
    by rewrite decide_False by lia.
  - rewrite list_lookup_alter_ne by lia. by rewrite (proj2 (Z.eqb_neq b bit)) by congruence.
Qed.

Lemma pc_put_wf at_ value c : part_wf c → part_wf (pc_put at_ value c).
Proof.
  intros [H1 H2]. split; cbn [pc_put pc_values pc_valid]; [by rewrite length_insert|].
  destruct value; [by rewrite length_set_bit|by unfold clear_bit; rewrite length_alter].
Qed.

Lemma pc_value_put at_ b value c :
  part_wf c → 0 ≤ at_ < PART_ROWS → 0 ≤ b < PART_ROWS → fits_cell (pc_width c) value →
  pc_value b (pc_put at_ value c) = if decide (b = at_) then value else pc_value b c.
Proof.
  intros [H1 H2] Hat Hb Hf. pose proof ROWS_Z as HR. pose proof PART_WORDS_Z as HW. unfold pc_value, pc_put. cbn [pc_valid pc_values].
  assert (get_bit (match value with Some _ => set_bit (pc_valid c) at_ | None => clear_bit (pc_valid c) at_ end) b
    = if decide (b = at_) then bool_decide (is_Some value) else get_bit (pc_valid c) b) as ->.
  { destruct value as [v|].
    - rewrite get_set_bit by (unfold zlen, PART_ROWS in *; lia). case_decide as E; [by rewrite (proj2 (Z.eqb_eq _ _) E)|by rewrite (proj2 (Z.eqb_neq _ _) E)].
    - rewrite clear_get_bit by lia. case_decide as E; [by rewrite (proj2 (Z.eqb_eq _ _) E)|by rewrite (proj2 (Z.eqb_neq _ _) E)]. }
  case_decide as E.
  - subst b. destruct value as [v|]; [|done]. rewrite bool_decide_eq_true_2 by eauto.
    rewrite list_lookup_insert_eq by lia. cbn [default from_option id]. by rewrite wrap_id.
  - by rewrite list_lookup_insert_ne by lia.
Qed.

Lemma copied_cell ps part n i :
  (i < n)%nat → copy_part ps part n !! i = Some (default 0 (parts_get 0 ps part (Z.of_nat i))).
Proof.
  intros Hi. unfold copy_part, parts_get. destruct (ps !! part) as [cells|].
  - by rewrite list_lookup_fmap, lookup_seq_lt.
  - by rewrite lookup_replicate_2.
Qed.

Lemma length_copy_part ps part n : length (copy_part ps part n) = n.
Proof. unfold copy_part. destruct (ps !! part); [by rewrite length_fmap, length_seq|apply length_replicate]. Qed.

Lemma copy_column_wf part c : part_wf (copy_column part c).
Proof. split; apply length_copy_part. Qed.

Lemma pc_value_copy part c at_ :
  0 ≤ at_ < PART_ROWS → pc_value at_ (copy_column part c) = column_value c (part * PART_ROWS + at_).
Proof.
  intros H. unfold pc_value, column_value, copy_column. cbn [pc_valid pc_values]. rewrite slot_in_part by done. cbn [fst snd].
  pose proof PART_WORDS_Z as HW. pose proof ROWS_Z as HR. assert (0 ≤ at_ / 64) by (apply Z.div_pos; lia).
  assert (at_ / 64 < Z.of_nat PART_WORDS) by (apply Z.div_lt_upper_bound; unfold PART_ROWS in H; lia).
  unfold get_bit. rewrite !copied_cell by lia. rewrite !Z2Nat.id by lia. cbn [default from_option id].
  destruct (parts_get 0 (col_valid c) part (at_ / 64)); [done|]. cbn [default from_option id]. by rewrite Z.land_0_l.
Qed.

Lemma put_row at_ b values out :
  Forall part_wf out → 0 ≤ at_ < PART_ROWS → 0 ≤ b < PART_ROWS → Forall2 fits_cell (pc_width <$> out) values →
  pc_value b <$> zip_with (pc_put at_) values out = (if decide (b = at_) then values else pc_value b <$> out)
  ∧ Forall part_wf (zip_with (pc_put at_) values out) ∧ pc_width <$> zip_with (pc_put at_) values out = pc_width <$> out.
Proof.
  intros Hwf Hat Hb. revert values. induction Hwf as [|c out Hc Hwf IH]; intros values Hf.
  - rewrite fmap_nil in Hf. apply Forall2_nil_inv_l in Hf as ->. by case_decide.
  - rewrite fmap_cons in Hf. apply Forall2_cons_inv_l in Hf as (v&vs&Hv&Hvs&->). destruct (IH vs Hvs) as (E1&E2&E3).
    cbn [zip_with]. rewrite !fmap_cons, E1, E3, pc_value_put by done. split_and!; [by case_decide| |done].
    constructor; [by apply pc_put_wf|done].
Qed.

Lemma patch_row_ok sp columns snapshot me at_ head out values :
  record sp 0 = None → 0 ≤ at_ < PART_ROWS → Forall part_wf out →
  undo_into (chain_fuel sp) sp head columns snapshot me (pc_value at_ <$> out) = Some values →
  (head ≠ 0 → Forall2 fits_cell (pc_width <$> out) values) →
  ∃ n out', patch_row sp columns snapshot me at_ head out = Some (n, out') ∧ Forall part_wf out' ∧ pc_width <$> out' = pc_width <$> out
    ∧ ∀ b, 0 ≤ b < PART_ROWS → pc_value b <$> out' = if decide (b = at_) then values else pc_value b <$> out.
Proof.
  intros H0 Hat Hwf Hu Hf. unfold patch_row.
  assert (∀ b, values = pc_value at_ <$> out → pc_value b <$> out = if decide (b = at_) then values else pc_value b <$> out) as Hsame.
  { intros b ->. by case_decide; subst. }
  destruct (Z.eqb_spec head 0) as [->|Hne].
  { exists 0, out. split_and!; [done..|]. intros b _. apply Hsame. unfold chain_fuel in Hu. cbn [undo_into] in Hu. rewrite H0 in Hu. by injection Hu. }
  pose proof Hu as Hu'. unfold chain_fuel in Hu'. cbn [undo_into] in Hu'. destruct (record sp head) as [r|].
  - destruct (stops (r_ts r) snapshot me).
    + exists 0, out. split_and!; [done..|]. intros b _. apply Hsame. by injection Hu'.
    + rewrite Hu, some_bind. eexists _, _. split; [done|]. destruct (put_row at_ at_ values out) as (_&E2&E3); [auto..|].
      split_and!; [done..|]. intros b Hb. apply put_row; auto.
  - exists 0, out. split_and!; [done..|]. intros b _. apply Hsame. by injection Hu'.
Qed.

Lemma patch_rows_ok sp columns snapshot me heads ats (T : Z → Values) out :
  record sp 0 = None → NoDup ats → Forall (λ at_, 0 ≤ at_ < PART_ROWS) ats → Forall part_wf out →
  (∀ at_, at_ ∈ ats →
    undo_into (chain_fuel sp) sp (default 0 (heads !! at_)) columns snapshot me (pc_value at_ <$> out) = Some (T at_)
    ∧ (default 0 (heads !! at_) ≠ 0 → Forall2 fits_cell (pc_width <$> out) (T at_))) →
  ∃ n out', patch_rows sp columns snapshot me heads ats out = Some (n, out')
    ∧ ∀ b, 0 ≤ b < PART_ROWS → pc_value b <$> out' = if decide (b ∈ ats) then T b else pc_value b <$> out.
Proof.
  intros H0 Hnd Hats. revert out. induction Hnd as [|at_ ats Hnot Hnd IH]; intros out Hwf HT.
  { exists 0, out. split; [done|]. intros b _. by rewrite decide_False by by intros ?%elem_of_nil. }
  apply Forall_cons in Hats as [Hat Hats]. destruct (HT at_ ltac:(by left)) as [Hu Hf].
  destruct (patch_row_ok sp columns snapshot me at_ _ out (T at_) H0 Hat Hwf Hu Hf) as (n&out1&E1&Hwf1&Hw1&Hrow1).
  destruct (IH Hats out1 Hwf1) as (m&out2&E2&Hrow2).
  { intros b Hb. rewrite Hw1. rewrite Forall_forall in Hats. rewrite Hrow1 by auto. rewrite decide_False by congruence. apply HT. by right. }
  cbn [patch_rows]. rewrite E1, some_bind, E2, some_bind. eexists _, _. split; [done|]. intros b Hb. rewrite Hrow2, Hrow1 by done.
  destruct (decide (b ∈ ats)) as [Hin|Hout]; [by rewrite decide_True by by right|].
  destruct (decide (b = at_)) as [->|Hne]; [by rewrite decide_True by by left|].
  rewrite decide_False; [done|]. by intros [?|?]%elem_of_cons.
Qed.

Lemma readc_fits ws chain snapshot me v :
  Forall2 fits_cell ws v → Forall (change_ok ws) (images_in chain) → Forall2 fits_cell ws (readc chain snapshot me v).
Proof.
  revert v. induction chain as [|c chain IH]; intros v Hv Hi; [done|]. rewrite bind_cons in Hi. apply Forall_app in Hi as [H1 H2].
  cbn [readc]. case_match; [done|]. apply IH; [by apply fits_cells|done].
Qed.

Lemma asked_fits ws v columns :
  Forall2 fits_cell ws v → Forall (λ c, 0 ≤ c < zlen ws) columns →
  Forall2 fits_cell ((λ c, default One (ws !! Z.to_nat c)) <$> columns) (asked columns v).
Proof.
  intros Hf Hc. unfold asked. apply Forall2_fmap, Forall_Forall2_diag. eapply Forall_impl; [exact Hc|]. intros c Hlt. unfold zlen in Hlt.
  destruct (lookup_lt_is_Some_2 ws (Z.to_nat c)) as [w Ew]; [lia|]. destruct (Forall2_lookup_l _ _ _ _ _ Hf Ew) as (x&Ex&Hx).
  by rewrite Ew, Ex.
Qed.

Lemma copied_columns s part columns :
  Forall (λ c, 0 ≤ c < zlen (st_columns s)) columns →
  ∃ out, mapM (λ column, copy_column part <$> st_columns s !! Z.to_nat column) columns = Some out
    ∧ Forall part_wf out ∧ pc_width <$> out = (λ c, default One (widths s !! Z.to_nat c)) <$> columns
    ∧ ∀ at_, 0 ≤ at_ < PART_ROWS → pc_value at_ <$> out = asked columns (row_values s (part * PART_ROWS + at_)).
Proof.
  induction 1 as [|c columns Hc Hcs IH].
  { exists []. split_and!; [done|constructor|done|done]. }
  destruct IH as (out&E&H1&H2&H3). unfold zlen in Hc. destruct (lookup_lt_is_Some_2 (st_columns s) (Z.to_nat c)) as [col Ec]; [lia|].
  exists (copy_column part col :: out). cbn [mapM]. rewrite Ec. cbn [fmap option_fmap option_map]. rewrite some_bind, E, some_bind.
  split_and!; [done|constructor; [apply copy_column_wf|done]| |].
  - cbn [fmap list_fmap]. f_equal; [|done]. unfold widths. by rewrite list_lookup_fmap, Ec.
  - intros at_ Hat. cbn [fmap list_fmap]. rewrite pc_value_copy by done. unfold asked in *. cbn [fmap list_fmap]. f_equal; [|by apply H3].
    unfold row_values. by rewrite list_lookup_fmap, Ec.
Qed.

(** What a row of the store reads as fits the columns it was read from. *)
Lemma world_values_fit ws w A slot a snapshot txn :
  keeps ws w A → A !! slot = Some a → fits 63 snapshot → txn_ok txn → Forall2 fits_cell ws (v_values a snapshot (Z.lor txn UNCOMMITTED)).
Proof.
  intros (G&R&HK) Ha Hs Ht. destruct w as [s sp bufs]. destruct (the_slot HK Ha) as [_ _ _ _ _ (own&rest&_&Hrow)].
  rewrite <-(row_read Hrow) by done. apply readc_fits; [apply (ok_cells _ _ _ _ _ _ _ _ Hrow)|apply (ok_images _ _ _ _ _ _ _ _ Hrow)].
Qed.

Lemma world_reads_part ws w A part columns snapshot txn :
  keeps ws w A → 0 ≤ part < PARTS → fits 63 snapshot → txn_ok txn →
  NoDup columns → Forall (λ c, 0 ≤ c < zlen ws) columns →
  ∃ n out, read_part (w_stripe w) (w_space w) part columns snapshot txn = Some (n, out)
    ∧ ∀ at_ a, 0 ≤ at_ < PART_ROWS → A !! (part * PART_ROWS + at_) = Some a →
        pc_value at_ <$> out = asked columns (v_values a snapshot (Z.lor txn UNCOMMITTED)).
Proof.
  intros Hk Hp Hs Ht Hnd Hc. pose proof Hk as (G&R&HK). destruct w as [s sp bufs]. cbn [w_stripe w_space].
  pose proof (sk_widths _ _ (kp_stripe _ _ _ _ _ HK)) as Ew. cbn [w_stripe] in Ew.
  assert (zlen (st_columns s) = zlen ws) as Elen by (rewrite <-Ew; unfold widths; by rewrite zlen_fmap).
  assert (∀ slot, zlen (row_values s slot) = zlen ws) as Ev by (intros slot; unfold row_values; by rewrite zlen_fmap).
  destruct (copied_columns s part columns) as (out&E&Hwf&Hw&Hrow); [by rewrite Elen|].
  assert (∀ at_ a, 0 ≤ at_ < PART_ROWS → A !! (part * PART_ROWS + at_) = Some a →
    match parts_get 0 (st_undo s) part at_ with
    | None => Some (pc_value at_ <$> out)
    | Some head => undo_into (chain_fuel sp) sp head columns snapshot (Z.lor txn UNCOMMITTED) (pc_value at_ <$> out)
    end = Some (asked columns (v_values a snapshot (Z.lor txn UNCOMMITTED)))) as Hread.
  { intros at_ a Hat Ha. destruct (world_reads ws (mkWorld s sp bufs) A _ a columns snapshot txn Hk Ha Hs Ht Hnd Hc) as [Hr _].
    cbn [w_stripe w_space] in Hr. unfold read_as_of in Hr. rewrite read_columns, some_bind, slot_in_part in Hr by (done || by rewrite Ev).
    by rewrite Hrow by done. }
  unfold read_part. rewrite (proj2 (Z.ltb_lt part _)) by lia. cbn [negb]. rewrite E, some_bind.
  unfold parts_get in Hread. destruct (st_undo s !! part) as [heads|] eqn:Eu.
  2:{ exists 0, out. split; [done|]. intros at_ a Hat Ha. specialize (Hread at_ a Hat Ha). by injection Hread. }
  cbn [fmap option_fmap option_map] in Hread.
  set (T := λ at_, match A !! (part * PART_ROWS + at_) with
    | Some a => asked columns (v_values a snapshot (Z.lor txn UNCOMMITTED)) | None => pc_value at_ <$> out end).
  pose proof (no_record_zero _ _ _ (kp_space _ _ _ _ _ HK)) as H0. cbn [w_space] in H0.
  destruct (patch_rows_ok sp columns snapshot (Z.lor txn UNCOMMITTED) heads (range 0 (PART_ROWS - 1)) T out) as (n&out'&En&Hout).
  - done.
  - apply NoDup_fmap_2; [intros x y; lia|apply NoDup_seq].
  - apply Forall_forall. intros x Hx%elem_of_range. lia.
  - done.
  - intros at_ Hx%elem_of_range. unfold T. destruct (A !! (part * PART_ROWS + at_)) as [a|] eqn:Ea.
    + split; [by apply Hread; [lia|]|]. intros _. rewrite Hw, Ew. apply asked_fits; [|done]. by eapply (world_values_fit ws (mkWorld s sp bufs)).
    + assert (0 ≤ part * PART_ROWS + at_) as Hnn by (unfold PART_ROWS in *; lia).
      destruct (kp_rest _ _ _ _ _ HK _ Hnn Ea) as [Hh _]. cbn [w_stripe] in Hh. unfold Hot_head in Hh. rewrite slot_in_part in Hh by lia.
      unfold parts_get in Hh. rewrite Eu in Hh. cbn [fmap option_fmap option_map default from_option id] in Hh. rewrite Hh.
      split; [|done]. unfold chain_fuel. cbn [undo_into]. by rewrite H0.
  - exists n, out'. split; [done|]. intros at_ a Hat Ha. rewrite Hout by done. rewrite decide_True by (apply elem_of_range; lia).
    unfold T. by rewrite Ha.
Qed.

(** A part read at once is its rows read one by one: after any run of legal operations,
    [HotStripe::read_part] answers without a panic, and the values and validity it has at a slot are
    those [read_as_of] answers for that row, for the same columns and the same reader. *)
Theorem part_read_is_read_as_of id table ws n workers ops rs w part columns snapshot txn :
  u32 id → u32 table → 0 < n ≤ STRIPE_ROWS → zlen ws ≤ 2 ^ 16 →
  legal_run ws workers (empty_store ws n) ops → run_weight ops < 2 ^ 20 →
  run ops (leased id table ws n workers) = Some (rs, w) →
  0 ≤ part < PARTS → fits 63 snapshot → txn_ok txn → NoDup columns → Forall (λ c, 0 ≤ c < zlen ws) columns →
  ∃ patched out, read_part (w_stripe w) (w_space w) part columns snapshot txn = Some (patched, out)
    ∧ ∀ at_, 0 ≤ at_ < PART_ROWS → part * PART_ROWS + at_ < n →
        read_as_of (w_stripe w) (w_space w) (part * PART_ROWS + at_) columns snapshot txn = Some (pc_value at_ <$> out).
Proof.
  intros Hid Htab Hn Hws Hl Hw E Hp Hs Ht Hnd Hc.
  destruct (run_from_lease id table ws n workers Hid Htab Hn Hws ops Hl Hw) as (w'&E'&Hk&_). rewrite E in E'. injection E' as _ <-.
  destruct (world_reads_part ws w _ part columns snapshot txn Hk Hp Hs Ht Hnd Hc) as (m&out&Em&Hout).
  exists m, out. split; [done|]. intros at_ Hat Hlt.
  destruct (vrun_there ops (empty_store ws n) (part * PART_ROWS + at_)) as [a Ha].
  { apply empty_store_there. unfold PART_ROWS in *. lia. }
  rewrite (Hout at_ a) by done. by eapply world_reads.
Qed.

(** C32. Reads are typed: after any run of legal operations, a read of a row's columns at any snapshot
    answers without a panic, with one value for each column asked, in order, and each is null or fits
    the bytes of its column, however many undo records were put over it. *)
Theorem reads_fit_their_columns id table ws n workers ops rs w slot columns snapshot txn :
  u32 id → u32 table → 0 < n ≤ STRIPE_ROWS → zlen ws ≤ 2 ^ 16 →
  legal_run ws workers (empty_store ws n) ops → run_weight ops < 2 ^ 20 →
  run ops (leased id table ws n workers) = Some (rs, w) →
  0 ≤ slot < n → fits 63 snapshot → txn_ok txn → NoDup columns → Forall (λ c, 0 ≤ c < zlen ws) columns →
  ∃ values, read_as_of (w_stripe w) (w_space w) slot columns snapshot txn = Some values
    ∧ Forall2 (λ c v, ∃ width, ws !! Z.to_nat c = Some width ∧ fits_cell width v) columns values.
Proof.
  intros Hid Htab Hn Hws Hl Hw E Hslot Hs Ht Hnd Hc.
  destruct (run_from_lease id table ws n workers Hid Htab Hn Hws ops Hl Hw) as (w'&E'&Hk&_). rewrite E in E'. injection E' as _ <-.
  destruct (vrun_there ops (empty_store ws n) slot) as [a Ha]; [by apply empty_store_there|].
  eexists. split; [by eapply world_reads|].
  pose proof (asked_fits ws _ columns (world_values_fit ws w _ slot a snapshot txn Hk Ha Hs Ht) Hc) as Hf.
  rewrite Forall2_fmap_l in Hf. apply Forall2_same_length_lookup_2; [by eapply Forall2_length|].
  intros k c v Hkc Hv. pose proof (Forall2_lookup_lr _ _ _ _ _ _ Hf Hkc Hv) as Hfit. rewrite Forall_forall in Hc.
  assert (0 ≤ c < zlen ws) as Hr by (apply Hc; by eapply list_elem_of_lookup_2).
  destruct (lookup_lt_is_Some_2 ws (Z.to_nat c)) as [width Hwd]; [unfold zlen in Hr; lia|].
  exists width. split; [done|]. unfold compose in Hfit. by rewrite Hwd in Hfit.
Qed.

(** * Witnesses *)

Lemma part_mask_is_visible_witness :
  ∃ count mask, Hot_mask (with_pending (Some (mkDeletes (BArray [3]) [(5, 7)])) (w_stripe (leased 1 1 sample_widths 8 1))) 0 9 4
    = Some (count, mask) ∧ length mask = PART_WORDS.
Proof.
  destruct (part_mask_is_visible (with_pending (Some (mkDeletes (BArray [3]) [(5, 7)])) (w_stripe (leased 1 1 sample_widths 8 1))) 0 9 4)
    as (count&mask&E&Hl&_); [split; [lia|reflexivity]|unfold fits; lia| |exact (ex_intro _ count (ex_intro _ mask (conj E Hl)))].
  cbn [st_pending with_pending from_option]. split; cbn [dv_base dv_recent base_wf Base_slots].
  - by split; repeat constructor.
  - repeat constructor.
  - by repeat constructor.
  - intros e ->%list_elem_of_singleton. by intros ?%list_elem_of_singleton.
Defined.

Lemma part_read_is_read_as_of_witness :
  ∃ rs w patched out, run sample_ops (leased 1 1 sample_widths 2 2) = Some (rs, w)
    ∧ read_part (w_stripe w) (w_space w) 0 [0; 1] 5 8 = Some (patched, out)
    ∧ read_as_of (w_stripe w) (w_space w) (0 * PART_ROWS + 1) [0; 1] 5 8 = Some (pc_value 1 <$> out).
Proof.
  assert (∃ rs w, run sample_ops (leased 1 1 sample_widths 2 2) = Some (rs, w)) as (rs&w&E) by (eexists _, _; vm_compute; reflexivity).
  pose proof sample_legal as [Hl _]%legal_run_app.
  assert (run_weight sample_ops < 2 ^ 20) as Hw by by vm_compute.
  assert (∃ patched out, read_part (w_stripe w) (w_space w) 0 [0; 1] 5 8 = Some (patched, out)
    ∧ ∀ at_, 0 ≤ at_ < PART_ROWS → 0 * PART_ROWS + at_ < 2 →
        read_as_of (w_stripe w) (w_space w) (0 * PART_ROWS + at_) [0; 1] 5 8 = Some (pc_value at_ <$> out)) as (patched&out&Ep&H).
  { apply (part_read_is_read_as_of 1 1 sample_widths 2 2 sample_ops rs w 0 [0; 1] 5 8);
      [sample_ask|sample_ask|unfold STRIPE_ROWS; lia|vm_compute; discriminate|exact Hl|exact Hw|exact E|split; [lia|reflexivity]
      |sample_ask|sample_ask|apply sample_columns|apply sample_columns]. }
  exists rs, w, patched, out. split; [exact E|]. split; [exact Ep|]. apply H; unfold PART_ROWS; lia.
Defined.

Lemma reads_fit_their_columns_witness :
  ∃ rs w values, run (sample_ops ++ sample_more) (leased 1 1 sample_widths 2 2) = Some (rs, w)
    ∧ read_as_of (w_stripe w) (w_space w) 0 [1; 0] 8 8 = Some values
    ∧ Forall2 (λ c v, ∃ width, sample_widths !! Z.to_nat c = Some width ∧ fits_cell width v) [1; 0] values.
Proof.
  assert (is_Some (run (sample_ops ++ sample_more) (leased 1 1 sample_widths 2 2))) as [[rs w] E] by (eexists; vm_compute; reflexivity).
  destruct (reads_fit_their_columns 1 1 sample_widths 2 2 (sample_ops ++ sample_more) rs w 0 [1; 0] 8 8) as (values&Ev&Hf);
    [sample_ask|sample_ask|unfold STRIPE_ROWS; lia|vm_compute; discriminate|apply sample_legal|by vm_compute|exact E|lia
    |sample_ask|sample_ask|apply sample_columns|apply sample_columns|].
  exists rs, w, values. by split_and!.
Defined.
