(* ===== verification/Horizon.v ===== *)
(** The snapshots workers are reading at: [rudb-storage/src/horizon.rs].

    First each operation as one call with nobody else at the slots, then every operation as a program
    of its atomic steps, one load, store or locked section each, in the order the source has them:
    [SeqCst] is that the steps of all threads interleave. The guard of a slot's lock carries what its
    holder has read under it. *)

From S2P Require Import Prelude.
Local Open Scope Z_scope.

Definition IDLE : Z := 2 ^ 64 - 1.

Inductive Reads : Type :=
| All
| Tables (tables : list Z).

#[global] Instance Reads_eq_dec : EqDecision Reads.
Proof. solve_decision. Defined.

Definition Reads_holds (r : Reads) (table : Z) : bool :=
  match r with All => true | Tables tables => bool_decide (table ∈ tables) end.

Definition Reads_meets (r : Reads) (tables : list Z) : bool := existsb (Reads_holds r) tables.

Record Killed : Type := mkKilled {
  kl_snapshot : Z;
  kl_behind : Z;
  kl_held : Z }.

#[global] Instance Killed_eq_dec : EqDecision Killed.
Proof. solve_decision. Defined.

(** What a slot's lock guards. *)
Record SlotHeld : Type := mkSlotHeld {
  hd_reads : Reads;
  hd_killed : option Killed }.

(** The mark is for this snapshot. *)
Definition marked (held : SlotHeld) (snapshot : Z) : bool :=
  match hd_killed held with Some k => kl_snapshot k =? snapshot | None => false end.

Definition Held_holds (held : SlotHeld) (table snapshot : Z) : bool :=
  Reads_holds (hd_reads held) table && negb (marked held snapshot).

(** The lock of a slot: free, taken, or taken and the slot's snapshot read. *)
Inductive Guard : Type :=
| Free
| Taken
| Seen (snapshot : Z).

Record Slot : Type := mkSlot {
  sl_snapshot : Z;
  sl_epoch : Z;
  sl_held : SlotHeld;
  sl_guard : Guard }.

Record Horizons : Type := mkHorizons {
  hz_slots : list Slot;
  hz_epoch : Z }.

Definition Horizons_new (workers : nat) : Horizons :=
  mkHorizons (replicate workers (mkSlot IDLE IDLE (mkSlotHeld All None) Free)) 0.

Definition put_snapshot (snapshot : Z) (s : Slot) : Slot := mkSlot snapshot (sl_epoch s) (sl_held s) (sl_guard s).
Definition put_epoch (epoch : Z) (s : Slot) : Slot := mkSlot (sl_snapshot s) epoch (sl_held s) (sl_guard s).
Definition put_held (held : SlotHeld) (s : Slot) : Slot := mkSlot (sl_snapshot s) (sl_epoch s) held (sl_guard s).
Definition put_guard (guard : Guard) (s : Slot) : Slot := mkSlot (sl_snapshot s) (sl_epoch s) (sl_held s) guard.

Definition at_slot (worker : nat) (f : Slot → Slot) (h : Horizons) : Horizons :=
  mkHorizons (alter f worker (hz_slots h)) (hz_epoch h).

(** * One call at a time *)

(** With nobody moving the clock its loop ends the first time. [None] is a worker with no slot. *)
Definition begin (worker : nat) (clock : Z) (reads : Reads) (h : Horizons) : option (Z * Horizons) :=
  _ ← hz_slots h !! worker;
  Some (clock, at_slot worker (put_snapshot clock ∘ put_epoch (hz_epoch h) ∘ put_held (mkSlotHeld reads None)) h).

Definition resumed (snapshot : Z) (held : SlotHeld) : SlotHeld :=
  mkSlotHeld All (if marked held snapshot then hd_killed held else None).

Definition resume (worker : nat) (snapshot : Z) (h : Horizons) : option Horizons :=
  _ ← hz_slots h !! worker;
  Some (at_slot worker (λ s, put_snapshot snapshot (put_epoch (hz_epoch h) (put_held (resumed snapshot (sl_held s)) s))) h).

Definition end_ (worker : nat) (h : Horizons) : option Horizons :=
  _ ← hz_slots h !! worker;
  Some (at_slot worker (put_epoch IDLE ∘ put_snapshot IDLE) h).

Definition oldest_turn (table : Z) (oldest : Z) (s : Slot) : Z :=
  if (sl_snapshot s <? oldest) && Held_holds (sl_held s) table (sl_snapshot s) then sl_snapshot s else oldest.

Definition oldest (clock table : Z) (h : Horizons) : Z := foldl (oldest_turn table) clock (hz_slots h).

Definition holding (table : Z) (s : Slot) : option Z :=
  if negb (sl_snapshot s =? IDLE) && Held_holds (sl_held s) table (sl_snapshot s) then Some (sl_snapshot s) else None.

(** A sort of numbers has one answer. *)
Definition snapshots (table : Z) (h : Horizons) : list Z := merge_sort Z.le (omap (holding table) (hz_slots h)).

(** The oldest so far of those that are not killed. *)
Definition kill_turn (best : option (nat * Z)) (at_ : nat) (s : Slot) : option (nat * Z) :=
  if negb (sl_snapshot s =? IDLE) && negb (marked (sl_held s) (sl_snapshot s))
     && match best with None => true | Some (_, oldest) => sl_snapshot s <? oldest end
  then Some (at_, sl_snapshot s) else best.

Fixpoint kill_scan (at_ : nat) (slots : list Slot) (best : option (nat * Z)) : option (nat * Z) :=
  match slots with
  | [] => best
  | s :: slots => kill_scan (S at_) slots (kill_turn best at_ s)
  end.

Definition the_kill (now snapshot held : Z) : Killed := mkKilled snapshot (Z.max 0 (now - snapshot)) held.

Definition mark (k : Killed) (s : Slot) : Slot := put_held (mkSlotHeld (hd_reads (sl_held s)) (Some k)) s.

Definition kill_oldest (clock held : Z) (h : Horizons) : option Killed * Horizons :=
  match kill_scan 0 (hz_slots h) None with
  | None => (None, h)
  | Some (at_, snapshot) =>
      let killed := the_kill clock snapshot held in (Some killed, at_slot at_ (mark killed) h)
  end.

Definition too_old (worker : nat) (h : Horizons) : option Killed :=
  s ← hz_slots h !! worker;
  if marked (sl_held s) (sl_snapshot s) then hd_killed (sl_held s) else None.

Definition advance (h : Horizons) : Z * Horizons := (hz_epoch h, mkHorizons (hz_slots h) (wrap 64 (hz_epoch h + 1))).

Definition passed (epoch : Z) (tables : list Z) (h : Horizons) : bool :=
  forallb (λ s, (sl_epoch s =? IDLE) || (epoch <? sl_epoch s) || negb (Reads_meets (hd_reads (sl_held s)) tables)) (hz_slots h).

(** * Atomic steps *)

(** Where a worker is. A statement that runs has its snapshot; a transaction between statements has
    it too, and its next statement resumes. What a statement was resumed from is noted beside it, for
    what is said of it: [kept] when its slot held its snapshot for every table all along. A statement
    that was resumed otherwise runs as [Returned]. *)
Inductive WorkerAt : Type :=
| Idle
| BeginHeld (reads : Reads)
| BeginEpoch (reads : Reads)
| BeginPutEpoch (reads : Reads) (epoch : Z)
| BeginClock (reads : Reads)
| BeginPut (reads : Reads) (snapshot : Z)
| BeginCheck (reads : Reads) (snapshot : Z)
| Running (snapshot : Z) (reads : Reads)
| Returned (snapshot : Z)
| ResumeHeld (snapshot : Z) (kept : bool)
| ResumeEpoch (snapshot : Z) (kept : bool)
| ResumePutEpoch (snapshot : Z) (kept : bool) (epoch : Z)
| ResumePut (snapshot : Z) (kept : bool)
| EndSnapshot
| EndEpoch.

(** The step a worker takes: how its slot changes, and where it is then. [None] where it waits for
    its slot's lock, and where it has nothing to do until the next call. *)
Definition worker_step (clock epoch : Z) (s : Slot) (at_ : WorkerAt) : option ((Slot → Slot) * WorkerAt) :=
  let locked (r : (Slot → Slot) * WorkerAt) := match sl_guard s with Free => Some r | _ => None end in
  match at_ with
  | Idle | Running _ _ | Returned _ => None
  | BeginHeld reads => locked (put_held (mkSlotHeld reads None), BeginEpoch reads)
  | BeginEpoch reads => Some (id, BeginPutEpoch reads epoch)
  | BeginPutEpoch reads e => Some (put_epoch e, BeginClock reads)
  | BeginClock reads => Some (id, BeginPut reads clock)
  | BeginPut reads snapshot => Some (put_snapshot snapshot, BeginCheck reads snapshot)
  | BeginCheck reads snapshot =>
      Some (id, if clock =? snapshot then Running snapshot reads else BeginClock reads)
  | ResumeHeld snapshot kept => locked (put_held (resumed snapshot (sl_held s)), ResumeEpoch snapshot kept)
  | ResumeEpoch snapshot kept => Some (id, ResumePutEpoch snapshot kept epoch)
  | ResumePutEpoch snapshot kept e => Some (put_epoch e, ResumePut snapshot kept)
  | ResumePut snapshot kept => Some (put_snapshot snapshot, if kept : bool then Running snapshot All else Returned snapshot)
  | EndSnapshot => Some (put_snapshot IDLE, EndEpoch)
  | EndEpoch => Some (put_epoch IDLE, Idle)
  end.

(** Where the collector, or anyone else who asks about the slots, is. The statements that ran when
    an epoch ended are noted beside it for what is said of them. *)
Inductive AskerAt : Type :=
| Resting
| OldestClock (table : Z)
| OldestSlot (table : Z) (i : nat) (oldest : Z)
| OldestHeld (table : Z) (i : nat) (oldest snapshot : Z)
| OldestDone (table oldest : Z)
| SnapshotsClock (table : Z)
| SnapshotsSlot (table upto : Z) (i : nat) (found : list Z)
| SnapshotsHeld (table upto : Z) (i : nat) (found : list Z) (snapshot : Z)
| SnapshotsDone (table upto : Z) (found : list Z)
| Advancing (tables : list Z)
| Advanced (epoch : Z) (tables : list Z) (ran : list (nat * nat))
| PassedSlot (epoch : Z) (tables : list Z) (ran : list (nat * nat)) (i : nat)
| PassedHeld (epoch : Z) (tables : list Z) (ran : list (nat * nat)) (i : nat)
| PassedDone (epoch : Z) (tables : list Z) (ran : list (nat * nat)) (yes : bool)
| KillClock (held : Z)
| KillSlot (now held : Z) (i : nat) (best : option (nat * Z))
| KillHeld (now held : Z) (i : nat) (best : option (nat * Z)) (snapshot : Z)
| KillLock (now held : Z) (i : nat)
| KillGuard (now held : Z) (i : nat)
| KillDone (killed : option Killed).

Record HWorld : Type := mkHWorld {
  hw_clock : Z;
  hw_h : Horizons;
  hw_workers : list (WorkerAt * nat);
  hw_askers : list AskerAt }.

(** The snapshot a statement that runs reads at, and its tables. *)
Definition runs (at_ : WorkerAt) : option (Z * Reads) :=
  match at_ with
  | Running snapshot reads => Some (snapshot, reads)
  | Returned snapshot => Some (snapshot, All)
  | _ => None
  end.

(** The statements running on one of the tables; a worker's statements are numbered. *)
Definition running_on (tables : list Z) (i : nat) (w : WorkerAt * nat) : option (nat * nat) :=
  '(_, reads) ← runs w.1;
  if Reads_meets reads tables then Some (i, w.2) else None.

Definition all_running (tables : list Z) (ws : list (WorkerAt * nat)) : list (nat * nat) :=
  omap id (imap (running_on tables) ws).

(** The step someone who asks takes. *)
Definition asker_step (clock : Z) (h : Horizons) (ws : list (WorkerAt * nat)) (at_ : AskerAt)
    : option (Horizons * AskerAt) :=
  let locked i (f : Slot → Horizons * AskerAt) :=
    s ← hz_slots h !! i; match sl_guard s with Free => Some (f s) | _ => None end in
  match at_ with
  | Resting | OldestDone _ _ | SnapshotsDone _ _ _ | Advanced _ _ _ | PassedDone _ _ _ _ | KillDone _ => None
  | OldestClock table => Some (h, OldestSlot table 0 clock)
  | OldestSlot table i oldest =>
      match hz_slots h !! i with
      | None => Some (h, OldestDone table oldest)
      | Some s => Some (h, if sl_snapshot s <? oldest then OldestHeld table i oldest (sl_snapshot s)
                           else OldestSlot table (S i) oldest)
      end
  | OldestHeld table i oldest snapshot =>
      locked i (λ s, (h, OldestSlot table (S i) (if Held_holds (sl_held s) table snapshot then snapshot else oldest)))
  | SnapshotsClock table => Some (h, SnapshotsSlot table clock 0 [])
  | SnapshotsSlot table upto i found =>
      match hz_slots h !! i with
      | None => Some (h, SnapshotsDone table upto (merge_sort Z.le found))
      | Some s => Some (h, if sl_snapshot s =? IDLE then SnapshotsSlot table upto (S i) found
                           else SnapshotsHeld table upto i found (sl_snapshot s))
      end
  | SnapshotsHeld table upto i found snapshot =>
      locked i (λ s, (h, SnapshotsSlot table upto (S i)
                           (if Held_holds (sl_held s) table snapshot then found ++ [snapshot] else found)))
  | Advancing tables =>
      let '(epoch, h) := advance h in Some (h, Advanced epoch tables (all_running tables ws))
  | PassedSlot epoch tables ran i =>
      match hz_slots h !! i with
      | None => Some (h, PassedDone epoch tables ran true)
      | Some s => Some (h, if (sl_epoch s =? IDLE) || (epoch <? sl_epoch s) then PassedSlot epoch tables ran (S i)
                           else PassedHeld epoch tables ran i)
      end
  | PassedHeld epoch tables ran i =>
      locked i (λ s, (h, if Reads_meets (hd_reads (sl_held s)) tables then PassedDone epoch tables ran false
                         else PassedSlot epoch tables ran (S i)))
  | KillClock held => Some (h, KillSlot clock held 0 None)
  | KillSlot now held i best =>
      match hz_slots h !! i with
      | None => Some (h, match best with Some (at_, _) => KillLock now held at_ | None => KillDone None end)
      | Some s => Some (h, KillHeld now held i best (sl_snapshot s))
      end
  | KillHeld now held i best snapshot =>
      locked i (λ s, (h, KillSlot now held (S i) (kill_turn best i (put_snapshot snapshot s))))
  | KillLock now held i => locked i (λ s, (at_slot i (put_guard Taken) h, KillGuard now held i))
  | KillGuard now held i =>
      s ← hz_slots h !! i;
      match sl_guard s with
      | Free => None
      | Taken =>
          Some (if sl_snapshot s =? IDLE then (at_slot i (put_guard Free) h, KillDone None)
                else (at_slot i (put_guard (Seen (sl_snapshot s))) h, KillGuard now held i))
      | Seen snapshot =>
          let killed := the_kill now snapshot held in
          Some (at_slot i (put_guard Free ∘ mark killed) h, KillDone (Some killed))
      end
  end.

(** The calls a worker makes. A transaction goes on with a statement at the snapshot it has, straight
    after a statement at that snapshot or, at whatever snapshot, after [end] has let go of the slot. *)
Inductive called : WorkerAt → WorkerAt → Prop :=
| Call_begin reads : called Idle (BeginHeld reads)
| Call_resume snapshot : called (Running snapshot All) (ResumeHeld snapshot true)
| Call_resume_wider snapshot reads : called (Running snapshot reads) (ResumeHeld snapshot false)
| Call_resume_again snapshot : called (Returned snapshot) (ResumeHeld snapshot false)
| Call_resume_ended snapshot : snapshot < IDLE → called Idle (ResumeHeld snapshot false)
| Call_end at_ : is_Some (runs at_) → called at_ EndSnapshot.

(** Whoever asks has the answer. *)
Definition answered (at_ : AskerAt) : bool :=
  match at_ with
  | Resting | OldestDone _ _ | SnapshotsDone _ _ _ | Advanced _ _ _ | PassedDone _ _ _ _ | KillDone _ => true
  | _ => false
  end.

Inductive asked_next : AskerAt → AskerAt → Prop :=
| Ask_oldest at_ table : asked_next at_ (OldestClock table)
| Ask_snapshots at_ table : asked_next at_ (SnapshotsClock table)
| Ask_advance at_ tables : asked_next at_ (Advancing tables)
| Ask_passed epoch tables ran : asked_next (Advanced epoch tables ran) (PassedSlot epoch tables ran 0)
| Ask_passed_again epoch tables ran yes : asked_next (PassedDone epoch tables ran yes) (PassedSlot epoch tables ran 0)
| Ask_kill at_ held : asked_next at_ (KillClock held).

(** A worker that begins to run has begun its next statement. *)
Definition numbered (at_ : WorkerAt) (n : nat) : nat := match runs at_ with Some _ => S n | None => n end.

Inductive hstep : HWorld → HWorld → Prop :=
| Step_worker clock h ws as_ i at_ n s f at' :
    ws !! i = Some (at_, n) → hz_slots h !! i = Some s →
    worker_step clock (hz_epoch h) s at_ = Some (f, at') →
    hstep (mkHWorld clock h ws as_) (mkHWorld clock (at_slot i f h) (<[i := (at', numbered at' n)]> ws) as_)
| Step_call clock h ws as_ i at_ n at' :
    ws !! i = Some (at_, n) → called at_ at' →
    hstep (mkHWorld clock h ws as_) (mkHWorld clock h (<[i := (at', n)]> ws) as_)
| Step_asker clock h ws as_ j at_ h' at' :
    as_ !! j = Some at_ → asker_step clock h ws at_ = Some (h', at') → hz_epoch h' < IDLE →
    hstep (mkHWorld clock h ws as_) (mkHWorld clock h' ws (<[j := at']> as_))
| Step_ask clock h ws as_ j at_ at' :
    as_ !! j = Some at_ → answered at_ = true → asked_next at_ at' →
    hstep (mkHWorld clock h ws as_) (mkHWorld clock h ws (<[j := at']> as_))
| Step_commit clock h ws as_ clock' :
    clock < clock' < IDLE → hstep (mkHWorld clock h ws as_) (mkHWorld clock' h ws as_).

Definition HWorld_new (workers askers : nat) : HWorld :=
  mkHWorld 0 (Horizons_new workers) (replicate workers (Idle, O)) (replicate askers Resting).
