(* ===== verification/HorizonRace.v ===== *)
(** What the slots promise however the steps of workers and of those who ask interleave: a horizon is
    at or below the snapshot of every statement it should hold back, interval pruning misses no
    snapshot, and an epoch that has passed has no statement of before left. A statement resumed in a
    slot that had let go of its snapshot is held back from by the questions asked once it runs. *)

From S2P Require Import Prelude Horizon.
Local Open Scope Z_scope.

(** * A worker and its slot *)

(** The mark and what a killer has read are no newer than what the slot holds. *)
Definition marks_ok (s : Slot) : Prop :=
  (sl_snapshot s = IDLE ∧ hd_killed (sl_held s) = None ∧ ∀ v, sl_guard s ≠ Seen v)
  ∨ (sl_snapshot s ≠ IDLE
     ∧ (∀ k, hd_killed (sl_held s) = Some k →
          kl_snapshot k ≤ sl_snapshot s ∧ ∀ v, sl_guard s = Seen v → kl_snapshot k ≤ v)
     ∧ ∀ v, sl_guard s = Seen v → v ≤ sl_snapshot s).

Record held_for (s : Slot) (reads : Reads) : Prop := {
  hf_reads : hd_reads (sl_held s) = reads;
  hf_marks : marks_ok s }.

(** A slot that is resumed after it was let go of holds nothing, or the snapshot it is resumed at,
    and so does a killer that has read it. *)
Definition returns_at (s : Slot) (v : Z) : Prop :=
  hd_reads (sl_held s) = All ∧ v < IDLE
  ∧ ((sl_snapshot s = IDLE ∧ ∀ u, sl_guard s ≠ Seen u) ∨ (sl_snapshot s = v ∧ ∀ u, sl_guard s = Seen u → u = v)).

Definition worker_ok (clock epoch : Z) (s : Slot) (at_ : WorkerAt) : Prop :=
  match at_ with
  | Idle | BeginHeld _ | EndEpoch => sl_snapshot s = IDLE
  | EndSnapshot => True
  | BeginEpoch reads => held_for s reads ∧ sl_snapshot s = IDLE
  | BeginPutEpoch reads e => held_for s reads ∧ sl_snapshot s = IDLE ∧ e ≤ epoch
  | BeginClock reads => held_for s reads ∧ sl_epoch s ≤ epoch ∧ (sl_snapshot s = IDLE ∨ sl_snapshot s ≤ clock)
  | BeginPut reads v => held_for s reads ∧ sl_epoch s ≤ epoch ∧ (sl_snapshot s = IDLE ∨ sl_snapshot s ≤ v) ∧ v ≤ clock
  | BeginCheck reads v | Running v reads => held_for s reads ∧ sl_epoch s ≤ epoch ∧ sl_snapshot s = v ∧ v ≤ clock
  | ResumeHeld v true | ResumeEpoch v true | ResumePut v true => held_for s All ∧ sl_epoch s ≤ epoch ∧ sl_snapshot s = v ∧ v ≤ clock
  | ResumePutEpoch v true e => held_for s All ∧ sl_epoch s ≤ epoch ∧ sl_snapshot s = v ∧ v ≤ clock ∧ e ≤ epoch
  | ResumeHeld v false => v < IDLE ∧ (sl_snapshot s = IDLE ∨ sl_snapshot s = v)
  | ResumeEpoch v false => returns_at s v
  | ResumePutEpoch v false e => returns_at s v ∧ e ≤ epoch
  | ResumePut v false => returns_at s v ∧ sl_epoch s ≤ epoch
  | Returned v => returns_at s v ∧ sl_epoch s ≤ epoch ∧ sl_snapshot s = v
  end.

(** The snapshot a worker's statement or transaction has kept from its beginning, and its tables. *)
Definition reading (at_ : WorkerAt) : option (Z * Reads) :=
  match at_ with
  | Running v reads => Some (v, reads)
  | ResumeHeld v true | ResumeEpoch v true | ResumePutEpoch v true _ | ResumePut v true => Some (v, All)
  | _ => None
  end.

Lemma reading_slot clock epoch s at_ v reads :
  worker_ok clock epoch s at_ → reading at_ = Some (v, reads) →
  sl_snapshot s = v ∧ hd_reads (sl_held s) = reads ∧ v ≤ clock ∧ marks_ok s ∧ sl_epoch s ≤ epoch.
Proof.
  destruct at_; try destruct kept; intros H E; (discriminate E || (injection E as <- <-)); cbn [worker_ok] in H; destruct H as ([]&?&?&?); split_and!; intuition (done || lia).
Qed.

Lemma runs_slot clock epoch s at_ v reads :
  worker_ok clock epoch s at_ → runs at_ = Some (v, reads) → sl_epoch s ≤ epoch ∧ hd_reads (sl_held s) = reads ∧ sl_snapshot s = v.
Proof.
  destruct at_; intros H E; (discriminate E || (injection E as <- <-)); cbn [worker_ok] in H; [destruct H as ([]&?&?&?)|destruct H as ((?&?&?)&?&?)]; by split_and!.
Qed.

Lemma worker_later clock clock' epoch epoch' s at_ :
  clock ≤ clock' → epoch ≤ epoch' → worker_ok clock epoch s at_ → worker_ok clock' epoch' s at_.
Proof. intros Hc He. destruct at_; try destruct kept; cbn [worker_ok]; intuition lia. Qed.

Lemma marked_resumed v held : marked (resumed v held) v = marked held v.
Proof. unfold marked at 1, resumed. cbn [hd_killed]. destruct (marked held v) eqn:E; [|done]. exact E. Qed.

Lemma marks_ok_begun s reads v : sl_snapshot s = IDLE → sl_guard s = Free → marks_ok (put_held (mkSlotHeld reads v) s) ↔ v = None.
Proof.
  intros Hi Hg. unfold marks_ok. cbn [put_held sl_snapshot sl_held hd_killed sl_guard]. rewrite Hg. split.
  - intros [(_&E&_)|(Hn&_)]; done.
  - intros ->. left. split_and!; [done|done|]. intros v' ?. done.
Qed.

Lemma marks_ok_put v s :
  marks_ok s → v ≠ IDLE → (sl_snapshot s = IDLE ∨ sl_snapshot s ≤ v) → marks_ok (put_snapshot v s).
Proof.
  intros Hm Hv Hle. right. cbn [put_snapshot sl_snapshot sl_held sl_guard]. split; [done|].
  destruct Hm as [(Hi&Hk&Hg)|(Hn&Hk&Hg)].
  - rewrite Hk. split; [done|]. intros v' E. by apply Hg in E.
  - destruct Hle as [?|Hle]; [done|]. split.
    + intros k Ek. destruct (Hk k Ek). split; [lia|done].
    + intros v' E. apply Hg in E. lia.
Qed.

Lemma marks_ok_resumed v s : marks_ok s → marks_ok (put_held (resumed v (sl_held s)) s).
Proof.
  intros [(Hi&Hk&Hg)|(Hn&Hk&Hg)]; [left|right]; cbn [put_held sl_snapshot sl_held sl_guard resumed hd_killed].
  - rewrite Hk. split_and!; [done|by case_match|done].
  - split_and!; [done| |done]. intros k. case_match; [apply Hk|done].
Qed.

(** The steps of a statement that returns keep its slot so. *)
Lemma returns_at_held v s : sl_guard s = Free → v < IDLE → sl_snapshot s = IDLE ∨ sl_snapshot s = v → returns_at (put_held (resumed v (sl_held s)) s) v.
Proof. intros Hg Hv Hs. split_and!; [done|done|]. cbn [put_held sl_snapshot sl_guard]. rewrite Hg. destruct Hs; [left|right]; by split. Qed.

Lemma returns_at_put v s : returns_at s v → returns_at (put_snapshot v s) v.
Proof.
  intros (Hr&Hv&Hs). split_and!; [done|done|]. right. split; [done|]. cbn [put_snapshot sl_guard]. intros u Hu. destruct Hs as [[_ H]|[_ H]]; [by apply H in Hu|by apply H].
Qed.

(** A worker's own step. *)
Lemma worker_step_ok clock epoch s at_ f at' :
  clock < IDLE → worker_ok clock epoch s at_ → worker_step clock epoch s at_ = Some (f, at') →
  worker_ok clock epoch (f s) at'
  ∧ ∀ v reads, reading at' = Some (v, reads) →
      v = clock ∨ (reading at_ = Some (v, reads) ∧ (marked (sl_held s) v = true → marked (sl_held (f s)) v = true)).
Proof.
  intros Hc Hok. destruct at_ as [|reads|reads|reads e|reads|reads v|reads v|v reads|v|v [|]|v [|]|v [|] e|v [|]| |]; cbn [worker_step worker_ok] in *; try done.
  - destruct (sl_guard s) eqn:Eg; [|done..]. intros [= <- <-]. split; [|done]. split; [|done]. split; [done|]. by apply marks_ok_begun.
  - intros [= <- <-]. split; [|done]. cbn [worker_ok id]. intuition lia.
  - intros [= <- <-]. destruct Hok as ([H1 H2]&H3&H4). split; [|done]. split_and!; [done|done|by left].
  - intros [= <- <-]. split; [|done]. cbn [worker_ok id]. intuition lia.
  - intros [= <- <-]. destruct Hok as ([H1 H2]&H3&H4&H5). split; [|done]. split_and!; [|done|done|done]. split; [done|].
    apply marks_ok_put; [done|lia|done].
  - intros [= <- <-]. destruct (Z.eqb_spec clock v) as [->|Hne].
    + split; [done|]. intros ? ? [= <- <-]. by left.
    + split; [|done]. cbn [worker_ok id]. intuition lia.
  - destruct (sl_guard s) eqn:Eg; [|done..]. intros [= <- <-]. destruct Hok as ([H1 H2]&H3&H4&H5). split.
    + split_and!; [|done..]. split; [done|]. by apply marks_ok_resumed.
    + intros ? ? [= <- <-]. right. split; [done|]. cbn [put_held sl_held]. by rewrite marked_resumed.
  - destruct (sl_guard s) eqn:Eg; [|done..]. intros [= <- <-]. destruct Hok as [Hv Hs]. split; [by apply returns_at_held|done].
  - intros [= <- <-]. split; [cbn [worker_ok id]; intuition lia|]. intros ? ? [= <- <-]. by right.
  - intros [= <- <-]. split; [by split|done].
  - intros [= <- <-]. destruct Hok as ([H1 H2]&H3&H4&H5&H6). split; [by split_and!|]. intros ? ? [= <- <-]. by right.
  - intros [= <- <-]. destruct Hok as [Hr He]. by split.
  - intros [= <- <-]. destruct Hok as ([H1 H2]&H3&H4&H5). split.
    + split_and!; [|done..]. split; [done|]. apply marks_ok_put; [done|lia|]. right. lia.
    + intros ? ? [= <- <-]. by right.
  - intros [= <- <-]. destruct Hok as [Hr He]. split; [split_and!; [by apply returns_at_put|done|done]|done].
  - intros [= <- <-]. done.
  - intros [= <- <-]. done.
Qed.

(** Someone else's step at its slot: the lock changes hands, or a mark is set. *)
Inductive slot_step (s : Slot) : Slot → Prop :=
| Slot_take : sl_guard s = Free → slot_step s (put_guard Taken s)
| Slot_drop : sl_guard s = Taken → slot_step s (put_guard Free s)
| Slot_see : sl_guard s = Taken → sl_snapshot s ≠ IDLE → slot_step s (put_guard (Seen (sl_snapshot s)) s)
| Slot_mark k : sl_guard s = Seen (kl_snapshot k) → slot_step s (put_guard Free (mark k s)).

Lemma slot_step_marks s s' : slot_step s s' → marks_ok s → marks_ok s'.
Proof.
  intros [Hg|Hg|Hg Hn|k Hg] [(Hi&Hk&Hs)|(Hi&Hk&Hs)]; try (by right; split_and!; [done|intros k0 E; destruct (Hk k0 E); by split|]); try done.
  - left. by split_and!.
  - left. by split_and!.
  - right. split_and!; [done| |]; cbn [put_guard sl_snapshot sl_held sl_guard].
    + intros k0 E. destruct (Hk k0 E). split; [done|]. by intros ? [= <-].
    + by intros ? [= <-].
  - exfalso. by apply (Hs (kl_snapshot k)).
  - right. split_and!; [done| |done]. cbn [put_guard mark put_held sl_held hd_killed sl_snapshot]. intros k0 [= <-]. split; [by apply Hs|done].
Qed.

Lemma slot_step_returns s s' v : slot_step s s' → returns_at s v → returns_at s' v.
Proof.
  intros [Hg|Hg|Hg Hn|k Hg] (Hr&Hv&Hs); (split_and!; [done|done|]); cbn [put_guard mark put_held sl_snapshot sl_guard]; destruct Hs as [[Hi Hu]|[Hi Hu]]; try done; [by left|by right|by left|by right|right; split; [done|]; by intros u [= <-]|by apply Hu in Hg|by right].
Qed.

Lemma slot_step_ok clock epoch s s' at_ :
  slot_step s s' → worker_ok clock epoch s at_ →
  worker_ok clock epoch s' at_ ∧ sl_snapshot s' = sl_snapshot s ∧ sl_epoch s' = sl_epoch s ∧ hd_reads (sl_held s') = hd_reads (sl_held s)
  ∧ ∀ v reads, reading at_ = Some (v, reads) → marked (sl_held s) v = true → marked (sl_held s') v = true.
Proof.
  intros Hst Hok. assert (sl_snapshot s' = sl_snapshot s ∧ sl_epoch s' = sl_epoch s ∧ hd_reads (sl_held s') = hd_reads (sl_held s)) as (E1&E2&E3)
    by by destruct Hst.
  assert (∀ reads, held_for s reads → held_for s' reads) as Hh.
  { intros reads [H1 H2]. split; [congruence|]. by eapply slot_step_marks. }
  split_and!; [|done..|].
  - assert (∀ v, returns_at s v → returns_at s' v) as Hret by (intros v; by apply slot_step_returns). destruct at_; try destruct kept; cbn [worker_ok] in *; rewrite ?E1, ?E2; intuition auto.
  - intros v reads Hr Hm. destruct (reading_slot _ _ _ _ _ _ Hok Hr) as (Hv&_&_&Hmk&_). destruct Hst as [Hg|Hg|Hg Hn|k Hg]; [done..|].
    unfold marked in *. cbn [put_guard mark put_held sl_held hd_killed]. destruct (hd_killed (sl_held s)) as [k0|] eqn:Ek; [|done].
    apply Z.eqb_eq in Hm. apply Z.eqb_eq. destruct Hmk as [(_&?&_)|(_&Hk&Hs)]; [congruence|].
    destruct (Hk k0 Ek) as [_ Hk2]. specialize (Hk2 _ Hg). specialize (Hs _ Hg). lia.
Qed.

(** * The world *)

Record world_ok (W : HWorld) : Prop := {
  wk_clock : hw_clock W < IDLE;
  wk_epoch : hz_epoch (hw_h W) < IDLE;
  wk_length : length (hw_workers W) = length (hz_slots (hw_h W));
  wk_workers : ∀ i at_ n s, hw_workers W !! i = Some (at_, n) → hz_slots (hw_h W) !! i = Some s →
    worker_ok (hw_clock W) (hz_epoch (hw_h W)) s at_ }.

(** Worker [i] reads [table] at [v] and is not killed. *)
Definition holds_back (W : HWorld) (table : Z) (i : nat) (v : Z) : Prop :=
  ∃ at_ n s reads, hw_workers W !! i = Some (at_, n) ∧ hz_slots (hw_h W) !! i = Some s
    ∧ reading at_ = Some (v, reads) ∧ Reads_holds reads table = true ∧ marked (sl_held s) v = false.

Definition reads_at (W : HWorld) (i : nat) (v : Z) : Prop :=
  ∃ at_ n reads, hw_workers W !! i = Some (at_, n) ∧ reading at_ = Some (v, reads).

(** Statement [n] of worker [i] is still running. *)
Definition still_runs (W : HWorld) (i n : nat) (reads : Reads) (s : Slot) : Prop :=
  ∃ at_ v, hw_workers W !! i = Some (at_, n) ∧ runs at_ = Some (v, reads) ∧ hz_slots (hw_h W) !! i = Some s.

(** What a step of anyone leaves to whoever asks: who reads after it read before, or reads at the
    clock as it is now. *)
Record evolves (W W' : HWorld) : Prop := {
  ev_clock : hw_clock W ≤ hw_clock W';
  ev_reads : ∀ i v, reads_at W' i v → hw_clock W ≤ v ∨ reads_at W i v;
  ev_back : ∀ table i v, holds_back W' table i v → hw_clock W ≤ v ∨ holds_back W table i v;
  ev_count : ∀ i at_ n, hw_workers W !! i = Some (at_, n) → ∃ at' n', hw_workers W' !! i = Some (at', n') ∧ (n ≤ n')%nat;
  ev_runs : ∀ i at_ m n reads s', hw_workers W !! i = Some (at_, m) → (n ≤ m)%nat → still_runs W' i n reads s' →
    ∃ s, still_runs W i n reads s ∧ sl_epoch s' = sl_epoch s }.

(** A horizon [h] of [table] that has been asked of the slots below [i]. *)
Definition below_readers (W : HWorld) (table h : Z) (slots : nat → Prop) : Prop :=
  h ≤ hw_clock W ∧ ∀ i v, slots i → holds_back W table i v → h ≤ v.

Definition found_readers (W : HWorld) (table upto : Z) (found : list Z) (slots : nat → Prop) : Prop :=
  upto ≤ hw_clock W ∧ ∀ i v, slots i → holds_back W table i v → v ∈ found ∨ upto ≤ v.

(** The statements [ran] that still run are in slots not asked yet, and their epoch is old. *)
Definition ran_ok (W : HWorld) (epoch : Z) (tables : list Z) (ran : list (nat * nat)) (left_ : nat → Prop) : Prop :=
  ∀ i n, (i, n) ∈ ran → (∃ at_ m, hw_workers W !! i = Some (at_, m) ∧ (n ≤ m)%nat)
    ∧ ∀ reads s, still_runs W i n reads s → left_ i ∧ sl_epoch s ≤ epoch ∧ Reads_meets reads tables = true.

Definition asker_ok (W : HWorld) (at_ : AskerAt) : Prop :=
  match at_ with
  | OldestSlot table i h => below_readers W table h (λ j, (j < i)%nat)
  | OldestHeld table i h v => below_readers W table h (λ j, (j < i)%nat) ∧ v < h ∧ ∀ u, reads_at W i u → u = v ∨ h ≤ u
  | OldestDone table h => below_readers W table h (λ _, True)
  | SnapshotsSlot table upto i found => found_readers W table upto found (λ j, (j < i)%nat)
  | SnapshotsHeld table upto i found v =>
      found_readers W table upto found (λ j, (j < i)%nat) ∧ ∀ u, reads_at W i u → u = v ∨ upto ≤ u
  | SnapshotsDone table upto found => found_readers W table upto found (λ _, True) ∧ StronglySorted Z.le found
  | Advanced epoch tables ran => ran_ok W epoch tables ran (λ _, True)
  | PassedSlot epoch tables ran i | PassedHeld epoch tables ran i => ran_ok W epoch tables ran (λ j, (i ≤ j)%nat)
  | PassedDone epoch tables ran yes => ran_ok W epoch tables ran (λ _, yes = false)
  | _ => True
  end.

Lemma below_evolves W W' table h slots : evolves W W' → below_readers W table h slots → below_readers W' table h slots.
Proof.
  intros [H1 H2 H3 H4 H5] [Hc Hb]. split; [lia|]. intros i v Hi Hv. destruct (H3 _ _ _ Hv) as [?|?]; [lia|by apply (Hb i)].
Qed.

Lemma found_evolves W W' table upto found slots :
  evolves W W' → found_readers W table upto found slots → found_readers W' table upto found slots.
Proof.
  intros [H1 H2 H3 H4 H5] [Hc Hb]. split; [lia|]. intros i v Hi Hv. destruct (H3 _ _ _ Hv) as [?|?]; [right; lia|by apply (Hb i)].
Qed.

Lemma ran_evolves W W' epoch tables ran left_ : evolves W W' → ran_ok W epoch tables ran left_ → ran_ok W' epoch tables ran left_.
Proof.
  intros [H1 H2 H3 H4 H5] Hr i n Hin. destruct (Hr i n Hin) as [(at_&m&Hm&Hle) Hs]. split.
  - destruct (H4 _ _ _ Hm) as (at'&m'&Hm'&?). exists at', m'. split; [done|lia].
  - intros reads s' Hs'. destruct (H5 _ _ _ _ _ _ Hm Hle Hs') as (s&Hst&->). by apply Hs.
Qed.

Lemma asker_evolves W W' at_ : evolves W W' → asker_ok W at_ → asker_ok W' at_.
Proof.
  intros Hev. destruct at_; cbn [asker_ok]; try done; try (by apply below_evolves); try (by apply found_evolves); try (by apply ran_evolves).
  - intros (Hb&Hlt&Hu). split_and!; [by eapply below_evolves|done|]. intros u Hr. destruct Hb as [Hc _].
    destruct (ev_reads _ _ Hev _ _ Hr) as [?|?]; [right; lia|auto].
  - intros (Hb&Hu). split; [by eapply found_evolves|]. intros u Hr. destruct Hb as [Hc _].
    destruct (ev_reads _ _ Hev _ _ Hr) as [?|?]; [right; lia|auto].
  - intros [Hb Hs]. split; [by eapply found_evolves|done].
Qed.

(** ** Every step *)

Lemma alter_known {A} (f : A → A) (l : list A) i x : l !! i = Some x → alter f i l = <[i := f x]> l.
Proof. revert i. induction l as [|y l IH]; intros [|i] E; [done..|by injection E as ->|]. cbn. f_equal. by apply IH. Qed.

Section at_one.
Context (clock : Z) (h : Horizons) (ws : list (WorkerAt * nat)) (as_ as' : list AskerAt).
Context (Hok : world_ok (mkHWorld clock h ws as_)).

(** Worker [i] or its slot changes. *)
Lemma evolve_slot i at_ n s at' n' s' :
  ws !! i = Some (at_, n) → hz_slots h !! i = Some s → worker_ok clock (hz_epoch h) s' at' →
  (∀ v reads, reading at' = Some (v, reads) →
     v = clock ∨ (reading at_ = Some (v, reads) ∧ (marked (sl_held s) v = true → marked (sl_held s') v = true))) →
  (n ≤ n')%nat → (is_Some (runs at') → n' = n → at_ = at' ∧ sl_epoch s' = sl_epoch s) →
  let W' := mkHWorld clock (mkHorizons (<[i := s']> (hz_slots h)) (hz_epoch h)) (<[i := (at', n')]> ws) as' in
  world_ok W' ∧ evolves (mkHWorld clock h ws as_) W'.
Proof.
  intros Hw Hs Hok' Hr Hn Hrun. destruct Hok as [K1 K2 K3 K4]. cbn [hw_clock hw_h hw_workers hw_askers] in *.
  pose proof (lookup_lt_Some _ _ _ Hw) as Hlw. pose proof (lookup_lt_Some _ _ _ Hs) as Hls.
  split.
  { split; cbn [hw_clock hw_h hw_workers hz_slots hz_epoch]; [done|done|by rewrite !length_insert|].
    intros j x m y Hx Hy. destruct (decide (j = i)) as [->|Hne].
    - rewrite list_lookup_insert_eq in Hx by done; rewrite list_lookup_insert_eq in Hy by done. by injection Hx as -> ->; injection Hy as ->.
    - rewrite list_lookup_insert_ne in Hx by done; rewrite list_lookup_insert_ne in Hy by done. by eapply K4. }
  split; unfold reads_at, holds_back, still_runs; cbn [hw_clock hw_h hw_workers hz_slots]; [done|..].
  - intros j v (x&m&reads&Hx&Hv). destruct (decide (j = i)) as [->|Hne].
    + rewrite list_lookup_insert_eq in Hx by done. injection Hx as -> ->. destruct (Hr v reads Hv) as [->|[? _]]; [left; lia|right; by exists at_, n, reads].
    + rewrite list_lookup_insert_ne in Hx by done. right. by exists x, m, reads.
  - intros table j v (x&m&y&reads&Hx&Hy&Hv&Ht&Hm). destruct (decide (j = i)) as [->|Hne].
    + rewrite list_lookup_insert_eq in Hx by done; rewrite list_lookup_insert_eq in Hy by done. injection Hx as -> ->. injection Hy as ->.
      destruct (Hr v reads Hv) as [->|[? Hmk]]; [left; lia|]. right. exists at_, n, s, reads. split_and!; [done..|].
      destruct (marked (sl_held s) v); [by rewrite Hmk in Hm|done].
    + rewrite list_lookup_insert_ne in Hx by done; rewrite list_lookup_insert_ne in Hy by done. right. by exists x, m, y, reads.
  - intros j x m Hx. destruct (decide (j = i)) as [->|Hne].
    + rewrite list_lookup_insert_eq by done. rewrite Hw in Hx. injection Hx as -> ->. eauto.
    + rewrite list_lookup_insert_ne by done. eauto.
  - intros j x m k reads y Hx Hk (z&v&Hv&Hz&Hy). destruct (decide (j = i)) as [->|Hne].
    + rewrite list_lookup_insert_eq in Hv by done; rewrite list_lookup_insert_eq in Hy by done. injection Hv as -> ->. injection Hy as ->. rewrite Hw in Hx. injection Hx as -> ->.
      destruct (Hrun ltac:(by eexists) ltac:(lia)) as [-> ->]. exists s. split; [|done]. exists z, v. split_and!; [|done|done]. rewrite Hw. f_equal. f_equal. lia.
    + rewrite list_lookup_insert_ne in Hv by done; rewrite list_lookup_insert_ne in Hy by done. exists y. split; [|done]. by exists z, v.
Qed.

Lemma evolve_same : world_ok (mkHWorld clock h ws as') ∧ evolves (mkHWorld clock h ws as_) (mkHWorld clock h ws as').
Proof. destruct Hok as [K1 K2 K3 K4]. split; [by split|]. split; [done|by right|by right|eauto|eauto]. Qed.

Lemma evolve_clock clock' : clock ≤ clock' < IDLE →
  world_ok (mkHWorld clock' h ws as_) ∧ evolves (mkHWorld clock h ws as_) (mkHWorld clock' h ws as_).
Proof.
  intros Hc. destruct Hok as [K1 K2 K3 K4]. split.
  - split; [cbn; lia|done|done|]. intros i at_ n s Hi Hs. eapply worker_later; [| |by eapply K4]; cbn; lia.
  - split; [cbn; lia|by right|by right|eauto|eauto].
Qed.

Lemma evolve_epoch epoch' : hz_epoch h ≤ epoch' < IDLE →
  let W' := mkHWorld clock (mkHorizons (hz_slots h) epoch') ws as' in
  world_ok W' ∧ evolves (mkHWorld clock h ws as_) W'.
Proof.
  intros He. destruct Hok as [K1 K2 K3 K4]. split.
  - split; [done|cbn; lia|done|]. intros i at_ n s Hi Hs. eapply worker_later; [| |by eapply K4]; cbn; lia.
  - split; [done|by right|by right|eauto|eauto].
Qed.

Lemma evolve_guard i s s' : hz_slots h !! i = Some s → slot_step s s' →
  let W' := mkHWorld clock (mkHorizons (<[i := s']> (hz_slots h)) (hz_epoch h)) ws as' in
  world_ok W' ∧ evolves (mkHWorld clock h ws as_) W'.
Proof.
  intros Hs Hst. pose proof (wk_length _ Hok) as Hl. cbn in Hl.
  destruct (lookup_lt_is_Some_2 ws i) as [[at_ n] Hw]; [rewrite Hl; by eapply lookup_lt_Some|].
  pose proof (wk_workers _ Hok i at_ n s Hw Hs) as Hws. cbn in Hws.
  destruct (slot_step_ok _ _ _ _ _ Hst Hws) as (Hws'&_&He&_&Hm).
  pose proof (evolve_slot i at_ n s at_ n s' Hw Hs Hws') as H. rewrite (list_insert_id ws) in H by done. apply H; [|done|done].
  intros v reads Hr. right. split; [done|]. by eapply Hm.
Qed.
End at_one.

(** ** Whoever asks *)

Section asking.
Context {W : HWorld} (Hok : world_ok W).

Lemma reads_at_slot i s v : hz_slots (hw_h W) !! i = Some s → reads_at W i v → v = sl_snapshot s.
Proof.
  intros Hs (at_&n&reads&Hw&Hr). by destruct (reading_slot _ _ _ _ _ _ (wk_workers _ Hok _ _ _ _ Hw Hs) Hr) as [? _].
Qed.

Lemma holds_back_reads table i v : holds_back W table i v → reads_at W i v.
Proof. intros (at_&n&s&reads&?&?&?&?). by exists at_, n, reads. Qed.

Lemma holds_back_slot table i s v :
  hz_slots (hw_h W) !! i = Some s → holds_back W table i v → sl_snapshot s = v ∧ v ≠ IDLE ∧ Held_holds (sl_held s) table v = true.
Proof.
  intros Hs (at_&n&s'&reads&Hw&Hs'&Hr&Ht&Hm). rewrite Hs in Hs'. injection Hs' as <-.
  destruct (reading_slot _ _ _ _ _ _ (wk_workers _ Hok _ _ _ _ Hw Hs) Hr) as (E&Er&Hle&_). pose proof (wk_clock _ Hok).
  split_and!; [done|lia|]. unfold Held_holds. by rewrite Er, Ht, Hm.
Qed.

End asking.

Lemma below_all W table h i :
  hz_slots (hw_h W) !! i = None → below_readers W table h (λ j, (j < i)%nat) → below_readers W table h (λ _, True).
Proof.
  intros Hn%lookup_ge_None [Hc Hb]. split; [done|]. intros j v _ Hv. apply (Hb j); [|done]. destruct Hv as (?&?&?&?&_&Hs%lookup_lt_Some&_). lia.
Qed.

Lemma found_all W table upto found i :
  hz_slots (hw_h W) !! i = None → found_readers W table upto found (λ j, (j < i)%nat) → found_readers W table upto found (λ _, True).
Proof.
  intros Hn%lookup_ge_None [Hc Hb]. split; [done|]. intros j v _ Hv. apply (Hb j); [|done]. destruct Hv as (?&?&?&?&_&Hs%lookup_lt_Some&_). lia.
Qed.

(** One slot more has been asked. *)
Lemma below_next W table h i :
  below_readers W table h (λ j, (j < i)%nat) → (∀ v, holds_back W table i v → h ≤ v) → below_readers W table h (λ j, (j < S i)%nat).
Proof.
  intros [Hc Hb] Hi. split; [done|]. intros j v Hj Hv. destruct (decide (j = i)) as [->|]; [auto|]. apply (Hb j); [lia|done].
Qed.

Lemma found_next W table upto found found' i :
  found_readers W table upto found (λ j, (j < i)%nat) → found ⊆ found' → (∀ v, holds_back W table i v → v ∈ found' ∨ upto ≤ v) →
  found_readers W table upto found' (λ j, (j < S i)%nat).
Proof.
  intros [Hc Hb] Hsub Hi. split; [done|]. intros j v Hj Hv. destruct (decide (j = i)) as [->|]; [auto|].
  destruct (Hb j v) as [?|?]; [lia|done|left; auto|by right].
Qed.

Lemma ran_next W epoch tables ran i :
  ran_ok W epoch tables ran (λ j, (i ≤ j)%nat) →
  (∀ n reads s, still_runs W i n reads s → sl_epoch s ≤ epoch → Reads_meets reads tables = true → False) →
  ran_ok W epoch tables ran (λ j, (S i ≤ j)%nat).
Proof.
  intros Hr Hi j n Hin. destruct (Hr j n Hin) as [H1 H2]. split; [done|]. intros reads s Hs. destruct (H2 reads s Hs) as (Hle&He&Hm).
  split_and!; [|done..]. destruct (decide (j = i)) as [->|]; [|lia]. by destruct (Hi n reads s).
Qed.

Lemma all_running_ok clock h ws as_ tables :
  world_ok (mkHWorld clock h ws as_) → ran_ok (mkHWorld clock h ws as_) (hz_epoch h) tables (all_running tables ws) (λ _, True).
Proof.
  intros Hok i n Hin. unfold all_running in Hin. apply list_elem_of_omap in Hin as (x&Hx&E). cbn in E. subst x.
  apply list_elem_of_lookup in Hx as [k Hk]. rewrite list_lookup_imap in Hk. apply fmap_Some in Hk as ([at_ m]&Hw&E).
  unfold running_on in E. cbn [fst snd] in E. symmetry in E. apply bind_Some in E as ([v reads]&Er&E).
  destruct (Reads_meets reads tables) eqn:Em; [|done]. injection E as -> ->. cbn [hw_workers]. split; [by exists at_, n|].
  intros reads' s (at'&v'&Hw'&Hr'&Hs). cbn [hw_workers hw_h] in *. rewrite Hw in Hw'. injection Hw' as <-. rewrite Er in Hr'. injection Hr' as <- <-. split_and!; [done| |done].
  by destruct (runs_slot _ _ _ _ _ _ (wk_workers _ Hok _ _ _ _ Hw Hs) Er).
Qed.

(** The answers of someone who only reads the slots. *)
Lemma asker_reads clock h ws as_ at_ at' :
  world_ok (mkHWorld clock h ws as_) → asker_ok (mkHWorld clock h ws as_) at_ →
  asker_step clock h ws at_ = Some (h, at') → (∀ tables, at_ ≠ Advancing tables) → asker_ok (mkHWorld clock h ws as_) at'.
Proof.
  set (W := mkHWorld clock h ws as_). intros Hok Ha Hst Hadv.
  destruct at_ as [|table|table i acc|table i acc v|table acc|table|table upto i found|table upto i found v|table upto found
    |tables|epoch tables ran|epoch tables ran i|epoch tables ran i|epoch tables ran yes|held|now held i best|now held i best v|now held i|now held i|k];
    cbn [asker_step asker_ok] in *; try done.
  - injection Hst as <-. split; [done|]. intros j v Hj. lia.
  - destruct (hz_slots h !! i) as [s|] eqn:Es; injection Hst as <-; [|by apply (below_all W table acc i)].
    destruct (Z.ltb_spec (sl_snapshot s) acc) as [Hlt|Hge]; cbn [asker_ok].
    + split_and!; [done|done|]. intros u Hu. left. by apply (reads_at_slot Hok i s).
    + apply below_next; [done|]. intros v Hv. destruct (holds_back_slot Hok table i s v Es Hv). lia.
  - destruct (hz_slots h !! i) as [s|] eqn:Es; [|done]. cbn [mbind option_bind] in Hst. destruct (sl_guard s); [|done..]. injection Hst as <-.
    destruct Ha as (Hb&Hlt&Hu). cbn [asker_ok]. destruct (Held_holds (sl_held s) table v) eqn:Eh; cbn [asker_ok].
    + apply below_next; [destruct Hb as [Hc Hb]; split; [lia|intros j w Hj Hw; specialize (Hb j w Hj Hw); lia]|].
      intros w Hw. destruct (Hu w) as [->|?]; [by eapply holds_back_reads|lia|lia].
    + apply below_next; [done|]. intros w Hw. destruct (Hu w) as [->|?]; [by eapply holds_back_reads| |done].
      destruct (holds_back_slot Hok table i s v Es Hw) as (_&_&?). congruence.
  - injection Hst as <-. split; [done|]. intros j v Hj. lia.
  - destruct (hz_slots h !! i) as [s|] eqn:Es; injection Hst as <-; cbn [asker_ok].
    + destruct (Z.eqb_spec (sl_snapshot s) IDLE) as [Hi|Hn]; cbn [asker_ok].
      * eapply found_next; [done|done|]. intros v Hv. destruct (holds_back_slot Hok table i s v Es Hv) as (?&?&_). congruence.
      * split; [done|]. intros u Hu. left. by apply (reads_at_slot Hok i s).
    + split; [|apply StronglySorted_merge_sort; [intros x y z; lia|intros x y; lia]]. destruct (found_all W table upto found i Es Ha) as [Hc Hb].
      split; [done|]. intros j v Hj Hv. destruct (Hb j v Hj Hv) as [?|?]; [left|by right]. by rewrite merge_sort_Permutation.
  - destruct (hz_slots h !! i) as [s|] eqn:Es; [|done]. cbn [mbind option_bind] in Hst. destruct (sl_guard s); [|done..]. injection Hst as <-.
    destruct Ha as (Hb&Hu). cbn [asker_ok]. eapply found_next; [done|case_match; [intros x; set_solver|done]|].
    intros w Hw. destruct (Hu w) as [->|?]; [by eapply holds_back_reads| |by right].
    destruct (holds_back_slot Hok table i s v Es Hw) as (_&_&->). left. set_solver.
  - by destruct (Hadv tables).
  - destruct (hz_slots h !! i) as [s|] eqn:Es; injection Hst as <-; cbn [asker_ok].
    + destruct (_ || _) eqn:Ee; cbn [asker_ok]; [|done]. apply ran_next; [done|]. intros n reads s' (at'&v&Hw&Hr&Hs') He _.
      cbn [W hw_h hw_workers] in *. rewrite Es in Hs'. injection Hs' as <-. destruct (runs_slot _ _ _ _ _ _ (wk_workers _ Hok _ _ _ _ Hw Es) Hr) as [He' _]. pose proof (wk_epoch _ Hok).
      cbn [hw_h] in *. apply orb_true_iff in Ee as [?%Z.eqb_eq|?%Z.ltb_lt]; lia.
    + intros j n Hin. destruct (Ha j n Hin) as [H1 H2]. split; [done|]. intros reads s Hs. destruct (H2 reads s Hs) as (Hle&_).
      apply lookup_ge_None in Es. destruct Hs as (?&v&_&_&Hs%lookup_lt_Some). cbn [W hw_h] in Hs. lia.
  - destruct (hz_slots h !! i) as [s|] eqn:Es; [|done]. cbn [mbind option_bind] in Hst. destruct (sl_guard s); [|done..]. injection Hst as <-.
    destruct (Reads_meets (hd_reads (sl_held s)) tables) eqn:Em; cbn [asker_ok].
    + intros j n Hin. destruct (Ha j n Hin) as [H1 H2]. split; [done|]. intros reads s' Hs. destruct (H2 reads s' Hs) as (_&?&?). by split_and!.
    + apply ran_next; [done|]. intros n reads s' (at'&v&Hw&Hr&Hs') _ Hm. cbn [W hw_h hw_workers] in *. rewrite Es in Hs'. injection Hs' as <-.
      destruct (runs_slot _ _ _ _ _ _ (wk_workers _ Hok _ _ _ _ Hw Es) Hr) as (_&?&_). congruence.
  - by injection Hst as <-.
  - destruct (hz_slots h !! i); injection Hst as <-; [done|]. by destruct best as [[]|].
  - destruct (hz_slots h !! i) as [s|] eqn:Es; [|done]. cbn [mbind option_bind] in Hst. by destruct (sl_guard s); [injection Hst as <-|..].
  - destruct (hz_slots h !! i) as [s|] eqn:Es; [|done]. cbn [mbind option_bind] in Hst. by destruct (sl_guard s); [injection Hst as _ <-|..].
  - destruct (hz_slots h !! i) as [s|] eqn:Es; [|done]. cbn [mbind option_bind] in Hst. destruct (sl_guard s); [done|..].
    + by destruct (sl_snapshot s =? IDLE); injection Hst as _ <-.
    + by injection Hst as _ <-.
Qed.

(** What an asker's step changes of the slots. *)
Inductive asker_changes (h : Horizons) : Horizons → AskerAt → AskerAt → Prop :=
| Asker_same at_ at' : (∀ tables, at_ ≠ Advancing tables) → asker_changes h h at_ at'
| Asker_guard i s s' at_ at' :
    hz_slots h !! i = Some s → slot_step s s' → (∀ W, asker_ok W at') →
    asker_changes h (mkHorizons (<[i := s']> (hz_slots h)) (hz_epoch h)) at_ at'
| Asker_epoch tables ran :
    asker_changes h (mkHorizons (hz_slots h) (wrap 64 (hz_epoch h + 1))) (Advancing tables) (Advanced (hz_epoch h) tables ran).

Lemma asker_step_changes clock h ws at_ h' at' :
  asker_step clock h ws at_ = Some (h', at') → asker_changes h h' at_ at'.
Proof.
  destruct at_ as [|table|table i acc|table i acc v|table acc|table|table upto i found|table upto i found v|table upto found
    |tables|epoch tables ran|epoch tables ran i|epoch tables ran i|epoch tables ran yes|held|now held i best|now held i best v|now held i|now held i|k];
    cbn [asker_step advance]; intros Hst; try done; try (injection Hst as <- <-; by constructor).
  all: destruct (hz_slots h !! i) as [s|] eqn:Es; cbn [mbind option_bind] in Hst; try done; try (injection Hst as <- <-; by constructor).
  all: destruct (sl_guard s) as [| |v'] eqn:Eg; try done; try (injection Hst as <- <-; by constructor).
  - injection Hst as <- <-. unfold at_slot. rewrite (alter_known _ _ _ _ Es). by eapply Asker_guard; [done|apply Slot_take|].
  - destruct (Z.eqb_spec (sl_snapshot s) IDLE); injection Hst as <- <-; unfold at_slot; rewrite (alter_known _ _ _ _ Es).
    + by eapply Asker_guard; [done|apply Slot_drop|].
    + by eapply Asker_guard; [done|apply Slot_see|].
  - injection Hst as <- <-. unfold at_slot. rewrite (alter_known _ _ _ _ Es). by eapply Asker_guard; [done|apply Slot_mark|].
Qed.

Lemma asker_step_ok clock h ws as_ as' at_ h' at' :
  world_ok (mkHWorld clock h ws as_) → asker_ok (mkHWorld clock h ws as_) at_ →
  asker_step clock h ws at_ = Some (h', at') → hz_epoch h' < IDLE → 0 ≤ hz_epoch h →
  let W' := mkHWorld clock h' ws as' in
  world_ok W' ∧ evolves (mkHWorld clock h ws as_) W' ∧ asker_ok W' at'.
Proof.
  intros Hok Ha Hst He H0. pose proof (asker_step_changes _ _ _ _ _ _ Hst) as Hch. inversion Hch as [a1 a2 Hna|i s s' a1 a2 Hs Hss Hn|tables ran]; subst.
  - destruct (evolve_same clock h' ws as_ as' Hok) as [H1 H2]. split_and!; [done|done|]. eapply asker_evolves; [exact H2|].
    by apply (asker_reads _ _ _ _ at_).
  - destruct (evolve_guard clock h ws as_ as' Hok i s s' Hs Hss) as [H1 H2]. by split_and!.
  - cbn [asker_step advance] in Hst. injection Hst as <-. pose proof (wk_epoch _ Hok) as Hep. cbn [hw_h hz_epoch] in *.
    assert (wrap 64 (hz_epoch h + 1) = hz_epoch h + 1) as Ew by (apply wrap_id; unfold fits, IDLE in *; lia). rewrite Ew in *.
    destruct (evolve_epoch clock h ws as_ as' Hok (hz_epoch h + 1)) as [H1 H2]; [lia|]. split_and!; [done|done|].
    eapply asker_evolves; [exact H2|]. by apply all_running_ok.
Qed.

Definition history_ok (W : HWorld) : Prop :=
  world_ok W ∧ 0 ≤ hz_epoch (hw_h W) ∧ ∀ j at_, hw_askers W !! j = Some at_ → asker_ok W at_.

(** The askers but one are as they were. *)
Lemma askers_evolve W W' j at' :
  evolves W W' → hw_askers W' = <[j := at']> (hw_askers W) → (∀ k at_, hw_askers W !! k = Some at_ → asker_ok W at_) → asker_ok W' at' →
  ∀ k at_, hw_askers W' !! k = Some at_ → asker_ok W' at_.
Proof.
  intros Hev E Hall Hat k at_ Hk. rewrite E in Hk. apply list_lookup_insert_Some in Hk as [(<-&<-&_)|[_ Hk]]; [done|].
  eapply asker_evolves; [exact Hev|]. by eapply Hall.
Qed.

Lemma called_ok clock epoch s at_ at' : clock < IDLE → called at_ at' → worker_ok clock epoch s at_ →
  worker_ok clock epoch s at' ∧ (∀ v reads, reading at' = Some (v, reads) → reading at_ = Some (v, reads)) ∧ runs at' = None.
Proof.
  intros Hclock [reads|v|v reads|v|v Hv|at1 Hr] H; cbn [worker_ok] in H |- *; (split; [|split; done]); try done.
  - destruct H as (_&_&->&Hle). split; [lia|by right].
  - destruct H as ((_&?&_)&_&->). split; [done|by right].
  - split; [done|by left].
Qed.

Lemma hstep_ok W W' : hstep W W' → history_ok W → history_ok W'.
Proof.
  intros Hst (Hok&H0&Hall). destruct Hst as [clock h ws as_ i at_ n s f at' Hw Hs Hstep|clock h ws as_ i at_ n at' Hw Hc
    |clock h ws as_ j at_ h' at' Hj Hstep He|clock h ws as_ j at_ at' Hj Hans Hask|clock h ws as_ clock' Hc].
  - pose proof (wk_workers _ Hok _ _ _ _ Hw Hs) as Hws. pose proof (wk_clock _ Hok) as Hcl. cbn [hw_clock hw_h] in *.
    destruct (worker_step_ok _ _ _ _ _ _ Hcl Hws Hstep) as [Hws' Hr]. unfold at_slot. rewrite (alter_known _ _ _ _ Hs).
    destruct (evolve_slot clock h ws as_ as_ Hok i at_ n s at' (numbered at' n) (f s)) as [H1 H2]; [done..| | |].
    + unfold numbered. case_match; lia.
    + intros [x Hx] E. unfold numbered in E. rewrite Hx in E. lia.
    + split_and!; [done|done|]. intros k a Hk. eapply asker_evolves; [exact H2|]. by eapply Hall.
  - pose proof (lookup_lt_Some _ _ _ Hw) as Hlt. pose proof (wk_length _ Hok) as Hl. cbn in Hl.
    destruct (lookup_lt_is_Some_2 (hz_slots h) i) as [s Hs]; [lia|]. pose proof (wk_workers _ Hok _ _ _ _ Hw Hs) as Hws. cbn [hw_clock hw_h] in Hws.
    destruct (called_ok _ _ _ _ _ (wk_clock _ Hok) Hc Hws) as (Hws'&Hr&Hnr).
    destruct (evolve_slot clock h ws as_ as_ Hok i at_ n s at' n s) as [H1 H2]; [done..| |done|intros [x Hx]; congruence|].
    { intros v reads E. right. split; [by apply Hr|done]. }
    rewrite (list_insert_id (hz_slots h)) in H1, H2 by done. destruct h as [slots epoch].
    split_and!; [done|done|]. intros k a Hk. eapply asker_evolves; [exact H2|]. by eapply Hall.
  - destruct (asker_step_ok clock h ws as_ (<[j := at']> as_) at_ h' at') as (H1&H2&H3); [done|by eapply Hall|done..|].
    split_and!; [done| |by eapply askers_evolve]. cbn [hw_h]. apply asker_step_changes in Hstep. destruct Hstep; [done..|].
    cbn [hz_epoch]. apply Z.mod_pos_bound. lia.
  - destruct (evolve_same clock h ws as_ (<[j := at']> as_) Hok) as [H1 H2]. split_and!; [done|done|].
    eapply askers_evolve; [exact H2|done|done|]. pose proof (Hall j at_ Hj) as Ha. eapply asker_evolves; [exact H2|].
    destruct Hask; try done; cbn [asker_ok] in *; intros i n Hin; destruct (Ha i n Hin) as [E1 E2]; (split; [done|]);
      intros reads s Hrun; destruct (E2 reads s Hrun) as (_&?&?); split_and!; (lia || done).
  - destruct (evolve_clock clock h ws as_ Hok clock') as [H1 H2]; [lia|]. split_and!; [done|done|].
    intros k a Hk. eapply asker_evolves; [exact H2|]. by eapply Hall.
Qed.

Lemma history_new workers askers : history_ok (HWorld_new workers askers).
Proof.
  unfold HWorld_new, Horizons_new. split_and!; cbn [hw_h hz_epoch hw_askers]; [|lia|].
  - split; cbn [hw_clock hw_h hz_epoch hw_workers hz_slots]; [done|done|by rewrite !length_replicate|].
    intros i at_ n s Hw Hs. apply lookup_replicate in Hw as [E _]. injection E as -> ->. by apply lookup_replicate in Hs as [-> _].
  - intros j at_ Hj. by apply lookup_replicate in Hj as [-> _].
Qed.

Lemma history_reached workers askers W : rtc hstep (HWorld_new workers askers) W → history_ok W.
Proof.
  intros Hr. pose proof (history_new workers askers) as H0. revert H0. induction Hr as [|W1 W2 W3 Hst _ IH]; [done|].
  intros H. by apply IH, (hstep_ok W1).
Qed.

(** * Theorems *)

Lemma too_old_none W i s : hz_slots (hw_h W) !! i = Some s → too_old i (hw_h W) = None → marked (sl_held s) (sl_snapshot s) = false.
Proof.
  intros Hs. unfold too_old. rewrite Hs. cbn [mbind option_bind]. unfold marked. destruct (hd_killed (sl_held s)) as [k|]; [|done].
  by destruct (kl_snapshot k =? sl_snapshot s).
Qed.

Lemma running_holds_back W table i v reads n :
  world_ok W → hw_workers W !! i = Some (Running v reads, n) → Reads_holds reads table = true → too_old i (hw_h W) = None →
  holds_back W table i v.
Proof.
  intros Hok Hw Ht Ho. pose proof (lookup_lt_Some _ _ _ Hw) as Hlt. rewrite (wk_length _ Hok) in Hlt.
  destruct (lookup_lt_is_Some_2 _ _ Hlt) as [s Hs]. pose proof (wk_workers _ Hok _ _ _ _ Hw Hs) as (_&_&Hv&_).
  exists (Running v reads), n, s, reads. split_and!; [done..|]. rewrite <-Hv. by apply (too_old_none W i).
Qed.

(** Interval pruning misses no snapshot: whatever interleaves with [Horizons::snapshots], its
    answer is in order, and a statement on the table that runs now, at a snapshot it has kept from its
    beginning, and was not killed has its snapshot in it, or one at or past what the clock held before
    the question. *)
Theorem snapshots_miss_no_reader workers askers W j table upto found i v reads n :
  rtc hstep (HWorld_new workers askers) W →
  hw_askers W !! j = Some (SnapshotsDone table upto found) → hw_workers W !! i = Some (Running v reads, n) →
  Reads_holds reads table = true → too_old i (hw_h W) = None →
  StronglySorted Z.le found ∧ (v ∈ found ∨ upto ≤ v).
Proof.
  intros (Hok&_&Hall)%history_reached Hj Hw Ht Ho. destruct (Hall _ _ Hj) as [[_ Hb] Hs]. split; [done|].
  apply (Hb i v I). by eapply running_holds_back.
Qed.

(** An epoch that has passed is over: when [Horizons::passed] answers yes for the epoch
    [advance] ended and some tables, no statement on one of those tables that was running when the
    epoch ended is running any more, so nobody is left who could reach what was cut out of its
    chains before, and the memory may be used again. *)
Theorem passed_epoch_is_over workers askers W j epoch tables ran i n at_ :
  rtc hstep (HWorld_new workers askers) W →
  hw_askers W !! j = Some (PassedDone epoch tables ran true) → (i, n) ∈ ran → is_Some (runs at_) → hw_workers W !! i ≠ Some (at_, n).
Proof.
  intros (Hok&_&Hall)%history_reached Hj Hin [[v reads] Hr] Hw. pose proof (lookup_lt_Some _ _ _ Hw) as Hlt. rewrite (wk_length _ Hok) in Hlt.
  destruct (lookup_lt_is_Some_2 _ _ Hlt) as [s Hs]. destruct (Hall _ _ Hj i n Hin) as [_ H].
  destruct (H reads s) as [? _]; [by exists at_, v|done].
Qed.

(** * Schedules *)

Inductive Choice : Type :=
| Work (i : nat)
| Call (i : nat) (at_ : WorkerAt)
| Answer (j : nat)
| Ask (j : nat) (at_ : AskerAt)
| Tick (clock : Z).

Definition may_call (at_ at' : WorkerAt) : bool :=
  match at_, at' with
  | Idle, BeginHeld _ => true
  | Running v All, ResumeHeld v' true => v =? v'
  | Running v _, ResumeHeld v' false | Returned v, ResumeHeld v' false => v =? v'
  | Idle, ResumeHeld v false => v <? IDLE
  | Running _ _, EndSnapshot | Returned _, EndSnapshot => true
  | _, _ => false
  end.

Lemma may_call_spec at_ at' : may_call at_ at' = true → called at_ at'.
Proof.
  destruct at_ as [| | | | | | |v [|]| | | | | | |], at' as [| | | | | | | | |v' [|]| | | | |]; try done; cbn [may_call]; intros E; try apply Z.eqb_eq in E as <-; try apply Z.ltb_lt in E; try (by constructor).
  all: apply Call_end; by eexists.
Qed.

Definition may_ask (at_ at' : AskerAt) : bool :=
  match at_, at' with
  | _, OldestClock _ | _, SnapshotsClock _ | _, Advancing _ | _, KillClock _ => true
  | Advanced e ts ran, PassedSlot e' ts' ran' O | PassedDone e ts ran _, PassedSlot e' ts' ran' O =>
      (e =? e') && bool_decide (ts = ts') && bool_decide (ran = ran')
  | _, _ => false
  end.

Definition choose (c : Choice) (W : HWorld) : option HWorld :=
  let '(mkHWorld clock h ws as_) := W in
  match c with
  | Work i =>
      '(at_, n) ← ws !! i; s ← hz_slots h !! i; '(f, at') ← worker_step clock (hz_epoch h) s at_;
      Some (mkHWorld clock (at_slot i f h) (<[i := (at', numbered at' n)]> ws) as_)
  | Call i at' =>
      '(at_, n) ← ws !! i; if may_call at_ at' then Some (mkHWorld clock h (<[i := (at', n)]> ws) as_) else None
  | Answer j =>
      at_ ← as_ !! j; '(h', at') ← asker_step clock h ws at_;
      if hz_epoch h' <? IDLE then Some (mkHWorld clock h' ws (<[j := at']> as_)) else None
  | Ask j at' =>
      at_ ← as_ !! j; if answered at_ && may_ask at_ at' then Some (mkHWorld clock h ws (<[j := at']> as_)) else None
  | Tick clock' => if (clock <? clock') && (clock' <? IDLE) then Some (mkHWorld clock' h ws as_) else None
  end.

Fixpoint schedule (cs : list Choice) (W : HWorld) : option HWorld :=
  match cs with [] => Some W | c :: cs => W ← choose c W; schedule cs W end.

Lemma choose_step c W W' : choose c W = Some W' → hstep W W'.
Proof.
  destruct W as [clock h ws as_], c as [i|i at'|j|j at'|clock']; cbn [choose].
  - intros ([at_ n]&Hw&H)%bind_Some. apply bind_Some in H as (s&Hs&H). apply bind_Some in H as ([f at']&Hf&[= <-]). by eapply Step_worker.
  - intros ([at_ n]&Hw&H)%bind_Some. destruct (may_call at_ at') eqn:E; [|done]. injection H as <-. eapply Step_call; [done|].
    by apply may_call_spec.
  - intros (at_&Hj&H)%bind_Some. apply bind_Some in H as ([h' at']&Ha&H). destruct (Z.ltb_spec (hz_epoch h') IDLE); [|done].
    injection H as <-. by eapply Step_asker.
  - intros (at_&Hj&H)%bind_Some. destruct (answered at_ && may_ask at_ at') eqn:E; [|done]. injection H as <-.
    apply andb_true_iff in E as [E1 E2]. eapply Step_ask; [done|done|].
    destruct at_, at' as [| | | | | | | | | | |? ? ? [|]| | | | | | | |]; try done; try constructor; cbn [may_ask] in E2;
      apply andb_true_iff in E2 as [[->%Z.eqb_eq ->%bool_decide_eq_true]%andb_true_iff ->%bool_decide_eq_true]; constructor.
  - destruct (Z.ltb_spec clock clock'), (Z.ltb_spec clock' IDLE); try done. intros [= <-]. by apply Step_commit.
Qed.

Lemma schedule_reached cs W W' : schedule cs W = Some W' → rtc hstep W W'.
Proof.
  revert W. induction cs as [|c cs IH]; intros W E; [injection E as ->; apply rtc_refl|]. cbn [schedule] in E.
  apply bind_Some in E as (W1&E1&E2). eapply rtc_l; [by eapply choose_step|]. by apply IH.
Qed.

(** A statement begins at 5, the clock moves to 9, and another begins between the steps of someone
    who asks. *)
Definition begun (i : nat) (reads : Reads) : list Choice := Call i (BeginHeld reads) :: replicate 6 (Work i).

Definition sample_start : list Choice :=
  Tick 5 :: begun 0 (Tables [1]) ++ [Tick 9].

Definition sample_oldest : list Choice :=
  sample_start ++ [Ask 0 (OldestClock 1); Answer 0; Answer 0] ++ begun 1 (Tables [1; 2]) ++ replicate 3 (Answer 0).

Definition sample_snapshots : list Choice :=
  sample_start ++ [Ask 0 (SnapshotsClock 1); Answer 0; Answer 0] ++ begun 1 (Tables [1; 2]) ++ replicate 4 (Answer 0).

Definition sample_passed : list Choice :=
  sample_start ++ [Ask 0 (Advancing [1]); Answer 0] ++ begun 1 All ++ [Call 0 EndSnapshot; Work 0; Work 0]
  ++ [Ask 0 (PassedSlot 0 [1] [(0, 1)%nat] 0); Answer 0; Answer 0; Answer 0].

Definition reached (cs : list Choice) : HWorld := default (HWorld_new 0 0) (schedule cs (HWorld_new 2 1)).

Lemma snapshots_miss_no_reader_witness :
  hw_askers (reached sample_snapshots) !! 0%nat = Some (SnapshotsDone 1 9 [5; 9]) ∧ StronglySorted Z.le [5; 9] ∧ (5 ∈ [5; 9] ∨ 9 ≤ 5).
Proof.
  split; [by vm_compute|].
  apply (snapshots_miss_no_reader 2 1 (reached sample_snapshots) 0 1 9 [5; 9] 0 5 (Tables [1]) 1); [|by vm_compute..].
  apply (schedule_reached sample_snapshots). by vm_compute.
Defined.

Lemma passed_epoch_is_over_witness :
  hw_askers (reached sample_passed) !! 0%nat = Some (PassedDone 0 [1] [(0, 1)%nat] true)
  ∧ hw_workers (reached sample_passed) !! 0%nat ≠ Some (Running 5 (Tables [1]), 1%nat).
Proof.
  split; [by vm_compute|].
  apply (passed_epoch_is_over 2 1 (reached sample_passed) 0 0 [1] [(0, 1)%nat] 0 1 (Running 5 (Tables [1]))); [|by vm_compute|by left|by eexists].
  apply (schedule_reached sample_passed). by vm_compute.
Defined.

(** * Statements that return

    A statement resumed in a slot that had let go of the snapshot, or held it for some tables only, is
    seen by every question asked once it runs. *)

Section returned.
Context (i n j : nat) (v : Z).

(** Where a question is, asked after the statement ran: past its slot the horizon is at or below its
    snapshot, and at its slot the snapshot has been read. *)
Definition asks_above (at_ : AskerAt) : Prop :=
  match at_ with
  | OldestSlot _ k h => (i < k)%nat → h ≤ v
  | OldestHeld _ k h u => ((i < k)%nat → h ≤ v) ∧ (k = i → u = v) ∧ u < h
  | OldestDone _ h => h ≤ v
  | _ => True
  end.

Lemma asks_step clock h ws s at_ h' at' :
  hz_slots h !! i = Some s → sl_snapshot s = v → hd_reads (sl_held s) = All → marked (sl_held s) v = false →
  asks_above at_ → asker_step clock h ws at_ = Some (h', at') → asks_above at'.
Proof.
  intros Hs Hv Hr Hm Ha Hst. destruct at_; cbn [asker_step advance] in Hst; try done; try (injection Hst as <- <-; done).
  all: try (unfold mbind, option_bind in Hst; repeat case_match; simplify_eq; done).
  - injection Hst as <- <-. cbn [asks_above]. lia.
  - cbn [asks_above] in Ha. destruct (hz_slots h !! i0) as [s0|] eqn:E0; injection Hst as <- <-.
    + destruct (Z.ltb_spec (sl_snapshot s0) oldest); cbn [asks_above].
      * split_and!; [done|intros ->; congruence|done].
      * intros Hlt. destruct (decide (i0 = i)) as [->|]; [|apply Ha; lia]. rewrite Hs in E0. injection E0 as <-. lia.
    + cbn [asks_above]. apply Ha. apply lookup_ge_None in E0. apply lookup_lt_Some in Hs. lia.
  - cbn [asks_above] in Ha. destruct Ha as (Ha&Hi&Hlt). destruct (hz_slots h !! i0) as [s0|] eqn:E0; [|done]. rewrite some_bind in Hst. destruct (sl_guard s0); [|done..]. injection Hst as <- <-. cbn [asks_above].
    intros Hik. destruct (decide (i0 = i)) as [->|Hne].
    + rewrite Hs in E0. injection E0 as <-. rewrite (Hi eq_refl). unfold Held_holds. rewrite Hr, Hm. cbn. done.
    + assert (oldest ≤ v) by (apply Ha; lia). case_match; lia.
Qed.

(** The statement runs since the question was asked, and was not killed. *)
Definition asked_of (W : HWorld) : Prop :=
  (∃ at_ m, hw_workers W !! i = Some (at_, m) ∧ (n ≤ m)%nat)
  ∧ (hw_workers W !! i = Some (Returned v, n) → ∀ s at_, hz_slots (hw_h W) !! i = Some s → marked (sl_held s) v = false →
       hw_askers W !! j = Some at_ → asks_above at_).

Lemma asked_of_intro W W' :
  (∃ at_ m, hw_workers W !! i = Some (at_, m) ∧ (n ≤ m)%nat) → (∀ at_ m, hw_workers W !! i = Some (at_, m) → ∃ at' m', hw_workers W' !! i = Some (at', m') ∧ (m ≤ m')%nat) →
  (hw_workers W' !! i = Some (Returned v, n) → ∀ s at_, hz_slots (hw_h W') !! i = Some s → marked (sl_held s) v = false → hw_askers W' !! j = Some at_ → asks_above at_) → asked_of W'.
Proof. intros (at_&m&Hw&Hm) Hc H. split; [|done]. destruct (Hc at_ m Hw) as (at'&m'&?&?). exists at', m'. split; [done|lia]. Qed.

(** A step of someone who asks, at the slot of the statement. *)
Lemma slot_step_marked s s' : slot_step s s' → returns_at s v → sl_snapshot s = v → marked (sl_held s') v = false → marked (sl_held s) v = false.
Proof.
  intros [Hg|Hg|Hg Hn|k Hg] (_&Hv&Hs) Hsn Hm; [done..|]. exfalso. destruct Hs as [[Hi _]|[_ Hu]]; [lia|]. specialize (Hu _ Hg). unfold marked in Hm. cbn [put_guard mark put_held sl_held hd_killed] in Hm. lia.
Qed.

Lemma hstep_count W W' at_ m : hstep W W' → hw_workers W !! i = Some (at_, m) → ∃ at' m', hw_workers W' !! i = Some (at', m') ∧ (m ≤ m')%nat.
Proof.
  intros [clock h ws as_ k at1 n' s f at' Hw Hs Hstep|clock h ws as_ k at1 n' at' Hw Hc|clock h ws as_ k at1 h' at' Hj Hstep He|clock h ws as_ k at1 at' Hj Hans Hnext|clock h ws as_ clock' Hc]; cbn [hw_workers]; [| |by eauto..]; intros Hi.
  all: destruct (decide (k = i)) as [->|Hne]; [|rewrite list_lookup_insert_ne by done; by eauto]; rewrite list_lookup_insert_eq by (by eapply lookup_lt_Some); rewrite Hi in Hw; injection Hw as -> ->; eexists _, _; (split; [done|]); unfold numbered; repeat case_match; lia.
Qed.

Lemma asked_of_step W W' : hstep W W' → history_ok W → asked_of W → asked_of W'.
Proof.
  intros Hst (Hok&H0&Hall) [Hcount Hask]. apply (asked_of_intro W); [done|intros at_ m; by apply hstep_count|]. destruct Hcount as (at0&m0&Hw0&Hm0).
  destruct Hst as [clock h ws as_ k at_ n' s f at' Hw Hs Hstep|clock h ws as_ k at_ n' at' Hw Hc|clock h ws as_ k at_ h' at' Hj Hstep He|clock h ws as_ k at_ at' Hj Hans Hnext|clock h ws as_ clock' Hc]; cbn [hw_workers hw_h hw_askers] in *.
  - intros Hr s1 a Hs1 Hm Ha. destruct (decide (k = i)) as [->|Hne].
    + rewrite list_lookup_insert_eq in Hr by (by eapply lookup_lt_Some). injection Hr as -> Hn. unfold numbered in Hn. cbn [runs] in Hn. rewrite Hw in Hw0. injection Hw0 as -> ->. lia.
    + rewrite list_lookup_insert_ne in Hr by done. unfold at_slot in Hs1. cbn [hz_slots] in Hs1. rewrite list_lookup_alter_ne in Hs1 by done. by eapply Hask.
  - intros Hr s1 a Hs1 Hm Ha. destruct (decide (k = i)) as [->|Hne].
    + rewrite list_lookup_insert_eq in Hr by (by eapply lookup_lt_Some). injection Hr as -> ->. inversion Hc.
    + rewrite list_lookup_insert_ne in Hr by done. by eapply Hask.
  - intros Hr s1 a Hs1 Hm Ha. destruct (lookup_lt_is_Some_2 (hz_slots h) i) as [s Hs]; [pose proof (wk_length _ Hok) as Hl; cbn in Hl; rewrite <-Hl; by eapply lookup_lt_Some|].
    pose proof (wk_workers _ Hok _ _ _ _ Hr Hs) as (Hret&_&Hsn). cbn [hw_clock hw_h] in *. assert (marked (sl_held s) v = false) as Hms.
    { apply asker_step_changes in Hstep. destruct Hstep as [a1 a2 _|k1 s2 s2' a1 a2 Hs2 Hss _|tables ran]; cbn [hz_slots] in Hs1; [congruence| |congruence].
      destruct (decide (k1 = i)) as [->|Hne]; [|rewrite list_lookup_insert_ne in Hs1 by done; congruence]. rewrite list_lookup_insert_eq in Hs1 by (by eapply lookup_lt_Some). injection Hs1 as <-.
      rewrite Hs in Hs2. injection Hs2 as <-. by eapply slot_step_marked. }
    destruct (decide (k = j)) as [->|Hne]; [|rewrite list_lookup_insert_ne in Ha by done; by eapply Hask]. rewrite list_lookup_insert_eq in Ha by (by eapply lookup_lt_Some). injection Ha as <-.
    eapply asks_step; [exact Hs|exact Hsn|apply Hret|exact Hms|by eapply Hask|exact Hstep].
  - intros Hr s1 a Hs1 Hm Ha. destruct (decide (k = j)) as [->|Hne]; [|rewrite list_lookup_insert_ne in Ha by done; by eapply Hask].
    rewrite list_lookup_insert_eq in Ha by (by eapply lookup_lt_Some). injection Ha as <-. by destruct Hnext.
  - done.
Qed.

Lemma asked_of_run W W' : rtc hstep W W' → history_ok W → asked_of W → asked_of W'.
Proof. induction 1 as [|W1 W2 W3 Hst _ IH]; [done|]. intros H Ha. apply IH; [by eapply hstep_ok|by eapply asked_of_step]. Qed.
End returned.

(** A transaction whose slot was let go of between its statements: the question is asked then. *)
Definition resumed_at (i : nat) (v : Z) : list Choice := Call i (ResumeHeld v false) :: replicate 4 (Work i).

Definition sample_passed_by : list Choice :=
  Tick 5 :: begun 0 All ++ [Call 0 EndSnapshot; Work 0; Work 0; Tick 9; Ask 0 (OldestClock 1)] ++ replicate 4 (Answer 0) ++ resumed_at 0 5.


Definition sample_returned : list Choice := Tick 5 :: begun 0 All ++ [Call 0 EndSnapshot; Work 0; Work 0; Tick 9] ++ resumed_at 0 5 ++ [Ask 0 (OldestClock 1)].

