(* ===== verification/HorizonAlone.v ===== *)
(** The calls of [rudb-storage/src/horizon.rs] are their atomic steps run with nobody else about:
    what [Horizon] states of a call in one definition is what the programs of [Horizon] come to. *)

From S2P Require Import Prelude Horizon HorizonRace.
Local Open Scope Z_scope.

(** Someone who asks steps until the answer. *)
Fixpoint ask_alone (fuel : nat) (clock : Z) (h : Horizons) (ws : list (WorkerAt * nat)) (at_ : AskerAt)
    : option (Horizons * AskerAt) :=
  if answered at_ then Some (h, at_) else
  match fuel with
  | O => None
  | S fuel => '(h, at_) ← asker_step clock h ws at_; ask_alone fuel clock h ws at_
  end.

(** A worker steps until its statement runs or is over. *)
Fixpoint work_alone (fuel : nat) (clock : Z) (h : Horizons) (i : nat) (at_ : WorkerAt) : option (Horizons * WorkerAt) :=
  match at_ with
  | Idle | Running _ _ | Returned _ => Some (h, at_)
  | _ =>
      match fuel with
      | O => None
      | S fuel =>
          s ← hz_slots h !! i;
          '(f, at_) ← worker_step clock (hz_epoch h) s at_;
          work_alone fuel clock (at_slot i f h) i at_
      end
  end.

Definition unlocked (h : Horizons) : Prop := Forall (λ s, sl_guard s = Free) (hz_slots h).

Lemma ask_more fuel fuel' clock h ws at_ r :
  (fuel ≤ fuel')%nat → ask_alone fuel clock h ws at_ = Some r → ask_alone fuel' clock h ws at_ = Some r.
Proof.
  revert fuel' h at_. induction fuel as [|fuel IH]; intros [|fuel'] h at_ Hle E; cbn [ask_alone] in *; destruct (answered at_); try done; [lia|].
  destruct (asker_step clock h ws at_) as [[h1 at1]|]; [|done]. cbn [mbind option_bind] in *. apply IH; [lia|done].
Qed.

Lemma ask_step fuel clock h ws at_ h' at' :
  answered at_ = false → asker_step clock h ws at_ = Some (h', at') →
  ask_alone (S fuel) clock h ws at_ = ask_alone fuel clock h' ws at'.
Proof. intros Ha E. cbn [ask_alone]. by rewrite Ha, E. Qed.

Ltac step_alone Hs Hg :=
  erewrite ask_step; [|reflexivity|cbn [asker_step]; rewrite Hs; cbn [mbind option_bind]; rewrite ?Hg; reflexivity].

Section alone.
Context (clock : Z) (h : Horizons) (ws : list (WorkerAt * nat)) (Hfree : unlocked h).

Lemma slot_after pre s rest :
  hz_slots h = pre ++ s :: rest → hz_slots h !! length pre = Some s ∧ sl_guard s = Free ∧ hz_slots h = (pre ++ [s]) ++ rest ∧ length (pre ++ [s]) = S (length pre).
Proof.
  intros E. split_and!.
  - rewrite E. apply list_lookup_middle. done.
  - unfold unlocked in Hfree. rewrite E, Forall_app, Forall_cons in Hfree. tauto.
  - rewrite E. by rewrite <-(assoc_L app).
  - rewrite length_app. cbn [length]. lia.
Qed.

Lemma no_slot pre : hz_slots h = pre ++ [] → hz_slots h !! length pre = None.
Proof. intros E. apply lookup_ge_None. rewrite E, app_nil_r. done. Qed.

Lemma oldest_alone table rest : ∀ pre acc, hz_slots h = pre ++ rest →
  ask_alone (2 * length rest + 1) clock h ws (OldestSlot table (length pre) acc) = Some (h, OldestDone table (foldl (oldest_turn table) acc rest)).
Proof.
  induction rest as [|s rest IH]; intros pre acc E.
  - cbn [length Nat.mul Nat.add ask_alone answered asker_step]. by rewrite no_slot.
  - destruct (slot_after pre s rest E) as (Hs&Hg&E'&Hl). specialize (IH (pre ++ [s])). rewrite Hl in IH.
    replace (2 * length (s :: rest) + 1)%nat with (S (S (2 * length rest + 1))) by (cbn [length]; lia).
    step_alone Hs Hg. cbn [foldl]. unfold oldest_turn at 2. destruct (sl_snapshot s <? acc); cbn [andb].
    + step_alone Hs Hg. by apply IH.
    + eapply ask_more; [|by apply IH]. lia.
Qed.

Lemma snapshots_alone table upto rest : ∀ pre found, hz_slots h = pre ++ rest →
  ask_alone (2 * length rest + 1) clock h ws (SnapshotsSlot table upto (length pre) found)
  = Some (h, SnapshotsDone table upto (merge_sort Z.le (found ++ omap (holding table) rest))).
Proof.
  induction rest as [|s rest IH]; intros pre found E.
  - cbn [length Nat.mul Nat.add ask_alone answered asker_step]. rewrite no_slot by done. cbn [mbind option_bind omap list_omap]. by rewrite app_nil_r.
  - destruct (slot_after pre s rest E) as (Hs&Hg&E'&Hl). specialize (IH (pre ++ [s])). rewrite Hl in IH.
    replace (2 * length (s :: rest) + 1)%nat with (S (S (2 * length rest + 1))) by (cbn [length]; lia).
    step_alone Hs Hg. cbn [omap list_omap]. unfold holding at 1. destruct (sl_snapshot s =? IDLE); cbn [negb andb].
    + eapply ask_more; [|by apply IH]. lia.
    + step_alone Hs Hg. rewrite IH by done.
      destruct (Held_holds (sl_held s) table (sl_snapshot s)); [|done]. by rewrite <-(assoc_L app).
Qed.

Lemma passed_alone epoch tables ran rest : ∀ pre, hz_slots h = pre ++ rest →
  ask_alone (2 * length rest + 1) clock h ws (PassedSlot epoch tables ran (length pre))
  = Some (h, PassedDone epoch tables ran (passed epoch tables (mkHorizons rest (hz_epoch h)))).
Proof.
  unfold passed. cbn [hz_slots]. induction rest as [|s rest IH]; intros pre E.
  - cbn [length Nat.mul Nat.add ask_alone answered asker_step]. by rewrite no_slot.
  - destruct (slot_after pre s rest E) as (Hs&Hg&E'&Hl). specialize (IH (pre ++ [s])). rewrite Hl in IH.
    replace (2 * length (s :: rest) + 1)%nat with (S (S (2 * length rest + 1))) by (cbn [length]; lia).
    step_alone Hs Hg. cbn [forallb].
    destruct ((sl_epoch s =? IDLE) || (epoch <? sl_epoch s)); cbn [orb andb].
    + eapply ask_more; [|by apply IH]. lia.
    + step_alone Hs Hg.
      destruct (Reads_meets (hd_reads (sl_held s)) tables); cbn [negb andb]; [|by apply IH].
      by destruct (2 * length rest + 1)%nat.
Qed.

Lemma put_snapshot_same s : put_snapshot (sl_snapshot s) s = s.
Proof. by destruct s. Qed.

Lemma kill_scan_alone now held rest fuel : ∀ pre best, hz_slots h = pre ++ rest →
  ask_alone (2 * length rest + S fuel) clock h ws (KillSlot now held (length pre) best)
  = ask_alone fuel clock h ws (match kill_scan (length pre) rest best with Some (at_, _) => KillLock now held at_ | None => KillDone None end).
Proof.
  induction rest as [|s rest IH]; intros pre best E.
  - cbn [length Nat.mul Nat.add ask_alone answered asker_step]. rewrite no_slot by done. cbn [mbind option_bind kill_scan]. by destruct best as [[]|].
  - destruct (slot_after pre s rest E) as (Hs&Hg&E'&Hl). specialize (IH (pre ++ [s])). rewrite Hl in IH.
    replace (2 * length (s :: rest) + S fuel)%nat with (S (S (2 * length rest + S fuel))) by (cbn [length]; lia).
    step_alone Hs Hg. step_alone Hs Hg. cbn [kill_scan]. rewrite put_snapshot_same. by apply IH.
Qed.

Lemma kill_scan_found at_ slots best i v :
  kill_scan at_ slots best = Some (i, v) →
  best = Some (i, v) ∨ ((at_ ≤ i)%nat ∧ ∃ s, slots !! (i - at_)%nat = Some s ∧ sl_snapshot s = v ∧ v ≠ IDLE).
Proof.
  revert at_ best. induction slots as [|s slots IH]; intros at_ best E; cbn [kill_scan] in E; [by left|].
  destruct (IH (S at_) _ E) as [Eb|(Hle&s'&Hs&?&?)].
  - unfold kill_turn in Eb. destruct (Z.eqb_spec (sl_snapshot s) IDLE) as [|Hn]; cbn [negb andb] in Eb; [by left|]. case_match; [|by left].
    injection Eb as <- <-. right. split; [lia|]. rewrite Nat.sub_diag. by exists s.
  - right. split; [lia|]. exists s'. replace (i - at_)%nat with (S (i - S at_)) by lia. done.
Qed.
End alone.

Lemma at_slot_twice i f g h : at_slot i f (at_slot i g h) = at_slot i (f ∘ g) h.
Proof.
  unfold at_slot. cbn [hz_slots hz_epoch]. f_equal. destruct (hz_slots h !! i) as [s|] eqn:Hs.
  - rewrite !(alter_known _ _ _ _ Hs). rewrite (alter_known _ _ i (g s)) by (apply list_lookup_insert_eq; by eapply lookup_lt_Some).
    apply list_insert_insert_eq.
  - apply list_eq. intros j. destruct (decide (i = j)) as [->|Hne]; [by rewrite !list_lookup_alter_eq, Hs|by rewrite !list_lookup_alter_ne].
Qed.

Lemma at_slot_same i f g h s : hz_slots h !! i = Some s → f s = g s → at_slot i f h = at_slot i g h.
Proof. intros Hs E. unfold at_slot. by rewrite !(alter_known _ _ _ _ Hs), E. Qed.

Lemma at_slot_lookup i f h s : hz_slots h !! i = Some s → hz_slots (at_slot i f h) !! i = Some (f s).
Proof. intros Hs. unfold at_slot. cbn [hz_slots]. by rewrite list_lookup_alter_eq, Hs. Qed.

(** The lock is taken, the snapshot read under it, the mark set and the lock given back. *)
Lemma kill_alone fuel clock h ws now held i s :
  hz_slots h !! i = Some s → sl_guard s = Free → sl_snapshot s ≠ IDLE →
  ask_alone (3 + fuel) clock h ws (KillLock now held i)
  = Some (at_slot i (mark (the_kill now (sl_snapshot s) held)) h, KillDone (Some (the_kill now (sl_snapshot s) held))).
Proof.
  intros Hs Hg Hn. cbn [Nat.add]. step_alone Hs Hg.
  pose proof (at_slot_lookup i (put_guard Taken) h s Hs) as Hs1.
  assert (asker_step clock (at_slot i (put_guard Taken) h) ws (KillGuard now held i)
    = Some (at_slot i (put_guard (Seen (sl_snapshot s)) ∘ put_guard Taken) h, KillGuard now held i)) as E1.
  { cbn [asker_step]. rewrite Hs1. cbn [mbind option_bind put_guard sl_guard sl_snapshot]. by rewrite (proj2 (Z.eqb_neq _ _)), at_slot_twice by done. }
  erewrite ask_step; [|reflexivity|exact E1].
  pose proof (at_slot_lookup i (put_guard (Seen (sl_snapshot s)) ∘ put_guard Taken) h s Hs) as Hs2. step_alone Hs2 Hs2. rewrite at_slot_twice.
  assert (∀ f, ask_alone fuel clock (at_slot i f h) ws (KillDone (Some (the_kill now (sl_snapshot s) held)))
    = Some (at_slot i f h, KillDone (Some (the_kill now (sl_snapshot s) held)))) as -> by by destruct fuel.
  f_equal. f_equal. apply (at_slot_same _ _ _ _ s); [done|]. destruct s as [? ? ? g]. cbn in Hg. by subst g.
Qed.

(** A worker's step, its slot known. *)
Lemma work_step fuel clock h i at_ g s f at' :
  match at_ with Idle | Running _ _ | Returned _ => False | _ => True end → hz_slots h !! i = Some s →
  worker_step clock (hz_epoch h) (g s) at_ = Some (f, at') →
  work_alone (S fuel) clock (at_slot i g h) i at_ = work_alone fuel clock (at_slot i (f ∘ g) h) i at'.
Proof.
  intros Hat Hs E. rewrite <-at_slot_twice. destruct at_; try done; cbn [work_alone]; rewrite (at_slot_lookup _ _ _ _ Hs); cbn [mbind option_bind];
    change (hz_epoch (at_slot i g h)) with (hz_epoch h); rewrite E; done.
Qed.

Lemma at_slot_id i h : at_slot i id h = h.
Proof.
  destruct h as [slots epoch]. unfold at_slot. cbn [hz_slots hz_epoch]. f_equal. apply list_eq. intros j.
  destruct (decide (i = j)) as [->|Hne]; [rewrite list_lookup_alter_eq; by destruct (slots !! j)|by rewrite list_lookup_alter_ne].
Qed.

Ltac step_work Hs Hg := erewrite work_step; [|exact I|exact Hs|cbn; rewrite ?Hg; reflexivity].

Lemma begin_alone clock h i s reads :
  hz_slots h !! i = Some s → sl_guard s = Free →
  work_alone 6 clock h i (BeginHeld reads) = (λ r, (r.2, Running r.1 reads)) <$> begin i clock reads h.
Proof.
  intros Hs Hg. rewrite <-(at_slot_id i h) at 1. do 6 step_work Hs Hg. rewrite Z.eqb_refl. cbn [work_alone].
  unfold begin. rewrite Hs. cbn [mbind option_bind fmap option_fmap option_map fst snd]. f_equal.
Qed.

Lemma resume_alone clock h i s v kept :
  hz_slots h !! i = Some s → sl_guard s = Free → work_alone 4 clock h i (ResumeHeld v kept) = (λ h, (h, if kept : bool then Running v All else Returned v)) <$> resume i v h.
Proof.
  intros Hs Hg. rewrite <-(at_slot_id i h) at 1. do 4 step_work Hs Hg. unfold resume. rewrite Hs. destruct kept; cbn [work_alone mbind option_bind fmap option_fmap option_map]; do 2 f_equal; by apply (at_slot_same _ _ _ _ s).
Qed.

Lemma end_alone clock h i s : hz_slots h !! i = Some s → work_alone 2 clock h i EndSnapshot = (λ h, (h, Idle)) <$> end_ i h.
Proof.
  intros Hs. rewrite <-(at_slot_id i h) at 1. do 2 step_work Hs Hs. cbn [work_alone]. unfold end_. by rewrite Hs.
Qed.

(** The calls are their steps: each question asked with nobody else about ends, after no more
    steps than twice the slots and a few, with the answer and the state the call is stated to have,
    and so do the calls a worker makes. *)
Theorem calls_are_their_steps clock h ws :
  unlocked h →
  (∀ table, ask_alone (2 * length (hz_slots h) + 2) clock h ws (OldestClock table) = Some (h, OldestDone table (oldest clock table h)))
  ∧ (∀ table, ask_alone (2 * length (hz_slots h) + 2) clock h ws (SnapshotsClock table)
       = Some (h, SnapshotsDone table clock (snapshots table h)))
  ∧ (∀ epoch tables ran, ask_alone (2 * length (hz_slots h) + 1) clock h ws (PassedSlot epoch tables ran 0)
       = Some (h, PassedDone epoch tables ran (passed epoch tables h)))
  ∧ (∀ held, ask_alone (2 * length (hz_slots h) + 5) clock h ws (KillClock held)
       = Some ((kill_oldest clock held h).2, KillDone (kill_oldest clock held h).1))
  ∧ (∀ i reads, i < length (hz_slots h) →
       work_alone 6 clock h i (BeginHeld reads) = (λ r, (r.2, Running r.1 reads)) <$> begin i clock reads h)%nat
  ∧ (∀ i v kept, i < length (hz_slots h) → work_alone 4 clock h i (ResumeHeld v kept) = (λ h, (h, if kept : bool then Running v All else Returned v)) <$> resume i v h)%nat
  ∧ (∀ i, i < length (hz_slots h) → work_alone 2 clock h i EndSnapshot = (λ h, (h, Idle)) <$> end_ i h)%nat.
Proof.
  intros Hf. assert (∀ i s, hz_slots h !! i = Some s → sl_guard s = Free) as Hguard by (intros i s; by apply (Forall_lookup_1 _ _ i s Hf)). split_and!.
  - intros table. replace (2 * length (hz_slots h) + 2)%nat with (S (2 * length (hz_slots h) + 1)) by lia.
    erewrite ask_step by reflexivity. by apply (oldest_alone clock h ws Hf table (hz_slots h) []).
  - intros table. replace (2 * length (hz_slots h) + 2)%nat with (S (2 * length (hz_slots h) + 1)) by lia.
    erewrite ask_step by reflexivity. by apply (snapshots_alone clock h ws Hf table clock (hz_slots h) []).
  - intros epoch tables ran. etransitivity; [by apply (passed_alone clock h ws Hf epoch tables ran (hz_slots h) [])|]. by destruct h.
  - intros held. replace (2 * length (hz_slots h) + 5)%nat with (S (2 * length (hz_slots h) + S 3)) by lia.
    erewrite ask_step by reflexivity. etransitivity; [by apply (kill_scan_alone clock h ws Hf clock held (hz_slots h) 3 [] None)|]. unfold kill_oldest. cbn [length].
    destruct (kill_scan 0 (hz_slots h) None) as [[i v]|] eqn:E; [|done].
    destruct (kill_scan_found _ _ _ _ _ E) as [?|(_&s&Hs&<-&Hn)]; [done|]. rewrite Nat.sub_0_r in Hs.
    apply (kill_alone 0 clock h ws clock held i s Hs); [by apply (Hguard i)|done].
  - intros i reads [s Hs]%lookup_lt_is_Some_2. eapply begin_alone; [exact Hs|by apply (Hguard i)].
  - intros i v kept [s Hs]%lookup_lt_is_Some_2. eapply resume_alone; [exact Hs|by apply (Hguard i)].
  - intros i [s Hs]%lookup_lt_is_Some_2. by eapply end_alone.
Qed.

Lemma calls_are_their_steps_witness :
  let h := mkHorizons [mkSlot 6 0 (mkSlotHeld All None) Free; mkSlot 4 0 (mkSlotHeld (Tables [2]) None) Free] 1 in
  ask_alone 6 9 h [] (OldestClock 1) = Some (h, OldestDone 1 6)
  ∧ ask_alone 9 9 h [] (KillClock 0) = Some ((kill_oldest 9 0 h).2, KillDone (Some (mkKilled 4 5 0))).
Proof.
  intros h. assert (unlocked h) as Hf by (repeat constructor).
  destruct (calls_are_their_steps 9 h [] Hf) as (H1&_&_&H4&_). split; [apply (H1 1)|apply (H4 0)].
Defined.
