(* ===== verification/Collect.v ===== *)
(** The collector of undo records: [UndoSpace::collect], [collect_due], [spare], [compact] and
    [spill_oldest] of [rudb-storage/src/undo.rs], with the chains found through the trait [Heads] and
    the directory of a table's stripes that implements it.

    A collection runs with nobody else at the space, so a horizon it has asked for stays what it is
    and is asked for again here. A map is walked in the order of its keys; the source walks a
    [HashMap], whose rows are each other's strangers. *)

From S2P Require Import Prelude Undo Deletes Hot Horizon.
Local Open Scope Z_scope.

(** * Where the chains are *)

Class Heads (D : Type) : Type := {
  heads_unlink : Z → Z → Z → bool → D → UndoSpace → option (D * UndoSpace);
  heads_prune : Z → Z → (UndoSpace → Z → bool) → D → UndoSpace → option (list Z * (D * UndoSpace));
  heads_replace : Z → Z → Z → Z → D → UndoSpace → option (bool * (D * UndoSpace));
  heads_head : Z → Z → D → Z }.

Definition rid_stripe (rid : Z) : Z := wrap 32 (rid ≫ 32).
Definition rid_slot (rid : Z) : Z := wrap 32 rid.

(** The stripes of a table that are hot, by id. *)
Record StripeDirectory : Type := mkDirectory {
  di_table : Z;
  di_hot : gmap Z HotStripe }.

Definition find_hot (d : StripeDirectory) (table rid : Z) : option HotStripe :=
  if table =? di_table d then di_hot d !! rid_stripe rid else None.

Definition put_hot (rid : Z) (s : HotStripe) (d : StripeDirectory) : StripeDirectory :=
  mkDirectory (di_table d) (<[rid_stripe rid := s]> (di_hot d)).

#[global] Instance StripeDirectory_heads : Heads StripeDirectory := {
  heads_unlink table rid record_ older d sp :=
    match find_hot d table rid with
    | Some s => '(s, sp) ← unlink (rid_slot rid) record_ older s sp; Some (put_hot rid s d, sp)
    | None => Some (d, sp)
    end;
  heads_prune table rid spare d sp :=
    match find_hot d table rid with
    | Some s => '(taken, sp) ← prune (rid_slot rid) spare s sp; Some (taken, (d, sp))
    | None => Some ([], (d, sp))
    end;
  heads_replace table rid record_ with_ d sp :=
    match find_hot d table rid with
    | Some s => '(found, (s, sp)) ← replace (rid_slot rid) record_ with_ s sp; Some (found, (put_hot rid s d, sp))
    | None => Some (false, (d, sp))
    end;
  heads_head table rid d := match find_hot d table rid with Some s => Hot_head s (rid_slot rid) | None => 0 end }.

(** * What a round did *)

Record Collected : Type := mkCollected {
  co_found : Z;
  co_cut : Z;
  co_freed : Z;
  co_pruned : Z;
  co_spilled : Z;
  co_moved : Z;
  co_killed : option Killed }.

Definition Collected_default : Collected := mkCollected 0 0 0 0 0 0 None.

Definition committed (ts : Z) : bool := (Z.land ts UNCOMMITTED =? 0) && negb (ts =? ABORTED).

(** * Which records no snapshot falls under *)

(** Down the chain past the records stamped [ts]; the inner [None] is the end of the chain. *)
Fixpoint older_than (fuel : nat) (sp : UndoSpace) (ts next : Z) : option (option UndoRecord) :=
  match record sp next with
  | None => Some None
  | Some older =>
      match fuel with
      | O => None
      | S fuel => if negb (r_ts older =? ts) then Some (Some older) else older_than fuel sp ts (r_prev older)
      end
  end.

(** The columns of a change: of the records stamped [ts] from [piece] down. *)
Fixpoint columns_of (fuel : nat) (sp : UndoSpace) (ts : Z) (piece : option UndoRecord) : list Z :=
  match fuel, piece with
  | S fuel, Some r =>
      if r_ts r =? ts then (i_column <$> r_images r) ++ columns_of fuel sp ts (record sp (r_prev r)) else []
  | _, _ => []
  end.

Definition spare (sp : UndoSpace) (r : UndoRecord) (upto : Z) (snapshots : list Z) : bool :=
  let ts := r_ts r in
  if negb (bool_decide (r_kind r = Update)) || negb (committed ts) || (upto <? ts) then false else
  match older_than (chain_fuel sp) sp ts (r_prev r) with
  | Some (Some older) =>
      let then_ := r_ts older in
      if negb (bool_decide (r_kind older = Update)) || negb (committed then_) || (ts <=? then_) then false else
      match snapshots !! prefix_length (λ snapshot, snapshot <? then_) snapshots with
      | Some snapshot => if snapshot <? ts then false else
          forallb (λ i, bool_decide (i_column i ∈ columns_of (chain_fuel sp) sp then_ (Some older))) (r_images r)
      | None => forallb (λ i, bool_decide (i_column i ∈ columns_of (chain_fuel sp) sp then_ (Some older))) (r_images r)
      end
  | _ => false
  end.

(** * A round *)

Section collect.
Context {D : Type} `{!Heads D}.
Context (hz : Horizons) (clock : Z).

Definition partition_passed (l : list Held) : list Held * list Held :=
  (filter (λ held, passed (h_epoch held) (h_tables held) hz = true) l,
   filter (λ held, passed (h_epoch held) (h_tables held) hz = false) l).

(** Chunks cut long enough ago go on the free list. *)
Definition free_ready (ready : list Held) (sp : UndoSpace) : UndoSpace :=
  let stubs := zlen (filter (λ x : Z * UndoRecord, r_kind x.2 = Spilled) (ready ≫= λ held, records sp (h_chunk held) (h_units held))) in
  let sp := if 0 <? stubs then forget stubs sp else sp in
  with_free (us_free sp ++ (h_chunk <$> ready)) sp.

Record Cutting : Type := mkCutting {
  cu_rows : gmap Row (Z * Z);
  cu_aborted : list (Row * Z);
  cu_pruned : gset Z;
  cu_count : Z }.

(** One record of a chunk found at an earlier round: the newest committed of its row so far, or an
    aborted one to take out on its own. *)
Definition cut_record (c : Cutting) (x : Z * UndoRecord) : Cutting :=
  let '(at_, r) := x in
  if bool_decide (at_ ∈ cu_pruned c) then mkCutting (cu_rows c) (cu_aborted c) (cu_pruned c ∖ {[at_]}) (cu_count c) else
  let row := mkRow (r_table r) (r_rid r) in
  if r_ts r =? ABORTED then mkCutting (cu_rows c) (cu_aborted c ++ [(row, at_)]) (cu_pruned c) (cu_count c + 1) else
  let newer := match cu_rows c !! row with None => true | Some (newest, _) => newest <? r_ts r end in
  mkCutting (if newer then <[row := (r_ts r, at_)]> (cu_rows c) else cu_rows c) (cu_aborted c) (cu_pruned c) (cu_count c + 1).

Definition cut_of (sp : UndoSpace) (ready : list Held) (pruned : gset Z) : Cutting :=
  foldl (λ c held, foldl cut_record c (records sp (h_chunk held) (h_units held))) (mkCutting ∅ [] pruned 0) ready.

Fixpoint unlink_all (older : bool) (l : list (Row * Z)) (d : D) (sp : UndoSpace) : option (D * UndoSpace) :=
  match l with
  | [] => Some (d, sp)
  | (row, at_) :: l =>
      '(d, sp) ← heads_unlink (row_table row) (row_rid row) at_ older d sp; unlink_all older l d sp
  end.

(** Whether a chunk still waiting holds only records nobody needs, and the tables they are of. [all]
    stops at the first that someone does need. *)
Fixpoint all_below (pruned : gset Z) (l : list (Z * UndoRecord)) (tables : list Z) : bool * list Z :=
  match l with
  | [] => (true, tables)
  | (at_, r) :: l =>
      let ts := r_ts r in
      let table := r_table r in
      let tables := if bool_decide (table ∈ tables) then tables else tables ++ [table] in
      if (ts =? ABORTED) || bool_decide (at_ ∈ pruned) || ((Z.land ts UNCOMMITTED =? 0) && (ts <=? oldest clock table hz))
      then all_below pruned l tables else (false, tables)
  end.

Definition found_in (sp : UndoSpace) (pruned : gset Z) (x : Z * Z) : option Held :=
  let '(below, tables) := all_below pruned (records sp x.1 x.2) [] in
  if (below : bool) then Some (mkHeld x.1 x.2 0 tables) else None.

(** The records interval pruning may ask about, by row. *)
Definition pruning (sp : UndoSpace) (waiting : list (Z * Z)) (pruned : gset Z) : gmap Row (gset Z) :=
  foldl (λ chains (x : Z * UndoRecord),
    let '(at_, r) := x in
    if bool_decide (r_kind r = Update) && committed (r_ts r) && (r_ts r <=? clock) && negb (bool_decide (at_ ∈ pruned))
    then let row := mkRow (r_table r) (r_rid r) in <[row := default ∅ (chains !! row) ∪ {[at_]}]> chains
    else chains) ∅ (waiting ≫= λ x, records sp x.1 x.2).

Fixpoint prune_all (l : list (Row * gset Z)) (done : Z) (pruned : gset Z) (d : D) (sp : UndoSpace)
    : option (Z * gset Z * (D * UndoSpace)) :=
  match l with
  | [] => Some (done, pruned, (d, sp))
  | (row, asked) :: l =>
      let held := snapshots (row_table row) hz in
      '(taken, (d, sp)) ← heads_prune (row_table row) (row_rid row) (λ sp at_,
           bool_decide (at_ ∈ asked)
           && match record sp at_ with Some r => spare sp r clock held | None => false end) d sp;
      prune_all l (done + zlen taken) (pruned ∪ list_to_set taken) d sp
  end.

(** ** Moving what is left of a chunk *)

(** What a chunk still holds for someone: [None] when a writer has not committed a record of it, or
    when that is more than an eighth. *)
Fixpoint left_in (pruned : gset Z) (units : Z) (l : list (Z * UndoRecord)) (left_ : list Z) (used : Z)
    : option (list Z) :=
  match l with
  | [] => Some left_
  | (at_, r) :: l =>
      let ts := r_ts r in
      if negb (Z.land ts UNCOMMITTED =? 0) && negb (ts =? ABORTED) then None else
      if (ts =? ABORTED) || (ts <=? oldest clock (r_table r) hz) || bool_decide (at_ ∈ pruned) then left_in pruned units l left_ used else
      let used := used + Z.of_nat ((length (r_words r) + 1) / 2) in
      if units <? used * 8 then None else left_in pruned units l (left_ ++ [at_]) used
  end.

Fixpoint move_all (l : list Z) (rounds : Rounds) (stubs moved : Z) (d : D) (sp : UndoSpace)
    : option (Rounds * (Z * Z) * (D * UndoSpace)) :=
  match l with
  | [] => Some (rounds, (stubs, moved), (d, sp))
  | at_ :: l =>
      match record sp at_ with
      | None => move_all l rounds stubs moved d sp
      | Some r =>
          let row := mkRow (r_table r) (r_rid r) in
          let '(copy, (own, sp)) := one (r_kind r) (r_ts r) row (r_prev r) (r_images r) (rd_own rounds) sp in
          let rounds := mkRounds (rd_waiting rounds) (rd_found rounds) (rd_cut rounds) (rd_pruned rounds) own in
          match copy with
          | None => Some (rounds, (stubs, moved), (d, sp))
          | Some copy =>
              let stubs := stubs + (if decide (r_kind r = Spilled) then 1 else 0) in
              '(found, (d, sp)) ← heads_replace (row_table row) (row_rid row) at_ copy d sp;
              if (found : bool)
              then move_all l (mkRounds (rd_waiting rounds) (rd_found rounds) (rd_cut rounds) (rd_pruned rounds ∪ {[at_]}) own)
                     stubs (moved + 1) d sp
              else move_all l rounds stubs moved d sp
          end
      end
  end.

Definition compact (rounds : Rounds) (d : D) (sp : UndoSpace) : option (Rounds * Z * (D * UndoSpace)) :=
  let moving := rd_waiting rounds ≫= λ x : Z * Z,
    default [] (left_in (rd_pruned rounds) x.2 (records sp x.1 x.2) [] 0) in
  '(rounds, (stubs, moved), (d, sp)) ← move_all moving rounds 0 0 d sp;
  let s := us_spill sp in
  let sp := if 0 <? stubs
            then with_spill (mkSpill (sp_limits s) (sp_file s) (sp_written s) (sp_stubs s + stubs) (sp_works s)) sp else sp in
  Some (rounds, moved, (d, sp)).

(** ** Spilling the oldest *)

(** The rows with a record in the oldest chunks above its table's horizon. A chunk with none does
    not count. *)
Fixpoint spill_rows (sp : UndoSpace) (pruned : gset Z) (chunks : Z) (waiting : list (Z * Z)) (taken : Z) (rows : list Row) : list Row :=
  match waiting with
  | [] => rows
  | (chunk, units) :: waiting =>
      if taken =? chunks then rows else
      let rows' := foldl (λ rows (x : Z * UndoRecord),
        let '(at_, r) := x in
        let row := mkRow (r_table r) (r_rid r) in
        if negb (bool_decide (at_ ∈ pruned)) && negb (bool_decide (r_kind r = Spilled)) && committed (r_ts r)
           && (oldest clock (r_table r) hz <? r_ts r) && negb (bool_decide (row ∈ rows))
        then rows ++ [row] else rows) rows (records sp chunk units) in
      spill_rows sp pruned chunks waiting (taken + (if zlen rows <? zlen rows' then 1 else 0)) rows'
  end.

(** The newest committed record of a chain, or 0. *)
Fixpoint newest_committed (fuel : nat) (sp : UndoSpace) (next : Z) : option Z :=
  match record sp next with
  | None => Some 0
  | Some r =>
      match fuel with
      | O => None
      | S fuel => if committed (r_ts r) then Some next else newest_committed fuel sp (r_prev r)
      end
  end.

(** A chain from [next] down: its references, its words and its encoding. *)
Fixpoint chain_tail (fuel : nat) (sp : UndoSpace) (next : Z) : option (list Z * nat * list Z) :=
  match record sp next with
  | None => Some ([], O, [])
  | Some r =>
      match fuel with
      | O => None
      | S fuel =>
          '(tail, words, bytes) ← chain_tail fuel sp (r_prev r);
          Some (next :: tail, (length (r_words r) + words)%nat, encode r ++ bytes)
      end
  end.

Record Spilling : Type := mkSpilling {
  si_rounds : Rounds;
  si_spilled : Z;
  si_killed : option Killed;
  si_hz : Horizons }.

Definition with_own (own : UndoBuffer) (pruned : gset Z) (r : Rounds) : Rounds :=
  mkRounds (rd_waiting r) (rd_found r) (rd_cut r) pruned own.

(** The loop over the rows; it ends early when the file is full or the stub has no place. *)
Fixpoint spill_each (limits : SpillLimits) (live : Z) (rows : list Row) (x : Spilling) (d : D) (sp : UndoSpace)
    : option (Spilling * (D * UndoSpace)) :=
  match rows with
  | [] => Some (x, (d, sp))
  | row :: rows =>
      newest ← newest_committed (chain_fuel sp) sp (heads_head (row_table row) (row_rid row) d);
      match record sp newest with
      | None => spill_each limits live rows x d sp
      | Some r =>
          if r_ts r <=? oldest clock (row_table row) hz then spill_each limits live rows x d sp else
          '(tail, words, bytes) ← chain_tail (chain_fuel sp) sp newest;
          if (words <=? HEADER_WORDS + IMAGE_WORDS)%nat then spill_each limits live rows x d sp else
          let len := zlen bytes in
          if li_most limits <? sp_written (us_spill sp) + len then
            let '(killed, h) := kill_oldest clock (live + sp_written (us_spill sp)) (si_hz x) in
            Some (mkSpilling (si_rounds x) (si_spilled x) killed h, (d, sp))
          else
          let '(offset, s) := Spill_append bytes (us_spill sp) in
          let sp := with_spill s sp in
          match offset with
          | None => Some (x, (d, sp))
          | Some offset =>
              let stub := mkImage 0 (Some (Z.lor offset (len ≪ 64))) in
              let '(stub, (own, sp)) := UndoBuffer_write Spilled (r_ts r) row 0 [stub] (rd_own (si_rounds x)) sp in
              let rounds := with_own own (rd_pruned (si_rounds x)) (si_rounds x) in
              match stub with
              | None => Some (mkSpilling rounds (si_spilled x) (si_killed x) (si_hz x), (d, sp))
              | Some stub =>
                  let s := us_spill sp in
                  let sp := with_spill (mkSpill (sp_limits s) (sp_file s) (sp_written s) (sp_stubs s + 1) (sp_works s)) sp in
                  '(found, (d, sp)) ← heads_replace (row_table row) (row_rid row) newest stub d sp;
                  let x := if (found : bool)
                           then mkSpilling (with_own own (rd_pruned rounds ∪ list_to_set tail) rounds)
                                  (si_spilled x + zlen tail) (si_killed x) (si_hz x)
                           else mkSpilling rounds (si_spilled x) (si_killed x) (si_hz x) in
                  spill_each limits live rows x d sp
              end
          end
      end
  end.

Definition spill_oldest (rounds : Rounds) (d : D) (sp : UndoSpace) : option (Spilling * (D * UndoSpace)) :=
  let none := mkSpilling rounds 0 None hz in
  match sp_limits (us_spill sp) with
  | None => Some (none, (d, sp))
  | Some limits =>
      let live := space_bytes sp in
      if live <=? li_at limits then Some (none, (d, sp)) else
      let chunks := (live - li_at limits + CHUNK_BYTES - 1) / CHUNK_BYTES in
      let rows := spill_rows sp (rd_pruned rounds) chunks (rd_waiting rounds) 0 [] in
      '(x, (d, sp)) ← spill_each limits live rows none d sp;
      let '(own, sp) := seal (rd_own (si_rounds x)) sp in
      Some (mkSpilling (with_own own (rd_pruned (si_rounds x)) (si_rounds x)) (si_spilled x) (si_killed x) (si_hz x), (d, sp))
  end.
End collect.

Section rounds.
Context {D : Type} `{!Heads D}.

(** One round of collection. *)
Definition collect (hz : Horizons) (clock : Z) (d : D) (sp : UndoSpace)
    : option (Collected * (Horizons * (D * UndoSpace))) :=
  let rounds := us_rounds sp in
  let waiting := rd_waiting rounds ++ us_sealed sp in
  let sp := with_sealed [] sp in
  (* Chunks cut before go on the free list. *)
  let '(ready, cut) := partition_passed hz (rd_cut rounds) in
  let freed := zlen ready in
  let sp := free_ready ready sp in
  (* Chunks found before are cut out of their chains. *)
  let '(ready, found) := partition_passed hz (rd_found rounds) in
  let c := cut_of sp ready (rd_pruned rounds) in
  '(d, sp) ← unlink_all true ((λ x : Row * (Z * Z), (x.1, x.2.2)) <$> map_to_list (cu_rows c)) d sp;
  '(d, sp) ← unlink_all false (cu_aborted c) d sp;
  (* Chunks nobody needs are found. *)
  let found_now := omap (found_in hz clock sp (cu_pruned c)) waiting in
  let waiting := filter (λ x, found_in hz clock sp (cu_pruned c) x = None) waiting in
  (* Records between two snapshots are pruned. *)
  '(pruned_now, pruned, (d, sp)) ←
     prune_all hz clock (map_to_list (pruning clock sp waiting (cu_pruned c))) 0 (cu_pruned c) d sp;
  let rounds := mkRounds waiting found cut pruned (rd_own rounds) in
  '(spilling, (d, sp)) ← spill_oldest hz clock rounds d sp;
  let hz := si_hz spilling in
  '(rounds, moved, (d, sp)) ← compact hz clock (si_rounds spilling) d sp;
  let '(own, sp) := if bool_decide (rd_waiting rounds = []) then seal (rd_own rounds) sp else (rd_own rounds, sp) in
  let '(epoch, hz) := advance hz in
  let at_epoch held := mkHeld (h_chunk held) (h_units held) epoch (h_tables held) in
  let rounds := mkRounds (rd_waiting rounds) (rd_found rounds ++ (at_epoch <$> found_now))
                  (rd_cut rounds ++ (at_epoch <$> ready)) (rd_pruned rounds) own in
  Some (mkCollected (zlen found_now) (cu_count c) freed pruned_now (si_spilled spilling) moved (si_killed spilling),
        (hz, (d, with_rounds rounds sp))).

Definition collect_due (now : Z) (hz : Horizons) (clock : Z) (d : D) (sp : UndoSpace)
    : option (option Collected * (Horizons * (D * UndoSpace))) :=
  if now <? us_due sp then Some (None, (hz, (d, sp))) else
  '(done, r) ← collect hz clock d (with_due (now + 1) sp);
  Some (Some done, r).
End rounds.
