(* ===== verification/Prune.v ===== *)
(** Interval pruning: a record [UndoSpace::spare] picks is one no reader the collector knows of can
    tell is gone, so [HotStripe::prune] leaves every such read what it was. *)

From S2P Require Import Prelude Undo UndoWords UndoAlloc Deletes Hot HotCells DeletesLaws HotChain HotRow HotStore HotWorld HotTheorems Horizon Collect.
Local Open Scope Z_scope.

(** * A chain without a record *)

Lemma settles_app k il il' : settles k (il ++ il') = match settles k il' with Some x => Some x | None => settles k il end.
Proof.
  unfold settles. rewrite filter_app, last_app. by destruct (last (filter _ il')).
Qed.

Lemma settles_some k il : k ∈ ((λ i, Z.to_nat (i_column i)) <$> il) → is_Some (settles k il).
Proof.
  intros (i&->&Hi)%list_elem_of_fmap. unfold settles.
  assert (i ∈ filter (λ j, Z.to_nat (i_column j) = Z.to_nat (i_column i)) il) as Hin by by apply list_elem_of_filter.
  destruct (filter _ il) as [|x l] eqn:E; [by apply elem_of_nil in Hin|]. destruct (last (x :: l)) eqn:El; [by eexists|]. by apply last_None in El.
Qed.

(** Images of columns that later images settle anyway. *)
Lemma undo_all_covered v il mid il' :
  (∀ i, i ∈ il → i_column i ∈ (i_column <$> il')) → undo_all v (il ++ mid ++ il') = undo_all v (mid ++ il').
Proof.
  intros Hc. apply list_eq. intros k. destruct (decide (k < length v)%nat) as [Hk|Hk].
  2:{ by rewrite !lookup_ge_None_2 by (rewrite ?length_undo_all; lia). }
  rewrite !undo_all_lookup by done. rewrite (settles_app k il), (settles_app k mid).
  destruct (settles k il') as [x|] eqn:E'; [done|]. destruct (settles k mid); [done|]. destruct (settles k il) as [x|] eqn:E; [|done].
  exfalso. unfold settles in E. apply fmap_Some in E as (i&Hi&_). apply last_Some in Hi as [l Hl].
  assert (i ∈ filter (λ i, Z.to_nat (i_column i) = k) il) as Hin by (rewrite Hl; set_solver).
  apply list_elem_of_filter in Hin as [<- Hin]. apply Hc in Hin. apply list_elem_of_fmap in Hin as (j&E&Hj).
  destruct (settles_some (Z.to_nat (i_column i)) il') as [y Hy]; [|congruence]. rewrite E. apply list_elem_of_fmap. eauto.
Qed.

(** What [spare] asks, of the records below. *)
Definition at_ts (ts : Z) (c : Rec) : bool := c_ts c =? ts.

Record spared (c : Rec) (below : list Rec) (upto : Z) (snapshots : list Z) (same : list Rec) (then_ : Z) (group rest : list Rec) : Prop := {
  sp_below : below = same ++ group ++ rest;
  sp_same : Forall (λ x, c_ts x = c_ts c) same;
  sp_group : group ≠ [] ∧ Forall (λ x, c_ts x = then_) group;
  sp_ts : Z.land (c_ts c) UNCOMMITTED = 0 ∧ c_ts c ≤ upto;
  sp_then : Z.land then_ UNCOMMITTED = 0 ∧ then_ < c_ts c;
  sp_between : ∀ snapshot, snapshot ∈ snapshots → snapshot < then_ ∨ c_ts c ≤ snapshot;
  sp_columns : ∀ i, i ∈ c_images c → i_column i ∈ (i_column <$> images_in group) }.

Definition reads_past (upto : Z) (snapshots : list Z) (snapshot : Z) : Prop := snapshot ∈ snapshots ∨ upto ≤ snapshot.

Lemma stops_at ts snapshot me :
  Z.land ts UNCOMMITTED = 0 → Z.land me UNCOMMITTED ≠ 0 → stops ts snapshot me = (ts <=? snapshot).
Proof.
  intros Ht Hme. unfold stops. rewrite Ht. destruct (Z.eqb_spec ts me) as [->|]; [done|]. done.
Qed.

Lemma spared_unread c below upto snapshots same then_ group rest snapshot me v :
  spared c below upto snapshots same then_ group rest → reads_past upto snapshots snapshot → Z.land me UNCOMMITTED ≠ 0 →
  readc (c :: below) snapshot me v = readc below snapshot me v.
Proof.
  intros [Hb Hs [Hg Hgs] [Ht Hup] [Hth Hlt] Hbet Hcol] Hr Hme. cbn [readc]. rewrite stops_at by done.
  destruct (Z.leb_spec (c_ts c) snapshot) as [Hle|Hgt].
  - rewrite Hb. destruct same as [|x same].
    + cbn [app]. rewrite readc_stops; [done|done|]. eapply Forall_impl; [exact Hgs|]. intros x ->. rewrite stops_at by done. apply Z.leb_le. lia.
    + symmetry. apply (readc_stops (x :: same)); [done|]. eapply Forall_impl; [exact Hs|]. intros y ->. rewrite stops_at by done. by apply Z.leb_le.
  - assert (snapshot < then_) as Hold. { destruct Hr as [Hin|?]; [|lia]. destruct (Hbet snapshot Hin); lia. }
    rewrite Hb, (assoc_L app same group rest).
    assert (Forall (λ x, stops (c_ts x) snapshot me = false) (same ++ group)) as Hpass.
    { apply Forall_app. split; (eapply Forall_impl; [eassumption|]); intros x ->; rewrite stops_at by done; apply Z.leb_gt; lia. }
    rewrite !(readc_passes (same ++ group)) by done. f_equal. unfold undo_all. rewrite <-foldl_app, bind_app. by apply undo_all_covered.
Qed.

(** A chain read past its newest part. *)
Lemma readc_below l below below' snapshot me :
  (∀ v, readc below snapshot me v = readc below' snapshot me v) → ∀ v, readc (l ++ below) snapshot me v = readc (l ++ below') snapshot me v.
Proof. intros H. induction l as [|c l IH]; intros v; [apply H|]. cbn [app readc]. case_match; [done|]. apply IH. Qed.

Lemma readc_prev prev c l snapshot me v : readc (with_prev prev c :: l) snapshot me v = readc (c :: l) snapshot me v.
Proof. done. Qed.

(** * What [spare] found *)

Section walk.
Context {sp : UndoSpace} {bufs : list UndoBuffer} {G : Kept} (Hsp : space_ok sp bufs G).

Lemma older_than_spec ts refs : ∀ next fuel,
  linked G next refs → (length refs < fuel)%nat →
  ∃ same others, refs = same ++ others ∧ Forall (λ x, c_ts x = ts) (recs G same)
    ∧ match others with
      | [] => older_than fuel sp ts next = Some None
      | a :: _ => ∃ c, G !! a = Some c ∧ rec_ok c ∧ c_ts c ≠ ts ∧ linked G a others
          ∧ older_than fuel sp ts next = Some (Some (mkRecord a (words_of c)))
      end.
Proof.
  induction refs as [|a refs IH]; intros next fuel Hl Hf.
  - exists [], []. cbn in Hl. subst next. destruct fuel; cbn [older_than]; by rewrite (no_record_zero _ _ _ Hsp).
  - pose proof Hl as Hl0. destruct (linked_step _ _ _ _ _ _ Hsp Hl) as (c&->&Hg&Hok&Hr&Hl'&Er).
    destruct (rec_of_fields c a Hok) as (E1&E2&E3&E4). destruct fuel as [|fuel]; [cbn in Hf; lia|].
    cbn [older_than]. rewrite Hr, E2, E1. destruct (Z.eqb_spec (c_ts c) ts) as [Et|Ht]; cbn [negb].
    + destruct (IH (c_prev c) fuel Hl') as (same&others&->&Hs&Ho); [cbn in Hf; lia|]. exists (a :: same), others. split_and!; [done| |done].
      rewrite (recs_cons _ _ _ _ Hg). by constructor.
    + exists [], (a :: refs). split_and!; [done|constructor|]. exists c. by split_and!.
Qed.

Lemma columns_of_spec ts refs : ∀ next fuel,
  linked G next refs → (length refs < fuel)%nat →
  ∃ group rest, refs = group ++ rest ∧ Forall (λ x, c_ts x = ts) (recs G group)
    ∧ columns_of fuel sp ts (record sp next) = i_column <$> images_in (recs G group)
    ∧ (∀ a c refs', refs = a :: refs' → G !! a = Some c → c_ts c = ts → group ≠ []).
Proof.
  induction refs as [|a refs IH]; intros next fuel Hl Hf.
  - exists [], []. cbn in Hl. subst next. rewrite (no_record_zero _ _ _ Hsp). split_and!; [done|constructor|by destruct fuel|done].
  - destruct (linked_step _ _ _ _ _ _ Hsp Hl) as (c&->&Hg&Hok&Hr&Hl'&Er).
    destruct (rec_of_fields c a Hok) as (E1&E2&E3&E4). destruct fuel as [|fuel]; [cbn in Hf; lia|].
    rewrite Hr. cbn [columns_of]. rewrite E2, E4, E1. destruct (Z.eqb_spec (c_ts c) ts) as [Et|Ht].
    + destruct (IH (c_prev c) fuel Hl') as (group&rest&->&Hs&Hc&_); [cbn in Hf; lia|]. exists (a :: group), rest. split_and!; [done| | |done].
      * rewrite (recs_cons _ _ _ _ Hg). by constructor.
      * by rewrite (recs_cons _ _ _ _ Hg), bind_cons, fmap_app, Hc.
    + exists [], (a :: refs). split_and!; [done|constructor|done|]. intros ? ? ? [= <- <-] Hg' Ht'. congruence.
Qed.

Lemma between_snapshots snapshots then_ ts :
  StronglySorted Z.le snapshots →
  (∀ x, snapshots !! prefix_length (λ snapshot, snapshot <? then_) snapshots = Some x → ts ≤ x) →
  ∀ snapshot, snapshot ∈ snapshots → snapshot < then_ ∨ ts ≤ snapshot.
Proof.
  induction 1 as [|x l Hs IH Hx]; intros Hat snapshot Hin; [by apply elem_of_nil in Hin|]. cbn [prefix_length] in Hat.
  destruct (Z.ltb_spec x then_) as [Hlt|Hge].
  - apply elem_of_cons in Hin as [->|Hin]; [by left|]. by apply IH.
  - specialize (Hat x eq_refl). apply elem_of_cons in Hin as [->|Hin]; [by right|]. right. rewrite Forall_forall in Hx. apply Hx in Hin. lia.
Qed.

Lemma spare_spared a c refs upto snapshots :
  G !! a = Some c → linked G (c_prev c) refs → (length refs < chain_fuel sp)%nat → StronglySorted Z.le snapshots →
  spare sp (mkRecord a (words_of c)) upto snapshots = true →
  ∃ same then_ group rest, spared c (recs G refs) upto snapshots same then_ group rest.
Proof.
  intros Hg Hl Hf Hs. destruct (so_recs _ _ _ Hsp a c Hg) as [Hok _]. destruct (rec_of_fields c a Hok) as (E1&E2&E3&E4).
  unfold spare. rewrite E1, E2, E3, E4.
  destruct (negb (bool_decide (c_kind c = Update)) || negb (committed (c_ts c)) || (upto <? c_ts c)) eqn:Eg; [done|].
  apply orb_false_iff in Eg as [[_ Hcm%negb_false_iff]%orb_false_iff Hup%Z.ltb_ge]. apply andb_true_iff in Hcm as [Hcm%Z.eqb_eq _].
  destruct (older_than_spec (c_ts c) refs (c_prev c) (chain_fuel sp) Hl Hf) as (same&others&Er&Hsame&Ho).
  destruct others as [|b others]; [by rewrite Ho|]. destruct Ho as (o&Hgo&Hoko&Hne&Hlo&->).
  destruct (rec_of_fields o b Hoko) as (F1&F2&F3&F4). rewrite F2, F3.
  destruct (negb (bool_decide (c_kind o = Update)) || negb (committed (c_ts o)) || (c_ts c <=? c_ts o)) eqn:Eo; [done|].
  apply orb_false_iff in Eo as [[_ Hco%negb_false_iff]%orb_false_iff Hlt%Z.leb_gt]. apply andb_true_iff in Hco as [Hco%Z.eqb_eq _].
  destruct (columns_of_spec (c_ts o) (b :: others) b (chain_fuel sp) Hlo) as (group&rest&Eg&Hgr&Hcol&Hnn).
  { rewrite Er, length_app in Hf. lia. }
  destruct (space_record _ _ _ _ _ Hsp Hgo) as [Hro _]. rewrite Hro in Hcol. intros Hsp'.
  assert (forallb (λ i, bool_decide (i_column i ∈ columns_of (chain_fuel sp) sp (c_ts o) (Some (mkRecord b (words_of o))))) (c_images c) = true
    ∧ ∀ x, snapshots !! prefix_length (λ snapshot, snapshot <? c_ts o) snapshots = Some x → c_ts c ≤ x) as [Hall Hbt].
  { destruct (snapshots !! prefix_length _ snapshots) as [x|]; [|by split].
    destruct (Z.ltb_spec x (c_ts c)); [done|]. split; [done|]. by intros ? [= <-]. }
  exists (recs G same), (c_ts o), (recs G group), (recs G rest). split.
  - by rewrite Er, Eg, !recs_app.
  - done.
  - split; [|done]. specialize (Hnn b o others eq_refl Hgo eq_refl). destruct group as [|x group]; [done|]. injection Eg as <- _.
    rewrite (recs_cons _ _ _ _ Hgo). done.
  - done.
  - done.
  - by apply between_snapshots.
  - intros i Hi. rewrite forallb_forall in Hall. apply list_elem_of_In in Hi. apply Hall in Hi. apply bool_decide_eq_true in Hi. by rewrite Hcol in Hi.
Qed.
End walk.

(** * Taking records out *)

Lemma chain_loop_refs sp bufs G refs : space_ok sp bufs G → ∀ next fuel,
  linked G next refs → (length refs < fuel)%nat → chain_loop fuel sp next = Some refs.
Proof.
  intros Hsp. induction refs as [|a refs IH]; intros next fuel Hl Hf.
  - cbn in Hl. subst next. destruct fuel; cbn [chain_loop]; by rewrite (no_record_zero _ _ _ Hsp).
  - destruct (linked_step _ _ _ _ _ _ Hsp Hl) as (c&->&Hg&Hok&Hr&Hl'&_). destruct (rec_of_fields c a Hok) as (E1&_).
    destruct fuel as [|fuel]; [cbn in Hf; lia|]. cbn [chain_loop]. rewrite Hr, E1, (IH _ fuel Hl') by (cbn in Hf; lia). done.
Qed.

(** A record taken out of a chain: the one above points past it. *)
Lemma linked_without G n a c c' pre kept : ∀ head,
  linked G head (pre ++ n :: a :: kept) → NoDup (pre ++ n :: a :: kept) → G !! n = Some c → G !! a = Some c' →
  linked (<[n := with_prev (c_prev c') c]> G) head (pre ++ n :: kept) ∧ linked G (c_prev c') kept
  ∧ recs (<[n := with_prev (c_prev c') c]> G) (pre ++ n :: kept) = recs G pre ++ with_prev (c_prev c') c :: recs G kept.
Proof.
  intros head Hl Hnd Hn Ha. apply NoDup_app in Hnd as (Hpre&Hdis&Hnd). apply NoDup_cons in Hnd as [Hnn Hnd]. apply NoDup_cons in Hnd as [Han Hkept].
  assert (∀ x, x ∈ pre → x ≠ n) as Hpn by (intros x Hx ->; apply (Hdis n Hx); by left).
  assert (∀ x, x ∈ kept → x ≠ n) as Hkn by (intros x Hx ->; apply Hnn; by right).
  assert (linked G (c_prev c') kept ∧ linked (<[n := with_prev (c_prev c') c]> G) head (pre ++ n :: kept)) as [H1 H2].
  { clear Hpre Hdis. revert head Hl. induction pre as [|x pre IH]; intros head Hl; cbn [app linked] in *.
    - destruct Hl as (->&c1&Hc1&Ea&c2&Hc2&Hl). rewrite Ha in Hc2. injection Hc2 as <-. split; [done|]. split; [done|].
      exists (with_prev (c_prev c') c). split; [apply lookup_insert_eq|]. cbn [with_prev c_prev]. eapply linked_frame; [|exact Hl].
      intros y Hy. rewrite lookup_insert_ne; [done|]. intros <-. by apply (Hkn n).
    - destruct Hl as (->&cx&Hcx&Hl). destruct (IH ltac:(intros y Hy; apply Hpn; by right) _ Hl) as [IH1 IH2].
      split; [done|]. split; [done|]. exists cx. split; [|done]. rewrite lookup_insert_ne; [done|]. intros <-. apply (Hpn n); [by left|done]. }
  split_and!; [done..|]. rewrite recs_app. rewrite (recs_cons _ _ _ _ (lookup_insert_eq _ _ _)).
  rewrite (recs_frame G _ pre) by (intros x Hx; rewrite lookup_insert_ne; [done|]; intros E; by apply (Hpn x)).
  by rewrite (recs_frame G _ kept) by (intros x Hx; rewrite lookup_insert_ne; [done|]; intros E; by apply (Hkn x)).
Qed.

Lemma zip_tail_snoc {A} (l : list A) n a : zip (l ++ [n; a]) (tail (l ++ [n; a])) = zip (l ++ [n]) (tail (l ++ [n])) ++ [(n, a)].
Proof. induction l as [|x [|y l] IH]; [done|done|]. cbn [app tail zip zip_with] in *. by f_equal. Qed.

Section prune.
Context (pick : UndoSpace → Z → bool) (upto : Z) (snaps : list Z) (Hsorted : StronglySorted Z.le snaps).
Context (Hpick : ∀ sp at_, pick sp at_ = true → ∃ r, record sp at_ = Some r ∧ spare sp r upto snaps = true).
Context (bufs : list UndoBuffer).

(** The chain of a row read the same by everyone the collector knows of. *)
Definition same_reads (l l' : list Rec) : Prop :=
  ∀ snapshot me v, reads_past upto snaps snapshot → Z.land me UNCOMMITTED ≠ 0 → readc l' snapshot me v = readc l snapshot me v.

(** What pruning leaves of the records kept: each is what it was but for the one below it. *)
Record pruned_from (sp sp' : UndoSpace) (G G' : Kept) (refs refs' : list Z) : Prop := {
  pf_space : space_ok sp' bufs G';
  pf_refs : refs' ⊆+ refs;
  pf_reads : same_reads (recs G refs) (recs G' refs');
  pf_others : ∀ x, x ∉ refs → G' !! x = G !! x;
  pf_kinds : ∀ x c', G' !! x = Some c' → ∃ c, G !! x = Some c ∧ c_kind c' = c_kind c }.

Lemma pruned_trans sp sp1 sp2 G G1 G2 refs refs1 refs2 :
  pruned_from sp sp1 G G1 refs refs1 → pruned_from sp1 sp2 G1 G2 refs1 refs2 → pruned_from sp sp2 G G2 refs refs2.
Proof.
  intros [A1 A2 A3 A4 A5] [B1 B2 B3 B4 B5]. split.
  - done.
  - by etransitivity.
  - intros snapshot me v Hr Hme. rewrite B3 by done. by apply A3.
  - intros x Hx. rewrite B4; [by apply A4|]. intros Hin. apply Hx. by eapply elem_of_submseteq.
  - intros x c' Hc'. destruct (B5 x c' Hc') as (c1&Hc1&E1). destruct (A5 x c1 Hc1) as (c&Hc&E). exists c. split; [done|congruence].
Qed.

(** One record the collector picks. *)
Lemma prune_one sp G head pre n a kept c c' :
  space_ok sp bufs G → linked G head (pre ++ n :: a :: kept) → NoDup (pre ++ n :: a :: kept) →
  G !! n = Some c → G !! a = Some c' → pick sp a = true →
  let sp' := set_prev (mkRecord n (words_of c)) (c_prev c') sp in
  let G' := <[n := with_prev (c_prev c') c]> G in
  pruned_from sp sp' G G' (pre ++ n :: a :: kept) (pre ++ n :: kept) ∧ linked G' head (pre ++ n :: kept) ∧ NoDup (pre ++ n :: kept).
Proof.
  intros Hsp Hl Hnd Hn Ha Hp sp' G'. destruct (linked_without G n a c c' pre kept head Hl Hnd Hn Ha) as (L1&L2&L3).
  destruct (so_recs _ _ _ Hsp a c' Ha) as [Hok' _]. destruct (set_prev_ok sp bufs G n c (c_prev c') Hsp Hn (ro_prev _ Hok')) as (S1&_&_).
  assert (pre ++ n :: kept ⊆+ pre ++ n :: a :: kept) as Hsub.
  { apply submseteq_app; [done|]. apply submseteq_skip. by apply submseteq_cons. }
  split_and!; [|done|].
  2:{ eapply sublist_NoDup; [exact Hnd|]. apply sublist_app; [done|]. apply sublist_skip. by apply sublist_cons. }
  split; [done|done| | |].
  - destruct (Hpick sp a Hp) as (r&Hr&Hspare). destruct (space_record _ _ _ _ _ Hsp Ha) as [Hr' _]. rewrite Hr in Hr'. injection Hr' as ->.
    assert (length kept < chain_fuel sp)%nat as Hf.
    { eapply refs_bound; [exact Hsp| |intros x Hx; by eapply linked_kept].
      apply NoDup_app in Hnd as (_&_&Hnd). apply NoDup_cons in Hnd as [_ Hnd]. by apply NoDup_cons in Hnd as [_ Hnd]. }
    destruct (spare_spared Hsp a c' kept upto snaps Ha L2 Hf Hsorted Hspare) as (same&then_&group&rest&Hs).
    intros snapshot me v Hr' Hme. unfold G'. rewrite L3, recs_app, (recs_cons _ _ _ _ Hn), (recs_cons _ _ _ _ Ha).
    apply readc_below. clear v. intros v. rewrite readc_prev. apply (readc_below [c]). clear v. intros v.
    symmetry. by eapply spared_unread.
  - intros x Hx. unfold G'. rewrite lookup_insert_ne; [done|]. intros <-. apply Hx. set_solver.
  - intros x d Hd. unfold G' in Hd. apply lookup_insert_Some in Hd as [[<- <-]|[_ Hd]]; eauto.
Qed.

Lemma pruned_refl sp G refs : space_ok sp bufs G → pruned_from sp sp G G refs refs.
Proof. intros Hsp. split; [done|done|by intros ? ? ?|done|eauto]. Qed.

Lemma prune_loop_ok front n : ∀ kept taken sp G head,
  space_ok sp bufs G → linked G head (front ++ n :: kept) → NoDup (front ++ n :: kept) →
  ∃ taken' sp' G' refs, prune_loop pick (reverse (zip (front ++ [n]) (tail (front ++ [n])))) taken sp = (taken', sp')
    ∧ pruned_from sp sp' G G' (front ++ n :: kept) refs ∧ linked G' head refs ∧ NoDup refs.
Proof.
  revert n. induction front as [|m front IH] using rev_ind; intros n kept taken sp G head Hsp Hl Hnd.
  { exists taken, sp, G, (n :: kept). split_and!; [done|by apply pruned_refl|done..]. }
  rewrite <-!(assoc_L app) in *. cbn [app] in *. rewrite zip_tail_snoc, reverse_app, reverse_singleton. cbn [app prune_loop].
  assert (is_Some (G !! m) ∧ is_Some (G !! n)) as [[c Hc] [c' Hc']] by (split; eapply linked_kept; [done|set_solver|done|set_solver]).
  destruct (pick sp n) eqn:Ep; cbn [negb].
  - destruct (space_record _ _ _ _ _ Hsp Hc) as [Hr _]. destruct (space_record _ _ _ _ _ Hsp Hc') as [Hr' _]. rewrite Hr, Hr'.
    destruct (rec_of_fields c' n (proj1 (so_recs _ _ _ Hsp n c' Hc'))) as (E1&_). rewrite E1.
    destruct (prune_one sp G head front m n kept c c' Hsp Hl Hnd Hc Hc' Ep) as (P&L&N).
    destruct (IH m kept (taken ++ [n]) _ _ head (pf_space _ _ _ _ _ _ P) L N) as (taken'&sp'&G'&refs&E&P'&L'&N').
    exists taken', sp', G', refs. split_and!; [done|by eapply pruned_trans|done..].
  - destruct (IH m (n :: kept) taken sp G head Hsp Hl Hnd) as (taken'&sp'&G'&refs&E&P'&L'&N'). by exists taken', sp', G', refs.
Qed.
End prune.

(** * Theorem *)

Lemma exists_last_cases {A} (l : list A) : l = [] ∨ ∃ front n, l = front ++ [n].
Proof. destruct l as [|x l] using rev_ind; [by left|right; eauto]. Qed.

Section world.
Context {ws : list Width} {s : HotStripe} {sp0 : UndoSpace} {bufs : list UndoBuffer} {A : VStore} {G0 : Kept} {R0 : Z → list Z}.
Context (HK : kept ws (mkWorld s sp0 bufs) A G0 R0).

(** The chains of the stripe's rows, in a space the collector has taken records out of. *)
Record chained (sp : UndoSpace) (G : Kept) (R : Z → list Z) : Prop := {
  cd_space : space_ok sp bufs G;
  cd_row : ∀ t a, A !! t = Some a → linked G (Hot_head s t) (R t) ∧ NoDup (R t) ∧ Forall in_memory (recs G (R t));
  cd_apart : ∀ t u a b, A !! t = Some a → A !! u = Some b → t ≠ u → ∀ x, x ∈ R t → x ∉ R u }.

Lemma chained_at_first : chained sp0 G0 R0.
Proof.
  split; [apply (kp_space _ _ _ _ _ HK)| |apply (kp_apart _ _ _ _ _ HK)].
  intros t a Ha. destruct (the_slot HK Ha) as [_ _ _ L N (own&rest&ER&Hrow)]. split_and!; [done..|].
  rewrite ER, recs_app. apply (ok_memory _ _ _ _ _ _ _ _ Hrow).
Qed.

Lemma chained_fuel sp G R t a : chained sp G R → A !! t = Some a → (length (R t) < chain_fuel sp)%nat.
Proof.
  intros HC Ha. destruct (cd_row _ _ _ HC t a Ha) as (L&N&_). eapply refs_bound; [apply (cd_space _ _ _ HC)|done|].
  intros x Hx. by eapply linked_kept.
Qed.

(** A row whose chain is in a space, read there. *)
Lemma chained_reads sp G R t a columns snapshot txn :
  chained sp G R → A !! t = Some a → NoDup columns → Forall (λ c, 0 ≤ c < zlen ws) columns →
  read_as_of s sp t columns snapshot txn
  = Some (asked columns (readc (recs G (R t)) snapshot (Z.lor txn UNCOMMITTED) (row_values s t))).
Proof.
  intros HC Ha Hc1 Hc2. pose proof (kp_stripe _ _ _ _ _ HK) as [_ _ _ _ Kw _]. cbn [w_stripe] in Kw.
  destruct (cd_row _ _ _ HC t a Ha) as (Hl&Hnd&Hm). pose proof (cd_space _ _ _ HC) as Hsp.
  assert (zlen (row_values s t) = zlen ws) as Elen by (unfold zlen; rewrite length_row_values; congruence).
  unfold read_as_of. rewrite read_columns by by rewrite Elen. rewrite some_bind.
  rewrite head_def in Hl. unfold at_def, slot_get in Hl. destruct (place t) as [part at_]. cbn [fst snd] in Hl.
  destruct (parts_get 0 (st_undo s) part at_) as [head|]; cbn [default from_option id] in Hl.
  - apply (undo_into_readc sp bufs G); [done..|by rewrite Elen|]. by eapply chained_fuel.
  - destruct (R t) as [|x refs']; [done|]. destruct Hl as (<-&c&Hc0&_). apply (so_recs _ _ _ Hsp) in Hc0 as (_&_&_&?). lia.
Qed.

Lemma recs_kinds (G G' : Kept) refs refs' :
  (∀ x c', G' !! x = Some c' → ∃ c, G !! x = Some c ∧ c_kind c' = c_kind c) → refs' ⊆+ refs →
  Forall in_memory (recs G refs) → Forall in_memory (recs G' refs').
Proof.
  intros Hk Hsub Hm. apply Forall_forall. intros c' (x&Hx&Hc')%list_elem_of_omap. destruct (Hk x c' Hc') as (c&Hc&E).
  unfold in_memory. rewrite E. rewrite Forall_forall in Hm. apply Hm. apply list_elem_of_omap. exists x. split; [by eapply elem_of_submseteq|done].
Qed.

(** The chain of one row pruned: that of every other row is left alone. *)
Lemma chained_pruned upto snaps sp sp' G G' R slot a refs :
  chained sp G R → A !! slot = Some a → pruned_from upto snaps bufs sp sp' G G' (R slot) refs →
  linked G' (Hot_head s slot) refs → NoDup refs →
  chained sp' G' (λ t, if decide (t = slot) then refs else R t)
  ∧ ∀ t b, A !! t = Some b → t ≠ slot → recs G' (R t) = recs G (R t).
Proof.
  intros HC Ha [P1 P2 P3 P4 P5] L N.
  assert (∀ t b, A !! t = Some b → t ≠ slot → ∀ x, x ∈ R t → G' !! x = G !! x) as Hf.
  { intros t b Hb Hne x Hx. apply P4. by eapply (cd_apart _ _ _ HC t slot). }
  assert (∀ x, x ∈ refs → x ∈ R slot) as Hsub by (intros x Hx; by eapply elem_of_submseteq).
  split; [split; [done| |]|].
  - intros t b Hb. destruct (cd_row _ _ _ HC t b Hb) as (Lt&Nt&Mt). destruct (decide (t = slot)) as [->|Hne].
    + split_and!; [done..|]. by eapply recs_kinds.
    + split_and!; [eapply linked_frame; [by eapply Hf|done]|done|]. by rewrite (recs_frame G) by by eapply Hf.
  - intros t u b c Hb Hc Hne x Hx. pose proof (cd_apart _ _ _ HC) as Hap.
    repeat case_decide; subst; [done|by eapply (Hap slot u); eauto|intros Hx2; by eapply (Hap t slot); eauto|by eapply (Hap t u)].
  - intros t b Hb Hne. apply recs_frame. by eapply Hf.
Qed.

Lemma prune_untouched pick sp G R slot :
  chained sp G R → 0 ≤ slot → A !! slot = None → prune slot pick s sp = Some ([], sp).
Proof.
  intros HC H0 Ha. destruct (kp_rest _ _ _ _ _ HK slot H0 Ha) as [Hh _]. cbn [w_stripe] in Hh.
  unfold Hot_head in Hh. unfold prune. destruct (place slot) as [part at_].
  destruct (parts_get 0 (st_undo s) part at_) as [head|]; [|done]. cbn [default from_option id] in Hh. subst head.
  by rewrite (chain_loop_refs sp bufs G [] (cd_space _ _ _ HC) 0) by (done || unfold chain_fuel; cbn [length]; lia).
Qed.

(** Readers the collector knows of read the same of every row. *)
Definition reads_kept (upto : Z) (snaps : list Z) (sp sp' : UndoSpace) : Prop :=
  ∀ t a columns snapshot txn, A !! t = Some a → reads_past upto snaps snapshot → fits 63 txn →
    NoDup columns → Forall (λ c, 0 ≤ c < zlen ws) columns →
    read_as_of s sp' t columns snapshot txn = read_as_of s sp t columns snapshot txn.

Lemma prune_step pick upto snaps sp G R slot :
  chained sp G R → StronglySorted Z.le snaps →
  (∀ sp at_, pick sp at_ = true → ∃ r, record sp at_ = Some r ∧ spare sp r upto snaps = true) → 0 ≤ slot →
  ∃ taken sp' G' R', prune slot pick s sp = Some (taken, sp') ∧ chained sp' G' R' ∧ reads_kept upto snaps sp sp'.
Proof.
  intros HC Hsorted Hpick H0. destruct (A !! slot) as [a|] eqn:Ha.
  2:{ exists [], sp, G, R. split_and!; [by eapply prune_untouched|done|]. by intros ? *. }
  destruct (cd_row _ _ _ HC slot a Ha) as (L&N&_). pose proof (cd_space _ _ _ HC) as Hsp.
  assert (∃ taken sp' G' refs, prune slot pick s sp = Some (taken, sp') ∧ pruned_from upto snaps bufs sp sp' G G' (R slot) refs
    ∧ linked G' (Hot_head s slot) refs ∧ NoDup refs) as (taken&sp'&G'&refs&E&P&L'&N').
  { unfold prune. pose proof L as L0. rewrite head_def in L0. unfold at_def, slot_get in L0. destruct (place slot) as [part at_]. cbn [fst snd] in L0.
    destruct (parts_get 0 (st_undo s) part at_) as [head|]; cbn [default from_option id] in L0.
    2:{ exists [], sp, G, (R slot). split_and!; [done|by apply pruned_refl|done..]. }
    rewrite (chain_loop_refs sp bufs G (R slot) Hsp) by (done || by eapply chained_fuel). rewrite some_bind.
    destruct (exists_last_cases (R slot)) as [ER|(front&n&ER)]; rewrite ER in *.
    { exists [], sp, G, []. split_and!; [done|by apply pruned_refl|done..]. }
    destruct (prune_loop_ok pick upto snaps Hsorted Hpick bufs front n [] [] sp G (Hot_head s slot) Hsp L N) as (taken'&sp'&G'&refs&->&P&L'&N').
    by exists taken', sp', G', refs. }
  destruct (chained_pruned upto snaps sp sp' G G' R slot a refs HC Ha P L' N') as [HC' Hf].
  exists taken, sp', G', (λ t, if decide (t = slot) then refs else R t). split_and!; [done..|].
  intros t b columns snapshot txn Hb Hr Ht Hc1 Hc2. rewrite (chained_reads _ _ _ t b _ _ _ HC') by done. rewrite (chained_reads _ _ _ t b _ _ _ HC) by done.
  case_decide as Hd; [subst t|by rewrite (Hf t b)]. f_equal. f_equal. apply (pf_reads _ _ _ _ _ _ _ _ _ P); [done|]. by rewrite me_bit.
Qed.

Lemma picked_spared (asking : gset Z) upto snaps sp at_ :
  bool_decide (at_ ∈ asking) && match record sp at_ with Some r => spare sp r upto snaps | None => false end = true →
  ∃ r, record sp at_ = Some r ∧ spare sp r upto snaps = true.
Proof. intros [_ H]%andb_true_iff. destruct (record sp at_) as [r|]; [|done]. by exists r. Qed.

Lemma snapshots_sorted table hz : StronglySorted Z.le (snapshots table hz).
Proof. apply StronglySorted_merge_sort; [intros x y z; lia|intros x y; lia]. Qed.

(** Every chain the collector asks about, one after the other, in a directory where no stripe but
    this one is hot. *)
Lemma prune_all_step hz clock d l : ∀ count taken sp G R,
  chained sp G R → (∀ rid x, find_hot d (di_table d) rid = Some x → x = s) →
  ∃ count' taken' sp' G' R', prune_all hz clock l count taken d sp = Some (count', taken', (d, sp'))
    ∧ chained sp' G' R' ∧ reads_kept clock (snapshots (di_table d) hz) sp sp'.
Proof.
  induction l as [|[row asking] l IH]; intros count taken sp G R HC Hs.
  { exists count, taken, sp, G, R. split_and!; [done..|]. by intros ? *. }
  cbn [prune_all heads_prune StripeDirectory_heads]. destruct (find_hot d (row_table row) (row_rid row)) as [x|] eqn:Ef.
  2:{ rewrite some_bind. by eapply IH. }
  assert (row_table row = di_table d) as Et by (unfold find_hot in Ef; by destruct (Z.eqb_spec (row_table row) (di_table d))).
  rewrite Et in *. rewrite (Hs _ _ Ef). clear x Ef.
  edestruct (prune_step _ clock (snapshots (di_table d) hz) sp G R (rid_slot (row_rid row)) HC (snapshots_sorted _ _) (picked_spared asking _ _))
    as (now&sp1&G1&R1&E&HC1&K1); [by apply (wrap_fits 32)|].
  rewrite E, some_bind, some_bind. destruct (IH (count + zlen now) (taken ∪ list_to_set now) sp1 G1 R1 HC1 Hs) as (count'&taken'&sp'&G'&R'&E'&HC'&K').
  exists count', taken', sp', G', R'. split_and!; [done..|]. intros t a columns snapshot txn Ht Hr Htx Hc1 Hc2.
  rewrite (K' t a) by done. by apply (K1 t a).
Qed.
End world.

(** C8. Interval pruning loses no version anyone can ask for: after any run of legal operations on a
    stripe, the part of [UndoSpace::collect] that takes records out of the middle of chains, whatever
    records it may ask about, answers without a panic and leaves every read what it was, for a
    reader whose snapshot [Horizons::snapshots] found for the table or that is at or past the clock
    the round read first. Together with [snapshots_miss_no_reader] that is every reader there is. *)
Theorem pruning_keeps_every_read id table ws n workers ops rs w hz clock l count taken :
  u32 id → u32 table → 0 < n ≤ STRIPE_ROWS → zlen ws ≤ 2 ^ 16 →
  legal_run ws workers (empty_store ws n) ops → run_weight ops < 2 ^ 20 →
  run ops (leased id table ws n workers) = Some (rs, w) →
  let d := mkDirectory table {[id := w_stripe w]} in
  ∃ count' taken' sp', prune_all hz clock l count taken d (w_space w) = Some (count', taken', (d, sp'))
    ∧ ∀ slot columns snapshot txn, 0 ≤ slot < n → snapshot ∈ snapshots table hz ∨ clock ≤ snapshot → txn_ok txn →
        NoDup columns → Forall (λ c, 0 ≤ c < zlen ws) columns →
        read_as_of (w_stripe w) sp' slot columns snapshot txn = read_as_of (w_stripe w) (w_space w) slot columns snapshot txn.
Proof.
  intros Hid Htab Hn Hws Hl Hw E d.
  destruct (run_from_lease id table ws n workers Hid Htab Hn Hws ops Hl Hw) as (w'&E'&Hk&_). rewrite E in E'. injection E' as _ <-.
  destruct Hk as (G&R&HK). destruct w as [s sp bufs].
  destruct (prune_all_step HK hz clock d l count taken sp G R (chained_at_first HK)) as (count'&taken'&sp'&_&_&Ep&_&Hread).
  { intros rid x. unfold find_hot, d. cbn [di_table di_hot w_stripe]. rewrite Z.eqb_refl. by intros [_ <-]%lookup_singleton_Some. }
  exists count', taken', sp'. split; [done|]. intros slot columns snapshot txn Ht Hr Htx Hc1 Hc2.
  destruct (vrun_there ops (empty_store ws n) slot) as [a Ha]; [by apply empty_store_there|].
  apply (Hread slot a); try done. unfold txn_ok, fits in *. lia.
Qed.

(** * Witness *)

(** A row changed three times while a statement that began before the changes still runs. *)
Definition thrice : list Op :=
  [Fill 0 (mkImage 0 (Some 10)); Insert [0] 1; CommitInsert [0] 1 5;
   UpdateRow 0 0 [mkImage 0 (Some 20)] 5 2; CommitRow 0 2 7; UpdateRow 0 0 [mkImage 0 (Some 30)] 7 3; CommitRow 0 3 9;
   UpdateRow 0 0 [mkImage 0 (Some 40)] 9 4; CommitRow 0 4 11].

Definition one_reader : Horizons := mkHorizons [mkSlot 6 0 (mkSlotHeld All None) Free] 0.

Lemma thrice_legal : legal_run sample_widths 1 (empty_store sample_widths 1) thrice.
Proof. unfold thrice. legal_sample. Qed.

Lemma pruning_keeps_every_read_witness :
  ∃ rs w taken sp', run thrice (leased 1 1 sample_widths 1 1) = Some (rs, w)
    ∧ prune_all one_reader 11 (map_to_list (pruning 11 (w_space w) [(1, 64)] ∅)) 0 ∅ (mkDirectory 1 {[1 := w_stripe w]}) (w_space w)
      = Some (1, taken, (mkDirectory 1 {[1 := w_stripe w]}, sp'))
    ∧ read_as_of (w_stripe w) sp' 0 [0; 1] 6 8 = read_as_of (w_stripe w) (w_space w) 0 [0; 1] 6 8
    ∧ read_as_of (w_stripe w) (w_space w) 0 [0; 1] 6 8 = Some [Some 10; None].
Proof.
  assert (match run thrice (leased 1 1 sample_widths 1 1) with
    | Some (_, w) =>
        (λ x, x.1.1) <$> prune_all one_reader 11 (map_to_list (pruning 11 (w_space w) [(1, 64)] ∅)) 0 ∅ (mkDirectory 1 {[1 := w_stripe w]}) (w_space w)
          = Some 1
        ∧ read_as_of (w_stripe w) (w_space w) 0 [0; 1] 6 8 = Some [Some 10; None]
    | None => False end) as Hc by (vm_compute; split; reflexivity).
  destruct (run thrice (leased 1 1 sample_widths 1 1)) as [[rs w]|] eqn:E; [|destruct Hc]. destruct Hc as [Ec Er].
  destruct (pruning_keeps_every_read 1 1 sample_widths 1 1 thrice rs w one_reader 11 (map_to_list (pruning 11 (w_space w) [(1, 64)] ∅)) 0 ∅)
    as (count&taken&sp'&Ep&H); [by split|by split|unfold STRIPE_ROWS; lia|vm_compute; discriminate|apply thrice_legal|by vm_compute|exact E|].
  rewrite Ep in Ec. injection Ec as ->. exists rs, w, taken, sp'. split_and!; [reflexivity|exact Ep| |exact Er].
  apply H; [lia|left; by apply (bool_decide_unpack _); vm_compute|sample_ask|apply sample_columns..].
Defined.

(** * Rounds that lose a version

    Two runs of the collector after which a read answers what no transaction committed to the row: a
    transaction that wrote a row twice and committed, and one that wrote it twice and aborted. *)

(** [n] rounds with no statement running, on a table whose one hot stripe is this. *)
Fixpoint rounds (n : nat) (hz : Horizons) (clock : Z) (d : StripeDirectory) (sp : UndoSpace)
    : option (StripeDirectory * UndoSpace) :=
  match n with
  | O => Some (d, sp)
  | S n => '(_, (hz, (d, sp))) ← collect hz clock d sp; rounds n hz clock d sp
  end.

Definition collected (n : nat) (clock : Z) (w : World) : option World :=
  let s := w_stripe w in
  '(d, sp) ← rounds n (Horizons_new 1) clock (mkDirectory (st_table s) {[st_id s := s]}) (w_space w);
  s ← di_hot d !! st_id s;
  Some (mkWorld s sp (w_bufs w)).

(** A worker that goes away hands its chunk over. *)
Definition sealed (worker : nat) (w : World) : option World :=
  b ← w_bufs w !! worker;
  let '(b, sp) := seal b (w_space w) in
  Some (mkWorld (w_stripe w) sp (<[worker := b]> (w_bufs w))).

Definition first_column (w : World) : option (list (option Z)) := read_as_of (w_stripe w) (w_space w) 0 [0] 10 9.

(** * A transaction that wrote a row twice and committed *)

Definition committed_twice : list Op :=
  [Fill 0 (mkImage 0 (Some 10)); Fill 1 (mkImage 0 (Some 77)); Insert [0; 1] 1; CommitInsert [0; 1] 1 5;
   UpdateRow 0 0 [mkImage 0 (Some 20)] 5 2; UpdateRow 0 0 [mkImage 0 (Some 30)] 5 2; CommitRow 0 2 7].

Definition another_row : list Op :=
  [UpdateRow 0 1 [mkImage 0 (Some 78)] 10 3; UpdateRow 0 1 [mkImage 0 (Some 79)] 10 3].

(** C37. What the collector does to a row a transaction wrote twice: of records with one commit
    timestamp it keeps the first it meets, which is the older, as the newest of the row, so it cuts
    that one and leaves the newer at the head of the chain while its chunk goes back to the free
    list. The row reads 30, as committed, until another row is written; then a reader that should
    undo nothing meets the other row's record at this row's head and answers 77, the other row's
    value. *)
Theorem twice_written_row_reads_another : (
  '(_, w) ← run committed_twice (leased 1 1 [Eight] 2 1);
  w ← sealed 0 w;
  w1 ← collected 3 10 w;
  '(_, w2) ← run another_row w1;
  Some (first_column w, first_column w1, first_column w2))
  = Some (Some [Some 30], Some [Some 30], Some [Some 77]).
Proof. vm_compute. reflexivity. Qed.

(** * A transaction that wrote a row twice and aborted *)

Definition wrote_once : list Op :=
  [Fill 0 (mkImage 0 (Some 10)); Insert [0] 1; CommitInsert [0] 1 5; UpdateRow 0 0 [mkImage 0 (Some 20)] 5 2].
Definition wrote_again : list Op := [UpdateRow 0 0 [mkImage 0 (Some 30)] 5 2; AbortRow 0 2].

(** C38. What the collector does to a row whose writer filled a chunk between two writes of it and
    then aborted: it takes the aborted records out chunk by chunk, and the older chunk first, so
    what is left of the chain undoes only the newer write and a reader answers 20, a value that was
    never committed, where it answered 10 before. *)
Theorem half_collected_abort_reads_uncommitted : (
  '(_, w) ← run wrote_once (leased 1 1 [Eight] 1 1);
  w ← sealed 0 w;
  '(_, w) ← run wrote_again w;
  w' ← collected 2 10 w;
  Some (first_column w, first_column w')) = Some (Some [Some 10], Some [Some 20]).
Proof. vm_compute. reflexivity. Qed.
