(* ===== verification/Regex.v ===== *)
(** The regular expression engine: [rudb-regex/src/parse.rs]'s tree and [rudb-regex/src/compile.rs].

    A [char] is its code point, a [&str] the list of its characters, and a position in it a byte
    offset as in the source; slicing where no character begins is a panic, [None]. Instructions,
    sets and lookarounds are referred to by index. *)

From S2P Require Import Prelude.
Local Open Scope Z_scope.

(** * Text *)

Definition len_utf8 (ch : Z) : nat :=
  if ch <? 128 then 1 else if ch <? 2048 then 2 else if ch <? 65536 then 3 else 4.

Definition encode_utf8 (ch : Z) : list Z :=
  if ch <? 128 then [ch]
  else if ch <? 2048 then [192 + ch ≫ 6; 128 + Z.land ch 63]
  else if ch <? 65536 then [224 + ch ≫ 12; 128 + Z.land (ch ≫ 6) 63; 128 + Z.land ch 63]
  else [240 + ch ≫ 18; 128 + Z.land (ch ≫ 12) 63; 128 + Z.land (ch ≫ 6) 63; 128 + Z.land ch 63].

(** A Unicode scalar value. *)
Definition is_char (ch : Z) : bool := (0 <=? ch) && (ch <? 55296) || (57344 <=? ch) && (ch <=? 1114111).

Abbreviation Text := (list Z).

Definition as_bytes (text : Text) : list Z := text ≫= encode_utf8.
Definition text_len (text : Text) : nat := list_sum (len_utf8 <$> text).

(** [text[at..]] and [text[..at]]. *)
Fixpoint text_from (text : Text) (at_ : nat) : option Text :=
  match at_, text with
  | O, _ => Some text
  | S _, [] => None
  | S _, ch :: text => if (len_utf8 ch <=? at_)%nat then text_from text (at_ - len_utf8 ch) else None
  end.

Fixpoint text_to (text : Text) (at_ : nat) : option Text :=
  match at_, text with
  | O, _ => Some []
  | S _, [] => None
  | S _, ch :: text => if (len_utf8 ch <=? at_)%nat then cons ch <$> text_to text (at_ - len_utf8 ch) else None
  end.

(** The character after a position and the one before it; the outer [None] is a panic. *)
Definition after (text : Text) (at_ : nat) : option (option Z) := head <$> text_from text at_.
Definition before (text : Text) (at_ : nat) : option (option Z) := last <$> text_to text at_.

(** * The tree *)

Inductive Assertion : Type :=
| TextStart
| TextEnd
| LineStart
| LineEnd
| WordBoundary
| NotWordBoundary
| WordStart
| WordEnd
| AnyWordBoundary
| NotAnyWordBoundary.

Record CharClass : Type := mkClass {
  cl_negated : bool;
  cl_ranges : list (Z * Z) }.

Inductive Ast : Type :=
| Empty
| Literal (ch : Z)
| Class_ (class : CharClass)
| AnyChar (newline : bool)
| Assert (assertion : Assertion)
| Group (index : option nat) (inner : Ast)
| Concat (parts : list Ast)
| Alternate (branches : list Ast)
| Repeat (inner : Ast) (least : nat) (most : option nat) (greedy : bool)
| Lookaround (ahead negated : bool) (inner : Ast).

(** * Sets of characters *)

Record CharSet : Type := mkSet {
  cs_ascii : Z;
  cs_ranges : list (Z * Z);
  cs_negated : bool }.

(** The order of pairs of characters, [sort_unstable]'s. Equal pairs cannot be told apart, so that
    sort has one answer. *)
Definition pair_le (x y : Z * Z) : Prop := x.1 < y.1 ∨ x.1 = y.1 ∧ x.2 ≤ y.2.

#[global] Instance pair_le_dec : RelDecision pair_le.
Proof. intros x y. unfold pair_le. apply _. Defined.

(** One range after those merged so far, the last of which is at the front. *)
Definition merge_range (merged : list (Z * Z)) (range : Z * Z) : list (Z * Z) :=
  match merged with
  | last :: rest => if range.1 <=? last.2 + 1 then (last.1, if last.2 <? range.2 then range.2 else last.2) :: rest else range :: merged
  | [] => [range]
  end.

Definition merge_ranges (ranges : list (Z * Z)) : list (Z * Z) :=
  reverse (foldl merge_range [] (merge_sort pair_le ranges)).

(** The codes of a range below the ASCII line. *)
Definition ascii_bits (ascii : Z) (range : Z * Z) : Z :=
  foldl (λ ascii code, Z.lor ascii (1 ≪ code)) ascii (seqZ range.1 (Z.min range.2 127 - range.1 + 1)).

Definition Set_new (class : CharClass) : CharSet :=
  let merged := merge_ranges (cl_ranges class) in
  let ascii := foldl ascii_bits 0 merged in
  mkSet (if cl_negated class then wnot 128 ascii else ascii) merged (cl_negated class).

(** [binary_search_by], by how a range lies to the character: the last place that does not lie past
    it, and whether it holds it. *)
Definition range_cmp (ch : Z) (range : Z * Z) : comparison := if range.2 <? ch then Lt else if ch <? range.1 then Gt else Eq.

Fixpoint binary_loop (fuel : nat) (cmp : Z * Z → comparison) (ranges : list (Z * Z)) (base size : nat) : nat :=
  match fuel with
  | O => base
  | S fuel =>
      if (size <=? 1)%nat then base else
      let half := (size / 2)%nat in
      let mid := (base + half)%nat in
      let base := match cmp <$> ranges !! mid with Some Gt => base | _ => mid end in
      binary_loop fuel cmp ranges base (size - half)
  end.

Definition binary_search (cmp : Z * Z → comparison) (ranges : list (Z * Z)) : bool :=
  match cmp <$> ranges !! binary_loop (length ranges) cmp ranges 0 (length ranges) with Some Eq => true | _ => false end.

Definition Set_contains (s : CharSet) (ch : Z) : bool :=
  if ch <? 128 then Z.testbit (cs_ascii s) ch
  else negb (Bool.eqb (binary_search (range_cmp ch) (cs_ranges s)) (cs_negated s)).

(** Four words of a bit for each byte. *)
Definition put_byte (into : list Z) (byte : Z) : list Z :=
  alter (λ word, Z.lor word (1 ≪ (byte `mod` 64))) (Z.to_nat (byte / 64)) into.

Definition lead_bytes (s : CharSet) (into : list Z) : list Z :=
  let into := foldl (λ into code, if Z.testbit (cs_ascii s) code then put_byte into code else into) into (seqZ 0 128) in
  if cs_negated s || existsb (λ r, 128 <=? r.2) (cs_ranges s) then foldl put_byte into (seqZ 194 51) else into.

(** * Programs *)

Inductive Inst : Type :=
| IChar (want : Z)
| ISet (id : nat)
| IAny (newline : bool)
| IAssert (assertion : Assertion)
| ILook (id : nat)
| ISave (slot : nat)
| ISplit (first second : nat)
| IJump (to : nat)
| IMatch.

(** What a match may begin with. *)
Record First : Type := mkFirst {
  fi_bytes : list Z;
  fi_any : bool;
  fi_only : option Z }.

Inductive Program : Type :=
| mkProgram (insts : list Inst) (sets : list CharSet) (looks : list Look) (groups : nat) (anchored : bool)
    (first : First) (word : option CharSet)
with Look : Type :=
| mkLook (ahead negated : bool) (program : Program).

Definition p_insts (p : Program) := let '(mkProgram insts _ _ _ _ _ _) := p in insts.
Definition p_sets (p : Program) := let '(mkProgram _ sets _ _ _ _ _) := p in sets.
Definition p_looks (p : Program) := let '(mkProgram _ _ looks _ _ _ _) := p in looks.
Definition p_groups (p : Program) := let '(mkProgram _ _ _ groups _ _ _) := p in groups.
Definition p_anchored (p : Program) := let '(mkProgram _ _ _ _ anchored _ _) := p in anchored.
Definition p_first (p : Program) := let '(mkProgram _ _ _ _ _ first _) := p in first.
Definition p_word (p : Program) := let '(mkProgram _ _ _ _ _ _ word) := p in word.

(** * What a match begins with *)

Definition First_anything : First := mkFirst (replicate 4 (2 ^ 64 - 1)) true None.

Definition First_contains (f : First) (byte : Z) : bool :=
  match fi_bytes f !! Z.to_nat (byte / 64) with Some word => Z.testbit word (byte `mod` 64) | None => false end.

Definition First_skip (f : First) (bytes : list Z) (at_ : nat) : option nat :=
  if fi_any f then if (at_ <=? length bytes)%nat then Some at_ else None else
  if (length bytes <? at_)%nat then None else
  let rest := drop at_ bytes in
  (λ found, at_ + found)%nat <$>
    match fi_only f with
    | Some only => position (Z.eqb only) rest
    | None => position (First_contains f) rest
    end.

Definition lead_byte (ch : Z) : Z := default 0 (head (encode_utf8 ch)).

(** The walk from the entry; [None] is a panic, [Some None] the walk giving up. *)
Fixpoint first_loop (fuel : nat) (insts : list Inst) (sets : list CharSet) (stack : list nat) (seen : list bool) (bytes : list Z)
    : option (option (list Z)) :=
  match fuel, stack with
  | _, [] => Some (Some bytes)
  | O, _ => None
  | S fuel, pc :: stack =>
      was ← seen !! pc;
      if (was : bool) then first_loop fuel insts sets stack seen bytes else
      let seen := <[pc := true]> seen in
      inst ← insts !! pc;
      match inst with
      | IChar ch => first_loop fuel insts sets stack seen (put_byte bytes (lead_byte ch))
      | ISet id => s ← sets !! id; first_loop fuel insts sets stack seen (lead_bytes s bytes)
      | IAny _ | IMatch => Some None
      | IAssert _ | ILook _ | ISave _ => first_loop fuel insts sets (S pc :: stack) seen bytes
      | ISplit one other => first_loop fuel insts sets (other :: one :: stack) seen bytes
      | IJump to => first_loop fuel insts sets (to :: stack) seen bytes
      end
  end.

Fixpoint count_bits (n : nat) (word : Z) : Z :=
  match n with O => 0 | S n => (if Z.testbit word (Z.of_nat n) then 1 else 0) + count_bits n word end.

Definition first_of (insts : list Inst) (sets : list CharSet) : option First :=
  r ← first_loop (2 * length insts + 2) insts sets [0%nat] (replicate (length insts) false) (replicate 4 0);
  match r with
  | None => Some First_anything
  | Some bytes =>
      let count := foldr Z.add 0 (count_bits 64 <$> bytes) in
      let only := if count =? 1 then
          let word := default 0%nat (position (λ w, negb (w =? 0)) bytes) in
          Some (Z.of_nat word * 64 + trailing_zeros (default 0 (bytes !! word)))
        else None in
      Some (mkFirst bytes false only)
  end.

(** * Compiling *)

Definition MAX_PROGRAM : nat := Z.to_nat 100000.

Definition is_empty (ast : Ast) : bool := match ast with Empty => true | _ => false end.

(** Whether the tree can only match at the start of the text. *)
Fixpoint anchored (ast : Ast) : bool :=
  match ast with
  | Assert TextStart => true
  | Group _ inner => anchored inner
  | Concat parts =>
      (fix go (parts : list Ast) : bool :=
         match parts with
         | [] => false
         | part :: parts => if is_empty part then go parts else anchored part
         end) parts
  | Alternate branches => forallb anchored branches
  | Repeat inner least _ _ => (0 <? least)%nat && anchored inner
  | _ => false
  end.

Record Builder : Type := mkBuilder {
  bu_insts : list Inst;
  bu_sets : list CharSet;
  bu_looks : list Look;
  bu_word : option CharSet }.

Definition with_insts (insts : list Inst) (b : Builder) : Builder := mkBuilder insts (bu_sets b) (bu_looks b) (bu_word b).

Definition Builder_push (inst : Inst) (b : Builder) : Result (nat * Builder) :=
  if (MAX_PROGRAM <=? length (bu_insts b))%nat then Err (InvalidInput "pattern too large - compile failed") else
  Ok (length (bu_insts b), with_insts (bu_insts b ++ [inst]) b).

Definition here (b : Builder) : nat := length (bu_insts b).

(** [self.insts[at] = inst], of an instruction pushed before. *)
Definition patch (at_ : nat) (inst : Inst) (b : Builder) : Builder := with_insts (<[at_ := inst]> (bu_insts b)) b.

Definition branch (greedy : bool) (body end_ : nat) : Inst := if greedy then ISplit body end_ else ISplit end_ body.

(** What emits a piece of the tree. *)
Abbreviation Emit := (Builder → Result Builder).

Fixpoint times (n : nat) (inner : Emit) (b : Builder) : Result Builder :=
  match n with O => Ok b | S n => b ← inner b; times n inner b end.

Fixpoint alternate_loop (branches : list Emit) (jumps : list nat) (b : Builder) : Result (list nat * Builder) :=
  match branches with
  | [] => Ok (jumps, b)
  | [branch] => b ← branch b; Ok (jumps, b)
  | branch :: branches =>
      '(split, b) ← Builder_push (ISplit 0 0) b;
      let body := here b in
      b ← branch b;
      '(jump, b) ← Builder_push (IJump 0) b;
      let next := here b in
      alternate_loop branches (jumps ++ [jump]) (patch split (ISplit body next) b)
  end.

Definition alternate (branches : list Emit) (b : Builder) : Result Builder :=
  '(jumps, b) ← alternate_loop branches [] b;
  let end_ := here b in
  Ok (foldl (λ b jump, patch jump (IJump end_) b) b jumps).

Definition star (inner : Emit) (greedy : bool) (b : Builder) : Result Builder :=
  '(split, b) ← Builder_push (ISplit 0 0) b;
  let body := here b in
  b ← inner b;
  '(_, b) ← Builder_push (IJump split) b;
  let end_ := here b in
  Ok (patch split (branch greedy body end_) b).

Definition plus (inner : Emit) (greedy : bool) (b : Builder) : Result Builder :=
  let body := here b in
  b ← inner b;
  '(split, b) ← Builder_push (ISplit 0 0) b;
  let end_ := here b in
  Ok (patch split (branch greedy body end_) b).

Fixpoint optional_loop (n : nat) (inner : Emit) (splits : list (nat * nat)) (b : Builder) : Result (list (nat * nat) * Builder) :=
  match n with
  | O => Ok (splits, b)
  | S n =>
      '(split, b) ← Builder_push (ISplit 0 0) b;
      let body := here b in
      b ← inner b;
      optional_loop n inner (splits ++ [(split, body)]) b
  end.

Definition repeat (inner : Emit) (least : nat) (most : option nat) (greedy : bool) (b : Builder) : Result Builder :=
  match most with
  | None =>
      b ← times (least - 1) inner b;
      if (least =? 0)%nat then star inner greedy b else plus inner greedy b
  | Some most =>
      b ← times least inner b;
      '(splits, b) ← optional_loop (most - least) inner [] b;
      let end_ := here b in
      Ok (foldl (λ b s, patch s.1 (branch greedy s.2 end_) b) b splits)
  end.

(** A whole program around what emits its tree. The walk for its first bytes does not panic. *)
Definition assemble (emits : Emit) (is_anchored : bool) (groups : nat) (word : option CharSet) : Result Program :=
  let b := mkBuilder [] [] [] word in
  '(_, b) ← Builder_push (ISave 0) b;
  b ← emits b;
  '(_, b) ← Builder_push (ISave 1) b;
  '(_, b) ← Builder_push IMatch b;
  match first_of (bu_insts b) (bu_sets b) with
  | Some first => Ok (mkProgram (bu_insts b) (bu_sets b) (bu_looks b) groups is_anchored first (bu_word b))
  | None => Err (Internal "panic")
  end.

Definition push (inst : Inst) (b : Builder) : Result Builder := '(_, b) ← Builder_push inst b; Ok b.

Fixpoint sequence (parts : list Emit) (b : Builder) : Result Builder :=
  match parts with [] => Ok b | part :: parts => b ← part b; sequence parts b end.

Fixpoint emit (ast : Ast) (b : Builder) : Result Builder :=
  match ast with
  | Empty => Ok b
  | Literal ch => push (IChar ch) b
  | Class_ class =>
      let b := mkBuilder (bu_insts b) (bu_sets b ++ [Set_new class]) (bu_looks b) (bu_word b) in
      push (ISet (length (bu_sets b) - 1)) b
  | AnyChar newline => push (IAny newline) b
  | Assert assertion => push (IAssert assertion) b
  | Group (Some index) inner =>
      b ← push (ISave (index * 2)) b;
      b ← emit inner b;
      push (ISave (index * 2 + 1)) b
  | Group None inner => emit inner b
  | Concat parts => sequence (emit <$> parts) b
  | Alternate branches => alternate (emit <$> branches) b
  | Repeat inner least most greedy => repeat (emit inner) least most greedy b
  | Lookaround ahead negated inner =>
      program ← assemble (emit inner) (anchored inner) 0 (bu_word b);
      let b := mkBuilder (bu_insts b) (bu_sets b) (bu_looks b ++ [mkLook ahead negated program]) (bu_word b) in
      push (ILook (length (bu_looks b) - 1)) b
  end.

Definition compile_with (ast : Ast) (groups : nat) (word : option CharSet) : Result Program :=
  assemble (emit ast) (anchored ast) groups word.

Definition compile (ast : Ast) (groups : nat) : Result Program := compile_with ast groups None.
