(* ===== verification/RegexRun.v ===== *)
(** The two machines that run a program, [rudb-regex/src/vm.rs] and [rudb-regex/src/bitstate.rs], and
    what [rudb-regex/src/lib.rs] does with them.

    [None] is a panic, or fuel that ran out, and neither happens to a program [compile] made. Slots
    shared and copied on write are values. *)

From S2P Require Import Prelude Regex.
Local Open Scope Z_scope.

Abbreviation Slots := (list (option nat)).

(** * Assertions *)

Definition is_word (ch : option Z) : bool :=
  match ch with
  | Some ch => (48 <=? ch) && (ch <=? 57) || (65 <=? ch) && (ch <=? 90) || (97 <=? ch) && (ch <=? 122) || (ch =? 95)
  | None => false
  end.

Definition pg_word (word : option CharSet) (ch : option Z) : bool :=
  match word with
  | Some word => match ch with Some ch => Set_contains word ch | None => false end
  | None => is_word ch
  end.

Definition holds (word : option CharSet) (assertion : Assertion) (text : Text) (at_ : nat) : option bool :=
  match assertion with
  | TextStart => Some (at_ =? 0)%nat
  | TextEnd => Some (at_ =? text_len text)%nat
  | LineStart => if (at_ =? 0)%nat then Some true else b ← before text at_; Some (bool_decide (b = Some 10))
  | LineEnd => if (at_ =? text_len text)%nat then Some true else a ← after text at_; Some (bool_decide (a = Some 10))
  | WordBoundary => b ← before text at_; a ← after text at_; Some (negb (Bool.eqb (is_word b) (is_word a)))
  | NotWordBoundary => b ← before text at_; a ← after text at_; Some (Bool.eqb (is_word b) (is_word a))
  | WordStart =>
      b ← before text at_; if pg_word word b then Some false else a ← after text at_; Some (pg_word word a)
  | WordEnd =>
      b ← before text at_; if pg_word word b then a ← after text at_; Some (negb (pg_word word a)) else Some false
  | AnyWordBoundary => b ← before text at_; a ← after text at_; Some (negb (Bool.eqb (pg_word word b) (pg_word word a)))
  | NotAnyWordBoundary => b ← before text at_; a ← after text at_; Some (Bool.eqb (pg_word word b) (pg_word word a))
  end.

(** * Pike's machine *)

Record Threads : Type := mkThreads {
  th_threads : list (nat * Slots);
  th_seen : list Z;
  th_generation : Z }.

Definition Threads_new (size : nat) : Threads := mkThreads [] (replicate size 0) 1.

Definition Threads_clear (l : Threads) : Threads :=
  let generation := th_generation l + 1 in
  if generation =? 2 ^ 32 - 1 then mkThreads [] ((λ _, 0) <$> th_seen l) 1
  else mkThreads [] (th_seen l) generation.

(** [slots.get_mut(slot)] written when there is such a slot. *)
Definition put_slot (slot at_ : nat) (slots : Slots) : Slots := <[slot := Some at_]> slots.

Section machine.
(** Whether the lookaround at an index holds at a position. *)
Context (look : nat → nat → option bool) (p : Program) (text : Text).

Fixpoint add_loop (fuel : nat) (stack : list (nat * Slots)) (at_ : nat) (list_ : Threads) : option Threads :=
  match fuel, stack with
  | _, [] => Some list_
  | O, _ => None
  | S fuel, (pc, slots) :: stack =>
      seen ← th_seen list_ !! pc;
      if seen =? th_generation list_ then add_loop fuel stack at_ list_ else
      let list_ := mkThreads (th_threads list_) (<[pc := th_generation list_]> (th_seen list_)) (th_generation list_) in
      inst ← p_insts p !! pc;
      match inst with
      | IJump to => add_loop fuel ((to, slots) :: stack) at_ list_
      | ISplit first second => add_loop fuel ((first, slots) :: (second, slots) :: stack) at_ list_
      | ISave slot => add_loop fuel ((S pc, put_slot slot at_ slots) :: stack) at_ list_
      | IAssert assertion =>
          held ← holds (p_word p) assertion text at_;
          add_loop fuel (if (held : bool) then (S pc, slots) :: stack else stack) at_ list_
      | ILook id =>
          held ← look id at_;
          add_loop fuel (if (held : bool) then (S pc, slots) :: stack else stack) at_ list_
      | _ => add_loop fuel stack at_ (mkThreads (th_threads list_ ++ [(pc, slots)]) (th_seen list_) (th_generation list_))
      end
  end.

Definition add (list_ : Threads) (pc at_ : nat) (slots : Slots) : option Threads :=
  add_loop (2 * length (p_insts p) + 2) [(pc, slots)] at_ list_.

(** What an instruction does with the character at hand: [None] when it is not one that reads. *)
Definition reads (inst : Inst) (ch : option Z) : option (option bool) :=
  match inst with
  | IChar want => Some (Some (bool_decide (ch = Some want)))
  | ISet id => match ch with Some ch => s ← p_sets p !! id; Some (Some (Set_contains s ch)) | None => Some (Some false) end
  | IAny newline => Some (Some match ch with Some ch => newline || negb (ch =? 10) | None => false end)
  | _ => Some None
  end.

(** The threads at one position, each stepped over the character there. *)
Fixpoint step_loop (end_ : option nat) (ch : option Z) (at_ : nat) (threads : list (nat * Slots)) (next : Threads) (matched : option Slots)
    : option (Threads * option Slots) :=
  match threads with
  | [] => Some (next, matched)
  | (pc, slots) :: threads =>
      inst ← p_insts p !! pc;
      match inst with
      | IMatch =>
          if match end_ with Some end_ => negb (end_ =? at_)%nat | None => false end
          then step_loop end_ ch at_ threads next matched
          else Some (next, Some (put_slot 1 at_ slots))
      | _ =>
          r ← reads inst ch;
          match r, ch with
          | Some true, Some ch =>
              next ← add next (S pc) (at_ + len_utf8 ch)%nat slots;
              step_loop end_ (Some ch) at_ threads next matched
          | _, _ => step_loop end_ ch at_ threads next matched
          end
      end
  end.

Fixpoint search_loop (fuel : nat) (start : nat) (sticky : bool) (end_ : option nat) (at_ : nat) (current next : Threads) (matched : option Slots)
    : option (option Slots) :=
  match fuel with
  | O => None
  | S fuel =>
      ch ← (if bool_decide (end_ = Some at_) then Some None else after text at_);
      let again := negb (bool_decide (is_Some matched)) && negb (p_anchored p) && negb sticky in
      current ←
        (if negb (bool_decide (is_Some matched)) && ((at_ =? start)%nat || again)
         then add current 0 at_ (put_slot 0 at_ (replicate (2 * (p_groups p + 1)) None))
         else Some current);
      if bool_decide (th_threads current = []) && negb again then Some matched else
      '(next, matched) ← step_loop end_ ch at_ (th_threads current) (Threads_clear next) matched;
      match ch with
      | None => Some matched
      | Some ch => search_loop fuel start sticky end_ (at_ + len_utf8 ch)%nat next current matched
      end
  end.

Definition search_with (start : nat) (sticky : bool) (end_ : option nat) : option (option Slots) :=
  let size := length (p_insts p) in
  search_loop (text_len text + 2) start sticky end_ start (Threads_new size) (Threads_new size) None.
End machine.

(** A lookaround, its program run by what runs programs: ahead of the position, or from the start of
    the text and held to end there. *)
Definition look_at (searches : list (bool * bool * (nat → bool → option nat → option (option Slots)))) (id at_ : nat) : option bool :=
  '(ahead, negated, search) ← searches !! id;
  found ← (if (ahead : bool) then search at_ true None else search 0%nat false (Some at_));
  Some (negb (Bool.eqb (bool_decide (is_Some found)) negated)).

Fixpoint search_in (text : Text) (p : Program) : nat → bool → option nat → option (option Slots) :=
  let '(mkProgram insts sets looks groups anchored first word) := p in
  let searches := (λ l, let '(mkLook ahead negated program) := l in (ahead, negated, search_in text program)) <$> looks in
  search_with (look_at searches) p text.

Definition look (p : Program) (text : Text) : nat → nat → option bool :=
  look_at ((λ l, let '(mkLook ahead negated program) := l in (ahead, negated, search_in text program)) <$> p_looks p).

Definition vm_search (p : Program) (text : Text) (start : nat) (whole : bool) : option (option Slots) :=
  search_in text p start whole (if whole then Some (text_len text) else None).

(** * The backtracker *)

Definition MAX_BITS : Z := 2 ^ 21.

(** [saturating_mul] of a product past the largest [usize] is past the limit too. *)
Definition fits_memo (p : Program) (text : Text) : bool :=
  Z.of_nat (length (p_insts p)) * (Z.of_nat (text_len text) + 1) <=? MAX_BITS.

Inductive Job : Type :=
| Step (pc at_ : nat)
| Restore (slot : nat) (value : option nat).

Record Cache : Type := mkCache {
  ca_visited : list Z;
  ca_jobs : list Job;
  ca_slots : Slots }.

Definition Cache_default : Cache := mkCache [] [] [].

Definition read_char (bytes : list Z) (text : Text) (at_ : nat) : option (option (Z * nat)) :=
  match bytes !! at_ with
  | None => Some None
  | Some byte =>
      if byte <? 128 then Some (Some (byte, 1%nat)) else
      match after text at_ with
      | None => None
      | Some ch => Some ((λ ch, (ch, len_utf8 ch)) <$> ch)
      end
  end.

Section backtrack.
Context (p : Program) (text : Text).

(** [run]'s two loops: [now] is where the inner one is, and [None] when the next job is popped. *)
Fixpoint run_loop (fuel : nat) (whole : bool) (stride : nat) (now : option (nat * nat)) (c : Cache) : option (bool * Cache) :=
  match fuel with
  | O => None
  | S fuel =>
      match now with
      | None =>
          match ca_jobs c with
          | [] => Some (false, c)
          | Restore slot value :: jobs => run_loop fuel whole stride None (mkCache (ca_visited c) jobs (<[slot := value]> (ca_slots c)))
          | Step pc at_ :: jobs => run_loop fuel whole stride (Some (pc, at_)) (mkCache (ca_visited c) jobs (ca_slots c))
          end
      | Some (pc, at_) =>
          let cell := (pc * stride + at_)%nat in
          word ← ca_visited c !! (cell / 32)%nat;
          if Z.testbit word (Z.of_nat (cell mod 32)) then run_loop fuel whole stride None c else
          let visited := <[(cell / 32)%nat := Z.lor word (1 ≪ Z.of_nat (cell mod 32))]> (ca_visited c) in
          let c := mkCache visited (ca_jobs c) (ca_slots c) in
          inst ← p_insts p !! pc;
          match inst with
          | IAssert assertion =>
              held ← holds (p_word p) assertion text at_;
              run_loop fuel whole stride (if (held : bool) then Some (S pc, at_) else None) c
          | ILook id =>
              held ← look p text id at_;
              run_loop fuel whole stride (if (held : bool) then Some (S pc, at_) else None) c
          | ISave slot =>
              let c := match ca_slots c !! slot with
                       | Some value => mkCache visited (Restore slot value :: ca_jobs c) (<[slot := Some at_]> (ca_slots c))
                       | None => c
                       end in
              run_loop fuel whole stride (Some (S pc, at_)) c
          | ISplit first second =>
              run_loop fuel whole stride (Some (first, at_)) (mkCache visited (Step second at_ :: ca_jobs c) (ca_slots c))
          | IJump to => run_loop fuel whole stride (Some (to, at_)) c
          | IMatch =>
              if whole && negb (at_ =? text_len text)%nat then run_loop fuel whole stride None c
              else Some (true, mkCache visited (ca_jobs c) (put_slot 1 at_ (ca_slots c)))
          | _ =>
              r ← read_char (as_bytes text) text at_;
              match r with
              | None => run_loop fuel whole stride None c
              | Some (ch, size) =>
                  took ← reads p inst (Some ch);
                  run_loop fuel whole stride (if bool_decide (took = Some true) then Some (S pc, at_ + size)%nat else None) c
              end
          end
      end
  end.

(** A turn for each instruction at each position, for the job it may leave, and for finding that job
    done. *)
Definition run_fuel (stride : nat) : nat := 3 * (length (p_insts p) * stride) + 4.

Definition run_from (whole : bool) (stride from : nat) (c : Cache) : option (bool * Cache) :=
  run_loop (run_fuel stride) whole stride None (mkCache (ca_visited c) [Step 0 from] (ca_slots c)).

Fixpoint bit_search_loop (fuel : nat) (whole everywhere : bool) (stride at_ : nat) (c : Cache) : option (option Slots * Cache) :=
  match fuel with
  | O => None
  | S fuel =>
      match (if everywhere then First_skip (p_first p) (as_bytes text) at_ else Some at_) with
      | None => Some (None, c)
      | Some at_ =>
          '(hit, c) ← run_from whole stride at_ (mkCache (ca_visited c) (ca_jobs c) (replicate (2 * (p_groups p + 1)) None));
          if (hit : bool) then Some (Some (ca_slots c), c) else
          if negb everywhere then Some (None, c) else
          r ← read_char (as_bytes text) text at_;
          match r with
          | None => Some (None, c)
          | Some (_, size) => bit_search_loop fuel whole everywhere stride (at_ + size)%nat c
          end
      end
  end.

(** The answer, with the slots of the match, and the buffers as they are left. *)
Definition Cache_search (start : nat) (whole : bool) (c : Cache) : option (option Slots * Cache) :=
  let stride := (text_len text + 1)%nat in
  let words := (length (p_insts p) * stride / 32 + 1)%nat in
  let everywhere := negb (p_anchored p) && negb whole in
  bit_search_loop (text_len text + 2) whole everywhere stride start (mkCache (replicate words 0) (ca_jobs c) (ca_slots c)).
End backtrack.

(** * The crate's own surface *)

(** Whichever machine suits the size: the answer, the slots after it, and the thread's buffers. *)
Definition run (p : Program) (text : Text) (start : nat) (whole : bool) (slots : Slots) (c : Cache) : option (bool * Slots * Cache) :=
  if fits_memo p text then
    '(found, c) ← Cache_search p text start whole c;
    Some (match found with Some found => (true, found, c) | None => (false, slots, c) end)
  else
    found ← vm_search p text start whole;
    Some (match found with Some found => (true, found, c) | None => (false, slots, c) end).

(** The pattern before a trailing [.*$], and whether that dot takes a newline. *)
Definition trailing_rest (ast : Ast) : option (Ast * bool) :=
  match ast with
  | Concat parts =>
      match reverse (filter (λ part, is_empty part = false) parts) with
      | Assert TextEnd :: Repeat (AnyChar newline) 0 None _ :: kept => Some (Concat (reverse kept), newline)
      | _ => None
      end
  | _ => None
  end.

Record RegexOf : Type := mkRegex {
  re_program : Program;
  re_head : option (Program * bool) }.

(** The end of [Regex::with_options], from the tree the pattern parsed to. *)
Definition Regex_of (ast : Ast) (groups : nat) : Result RegexOf :=
  head ← match trailing_rest ast with
         | Some (head, newline) => p ← compile head groups; Ok (Some (p, newline))
         | None => Ok None
         end;
  p ← compile ast groups;
  Ok (mkRegex p head).

Definition Regex_search (re : RegexOf) (text : Text) (start : nat) (whole : bool) (slots : Slots) (c : Cache)
    : option (bool * Slots * Cache) :=
  match re_head re, whole with
  | Some (head, newline), false =>
      '(found, slots, c) ← run head text start false slots c;
      if negb found then Some (false, slots, c) else
      match mjoin (slots !! 1%nat) with
      | None => Some (false, slots, c)
      | Some end_ =>
          rest ← (if newline then Some [] else if (length (as_bytes text) <? end_)%nat then None else Some (drop end_ (as_bytes text)));
          if newline || negb (existsb (Z.eqb 10) rest) then Some (true, <[1%nat := Some (text_len text)]> slots, c)
          else run (re_program re) text start whole slots c
      end
  | _, _ => run (re_program re) text start whole slots c
  end.

(** * Captures and rewrites *)

Definition capture_start (slots : Slots) : nat := default 0%nat (mjoin (slots !! 0%nat)).
Definition capture_end (slots : Slots) : nat := default 0%nat (mjoin (slots !! 1%nat)).

Definition capture_group (slots : Slots) (index : nat) : option (nat * nat) :=
  from ← mjoin (slots !! (index * 2)%nat);
  to ← mjoin (slots !! (index * 2 + 1)%nat);
  Some (from, to).

Inductive Piece : Type :=
| PText (held : Text)
| PGroup (index : nat).

Record Rewrite : Type := mkRewrite {
  rw_pieces : list Piece;
  rw_refused : bool }.

Definition flush (text : Text) (pieces : list Piece) : list Piece := if bool_decide (text = []) then pieces else pieces ++ [PText text].

Fixpoint Rewrite_loop (groups : nat) (chars : Text) (pieces : list Piece) (text : Text) : Rewrite :=
  match chars with
  | [] => mkRewrite (flush text pieces) false
  | ch :: chars =>
      if negb (ch =? 92) then Rewrite_loop groups chars pieces (text ++ [ch]) else
      match chars with
      | [] => mkRewrite [] true
      | ch :: chars =>
          if ch =? 92 then Rewrite_loop groups chars pieces (text ++ [92]) else
          if (48 <=? ch) && (ch <=? 57) then
            let index := Z.to_nat (ch - 48) in
            if (groups <? index)%nat then mkRewrite [] true else
            Rewrite_loop groups chars (flush text pieces ++ [PGroup index]) []
          else mkRewrite [] true
      end
  end.

Definition Rewrite_new (rewrite : Text) (groups : nat) : Rewrite := Rewrite_loop groups rewrite [] [].

(** [text[from..to]]. *)
Definition text_range (text : Text) (from to : nat) : option Text :=
  head ← text_to text to;
  text_from head from.

Fixpoint apply_pieces (pieces : list Piece) (out text : Text) (slots : Slots) : option Text :=
  match pieces with
  | [] => Some out
  | PText held :: pieces => apply_pieces pieces (out ++ held) text slots
  | PGroup index :: pieces =>
      match capture_group slots index with
      | Some (from, to) => part ← text_range text from to; apply_pieces pieces (out ++ part) text slots
      | None => apply_pieces pieces out text slots
      end
  end.

Fixpoint replace_all_loop (fuel : nat) (re : RegexOf) (text : Text) (rewrite : Rewrite) (at_ : nat) (last_end : option nat) (out : Text)
    (slots : Slots) (c : Cache) : option (Text * (Slots * Cache)) :=
  match fuel with
  | O => None
  | S fuel =>
      let finish slots c := rest ← text_from text at_; Some (out ++ rest, (slots, c)) in
      if (text_len text <? at_)%nat then finish slots c else
      '(found, slots, c) ← Regex_search re text at_ false slots c;
      if negb found then finish slots c else
      out' ← (if (at_ <? capture_start slots)%nat then between ← text_range text at_ (capture_start slots); Some (out ++ between) else Some out);
      if (capture_start slots =? capture_end slots)%nat && bool_decide (last_end = Some (capture_start slots)) then
        next ← after text at_;
        match next with
        | None => rest ← text_from text at_; Some (out' ++ rest, (slots, c))
        | Some ch => replace_all_loop fuel re text rewrite (at_ + len_utf8 ch)%nat last_end (out' ++ [ch]) slots c
        end
      else
        out' ← apply_pieces (rw_pieces rewrite) out' text slots;
        replace_all_loop fuel re text rewrite (capture_end slots) (Some (capture_end slots)) out' slots c
  end.

(** A turn for each position, twice: where an empty match was just before. *)
Definition replace_all (re : RegexOf) (text : Text) (rewrite : Rewrite) (out : Text) (slots : Slots) (c : Cache) : option (Text * (Slots * Cache)) :=
  replace_all_loop (2 * text_len text + 3) re text rewrite 0 None out slots c.

Definition replace_into (re : RegexOf) (text : Text) (rewrite : Rewrite) (global : bool) (out : Text) (slots : Slots) (c : Cache)
    : option (Text * (Slots * Cache)) :=
  if rw_refused rewrite then Some (out ++ text, (slots, c)) else
  if global then replace_all re text rewrite out slots c else
  '(found, slots, c) ← Regex_search re text 0 false slots c;
  if negb found then Some (out ++ text, (slots, c)) else
  head ← text_to text (capture_start slots);
  out ← apply_pieces (rw_pieces rewrite) (out ++ head) text slots;
  rest ← text_from text (capture_end slots);
  Some (out ++ rest, (slots, c)).
