(* ===== verification/RegexDfs.v ===== *)
(** Positions of a text, and a program over it as a graph of instructions at positions, searched depth
    first in the order of preference with every pair tried once. Both machines do this: the backtracker
    as it stands, and Pike's a position at a time, which is shown here to be the same search. *)

From S2P Require Import Prelude Regex RegexRun.
Local Open Scope nat_scope.

(** * Text as characters and as bytes

    Positions where a character begins, and what is read there. *)

Lemma len_utf8_pos ch : 1 ≤ len_utf8 ch.
Proof. unfold len_utf8. repeat case_match; lia. Qed.

Lemma length_encode_utf8 ch : length (encode_utf8 ch) = len_utf8 ch.
Proof. unfold encode_utf8, len_utf8. by repeat case_match. Qed.

Lemma text_len_cons ch text : text_len (ch :: text) = len_utf8 ch + text_len text.
Proof. done. Qed.

Lemma text_len_app a b : text_len (a ++ b) = text_len a + text_len b.
Proof. unfold text_len. rewrite fmap_app. apply list_sum_app. Qed.

Lemma length_as_bytes text : length (as_bytes text) = text_len text.
Proof. induction text as [|ch text IH]; [done|]. unfold as_bytes in *. cbn [mbind list_bind]. by rewrite length_app, IH, length_encode_utf8. Qed.

Lemma as_bytes_app a b : as_bytes (a ++ b) = as_bytes a ++ as_bytes b.
Proof. unfold as_bytes. apply bind_app. Qed.

(** * Positions *)

Definition bound (text : Text) (at_ : nat) : Prop := ∃ pre post, text = pre ++ post ∧ at_ = text_len pre.

Lemma text_from_at pre post : text_from (pre ++ post) (text_len pre) = Some post.
Proof.
  induction pre as [|ch pre IH]; [by destruct post|]. cbn [app]. rewrite text_len_cons. pose proof (len_utf8_pos ch) as Hp.
  destruct (len_utf8 ch + text_len pre) as [|n] eqn:E; [lia|]. cbn [text_from]. rewrite <-E.
  rewrite (proj2 (Nat.leb_le _ _)) by lia. by replace (len_utf8 ch + text_len pre - len_utf8 ch) with (text_len pre) by lia.
Qed.

Lemma text_to_at pre post : text_to (pre ++ post) (text_len pre) = Some pre.
Proof.
  induction pre as [|ch pre IH]; [by destruct post|]. cbn [app]. rewrite text_len_cons. pose proof (len_utf8_pos ch) as Hp.
  destruct (len_utf8 ch + text_len pre) as [|n] eqn:E; [lia|]. cbn [text_to]. rewrite <-E.
  rewrite (proj2 (Nat.leb_le _ _)) by lia. replace (len_utf8 ch + text_len pre - len_utf8 ch) with (text_len pre) by lia. by rewrite IH.
Qed.

Lemma text_to_Some text at_ pre : text_to text at_ = Some pre → ∃ post, text = pre ++ post ∧ at_ = text_len pre.
Proof.
  revert at_ pre. induction text as [|ch text IH]; intros [|n] pre H; cbn in H; simplify_eq/=; [by exists []|by exists (ch :: text)|].
  destruct (Nat.leb_spec (len_utf8 ch) (S n)); [|done]. apply fmap_Some in H as (pre'&H&->). apply IH in H as (post&->&E).
  exists post. split; [done|]. rewrite text_len_cons. lia.
Qed.

Lemma after_at pre post : after (pre ++ post) (text_len pre) = Some (head post).
Proof. unfold after. by rewrite text_from_at. Qed.

Lemma before_at pre post : before (pre ++ post) (text_len pre) = Some (last pre).
Proof. unfold before. by rewrite text_to_at. Qed.

(** The character at a position, with no end of its own. *)
Definition char_at (text : Text) (at_ : nat) : option Z := mjoin (after text at_).

Lemma char_at_at pre post : char_at (pre ++ post) (text_len pre) = head post.
Proof. unfold char_at. by rewrite after_at. Qed.

Lemma bound_after text at_ : bound text at_ → after text at_ = Some (char_at text at_).
Proof. intros (pre&post&->&->). by rewrite char_at_at, after_at. Qed.

Lemma bound_before text at_ : bound text at_ → ∃ b, before text at_ = Some b.
Proof. intros (pre&post&->&->). rewrite before_at. eauto. Qed.

Lemma bound_0 text : bound text 0.
Proof. by exists [], text. Qed.

Lemma bound_end text : bound text (text_len text).
Proof. exists text, []. by rewrite app_nil_r. Qed.

Lemma bound_le text at_ : bound text at_ → at_ ≤ text_len text.
Proof. intros (pre&post&->&->). rewrite text_len_app. lia. Qed.

Lemma bound_next text at_ ch : bound text at_ → char_at text at_ = Some ch → bound text (at_ + len_utf8 ch).
Proof.
  intros (pre&post&->&->). rewrite char_at_at. destruct post as [|x post]; [done|]. intros [= ->].
  exists (pre ++ [ch]), post. split; [by rewrite <-(assoc_L app)|]. rewrite text_len_app, text_len_cons. cbn. lia.
Qed.

Lemma char_at_lt text at_ ch : bound text at_ → char_at text at_ = Some ch → at_ + len_utf8 ch ≤ text_len text.
Proof. intros Hb Hc. by apply bound_le, bound_next. Qed.

Lemma char_at_None text at_ : bound text at_ → char_at text at_ = None ↔ at_ = text_len text.
Proof.
  intros (pre&post&->&->). rewrite char_at_at, text_len_app. destruct post as [|ch post]; [by cbn; split; [lia|]|].
  rewrite text_len_cons. pose proof (len_utf8_pos ch). cbn. split; [done|lia].
Qed.

Lemma char_at_elem text at_ ch : bound text at_ → char_at text at_ = Some ch → ch ∈ text.
Proof. intros (pre&post&->&->). rewrite char_at_at. destruct post as [|x post]; [done|]. intros [= ->]. set_solver. Qed.

Lemma holds_total word assertion text at_ : bound text at_ → ∃ b, holds word assertion text at_ = Some b.
Proof.
  intros Hb. destruct (bound_before _ _ Hb) as [b Eb]. pose proof (bound_after _ _ Hb) as Ea.
  destruct assertion; cbn [holds]; rewrite ?Eb, ?Ea, ?some_bind; repeat case_match; rewrite ?some_bind; eauto.
Qed.

(** * Bytes *)

Definition text_ok (text : Text) : Prop := Forall (λ ch, is_char ch = true) text.

Lemma lead_ascii ch : is_char ch = true → (ch < 128)%Z → encode_utf8 ch = [ch].
Proof. intros _ H. unfold encode_utf8. by rewrite (proj2 (Z.ltb_lt _ _)). Qed.

(** Past the ASCII line a character begins with a byte of its own kind, and goes on with others. *)
Lemma encode_high ch : is_char ch = true → (128 ≤ ch)%Z → ∃ lead rest, encode_utf8 ch = lead :: rest
  ∧ (194 ≤ lead ≤ 244)%Z ∧ Forall (λ b, 128 ≤ b < 192)%Z rest.
Proof.
  intros Hc Hge. assert (0 ≤ ch ≤ 1114111)%Z as Hr.
  { unfold is_char in Hc. apply orb_true_iff in Hc as [[? ?]%andb_true_iff|[? ?]%andb_true_iff]; lia. }
  assert (∀ x, (128 ≤ 128 + Z.land x 63 < 192)%Z) as Hl.
  { intros x. change 63%Z with (Z.ones 6). rewrite Z.land_ones by lia. pose proof (Z.mod_pos_bound x (2 ^ 6)). lia. }
  unfold encode_utf8. destruct (Z.ltb_spec ch 128); [lia|]. rewrite !Z.shiftr_div_pow2 by lia.
  destruct (Z.ltb_spec ch 2048); [|destruct (Z.ltb_spec ch 65536)]; eexists _, _; (split; [reflexivity|]);
    (split; [|repeat constructor; apply Hl]); Z.to_euclidean_division_equations; lia.
Qed.

Lemma lead_byte_ascii ch : is_char ch = true → (lead_byte ch <? 128)%Z = (ch <? 128)%Z.
Proof.
  intros Hc. unfold lead_byte. destruct (Z.ltb_spec ch 128).
  - rewrite lead_ascii by done. by apply Z.ltb_lt.
  - destruct (encode_high ch) as (lead&rest&->&?&_); [done..|]. apply Z.ltb_ge. cbn. lia.
Qed.

Lemma byte_at_bound text at_ : bound text at_ → as_bytes text !! at_ = lead_byte <$> char_at text at_.
Proof.
  intros (pre&post&->&->). rewrite char_at_at, as_bytes_app, lookup_app_r by (rewrite length_as_bytes; lia).
  rewrite length_as_bytes, Nat.sub_diag. destruct post as [|ch post]; [done|]. unfold as_bytes. cbn [mbind list_bind head fmap option_fmap option_map].
  unfold lead_byte. pose proof (length_encode_utf8 ch) as E. pose proof (len_utf8_pos ch). by destruct (encode_utf8 ch) as [|b l]; [cbn in E; lia|].
Qed.

Lemma read_char_at text at_ : text_ok text → bound text at_ →
  read_char (as_bytes text) text at_ = Some ((λ ch, (ch, len_utf8 ch)) <$> char_at text at_).
Proof.
  intros Hok Hb. unfold read_char. rewrite byte_at_bound by done. destruct (char_at text at_) as [ch|] eqn:E; [|done]. cbn [fmap option_fmap option_map].
  assert (is_char ch = true) as Hc by (unfold text_ok in Hok; rewrite Forall_forall in Hok; apply Hok; by eapply char_at_elem).
  rewrite lead_byte_ascii by done. destruct (Z.ltb_spec ch 128) as [Hl|Hl].
  - unfold lead_byte, len_utf8. rewrite lead_ascii by done. by rewrite (proj2 (Z.ltb_lt _ _) Hl).
  - by rewrite bound_after, E.
Qed.

(** * From one position on *)

(** A position at or after another where a character begins is reached by reading. *)
Lemma bound_reached text i j : bound text i → bound text j → i ≤ j → i = j ∨ ∃ ch, char_at text i = Some ch ∧ i + len_utf8 ch ≤ j.
Proof.
  intros (pre&post&->&->) (pre'&post'&E&->) Hle. rewrite char_at_at.
  apply app_eq_inv in E as [(k&->&->)|(k&->&->)].
  - left. rewrite text_len_app in *. lia.
  - destruct k as [|ch k]; [left; by rewrite app_nil_r|]. right. exists ch. split; [done|]. rewrite text_len_app, text_len_cons. lia.
Qed.

(** A byte of the text is one, and a byte that begins a character is where one begins. *)
Lemma encode_bytes ch : is_char ch = true → Forall (λ b, 0 ≤ b < 256)%Z (encode_utf8 ch)
  ∧ ∀ k b, encode_utf8 ch !! k = Some b → (b < 128 ∨ 194 ≤ b)%Z → k = 0.
Proof.
  intros Hc. destruct (decide (ch < 128)%Z).
  - rewrite lead_ascii by done. split.
    + constructor; [|constructor]. unfold is_char in Hc. apply orb_true_iff in Hc as [[? ?]%andb_true_iff|[? ?]%andb_true_iff]; lia.
    + by intros [|k] b H.
  - destruct (encode_high ch) as (lead&rest&->&?&Hrest); [done|lia|]. split.
    + constructor; [lia|]. eapply Forall_impl; [done|]. cbn. lia.
    + intros [|k] b Hk Hb; [done|]. cbn in Hk. rewrite Forall_lookup in Hrest. apply Hrest in Hk. lia.
Qed.

Lemma bytes_range text : text_ok text → Forall (λ b, 0 ≤ b < 256)%Z (as_bytes text).
Proof.
  induction 1 as [|ch text Hc _ IH]; [constructor|]. unfold as_bytes in *. cbn [mbind list_bind]. apply Forall_app. split; [by apply encode_bytes|done].
Qed.

Lemma lead_is_bound text k b : text_ok text → as_bytes text !! k = Some b → (b < 128 ∨ 194 ≤ b)%Z → bound text k.
Proof.
  intros Hok. revert k. induction Hok as [|ch text Hc _ IH]; intros k Hk Hb; [done|]. unfold as_bytes in *. cbn [mbind list_bind] in Hk.
  apply lookup_app_Some in Hk as [Hk|[Hge Hk]].
  - apply (encode_bytes ch Hc) in Hk; [|done]. subst k. apply bound_0.
  - destruct (IH _ Hk Hb) as (pre&post&->&E). exists (ch :: pre), post. split; [done|]. rewrite text_len_cons. rewrite length_encode_utf8 in *. lia.
Qed.

(** * Instructions at positions *)

Abbreviation Node := (nat * nat)%type.
Abbreviation Item := (nat * nat * Slots)%type.

Definition or_else {A} (x y : option A) : option A := match x with Some a => Some a | None => y end.

Section graph.
Context (look : nat → nat → option bool) (p : Program) (text : Text) (end_ : option nat).

(** The character a thread may read, which is none where the match is held to end. *)
Definition chr (at_ : nat) : option Z := if decide (end_ = Some at_) then None else char_at text at_.

Definition takes (inst : Inst) (ch : Z) : bool := match reads p inst (Some ch) with Some (Some b) => b | _ => false end.

Definition is_reader (inst : Inst) : bool := match inst with IChar _ | ISet _ | IAny _ => true | _ => false end.

(** Where an instruction leads, the preferred way first. *)
Definition next (pc at_ : nat) (slots : Slots) : list Item :=
  match p_insts p !! pc with
  | None => []
  | Some inst =>
      match inst with
      | IJump to => [(to, at_, slots)]
      | ISplit first second => [(first, at_, slots); (second, at_, slots)]
      | ISave slot => [(S pc, at_, put_slot slot at_ slots)]
      | IAssert assertion => if default false (holds (p_word p) assertion text at_) then [(S pc, at_, slots)] else []
      | ILook id => if default false (look id at_) then [(S pc, at_, slots)] else []
      | IMatch => []
      | _ => match chr at_ with Some ch => if takes inst ch then [(S pc, at_ + len_utf8 ch, slots)] else [] | None => [] end
      end
  end.

Definition ends (at_ : nat) : bool := match end_ with Some e => e =? at_ | None => true end.

Definition accepts (pc at_ : nat) : bool := match p_insts p !! pc with Some IMatch => ends at_ | _ => false end.

(** What stays in a list of threads: what reads, and what matches. *)
Definition is_leaf (pc : nat) : bool := match p_insts p !! pc with Some IMatch => true | Some inst => is_reader inst | None => false end.

(** * The search *)

(** A stack of things to try, the pairs tried already, the answer, and the pairs tried after. *)
Inductive explore : list Item → gset Node → option Slots → gset Node → Prop :=
| explore_nil V : explore [] V None V
| explore_seen pc at_ slots rest V r V' :
    (pc, at_) ∈ V → explore rest V r V' → explore ((pc, at_, slots) :: rest) V r V'
| explore_hit pc at_ slots rest V :
    (pc, at_) ∉ V → accepts pc at_ = true → explore ((pc, at_, slots) :: rest) V (Some (put_slot 1 at_ slots)) ({[(pc, at_)]} ∪ V)
| explore_step pc at_ slots rest V r V' :
    (pc, at_) ∉ V → accepts pc at_ = false → explore (next pc at_ slots ++ rest) ({[(pc, at_)]} ∪ V) r V' →
    explore ((pc, at_, slots) :: rest) V r V'.

Lemma explore_functional s V r V' r2 V2 : explore s V r V' → explore s V r2 V2 → r = r2 ∧ V' = V2.
Proof.
  intros H. revert r2 V2. induction H; intros r2 V2 H2; inversion H2; subst; try done; try congruence; eauto.
Qed.

Lemma explore_app_found s1 s2 V r V' : explore s1 V (Some r) V' → explore (s1 ++ s2) V (Some r) V'.
Proof.
  intros H. remember (Some r) as o eqn:Eo. induction H; simplify_eq/=; eauto using explore.
  apply explore_step; [done..|]. rewrite (assoc_L app). by apply IHexplore.
Qed.

Lemma explore_app_none s1 s2 V V1 r V' : explore s1 V None V1 → explore s2 V1 r V' → explore (s1 ++ s2) V r V'.
Proof.
  intros H Hr. remember None as o eqn:Eo. induction H; simplify_eq/=; eauto using explore.
  apply explore_step; [done..|]. rewrite (assoc_L app). by apply IHexplore.
Qed.

Lemma explore_app_inv s1 s2 V r V' : explore (s1 ++ s2) V r V' →
  (is_Some r ∧ explore s1 V r V') ∨ ∃ V1, explore s1 V None V1 ∧ explore s2 V1 r V'.
Proof.
  intros H. remember (s1 ++ s2) as s eqn:Es. revert s1 Es. induction H as [V|pc at_ slots rest V r V' Hin H IH|pc at_ slots rest V Hin Ha|pc at_ slots rest V r V' Hin Ha H IH];
    intros s1 Es.
  - symmetry in Es. apply app_nil in Es as [-> ->]. right. exists V. eauto using explore.
  - destruct s1 as [|x s1]; cbn in Es; [subst; right; exists V; eauto using explore|]. injection Es as <- ->.
    destruct (IH s1 eq_refl) as [[? ?]|(V1&?&?)]; [left|right; exists V1]; eauto using explore.
  - destruct s1 as [|x s1]; cbn in Es; [subst; right; exists V; eauto using explore|]. injection Es as <- ->. left. split; [done|]. by apply explore_hit.
  - destruct s1 as [|x s1]; cbn in Es; [subst; right; exists V; eauto using explore|]. injection Es as <- ->.
    destruct (IH (next pc at_ slots ++ s1)) as [[? ?]|(V1&?&?)]; [by rewrite (assoc_L app)|left|right; exists V1]; eauto using explore.
Qed.

(** Reading goes forward. *)
Lemma next_forward pc at_ slots x : x ∈ next pc at_ slots → at_ ≤ x.1.2.
Proof.
  unfold next. destruct (p_insts p !! pc) as [inst|]; [|by intros ?%elem_of_nil]. destruct inst; intros H; repeat case_match; set_unfold; naive_solver lia.
Qed.

Lemma next_leaf pc at_ slots x : is_leaf pc = true → x ∈ next pc at_ slots → ∃ ch, chr at_ = Some ch ∧ x = (S pc, at_ + len_utf8 ch, slots).
Proof.
  unfold is_leaf, next. destruct (p_insts p !! pc) as [inst|]; [|done]. destruct inst; cbn; intros Hl H; try done; try (by apply elem_of_nil in H);
    destruct (chr at_) as [ch|]; try (by apply elem_of_nil in H); case_match; try (by apply elem_of_nil in H); apply list_elem_of_singleton in H; eauto.
Qed.

Lemma next_stays pc at_ slots x : is_leaf pc = false → x ∈ next pc at_ slots → x.1.2 = at_.
Proof.
  unfold is_leaf, next. destruct (p_insts p !! pc) as [inst|]; [|by intros _ ?%elem_of_nil]. destruct inst; cbn; intros Hl H; try done; repeat case_match; set_unfold; naive_solver.
Qed.

(** * A search depends on what was tried from its positions on *)

Definition agree (q : nat) (V W : gset Node) : Prop := ∀ pc at_, q ≤ at_ → (pc, at_) ∈ V ↔ (pc, at_) ∈ W.
Definition agree_below (q : nat) (V W : gset Node) : Prop := ∀ pc at_, at_ < q → (pc, at_) ∈ V ↔ (pc, at_) ∈ W.

Lemma explore_frame q s V r V' : explore s V r V' → Forall (λ x : Item, q ≤ x.1.2) s → ∀ W, agree q V W →
  ∃ W', explore s W r W' ∧ agree q V' W' ∧ agree_below q W W'.
Proof.
  intros H. induction H as [V|pc at_ slots rest V r V' Hin H IH|pc at_ slots rest V Hin Ha|pc at_ slots rest V r V' Hin Ha H IH]; intros Hs W Hag.
  - exists W. by split_and!; [constructor| |intros ? ? ?].
  - apply Forall_cons in Hs as [Hq Hs]. destruct (IH Hs W Hag) as (W'&H1&H2&H3). exists W'. split_and!; [|done..].
    apply explore_seen; [by apply Hag|done].
  - apply Forall_cons in Hs as [Hq Hs]. exists ({[(pc, at_)]} ∪ W). cbn in Hq. split_and!.
    + apply explore_hit; [|done]. by rewrite <-(Hag pc at_).
    + intros pc' at' Hle. specialize (Hag pc' at' Hle). set_solver.
    + intros pc' at' Hlt. set_unfold. naive_solver lia.
  - apply Forall_cons in Hs as [Hq Hs]. cbn in Hq. destruct (IH) with (W := {[(pc, at_)]} ∪ W) as (W'&H1&H2&H3).
    + apply Forall_app. split; [|done]. apply Forall_forall. intros x Hx%next_forward. lia.
    + intros pc' at' Hle. specialize (Hag pc' at' Hle). set_solver.
    + exists W'. split_and!; [|done|].
      * apply explore_step; [by rewrite <-(Hag pc at_)|done..].
      * intros pc' at' Hlt. rewrite <-(H3 pc' at' Hlt). set_unfold. naive_solver lia.
Qed.

(** * One position *)

(** Everything that reads no character followed, and what is left in order. *)
Inductive closes (at_ : nat) : list (nat * Slots) → gset nat → list (nat * Slots) → gset nat → Prop :=
| closes_nil S : closes at_ [] S [] S
| closes_seen pc slots rest S L S' : pc ∈ S → closes at_ rest S L S' → closes at_ ((pc, slots) :: rest) S L S'
| closes_leaf pc slots rest S L S' :
    pc ∉ S → is_leaf pc = true → closes at_ rest ({[pc]} ∪ S) L S' → closes at_ ((pc, slots) :: rest) S ((pc, slots) :: L) S'
| closes_step pc slots rest S L S' :
    pc ∉ S → is_leaf pc = false → closes at_ (((λ x : Item, (x.1.1, x.2)) <$> next pc at_ slots) ++ rest) ({[pc]} ∪ S) L S' →
    closes at_ ((pc, slots) :: rest) S L S'.

Lemma closes_app at_ s1 s2 S L1 S1 L2 S2 : closes at_ s1 S L1 S1 → closes at_ s2 S1 L2 S2 → closes at_ (s1 ++ s2) S (L1 ++ L2) S2.
Proof.
  intros H. revert L2 S2. induction H; intros L2 S2 H2; cbn; eauto using closes.
  apply closes_step; [done..|]. rewrite (assoc_L app). by apply IHcloses.
Qed.

Lemma closes_leaves at_ s S L S' : closes at_ s S L S' → Forall (λ l, is_leaf l.1 = true) L.
Proof. induction 1; eauto. Qed.

(** The threads that go on, up to the first that matches, and its slots. *)
Fixpoint pass (at_ : nat) (L : list (nat * Slots)) : list Item :=
  match L with
  | [] => []
  | (pc, slots) :: L => if accepts pc at_ then [] else next pc at_ slots ++ pass at_ L
  end.

Fixpoint hit (at_ : nat) (L : list (nat * Slots)) : option Slots :=
  match L with
  | [] => None
  | (pc, slots) :: L => if accepts pc at_ then Some (put_slot 1 at_ slots) else hit at_ L
  end.

Lemma pass_forward at_ L x : Forall (λ l, is_leaf l.1 = true) L → x ∈ pass at_ L → ∃ ch, chr at_ = Some ch ∧ x.1.2 = at_ + len_utf8 ch.
Proof.
  induction 1 as [|[pc slots] L Hl _ IH]; cbn [pass]; [by intros ?%elem_of_nil|]. case_match; [by intros ?%elem_of_nil|].
  intros [Hx|Hx]%elem_of_app; [|by apply IH]. destruct (next_leaf pc at_ slots x Hl Hx) as (ch&?&->). eauto.
Qed.

Definition at_position (at_ : nat) (s : list (nat * Slots)) : list Item := (λ x, (x.1, at_, x.2)) <$> s.

Lemma at_position_back at_ (s : list Item) : Forall (λ x, x.1.2 = at_) s → at_position at_ ((λ x : Item, (x.1.1, x.2)) <$> s) = s.
Proof. induction 1 as [|[[pc a] slots] s Ha _ IH]; [done|]. cbn in Ha. subst a. unfold at_position in *. cbn. by f_equal. Qed.

(** The search of a stack at one position: the closure of the stack there, then the search of what
    goes on, then the match if there was one. *)
Lemma explore_layer at_ s S L S' : closes at_ s S L S' → ∀ V r0 V1, (∀ pc, (pc, at_) ∈ V ↔ pc ∈ S) → explore (pass at_ L) V r0 V1 →
  ∃ V', explore (at_position at_ s) V (or_else r0 (hit at_ L)) V'
    ∧ (or_else r0 (hit at_ L) = None → agree (at_ + 1) V1 V' ∧ agree_below at_ V V' ∧ ∀ pc, (pc, at_) ∈ V' ↔ pc ∈ S').
Proof.
  induction 1 as [S|pc slots rest S L S' Hin H IH|pc slots rest S L S' Hin Hl H IH|pc slots rest S L S' Hin Hl H IH]; intros V r0 V1 Hlay Hex.
  - inversion Hex; subst. exists V1. split; [constructor|]. intros _. by split_and!; [intros ? ? ?..|].
  - destruct (IH V r0 V1 Hlay Hex) as (V'&H1&H2). exists V'. split; [|done]. apply explore_seen; [by apply Hlay|done].
  - cbn [pass hit] in *. assert ((pc, at_) ∉ V) as Hnin by by rewrite Hlay. destruct (accepts pc at_) eqn:Ea.
    { inversion Hex; subst. exists ({[(pc, at_)]} ∪ V1). split; [by apply explore_hit|done]. }
    assert (Forall (λ x : Item, at_ + 1 ≤ x.1.2) (next pc at_ slots)) as Hfw.
    { apply Forall_forall. intros x Hx. destruct (next_leaf _ _ _ _ Hl Hx) as (ch&_&->). cbn. pose proof (len_utf8_pos ch). lia. }
    assert (Forall (λ x : Item, at_ + 1 ≤ x.1.2) (pass at_ L)) as Hfw'.
    { apply Forall_forall. intros x Hx. destruct (pass_forward at_ L x) as (ch&_&->); [by eapply closes_leaves|done|]. pose proof (len_utf8_pos ch). lia. }
    assert (agree (at_ + 1) V ({[(pc, at_)]} ∪ V)) as Hag by (intros pc' at' Hle; set_unfold; naive_solver lia).
    destruct (explore_app_inv _ _ _ _ _ Hex) as [[[r ->] Hf]|(V2&Hn&Hr)].
    + destruct (explore_frame (at_ + 1) _ _ _ _ Hf Hfw _ Hag) as (V'&Hf'&_). exists V'. split; [|done].
      apply explore_step; [done..|]. by apply explore_app_found.
    + destruct (explore_frame (at_ + 1) _ _ _ _ Hn Hfw _ Hag) as (W2&Hn'&Ha2&Hb2).
      destruct (explore_frame (at_ + 1) _ _ _ _ Hr Hfw' W2 Ha2) as (W1&Hr'&Ha1&Hb1).
      destruct (IH W2 r0 W1) as (V'&H1&H2); [|done|].
      { intros pc'. rewrite <-(Hb2 pc' at_) by lia. set_unfold. rewrite Hlay. naive_solver. }
      exists V'. split; [apply explore_step; [done..|]; by eapply explore_app_none|]. intros E. destruct (H2 E) as (A1&A2&A3). split_and!; [| |done].
      * intros pc' at' Hle. rewrite <-(A1 pc' at' Hle). by apply Ha1.
      * intros pc' at' Hlt. rewrite <-(A2 pc' at' Hlt), <-(Hb2 pc' at') by lia. set_unfold. naive_solver lia.
  - assert ((pc, at_) ∉ V) as Hnin by by rewrite Hlay.
    assert (accepts pc at_ = false) as Ea.
    { unfold accepts, is_leaf in *. destruct (p_insts p !! pc) as [[]|]; done. }
    assert (agree (at_ + 1) V ({[(pc, at_)]} ∪ V)) as Hag by (intros pc' at' Hle; set_unfold; naive_solver lia).
    destruct (explore_frame (at_ + 1) _ _ _ _ Hex) with (W := {[(pc, at_)]} ∪ V) as (W1&He&Ha1&_); [|done|].
    { apply Forall_forall. intros x Hx. destruct (pass_forward at_ L x) as (ch&_&->); [by eapply closes_leaves|done|]. pose proof (len_utf8_pos ch). lia. }
    destruct (IH ({[(pc, at_)]} ∪ V) r0 W1) as (V'&H1&H2); [intros pc'; set_unfold; rewrite Hlay; naive_solver|done|].
    exists V'. split.
    + apply explore_step; [done..|]. unfold at_position in H1. rewrite fmap_app in H1. fold (at_position at_ ((λ x : Item, (x.1.1, x.2)) <$> next pc at_ slots)) in H1.
      rewrite at_position_back in H1; [done|]. apply Forall_forall. intros x. by apply next_stays.
    + intros E. destruct (H2 E) as (A1&A2&A3). split_and!; [| |done].
      * intros pc' at' Hle. rewrite <-(A1 pc' at' Hle). by apply Ha1.
      * intros pc' at' Hlt. rewrite <-(A2 pc' at' Hlt). set_unfold. naive_solver lia.
Qed.
End graph.
