(* ===== verification/RegexPike.v ===== *)
(** Pike's machine is the search: on a program whose instructions lead somewhere it ends without a
    panic, with the answer of the depth first search from its start, or of the searches from each
    position in turn. *)

From S2P Require Import Prelude Regex RegexRun RegexDfs.
Local Open Scope nat_scope.

Section pike.
Context (look : nat → nat → option bool) (p : Program) (text : Text) (end_ : option nat).

Abbreviation n := (length (p_insts p)).
Abbreviation fresh at_ := (put_slot 0 at_ (replicate (2 * (p_groups p + 1)) None)).
Abbreviation next := (next look p text end_).
Abbreviation explore := (explore look p text end_).
Abbreviation closes := (closes look p text end_).
Abbreviation pass := (pass look p text end_).
Abbreviation hit := (hit p end_).
Abbreviation chr := (chr text end_).
Abbreviation explore_layer := (explore_layer look p text end_).

(** Every instruction leads to one of the program, and names what is there. *)
Definition leads (pc : nat) (inst : Inst) : Prop :=
  match inst with
  | IJump to => to < n
  | ISplit first second => first < n ∧ second < n
  | ISet id => S pc < n ∧ id < length (p_sets p)
  | ILook id => S pc < n ∧ ∀ at_, bound text at_ → is_Some (look id at_)
  | IMatch => True
  | _ => S pc < n
  end.

Record ready : Prop := {
  rd_entry : 0 < n;
  rd_inst : ∀ pc inst, p_insts p !! pc = Some inst → leads pc inst }.

Context (Hready : ready).

Lemma inst_there pc : pc < n → ∃ inst, p_insts p !! pc = Some inst ∧ leads pc inst.
Proof. intros [inst E]%lookup_lt_is_Some_2. exists inst. split; [done|]. by apply rd_inst. Qed.

Lemma next_there pc at_ slots x : x ∈ next pc at_ slots → x.1.1 < n.
Proof.
  unfold RegexDfs.next. destruct (p_insts p !! pc) as [inst|] eqn:E; [|by intros ?%elem_of_nil]. apply rd_inst in E; [|done].
  destruct inst; cbn in E; intros H; repeat case_match; set_unfold; naive_solver.
Qed.

Lemma next_bound pc at_ slots x : bound text at_ → x ∈ next pc at_ slots → bound text x.1.2.
Proof.
  intros Hb. unfold RegexDfs.next, RegexDfs.chr. destruct (p_insts p !! pc) as [inst|]; [|by intros ?%elem_of_nil].
  destruct inst; intros H; repeat case_match; set_unfold; destruct_or?; subst; try done; by apply bound_next.
Qed.

(** * A list of threads *)

Record holds_set (l : Threads) (S : gset nat) : Prop := {
  hs_length : length (th_seen l) = n;
  hs_range : ∀ x, x ∈ S → x < n;
  hs_seen : ∀ pc g, th_seen l !! pc = Some g → (g = th_generation l ↔ pc ∈ S);
  hs_old : Forall (λ g, 0 ≤ g ≤ th_generation l)%Z (th_seen l);
  hs_generation : (0 < th_generation l < 2 ^ 32 - 1)%Z }.

Lemma holds_set_size l S : holds_set l S → size S ≤ n.
Proof.
  intros H. trans (size (list_to_set (seq 0 n) : gset nat)).
  - apply subseteq_size. intros x Hx%(hs_range _ _ H). apply elem_of_list_to_set, elem_of_seq. lia.
  - rewrite size_list_to_set by apply NoDup_seq. by rewrite length_seq.
Qed.

Lemma holds_set_add l S threads pc :
  holds_set l S → pc < n → holds_set (mkThreads threads (<[pc := th_generation l]> (th_seen l)) (th_generation l)) ({[pc]} ∪ S).
Proof.
  intros [H1 H2 H3 H4 H5] Hpc. split; cbn [th_seen th_generation].
  - by rewrite length_insert.
  - intros x [->%elem_of_singleton|Hx]%elem_of_union; [done|by apply H2].
  - intros pc' g Hg. destruct (decide (pc' = pc)) as [->|Hne].
    + rewrite list_lookup_insert_eq in Hg by lia. simplify_eq. set_solver.
    + rewrite list_lookup_insert_ne in Hg by done. rewrite (H3 pc' g Hg). set_solver.
  - apply Forall_insert; [done|lia].
  - done.
Qed.

Lemma holds_set_threads l S threads : holds_set l S → holds_set (mkThreads threads (th_seen l) (th_generation l)) S.
Proof. intros [? ? ? ? ?]. by split. Qed.

Lemma holds_set_new : holds_set (Threads_new n) ∅.
Proof.
  split; cbn [Threads_new th_seen th_generation]; [apply length_replicate|set_solver| |apply Forall_replicate; lia|lia].
  intros pc g [-> _]%lookup_replicate. split; [lia|set_solver].
Qed.

Lemma holds_set_clear l S : holds_set l S → th_threads (Threads_clear l) = [] ∧ holds_set (Threads_clear l) ∅.
Proof.
  intros [H1 H2 H3 H4 H5]. unfold Threads_clear. destruct (Z.eqb_spec (th_generation l + 1) (2 ^ 32 - 1)) as [E|E]; (split; [done|]); split; cbn [th_seen th_generation].
  - by rewrite length_fmap.
  - set_solver.
  - intros pc g (?&->&_)%list_lookup_fmap_Some. split; [lia|set_solver].
  - apply Forall_fmap, Forall_true. intros ?. cbn. lia.
  - lia.
  - done.
  - set_solver.
  - intros pc g Hg. rewrite Forall_forall in H4. assert (0 ≤ g ≤ th_generation l)%Z by (apply H4; by eapply list_elem_of_lookup_2). split; [lia|set_solver].
  - eapply Forall_impl; [done|]. cbn. lia.
  - lia.
Qed.

(** [add] computes the closure. *)
Lemma add_loop_closes at_ : bound text at_ → ∀ fuel stack l S,
  Forall (λ x, x.1 < n) stack → holds_set l S → length stack + 2 * (n - size S) < fuel →
  ∃ L S' l', add_loop look p text fuel stack at_ l = Some l' ∧ closes at_ stack S L S' ∧ th_threads l' = th_threads l ++ L ∧ holds_set l' S'.
Proof.
  intros Hb. induction fuel as [|fuel IH]; intros stack l S Hst Hl Hf; [lia|].
  destruct stack as [|[pc slots] stack].
  { exists [], S, l. split_and!; [done|constructor|by rewrite app_nil_r|done]. }
  apply Forall_cons in Hst as [Hpc Hst]. cbn [fst] in Hpc. cbn [add_loop].
  destruct (lookup_lt_is_Some_2 (th_seen l) pc) as [g Eg]; [by rewrite (hs_length _ _ Hl)|]. rewrite Eg, some_bind.
  pose proof (hs_seen _ _ Hl pc g Eg) as Hseen. destruct (Z.eqb_spec g (th_generation l)) as [Eg'|Eg'].
  { destruct (IH stack l S) as (L&S'&l'&E&Hc&Et&Hl'); [done..|cbn in Hf; lia|]. exists L, S', l'. split_and!; [done| |done..].
    apply closes_seen; [by apply Hseen|done]. }
  assert (pc ∉ S) as Hnin by by rewrite <-Hseen.
  pose proof (λ threads, holds_set_add l S threads pc Hl Hpc) as Hadd.
  assert (size ({[pc]} ∪ S) = 1 + size S) as Esz by (rewrite size_union by set_solver; by rewrite size_singleton).
  pose proof (holds_set_size _ _ (Hadd [])) as Hsz. rewrite Esz in Hsz. cbn [length] in Hf.
  destruct (inst_there pc Hpc) as (inst&Ei&Hlead). rewrite Ei, some_bind.
  assert (∀ items, is_leaf p pc = false → next pc at_ slots = items → length items ≤ 2 →
    ∃ L S' l', add_loop look p text fuel (((λ x : Item, (x.1.1, x.2)) <$> items) ++ stack) at_
      (mkThreads (th_threads l) (<[pc := th_generation l]> (th_seen l)) (th_generation l)) = Some l'
      ∧ closes at_ ((pc, slots) :: stack) S L S' ∧ th_threads l' = th_threads l ++ L ∧ holds_set l' S') as Hgo.
  { intros items Hnl <- Hlen. destruct (IH (((λ x : Item, (x.1.1, x.2)) <$> next pc at_ slots) ++ stack)
      (mkThreads (th_threads l) (<[pc := th_generation l]> (th_seen l)) (th_generation l)) ({[pc]} ∪ S)) as (L&S'&l'&E&Hc&Et&Hl').
    - apply Forall_app. split; [|done]. apply Forall_fmap, Forall_forall. intros x. apply next_there.
    - apply Hadd.
    - rewrite length_app, length_fmap, Esz. lia.
    - exists L, S', l'. split_and!; [done|by apply closes_step|done..]. }
  assert (is_leaf p pc = true → ∃ L S' l', add_loop look p text fuel stack at_
      (mkThreads (th_threads l ++ [(pc, slots)]) (<[pc := th_generation l]> (th_seen l)) (th_generation l)) = Some l'
      ∧ closes at_ ((pc, slots) :: stack) S L S' ∧ th_threads l' = th_threads l ++ L ∧ holds_set l' S') as Hstop.
  { intros Hlf. destruct (IH stack (mkThreads (th_threads l ++ [(pc, slots)]) (<[pc := th_generation l]> (th_seen l)) (th_generation l)) ({[pc]} ∪ S))
      as (L&S'&l'&E&Hc&Et&Hl'); [done|apply Hadd|rewrite Esz; lia|].
    exists ((pc, slots) :: L), S', l'. split_and!; [done|by apply closes_leaf|by rewrite Et; cbn; rewrite <-(assoc_L app)|done]. }
  unfold RegexDfs.next, is_leaf in Hgo, Hstop. rewrite Ei in Hgo, Hstop. cbn [is_reader th_threads th_seen th_generation] in Hgo, Hstop |- *.
  destruct inst as [| | |assertion|id| | | |]; cbn in Hlead |- *; try (by apply Hstop); try (by apply (Hgo _ eq_refl eq_refl); cbn; lia).
  - destruct (holds_total (p_word p) assertion text at_ Hb) as [b Eb]. rewrite Eb, some_bind in *. cbn [default from_option id] in Hgo.
    destruct b; apply (Hgo _ eq_refl eq_refl); cbn; lia.
  - destruct Hlead as [_ Hlook]. destruct (Hlook at_ Hb) as [b Eb]. rewrite Eb, some_bind in *. cbn [default from_option] in Hgo.
    destruct b; apply (Hgo _ eq_refl eq_refl); cbn; lia.
Qed.

Lemma add_closes at_ pc slots l S : bound text at_ → pc < n → holds_set l S →
  ∃ L S' l', add look p text l pc at_ slots = Some l' ∧ closes at_ [(pc, slots)] S L S' ∧ th_threads l' = th_threads l ++ L ∧ holds_set l' S'.
Proof. intros Hb Hpc Hl. apply add_loop_closes; [done|by constructor|done|cbn; lia]. Qed.

(** * The threads at a position stepped over its character *)

Abbreviation strip s := ((λ x : Item, (x.1.1, x.2)) <$> s).

Lemma step_loop_passes at_ ch matched : bound text at_ → chr at_ = Some ch → bound text (at_ + len_utf8 ch) → ∀ L l D,
  Forall (λ x, x.1 < n) L → Forall (λ x, is_leaf p x.1 = true) L → holds_set l D →
  ∃ L' D' l', step_loop look p text end_ (Some ch) at_ L l matched = Some (l', or_else (hit at_ L) matched)
    ∧ closes (at_ + len_utf8 ch) (strip (pass at_ L)) D L' D' ∧ th_threads l' = th_threads l ++ L' ∧ holds_set l' D'.
Proof.
  intros Hb Hch Hb'. induction L as [|[pc slots] L IH]; intros l D Hpc Hlf Hl.
  { exists [], D, l. split_and!; [done|constructor|by rewrite app_nil_r|done]. }
  apply Forall_cons in Hpc as [Hpc HL], Hlf as [Hlf HL']. cbn [fst] in *. cbn [step_loop RegexDfs.pass RegexDfs.hit].
  destruct (inst_there pc Hpc) as (inst&Ei&Hlead). rewrite Ei, some_bind. unfold accepts, is_leaf in *. rewrite Ei in *.
  assert (∀ taken, next pc at_ slots = (if (taken : bool) then [(S pc, at_ + len_utf8 ch, slots)] else []) → S pc < n →
    ∃ L' D' l', (if taken then next0 ← add look p text l (S pc) (at_ + len_utf8 ch) slots; step_loop look p text end_ (Some ch) at_ L next0 matched
                 else step_loop look p text end_ (Some ch) at_ L l matched) = Some (l', or_else (hit at_ L) matched)
      ∧ closes (at_ + len_utf8 ch) (strip (next pc at_ slots ++ pass at_ L)) D L' D' ∧ th_threads l' = th_threads l ++ L' ∧ holds_set l' D') as Hgo.
  { intros taken -> Hs. destruct taken; [|by apply IH].
    destruct (add_closes (at_ + len_utf8 ch) (S pc) slots l D Hb' Hs Hl) as (L1&D1&l1&E1&C1&T1&H1). rewrite E1, some_bind.
    destruct (IH l1 D1 HL HL' H1) as (L2&D2&l2&E2&C2&T2&H2). exists (L1 ++ L2), D2, l2. split_and!; [done| |by rewrite T2, T1, (assoc_L app)|done].
    cbn. by eapply (closes_app look p text end_ _ [(S pc, slots)]). }
  destruct inst as [want|id|newline| | | | | |]; try done; cbn in Hlead.
  - assert (next pc at_ slots = if bool_decide (Some ch = Some want) then [(S pc, at_ + len_utf8 ch, slots)] else []) as En
      by (unfold RegexDfs.next, takes; by rewrite Ei, Hch).
    cbn [reads]. rewrite some_bind. by destruct (bool_decide (Some ch = Some want)); [apply (Hgo true)|apply (Hgo false)].
  - destruct Hlead as [Hs Hid]. apply lookup_lt_is_Some_2 in Hid as [s Es]. cbn [reads]. rewrite Es, !some_bind.
    assert (next pc at_ slots = if Set_contains s ch then [(S pc, at_ + len_utf8 ch, slots)] else []) as En
      by (unfold RegexDfs.next, takes; rewrite Ei, Hch; cbn [reads]; by rewrite Es).
    by destruct (Set_contains s ch); [apply (Hgo true)|apply (Hgo false)].
  - assert (next pc at_ slots = if newline || negb (ch =? 10)%Z then [(S pc, at_ + len_utf8 ch, slots)] else []) as En
      by (unfold RegexDfs.next, takes; by rewrite Ei, Hch).
    cbn [reads]. rewrite some_bind. by destruct (newline || negb (ch =? 10)%Z); [apply (Hgo true)|apply (Hgo false)].
  - unfold ends. destruct end_ as [e|]; [|by exists [], D, l; split_and!; [|constructor|rewrite app_nil_r|]].
    destruct (Nat.eqb_spec e at_) as [->|Hne]; cbn [negb]; [by exists [], D, l; split_and!; [|constructor|rewrite app_nil_r|]|].
    unfold RegexDfs.next in *. rewrite Ei in *. by apply IH.
Qed.

(** At the end nothing is read. *)
Lemma pass_end at_ L : chr at_ = None → Forall (λ x, is_leaf p x.1 = true) L → pass at_ L = [].
Proof.
  intros Hch. induction 1 as [|[pc slots] L Hlf _ IH]; [done|]. cbn [RegexDfs.pass]. case_match; [done|]. rewrite IH, app_nil_r.
  destruct (next pc at_ slots) as [|x l] eqn:E; [done|]. destruct (next_leaf look p text end_ pc at_ slots x Hlf) as (ch&Hc&_); [rewrite E; by left|congruence].
Qed.

Lemma step_loop_end at_ matched l : chr at_ = None → ∀ L,
  Forall (λ x, x.1 < n) L → Forall (λ x, is_leaf p x.1 = true) L →
  step_loop look p text end_ None at_ L l matched = Some (l, or_else (hit at_ L) matched).
Proof.
  intros Hch. induction L as [|[pc slots] L IH]; intros Hpc Hlf; [done|]. apply Forall_cons in Hpc as [Hpc HL], Hlf as [Hlf HL']. cbn [fst] in *.
  cbn [step_loop RegexDfs.hit]. destruct (inst_there pc Hpc) as (inst&Ei&Hlead). rewrite Ei, some_bind. unfold accepts, is_leaf, ends in *. rewrite Ei in *.
  destruct inst; try done; cbn [reads]; rewrite ?some_bind; repeat case_match; simplify_eq; try (by apply IH); try done.
Qed.

(** * The searches from each position *)

Inductive attempts : nat → gset Node → option Slots → gset Node → Prop :=
| attempts_found at_ V r V' : explore [(0, at_, fresh at_)] V (Some r) V' → attempts at_ V (Some r) V'
| attempts_end at_ V V' : explore [(0, at_, fresh at_)] V None V' → chr at_ = None → attempts at_ V None V'
| attempts_next at_ ch V V1 r V' :
    explore [(0, at_, fresh at_)] V None V1 → chr at_ = Some ch → attempts (at_ + len_utf8 ch) V1 r V' → attempts at_ V r V'.

Lemma attempts_frame at_ V r V' : attempts at_ V r V' → ∀ W, agree at_ V W → ∃ W', attempts at_ W r W'.
Proof.
  assert (∀ at_, Forall (λ x : Item, at_ ≤ x.1.2) [(0, at_, fresh at_)]) as Hf by (intros; by constructor).
  induction 1 as [at_ V r V' H|at_ V V' H Hc|at_ ch V V1 r V' H Hc _ IH]; intros W Hag;
    destruct (explore_frame look p text end_ at_ _ _ _ _ H (Hf at_) W Hag) as (W'&H'&Ha&_).
  - exists W'. by apply attempts_found.
  - exists W'. by apply attempts_end.
  - destruct (IH W') as (W2&H2); [intros pc at' Hle; apply Ha; lia|]. exists W2. by eapply attempts_next.
Qed.

(** * The machine *)

Definition unmarked (at_ : nat) (V : gset Node) : Prop := ∀ pc at', at_ ≤ at' → (pc, at') ∉ V.

Lemma unmarked_layer at_ V : unmarked at_ V → ∀ pc, (pc, at_) ∈ V ↔ pc ∈ (∅ : gset nat).
Proof. intros H pc. split; [intros Hin; by apply H in Hin|set_solver]. Qed.

Lemma unmarked_le at_ at' V : unmarked at_ V → at_ ≤ at' → unmarked at' V.
Proof. intros H Hle pc a Ha. apply H. lia. Qed.

Lemma closes_there at_ s D L D' : closes at_ s D L D' → Forall (λ x, x.1 < n) s → Forall (λ x, x.1 < n) L.
Proof.
  induction 1 as [|?????? ? ? IH|?????? ? ? ? IH|pc slots rest D L D' Hin Hl H IH]; intros Hs; try apply Forall_cons in Hs as [? Hs]; eauto.
  apply IH, Forall_app. split; [|done]. apply Forall_fmap, Forall_forall. intros x. apply next_there.
Qed.

Lemma strip_pass at_ ch L : chr at_ = Some ch → Forall (λ x, is_leaf p x.1 = true) L →
  at_position (at_ + len_utf8 ch) (strip (pass at_ L)) = pass at_ L ∧ Forall (λ x, x.1 < n) (strip (pass at_ L)).
Proof.
  intros Hch HL. split.
  - apply at_position_back, Forall_forall. intros x Hx. destruct (pass_forward look p text end_ at_ L x HL Hx) as (c&Hc&->). by simplify_eq.
  - apply Forall_fmap, Forall_forall. clear HL. induction L as [|[pc slots] L IH]; cbn [RegexDfs.pass]; [by intros x ?%elem_of_nil|].
    case_match; [by intros x ?%elem_of_nil|]. intros x [Hx|Hx]%elem_of_app; [by eapply next_there|by apply IH].
Qed.

Lemma or_else_assoc {A} (x y z : option A) : or_else (or_else x y) z = or_else x (or_else y z).
Proof. by destruct x. Qed.

Section search.
Context (start : nat) (sticky : bool).

Abbreviation machine := (search_loop look p text).
Abbreviation unanchored := (negb (p_anchored p) && negb sticky).

Lemma chr_bound at_ ch : bound text at_ → chr at_ = Some ch → bound text (at_ + len_utf8 ch).
Proof. unfold RegexDfs.chr. case_decide; [done|]. by apply bound_next. Qed.

Lemma reads_chr at_ : bound text at_ → (if bool_decide (end_ = Some at_) then Some None else after text at_) = Some (chr at_).
Proof. intros Hb. unfold RegexDfs.chr. case_bool_decide; case_decide; try done. by apply bound_after. Qed.

(** No thread starts any more: what is in the list is searched. *)
Lemma machine_tail fuel : ∀ at_ current other matched items L D V,
  bound text at_ → (is_Some matched ∨ unanchored = false ∧ at_ ≠ start ∧ start ≤ at_) → text_len text - at_ + 1 < fuel →
  Forall (λ x, x.1 < n) items → closes at_ items ∅ L D → th_threads current = L → holds_set current D → (∃ D2, holds_set other D2) → unmarked at_ V →
  ∃ r V', machine fuel start sticky end_ at_ current other matched = Some (or_else r matched) ∧ explore (at_position at_ items) V r V'.
Proof.
  induction fuel as [|fuel IH]; intros at_ current other matched items L D V Hb Hno Hf Hitems Hc <- Hcur [D2 Hoth] Hun; [lia|]. cbn [search_loop].
  rewrite reads_chr, some_bind by done.
  assert (negb (bool_decide (is_Some matched)) && ((at_ =? start) || (negb (bool_decide (is_Some matched)) && negb (p_anchored p) && negb sticky)) = false) as ->.
  { destruct Hno as [Hm|(Hu&Hne&_)]; [by rewrite bool_decide_eq_true_2|]. rewrite <-andb_assoc, Hu, (proj2 (Nat.eqb_neq _ _) Hne). by rewrite andb_false_r, orb_false_r, andb_false_r. }
  assert (negb (bool_decide (is_Some matched)) && negb (p_anchored p) && negb sticky = false) as ->.
  { destruct Hno as [Hm|(Hu&_)]; [by rewrite bool_decide_eq_true_2|]. by rewrite <-andb_assoc, Hu, andb_false_r. }
  rewrite some_bind. pose proof (closes_leaves look p text end_ _ _ _ _ _ Hc) as Hleaf. pose proof (closes_there _ _ _ _ _ Hc Hitems) as Hthere.
  pose proof (unmarked_layer _ _ Hun) as Hlay. case_bool_decide as Hempty; cbn [andb negb].
  { rewrite Hempty in *. destruct (explore_layer _ _ _ _ _ Hc V None V Hlay) as (V'&HV&_); [constructor|]. by exists None, V'. }
  destruct (holds_set_clear _ _ Hoth) as [Hct Hcl]. destruct (chr at_) as [ch|] eqn:Hch.
  2:{ rewrite step_loop_end by done. rewrite some_bind. destruct (explore_layer _ _ _ _ _ Hc V None V Hlay) as (V'&HV&_); [|by exists (hit at_ (th_threads current)), V'].
    rewrite pass_end by done. constructor. }
  destruct (step_loop_passes at_ ch matched Hb Hch (chr_bound _ _ Hb Hch) (th_threads current) _ _ Hthere Hleaf Hcl) as (L'&D'&l'&E&Hc'&Ht'&Hl').
  rewrite E, some_bind. destruct (strip_pass at_ ch (th_threads current) Hch Hleaf) as [Hpos Hin].
  assert (bound text (at_ + len_utf8 ch)) as Hb' by by apply chr_bound. pose proof (len_utf8_pos ch). pose proof (bound_le _ _ Hb').
  destruct (IH (at_ + len_utf8 ch) l' current (or_else (hit at_ (th_threads current)) matched) (strip (pass at_ (th_threads current))) L' D' V)
    as (r&V'&Hm&He); try done; [|lia|by rewrite Ht', Hct|by exists D|by eapply unmarked_le; [exact Hun|lia]|].
  { destruct Hno as [[m ->]|(?&?&?)]; [left|right; split_and!; [done|lia..]]. by destruct (hit at_ _). }
  rewrite Hpos in He. destruct (explore_layer _ _ _ _ _ Hc V r V' Hlay He) as (V2&HV&_).
  exists (or_else r (hit at_ (th_threads current))), V2. split; [|done]. by rewrite Hm, or_else_assoc.
Qed.

(** A thread starts at every position until one matches. *)
Lemma machine_sweep fuel : ∀ at_ current other items L D V,
  bound text at_ → unanchored = true → text_len text - at_ + 1 < fuel →
  Forall (λ x, x.1 < n) items → closes at_ items ∅ L D → th_threads current = L → holds_set current D → (∃ D2, holds_set other D2) → unmarked at_ V →
  ∃ r, machine fuel start sticky end_ at_ current other None = Some r
    ∧ ((is_Some r ∧ ∃ V', explore (at_position at_ items) V r V') ∨ ∃ V1 V', explore (at_position at_ items) V None V1 ∧ attempts at_ V1 r V').
Proof.
  induction fuel as [|fuel IH]; intros at_ current other items L D V Hb Hu Hf Hitems Hc <- Hcur [D2 Hoth] Hun; [lia|]. cbn [search_loop].
  rewrite reads_chr, some_bind by done. rewrite (bool_decide_eq_false_2 (is_Some None)) by by intros [??]. cbn [negb andb]. rewrite Hu, orb_true_r.
  pose proof (rd_entry Hready) as Hn. destruct (add_closes at_ 0 (fresh at_) current D Hb Hn Hcur) as (L0&D0&cur&E0&C0&T0&H0). rewrite E0, some_bind, andb_false_r.
  pose proof (closes_app look p text end_ _ _ _ _ _ _ _ _ Hc C0) as Hall. rewrite <-T0 in Hall. set (La := th_threads cur) in *.
  assert (Forall (λ x, x.1 < n) (items ++ [(0, fresh at_)])) as Hitems' by (apply Forall_app; split; [done|by constructor]).
  pose proof (closes_leaves look p text end_ _ _ _ _ _ Hall) as Hleaf. pose proof (closes_there _ _ _ _ _ Hall Hitems') as Hthere.
  pose proof (unmarked_layer _ _ Hun) as Hlay. destruct (holds_set_clear _ _ Hoth) as [Hct Hcl].
  assert (∀ r, is_Some r → (∃ V', explore (at_position at_ (items ++ [(0, fresh at_)])) V r V') →
    (is_Some r ∧ ∃ V', explore (at_position at_ items) V r V') ∨ ∃ V1 V', explore (at_position at_ items) V None V1 ∧ attempts at_ V1 r V') as Hfound.
  { intros r [x ->] (V'&HV). unfold at_position in HV. rewrite fmap_app in HV. apply explore_app_inv in HV as [[_ HV]|(V1&HV1&HV2)]; [left; eauto|].
    right. exists V1, V'. split; [done|]. by apply attempts_found. }
  destruct (chr at_) as [ch|] eqn:Hch.
  2:{ rewrite step_loop_end by done. rewrite some_bind. destruct (explore_layer _ _ _ _ _ Hall V None V Hlay) as (V'&HV&_); [rewrite pass_end by done; constructor|].
    cbn [or_else] in HV. replace (or_else (hit at_ La) None) with (hit at_ La) by by destruct (hit at_ La). exists (hit at_ La). split; [done|].
    destruct (hit at_ La) as [h|]; [apply Hfound; eauto|]. right. unfold at_position in HV. rewrite fmap_app in HV.
    apply explore_app_inv in HV as [[[? ?] _]|(V1&HV1&HV2)]; [done|]. exists V1, V'. split; [done|]. by apply attempts_end. }
  assert (bound text (at_ + len_utf8 ch)) as Hb' by by apply chr_bound. pose proof (len_utf8_pos ch). pose proof (bound_le _ _ Hb').
  destruct (step_loop_passes at_ ch None Hb Hch Hb' La _ _ Hthere Hleaf Hcl) as (L'&D'&l'&E&Hc'&Ht'&Hl').
  rewrite E, some_bind. destruct (strip_pass at_ ch La Hch Hleaf) as [Hpos Hin]. destruct (hit at_ La) as [h|] eqn:Hh; cbn [or_else].
  { destruct (machine_tail fuel (at_ + len_utf8 ch) l' cur (Some h) (strip (pass at_ La)) L' D' V) as (r&V'&Hm&He);
      try done; [by left|lia|by rewrite Ht', Hct|by exists D0|by eapply unmarked_le; [exact Hun|lia]|].
    rewrite Hpos in He. destruct (explore_layer _ _ _ _ _ Hall V r V' Hlay He) as (V2&HV&_). rewrite Hh in HV.
    exists (or_else r (Some h)). split; [done|]. apply Hfound; [by destruct r|eauto]. }
  destruct (IH (at_ + len_utf8 ch) l' cur (strip (pass at_ La)) L' D' V) as (r&Hm&Hr); try done; [lia|by rewrite Ht', Hct|by exists D0|by eapply unmarked_le; [exact Hun|lia]|].
  rewrite Hpos in Hr. exists r. split; [done|]. destruct Hr as [[[x ->] (V'&He)]|(V1&V'&He&Hat)].
  { destruct (explore_layer _ _ _ _ _ Hall V _ V' Hlay He) as (V2&HV&_). apply Hfound; [done|]. exists V2. exact HV. }
  destruct (explore_layer _ _ _ _ _ Hall V None V1 Hlay He) as (V2&HV&Hag). cbn [or_else] in *. rewrite Hh in *. destruct (Hag eq_refl) as (Hag1&_).
  destruct (attempts_frame _ _ _ _ Hat V2) as (W'&HW); [intros pc a Ha; apply Hag1; lia|].
  unfold at_position in HV. rewrite fmap_app in HV. apply explore_app_inv in HV as [[[? ?] _]|(V3&HV1&HV2)]; [done|].
  right. exists V3, W'. split; [done|]. by eapply attempts_next.
Qed.

(** The whole of it. *)
Lemma search_with_ok : bound text start →
  ∃ r V', search_with look p text start sticky end_ = Some r
    ∧ if unanchored then attempts start ∅ r V' else explore [(0, start, fresh start)] ∅ r V'.
Proof.
  intros Hb. unfold search_with. assert (unmarked start ∅) as Hun by (intros ? ? ?; set_solver). pose proof (bound_le _ _ Hb).
  destruct unanchored eqn:Hu.
  { destruct (machine_sweep (text_len text + 2) start (Threads_new n) (Threads_new n) [] [] ∅ ∅) as (r&Hm&Hr); try done;
      [lia|constructor|apply holds_set_new|exists ∅; apply holds_set_new|].
    destruct Hr as [[[x ->] (V'&He)]|(V1&V'&He&Hat)]; inversion He; subst. by exists r, V'. }
  replace (text_len text + 2) with (S (text_len text + 1)) by lia. cbn [search_loop]. rewrite reads_chr, some_bind by done.
  rewrite (bool_decide_eq_false_2 (is_Some None)) by by intros [??]. cbn [negb andb]. rewrite Hu, Nat.eqb_refl. cbn [orb].
  pose proof (rd_entry Hready) as Hn. destruct (add_closes start 0 (fresh start) (Threads_new n) ∅ Hb Hn holds_set_new) as (L0&D0&cur&E0&C0&T0&H0).
  rewrite E0, some_bind. cbn [negb]. rewrite andb_true_r. cbn [Threads_new th_threads app] in T0. rewrite <-T0 in C0. set (La := th_threads cur) in *.
  pose proof (closes_leaves look p text end_ _ _ _ _ _ C0) as Hleaf.
  pose proof (closes_there _ _ _ _ _ C0 ltac:(by constructor)) as Hthere. pose proof (unmarked_layer _ _ Hun) as Hlay.
  case_bool_decide as Hempty.
  { rewrite Hempty in *. destruct (explore_layer _ _ _ _ _ C0 ∅ None ∅ Hlay) as (V'&HV&_); [constructor|]. by exists None, V'. }
  destruct (holds_set_clear _ _ holds_set_new) as [Hct Hcl]. destruct (chr start) as [ch|] eqn:Hch.
  2:{ rewrite step_loop_end by done. rewrite some_bind. destruct (explore_layer _ _ _ _ _ C0 ∅ None ∅ Hlay) as (V'&HV&_); [rewrite pass_end by done; constructor|].
    exists (hit start La), V'. split; [|done]. by destruct (hit start La). }
  assert (bound text (start + len_utf8 ch)) as Hb' by by apply chr_bound. pose proof (len_utf8_pos ch). pose proof (bound_le _ _ Hb').
  destruct (step_loop_passes start ch None Hb Hch Hb' La _ _ Hthere Hleaf Hcl) as (L'&D'&l'&E&Hc'&Ht'&Hl').
  rewrite E, some_bind. destruct (strip_pass start ch La Hch Hleaf) as [Hpos Hin].
  destruct (machine_tail (text_len text + 1) (start + len_utf8 ch) l' cur (or_else (hit start La) None) (strip (pass start La)) L' D' ∅) as (r&V'&Hm&He);
    try done; [right; split_and!; [done|lia..]|lia|by exists D0|].
  rewrite Hpos in He. destruct (explore_layer _ _ _ _ _ C0 ∅ r V' Hlay He) as (V2&HV&_).
  exists (or_else r (hit start La)), V2. split; [|done]. rewrite Hm. by destruct r, (hit start La).
Qed.
End search.
End pike.
