(* ===== verification/RegexBack.v ===== *)
(** The backtracker is the search: its stack of jobs with the undoing of slots between them is the
    stack of things to try, and its bits are the pairs tried. *)

From S2P Require Import Prelude Regex RegexRun RegexDfs RegexPike.
Local Open Scope nat_scope.

(** The stack the jobs stand for, from the slots as they are. *)
Fixpoint unwind (jobs : list Job) (slots : Slots) : list Item :=
  match jobs with
  | [] => []
  | Step pc at_ :: jobs => (pc, at_, slots) :: unwind jobs slots
  | Restore slot value :: jobs => unwind jobs (<[slot := value]> slots)
  end.

Section back.
Context (p : Program) (text : Text) (whole : bool).

Abbreviation end_ := (if whole then Some (text_len text) else None).
Abbreviation n := (length (p_insts p)).
Abbreviation stride := (text_len text + 1).
Abbreviation next := (next (look p text) p text end_).
Abbreviation explore := (explore (look p text) p text end_).
Abbreviation chr := (chr text end_).
Abbreviation ready := (ready (look p text) p text).

Context (Hready : ready) (Htext : text_ok text).

Definition item_ok (x : Item) : Prop := x.1.1 < n ∧ bound text x.1.2.

Lemma next_ok pc at_ slots : bound text at_ → Forall item_ok (next pc at_ slots).
Proof.
  intros Hb. apply Forall_forall. intros x Hx. split; [by eapply next_there|by eapply next_bound].
Qed.

Lemma chr_here at_ : bound text at_ → chr at_ = char_at text at_.
Proof.
  intros Hb. unfold RegexDfs.chr. case_decide as Hd; [|done]. symmetry. apply char_at_None; [done|]. destruct whole; by simplify_eq.
Qed.

(** * Bits *)

Definition cell (x : Node) : nat := x.1 * stride + x.2.

Lemma cell_inj x y : x.2 < stride → y.2 < stride → cell x = cell y → x = y.
Proof.
  destruct x as [a b], y as [c d]. unfold cell. cbn. intros Hb Hd E.
  assert (a = c) as -> by (destruct (Nat.lt_trichotomy a c) as [|[|]]; nia).
  f_equal. lia.
Qed.

Definition in_range (x : Node) : Prop := x.1 < n ∧ x.2 < stride.

Lemma cell_lt x : in_range x → cell x < n * stride.
Proof. destruct x as [a b]. unfold cell, in_range. cbn. nia. Qed.

Definition marked (visited : list Z) (c : nat) : bool := match visited !! (c / 32) with Some word => Z.testbit word (Z.of_nat (c mod 32)) | None => false end.

Record remembers (visited : list Z) (V : gset Node) : Prop := {
  rm_length : n * stride / 32 < length visited;
  rm_range : ∀ x, x ∈ V → in_range x;
  rm_bits : ∀ x, in_range x → marked visited (cell x) = bool_decide (x ∈ V) }.

Lemma remembers_word visited V x : remembers visited V → in_range x →
  ∃ word, visited !! (cell x / 32) = Some word ∧ Z.testbit word (Z.of_nat (cell x mod 32)) = bool_decide (x ∈ V).
Proof.
  intros [H1 H2 H3] Hx. assert (cell x / 32 < length visited) as [word E]%lookup_lt_is_Some_2.
  { pose proof (cell_lt x Hx). pose proof (Nat.Div0.div_le_mono (cell x) (n * stride) 32). lia. }
  exists word. split; [done|]. rewrite <-(H3 x Hx). unfold marked. by rewrite E.
Qed.

Lemma remembers_mark visited V x word : remembers visited V → in_range x → visited !! (cell x / 32) = Some word →
  remembers (<[(cell x / 32) := Z.lor word (1 ≪ Z.of_nat (cell x mod 32))]> visited) ({[x]} ∪ V).
Proof.
  intros [H1 H2 H3] Hx Ew. split.
  - by rewrite length_insert.
  - intros y [->%elem_of_singleton|Hy]%elem_of_union; [done|by apply H2].
  - intros y Hy. specialize (H3 y Hy). unfold marked in *. destruct (decide (y = x)) as [->|Hne].
    { rewrite list_lookup_insert_eq by by eapply lookup_lt_Some. rewrite Z.lor_spec, Z.shiftl_1_l, Z.pow2_bits_true, orb_true_r by lia.
      symmetry. apply bool_decide_eq_true_2. set_solver. }
    rewrite (bool_decide_ext _ (y ∈ V)) by set_solver. rewrite <-H3. destruct (decide (cell y / 32 = cell x / 32)) as [E|E].
    + rewrite E, list_lookup_insert_eq, Ew by by eapply lookup_lt_Some. rewrite Z.lor_spec, Z.shiftl_1_l.
      rewrite Z.pow2_bits_false, orb_false_r; [done|]. intros Em%Nat2Z.inj. apply Hne. apply cell_inj; [apply Hy|apply Hx|].
      rewrite (Nat.div_mod (cell y) 32), (Nat.div_mod (cell x) 32) by lia. by rewrite E, Em.
    + by rewrite list_lookup_insert_ne by done.
Qed.

Lemma in_range_size (V : gset Node) : (∀ x, x ∈ V → in_range x) → size V ≤ n * stride.
Proof.
  intros H2. assert (elements V ⊆+ list_prod (seq 0 n) (seq 0 stride)) as Hs.
  { apply NoDup_submseteq; [apply NoDup_elements|]. intros [a b] Hx%elem_of_elements%H2. destruct Hx as [? ?]. cbn in *.
    apply list_elem_of_In, in_prod; apply in_seq; lia. }
  apply submseteq_length in Hs. rewrite length_prod, !length_seq in Hs. done.
Qed.

Lemma size_marked (V : gset Node) x : (∀ y, y ∈ V → in_range y) → in_range x → x ∉ V → size ({[x]} ∪ V) = 1 + size V ∧ 1 + size V ≤ n * stride.
Proof.
  intros HV Hx Hnin. assert (size ({[x]} ∪ V) = 1 + size V) as E by (rewrite size_union by set_solver; by rewrite size_singleton).
  split; [done|]. rewrite <-E. apply in_range_size. set_unfold. naive_solver.
Qed.

Lemma item_in_range x : item_ok x → in_range x.1.
Proof. intros [? Hb%bound_le]. split; [done|lia]. Qed.

(** * The loops *)

Lemma unwind_restore slots slot value at_ jobs :
  slots !! slot = Some value → unwind (Restore slot value :: jobs) (<[slot := Some at_]> slots) = unwind jobs slots.
Proof. intros E. cbn [unwind]. by rewrite list_insert_insert_eq, list_insert_id. Qed.

Definition job_ok (j : Job) : Prop := match j with Step pc at_ => pc < n ∧ bound text at_ | Restore _ _ => True end.

Definition stack_of (now : option Node) (c : Cache) : list Item :=
  match now with Some x => [(x, ca_slots c)] | None => [] end ++ unwind (ca_jobs c) (ca_slots c).

Lemma run_loop_explores fuel : ∀ now c V,
  remembers (ca_visited c) V → Forall job_ok (ca_jobs c) → (∀ x, now = Some x → x.1 < n ∧ bound text x.2) →
  2 * length (ca_jobs c) + (if now then 1 else 0) + 3 * (n * stride - size V) < fuel →
  ∃ r V' c', run_loop p text fuel whole stride now c = Some (bool_decide (is_Some r), c') ∧ explore (stack_of now c) V r V'
    ∧ remembers (ca_visited c') V' ∧ (∀ slots, r = Some slots → ca_slots c' = slots).
Proof.
  induction fuel as [|fuel IH]; intros now c V HV Hjobs Hnow Hf; [lia|]. cbn [run_loop]. destruct now as [[pc at_]|].
  2:{ destruct c as [visited jobs slots]. cbn [ca_jobs ca_slots ca_visited] in *. destruct jobs as [|[pc at_|slot value] jobs].
    - exists None, V, (mkCache visited [] slots). split_and!; [done|constructor|done|done].
    - apply Forall_cons in Hjobs as [Hj Hjobs].
      destruct (IH (Some (pc, at_)) (mkCache visited jobs slots) V) as (r&V'&c'&E&He&H'); [done|done|by intros ? [= <-]|cbn [ca_jobs length] in *; lia|].
      by exists r, V', c'.
    - apply Forall_cons in Hjobs as [Hj Hjobs].
      destruct (IH None (mkCache visited jobs (<[slot := value]> slots)) V) as (r&V'&c'&E&He&H'); [done|done|done|cbn [ca_jobs length] in *; lia|].
      by exists r, V', c'. }
  destruct (Hnow _ eq_refl) as [Hpc Hb]. cbn [fst snd] in Hpc, Hb. assert (in_range (pc, at_)) as Hr by (apply (item_in_range (pc, at_, [])); by split).
  destruct (remembers_word _ _ _ HV Hr) as (word&Ew&Eb). unfold cell in Ew, Eb. cbn [fst snd] in Ew, Eb. rewrite Ew, some_bind, Eb.
  unfold stack_of. cbn [app]. case_bool_decide as Hin.
  { destruct (IH None c V) as (r&V'&c'&E&He&H'); [done..|lia|]. exists r, V', c'. split_and!; [done|by apply explore_seen|apply H'..]. }
  destruct (size_marked V (pc, at_) (rm_range _ _ HV) Hr Hin) as [Esz Hsz].
  pose proof (remembers_mark _ _ _ _ HV Hr Ew) as HV'. unfold cell in HV'. cbn [fst snd] in HV'.
  set (visited := <[_ := _]> (ca_visited c)) in *. destruct (inst_there _ _ _ Hready pc Hpc) as (inst&Ei&Hlead). rewrite Ei, some_bind.
  (* wherever the walk goes on, it is the search *)
  assert (∀ now' jobs slots, next pc at_ (ca_slots c) ++ unwind (ca_jobs c) (ca_slots c) = stack_of now' (mkCache visited jobs slots) →
    accepts p end_ pc at_ = false → Forall job_ok jobs → length jobs ≤ length (ca_jobs c) + 1 → (∀ x, now' = Some x → x.1 < n ∧ bound text x.2) →
    ∃ r V' c', run_loop p text fuel whole stride now' (mkCache visited jobs slots) = Some (bool_decide (is_Some r), c')
      ∧ explore ((pc, at_, ca_slots c) :: unwind (ca_jobs c) (ca_slots c)) V r V' ∧ remembers (ca_visited c') V' ∧ (∀ slots, r = Some slots → ca_slots c' = slots)) as Hgo.
  { intros now' jobs slots Est Ha Hj Hlen Hn'. destruct (IH now' (mkCache visited jobs slots) ({[(pc, at_)]} ∪ V)) as (r&V'&c'&E&He&H'); [done..| |].
    - rewrite Esz. cbn [ca_jobs]. destruct now'; lia.
    - exists r, V', c'. split_and!; [done| |apply H'..]. apply explore_step; [done..|]. by rewrite Est. }
  assert (∀ l, next pc at_ (ca_slots c) = l → accepts p end_ pc at_ = false → ∀ now', l = match now' with Some x => [(x, ca_slots c)] | None => [] end →
    ∃ r V' c', run_loop p text fuel whole stride now' (mkCache visited (ca_jobs c) (ca_slots c)) = Some (bool_decide (is_Some r), c')
      ∧ explore ((pc, at_, ca_slots c) :: unwind (ca_jobs c) (ca_slots c)) V r V' ∧ remembers (ca_visited c') V' ∧ (∀ slots, r = Some slots → ca_slots c' = slots)) as Hon.
  { intros l El Ha now' El'. apply Hgo; [unfold stack_of; cbn [ca_jobs ca_slots]; by rewrite El, El'|done|done|lia|].
    intros x ->. pose proof (next_ok pc at_ (ca_slots c) Hb) as Hok. rewrite El, El' in Hok. by apply Forall_cons in Hok as [? _]. }
  unfold RegexDfs.next, accepts in Hgo, Hon. rewrite Ei in Hgo, Hon. rewrite (chr_here at_ Hb) in Hgo, Hon.
  assert (∀ ch, char_at text at_ = Some ch → is_reader inst = true → (∃ b, reads p inst (Some ch) = Some (Some b)) →
    ∃ r V' c', (took ← reads p inst (Some ch);
        run_loop p text fuel whole stride (if bool_decide (took = Some true) then Some (S pc, at_ + len_utf8 ch) else None) (mkCache visited (ca_jobs c) (ca_slots c)))
      = Some (bool_decide (is_Some r), c')
      ∧ explore ((pc, at_, ca_slots c) :: unwind (ca_jobs c) (ca_slots c)) V r V' ∧ remembers (ca_visited c') V' ∧ (∀ slots, r = Some slots → ca_slots c' = slots)) as Hread.
  { intros ch Ech Hrd (b&Er). rewrite Er, some_bind. unfold takes in Hon. rewrite Ech in Hon. clear Hgo.
    destruct inst; try done; rewrite Er in Hon; (destruct b; [rewrite bool_decide_eq_true_2 by done|rewrite bool_decide_eq_false_2 by done]; by apply (Hon _ eq_refl eq_refl)). }
  destruct inst as [want|id|newline|assertion|id|slot|first second|to|]; cbn in Hlead.
  1-3: rewrite read_char_at by done.
  1-3: destruct (char_at text at_) as [ch|] eqn:Ech; cbn [fmap option_fmap option_map]; rewrite some_bind; [apply Hread; [done..|]; clear Hon Hgo Hread|by apply (Hon _ eq_refl eq_refl None)].
  - cbn [reads]. eauto.
  - cbn [reads]. destruct Hlead as [_ [s Es]%lookup_lt_is_Some_2]. rewrite Es, some_bind. eauto.
  - cbn [reads]. eauto.
  - destruct (holds_total (p_word p) assertion text at_ Hb) as [b Eh]. rewrite Eh, some_bind in *. cbn [default from_option id] in Hon.
    destruct b; by apply (Hon _ eq_refl eq_refl).
  - destruct Hlead as [_ Hlook]. destruct (Hlook at_ Hb) as [b Eh]. rewrite Eh, some_bind in *. cbn [default from_option] in Hon.
    destruct b; by apply (Hon _ eq_refl eq_refl).
  - cbn [ca_slots ca_jobs ca_visited]. destruct (ca_slots c !! slot) as [value|] eqn:Es.
    + apply Hgo; [|done|by constructor|cbn; lia|intros x [= <-]; by split].
      unfold stack_of. cbn [ca_slots ca_jobs app]. by rewrite unwind_restore.
    + apply Hgo; [|done|done|lia|intros x [= <-]; by split].
      unfold stack_of, put_slot. cbn [ca_slots ca_jobs app]. by rewrite list_insert_ge by by apply lookup_ge_None_1.
  - cbn [ca_slots ca_jobs ca_visited]. destruct Hlead. apply Hgo; [done|done|by constructor|cbn; lia|intros x [= <-]; by split].
  - cbn [ca_slots ca_jobs ca_visited]. by apply (Hon _ eq_refl eq_refl (Some (to, at_))).
  - clear Hread. assert ((whole && negb (at_ =? text_len text)) = negb (ends end_ at_)) as -> by (unfold ends; destruct whole; [by rewrite Nat.eqb_sym|done]).
    destruct (ends end_ at_) eqn:Ee; cbn [negb]; [|by apply (Hon _ eq_refl eq_refl None)].
    exists (Some (put_slot 1 at_ (ca_slots c))), ({[(pc, at_)]} ∪ V), (mkCache visited (ca_jobs c) (put_slot 1 at_ (ca_slots c))). split_and!; [by rewrite bool_decide_eq_true_2| |done|by intros ? [= <-]].
    apply explore_hit; [done|]. unfold accepts. by rewrite Ei.
Qed.

(** * A memo that is kept *)

(** Where an instruction leads does not depend on the slots. *)
Lemma next_nodes pc at_ slots slots' : (λ x : Item, x.1) <$> next pc at_ slots = (λ x : Item, x.1) <$> next pc at_ slots'.
Proof. unfold RegexDfs.next. destruct (p_insts p !! pc) as [inst|]; [|done]. destruct inst; repeat case_match; done. Qed.

Definition shut (x : Node) (V : gset Node) : Prop :=
  accepts p end_ x.1 x.2 = false ∧ ∀ slots y, y ∈ next x.1 x.2 slots → y.1 ∈ V.

Lemma shut_mono x V W : shut x V → V ⊆ W → shut x W.
Proof. intros [Ha Hn] Hs. split; [done|]. intros slots y Hy. apply Hs. by eapply Hn. Qed.

(** A search that found nothing went everywhere it could. *)
Lemma explore_shut s V r V' : explore s V r V' → V ⊆ V' ∧ (r = None → (∀ x, x ∈ s → x.1 ∈ V') ∧ ∀ x, x ∈ V' → x ∈ V ∨ shut x V').
Proof.
  induction 1 as [V|pc at_ slots rest V r V' Hin H [IH1 IH2]|pc at_ slots rest V Hin Ha|pc at_ slots rest V r V' Hin Ha H [IH1 IH2]].
  - split; [done|]. intros _. split; [set_solver|by left].
  - split; [done|]. intros ->. destruct (IH2 eq_refl) as [A B]. split; [|done]. intros x [->|Hx]%elem_of_cons; [cbn; set_solver|by apply A].
  - split; [set_solver|done].
  - split; [set_solver|]. intros ->. destruct (IH2 eq_refl) as [A B]. split.
    + intros x [->|Hx]%elem_of_cons; [cbn; set_solver|]. apply A. set_solver.
    + intros x Hx. destruct (B x Hx) as [[->%elem_of_singleton|HV]%elem_of_union|Hs]; [|by left|by right].
      right. split; [done|]. intros slots' y Hy. cbn [fst snd] in Hy.
      assert (y.1 ∈ (λ x : Item, x.1) <$> next pc at_ slots) as (z&E&Hz)%list_elem_of_fmap by (rewrite (next_nodes _ _ slots slots'); by apply list_elem_of_fmap_2).
      rewrite E. apply A. set_solver.
Qed.

(** Items of pairs tried already put into a stack. *)
Inductive padded (V : gset Node) : list Item → list Item → Prop :=
| padded_nil : padded V [] []
| padded_same x s1 s2 : padded V s1 s2 → padded V (x :: s1) (x :: s2)
| padded_extra x s1 s2 : x.1 ∈ V → padded V s1 s2 → padded V s1 (x :: s2).

Lemma padded_refl V s : padded V s s.
Proof. induction s; eauto using padded. Qed.

Lemma padded_app V l s1 s2 : padded V s1 s2 → padded V (l ++ s1) (l ++ s2).
Proof. intros H. induction l; [done|]. cbn. by apply padded_same. Qed.

Lemma padded_more V l s1 s2 : (∀ x, x ∈ l → x.1 ∈ V) → padded V s1 s2 → padded V s1 (l ++ s2).
Proof. intros Hl H. induction l as [|x l IH]; [done|]. cbn. apply padded_extra; [apply Hl; by left|]. apply IH. intros y Hy. apply Hl. by right. Qed.

Lemma padded_mono V W s1 s2 : padded V s1 s2 → V ⊆ W → padded W s1 s2.
Proof. intros H Hs. induction H; [constructor|by apply padded_same|apply padded_extra; [set_solver|done]]. Qed.

(** Pairs that were tried and found to lead nowhere may be remembered or forgotten. *)
Definition remembers_more (W V : gset Node) : Prop := V ⊆ W ∧ ∀ x, x ∈ W → x ∈ V ∨ shut x W.

Lemma remembers_more_add x W V : remembers_more W V → remembers_more ({[x]} ∪ W) ({[x]} ∪ V).
Proof.
  intros [H1 H2]. split; [set_solver|]. intros y [->%elem_of_singleton|Hy]%elem_of_union; [left; set_solver|].
  destruct (H2 y Hy) as [?|?]; [left; set_solver|right]. eapply shut_mono; [done|set_solver].
Qed.

Lemma explore_remembering s2 V r V' : explore s2 V r V' → ∀ s1 W, padded W s1 s2 → remembers_more W V →
  ∃ W', explore s1 W r W' ∧ remembers_more W' V'.
Proof.
  induction 1 as [V|pc at_ slots rest V r V' Hin H IH|pc at_ slots rest V Hin Ha|pc at_ slots rest V r V' Hin Ha H IH]; intros s1 W Hpad HW.
  - inversion Hpad; subst. exists W. split; [constructor|done].
  - inversion Hpad as [|? s1' ? Hpad'|? ? ? Hx Hpad']; subst.
    + destruct (IH s1' W Hpad' HW) as (W'&H1&H2). exists W'. split; [|done]. apply explore_seen; [|done]. by apply HW.
    + by apply IH.
  - destruct HW as [HW1 HW2].
    assert ((pc, at_) ∉ W) as HnW by (intros [?|[Ha' _]]%HW2; [done|cbn in Ha'; congruence]).
    inversion Hpad as [|? s1' ? Hpad'|? ? ? Hx Hpad']; subst; [|by cbn in Hx].
    exists ({[(pc, at_)]} ∪ W). split; [by apply explore_hit|by apply remembers_more_add].
  - destruct HW as [HW1 HW2]. inversion Hpad as [|? s1' ? Hpad'|? ? ? Hx Hpad']; subst.
    + destruct (decide ((pc, at_) ∈ W)) as [HinW|HnW].
      * destruct (HW2 _ HinW) as [?|[_ Hsh]]; [done|]. destruct (IH s1' W) as (W'&H1&H2).
        -- apply padded_more; [|done]. intros y. apply Hsh.
        -- split; [set_solver|]. intros y Hy. destruct (HW2 y Hy); [left; set_solver|by right].
        -- exists W'. split; [|done]. by apply explore_seen.
      * destruct (IH (next pc at_ slots ++ s1') ({[(pc, at_)]} ∪ W)) as (W'&H1&H2).
        -- apply padded_app. eapply padded_mono; [done|set_solver].
        -- by apply remembers_more_add.
        -- exists W'. split; [|done]. by apply explore_step.
    + cbn in Hx. destruct (HW2 _ Hx) as [?|[_ Hsh]]; [done|]. apply IH.
      * apply padded_more; [|done]. intros y. apply Hsh.
      * split; [set_solver|]. intros y Hy. destruct (HW2 y Hy); [left; set_solver|by right].
Qed.

(** The search ends. *)
Lemma explore_total m : ∀ s V, length s + 2 * (n * stride - size V) < m → Forall item_ok s → (∀ x, x ∈ V → in_range x) →
  ∃ r V', explore s V r V' ∧ ∀ x, x ∈ V' → in_range x.
Proof.
  induction m as [|m IH]; intros s V Hm Hs HV; [lia|]. destruct s as [|[[pc at_] slots] s]; [exists None, V; split; [constructor|done]|].
  apply Forall_cons in Hs as [Hx Hs]. destruct (decide ((pc, at_) ∈ V)) as [Hin|Hin].
  { destruct (IH s V) as (r&V'&H&HV'); [cbn in Hm; lia|done..|]. exists r, V'. split; [by apply explore_seen|done]. }
  pose proof (item_in_range _ Hx) as Hr. destruct (size_marked V (pc, at_) HV Hr Hin) as [Esz Hsz].
  assert (∀ x, x ∈ {[(pc, at_)]} ∪ V → in_range x) as HV2 by (intros x [->%elem_of_singleton|?]%elem_of_union; [done|by apply HV]).
  destruct (accepts p end_ pc at_) eqn:Ea; [exists (Some (put_slot 1 at_ slots)), ({[(pc, at_)]} ∪ V); split; [by apply explore_hit|done]|].
  assert (length (next pc at_ slots) ≤ 2) as Hl by (unfold RegexDfs.next; repeat case_match; cbn; lia).
  destruct (IH (next pc at_ slots ++ s) ({[(pc, at_)]} ∪ V)) as (r&V'&H&HV').
  - rewrite length_app, Esz. cbn [length] in Hm. lia.
  - apply Forall_app. split; [|done]. apply next_ok. apply Hx.
  - done.
  - exists r, V'. split; [by apply explore_step|done].
Qed.

(** A set of pairs that leads nowhere else and matches nowhere. *)
Lemma explore_dead (F : Node → Prop) s V r V' :
  (∀ pc at_ slots x, F (pc, at_) → x ∈ next pc at_ slots → F x.1) → (∀ pc at_, F (pc, at_) → accepts p end_ pc at_ = false) →
  explore s V r V' → Forall (λ x : Item, F x.1) s → r = None.
Proof.
  intros Hc Ha. induction 1 as [V|pc at_ slots rest V r V' Hin H IH|pc at_ slots rest V Hin Hacc|pc at_ slots rest V r V' Hin Hacc H IH]; intros Hs; try apply Forall_cons in Hs as [Hx Hs].
  - done.
  - by apply IH.
  - cbn in Hx. apply Ha in Hx. congruence.
  - apply IH, Forall_app. split; [|done]. apply Forall_forall. intros y. by apply Hc.
Qed.
End back.
