(* ===== verification/RegexFirst.v ===== *)
(** The prefilter: the bytes a match may begin with, worked out by a walk of the program, and why a
    position it skips is one no match begins at. *)

From S2P Require Import Prelude Regex RegexRun RegexDfs RegexPike RegexBack.
Local Open Scope Z_scope.

(** * Bytes in four words *)

Definition has (bytes : list Z) (byte : Z) : bool :=
  match bytes !! Z.to_nat (byte / 64) with Some word => Z.testbit word (byte `mod` 64) | None => false end.

Record words_ok (bytes : list Z) : Prop := {
  wo_length : length bytes = 4%nat;
  wo_fits : Forall (fits 64) bytes }.

Lemma has_put bytes byte x : words_ok bytes → 0 ≤ byte < 256 → 0 ≤ x < 256 → has (put_byte bytes byte) x = (x =? byte) || has bytes x.
Proof.
  intros [Hl _] Hb Hx. unfold has, put_byte. assert (Z.to_nat (byte / 64) < length bytes)%nat as [w Ew]%lookup_lt_is_Some_2.
  { rewrite Hl. assert (byte / 64 < 4) by (apply Z.div_lt_upper_bound; lia). lia. }
  pose proof (Z.div_mod byte 64 ltac:(lia)). pose proof (Z.div_mod x 64 ltac:(lia)). pose proof (Z.mod_pos_bound byte 64). pose proof (Z.mod_pos_bound x 64 ltac:(lia)).
  destruct (decide (x / 64 = byte / 64)) as [E|E].
  - rewrite E, list_lookup_alter_eq, Ew. cbn [fmap option_fmap option_map]. rewrite Z.lor_spec, Z.shiftl_1_l.
    destruct (Z.eqb_spec x byte) as [->|Hne]; [by rewrite Z.pow2_bits_true, orb_true_r by lia|]. rewrite Z.pow2_bits_false by lia. by rewrite orb_false_r.
  - rewrite list_lookup_alter_ne by (intros E2; apply E; apply Z2Nat.inj in E2; [done|apply Z.div_pos; lia..]).
    destruct (Z.eqb_spec x byte) as [->|]; [done|]. done.
Qed.

Lemma put_byte_ok bytes byte : words_ok bytes → 0 ≤ byte → words_ok (put_byte bytes byte).
Proof.
  intros [Hl Hf] Hb. split; unfold put_byte; [by rewrite length_alter|]. apply Forall_alter; [done|]. intros w _ Hw.
  apply fits_lor; [lia|done|]. rewrite Z.shiftl_1_l. pose proof (Z.mod_pos_bound byte 64). split; [lia|]. apply Z.pow_lt_mono_r; lia.
Qed.

Lemma zeros_ok : words_ok (replicate 4 0).
Proof. split; [done|]. by repeat constructor. Qed.

Lemma has_zeros x : 0 ≤ x < 256 → has (replicate 4 0) x = false.
Proof. intros. unfold has. case_match eqn:E; [|done]. apply lookup_replicate in E as [-> _]. apply Z.bits_0. Qed.

(** Only bytes a character begins with. *)
Definition leads_only (bytes : list Z) : Prop := ∀ x, 0 ≤ x < 256 → has bytes x = true → x < 128 ∨ 194 ≤ x ≤ 244.

Definition more (bytes bytes' : list Z) : Prop := ∀ x, 0 ≤ x < 256 → has bytes x = true → has bytes' x = true.

Definition grows (bytes bytes' : list Z) : Prop := words_ok bytes' ∧ leads_only bytes' ∧ more bytes bytes'.

Lemma more_trans a b c : more a b → more b c → more a c.
Proof. intros H1 H2 x Hx H. by apply H2, H1. Qed.

Lemma put_grows bytes byte : words_ok bytes → leads_only bytes → (0 ≤ byte < 128 ∨ 194 ≤ byte ≤ 244) →
  grows bytes (put_byte bytes byte) ∧ has (put_byte bytes byte) byte = true.
Proof.
  intros Hw Hl Hb. split_and!; [split_and!| ].
  - apply put_byte_ok; [done|lia].
  - intros x Hx. rewrite has_put by (done || lia). intros [E%Z.eqb_eq|E]%orb_true_iff; [lia|by apply Hl].
  - intros x Hx H. rewrite has_put by (done || lia). by rewrite H, orb_true_r.
  - rewrite has_put by (done || lia). by rewrite Z.eqb_refl.
Qed.

Lemma fold_grows {A} (f : list Z → A → list Z) l bytes :
  (∀ bytes a, a ∈ l → words_ok bytes → leads_only bytes → grows bytes (f bytes a)) →
  words_ok bytes → leads_only bytes → grows bytes (foldl f bytes l).
Proof.
  revert bytes. induction l as [|a l IH]; intros bytes Hf Hw Hl; [by split_and!; [..|intros ? ? ?]|]. cbn [foldl].
  destruct (Hf bytes a) as (W&L&M); [by left|done..|]. destruct (IH (f bytes a)) as (W'&L'&M'); [intros; apply Hf; [by right|done..]|done..|].
  split_and!; [done..|]. by eapply more_trans.
Qed.

Lemma fold_has {A} (f : list Z → A → list Z) l bytes a x :
  (∀ bytes a, a ∈ l → words_ok bytes → leads_only bytes → grows bytes (f bytes a)) →
  words_ok bytes → leads_only bytes → a ∈ l → 0 ≤ x < 256 → (∀ bytes, words_ok bytes → leads_only bytes → has (f bytes a) x = true) →
  has (foldl f bytes l) x = true.
Proof.
  intros Hf Hw Hl Ha Hx Hput. revert bytes Hw Hl. induction l as [|b l IH]; intros bytes Hw Hl; [by apply elem_of_nil in Ha|]. cbn [foldl].
  destruct (Hf bytes b) as (W&L&M); [by left|done..|]. apply elem_of_cons in Ha as [->|Ha].
  - destruct (fold_grows f l (f bytes b)) as (_&_&M'); [intros; apply Hf; [by right|done..]|done..|]. apply M'; [done|]. by apply Hput.
  - apply IH; [intros; apply Hf; [by right|done..]|done..].
Qed.

Lemma lead_byte_range ch : is_char ch = true → (0 ≤ lead_byte ch < 128 ∨ 194 ≤ lead_byte ch ≤ 244).
Proof.
  intros Hc. unfold lead_byte. destruct (decide (ch < 128)) as [Hl|Hl].
  - rewrite lead_ascii by done. left. cbn. unfold is_char in Hc. apply orb_true_iff in Hc as [[? ?]%andb_true_iff|[? ?]%andb_true_iff]; lia.
  - destruct (encode_high ch) as (lead&rest&->&?&_); [done|lia|]. by right.
Qed.

Lemma binary_found ch ranges : binary_search (range_cmp ch) ranges = true → ∃ r, r ∈ ranges ∧ r.1 ≤ ch ∧ ch ≤ r.2.
Proof.
  unfold binary_search. destruct (ranges !! binary_loop _ _ _ _ _) as [r|] eqn:E; [|done]. cbn. unfold range_cmp. intros H. exists r. split; [by eapply list_elem_of_lookup_2|].
  destruct (Z.ltb_spec r.2 ch); [done|]. destruct (Z.ltb_spec ch r.1); [done|]. lia.
Qed.

Lemma lead_bytes_grows s bytes : words_ok bytes → leads_only bytes →
  grows bytes (lead_bytes s bytes) ∧ ∀ ch, is_char ch = true → Set_contains s ch = true → has (lead_bytes s bytes) (lead_byte ch) = true.
Proof.
  intros Hw Hl. set (f := λ into code, if Z.testbit (cs_ascii s) code then put_byte into code else into).
  assert (∀ bytes a, a ∈ seqZ 0 128 → words_ok bytes → leads_only bytes → grows bytes (f bytes a)) as Hf.
  { intros b a Ha%elem_of_seqZ W L. unfold f. case_match; [apply put_grows; [done..|lia]|]. by split_and!; [..|intros ? ? ?]. }
  assert (∀ bytes a, a ∈ seqZ 194 51 → words_ok bytes → leads_only bytes → grows bytes (put_byte bytes a)) as Hp.
  { intros b a Ha%elem_of_seqZ W L. apply put_grows; [done..|lia]. }
  destruct (fold_grows f (seqZ 0 128) bytes Hf Hw Hl) as (W1&L1&M1).
  destruct (fold_grows put_byte (seqZ 194 51) (foldl f bytes (seqZ 0 128)) Hp W1 L1) as (W2&L2&M2).
  unfold lead_bytes. fold f. split.
  - case_match; split_and!; try done. by eapply more_trans.
  - intros ch Hc Hin. pose proof (lead_byte_range ch Hc) as Hr. unfold Set_contains in Hin. destruct (Z.ltb_spec ch 128) as [Hlt|Hge].
    + assert (lead_byte ch = ch) as E by (unfold lead_byte; by rewrite lead_ascii). rewrite E in *.
      assert (has (foldl f bytes (seqZ 0 128)) ch = true) as H1.
      { apply (fold_has f (seqZ 0 128) bytes ch ch Hf); try done; [apply elem_of_seqZ; lia|lia|]. intros b W L. unfold f. rewrite Hin. apply put_grows; [done..|lia]. }
      case_match; [apply M2; [lia|done]|done].
    + assert (cs_negated s || existsb (λ r, 128 <=? r.2) (cs_ranges s) = true) as ->.
      { destruct (cs_negated s); [done|]. cbn [orb]. destruct (binary_search (range_cmp ch) (cs_ranges s)) eqn:Ee; [|done].
        apply binary_found in Ee as (r&Hr'&_&Hle). apply existsb_exists. exists r. split; [by apply list_elem_of_In|]. lia. }
      assert (128 ≤ lead_byte ch) by (pose proof (lead_byte_ascii ch Hc) as E; destruct (Z.ltb_spec (lead_byte ch) 128), (Z.ltb_spec ch 128); lia || done).
      apply (fold_has put_byte (seqZ 194 51) _ (lead_byte ch) (lead_byte ch) Hp); try done; [apply elem_of_seqZ; lia|lia|].
      intros b W L. apply put_grows; [done..|lia].
Qed.

(** * The walk *)

Section walk.
Context (insts : list Inst) (sets : list CharSet).

(** Where the walk goes on: it follows assertions whether they hold or not. *)
Definition follows (pc : nat) (inst : Inst) : list nat :=
  match inst with
  | IAssert _ | ILook _ | ISave _ => [S pc]
  | ISplit one other => [other; one]
  | IJump to => [to]
  | _ => []
  end.

Definition walk_ok (pc : nat) (inst : Inst) : Prop :=
  Forall (λ to, (to < length insts)%nat) (follows pc inst)
  ∧ match inst with IChar ch => is_char ch = true | ISet id => (id < length sets)%nat | _ => True end.

Context (Hok : ∀ pc inst, insts !! pc = Some inst → walk_ok pc inst).

(** What is known of an instruction the walk met. *)
Definition met (bytes : list Z) (seen : list bool) (pc : nat) : Prop :=
  ∃ inst, insts !! pc = Some inst ∧ (∀ to, to ∈ follows pc inst → seen !! to = Some true)
  ∧ match inst with
    | IChar ch => has bytes (lead_byte ch) = true
    | ISet id => ∃ s, sets !! id = Some s ∧ ∀ ch, is_char ch = true → Set_contains s ch = true → has bytes (lead_byte ch) = true
    | IAny _ | IMatch => False
    | _ => True
    end.

Lemma lead_small ch : is_char ch = true → 0 ≤ lead_byte ch < 256.
Proof. intros Hc. pose proof (lead_byte_range ch Hc). lia. Qed.

Definition unseen (seen : list bool) : nat := length (filter (λ b, b = false) seen).

Lemma unseen_mark seen pc : seen !! pc = Some false → S (unseen (<[pc := true]> seen)) = unseen seen.
Proof.
  unfold unseen. revert pc. induction seen as [|b seen IH]; intros [|pc] E; simplify_eq/=; [done|].
  destruct b; rewrite ?filter_cons_True, ?filter_cons_False by done; cbn [length]; [by apply IH|]. f_equal. by apply IH.
Qed.

Lemma first_loop_walks fuel : ∀ stack seen bytes,
  length seen = length insts → Forall (λ pc, (pc < length insts)%nat) stack → words_ok bytes → leads_only bytes →
  (length stack + 2 * unseen seen < fuel)%nat →
  ∃ r, first_loop fuel insts sets stack seen bytes = Some r ∧ ∀ bytes', r = Some bytes' →
    grows bytes bytes' ∧ ∃ seen', (∀ pc, seen !! pc = Some true → seen' !! pc = Some true) ∧ (∀ pc, pc ∈ stack → seen' !! pc = Some true)
      ∧ ∀ pc, seen' !! pc = Some true → seen !! pc = Some true ∨ met bytes' seen' pc.
Proof.
  induction fuel as [|fuel IH]; intros stack seen bytes Hlen Hst Hw Hl Hf; [lia|]. destruct stack as [|pc stack].
  { exists (Some bytes). split; [done|]. intros ? [= <-]. split; [by split_and!; [..|intros ? ? ?]|]. exists seen. split_and!; [done|set_solver|by left]. }
  apply Forall_cons in Hst as [Hpc Hst]. cbn [first_loop]. destruct (lookup_lt_is_Some_2 seen pc) as [was Ew]; [lia|]. rewrite Ew, some_bind.
  destruct was.
  { destruct (IH stack seen bytes) as (r&Er&Hr); [done..|cbn in Hf; lia|]. exists r. split; [done|]. intros bytes' E. destruct (Hr bytes' E) as (G&seen'&A&B&C).
    split; [done|]. exists seen'. split_and!; [done| |done]. intros x [->|Hx]%elem_of_cons; [by apply A|by apply B]. }
  destruct (lookup_lt_is_Some_2 insts pc Hpc) as [inst Ei]. rewrite Ei, some_bind. destruct (Hok pc inst Ei) as [Hfw Hin].
  pose proof (unseen_mark seen pc Ew) as Hun. cbn [length] in Hf.
  assert (∀ bytes1, grows bytes bytes1 → match inst with
      | IChar ch => has bytes1 (lead_byte ch) = true
      | ISet id => ∃ s, sets !! id = Some s ∧ ∀ ch, is_char ch = true → Set_contains s ch = true → has bytes1 (lead_byte ch) = true
      | IAny _ | IMatch => False
      | _ => True end →
    ∃ r, first_loop fuel insts sets (follows pc inst ++ stack) (<[pc := true]> seen) bytes1 = Some r ∧ ∀ bytes', r = Some bytes' →
    grows bytes bytes' ∧ ∃ seen', (∀ pc, seen !! pc = Some true → seen' !! pc = Some true) ∧ (∀ x, x ∈ pc :: stack → seen' !! x = Some true)
      ∧ ∀ pc, seen' !! pc = Some true → seen !! pc = Some true ∨ met bytes' seen' pc) as Hgo.
  { intros bytes1 (G1&G2&G3) Hmet. destruct (IH (follows pc inst ++ stack) (<[pc := true]> seen) bytes1) as (r&Er&Hr).
    - by rewrite length_insert.
    - by apply Forall_app.
    - done.
    - done.
    - rewrite length_app. assert (length (follows pc inst) ≤ 2)%nat by (destruct inst; cbn; lia). lia.
    - exists r. split; [done|]. intros bytes' E. destruct (Hr bytes' E) as ((B1&B2&B3)&seen'&A&B&C).
      assert (seen' !! pc = Some true) as Hpc' by (apply A; apply list_lookup_insert_eq; lia).
      split; [split_and!; [done..|by eapply more_trans]|]. exists seen'. split_and!.
      + intros x Hx. apply A. destruct (decide (x = pc)) as [->|]; [congruence|]. by rewrite list_lookup_insert_ne.
      + intros x [->|Hx]%elem_of_cons; [done|]. apply B. set_solver.
      + intros x Hx. destruct (C x Hx) as [Hs|Hm]; [|by right]. destruct (decide (x = pc)) as [->|]; [|left; by rewrite list_lookup_insert_ne in Hs].
        right. exists inst. split_and!; [done|intros to Hto; apply B; set_solver|].
        destruct inst; try done; [apply B3; [by apply lead_small|done]|]. destruct Hmet as (s&Es&Hs'). exists s. split; [done|]. intros ch Hc Hct. apply B3; [by apply lead_small|by apply Hs']. }
  assert (grows bytes bytes) as Hrefl by by split_and!; [..|intros ? ? ?].
  destruct inst as [ch|id| | | | | | |]; try (by apply (Hgo bytes Hrefl)); try (by exists None).
  - destruct (put_grows bytes (lead_byte ch) Hw Hl (lead_byte_range ch Hin)). by apply Hgo.
  - destruct (lookup_lt_is_Some_2 sets id Hin) as [s Es]. rewrite Es, some_bind. destruct (lead_bytes_grows s bytes Hw Hl). apply Hgo; [done|eauto].
Qed.
End walk.

(** * The one byte *)

Lemma count_bits_nonneg n w : 0 ≤ count_bits n w.
Proof. induction n; cbn [count_bits]; [lia|]. case_match; lia. Qed.

Lemma count_bits_one n w k : (k < n)%nat → Z.testbit w (Z.of_nat k) = true → 1 ≤ count_bits n w.
Proof.
  induction n as [|n IH]; intros Hk Ht; [lia|]. cbn [count_bits]. pose proof (count_bits_nonneg n w).
  destruct (decide (k = n)) as [->|]; [rewrite Ht; lia|]. assert (1 ≤ count_bits n w) by (apply IH; [lia|done]). case_match; lia.
Qed.

Lemma count_bits_two n w k j : (k < j < n)%nat → Z.testbit w (Z.of_nat k) = true → Z.testbit w (Z.of_nat j) = true → 2 ≤ count_bits n w.
Proof.
  induction n as [|n IH]; intros Hk H1 H2; [lia|]. cbn [count_bits]. destruct (decide (j = n)) as [->|].
  - rewrite H2. assert (1 ≤ count_bits n w) by (apply (count_bits_one n w k); [lia|done]). lia.
  - assert (2 ≤ count_bits n w) by (apply IH; [lia|done..]). case_match; lia.
Qed.

Lemma count_bits_some n w : 0 < count_bits n w → ∃ k, (k < n)%nat ∧ Z.testbit w (Z.of_nat k) = true.
Proof.
  induction n as [|n IH]; cbn [count_bits]; intros H; [lia|]. destruct (Z.testbit w (Z.of_nat n)) eqn:E; [exists n; split; [lia|done]|].
  destruct IH as (k&?&?); [lia|]. exists k. split; [lia|done].
Qed.

(** The bits of all the words, as one count. *)
Definition total (bytes : list Z) : Z := foldr Z.add 0 (count_bits 64 <$> bytes).

Lemma total_cons w bytes : total (w :: bytes) = count_bits 64 w + total bytes.
Proof. done. Qed.

Lemma total_nonneg bytes : 0 ≤ total bytes.
Proof. induction bytes as [|w l IH]; [done|]. rewrite total_cons. pose proof (count_bits_nonneg 64 w). lia. Qed.

Lemma total_lookup bytes i w : bytes !! i = Some w → count_bits 64 w ≤ total bytes.
Proof.
  revert i. induction bytes as [|x l IH]; intros [|i] E; [done..| |]; rewrite total_cons.
  - injection E as ->. pose proof (total_nonneg l). lia.
  - specialize (IH i E). pose proof (count_bits_nonneg 64 x). lia.
Qed.

Lemma total_two bytes i j v w : (i < j)%nat → bytes !! i = Some v → bytes !! j = Some w → count_bits 64 v + count_bits 64 w ≤ total bytes.
Proof.
  revert i j. induction bytes as [|x l IH]; intros i [|j] Hij Ei Ej; [done..|lia|]. rewrite total_cons. destruct i as [|i].
  - injection Ei as ->. pose proof (total_lookup l j w Ej). lia.
  - specialize (IH i j ltac:(lia) Ei Ej). pose proof (count_bits_nonneg 64 x). lia.
Qed.

(** One bit set in all: the byte it is of is the only one. *)
Lemma only_byte bytes x y : words_ok bytes → total bytes = 1 → 0 ≤ x < 256 → 0 ≤ y < 256 → has bytes x = true → has bytes y = true → x = y.
Proof.
  intros [Hl _] Ht Hx Hy. unfold has. destruct (bytes !! Z.to_nat (x / 64)) as [v|] eqn:Ev; [|done]. destruct (bytes !! Z.to_nat (y / 64)) as [w|] eqn:Ew; [|done].
  intros Bx By. pose proof (Z.div_mod x 64 ltac:(lia)). pose proof (Z.div_mod y 64 ltac:(lia)). pose proof (Z.mod_pos_bound x 64 ltac:(lia)). pose proof (Z.mod_pos_bound y 64 ltac:(lia)).
  assert (0 ≤ x / 64 ∧ 0 ≤ y / 64) as [? ?] by (split; apply Z.div_pos; lia).
  rewrite <-(Z2Nat.id (x `mod` 64)) in Bx by lia. rewrite <-(Z2Nat.id (y `mod` 64)) in By by lia.
  assert (1 ≤ count_bits 64 v) by (eapply count_bits_one; [|done]; lia). assert (1 ≤ count_bits 64 w) by (eapply count_bits_one; [|done]; lia).
  destruct (lt_eq_lt_dec (Z.to_nat (x / 64)) (Z.to_nat (y / 64))) as [[Hlt|E]|Hlt].
  - pose proof (total_two _ _ _ _ _ Hlt Ev Ew). lia.
  - rewrite E in Ev. assert (v = w) as -> by congruence. pose proof (total_lookup _ _ _ Ew).
    destruct (lt_eq_lt_dec (Z.to_nat (x `mod` 64)) (Z.to_nat (y `mod` 64))) as [[Hlt|E2]|Hlt]; [|lia|].
    + pose proof (count_bits_two 64 w (Z.to_nat (x `mod` 64)) (Z.to_nat (y `mod` 64)) ltac:(lia) Bx By). lia.
    + pose proof (count_bits_two 64 w (Z.to_nat (y `mod` 64)) (Z.to_nat (x `mod` 64)) ltac:(lia) By Bx). lia.
  - pose proof (total_two _ _ _ _ _ Hlt Ew Ev). lia.
Qed.

(** * The walk's answer *)

(** What the prefilter knows, of the instructions a match may begin with. *)
Record filters (insts : list Inst) (sets : list CharSet) (f : First) (seen : list bool) : Prop := {
  fl_words : words_ok (fi_bytes f);
  fl_leads : leads_only (fi_bytes f);
  fl_entry : seen !! 0%nat = Some true;
  fl_met : ∀ pc, seen !! pc = Some true → met insts sets (fi_bytes f) seen pc;
  fl_only : ∀ only x, fi_only f = Some only → 0 ≤ x < 256 → has (fi_bytes f) x = (only =? x) }.

Lemma first_of_ok insts sets :
  (0 < length insts)%nat → (∀ pc inst, insts !! pc = Some inst → walk_ok insts sets pc inst) →
  ∃ f, first_of insts sets = Some f ∧ (fi_any f = true ∨ fi_any f = false ∧ ∃ seen, filters insts sets f seen).
Proof.
  intros Hn Hok. assert (length (replicate (length insts) false) = length insts) as Hlen by apply length_replicate.
  destruct (first_loop_walks insts sets Hok (2 * length insts + 2) [0%nat] (replicate (length insts) false) (replicate 4 0)) as (r&Er&Hr);
    [done|by constructor|apply zeros_ok| | |].
  { intros x Hx. by rewrite has_zeros. }
  { unfold unseen. pose proof (length_filter (λ b, b = false) (replicate (length insts) false)). cbn [length]. lia. }
  unfold first_of. rewrite Er, some_bind. destruct r as [bytes|]; [|exists First_anything; split; [done|by left]].
  destruct (Hr bytes eq_refl) as ((W&L&_)&seen&_&Hst&Hm). eexists. split; [reflexivity|]. right. split; [done|]. exists seen. split; cbn [fi_bytes fi_only].
  - done.
  - done.
  - apply Hst. by left.
  - intros pc Hpc. destruct (Hm pc Hpc) as [Hs|?]; [|done]. by apply lookup_replicate in Hs as [? _].
  - intros only x. fold (total bytes). destruct (Z.eqb_spec (total bytes) 1) as [Et|]; [|done]. intros [= <-] Hx.
    assert (∃ w k, (w < 4)%nat ∧ (k < 64)%nat ∧ position (λ w, negb (w =? 0)) bytes = Some w
      ∧ trailing_zeros (default 0 (bytes !! w)) = Z.of_nat k ∧ Z.testbit (default 0 (bytes !! w)) (Z.of_nat k) = true) as (w&k&Hw&Hk&Ew&Ek&Hbit).
    { destruct (position (λ w, negb (w =? 0)) bytes) as [w|] eqn:Ew.
      2:{ assert (total bytes = 0); [|lia]. pose proof (position_nowhere _ _ Ew) as Hz. clear -Hz. induction bytes as [|b bytes IH]; [done|]. rewrite total_cons.
        rewrite IH by (intros j y Hy; by apply (Hz (S j))). specialize (Hz 0%nat b eq_refl). apply negb_false_iff, Z.eqb_eq in Hz. by subst b. }
      destruct (position_there _ _ _ Ew) as (word&Elk&Hnz&_). apply negb_true_iff, Z.eqb_neq in Hnz.
      assert (fits 64 word) as Hfit by (eapply Forall_lookup_1; [apply W|done]).
      destruct (position (λ i, Z.testbit word (Z.of_nat i)) (seq 0 64)) as [k|] eqn:Ek.
      - destruct (position_there _ _ _ Ek) as (k'&[-> Hk]%lookup_seq&Hb&_). exists w, k. cbn in Hb. rewrite Elk. unfold trailing_zeros. cbn [default from_option id]. rewrite Ek. split_and!; try done.
        apply lookup_lt_Some in Elk. rewrite (wo_length _ W) in Elk. done.
      - exfalso. apply Hnz. apply Z.bits_inj'. intros i Hi. rewrite Z.bits_0. destruct (decide (i < 64)) as [Hlt|Hge]; [|apply (fits_testbit 64); [done|lia]].
        pose proof (position_nowhere _ _ Ek (Z.to_nat i) (Z.to_nat i)) as Hf. cbn beta in Hf. rewrite Z2Nat.id in Hf by lia. apply Hf. apply lookup_seq. lia. }
    rewrite Ew. cbn [default from_option id]. rewrite Ek. set (b := Z.of_nat w * 64 + Z.of_nat k).
    assert (has bytes b = true) as Hb.
    { unfold has, b. replace ((Z.of_nat w * 64 + Z.of_nat k) / 64) with (Z.of_nat w) by (apply (Z.div_unique _ _ _ (Z.of_nat k)); lia).
      replace ((Z.of_nat w * 64 + Z.of_nat k) `mod` 64) with (Z.of_nat k) by (apply (Z.mod_unique _ _ (Z.of_nat w)); lia). rewrite Nat2Z.id.
      by destruct (bytes !! w) as [v|]; [|cbn in Hbit; by rewrite Z.bits_0 in Hbit]. }
    destruct (Z.eqb_spec b x) as [->|Hne]; [done|]. destruct (has bytes x) eqn:Hhx; [|done]. exfalso. apply Hne. apply (only_byte bytes); try done. lia.
Qed.
