(* ===== verification/RegexAgree.v ===== *)
(** The two machines agree: the backtracker, its memo kept from one start to the next and its starts
    skipped by the prefilter, answers what Pike's machine answers, slot for slot. *)

From S2P Require Import Prelude Regex RegexRun RegexDfs RegexPike RegexBack RegexFirst.
Local Open Scope nat_scope.

Lemma search_in_with text p : search_in text p = search_with (look p text) p text.
Proof. by destruct p. Qed.

Section agree.
Context (p : Program) (text : Text) (whole : bool).

Abbreviation end_ := (if whole then Some (text_len text) else None).
Abbreviation n := (length (p_insts p)).
Abbreviation stride := (text_len text + 1).
Abbreviation next := (next (look p text) p text end_).
Abbreviation explore := (explore (look p text) p text end_).
Abbreviation attempts := (attempts (look p text) p text end_).
Abbreviation nones := (replicate (2 * (p_groups p + 1)) None).
Abbreviation fresh at_ := (put_slot 0 at_ nones).
Abbreviation remembers_more := (remembers_more p text whole).
Abbreviation in_range := (in_range p text).

Context (Hready : ready (look p text) p text) (Htext : text_ok text) (Hentry : p_insts p !! 0 = Some (ISave 0)).

(** The first instruction writes the slot Pike's machine starts with. *)
Lemma explore_entry at_ V r V' : explore [(0, at_, nones)] V r V' → explore [(0, at_, fresh at_)] V r V'.
Proof.
  intros H. inversion H as [|? ? ? ? ? ? ? Hin H'|? ? ? ? ? Hin Ha|? ? ? ? ? ? ? Hin Ha H']; subst.
  - by apply explore_seen.
  - unfold accepts in Ha. by rewrite Hentry in Ha.
  - apply explore_step; [done..|]. unfold RegexDfs.next in *. rewrite Hentry in *. unfold put_slot in *. by rewrite list_insert_insert_eq.
Qed.

Lemma total_from at_ slots V : bound text at_ → (∀ x, x ∈ V → in_range x) → ∃ r V', explore [(0, at_, slots)] V r V' ∧ ∀ x, x ∈ V' → in_range x.
Proof.
  intros Hb HV. eapply (explore_total p text whole Hready Htext); [apply Nat.lt_succ_diag_r| |done]. constructor; [|constructor]. split; [apply (rd_entry _ _ _ Hready)|done].
Qed.

(** * Starts that are skipped *)

Section filter.
Context (seen : list bool) (Hfilter : filters (p_insts p) (p_sets p) (p_first p) seen).

Definition unlikely (at_ : nat) : Prop := ∀ ch, char_at text at_ = Some ch → has (fi_bytes (p_first p)) (lead_byte ch) = false.

Lemma text_char at_ ch : bound text at_ → char_at text at_ = Some ch → is_char ch = true.
Proof. intros Hb Hc. unfold text_ok in Htext. rewrite Forall_forall in Htext. apply Htext. by eapply char_at_elem. Qed.

Lemma no_start at_ slots V r V' : bound text at_ → unlikely at_ → explore [(0, at_, slots)] V r V' → r = None.
Proof.
  intros Hb Hun H. eapply (explore_dead p text whole (λ x, x.2 = at_ ∧ seen !! x.1 = Some true)); [| |done|].
  - intros pc a s x [Ea Hs] Hx. cbn [fst snd] in Ea, Hs. subst a. destruct (fl_met _ _ _ _ Hfilter pc Hs) as (inst&Ei&Hfw&Hm).
    unfold RegexDfs.next in Hx. rewrite Ei in Hx.
    assert (∀ ch, chr text end_ at_ = Some ch → is_char ch = true ∧ has (fi_bytes (p_first p)) (lead_byte ch) = false) as Hch.
    { intros ch Hc. rewrite chr_here in Hc by done. split; [by eapply text_char|by apply Hun]. }
    destruct inst as [want|id|newline|assertion|id|slot|one other|to|]; cbn [follows] in Hfw; try done;
      try (repeat case_match; set_unfold in Hx; destruct_or?; subst; cbn; (split; [done|]); apply Hfw; set_solver).
    + destruct (chr text end_ at_) as [ch|] eqn:Ec; [|by apply elem_of_nil in Hx]. destruct (Hch ch eq_refl) as [Hc Hh].
      unfold takes in Hx. cbn [reads] in Hx. case_bool_decide as Hb'; [simplify_eq; congruence|by apply elem_of_nil in Hx].
    + destruct (chr text end_ at_) as [ch|] eqn:Ec; [|by apply elem_of_nil in Hx]. destruct (Hch ch eq_refl) as [Hc Hh].
      destruct Hm as (s'&Es&Hs'). unfold takes in Hx. cbn [reads] in Hx. rewrite Es, some_bind in Hx.
      destruct (Set_contains s' ch) eqn:Ect; [|by apply elem_of_nil in Hx]. rewrite Hs' in Hh; done.
  - intros pc a [Ea Hs]. cbn [fst snd] in *. destruct (fl_met _ _ _ _ Hfilter pc Hs) as (inst&Ei&_&Hm). unfold accepts. rewrite Ei. by destruct inst.
  - constructor; [|constructor]. split; [done|]. apply (fl_entry _ _ _ _ Hfilter).
Qed.

(** Where the filter stops, and what it passed. *)
Lemma skip_spec at_ : bound text at_ → fi_any (p_first p) = false →
  match First_skip (p_first p) (as_bytes text) at_ with
  | Some to => at_ ≤ to ∧ bound text to ∧ ∀ b, at_ ≤ b < to → bound text b → unlikely b
  | None => ∀ b, at_ ≤ b → bound text b → unlikely b
  end.
Proof.
  intros Hb Hany. unfold First_skip. rewrite Hany. pose proof (bound_le _ _ Hb) as Hle. rewrite length_as_bytes.
  rewrite (proj2 (Nat.ltb_ge _ _)) by done.
  assert (match fi_only (p_first p) with Some only => position (Z.eqb only) (drop at_ (as_bytes text)) | None => position (First_contains (p_first p)) (drop at_ (as_bytes text)) end
    = position (has (fi_bytes (p_first p))) (drop at_ (as_bytes text))) as ->.
  { destruct (fi_only (p_first p)) as [only|] eqn:Eo; [|done].
    assert (Forall (λ x, 0 ≤ x < 256)%Z (drop at_ (as_bytes text))) as Hr by by apply Forall_drop, bytes_range.
    induction Hr as [|x l Hx _ IH]; [done|]. cbn [position]. rewrite (fl_only _ _ _ _ Hfilter only x Eo Hx). by rewrite IH. }
  assert (∀ b ch, bound text b → char_at text b = Some ch → at_ ≤ b → drop at_ (as_bytes text) !! (b - at_) = Some (lead_byte ch)) as Hdrop.
  { intros b ch Hbb Hc Hge. rewrite lookup_drop. replace (at_ + (b - at_)) with b by lia. by rewrite byte_at_bound, Hc. }
  destruct (position _ _) as [i|] eqn:Ep; cbn [fmap option_fmap option_map].
  - destruct (position_there _ _ _ Ep) as (x&Hx&Hh&Hbefore). rewrite lookup_drop in Hx. split_and!; [lia| |].
    + pose proof (bytes_range text Htext) as Hr. rewrite Forall_lookup in Hr. specialize (Hr _ _ Hx).
      eapply lead_is_bound; [done|exact Hx|]. apply (fl_leads _ _ _ _ Hfilter) in Hh; [lia|done].
    + intros b [Hge Hlt] Hbb ch Hc. apply (Hbefore (b - at_)); [lia|by apply Hdrop].
  - intros b Hge Hbb ch Hc. apply (position_nowhere _ _ Ep (b - at_)). by apply Hdrop.
Qed.
End filter.

(** * The backtracker from each position *)

Lemma remembers_more_step at_ slots W V W' :
  remembers_more W V → explore [(0, at_, slots)] W None W' → remembers_more W' V.
Proof.
  intros [HW1 HW2] He. destruct (explore_shut p text whole Hready Htext _ _ _ _ He) as [Hsub Hsh]. destruct (Hsh eq_refl) as [_ Hall].
  split; [set_solver|]. intros x Hx. destruct (Hall x Hx) as [Hin|?]; [|by right]. destruct (HW2 x Hin); [by left|right]. by eapply shut_mono.
Qed.

(** Starts passed over, each a search that finds nothing. *)
Lemma attempts_over to : ∀ at_ W V, bound text at_ → bound text to → at_ ≤ to → (∀ x, x ∈ W → in_range x) → remembers_more W V →
  (∀ b slots V r V', at_ ≤ b < to → bound text b → explore [(0, b, slots)] V r V' → r = None) →
  ∃ W1, (∀ x, x ∈ W1 → in_range x) ∧ remembers_more W1 V ∧ ∀ r W', attempts to W1 r W' → attempts at_ W r W'.
Proof.
  intros at_. remember (to - at_) as k eqn:Ek. revert at_ Ek. induction (lt_wf k) as [k _ IH]. intros at_ -> W V Hb Hto Hle HW Hrm Hdead.
  destruct (bound_reached text at_ to Hb Hto Hle) as [->|(ch&Hc&Hle')]; [by exists W|]. pose proof (len_utf8_pos ch).
  destruct (total_from at_ (fresh at_) W Hb HW) as (r1&W1&He&HW1). assert (r1 = None) as -> by (eapply (Hdead at_); [lia|exact Hb|exact He]).
  destruct (IH (to - (at_ + len_utf8 ch))) with (at_ := at_ + len_utf8 ch) (W := W1) (V := V) as (W2&A&B&C); try done; [lia|by apply bound_next|by eapply remembers_more_step| |].
  { intros b slots V0 r V' Hb'. apply Hdead. lia. }
  exists W2. split_and!; [done..|]. intros r W' Hat. eapply attempts_next; [done| |by apply C]. by rewrite chr_here.
Qed.

(** No start is left. *)
Lemma attempts_none at_ W : bound text at_ → (∀ x, x ∈ W → in_range x) →
  (∀ b slots V r V', at_ ≤ b → bound text b → explore [(0, b, slots)] V r V' → r = None) → ∃ W', attempts at_ W None W'.
Proof.
  remember (text_len text - at_) as k eqn:Ek. revert at_ W Ek. induction (lt_wf k) as [k _ IH]. intros at_ W -> Hb HW Hdead.
  destruct (total_from at_ (fresh at_) W Hb HW) as (r1&W1&He&HW1). assert (r1 = None) as -> by (eapply (Hdead at_); [lia|exact Hb|exact He]).
  destruct (char_at text at_) as [ch|] eqn:Hc.
  - pose proof (len_utf8_pos ch). pose proof (char_at_lt _ _ _ Hb Hc).
    destruct (IH (text_len text - (at_ + len_utf8 ch))) with (at_ := at_ + len_utf8 ch) (W := W1) as (W'&H'); try done; [lia|by apply bound_next| |].
    { intros b slots V r V' Hge. apply Hdead. lia. }
    exists W'. eapply attempts_next; [done| |done]. by rewrite chr_here.
  - exists W1. apply attempts_end; [done|]. by rewrite chr_here.
Qed.

Context (Hfirst : fi_any (p_first p) = true ∨ fi_any (p_first p) = false ∧ ∃ seen, filters (p_insts p) (p_sets p) (p_first p) seen).

Lemma run_from_explores at_ c V : bound text at_ → remembers p text (ca_visited c) V → ca_slots c = nones →
  ∃ r V' c', run_from p text whole stride at_ c = Some (bool_decide (is_Some r), c') ∧ explore [(0, at_, fresh at_)] V r V'
    ∧ remembers p text (ca_visited c') V' ∧ (∀ slots, r = Some slots → ca_slots c' = slots).
Proof.
  intros Hb HV Hs. unfold run_from. pose proof (rd_entry _ _ _ Hready) as Hn.
  destruct (run_loop_explores p text whole Hready Htext (run_fuel p stride) None (mkCache (ca_visited c) [Step 0 at_] (ca_slots c)) V) as (r&V'&c'&E&He&H');
    [done|by constructor|done|unfold run_fuel; cbn [ca_jobs length]; lia|].
  exists r, V', c'. split_and!; [done| |apply H'..]. apply explore_entry. by rewrite <-Hs.
Qed.

Lemma bit_search_loop_ok fuel : ∀ at_ c V W, bound text at_ → remembers p text (ca_visited c) V → remembers_more W V → (∀ x, x ∈ W → in_range x) →
  text_len text - at_ + 1 < fuel → whole = false →
  ∃ r c' W', bit_search_loop p text fuel whole true stride at_ c = Some (r, c') ∧ attempts at_ W r W'.
Proof.
  induction fuel as [|fuel IH]; intros at_ c V W Hb HV Hrm HW Hf Hwh; [lia|]. cbn [bit_search_loop].
  assert (match First_skip (p_first p) (as_bytes text) at_ with
    | Some to => at_ ≤ to ∧ bound text to ∧ ∀ b slots V r V', at_ ≤ b < to → bound text b → explore [(0, b, slots)] V r V' → r = None
    | None => ∀ b slots V r V', at_ ≤ b → bound text b → explore [(0, b, slots)] V r V' → r = None end) as Hskip.
  { destruct Hfirst as [Hany|(Hany&seen&Hfl)].
    - unfold First_skip. rewrite Hany, length_as_bytes, (proj2 (Nat.leb_le _ _) (bound_le _ _ Hb)). split_and!; [done..|]. intros; lia.
    - pose proof (skip_spec seen Hfl at_ Hb Hany) as Hs. destruct (First_skip _ _ _) as [to|].
      + destruct Hs as (H1&H2&H3). split_and!; [done..|]. intros b slots V0 r V' Hr Hbb. apply (no_start seen Hfl); [done|by apply H3].
      + intros b slots V0 r V' Hr Hbb. apply (no_start seen Hfl); [done|by apply Hs]. }
  destruct (First_skip _ _ _) as [to|].
  2:{ destruct (attempts_none at_ W Hb HW Hskip) as (W'&H'). by exists None, c, W'. }
  destruct Hskip as (Hle&Hto&Hdead). destruct (attempts_over to at_ W V Hb Hto Hle HW Hrm Hdead) as (W1&HW1&Hrm1&Hback).
  destruct (run_from_explores to (mkCache (ca_visited c) (ca_jobs c) nones) V Hto HV eq_refl) as (r&V'&c'&E&He&HV'&Hsl). rewrite E, some_bind.
  destruct (explore_remembering p text whole Hready Htext _ _ _ _ He _ W1 (padded_refl _ _) Hrm1) as (W2&He2&Hrm2). destruct r as [slots|].
  { rewrite bool_decide_eq_true_2 by done. rewrite (Hsl _ eq_refl). exists (Some slots), c', W2. split; [done|]. apply Hback. by apply attempts_found. }
  rewrite bool_decide_eq_false_2 by by intros [??]. cbn [negb].
  rewrite read_char_at by done. destruct (char_at text to) as [ch|] eqn:Hc; cbn [fmap option_fmap option_map]; rewrite some_bind.
  2:{ exists None, c', W2. split; [done|]. apply Hback. apply attempts_end; [done|]. by rewrite chr_here. }
  pose proof (len_utf8_pos ch). pose proof (char_at_lt _ _ _ Hto Hc).
  assert (∀ x, x ∈ W2 → in_range x) as HW2.
  { intros x Hx. destruct (total_from to (fresh to) W1 Hto HW1) as (r'&W2'&He'&HW2'). destruct (explore_functional _ _ _ _ _ _ _ _ _ _ He2 He') as [_ <-]. by apply HW2'. }
  destruct (IH (to + len_utf8 ch) c' V' W2) as (r&c2&W'&E2&Hat); try done; [by apply bound_next|lia|].
  exists r, c2, W'. split; [done|]. apply Hback. eapply attempts_next; [done| |done]. by rewrite chr_here.
Qed.

Lemma remembers_new words : n * stride / 32 < words → remembers p text (replicate words 0%Z) ∅.
Proof.
  intros Hw. split; [by rewrite length_replicate|set_solver|]. intros x Hx. unfold marked. rewrite bool_decide_eq_false_2 by set_solver.
  case_match eqn:E; [|done]. apply lookup_replicate in E as [-> _]. apply Z.bits_0.
Qed.

Lemma attempts_functional at_ V r V' r2 V2 : attempts at_ V r V' → attempts at_ V r2 V2 → r = r2.
Proof.
  intros H. revert r2 V2. induction H as [at_ V r V' H|at_ V V' H Hc|at_ ch V V1 r V' H Hc _ IH]; intros r2 V2 H2; inversion H2; subst;
    match goal with H1 : explore _ _ _ _, H3 : explore _ _ _ _ |- _ => destruct (explore_functional _ _ _ _ _ _ _ _ _ _ H1 H3) as [? ?] end;
    simplify_eq; try done; try congruence; eauto.
Qed.

(** Both machines, from any position a character begins at. *)
Lemma machines_same start c : bound text start →
  ∃ r c' V', Cache_search p text start whole c = Some (r, c') ∧ vm_search p text start whole = Some r
    ∧ if negb (p_anchored p) && negb whole then attempts start ∅ r V' else explore [(0, start, fresh start)] ∅ r V'.
Proof.
  intros Hb. unfold vm_search. rewrite search_in_with. destruct (search_with_ok (look p text) p text end_ Hready start whole Hb) as (r&V'&E&Hr).
  exists r. unfold Cache_search. set (words := n * stride / 32 + 1). assert (remembers p text (replicate words 0%Z) ∅) as Hnew by (apply remembers_new; unfold words; lia).
  assert (∃ c', bit_search_loop p text (text_len text + 2) whole (negb (p_anchored p) && negb whole) stride start (mkCache (replicate words 0%Z) (ca_jobs c) (ca_slots c)) = Some (r, c'))
    as (c'&Ec); [|by exists c', V'].
  destruct (negb (p_anchored p) && negb whole) eqn:Eu.
  - apply andb_true_iff in Eu as [_ Hwh%negb_true_iff].
    destruct (bit_search_loop_ok (text_len text + 2) start (mkCache (replicate words 0%Z) (ca_jobs c) (ca_slots c)) ∅ ∅ Hb Hnew) as (r2&c'&W'&E2&Hat);
      [split; [done|set_solver]|set_solver|lia|done|]. exists c'. by rewrite E2, (attempts_functional _ _ _ _ _ _ Hr Hat).
  - replace (text_len text + 2) with (S (text_len text + 1)) by lia. cbn [bit_search_loop].
    destruct (run_from_explores start (mkCache (replicate words 0%Z) (ca_jobs c) nones) ∅ Hb Hnew eq_refl) as (r2&V2&c'&E2&He&_&Hsl).
    cbn [ca_visited ca_jobs] in *. rewrite E2, some_bind. destruct (explore_functional _ _ _ _ _ _ _ _ _ _ Hr He) as [<- _]. exists c'.
    destruct r as [slots|]; [rewrite bool_decide_eq_true_2 by done; by rewrite (Hsl _ eq_refl)|]. by rewrite bool_decide_eq_false_2 by by intros [??].
Qed.
End agree.
