(* ===== verification/RegexMatch.v ===== *)
(** What a tree matches, said without a machine: the relation between where a match begins and where
    it ends. And what a search that found something, or found nothing, says of the graph. *)

From S2P Require Import Prelude Regex RegexRun RegexDfs RegexPike RegexBack RegexFirst RegexAgree.
Local Open Scope nat_scope.

Abbreviation Span := (nat → nat → Prop).

Definition then_ (R1 R2 : Span) : Span := λ i j, ∃ k, R1 i k ∧ R2 k j.

Fixpoint in_sequence (parts : list Span) : Span :=
  match parts with [] => eq | part :: parts => then_ part (in_sequence parts) end.

Fixpoint repeated (k : nat) (R : Span) : Span := match k with O => eq | S k => then_ R (repeated k R) end.

Definition class_has (class : CharClass) (ch : Z) : bool :=
  negb (Bool.eqb (existsb (λ r, (r.1 <=? ch)%Z && (ch <=? r.2)%Z) (cl_ranges class)) (cl_negated class)).

Section meaning.
Context (text : Text) (word : option CharSet).

Fixpoint means (ast : Ast) : Span :=
  match ast with
  | Empty => eq
  | Literal ch => λ i j, char_at text i = Some ch ∧ j = i + len_utf8 ch
  | Class_ class => λ i j, ∃ ch, char_at text i = Some ch ∧ class_has class ch = true ∧ j = i + len_utf8 ch
  | AnyChar newline => λ i j, ∃ ch, char_at text i = Some ch ∧ (newline = true ∨ ch ≠ 10%Z) ∧ j = i + len_utf8 ch
  | Assert assertion => λ i j, i = j ∧ holds word assertion text i = Some true
  | Group _ inner => means inner
  | Concat parts => in_sequence (means <$> parts)
  | Alternate branches => λ i j, Exists (λ R : Span, R i j) (means <$> branches)
  | Repeat inner least most _ => λ i j, ∃ k, least ≤ k ∧ (∀ m, most = Some m → k ≤ m) ∧ repeated k (means inner) i j
  | Lookaround ahead negated inner => λ i j, i = j
      ∧ (if negated then ¬ (if ahead then ∃ k, means inner i k else ∃ k, bound text k ∧ means inner k i)
         else if ahead then ∃ k, means inner i k else ∃ k, bound text k ∧ means inner k i)
  end.
End meaning.

(** A tree as the parsers make them. *)
Fixpoint tree_ok (ast : Ast) : bool :=
  match ast with
  | Literal ch => is_char ch
  | Class_ class => forallb (λ r, (0 <=? r.1)%Z && (r.1 <=? r.2)%Z) (cl_ranges class)
  | Group index inner => match index with Some index => 1 <=? index | None => true end && tree_ok inner
  | Concat parts => forallb tree_ok parts
  | Alternate branches => negb (bool_decide (length branches = 0)) && forallb tree_ok branches
  | Repeat inner least most _ => match most with Some most => least <=? most | None => true end && tree_ok inner
  | Lookaround _ _ inner => tree_ok inner
  | _ => true
  end.

(** Induction on a tree, with what is below each node. *)
Lemma Ast_ind' (P : Ast → Prop) :
  P Empty → (∀ ch, P (Literal ch)) → (∀ c, P (Class_ c)) → (∀ n, P (AnyChar n)) → (∀ a, P (Assert a)) →
  (∀ index inner, P inner → P (Group index inner)) → (∀ parts, Forall P parts → P (Concat parts)) →
  (∀ branches, Forall P branches → P (Alternate branches)) →
  (∀ inner least most greedy, P inner → P (Repeat inner least most greedy)) →
  (∀ ahead negated inner, P inner → P (Lookaround ahead negated inner)) → ∀ ast, P ast.
Proof.
  intros H1 H2 H3 H4 H5 H6 H7 H8 H9 H10. fix go 1. intros [| | | | |index inner|parts|branches|inner least most greedy|ahead negated inner].
  - exact H1.
  - apply H2.
  - apply H3.
  - apply H4.
  - apply H5.
  - apply H6, go.
  - apply H7. induction parts as [|x l IH]; constructor; [apply go|exact IH].
  - apply H8. induction branches as [|x l IH]; constructor; [apply go|exact IH].
  - apply H9, go.
  - apply H10, go.
Qed.

(** * Searches and paths *)

Section paths.
Context (look : nat → nat → option bool) (p : Program) (text : Text) (end_ : option nat).
Abbreviation next := (next look p text end_).
Abbreviation explore := (explore look p text end_).

Definition edge (x y : Node) : Prop := ∃ z, z ∈ next x.1 x.2 [] ∧ z.1 = y.

Definition item_step (x y : Item) : Prop := y ∈ next x.1.1 x.1.2 x.2.

Lemma next_any pc at_ slots slots' : (λ x : Item, x.1) <$> next pc at_ slots = (λ x : Item, x.1) <$> next pc at_ slots'.
Proof. unfold RegexDfs.next. destruct (p_insts p !! pc) as [inst|]; [|done]. destruct inst; repeat case_match; done. Qed.

Lemma edge_slots x y slots : edge x y ↔ ∃ z, z ∈ next x.1 x.2 slots ∧ z.1 = y.
Proof.
  assert (∀ s, (∃ z, z ∈ next x.1 x.2 s ∧ z.1 = y) ↔ y ∈ (λ x : Item, x.1) <$> next x.1 x.2 s) as H.
  { intros s. rewrite list_elem_of_fmap. split; intros (z&?&?); exists z; by subst. }
  unfold edge. by rewrite !H, (next_any _ _ slots []).
Qed.

Lemma item_edge x y : item_step x y → edge x.1 y.1.
Proof. intros H. apply (edge_slots _ _ x.2). by exists y. Qed.

Lemma items_edges x y : rtc item_step x y → rtc edge x.1 y.1.
Proof. induction 1; [done|]. eapply rtc_l; [by apply item_edge|done]. Qed.

Definition matches_from (x : Node) : Prop := ∃ pc j, rtc edge x (pc, j) ∧ accepts p end_ pc j = true.

(** A search that found something walked there. *)
Lemma explore_found s V r V' : explore s V (Some r) V' →
  ∃ x pc j slots, x ∈ s ∧ rtc item_step x (pc, j, slots) ∧ accepts p end_ pc j = true ∧ r = put_slot 1 j slots.
Proof.
  intros H. remember (Some r) as o eqn:Eo. induction H as [V|pc at_ slots rest V r0 V' Hin H IH|pc at_ slots rest V Hin Ha|pc at_ slots rest V r0 V' Hin Ha H IH]; simplify_eq.
  - destruct IH as (x&pc'&j&s&?&?&?&?); [done|]. exists x, pc', j, s. split_and!; [by right|done..].
  - exists (pc, at_, slots), pc, at_, slots. split_and!; [by left|done..].
  - destruct IH as (x&pc'&j&s&Hx&Hr&?&?); [done|]. apply elem_of_app in Hx as [Hx|Hx].
    + exists (pc, at_, slots), pc', j, s. split_and!; [by left| |done..]. by eapply rtc_l.
    + exists x, pc', j, s. split_and!; [by right|done..].
Qed.

(** Tried, and nothing found from any of them. *)
Definition all_shut (V : gset Node) : Prop := ∀ x, x ∈ V → accepts p end_ x.1 x.2 = false ∧ ∀ y, edge x y → y ∈ V.

Lemma all_shut_reach V x y : all_shut V → x ∈ V → rtc edge x y → y ∈ V.
Proof. intros HV Hx H. induction H as [|x y z Hxy _ IH]; [done|]. apply IH. by apply (HV x Hx). Qed.

Lemma all_shut_none V x : all_shut V → x ∈ V → ¬ matches_from x.
Proof. intros HV Hx (pc&j&Hr&Ha). destruct (HV (pc, j)) as [Hn _]; [by eapply all_shut_reach|]. cbn in Hn. congruence. Qed.

Lemma explore_none s V V' : explore s V None V' → (∀ x, x ∈ s → x.1 ∈ V')
  ∧ V ⊆ V' ∧ ∀ x, x ∈ V' → x ∈ V ∨ accepts p end_ x.1 x.2 = false ∧ ∀ y, edge x y → y ∈ V'.
Proof.
  intros H. remember None as o eqn:Eo. induction H as [V|pc at_ slots rest V r0 V' Hin H IH|pc at_ slots rest V Hin Ha|pc at_ slots rest V r0 V' Hin Ha H IH]; simplify_eq.
  - split_and!; [set_solver|done|by left].
  - destruct IH as (A&B&C); [done|]. split_and!; [|done..]. intros x [->|Hx]%elem_of_cons; [cbn; set_solver|by apply A].
  - destruct IH as (A&B&C); [done|]. split_and!; [|set_solver|].
    + intros x [->|Hx]%elem_of_cons; [cbn; set_solver|]. apply A. set_solver.
    + intros x Hx. destruct (C x Hx) as [[->%elem_of_singleton|HV]%elem_of_union|Hs]; [|by left|by right].
      right. split; [done|]. intros y (z&Hz&<-)%(edge_slots _ _ slots). cbn [fst snd] in Hz. apply A. set_solver.
Qed.

Lemma explore_shuts s V V' : all_shut V → explore s V None V' → all_shut V' ∧ ∀ x, x ∈ s → ¬ matches_from x.1.
Proof.
  intros HV H. destruct (explore_none _ _ _ H) as (A&B&C). assert (all_shut V') as HV'.
  { intros x Hx. destruct (C x Hx) as [Hin|?]; [|done]. destruct (HV x Hin) as [? Hn]. split; [done|]. intros y Hy. by apply B, Hn. }
  split; [done|]. intros x Hx. apply (all_shut_none V'); [done|by apply A].
Qed.

Lemma all_shut_empty : all_shut ∅.
Proof. intros x Hx. set_solver. Qed.
End paths.

(** * Held to an end *)

Lemma chr_None text at_ : chr text None at_ = char_at text at_.
Proof. unfold chr. by case_decide. Qed.

Lemma chr_Some text e at_ : chr text (Some e) at_ = if decide (e = at_) then None else char_at text at_.
Proof. unfold chr. repeat case_decide; congruence. Qed.

(** With an end the graph is the one without, as far as the end. *)
Lemma edge_end look p text e x y : edge look p text (Some e) x y → edge look p text None x y.
Proof.
  intros (z&Hz&<-). exists z. split; [|done]. unfold RegexDfs.next in *. destruct (p_insts p !! x.1) as [[]|]; try done;
    rewrite chr_Some in Hz; rewrite chr_None; (case_decide; [by apply elem_of_nil in Hz|done]).
Qed.

Lemma edge_forward look p text end_ x y : edge look p text end_ x y → x.2 ≤ y.2.
Proof. intros (z&Hz&<-). by eapply next_forward. Qed.

Lemma edges_forward look p text end_ x y : rtc (edge look p text end_) x y → x.2 ≤ y.2.
Proof. induction 1 as [|x y z Hxy _ IH]; [done|]. apply edge_forward in Hxy. lia. Qed.

Lemma edges_no_end look p text e x y : rtc (edge look p text (Some e)) x y → rtc (edge look p text None) x y.
Proof. intros H. eapply rtc_congruence with (f := id); [|done]. intros a b. apply edge_end. Qed.

Lemma edges_to_end look p text e x y : rtc (edge look p text None) x y → y.2 ≤ e → rtc (edge look p text (Some e)) x y.
Proof.
  intros H Hle. induction H as [|x y z Hxy Hyz IH]; [done|]. eapply rtc_l; [|by apply IH]. pose proof (edges_forward _ _ _ _ _ _ Hyz) as Hf.
  destruct Hxy as (w&Hw&<-). exists w. split; [|done]. unfold RegexDfs.next in *. destruct (p_insts p !! x.1) as [inst|]; [|done].
  destruct inst; try done; rewrite chr_None in Hw; rewrite chr_Some; (case_decide as Hd; [|done]); subst e; destruct (char_at text x.2) as [ch|]; try done; case_match; try done;
    apply list_elem_of_singleton in Hw; subst w; cbn in Hf; pose proof (len_utf8_pos ch); lia.
Qed.

(** * Sets

    A set of characters answers what its class says: sorting and merging the ranges keeps their
    members, and the bitmap below the ASCII line is the ranges again. *)

Section sets.
Local Open Scope Z_scope.

Definition in_ranges (ranges : list (Z * Z)) (ch : Z) : bool := existsb (λ r, (r.1 <=? ch) && (ch <=? r.2)) ranges.

Lemma in_ranges_perm l l' ch : l ≡ₚ l' → in_ranges l ch = in_ranges l' ch.
Proof. unfold in_ranges. induction 1 as [|r l l' _ IH|r r' l|l1 l2 l3 _ IH1 _ IH2]; cbn; [done|by rewrite IH|by rewrite !orb_assoc, (orb_comm (_ && _))|congruence]. Qed.

#[global] Instance pair_le_total : Total pair_le.
Proof. intros [a b] [c d]. unfold pair_le. cbn. lia. Qed.

#[global] Instance pair_le_trans : Transitive pair_le.
Proof. intros [a b] [c d] [e f]. unfold pair_le. cbn. lia. Qed.

Lemma merge_range_in acc r ch : (∀ last rest, acc = last :: rest → last.1 ≤ r.1) → in_ranges (merge_range acc r) ch = in_ranges acc ch || in_ranges [r] ch.
Proof.
  intros Hle. destruct acc as [|last rest]; [done|]. specialize (Hle last rest eq_refl). cbn [merge_range].
  destruct (Z.leb_spec r.1 (last.2 + 1)) as [Ht|Ht]; unfold in_ranges; cbn [existsb fst snd]; rewrite ?orb_false_r.
  - destruct (existsb _ rest); [by rewrite !orb_true_r|]. rewrite !orb_false_r. apply eq_true_iff_eq.
    rewrite orb_true_iff, !andb_true_iff, !Z.leb_le. destruct (Z.ltb_spec last.2 r.2); lia.
  - by rewrite (orb_comm (_ && _)).
Qed.

Lemma merge_all_in l : StronglySorted pair_le l → ∀ acc ch, (∀ last rest r, acc = last :: rest → r ∈ l → last.1 ≤ r.1) →
  in_ranges (foldl merge_range acc l) ch = in_ranges acc ch || in_ranges l ch.
Proof.
  induction 1 as [|r l _ IH Hr]; intros acc ch Hacc; [by rewrite orb_false_r|]. cbn [foldl]. rewrite IH.
  - rewrite merge_range_in by (intros last rest ->; eapply Hacc; [done|by left]). unfold in_ranges. cbn [existsb]. by rewrite orb_false_r, orb_assoc.
  - intros last rest r' Em Hr'. rewrite Forall_forall in Hr. specialize (Hr r' Hr'). assert (r.1 ≤ r'.1) as Hrr by (unfold pair_le in Hr; lia).
    destruct acc as [|x acc]; cbn [merge_range] in Em; [by simplify_eq|].
    assert (x.1 ≤ r.1) by (eapply Hacc; [done|by left]). destruct (r.1 <=? x.2 + 1); simplify_eq; cbn; lia.
Qed.

Lemma merge_ranges_in ranges ch : in_ranges (merge_ranges ranges) ch = in_ranges ranges ch.
Proof.
  unfold merge_ranges. rewrite (in_ranges_perm (reverse _) (foldl merge_range [] (merge_sort pair_le ranges))) by apply reverse_Permutation.
  rewrite merge_all_in; [|apply (StronglySorted_merge_sort pair_le)|done]. cbn [in_ranges existsb orb]. apply in_ranges_perm, merge_sort_Permutation.
Qed.

(** Merged ranges lie one past the other. *)
Definition apart (ranges : list (Z * Z)) : Prop := ∀ i j x y, (i < j)%nat → ranges !! i = Some x → ranges !! j = Some y → x.2 < y.1.

Lemma merge_all_apart l : StronglySorted pair_le l → ∀ acc, (∀ last rest r, acc = last :: rest → r ∈ l → last.1 ≤ r.1) →
  StronglySorted (λ x y, y.2 < x.1) acc → StronglySorted (λ x y : Z * Z, y.2 < x.1) (foldl merge_range acc l).
Proof.
  induction 1 as [|r l _ IH Hr]; intros acc Hacc Ha; [done|]. cbn [foldl]. apply IH.
  - intros last rest r' Em Hr'. rewrite Forall_forall in Hr. specialize (Hr r' Hr'). assert (r.1 ≤ r'.1) as Hrr by (unfold pair_le in Hr; lia).
    destruct acc as [|x acc]; cbn [merge_range] in Em; [by simplify_eq|].
    assert (x.1 ≤ r.1) by (eapply Hacc; [done|by left]). destruct (r.1 <=? x.2 + 1); simplify_eq; cbn; lia.
  - destruct Ha as [|x acc Ha Hx]; [by repeat constructor|]. cbn [merge_range]. assert (x.1 ≤ r.1) as Hxr by (eapply Hacc; [done|by left]).
    destruct (Z.leb_spec r.1 (x.2 + 1)); [by constructor|]. constructor; [by constructor|]. constructor; [lia|]. eapply Forall_impl; [done|]. cbn. intros y Hy. lia.
Qed.

Lemma sorted_ranges_lookup {A} (R : A → A → Prop) l i j x y : StronglySorted R l → (i < j)%nat → l !! i = Some x → l !! j = Some y → R x y.
Proof.
  intros H. revert i j. induction H as [|z l _ IH Hz]; intros i j Hij Hi Hj; [done|]. destruct j as [|j]; [lia|]. destruct i as [|i]; cbn in Hi, Hj.
  - simplify_eq. rewrite Forall_lookup in Hz. by eapply Hz.
  - apply (IH i j); [lia|done..].
Qed.

Lemma merge_ranges_apart ranges : apart (merge_ranges ranges).
Proof.
  intros i j x y Hij Hi Hj. unfold merge_ranges in Hi, Hj. set (l := foldl merge_range [] (merge_sort pair_le ranges)) in *.
  assert (StronglySorted (λ x y : Z * Z, y.2 < x.1) l) as Hs by (apply merge_all_apart; [apply (StronglySorted_merge_sort pair_le)|done|constructor]).
  pose proof (lookup_lt_Some _ _ _ Hi) as Li. pose proof (lookup_lt_Some _ _ _ Hj) as Lj. rewrite length_reverse in Li, Lj. rewrite reverse_lookup in Hi, Hj by done.
  apply (sorted_ranges_lookup _ _ (length l - S j) (length l - S i) y x Hs); [lia|done..].
Qed.

(** The search finds the range that holds the character. *)
Lemma binary_loop_finds ranges ch t x : apart ranges → Forall (λ r, r.1 ≤ r.2) ranges → ranges !! t = Some x → x.1 ≤ ch ≤ x.2 → ∀ fuel base size,
  (base ≤ t < base + size)%nat → (base + size ≤ length ranges)%nat → (size ≤ S fuel)%nat → binary_loop fuel (range_cmp ch) ranges base size = t.
Proof.
  intros Hap Hok Ht Hx. induction fuel as [|fuel IH]; intros base size Hb Hl Hf; cbn [binary_loop]; [lia|]. destruct (Nat.leb_spec size 1); [lia|].
  assert (0 < size / 2 ∧ 2 * (size / 2) ≤ size)%nat as Hhalf by (split; [apply Nat.div_str_pos; lia|apply Nat.Div0.mul_div_le]). revert Hhalf. generalize (size / 2)%nat. intros half Hhalf.
  destruct (lookup_lt_is_Some_2 ranges (base + half)) as [y Ey]; [lia|]. rewrite Ey. cbn [fmap option_fmap option_map].
  assert (y.1 ≤ y.2) as Hy by (rewrite Forall_lookup in Hok; by eapply Hok). destruct (decide (base + half ≤ t)%nat) as [Hm|Hm].
  - assert (range_cmp ch y ≠ Gt) as Hc.
    { unfold range_cmp. destruct (Z.ltb_spec y.2 ch); [done|]. destruct (Z.ltb_spec ch y.1); [|done]. exfalso.
      destruct (decide (t = base + half)%nat) as [->|]; [simplify_eq; lia|]. pose proof (Hap (base + half)%nat t y x ltac:(lia) Ey Ht). lia. }
    destruct (range_cmp ch y); try done; apply IH; lia.
  - pose proof (Hap t (base + half)%nat x y ltac:(lia) Ht Ey). assert (range_cmp ch y = Gt) as ->; [|apply IH; lia].
    unfold range_cmp. destruct (Z.ltb_spec y.2 ch); [lia|]. destruct (Z.ltb_spec ch y.1); [done|lia].
Qed.

Lemma binary_search_in ranges ch : apart ranges → Forall (λ r, r.1 ≤ r.2) ranges → binary_search (range_cmp ch) ranges = in_ranges ranges ch.
Proof.
  intros Hap Hok. destruct (in_ranges ranges ch) eqn:E.
  - unfold in_ranges in E. apply existsb_exists in E as (x&Hx%list_elem_of_In&Hin). apply list_elem_of_lookup in Hx as [t Ht]. apply andb_true_iff in Hin as [H1%Z.leb_le H2%Z.leb_le].
    unfold binary_search. pose proof (lookup_lt_Some _ _ _ Ht). rewrite (binary_loop_finds ranges ch t x) by (done || lia). rewrite Ht. cbn. unfold range_cmp.
    destruct (Z.ltb_spec x.2 ch); [lia|]. destruct (Z.ltb_spec ch x.1); [lia|done].
  - apply not_true_iff_false. intros (r&Hr&H1&H2)%binary_found. apply not_true_iff_false in E. apply E. unfold in_ranges. apply existsb_exists. exists r. split; [by apply list_elem_of_In|]. lia.
Qed.

Lemma ascii_loop_bit codes ascii code : 0 ≤ code → Forall (λ x, 0 ≤ x) codes →
  Z.testbit (foldl (λ ascii code, Z.lor ascii (1 ≪ code)) ascii codes) code = Z.testbit ascii code || bool_decide (code ∈ codes).
Proof.
  intros Hc. revert ascii. induction codes as [|x codes IH]; intros ascii Hf; [cbn; by rewrite orb_false_r|]. apply Forall_cons in Hf as [Hx Hf]. cbn [foldl].
  rewrite IH by done. rewrite Z.lor_spec, Z.shiftl_1_l, <-orb_assoc. f_equal. destruct (decide (x = code)) as [->|Hne].
  - rewrite Z.pow2_bits_true by done. symmetry. apply bool_decide_eq_true_2. by left.
  - rewrite Z.pow2_bits_false by done. cbn. apply bool_decide_ext. set_solver.
Qed.

Lemma ascii_bits_bit ascii r code : 0 ≤ code < 128 → 0 ≤ r.1 → Z.testbit (ascii_bits ascii r) code = Z.testbit ascii code || ((r.1 <=? code) && (code <=? r.2)).
Proof.
  intros Hc Hr. unfold ascii_bits. rewrite ascii_loop_bit; [|lia|apply Forall_forall; intros x Hx%elem_of_seqZ; lia]. f_equal.
  apply eq_true_iff_eq. rewrite bool_decide_eq_true, elem_of_seqZ, andb_true_iff, !Z.leb_le. lia.
Qed.

Lemma ascii_ranges_bit l ascii code : 0 ≤ code < 128 → Forall (λ r, 0 ≤ r.1) l → Z.testbit (foldl ascii_bits ascii l) code = Z.testbit ascii code || in_ranges l code.
Proof.
  intros Hc. revert ascii. induction l as [|r l IH]; intros ascii Hl; [by rewrite orb_false_r|]. apply Forall_cons in Hl as [Hr Hl]. cbn [foldl].
  rewrite IH, ascii_bits_bit by done. unfold in_ranges. cbn [existsb]. by rewrite orb_assoc.
Qed.

(** Merged ranges are ranges. *)
Lemma merge_ranges_ordered ranges : Forall (λ r, 0 ≤ r.1 ≤ r.2) ranges → Forall (λ r, 0 ≤ r.1 ≤ r.2) (merge_ranges ranges).
Proof.
  intros Hr. unfold merge_ranges. apply Forall_reverse. assert (Forall (λ r, 0 ≤ r.1 ≤ r.2) (merge_sort pair_le ranges)) as Hs by by rewrite merge_sort_Permutation.
  assert (∀ l acc, Forall (λ r : Z * Z, 0 ≤ r.1 ≤ r.2) l → Forall (λ r : Z * Z, 0 ≤ r.1 ≤ r.2) acc → Forall (λ r : Z * Z, 0 ≤ r.1 ≤ r.2) (foldl merge_range acc l)) as H; [|by apply H].
  clear. induction l as [|r l IH]; intros acc Hl Ha; [done|]. apply Forall_cons in Hl as [Hr Hl]. cbn [foldl]. apply IH; [done|].
  destruct acc as [|x acc]; cbn [merge_range]; [by constructor|]. apply Forall_cons in Ha as [Hx Ha]. case_match; [|constructor; [done|by constructor]]. constructor; [|done]. cbn. case_match; lia.
Qed.

Lemma wnot_bit w x i : 0 ≤ i < w → Z.testbit (wnot w x) i = negb (Z.testbit x i).
Proof. intros Hi. unfold wnot. rewrite Z.lxor_spec, Z.ones_spec_low by lia. by destruct (Z.testbit x i). Qed.

Lemma Set_new_contains class ch : Forall (λ r, 0 ≤ r.1 ≤ r.2) (cl_ranges class) → 0 ≤ ch → Set_contains (Set_new class) ch = class_has class ch.
Proof.
  intros Hr Hc. unfold Set_contains, Set_new, class_has. cbn [cs_ascii cs_ranges cs_negated]. pose proof (merge_ranges_ordered _ Hr) as Hm.
  fold (in_ranges (cl_ranges class) ch). destruct (Z.ltb_spec ch 128) as [Hl|Hl].
  - assert (Z.testbit (foldl ascii_bits 0 (merge_ranges (cl_ranges class))) ch = in_ranges (cl_ranges class) ch) as E.
    { rewrite ascii_ranges_bit; [|lia|eapply Forall_impl; [done|]; cbn; lia]. by rewrite Z.bits_0, merge_ranges_in. }
    destruct (cl_negated class); [rewrite wnot_bit by lia|]; rewrite E; by destruct (in_ranges _ ch).
  - rewrite binary_search_in; [by rewrite merge_ranges_in|apply merge_ranges_apart|]. eapply Forall_impl; [done|]. cbn. lia.
Qed.

Lemma Set_new_class class ch : forallb (λ r, (0 <=? r.1) && (r.1 <=? r.2)) (cl_ranges class) = true → is_char ch = true →
  Set_contains (Set_new class) ch = class_has class ch.
Proof.
  intros Hr Hc. apply Set_new_contains.
  - apply Forall_forall. intros r Hin%list_elem_of_In. rewrite forallb_forall in Hr. specialize (Hr r Hin). lia.
  - unfold is_char in Hc. lia.
Qed.
End sets.
