(* ===== verification/RegexCompile.v ===== *)
(** The compiler. Pieces of a program: code between two places that goes from the first to the second
    exactly where a relation says a match may begin and end. What each shape of tree emits is such a
    piece, and means the tree, whatever program it ends in. *)

From S2P Require Import Prelude Regex RegexRun RegexDfs RegexPike RegexBack RegexFirst RegexAgree RegexMatch.
Local Open Scope nat_scope.

(** * Pieces of code *)

Section code.
Context (text : Text) (P : Program).
Abbreviation edge := (edge (look P text) P text None).

(** An instruction of a piece: it stays in it or goes to its end, and writes no slot of the whole
    match. *)
Definition inst_ok (a b pc : nat) (inst : Inst) : Prop :=
  match inst with
  | IJump to => a ≤ to ≤ b
  | ISplit first second => a ≤ first ≤ b ∧ a ≤ second ≤ b
  | IChar ch => is_char ch = true
  | ISet id => id < length (p_sets P)
  | ILook id => ∀ at_, bound text at_ → is_Some (look P text id at_)
  | ISave slot => 2 ≤ slot
  | IMatch => False
  | _ => True
  end.

Lemma inst_ok_wider a b a' b' pc inst : inst_ok a b pc inst → a' ≤ a → b ≤ b' → inst_ok a' b' pc inst.
Proof. destruct inst; cbn; intros H ? ?; try done; lia. Qed.

Record code (a b : nat) (R : Span) : Prop := {
  co_le : a ≤ b;
  co_walks : ∀ i j, bound text i → R i j → bound text j ∧ rtc edge (a, i) (b, j);
  co_exits : ∀ k i y, bound text i → nsteps edge k (a, i) y → ¬ (a ≤ y.1 < b) →
    ∃ j m, R i j ∧ bound text j ∧ m ≤ k ∧ (a < b → m < k) ∧ nsteps edge m (b, j) y;
  co_inst : ∀ pc, a ≤ pc < b → ∃ inst, p_insts P !! pc = Some inst ∧ inst_ok a b pc inst }.

Lemma code_iff a b R R' : code a b R → (∀ i j, bound text i → R i j ↔ R' i j) → code a b R'.
Proof.
  intros [H1 H2 H3 H4] HR. split; [done| | |done].
  - intros i j Hb H. apply H2; [done|]. by apply HR.
  - intros k i y Hb Hk Hy. destruct (H3 k i y Hb Hk Hy) as (j&m&Hr&H). exists j, m. split; [by apply HR|done].
Qed.

Lemma code_none a : code a a eq.
Proof.
  split; [done| | |intros; lia].
  - by intros i j Hb <-.
  - intros k i y Hb Hk _. exists i, k. by split_and!; [..|lia|].
Qed.

Lemma code_app a b c R1 R2 : code a b R1 → code b c R2 → code a c (then_ R1 R2).
Proof.
  intros [A1 A2 A3 A4] [B1 B2 B3 B4]. split; [lia| | |].
  - intros i j Hb (k&Hk1&Hk2). destruct (A2 i k Hb Hk1) as [Hbk Hr]. destruct (B2 k j Hbk Hk2) as [Hbj Hr']. split; [done|]. by etrans.
  - intros k i y Hb Hk Hy. destruct (A3 k i y Hb Hk) as (j&m&Hr&Hbj&Hm&Hm'&Hs); [lia|]. destruct (B3 m j y Hbj Hs) as (j2&m2&Hr2&Hb2&Hm2&Hm2'&Hs2); [lia|].
    exists j2, m2. split_and!; [by exists j|done|lia| |done]. intros Hac. destruct (decide (a < b)) as [Hab|]; [specialize (Hm' Hab); lia|]. specialize (Hm2' ltac:(lia)). lia.
  - intros pc Hpc. destruct (decide (pc < b)).
    + destruct (A4 pc) as (inst&?&Hi); [lia|]. exists inst. split; [done|]. by eapply inst_ok_wider.
    + destruct (B4 pc) as (inst&?&Hi); [lia|]. exists inst. split; [done|]. by eapply inst_ok_wider.
Qed.

(** One instruction. *)
Lemma code_one a inst R : p_insts P !! a = Some inst → inst_ok a (S a) a inst →
  (∀ i y, bound text i → edge (a, i) y ↔ ∃ j, R i j ∧ y = (S a, j)) → (∀ i j, bound text i → R i j → bound text j) → code a (S a) R.
Proof.
  intros Ei Hok He Hb. split; [lia| | |].
  - intros i j Hi HR. split; [by eapply Hb|]. apply rtc_once. apply He; [done|]. eauto.
  - intros k i y Hi Hk Hy. inversion Hk as [|k' ? z ? Hz Hk']; subst; [cbn in Hy; lia|]. apply He in Hz as (j&HR&->); [|done].
    exists j, k'. split_and!; [done|by eapply Hb|lia|lia|done].
  - intros pc Hpc. assert (pc = a) as -> by lia. eauto.
Qed.

(** * Edges of the instructions that read nothing *)

Lemma edge_split a first second i y : p_insts P !! a = Some (ISplit first second) → edge (a, i) y ↔ y = (first, i) ∨ y = (second, i).
Proof.
  intros E. unfold RegexMatch.edge, RegexDfs.next. cbn [fst snd]. rewrite E. split.
  - intros (z&Hz&<-). set_unfold. destruct Hz as [->|[->|[]]]; eauto.
  - intros [->| ->]; [exists (first, i, [])|exists (second, i, [])]; (split; [|done]); set_solver.
Qed.

Lemma edge_jump a to i y : p_insts P !! a = Some (IJump to) → edge (a, i) y ↔ y = (to, i).
Proof.
  intros E. unfold RegexMatch.edge, RegexDfs.next. cbn [fst snd]. rewrite E. split.
  - by intros (z&->%list_elem_of_singleton&<-).
  - intros ->; exists (to, i, []); (split; [|done]); set_solver.
Qed.

Lemma edge_branch a greedy first second i y : p_insts P !! a = Some (branch greedy first second) → edge (a, i) y ↔ y = (first, i) ∨ y = (second, i).
Proof. unfold branch. destruct greedy; intros E; rewrite (edge_split _ _ _ _ _ E); tauto. Qed.

Lemma branch_ok a b pc greedy first second : a ≤ first ≤ b → a ≤ second ≤ b → inst_ok a b pc (branch greedy first second).
Proof. unfold branch. by destruct greedy. Qed.

(** * Shapes *)

(** A choice: into the body, which jumps past the rest, or into the rest. *)
Lemma code_choice a c e R1 R2 : p_insts P !! a = Some (ISplit (S a) (S c)) → code (S a) c R1 → p_insts P !! c = Some (IJump e) → code (S c) e R2 →
  code a e (λ i j, R1 i j ∨ R2 i j).
Proof.
  intros Ea [A1 A2 A3 A4] Ec [B1 B2 B3 B4]. split; [lia| | |].
  - intros i j Hb [H|H].
    + destruct (A2 i j Hb H) as [Hj Hr]. split; [done|]. eapply rtc_l; [apply (edge_split _ _ _ _ _ Ea); by left|]. etrans; [done|]. apply rtc_once. by apply (edge_jump _ _ _ _ Ec).
    + destruct (B2 i j Hb H) as [Hj Hr]. split; [done|]. eapply rtc_l; [apply (edge_split _ _ _ _ _ Ea); by right|done].
  - intros k i y Hb Hk Hy. inversion Hk as [|k' ? z ? Hz Hk']; subst; [cbn in Hy; lia|]. apply (edge_split _ _ _ _ _ Ea) in Hz as [->| ->].
    + destruct (A3 k' i y Hb Hk') as (j&m&HR&Hj&Hm&_&Hs); [lia|]. inversion Hs as [|m' ? z ? Hz Hs']; subst; [cbn in Hy; lia|].
      apply (edge_jump _ _ _ _ Ec) in Hz as ->. exists j, m'. split_and!; [by left|done|lia|lia|done].
    + destruct (B3 k' i y Hb Hk') as (j&m&HR&Hj&Hm&_&Hs); [lia|]. exists j, m. split_and!; [by right|done|lia|lia|done].
  - intros pc Hpc. destruct (decide (pc = a)) as [->|]; [eexists; split; [done|]; cbn; lia|].
    destruct (decide (pc < c)); [destruct (A4 pc) as (inst&?&Hi); [lia|]; exists inst; split; [done|]; eapply inst_ok_wider; [done|lia..]|].
    destruct (decide (pc = c)) as [->|]; [eexists; split; [done|]; cbn; lia|].
    destruct (B4 pc) as (inst&?&Hi); [lia|]. exists inst. split; [done|]. eapply inst_ok_wider; [done|lia..].
Qed.

(** A piece that may be left out with all that follows. *)
Lemma code_optional a c e greedy R1 R2 : p_insts P !! a = Some (branch greedy (S a) e) → code (S a) c R1 → code c e R2 →
  code a e (λ i j, i = j ∨ then_ R1 R2 i j).
Proof.
  intros Ea HA HB. destruct (code_app _ _ _ _ _ HA HB) as [C1 C2 C3 C4]. split; [lia| | |].
  - intros i j Hb [<-|H].
    + split; [done|]. apply rtc_once. apply (edge_branch _ _ _ _ _ _ Ea). by right.
    + destruct (C2 i j Hb H) as [Hj Hr]. split; [done|]. eapply rtc_l; [apply (edge_branch _ _ _ _ _ _ Ea); by left|done].
  - intros k i y Hb Hk Hy. inversion Hk as [|k' ? z ? Hz Hk']; subst; [cbn in Hy; lia|]. apply (edge_branch _ _ _ _ _ _ Ea) in Hz as [->| ->].
    + destruct (C3 k' i y Hb Hk') as (j&m&HR&Hj&Hm&_&Hs); [lia|]. exists j, m. split_and!; [by right|done|lia|lia|done].
    + exists i, k'. split_and!; [by left|done|lia|lia|done].
  - intros pc Hpc. destruct (decide (pc = a)) as [->|]; [eexists; split; [done|]; apply branch_ok; lia|].
    destruct (C4 pc) as (inst&?&Hi); [lia|]. exists inst. split; [done|]. eapply inst_ok_wider; [done|lia..].
Qed.

Lemma repeated_snoc k (R : Span) i j l : repeated k R i j → R j l → repeated (S k) R i l.
Proof. revert i. induction k as [|k IH]; intros i H Hr; [cbn in H; subst j; exists l; by split|]. destruct H as (m&Hm&H). exists m. split; [done|]. by apply IH. Qed.

(** Round and round. *)
Lemma code_star a c greedy R : p_insts P !! a = Some (branch greedy (S a) (S c)) → code (S a) c R → p_insts P !! c = Some (IJump a) →
  code a (S c) (λ i j, ∃ k, repeated k R i j).
Proof.
  intros Ea [A1 A2 A3 A4] Ec. split; [lia| | |].
  - intros i j Hb (k&Hk). assert (bound text j ∧ rtc edge (a, i) (a, j)) as [Hj Hr].
    { revert i Hb Hk. induction k as [|k IH]; intros i Hb Hk; [cbn in Hk; by subst j|]. destruct Hk as (m&Hm&Hk). destruct (A2 i m Hb Hm) as [Hbm Hr].
      destruct (IH m Hbm Hk) as [Hj Hr']. split; [done|]. eapply rtc_l; [apply (edge_branch _ _ _ _ _ _ Ea); by left|]. etrans; [done|].
      eapply rtc_l; [by apply (edge_jump _ _ _ _ Ec)|done]. }
    split; [done|]. etrans; [done|]. apply rtc_once. apply (edge_branch _ _ _ _ _ _ Ea). by right.
  - intros k. induction (lt_wf k) as [k _ IH]. intros i y Hb Hk Hy. inversion Hk as [|k' ? z ? Hz Hk']; subst; [cbn in Hy; lia|].
    apply (edge_branch _ _ _ _ _ _ Ea) in Hz as [->| ->].
    + destruct (A3 k' i y Hb Hk') as (j&m&HR&Hj&Hm&_&Hs); [lia|]. inversion Hs as [|m' ? z ? Hz Hs']; subst; [cbn in Hy; lia|].
      apply (edge_jump _ _ _ _ Ec) in Hz as ->. destruct (IH m' ltac:(lia) j y Hj Hs' Hy) as (l&m2&(n&Hn)&Hl&Hm2&_&Hs2).
      exists l, m2. split_and!; [exists (S n); by exists j|done|lia|lia|done].
    + exists i, k'. split_and!; [by exists 0|done|lia|lia|done].
  - intros pc Hpc. destruct (decide (pc = a)) as [->|]; [eexists; split; [done|]; apply branch_ok; lia|].
    destruct (decide (pc < c)); [destruct (A4 pc) as (inst&?&Hi); [lia|]; exists inst; split; [done|]; eapply inst_ok_wider; [done|lia..]|].
    assert (pc = c) as -> by lia. eexists. split; [done|]. cbn. lia.
Qed.

Lemma code_plus a c greedy R : code a c R → p_insts P !! c = Some (branch greedy a (S c)) → code a (S c) (λ i j, ∃ k, 1 ≤ k ∧ repeated k R i j).
Proof.
  intros [A1 A2 A3 A4] Ec. split; [lia| | |].
  - intros i j Hb (k&Hge&Hk). destruct k as [|k]; [lia|]. clear Hge. assert (bound text j ∧ rtc edge (a, i) (c, j)) as [Hj Hr].
    { revert i Hb Hk. induction k as [|k IH]; intros i Hb Hk.
      - destruct Hk as (m&Hm&Hk). cbn in Hk. subst m. by apply A2.
      - destruct Hk as (m&Hm&Hk). destruct (A2 i m Hb Hm) as [Hbm Hr]. destruct (IH m Hbm Hk) as [Hj Hr']. split; [done|]. etrans; [done|].
        eapply rtc_l; [apply (edge_branch _ _ _ _ _ _ Ec); by left|done]. }
    split; [done|]. etrans; [done|]. apply rtc_once. apply (edge_branch _ _ _ _ _ _ Ec). by right.
  - intros k. induction (lt_wf k) as [k _ IH]. intros i y Hb Hk Hy. destruct (A3 k i y Hb Hk) as (j&m&HR&Hj&Hm&_&Hs); [lia|].
    inversion Hs as [|m' ? z ? Hz Hs']; subst; [cbn in Hy; lia|]. apply (edge_branch _ _ _ _ _ _ Ec) in Hz as [->| ->].
    + destruct (IH m' ltac:(lia) j y Hj Hs' Hy) as (l&m2&(n&Hge&Hn)&Hl&Hm2&_&Hs2). exists l, m2. split_and!; [exists (S n); split; [lia|by exists j]|done|lia|lia|done].
    + exists j, m'. split_and!; [exists 1; split; [done|by exists j]|done|lia|lia|done].
  - intros pc Hpc. destruct (decide (pc < c)); [destruct (A4 pc) as (inst&?&Hi); [lia|]; exists inst; split; [done|]; eapply inst_ok_wider; [done|lia..]|].
    assert (pc = c) as -> by lia. eexists. split; [done|]. apply branch_ok; lia.
Qed.
End code.

(** * Builders *)

Record extends (b b' : Builder) : Prop := {
  ex_insts : bu_insts b `prefix_of` bu_insts b';
  ex_sets : bu_sets b `prefix_of` bu_sets b';
  ex_looks : bu_looks b `prefix_of` bu_looks b';
  ex_word : bu_word b' = bu_word b }.

#[global] Instance extends_preorder : PreOrder extends.
Proof.
  split.
  - intros b. by split.
  - intros a b c [A1 A2 A3 A4] [B1 B2 B3 B4]. split; [by etrans..|congruence].
Qed.

Lemma extends_here b b' : extends b b' → here b ≤ here b'.
Proof. intros [H _ _ _]. by apply prefix_length. Qed.

Lemma extends_lookup b b' pc inst : extends b b' → bu_insts b !! pc = Some inst → bu_insts b' !! pc = Some inst.
Proof. intros [H _ _ _] E. by eapply prefix_lookup_Some. Qed.

Lemma extends_below b b' pc : extends b b' → pc < here b → bu_insts b' !! pc = bu_insts b !! pc.
Proof. intros H Hpc. destruct (lookup_lt_is_Some_2 (bu_insts b) pc Hpc) as [inst E]. rewrite E. by eapply extends_lookup. Qed.

Lemma prefix_insert {A} (l l' : list A) k x : l `prefix_of` l' → length l ≤ k → l `prefix_of` <[k := x]> l'.
Proof. intros [t ->] Hk. rewrite insert_app_r_alt by done. by exists (<[k - length l := x]> t). Qed.

Lemma extends_patch b b' k inst : extends b b' → here b ≤ k → extends b (patch k inst b').
Proof. intros [H1 H2 H3 H4] Hk. split; cbn; [by apply prefix_insert|done..]. Qed.

Lemma here_patch k inst b : here (patch k inst b) = here b.
Proof. apply length_insert. Qed.

Lemma patch_at k inst b : k < here b → bu_insts (patch k inst b) !! k = Some inst.
Proof. apply list_lookup_insert_eq. Qed.

Lemma patch_other k inst b pc : pc ≠ k → bu_insts (patch k inst b) !! pc = bu_insts b !! pc.
Proof. intros Hne. by apply list_lookup_insert_ne. Qed.

Lemma push_Ok inst b at_ b' : Builder_push inst b = Ok (at_, b') → at_ = here b ∧ b' = with_insts (bu_insts b ++ [inst]) b.
Proof. unfold Builder_push. case_match; [done|]. by intros [= <- <-]. Qed.

Lemma push_extends inst b : extends b (with_insts (bu_insts b ++ [inst]) b).
Proof. split; cbn; [by eexists|done..]. Qed.

Lemma push_here inst b : here (with_insts (bu_insts b ++ [inst]) b) = S (here b).
Proof. unfold here. cbn. rewrite length_app. cbn. lia. Qed.

Lemma push_at inst b : bu_insts (with_insts (bu_insts b ++ [inst]) b) !! here b = Some inst.
Proof. unfold here. cbn. by rewrite lookup_app_r, Nat.sub_diag. Qed.

Lemma bind_Ok {A B} (r : Result A) (f : A → Result B) y : (r ≫= f) = Ok y → ∃ x, r = Ok x ∧ f x = Ok y.
Proof. destruct r; [|done]. eauto. Qed.

(** * Emitters *)

Section emitters.
Context (text : Text) (word : option CharSet).

(** A program that holds what a builder holds between two places. *)
Record agrees (P : Program) (b : Builder) (lo hi : nat) : Prop := {
  ag_insts : ∀ pc, lo ≤ pc < hi → p_insts P !! pc = bu_insts b !! pc;
  ag_sets : bu_sets b `prefix_of` p_sets P;
  ag_looks : bu_looks b `prefix_of` p_looks P;
  ag_word : p_word P = word }.

Record emits (E : Emit) (R : Span) : Prop := {
  em_extends : ∀ b b', E b = Ok b' → extends b b';
  em_code : ∀ b b' P, E b = Ok b' → bu_word b = word → agrees P b' (here b) (here b') → code text P (here b) (here b') R }.

Lemma agrees_back P b b' lo hi lo' hi' : agrees P b' lo hi → extends b b' → lo ≤ lo' → hi' ≤ hi → hi' ≤ here b → agrees P b lo' hi'.
Proof.
  intros [H1 H2 H3 H4] Hx Hl Hh Hb. split; [|by etrans; [apply Hx|]..|done].
  intros pc Hpc. rewrite H1 by lia. apply extends_below; [done|lia].
Qed.

Lemma emits_iff E R R' : emits E R → (∀ i j, bound text i → R i j ↔ R' i j) → emits E R'.
Proof. intros [H1 H2] HR. split; [done|]. intros b b' P He Hw Ha. eapply code_iff; [by apply H2|done]. Qed.

Lemma emits_none : emits Ok eq.
Proof. split; [by intros b b' [= <-]|]. intros b b' P [= <-] _ _. apply code_none. Qed.

Lemma emits_then E1 E2 R1 R2 : emits E1 R1 → emits E2 R2 → emits (λ b, b ← E1 b; E2 b) (then_ R1 R2).
Proof.
  intros [A1 A2] [B1 B2]. split.
  - intros b b' (b1&E&E')%bind_Ok. etrans; [by eapply A1|by eapply B1].
  - intros b b' P (b1&E&E')%bind_Ok Hw Ha. pose proof (A1 _ _ E) as X1. pose proof (B1 _ _ E') as X2. pose proof (extends_here _ _ X1). pose proof (extends_here _ _ X2).
    eapply code_app; [eapply A2|eapply B2]; try done.
    + eapply agrees_back; done.
    + by rewrite (ex_word _ _ X1).
    + eapply agrees_back; [done|done|lia..].
Qed.

Lemma emits_sequence Es Rs : Forall2 emits Es Rs → emits (sequence Es) (in_sequence Rs).
Proof. induction 1 as [|E R Es Rs H _ IH]; [apply emits_none|]. cbn [sequence in_sequence]. by apply emits_then. Qed.

Lemma emits_times n E R : emits E R → emits (times n E) (repeated n R).
Proof. intros H. induction n as [|n IH]; [apply emits_none|]. cbn [times repeated]. by apply emits_then. Qed.

(** * Instructions *)

(** What an instruction does where it stands in a program. *)
Definition does (P : Program) (a : nat) (inst : Inst) (R : Span) : Prop :=
  inst_ok text P a (S a) a inst ∧
  ∀ i, bound text i → (∀ y, edge (look P text) P text None (a, i) y ↔ ∃ j, R i j ∧ y = (S a, j)) ∧ ∀ j, R i j → bound text j.

Lemma push_grows inst b : ∀ b', push inst b = Ok b' → b' = with_insts (bu_insts b ++ [inst]) b.
Proof. intros b' ([at_ b1]&E&[= <-])%bind_Ok. by apply push_Ok in E as [_ ->]. Qed.

Lemma push_code inst b b' P R : push inst b = Ok b' → agrees P b' (here b) (here b') →
  (p_insts P !! here b = Some inst → does P (here b) inst R) → code text P (here b) (here b') R.
Proof.
  intros ->%push_grows Ha H. rewrite push_here in *.
  assert (p_insts P !! here b = Some inst) as Ei by (rewrite (ag_insts _ _ _ _ Ha) by lia; apply push_at).
  destruct (H Ei) as [Hok Hr]. eapply code_one; [done..| |]; intros i ? Hb; by apply Hr.
Qed.

Lemma emits_push inst R : (∀ P a, p_word P = word → p_insts P !! a = Some inst → does P a inst R) → emits (push inst) R.
Proof.
  intros H. split.
  - intros b b' ->%push_grows. apply push_extends.
  - intros b b' P E Hw Ha. eapply push_code; [done..|]. apply H, Ha.
Qed.

(** An instruction that reads a character. *)
Lemma edge_reader P a inst i y : p_insts P !! a = Some inst → is_reader inst = true →
  edge (look P text) P text None (a, i) y ↔ ∃ ch, char_at text i = Some ch ∧ takes P inst ch = true ∧ y = (S a, i + len_utf8 ch).
Proof.
  intros E Hr. assert (RegexDfs.next (look P text) P text None a i []
    = match char_at text i with Some ch => if takes P inst ch then [(S a, i + len_utf8 ch, [])] else [] | None => [] end) as En.
  { unfold RegexDfs.next. rewrite E, chr_None. by destruct inst. }
  unfold RegexMatch.edge. cbn [fst snd]. rewrite En. split.
  - intros (z&Hz&<-). destruct (char_at text i) as [ch|]; [|by apply elem_of_nil in Hz]. destruct (takes P inst ch) eqn:Et; [|by apply elem_of_nil in Hz].
    apply list_elem_of_singleton in Hz as ->. eauto.
  - intros (ch&->&->&->). exists (S a, i + len_utf8 ch, []). split; [by apply list_elem_of_singleton|done].
Qed.

Lemma does_read P a inst (ok : Z → Prop) : p_insts P !! a = Some inst → is_reader inst = true → inst_ok text P a (S a) a inst →
  (∀ i ch, bound text i → char_at text i = Some ch → takes P inst ch = true ↔ ok ch) → does P a inst (λ i j, ∃ ch, char_at text i = Some ch ∧ ok ch ∧ j = i + len_utf8 ch).
Proof.
  intros Ei Hr Hok Ht. split; [done|]. intros i Hb. split.
  - intros y. rewrite (edge_reader _ _ _ _ _ Ei Hr). split.
    + intros (ch&Hc&Hk&->). eexists. split; [|done]. exists ch. split_and!; [done|by eapply Ht|done].
    + intros (j&(ch&Hc&Hk&->)&->). exists ch. split_and!; [done|by eapply Ht|done].
  - intros j (ch&Hc&_&->). by apply bound_next.
Qed.

(** An instruction that asks whether something holds here. *)
Lemma does_test P a inst (ok : nat → Prop) : inst_ok text P a (S a) a inst →
  (∀ i y, bound text i → edge (look P text) P text None (a, i) y ↔ ok i ∧ y = (S a, i)) → does P a inst (λ i j, i = j ∧ ok i).
Proof.
  intros Hok He. split; [done|]. intros i Hb. split; [|by intros j [<- _]]. intros y. rewrite He by done. naive_solver.
Qed.

Lemma edge_if P a (held : bool) i y : RegexDfs.next (look P text) P text None a i [] = (if held then [(S a, i, [])] else []) →
  edge (look P text) P text None (a, i) y ↔ held = true ∧ y = (S a, i).
Proof.
  intros E. unfold RegexMatch.edge. cbn [fst snd]. rewrite E. split.
  - intros (z&Hz&<-). destruct held; [|by apply elem_of_nil in Hz]. by apply list_elem_of_singleton in Hz as ->.
  - intros [-> ->]. exists (S a, i, []). split; [by apply list_elem_of_singleton|done].
Qed.

Lemma default_true (o : option bool) : default false o = true ↔ o = Some true.
Proof. destruct o as [[]|]; naive_solver. Qed.

Lemma emits_literal ch : is_char ch = true → emits (push (IChar ch)) (λ i j, char_at text i = Some ch ∧ j = i + len_utf8 ch).
Proof.
  intros Hc. apply (emits_iff _ (λ i j, ∃ c, char_at text i = Some c ∧ c = ch ∧ j = i + len_utf8 c)); [|naive_solver].
  apply emits_push. intros P a _ Ei. apply does_read; [done..|]. intros i c _ _. unfold takes. cbn [reads]. rewrite bool_decide_eq_true. naive_solver.
Qed.

Lemma emits_any newline : emits (push (IAny newline)) (λ i j, ∃ ch, char_at text i = Some ch ∧ (newline = true ∨ ch ≠ 10%Z) ∧ j = i + len_utf8 ch).
Proof.
  apply emits_push. intros P a _ Ei. apply does_read; [done..|]. intros i c _ _. unfold takes. cbn [reads]. rewrite orb_true_iff, negb_true_iff, Z.eqb_neq. done.
Qed.

Lemma emits_assert assertion : emits (push (IAssert assertion)) (λ i j, i = j ∧ holds word assertion text i = Some true).
Proof.
  apply emits_push. intros P a Hw Ei. apply does_test; [done|]. intros i y _. rewrite <-default_true, <-Hw. apply edge_if. unfold RegexDfs.next. by rewrite Ei.
Qed.

Lemma emits_save slot : 2 ≤ slot → emits (push (ISave slot)) eq.
Proof.
  intros Hs. apply (emits_iff _ (λ i j, i = j ∧ True)); [|naive_solver]. apply emits_push. intros P a _ Ei. apply does_test; [done|].
  intros i y _. unfold RegexMatch.edge, RegexDfs.next. cbn [fst snd]. rewrite Ei. split.
  - by intros (z&->%list_elem_of_singleton&<-).
  - intros [_ ->]. eexists. split; [by apply list_elem_of_singleton|done].
Qed.

Context (Htext : text_ok text).

Lemma char_ok i ch : bound text i → char_at text i = Some ch → is_char ch = true.
Proof. intros Hb Hc. unfold text_ok in Htext. rewrite Forall_forall in Htext. apply Htext. by eapply char_at_elem. Qed.

Lemma emits_class class : forallb (λ r, (0 <=? r.1)%Z && (r.1 <=? r.2)%Z) (cl_ranges class) = true → emits (emit (Class_ class)) (means text word (Class_ class)).
Proof.
  intros Hc. cbn [emit means bu_sets]. split.
  - intros b b' ->%push_grows. split; cbn; [by eexists|by eexists|done..].
  - intros b b' P E Hw Ha. eapply (push_code _ (mkBuilder _ _ _ _)); [done..|]. intros Ei.
    assert (p_sets P !! (length (bu_sets b ++ [Set_new class]) - 1) = Some (Set_new class)) as Es.
    { eapply prefix_lookup_Some; [|apply (ag_sets _ _ _ _ Ha)]. rewrite (push_grows _ _ _ E). cbn. rewrite length_app. cbn. rewrite Nat.add_sub. by rewrite lookup_app_r, Nat.sub_diag. }
    apply does_read; [done..|cbn; by apply lookup_lt_Some in Es|]. intros i ch Hb Hch. unfold takes. cbn [reads]. rewrite Es, some_bind. rewrite Set_new_class; [done..|by eapply char_ok].
Qed.

(** * Repetitions *)

Lemma emits_star E R greedy : emits E R → emits (star E greedy) (λ i j, ∃ k, repeated k R i j).
Proof.
  intros [A1 A2]. unfold star.
  assert (∀ b b', star E greedy b = Ok b' → ∃ b1, E (with_insts (bu_insts b ++ [ISplit 0 0]) b) = Ok b1 ∧ extends b b1 ∧ S (here b) ≤ here b1
    ∧ b' = patch (here b) (branch greedy (S (here b)) (S (here b1))) (with_insts (bu_insts b1 ++ [IJump (here b)]) b1)) as Hs.
  { intros b b' ([split b0]&E0&H)%bind_Ok. apply push_Ok in E0 as [-> ->]. apply bind_Ok in H as (b1&E1&H). apply bind_Ok in H as ([j b2]&E2&[= <-]).
    apply push_Ok in E2 as [-> ->]. exists b1. pose proof (A1 _ _ E1) as X. pose proof (extends_here _ _ X) as Hh. rewrite !push_here in *.
    split_and!; [done| |done|done]. etrans; [apply push_extends|done]. }
  split.
  - intros b b' (b1&E1&X&Hh&->)%Hs. apply extends_patch; [|done]. etrans; [done|apply push_extends].
  - intros b b' P (b1&E1&X&Hh&->)%Hs Hw [G1 G2 G3 G4]. rewrite here_patch, push_here in *. eapply code_star.
    + rewrite G1 by lia. apply patch_at. rewrite push_here. lia.
    + rewrite <-(push_here (ISplit 0 0) b). eapply A2; [done|done|]. split; [|done..]. intros pc Hpc. rewrite push_here in Hpc. rewrite G1 by lia. rewrite patch_other by lia.
      apply extends_below; [apply push_extends|lia].
    + rewrite G1 by lia. rewrite patch_other by lia. apply push_at.
Qed.

Lemma emits_plus E R greedy : emits E R → emits (plus E greedy) (λ i j, ∃ k, 1 ≤ k ∧ repeated k R i j).
Proof.
  intros [A1 A2]. assert (∀ b b', plus E greedy b = Ok b' → ∃ b1, E b = Ok b1 ∧ extends b b1 ∧ here b ≤ here b1
    ∧ b' = patch (here b1) (branch greedy (here b) (S (here b1))) (with_insts (bu_insts b1 ++ [ISplit 0 0]) b1)) as Hs.
  { intros b b' (b1&E1&H)%bind_Ok. apply bind_Ok in H as ([j b2]&E2&[= <-]). apply push_Ok in E2 as [-> ->]. exists b1.
    pose proof (A1 _ _ E1) as X. pose proof (extends_here _ _ X). rewrite push_here. done. }
  split.
  - intros b b' (b1&E1&X&Hh&->)%Hs. apply extends_patch; [|done]. etrans; [done|apply push_extends].
  - intros b b' P (b1&E1&X&Hh&->)%Hs Hw [G1 G2 G3 G4]. rewrite here_patch, push_here in *. eapply code_plus.
    + eapply A2; [done|done|]. split; [|done..]. intros pc Hpc. rewrite G1 by lia. rewrite patch_other by lia. apply extends_below; [apply push_extends|lia].
    + rewrite G1 by lia. apply patch_at. rewrite push_here. lia.
Qed.

(** Instructions patched once the end is known. *)
Definition patched (P : Program) (b : Builder) (lo hi : nat) (at_ : list nat) (G : nat → Inst) : Prop :=
  (∀ pc, lo ≤ pc < hi → p_insts P !! pc = if decide (pc ∈ at_) then Some (G pc) else bu_insts b !! pc)
  ∧ bu_sets b `prefix_of` p_sets P ∧ bu_looks b `prefix_of` p_looks P ∧ p_word P = word.

Lemma foldl_patch {A} (f : A → nat) (g : A → Inst) (G : nat → Inst) l : ∀ b, (∀ x, x ∈ l → f x < here b ∧ g x = G (f x)) →
  let b' := foldl (λ b x, patch (f x) (g x) b) b l in
  here b' = here b ∧ bu_sets b' = bu_sets b ∧ bu_looks b' = bu_looks b ∧ bu_word b' = bu_word b
  ∧ ∀ pc, bu_insts b' !! pc = if decide (pc ∈ f <$> l) then Some (G pc) else bu_insts b !! pc.
Proof.
  induction l as [|x l IH]; intros b Hl; [done|]. cbn [foldl]. destruct (Hl x) as [Hx Hg]; [by left|].
  destruct (IH (patch (f x) (g x) b)) as (H1&H2&H3&H4&H5).
  { intros y Hy. rewrite here_patch. apply Hl. by right. }
  cbv zeta in *. rewrite here_patch in H1. split_and!; [done..|]. intros pc. rewrite H5. cbn [fmap list_fmap].
  destruct (decide (pc ∈ f <$> l)) as [Hl'|Hl'].
  { by rewrite decide_True by by right. }
  destruct (decide (pc = f x)) as [->|Hne].
  - rewrite decide_True by by left. rewrite patch_at by done. by rewrite Hg.
  - rewrite decide_False by by intros [?|?]%elem_of_cons. by apply patch_other.
Qed.

Lemma foldl_patch_extends {A} (f : A → nat) (g : A → Inst) l b0 : ∀ b, extends b0 b → (∀ x, x ∈ l → here b0 ≤ f x) → extends b0 (foldl (λ b x, patch (f x) (g x) b) b l).
Proof. induction l as [|x l IH]; intros b Hb Hl; [done|]. cbn [foldl]. apply IH; [|by intros y Hy; apply Hl; right]. apply extends_patch; [done|]. apply Hl. by left. Qed.

Lemma patched_agrees {A} (f : A → nat) (g : A → Inst) (G : nat → Inst) P b l lo hi : (∀ x, x ∈ l → f x < here b ∧ g x = G (f x)) →
  agrees P (foldl (λ b x, patch (f x) (g x) b) b l) lo hi → patched P b lo hi (f <$> l) G.
Proof.
  intros Hl [G1 G2 G3 G4]. destruct (foldl_patch f g G l b Hl) as (H1&H2&H3&H4&H5). cbv zeta in *. split_and!; [|congruence..].
  intros pc Hpc. by rewrite G1, H5.
Qed.

Definition at_most (n : nat) (R : Span) : Span := λ i j, ∃ k, k ≤ n ∧ repeated k R i j.

Lemma at_most_S n R i j : at_most (S n) R i j ↔ i = j ∨ then_ R (at_most n R) i j.
Proof.
  split.
  - intros (k&Hk&H). destruct k as [|k]; [by left|]. destruct H as (m&Hm&H). right. exists m. split; [done|]. exists k. split; [lia|done].
  - intros [->|(m&Hm&k&Hk&H)]; [exists 0; split; [lia|done]|]. exists (S k). split; [lia|]. by exists m.
Qed.

Lemma optional_loop_ok E R n : emits E R → ∀ splits b splits' b', optional_loop n E splits b = Ok (splits', b') →
  ∃ new, splits' = splits ++ new ∧ extends b b' ∧ (∀ s, s ∈ new → here b ≤ s.1 < here b' ∧ s.2 = S s.1)
  ∧ ∀ P greedy, bu_word b = word → patched P b' (here b) (here b') (fst <$> new) (λ pc, branch greedy (S pc) (here b')) →
    code text P (here b) (here b') (at_most n R).
Proof.
  intros [A1 A2]. induction n as [|n IH]; intros splits b splits' b' H; cbn [optional_loop] in H.
  { injection H as <- <-. exists []. split_and!; [by rewrite app_nil_r|done|by intros s ?%elem_of_nil|]. intros P greedy _ _. eapply code_iff; [apply code_none|].
    intros i j _. split; [intros <-; by exists 0|]. intros (k&Hk&Hr). by assert (k = 0) as -> by lia. }
  apply bind_Ok in H as ([split b1]&E1&H). apply push_Ok in E1 as [-> E1]. apply bind_Ok in H as (b2&E2&H). apply IH in H as (new&->&X3&Hnew&Hcode).
  pose proof (A1 _ _ E2) as X2. assert (here b1 = S (here b)) as Eh by (subst b1; apply push_here). assert (extends b b1) as X1 by (subst b1; apply push_extends).
  pose proof (extends_here _ _ X2) as H2. pose proof (extends_here _ _ X3) as H3. exists ((here b, here b1) :: new). split_and!.
  - by rewrite <-(assoc_L app).
  - etrans; [done|]. by etrans.
  - intros s [->|Hs]%elem_of_cons; cbn; [lia|]. destruct (Hnew s Hs). lia.
  - intros P greedy Hw (G1&G2&G3&G4). cbn [fmap list_fmap fst] in G1.
    assert (∀ pc, pc ∈ fst <$> new → here b2 ≤ pc < here b') as Hin by (intros pc (s&->&Hs)%list_elem_of_fmap; by apply Hnew).
    eapply code_iff; [|intros i j _; symmetry; apply at_most_S]. eapply code_optional.
    + rewrite G1 by lia. rewrite decide_True by by left. done.
    + rewrite <-Eh. eapply A2; [done|by rewrite (ex_word _ _ X1)|]. split; [|by etrans; [apply X3|]..|done].
      intros pc Hpc. rewrite G1 by lia. rewrite decide_False; [apply extends_below; [done|lia]|]. intros [->|Hi%Hin]%elem_of_cons; lia.
    + apply (Hcode P greedy); [by rewrite (ex_word _ _ X2), (ex_word _ _ X1)|]. split_and!; [|done..]. intros pc Hpc. rewrite G1 by lia.
      destruct (decide (pc ∈ fst <$> new)) as [Hi|Hi]; [by rewrite decide_True by by right|]. rewrite decide_False; [done|]. intros [->|?]%elem_of_cons; [lia|done].
Qed.

Lemma emits_optional E R n greedy : emits E R →
  emits (λ b, '(splits, b) ← optional_loop n E [] b; Ok (foldl (λ b' s, patch s.1 (branch greedy s.2 (here b)) b') b splits)) (at_most n R).
Proof.
  intros HE. split.
  - intros b b' ([splits b1]&H&[= <-])%bind_Ok. apply (optional_loop_ok E R n HE) in H as (new&->&X&Hnew&_).
    apply (foldl_patch_extends fst (λ s, branch greedy s.2 (here b1))); [done|]. intros s Hs. by apply Hnew.
  - intros b b' P ([splits b1]&H&[= <-])%bind_Ok Hw Ha. apply (optional_loop_ok E R n HE) in H as (new&->&X&Hnew&Hcode). cbn [app] in *.
    assert (∀ s, s ∈ new → s.1 < here b1 ∧ branch greedy s.2 (here b1) = branch greedy (S s.1) (here b1)) as Hl.
    { intros s Hs. destruct (Hnew s Hs) as [? ->]. split; [lia|done]. }
    destruct (foldl_patch fst (λ s, branch greedy s.2 (here b1)) (λ pc, branch greedy (S pc) (here b1)) new b1 Hl) as (E1&_). cbv zeta in E1. rewrite E1 in *.
    apply (Hcode P greedy Hw). by apply (patched_agrees fst (λ s, branch greedy s.2 (here b1))).
Qed.

Lemma repeated_app m n R i j : repeated (m + n) R i j ↔ then_ (repeated m R) (repeated n R) i j.
Proof.
  revert i. induction m as [|m IH]; intros i; cbn [Nat.add repeated].
  - split; [intros H; by exists i|by intros (k&<-&H)].
  - split.
    + intros (k&Hk&(l&Hl&H)%IH). exists l. split; [by exists k|done].
    + intros (l&(k&Hk&Hl)&H). exists k. split; [done|]. apply IH. by exists l.
Qed.

Lemma emits_repeat E R least most greedy : emits E R → (∀ m, most = Some m → least ≤ m) →
  emits (repeat E least most greedy) (λ i j, ∃ k, least ≤ k ∧ (∀ m, most = Some m → k ≤ m) ∧ repeated k R i j).
Proof.
  intros HE Hm. unfold repeat. destruct most as [most|].
  - eapply emits_iff; [apply emits_then; [by apply emits_times|by apply emits_optional]|]. intros i j _. specialize (Hm most eq_refl). split.
    + intros (l&H1&k&Hk&H2). exists (least + k). split_and!; [lia|intros m [= <-]; lia|]. apply repeated_app. by exists l.
    + intros (k&Hge&Hle&H). specialize (Hle most eq_refl). replace k with (least + (k - least)) in H by lia. apply repeated_app in H as (l&H1&H2).
      exists l. split; [done|]. exists (k - least). split; [lia|done].
  - destruct (Nat.eqb_spec least 0) as [->|Hne].
    + eapply emits_iff; [apply emits_then; [by apply (emits_times (0 - 1))|by apply emits_star]|]. intros i j _. split.
      * intros (l&<-&k&H). exists k. split_and!; [lia|done|done].
      * intros (k&_&_&H). exists i. split; [done|]. by exists k.
    + eapply emits_iff; [apply emits_then; [by apply (emits_times (least - 1))|by apply emits_plus]|]. intros i j _. split.
      * intros (l&H1&k&Hk&H2). exists (least - 1 + k). split_and!; [lia|done|]. apply repeated_app. by exists l.
      * intros (k&Hk&_&H). replace k with (least - 1 + (k - (least - 1))) in H by lia. apply repeated_app in H as (l&H1&H2). exists l. split; [done|].
        exists (k - (least - 1)). split; [lia|done].
Qed.

(** * Alternatives *)

Lemma alternate_loop_ok Es Rs : Forall2 emits Es Rs → Es ≠ [] → ∀ jumps b jumps' b', alternate_loop Es jumps b = Ok (jumps', b') →
  ∃ new, jumps' = jumps ++ new ∧ extends b b' ∧ (∀ s, s ∈ new → here b ≤ s < here b')
  ∧ ∀ P, bu_word b = word → patched P b' (here b) (here b') new (λ _, IJump (here b')) → code text P (here b) (here b') (λ i j, Exists (λ R : Span, R i j) Rs).
Proof.
  induction 1 as [|E R Es Rs [A1 A2] HEs IH]; intros Hne jumps b jumps' b' H; [done|]. clear Hne. destruct HEs as [|E' R' Es Rs HE' HEs].
  { cbn [alternate_loop] in H. apply bind_Ok in H as (b1&E1&[= <- <-]). pose proof (A1 _ _ E1) as X. exists []. split_and!; [by rewrite app_nil_r|done|by intros s ?%elem_of_nil|].
    intros P Hw (G1&G2&G3&G4). apply (code_iff _ _ _ _ R); [|intros i j _; rewrite Exists_cons, Exists_nil; tauto]. eapply A2; [done|done|]. split; [|done..].
    intros pc Hpc. rewrite G1 by done. by rewrite decide_False by apply not_elem_of_nil. }
  cbn [alternate_loop] in H. apply bind_Ok in H as ([split b1]&E1&H). apply push_Ok in E1 as [-> E1]. apply bind_Ok in H as (b2&E2&H).
  apply bind_Ok in H as ([jump b3]&E3&H). apply push_Ok in E3 as [-> E3]. apply (IH ltac:(done)) in H as (new&->&X5&Hnew&Hcode). clear IH. rewrite here_patch in *.
  pose proof (A1 _ _ E2) as X2. assert (here b1 = S (here b)) as Eh by (subst b1; apply push_here). assert (extends b b1) as X1 by (subst b1; apply push_extends).
  assert (here b3 = S (here b2)) as Eh3 by (subst b3; apply push_here). assert (extends b2 b3) as X3 by (subst b3; apply push_extends).
  pose proof (extends_here _ _ X2) as H2. pose proof (extends_here _ _ X5) as H5. rewrite here_patch in H5. exists (here b2 :: new). split_and!.
  - by rewrite <-(assoc_L app).
  - etrans; [|exact X5]. apply extends_patch; [|done]. etrans; [done|]. by etrans.
  - intros s [->|Hs]%elem_of_cons; [lia|]. specialize (Hnew s Hs). lia.
  - intros P Hw (G1&G2&G3&G4).
    assert (∀ pc, here b ≤ pc < here b3 → pc ≠ here b2 → p_insts P !! pc = bu_insts (patch (here b) (ISplit (here b1) (here b3)) b3) !! pc) as Hp.
    { intros pc Hpc Hne. rewrite G1 by lia. rewrite decide_False by (intros [?|Hi%Hnew]%elem_of_cons; lia). apply extends_below; [done|]. rewrite here_patch. lia. }
    apply (code_iff _ _ _ _ (λ i j, R i j ∨ Exists (λ R : Span, R i j) (R' :: Rs))); [|intros i j _; by rewrite (Exists_cons _ R)].
    assert (bu_sets b2 `prefix_of` p_sets P ∧ bu_looks b2 `prefix_of` p_looks P) as [Hs Hk].
    { split; (etrans; [|done]); [trans (bu_sets b3); [apply X3|exact (ex_sets _ _ X5)]|trans (bu_looks b3); [apply X3|exact (ex_looks _ _ X5)]]. }
    eapply (code_choice _ _ _ (here b2)).
    + rewrite Hp by lia. rewrite patch_at by lia. by rewrite Eh, Eh3.
    + rewrite <-Eh. eapply A2; [done|by rewrite (ex_word _ _ X1)|]. split; [|done..].
      intros pc Hpc. rewrite Hp by lia. rewrite patch_other by lia. apply extends_below; [done|lia].
    + rewrite G1 by lia. rewrite decide_True by by left. done.
    + rewrite <-Eh3. apply Hcode; [cbn; by rewrite (ex_word _ _ X3), (ex_word _ _ X2), (ex_word _ _ X1)|]. split_and!; [|done..]. intros pc Hpc. rewrite G1 by lia.
      destruct (decide (pc ∈ new)) as [Hi|Hi]; [by rewrite decide_True by by right|]. rewrite decide_False; [done|]. intros [->|?]%elem_of_cons; [lia|done].
Qed.

Lemma emits_alternate Es Rs : Forall2 emits Es Rs → Es ≠ [] → emits (alternate Es) (λ i j, Exists (λ R : Span, R i j) Rs).
Proof.
  intros HE Hne. unfold alternate. split.
  - intros b b' ([jumps b1]&H&[= <-])%bind_Ok. apply (alternate_loop_ok _ _ HE Hne) in H as (new&->&X&Hnew&_).
    apply (foldl_patch_extends id (λ _, IJump (here b1))); [done|]. intros s Hs. by apply Hnew.
  - intros b b' P ([jumps b1]&H&[= <-])%bind_Ok Hw Ha. apply (alternate_loop_ok _ _ HE Hne) in H as (new&->&X&Hnew&Hcode). cbn [app] in *.
    assert (∀ s, s ∈ new → id s < here b1 ∧ IJump (here b1) = IJump (here b1)) as Hl by (intros s Hs; destruct (Hnew s Hs); done).
    destruct (foldl_patch id (λ _, IJump (here b1)) (λ _, IJump (here b1)) new b1 Hl) as (E1&_). cbv zeta in E1. unfold id in E1. rewrite E1 in *.
    apply (Hcode P Hw). rewrite <-(list_fmap_id new). by apply (patched_agrees id (λ _, IJump (here b1))).
Qed.
End emitters.
