(* ===== verification/RegexProgram.v ===== *)
(** A whole program: ready for the machines, with a match from a position exactly where its tree
    has one. *)

From S2P Require Import Prelude Regex RegexRun RegexDfs RegexPike RegexBack RegexFirst RegexAgree RegexMatch RegexCompile.
Local Open Scope nat_scope.

(** The code of a tree between the saves of the whole match. *)
Record program_for (text : Text) (P : Program) (m : nat) (R : Span) : Prop := {
  pf_entry : p_insts P !! 0 = Some (ISave 0);
  pf_code : code text P 1 m R;
  pf_save : p_insts P !! m = Some (ISave 1);
  pf_match : p_insts P !! S m = Some IMatch;
  pf_length : length (p_insts P) = S (S m);
  pf_first : fi_any (p_first P) = true ∨ fi_any (p_first P) = false ∧ ∃ seen, filters (p_insts P) (p_sets P) (p_first P) seen;
  pf_anchored : p_anchored P = true → ∀ i j, bound text i → R i j → i = 0 }.

Section program.
Context (text : Text) (P : Program) (m : nat) (R : Span) (HP : program_for text P m R).

Lemma program_inst pc inst : p_insts P !! pc = Some inst →
  pc = 0 ∧ inst = ISave 0 ∨ 1 ≤ pc < m ∧ inst_ok text P 1 m pc inst ∨ pc = m ∧ inst = ISave 1 ∨ pc = S m ∧ inst = IMatch.
Proof.
  intros E. pose proof (lookup_lt_Some _ _ _ E) as Hl. rewrite (pf_length _ _ _ _ HP) in Hl. pose proof (co_le _ _ _ _ _ (pf_code _ _ _ _ HP)).
  destruct (decide (pc = 0)) as [->|]; [left; rewrite (pf_entry _ _ _ _ HP) in E; by simplify_eq|].
  destruct (decide (pc < m)); [|destruct (decide (pc = m)) as [->|]].
  - right; left. split; [lia|]. destruct (co_inst _ _ _ _ _ (pf_code _ _ _ _ HP) pc) as (inst'&E'&Hok); [lia|]. rewrite E in E'. by simplify_eq.
  - right; right; left. rewrite (pf_save _ _ _ _ HP) in E. by simplify_eq.
  - right; right; right. assert (pc = S m) as -> by lia. rewrite (pf_match _ _ _ _ HP) in E. by simplify_eq.
Qed.

Lemma program_ready : ready (look P text) P text.
Proof.
  pose proof (pf_length _ _ _ _ HP) as Hl. split; [lia|]. pose proof (co_le _ _ _ _ _ (pf_code _ _ _ _ HP)).
  intros pc inst E. destruct (program_inst pc inst E) as [[-> ->]|[[Hpc Hok]|[[-> ->]|[-> ->]]]]; cbn [leads]; [lia| |lia|done].
  destruct inst; cbn [inst_ok leads] in *; try done; try lia; (split; [lia|done]).
Qed.

Abbreviation edge := (edge (look P text) P text).
Abbreviation explore := (explore (look P text) P text).
Abbreviation attempts := (attempts (look P text) P text).
Abbreviation fresh at_ := (put_slot 0 at_ (replicate (2 * (p_groups P + 1)) None)).

Lemma edge_save end_ pc slot i y : p_insts P !! pc = Some (ISave slot) → edge end_ (pc, i) y ↔ y = (S pc, i).
Proof.
  intros E. unfold RegexMatch.edge, RegexDfs.next. cbn [fst snd]. rewrite E. split.
  - by intros (z&->%list_elem_of_singleton&<-).
  - intros ->. eexists. split; [by apply list_elem_of_singleton|done].
Qed.

Lemma match_accepts end_ pc j : accepts P end_ pc j = true ↔ pc = S m ∧ ends end_ j = true.
Proof.
  unfold accepts. split.
  - destruct (p_insts P !! pc) as [inst|] eqn:E; [|done]. destruct (program_inst pc inst E) as [[-> ->]|[[Hpc Hok]|[[-> ->]|[-> ->]]]]; try done.
    by destruct inst.
  - intros [-> He]. by rewrite (pf_match _ _ _ _ HP).
Qed.

(** Paths from the entry to the match are the tree's matches. *)
Lemma paths_match i j : bound text i → rtc (edge None) (0, i) (S m, j) ↔ R i j.
Proof.
  intros Hb. pose proof (pf_code _ _ _ _ HP) as Hc. pose proof (co_le _ _ _ _ _ Hc). split.
  - intros Hr. inversion Hr as [|? z ? Hz Hr']; subst. apply (edge_save _ _ _ _ _ (pf_entry _ _ _ _ HP)) in Hz as ->.
    apply rtc_nsteps_1 in Hr' as (k&Hk). destruct (co_exits _ _ _ _ _ Hc k i _ Hb Hk) as (j'&m'&HR&_&_&_&Hs); [cbn; lia|].
    inversion Hs as [|k2 ? z ? Hz Hs2]; subst; [lia|]. apply (edge_save _ _ _ _ _ (pf_save _ _ _ _ HP)) in Hz as ->.
    inversion Hs2 as [|k3 ? z ? Hz Hs3]; subst; [done|]. destruct Hz as (w&Hw&_). unfold RegexDfs.next in Hw. cbn [fst] in Hw. rewrite (pf_match _ _ _ _ HP) in Hw. by apply elem_of_nil in Hw.
  - intros HR. destruct (co_walks _ _ _ _ _ Hc i j Hb HR) as [_ Hw]. eapply rtc_l; [by apply (edge_save _ _ _ _ _ (pf_entry _ _ _ _ HP))|].
    etrans; [done|]. apply rtc_once. by apply (edge_save _ _ _ _ _ (pf_save _ _ _ _ HP)).
Qed.

(** A match held to an end. *)
Definition matching (end_ : option nat) (i j : nat) : Prop := R i j ∧ ends end_ j = true.

Lemma matches_matching end_ i : bound text i → matches_from (look P text) P text end_ (0, i) ↔ ∃ j, matching end_ i j.
Proof.
  intros Hb. split.
  - intros (pc&j&Hr&[-> He]%match_accepts). exists j. split; [|done]. apply paths_match; [done|]. destruct end_ as [e|]; [by eapply edges_no_end|done].
  - intros (j&HR&He). exists (S m), j. split; [|by apply match_accepts]. apply paths_match in HR; [|done]. destruct end_ as [e|]; [|done].
    apply edges_to_end; [done|]. cbn in *. apply Nat.eqb_eq in He. lia.
Qed.

Lemma matching_forward i j : bound text i → R i j → i ≤ j ∧ bound text j.
Proof.
  intros Hb HR. split; [|by apply (co_walks _ _ _ _ _ (pf_code _ _ _ _ HP) i j)]. apply paths_match in HR; [|done]. by apply edges_forward in HR.
Qed.

(** * Slots *)

(** Past the entry, the slot of the start is left as it was. *)
Lemma start_kept end_ start x y : item_step (look P text) P text end_ x y →
  x.1.1 = 0 ∧ x.1.2 = start ∨ 1 ≤ x.1.1 → x.2 !! 0 = Some (Some start) → 1 ≤ y.1.1 ∧ y.2 !! 0 = Some (Some start).
Proof.
  intros H Hx Hs. pose proof (co_le _ _ _ _ _ (pf_code _ _ _ _ HP)) as Hle. destruct x as [[pc at_] slots]. cbn [fst snd] in *.
  unfold item_step, RegexDfs.next in H. cbn [fst snd] in H. destruct (p_insts P !! pc) as [inst|] eqn:E; [|by apply elem_of_nil in H].
  destruct (program_inst pc inst E) as [[-> ->]|[[Hpc Hok]|[[-> ->]|[-> ->]]]].
  - apply list_elem_of_singleton in H as ->. cbn. split; [lia|]. destruct Hx as [[_ ->]|?]; [|lia]. unfold put_slot. by rewrite list_lookup_insert_eq by (apply lookup_lt_Some in Hs; lia).
  - clear Hx. destruct inst; cbn [inst_ok] in Hok; try done; repeat case_match; set_unfold in H; destruct_or?; subst; cbn; (split; [lia|try done]).
    unfold put_slot. by rewrite list_lookup_insert_ne by lia.
  - apply list_elem_of_singleton in H as ->. cbn. split; [lia|]. unfold put_slot. by rewrite list_lookup_insert_ne by lia.
  - by apply elem_of_nil in H.
Qed.

Lemma put_slot_length slot at_ slots : length (put_slot slot at_ slots) = length slots.
Proof. apply length_insert. Qed.

Lemma items_kept end_ start x y : rtc (item_step (look P text) P text end_) x y → x.1.1 = 0 ∧ x.1.2 = start ∨ 1 ≤ x.1.1 → x.2 !! 0 = Some (Some start) →
  y.2 !! 0 = Some (Some start) ∧ length y.2 = length x.2.
Proof.
  induction 1 as [x|x y z Hxy _ IH]; intros Hx Hs; [done|]. destruct (start_kept end_ start x y) as [H1 H2]; [done..|].
  destruct IH as [IH1 IH2]; [by right|done|]. split; [done|]. rewrite IH2. unfold item_step, RegexDfs.next in Hxy.
  destruct (p_insts P !! x.1.1) as [inst|]; [|by apply elem_of_nil in Hxy]. destruct inst; repeat case_match; set_unfold in Hxy; destruct_or?; subst; cbn [snd]; try done; apply put_slot_length.
Qed.

(** The answer of a search from one position. *)
Definition answers (end_ : option nat) (start : nat) (slots : Slots) : Prop :=
  ∃ j, matching end_ start j ∧ slots !! 0 = Some (Some start) ∧ slots !! 1 = Some (Some j) ∧ length slots = 2 * (p_groups P + 1).

Lemma explore_answers end_ start V slots V' : bound text start → explore end_ [(0, start, fresh start)] V (Some slots) V' → answers end_ start slots.
Proof.
  intros Hb H. apply explore_found in H as (x&pc&j&s&->%list_elem_of_singleton&Hr&[-> He]%match_accepts&->). exists j.
  assert (length (fresh start) = 2 * (p_groups P + 1)) as Hlen by (rewrite put_slot_length; apply length_replicate).
  destruct (items_kept end_ start _ _ Hr) as [H0 H1]; cbn [fst snd]; [by left|unfold put_slot; rewrite list_lookup_insert_eq; [done|rewrite length_replicate; lia]|].
  cbn [snd] in *. rewrite Hlen in H1. split_and!.
  - split; [|done]. apply paths_match; [done|]. apply items_edges in Hr. cbn [fst] in Hr. destruct end_ as [e|]; [by eapply edges_no_end|done].
  - unfold put_slot. by rewrite list_lookup_insert_ne.
  - unfold put_slot. apply list_lookup_insert_eq. lia.
  - by rewrite put_slot_length.
Qed.

Lemma explore_silent end_ start V V' : bound text start → all_shut (look P text) P text end_ V → explore end_ [(0, start, fresh start)] V None V' →
  all_shut (look P text) P text end_ V' ∧ ∀ j, ¬ matching end_ start j.
Proof.
  intros Hb HV H. destruct (explore_shuts _ _ _ _ _ _ _ HV H) as [H1 H2]. split; [done|]. intros j Hj. apply (H2 (0, start, fresh start)); [by left|].
  apply matches_matching; eauto.
Qed.

(** What a search from each position in turn answers: the first position there is a match from. *)
Definition answer (end_ : option nat) (from : nat) (r : option Slots) : Prop :=
  match r with
  | Some slots => ∃ start, from ≤ start ∧ bound text start ∧ answers end_ start slots ∧ ∀ i j, from ≤ i < start → bound text i → ¬ matching end_ i j
  | None => ∀ i j, from ≤ i → bound text i → ¬ matching end_ i j
  end.

Lemma attempts_answer end_ from V r V' : bound text from → (∀ e, end_ = Some e → from ≤ e ∧ bound text e) → all_shut (look P text) P text end_ V →
  attempts end_ from V r V' → answer end_ from r.
Proof.
  intros Hb He HV H. revert Hb He HV. induction H as [from V r V' H|from V V' H Hc|from ch V V1 r V' H Hc _ IH]; intros Hb He HV.
  - exists from. split_and!; [done|done|by eapply explore_answers|lia].
  - destruct (explore_silent _ _ _ _ Hb HV H) as [_ Hn]. intros i j Hi Hbi. destruct (decide (i = from)) as [->|Hne]; [apply Hn|]. intros [HR Hj].
    unfold chr in Hc. case_decide as Hd.
    + destruct (He _ Hd) as [Hle _]. subst end_. cbn in Hj. apply Nat.eqb_eq in Hj. destruct (matching_forward i j Hbi HR). lia.
    + destruct (bound_reached text from i Hb Hbi Hi) as [->|(ch&Hch&_)]; [done|congruence].
  - destruct (explore_silent _ _ _ _ Hb HV H) as [HV1 Hn]. unfold chr in Hc. case_decide as Hd; [done|].
    assert (∀ i j, from ≤ i < from + len_utf8 ch → bound text i → ¬ matching end_ i j) as Hhere.
    { intros i j Hi Hbi. destruct (bound_reached text from i Hb Hbi ltac:(lia)) as [->|(ch'&Hch&Hle)]; [apply Hn|]. assert (ch' = ch) as -> by congruence. lia. }
    assert (answer end_ (from + len_utf8 ch) r) as Hans.
    { apply IH; [by apply bound_next| |done]. intros e ->. destruct (He e eq_refl) as [Hge Hbe]. split; [|done].
      destruct (bound_reached text from e Hb Hbe Hge) as [->|(ch'&Hch&Hle)]; [done|]. by assert (ch' = ch) as -> by congruence. }
    destruct r as [slots|]; cbn [answer] in *.
    + destruct Hans as (start&Hle&Hbs&Ha&Hno). exists start. split_and!; [lia|done..|]. intros i j Hi Hbi. destruct (decide (i < from + len_utf8 ch)); [apply (Hhere i j); [lia|done]|exact (Hno i j ltac:(lia) Hbi)].
    + intros i j Hi Hbi. destruct (decide (i < from + len_utf8 ch)); [apply (Hhere i j); [lia|done]|exact (Hans i j ltac:(lia) Hbi)].
Qed.

(** What a search from one position only answers. *)
Definition answer_here (end_ : option nat) (from : nat) (r : option Slots) : Prop :=
  match r with Some slots => answers end_ from slots | None => ∀ j, ¬ matching end_ from j end.

Lemma explore_here end_ from r V' : bound text from → explore end_ [(0, from, fresh from)] ∅ r V' → answer_here end_ from r.
Proof.
  intros Hb H. destruct r as [slots|]; [by eapply explore_answers|]. cbn.
  eapply (explore_silent end_ from ∅ V'); [done|apply all_shut_empty|done].
Qed.

Lemma here_anchored end_ from r : p_anchored P = true → bound text from → answer_here end_ from r → answer end_ from r.
Proof.
  intros Ha Hb H. destruct r as [slots|]; cbn in *.
  - exists from. split_and!; [done..|lia].
  - intros i j Hi Hbi [HR He]. assert (i = 0) as -> by by eapply (pf_anchored _ _ _ _ HP Ha). assert (from = 0) as -> by lia. by apply (H j).
Qed.

Lemma search_in_answer sticky end_ from : bound text from → (∀ e, end_ = Some e → from ≤ e ∧ bound text e) →
  ∃ r, search_in text P from sticky end_ = Some r ∧ if sticky then answer_here end_ from r else answer end_ from r.
Proof.
  intros Hb He. rewrite search_in_with. destruct (search_with_ok (look P text) P text end_ program_ready from sticky Hb) as (r&V'&E&Hr). exists r. split; [done|].
  destruct (p_anchored P) eqn:Ea, sticky; cbn [negb andb] in Hr; try (by eapply explore_here).
  - apply here_anchored; [done..|]. by eapply explore_here.
  - eapply attempts_answer; [done..| |done]. apply all_shut_empty.
Qed.

(** * Lookarounds *)

Definition looks (ahead negated : bool) (i : nat) : Prop :=
  if negated then ¬ (if ahead then ∃ k, R i k else ∃ k, bound text k ∧ R k i) else if ahead then ∃ k, R i k else ∃ k, bound text k ∧ R k i.

Lemma look_found (Q : Prop) (r : option Slots) negated : (is_Some r ↔ Q) →
  negb (Bool.eqb (bool_decide (is_Some r)) negated) = true ↔ if negated then ¬ Q else Q.
Proof. intros HQ. case_bool_decide; destruct negated; cbn; tauto || naive_solver. Qed.

Lemma look_program Q id ahead negated i : p_looks Q !! id = Some (mkLook ahead negated P) → bound text i →
  ∃ held, look Q text id i = Some held ∧ (held = true ↔ looks ahead negated i).
Proof.
  intros E Hb. unfold look, look_at. rewrite list_lookup_fmap, E. cbn [fmap option_fmap option_map]. rewrite some_bind. destruct ahead.
  - destruct (search_in_answer true None i Hb) as (r&Er&Hr); [done|]. rewrite Er, some_bind. eexists. split; [done|]. apply look_found.
    destruct r as [slots|]; cbn in Hr.
    + destruct Hr as (j&[HR _]&_). split; [by exists j|done].
    + split; [by intros [??]|]. intros (j&HR). by destruct (Hr j).
  - destruct (search_in_answer false (Some i) 0) as (r&Er&Hr); [apply bound_0|intros e [= <-]; split; [lia|done]|]. rewrite Er, some_bind. eexists. split; [done|]. apply look_found.
    destruct r as [slots|]; cbn in Hr.
    + destruct Hr as (start&_&Hbs&(j&[HR He]&_)&_). cbn in He. apply Nat.eqb_eq in He as ->. split; [by exists start|done].
    + split; [by intros [??]|]. intros (k&Hk&HR). destruct (Hr k i); [lia|done|]. split; [done|]. cbn. by apply Nat.eqb_eq.
Qed.
End program.

(** * Assembling *)

Section assembling.
Context (text : Text) (word : option CharSet).

Lemma assembled E R is_anchored groups a0 a2 a3 b1 b2 b3 b4 : emits text word E R → (is_anchored = true → ∀ i j, bound text i → R i j → i = 0) →
  Builder_push (ISave 0) (mkBuilder [] [] [] word) = Ok (a0, b1) → E b1 = Ok b2 → Builder_push (ISave 1) b2 = Ok (a2, b3) → Builder_push IMatch b3 = Ok (a3, b4) →
  ∃ f, first_of (bu_insts b4) (bu_sets b4) = Some f ∧ bu_word b4 = word
    ∧ program_for text (mkProgram (bu_insts b4) (bu_sets b4) (bu_looks b4) groups is_anchored f (bu_word b4)) (here b2) R.
Proof.
  intros [A1 A2] Hanch E1 E2 E3 E4. apply push_Ok in E1 as [_ E1]. apply push_Ok in E3 as [_ E3]. apply push_Ok in E4 as [_ E4].
  assert (here b1 = 1) as H1 by (subst b1; apply push_here). pose proof (A1 _ _ E2) as X2. pose proof (extends_here _ _ X2) as Hle.
  assert (here b3 = S (here b2)) as H3 by (subst b3; apply push_here). assert (here b4 = S (here b3)) as H4 by (subst b4; apply push_here).
  assert (extends b2 b3) as X3 by (subst b3; apply push_extends). assert (extends b3 b4) as X4 by (subst b4; apply push_extends).
  assert (extends b2 b4) as X24 by by etrans. assert (bu_word b1 = word) as Hw1 by by subst b1.
  assert (bu_word b4 = word) as Hw by by rewrite (ex_word _ _ X24), (ex_word _ _ X2).
  assert (∀ first, code text (mkProgram (bu_insts b4) (bu_sets b4) (bu_looks b4) groups is_anchored first (bu_word b4)) 1 (here b2) R) as Hcode.
  { intros first. rewrite <-H1. eapply A2; [done..|]. split; cbn; [|apply X24..|done]. intros pc Hpc. apply extends_below; [done|lia]. }
  assert (bu_insts b4 !! 0 = Some (ISave 0)) as I0.
  { apply (extends_lookup b1); [by etrans|]. by rewrite E1. }
  assert (bu_insts b4 !! here b2 = Some (ISave 1)) as I1.
  { apply (extends_lookup b3); [done|]. rewrite E3. apply push_at. }
  assert (bu_insts b4 !! S (here b2) = Some IMatch) as I2.
  { rewrite <-H3, E4. apply push_at. }
  assert (length (bu_insts b4) = S (S (here b2))) as Hlen by (unfold here in *; lia).
  destruct (first_of_ok (bu_insts b4) (bu_sets b4)) as (f&Ef&Hf); [lia| |].
  { intros pc inst Ei. pose proof (lookup_lt_Some _ _ _ Ei). rewrite Hlen in *. unfold walk_ok. rewrite Hlen. destruct (decide (pc = 0)) as [->|].
    { rewrite I0 in Ei. injection Ei as <-. split; [|done]. constructor; [lia|constructor]. }
    destruct (decide (pc < here b2)).
    - destruct (co_inst _ _ _ _ _ (Hcode First_anything) pc) as (inst'&E'&Hok); [lia|]. cbn [p_insts] in E'. assert (inst' = inst) as -> by congruence.
      destruct inst; cbn [inst_ok p_sets follows] in *; (split; [|done]); rewrite ?Forall_cons, ?Forall_nil; split_and?; done || lia.
    - destruct (decide (pc = here b2)) as [->|]; [|assert (pc = S (here b2)) as -> by lia]; [rewrite I1 in Ei|rewrite I2 in Ei]; injection Ei as <-; (split; [|done]); cbn [follows]; rewrite ?Forall_cons, ?Forall_nil; split_and?; done || lia. }
  exists f. split_and!; [done..|]. by split.
Qed.

Lemma assemble_ok E R is_anchored groups P : emits text word E R → (is_anchored = true → ∀ i j, bound text i → R i j → i = 0) →
  assemble E is_anchored groups word = Ok P →
  ∃ m, program_for text P m R ∧ p_groups P = groups ∧ p_anchored P = is_anchored ∧ p_word P = word.
Proof.
  intros HE Ha H. unfold assemble in H. apply bind_Ok in H as ([a0 b1]&E1&H). apply bind_Ok in H as (b2&E2&H).
  apply bind_Ok in H as ([a2 b3]&E3&H). apply bind_Ok in H as ([a3 b4]&E4&H).
  destruct (assembled E R is_anchored groups _ _ _ _ _ _ _ HE Ha E1 E2 E3 E4) as (f&Ef&Hw&HP). rewrite Ef in H. injection H as <-. by exists (here b2).
Qed.

Context (Htext : text_ok text).

Lemma emits_look E R ahead negated is_anchored : emits text word E R → (is_anchored = true → ∀ i j, bound text i → R i j → i = 0) →
  emits text word (λ b, program ← assemble E is_anchored 0 (bu_word b);
      let b := mkBuilder (bu_insts b) (bu_sets b) (bu_looks b ++ [mkLook ahead negated program]) (bu_word b) in
      push (ILook (length (bu_looks b) - 1)) b) (λ i j, i = j ∧ looks text R ahead negated i).
Proof.
  intros HE Ha. split.
  - intros b b' (p&Ep&->%push_grows)%bind_Ok. split; cbn; [by eexists|done|by eexists|done].
  - intros b b' P (p&Ep&E1)%bind_Ok Hw Hag. rewrite Hw in Ep. destruct (assemble_ok _ _ _ _ _ HE Ha Ep) as (m&HP&_).
    eapply (push_code _ _ _ (mkBuilder _ _ _ _)); [done..|]. intros Ei. cbn [bu_looks] in *.
    assert (p_looks P !! (length (bu_looks b ++ [mkLook ahead negated p]) - 1) = Some (mkLook ahead negated p)) as Es.
    { eapply prefix_lookup_Some; [|apply (ag_looks _ _ _ _ _ Hag)]. rewrite (push_grows _ _ _ E1). cbn. rewrite length_app. cbn. rewrite Nat.add_sub. by rewrite lookup_app_r, Nat.sub_diag. }
    apply does_test.
    + intros i Hb. destruct (look_program text p m R HP P _ _ _ i Es Hb) as (held&->&_). done.
    + intros i y Hb. destruct (look_program text p m R HP P _ _ _ i Es Hb) as (held&El&<-). apply edge_if. unfold RegexDfs.next. rewrite Ei. by rewrite El.
Qed.
End assembling.
