(* ===== verification/RegexTree.v ===== *)
(** Trees: what the compiler emits for a tree means the tree, so that a compiled program is ready for
    both machines and matches where its tree does; and what compiling can fail with. *)

From S2P Require Import Prelude Regex RegexRun RegexDfs RegexPike RegexBack RegexFirst RegexAgree RegexMatch RegexCompile RegexProgram.
Local Open Scope nat_scope.

(** * Anchors *)

Section trees.
Context (text : Text) (word : option CharSet).

Lemma anchored_start ast : anchored ast = true → ∀ i j, means text word ast i j → i = 0.
Proof.
  induction ast as [| | | |a|index inner IH|parts IH|branches IH|inner least most greedy IH|ahead negated inner _] using Ast_ind'; cbn [anchored]; intros Ha i j; try done.
  - destruct a; try done. cbn. by intros [_ [= ->%Nat.eqb_eq]].
  - by apply IH.
  - cbn [means]. revert Ha i. induction IH as [|part parts Hp _ IHl]; [done|]. intros Ha i. cbn [fmap list_fmap in_sequence]. intros (k&H1&H2). destruct (is_empty part) eqn:Ee.
    + destruct part; try done. cbn in H1. subst k. by apply IHl.
    + by apply (Hp Ha i k).
  - cbn [means]. intros H. apply Exists_fmap in H. rewrite forallb_forall in Ha. rewrite Exists_exists in H. destruct H as (x&Hx&H). rewrite Forall_forall in IH.
    apply (IH x Hx) in H; [done|]. by apply Ha, list_elem_of_In.
  - cbn [means]. apply andb_true_iff in Ha as [Hl%Nat.ltb_lt Ha]. intros (k&Hk&_&H). destruct k as [|k]; [lia|]. destruct H as (l&H&_). by apply (IH Ha i l).
Qed.

Context (Htext : text_ok text).

Lemma emits_tree ast : tree_ok ast = true → emits text word (emit ast) (means text word ast).
Proof.
  induction ast as [|ch|class|newline|a|index inner IH|parts IH|branches IH|inner least most greedy IH|ahead negated inner IH] using Ast_ind'; cbn [tree_ok]; intros Ht.
  - apply emits_none.
  - by apply emits_literal.
  - by apply emits_class.
  - apply emits_any.
  - apply emits_assert.
  - apply andb_true_iff in Ht as [Hi Ht]. destruct index as [index|]; [|by apply IH]. apply Nat.leb_le in Hi.
    eapply emits_iff; [apply emits_then; [apply emits_save; lia|apply emits_then; [by apply IH|apply emits_save; lia]]|].
    intros i j _. split; [by intros (k&<-&l&H&<-)|]. intros H. exists i. split; [done|]. by exists j.
  - change (emits text word (sequence (emit <$> parts)) (in_sequence (means text word <$> parts))). apply emits_sequence. rewrite forallb_forall in Ht.
    rewrite Forall2_fmap. apply Forall_Forall2_diag. rewrite Forall_forall in IH |- *. intros x Hx. apply IH; [done|]. by apply Ht, list_elem_of_In.
  - apply andb_true_iff in Ht as [Hne%negb_true_iff Ht]. apply bool_decide_eq_false in Hne. cbn [means].
    change (emits text word (alternate (emit <$> branches)) (λ i j, Exists (λ R : Span, R i j) (means text word <$> branches))). apply emits_alternate.
    + rewrite forallb_forall in Ht. rewrite Forall2_fmap. apply Forall_Forall2_diag. rewrite Forall_forall in IH |- *. intros x Hx. apply IH; [done|]. by apply Ht, list_elem_of_In.
    + by destruct branches.
  - apply andb_true_iff in Ht as [Hm Ht]. apply emits_repeat; [by apply IH|]. intros m ->. by apply Nat.leb_le.
  - eapply emits_iff; [apply (emits_look text word (emit inner) (means text word inner) ahead negated (anchored inner)); [by apply IH|]|done].
    intros Ha i j _. by apply anchored_start.
Qed.

Lemma compile_program ast groups P : tree_ok ast = true → compile_with ast groups word = Ok P →
  ∃ m, program_for text P m (means text word ast) ∧ p_groups P = groups ∧ p_word P = word.
Proof.
  intros Ht H. destruct (assemble_ok text word (emit ast) (means text word ast) (anchored ast) groups P) as (m&HP&Hg&_&Hw); [by apply emits_tree|..|done|].
  - intros Ha i j _. by apply anchored_start.
  - by exists m.
Qed.
End trees.

(** * Refusals *)

Abbreviation too_large := (InvalidInput "pattern too large - compile failed").

(** A result that fails only with that. *)
Definition fine {A} (r : Result A) (Q : A → Prop) : Prop := match r with Ok x => Q x | Err e => e = too_large end.

Lemma fine_bind {A B} (r : Result A) (f : A → Result B) Q Q' : fine r Q → (∀ x, Q x → fine (f x) Q') → fine (r ≫= f) Q'.
Proof. destruct r; cbn; intros H Hf; [by apply Hf|done]. Qed.

(** An emitter that fails only when the program is too large, and keeps to its size. *)
Abbreviation small := (λ b : Builder, here b ≤ MAX_PROGRAM).
Definition bounded (E : Emit) : Prop := ∀ b, small b → fine (E b) small.

Lemma Builder_push_fine inst b : fine (Builder_push inst b) (λ r, here r.2 ≤ MAX_PROGRAM).
Proof. unfold Builder_push. destruct (Nat.leb_spec MAX_PROGRAM (length (bu_insts b))); [done|]. cbn [fine snd]. rewrite push_here. unfold here. lia. Qed.

Lemma push_fine inst : bounded (push inst).
Proof. intros b _. unfold push. eapply fine_bind; [apply Builder_push_fine|]. by intros [at_ b1] H. Qed.

Lemma foldl_patch_small {A} (f : A → nat) (g : A → Inst) l b : here (foldl (λ b x, patch (f x) (g x) b) b l) = here b.
Proof. revert b. induction l as [|x l IH]; intros b; [done|]. cbn [foldl]. by rewrite IH, here_patch. Qed.

Lemma sequence_fine Es : Forall bounded Es → bounded (sequence Es).
Proof. induction 1 as [|E Es HE _ IH]; intros b Hb; [done|]. cbn [sequence]. eapply fine_bind; [by apply HE|]. apply IH. Qed.

Lemma times_fine n E : bounded E → bounded (times n E).
Proof. intros HE. induction n as [|n IH]; intros b Hb; [done|]. cbn [times]. eapply fine_bind; [by apply HE|]. apply IH. Qed.

Lemma alternate_fine Es : Forall bounded Es → bounded (alternate Es).
Proof.
  intros HEs b Hb. unfold alternate. assert (∀ jumps, fine (alternate_loop Es jumps b) (λ r, here r.2 ≤ MAX_PROGRAM)) as H.
  { revert b Hb. induction HEs as [|E Es HE HEs IH]; intros b Hb jumps; [done|]. cbn [alternate_loop]. destruct HEs as [|E' Es HE' HEs].
    - eapply fine_bind; [by apply HE|]. by intros b1 H1.
    - eapply fine_bind; [apply Builder_push_fine|]. intros [split b1] H1. eapply fine_bind; [by apply HE|]. intros b2 H2.
      eapply fine_bind; [apply Builder_push_fine|]. intros [jump b3] H3. apply IH. by rewrite here_patch. }
  eapply fine_bind; [apply H|]. intros [jumps b1] H1. cbn [fine]. by rewrite (foldl_patch_small id (λ _, IJump (here b1))).
Qed.

Lemma repeat_fine E least most greedy : bounded E → bounded (repeat E least most greedy).
Proof.
  intros HE b Hb. unfold repeat. destruct most as [most|].
  - eapply fine_bind; [by apply times_fine|]. intros b1 H1.
    assert (∀ n splits, fine (optional_loop n E splits b1) (λ r, here r.2 ≤ MAX_PROGRAM)) as H.
    { intros n. revert b1 H1. induction n as [|n IH]; intros b1 H1 splits; [done|]. cbn [optional_loop]. eapply fine_bind; [apply Builder_push_fine|].
      intros [split b2] H2. eapply fine_bind; [by apply HE|]. intros b3 H3. by apply IH. }
    eapply fine_bind; [apply H|]. intros [splits b2] H2. cbn [fine]. by rewrite (foldl_patch_small fst (λ s, branch greedy s.2 (here b2))).
  - eapply fine_bind; [by apply times_fine|]. intros b1 H1. case_match.
    + unfold star. eapply fine_bind; [apply Builder_push_fine|]. intros [split b2] H2. eapply fine_bind; [by apply HE|]. intros b3 H3.
      eapply fine_bind; [apply Builder_push_fine|]. intros [jump b4] H4. cbn [fine]. by rewrite here_patch.
    + unfold plus. eapply fine_bind; [by apply HE|]. intros b3 H3. eapply fine_bind; [apply Builder_push_fine|]. intros [jump b4] H4. cbn [fine]. by rewrite here_patch.
Qed.

(** The walk for the first bytes does not panic, whichever text the program will be run on. *)
Lemma assemble_fine ast groups word : tree_ok ast = true → bounded (emit ast) →
  fine (assemble (emit ast) (anchored ast) groups word) (λ P, length (p_insts P) ≤ MAX_PROGRAM).
Proof.
  intros Ht HE. unfold assemble. pose proof (Builder_push_fine (ISave 0) (mkBuilder [] [] [] word)) as F1. destruct (Builder_push (ISave 0) _) as [[a1 b1]|] eqn:E1; [|done].
  cbn [mbind result_bind]. pose proof (HE b1 F1) as F2. destruct (emit ast b1) as [b2|] eqn:E2; [|done]. cbn [fine] in F2.
  cbn [mbind result_bind]. pose proof (Builder_push_fine (ISave 1) b2) as F3. destruct (Builder_push (ISave 1) b2) as [[a3 b3]|] eqn:E3; [|done].
  cbn [mbind result_bind]. pose proof (Builder_push_fine IMatch b3) as F4. destruct (Builder_push IMatch b3) as [[a4 b4]|] eqn:E4; [|done].
  destruct (assembled [] word (emit ast) (means [] word ast) (anchored ast) groups a1 a3 a4 b1 b2 b3 b4) as (f&Ef&_&_); [apply emits_tree; [by constructor|done]|..|done|done|done|done|].
  - intros Ha i j _. by apply anchored_start.
  - cbn [mbind result_bind]. by rewrite Ef.
Qed.

Lemma emit_fine ast : tree_ok ast = true → bounded (emit ast).
Proof.
  induction ast as [|ch|class|newline|a|index inner IH|parts IH|branches IH|inner least most greedy IH|ahead negated inner IH] using Ast_ind'; cbn [tree_ok]; intros Ht b Hb; cbn [emit].
  - done.
  - by apply push_fine.
  - by apply push_fine.
  - by apply push_fine.
  - by apply push_fine.
  - apply andb_true_iff in Ht as [_ Ht]. destruct index as [index|]; [|by apply IH].
    eapply fine_bind; [by apply push_fine|]. intros b1 H1. eapply fine_bind; [by apply IH|]. apply push_fine.
  - apply sequence_fine; [|done]. rewrite forallb_forall in Ht. rewrite Forall_fmap. rewrite Forall_forall in IH |- *. intros x Hx. apply IH; [done|]. by apply Ht, list_elem_of_In.
  - apply andb_true_iff in Ht as [_ Ht]. apply alternate_fine; [|done]. rewrite forallb_forall in Ht. rewrite Forall_fmap. rewrite Forall_forall in IH |- *. intros x Hx.
    apply IH; [done|]. by apply Ht, list_elem_of_In.
  - apply andb_true_iff in Ht as [_ Ht]. apply repeat_fine; [by apply IH|done].
  - eapply fine_bind; [apply assemble_fine; [done|by apply IH]|]. intros p _. by apply push_fine.
Qed.

(** * Running a program *)

(** What [run] gives back, from the slots of the match. *)
Definition returned (slots : Slots) (r : option Slots) (c : Cache) : bool * Slots * Cache :=
  match r with Some found => (true, found, c) | None => (false, slots, c) end.

Section running.
Context (text : Text) (P : Program) (m : nat) (R : Span) (HP : program_for text P m R) (Htext : text_ok text).

Abbreviation fresh at_ := (put_slot 0 at_ (replicate (2 * (p_groups P + 1)) None)).

Lemma machines_same_program start whole c : bound text start →
  ∃ r c' V', Cache_search P text start whole c = Some (r, c') ∧ vm_search P text start whole = Some r
    ∧ if negb (p_anchored P) && negb whole then attempts (look P text) P text (if whole then Some (text_len text) else None) start ∅ r V'
      else explore (look P text) P text (if whole then Some (text_len text) else None) [(0, start, fresh start)] ∅ r V'.
Proof. apply machines_same; [by eapply program_ready|done|by eapply pf_entry|by eapply pf_first]. Qed.

Lemma run_program start whole slots c : bound text start →
  ∃ r c' V', run P text start whole slots c = Some (returned slots r c') ∧ vm_search P text start whole = Some r
    ∧ if negb (p_anchored P) && negb whole then attempts (look P text) P text (if whole then Some (text_len text) else None) start ∅ r V'
      else explore (look P text) P text (if whole then Some (text_len text) else None) [(0, start, fresh start)] ∅ r V'.
Proof.
  intros Hb. destruct (machines_same_program start whole c Hb) as (r&c'&V'&E1&E2&H). unfold run. destruct (fits_memo P text).
  - exists r, c', V'. rewrite E1, some_bind. split; [by destruct r|done].
  - exists r, c, V'. rewrite E2, some_bind. split; [by destruct r|done].
Qed.

Lemma run_answer start whole slots c : bound text start →
  ∃ r c', run P text start whole slots c = Some (returned slots r c')
    ∧ if whole then answer_here P R (Some (text_len text)) start r else answer text P R None start r.
Proof.
  intros Hb. destruct (run_program start whole slots c Hb) as (r&c'&V'&E&_&H). exists r, c'. split; [done|]. destruct (p_anchored P) eqn:Ea, whole; cbn [negb andb] in H.
  - by eapply explore_here.
  - eapply here_anchored; [done..|]. by eapply explore_here.
  - by eapply explore_here.
  - eapply attempts_answer; [done..| |done]. apply all_shut_empty.
Qed.
End running.

(** Where a search from a position is to find its match: the leftmost place the tree has one, or, for
    a match of the whole text, the position itself and the end. *)
Definition right_match (text : Text) (M : Span) (whole : bool) (start s e : nat) : Prop :=
  bound text s ∧ M s e ∧ if whole then s = start ∧ e = text_len text
  else start ≤ s ∧ ∀ i j, start ≤ i < s → bound text i → ¬ M i j.

Lemma run_right ast groups word P text start whole slots c : tree_ok ast = true → text_ok text → compile_with ast groups word = Ok P → bound text start →
  ∃ r c', run P text start whole slots c = Some (returned slots r c') ∧
    match r with
    | Some found => ∃ s e, right_match text (means text word ast) whole start s e ∧ found !! 0 = Some (Some s) ∧ found !! 1 = Some (Some e) ∧ s ≤ e ∧ bound text e
    | None => ∀ s e, ¬ right_match text (means text word ast) whole start s e
    end.
Proof.
  intros Ht Htext E Hb. destruct (compile_program text word Htext ast groups P Ht E) as (m&HP&_).
  destruct (run_answer text P m _ HP Htext start whole slots c Hb) as (r&c'&E1&H). exists r, c'. split; [done|]. destruct r as [found|].
  - destruct whole; cbn in H.
    + destruct H as (e&[HR He]&H0&H1&_). cbn in He. apply Nat.eqb_eq in He as <-. exists start, (text_len text). by split_and!; [..|eapply matching_forward|eapply matching_forward].
    + destruct H as (s&Hs&Hbs&(e&[HR _]&H0&H1&_)&Hno). exists s, e. split_and!; [|done|done|by eapply matching_forward..]. split_and!; [done..|].
      intros i j Hi Hbi HM. by apply (Hno i j Hi Hbi).
  - intros s e (Hbs&HM&Hr). destruct whole; cbn in H.
    + destruct Hr as [-> ->]. apply (H (text_len text)). split; [done|]. cbn. by apply Nat.eqb_eq.
    + destruct Hr as [Hs _]. by apply (H s e Hs Hbs).
Qed.
