(* ===== verification/RegexTail.v ===== *)
(** A trailing [.*$]: the program of what comes before it finds the match of the whole, slot for slot,
    when nothing the dot refuses comes after. *)

From S2P Require Import Prelude Regex RegexRun RegexDfs RegexPike RegexBack RegexFirst RegexAgree RegexMatch RegexCompile RegexProgram RegexTree.
Local Open Scope nat_scope.

(** * Two programs that begin alike *)

Record headed (H F : Program) (m : nat) (newline greedy : bool) : Prop := {
  he_low : ∀ pc, pc < m → p_insts F !! pc = p_insts H !! pc;
  he_sets : p_sets H `prefix_of` p_sets F;
  he_looks : p_looks H `prefix_of` p_looks F;
  he_word : p_word F = p_word H;
  he_groups : p_groups F = p_groups H;
  he_anchored : p_anchored F = p_anchored H;
  he_split : p_insts F !! m = Some (branch greedy (S m) (3 + m));
  he_any : p_insts F !! S m = Some (IAny newline);
  he_jump : p_insts F !! (2 + m) = Some (IJump m);
  he_end : p_insts F !! (3 + m) = Some (IAssert TextEnd);
  he_save : p_insts F !! (4 + m) = Some (ISave 1);
  he_match : p_insts F !! (5 + m) = Some IMatch;
  he_length : length (p_insts F) = 6 + m }.

Section headed.
Context (text : Text) (H F : Program) (m : nat) (R : Span) (newline greedy : bool).
Context (HH : program_for text H m R) (HF : headed H F m newline greedy).
Context (Hready : ready (look F text) F text) (Htext : text_ok text).

Abbreviation exploreH := (explore (look H text) H text None).
Abbreviation exploreF := (explore (look F text) F text None).
Abbreviation edgeF := (edge (look F text) F text None).

(** Nothing from a position on that the dot refuses. *)
Definition clear (j : nat) : Prop := newline = true ∨ ∀ i, j ≤ i → bound text i → char_at text i ≠ Some 10%Z.

Lemma clear_next i j : clear i → i ≤ j → clear j.
Proof. intros [?|Hc] Hle; [by left|right]. intros k Hk. apply Hc. lia. Qed.

(** The dots take all there is, to the end. *)
Lemma tail_path j : bound text j → clear j → rtc edgeF (m, j) (5 + m, text_len text).
Proof.
  intros Hb Hc. assert (rtc edgeF (m, j) (m, text_len text)) as Hloop.
  { remember (text_len text - j) as k eqn:Ek. revert j Ek Hb Hc. induction (lt_wf k) as [k _ IH]. intros j -> Hb Hc.
    destruct (bound_reached text j (text_len text) Hb (bound_end _) (bound_le _ _ Hb)) as [->|(ch&Hch&Hle)]; [done|]. pose proof (len_utf8_pos ch).
    eapply rtc_l; [apply (edge_branch text F _ _ _ _ _ _ (he_split _ _ _ _ _ HF)); by left|].
    eapply rtc_l; [apply (edge_reader text F (S m) (IAny newline)); [by apply HF|done|]|].
    { exists ch. split_and!; [done| |done]. unfold takes. cbn [reads]. destruct Hc as [->|Hc]; [done|]. rewrite (proj2 (Z.eqb_neq ch 10)), orb_true_r; [done|].
      intros ->. by apply (Hc j). }
    eapply rtc_l; [by apply (edge_jump text F _ _ _ _ (he_jump _ _ _ _ _ HF))|].
    eapply IH; [|done|by apply bound_next|eapply clear_next; [done|lia]]. lia. }
  etrans; [done|]. eapply rtc_l; [apply (edge_branch text F _ _ _ _ _ _ (he_split _ _ _ _ _ HF)); by right|].
  eapply rtc_l; [apply (edge_if text F (3 + m) true)|].
  { unfold RegexDfs.next. rewrite (he_end _ _ _ _ _ HF). cbn [holds]. by rewrite Nat.eqb_refl. }
  { done. }
  apply rtc_once. by apply (edge_save text F None _ _ _ _ (he_save _ _ _ _ _ HF)).
Qed.

(** What is known on the way. *)
Definition on_tail (slots : Slots) (x : Item) : Prop :=
  m ≤ x.1.1 ≤ 3 + m ∧ x.2 = slots ∨ x.1.1 = 4 + m ∧ x.1.2 = text_len text ∧ x.2 = slots
  ∨ x.1.1 = 5 + m ∧ x.1.2 = text_len text ∧ x.2 = put_slot 1 (text_len text) slots.

Lemma on_tail_step slots x y : on_tail slots x → item_step (look F text) F text None x y → on_tail slots y.
Proof.
  destruct x as [[pc i] s]. intros Hx Hy. unfold item_step, RegexDfs.next in Hy. cbn [fst snd] in Hy. unfold on_tail in Hx. cbn [fst snd] in Hx.
  destruct Hx as [[Hpc ->]|[(->&->&->)|(->&->&->)]].
  - assert (pc = m ∨ pc = S m ∨ pc = 2 + m ∨ pc = 3 + m) as [->|[->|[->| ->]]] by lia.
    + rewrite (he_split _ _ _ _ _ HF) in Hy. unfold branch in Hy. left. destruct greedy; apply elem_of_cons in Hy as [->| ->%list_elem_of_singleton]; cbn; (split; [lia|done]).
    + rewrite (he_any _ _ _ _ _ HF) in Hy. left. destruct (chr text None i); [|by apply elem_of_nil in Hy]. case_match; [|by apply elem_of_nil in Hy].
      apply list_elem_of_singleton in Hy as ->. cbn. split; [lia|done].
    + rewrite (he_jump _ _ _ _ _ HF) in Hy. left. apply list_elem_of_singleton in Hy as ->. cbn. split; [lia|done].
    + rewrite (he_end _ _ _ _ _ HF) in Hy. cbn [holds] in Hy. cbn [default from_option id] in Hy. destruct (Nat.eqb_spec i (text_len text)) as [->|]; [|by apply elem_of_nil in Hy].
      apply list_elem_of_singleton in Hy as ->. right; left. done.
  - rewrite (he_save _ _ _ _ _ HF) in Hy. apply list_elem_of_singleton in Hy as ->. by right; right.
  - rewrite (he_match _ _ _ _ _ HF) in Hy. by apply elem_of_nil in Hy.
Qed.

(** What is tried already lies in the common part. *)
Definition low (V : gset Node) : Prop := ∀ x, x ∈ V → x.1 < m ∧ bound text x.2.

Lemma tail_found j slots V rest : bound text j → clear j → low V →
  ∃ V', exploreF ((m, j, slots) :: rest) V (Some (put_slot 1 (text_len text) slots)) V'.
Proof.
  intros Hb Hc HV. pose proof (he_length _ _ _ _ _ HF) as Hn.
  destruct (explore_total F text false Hready Htext _ [(m, j, slots)] V (Nat.lt_succ_diag_r _)) as (r&V'&He&_).
  { constructor; [|constructor]. split; [cbn; lia|done]. }
  { intros x Hx. destruct (HV x Hx) as [Hl Hbx]. apply bound_le in Hbx. unfold in_range. lia. }
  assert (r = Some (put_slot 1 (text_len text) slots)) as ->; [|exists V'; by apply (explore_app_found _ _ _ _ [(m, j, slots)])].
  destruct r as [r|].
  - apply explore_found in He as (x&pc&k&s&->%list_elem_of_singleton&Hr&Ha&->).
    assert (on_tail slots (pc, k, s)) as Ht.
    { remember (pc, k, s) as y eqn:Ey. clear Ey Ha. assert (on_tail slots (m, j, slots)) as H0 by (left; cbn; split; [lia|done]). revert H0.
      induction Hr as [x|x y z Hxy _ IH]; [done|]. intros Hx. apply IH. by eapply on_tail_step. }
    unfold accepts in Ha. unfold on_tail in Ht. cbn [fst snd] in Ht. destruct Ht as [[Hpc _]|[(->&_)|(->&->&->)]].
    + assert (pc = m ∨ pc = S m ∨ pc = 2 + m ∨ pc = 3 + m) as [->|[->|[->| ->]]] by lia;
        [rewrite (he_split _ _ _ _ _ HF) in Ha; unfold branch in Ha; by destruct greedy|rewrite (he_any _ _ _ _ _ HF) in Ha|rewrite (he_jump _ _ _ _ _ HF) in Ha|rewrite (he_end _ _ _ _ _ HF) in Ha]; done.
    + by rewrite (he_save _ _ _ _ _ HF) in Ha.
    + f_equal. unfold put_slot. by rewrite list_insert_insert_eq.
  - exfalso. destruct (explore_none _ _ _ _ _ _ _ He) as (A&_&C). specialize (A (m, j, slots) ltac:(by left)). cbn [fst] in A.
    assert (∀ x y, rtc edgeF x y → m ≤ x.1 ∧ x ∈ V' → m ≤ y.1 ∧ y ∈ V') as Hreach.
    { clear A He. intros x y Hy. induction Hy as [x|x y z Hxy _ IH]; [done|]. intros [Hx Hin]. apply IH.
      destruct (C x Hin) as [Hv|[_ Hcl]]; [destruct (HV x Hv); lia|]. split; [|by apply Hcl].
      destruct Hxy as (w&Hw&<-). destruct (decide (x.1 ≤ 3 + m)); [|destruct (decide (x.1 = 4 + m))].
      - assert (on_tail [] w) as Ht by (eapply (on_tail_step [] (x, [])); [left; cbn; split; [lia|done]|done]). destruct Ht as [[??]|[(?&_)|(?&_)]]; lia.
      - unfold RegexDfs.next in Hw. replace x.1 with (4 + m) in Hw by done. rewrite (he_save _ _ _ _ _ HF) in Hw. apply list_elem_of_singleton in Hw as ->. cbn. lia.
      - unfold RegexDfs.next in Hw. destruct (p_insts F !! x.1) as [inst|] eqn:E; [|by apply elem_of_nil in Hw]. pose proof (lookup_lt_Some _ _ _ E).
        assert (x.1 = 5 + m) as Ex by lia. rewrite Ex, (he_match _ _ _ _ _ HF) in E. injection E as <-. by apply elem_of_nil in Hw. }
    destruct (Hreach _ _ (tail_path j Hb Hc)) as [_ Hin]; [done|]. destruct (C _ Hin) as [Hv|[Ha _]]; [destruct (HV _ Hv); cbn in *; lia|].
    unfold accepts in Ha. cbn [fst snd] in Ha. by rewrite (he_match _ _ _ _ _ HF) in Ha.
Qed.

(** * The search of the one in the search of the other *)

Lemma next_same pc i slots : pc < m → bound text i → RegexDfs.next (look F text) F text None pc i slots = RegexDfs.next (look H text) H text None pc i slots.
Proof.
  intros Hpc Hb. unfold RegexDfs.next. rewrite (he_low _ _ _ _ _ HF) by done. destruct (p_insts H !! pc) as [inst|] eqn:E; [|done].
  destruct (program_inst _ _ _ _ HH pc inst E) as [[-> ->]|[[_ Hok]|[[-> _]|[-> _]]]]; [done| |lia..].
  destruct inst as [want|id|nl|a|id|slot|one other|to|]; cbn [inst_ok] in Hok; try done.
  - destruct (chr text None i) as [ch|]; [|done]. assert (takes F (ISet id) ch = takes H (ISet id) ch) as ->; [|done].
    unfold takes. cbn [reads]. destruct (lookup_lt_is_Some_2 _ _ Hok) as [s Es]. by rewrite Es, (prefix_lookup_Some _ _ _ _ Es (he_sets _ _ _ _ _ HF)).
  - by rewrite (he_word _ _ _ _ _ HF).
  - destruct (Hok i Hb) as [held Eh]. assert (look F text id i = look H text id i) as ->; [|done]. unfold look, look_at in *.
    destruct (p_looks H !! id) as [l|] eqn:El; [|by rewrite list_lookup_fmap, El in Eh].
    by rewrite !list_lookup_fmap, El, (prefix_lookup_Some _ _ _ _ El (he_looks _ _ _ _ _ HF)).
Qed.

Lemma accepts_low pc i : pc ≤ m → accepts F None pc i = false ∧ accepts H None pc i = false.
Proof.
  intros Hpc. assert (accepts H None pc i = false) as HA.
  { destruct (accepts H None pc i) eqn:E; [|done]. apply (match_accepts _ _ _ _ HH) in E as [-> _]. lia. }
  split; [|done]. unfold accepts in *. destruct (decide (pc = m)) as [->|].
  - rewrite (he_split _ _ _ _ _ HF). unfold branch. by destruct greedy.
  - rewrite (he_low _ _ _ _ _ HF) by lia. done.
Qed.

Lemma next_low pc i slots x : pc < m → bound text i → x ∈ RegexDfs.next (look H text) H text None pc i slots → x.1.1 ≤ m ∧ bound text x.1.2.
Proof.
  intros Hpc Hb Hx. split; [|eapply next_bound; [|exact Hb|exact Hx]; by eapply program_ready]. unfold RegexDfs.next in Hx. destruct (p_insts H !! pc) as [inst|] eqn:E; [|by apply elem_of_nil in Hx].
  destruct (program_inst _ _ _ _ HH pc inst E) as [[-> ->]|[[_ Hok]|[[-> _]|[-> _]]]]; [apply list_elem_of_singleton in Hx as ->; cbn; lia| |lia..].
  destruct inst; cbn [inst_ok] in Hok; try done; repeat case_match; set_unfold in Hx; destruct_or?; subst; cbn; lia.
Qed.

Definition within (s : list Item) : Prop := Forall (λ x : Item, x.1.1 ≤ m ∧ bound text x.1.2) s.

Lemma head_step s V r V' : exploreH s V r V' → within s → low V →
  match r with
  | Some slots => ∃ j, bound text j ∧ slots !! 1 = (put_slot 1 j slots) !! 1 ∧ (clear j → ∃ V2, exploreF s V (Some (put_slot 1 (text_len text) slots)) V2)
  | None => exploreF s V None V' ∧ low V'
  end.
Proof.
  induction 1 as [V|pc i slots rest V r V' Hin Hex IH|pc i slots rest V Hin Ha|pc i slots rest V r V' Hin Ha Hex IH]; intros Hs HV.
  - split; [constructor|done].
  - apply Forall_cons in Hs as [_ Hs]. specialize (IH Hs HV). destruct r as [r|].
    + destruct IH as (j&Hj&E&IH). exists j. split_and!; [done..|]. intros Hc. destruct (IH Hc) as (V2&H2). exists V2. by apply explore_seen.
    + destruct IH. split; [by apply explore_seen|done].
  - apply Forall_cons in Hs as [[Hpc _] _]. cbn in Hpc. destruct (accepts_low pc i Hpc). congruence.
  - apply Forall_cons in Hs as [[Hpc Hb] Hs]. cbn [fst snd] in Hpc, Hb. destruct (decide (pc = m)) as [->|Hne].
    { unfold RegexDfs.next in Hex. rewrite (pf_save _ _ _ _ HH) in Hex. cbn [app] in Hex. clear IH.
      assert (accepts H None (S m) i = true) as Hacc by by apply (match_accepts _ _ _ _ HH).
      assert ((S m, i) ∉ {[(m, i)]} ∪ V) as Hnin by (intros [?%elem_of_singleton|Hv%HV]%elem_of_union; [simplify_eq; lia|cbn in Hv; lia]).
      inversion Hex; subst; try done; try congruence. exists i. assert (∀ k, put_slot 1 k (put_slot 1 i (put_slot 1 i slots)) = put_slot 1 k slots) as E.
      { intros k. unfold put_slot. by rewrite !list_insert_insert_eq. }
      split_and!; [done|by rewrite E; unfold put_slot; rewrite list_insert_insert_eq|]. intros Hc. rewrite E. by apply tail_found. }
    assert (pc < m) as Hlt by lia. assert (low ({[(pc, i)]} ∪ V)) as HV2.
    { intros x [->%elem_of_singleton|Hx]%elem_of_union; [done|by apply HV]. }
    assert (within (RegexDfs.next (look H text) H text None pc i slots ++ rest)) as Hw.
    { apply Forall_app. split; [|done]. apply Forall_forall. intros x Hx. by eapply next_low. }
    destruct (accepts_low pc i Hpc) as [HaF _]. specialize (IH Hw HV2). rewrite <-(next_same pc i slots Hlt Hb) in IH. destruct r as [r|].
    + destruct IH as (j&Hj&E&IH). exists j. split_and!; [done..|]. intros Hc. destruct (IH Hc) as (V2&H2). exists V2. by apply explore_step.
    + destruct IH as [IH1 IH2]. split; [by apply explore_step|done].
Qed.

(** From one answer to the other. *)
Definition answers_alike (found : option Slots → Prop) (r : option Slots) : Prop :=
  match r with
  | Some slots => ∃ j, bound text j ∧ slots !! 1 = (put_slot 1 j slots) !! 1 ∧ (clear j → found (Some (put_slot 1 (text_len text) slots)))
  | None => found None
  end.

Abbreviation fresh at_ := (put_slot 0 at_ (replicate (2 * (p_groups H + 1)) None)).

Lemma within_start start : bound text start → within [(0, start, fresh start)].
Proof. intros Hb. constructor; [|constructor]. split; [cbn; lia|done]. Qed.

Lemma head_here start V r V' : bound text start → low V → exploreH [(0, start, fresh start)] V r V' → answers_alike (λ r, ∃ V2, exploreF [(0, start, fresh start)] V r V2) r.
Proof.
  intros Hb HV He. pose proof (head_step _ _ _ _ He (within_start start Hb) HV) as Hh. destruct r as [slots|]; [done|]. destruct Hh as [Hh _]. by exists V'.
Qed.

Lemma head_attempts start V r V' : attempts (look H text) H text None start V r V' → bound text start → low V →
  answers_alike (λ r, ∃ V2, attempts (look F text) F text None start V r V2) r.
Proof.
  induction 1 as [start V r V' He|start V V' He Hc|start ch V V1 r V' He Hc _ IH]; intros Hb HV.
  - destruct (head_here _ _ _ _ Hb HV He) as (j&Hj&E&Hf). exists j. split_and!; [done..|]. intros Hcl. destruct (Hf Hcl) as (V2&H2). exists V2. apply attempts_found.
    by rewrite (he_groups _ _ _ _ _ HF).
  - destruct (head_step _ _ _ _ He (within_start start Hb) HV) as [H1 _]. exists V'. apply attempts_end; [|done]. by rewrite (he_groups _ _ _ _ _ HF).
  - destruct (head_step _ _ _ _ He (within_start start Hb) HV) as [H1 HV1]. pose proof Hc as Hc'. rewrite chr_None in Hc'. specialize (IH (bound_next _ _ _ Hb Hc') HV1).
    assert (∀ r, (∃ V2, attempts (look F text) F text None (start + len_utf8 ch) V1 r V2) → ∃ V2, attempts (look F text) F text None start V r V2) as Hback.
    { intros r' (V2&H2). exists V2. eapply attempts_next; [|done|done]. by rewrite (he_groups _ _ _ _ _ HF). }
    destruct r as [slots|]; cbn [answers_alike] in *; [|by apply Hback]. destruct IH as (j&Hj&E&Hf). exists j. split_and!; [done..|]. intros Hcl. by apply Hback, Hf.
Qed.

(** Bytes that hold no newline are characters that are none. *)
Lemma no_newline j : existsb (Z.eqb 10) (drop j (as_bytes text)) = false → ∀ i, j ≤ i → bound text i → char_at text i ≠ Some 10%Z.
Proof.
  intros Hn i Hi Hb Hc. apply not_true_iff_false in Hn. apply Hn. apply existsb_exists. exists 10%Z. split; [|done]. apply list_elem_of_In, list_elem_of_lookup.
  exists (i - j). rewrite lookup_drop. replace (j + (i - j)) with i by lia. by rewrite byte_at_bound, Hc.
Qed.
End headed.

(** * Where such programs come from *)

Lemma sequence_app Es Es' b : sequence (Es ++ Es') b = sequence Es b ≫= sequence Es'.
Proof. revert b. induction Es as [|E Es IH]; intros b; [done|]. cbn [app sequence]. destruct (E b) as [b1|]; [apply IH|done]. Qed.

Abbreviation filled := (filter (λ part, is_empty part = false)).

Lemma sequence_filled parts b : sequence (emit <$> parts) b = sequence (emit <$> filled parts) b.
Proof.
  revert b. induction parts as [|part parts IH]; intros b; [done|]. rewrite filter_cons. case_decide as Hd.
  - cbn [fmap list_fmap sequence]. destruct (emit part b) as [b1|]; [apply IH|done].
  - cbn [fmap list_fmap sequence]. destruct part; try done. apply IH.
Qed.

Lemma anchored_filled parts : anchored (Concat parts) = anchored (Concat (filled parts)).
Proof.
  induction parts as [|part parts IH]; [done|]. rewrite filter_cons. case_decide as Hd.
  - cbn [anchored]. by rewrite Hd.
  - cbn [anchored]. destruct (is_empty part); [apply IH|done].
Qed.

(** The whole of a program from what was emitted. *)
Lemma assemble_parts E is_anchored groups word P : assemble E is_anchored groups word = Ok P →
  ∃ b, E (mkBuilder [ISave 0] [] [] word) = Ok b ∧ p_insts P = bu_insts b ++ [ISave 1; IMatch] ∧ p_sets P = bu_sets b ∧ p_looks P = bu_looks b
    ∧ p_groups P = groups ∧ p_anchored P = is_anchored ∧ p_word P = bu_word b.
Proof.
  intros H. unfold assemble in H. apply bind_Ok in H as ([a0 b1]&E1&H). apply bind_Ok in H as (b2&E2&H). apply bind_Ok in H as ([a2 b3]&E3&H).
  apply bind_Ok in H as ([a3 b4]&E4&H). apply push_Ok in E1 as [_ ->]. apply push_Ok in E3 as [_ ->]. apply push_Ok in E4 as [_ ->].
  destruct (first_of _ _) as [f|]; [|done]. injection H as <-. exists b2. split_and!; [done| |done..]. cbn. by rewrite <-(assoc_L app).
Qed.

Lemma emit_dots newline greedy b b' : emit (Repeat (AnyChar newline) 0 None greedy) b = Ok b' →
  b' = with_insts (bu_insts b ++ [branch greedy (S (here b)) (3 + here b); IAny newline; IJump (here b)]) b.
Proof.
  cbn [emit]. unfold repeat. cbn [Nat.sub times Nat.eqb]. intros (b0&[= <-]&H)%bind_Ok. unfold star in H. apply bind_Ok in H as ([a b1]&E1&H). apply push_Ok in E1 as [-> E1].
  apply bind_Ok in H as (b2&E2%push_grows&H). apply bind_Ok in H as ([a3 b3]&E3&[= <-]). apply push_Ok in E3 as [_ E3].
  assert (here b1 = S (here b)) as H1 by (subst b1; apply push_here). assert (here b2 = S (here b1)) as H2 by (subst b2; apply push_here).
  assert (here b3 = S (here b2)) as H3 by (subst b3; apply push_here). rewrite H3, H2, H1. rewrite E3, E2, E1. unfold patch, with_insts, here. cbn [bu_insts bu_sets bu_looks bu_word].
  f_equal. rewrite <-!(assoc_L app). rewrite insert_app_r_alt by done. by rewrite Nat.sub_diag.
Qed.

Lemma trailing_rest_parts ast head newline : trailing_rest ast = Some (head, newline) →
  ∃ parts kept greedy, ast = Concat parts ∧ head = Concat kept ∧ filled parts = kept ++ [Repeat (AnyChar newline) 0 None greedy; Assert TextEnd].
Proof.
  unfold trailing_rest. destruct ast as [| | | | | |parts| | |]; try done. destruct (reverse (filled parts)) as [|last rest] eqn:E; [done|].
  intros H. repeat (case_match; try done). simplify_eq. eexists parts, _, _. split_and!; [done..|].
  rewrite <-(reverse_involutive (filled parts)), E, !reverse_cons, <-(assoc_L app). done.
Qed.

Lemma head_program ast head newline groups H F : tree_ok ast = true → trailing_rest ast = Some (head, newline) → compile head groups = Ok H → compile ast groups = Ok F →
  tree_ok head = true ∧ ∃ greedy, headed H F (length (p_insts H) - 2) newline greedy.
Proof.
  intros Ht (parts&kept&greedy&->&->&Ef)%trailing_rest_parts EH EF. assert (∀ x, x ∈ kept → x ∈ parts ∧ is_empty x = false) as Hin.
  { intros x Hx. assert (x ∈ filled parts) as Hx' by (rewrite Ef; apply elem_of_app; by left). apply list_elem_of_filter in Hx'. tauto. }
  split.
  { cbn [tree_ok] in *. rewrite forallb_forall in Ht |- *. intros x Hx%list_elem_of_In. apply Ht, list_elem_of_In. by apply Hin. }
  exists greedy. apply assemble_parts in EH as (b2&E2&H1&H2&H3&H4&H5&H6). apply assemble_parts in EF as (b4&E4&F1&F2&F3&F4&F5&F6).
  cbn [emit] in E2, E4. rewrite sequence_filled, Ef, fmap_app, sequence_app in E4. cbn [fmap list_fmap] in E4. rewrite E2 in E4. cbn [mbind result_bind sequence] in E4.
  apply bind_Ok in E4 as (b3&E3%emit_dots&E4). apply bind_Ok in E4 as (b5&E5&[= <-]). apply push_grows in E5.
  assert (length (p_insts H) - 2 = here b2) as -> by (rewrite H1, length_app; cbn; unfold here; lia).
  assert (p_insts F = bu_insts b2 ++ [branch greedy (S (here b2)) (3 + here b2); IAny newline; IJump (here b2); IAssert TextEnd; ISave 1; IMatch]) as EF.
  { rewrite F1, E5, E3. cbn. by rewrite <-!(assoc_L app). }
  assert (∀ k, p_insts F !! (k + here b2) = [branch greedy (S (here b2)) (3 + here b2); IAny newline; IJump (here b2); IAssert TextEnd; ISave 1; IMatch] !! k) as Hk.
  { intros k. rewrite EF, lookup_app_r by (unfold here; lia). f_equal. unfold here. lia. }
  split; try (by apply (Hk 0)); try (by apply (Hk 1)); try (by apply (Hk 2)); try (by apply (Hk 3)); try (by apply (Hk 4)); try (by apply (Hk 5)).
  - intros pc Hpc. rewrite EF, H1, !lookup_app_l by done. done.
  - rewrite F2, H2, E5, E3. done.
  - rewrite F3, H3, E5, E3. done.
  - by rewrite F6, H6, E5, E3.
  - congruence.
  - rewrite F5, H5, anchored_filled, Ef. destruct kept as [|x kept]; [done|]. cbn [app anchored]. destruct (Hin x) as [_ Hx]; [by left|]. by rewrite Hx.
  - rewrite EF, length_app. cbn. unfold here. lia.
Qed.

(** * The two runs *)

Lemma run_head text H F m R RF newline greedy start slots c : program_for text H m R → program_for text F (4 + m) RF → headed H F m newline greedy → text_ok text → bound text start →
  ∃ rH rF cH cF, run H text start false slots c = Some (returned slots rH cH) ∧ run F text start false slots c = Some (returned slots rF cF)
    ∧ match rH with
      | Some found => ∃ j, bound text j ∧ found !! 1 = Some (Some j) ∧ (clear text newline j → rF = Some (<[1 := Some (text_len text)]> found))
      | None => rF = None
      end.
Proof.
  intros HH HFp HF Htext Hb. pose proof (program_ready _ _ _ _ HFp) as Hready.
  destruct (run_program text H m R HH Htext start false slots c Hb) as (rH&cH&VH&EH&_&AH). destruct (run_program text F _ RF HFp Htext start false slots c Hb) as (rF&cF&VF&EF&_&AF).
  exists rH, rF, cH, cF. split_and!; [done..|]. rewrite (he_anchored _ _ _ _ _ HF), (he_groups _ _ _ _ _ HF) in AF. assert (low text m ∅) as H0 by (intros x Hx; set_solver).
  assert (answers_alike text newline (λ r, rF = r) rH) as Hal.
  { assert (∀ r Q Q', (∀ r, Q r → Q' r) → answers_alike text newline Q r → answers_alike text newline Q' r) as Hmono.
    { clear. intros [r|] Q Q' HQ; cbn; [|by apply HQ]. intros (j&?&?&Hf). exists j. split_and!; [done..|]. intros Hc. by apply HQ, Hf. }
    destruct (p_anchored H); cbn [negb andb] in AH, AF.
    - eapply Hmono; [|by eapply (head_here text H F m R)]. cbn. intros r (V2&H2). by destruct (explore_functional _ _ _ _ _ _ _ _ _ _ AF H2).
    - eapply Hmono; [|by eapply (head_attempts text H F m R)]. cbn. intros r (V2&H2). by eapply (attempts_functional F text false). }
  assert (∀ found, rH = Some found → length found = 2 * (p_groups H + 1)) as Hlen.
  { intros found ->. destruct (run_answer text H m R HH Htext start false slots c Hb) as (r&c'&E&Ha). rewrite EH in E. injection E as E. destruct r as [r|]; [|done]. cbn in E. simplify_eq.
    by destruct Ha as (s&_&_&(j&_&_&_&?)&_). }
  destruct rH as [found|]; [|done]. destruct Hal as (j&Hj&E&Hf). exists j. split_and!; [done| |done].
  rewrite E. apply list_lookup_insert_eq. rewrite (Hlen found eq_refl). lia.
Qed.

Lemma Regex_search_run ast groups re text start whole slots c : tree_ok ast = true → Regex_of ast groups = Ok re → text_ok text → bound text start →
  ∃ found slots1 slots2 c1 c2, Regex_search re text start whole slots c = Some (found, slots1, c1) ∧ run (re_program re) text start whole slots c = Some (found, slots2, c2)
    ∧ (found = true → slots1 = slots2).
Proof.
  intros Ht E Htext Hb. apply bind_Ok in E as (head&Eh&E). apply bind_Ok in E as (F&EF&[= <-]). cbn [re_program]. unfold Regex_search. cbn [re_head re_program].
  destruct (compile_program text None Htext ast groups F Ht EF) as (mF&HF&_).
  assert (∀ slots2 c2, ∃ found slots1 c1, run F text start whole slots2 c2 = Some (found, slots1, c1)
    ∧ ∃ slots3 c3, run F text start whole slots c = Some (found, slots3, c3) ∧ (found = true → slots1 = slots3)) as Hrun.
  { intros slots2 c2. destruct (run_program text F mF _ HF Htext start whole slots2 c2 Hb) as (r&c'&V&E1&Ev&_).
    destruct (run_program text F mF _ HF Htext start whole slots c Hb) as (r2&c3&V2&E2&Ev2&_). assert (r2 = r) as -> by congruence. rewrite E1, E2.
    destruct r as [r|]; cbn [returned]; [exists true, r, c'; split; [done|by exists r, c3]|exists false, slots2, c'; split; [done|by exists slots, c3]]. }
  destruct (Hrun slots c) as (found&slots1&c1&E1&_). assert (∃ found slots1 slots2 c1 c2, run F text start whole slots c = Some (found, slots1, c1)
    ∧ run F text start whole slots c = Some (found, slots2, c2) ∧ (found = true → slots1 = slots2)) as Hsame by by exists found, slots1, slots1, c1, c1.
  destruct head as [[H newline]|]; [|done]. destruct whole; [done|]. destruct (trailing_rest ast) as [[hast nl]|] eqn:Et; [|done].
  apply bind_Ok in Eh as (H'&EH&[= <- <-]). destruct (head_program ast hast nl groups H' F Ht Et EH EF) as (Hth&greedy&Hhd).
  destruct (compile_program text None Htext hast groups H' Hth EH) as (mH&HH&_). assert (length (p_insts H') - 2 = mH) as Em by (rewrite (pf_length _ _ _ _ HH); lia). rewrite Em in Hhd.
  assert (mF = 4 + mH) as -> by (pose proof (pf_length _ _ _ _ HF); pose proof (he_length _ _ _ _ _ Hhd); lia).
  destruct (run_head text H' F mH _ _ nl greedy start slots c HH HF Hhd Htext Hb) as (rH&rF&cH&cF&ErH&ErF&Hr). rewrite ErH, some_bind.
  destruct rH as [found'|]; cbn [returned negb].
  2:{ subst rF. rewrite ErF. by exists false, slots, slots, cH, cF. }
  destruct Hr as (j&Hj&Ej&Hcl). rewrite Ej. cbn [mjoin option_join]. rewrite length_as_bytes, (proj2 (Nat.ltb_ge _ _) (bound_le _ _ Hj)).
  assert (∀ rest, (if nl then Some [] else Some (drop j (as_bytes text))) = Some rest → nl || negb (existsb (Z.eqb 10) rest) = true → clear text nl j) as Hclear.
  { destruct nl; [by left|]. intros rest [= <-] Hn. cbn in Hn. right. by apply no_newline, negb_true_iff. }
  assert (∃ rest, (if nl then Some [] else Some (drop j (as_bytes text))) = Some rest) as (rest&Er) by (destruct nl; eauto). rewrite Er, some_bind.
  destruct (nl || negb (existsb (Z.eqb 10) rest)) eqn:Eq.
  - rewrite (Hcl (Hclear rest Er Eq)) in ErF. rewrite ErF. cbn [returned]. by eexists true, _, _, cH, cF.
  - destruct (Hrun found' cH) as (found2&slots2&c2&E2&slots3&c3&E3&Hs). rewrite E2, E3. by exists found2, slots2, slots3, c2, c3.
Qed.
