(* ===== verification/RegexReplace.v ===== *)
(** Replacing: the loop over the matches of a text ends, and what it writes is the text with each
    match rewritten and all that lies between them kept. *)

From S2P Require Import Prelude Regex RegexRun RegexDfs RegexPike RegexBack RegexFirst RegexAgree RegexMatch RegexCompile RegexProgram RegexTree RegexTail.
Local Open Scope nat_scope.

(** * Parts of a text *)

Lemma text_len_0 text : text_len text = 0 → text = [].
Proof. destruct text as [|ch text]; [done|]. rewrite text_len_cons. pose proof (len_utf8_pos ch). lia. Qed.

Section parts.
Context (text : Text).

Definition part (from to : nat) : Text := default [] (text_range text from to).

Lemma bound_split a b : bound text a → bound text b → a ≤ b → ∃ pre mid post, text = pre ++ mid ++ post ∧ a = text_len pre ∧ b = text_len pre + text_len mid.
Proof.
  intros (pre&post&E1&->) (pre'&post'&E2&->) Hle. rewrite E1 in E2. apply app_eq_inv in E2 as [(k&->&->)|(k&->&->)].
  - rewrite text_len_app in Hle. destruct k as [|ch k]; [exists pre', [], post; rewrite app_nil_r in *; split_and!; [done..|unfold text_len at 3; cbn; lia]|].
    rewrite text_len_cons in Hle. pose proof (len_utf8_pos ch). lia.
  - exists pre, k, post'. split_and!; [done..|]. by rewrite text_len_app.
Qed.

Lemma part_at pre mid post : text = pre ++ mid ++ post → text_range text (text_len pre) (text_len pre + text_len mid) = Some mid.
Proof.
  intros ->. unfold text_range. rewrite <-text_len_app, (assoc_L app pre mid post), text_to_at, some_bind. apply text_from_at.
Qed.

Lemma text_range_part a b : bound text a → bound text b → a ≤ b → text_range text a b = Some (part a b).
Proof. intros Ha Hb Hle. destruct (bound_split a b Ha Hb Hle) as (pre&mid&post&E&->&->). unfold part. by rewrite (part_at _ _ _ E). Qed.

Lemma text_from_part a : bound text a → text_from text a = Some (part a (text_len text)).
Proof.
  intros Ha. destruct (bound_split a (text_len text) Ha (bound_end _) (bound_le _ _ Ha)) as (pre&mid&post&E&->&El). unfold part.
  assert (post = []) as ->.
  { destruct post as [|ch post]; [done|]. rewrite E, !text_len_app, text_len_cons in El. pose proof (len_utf8_pos ch). lia. }
  rewrite El, (part_at _ _ _ E), E, app_nil_r. cbn [default from_option id]. apply text_from_at.
Qed.

Lemma text_to_part a : bound text a → text_to text a = Some (part 0 a).
Proof.
  intros (pre&post&E&->). unfold part. pose proof (part_at [] pre post E) as Hp. cbn in Hp. unfold text_len in Hp. cbn in Hp. fold (text_len pre) in Hp. rewrite Hp.
  rewrite E. apply text_to_at.
Qed.

Lemma part_app a b c : bound text a → bound text b → bound text c → a ≤ b → b ≤ c → part a b ++ part b c = part a c.
Proof.
  intros Ha Hb Hc H1 H2. destruct (bound_split a b Ha Hb H1) as (pre&mid&post&E&->&->). destruct (bound_split _ c Hb Hc H2) as (pre'&mid'&post'&E'&El&->).
  assert (pre' = pre ++ mid) as ->.
  { rewrite E, (assoc_L app) in E'. apply app_eq_inv in E' as [(k&Ek&_)|(k&Ek&_)].
    all: assert (text_len k = 0) as ->%text_len_0 by (apply (f_equal text_len) in Ek; rewrite !text_len_app in Ek; lia).
    all: by rewrite app_nil_r in Ek. }
  unfold part. rewrite (part_at pre mid post E). rewrite El, (part_at (pre ++ mid) mid' post' E').
  rewrite text_len_app, <-Nat.add_assoc, <-text_len_app. rewrite (part_at pre (mid ++ mid') post'); [done|]. by rewrite E', <-!(assoc_L app).
Qed.

Lemma part_char a ch : bound text a → char_at text a = Some ch → part a (a + len_utf8 ch) = [ch].
Proof.
  intros (pre&post&E&->) Hc. rewrite E, char_at_at in Hc. destruct post as [|x post]; [done|]. injection Hc as ->. unfold part.
  pose proof (part_at pre [ch] post E) as Hp. rewrite text_len_cons in Hp. cbn [text_len] in Hp. replace (len_utf8 ch + text_len []) with (len_utf8 ch) in Hp by (unfold text_len; cbn; lia). by rewrite Hp.
Qed.

Lemma part_empty a : bound text a → part a a = [].
Proof.
  intros (pre&post&E&->). pose proof (part_at pre [] post E) as Hp. unfold part. replace (text_len pre + text_len []) with (text_len pre) in Hp by (unfold text_len; cbn; lia). by rewrite Hp.
Qed.

Lemma part_all : part 0 (text_len text) = text.
Proof. pose proof (text_from_part 0 (bound_0 _)) as E. assert (text_from text 0 = Some text) as E' by by destruct text. congruence. Qed.
End parts.

(** * The matches a replacement goes over *)

Section weaving.
Context (text : Text) (M : Span).

(** From a position, after a match that ended somewhere: each match is the next one there is, and an
    empty one is not taken where the last one ended. *)
Inductive taken : nat → option nat → list (nat * nat) → Prop :=
| taken_none at_ last : (∀ s e, ¬ right_match text M false at_ s e) → taken at_ last []
| taken_some at_ last s e spans :
    right_match text M false at_ s e → ¬ (s = e ∧ last = Some s) → taken e (Some e) spans → taken at_ last ((s, e) :: spans)
| taken_after at_ ch spans :
    right_match text M false at_ at_ at_ → char_at text at_ = Some ch → taken (at_ + len_utf8 ch) (Some at_) spans → taken at_ (Some at_) spans
| taken_end : right_match text M false (text_len text) (text_len text) (text_len text) → taken (text_len text) (Some (text_len text)) [].

(** The text with each of the matches rewritten. *)
Fixpoint weave (rewritten : nat → nat → Text) (at_ : nat) (spans : list (nat * nat)) : Text :=
  match spans with
  | [] => part text at_ (text_len text)
  | (s, e) :: spans => part text at_ s ++ rewritten s e ++ weave rewritten e spans
  end.

(** What a rewrite of text and whole matches writes for one. *)
Fixpoint written (pieces : list Piece) (s e : nat) : Text :=
  match pieces with
  | [] => []
  | PText held :: pieces => held ++ written pieces s e
  | PGroup _ :: pieces => part text s e ++ written pieces s e
  end.

Definition plain (pieces : list Piece) : bool := forallb (λ piece, match piece with PText _ => true | PGroup index => index =? 0 end) pieces.

Lemma apply_written pieces slots s e : plain pieces = true → slots !! 0 = Some (Some s) → slots !! 1 = Some (Some e) → bound text s → bound text e → s ≤ e →
  ∀ out, apply_pieces pieces out text slots = Some (out ++ written pieces s e).
Proof.
  intros Hp H0 H1 Hs He Hle. induction pieces as [|piece pieces IH]; intros out; [cbn; by rewrite app_nil_r|]. cbn [plain forallb] in Hp. apply andb_true_iff in Hp as [Hpc Hp].
  destruct piece as [held|index]; cbn [apply_pieces written].
  - rewrite IH by done. by rewrite (assoc_L app).
  - apply Nat.eqb_eq in Hpc as ->. unfold capture_group. cbn [Nat.mul Nat.add]. rewrite H0, H1. cbn [mjoin option_join]. rewrite !some_bind.
    rewrite text_range_part, some_bind, IH by done. by rewrite (assoc_L app).
Qed.

Lemma taken_spans at_ last spans : taken at_ last spans → ∀ s e rest, spans = (s, e) :: rest → at_ ≤ s ∧ bound text s.
Proof.
  induction 1 as [at_ last H|at_ last s e spans H Hn _ _|at_ ch spans H Hc _ IH|H]; intros s' e' rest E; try done.
  - injection E as -> -> ->. destruct H as (Hb&_&Hle&_). done.
  - destruct (IH s' e' rest E). split; [lia|done].
Qed.

(** A character kept is one the rest does not begin with. *)
Lemma weave_char rewritten at_ ch last spans : bound text at_ → char_at text at_ = Some ch → taken (at_ + len_utf8 ch) last spans →
  [ch] ++ weave rewritten (at_ + len_utf8 ch) spans = weave rewritten at_ spans.
Proof.
  intros Hb Hc Ht. pose proof (bound_next _ _ _ Hb Hc) as Hn. rewrite <-(part_char text at_ ch Hb Hc). destruct spans as [|[s e] spans]; cbn [weave].
  - apply part_app; [done|done|apply bound_end|lia|by apply bound_le].
  - destruct (taken_spans _ _ _ Ht s e spans eq_refl) as [Hs Hbs]. rewrite (assoc_L app). f_equal. apply part_app; [done..|lia|done].
Qed.
End weaving.

(** * The loop *)

Section replacing.
Context (ast : Ast) (groups : nat) (re : RegexOf) (text : Text).
Context (Htree : tree_ok ast = true) (Hre : Regex_of ast groups = Ok re) (Htext : text_ok text).

Abbreviation M := (means text None ast).

Lemma search_right start whole slots c : bound text start →
  ∃ found slots' c', Regex_search re text start whole slots c = Some (found, slots', c') ∧
    if (found : bool) then ∃ s e, right_match text M whole start s e ∧ slots' !! 0 = Some (Some s) ∧ slots' !! 1 = Some (Some e) ∧ s ≤ e ∧ bound text e
    else ∀ s e, ¬ right_match text M whole start s e.
Proof.
  intros Hb. destruct (Regex_search_run ast groups re text start whole slots c Htree Hre Htext Hb) as (found&s1&s2&c1&c2&E1&E2&Hs).
  exists found, s1, c1. split; [done|]. assert (∃ P, compile ast groups = Ok P ∧ re_program re = P) as (P&EP&EPr).
  { apply bind_Ok in Hre as (head&_&E). apply bind_Ok in E as (P&EP&[= <-]). by exists P. }
  rewrite EPr in E2. destruct (run_right ast groups None P text start whole slots c Htree Htext EP Hb) as (r&c'&E&H). rewrite E in E2. injection E2 as E2.
  destruct r as [r|]; cbn [returned] in E2; simplify_eq; [|done]. rewrite Hs by done. done.
Qed.

Lemma captures slots s e : slots !! 0 = Some (Some s) → slots !! 1 = Some (Some e) → capture_start slots = s ∧ capture_end slots = e.
Proof. intros H0 H1. unfold capture_start, capture_end. by rewrite H0, H1. Qed.

Context (rewrite_ : Rewrite) (Hplain : plain (rw_pieces rewrite_) = true).

Abbreviation written := (written text (rw_pieces rewrite_)).
Abbreviation weave := (weave text written).

Definition turns (at_ : nat) (last : option nat) : nat := 2 * (text_len text - at_) + if decide (last = Some at_) then 1 else 2.

Lemma replace_all_loop_ok fuel : ∀ at_ last out slots c, bound text at_ → (∀ e, last = Some e → e ≤ at_) → turns at_ last ≤ fuel →
  ∃ spans after, replace_all_loop fuel re text rewrite_ at_ last out slots c = Some (out ++ weave at_ spans, after) ∧ taken text M at_ last spans.
Proof.
  induction fuel as [|fuel IH]; intros at_ last out slots c Hb Hl Hf; [unfold turns in Hf; case_decide; lia|]. cbn [replace_all_loop].
  pose proof (bound_le _ _ Hb) as Hle. rewrite (proj2 (Nat.ltb_ge _ _) Hle). destruct (search_right at_ false slots c Hb) as (found&slots'&c'&E&H). rewrite E, some_bind.
  destruct found; cbn [negb].
  2:{ rewrite text_from_part, some_bind by done. exists [], (slots', c'). split; [done|by constructor]. }
  destruct H as (s&e&Hr&H0&H1&Hse&Hbe). destruct (captures slots' s e H0 H1) as [-> ->]. pose proof Hr as (Hbs&HM&Has&Hno).
  assert ((if at_ <? s then between ← text_range text at_ s; Some (out ++ between) else Some out) = Some (out ++ part text at_ s)) as ->.
  { destruct (Nat.ltb_spec at_ s); [by rewrite text_range_part, some_bind by done|]. assert (s = at_) as -> by lia. by rewrite part_empty, app_nil_r. }
  rewrite some_bind. destruct ((s =? e) && bool_decide (last = Some s)) eqn:Ee.
  - apply andb_true_iff in Ee as [->%Nat.eqb_eq Elast%bool_decide_eq_true]. assert (e = at_) as -> by (specialize (Hl _ Elast); lia). subst last.
    rewrite part_empty, app_nil_r by done. rewrite bound_after, some_bind by done. destruct (char_at text at_) as [ch|] eqn:Hc.
    + pose proof (len_utf8_pos ch). pose proof (char_at_lt _ _ _ Hb Hc). pose proof (bound_next _ _ _ Hb Hc) as Hn. pose proof (bound_le _ _ Hn).
      destruct (IH (at_ + len_utf8 ch) (Some at_) (out ++ [ch]) slots' c' Hn) as (spans&after&E2&Ht).
      { intros e [= <-]. lia. }
      { unfold turns in *. rewrite decide_True in Hf by done. rewrite decide_False by (intros [=]; lia). lia. }
      exists spans, after. split; [|by eapply taken_after]. rewrite E2, <-(assoc_L app). by erewrite weave_char.
    + assert (at_ = text_len text) as -> by (destruct (bound_reached text at_ _ Hb (bound_end _) Hle) as [?|(ch&?&_)]; [done|congruence]).
      rewrite text_from_part, some_bind by done. exists [], (slots', c'). split; [done|by constructor].
  - rewrite (apply_written text _ slots' s e), some_bind by done. destruct (IH e (Some e) ((out ++ part text at_ s) ++ written s e) slots' c' Hbe) as (spans&after&E2&Ht).
    { by intros e' [= <-]. }
    { unfold turns in *. rewrite decide_True by done. pose proof (bound_le _ _ Hbe). case_decide as Hd; [|lia].
      destruct (decide (e = at_)) as [->|]; [|lia]. assert (s = at_) as -> by lia. by rewrite Hd, Nat.eqb_refl, bool_decide_eq_true_2 in Ee by done. }
    exists ((s, e) :: spans), after. split; [rewrite E2; cbn [RegexReplace.weave]; by rewrite <-!(assoc_L app)|]. constructor; [done| |done].
    intros [-> ->]. by rewrite Nat.eqb_refl, bool_decide_eq_true_2 in Ee by done.
Qed.
End replacing.

Lemma replace_into_weaves ast groups re text rewrite_ global out slots c :
  tree_ok ast = true → Regex_of ast groups = Ok re → text_ok text → plain (rw_pieces rewrite_) = true → rw_refused rewrite_ = false →
  ∃ spans after, replace_into re text rewrite_ global out slots c = Some (out ++ weave text (written text (rw_pieces rewrite_)) 0 spans, after)
    ∧ if (global : bool) then taken text (means text None ast) 0 None spans
      else spans = [] ∧ (∀ s e, ¬ right_match text (means text None ast) false 0 s e) ∨ ∃ s e, spans = [(s, e)] ∧ right_match text (means text None ast) false 0 s e.
Proof.
  intros Ht Hre Htext Hp Href. unfold replace_into. rewrite Href. destruct global.
  - unfold replace_all. apply (replace_all_loop_ok ast groups re text Ht Hre Htext rewrite_ Hp); [apply bound_0|done|]. unfold turns. case_decide; lia.
  - destruct (search_right ast groups re text Ht Hre Htext 0 false slots c (bound_0 _)) as (found&slots'&c'&E&H). rewrite E, some_bind. destruct found; cbn [negb].
    + destruct H as (s&e&Hr&H0&H1&Hse&Hbe). pose proof Hr as (Hbs&_). destruct (captures slots' s e H0 H1) as [-> ->]. rewrite text_to_part, some_bind by done.
      rewrite (apply_written text _ slots' s e), some_bind by done. rewrite text_from_part, some_bind by done. exists [(s, e)]. eexists. split; [|right; by exists s, e].
      cbn [weave]. by rewrite <-!(assoc_L app).
    + exists []. eexists. split; [cbn [weave]; by rewrite part_all|by left].
Qed.

(** The rewrite [\0] writes each match as it is. *)
Lemma weave_itself text M rewritten at_ last spans : (∀ s e, rewritten s e = part text s e) → taken text M at_ last spans → bound text at_ → (∀ s e, bound text s → M s e → s ≤ e ∧ bound text e) →
  weave text rewritten at_ spans = part text at_ (text_len text).
Proof.
  intros Hw H Hb HM. induction H as [at_ last H|at_ last s e spans H Hn Ht IH|at_ ch spans H Hc Ht IH|H]; [done| | |done].
  - destruct H as (Hbs&Hm&Hle&_). destruct (HM s e Hbs Hm) as [Hse Hbe]. cbn [weave]. rewrite Hw, (IH Hbe). pose proof (bound_le _ _ Hbe).
    pose proof (bound_end text) as Hend. rewrite (part_app text s e) by done. apply part_app; [done..|]. by apply bound_le.
  - rewrite <-(weave_char text M rewritten at_ ch (Some at_) spans Hb Hc Ht). rewrite (IH (bound_next _ _ _ Hb Hc)), <-(part_char text at_ ch Hb Hc).
    pose proof (bound_next _ _ _ Hb Hc) as Hn. apply part_app; [done|done|apply bound_end|lia|by apply bound_le].
Qed.

Lemma replace_itself ast groups re text asked global out slots c :
  tree_ok ast = true → Regex_of ast groups = Ok re → text_ok text →
  ∃ after, replace_into re text (Rewrite_new [92; 48]%Z asked) global out slots c = Some (out ++ text, after).
Proof.
  intros Ht Hre Htext. assert (Rewrite_new [92; 48]%Z asked = mkRewrite [PGroup 0] false) as Erw by by destruct asked. rewrite Erw.
  destruct (replace_into_weaves ast groups re text (mkRewrite [PGroup 0] false) global out slots c Ht Hre Htext eq_refl eq_refl) as (spans&after&E&H). exists after. rewrite E. do 3 f_equal.
  assert (∀ s e, written text (rw_pieces (mkRewrite [PGroup 0] false)) s e = part text s e) as Hw by (intros s e; apply app_nil_r).
  assert (∀ s e, bound text s → means text None ast s e → s ≤ e ∧ bound text e) as HM.
  { intros s e Hb Hm. apply bind_Ok in Hre as (head&_&E'). apply bind_Ok in E' as (P&EP&_). destruct (compile_program text None Htext ast groups P Ht EP) as (m&HP&_). by eapply matching_forward. }
  destruct global; [rewrite (weave_itself _ _ _ _ _ _ Hw H); [apply part_all|apply bound_0|done]|]. destruct H as [[-> _]|(s&e&->&Hb&Hm&_)]; [apply part_all|].
  destruct (HM s e Hb Hm) as [Hse He]. cbn [weave]. rewrite Hw. pose proof (bound_end text) as Hend. pose proof (bound_0 text) as H0. pose proof (bound_le _ _ He).
  rewrite (part_app text s e) by done. rewrite (part_app text 0 s) by (done || lia). apply part_all.
Qed.
