(* ===== verification/RegexParse.v ===== *)
(** The pattern parser, [rudb-regex/src/parse.rs], and the ways into the engine of
    [rudb-regex/src/lib.rs] that begin with a pattern.

    The case mappings and the letters of Unicode are tables of the standard library, and a parameter:
    [Unicode]. A panic, and a loop that runs out of turns, is the error [Internal]; neither happens. *)

From Stdlib Require Import Ascii.
From S2P Require Import Prelude Regex RegexRun.
Local Open Scope Z_scope.

(** * Characters *)

Definition lit (a : Ascii.ascii) : Z := Z.of_N (Ascii.N_of_ascii a).
Arguments lit a%_char.

(** A text as the bytes of a message. *)
Fixpoint string_of_bytes (bytes : list Z) : string :=
  match bytes with [] => EmptyString | byte :: bytes => String (Ascii.ascii_of_N (Z.to_N byte)) (string_of_bytes bytes) end.

Definition string_of_text (text : Text) : string := string_of_bytes (as_bytes text).

Definition from_u32 (value : Z) : option Z := if is_char value then Some value else None.

Definition to_digit (radix ch : Z) : option Z :=
  let digit := if (48 <=? ch) && (ch <=? 57) then Some (ch - 48)
    else if (97 <=? ch) && (ch <=? 122) then Some (ch - 97 + 10)
    else if (65 <=? ch) && (ch <=? 90) then Some (ch - 65 + 10) else None in
  digit ← digit; if digit <? radix then Some digit else None.

Definition is_ascii_uppercase (ch : Z) : bool := (65 <=? ch) && (ch <=? 90).
Definition is_ascii_lowercase (ch : Z) : bool := (97 <=? ch) && (ch <=? 122).
Definition to_ascii_lowercase (ch : Z) : Z := if is_ascii_uppercase ch then ch + 32 else ch.
Definition to_ascii_uppercase (ch : Z) : Z := if is_ascii_lowercase ch then ch - 32 else ch.

Record Unicode : Type := mkUnicode {
  to_lowercase : Z → list Z;
  to_uppercase : Z → list Z;
  is_alphanumeric : Z → bool }.

(** The mappings of a character give characters. *)
Class UnicodeLaws (u : Unicode) : Prop := {
  lower_chars : ∀ ch, is_char ch = true → Forall (λ c, is_char c = true) (to_lowercase u ch);
  upper_chars : ∀ ch, is_char ch = true → Forall (λ c, is_char c = true) (to_uppercase u ch) }.

(** * Named sets *)

Definition perl_class (ch : Z) : CharClass :=
  let low := to_ascii_lowercase ch in
  mkClass (is_ascii_uppercase ch)
    (if low =? lit "d" then [(lit "0", lit "9")]
     else if low =? lit "s" then [(9, 10); (12, 13); (32, 32)]
     else [(lit "0", lit "9"); (lit "A", lit "Z"); (lit "_", lit "_"); (lit "a", lit "z")]).

Definition posix_ranges (name : string) : option (list (Z * Z)) :=
  match name with
  | "alnum" => Some [(lit "0", lit "9"); (lit "A", lit "Z"); (lit "a", lit "z")]
  | "alpha" => Some [(lit "A", lit "Z"); (lit "a", lit "z")]
  | "ascii" => Some [(0, 127)]
  | "blank" => Some [(9, 9); (32, 32)]
  | "cntrl" => Some [(0, 31); (127, 127)]
  | "digit" => Some [(lit "0", lit "9")]
  | "graph" => Some [(lit "!", lit "~")]
  | "lower" => Some [(lit "a", lit "z")]
  | "print" => Some [(lit " ", lit "~")]
  | "punct" => Some [(lit "!", lit "/"); (lit ":", lit "@"); (lit "[", lit "`"); (lit "{", lit "~")]
  | "space" => Some [(9, 13); (32, 32)]
  | "upper" => Some [(lit "A", lit "Z")]
  | "word" => Some [(lit "0", lit "9"); (lit "A", lit "Z"); (lit "_", lit "_"); (lit "a", lit "z")]
  | "xdigit" => Some [(lit "0", lit "9"); (lit "A", lit "F"); (lit "a", lit "f")]
  | _ => None
  end%string.

Definition CHAR_MAX : Z := 1114111.

(** One range of the sorted ones, after [next] characters are dealt with. *)
Definition complement_step (state : list (Z * Z) * Z) (range : Z * Z) : list (Z * Z) * Z :=
  let '(out, next) := state in
  let out := if next <? range.1 then
      match from_u32 next, from_u32 (range.1 - 1) with
      | Some from, Some to => out ++ [(from, to)]
      | _, _ => out
      end
    else out in
  let next := Z.max next (range.2 + 1) in
  (out, if next =? 55296 then 57344 else next).

Definition complement (ranges : list (Z * Z)) : list (Z * Z) :=
  let '(out, next) := foldl complement_step ([], 0) (merge_sort pair_le ranges) in
  match from_u32 next with Some from => out ++ [(from, CHAR_MAX)] | None => out end.

(** * The parser *)

Record Flags : Type := mkFlags {
  case_insensitive : bool;
  dot_matches_newline : bool;
  multiline : bool;
  swap_greedy : bool }.

Record Parser : Type := mkParser {
  chars : Text;
  at_ : nat;
  groups : nat;
  flags : Flags }.

Definition move (p : Parser) (to : nat) : Parser := mkParser (chars p) to (groups p) (flags p).
Definition with_flags (p : Parser) (f : Flags) : Parser := mkParser (chars p) (at_ p) (groups p) f.

Definition fail (message : string) (fragment : Text) : Error := InvalidInput (message +:+ ": " +:+ string_of_text fragment).

Definition panic {A} : Result A := Err (Internal "panic").

(** [Err(fail(message, fragment))], of a fragment that is a slice of the pattern. *)
Definition refuse {A} (message : string) (fragment : option Text) : Result A :=
  match fragment with Some fragment => Err (fail message fragment) | None => panic end.

Definition peek (p : Parser) : option Z := chars p !! at_ p.
Definition ahead (p : Parser) (by_ : nat) : option Z := chars p !! (at_ p + by_)%nat.
Definition is_at (p : Parser) (ch : Z) : bool := bool_decide (peek p = Some ch).
Definition bump (p : Parser) : option Z * Parser := match peek p with Some ch => (Some ch, move p (S (at_ p))) | None => (None, p) end.
Definition eat (p : Parser) (ch : Z) : bool * Parser := if is_at p ch then (true, move p (S (at_ p))) else (false, p).

Definition P_text (p : Parser) (from to : nat) : option Text :=
  let to := Nat.min to (length (chars p)) in
  if (from <=? to)%nat then Some (take (to - from) (drop from (chars p))) else None.

Definition P_rest (p : Parser) (from : nat) : option Text := P_text p from (length (chars p)).

(** ** Repetitions *)

Definition MAX_REPEAT : nat := 1000.

Fixpoint number_loop (l : Text) (value at_ : nat) : nat * nat :=
  match l with
  | ch :: l => match to_digit 10 ch with
               | Some digit => number_loop l (Nat.min (value * 10 + Z.to_nat digit) (MAX_REPEAT + 1)) (S at_)
               | None => (value, at_)
               end
  | [] => (value, at_)
  end.

Definition number (p : Parser) (from : nat) : option (nat * nat) :=
  let '(value, at_) := number_loop (drop from (chars p)) 0 from in
  if (at_ =? from)%nat then None else Some (value, at_).

Definition counted (p : Parser) : option (nat * nat * option nat) :=
  if negb (is_at p (lit "{")) then None else
  '(least, at_) ← number p (at_ p + 1);
  '(most, at_) ← (if bool_decide (chars p !! at_ = Some (lit ",")) then
      let at_ := S at_ in
      if bool_decide (chars p !! at_ = Some (lit "}")) then Some (None, at_) else
      '(value, next) ← number p at_;
      Some (Some value, next)
    else Some (Some least, at_));
  if bool_decide (chars p !! at_ = Some (lit "}")) then Some (S at_, least, most) else None.

Definition repeat_ahead (p : Parser) : bool :=
  is_at p (lit "*") || is_at p (lit "+") || is_at p (lit "?") || bool_decide (is_Some (counted p)).

Definition skip_repeat (p : Parser) : Parser :=
  match counted p with
  | Some (end_, _, _) => move p end_
  | None => (eat (move p (S (at_ p))) (lit "?")).2
  end.

(** The operator at the cursor: its bounds, and the cursor after it. *)
Definition repeat_bounds (p : Parser) : Result (nat * option nat * Parser) :=
  if is_at p (lit "*") then Ok (0%nat, None, move p (S (at_ p)))
  else if is_at p (lit "+") then Ok (1%nat, None, move p (S (at_ p)))
  else if is_at p (lit "?") then Ok (0%nat, Some 1%nat, move p (S (at_ p)))
  else match counted p with
       | None => Err (Internal "a repetition operator that is not one")
       | Some (end_, least, most) =>
           match P_text p (at_ p) end_ with
           | None => panic
           | Some text =>
               if (MAX_REPEAT <? least)%nat || match most with Some most => (MAX_REPEAT <? most)%nat || (most <? least)%nat | None => false end
               then Err (fail "invalid repetition size" text)
               else Ok (least, most, move p end_)
           end
       end.

Definition P_repeat (p : Parser) (inner : Ast) : Result (Ast * Parser) :=
  let from := at_ p in
  '(least, most, p) ← repeat_bounds p;
  let '(lazy, p) := eat p (lit "?") in
  let greedy := if lazy then swap_greedy (flags p) else negb (swap_greedy (flags p)) in
  if repeat_ahead p then let p := skip_repeat p in refuse "bad repetition operator" (P_text p from (at_ p))
  else Ok (Repeat inner least most greedy, p).

Section unicode.
Context (u : Unicode).

(** ** Case *)

Definition simple_lower (ch : Z) : Z := match to_lowercase u ch with [one] => one | _ => ch end.
Definition simple_upper (ch : Z) : Z := match to_uppercase u ch with [one] => one | _ => ch end.

(** The other cases of a character that are not itself. *)
Definition others (ch : Z) : list (Z * Z) :=
  (λ other, (other, other)) <$> filter (λ other, other ≠ ch) [simple_lower ch; simple_upper ch].

Definition character (ch : Z) (case_insensitive : bool) : Ast :=
  if negb case_insensitive then Literal ch else
  let ranges := (ch, ch) :: others ch in
  if (length ranges =? 1)%nat then Literal ch else Class_ (mkClass false ranges).

Definition folds_of (range : Z * Z) : list (Z * Z) :=
  let '(low, high) := range in
  (if (low <=? lit "z") && (lit "a" <=? high) then [(to_ascii_uppercase (Z.max low (lit "a")), to_ascii_uppercase (Z.min high (lit "z")))] else [])
  ++ (if (low <=? lit "Z") && (lit "A" <=? high) then [(to_ascii_lowercase (Z.max low (lit "A")), to_ascii_lowercase (Z.min high (lit "Z")))] else [])
  ++ (if (low =? high) && negb (low <? 128) then others low else []).

Definition fold (ranges : list (Z * Z)) : list (Z * Z) := ranges ++ (ranges ≫= folds_of).

Definition literal (pattern : Text) (case_insensitive : bool) : Ast :=
  let pieces := (λ ch, character ch case_insensitive) <$> pattern in
  match pieces with [] => Empty | [piece] => piece | _ => Concat pieces end.

(** ** Escapes *)

Definition u32_max : Z := 2 ^ 32 - 1.

Fixpoint hex_loop (fuel : nat) (p : Parser) (from : nat) (value : Z) (digits : nat) : Result (Z * Parser) :=
  match fuel with
  | O => panic
  | S fuel =>
      match bump p with
      | (Some ch, p) =>
          if (ch =? lit "}") && (0 <? digits)%nat then Ok (value, p) else
          match to_digit 16 ch with
          | None => refuse "invalid escape sequence" (P_text p from (at_ p))
          | Some digit => hex_loop fuel p from (Z.min (Z.min (value * 16) u32_max + digit) u32_max) (S digits)
          end
      | (None, p) => refuse "invalid escape sequence" (P_rest p from)
      end
  end.

Fixpoint hex_two (n : nat) (p : Parser) (from : nat) (value : Z) : Result (Z * Parser) :=
  match n with
  | O => Ok (value, p)
  | S n => match (ch ← peek p; to_digit 16 ch) with
           | None => refuse "invalid escape sequence" (P_text p from (at_ p + 1))
           | Some digit => hex_two n (move p (S (at_ p))) from (value * 16 + digit)
           end
  end.

Definition hex (p : Parser) : Result (Z * Parser) :=
  if (at_ p <? 2)%nat then panic else
  let from := (at_ p - 2)%nat in
  let '(braced, p) := eat p (lit "{") in
  '(value, p) ← (if (braced : bool) then hex_loop (S (length (chars p))) p from 0 0 else hex_two 2 p from 0);
  match from_u32 value with
  | Some ch => Ok (ch, p)
  | None => refuse "invalid escape sequence" (P_text p from (at_ p))
  end.

Definition escaped (p : Parser) (ch : Z) : Result (Z * Parser) :=
  if ch =? lit "a" then Ok (7, p)
  else if ch =? lit "f" then Ok (12, p)
  else if ch =? lit "n" then Ok (10, p)
  else if ch =? lit "r" then Ok (13, p)
  else if ch =? lit "t" then Ok (9, p)
  else if ch =? lit "v" then Ok (11, p)
  else if ch =? lit "x" then hex p
  else if negb (is_alphanumeric u ch) then Ok (ch, p)
  else Err (fail "invalid escape sequence" [lit "\"; ch]).

Definition is_perl (ch : Z) : bool := existsb (Z.eqb ch) [lit "d"; lit "D"; lit "s"; lit "S"; lit "w"; lit "W"].

Definition escape (p : Parser) (from : nat) : Result (Ast * Parser) :=
  match bump p with
  | (None, p) => refuse "trailing \ at end of regexp" (P_rest p from)
  | (Some ch, p) =>
      if is_perl ch then Ok (Class_ (perl_class ch), p)
      else if ch =? lit "b" then Ok (Assert WordBoundary, p)
      else if ch =? lit "B" then Ok (Assert NotWordBoundary, p)
      else if ch =? lit "A" then Ok (Assert TextStart, p)
      else if ch =? lit "z" then Ok (Assert TextEnd, p)
      else '(ch, p) ← escaped p ch; Ok (character ch (case_insensitive (flags p)), p)
  end.

(** ** Sets *)

Inductive ClassItem : Type :=
| ItemChar (ch : Z)
| ItemSet (ranges : list (Z * Z)).

Definition class_item (p : Parser) (from : nat) : Result (ClassItem * Parser) :=
  match bump p with
  | (None, p) => refuse "missing ]" (P_rest p from)
  | (Some ch, p) =>
      if negb (ch =? lit "\") then Ok (ItemChar ch, p) else
      match bump p with
      | (None, p) => refuse "missing ]" (P_rest p from)
      | (Some after, p) =>
          if is_perl after then
            let class := perl_class after in
            Ok (ItemSet (if cl_negated class then complement (cl_ranges class) else cl_ranges class), p)
          else if after =? lit "b" then Ok (ItemChar 8, p)
          else '(ch, p) ← escaped p after; Ok (ItemChar ch, p)
      end
  end.

Fixpoint skip_letters (l : Text) (at_ : nat) : nat :=
  match l with ch :: l => if is_ascii_lowercase ch || is_ascii_uppercase ch then skip_letters l (S at_) else at_ | [] => at_ end.

(** [None] when the bracket is an ordinary character. *)
Definition posix (p : Parser) : Result (option (list (Z * Z)) * Parser) :=
  let at0 := (at_ p + 2)%nat in
  let negated := bool_decide (chars p !! at0 = Some (lit "^")) in
  let start := if negated then S at0 else at0 in
  let stop := skip_letters (drop start (chars p)) start in
  if negb (bool_decide (chars p !! stop = Some (lit ":"))) || negb (bool_decide (chars p !! S stop = Some (lit "]"))) then Ok (None, p) else
  match posix_ranges (string_of_text (take (stop - start) (drop start (chars p)))) with
  | None => refuse "invalid character class range" (P_text p (at_ p) (stop + 2))
  | Some ranges => Ok (Some (if negated then complement ranges else ranges), move p (stop + 2))
  end.

Fixpoint class_loop (fuel : nat) (p : Parser) (from : nat) (first : bool) (ranges : list (Z * Z)) : Result (list (Z * Z) * Parser) :=
  match fuel with
  | O => panic
  | S fuel =>
      match peek p with
      | None => refuse "missing ]" (P_rest p from)
      | Some ch =>
          if (ch =? lit "]") && negb first then Ok (ranges, move p (S (at_ p))) else
          '(named, p) ← (if (ch =? lit "[") && bool_decide (ahead p 1 = Some (lit ":")) then posix p else Ok (None, p));
          match named with
          | Some more => class_loop fuel p from false (ranges ++ more)
          | None =>
              '(item, p) ← class_item p from;
              match item with
              | ItemSet more => class_loop fuel p from false (ranges ++ more)
              | ItemChar low =>
                  if negb (is_at p (lit "-") && match ahead p 1 with Some c => negb (c =? lit "]") | None => false end)
                  then class_loop fuel p from false (ranges ++ [(low, low)]) else
                  let p := move p (S (at_ p)) in
                  let start := at_ p in
                  '(item, p) ← class_item p from;
                  match item with
                  | ItemSet _ => refuse "invalid character class range" (P_text p start (at_ p))
                  | ItemChar high =>
                      if high <? low then Err (fail "invalid character class range" [low; lit "-"; high])
                      else class_loop fuel p from false (ranges ++ [(low, high)])
                  end
              end
          end
      end
  end.

Definition P_class (p : Parser) (from : nat) : Result (CharClass * Parser) :=
  let '(negated, p) := eat p (lit "^") in
  '(ranges, p) ← class_loop (S (length (chars p))) p from true [];
  Ok (mkClass negated (if case_insensitive (flags p) then fold ranges else ranges), p).

(** ** Groups *)

(** Whether a group follows. *)
Fixpoint inline_flags (fuel : nat) (p : Parser) (from : nat) (on : bool) : Result (bool * Parser) :=
  match fuel with
  | O => panic
  | S fuel =>
      let set f p := inline_flags fuel (with_flags p f) from on in
      match bump p with
      | (Some ch, p) =>
          let '(mkFlags i s m U) := flags p in
          if ch =? lit "i" then set (mkFlags on s m U) p
          else if ch =? lit "s" then set (mkFlags i on m U) p
          else if ch =? lit "m" then set (mkFlags i s on U) p
          else if ch =? lit "U" then set (mkFlags i s m on) p
          else if ch =? lit "-" then inline_flags fuel p from false
          else if ch =? lit ":" then Ok (true, p)
          else if ch =? lit ")" then Ok (false, p)
          else refuse "invalid or unsupported Perl syntax" (P_rest p from)
      | (None, p) => refuse "invalid or unsupported Perl syntax" (P_rest p from)
      end
  end.

Fixpoint skip_name (fuel : nat) (p : Parser) (from : nat) : Result Parser :=
  match fuel with
  | O => panic
  | S fuel =>
      match bump p with
      | (Some ch, p) => if ch =? lit ">" then Ok p else skip_name fuel p from
      | (None, p) => refuse "invalid named capture group" (P_rest p from)
      end
  end.

(** How a group opens: [None] when it was only flags, or its capture number, which may be none. *)
Definition group_head (p : Parser) (from : nat) : Result (option (option nat) * Parser) :=
  let index := Some (groups p + 1)%nat in
  let '(asked, p) := eat p (lit "?") in
  if negb asked then Ok (Some index, p) else
  if is_at p (lit ":") then Ok (Some None, move p (S (at_ p))) else
  if is_at p (lit "P") || is_at p (lit "<") then
    let p := (eat p (lit "P")).2 in
    let '(named, p) := eat p (lit "<") in
    if negb named then refuse "invalid named capture group" (P_rest p from) else
    p ← skip_name (S (length (chars p))) p from;
    Ok (Some index, p)
  else
    '(more, p) ← inline_flags (S (length (chars p))) p from true;
    Ok (if (more : bool) then Some None else None, p).

Section inner.
(** What parses the inside of a group. *)
Context (inside : Parser → Result (Ast * Parser)).

Definition P_group (p : Parser) (from : nat) : Result (Ast * Parser) :=
  let saved := flags p in
  '(head, p) ← group_head p from;
  match head with
  | None => Ok (Empty, p)
  | Some index =>
      let p := match index with Some _ => mkParser (chars p) (at_ p) (groups p + 1) (flags p) | None => p end in
      '(inner, p) ← inside p;
      let '(closed, p) := eat p (lit ")") in
      if negb closed then refuse "missing )" (P_rest p from)
      else Ok (Group index inner, with_flags p saved)
  end.

Definition atom (p : Parser) : Result (Ast * Parser) :=
  let from := at_ p in
  match bump p with
  | (None, p) => Ok (Empty, p)
  | (Some ch, p) =>
      if ch =? lit "(" then P_group p from
      else if ch =? lit "[" then '(class, p) ← P_class p from; Ok (Class_ class, p)
      else if ch =? lit "." then Ok (AnyChar (dot_matches_newline (flags p)), p)
      else if ch =? lit "^" then Ok (Assert (if multiline (flags p) then LineStart else TextStart), p)
      else if ch =? lit "$" then Ok (Assert (if multiline (flags p) then LineEnd else TextEnd), p)
      else if ch =? lit "\" then escape p from
      else Ok (character ch (case_insensitive (flags p)), p)
  end.

(** The pieces so far, the last of them first. *)
Fixpoint concat_loop (fuel : nat) (p : Parser) (pieces : list Ast) : Result (list Ast * Parser) :=
  match fuel with
  | O => panic
  | S fuel =>
      match peek p with
      | None => Ok (reverse pieces, p)
      | Some ch =>
          if (ch =? lit "|") || (ch =? lit ")") then Ok (reverse pieces, p) else
          if repeat_ahead p then
            match pieces with
            | [] => let from := at_ p in let p := skip_repeat p in refuse "no argument for repetition operator" (P_text p from (at_ p))
            | last :: pieces => '(piece, p) ← P_repeat p last; concat_loop fuel p (piece :: pieces)
            end
          else '(piece, p) ← atom p; concat_loop fuel p (piece :: pieces)
      end
  end.

Definition concat_ (p : Parser) : Result (Ast * Parser) :=
  '(pieces, p) ← concat_loop (S (length (chars p))) p [];
  Ok (match pieces with [] => Empty | [piece] => piece | _ => Concat pieces end, p).

Fixpoint branches_loop (fuel : nat) (p : Parser) (branches : list Ast) : Result (list Ast * Parser) :=
  match fuel with
  | O => panic
  | S fuel =>
      let '(more, p) := eat p (lit "|") in
      if negb more then Ok (branches, p) else
      '(branch, p) ← concat_ p;
      branches_loop fuel p (branches ++ [branch])
  end.

Definition P_alternate (p : Parser) : Result (Ast * Parser) :=
  '(branch, p) ← concat_ p;
  '(branches, p) ← branches_loop (S (length (chars p))) p [branch];
  Ok (match branches with [branch] => branch | _ => Alternate branches end, p).
End inner.

(** A group in a group, as deep as there are characters. *)
Fixpoint nested (depth : nat) (p : Parser) : Result (Ast * Parser) :=
  match depth with O => panic | S depth => P_alternate (nested depth) p end.

Definition parse (pattern : Text) (case_insensitive dot_matches_newline : bool) : Result (Ast * nat) :=
  let p := mkParser pattern 0 0 (mkFlags case_insensitive dot_matches_newline false false) in
  '(ast, p) ← nested (S (length pattern)) p;
  if (at_ p <? length (chars p))%nat then Err (fail "unexpected )" pattern) else Ok (ast, groups p).
End unicode.

(** * From a pattern *)

Record Options : Type := mkOptions {
  o_case_insensitive : bool;
  o_dot_matches_newline : bool;
  o_literal : bool;
  o_global : bool }.

Definition Options_step (o : Options) (letter : Z) : Result Options :=
  let '(mkOptions i s l g) := o in
  if letter =? lit "c" then Ok (mkOptions false s l g)
  else if letter =? lit "i" then Ok (mkOptions true s l g)
  else if letter =? lit "l" then Ok (mkOptions i s true g)
  else if (letter =? lit "m") || (letter =? lit "n") || (letter =? lit "p") then Ok (mkOptions i false l g)
  else if letter =? lit "s" then Ok (mkOptions i true l g)
  else if letter =? lit "g" then Ok (mkOptions i s l true)
  else Err (InvalidInput ("Unrecognized Regex option " +:+ string_of_text [letter])).

Fixpoint Options_loop (o : Options) (spelling : Text) : Result Options :=
  match spelling with [] => Ok o | letter :: spelling => o ← Options_step o letter; Options_loop o spelling end.

Definition Options_parse (spelling : Text) : Result Options := Options_loop (mkOptions false false false false) spelling.

Definition with_options (u : Unicode) (pattern : Text) (o : Options) : Result RegexOf :=
  '(ast, groups) ← (if o_literal o then Ok (literal u pattern (o_case_insensitive o), 0%nat)
                    else parse u pattern (o_case_insensitive o) (o_dot_matches_newline o));
  Regex_of ast groups.

(** The slots of a thread, [FOUND], and its memo are handed in and out. *)
Definition find_at (re : RegexOf) (text : Text) (start : nat) (c : Cache) : option (option Slots * Cache) :=
  '(found, slots, c) ← Regex_search re text start false [] c;
  Some (if (found : bool) then Some slots else None, c).

Definition matches (re : RegexOf) (text : Text) (whole : bool) (slots : Slots) (c : Cache) : option (bool * Slots * Cache) :=
  Regex_search re text 0 whole slots c.

(** [text.get(from..to)] is [None] where a slice would panic. *)
Definition extract (re : RegexOf) (text : Text) (group : nat) (c : Cache) : option (option Text * Cache) :=
  '(found, c) ← find_at re text 0 c;
  Some (slots ← found; '(from, to) ← capture_group slots group; text_range text from to, c).

Definition replace (re : RegexOf) (text rewrite_ : Text) (global : bool) (slots : Slots) (c : Cache) : option (Text * (Slots * Cache)) :=
  replace_into re text (Rewrite_new rewrite_ (p_groups (re_program re))) global [] slots c.
