(* ===== verification/RegexPattern.v ===== *)
(** Patterns: what the parser accepts is a tree the compiler can take, what it refuses it refuses with
    a message, and it always ends. And complements: everything a set does not hold, save what
    lies below a range that begins just past the gap in the code points. *)

From Stdlib Require Import Ascii.
From S2P Require Import Prelude Regex RegexRun RegexDfs RegexMatch RegexParse.
Local Open Scope nat_scope.

(** * Results that fail with a message only *)

Definition sound {A} (r : Result A) (Q : A → Prop) : Prop := match r with Ok x => Q x | Err e => ∃ why, e = InvalidInput why end.

Lemma sound_bind {A B} (r : Result A) (f : A → Result B) Q Q' : sound r Q → (∀ x, Q x → sound (f x) Q') → sound (r ≫= f) Q'.
Proof. destruct r; cbn; intros H Hf; [by apply Hf|done]. Qed.

Lemma sound_mono {A} (r : Result A) Q Q' : sound r Q → (∀ x, Q x → Q' x) → sound r Q'.
Proof. destruct r; cbn; eauto. Qed.

(** A parser that went on by so many characters, and not past the end. *)
Record went (p : Parser) (k : nat) (p' : Parser) : Prop := {
  we_chars : chars p' = chars p;
  we_at : at_ p + k ≤ at_ p';
  we_end : at_ p' ≤ length (chars p) }.

Lemma went_trans p k p' k' p'' : went p k p' → went p' k' p'' → went p (k + k') p''.
Proof. intros [A1 A2 A3] [B1 B2 B3]. split; [congruence|lia|congruence]. Qed.

Lemma went_less p k k' p' : went p k p' → k' ≤ k → went p k' p'.
Proof. intros [A1 A2 A3] Hk. split; [done|lia|done]. Qed.

Lemma went_refl p : at_ p ≤ length (chars p) → went p 0 p.
Proof. intros H. split; [done|lia|done]. Qed.

Lemma went_flags p k p' f : went p k p' → went p k (with_flags p' f).
Proof. by intros [A1 A2 A3]. Qed.

Definition placed (p : Parser) : Prop := at_ p ≤ length (chars p) ∧ Forall (λ ch, is_char ch = true) (chars p).

Lemma went_placed p k p' : placed p → went p k p' → placed p'.
Proof. intros [H1 H2] [A1 A2 A3]. split; [by rewrite A1|by rewrite A1]. Qed.

Lemma peek_placed p ch : placed p → peek p = Some ch → is_char ch = true ∧ went p 1 (move p (S (at_ p))).
Proof.
  intros [H1 H2] E. unfold peek in E. split; [by eapply (Forall_lookup_1 _ _ _ _ H2)|]. apply lookup_lt_Some in E. split; cbn; [done|lia|lia].
Qed.

Lemma bump_placed p : placed p → match bump p with (Some ch, p') => is_char ch = true ∧ went p 1 p' | (None, p') => p' = p ∧ peek p = None end.
Proof. intros H. unfold bump. destruct (peek p) as [ch|] eqn:E; [by apply peek_placed|done]. Qed.

Lemma eat_placed p ch : placed p → match eat p ch with (true, p') => went p 1 p' | (false, p') => p' = p end.
Proof. intros H. unfold eat, is_at. case_bool_decide as E; [|done]. by apply (peek_placed p ch H E). Qed.

Lemma eat_went p ch : placed p → went p 0 (eat p ch).2.
Proof.
  intros H. pose proof (eat_placed p ch H) as He. destruct (eat p ch) as [[] p']; [eapply went_less; [exact He|lia]|]. subst. apply went_refl, H.
Qed.

Lemma refuse_sound {A} message p from to (Q : A → Prop) : from ≤ to → from ≤ length (chars p) → sound (refuse message (P_text p from to)) Q.
Proof. intros H1 H2. unfold P_text. rewrite (proj2 (Nat.leb_le from _)) by lia. by eexists. Qed.

Lemma rest_sound {A} message p from (Q : A → Prop) : from ≤ length (chars p) → sound (refuse message (P_rest p from)) Q.
Proof. intros H. by apply refuse_sound. Qed.

(** * Repetitions *)

Lemma number_loop_at l value at_ : at_ ≤ (number_loop l value at_).2 ≤ at_ + length l.
Proof.
  revert value at_. induction l as [|ch l IH]; intros value at_; [cbn; lia|]. cbn [number_loop length]. destruct (to_digit 10 ch) as [d|]; [|cbn; lia].
  specialize (IH (Nat.min (value * 10 + Z.to_nat d) (MAX_REPEAT + 1)) (S at_)). lia.
Qed.

Lemma number_at p from value to : number p from = Some (value, to) → from < to ≤ length (chars p).
Proof.
  unfold number. pose proof (number_loop_at (drop from (chars p)) 0 from) as H. destruct (number_loop _ _ _) as [v a]. cbn [snd] in H. rewrite length_drop in H.
  destruct (Nat.eqb_spec a from); [done|]. intros [= -> ->]. lia.
Qed.

Lemma counted_at p end_ least most : counted p = Some (end_, least, most) → at_ p + 1 < end_ ≤ length (chars p).
Proof.
  unfold counted. case_match; [done|]. intros H'. apply bind_Some in H' as ([l a]&Hn%number_at&H'). apply bind_Some in H' as ([m a']&Hm&H').
  case_bool_decide as Hc; [|done]. apply lookup_lt_Some in Hc. injection H' as <- <- <-. case_bool_decide.
  - case_bool_decide; [injection Hm as <- <-; lia|]. apply bind_Some in Hm as ([v n]&Hv%number_at&[= <- <-]). lia.
  - injection Hm as <- <-. lia.
Qed.

Lemma repeat_ahead_bump p : placed p → repeat_ahead p = true → at_ p < length (chars p) ∧ went p 1 (skip_repeat p).
Proof.
  intros Hw H. assert (at_ p < length (chars p)) as Hlt.
  { unfold repeat_ahead, is_at in H. repeat (apply orb_true_iff in H as [H|H]).
    1-3: apply bool_decide_eq_true in H; by apply lookup_lt_Some in H.
    apply bool_decide_eq_true in H as [[[e l] m] H%counted_at]. lia. }
  split; [done|]. unfold skip_repeat. destruct (counted p) as [[[e l] m]|] eqn:E.
  - apply counted_at in E. split; cbn; [done|lia|lia].
  - assert (went p 1 (move p (S (at_ p)))) as Hm by (split; cbn; [done|lia|lia]). eapply (went_trans p 1 _ 0); [done|]. apply eat_went. by eapply went_placed.
Qed.

Lemma repeat_bounds_sound p : placed p → repeat_ahead p = true →
  sound (repeat_bounds p) (λ r, went p 1 r.2 ∧ match r.1.2 with Some most => r.1.1 ≤ most | None => True end).
Proof.
  intros Hw Hr. destruct (repeat_ahead_bump p Hw Hr) as [Hlt _]. assert (went p 1 (move p (S (at_ p)))) as Hm by (split; cbn; [done|lia|lia]).
  unfold repeat_bounds. destruct (is_at p (lit "*")) eqn:E1; [done|]. destruct (is_at p (lit "+")) eqn:E2; [done|]. destruct (is_at p (lit "?")) eqn:E3; [split; [done|cbn; lia]|].
  unfold repeat_ahead in Hr. rewrite E1, E2, E3 in Hr. cbn [orb] in Hr. apply bool_decide_eq_true in Hr as [[[e l] m] E]. rewrite E. apply counted_at in E.
  unfold P_text. rewrite (proj2 (Nat.leb_le _ _)) by lia. destruct ((MAX_REPEAT <? l) || _) eqn:Eb; [by eexists|]. apply orb_false_iff in Eb as [_ Eb]. cbn. split; [split; cbn; [done|lia|lia]|].
  destruct m as [m|]; [|done]. apply orb_false_iff in Eb as [_ Eb%Nat.ltb_ge]. done.
Qed.

Lemma P_repeat_sound p inner : placed p → repeat_ahead p = true → tree_ok inner = true → sound (P_repeat p inner) (λ r, tree_ok r.1 = true ∧ went p 1 r.2).
Proof.
  intros Hw Hr Ht. unfold P_repeat. eapply sound_bind; [by apply repeat_bounds_sound|]. intros [[least most] p1] [H1 Hb]. cbn [fst snd] in *.
  pose proof (went_placed _ _ _ Hw H1) as Hw1. pose proof (eat_went p1 (lit "?") Hw1) as H2. destruct (eat p1 (lit "?")) as [lazy p2]. cbn [snd] in H2.
  pose proof (went_trans _ _ _ _ _ H1 H2) as H12. pose proof (went_placed _ _ _ Hw H12) as Hw2. destruct (repeat_ahead p2) eqn:E.
  - destruct (repeat_ahead_bump p2 Hw2 E) as [_ H3]. pose proof (went_trans _ _ _ _ _ H12 H3) as [A1 A2 A3]. apply refuse_sound; [lia|]. rewrite A1. lia.
  - cbn. split; [|eapply went_less; [exact H12|lia]]. rewrite Ht, andb_true_r. destruct most; [|done]. by apply Nat.leb_le.
Qed.

(** * Characters and sets *)

Definition range_ok (r : Z * Z) : Prop := is_char r.1 = true ∧ (r.1 ≤ r.2)%Z.

Lemma char_low ch : is_char ch = true → (0 ≤ ch)%Z.
Proof. unfold is_char. lia. Qed.

Lemma ascii_char ch : (0 ≤ ch < 128)%Z → is_char ch = true.
Proof. unfold is_char. lia. Qed.

Lemma from_u32_char value ch : from_u32 value = Some ch → is_char ch = true ∧ ch = value.
Proof. unfold from_u32. case_match; [|done]. intros [= <-]. done. Qed.

Lemma complement_ranges ranges : Forall range_ok ranges → Forall range_ok (complement ranges).
Proof.
  intros Hr. unfold complement. assert (Forall range_ok (merge_sort pair_le ranges)) as Hs by by rewrite merge_sort_Permutation. revert Hs. generalize (merge_sort pair_le ranges). intros l Hl.
  assert (∀ out next, Forall range_ok out → Forall range_ok (foldl complement_step (out, next) l).1) as H.
  { induction Hl as [|[low high] l Hx _ IH]; intros out next Ho; [done|]. cbn [foldl]. destruct (complement_step (out, next) (low, high)) as [out1 next1] eqn:E.
    apply IH. unfold complement_step in E. cbn [fst snd] in E. injection E as <- _.
    destruct (Z.ltb_spec next low); [|done]. destruct (from_u32 next) as [from|] eqn:E1; [|done]. destruct (from_u32 (low - 1)) as [to|] eqn:E2; [|done].
    apply from_u32_char in E1 as [? ->]. apply from_u32_char in E2 as [_ ->]. apply Forall_app. split; [done|]. constructor; [|constructor]. split; cbn; [done|lia]. }
  specialize (H [] 0%Z). destruct (foldl complement_step ([], 0%Z) l) as [out next]. cbn [fst] in H.
  destruct (from_u32 next) as [from|] eqn:E; [|by apply H]. apply from_u32_char in E as [Hc ->]. apply Forall_app. split; [by apply H|]. constructor; [|constructor].
  split; [done|]. unfold CHAR_MAX. cbn [fst snd]. unfold is_char in Hc. lia.
Qed.

Lemma ranges_check l : forallb (λ r, is_char r.1 && (r.1 <=? r.2)%Z) l = true → Forall range_ok l.
Proof. rewrite forallb_forall, Forall_forall. intros H x Hx%list_elem_of_In. specialize (H x Hx). apply andb_true_iff in H as [H1 H2%Z.leb_le]. done. Qed.

Lemma perl_ranges ch : Forall range_ok (cl_ranges (perl_class ch)).
Proof. unfold perl_class. cbn [cl_ranges]. repeat case_match; apply ranges_check; reflexivity. Qed.

Lemma posix_ranges_ok name ranges : posix_ranges name = Some ranges → Forall range_ok ranges.
Proof. unfold posix_ranges. intros H. repeat (case_match; try done); simplify_eq; apply ranges_check; reflexivity. Qed.

Section unicode.
Context (u : Unicode) (Hu : UnicodeLaws u).

Lemma simple_char ch l : is_char ch = true → Forall (λ c, is_char c = true) l → is_char (match l with [one] => one | _ => ch end) = true.
Proof. intros Hc Hl. destruct Hl as [|x l Hx Hl]; [done|]. by destruct l. Qed.

Lemma others_ranges ch : is_char ch = true → Forall range_ok (others u ch).
Proof.
  intros Hc. unfold others. apply Forall_fmap, Forall_forall. intros x [_ Hx]%list_elem_of_filter. split; [|done]. cbn.
  apply elem_of_cons in Hx as [->|[->|[]%elem_of_nil]%elem_of_cons]; (apply simple_char; [done|by apply Hu]).
Qed.

Lemma forallb_ranges l : Forall range_ok l → forallb (λ r, (0 <=? r.1)%Z && (r.1 <=? r.2)%Z) l = true.
Proof. intros H. apply forallb_forall. intros x Hx%list_elem_of_In. rewrite Forall_forall in H. destruct (H x Hx) as [Hc%char_low Hle]. lia. Qed.

Lemma character_ok ch fold : is_char ch = true → tree_ok (character u ch fold) = true.
Proof.
  intros Hc. unfold character. destruct fold; cbn [negb]; [|done]. case_match; [done|]. cbn [tree_ok]. apply forallb_ranges. constructor; [done|by apply others_ranges].
Qed.

Lemma folds_ranges range : range_ok range → Forall range_ok (folds_of u range).
Proof.
  destruct range as [low high]. intros [Hc Hr]. cbn [fst snd] in *. unfold folds_of. pose proof (char_low _ Hc).
  change (lit "z") with 122%Z. change (lit "a") with 97%Z. change (lit "Z") with 90%Z. change (lit "A") with 65%Z. rewrite !Forall_app. split_and!.
  - case_match; [|done]. constructor; [|constructor]. unfold to_ascii_uppercase, is_ascii_lowercase. split; cbn [fst snd]; [apply ascii_char|]; repeat case_match; lia.
  - case_match; [|done]. constructor; [|constructor]. unfold to_ascii_lowercase, is_ascii_uppercase. split; cbn [fst snd]; [apply ascii_char|]; repeat case_match; lia.
  - case_match; [|done]. by apply others_ranges.
Qed.

Lemma fold_ranges ranges : Forall range_ok ranges → Forall range_ok (fold u ranges).
Proof.
  intros H. unfold fold. apply Forall_app. split; [done|]. rewrite Forall_bind. eapply Forall_impl; [done|]. intros r. apply folds_ranges.
Qed.

(** * Escapes *)

(** A cursor from which a message may quote the pattern back to where a piece began. *)
Lemma quote_sound {A} message p k p' from to (Q : A → Prop) : placed p → went p k p' → from ≤ at_ p → at_ p ≤ to → sound (refuse message (P_text p' from to)) Q.
Proof. intros [H1 _] [A1 A2 A3] Hf Ht. apply refuse_sound; [lia|]. rewrite A1. lia. Qed.

Lemma quote_rest {A} message p k p' from (Q : A → Prop) : placed p → went p k p' → from ≤ at_ p → sound (refuse message (P_rest p' from)) Q.
Proof. intros [H1 _] [A1 A2 A3] Hf. apply rest_sound. rewrite A1. lia. Qed.

Lemma hex_loop_sound fuel : ∀ p from value digits, placed p → from ≤ at_ p → length (chars p) - at_ p < fuel → sound (hex_loop fuel p from value digits) (λ r, went p 1 r.2).
Proof.
  induction fuel as [|fuel IH]; intros p from value digits Hp Hf Hfu; [lia|]. cbn [hex_loop]. pose proof (bump_placed p Hp) as Hb. destruct (bump p) as [[ch|] p1].
  - destruct Hb as [_ Hg]. pose proof (went_placed _ _ _ Hp Hg) as Hp1. pose proof Hg as [A1 A2 A3]. case_match; [done|]. destruct (to_digit 16 ch) as [d|].
    + eapply sound_mono; [apply IH; [done|lia|rewrite A1; lia]|]. intros [v p2] H2. cbn [snd] in *. eapply went_less; [by eapply went_trans|lia].
    + apply (quote_sound _ p 1 p1); [done|done|lia|lia].
  - destruct Hb as [-> _]. eapply (quote_rest _ p 0); [done|apply went_refl, Hp|done].
Qed.

Lemma hex_two_sound n : ∀ p from value, placed p → from ≤ at_ p → sound (hex_two n p from value) (λ r, went p 0 r.2).
Proof.
  induction n as [|n IH]; intros p from value Hp Hf; [apply went_refl, Hp|]. cbn [hex_two]. destruct (peek p) as [ch|] eqn:E; cbn [mbind option_bind].
  2:{ apply (quote_sound _ p 0); [done|apply went_refl, Hp|done|lia]. }
  destruct (peek_placed p ch Hp E) as [_ Hg]. destruct (to_digit 16 ch) as [d|]; [|apply (quote_sound _ p 0); [done|apply went_refl, Hp|done|lia]].
  eapply sound_mono; [apply IH; [by eapply went_placed|cbn; lia]|]. intros [v p2] H2. cbn [snd] in *. eapply went_less; [by eapply went_trans|lia].
Qed.

Lemma hex_sound p : placed p → 2 ≤ at_ p → sound (hex p) (λ r, is_char r.1 = true ∧ went p 0 r.2).
Proof.
  intros Hp H2. unfold hex. rewrite (proj2 (Nat.ltb_ge _ _)) by lia. pose proof (eat_went p (lit "{") Hp) as Hg. destruct (eat p (lit "{")) as [braced p1]. cbn [snd] in Hg.
  pose proof (went_placed _ _ _ Hp Hg) as Hp1. pose proof Hg as [A1 A2 A3].
  apply (sound_bind _ _ (λ r, went p1 0 r.2)).
  - destruct braced; [|apply hex_two_sound; [done|lia]]. eapply sound_mono; [apply hex_loop_sound; [done|lia|lia]|]. intros r H. eapply went_less; [exact H|lia].
  - intros [value p2] H. cbn [snd] in H. pose proof (went_trans _ _ _ _ _ Hg H) as Hg2. pose proof Hg2 as [B1 B2 B3]. destruct (from_u32 value) as [ch|] eqn:E.
    + apply from_u32_char in E as [Hc _]. cbn. split; [done|]. eapply went_less; [done|lia].
    + eapply (quote_sound _ p); [done|done|lia|lia].
Qed.

Lemma escaped_sound p ch : placed p → is_char ch = true → 2 ≤ at_ p → sound (escaped u p ch) (λ r, is_char r.1 = true ∧ went p 0 r.2).
Proof.
  intros Hp Hc H2. pose proof (went_refl p (proj1 Hp)) as Hr. unfold escaped. repeat (case_match; [try (by split)|]); try (by apply hex_sound). by eexists.
Qed.

Lemma escape_sound p from : placed p → from < at_ p → sound (escape u p from) (λ r, tree_ok r.1 = true ∧ went p 1 r.2).
Proof.
  intros Hp Hf. unfold escape. pose proof (bump_placed p Hp) as Hb. destruct (bump p) as [[ch|] p1].
  2:{ destruct Hb as [-> _]. eapply (quote_rest _ p 0); [done|apply went_refl, Hp|lia]. }
  destruct Hb as [Hc Hg]. pose proof (went_placed _ _ _ Hp Hg) as Hp1. case_match; [split; [|done]; cbn; apply forallb_ranges, perl_ranges|].
  repeat (case_match; [by split|]). eapply sound_bind; [apply escaped_sound; [done|done|]|].
  { destruct Hg. lia. }
  intros [ch2 p2] [Hc2 Hg2]. cbn [fst snd] in *. split; [by apply character_ok|]. cbn. eapply went_less; [by eapply went_trans|lia].
Qed.

(** * Sets *)

Definition item_ok (item : ClassItem) : Prop := match item with ItemChar ch => is_char ch = true | ItemSet ranges => Forall range_ok ranges end.

Lemma class_item_sound p from : placed p → from < at_ p → sound (class_item u p from) (λ r, item_ok r.1 ∧ went p 1 r.2).
Proof.
  intros Hp Hf. unfold class_item. pose proof (bump_placed p Hp) as Hb. destruct (bump p) as [[ch|] p1].
  2:{ destruct Hb as [-> _]. eapply (quote_rest _ p 0); [done|apply went_refl, Hp|lia]. }
  destruct Hb as [Hc Hg]. pose proof (went_placed _ _ _ Hp Hg) as Hp1. case_match; [done|]. pose proof (bump_placed p1 Hp1) as Hb. destruct (bump p1) as [[after|] p2].
  2:{ destruct Hb as [-> _]. eapply (quote_rest _ p); [done|done|lia]. }
  destruct Hb as [Ha Hg2]. pose proof (went_trans _ _ _ _ _ Hg Hg2) as H12. pose proof (went_placed _ _ _ Hp H12) as Hp2. assert (went p 1 p2) as H1 by (eapply went_less; [done|lia]).
  case_match.
  { split; [|done]. cbn. case_match; [apply complement_ranges, perl_ranges|apply perl_ranges]. }
  case_match; [done|]. eapply sound_bind; [apply escaped_sound; [done|done|destruct H12; lia]|]. intros [ch2 p3] [Hc2 H3]. cbn [fst snd] in *.
  split; [done|]. eapply went_less; [by eapply went_trans|lia].
Qed.

Lemma skip_letters_at l at_ : at_ ≤ skip_letters l at_ ≤ at_ + length l.
Proof. revert at_. induction l as [|ch l IH]; intros at_; cbn [skip_letters length]; [lia|]. case_match; [|lia]. specialize (IH (S at_)). lia. Qed.

Lemma posix_sound p : placed p → sound (posix p) (λ r, match r.1 with Some ranges => Forall range_ok ranges ∧ went p 1 r.2 | None => r.2 = p end).
Proof.
  intros Hp. unfold posix. set (start := if bool_decide _ then _ else _). assert (at_ p + 2 ≤ start) as Hs by (unfold start; case_match; lia).
  pose proof (skip_letters_at (drop start (chars p)) start) as Hl. set (stop := skip_letters _ _) in *.
  destruct (_ || _) eqn:E; [done|]. apply orb_false_iff in E as [_ E%negb_false_iff%bool_decide_eq_true%lookup_lt_Some].
  destruct (posix_ranges _) as [ranges|] eqn:Er.
  - split; [apply posix_ranges_ok in Er; case_match; [by apply complement_ranges|done]|]. split; cbn; [done|lia|lia].
  - apply refuse_sound; [lia|apply Hp].
Qed.

Lemma class_loop_sound fuel : ∀ p from first ranges, placed p → from < at_ p → Forall range_ok ranges → length (chars p) - at_ p < fuel →
  sound (class_loop u fuel p from first ranges) (λ r, Forall range_ok r.1 ∧ went p 1 r.2).
Proof.
  induction fuel as [|fuel IH]; intros p from first ranges Hp Hf Hr Hfu; [lia|]. cbn [class_loop]. destruct (peek p) as [ch|] eqn:Ep.
  2:{ apply (quote_rest _ p 0); [done|apply went_refl, Hp|lia]. }
  destruct (peek_placed p ch Hp Ep) as [_ Hg]. case_match; [done|].
  assert (∀ p' more, went p 1 p' → Forall range_ok more → sound (class_loop u fuel p' from false (ranges ++ more)) (λ r, Forall range_ok r.1 ∧ went p 1 r.2)) as Hgo.
  { intros p' more Hg' Hm. pose proof Hg' as [A1 A2 A3]. eapply sound_mono; [apply IH; [by eapply went_placed|lia|by apply Forall_app|rewrite A1; lia]|].
    intros [l p2] [Hl H2]. cbn [fst snd] in *. split; [done|]. eapply went_less; [by eapply went_trans|lia]. }
  apply (sound_bind _ _ (λ r, match r.1 with Some more => Forall range_ok more ∧ went p 1 r.2 | None => r.2 = p end)); [case_match; [by apply posix_sound|done]|].
  intros [[more|] p1]; cbn [fst snd]; [by intros [Hm H1]; apply Hgo|]. intros ->. eapply sound_bind; [by apply class_item_sound|]. intros [[low|more] p1] [Hi H1]; cbn [fst snd item_ok] in *; [|by apply Hgo].
  case_match eqn:Em.
  { apply Hgo; [done|]. constructor; [done|constructor]. }
  apply negb_false_iff, andb_true_iff in Em as [Em _]. pose proof (went_placed _ _ _ Hp H1) as Hp1. unfold is_at in Em. apply bool_decide_eq_true in Em.
  destruct (peek_placed p1 _ Hp1 Em) as [_ Hg1]. set (p2 := move p1 (S (at_ p1))) in *. pose proof (went_trans _ _ _ _ _ H1 Hg1) as H12. pose proof (went_placed _ _ _ Hp H12) as Hp2.
  eapply sound_bind; [apply class_item_sound; [done|destruct H12; lia]|]. intros [[high|more] p3] [Hi3 H3]; cbn [fst snd item_ok] in *.
  - case_match; [by eexists|]. apply Hgo; [eapply went_less; [by eapply went_trans|lia]|]. constructor; [|constructor]. split; cbn; [done|lia].
  - eapply (quote_sound _ p2); [done|done|done|destruct H3; lia].
Qed.

Lemma P_class_sound p from : placed p → from < at_ p → sound (P_class u p from) (λ r, tree_ok (Class_ r.1) = true ∧ went p 1 r.2).
Proof.
  intros Hp Hf. unfold P_class. pose proof (eat_went p (lit "^") Hp) as Hg. destruct (eat p (lit "^")) as [negated p1]. cbn [snd] in Hg. pose proof (went_placed _ _ _ Hp Hg) as Hp1.
  eapply sound_bind; [apply class_loop_sound; [done|destruct Hg; lia|constructor|lia]|]. intros [ranges p2] [Hr H2]. cbn [fst snd] in *. split.
  - cbn [tree_ok fst cl_ranges]. apply forallb_ranges. case_match; [by apply fold_ranges|done].
  - cbn. eapply went_less; [by eapply went_trans|lia].
Qed.

(** * Groups *)

Lemma inline_flags_sound fuel : ∀ p from on, placed p → from < at_ p → length (chars p) - at_ p < fuel → sound (inline_flags fuel p from on) (λ r, went p 1 r.2).
Proof.
  induction fuel as [|fuel IH]; intros p from on Hp Hf Hfu; [lia|]. cbn [inline_flags]. pose proof (bump_placed p Hp) as Hb. destruct (bump p) as [[ch|] p1].
  2:{ destruct Hb as [-> _]. apply (quote_rest _ p 0); [done|apply went_refl, Hp|lia]. }
  destruct Hb as [_ Hg]. pose proof (went_placed _ _ _ Hp Hg) as Hp1. pose proof Hg as [A1 A2 A3]. destruct (flags p1) as [i s m U].
  assert (∀ f on', sound (inline_flags fuel (with_flags p1 f) from on') (λ r, went p 1 r.2)) as Hset.
  { intros f on'. eapply sound_mono; [apply IH; [apply Hp1|cbn; lia|cbn; rewrite A1; lia]|]. intros [more p2] H2. cbn [snd] in *.
    eapply went_less; [eapply went_trans; [by apply (went_flags p 1 p1 f)|exact H2]|lia]. }
  repeat (case_match; [by apply Hset|]). case_match; [|case_match; [done|case_match; [done|]]].
  - eapply sound_mono; [apply IH; [done|lia|rewrite A1; lia]|]. intros [more p2] H2'. cbn [snd] in *. eapply went_less; [by eapply went_trans|lia].
  - apply (quote_rest _ p 1); [done|done|lia].
Qed.

Lemma skip_name_sound fuel : ∀ p from, placed p → from < at_ p → length (chars p) - at_ p < fuel → sound (skip_name fuel p from) (went p 1).
Proof.
  induction fuel as [|fuel IH]; intros p from Hp Hf Hfu; [lia|]. cbn [skip_name]. pose proof (bump_placed p Hp) as Hb. destruct (bump p) as [[ch|] p1].
  2:{ destruct Hb as [-> _]. apply (quote_rest _ p 0); [done|apply went_refl, Hp|lia]. }
  destruct Hb as [_ Hg]. pose proof (went_placed _ _ _ Hp Hg) as Hp1. pose proof Hg as [A1 A2 A3]. case_match; [done|].
  eapply sound_mono; [apply IH; [done|lia|rewrite A1; lia]|]. intros p2 H2. eapply went_less; [by eapply went_trans|lia].
Qed.

Lemma group_head_sound p from : placed p → from < at_ p →
  sound (group_head p from) (λ r, went p 0 r.2 ∧ match r.1 with Some (Some index) => 1 ≤ index | _ => True end).
Proof.
  intros Hp Hf. unfold group_head. pose proof (eat_went p (lit "?") Hp) as Hg. destruct (eat p (lit "?")) as [asked p1]. cbn [snd] in Hg. pose proof (went_placed _ _ _ Hp Hg) as Hp1.
  case_match; [split; [done|cbn; lia]|]. destruct (is_at p1 (lit ":")) eqn:Ec.
  { unfold is_at in Ec. apply bool_decide_eq_true in Ec. destruct (peek_placed p1 _ Hp1 Ec) as [_ H1]. split; [|done]. cbn. eapply went_less; [by eapply went_trans|lia]. }
  case_match.
  - pose proof (eat_went p1 (lit "P") Hp1) as H1. pose proof (went_trans _ _ _ _ _ Hg H1) as H01. pose proof (went_placed _ _ _ Hp H01) as Hp2. set (p2 := (eat p1 (lit "P")).2) in *.
    pose proof (eat_went p2 (lit "<") Hp2) as H3. destruct (eat p2 (lit "<")) as [named p3]. cbn [snd] in H3. pose proof (went_trans _ _ _ _ _ H01 H3) as H03. pose proof (went_placed _ _ _ Hp H03) as Hp3.
    case_match; [eapply (quote_rest _ p); [done|done|lia]|]. eapply sound_bind; [apply skip_name_sound; [done|destruct H03; lia|lia]|]. intros p4 H4.
    split; [|cbn; lia]. cbn. eapply went_less; [by eapply went_trans|lia].
  - eapply sound_bind; [apply inline_flags_sound; [done|destruct Hg; lia|lia]|]. intros [more p2] H2. cbn [fst snd] in *. split; [|by destruct more]. cbn. eapply went_less; [by eapply went_trans|lia].
Qed.

Section inside.
Context (inside : Parser → Result (Ast * Parser)) (depth : nat).
Context (Hinside : ∀ p, placed p → length (chars p) - at_ p < depth → sound (inside p) (λ r, tree_ok r.1 = true ∧ went p 0 r.2)).

Lemma P_group_sound p from : placed p → from < at_ p → length (chars p) - at_ p < depth → sound (P_group inside p from) (λ r, tree_ok r.1 = true ∧ went p 0 r.2).
Proof.
  intros Hp Hf Hd. unfold P_group. eapply sound_bind; [by apply group_head_sound|]. intros [[index|] p1] [Hg Hi]; cbn [fst snd] in *; [|done].
  set (p2 := match index with Some _ => _ | None => _ end). assert (went p 0 p2) as Hg2 by (unfold p2; by destruct index, Hg). pose proof (went_placed _ _ _ Hp Hg2) as Hp2.
  eapply sound_bind; [apply Hinside; [done|destruct Hg2 as [-> ? ?]; lia]|]. intros [inner p3] [Ht H3]. cbn [fst snd] in *.
  pose proof (went_trans _ _ _ _ _ Hg2 H3) as H03. pose proof (went_placed _ _ _ Hp H03) as Hp3. pose proof (eat_went p3 (lit ")") Hp3) as H4. destruct (eat p3 (lit ")")) as [closed p4]. cbn [snd] in H4.
  pose proof (went_trans _ _ _ _ _ H03 H4) as H04. destruct closed; cbn [negb]; [|eapply (quote_rest _ p); [done|done|lia]]. split; [|by apply went_flags].
  cbn [tree_ok fst]. rewrite Ht, andb_true_r. destruct index; [by apply Nat.leb_le|done].
Qed.

Lemma atom_sound p ch : placed p → peek p = Some ch → length (chars p) - at_ p < S depth → sound (atom u inside p) (λ r, tree_ok r.1 = true ∧ went p 1 r.2).
Proof.
  intros Hp Ep Hd. unfold atom. destruct (peek_placed p ch Hp Ep) as [Hc Hg]. unfold bump. rewrite Ep. set (p1 := move p (S (at_ p))) in *. pose proof (went_placed _ _ _ Hp Hg) as Hp1.
  pose proof Hg as [A1 A2 A3]. assert (at_ p < at_ p1) as Hlt by lia. assert (∀ q k, went p1 k q → went p 1 q) as Hgo by (intros q k H; eapply went_less; [by eapply went_trans|lia]).
  case_match; [eapply sound_mono; [apply P_group_sound; [done|done|rewrite A1; lia]|intros [x q] [? ?]; split; [done|by eapply Hgo]]|].
  case_match; [eapply sound_bind; [by apply P_class_sound|]; intros [class q] [? ?]; split; [done|by eapply Hgo]|]. repeat (case_match; [by split; [try case_match|]|]).
  case_match; [eapply sound_mono; [by apply escape_sound|intros [x q] [? ?]; split; [done|by eapply Hgo]]|]. split; [by apply character_ok|done].
Qed.

Lemma concat_loop_sound fuel : ∀ p pieces, placed p → length (chars p) - at_ p < S depth → length (chars p) - at_ p < fuel → Forall (λ x, tree_ok x = true) pieces →
  sound (concat_loop u inside fuel p pieces) (λ r, Forall (λ x, tree_ok x = true) r.1 ∧ went p 0 r.2).
Proof.
  induction fuel as [|fuel IH]; intros p pieces Hp Hd Hfu Hps; [lia|]. cbn [concat_loop]. pose proof (went_refl p (proj1 Hp)) as Hr.
  destruct (peek p) as [ch|] eqn:Ep; [|split; [by apply Forall_reverse|done]]. case_match; [split; [by apply Forall_reverse|done]|].
  assert (∀ x q pieces, Forall (λ x, tree_ok x = true) pieces → tree_ok x = true → went p 1 q → sound (concat_loop u inside fuel q (x :: pieces)) (λ r, Forall (λ x, tree_ok x = true) r.1 ∧ went p 0 r.2)) as Hgo.
  { intros x q pieces' Hps' Hx Hg. pose proof Hg as [A1 A2 A3]. eapply sound_mono; [apply IH; [by eapply went_placed|rewrite A1; lia|rewrite A1; lia|by constructor]|].
    intros [l q2] [Hl H2]. split; [done|]. cbn [snd] in *. eapply went_less; [by eapply went_trans|lia]. }
  destruct (repeat_ahead p) eqn:Er.
  - destruct Hps as [|last pieces Hl Hps].
    + destruct (repeat_ahead_bump p Hp Er) as [_ Hg]. eapply (quote_sound _ p); [done|done|done|destruct Hg; lia].
    + eapply sound_bind; [by apply P_repeat_sound|]. intros [x q] [Hx Hg]. by apply Hgo.
  - eapply sound_bind; [by eapply atom_sound|]. intros [x q] [Hx Hg]. by apply Hgo.
Qed.

Lemma concat_sound p : placed p → length (chars p) - at_ p < S depth → sound (concat_ u inside p) (λ r, tree_ok r.1 = true ∧ went p 0 r.2).
Proof.
  intros Hp Hd. unfold concat_. eapply sound_bind; [apply concat_loop_sound; [done|done|lia|constructor]|]. intros [pieces q] [Hps Hg]. split; [|done]. cbn [fst snd] in *.
  destruct Hps as [|x l Hx Hl]; [done|]. destruct Hl as [|y l Hy Hl]; [done|]. cbn [tree_ok]. apply forallb_forall. intros z Hz%list_elem_of_In.
  assert (Forall (λ x, tree_ok x = true) (x :: y :: l)) as Hall by (by repeat constructor). rewrite Forall_forall in Hall. by apply Hall.
Qed.

Lemma branches_loop_sound fuel : ∀ p branches, placed p → length (chars p) - at_ p < S depth → length (chars p) - at_ p < fuel → Forall (λ x, tree_ok x = true) branches →
  sound (branches_loop u inside fuel p branches) (λ r, (Forall (λ x, tree_ok x = true) r.1 ∧ length branches ≤ length r.1) ∧ went p 0 r.2).
Proof.
  induction fuel as [|fuel IH]; intros p branches Hp Hd Hfu Hb; [lia|]. cbn [branches_loop]. pose proof (eat_placed p (lit "|") Hp) as He. destruct (eat p (lit "|")) as [[] p1].
  2:{ subst p1. split; [done|]. apply went_refl, Hp. }
  cbn [negb]. pose proof (went_placed _ _ _ Hp He) as Hp1. pose proof He as [A1 A2 A3]. eapply sound_bind; [apply concat_sound; [done|rewrite A1; lia]|]. intros [x q] [Hx Hg]. cbn [fst snd] in *.
  pose proof (went_trans _ _ _ _ _ He Hg) as H0. pose proof H0 as [B1 B2 B3]. eapply sound_mono; [apply IH; [by eapply went_placed|rewrite B1; lia|rewrite B1; lia|by apply Forall_app; split; [|constructor]]|].
  intros [l q2] [[Hl Hn] H2]. cbn [fst snd] in *. rewrite length_app in Hn. split; [split; [done|lia]|]. eapply went_less; [by eapply went_trans|lia].
Qed.

Lemma P_alternate_sound p : placed p → length (chars p) - at_ p < S depth → sound (P_alternate u inside p) (λ r, tree_ok r.1 = true ∧ went p 0 r.2).
Proof.
  intros Hp Hd. unfold P_alternate. eapply sound_bind; [by apply concat_sound|]. intros [x q] [Hx Hg]. cbn [fst snd] in *. pose proof Hg as [A1 A2 A3]. pose proof (went_placed _ _ _ Hp Hg) as Hq.
  eapply sound_bind; [apply branches_loop_sound; [done|rewrite A1; lia|lia|by constructor]|]. intros [l q2] [[Hl Hn] H2]. cbn [fst snd] in *.
  split; [|cbn; eapply went_less; [by eapply went_trans|lia]]. cbn [fst]. destruct Hl as [|y l Hy Hl]; [cbn in Hn; lia|]. destruct Hl as [|z l Hz Hl]; [done|].
  cbn [tree_ok]. apply andb_true_iff. split; [done|]. apply forallb_forall. intros w Hw%list_elem_of_In.
  assert (Forall (λ x, tree_ok x = true) (y :: z :: l)) as Hall by (by repeat constructor). rewrite Forall_forall in Hall. by apply Hall.
Qed.
End inside.

Lemma nested_sound depth : ∀ p, placed p → length (chars p) - at_ p < depth → sound (nested u depth p) (λ r, tree_ok r.1 = true ∧ went p 0 r.2).
Proof. induction depth as [|depth IH]; intros p Hp Hd; [lia|]. cbn [nested]. by apply (P_alternate_sound (nested u depth) depth IH). Qed.

Lemma parse_sound pattern case_insensitive dot_matches_newline : text_ok pattern →
  sound (parse u pattern case_insensitive dot_matches_newline) (λ r, tree_ok r.1 = true).
Proof.
  intros Hp. unfold parse. eapply sound_bind; [apply nested_sound; [split; [cbn; lia|done]|cbn; lia]|]. intros [ast p] [Ht _]. case_match; [by eexists|done].
Qed.

Lemma literal_ok pattern case_insensitive : text_ok pattern → tree_ok (literal u pattern case_insensitive) = true.
Proof.
  intros Hp. unfold literal. assert (Forall (λ x, tree_ok x = true) ((λ ch, character u ch case_insensitive) <$> pattern)) as H.
  { apply Forall_fmap. eapply Forall_impl; [exact Hp|]. intros ch Hc. by apply character_ok. }
  revert H. generalize ((λ ch, character u ch case_insensitive) <$> pattern). intros l Hl. destruct Hl as [|x l Hx Hl]; [done|]. destruct Hl as [|y l Hy Hl]; [done|].
  cbn [tree_ok]. apply forallb_forall. intros z Hz%list_elem_of_In. assert (Forall (λ x, tree_ok x = true) (x :: y :: l)) as Hall by (by repeat constructor).
  rewrite Forall_forall in Hall. by apply Hall.
Qed.
End unicode.

(** * Complements *)

Section complements.
Local Open Scope Z_scope.

(** A character, or one past the last of them. *)
Definition next_ok (next : Z) : Prop := is_char next = true ∨ next = CHAR_MAX + 1.

Definition char_range (r : Z * Z) : Prop := is_char r.1 = true ∧ is_char r.2 = true ∧ r.1 ≤ r.2.

(** Below a range that begins at U+E000, the first character past the surrogates, and above every
    range that begins before them. *)
Definition lost_below_gap (ranges : list (Z * Z)) (ch : Z) : bool :=
  (ch <? 57344) && existsb (λ r, r.1 =? 57344) ranges && negb (existsb (λ r, (ch <? r.1) && (r.1 <? 57344)) ranges).

Lemma in_ranges_app l l' ch : in_ranges (l ++ l') ch = in_ranges l ch || in_ranges l' ch.
Proof. unfold in_ranges. apply existsb_app. Qed.

Lemma in_ranges_one low high ch : in_ranges [(low, high)] ch = (low <=? ch) && (ch <=? high).
Proof. unfold in_ranges. cbn [existsb fst snd]. by rewrite orb_false_r. Qed.

Lemma in_ranges_cons low high l ch : in_ranges ((low, high) :: l) ch = (low <=? ch) && (ch <=? high) || in_ranges l ch.
Proof. done. Qed.

(** One step adds the gap before the range, unless the range begins at U+E000. *)
Lemma complement_step_in out next low high out' next' : char_range (low, high) → next_ok next → complement_step (out, next) (low, high) = (out', next') →
  next_ok next' ∧ next ≤ next' ∧ high < next' ∧ (∀ ch, is_char ch = true → next ≤ ch → high < ch → next' ≤ ch)
  ∧ ∀ ch, is_char ch = true → in_ranges out' ch = in_ranges out ch || (next <=? ch) && (ch <? low) && negb (low =? 57344).
Proof.
  intros (Hl&Hh&Hle) Hn E. unfold complement_step in E. cbn [fst snd] in *. injection E as <- <-. unfold next_ok, CHAR_MAX in *. unfold is_char in *.
  split_and!.
  - destruct (Z.eqb_spec (Z.max next (high + 1)) 55296); [by left|]. destruct (Z.max_spec next (high + 1)) as [[? ->]|[? ->]]; [|done]. destruct (decide (high = 1114111)); [right; lia|left; lia].
  - case_match; lia.
  - case_match; lia.
  - intros ch Hc Hnc Hhc. destruct (Z.eqb_spec (Z.max next (high + 1)) 55296); lia.
  - intros ch Hc. destruct (Z.ltb_spec next low).
    + unfold from_u32. assert (is_char next = true) as -> by (unfold is_char; lia). destruct (Z.eqb_spec low 57344) as [->|Hne].
      * rewrite andb_false_r, orb_false_r. done.
      * assert (is_char (low - 1) = true) as -> by (unfold is_char; lia). rewrite in_ranges_app, in_ranges_one, andb_true_r. f_equal. lia.
    + replace ((next <=? ch) && (ch <? low)) with false by lia. by rewrite orb_false_r.
Qed.

Lemma starts_above low high l : Forall (pair_le (low, high)) l → Forall (λ r, low ≤ r.1) l.
Proof. intros H. eapply Forall_impl; [exact H|]. intros r. unfold pair_le. cbn [fst snd]. lia. Qed.

Lemma none_below l ch low : Forall (λ r, low ≤ r.1) l → ch < low → in_ranges l ch = false.
Proof.
  intros Hl Hlt. apply not_true_iff_false. intros Hin. unfold in_ranges in Hin. apply existsb_exists in Hin as (r&Hr%list_elem_of_In&Hin). rewrite Forall_forall in Hl. specialize (Hl r Hr). lia.
Qed.

(** What the ranges after the first say of what is lost, the first being the one that begins lowest. *)
Lemma lost_cons low high l ch : Forall (λ r, low ≤ r.1) l → lost_below_gap ((low, high) :: l) ch = if ch <? low then low =? 57344 else lost_below_gap l ch.
Proof.
  intros Hl. unfold lost_below_gap. cbn [existsb fst snd]. destruct (Z.ltb_spec ch low) as [Hlt|Hge].
  - destruct (Z.eqb_spec low 57344) as [->|Hne].
    + cbn [orb]. rewrite (proj2 (Z.ltb_lt _ _) Hlt). cbn [andb]. apply negb_true_iff, not_true_iff_false. intros Hx. rewrite Z.ltb_irrefl in Hx. cbn [orb] in Hx.
      apply existsb_exists in Hx as (r&Hr%list_elem_of_In&Hx). rewrite Forall_forall in Hl. specialize (Hl r Hr). lia.
    + cbn [orb]. destruct (Z.ltb_spec low 57344) as [|Hgt]; [cbn [andb orb negb]; apply andb_false_r|]. assert (existsb (λ r : Z * Z, r.1 =? 57344) l = false) as ->; [|by rewrite andb_false_r].
      apply not_true_iff_false. intros Hx. apply existsb_exists in Hx as (r&Hr%list_elem_of_In&Hx). rewrite Forall_forall in Hl. specialize (Hl r Hr). lia.
  - cbn [orb andb]. destruct (Z.ltb_spec ch 57344) as [Hc|]; [|done]. rewrite (proj2 (Z.eqb_neq low 57344)) by lia. done.
Qed.

Lemma complement_fold_in l : StronglySorted pair_le l → Forall char_range l → ∀ out next out' next', next_ok next → foldl complement_step (out, next) l = (out', next') →
  next_ok next' ∧ next ≤ next' ∧ ∀ ch, is_char ch = true → (in_ranges l ch = true → ch < next') ∧ (lost_below_gap l ch = true → ch < next')
  ∧ in_ranges out' ch = in_ranges out ch || (next <=? ch) && (ch <? next') && negb (in_ranges l ch) && negb (lost_below_gap l ch).
Proof.
  induction 1 as [|[low high] l Hs IH Hlow]; intros Hw out next out' next' Hn E.
  { cbn in E. injection E as <- <-. split_and!; [done|done|]. intros ch Hc. split_and!; [done|unfold lost_below_gap; cbn [existsb]; by rewrite andb_false_r|]. replace ((next <=? ch) && (ch <? next)) with false by lia. by rewrite orb_false_r. }
  apply Forall_cons in Hw as [Hr Hw]. cbn [foldl] in E. destruct (complement_step (out, next) (low, high)) as [out1 next1] eqn:E1. apply starts_above in Hlow.
  destruct (complement_step_in _ _ _ _ _ _ Hr Hn E1) as (N1&L1&H1&J1&S1). destruct (IH Hw _ _ _ _ N1 E) as (N2&L2&S2). split_and!; [done|lia|]. intros ch Hc.
  destruct (S2 ch Hc) as (B2&C2&S2'). rewrite S2', S1, in_ranges_cons, lost_cons by done. pose proof (none_below l ch low Hlow) as Hbelow. specialize (J1 ch Hc). destruct Hr as (_&_&Hle). cbn [fst snd] in Hle.
  split_and!; [intros [Hin|Hin]%orb_true_iff; [lia|by apply B2]|destruct (Z.ltb_spec ch low); [lia|done]|]. rewrite <-orb_assoc. f_equal.
  destruct (Z.ltb_spec ch low) as [Hlt|Hge]; [rewrite Hbelow by done; destruct (low =? 57344); lia|]. destruct (in_ranges l ch) eqn:Ein; [lia|]. destruct (lost_below_gap l ch); lia.
Qed.

(** Everything below goes when the lowest range begins there. *)
Lemma lost_at_gap l ch : Forall (λ r, 57344 ≤ r.1) l → Exists (λ r, r.1 = 57344) l → ch < 57344 → lost_below_gap l ch = true.
Proof.
  intros Hl Hx Hlt. unfold lost_below_gap. rewrite (proj2 (Z.ltb_lt _ _) Hlt). cbn [andb]. apply andb_true_iff. split.
  - apply existsb_exists. apply Exists_exists in Hx as (r&Hr%list_elem_of_In&Hat). exists r. split; [done|]. by apply Z.eqb_eq.
  - apply negb_true_iff, not_true_iff_false. intros Hb. apply existsb_exists in Hb as (r&Hr%list_elem_of_In&Hb). rewrite Forall_forall in Hl. specialize (Hl r Hr). lia.
Qed.

Lemma lost_perm l l' ch : l ≡ₚ l' → lost_below_gap l ch = lost_below_gap l' ch.
Proof.
  intros Hp. unfold lost_below_gap. assert (∀ f : Z * Z → bool, existsb f l = existsb f l') as H; [|by rewrite !H].
  intros f. apply eq_true_iff_eq. rewrite !existsb_exists. setoid_rewrite <-list_elem_of_In. by setoid_rewrite Hp.
Qed.

Lemma complement_in ranges ch : Forall char_range ranges → is_char ch = true → in_ranges (complement ranges) ch = negb (in_ranges ranges ch) && negb (lost_below_gap ranges ch).
Proof.
  intros Hw Hc. unfold complement. destruct (foldl complement_step ([], 0) (merge_sort pair_le ranges)) as [out next] eqn:E.
  destruct (complement_fold_in (merge_sort pair_le ranges)) with (out := @nil (Z * Z)) (next := 0) (out' := out) (next' := next) as (Hn&H0&H); [apply (StronglySorted_merge_sort pair_le)|by rewrite merge_sort_Permutation|by left|done|].
  destruct (H ch Hc) as (Hlt&Hlost&Hin). rewrite (in_ranges_perm _ ranges) in Hlt, Hin by apply merge_sort_Permutation. rewrite (lost_perm _ ranges) in Hlost, Hin by apply merge_sort_Permutation. cbn [in_ranges existsb orb] in Hin. unfold from_u32.
  destruct (is_char next) eqn:Ec.
  - rewrite in_ranges_app, in_ranges_one, Hin. unfold is_char, CHAR_MAX in *. destruct (in_ranges ranges ch); [specialize (Hlt eq_refl); lia|]. destruct (lost_below_gap ranges ch); [specialize (Hlost eq_refl)|]; lia.
  - rewrite Hin. destruct Hn as [?| ->]; [congruence|]. unfold is_char, CHAR_MAX in *. destruct (in_ranges ranges ch), (lost_below_gap ranges ch); lia.
Qed.
End complements.
