(* ===== verification/RegexTheorems.v ===== *)
(** What the regular expression engine promises: programs that are never wrong about their tree,
    two machines that never differ, and a compiler that only ever refuses. *)

From S2P Require Import Prelude Regex RegexRun RegexDfs RegexPike RegexBack RegexFirst RegexAgree RegexMatch RegexCompile RegexProgram RegexTree RegexTail RegexReplace RegexParse RegexPattern.
Local Open Scope nat_scope.

(** * From a pattern and its options to a regular expression *)

Lemma with_options_tree u pattern o re : UnicodeLaws u → text_ok pattern → with_options u pattern o = Ok re →
  ∃ ast groups, (if o_literal o then Ok (literal u pattern (o_case_insensitive o), 0) else parse u pattern (o_case_insensitive o) (o_dot_matches_newline o)) = Ok (ast, groups)
    ∧ tree_ok ast = true ∧ Regex_of ast groups = Ok re.
Proof.
  intros Hu Hp H. apply bind_Ok in H as ([ast groups]&E&H). exists ast, groups. split_and!; [done| |done]. destruct (o_literal o).
  - injection E as <- _. by apply literal_ok.
  - pose proof (parse_sound u Hu pattern (o_case_insensitive o) (o_dot_matches_newline o) Hp) as Hs. by rewrite E in Hs.
Qed.

Lemma tree_ok_rest ast head newline : tree_ok ast = true → trailing_rest ast = Some (head, newline) → tree_ok head = true.
Proof.
  intros Ht (parts&kept&greedy&->&->&Ef)%RegexTail.trailing_rest_parts. cbn [tree_ok] in *. rewrite forallb_forall in Ht |- *. intros x Hx%list_elem_of_In. apply Ht, list_elem_of_In.
  assert (x ∈ filter (λ part, is_empty part = false) parts) as Hf by (rewrite Ef; apply elem_of_app; by left). by apply list_elem_of_filter in Hf as [_ ?].
Qed.

Lemma compile_sound ast groups : tree_ok ast = true → sound (compile ast groups) (λ P, length (p_insts P) ≤ MAX_PROGRAM).
Proof.
  intros Ht. pose proof (assemble_fine ast groups None Ht (emit_fine ast Ht)) as H. unfold compile, compile_with. destruct (assemble _ _ _ _); cbn in *; [done|]. by eexists.
Qed.

Lemma with_options_sound u pattern o : UnicodeLaws u → text_ok pattern →
  sound (with_options u pattern o) (λ re, length (p_insts (re_program re)) ≤ MAX_PROGRAM ∧ ∀ head newline, re_head re = Some (head, newline) → length (p_insts head) ≤ MAX_PROGRAM).
Proof.
  intros Hu Hp. unfold with_options. apply (sound_bind _ _ (λ r, tree_ok r.1 = true)).
  { destruct (o_literal o); [by apply literal_ok|by apply parse_sound]. }
  intros [ast groups] Ht. cbn [fst] in Ht. unfold Regex_of.
  apply (sound_bind _ _ (λ h : option (Program * bool), ∀ head newline, h = Some (head, newline) → length (p_insts head) ≤ MAX_PROGRAM)).
  - destruct (trailing_rest ast) as [[head newline]|] eqn:E; [|done]. eapply sound_bind; [apply compile_sound; by eapply tree_ok_rest|]. intros P HP head' newline' [= <- <-]. exact HP.
  - intros h Hh. eapply sound_bind; [by apply compile_sound|]. intros P HP. by split.
Qed.

(** * Where there is a match there is a leftmost one *)

Lemma no_right_match text M from : (∀ s e, ¬ right_match text M false from s e) → ∀ i j, from ≤ i → bound text i → ¬ M i j.
Proof.
  intros Hn i. induction (lt_wf i) as [i _ IH]. intros j Hi Hb HM. apply (Hn i j). split_and!; [done..|]. intros i' j' [Hle Hlt] Hb' HM'. by apply (IH i' Hlt j').
Qed.

(** * Patterns of plain characters *)

Lemma literal_sequence u text pattern i j : bound text i →
  means text None (literal u pattern false) i j ↔ in_sequence (means text None <$> (Literal <$> pattern)) i j.
Proof.
  intros Hb. unfold literal. assert ((λ ch, character u ch false) <$> pattern = Literal <$> pattern) as -> by done.
  destruct pattern as [|ch [|ch' pattern]]; cbn [fmap list_fmap]; [done| |done]. cbn [means in_sequence]. unfold then_. naive_solver.
Qed.

Lemma sequence_occurs text pattern : ∀ i j, bound text i →
  in_sequence (means text None <$> (Literal <$> pattern)) i j ↔ ∃ pre post, text = pre ++ pattern ++ post ∧ i = text_len pre ∧ j = text_len pre + text_len pattern.
Proof.
  induction pattern as [|ch pattern IH]; intros i j Hb; cbn [fmap list_fmap in_sequence].
  - split.
    + intros <-. destruct Hb as (pre&post&->&->). exists pre, post. split_and!; [done..|]. change (text_len []) with 0. lia.
    + intros (pre&post&_&->&->). change (text_len []) with 0. lia.
  - unfold then_. cbn [means]. split.
    + intros (k&[Hc ->]&Hs). pose proof (bound_next _ _ _ Hb Hc) as Hn. apply IH in Hs as (pre&post&E&Ek&->); [|done].
      destruct Hb as (pre0&post0&E0&->). rewrite E0, char_at_at in Hc. destruct post0 as [|x post0]; [done|]. injection Hc as ->.
      assert (pre = pre0 ++ [ch]) as ->.
      { assert (pre0 ++ [ch] ++ post0 = pre ++ pattern ++ post) as Hq by (cbn; congruence). rewrite (assoc_L app) in Hq. apply app_eq_inv in Hq as [(l&El&_)|(l&El&_)].
        all: assert (text_len l = 0) as ->%text_len_0 by (apply (f_equal text_len) in El; rewrite !text_len_app, text_len_cons in El; change (text_len []) with 0 in El; lia).
        all: rewrite app_nil_r in El; done. }
      exists pre0, post. rewrite E, !text_len_app, !text_len_cons. change (text_len []) with 0. split_and!; [by rewrite <-(assoc_L app)|done|lia].
    + intros (pre&post&->&->&->). exists (text_len pre + len_utf8 ch). split; [split; [by rewrite char_at_at|done]|]. apply IH.
      * exists (pre ++ [ch]), (pattern ++ post). rewrite <-(assoc_L app), text_len_app, text_len_cons. split; [done|]. change (text_len []) with 0. lia.
      * exists (pre ++ [ch]), post. rewrite <-(assoc_L app), text_len_app, !text_len_cons. change (text_len []) with 0. split_and!; [done|lia|lia].
Qed.

Lemma literal_means u text pattern i j : bound text i →
  means text None (literal u pattern false) i j ↔ ∃ pre post, text = pre ++ pattern ++ post ∧ i = text_len pre ∧ j = text_len pre + text_len pattern.
Proof. intros Hb. rewrite literal_sequence by done. by apply sequence_occurs. Qed.

(** What a search for one answers. *)
Lemma literal_right u pattern text whole (found : bool) :
  (if found then ∃ s e, right_match text (means text None (literal u pattern false)) whole 0 s e else ∀ s e, ¬ right_match text (means text None (literal u pattern false)) whole 0 s e) →
  found = true ↔ if (whole : bool) then text = pattern else ∃ before after, text = before ++ pattern ++ after.
Proof.
  intros H. assert (bound text 0) as H0 by apply bound_0. destruct found, whole.
  - destruct H as (s&e&Hb&HM&->&->). apply literal_means in HM as (pre&post&E&Hs&He); [|done]. split; [|done]. intros _. symmetry in Hs. apply text_len_0 in Hs as ->.
    rewrite E, !text_len_app in He. assert (text_len post = 0) as ->%text_len_0 by (change (text_len []) with 0 in He; lia). by rewrite app_nil_r in E.
  - destruct H as (s&e&Hb&HM&_). apply literal_means in HM as (pre&post&E&_); [|done]. split; [|done]. intros _. by exists pre, post.
  - split; [done|]. intros ->. exfalso. apply (H 0 (text_len pattern)). split_and!; [done| |done|done]. apply literal_means; [done|]. exists [], []. split_and!; [by rewrite app_nil_r|done|done].
  - split; [done|]. intros (pre&post&E). exfalso. apply (no_right_match _ _ _ H (text_len pre) (text_len pre + text_len pattern)); [lia|by exists pre, (pattern ++ post)|].
    apply literal_means; [by exists pre, (pattern ++ post)|]. by exists pre, post.
Qed.

(** * Theorems *)

(** C5. The backtracker, its memo kept over the starts it tries and its starts skipped by the
    prefilter, and Pike's machine give the same answer, slot for slot, for every program that
    [compile_with] makes, from every position of the text a character begins at; neither panics and
    both end, lookarounds included. *)
Theorem machines_agree ast groups word P text start whole c :
  tree_ok ast = true → text_ok text → compile_with ast groups word = Ok P → bound text start →
  ∃ r c', Cache_search P text start whole c = Some (r, c') ∧ vm_search P text start whole = Some r.
Proof.
  intros Ht Htext E Hb. destruct (compile_program text word Htext ast groups P Ht E) as (m&HP&_).
  destruct (machines_same_program text P m _ HP Htext start whole c Hb) as (r&c'&V'&E1&E2&_). eauto.
Qed.

(** The tree of [(a|é)+?\B(?!c)[^b-x]*], and a text with a match inside it. *)
Definition sample_tree : Ast :=
  Concat [Repeat (Group (Some 1) (Alternate [Literal 97; Literal 233])) 1 None false; Assert NotWordBoundary;
          Lookaround true true (Literal 99); Repeat (Class_ (mkClass true [(98, 120)%Z])) 0 None true].
Definition sample_text : Text := [100; 32; 97; 233; 97; 122; 98]%Z.
Definition sample_program : Program := Eval vm_compute in
  match compile_with sample_tree 1 None with Ok P => P | Err _ => mkProgram [] [] [] 0 false First_anything None end.

Lemma sample_compiles : compile_with sample_tree 1 None = Ok sample_program.
Proof. vm_compute. reflexivity. Qed.

Lemma sample_text_ok : text_ok sample_text.
Proof. unfold text_ok. apply Forall_forall. intros x Hx. unfold sample_text in Hx. set_unfold in Hx. by destruct_or!; subst. Qed.

Lemma sample_bound : bound sample_text 2.
Proof. by exists [100; 32]%Z, [97; 233; 97; 122; 98]%Z. Qed.

Example sample_found : vm_search sample_program sample_text 0 false = Some (Some [Some 2; Some 7; Some 5; Some 6]).
Proof. vm_compute. reflexivity. Qed.

Lemma machines_agree_witness :
  ∃ r c', Cache_search sample_program sample_text 2 false Cache_default = Some (r, c') ∧ vm_search sample_program sample_text 2 false = Some r.
Proof. apply (machines_agree sample_tree 1 None); [vm_compute; reflexivity|apply sample_text_ok|apply sample_compiles|apply sample_bound]. Defined.

(** C4. What a compiled program finds is what its tree means: from any position a character begins
    at, [run] ends without a panic, whichever machine it picks. When it answers yes, the first two
    slots are a match of the tree, at the leftmost position one begins (or from the position to the
    end of the text when the whole of it has to match); when it answers no, the slots are as they
    were and the tree matches nowhere from there on (or not to the end). *)
Theorem run_matches ast groups word P text start whole slots c :
  tree_ok ast = true → text_ok text → compile_with ast groups word = Ok P → bound text start →
  ∃ found slots' c', run P text start whole slots c = Some (found, slots', c') ∧
    if (found : bool) then ∃ s e, right_match text (means text word ast) whole start s e ∧ slots' !! 0 = Some (Some s) ∧ slots' !! 1 = Some (Some e)
    else slots' = slots ∧ ∀ s e, ¬ right_match text (means text word ast) whole start s e.
Proof.
  intros Ht Htext E Hb. destruct (run_right ast groups word P text start whole slots c Ht Htext E Hb) as (r&c'&E1&H). rewrite E1. destruct r as [found|]; cbn [returned].
  - exists true, found, c'. split; [done|]. destruct H as (s&e&H&H0&H1&_). by exists s, e.
  - by exists false, slots, c'.
Qed.

Lemma run_matches_witness :
  ∃ found slots' c', run sample_program sample_text 2 false [] Cache_default = Some (found, slots', c') ∧
    if (found : bool) then ∃ s e, right_match sample_text (means sample_text None sample_tree) false 2 s e ∧ slots' !! 0 = Some (Some s) ∧ slots' !! 1 = Some (Some e)
    else slots' = [] ∧ ∀ s e, ¬ right_match sample_text (means sample_text None sample_tree) false 2 s e.
Proof. apply (run_matches sample_tree 1 None); [vm_compute; reflexivity|apply sample_text_ok|apply sample_compiles|apply sample_bound]. Defined.

(** C20. Searching with the program of what comes before a trailing [.*$], and looking at the rest of the
    text for a newline only, answers what the program of the whole pattern answers: the same yes or
    no, and on a yes the same slots, those of every group included. *)
Theorem search_with_head ast groups re text start whole slots c :
  tree_ok ast = true → Regex_of ast groups = Ok re → text_ok text → bound text start →
  ∃ found slots1 slots2 c1 c2, Regex_search re text start whole slots c = Some (found, slots1, c1)
    ∧ run (re_program re) text start whole slots c = Some (found, slots2, c2) ∧ (found = true → slots1 = slots2).
Proof. apply Regex_search_run. Qed.

(** The tree of [(é|b)+.*$], and a text with a newline past its first match. *)
Definition tail_tree : Ast :=
  Concat [Repeat (Group (Some 1) (Alternate [Literal 233; Literal 98])) 1 None true; Repeat (AnyChar false) 0 None true; Assert TextEnd].
Definition tail_regex : RegexOf := Eval vm_compute in
  match Regex_of tail_tree 1 with Ok re => re | Err _ => mkRegex (mkProgram [] [] [] 0 false First_anything None) None end.
Definition tail_text : Text := [97; 98; 10; 233; 98; 122]%Z.

Lemma tail_compiles : Regex_of tail_tree 1 = Ok tail_regex.
Proof. vm_compute. reflexivity. Qed.

Lemma tail_text_ok : text_ok tail_text.
Proof. unfold text_ok. apply Forall_forall. intros x Hx. unfold tail_text in Hx. set_unfold in Hx. by destruct_or!; subst. Qed.

Example tail_is_found : (λ r, r.1.2) <$> Regex_search tail_regex tail_text 0 false [] Cache_default = Some [Some 3; Some 7; Some 5; Some 6].
Proof. vm_compute. reflexivity. Qed.

Lemma search_with_head_witness :
  ∃ found slots1 slots2 c1 c2, Regex_search tail_regex tail_text 0 false [] Cache_default = Some (found, slots1, c1)
    ∧ run (re_program tail_regex) tail_text 0 false [] Cache_default = Some (found, slots2, c2) ∧ (found = true → slots1 = slots2).
Proof. apply (search_with_head tail_tree 1); [vm_compute; reflexivity|apply tail_compiles|apply tail_text_ok|apply bound_0]. Defined.

(** * Replacing *)

(** C22. A replacement by a rewrite of text and whole matches ends without a panic, and writes the text
    with each match it takes rewritten and the rest kept. Everywhere, it takes from left to right
    each next match of the tree, save an empty one where the last one ended; once, the leftmost. *)
Theorem replace_weaves ast groups re text rewrite_ global out slots c :
  tree_ok ast = true → Regex_of ast groups = Ok re → text_ok text → plain (rw_pieces rewrite_) = true → rw_refused rewrite_ = false →
  ∃ spans after, replace_into re text rewrite_ global out slots c = Some (out ++ weave text (written text (rw_pieces rewrite_)) 0 spans, after)
    ∧ if (global : bool) then taken text (means text None ast) 0 None spans
      else spans = [] ∧ (∀ s e, ¬ right_match text (means text None ast) false 0 s e) ∨ ∃ s e, spans = [(s, e)] ∧ right_match text (means text None ast) false 0 s e.
Proof. apply replace_into_weaves. Qed.

Lemma replace_weaves_witness :
  ∃ spans after, replace_into tail_regex tail_text (Rewrite_new [60; 92; 48; 62]%Z 1) true [] [] Cache_default
      = Some ([] ++ weave tail_text (written tail_text (rw_pieces (Rewrite_new [60; 92; 48; 62]%Z 1))) 0 spans, after)
    ∧ taken tail_text (means tail_text None tail_tree) 0 None spans.
Proof. apply (replace_weaves tail_tree 1 tail_regex tail_text _ true); [vm_compute; reflexivity|apply tail_compiles|apply tail_text_ok|vm_compute; reflexivity|vm_compute; reflexivity]. Defined.

(** * From a pattern *)

(** A table of letters: those of ASCII. *)
Definition ascii_unicode : Unicode :=
  mkUnicode (λ ch, [to_ascii_lowercase ch]) (λ ch, [to_ascii_uppercase ch]) (λ ch, is_ascii_lowercase ch || is_ascii_uppercase ch || ((48 <=? ch)%Z && (ch <=? 57)%Z)).

#[global] Instance ascii_unicode_laws : UnicodeLaws ascii_unicode.
Proof.
  split; intros ch Hc; (constructor; [|constructor]).
  - unfold to_ascii_lowercase. case_match eqn:E; [|done]. unfold is_ascii_uppercase in E. apply ascii_char. lia.
  - unfold to_ascii_uppercase. case_match eqn:E; [|done]. unfold is_ascii_lowercase in E. apply ascii_char. lia.
Qed.

(** The pattern [(?i:é|b)+.*$]. *)
Definition sample_pattern : Text := [40; 63; 105; 58; 233; 124; 98; 41; 43; 46; 42; 36]%Z.
Definition no_options : Options := mkOptions false false false false.
Definition pattern_regex : RegexOf := Eval vm_compute in
  match with_options ascii_unicode sample_pattern no_options with Ok re => re | Err _ => mkRegex (mkProgram [] [] [] 0 false First_anything None) None end.

Lemma sample_pattern_ok : text_ok sample_pattern.
Proof. unfold text_ok. apply Forall_forall. intros x Hx. unfold sample_pattern in Hx. set_unfold in Hx. by destruct_or!; subst. Qed.

Lemma pattern_compiles : with_options ascii_unicode sample_pattern no_options = Ok pattern_regex.
Proof. vm_compute. reflexivity. Qed.

(** C21. Whatever text is given as a pattern, under whatever options, making a regular expression of it
    ends, and never in a panic or an internal error: it refuses the pattern with a message, or the
    program it makes, and that of the part before a trailing [.*$], has no more than [MAX_PROGRAM]
    instructions. *)
Theorem pattern_made_or_refused u pattern o : UnicodeLaws u → text_ok pattern →
  match with_options u pattern o with
  | Ok re => length (p_insts (re_program re)) ≤ MAX_PROGRAM ∧ ∀ head newline, re_head re = Some (head, newline) → length (p_insts head) ≤ MAX_PROGRAM
  | Err e => ∃ why, e = InvalidInput why
  end.
Proof. apply with_options_sound. Qed.

Lemma pattern_made_or_refused_witness :
  match with_options ascii_unicode sample_pattern no_options with
  | Ok re => length (p_insts (re_program re)) ≤ MAX_PROGRAM ∧ ∀ head newline, re_head re = Some (head, newline) → length (p_insts head) ≤ MAX_PROGRAM
  | Err e => ∃ why, e = InvalidInput why
  end.
Proof. apply pattern_made_or_refused; [apply ascii_unicode_laws|apply sample_pattern_ok]. Defined.

(** The messages of patterns that are refused. *)
Example refused_patterns :
  (λ pattern, match parse ascii_unicode pattern false false with Err (InvalidInput why) => why | _ => EmptyString end) <$>
    [[97; 42; 42]; [42; 97]; [97; 123; 50; 44; 49; 125]; [40; 97]; [97; 41]; [91; 98; 45; 97; 93]; [92; 113]]%Z
  = ["bad repetition operator: **"; "no argument for repetition operator: *"; "invalid repetition size: {2,1}"; "missing ): (a"; "unexpected ): a)";
     "invalid character class range: b-a"; "invalid escape sequence: \q"]%string.
Proof. vm_compute. reflexivity. Qed.

(** Rewriting a match as itself gives the text back: [\0] in place of every match, or of the first,
    changes nothing, whatever the pattern and the options it was made with. *)
Theorem replace_with_itself u pattern o re text global slots c :
  UnicodeLaws u → text_ok pattern → with_options u pattern o = Ok re → text_ok text →
  ∃ after, replace re text [92; 48]%Z global slots c = Some (text, after).
Proof.
  intros Hu Hp Hre Htext. destruct (with_options_tree u pattern o re Hu Hp Hre) as (ast&groups&_&Ht&Hof). unfold replace.
  by apply (replace_itself ast groups re text (p_groups (re_program re)) global [] slots c Ht Hof Htext).
Qed.

Lemma replace_with_itself_witness : ∃ after, replace pattern_regex tail_text [92; 48]%Z true [] Cache_default = Some (tail_text, after).
Proof. apply (replace_with_itself ascii_unicode sample_pattern no_options); [apply ascii_unicode_laws|apply sample_pattern_ok|apply pattern_compiles|apply tail_text_ok]. Defined.

(** Under the option [l] a pattern stands for the characters it is made of: a search finds it
    exactly when the text has it somewhere, and a full match exactly when the text is it. *)
Theorem literal_finds u pattern re text whole slots c :
  UnicodeLaws u → text_ok pattern → with_options u pattern (mkOptions false false true false) = Ok re → text_ok text →
  ∃ found slots' c', matches re text whole slots c = Some (found, slots', c')
    ∧ (found = true ↔ if (whole : bool) then text = pattern else ∃ before after, text = before ++ pattern ++ after).
Proof.
  intros Hu Hp Hre Htext. pose proof (literal_ok u Hu pattern false Hp) as Ht. destruct (search_right (literal u pattern false) 0 re text Ht Hre Htext 0 whole slots c (bound_0 _)) as (found&slots'&c'&E&H).
  exists found, slots', c'. split; [done|]. apply (literal_right u). destruct found; [|done]. destruct H as (s&e&H&_). by exists s, e.
Qed.

(** The pattern [.é], taken as it is. *)
Definition dotted : Text := [46; 233]%Z.
Definition literal_regex : RegexOf := Eval vm_compute in
  match with_options ascii_unicode dotted (mkOptions false false true false) with Ok re => re | Err _ => mkRegex (mkProgram [] [] [] 0 false First_anything None) None end.

Lemma dotted_ok : text_ok dotted.
Proof. unfold text_ok. apply Forall_forall. intros x Hx. unfold dotted in Hx. set_unfold in Hx. by destruct_or!; subst. Qed.

Lemma literal_compiles : with_options ascii_unicode dotted (mkOptions false false true false) = Ok literal_regex.
Proof. vm_compute. reflexivity. Qed.

Lemma literal_finds_witness :
  ∃ found slots' c', matches literal_regex ([97] ++ dotted)%Z false [] Cache_default = Some (found, slots', c')
    ∧ (found = true ↔ ∃ before after, ([97] ++ dotted)%Z = before ++ dotted ++ after).
Proof.
  apply (literal_finds ascii_unicode dotted literal_regex ([97] ++ dotted)%Z false); [apply ascii_unicode_laws|apply dotted_ok|apply literal_compiles|].
  apply Forall_cons. split; [reflexivity|apply dotted_ok].
Defined.

(** C39. What [complement] gives of any ranges of characters: a character is in it exactly when no range
    holds it, except for the characters below a range that begins at U+E000, the first character past
    the surrogates, that no range beginning before the surrogates lies above: those are lost though
    [complement] is documented to give everything the ranges do not hold. So when the lowest range
    begins at U+E000 the complement holds nothing at all below it. *)
Theorem complement_loses_below_gap ranges ch : Forall char_range ranges → is_char ch = true →
  in_ranges (complement ranges) ch = negb (in_ranges ranges ch) && negb (lost_below_gap ranges ch)
  ∧ (Forall (λ r, 57344 ≤ r.1)%Z ranges → Exists (λ r, r.1 = 57344%Z) ranges → (ch < 57344)%Z → in_ranges ranges ch = false ∧ in_ranges (complement ranges) ch = false).
Proof.
  intros Hr Hc. pose proof (complement_in ranges ch Hr Hc) as E. split; [exact E|]. intros Hlow Hat Hlt. split; [by apply (none_below _ _ 57344)|]. rewrite E.
  rewrite (lost_at_gap ranges ch Hlow Hat Hlt). apply andb_false_r.
Qed.

Lemma complement_loses_below_gap_witness :
  in_ranges (complement [(57344, 63743)%Z]) 97 = negb (in_ranges [(57344, 63743)%Z] 97) && negb (lost_below_gap [(57344, 63743)%Z] 97)
  ∧ (Forall (λ r, 57344 ≤ r.1)%Z [(57344, 63743)%Z] → Exists (λ r, r.1 = 57344%Z) [(57344, 63743)%Z] → (97 < 57344)%Z → in_ranges [(57344, 63743)%Z] 97 = false ∧ in_ranges (complement [(57344, 63743)%Z]) 97 = false).
Proof. apply complement_loses_below_gap; [apply Forall_cons; split; [split_and!; [done|done|cbn; lia]|apply Forall_nil_2]|done]. Defined.
