(* ===== verification/Lz.v ===== *)
(** The match finder of the string encodings, [rudb-encoding/src/lz.rs]: an input taken apart into
    literal runs and copies, and put together again.

    Bytes are numbers below 256, positions natural numbers; the entries of the hash chains are [u32]
    words. [None] is a panic, or fuel that ran out, and neither happens. *)

From S2P Require Import Prelude.
Local Open Scope nat_scope.

(** * Constants *)

Definition SEGMENT : nat := Z.to_nat (256 * 1024).
Definition MIN_MATCH : nat := 4.
Definition HASH_BITS : Z := 16.
Definition HASH_LEN : nat := 8.
Definition MAX_TRIES : nat := 32.
Definition NO_SLOT : Z := (2 ^ 32 - 1)%Z.

(** * Tokens *)

Record Raw : Type := mkRaw {
  runs : list (nat * nat);
  lengths : list Z;
  offsets : list Z }.

Definition Raw_default : Raw := mkRaw [] [] [].

Definition push_token (raw : Raw) (run : nat * nat) (length offset : nat) : Raw :=
  mkRaw (runs raw ++ [run]) (lengths raw ++ [Z.of_nat length]) (offsets raw ++ [Z.of_nat offset]).

(** [&input[from..to]]. *)
Definition piece (input : list Z) (from to : nat) : option (list Z) :=
  if (from <=? to) && (to <=? length input) then Some (take (to - from) (drop from input)) else None.

Definition hash (bytes : list Z) : option nat :=
  word ← piece bytes 0 HASH_LEN;
  Some (Z.to_nat (wrap 64 (le_val word * 0x9E3779B97F4A7C15) ≫ (64 - HASH_BITS))%Z).

(** Whole words of eight bytes, then what is left a byte at a time. *)
Fixpoint shared_bytes (a b : list Z) : nat :=
  match a, b with
  | x :: a, y :: b => if (x =? y)%Z then S (shared_bytes a b) else 0
  | _, _ => 0
  end.

Fixpoint shared_words (fuel : nat) (a b : list Z) : nat :=
  match fuel with
  | O => shared_bytes a b
  | S fuel =>
      if (length a <? 8) || (length b <? 8) then shared_bytes a b else
      let differ := Z.lxor (le_val (take 8 a)) (le_val (take 8 b)) in
      if (differ =? 0)%Z then 8 + shared_words fuel (drop 8 a) (drop 8 b)
      else Z.to_nat (trailing_zeros differ / 8)
  end.

Definition shared (a b : list Z) : nat :=
  let cap := Nat.min (length a) (length b) in
  shared_words cap (take cap a) (take cap b).

(** * The chains *)

Definition chain_at (input : list Z) (at_ end_ : nat) (head : list Z) : option (nat * Z) :=
  if end_ <? at_ + HASH_LEN then Some (0, NO_SLOT) else
  bytes ← piece input at_ (at_ + HASH_LEN);
  key ← hash bytes;
  newest ← head !! key;
  Some (key, newest).

(** [slot as u32]. *)
Definition slot_word (slot : nat) : Z := wrap 32 (Z.of_nat slot).

(** [slice[at] = value]. *)
Definition put {A} (at_ : nat) (value : A) (l : list A) : option (list A) := if at_ <? length l then Some (<[at_ := value]> l) else None.

Definition insert_at (input : list Z) (at_ end_ : nat) (head prev : list Z) (start : nat) : option (list Z * list Z) :=
  if end_ <? at_ + HASH_LEN then Some (head, prev) else
  bytes ← piece input at_ (at_ + HASH_LEN);
  key ← hash bytes;
  let slot := at_ - start in
  newest ← head !! key;
  prev ← put slot newest prev;
  head ← put key (slot_word slot) head;
  Some (head, prev).

Fixpoint insert_steps (n : nat) (input : list Z) (at_ end_ : nat) (head prev : list Z) (start : nat) : option (list Z * list Z) :=
  match n with
  | O => Some (head, prev)
  | S n => '(head, prev) ← insert_at input at_ end_ head prev start; insert_steps n input (S at_) end_ head prev start
  end.

(** [tries] turns are left. *)
Fixpoint longest_loop (tries : nat) (input : list Z) (at_ end_ : nat) (candidate : Z) (prev : list Z) (start : nat) (best : option (nat * nat))
    : option (option (nat * nat)) :=
  match tries with
  | O => Some best
  | S tries =>
      if (candidate =? NO_SLOT)%Z then Some best else
      let position := start + Z.to_nat candidate in
      if at_ <=? position then Some best else
      let go best := candidate ← prev !! Z.to_nat candidate; longest_loop tries input at_ end_ candidate prev start best in
      let compare :=
        a ← piece input position end_;
        b ← piece input at_ end_;
        let length := shared a b in
        go (if (MIN_MATCH <=? length) && match best with Some (had, _) => had <? length | None => true end
            then Some (length, at_ - position) else best) in
      match best with
      | Some (had, _) =>
          if end_ <=? at_ + had then Some best else
          x ← input !! (position + had);
          y ← input !! (at_ + had);
          if negb (x =? y)%Z then go best else compare
      | None => compare
      end
  end.

Definition longest (input : list Z) (at_ end_ : nat) (candidate : Z) (prev : list Z) (start : nat) : option (option (nat * nat)) :=
  longest_loop MAX_TRIES input at_ end_ candidate prev start None.

(** * Matching *)

Fixpoint matches_loop (fuel : nat) (input : list Z) (start end_ : nat) (head prev : list Z) (raw : Raw) (literal_start at_ key : nat) (first : Z)
    : option (list Z * list Z * Raw) :=
  match fuel with
  | O => None
  | S fuel =>
      if end_ <? at_ + HASH_LEN then
        Some (head, prev, if literal_start <? end_ then push_token raw (literal_start, end_) 0 0 else raw)
      else
        '(next_key, next_first) ← chain_at input (at_ + 1) end_ head;
        found ← longest input at_ end_ first prev start;
        let slot := at_ - start in
        prev ← put slot first prev;
        head ← put key (slot_word slot) head;
        match found with
        | Some (length, offset) =>
            let raw := push_token raw (literal_start, at_) length offset in
            '(head, prev) ← insert_steps (length - 1) input (at_ + 1) end_ head prev start;
            let at_ := at_ + length in
            '(key, first) ← chain_at input at_ end_ head;
            matches_loop fuel input start end_ head prev raw at_ at_ key first
        | None =>
            let first := if next_key =? key then slot_word slot else next_first in
            matches_loop fuel input start end_ head prev raw literal_start (at_ + 1) next_key first
        end
  end.

Definition matches_in (input : list Z) (start end_ : nat) (head prev : list Z) (raw : Raw) : option (list Z * list Z * Raw) :=
  '(key, first) ← chain_at input start end_ head;
  matches_loop (S (end_ - start)) input start end_ head prev raw start start key first.

Fixpoint segments_loop (fuel : nat) (input : list Z) (start : nat) (head prev : list Z) (raw : Raw) : option Raw :=
  match fuel with
  | O => None
  | S fuel =>
      if start <? length input then
        let end_ := Nat.min (start + SEGMENT) (length input) in
        let head := (λ _, NO_SLOT) <$> head in
        '(head, prev, raw) ← matches_in input start end_ head prev raw;
        segments_loop fuel input end_ head prev raw
      else Some raw
  end.

Record Tokens : Type := mkTokens {
  t_literals : list (list Z);
  t_lengths : list Z;
  t_offsets : list Z }.

Definition tokens_of (input : list Z) : option Tokens :=
  let span := Nat.max (Nat.min SEGMENT (length input)) 1 in
  raw ← segments_loop (S (length input)) input 0 (replicate (Z.to_nat (2 ^ HASH_BITS)) NO_SLOT) (replicate span NO_SLOT) Raw_default;
  literals ← mapM (λ run, piece input run.1 run.2) (runs raw);
  Some (mkTokens literals (lengths raw) (offsets raw)).

(** * Putting together *)

(** A byte at a time, reading what was just written. *)
Fixpoint copy_bytes (length from : nat) (out : list Z) : option (list Z) :=
  match length with O => Some out | S length => byte ← out !! from; copy_bytes length (S from) (out ++ [byte]) end.

(** [None] is a panic. *)
Definition copy (length offset : nat) (out : list Z) : option (list Z) :=
  let from := List.length out - offset in
  if length <=? offset then block ← piece out from (from + length); Some (out ++ block)
  else copy_bytes length from out.

(** [answers] holds what the calls of [run] come to, in their order: the bytes it appends, or its error. *)
Fixpoint replay_loop (answers : list (Result (list Z))) (lengths offsets : list Z) (base : nat) (out : list Z) : option (Result (list Z)) :=
  match answers with
  | [] => Some (Ok out)
  | Err e :: _ => Some (Err e)
  | Ok literal :: answers =>
      let out := out ++ literal in
      match lengths, offsets with
      | l :: lengths, o :: offsets =>
          if (l <? 0)%Z then Some (Err (Internal "a negative copy length")) else
          if (l =? 0)%Z then replay_loop answers lengths offsets base out else
          if (o <? 0)%Z then Some (Err (Internal "a negative copy offset")) else
          if (o =? 0)%Z || (Z.of_nat (length out - base) <? o)%Z then Some (Err (Internal "a copy reaches back further than the output")) else
          out ← copy (Z.to_nat l) (Z.to_nat o) out;
          replay_loop answers lengths offsets base out
      | _, _ => None
      end
  end.

Definition replay (answers : list (Result (list Z))) (lengths offsets out : list Z) : option (Result (list Z)) :=
  if negb (length answers =? length lengths) || negb (length lengths =? length offsets)
  then Some (Err (Internal "a matched chunk has other counts of literal runs, lengths and offsets"))
  else replay_loop answers lengths offsets (length out) out.

Definition rebuild_into (literals : list (list Z)) (lengths offsets out : list Z) : option (Result (list Z)) := replay (Ok <$> literals) lengths offsets out.

Definition rebuild (literals : list (list Z)) (lengths offsets : list Z) : option (Result (list Z)) := replay (Ok <$> literals) lengths offsets [].

(** * How much two inputs share *)

(** The lowest bit two words differ in lies in the first byte they differ in. *)
Lemma least_bit_byte a b i : bytes_ok a → bytes_ok b → length a = length b → least_bit (Z.lxor (le_val a) (le_val b)) i → Z.to_nat (i / 8) = shared_bytes a b.
Proof.
  revert b i. induction a as [|x a IH]; intros b i Ha Hb Hl Hi; destruct b as [|y b]; try done.
  { destruct Hi as (_&Hi&_). by rewrite Z.lxor_nilpotent, Z.bits_0 in Hi. }
  apply Forall_cons in Ha as [Hx Ha]. apply Forall_cons in Hb as [Hy Hb]. injection Hl as Hl. rewrite !le_val_cons in Hi. cbn [shared_bytes]. destruct Hi as (Hi0&Hi&Hlow).
  assert (∀ j, (0 ≤ j)%Z → Z.testbit (Z.lxor (Z.lor x (le_val a ≪ 8)) (Z.lor y (le_val b ≪ 8))) j
    = if (j <? 8)%Z then xorb (Z.testbit x j) (Z.testbit y j) else xorb (Z.testbit (le_val a) (j - 8)) (Z.testbit (le_val b) (j - 8))) as Hbit.
  { intros j Hj. rewrite Z.lxor_spec, !Z.lor_spec, !Z.shiftl_spec by done. destruct (Z.ltb_spec j 8).
    - rewrite !(Z.testbit_neg_r _ (j - 8)) by lia. by rewrite !orb_false_r.
    - rewrite (fits_testbit 8 x), (fits_testbit 8 y) by done. done. }
  destruct (Z.eqb_spec x y) as [->|Hne].
  - assert (8 ≤ i)%Z as Hge. { destruct (decide (8 ≤ i)%Z); [done|]. rewrite Hbit in Hi by done. rewrite (proj2 (Z.ltb_lt _ _)) in Hi by lia. by rewrite xorb_nilpotent in Hi. }
    rewrite <-(IH b (i - 8)%Z Ha Hb Hl).
    + replace i with ((i - 8) + 1 * 8)%Z at 1 by lia. rewrite Z.div_add by done. rewrite Z2Nat.inj_add by (try lia; apply Z.div_pos; lia). change (Z.to_nat 1) with 1. lia.
    + split_and!; [lia| |].
      * rewrite Z.lxor_spec. specialize (Hbit i Hi0). rewrite Hi, (proj2 (Z.ltb_ge _ _)) in Hbit by lia. done.
      * intros j Hj. specialize (Hlow (j + 8)%Z ltac:(lia)). rewrite Hbit, (proj2 (Z.ltb_ge _ _)) in Hlow by lia. rewrite Z.lxor_spec. by replace (j + 8 - 8)%Z with j in Hlow by lia.
  - assert (i < 8)%Z as Hlt; [|rewrite Z.div_small by lia; done]. destruct (decide (i < 8)%Z); [done|]. exfalso. apply Hne. apply Z.bits_inj'. intros j Hj. destruct (decide (j < 8)%Z).
    + specialize (Hlow j ltac:(lia)). rewrite Hbit, (proj2 (Z.ltb_lt _ _)) in Hlow by lia. destruct (Z.testbit x j), (Z.testbit y j); done.
    + rewrite !(fits_testbit 8) by (done || lia). done.
Qed.

Lemma shared_bytes_app a a' b b' : length a = length b → shared_bytes (a ++ a') (b ++ b') = if decide (a = b) then length a + shared_bytes a' b' else shared_bytes a b.
Proof.
  revert b. induction a as [|x a IH]; intros [|y b] Hl; try done. injection Hl as Hl. cbn [app shared_bytes length]. rewrite IH by done. destruct (Z.eqb_spec x y) as [->|Hne].
  - repeat case_decide; try congruence; lia.
  - rewrite decide_False by congruence. done.
Qed.

Lemma shared_words_bytes fuel : ∀ a b, bytes_ok a → bytes_ok b → length a = length b → shared_words fuel a b = shared_bytes a b.
Proof.
  induction fuel as [|fuel IH]; intros a b Ha Hb Hl; [done|]. cbn [shared_words]. destruct (_ || _) eqn:E8; [done|]. apply orb_false_iff in E8 as [H1%Nat.ltb_ge H2%Nat.ltb_ge].
  assert (bytes_ok (take 8 a) ∧ bytes_ok (take 8 b) ∧ bytes_ok (drop 8 a) ∧ bytes_ok (drop 8 b)) as (Ta&Tb&Da&Db) by (split_and!; [by apply Forall_take..|by apply Forall_drop|by apply Forall_drop]).
  assert (length (take 8 a) = 8 ∧ length (take 8 b) = 8) as [La Lb] by (rewrite !length_take; lia).
  assert (shared_bytes a b = shared_bytes (take 8 a ++ drop 8 a) (take 8 b ++ drop 8 b)) as -> by by rewrite !take_drop. rewrite shared_bytes_app by lia.
  destruct (Z.eqb_spec (Z.lxor (le_val (take 8 a)) (le_val (take 8 b))) 0) as [E|E].
  - apply Z.lxor_eq in E. rewrite decide_True; [rewrite La, IH; [done|done|done|rewrite !length_drop; lia]|].
    rewrite <-(le_bytes_val 8 (take 8 a)), <-(le_bytes_val 8 (take 8 b)) by done. by rewrite E.
  - rewrite decide_False by (intros Eq; apply E; rewrite Eq; apply Z.lxor_nilpotent). apply least_bit_byte; [done|done|lia|]. apply trailing_zeros_least; [|done].
    apply fits_lxor; [done|..]; [pose proof (le_val_fits _ Ta) as Hf; rewrite La in Hf|pose proof (le_val_fits _ Tb) as Hf; rewrite Lb in Hf]; exact Hf.
Qed.

Lemma shared_bytes_agree a b i : i < shared_bytes a b → a !! i = b !! i.
Proof.
  revert b i. induction a as [|x a IH]; intros [|y b] i; cbn [shared_bytes]; try lia. destruct (Z.eqb_spec x y) as [->|]; [|lia]. destruct i as [|i]; [done|]. intros Hi. cbn. apply IH. lia.
Qed.

Lemma shared_bytes_length a b : shared_bytes a b ≤ length a ∧ shared_bytes a b ≤ length b.
Proof.
  revert b. induction a as [|x a IH]; intros [|y b]; cbn [shared_bytes length]; try lia. case_match; [|lia]. destruct (IH b). lia.
Qed.

(** [shared] is how many bytes two inputs begin with in common. *)
Lemma shared_is_prefix a b : bytes_ok a → bytes_ok b → shared a b = shared_bytes (take (Nat.min (length a) (length b)) a) (take (Nat.min (length a) (length b)) b).
Proof. intros Ha Hb. unfold shared. apply shared_words_bytes; [by apply Forall_take..|]. rewrite !length_take. lia. Qed.

Lemma shared_agree a b : bytes_ok a → bytes_ok b → shared a b ≤ length a ∧ shared a b ≤ length b ∧ ∀ i, i < shared a b → a !! i = b !! i.
Proof.
  intros Ha Hb. rewrite (shared_is_prefix a b Ha Hb). set (cap := Nat.min (length a) (length b)). pose proof (shared_bytes_length (take cap a) (take cap b)) as [H1 H2].
  rewrite length_take in H1, H2. split_and!; [lia|lia|]. intros i Hi. pose proof (shared_bytes_agree _ _ _ Hi) as E. rewrite !lookup_take in E by lia.
  destruct (decide (i < cap)); [done|lia].
Qed.

(** * What stays true of the chains *)

Lemma piece_ok input from to : from ≤ to → to ≤ length input → piece input from to = Some (take (to - from) (drop from input)).
Proof. intros H1 H2. unfold piece. by rewrite (proj2 (Nat.leb_le _ _) H1), (proj2 (Nat.leb_le _ _) H2). Qed.

Definition HASHES : nat := Z.to_nat (2 ^ HASH_BITS).

Definition slot_ok (span : nat) (v : Z) : Prop := v = NO_SLOT ∨ (0 ≤ v < Z.of_nat span)%Z.

Record chains_ok (span : nat) (head prev : list Z) : Prop := {
  ch_head : length head = HASHES;
  ch_prev : length prev = span;
  ch_heads : Forall (slot_ok span) head;
  ch_prevs : Forall (slot_ok span) prev }.

Lemma put_ok_ {A} at_ (value : A) l : at_ < length l → put at_ value l = Some (<[at_ := value]> l).
Proof. intros H. unfold put. by rewrite (proj2 (Nat.ltb_lt _ _) H). Qed.

Lemma hash_ok bytes : 8 ≤ length bytes → ∃ key, hash bytes = Some key ∧ key < HASHES.
Proof.
  intros H. unfold hash. rewrite piece_ok by (unfold HASH_LEN; lia). rewrite some_bind. eexists. split; [done|]. unfold HASHES, HASH_BITS.
  apply Z2Nat.inj_lt; [apply Z.shiftr_nonneg, wrap_fits; lia|done|]. rewrite Z.shiftr_div_pow2 by done. pose proof (wrap_fits 64 (le_val (take (HASH_LEN - 0) (drop 0 bytes)) * 0x9E3779B97F4A7C15) ltac:(lia)) as [H0 H1].
  apply Z.div_lt_upper_bound; [done|]. exact H1.
Qed.

(** * Copying *)

Lemma copy_bytes_ok input n : ∀ from at_, from < at_ → at_ + n ≤ length input → (∀ i, i < n → input !! (from + i) = input !! (at_ + i)) →
  copy_bytes n from (take at_ input) = Some (take (at_ + n) input).
Proof.
  induction n as [|n IH]; intros from at_ Hf Hl Hi; [by rewrite Nat.add_0_r|]. cbn [copy_bytes]. rewrite lookup_take_lt by lia.
  pose proof (Hi 0 ltac:(lia)) as H0. rewrite !Nat.add_0_r in H0. destruct (lookup_lt_is_Some_2 input at_ ltac:(lia)) as [x Ex]. rewrite H0, Ex, some_bind, <-(take_S_r _ _ _ Ex).
  rewrite IH; [f_equal; f_equal; lia|lia|lia|]. intros i Hlt. specialize (Hi (S i) ltac:(lia)). by rewrite !Nat.add_succ_r in Hi.
Qed.

(** A copy of what comes next puts it there. *)
Lemma copy_ok input at_ n offset : 1 ≤ offset ≤ at_ → at_ + n ≤ length input → (∀ i, i < n → input !! (at_ - offset + i) = input !! (at_ + i)) →
  copy n offset (take at_ input) = Some (take (at_ + n) input).
Proof.
  intros Ho Hl Hi. unfold copy. rewrite length_take, Nat.min_l by lia. destruct (Nat.leb_spec n offset); [|apply copy_bytes_ok; [lia|lia|done]].
  rewrite piece_ok; [|lia|rewrite length_take; lia]. rewrite some_bind. f_equal. rewrite <-take_take_drop. f_equal. apply list_eq. intros i.
  destruct (decide (i < n)); [|rewrite !lookup_take_ge by lia; done]. rewrite !lookup_take_lt, !lookup_drop, lookup_take_lt by lia. by apply Hi.
Qed.

(** * Tokens that replay to the beginning of the input *)

Definition builds (input : list Z) (raw : Raw) (n : nat) : Prop :=
  ∃ literals, mapM (λ run, piece input run.1 run.2) (runs raw) = Some literals ∧ length literals = length (lengths raw) ∧ length literals = length (offsets raw) ∧
  ∀ L ls os, replay_loop ((Ok <$> literals) ++ L) (lengths raw ++ ls) (offsets raw ++ os) 0 [] = replay_loop L ls os 0 (take n input).

Lemma builds_nothing input : builds input Raw_default 0.
Proof. exists []. split_and!; try done. Qed.

Lemma mapM_app_one {A B} (f : A → option B) l l' x y : mapM f l = Some l' → f x = Some y → mapM f (l ++ [x]) = Some (l' ++ [y]).
Proof. rewrite !mapM_Some. intros Hl Hx. apply Forall2_app; [done|]. by repeat constructor. Qed.

Lemma builds_push input raw n at_ len offset : builds input raw n → n ≤ at_ → at_ + len ≤ length input →
  (len ≠ 0 → 1 ≤ offset ≤ at_ ∧ ∀ i, i < len → input !! (at_ - offset + i) = input !! (at_ + i)) → builds input (push_token raw (n, at_) len offset) (at_ + len).
Proof.
  intros (lits&Hm&H1&H2&Hr) Hn Hl Hc. exists (lits ++ [take (at_ - n) (drop n input)]). split_and!.
  - apply mapM_app_one; [done|]. apply piece_ok; cbn; lia.
  - cbn. rewrite !length_app. cbn. lia.
  - cbn. rewrite !length_app. cbn. lia.
  - intros L ls os. unfold push_token. cbn [lengths offsets]. rewrite fmap_app, <-!app_assoc, Hr. cbn [fmap list_fmap app replay_loop].
    rewrite take_take_drop. replace (n + (at_ - n)) with at_ by lia. rewrite (proj2 (Z.ltb_ge _ _)) by lia. destruct (Z.eqb_spec (Z.of_nat len) 0).
    + replace len with 0 by lia. by rewrite Nat.add_0_r.
    + destruct Hc as [Ho Hi]; [lia|]. rewrite (proj2 (Z.ltb_ge _ _)) by lia. rewrite length_take, Nat.min_l, Nat.sub_0_r by lia.
      rewrite (proj2 (Z.eqb_neq _ _)), (proj2 (Z.ltb_ge _ _)) by lia. cbn [orb]. rewrite !Nat2Z.id, copy_ok by done. by rewrite some_bind.
Qed.

(** * One segment *)

Section segment.
Context (input : list Z) (start end_ span : nat) (Hbytes : bytes_ok input) (Hend : end_ ≤ length input) (Hspan : end_ - start ≤ span) (Hsmall : span ≤ SEGMENT).

Lemma chain_at_ok at_ head prev : chains_ok span head prev → ∃ key first, chain_at input at_ end_ head = Some (key, first) ∧ key < HASHES ∧ slot_ok span first.
Proof.
  intros [H1 H2 H3 H4]. unfold chain_at. destruct (Nat.ltb_spec end_ (at_ + HASH_LEN)).
  - exists 0, NO_SLOT. split_and!; [done|unfold HASHES, HASH_BITS; lia|by left].
  - rewrite piece_ok by lia. rewrite some_bind. destruct (hash_ok (take (at_ + HASH_LEN - at_) (drop at_ input))) as (key&->&Hk).
    { rewrite length_take, length_drop. unfold HASH_LEN in *. lia. }
    rewrite some_bind. destruct (lookup_lt_is_Some_2 head key ltac:(lia)) as [v Ev]. rewrite Ev, some_bind. exists key, v. split_and!; [done..|]. by eapply (Forall_lookup_1 _ _ _ _ H3).
Qed.

Lemma slot_fits at_ : start ≤ at_ → at_ < end_ → slot_ok span (slot_word (at_ - start)).
Proof.
  intros H1 H2. assert (Z.of_nat SEGMENT = 262144%Z) as Hz by (unfold SEGMENT; by rewrite Z2Nat.id). unfold slot_word. rewrite wrap_id; [right; lia|]. unfold fits. lia.
Qed.

Lemma chains_put head prev key slot v w : chains_ok span head prev → slot_ok span v → slot_ok span w → chains_ok span (<[key := v]> head) (<[slot := w]> prev).
Proof. intros [H1 H2 H3 H4] Hv Hw. split; [by rewrite length_insert..|by apply Forall_insert|by apply Forall_insert]. Qed.

Lemma insert_at_ok at_ head prev : chains_ok span head prev → start ≤ at_ → ∃ head' prev', insert_at input at_ end_ head prev start = Some (head', prev') ∧ chains_ok span head' prev'.
Proof.
  intros Hc Hs. unfold insert_at. destruct (Nat.ltb_spec end_ (at_ + HASH_LEN)) as [Hlt|Hge]; [by eexists _, _|]. unfold HASH_LEN in Hge.
  rewrite piece_ok by (unfold HASH_LEN; lia). rewrite some_bind. destruct (hash_ok (take (at_ + HASH_LEN - at_) (drop at_ input))) as (key&->&Hk).
  { rewrite length_take, length_drop. unfold HASH_LEN in *. lia. }
  pose proof Hc as [H1 H2 H3 H4]. rewrite some_bind. destruct (lookup_lt_is_Some_2 head key ltac:(lia)) as [v Ev].
  rewrite Ev. bind_step. rewrite (put_ok_ (at_ - start)) by lia. bind_step. rewrite put_ok_ by lia. bind_step.
  eexists _, _. split; [done|]. apply chains_put; [done|apply slot_fits; lia|by eapply (Forall_lookup_1 _ _ _ _ H3)].
Qed.

Lemma insert_steps_ok n : ∀ at_ head prev, chains_ok span head prev → start ≤ at_ → ∃ head' prev', insert_steps n input at_ end_ head prev start = Some (head', prev') ∧ chains_ok span head' prev'.
Proof.
  induction n as [|n IH]; intros at_ head prev Hc Hs; [by eexists _, _|]. cbn [insert_steps]. destruct (insert_at_ok at_ head prev Hc Hs) as (h&p&->&Hc'). rewrite some_bind. apply IH; [done|lia].
Qed.

(** A copy that may be made: it begins earlier in the segment, and reads what comes next. *)
Definition copies (at_ : nat) (r : nat * nat) : Prop :=
  MIN_MATCH ≤ r.1 ∧ at_ + r.1 ≤ end_ ∧ 1 ≤ r.2 ≤ at_ ∧ ∀ i, i < r.1 → input !! (at_ - r.2 + i) = input !! (at_ + i).

Lemma longest_loop_ok tries : ∀ at_ candidate prev best, Forall (slot_ok span) prev → length prev = span → slot_ok span candidate → at_ < end_ →
  (∀ r, best = Some r → copies at_ r) → ∃ found, longest_loop tries input at_ end_ candidate prev start best = Some found ∧ ∀ r, found = Some r → copies at_ r.
Proof.
  induction tries as [|tries IH]; intros at_ candidate prev best Hp Hlen Hc Hat Hbest; [by eexists|]. cbn [longest_loop]. destruct (Z.eqb_spec candidate NO_SLOT) as [|Hne]; [by eexists|].
  destruct Hc as [?|Hc]; [done|]. set (position := start + Z.to_nat candidate). destruct (Nat.leb_spec at_ position) as [|Hpos]; [by eexists|].
  assert (∀ best, (∀ r, best = Some r → copies at_ r) →
    ∃ found, (candidate ← prev !! Z.to_nat candidate; longest_loop tries input at_ end_ candidate prev start best) = Some found ∧ ∀ r, found = Some r → copies at_ r) as Hgo.
  { intros best' Hb'. destruct (lookup_lt_is_Some_2 prev (Z.to_nat candidate) ltac:(lia)) as [v Ev]. rewrite Ev, some_bind. apply IH; [done|done|by eapply (Forall_lookup_1 _ _ _ _ Hp)|done|done]. }
  assert (∃ found, (a ← piece input position end_; b ← piece input at_ end_;
    let length := shared a b in
    candidate ← prev !! Z.to_nat candidate;
    longest_loop tries input at_ end_ candidate prev start (if (MIN_MATCH <=? length) && match best with Some (had, _) => had <? length | None => true end then Some (length, at_ - position) else best)) = Some found
    ∧ ∀ r, found = Some r → copies at_ r) as Hcompare.
  { rewrite !piece_ok by lia. rewrite !some_bind. cbv zeta. apply Hgo. intros r Hr. destruct (_ && _) eqn:Em; [|by apply Hbest]. injection Hr as <-.
    apply andb_true_iff in Em as [Hmin%Nat.leb_le _].
    destruct (shared_agree (take (end_ - position) (drop position input)) (take (end_ - at_) (drop at_ input))) as (H1&H2&H3); [by apply Forall_take, Forall_drop..|].
    rewrite length_take, length_drop in H1, H2. split_and!; cbn [fst snd]; [done|lia|lia|lia|]. intros i Hi. specialize (H3 i Hi). rewrite !lookup_take_lt, !lookup_drop in H3 by lia.
    by replace (at_ - (at_ - position) + i) with (position + i) by lia. }
  destruct best as [[had off]|]; [|done]. destruct (Nat.leb_spec end_ (at_ + had)); [by eexists|].
  destruct (lookup_lt_is_Some_2 input (position + had) ltac:(lia)) as [x Ex]. destruct (lookup_lt_is_Some_2 input (at_ + had) ltac:(lia)) as [y Ey]. rewrite Ex, Ey, !some_bind.
  destruct (negb (x =? y)%Z); [by apply Hgo|done].
Qed.

Lemma longest_ok at_ candidate head prev : chains_ok span head prev → slot_ok span candidate → at_ < end_ →
  ∃ found, longest input at_ end_ candidate prev start = Some found ∧ ∀ r, found = Some r → copies at_ r.
Proof. intros [H1 H2 H3 H4] Hc Hat. apply longest_loop_ok; done. Qed.

Lemma matches_loop_ok fuel : ∀ head prev raw literal_start at_ key first, end_ - at_ < fuel → chains_ok span head prev → key < HASHES → slot_ok span first →
  start ≤ literal_start → literal_start ≤ at_ → at_ ≤ end_ → builds input raw literal_start →
  ∃ head' prev' raw', matches_loop fuel input start end_ head prev raw literal_start at_ key first = Some (head', prev', raw') ∧ chains_ok span head' prev' ∧ builds input raw' end_.
Proof.
  induction fuel as [|fuel IH]; intros head prev raw literal_start at_ key first Hf Hc Hkey Hfirst Hs Hl Hat Hb; [lia|]. cbn [matches_loop].
  destruct (Nat.ltb_spec end_ (at_ + HASH_LEN)) as [Hlt|Hge].
  { eexists _, _, _. split_and!; [done|done|]. destruct (Nat.ltb_spec literal_start end_).
    - replace end_ with (end_ + 0) at 2 by lia. apply builds_push; [done|lia|lia|done].
    - by replace end_ with literal_start by lia. }
  unfold HASH_LEN in Hge. destruct (chain_at_ok (at_ + 1) head prev Hc) as (next_key&next_first&->&Hnk&Hnf). rewrite some_bind.
  destruct (longest_ok at_ first head prev Hc Hfirst ltac:(lia)) as (found&->&Hfound). bind_step.
  pose proof Hc as [H1 H2 _ _]. rewrite (put_ok_ (at_ - start)) by lia. bind_step. rewrite put_ok_ by lia. bind_step.
  pose proof (slot_fits at_ ltac:(lia) ltac:(lia)) as Hslot.
  pose proof (chains_put head prev key (at_ - start) _ _ Hc Hslot Hfirst) as Hc'. destruct found as [[len offset]|].
  - destruct (Hfound _ eq_refl) as (Hmin&Hfit&Hoff&Hsame). cbn [fst snd] in *. unfold MIN_MATCH in Hmin.
    destruct (insert_steps_ok (len - 1) (at_ + 1) _ _ Hc' ltac:(lia)) as (h&p&->&Hc2). bind_step.
    destruct (chain_at_ok (at_ + len) h p Hc2) as (k&f&->&Hk&Hf'). bind_step.
    apply IH; [lia|done|done|done|lia|lia|lia|]. apply builds_push; [done|lia|lia|done].
  - apply IH; [lia|done|done| |lia|lia|lia|done]. by case_match.
Qed.

Lemma matches_in_ok head prev raw : chains_ok span head prev → start ≤ end_ → builds input raw start →
  ∃ head' prev' raw', matches_in input start end_ head prev raw = Some (head', prev', raw') ∧ chains_ok span head' prev' ∧ builds input raw' end_.
Proof.
  intros Hc Hse Hb. unfold matches_in. destruct (chain_at_ok start head prev Hc) as (key&first&->&Hk&Hf). rewrite some_bind.
  apply matches_loop_ok; [lia|done|done|done|lia|lia|lia|done].
Qed.
End segment.

(** * The whole input *)

Lemma segments_loop_ok input span fuel : bytes_ok input → Nat.min SEGMENT (length input) ≤ span → span ≤ SEGMENT → ∀ start head prev raw,
  length input - start < fuel → start ≤ length input → chains_ok span head prev → builds input raw start →
  ∃ raw', segments_loop fuel input start head prev raw = Some raw' ∧ builds input raw' (length input).
Proof.
  intros Hi Hspan Hsmall. assert (1 ≤ SEGMENT) as Hone by (apply Nat2Z.inj_le; unfold SEGMENT; rewrite Z2Nat.id; lia).
  induction fuel as [|fuel IH]; intros start head prev raw Hf Hs Hc Hb; [lia|]. cbn [segments_loop]. destruct (Nat.ltb_spec start (length input)).
  - assert (chains_ok span ((λ _, NO_SLOT) <$> head) prev) as Hc'.
    { destruct Hc as [H1 H2 H3 H4]. split; [by rewrite length_fmap|done|apply Forall_fmap, Forall_forall; intros; by left|done]. }
    destruct (matches_in_ok input start (Nat.min (start + SEGMENT) (length input)) span Hi ltac:(lia) ltac:(lia) Hsmall _ _ raw Hc' ltac:(lia) Hb) as (h&p&raw'&->&Hc2&Hb').
    bind_step. apply IH; [lia|lia|done|done].
  - assert (start = length input) as -> by lia. by eexists.
Qed.

Lemma tokens_of_ok input : bytes_ok input → ∃ t, tokens_of input = Some t ∧ rebuild (t_literals t) (t_lengths t) (t_offsets t) = Some (Ok input).
Proof.
  intros Hi. unfold tokens_of. set (span := Nat.max (Nat.min SEGMENT (length input)) 1).
  assert (1 ≤ SEGMENT) as Hone by (apply Nat2Z.inj_le; unfold SEGMENT; rewrite Z2Nat.id; lia).
  destruct (segments_loop_ok input span (S (length input)) Hi ltac:(lia) ltac:(lia) 0 (replicate HASHES NO_SLOT) (replicate span NO_SLOT) Raw_default) as (raw&Hraw&lits&Hm&H1&H2&Hr); [lia|lia| |apply builds_nothing|].
  { split; [apply length_replicate..|apply Forall_replicate; by left|apply Forall_replicate; by left]. }
  cbv zeta. unfold HASHES in Hraw. rewrite Hraw, some_bind, Hm, some_bind. eexists. split; [done|]. cbn [t_literals t_lengths t_offsets]. unfold rebuild, replay.
  rewrite length_fmap, <-H1, <-H2, !Nat.eqb_refl. cbn [negb orb]. specialize (Hr [] [] []). rewrite !app_nil_r in Hr. rewrite length_nil, Hr. cbn [replay_loop]. by rewrite firstn_all.
Qed.

(** * Replaying any streams *)

(** Whatever is already there is out of reach of a copy, and stays as it is. *)
Lemma copy_bytes_frame n : ∀ from out ext, from < length ext → ∃ more, copy_bytes n from ext = Some (ext ++ more) ∧ length more = n ∧ copy_bytes n (length out + from) (out ++ ext) = Some (out ++ ext ++ more).
Proof.
  induction n as [|n IH]; intros from out ext Hf; cbn [copy_bytes]; [exists []; by rewrite app_nil_r|].
  rewrite lookup_app_r by lia. replace (length out + from - length out) with from by lia. destruct (lookup_lt_is_Some_2 ext from Hf) as [x ->]. rewrite !some_bind.
  destruct (IH (S from) out (ext ++ [x])) as (more&E1&E2&E3); [rewrite length_app; cbn; lia|]. exists (x :: more). rewrite <-!app_assoc in *.
  rewrite <-Nat.add_succ_r, E1, E3. split_and!; [done|cbn; lia|done].
Qed.

Lemma copy_frame n offset out ext : 1 ≤ offset ≤ length ext → ∃ more, copy n offset ext = Some (ext ++ more) ∧ length more = n ∧ copy n offset (out ++ ext) = Some (out ++ ext ++ more).
Proof.
  intros Ho. unfold copy. rewrite length_app. replace (length out + length ext - offset) with (length out + (length ext - offset)) by lia. destruct (Nat.leb_spec n offset).
  - rewrite !piece_ok by (try rewrite length_app; lia). rewrite !some_bind. eexists. split_and!; [done|rewrite length_take, length_drop; lia|].
    rewrite drop_app_ge, <-app_assoc by lia. do 4 f_equal; [lia|]. f_equal. lia.
  - apply copy_bytes_frame. lia.
Qed.

Definition total (literals : list (list Z)) (lengths : list Z) : Z := (Z.of_nat (length (concat literals)) + foldr Z.add 0 lengths)%Z.

Lemma replay_loop_frame out : ∀ literals lengths offsets ext, length literals = length lengths → length lengths = length offsets →
  ∃ r, replay_loop (Ok <$> literals) lengths offsets 0 ext = Some r ∧ replay_loop (Ok <$> literals) lengths offsets (length out) (out ++ ext) = Some (app out <$> r)
    ∧ ∀ whole, r = Ok whole → Z.of_nat (length whole) = (Z.of_nat (length ext) + total literals lengths)%Z ∧ Forall (λ l, 0 ≤ l)%Z lengths.
Proof.
  induction literals as [|literal literals IH]; intros [|l lengths] [|o offsets] ext H1 H2; try done.
  { eexists. split_and!; [done|done|]. intros whole [= <-]. unfold total. cbn. split; [lia|done]. }
  cbn in H1, H2. cbn [fmap list_fmap replay_loop]. rewrite <-app_assoc.
  assert (∀ ext', Z.of_nat (length ext') = (Z.of_nat (length (ext ++ literal)) + l)%Z → (0 ≤ l)%Z →
    ∃ r, replay_loop (Ok <$> literals) lengths offsets 0 ext' = Some r ∧ replay_loop (Ok <$> literals) lengths offsets (length out) (out ++ ext') = Some (app out <$> r)
    ∧ ∀ whole, r = Ok whole → Z.of_nat (length whole) = (Z.of_nat (length ext) + total (literal :: literals) (l :: lengths))%Z ∧ Forall (λ l, 0 ≤ l)%Z (l :: lengths)) as Hgo.
  { intros ext' He Hl. destruct (IH lengths offsets ext' ltac:(lia) ltac:(lia)) as (r&E1&E2&E3). exists r. split_and!; [done|done|]. intros whole Hw. destruct (E3 whole Hw) as [Hlen Hall].
    split; [|by constructor]. rewrite Hlen, He. unfold total. cbn [concat foldr]. rewrite !length_app. lia. }
  destruct (Z.ltb_spec l 0); [by eexists|]. destruct (Z.eqb_spec l 0); [apply Hgo; lia|]. destruct (Z.ltb_spec o 0); [by eexists|].
  rewrite (length_app out). replace (length out + length (ext ++ literal) - length out) with (length (ext ++ literal) - 0) by lia. destruct (_ || _) eqn:Eo; [by eexists|].
  apply orb_false_iff in Eo as [Eo1%Z.eqb_neq Eo2%Z.ltb_ge]. destruct (copy_frame (Z.to_nat l) (Z.to_nat o) out (ext ++ literal) ltac:(lia)) as (more&->&Hm&->).
  rewrite !some_bind. apply Hgo; [rewrite (length_app (ext ++ literal)); lia|done].
Qed.

Lemma rebuild_frame literals lengths offsets out :
  ∃ r, rebuild literals lengths offsets = Some r ∧ rebuild_into literals lengths offsets out = Some (app out <$> r)
    ∧ ∀ whole, r = Ok whole → Z.of_nat (length whole) = total literals lengths ∧ Forall (λ l, 0 ≤ l)%Z lengths.
Proof.
  unfold rebuild, rebuild_into, replay. destruct (_ || _) eqn:E; [by eexists|]. apply orb_false_iff in E as [E1%negb_false_iff%Nat.eqb_eq E2%negb_false_iff%Nat.eqb_eq].
  rewrite length_fmap in E1. pose proof (replay_loop_frame out literals lengths offsets [] E1 E2) as Hf. by rewrite app_nil_r in Hf.
Qed.

(** * Theorems *)

(** C16. Taking an input apart never panics, in the hash, the chains, the comparisons or the cutting of the literal runs, and always ends; and the three streams it gives
    put together again are the input. *)
Theorem lz_reads_back input : bytes_ok input → ∃ t, tokens_of input = Some t ∧ rebuild (t_literals t) (t_lengths t) (t_offsets t) = Some (Ok input).
Proof. apply tokens_of_ok. Qed.

Lemma lz_reads_back_witness : ∃ t, tokens_of [97;98;99;100;101;102;103;104;97;98;99;100;101;102;103;104;97;98;99;120]%Z = Some t
  ∧ rebuild (t_literals t) (t_lengths t) (t_offsets t) = Some (Ok [97;98;99;100;101;102;103;104;97;98;99;100;101;102;103;104;97;98;99;120]%Z).
Proof. apply lz_reads_back. decided. Defined.

(** The copy may read what it writes: eight bytes, then eleven that repeat them, then one more. *)
Example tokens_overlap : tokens_of [97;98;99;100;101;102;103;104;97;98;99;100;101;102;103;104;97;98;99;120]%Z
  = Some (mkTokens [[97;98;99;100;101;102;103;104]; [120]]%Z [11; 0]%Z [8; 0]%Z).
Proof. vm_compute. reflexivity. Qed.

(** Putting together any three streams, wrong ones too, gives bytes or an error and never panics. Into a buffer that holds something already it gives the same, after
    what is there: no copy reaches it. Bytes that are given are as many as the runs and the lengths say, and no length was negative. *)
Theorem rebuild_out_of_reach literals lengths offsets out :
  ∃ r, rebuild literals lengths offsets = Some r ∧ rebuild_into literals lengths offsets out = Some (app out <$> r)
    ∧ ∀ whole, r = Ok whole → Z.of_nat (length whole) = total literals lengths ∧ Forall (λ l, 0 ≤ l)%Z lengths.
Proof. apply rebuild_frame. Qed.

Example rebuild_refused : rebuild [[97; 98]]%Z [1]%Z [3]%Z = Some (Err (Internal "a copy reaches back further than the output")).
Proof. reflexivity. Qed.
