(* ===== verification/Bitpack.v ===== *)
(** Bit packing, [rudb-encoding/src/bitpack.rs]: the transposed layout of a whole unit, the sequential
    layout of a tail, and every way of reading them.

    A [usize] is a [Z], and where a product of two may pass [2 ^ 64] it wraps, as it does in a release
    build. [None] is a panic: an index out of range or a shift by the width of its type. The buffer a
    function is given to write to is an argument and, when it succeeds, its answer; what the buffer
    holds after an error is not modelled. *)

From S2P Require Import Prelude.
Local Open Scope Z_scope.

(** * Panics, errors and loops *)

Declare Scope try_scope.

(** [m?], over a computation that may panic. *)
Definition and_then {A B} (m : option (Result A)) (f : A → option (Result B)) : option (Result B) :=
  match m with Some (Ok a) => f a | Some (Err e) => Some (Err e) | None => None end.

Notation "'try' x ':=' m ';;' k" := (and_then m (λ x, k)) (at level 100, x pattern, m at next level, k at level 200, right associativity) : try_scope.
Local Open Scope try_scope.

(** [for i in from..from + n], whose body may return early. *)
Fixpoint steps {S} (body : Z → S → option (Result S)) (n : nat) (from : Z) (s : S) : option (Result S) :=
  match n with
  | O => Some (Ok s)
  | Datatypes.S n => try s := body from s ;; steps body n (from + 1) s
  end.

Definition upto {S} (n : Z) (body : Z → S → option (Result S)) (s : S) : option (Result S) := steps body (Z.to_nat n) 0 s.

(** [slice[i]], and [slice[i] = value]. *)
Definition get {A} (l : list A) (i : Z) : option A := if (0 <=? i) && (i <? zlen l) then l !! Z.to_nat i else None.
Definition put {A} (i : Z) (value : A) (l : list A) : option (list A) := if (0 <=? i) && (i <? zlen l) then Some (<[Z.to_nat i := value]> l) else None.

(** [<<] and [>>] of a [u64]. *)
Definition shl (value bits : Z) : option Z := if bits <? 64 then Some (wrap 64 (value ≪ bits)) else None.
Definition shr (value bits : Z) : option Z := if bits <? 64 then Some (value ≫ bits) else None.
(** [>>] of a [u128]. *)
Definition shr128 (value bits : Z) : option Z := if bits <? 128 then Some (value ≫ bits) else None.

(** * Types and constants *)

Definition VALUES : Z := 1024.
Definition ORDER : list Z := [0; 4; 2; 6; 1; 5; 3; 7].
Definition WINDOW : Z := 16.
Definition NARROW : Z := 57.

Inductive Packable : Type := U8 | U16 | U32 | U64.

Definition WIDTH (T : Packable) : Z := match T with U8 => 8 | U16 => 16 | U32 => 32 | U64 => 64 end.
Definition LANES (T : Packable) : Z := VALUES / WIDTH T.
Definition from_u64 (T : Packable) (value : Z) : Z := wrap (WIDTH T) value.

Definition low_mask (bits : Z) : Z := if 64 <=? bits then 2 ^ 64 - 1 else (1 ≪ bits) - 1.
Definition shift_right (value bits : Z) : Z := if 64 <=? bits then 0 else value ≫ bits.

Definition div_ceil (a b : Z) : Z := (a + (b - 1)) / b.

(** * Checks *)

Definition check_tail (count width : Z) : Result unit :=
  if VALUES <=? count then Err (Internal "values is a whole unit and belongs in the transposed layout") else
  if 64 <? width then Err (Internal "bits does not fit in 64") else Ok ().

Definition check_vector_len (len : Z) : Result unit := if len =? VALUES then Ok () else Err (Internal "a packed unit is 1024").

Definition check_width (T : Packable) (width : Z) : Result unit := if width <=? WIDTH T then Ok () else Err (Internal "bits does not fit in the type").

Definition check_all_zero (input : list Z) : Result unit :=
  match position (λ value, negb (value =? 0)) input with
  | None => Ok ()
  | Some _ => Err (Internal "a zero bit vector cannot hold a value")
  end.

(** * The layout of a unit *)

Definition source_index (T : Packable) (row lane : Z) : option Z :=
  if negb (row <? WIDTH T) then None else
  if negb (lane <? LANES T) then None else
  let group_size := WIDTH T / 8 in
  let group := row / group_size in
  let offset := row `mod` group_size in
  order ← get ORDER group;
  Some ((offset * 8 + order) * LANES T + lane).

Definition transpose (T : Packable) (input output : list Z) : option (Result (list Z)) :=
  try _ := Some (check_vector_len (zlen input)) ;;
  try _ := Some (check_vector_len (zlen output)) ;;
  upto (WIDTH T) (λ row, upto (LANES T) (λ lane output,
    from ← source_index T row lane;
    value ← get input from;
    output ← put (row * LANES T + lane) value output;
    Some (Ok output))) output.

Definition untranspose (T : Packable) (input output : list Z) : option (Result (list Z)) :=
  try _ := Some (check_vector_len (zlen input)) ;;
  try _ := Some (check_vector_len (zlen output)) ;;
  upto (WIDTH T) (λ row, upto (LANES T) (λ lane output,
    to ← source_index T row lane;
    value ← get input (row * LANES T + lane);
    output ← put to value output;
    Some (Ok output))) output.

Definition packed_len (T : Packable) (width : Z) : Z := width * LANES T.
Definition unit_len (width : Z) : Z := packed_len U64 width * 8.

Definition leading_zeros (value : Z) : Z := if value =? 0 then 64 else 63 - Z.log2 value.

Definition required_width (values : list Z) : Z :=
  let max := match values with [] => 0 | v :: rest => foldl Z.max v rest end in
  64 - leading_zeros max.

(** * Packing a unit *)

Record Packing : Type := mkPacking {
  filled : Z;
  accumulator : Z;
  pk_word : Z;
  pk_output : list Z }.

Definition pack_row (T : Packable) (input : list Z) (width lane row : Z) (s : Packing) : option (Result Packing) :=
  value ← get input (row * LANES T + lane);
  if negb (Z.land value (wnot 64 (low_mask width)) =? 0) then Some (Err (Internal "value does not fit in the bits")) else
  shifted ← shl value (filled s);
  let accumulator := Z.lor (accumulator s) shifted in
  let filled := filled s + width in
  if WIDTH T <=? filled then
    output ← put (pk_word s * LANES T + lane) (from_u64 T (Z.land accumulator (low_mask (WIDTH T)))) (pk_output s);
    let consumed := width - (filled - WIDTH T) in
    Some (Ok (mkPacking (filled - WIDTH T) (shift_right value consumed) (pk_word s + 1) output))
  else Some (Ok (mkPacking filled accumulator (pk_word s) (pk_output s))).

Definition pack_lane (T : Packable) (input : list Z) (width lane : Z) (output : list Z) : option (Result (list Z)) :=
  try s := upto (WIDTH T) (pack_row T input width lane) (mkPacking 0 0 0 output) ;;
  Some (Ok (pk_output s)).

Definition pack_transposed (T : Packable) (input : list Z) (width : Z) (output : list Z) : option (Result (list Z)) :=
  try _ := Some (check_vector_len (zlen input)) ;;
  try _ := Some (check_width T width) ;;
  if negb (zlen output =? packed_len T width) then Some (Err (Internal "a packed vector is of other words")) else
  if width =? 0 then try _ := Some (check_all_zero input) ;; Some (Ok output) else
  upto (LANES T) (pack_lane T input width) output.

(** [Scratch::ready]. *)
Definition ready (transposed : list Z) : list Z :=
  if negb (zlen transposed =? VALUES) then take (Z.to_nat VALUES) transposed ++ replicate (Z.to_nat (VALUES - zlen transposed)) 0 else transposed.

Definition pack_with (T : Packable) (input : list Z) (width : Z) (output scratch : list Z) : option (Result (list Z)) :=
  try _ := Some (check_vector_len (zlen input)) ;;
  try transposed := transpose T input (ready scratch) ;;
  pack_transposed T transposed width output.

Definition pack (T : Packable) (input : list Z) (width : Z) (output : list Z) : option (Result (list Z)) := pack_with T input width output [].

(** * Unpacking a unit *)

Record Unpacking : Type := mkUnpacking {
  available : Z;
  buffer : Z;
  up_word : Z;
  up_output : list Z }.

(** The next value, and what is then left of the words. *)
Definition unpack_next (T : Packable) (input : list Z) (width lane : Z) (s : Unpacking) : option (Z * Z * Z * Z) :=
  if width <=? available s then Some (Z.land (buffer s) (low_mask width), available s - width, shift_right (buffer s) width, up_word s) else
  next ← get input (up_word s * LANES T + lane);
  let taken := width - available s in
  above ← shl (Z.land next (low_mask taken)) (available s);
  Some (Z.lor (buffer s) above, WIDTH T - taken, shift_right next taken, up_word s + 1).

Definition unpack_row (T : Packable) (input : list Z) (width lane row : Z) (s : Unpacking) : option (Result Unpacking) :=
  '(value, available, buffer, word) ← unpack_next T input width lane s;
  output ← put (row * LANES T + lane) (from_u64 T value) (up_output s);
  Some (Ok (mkUnpacking available buffer word output)).

Definition unpack_lane (T : Packable) (input : list Z) (width lane : Z) (output : list Z) : option (Result (list Z)) :=
  try s := upto (WIDTH T) (unpack_row T input width lane) (mkUnpacking 0 0 0 output) ;;
  Some (Ok (up_output s)).

Definition unpack_transposed (T : Packable) (input : list Z) (width : Z) (output : list Z) : option (Result (list Z)) :=
  try _ := Some (check_width T width) ;;
  try _ := Some (check_vector_len (zlen output)) ;;
  if negb (zlen input =? packed_len T width) then Some (Err (Internal "a packed vector is of other words")) else
  if width =? 0 then Some (Ok (replicate (length output) (from_u64 T 0))) else
  upto (LANES T) (unpack_lane T input width) output.

(** A row of every lane: the lanes of it lie side by side in the words and in the output. *)
Definition mapped_row {U} (T : Packable) (input : list Z) (width : Z) (value : Z → U) (row : Z) (output : list U) : option (Result (list U)) :=
  let lanes := LANES T in
  let group_size := WIDTH T / 8 in
  let bit := row * width in
  let word := bit / WIDTH T in
  let shift := bit `mod` WIDTH T in
  order ← get ORDER (row / group_size);
  let base := ((row `mod` group_size) * 8 + order) * lanes in
  low ← get_range (word * lanes) ((word + 1) * lanes) input;
  _ ← get_range base (base + lanes) output;
  if shift + width <=? WIDTH T then
    upto lanes (λ lane output,
      l ← get low lane;
      bits ← shr l shift;
      output ← put (base + lane) (value (Z.land bits (low_mask width))) output;
      Some (Ok output)) output
  else
    let carried := WIDTH T - shift in
    high ← get_range ((word + 1) * lanes) ((word + 2) * lanes) input;
    upto lanes (λ lane output,
      l ← get low lane;
      l ← shr l shift;
      h ← get high lane;
      h ← shl h carried;
      output ← put (base + lane) (value (Z.land (Z.lor l h) (low_mask width))) output;
      Some (Ok output)) output.

Definition unpack_mapped {U} (T : Packable) (input : list Z) (width : Z) (output : list U) (value : Z → U) : option (Result (list U)) :=
  try _ := Some (check_width T width) ;;
  try _ := Some (check_vector_len (zlen output)) ;;
  if negb (zlen input =? packed_len T width) then Some (Err (Internal "a packed vector is of other words")) else
  if width =? 0 then Some (Ok (replicate (length output) (value 0))) else
  upto (WIDTH T) (mapped_row T input width value) output.

Definition unpack (T : Packable) (input : list Z) (width : Z) (output : list Z) : option (Result (list Z)) := unpack_mapped T input width output (from_u64 T).

(** * Unpacking a unit from its bytes *)

Definition word_at (input : list Z) (at_ : Z) : option Z := run ← get_range at_ (at_ + 8) input; Some (le_val run).

Definition unit_row {U} (input : list Z) (width : Z) (value : Z → U) (row : Z) (output : list U) : option (Result (list U)) :=
  let lanes := LANES U64 in
  let stride := lanes * 8 in
  let bit := row * width in
  let word := bit / 64 in
  let shift := bit `mod` 64 in
  order ← get ORDER (row / 8);
  let base := ((row `mod` 8) * 8 + order) * lanes in
  low ← get_range (word * stride) ((word + 1) * stride) input;
  _ ← get_range base (base + lanes) output;
  if shift + width <=? 64 then
    upto lanes (λ lane output,
      l ← word_at low (lane * 8);
      bits ← shr l shift;
      output ← put (base + lane) (value (Z.land bits (low_mask width))) output;
      Some (Ok output)) output
  else
    let carried := 64 - shift in
    high ← get_range ((word + 1) * stride) ((word + 2) * stride) input;
    upto lanes (λ lane output,
      let at_ := lane * 8 in
      l ← word_at low at_;
      l ← shr l shift;
      h ← word_at high at_;
      h ← shl h carried;
      output ← put (base + lane) (value (Z.land (Z.lor l h) (low_mask width))) output;
      Some (Ok output)) output.

Definition unpack_unit_into {U} (input : list Z) (width : Z) (output : list U) (value : Z → U) : option (Result (list U)) :=
  try _ := Some (check_width U64 width) ;;
  try _ := Some (check_vector_len (zlen output)) ;;
  if negb (zlen input =? unit_len width) then Some (Err (Internal "a packed vector is of other bytes")) else
  if width =? 0 then Some (Ok (replicate (length output) (value 0))) else
  upto 64 (unit_row input width value) output.

Definition unit_value (input : list Z) (width index : Z) : option Z :=
  let lanes := LANES U64 in
  let block := index / lanes in
  let lane := index `mod` lanes in
  group ← get ORDER (block `mod` 8);
  let row := group * (WIDTH U64 / 8) + block / 8 in
  let bit := row * width in
  let word := bit / WIDTH U64 in
  let shift := bit `mod` WIDTH U64 in
  low ← word_at input ((word * lanes + lane) * 8);
  bits ← (if shift + width <=? WIDTH U64 then shr low shift else
    high ← word_at input (((word + 1) * lanes + lane) * 8);
    low ← shr low shift;
    high ← shl high (WIDTH U64 - shift);
    Some (Z.lor low high));
  Some (Z.land bits (low_mask width)).

(** The values handed to [each], and how it ended. *)
Fixpoint each_loop (input : list Z) (width : Z) (indices handed : list Z) : option (list Z * Result unit) :=
  match indices with
  | [] => Some (handed, Ok ())
  | index :: indices =>
      if VALUES <=? index then Some (handed, Err (Internal "packed value is outside a unit")) else
      value ← (if width =? 0 then Some 0 else unit_value input width index);
      each_loop input width indices (handed ++ [value])
  end.

Definition unpack_u64_each (input : list Z) (width : Z) (indices : list Z) : option (list Z * Result unit) :=
  match check_width U64 width with
  | Err e => Some ([], Err e)
  | Ok _ =>
      if negb (zlen input =? packed_len U64 width * 8) then Some ([], Err (Internal "a packed vector is of other bytes")) else
      each_loop input width indices []
  end.

Definition unpack_u64_at (input : list Z) (width index : Z) : option (Result Z) :=
  '(handed, r) ← unpack_u64_each input width [index];
  Some (match r with Ok _ => Ok (default 0 (last handed)) | Err e => Err e end).

(** * Tails *)

Definition tail_len (count width : Z) : Z := div_ceil (count * width) 8.

(** The bytes left in the accumulator, whole ones first. *)
Fixpoint flush (fuel : nat) (accumulator filled : Z) (output : list Z) : option (list Z) :=
  match fuel with
  | O => None
  | S fuel =>
      if 8 <=? filled then flush fuel (accumulator ≫ 8) (filled - 8) (output ++ [Z.land accumulator 0xff])
      else Some (if 0 <? filled then output ++ [Z.land accumulator 0xff] else output)
  end.

Fixpoint linear_loop (values : list Z) (width accumulator filled : Z) (output : list Z) : option (Result (list Z)) :=
  match values with
  | [] => output ← flush 9 accumulator filled output; Some (Ok output)
  | value :: values =>
      if negb (Z.land value (wnot 64 (low_mask width)) =? 0) then Some (Err (Internal "value does not fit in the bits")) else
      if 128 <=? filled then None else
      let accumulator := Z.lor accumulator (wrap 128 (value ≪ filled)) in
      let filled := filled + width in
      if 64 <=? filled then linear_loop values width (accumulator ≫ 64) (filled - 64) (output ++ le_bytes 8 (wrap 64 accumulator))
      else linear_loop values width accumulator filled output
  end.

Definition pack_linear (values : list Z) (width : Z) (output : list Z) : option (Result (list Z)) :=
  if 64 <? width then Some (Err (Internal "bits does not fit in 64")) else
  if width =? 0 then try _ := Some (check_all_zero values) ;; Some (Ok output) else
  linear_loop values width 0 0 output.

Definition pack_tail (values : list Z) (width : Z) (output : list Z) : option (Result (list Z)) :=
  try _ := Some (check_tail (zlen values) width) ;;
  pack_linear values width output.

(** [window[..run.len()].copy_from_slice(run)] over zeros, and the window as a [u128]. *)
Definition window_of (run : list Z) : option Z :=
  if zlen run <=? WINDOW then Some (le_val (run ++ replicate (Z.to_nat (WINDOW - zlen run)) 0)) else None.

(** [read]: the value at a bit of a window. *)
Definition read (width window bit : Z) : option Z := bits ← shr128 window bit; Some (Z.land bits (low_mask width)).

(** [for (index, slot) in output[from..to].iter_mut().enumerate()], the index counted from the start of the output. *)
Definition fill_with {U} (from to : Z) (value : Z → U) (at_ : Z → option Z) (output : list U) : option (Result (list U)) :=
  steps (λ index output, bits ← at_ index; output ← put index (value bits) output; Some (Ok output)) (Z.to_nat (to - from)) from output.

Definition unpack_tail_into {U} (input : list Z) (width : Z) (output : list U) (value : Z → U) : option (Result (list U)) :=
  let count := zlen output in
  try _ := Some (check_tail count width) ;;
  if width =? 0 then Some (Ok (replicate (length output) (value 0))) else
  if zlen input <? tail_len count width then Some (Err (Internal "values need more bytes than there are")) else
  if zlen input <? WINDOW then
    word ← window_of input;
    fill_with 0 count value (λ index, read width word (index * width)) output
  else
    let whole := Z.min ((zlen input - WINDOW) * 8 / width + 1) count in
    try output := (if width <=? NARROW then
        fill_with 0 whole value (λ index,
          let bit := index * width in
          word ← word_at input (bit / 8);
          bits ← shr word (bit `mod` 8);
          Some (Z.land bits (low_mask width))) output
      else
        fill_with 0 whole value (λ index,
          let bit := index * width in
          run ← get_range (bit / 8) (bit / 8 + WINDOW) input;
          word ← window_of run;
          read width word (bit `mod` 8)) output) ;;
    if whole <? count then
      let base := zlen input - WINDOW in
      run ← get_from base input;
      word ← window_of run;
      fill_with whole count value (λ index, read width word (index * width - base * 8)) output
    else Some (Ok output).

Definition unpack_tail (input : list Z) (width count : Z) : option (Result (list Z)) :=
  try _ := Some (check_tail count width) ;;
  unpack_tail_into input width (replicate (Z.to_nat count) 0) (λ bits, bits).

Definition tail_at_rest (input : list Z) (width index : Z) : option (Result Z) :=
  if 64 <? width then Some (Err (Internal "a width is past what a u64 holds")) else
  if width =? 0 then Some (Ok 0) else
  let start := wrap 64 (index * width) in
  let end_ := wrap 64 (start + width) in
  if zlen input <? div_ceil end_ 8 then Some (Err (Internal "value ends past the bytes there are")) else
  let first := start / 8 in
  let last := wrap 64 (end_ - 1) / 8 in
  if (first + 8 <=? zlen input) && (wrap 64 (last - first) <? 8) then
    word ← word_at input first;
    bits ← shr word (start `mod` 8);
    Some (Ok (Z.land bits (low_mask width)))
  else
    run ← get_range first (last + 1) input;
    word ← window_of run;
    bits ← read width word (start `mod` 8);
    Some (Ok bits).

Definition tail_at (input : list Z) (width index : Z) : option (Result Z) :=
  let start := wrap 64 (index * width) in
  if (width <=? 56) && (index <=? (2 ^ 64 - 1) / 64) && (start / 8 + 8 <=? zlen input) then
    word ← word_at input (start / 8);
    bits ← shr word (start `mod` 8);
    Some (Ok (Z.land bits (low_mask width)))
  else tail_at_rest input width index.

Definition tail_pair (input : list Z) (width index : Z) : option (Result (Z * Z)) :=
  if index <=? 0 then Some (Err (Internal "a tail pair has nothing before its first value")) else
  let before := index - 1 in
  if width =? 0 then Some (Ok (0, 0)) else
  let start := wrap 64 (before * width) in
  let shift := start `mod` 8 in
  let first := start / 8 in
  if (wrap 64 (shift + 2 * width) <=? 64) && (first + 8 <=? zlen input) then
    word ← word_at input first;
    word ← shr word shift;
    above ← shr word width;
    Some (Ok (Z.land word (low_mask width), Z.land above (low_mask width)))
  else
    try a := tail_at input width before ;;
    try b := tail_at input width index ;;
    Some (Ok (a, b)).
