(* ===== verification/BitpackLaws.v ===== *)
(** Bit packing by its bits: what a loop keeps, numbers given bit by bit, and what each function of
    [Bitpack] writes and reads in those terms. *)

From S2P Require Import Prelude Bitpack.
Local Open Scope Z_scope.

(** * Loops *)

Lemma steps_ok {S} (body : Z → S → option (Result S)) (P : Z → S → Prop) (Q : Prop) n : ∀ from s,
  (∀ i s, from ≤ i < from + Z.of_nat n → P i s → ∃ r, body i s = Some r ∧ match r with Ok s' => P (i + 1) s' | Err _ => Q end) → P from s →
  ∃ r, steps body n from s = Some r ∧ match r with Ok s' => P (from + Z.of_nat n) s' | Err _ => Q end.
Proof.
  induction n as [|n IH]; intros from s Hbody Hs; cbn [steps].
  { eexists. split; [done|]. cbn beta iota. by rewrite Z.add_0_r. }
  destruct (Hbody from s ltac:(lia) Hs) as ([s'|e]&->&Hs'); [|by eexists]. cbn [and_then].
  destruct (IH (from + 1) s') as (r&->&Hr); [|done|].
  - intros i s1 Hi. apply Hbody. lia.
  - exists r. split; [done|]. destruct r; [|done]. by replace (from + Z.of_nat (Datatypes.S n)) with (from + 1 + Z.of_nat n) by lia.
Qed.

Lemma upto_ok {S} n (body : Z → S → option (Result S)) (P : Z → S → Prop) (Q : Prop) s : 0 ≤ n →
  (∀ i s, 0 ≤ i < n → P i s → ∃ r, body i s = Some r ∧ match r with Ok s' => P (i + 1) s' | Err _ => Q end) → P 0 s →
  ∃ r, upto n body s = Some r ∧ match r with Ok s' => P n s' | Err _ => Q end.
Proof.
  intros Hn Hbody Hs. destruct (steps_ok body P Q (Z.to_nat n) 0 s) as (r&Er&Hr); [|done|].
  - intros i s' Hi. apply Hbody. lia.
  - exists r. split; [done|]. by rewrite Z2Nat.id in Hr by done.
Qed.

(** * Arrays *)

Section arrays.
Context {A : Type}.
Implicit Types (l : list A).

(** [l] has [x] at [i]. *)
Definition has l (i : Z) (x : A) : Prop := l !! Z.to_nat i = Some x.

Lemma get_has l i x : 0 ≤ i → has l i x → get l i = Some x.
Proof.
  intros Hi Hx. unfold get. pose proof (lookup_lt_Some _ _ _ Hx). rewrite (proj2 (Z.leb_le _ _)), (proj2 (Z.ltb_lt _ _)) by (unfold zlen; lia). done.
Qed.

Lemma slot_put_ok i v l : 0 ≤ i < zlen l → put i v l = Some (<[Z.to_nat i := v]> l).
Proof. intros Hi. unfold put. by rewrite (proj2 (Z.leb_le _ _)), (proj2 (Z.ltb_lt _ _)) by lia. Qed.

Lemma zlen_insert i v l : zlen (<[i := v]> l) = zlen l.
Proof. unfold zlen. by rewrite length_insert. Qed.

Lemma has_insert i v l : 0 ≤ i < zlen l → has (<[Z.to_nat i := v]> l) i v.
Proof. intros Hi. unfold has. apply list_lookup_insert_eq. unfold zlen in *. lia. Qed.

Lemma lookup_insert_other i j v l : 0 ≤ i → 0 ≤ j → i ≠ j → <[Z.to_nat i := v]> l !! Z.to_nat j = l !! Z.to_nat j.
Proof. intros Hi Hj Hne. apply list_lookup_insert_ne. lia. Qed.

(** Lists with the same elements at every place. *)
Lemma has_ext l l' : zlen l = zlen l' → (∀ i, 0 ≤ i < zlen l → ∃ x, has l i x ∧ has l' i x) → l = l'.
Proof.
  intros Hl Hx. apply list_eq. intros i. destruct (decide (Z.of_nat i < zlen l)) as [Hi|Hi].
  - destruct (Hx (Z.of_nat i) ltac:(lia)) as (x&H1&H2). unfold has in *. rewrite Nat2Z.id in *. by rewrite H1, H2.
  - unfold zlen in *. rewrite !lookup_ge_None_2 by lia. done.
Qed.
End arrays.

Lemma has_byte_at l i : 0 ≤ i < zlen l → has l i (byte_at l i).
Proof. intros Hi. unfold has, byte_at. destruct (lookup_lt_is_Some_2 l (Z.to_nat i)) as [x ->]; [unfold zlen in *; lia|done]. Qed.

Lemma get_byte_at l i : 0 ≤ i < zlen l → get l i = Some (byte_at l i).
Proof. intros Hi. apply get_has; [lia|]. by apply has_byte_at. Qed.

Lemma byte_at_has l i x : has l i x → byte_at l i = x.
Proof. unfold has, byte_at. by intros ->. Qed.

Lemma byte_at_fits w l i : 0 ≤ w → Forall (fits w) l → fits w (byte_at l i).
Proof.
  intros Hw Hl. unfold byte_at. destruct (l !! Z.to_nat i) as [x|] eqn:E; [by eapply (Forall_lookup_1 _ _ _ _ Hl)|]. cbn. unfold fits. lia.
Qed.

(** Places of a table of [L] columns. *)
Lemma lane_place_inj L j l j' l' : 0 ≤ l < L → 0 ≤ l' < L → j * L + l = j' * L + l' → j = j' ∧ l = l'.
Proof. intros H1 H2 H. assert (j = j') by nia. subst. lia. Qed.

(** A loop that writes one cell a turn, each cell once. *)
Lemma grid_ok {U} (rowf : Z → list U → option (Result (list U))) (idx : Z → Z → Z) (v : Z → Z → U) rows lanes len out :
  0 ≤ rows → 0 ≤ lanes → zlen out = len → (∀ r l, 0 ≤ r < rows → 0 ≤ l < lanes → 0 ≤ idx r l < len) →
  (∀ r l r' l', 0 ≤ r < rows → 0 ≤ l < lanes → 0 ≤ r' < rows → 0 ≤ l' < lanes → idx r l = idx r' l' → r = r' ∧ l = l') →
  (∀ r out, 0 ≤ r < rows → zlen out = len → ∃ body, rowf r out = upto lanes body out
    ∧ ∀ l out, 0 ≤ l < lanes → zlen out = len → body l out = Some (Ok (<[Z.to_nat (idx r l) := v r l]> out))) →
  ∃ out', upto rows rowf out = Some (Ok out') ∧ zlen out' = len ∧ ∀ r l, 0 ≤ r < rows → 0 ≤ l < lanes → has out' (idx r l) (v r l).
Proof.
  intros Hrows Hlanes Hlen Hidx Hinj Hrow.
  destruct (upto_ok rows rowf (λ r out, zlen out = len ∧ ∀ r' l, 0 ≤ r' < r → 0 ≤ l < lanes → has out (idx r' l) (v r' l)) False out Hrows) as ([out'|e]&E&H); [| |by exists out'|done].
  - intros r s Hr [Hs Hbelow]. destruct (Hrow r s Hr Hs) as (body&->&Hbody).
    destruct (upto_ok lanes body (λ l out, zlen out = len ∧ (∀ r' l', 0 ≤ r' < r → 0 ≤ l' < lanes → has out (idx r' l') (v r' l')) ∧ ∀ l', 0 ≤ l' < l → has out (idx r l') (v r l')) False s Hlanes) as ([s'|e]&E&H); [| | |done].
    + intros l s1 Hl (H1&H2&H3). rewrite Hbody by done. eexists. split; [done|]. cbn beta iota. pose proof (Hidx r l Hr Hl). split_and!; [by rewrite zlen_insert| |].
      * intros r' l' Hr' Hl'. unfold has. pose proof (Hidx r' l' ltac:(lia) Hl'). rewrite lookup_insert_other; [by apply H2|lia|lia|]. intros Heq. apply Hinj in Heq; lia.
      * intros l' Hl'. destruct (decide (l' = l)) as [->|]; [apply has_insert; lia|]. pose proof (Hidx r l' Hr ltac:(lia)). unfold has.
        rewrite lookup_insert_other; [apply H3; lia|lia|lia|]. intros Heq. apply Hinj in Heq; lia.
    + split_and!; [done|done|lia].
    + exists (Ok s'). split; [done|]. destruct H as (H1&H2&H3). split; [done|]. intros r' l Hr' Hl. destruct (decide (r' = r)) as [->|]; [by apply H3|]. apply H2; lia.
  - split; [done|lia].
Qed.

(** A loop that writes one column a turn. *)
Lemma columns_ok {U} (lanef : Z → list U → option (Result (list U))) (v : Z → Z → U) (R : Z → Prop) (Q : Prop) n L len out : 0 ≤ L → zlen out = len →
  (∀ lane out, 0 ≤ lane < L → zlen out = len → ∃ r, lanef lane out = Some r ∧ match r with
    | Ok out' => zlen out' = len ∧ (∀ j, 0 ≤ j < n → has out' (j * L + lane) (v j lane))
        ∧ (∀ j l, 0 ≤ j → 0 ≤ l < L → l ≠ lane → out' !! Z.to_nat (j * L + l) = out !! Z.to_nat (j * L + l)) ∧ R lane
    | Err _ => Q end) →
  ∃ r, upto L lanef out = Some r ∧ match r with Ok out' => zlen out' = len ∧ (∀ j l, 0 ≤ j < n → 0 ≤ l < L → has out' (j * L + l) (v j l)) ∧ ∀ l, 0 ≤ l < L → R l | Err _ => Q end.
Proof.
  intros HL Hlen Hlane. destruct (upto_ok L lanef (λ lane out, zlen out = len ∧ (∀ j l, 0 ≤ j < n → 0 ≤ l < lane → has out (j * L + l) (v j l)) ∧ ∀ l, 0 ≤ l < lane → R l) Q out HL) as (r&E&H); [| |by exists r].
  - intros lane s Hl (Hs&Hbelow&HR). destruct (Hlane lane s Hl Hs) as (r&->&H). exists r. split; [done|]. destruct r as [out'|]; [|done]. destruct H as (H1&H2&H3&H4). split_and!; [done| |].
    + intros j l Hj Hl'. destruct (decide (l = lane)) as [->|]; [by apply H2|]. unfold has. rewrite H3 by lia. apply Hbelow; lia.
    + intros l Hl'. destruct (decide (l = lane)) as [->|]; [done|]. apply HR. lia.
  - split_and!; [done|lia|lia].
Qed.

(** * Numbers by their bits *)

Fixpoint of_bits (n : nat) (g : Z → bool) : Z := match n with O => 0 | S n => Z.b2z (g 0) + 2 * of_bits n (λ i, g (i + 1)) end.

Definition bits (n : Z) (g : Z → bool) : Z := of_bits (Z.to_nat n) g.

Lemma of_bits_testbit n : ∀ g i, 0 ≤ i → Z.testbit (of_bits n g) i = (i <? Z.of_nat n) && g i.
Proof.
  induction n as [|n IH]; intros g i Hi; cbn [of_bits]; [rewrite Z.bits_0, (proj2 (Z.ltb_ge _ _)) by lia; done|].
  destruct (decide (i = 0)) as [->|Hne].
  - rewrite Z.add_comm. rewrite Z.testbit_0_r. done.
  - replace i with (Z.succ (i - 1)) at 1 by lia. rewrite Z.add_comm, Z.testbit_succ_r by lia. rewrite IH by lia. replace (i - 1 + 1) with i by lia.
    f_equal. apply eq_true_iff_eq. rewrite !Z.ltb_lt. lia.
Qed.

Lemma bits_testbit n g i : 0 ≤ n → 0 ≤ i → Z.testbit (bits n g) i = (i <? n) && g i.
Proof. intros Hn Hi. unfold bits. rewrite of_bits_testbit by done. by rewrite Z2Nat.id by done. Qed.

Lemma bits_ext n x g : 0 ≤ n → (∀ i, 0 ≤ i → Z.testbit x i = (i <? n) && g i) → x = bits n g.
Proof. intros Hn H. apply Z.bits_inj'. intros i Hi. rewrite bits_testbit by done. by apply H. Qed.

Lemma bits_agree n g h : (∀ i, 0 ≤ i < n → g i = h i) → bits n g = bits n h.
Proof.
  intros H. destruct (decide (0 ≤ n)); [|unfold bits; by replace (Z.to_nat n) with 0%nat by lia]. apply bits_ext; [done|]. intros i Hi. rewrite bits_testbit by done.
  destruct (Z.ltb_spec i n); [|done]. cbn. apply H. lia.
Qed.

Lemma bits_fits n g : 0 ≤ n → fits n (bits n g).
Proof.
  intros Hn. apply fits_of_testbit; [done|unfold bits; generalize (Z.to_nat n) as k; intros k; revert g; induction k as [|k IH]; intros g; cbn [of_bits]; [done|specialize (IH (λ i, g (i + 1))); destruct (g 0); cbn [Z.b2z]; lia]|]. intros i Hi. rewrite bits_testbit, (proj2 (Z.ltb_ge _ _)) by lia. done. Qed.

Lemma fits_bits n x : 0 ≤ n → fits n x → x = bits n (Z.testbit x).
Proof. intros Hn Hx. apply bits_ext; [done|]. intros i Hi. destruct (Z.ltb_spec i n); [done|]. by apply (fits_testbit n). Qed.

(** * The operations of the code, by their bits *)

Lemma low_mask_ones b : 0 ≤ b ≤ 64 → low_mask b = Z.ones b.
Proof. intros Hb. unfold low_mask. destruct (Z.leb_spec 64 b); [by replace b with 64 by lia|]. unfold Z.ones. lia. Qed.

Lemma land_low_mask b x : 0 ≤ b ≤ 64 → Z.land x (low_mask b) = bits b (Z.testbit x).
Proof.
  intros Hb. rewrite low_mask_ones by done. apply bits_ext; [lia|]. intros i Hi. rewrite Z.land_spec, Z.testbit_ones_nonneg, andb_comm by lia. done.
Qed.

Lemma wrap_bits w x : 0 ≤ w → wrap w x = bits w (Z.testbit x).
Proof.
  intros Hw. apply bits_ext; [done|]. intros i Hi. unfold wrap. destruct (Z.ltb_spec i w); [by rewrite Z.mod_pow2_bits_low by lia|]. by rewrite Z.mod_pow2_bits_high by lia.
Qed.

Lemma shift_right_shiftr x b : fits 64 x → 0 ≤ b → shift_right x b = x ≫ b.
Proof.
  intros Hx Hb. unfold shift_right. destruct (Z.leb_spec 64 b); [|done]. symmetry. apply Z.bits_inj'. intros i Hi. rewrite Z.shiftr_spec, Z.bits_0 by done. apply (fits_testbit 64); [done|lia].
Qed.

Lemma too_wide_iff x w : fits 64 x → 0 ≤ w ≤ 64 → (Z.land x (wnot 64 (low_mask w)) =? 0) = true ↔ fits w x.
Proof.
  intros Hx Hw. rewrite Z.eqb_eq. unfold wnot. rewrite low_mask_ones by done. split.
  - intros H. apply fits_of_testbit; [lia|unfold fits in Hx; lia|]. intros i Hi. destruct (decide (i < 64)); [|apply (fits_testbit 64); [done|lia]].
    pose proof (f_equal (λ z, Z.testbit z i) H) as Hb. cbn beta in Hb. rewrite Z.land_spec, Z.lxor_spec, !Z.testbit_ones_nonneg, Z.bits_0 in Hb by lia.
    rewrite (proj2 (Z.ltb_ge i w)), (proj2 (Z.ltb_lt i 64)) in Hb by lia. by rewrite andb_true_r in Hb.
  - intros H. apply Z.bits_inj'. intros i Hi. rewrite Z.land_spec, Z.lxor_spec, !Z.testbit_ones_nonneg, Z.bits_0 by lia.
    destruct (Z.ltb_spec i w) as [Hlt|Hge]; [|by rewrite (fits_testbit w x i) by done]. rewrite (proj2 (Z.ltb_lt i 64)) by lia. by rewrite andb_false_r.
Qed.

Lemma fits_not_wide x w : fits 64 x → 0 ≤ w ≤ 64 → negb (Z.land x (wnot 64 (low_mask w)) =? 0) = negb (bool_decide (fits w x)).
Proof. intros Hx Hw. f_equal. apply eq_true_iff_eq. by rewrite too_wide_iff, bool_decide_eq_true. Qed.

(** The bits of a word from one on, with those of a second word above them. *)
Lemma low_high W l h s w g : 0 ≤ w ≤ 64 → 0 ≤ W ≤ 64 → fits W l → 0 ≤ s ≤ W → (∀ i, 0 ≤ i < w → i < W - s → g i = Z.testbit l (s + i)) → (∀ i, 0 ≤ i < w → W - s ≤ i → g i = Z.testbit h (s + i - W)) →
  Z.land (Z.lor (l ≫ s) (wrap 64 (h ≪ (W - s)))) (low_mask w) = bits w g.
Proof.
  intros Hw HW Hl Hs Hlow Hhigh. rewrite land_low_mask by done. apply bits_agree. intros i Hi. rewrite Z.lor_spec, Z.shiftr_spec, wrap_bits, bits_testbit, Z.shiftl_spec by lia.
  rewrite (proj2 (Z.ltb_lt i 64)) by lia. cbn [andb]. destruct (decide (i < W - s)).
  - rewrite (Z.testbit_neg_r h) by lia. rewrite Hlow by lia. by rewrite orb_false_r, Z.add_comm.
  - rewrite (fits_testbit W l) by (done || lia). rewrite Hhigh by lia. cbn [orb]. f_equal. lia.
Qed.

Lemma low_only l s w g : 0 ≤ w ≤ 64 → 0 ≤ s → (∀ i, 0 ≤ i < w → g i = Z.testbit l (s + i)) → Z.land (l ≫ s) (low_mask w) = bits w g.
Proof. intros Hw Hs H. rewrite land_low_mask by done. apply bits_agree. intros i Hi. rewrite Z.shiftr_spec, H, Z.add_comm by lia. done. Qed.

(** * Where a value of a unit lies *)

Lemma widths T : 8 ≤ WIDTH T ≤ 64 ∧ 1 ≤ LANES T ∧ WIDTH T * LANES T = VALUES ∧ WIDTH T = 8 * (WIDTH T / 8) ∧ 1 ≤ WIDTH T / 8.
Proof. destruct T; vm_compute; repeat split; congruence. Qed.

Definition ord (g : Z) : Z := byte_at ORDER g.

(** The order of the groups undoes itself. *)
Lemma ord_ok g : 0 ≤ g < 8 → get ORDER g = Some (ord g) ∧ 0 ≤ ord g < 8 ∧ ord (ord g) = g.
Proof.
  intros Hg. assert (g = 0 ∨ g = 1 ∨ g = 2 ∨ g = 3 ∨ g = 4 ∨ g = 5 ∨ g = 6 ∨ g = 7) as Hc by lia. repeat destruct Hc as [->|Hc]; [..|subst g]; vm_compute; repeat split; congruence.
Qed.

Definition sidx (T : Packable) (row lane : Z) : Z := ((row `mod` (WIDTH T / 8)) * 8 + ord (row / (WIDTH T / 8))) * LANES T + lane.

Section layout.
Context (T : Packable).
Notation W := (WIDTH T).
Notation L := (LANES T).
Notation g := (WIDTH T / 8).

Lemma row_parts row : 0 ≤ row < W → 0 ≤ row `mod` g < g ∧ 0 ≤ row / g < 8 ∧ row = g * (row / g) + row `mod` g.
Proof.
  intros Hr. destruct (widths T) as (_&_&_&H8&Hg). pose proof (Z.mod_pos_bound row g ltac:(lia)). pose proof (Z.div_mod row g ltac:(lia)). pose proof (Z.div_pos row g ltac:(lia) ltac:(lia)).
  split_and!; [lia..| |lia]. apply Z.div_lt_upper_bound; lia.
Qed.

Lemma sidx_ok row lane : 0 ≤ row < W → 0 ≤ lane < L → source_index T row lane = Some (sidx T row lane) ∧ 0 ≤ sidx T row lane < VALUES.
Proof.
  intros Hr Hl. destruct (row_parts row Hr) as (Hm&Hd&_). destruct (ord_ok (row / g) Hd) as (Ho&Hlt&_). destruct (widths T) as (_&_&HV&H8&_). split.
  - unfold source_index. rewrite (proj2 (Z.ltb_lt row W)), (proj2 (Z.ltb_lt lane L)) by lia. cbn [negb]. cbv zeta. rewrite Ho. done.
  - unfold sidx. rewrite <-HV. assert (row `mod` g * 8 + ord (row / g) < W) by lia. nia.
Qed.

Lemma sidx_inj r l r' l' : 0 ≤ r < W → 0 ≤ l < L → 0 ≤ r' < W → 0 ≤ l' < L → sidx T r l = sidx T r' l' → r = r' ∧ l = l'.
Proof.
  intros Hr Hl Hr' Hl' E. destruct (row_parts r Hr) as (Hm&Hd&Er). destruct (row_parts r' Hr') as (Hm'&Hd'&Er'). destruct (ord_ok _ Hd) as (_&Hlt&Hi). destruct (ord_ok _ Hd') as (_&Hlt'&Hi').
  apply lane_place_inj in E as [E ->]; [|done|done]. apply lane_place_inj in E as [E1 E2]; [|done|done]. split; [|done]. rewrite Er, Er', E1, <-Hi, <-Hi', E2. done.
Qed.

(** The row and the lane of the value at [i]. *)
Definition row_of (i : Z) : Z := ord ((i / L) `mod` 8) * g + (i / L) / 8.

Lemma sidx_surj i : 0 ≤ i < VALUES → 0 ≤ row_of i < W ∧ 0 ≤ i `mod` L < L ∧ sidx T (row_of i) (i `mod` L) = i.
Proof.
  intros Hi. destruct (widths T) as (_&HL&HV&H8&Hg). pose proof (Z.mod_pos_bound i L ltac:(lia)). pose proof (Z.div_mod i L ltac:(lia)) as Ei. pose proof (Z.div_pos i L ltac:(lia) ltac:(lia)).
  assert (i / L < W) by (apply Z.div_lt_upper_bound; lia). pose proof (Z.mod_pos_bound (i / L) 8 ltac:(lia)) as Hb. pose proof (Z.div_mod (i / L) 8 ltac:(lia)) as Eb.
  pose proof (Z.div_pos (i / L) 8 ltac:(lia) ltac:(lia)). assert (i / L / 8 < g) by (apply Z.div_lt_upper_bound; lia). destruct (ord_ok _ Hb) as (_&Ho&Hinv). unfold row_of.
  split_and!; [nia|nia|lia|lia|]. unfold sidx. rewrite Z.add_comm with (n := ord _ * g), Z.mod_add, Z.div_add by lia. rewrite (Z.mod_small (i / L / 8)), (Z.div_small (i / L / 8)) by lia.
  rewrite Z.add_0_l, Hinv. lia.
Qed.

Lemma vector_len_ok {A} (l : list A) : zlen l = VALUES → check_vector_len (zlen l) = Ok ().
Proof. intros ->. done. Qed.

Lemma place_ok row lane n : 0 ≤ row < n → 0 ≤ lane < L → 0 ≤ row * L + lane < n * L.
Proof. nia. Qed.

Lemma range_ok w n : 0 ≤ w < n → 0 ≤ w * L ≤ (w + 1) * L ∧ (w + 1) * L ≤ n * L ∧ (w + 1) * L - w * L = L.
Proof. destruct (widths T) as (_&HL&_). nia. Qed.

Lemma transpose_ok input output : zlen input = VALUES → zlen output = VALUES →
  ∃ out, transpose T input output = Some (Ok out) ∧ zlen out = VALUES ∧ ∀ r l, 0 ≤ r < W → 0 ≤ l < L → has out (r * L + l) (byte_at input (sidx T r l)).
Proof.
  intros Hi Ho. unfold transpose. rewrite !vector_len_ok by done. cbn [and_then]. destruct (widths T) as (HW&HL&HV&_). apply (grid_ok _ (λ r l, r * L + l) (λ r l, byte_at input (sidx T r l))); [lia|lia|done| | |].
  - intros r l Hr Hl. pose proof (place_ok r l W Hr Hl). lia.
  - intros r l r' l' _ Hl _ Hl'. by apply lane_place_inj.
  - intros r out0 Hr _. eexists. split; [done|]. intros l out Hl Hout. cbv beta. destruct (sidx_ok r l Hr Hl) as [-> Hs]. rewrite some_bind, get_byte_at by lia. rewrite some_bind, slot_put_ok; [done|]. pose proof (place_ok r l W Hr Hl). lia.
Qed.

Lemma untranspose_ok input output : zlen input = VALUES → zlen output = VALUES →
  ∃ out, untranspose T input output = Some (Ok out) ∧ zlen out = VALUES ∧ ∀ r l, 0 ≤ r < W → 0 ≤ l < L → has out (sidx T r l) (byte_at input (r * L + l)).
Proof.
  intros Hi Ho. unfold untranspose. rewrite !vector_len_ok by done. cbn [and_then]. destruct (widths T) as (HW&HL&HV&_). apply (grid_ok _ (sidx T) (λ r l, byte_at input (r * L + l))); [lia|lia|done| | |].
  - intros r l Hr Hl. by apply sidx_ok.
  - intros r l r' l'. apply sidx_inj.
  - intros r out0 Hr _. eexists. split; [done|]. intros l out Hl Hout. cbv beta. destruct (sidx_ok r l Hr Hl) as [-> Hs]. pose proof (place_ok r l W Hr Hl). rewrite some_bind, get_byte_at by lia. rewrite some_bind, slot_put_ok; [done|]. lia.
Qed.
End layout.

(** * Packing a unit *)

(** The bits of a lane one value after the other, each of [w] bits, where the values of a row lie side by side. *)
Definition lane_bit (T : Packable) (w : Z) (l : list Z) (lane k : Z) : bool := Z.testbit (byte_at l ((k / w) * LANES T + lane)) (k `mod` w).

Lemma lane_bit_at T w l lane row i : 0 ≤ i < w → lane_bit T w l lane (row * w + i) = Z.testbit (byte_at l (row * LANES T + lane)) i.
Proof. intros Hi. unfold lane_bit. rewrite Z.div_add_l, (Z.div_small i), Z.add_0_r by lia. by rewrite (Z.add_comm (row * w)), Z.mod_add, Z.mod_small by lia. Qed.

Lemma lane_bit_shift T w l lane k row i : 0 ≤ i < w → k = row * w + i → lane_bit T w l lane k = Z.testbit (byte_at l (row * LANES T + lane)) i.
Proof. intros Hi ->. by apply lane_bit_at. Qed.

Section packing.
Context (T : Packable) (input : list Z) (width : Z) (Hinput : zlen input = VALUES) (Hfits : Forall (fits (WIDTH T)) input) (Hwidth : 0 < width ≤ WIDTH T).
Notation W := (WIDTH T).
Notation L := (LANES T).

(** The words of a lane. *)
Definition packed_word (j lane : Z) : Z := bits W (λ i, lane_bit T width input lane (j * W + i)).

Record packing_ok (lane : Z) (out0 : list Z) (row : Z) (s : Packing) : Prop := {
  po_len : zlen (pk_output s) = packed_len T width;
  po_filled : 0 ≤ filled s < W;
  po_word : 0 ≤ pk_word s;
  po_at : row * width = pk_word s * W + filled s;
  po_acc : accumulator s = bits (filled s) (λ i, lane_bit T width input lane (pk_word s * W + i));
  po_done : ∀ j, 0 ≤ j < pk_word s → has (pk_output s) (j * L + lane) (packed_word j lane);
  po_frame : ∀ j l, 0 ≤ j → 0 ≤ l < L → l ≠ lane → pk_output s !! Z.to_nat (j * L + l) = out0 !! Z.to_nat (j * L + l);
  po_fit : ∀ r, 0 ≤ r < row → fits width (byte_at input (r * L + lane)) }.

(** The accumulator with the next value in it. *)
Lemma accumulate lane row s n : 0 ≤ row → 0 ≤ filled s < W → row * width = pk_word s * W + filled s → accumulator s = bits (filled s) (λ i, lane_bit T width input lane (pk_word s * W + i)) →
  n ≤ filled s + width → n ≤ W →
  bits n (Z.testbit (Z.lor (accumulator s) (wrap 64 (byte_at input (row * L + lane) ≪ filled s)))) = bits n (λ i, lane_bit T width input lane (pk_word s * W + i)).
Proof.
  intros Hrow Hf Hat Hacc Hn HnW. destruct (widths T) as (HW&_). apply bits_agree. intros i Hi.
  rewrite Z.lor_spec, Hacc, bits_testbit, wrap_bits, bits_testbit, Z.shiftl_spec by lia. rewrite (proj2 (Z.ltb_lt i 64)) by lia. cbn [andb]. destruct (Z.ltb_spec i (filled s)); cbn [andb orb].
  - rewrite (Z.testbit_neg_r _ (i - filled s)) by lia. by rewrite orb_false_r.
  - symmetry. apply lane_bit_shift; lia.
Qed.

Lemma accumulated_fits lane row s : 0 ≤ row → 0 ≤ filled s → filled s + width < W → fits width (byte_at input (row * L + lane)) → accumulator s = bits (filled s) (λ i, lane_bit T width input lane (pk_word s * W + i)) →
  fits (filled s + width) (Z.lor (accumulator s) (wrap 64 (byte_at input (row * L + lane) ≪ filled s))).
Proof.
  intros Hrow Hf Hw Hv Hacc. destruct (widths T) as (HW&_). apply fits_lor; [lia| |].
  - rewrite Hacc. eapply fits_weaken; [|apply bits_fits; lia]. lia.
  - assert (fits (filled s + width) (byte_at input (row * L + lane) ≪ filled s)) as Hs; [|rewrite wrap_id; [done|eapply fits_weaken; [|done]; lia]].
    unfold fits in *. rewrite Z.shiftl_mul_pow2, Z.pow_add_r by lia. split; [nia|]. rewrite Z.mul_comm. apply Z.mul_lt_mono_pos_l; [lia|lia].
Qed.

Lemma value_fits r lane : fits W (byte_at input (r * L + lane)).
Proof. destruct (widths T) as (HW&_). apply byte_at_fits; [lia|done]. Qed.

Lemma pack_row_ok lane out0 row s : 0 ≤ row < W → 0 ≤ lane < L → packing_ok lane out0 row s →
  ∃ r, pack_row T input width lane row s = Some r ∧ match r with Ok s' => packing_ok lane out0 (row + 1) s' | Err _ => ¬ Forall (fits width) input end.
Proof.
  intros Hrow Hlane [Hlen Hf Hw Hat Hacc Hdone Hframe Hfit]. destruct (widths T) as (HW&HL&HV&_). pose proof (value_fits row lane) as Hv. pose proof (place_ok T row lane W Hrow Hlane) as Hp.
  unfold pack_row. rewrite get_byte_at by lia. rewrite some_bind, fits_not_wide by (lia || (eapply fits_weaken; [|exact Hv]; lia)). case_bool_decide as Hsmall; cbn [negb].
  2: { eexists. split; [done|]. intros Hall. apply Hsmall. apply byte_at_fits; [lia|done]. }
  unfold shl. rewrite (proj2 (Z.ltb_lt (filled s) 64)) by lia. bind_step.
  assert (∀ r, 0 ≤ r < row + 1 → fits width (byte_at input (r * L + lane))) as Hfit'.
  { intros r Hr. destruct (decide (r = row)) as [->|]; [done|]. apply Hfit. lia. }
  destruct (Z.leb_spec W (filled s + width)) as [Hfull|Hroom].
  - assert (0 ≤ pk_word s < width) as Hword by nia. pose proof (place_ok T (pk_word s) lane width Hword Hlane) as Hq. rewrite slot_put_ok by (rewrite Hlen; exact Hq). bind_step. eexists. split; [done|].
    assert (from_u64 T (Z.land (Z.lor (accumulator s) (wrap 64 (byte_at input (row * L + lane) ≪ filled s))) (low_mask W)) = packed_word (pk_word s) lane) as ->.
    { rewrite land_low_mask, accumulate by lia. unfold from_u64. rewrite wrap_id by (apply bits_fits; lia). done. }
    split; cbn [filled accumulator pk_word pk_output]; [by rewrite zlen_insert|lia|lia|lia| | | |done].
    + rewrite shift_right_shiftr by (lia || (eapply fits_weaken; [|exact Hv]; lia)). apply bits_ext; [lia|]. intros i Hi. rewrite Z.shiftr_spec by done. destruct (Z.ltb_spec i (filled s + width - W)); cbn [andb].
      * symmetry. apply lane_bit_shift; lia.
      * apply (fits_testbit width); [done|lia].
    + intros j Hj. destruct (decide (j = pk_word s)) as [->|]; [apply has_insert; rewrite Hlen; exact Hq|]. unfold has. rewrite lookup_insert_other; [apply Hdone; lia|lia|nia|nia].
    + intros j l Hj Hl Hne. rewrite lookup_insert_other; [by apply Hframe|lia|nia|]. intros E. by apply lane_place_inj in E as [_ ?].
  - eexists. split; [done|]. split; cbn [filled accumulator pk_word pk_output]; [done|lia|done|lia| |done|done|done].
    rewrite (fits_bits (filled s + width) (Z.lor _ _)); [|lia|apply accumulated_fits; (done || lia)]. apply accumulate; (done || lia).
Qed.

Lemma pack_lane_ok lane out0 : 0 ≤ lane < L → zlen out0 = packed_len T width →
  ∃ r, pack_lane T input width lane out0 = Some r ∧ match r with
    | Ok out' => zlen out' = packed_len T width ∧ (∀ j, 0 ≤ j < width → has out' (j * L + lane) (packed_word j lane))
        ∧ (∀ j l, 0 ≤ j → 0 ≤ l < L → l ≠ lane → out' !! Z.to_nat (j * L + l) = out0 !! Z.to_nat (j * L + l)) ∧ ∀ r, 0 ≤ r < W → fits width (byte_at input (r * L + lane))
    | Err _ => ¬ Forall (fits width) input end.
Proof.
  intros Hlane Hlen. destruct (widths T) as (HW&HL&HV&_). unfold pack_lane.
  destruct (upto_ok W (pack_row T input width lane) (packing_ok lane out0) (¬ Forall (fits width) input) (mkPacking 0 0 0 out0)) as ([s|e]&->&Hs); [lia| | | |by eexists].
  - intros row s Hrow Hs. by apply pack_row_ok.
  - split; cbn [filled accumulator pk_word pk_output]; try done; lia.
  - cbn [and_then]. eexists. split; [done|]. destruct Hs as [H1 H2 H3 H4 H5 H6 H7 H8]. assert (pk_word s = width) as Hword by nia. rewrite Hword in H6. done.
Qed.
End packing.

(** A list whose every place in the table is so. *)
Lemma table_Forall T (P : Z → Prop) l n : zlen l = n * LANES T → (∀ r lane, 0 ≤ r < n → 0 ≤ lane < LANES T → P (byte_at l (r * LANES T + lane))) → Forall P l.
Proof.
  intros Hl HP. destruct (widths T) as (_&HL&_). apply Forall_lookup. intros i x Hx. pose proof (lookup_lt_Some _ _ _ Hx) as Hi. unfold zlen in Hl.
  pose proof (Z.div_mod (Z.of_nat i) (LANES T) ltac:(lia)). pose proof (Z.mod_pos_bound (Z.of_nat i) (LANES T) ltac:(lia)).
  specialize (HP (Z.of_nat i / LANES T) (Z.of_nat i `mod` LANES T)). replace (Z.of_nat i / LANES T * LANES T + Z.of_nat i `mod` LANES T) with (Z.of_nat i) in HP by lia.
  unfold byte_at in HP. rewrite Nat2Z.id, Hx in HP. apply HP; [|done]. split; [apply Z.div_pos; lia|]. apply Z.div_lt_upper_bound; lia.
Qed.

Lemma all_zero_ok l : Forall (λ x, 0 ≤ x) l → check_all_zero l = Ok () ∧ Forall (fits 0) l ∨ (∃ e, check_all_zero l = Err e) ∧ ¬ Forall (fits 0) l.
Proof.
  intros Hp. unfold check_all_zero. destruct (position _ l) as [i|] eqn:E.
  - right. split; [by eexists|]. destruct (position_there _ _ _ E) as (x&Hx&Hn%negb_true_iff%Z.eqb_neq&_). intros Hall. pose proof (Forall_lookup_1 _ _ _ _ Hall Hx) as Hf. unfold fits in Hf. lia.
  - left. split; [done|]. apply Forall_lookup. intros i x Hx. pose proof (position_nowhere _ _ E i x Hx) as Hz%negb_false_iff%Z.eqb_eq. subst. done.
Qed.

Lemma Forall_fits_nonneg w l : Forall (fits w) l → Forall (λ x, 0 ≤ x) l.
Proof. intros H. eapply Forall_impl; [exact H|]. unfold fits. lia. Qed.

Lemma pack_transposed_ok T input width out : zlen input = VALUES → Forall (fits (WIDTH T)) input → 0 ≤ width ≤ WIDTH T → zlen out = packed_len T width →
  ∃ r, pack_transposed T input width out = Some r ∧ match r with
    | Ok p => zlen p = packed_len T width ∧ (∀ j l, 0 ≤ j < width → 0 ≤ l < LANES T → has p (j * LANES T + l) (packed_word T input width j l)) ∧ Forall (fits width) input
    | Err _ => ¬ Forall (fits width) input end.
Proof.
  intros Hi Hf Hw Hout. destruct (widths T) as (HW&HL&HV&_). unfold pack_transposed. rewrite vector_len_ok by done. unfold check_width. rewrite (proj2 (Z.leb_le _ _)) by lia. cbn [and_then].
  rewrite (proj2 (Z.eqb_eq (zlen out) _) Hout). cbn [negb]. destruct (Z.eqb_spec width 0) as [->|Hne].
  - destruct (all_zero_ok input) as [[-> Hz]|[[e ->] Hz]]; [by eapply Forall_fits_nonneg| |by eexists]. eexists. split; [done|]. split_and!; [done|lia|done].
  - destruct (columns_ok (pack_lane T input width) (packed_word T input width) (λ lane, ∀ r, 0 ≤ r < WIDTH T → fits width (byte_at input (r * LANES T + lane))) (¬ Forall (fits width) input) width (LANES T) (packed_len T width) out)
      as (r&->&Hr); [lia|done| |].
    + intros lane out0 Hl Ho. apply pack_lane_ok; try done; lia.
    + exists r. split; [done|]. destruct r as [p|]; [|done]. destruct Hr as (H1&H2&H3). split_and!; [done|done|]. apply (table_Forall T _ _ (WIDTH T)); [lia|]. intros r l Hr Hl. by apply H3.
Qed.

(** * Unpacking a unit *)

(** The value at a row of a lane. *)
Definition unit_word (T : Packable) (words : list Z) (width row lane : Z) : Z := bits width (λ i, lane_bit T (WIDTH T) words lane (row * width + i)).

Section unpacking.
Context (T : Packable) (words : list Z) (width : Z) (Hwidth : 0 < width ≤ WIDTH T) (Hwords : zlen words = packed_len T width) (Hfits : Forall (fits (WIDTH T)) words).
Notation W := (WIDTH T).
Notation L := (LANES T).

Record unpacking_ok (lane : Z) (out0 : list Z) (row : Z) (s : Unpacking) : Prop := {
  uo_len : zlen (up_output s) = VALUES;
  uo_available : 0 ≤ available s < W;
  uo_word : 0 ≤ up_word s;
  uo_at : up_word s * W = row * width + available s;
  uo_buffer : buffer s = bits (available s) (λ i, lane_bit T W words lane (row * width + i));
  uo_done : ∀ r, 0 ≤ r < row → has (up_output s) (r * L + lane) (unit_word T words width r lane);
  uo_frame : ∀ j l, 0 ≤ j → 0 ≤ l < L → l ≠ lane → up_output s !! Z.to_nat (j * L + l) = out0 !! Z.to_nat (j * L + l) }.

Lemma unpack_next_ok lane out0 row s : 0 ≤ row < W → 0 ≤ lane < L → unpacking_ok lane out0 row s →
  ∃ a b w, unpack_next T words width lane s = Some (unit_word T words width row lane, a, b, w)
    ∧ 0 ≤ a < W ∧ 0 ≤ w ∧ w * W = (row + 1) * width + a ∧ b = bits a (λ i, lane_bit T W words lane ((row + 1) * width + i)).
Proof.
  intros Hrow Hlane [_ Ha Hw Hat Hb _ _]. destruct (widths T) as (HW&HL&HV&_). unfold unpack_next. destruct (Z.leb_spec width (available s)) as [Hin|Hout].
  - exists (available s - width), (shift_right (buffer s) width), (up_word s). split_and!; [|lia|lia|lia|lia|].
    + do 4 f_equal. rewrite land_low_mask, Hb by lia. apply bits_agree. intros i Hi. rewrite bits_testbit, (proj2 (Z.ltb_lt _ _)) by lia. done.
    + rewrite Hb, shift_right_shiftr by (lia || (eapply fits_weaken; [|apply bits_fits; lia]; lia)). apply bits_ext; [lia|]. intros i Hi. rewrite Z.shiftr_spec, bits_testbit by lia.
      f_equal; [apply eq_true_iff_eq; rewrite !Z.ltb_lt; lia|]. f_equal. lia.
  - assert (0 ≤ up_word s < width) as Hword by nia. pose proof (place_ok T (up_word s) lane width Hword Hlane) as Hq. unfold packed_len in Hwords. rewrite get_byte_at by lia. bind_step.
    assert (fits W (byte_at words (up_word s * L + lane))) as Hnext by (apply byte_at_fits; [lia|done]). unfold shl. rewrite (proj2 (Z.ltb_lt _ 64)) by lia. bind_step.
    exists (W - (width - available s)), (shift_right (byte_at words (up_word s * L + lane)) (width - available s)), (up_word s + 1). split_and!; [|lia|lia|lia|lia|].
    + do 4 f_equal. apply bits_ext; [lia|]. intros i Hi. rewrite Z.lor_spec, Hb, bits_testbit, wrap_bits, bits_testbit, Z.shiftl_spec by lia. destruct (Z.ltb_spec i (available s)); cbn [andb].
      * rewrite (Z.testbit_neg_r _ (i - available s)), (proj2 (Z.ltb_lt i width)), andb_false_r, orb_false_r by lia. done.
      * rewrite land_low_mask, bits_testbit by lia. cbn [orb]. destruct (Z.ltb_spec i width).
        -- rewrite (proj2 (Z.ltb_lt i 64)), (proj2 (Z.ltb_lt (i - available s) _)) by lia. cbn [andb]. symmetry. apply lane_bit_shift; lia.
        -- rewrite (proj2 (Z.ltb_ge (i - available s) _)) by lia. by rewrite andb_false_r.
    + rewrite shift_right_shiftr by (lia || (eapply fits_weaken; [|exact Hnext]; lia)). apply bits_ext; [lia|]. intros i Hi. rewrite Z.shiftr_spec by done. destruct (Z.ltb_spec i (W - (width - available s))); cbn [andb].
      * symmetry. apply lane_bit_shift; lia.
      * apply (fits_testbit W); [done|lia].
Qed.

Lemma unpack_row_ok lane out0 row s : 0 ≤ row < W → 0 ≤ lane < L → unpacking_ok lane out0 row s → ∃ s', unpack_row T words width lane row s = Some (Ok s') ∧ unpacking_ok lane out0 (row + 1) s'.
Proof.
  intros Hrow Hlane Hs. destruct (unpack_next_ok lane out0 row s Hrow Hlane Hs) as (a&b&w&E&H1&H2&H3&H4). destruct Hs as [Hlen _ _ _ _ Hdone Hframe].
  destruct (widths T) as (HW&HL&HV&_). pose proof (place_ok T row lane W Hrow Hlane) as Hp. unfold unpack_row. rewrite E. bind_step. rewrite slot_put_ok by lia. bind_step. eexists. split; [done|].
  assert (from_u64 T (unit_word T words width row lane) = unit_word T words width row lane) as ->.
  { apply wrap_id. eapply fits_weaken; [|apply bits_fits; lia]. lia. }
  split; cbn [available buffer up_word up_output]; [by rewrite zlen_insert|done|done|done|done| |].
  - intros r Hr. destruct (decide (r = row)) as [->|]; [apply has_insert; lia|]. unfold has. rewrite lookup_insert_other; [apply Hdone; lia|lia|nia|nia].
  - intros j l Hj Hl Hne. rewrite lookup_insert_other; [by apply Hframe|lia|nia|]. intros Eq. by apply lane_place_inj in Eq as [_ ?].
Qed.

Lemma unpack_transposed_ok out0 : zlen out0 = VALUES →
  ∃ out, unpack_transposed T words width out0 = Some (Ok out) ∧ zlen out = VALUES ∧ ∀ r l, 0 ≤ r < W → 0 ≤ l < L → has out (r * L + l) (unit_word T words width r l).
Proof.
  intros Ho. destruct (widths T) as (HW&HL&HV&_). unfold unpack_transposed, check_width. rewrite vector_len_ok by done. rewrite (proj2 (Z.leb_le _ _)) by lia. cbn [and_then].
  rewrite (proj2 (Z.eqb_eq (zlen words) _) Hwords), (proj2 (Z.eqb_neq width 0)) by lia. cbn [negb].
  destruct (columns_ok (unpack_lane T words width) (unit_word T words width) (λ _, True) False W L VALUES out0) as ([out|]&E&H); [lia|done| | |done].
  - intros lane out1 Hl Ho1. unfold unpack_lane.
    destruct (upto_ok W (unpack_row T words width lane) (unpacking_ok lane out1) False (mkUnpacking 0 0 0 out1)) as ([s|]&->&Hs); [lia| | | |done].
    + intros row s Hr Hs. destruct (unpack_row_ok lane out1 row s Hr Hl Hs) as (s'&->&Hs'). by eexists.
    + split; cbn [available buffer up_word up_output]; try done; lia.
    + cbn [and_then]. eexists. split; [done|]. destruct Hs as [H1 _ _ _ _ H6 H7]. done.
  - exists out. split; [done|]. destruct H as (H1&H2&_). done.
Qed.

(** The one or two words a value lies in. *)
Lemma word_bounds row : 0 ≤ row < W → 0 ≤ row * width / W < width ∧ 0 ≤ (row * width) `mod` W < W ∧ row * width = row * width / W * W + (row * width) `mod` W
  ∧ (W < (row * width) `mod` W + width → row * width / W + 1 < width).
Proof.
  intros Hr. destruct (widths T) as (HW&_). pose proof (Z.div_mod (row * width) W ltac:(lia)). pose proof (Z.mod_pos_bound (row * width) W ltac:(lia)). pose proof (Z.div_pos (row * width) W ltac:(nia) ltac:(lia)).
  assert (row * width + width ≤ W * width) by nia. split_and!; [lia|nia|lia|lia|lia|]. intros H3. nia.
Qed.

Lemma word_read row lane : 0 ≤ row < W → (row * width) `mod` W + width ≤ W →
  Z.land (byte_at words (row * width / W * L + lane) ≫ ((row * width) `mod` W)) (low_mask width) = unit_word T words width row lane.
Proof.
  intros Hr Hs. destruct (widths T) as (HW&_). destruct (word_bounds row Hr) as (_&Hm&E&_). apply low_only; [lia|lia|]. intros i Hi. apply lane_bit_shift; lia.
Qed.

Lemma unit_words_read row lane : 0 ≤ row < W → W < (row * width) `mod` W + width →
  Z.land (Z.lor (byte_at words (row * width / W * L + lane) ≫ ((row * width) `mod` W)) (wrap 64 (byte_at words ((row * width / W + 1) * L + lane) ≪ (W - (row * width) `mod` W)))) (low_mask width)
  = unit_word T words width row lane.
Proof.
  intros Hr Hs. destruct (widths T) as (HW&_). destruct (word_bounds row Hr) as (_&Hm&E&_).
  apply low_high; [lia|lia|apply byte_at_fits; [lia|done]|lia| |]; intros i Hi Hlt; apply lane_bit_shift; lia.
Qed.

Lemma get_slice (l : list Z) a b i : 0 ≤ a → b ≤ zlen l → 0 ≤ i < b - a → get (slice a b l) i = Some (byte_at l (a + i)).
Proof.
  intros Ha Hb Hi. apply get_has; [lia|]. unfold has, slice. rewrite lookup_take_lt, lookup_drop by lia. replace (Z.to_nat a + Z.to_nat i)%nat with (Z.to_nat (a + i)) by lia. apply has_byte_at. lia.
Qed.

(** The places of a row. *)
Lemma row_base row lane : sidx T row lane = ((row `mod` (W / 8)) * 8 + ord (row / (W / 8))) * L + lane.
Proof. done. Qed.

Lemma mapped_row_ok {U} (value : Z → U) row out : 0 ≤ row < W → zlen out = VALUES → ∃ body, mapped_row T words width value row out = upto L body out
  ∧ ∀ l out, 0 ≤ l < L → zlen out = VALUES → body l out = Some (Ok (<[Z.to_nat (sidx T row l) := value (unit_word T words width row l)]> out)).
Proof.
  intros Hr Ho. destruct (widths T) as (HW&HL&HV&_). destruct (word_bounds row Hr) as (Hw&Hm&_&Hhi). destruct (row_parts T row Hr) as (_&Hg&_). destruct (ord_ok _ Hg) as (Eo&_).
  pose proof (sidx_ok T row 0 Hr ltac:(lia)) as [_ H0]. pose proof (sidx_ok T row (L - 1) Hr ltac:(lia)) as [_ H1]. rewrite row_base in H0, H1. unfold packed_len in Hwords.
  destruct (range_ok T _ _ Hw) as (Hr1&Hr2&Hr3). unfold mapped_row. cbv zeta. rewrite Eo. bind_step. rewrite (get_range_in (row * width / W * L)) by lia. bind_step.
  rewrite (get_range_in _ _ out) by lia. bind_step.
  destruct (Z.leb_spec ((row * width) `mod` W + width) W) as [Hone|Htwo].
  - eexists. split; [done|]. intros l out' Hl Ho'. cbv beta. rewrite get_slice by lia. bind_step. unfold shr. rewrite (proj2 (Z.ltb_lt _ 64)) by lia. bind_step.
    pose proof (sidx_ok T row l Hr Hl) as [_ H2]. rewrite row_base in *. rewrite word_read, slot_put_ok by lia. done.
  - destruct (range_ok T (row * width / W + 1) width) as (Hs1&Hs2&Hs3); [lia|]. replace (row * width / W + 1 + 1) with (row * width / W + 2) in * by lia. rewrite get_range_in by lia. bind_step.
    eexists. split; [done|]. intros l out' Hl Ho'. cbv beta. rewrite (get_slice words (row * width / W * L)) by lia. bind_step.
    unfold shr, shl. rewrite (proj2 (Z.ltb_lt ((row * width) `mod` W) 64)) by lia. bind_step.
    rewrite get_slice by lia. bind_step. rewrite (proj2 (Z.ltb_lt (W - _) 64)) by lia. bind_step. pose proof (sidx_ok T row l Hr Hl) as [_ H2]. rewrite row_base in *. rewrite unit_words_read, slot_put_ok by lia. done.
Qed.

Lemma unpack_mapped_ok {U} (value : Z → U) out0 : zlen out0 = VALUES →
  ∃ out, unpack_mapped T words width out0 value = Some (Ok out) ∧ zlen out = VALUES ∧ ∀ r l, 0 ≤ r < W → 0 ≤ l < L → has out (sidx T r l) (value (unit_word T words width r l)).
Proof.
  intros Ho. destruct (widths T) as (HW&HL&HV&_). unfold unpack_mapped, check_width. rewrite vector_len_ok by done. rewrite (proj2 (Z.leb_le _ _)) by lia. cbn [and_then].
  rewrite (proj2 (Z.eqb_eq (zlen words) _) Hwords), (proj2 (Z.eqb_neq width 0)) by lia. cbn [negb].
  apply (grid_ok _ (sidx T) (λ r l, value (unit_word T words width r l))); [lia|lia|done| | |].
  - intros r l Hr Hl. by apply sidx_ok.
  - intros r l r' l'. apply sidx_inj.
  - intros r out Hr Hout. by apply mapped_row_ok.
Qed.
End unpacking.

(** * Units as bytes *)

(** The little endian words of a run of bytes. *)
Definition words_of (bytes : list Z) : list Z := (λ j, le_val (slice (8 * j) (8 * j + 8) bytes)) <$> seqZ 0 (zlen bytes / 8).

Lemma words_of_len bytes : zlen (words_of bytes) = zlen bytes / 8.
Proof. unfold words_of, zlen at 1. rewrite length_fmap, length_seqZ, Z2Nat.id; [done|]. apply Z.div_pos; [apply zlen_nonneg|lia]. Qed.

Lemma words_of_at bytes j : 0 ≤ j < zlen bytes / 8 → byte_at (words_of bytes) j = le_val (slice (8 * j) (8 * j + 8) bytes).
Proof. intros Hj. apply byte_at_has. unfold has, words_of. rewrite list_lookup_fmap, lookup_seqZ_lt by lia. cbn. f_equal. f_equal. f_equal; lia. Qed.

Lemma words_of_fits bytes : bytes_ok bytes → Forall (fits 64) (words_of bytes).
Proof.
  intros Hb. apply Forall_fmap, Forall_forall. intros j Hj%elem_of_seqZ. cbn. pose proof (le_val_fits _ (slice_bytes_ok (8 * j) (8 * j + 8) bytes Hb)) as Hf. fold (zlen (slice (8 * j) (8 * j + 8) bytes)) in Hf.
  eapply fits_weaken; [|exact Hf]. pose proof (Z.mul_div_le (zlen bytes) 8 ltac:(lia)). rewrite zlen_slice; lia.
Qed.

Lemma word_at_ok bytes at_ : 0 ≤ at_ → at_ + 8 ≤ zlen bytes → word_at bytes at_ = Some (le_val (slice at_ (at_ + 8) bytes)).
Proof. intros H1 H2. unfold word_at. by rewrite get_range_in by lia. Qed.

Section unit_bytes.
Context (bytes : list Z) (width : Z) (Hwidth : 0 < width ≤ 64) (Hbytes : bytes_ok bytes) (Hlen : zlen bytes = unit_len width).
Notation L := (LANES U64).
Notation words := (words_of bytes).

Lemma unit_words_len : zlen words = packed_len U64 width.
Proof. rewrite words_of_len, Hlen. unfold unit_len. by rewrite Z.div_mul. Qed.

Lemma unit_word_at w lane : 0 ≤ w < width → 0 ≤ lane < L → word_at bytes ((w * L + lane) * 8) = Some (byte_at words (w * L + lane)).
Proof.
  intros Hw Hl. pose proof (place_ok U64 w lane width Hw Hl). pose proof unit_words_len as Hn. unfold unit_len, packed_len in *. rewrite word_at_ok by lia. rewrite words_of_at by (rewrite <-words_of_len; lia).
  do 2 f_equal. f_equal; lia.
Qed.

Lemma stride_word_at w lane : 0 ≤ w < width → 0 ≤ lane < L → word_at (slice (w * (L * 8)) ((w + 1) * (L * 8)) bytes) (lane * 8) = Some (byte_at words (w * L + lane)).
Proof.
  intros Hw Hl. pose proof (range_ok U64 w width Hw) as (R1&R2&R3). unfold unit_len, packed_len in Hlen. rewrite <-unit_word_at by done. pose proof (place_ok U64 w lane width Hw Hl).
  rewrite !word_at_ok by (try rewrite zlen_slice; lia). rewrite slice_slice by lia. do 2 f_equal. f_equal; lia.
Qed.

Lemma unit_row_ok {U} (value : Z → U) row out : 0 ≤ row < 64 → zlen out = VALUES → ∃ body, unit_row bytes width value row out = upto L body out
  ∧ ∀ l out, 0 ≤ l < L → zlen out = VALUES → body l out = Some (Ok (<[Z.to_nat (sidx U64 row l) := value (unit_word U64 words width row l)]> out)).
Proof.
  intros Hr Ho. destruct (widths U64) as (HW&HL&HV&_). destruct (word_bounds U64 width Hwidth row Hr) as (Hw&Hm&_&Hhi). destruct (row_parts U64 row Hr) as (_&Hg&_). destruct (ord_ok _ Hg) as (Eo&_).
  pose proof (sidx_ok U64 row 0 Hr ltac:(lia)) as [_ H0]. pose proof (sidx_ok U64 row (L - 1) Hr ltac:(lia)) as [_ H1]. unfold sidx in H0, H1.
  pose proof (words_of_fits bytes Hbytes) as Hf. pose proof unit_words_len as Hn.
  change (WIDTH U64 / 8) with 8 in *. change (WIDTH U64) with 64 in *. destruct (range_ok U64 _ _ Hw) as (Hr1&Hr2&Hr3). pose proof Hlen as Hlen'. unfold unit_len, packed_len in Hlen'.
  unfold unit_row. cbv zeta. rewrite Eo. bind_step. rewrite (get_range_in (row * width / 64 * (L * 8))) by lia. bind_step. rewrite (get_range_in _ _ out) by lia. bind_step.
  destruct (Z.leb_spec ((row * width) `mod` 64 + width) 64) as [Hone|Htwo].
  - eexists. split; [done|]. intros l out' Hl Ho'. cbv beta. rewrite stride_word_at by lia. bind_step. unfold shr. rewrite (proj2 (Z.ltb_lt _ 64)) by lia. bind_step.
    pose proof (sidx_ok U64 row l Hr Hl) as [_ H2]. rewrite (word_read U64 words width) by done. rewrite slot_put_ok by (unfold sidx in H2; rewrite Ho'; exact H2). done.
  - destruct (range_ok U64 (row * width / 64 + 1) width) as (Hs1&Hs2&Hs3); [lia|]. replace (row * width / 64 + 1 + 1) with (row * width / 64 + 2) in * by lia. rewrite get_range_in by lia. bind_step.
    eexists. split; [done|]. intros l out' Hl Ho'. cbv beta. rewrite stride_word_at by lia. bind_step.
    unfold shr, shl. rewrite (proj2 (Z.ltb_lt ((row * width) `mod` 64) 64)) by lia. bind_step.
    replace (row * width / 64 + 2) with (row * width / 64 + 1 + 1) by lia. rewrite stride_word_at by lia. bind_step. rewrite (proj2 (Z.ltb_lt (64 - _) 64)) by lia. bind_step.
    pose proof (sidx_ok U64 row l Hr Hl) as [_ H2]. rewrite (unit_words_read U64 words width) by done. rewrite slot_put_ok by (unfold sidx in H2; rewrite Ho'; exact H2). done.
Qed.

Lemma unpack_unit_into_ok {U} (value : Z → U) out0 : zlen out0 = VALUES →
  ∃ out, unpack_unit_into bytes width out0 value = Some (Ok out) ∧ zlen out = VALUES ∧ ∀ r l, 0 ≤ r < 64 → 0 ≤ l < L → has out (sidx U64 r l) (value (unit_word U64 words width r l)).
Proof.
  intros Ho. destruct (widths U64) as (HW&HL&HV&_). unfold unpack_unit_into, check_width. rewrite vector_len_ok by done. change (WIDTH U64) with 64 in *. rewrite (proj2 (Z.leb_le _ _)) by lia. cbn [and_then].
  rewrite (proj2 (Z.eqb_eq (zlen bytes) _) Hlen), (proj2 (Z.eqb_neq width 0)) by lia. cbn [negb].
  apply (grid_ok _ (sidx U64) (λ r l, value (unit_word U64 words width r l))); [lia|lia|done| | |].
  - intros r l Hr Hl. by apply (sidx_ok U64).
  - intros r l r' l'. apply (sidx_inj U64).
  - intros r out Hr Hout. by apply unit_row_ok.
Qed.

Lemma unit_value_ok index : 0 ≤ index < VALUES → unit_value bytes width index = Some (unit_word U64 words width (row_of U64 index) (index `mod` L)).
Proof.
  intros Hi. destruct (sidx_surj U64 index Hi) as (Hr&Hl&_). destruct (widths U64) as (HW&HL&HV&_). destruct (word_bounds U64 width Hwidth _ Hr) as (Hw&Hm&_&Hhi).
  pose proof (words_of_fits bytes Hbytes) as Hf. pose proof unit_words_len as Hn. destruct (ord_ok ((index / L) `mod` 8)) as (Eo&_); [apply Z.mod_pos_bound; lia|].
  unfold unit_value. cbv zeta. rewrite Eo. bind_step. fold (row_of U64 index). rewrite (unit_word_at (row_of U64 index * width / WIDTH U64)) by lia. bind_step.
  destruct (Z.leb_spec ((row_of U64 index * width) `mod` WIDTH U64 + width) (WIDTH U64)) as [Hone|Htwo].
  - unfold shr. rewrite (proj2 (Z.ltb_lt _ 64)) by lia. bind_step. rewrite (word_read U64 words width) by done. done.
  - rewrite unit_word_at by lia. bind_step. unfold shr, shl. rewrite (proj2 (Z.ltb_lt ((_ * _) `mod` _) 64)) by lia. bind_step. rewrite (proj2 (Z.ltb_lt (WIDTH U64 - _) 64)) by lia. bind_step.
    bind_step. rewrite (unit_words_read U64 words width) by done. done.
Qed.
End unit_bytes.
