(* ===== verification/BitpackTail.v ===== *)
(** The sequential layout of [Bitpack], what it is by its bits and how each reader finds a value in
    it; and the theorems on both layouts. *)

From S2P Require Import Prelude Bitpack BitpackLaws.
Local Open Scope Z_scope.

(** * The bits of a run of bytes *)

Lemma le_val_testbit l k : bytes_ok l → 0 ≤ k → Z.testbit (le_val l) k = Z.testbit (byte_at l (k / 8)) (k `mod` 8).
Proof.
  intros Hl Hk. unfold byte_at. pose proof (Z.div_pos k 8 Hk ltac:(lia)). destruct (l !! Z.to_nat (k / 8)) as [b|] eqn:E; cbn [default from_option id].
  - Local Transparent le_val. apply little_endian_to_Z_spec; [done|lia|exact Hl|exact E].
  - rewrite Z.bits_0. apply lookup_ge_None in E. apply (fits_testbit _ _ _ (le_val_fits l Hl)). pose proof (Z.mul_div_le k 8 ltac:(lia)). lia.
Qed.
Local Opaque le_val.

Lemma byte_at_app l l' i : 0 ≤ i → byte_at (l ++ l') i = if i <? zlen l then byte_at l i else byte_at l' (i - zlen l).
Proof.
  intros Hi. unfold byte_at. destruct (Z.ltb_spec i (zlen l)); unfold zlen in *; [by rewrite lookup_app_l by lia|]. rewrite lookup_app_r by lia. do 2 f_equal. lia.
Qed.

Lemma le_val_app_testbit l l' k : bytes_ok l → bytes_ok l' → 0 ≤ k → Z.testbit (le_val (l ++ l')) k = if k <? 8 * zlen l then Z.testbit (le_val l) k else Z.testbit (le_val l') (k - 8 * zlen l).
Proof.
  intros Hl Hl' Hk. pose proof (Z.div_pos k 8 Hk ltac:(lia)). rewrite le_val_testbit, byte_at_app; [|done|by apply Forall_app|done]. pose proof (Z.div_mod k 8 ltac:(lia)). pose proof (Z.mod_pos_bound k 8 ltac:(lia)).
  destruct (Z.ltb_spec (k / 8) (zlen l)), (Z.ltb_spec k (8 * zlen l)); try lia; rewrite le_val_testbit by (done || lia); [done|].
  replace (k - 8 * zlen l) with (k + - zlen l * 8) by lia. rewrite Z.div_add, Z.mod_add by lia. done.
Qed.

Lemma slice_testbit l a b i : bytes_ok l → 0 ≤ a ≤ b → b ≤ zlen l → 0 ≤ i < 8 * (b - a) → Z.testbit (le_val (slice a b l)) i = Z.testbit (le_val l) (8 * a + i).
Proof.
  intros Hl Hab Hb Hi. rewrite !le_val_testbit; [|done|lia|by apply slice_bytes_ok|lia]. replace (8 * a + i) with (i + a * 8) by lia. rewrite Z.div_add, Z.mod_add by lia. f_equal.
  pose proof (Z.div_pos i 8 ltac:(lia) ltac:(lia)). assert (i / 8 < b - a) by (apply Z.div_lt_upper_bound; lia). unfold byte_at, slice. rewrite lookup_take_lt, lookup_drop by lia. do 2 f_equal. lia.
Qed.

(** The [w] bits of a run of bytes from one on. *)
Definition field (input : list Z) (pos w : Z) : Z := bits w (λ i, Z.testbit (le_val input) (pos + i)).

Lemma slice_field input a b bit w : bytes_ok input → 0 ≤ a ≤ b → b ≤ zlen input → 0 ≤ w ≤ 64 → 0 ≤ bit → bit + w ≤ 8 * (b - a) → Z.land (le_val (slice a b input) ≫ bit) (low_mask w) = field input (8 * a + bit) w.
Proof. intros Hi Hab Hb Hw Hbit Hlen. apply low_only; [done|done|]. intros i Hlt. rewrite slice_testbit by (done || lia). f_equal. lia. Qed.

Lemma bit_parts pos : 0 ≤ pos → 0 ≤ pos / 8 ∧ 0 ≤ pos `mod` 8 < 8 ∧ pos = 8 * (pos / 8) + pos `mod` 8.
Proof. intros Hp. pose proof (Z.div_mod pos 8 ltac:(lia)). pose proof (Z.mod_pos_bound pos 8 ltac:(lia)). pose proof (Z.div_pos pos 8 Hp ltac:(lia)). lia. Qed.

(** One load of eight bytes. *)
Lemma word_field input pos w : bytes_ok input → 0 ≤ pos → 0 ≤ w ≤ 64 → pos / 8 + 8 ≤ zlen input → pos `mod` 8 + w ≤ 64 →
  ∃ word, word_at input (pos / 8) = Some word ∧ shr word (pos `mod` 8) = Some (word ≫ (pos `mod` 8)) ∧ Z.land (word ≫ (pos `mod` 8)) (low_mask w) = field input pos w.
Proof.
  intros Hi Hp Hw Hlen Hin. destruct (bit_parts pos Hp) as (H1&H2&H3). eexists. split_and!; [apply word_at_ok; lia| |].
  - unfold shr. rewrite (proj2 (Z.ltb_lt _ 64)) by lia. done.
  - rewrite slice_field by (done || lia). by rewrite <-H3.
Qed.

Lemma window_ok run : bytes_ok run → zlen run ≤ WINDOW → window_of run = Some (le_val run).
Proof.
  intros Hr Hl. unfold window_of. rewrite (proj2 (Z.leb_le _ _) Hl). f_equal. apply Z.bits_inj'. intros k Hk. rewrite le_val_app_testbit by (done || apply replicate_bytes_ok). destruct (Z.ltb_spec k (8 * zlen run)); [done|].
  rewrite le_val_testbit by (lia || apply replicate_bytes_ok). assert (byte_at (replicate (Z.to_nat (WINDOW - zlen run)) 0) ((k - 8 * zlen run) / 8) = 0) as ->.
  { unfold byte_at. destruct (_ !! _) as [x|] eqn:E; [|done]. by apply lookup_replicate in E as [-> _]. }
  rewrite Z.bits_0. symmetry. apply (fits_testbit _ _ _ (le_val_fits run Hr)). unfold zlen in *. lia.
Qed.

Lemma read_ok width window bit : bit < 128 → read width window bit = Some (Z.land (window ≫ bit) (low_mask width)).
Proof. intros Hb. unfold read, shr128. by rewrite (proj2 (Z.ltb_lt _ _) Hb). Qed.

(** One window of sixteen. *)
Lemma window_field input a b bit w : bytes_ok input → 0 ≤ a ≤ b → b ≤ zlen input → b - a ≤ WINDOW → 0 < w ≤ 64 → 0 ≤ bit → bit + w ≤ 8 * (b - a) →
  ∃ word, window_of (slice a b input) = Some word ∧ read w word bit = Some (field input (8 * a + bit) w).
Proof.
  intros Hi Hab Hb Hwin Hw Hbit Hlen. exists (le_val (slice a b input)). split; [apply window_ok; [by apply slice_bytes_ok|rewrite zlen_slice; lia]|]. unfold WINDOW in *. rewrite read_ok, slice_field by (done || lia). done.
Qed.

(** * Reading one value *)

Lemma div_ceil_le a n : 0 ≤ a → div_ceil a 8 ≤ n ↔ a ≤ 8 * n.
Proof. intros Ha. unfold div_ceil. pose proof (Z.div_mod (a + (8 - 1)) 8 ltac:(lia)). pose proof (Z.mod_pos_bound (a + (8 - 1)) 8 ltac:(lia)). lia. Qed.

Lemma field_none input pos : field input pos 0 = 0.
Proof. done. Qed.

(** What a read of a value answers: its bits where they are all there. *)
Definition tail_spec (input : list Z) (width index : Z) (r : Result Z) : Prop :=
  if decide (width = 0 ∨ index * width + width ≤ 8 * zlen input) then r = Ok (field input (index * width) width) else ∃ e, r = Err e.

Lemma tail_spec_in input width index : width = 0 ∨ index * width + width ≤ 8 * zlen input → tail_spec input width index (Ok (field input (index * width) width)).
Proof. intros H. unfold tail_spec. by rewrite decide_True. Qed.

Section tails.
Context (input : list Z) (width : Z) (Hinput : bytes_ok input) (Hwidth : 0 ≤ width ≤ 64).

Lemma tail_at_rest_ok index : 0 ≤ index → index * width + width < 2 ^ 64 → ∃ r, tail_at_rest input width index = Some r ∧ tail_spec input width index r.
Proof.
  intros Hi Hsmall. unfold tail_at_rest. rewrite (proj2 (Z.ltb_ge 64 width)) by lia. destruct (Z.eqb_spec width 0) as [->|Hne].
  { eexists. split; [done|]. apply (tail_spec_in input 0). by left. }
  rewrite !(wrap_id 64 (index * width)) by (unfold fits; nia). rewrite !(wrap_id 64 (index * width + width)) by (unfold fits; nia). pose proof (tail_spec_in input width index) as Hspec. unfold tail_spec in *. set (start := index * width) in *. assert (0 ≤ start) by nia.
  destruct (Z.ltb_spec (zlen input) (div_ceil (start + width) 8)) as [Hout|Hin%div_ceil_le]; [| |lia].
  { eexists. split; [done|]. rewrite decide_False; [by eexists|]. intros [?|Hle]; [lia|]. apply div_ceil_le in Hle; lia. }
  specialize (Hspec ltac:(lia)). rewrite !(wrap_id 64 (start + width - 1)) by (unfold fits; lia). destruct (bit_parts start) as (H1&H2&H3); [done|]. destruct (bit_parts (start + width - 1)) as (H4&H5&H6); [lia|].
  assert (start / 8 ≤ (start + width - 1) / 8) by lia. rewrite wrap_id by (unfold fits; lia). destruct (_ && _) eqn:E.
  - apply andb_true_iff in E as [E1%Z.leb_le E2%Z.ltb_lt]. destruct (word_field input start width) as (word&->&Eb&Ef); [done|done|lia|lia|lia|]. rewrite some_bind, Eb, some_bind, Ef. by eexists.
  - rewrite get_range_in by lia. rewrite some_bind. destruct (window_field input (start / 8) ((start + width - 1) / 8 + 1) (start `mod` 8) width) as (word&->&Er); [done|lia|lia|unfold WINDOW; lia|lia|lia|lia|].
    rewrite some_bind, Er, some_bind, <-H3. by eexists.
Qed.

Lemma tail_at_ok index : 0 ≤ index → index * width + width < 2 ^ 64 → ∃ r, tail_at input width index = Some r ∧ tail_spec input width index r.
Proof.
  intros Hi Hsmall. unfold tail_at. destruct (_ && _) eqn:E; [|by apply tail_at_rest_ok]. apply andb_true_iff in E as [[E1%Z.leb_le _]%andb_true_iff E3%Z.leb_le]. rewrite !(wrap_id 64 (index * width)) in * by (unfold fits; nia).
  destruct (bit_parts (index * width)) as (H1&H2&H3); [nia|]. destruct (word_field input (index * width) width) as (word&->&Eb&Ef); [done|nia|lia|lia|lia|]. rewrite some_bind, Eb, some_bind, Ef. eexists. split; [done|].
  apply tail_spec_in. lia.
Qed.

(** A pair is the two values apart. *)
Lemma tail_pair_ok index : 0 < index → index * width + width < 2 ^ 64 →
  tail_pair input width index = and_then (tail_at input width (index - 1)) (λ a, and_then (tail_at input width index) (λ b, Some (Ok (a, b)))).
Proof.
  intros Hi Hsmall. destruct (tail_at_ok (index - 1)) as (ra&Ea&Ha); [lia|nia|]. destruct (tail_at_ok index) as (rb&Eb&Hb); [lia|lia|]. unfold tail_pair. rewrite (proj2 (Z.leb_gt index 0)) by lia.
  destruct (Z.eqb_spec width 0) as [Hz|Hne].
  { unfold tail_spec in *. rewrite !decide_True in * by lia. rewrite Ea, Eb, Ha, Hb, Hz, !field_none. done. }
  rewrite !(wrap_id 64 ((index - 1) * width)) by (unfold fits; nia). destruct (bit_parts ((index - 1) * width)) as (H1&H2&H3); [nia|]. rewrite wrap_id by (unfold fits; lia). destruct (_ && _) eqn:E; [|done].
  apply andb_true_iff in E as [E1%Z.leb_le E2%Z.leb_le]. destruct (word_field input ((index - 1) * width) width) as (word&Ew&Es&Ef); [done|lia|lia|lia|lia|].
  rewrite Ew, some_bind, Es, some_bind. unfold shr. rewrite (proj2 (Z.ltb_lt width 64)) by lia. rewrite some_bind, Ef. unfold tail_spec in *. rewrite decide_True in Ha by lia. rewrite decide_True in Hb by lia.
  rewrite Ea, Eb, Ha, Hb. cbn [and_then]. do 3 f_equal. rewrite Z.shiftr_shiftr by lia. rewrite word_at_ok in Ew by lia. injection Ew as <-. rewrite slice_field by (done || lia). f_equal. lia.
Qed.
End tails.

(** * Reading them all *)

Lemma fill_ok {U} from to (value : Z → U) at_ v output : 0 ≤ from ≤ to → to ≤ zlen output → (∀ i, from ≤ i < to → at_ i = Some (v i)) →
  ∃ out, fill_with from to value at_ output = Some (Ok out) ∧ zlen out = zlen output ∧ (∀ i, from ≤ i < to → has out i (value (v i))) ∧ ∀ i, 0 ≤ i < from → out !! Z.to_nat i = output !! Z.to_nat i.
Proof.
  intros Hft Hto Hat. unfold fill_with.
  destruct (steps_ok (λ index output, bits ← at_ index; output ← put index (value bits) output; Some (Ok output))
    (λ i out, zlen out = zlen output ∧ (∀ j, from ≤ j < i → has out j (value (v j))) ∧ ∀ j, 0 ≤ j < from → out !! Z.to_nat j = output !! Z.to_nat j) False (Z.to_nat (to - from)) from output) as ([out|]&->&H); [| | |done].
  - intros i out Hi (H1&H2&H3). rewrite Hat by lia. rewrite some_bind, slot_put_ok by lia. eexists. split; [done|]. cbn beta iota. split_and!; [by rewrite zlen_insert| |].
    + intros j Hj. destruct (decide (j = i)) as [->|]; [apply has_insert; lia|]. unfold has. rewrite lookup_insert_other by lia. apply H2. lia.
    + intros j Hj. rewrite lookup_insert_other by lia. by apply H3.
  - split_and!; [done|lia|done].
  - exists out. split; [done|]. replace (from + Z.of_nat (Z.to_nat (to - from))) with to in H by lia. done.
Qed.

Lemma fill_front {U} to (value : Z → U) at_ v output : 0 ≤ to ≤ zlen output → (∀ i, 0 ≤ i < to → at_ i = Some (v i)) →
  ∃ out, fill_with 0 to value at_ output = Some (Ok out) ∧ zlen out = zlen output ∧ ∀ i, 0 ≤ i < to → has out i (value (v i)).
Proof. intros Hto Hat. destruct (fill_ok 0 to value at_ v output) as (out&E&H1&H2&_); [lia|lia|done|]. by exists out. Qed.

Section reading.
Context (input : list Z) (width : Z) (Hinput : bytes_ok input) (Hwidth : 0 < width ≤ 64).

(** Where each of the four loads is enough. *)
Lemma at_short i : zlen input < WINDOW → 0 ≤ i → i * width + width ≤ 8 * zlen input → read width (le_val input) (i * width) = Some (field input (i * width) width).
Proof.
  unfold WINDOW. intros Hs Hi Hin. rewrite read_ok by lia. pose proof (slice_field input 0 (zlen input) (i * width) width) as Hf. rewrite slice_self in Hf. rewrite Hf by (done || nia). done.
Qed.

Lemma at_narrow i : width ≤ NARROW → 0 ≤ i → i * width ≤ (zlen input - WINDOW) * 8 →
  (word ← word_at input (i * width / 8); bits ← shr word ((i * width) `mod` 8); Some (Z.land bits (low_mask width))) = Some (field input (i * width) width).
Proof.
  unfold NARROW, WINDOW. intros Hn Hi Hin. destruct (bit_parts (i * width)) as (B1&B2&B3); [nia|].
  destruct (word_field input (i * width) width) as (word&->&Es&Ef); [done|lia|lia|lia|lia|]. by rewrite some_bind, Es, some_bind, Ef.
Qed.

Lemma at_wide i : 0 ≤ i → i * width ≤ (zlen input - WINDOW) * 8 →
  (run ← get_range (i * width / 8) (i * width / 8 + WINDOW) input; word ← window_of run; read width word ((i * width) `mod` 8)) = Some (field input (i * width) width).
Proof.
  intros Hi Hin. destruct (bit_parts (i * width)) as (B1&B2&B3); [nia|]. unfold WINDOW in *. rewrite get_range_in by lia. rewrite some_bind.
  destruct (window_field input (i * width / 8) (i * width / 8 + 16) ((i * width) `mod` 8) width) as (word&->&Er); [done|lia|lia|unfold WINDOW; lia|lia|lia|lia|]. by rewrite some_bind, Er, <-B3.
Qed.

Lemma at_last i : WINDOW ≤ zlen input → (zlen input - WINDOW) * 8 ≤ i * width → i * width + width ≤ 8 * zlen input →
  read width (le_val (slice (zlen input - WINDOW) (zlen input) input)) (i * width - (zlen input - WINDOW) * 8) = Some (field input (i * width) width).
Proof. unfold WINDOW. intros Hl Hi Hin. rewrite read_ok by lia. rewrite slice_field by (done || lia). f_equal. f_equal. lia. Qed.
End reading.

Lemma unpack_tail_into_ok {U} input width (output : list U) value : bytes_ok input → 0 ≤ width ≤ 64 → zlen output < VALUES → zlen output * width ≤ 8 * zlen input →
  ∃ out, unpack_tail_into input width output value = Some (Ok out) ∧ zlen out = zlen output ∧ ∀ i, 0 ≤ i < zlen output → has out i (value (field input (i * width) width)).
Proof.
  intros Hi Hw Hc Hlen. pose proof (zlen_nonneg output). unfold unpack_tail_into, check_tail. rewrite (proj2 (Z.leb_gt VALUES _)), (proj2 (Z.ltb_ge 64 width)) by lia. cbn [and_then]. destruct (Z.eqb_spec width 0) as [->|Hne].
  { eexists. split; [done|]. split; [by rewrite zlen_replicate|]. intros i Hlt. unfold has. apply lookup_replicate. split; [done|]. unfold zlen in Hlt. lia. }
  assert (∀ i, 0 ≤ i < zlen output → i * width + width ≤ 8 * zlen input) as Hin by nia. set (v i := field input (i * width) width).
  rewrite (proj2 (Z.ltb_ge (zlen input) _)) by (apply div_ceil_le; nia). destruct (Z.ltb_spec (zlen input) WINDOW) as [Hshort|Hlong].
  { rewrite window_ok by (done || lia). rewrite some_bind. apply (fill_front _ value _ v); [lia|]. intros i Hlt. apply at_short; auto with lia. }
  set (whole := Z.min ((zlen input - WINDOW) * 8 / width + 1) (zlen output)). pose proof (Z.div_pos ((zlen input - WINDOW) * 8) width ltac:(lia) ltac:(lia)).
  pose proof (Z.mul_div_le ((zlen input - WINDOW) * 8) width ltac:(lia)). pose proof (Z.mul_succ_div_gt ((zlen input - WINDOW) * 8) width ltac:(lia)).
  match goal with |- context [and_then ?m _] => assert (∃ out, m = Some (Ok out) ∧ zlen out = zlen output ∧ ∀ i, 0 ≤ i < whole → has out i (value (v i))) as (out1&->&Hl1&Hdone) end.
  { destruct (Z.leb_spec width NARROW).
    - apply (fill_front _ value _ v); [lia|]. intros i Hlt. apply at_narrow; [done|lia|done|lia|nia].
    - apply (fill_front _ value _ v); [lia|]. intros i Hlt. apply at_wide; [done|lia|lia|nia]. }
  cbn [and_then]. destruct (Z.ltb_spec whole (zlen output)) as [Hrest|Hall]; [|exists out1; split_and!; [done|lia|]; intros i Hlt; apply Hdone; lia].
  unfold get_from. rewrite get_range_in by (unfold WINDOW in *; lia). rewrite some_bind, window_ok; [|by apply slice_bytes_ok|unfold WINDOW in *; rewrite zlen_slice; lia]. rewrite some_bind.
  match goal with |- context [fill_with whole _ _ ?at_ _] => destruct (fill_ok whole (zlen output) value at_ v out1) as (out&E&F1&F2&F3); [lia|lia| |exists out; split; [exact E|]] end.
  - intros i Hlt. apply at_last; [done|lia|lia|nia|]. apply Hin. lia.
  - split; [lia|]. intros i Hlt. destruct (decide (i < whole)); [|apply F2; lia]. unfold has. rewrite F3 by lia. apply Hdone. lia.
Qed.

(** * Writing *)

Lemma le_bytes_succ n x : le_bytes (S n) x = Z.land x 0xff :: le_bytes n (x ≫ 8).
Proof. Local Transparent le_bytes. unfold le_bytes. rewrite Nat2Z.inj_succ, Z_to_little_endian_succ by lia. done. Qed.
Local Opaque le_bytes.

Lemma flush_ok fuel : ∀ acc filled out, 0 ≤ filled < 8 * Z.of_nat fuel → flush fuel acc filled out = Some (out ++ le_bytes (Z.to_nat (div_ceil filled 8)) acc).
Proof.
  induction fuel as [|fuel IH]; intros acc filled out Hf; [lia|]. cbn [flush]. unfold div_ceil in *. destruct (Z.leb_spec 8 filled).
  - rewrite IH by lia. replace (filled + (8 - 1)) with (filled - 8 + (8 - 1) + 1 * 8) by lia. rewrite Z.div_add by lia. pose proof (Z.div_pos (filled - 8 + (8 - 1)) 8 ltac:(lia) ltac:(lia)).
    rewrite (Z.add_1_r (_ / 8)), Z2Nat.inj_succ, le_bytes_succ by lia. by rewrite <-app_assoc.
  - destruct (Z.ltb_spec 0 filled).
    + replace ((filled + (8 - 1)) / 8) with 1 by (apply Z.div_unique with (filled - 1); lia). rewrite (le_bytes_succ 0). done.
    + replace filled with 0 by lia. change (Z.to_nat ((0 + (8 - 1)) / 8)) with 0%nat. assert (le_bytes 0 acc = []) as -> by (apply nil_length_inv, length_le_bytes). by rewrite app_nil_r.
Qed.

Section writing.
Context (all : list Z) (width : Z) (Hwidth : 0 < width ≤ 64) (Hall : Forall (fits 64) all) (out0 : list Z).

Definition vbit (k : Z) : bool := Z.testbit (byte_at all (k / width)) (k `mod` width).

Lemma vbit_at index i k : 0 ≤ i < width → k = index * width + i → vbit k = Z.testbit (byte_at all index) i.
Proof. intros Hi ->. unfold vbit. rewrite Z.div_add_l, (Z.div_small i), Z.add_0_r by lia. by rewrite (Z.add_comm (index * width)), Z.mod_add, Z.mod_small by lia. Qed.

Lemma vbit_past k : zlen all * width ≤ k → vbit k = false.
Proof.
  intros Hk. unfold vbit, byte_at. rewrite lookup_ge_None_2; [apply Z.bits_0|]. assert (zlen all ≤ k / width) by (apply Z.div_le_lower_bound; lia). unfold zlen in *. lia.
Qed.

(** What the loop has when [k] words have left it. *)
Record writing_ok (pre : list Z) (k filled acc : Z) (emitted : list Z) : Prop := {
  wo_at : zlen pre * width = 64 * k + filled;
  wo_k : 0 ≤ k;
  wo_filled : 0 ≤ filled < 64;
  wo_len : zlen emitted = 8 * k;
  wo_bytes : bytes_ok emitted;
  wo_bits : ∀ i, 0 ≤ i < 64 * k → Z.testbit (le_val emitted) i = vbit i;
  wo_acc : acc = bits filled (λ i, vbit (64 * k + i)) }.

Definition written (r : Result (list Z)) : Prop :=
  match r with
  | Ok out => ∃ packed, out = out0 ++ packed ∧ bytes_ok packed ∧ zlen packed = tail_len (zlen all) width ∧ (∀ i, 0 ≤ i → Z.testbit (le_val packed) i = vbit i) ∧ Forall (fits width) all
  | Err _ => ¬ Forall (fits width) all
  end.

Lemma writing_done k filled acc emitted : writing_ok all k filled acc emitted → Forall (fits width) all → ∃ r, (output ← flush 9 acc filled (out0 ++ emitted); Some (Ok output)) = Some r ∧ written r.
Proof.
  intros [Hat Hk Hf Hl Hb Hbits Hacc] Hfit. rewrite flush_ok by lia. rewrite some_bind. eexists. split; [done|]. set (n := Z.to_nat (div_ceil filled 8)). exists (emitted ++ le_bytes n acc).
  assert (0 ≤ div_ceil filled 8) by (apply Z.div_pos; lia). assert (filled ≤ 8 * div_ceil filled 8) by (apply div_ceil_le; lia).
  assert (fits (8 * Z.of_nat n) acc) as Hfits by (rewrite Hacc; eapply fits_weaken; [|apply bits_fits; lia]; lia).
  split_and!; [by rewrite app_assoc|apply Forall_app; split; [done|apply le_bytes_ok]| | |done].
  - rewrite zlen_app, zlen_le_bytes, Hl. unfold n, tail_len. rewrite Z2Nat.id, Hat by done. unfold div_ceil. replace (64 * k + filled + (8 - 1)) with (filled + (8 - 1) + (8 * k) * 8) by lia. rewrite Z.div_add by lia. lia.
  - intros i Hi. rewrite le_val_app_testbit by (done || apply le_bytes_ok). rewrite Hl. destruct (Z.ltb_spec i (8 * (8 * k))); [apply Hbits; lia|]. rewrite le_val_bytes, Hacc, bits_testbit by (done || lia).
    destruct (Z.ltb_spec (i - 8 * (8 * k)) filled); cbn [andb]; [f_equal; lia|]. symmetry. apply vbit_past. lia.
Qed.

(** The next value goes above those in the accumulator. *)
Lemma accumulated pre v rest k filled acc emitted : all = pre ++ v :: rest → writing_ok pre k filled acc emitted → fits width v →
  Z.lor acc (wrap 128 (v ≪ filled)) = bits (filled + width) (λ i, vbit (64 * k + i)).
Proof.
  intros Ea [Hat Hk Hf _ _ _ Hacc] Hv. apply bits_ext; [lia|]. intros i Hi. rewrite Z.lor_spec, Hacc, bits_testbit, wrap_bits, bits_testbit, Z.shiftl_spec by lia.
  assert (byte_at all (zlen pre) = v) as Hat'. { rewrite Ea, byte_at_app by apply zlen_nonneg. rewrite (proj2 (Z.ltb_ge _ _)), Z.sub_diag by lia. done. }
  destruct (Z.ltb_spec i filled); cbn [andb orb].
  - rewrite (Z.testbit_neg_r v), (proj2 (Z.ltb_lt i (filled + width))), andb_false_r, orb_false_r by lia. done.
  - destruct (Z.ltb_spec i (filled + width)); cbn [andb].
    + rewrite (proj2 (Z.ltb_lt i 128)) by lia. cbn [andb]. rewrite <-Hat'. symmetry. apply vbit_at; lia.
    + rewrite (fits_testbit width v) by (done || lia). by rewrite andb_false_r.
Qed.

Lemma linear_loop_ok rest : ∀ pre k filled acc emitted, all = pre ++ rest → writing_ok pre k filled acc emitted → Forall (fits width) pre → ∃ r, linear_loop rest width acc filled (out0 ++ emitted) = Some r ∧ written r.
Proof.
  induction rest as [|v rest IH]; intros pre k filled acc emitted Ea Hw Hpre; cbn [linear_loop].
  { rewrite app_nil_r in Ea. subst pre. by eapply writing_done. }
  assert (fits 64 v) as Hv64. { rewrite Ea in Hall. apply Forall_app in Hall as [_ Hall']. by apply Forall_cons in Hall' as [? _]. }
  rewrite fits_not_wide by (done || lia). case_bool_decide as Hv; cbn [negb].
  2: { eexists. split; [done|]. intros Hf. rewrite Ea in Hf. apply Forall_app in Hf as [_ Hf]. by apply Forall_cons in Hf as [? _]. }
  pose proof (accumulated pre v rest k filled acc emitted Ea Hw Hv) as Hacc. destruct Hw as [Hat Hk Hf Hl Hb Hbits _]. rewrite (proj2 (Z.leb_gt 128 filled)) by lia. rewrite Hacc.
  assert (all = (pre ++ [v]) ++ rest) as Ea' by by rewrite <-app_assoc. assert (Forall (fits width) (pre ++ [v])) as Hpre' by (apply Forall_app; split; [done|by constructor]).
  destruct (Z.leb_spec 64 (filled + width)).
  - rewrite <-app_assoc. apply (IH (pre ++ [v]) (k + 1)); [done| |done]. set (x := bits (filled + width) _). pose proof (wrap_fits 64 x ltac:(lia)) as Hx.
    split; [rewrite zlen_app, zlen_cons, zlen_nil; lia|lia|lia|rewrite zlen_app, zlen_le_bytes; lia|apply Forall_app; split; [done|apply le_bytes_ok]| |].
    + intros i Hi. rewrite le_val_app_testbit by (done || lia || apply le_bytes_ok). rewrite Hl. destruct (Z.ltb_spec i (8 * (8 * k))); [apply Hbits; lia|]. rewrite le_val_bytes by exact Hx.
      rewrite wrap_bits, bits_testbit, (proj2 (Z.ltb_lt (i - _) 64)) by lia. unfold x. rewrite bits_testbit, (proj2 (Z.ltb_lt (i - _) _)) by lia. cbn [andb]. f_equal. lia.
    + apply bits_ext; [lia|]. intros i Hi. unfold x. rewrite Z.shiftr_spec, bits_testbit by lia. f_equal; [apply eq_true_iff_eq; rewrite !Z.ltb_lt; lia|]. f_equal. lia.
  - apply (IH (pre ++ [v]) k); [done| |done]. split; [rewrite zlen_app, zlen_cons, zlen_nil; lia|done|lia|done|done|done|done].
Qed.
End writing.

(** * Whole values *)

Lemma foldl_max_le rest : ∀ v w, foldl Z.max v rest ≤ w ↔ v ≤ w ∧ Forall (λ x, x ≤ w) rest.
Proof.
  induction rest as [|x rest IH]; intros v w; cbn [foldl]; [split; [by split|by intros [? _]]|]. rewrite IH, Forall_cons. split; [intros [H1 H2]; split_and!; [lia|lia|done]|intros (H1&H2&H3); split; [lia|done]].
Qed.

(** [required_width] is the least width every value fits. *)
Lemma required_width_ok values w : Forall (fits 64) values → 0 ≤ w → required_width values ≤ w ↔ Forall (fits w) values.
Proof.
  intros Hf Hw. unfold required_width. set (max := match values with [] => 0 | v :: rest => foldl Z.max v rest end).
  assert (max < 2 ^ w ↔ Forall (fits w) values) as <-.
  { destruct values as [|v rest]; cbn in max; unfold max; [split; [done|intros _; apply Z.pow_pos_nonneg; lia]|].
    transitivity (Forall (λ x, x ≤ 2 ^ w - 1) (v :: rest)); [rewrite Forall_cons, <-foldl_max_le; lia|]. rewrite !Forall_forall in *. split; intros H x Hx; specialize (H x Hx); specialize (Hf x Hx); unfold fits in *; lia. }
  assert (0 ≤ max) as H0.
  { destruct values as [|v rest]; [done|]. cbn in max. apply Forall_cons in Hf as [[Hv _] _]. pose proof (proj1 (foldl_max_le rest v max) ltac:(lia)) as [Hle _]. lia. }
  unfold leading_zeros. destruct (Z.eqb_spec max 0) as [->|Hne]; [pose proof (Z.pow_pos_nonneg 2 w); lia|]. pose proof (Z.log2_lt_pow2 max w ltac:(lia)). lia.
Qed.

Lemma pack_linear_ok values width out0 : Forall (fits 64) values → 0 ≤ width ≤ 64 → ∃ r, pack_linear values width out0 = Some r ∧ match r with
  | Ok out => ∃ packed, out = out0 ++ packed ∧ bytes_ok packed ∧ zlen packed = tail_len (zlen values) width ∧ Forall (fits width) values
      ∧ ∀ rest i, bytes_ok rest → 0 ≤ i < zlen values → field (packed ++ rest) (i * width) width = byte_at values i
  | Err _ => ¬ Forall (fits width) values end.
Proof.
  intros Hv Hw. unfold pack_linear. rewrite (proj2 (Z.ltb_ge 64 width)) by lia. destruct (Z.eqb_spec width 0) as [->|Hne].
  - destruct (all_zero_ok values) as [[-> Hz]|[[e ->] Hz]]; [by eapply Forall_fits_nonneg| |by eexists]. eexists. split; [done|]. exists []. rewrite app_nil_r. unfold tail_len, div_ceil. rewrite Z.mul_0_r. split_and!; [done|done|done|done|].
    intros rest i _ Hi. rewrite field_none. pose proof (byte_at_fits 0 values i ltac:(lia) Hz) as Hb. unfold fits in Hb. lia.
  - destruct (linear_loop_ok values width ltac:(lia) Hv out0 values [] 0 0 0 []) as (r&Er&Hr); [done| |done|].
    { split; try done; lia. }
    rewrite app_nil_r in Er. rewrite Er. exists r. split; [done|]. destruct r as [out|]; [|done]. destruct Hr as (packed&->&Hb&Hl&Hbits&Hf). exists packed. split_and!; [done..|]. intros rest i Hrest Hi.
    rewrite (fits_bits width (byte_at values i)) by (lia || (apply byte_at_fits; [lia|done])). apply bits_agree. intros j Hj.
    assert (zlen values * width ≤ 8 * zlen packed) by (rewrite Hl; unfold tail_len; apply div_ceil_le; nia). rewrite le_val_app_testbit, (proj2 (Z.ltb_lt _ (8 * zlen packed))) by (done || nia). rewrite Hbits by nia. apply vbit_at; lia.
Qed.

(** ** Units *)


(** What each way of unpacking gives. *)
Definition unit_values {U} (T : Packable) (words : list Z) (width : Z) (value : Z → U) (out : list U) : Prop :=
  zlen out = VALUES ∧ ∀ r l, 0 ≤ r < WIDTH T → 0 ≤ l < LANES T → has out (sidx T r l) (value (unit_word T words width r l)).

Lemma unit_values_at {U} T words width (value : Z → U) out i : unit_values T words width value out → 0 ≤ i < VALUES → has out i (value (unit_word T words width (row_of T i) (i `mod` LANES T))).
Proof. intros [_ H] Hi. destruct (sidx_surj T i Hi) as (Hr&Hl&E). specialize (H _ _ Hr Hl). by rewrite E in H. Qed.

Lemma unit_values_unique {U} T words width (value : Z → U) out out' : unit_values T words width value out → unit_values T words width value out' → out = out'.
Proof. intros H H'. apply has_ext; [destruct H, H'; lia|]. intros i Hi. destruct H as [Hl ?]. eexists. split; apply unit_values_at; (done || lia). Qed.

Lemma unit_values_zero {U V} T words (value : Z → U) (out : list V) : zlen out = VALUES → unit_values T words 0 value (replicate (length out) (value 0)).
Proof.
  intros Hl. split; [rewrite zlen_replicate; done|]. intros r l Hr Hlt. destruct (sidx_ok T r l Hr Hlt) as [_ Hi]. unfold has. apply lookup_replicate. split; [done|]. unfold zlen in Hl. lia.
Qed.

Lemma unpack_mapped_values {U} T words width (value : Z → U) out0 : 0 ≤ width ≤ WIDTH T → zlen words = packed_len T width → Forall (fits (WIDTH T)) words → zlen out0 = VALUES →
  ∃ out, unpack_mapped T words width out0 value = Some (Ok out) ∧ unit_values T words width value out.
Proof.
  intros Hw Hl Hf Ho. destruct (decide (width = 0)) as [->|]; [|apply unpack_mapped_ok; (done || lia)]. exists (replicate (length out0) (value 0)). split; [|by apply unit_values_zero].
  unfold unpack_mapped, check_width. rewrite vector_len_ok by done. rewrite (proj2 (Z.leb_le _ _)) by lia. cbn [and_then]. rewrite (proj2 (Z.eqb_eq (zlen words) _) Hl). done.
Qed.

Lemma unpack_unit_values {U} bytes width (value : Z → U) out0 : 0 ≤ width ≤ 64 → zlen bytes = unit_len width → bytes_ok bytes → zlen out0 = VALUES →
  ∃ out, unpack_unit_into bytes width out0 value = Some (Ok out) ∧ unit_values U64 (words_of bytes) width value out.
Proof.
  intros Hw Hl Hf Ho. destruct (decide (width = 0)) as [->|]; [|apply unpack_unit_into_ok; (done || lia)]. exists (replicate (length out0) (value 0)). split; [|by apply unit_values_zero].
  unfold unpack_unit_into. rewrite vector_len_ok by done. cbn [and_then check_width WIDTH]. rewrite (proj2 (Z.eqb_eq (zlen bytes) _) Hl). done.
Qed.

Lemma unit_word_fits T words width r l : 0 ≤ width → fits width (unit_word T words width r l).
Proof. apply bits_fits. Qed.

Lemma unpack_two_passes T words width out0 out1 : 0 ≤ width ≤ WIDTH T → zlen words = packed_len T width → Forall (fits (WIDTH T)) words → zlen out0 = VALUES → zlen out1 = VALUES →
  ∃ t out, unpack_transposed T words width out0 = Some (Ok t) ∧ untranspose T t out1 = Some (Ok out) ∧ unit_values T words width (from_u64 T) out.
Proof.
  intros Hw Hl Hf Ho Ho1. assert (∃ t, unpack_transposed T words width out0 = Some (Ok t) ∧ zlen t = VALUES ∧ ∀ r l, 0 ≤ r < WIDTH T → 0 ≤ l < LANES T → byte_at t (r * LANES T + l) = from_u64 T (unit_word T words width r l)) as (t&->&Ht&Hat).
  { destruct (decide (width = 0)) as [->|].
    - exists (replicate (length out0) (from_u64 T 0)). split_and!; [|by rewrite zlen_replicate|].
      + unfold unpack_transposed, check_width. rewrite vector_len_ok by done. rewrite (proj2 (Z.leb_le _ _)) by lia. cbn [and_then]. rewrite (proj2 (Z.eqb_eq (zlen words) _) Hl). done.
      + intros r l Hr Hlt. apply byte_at_has. unfold has. apply lookup_replicate. split; [done|]. pose proof (place_ok T r l _ Hr Hlt). destruct (widths T) as (_&_&HV&_). unfold zlen in Ho. lia.
    - destruct (unpack_transposed_ok T words width ltac:(lia) Hl Hf out0 Ho) as (t&->&Ht&H). exists t. split_and!; [done|done|]. intros r l Hr Hlt. rewrite (byte_at_has _ _ _ (H r l Hr Hlt)). symmetry.
      apply wrap_id. eapply fits_weaken; [|apply unit_word_fits; lia]. lia. }
  destruct (untranspose_ok T t out1 Ht Ho1) as (out&E&Hout&H). exists t, out. split_and!; [done|done|split; [done|]]. intros r l Hr Hlt. rewrite <-Hat by done. by apply H.
Qed.

(** The words of a packed unit give its values back. *)
Lemma unit_word_packed T input p width r l : 0 < width ≤ WIDTH T → Forall (fits width) input → 0 ≤ r < WIDTH T → 0 ≤ l < LANES T →
  (∀ j l, 0 ≤ j < width → 0 ≤ l < LANES T → has p (j * LANES T + l) (packed_word T input width j l)) → unit_word T p width r l = byte_at input (r * LANES T + l).
Proof.
  intros Hw Hf Hr Hl Hp. destruct (widths T) as (HW&_). rewrite (fits_bits width (byte_at input _)) by (lia || (apply byte_at_fits; [lia|done])). apply bits_agree. intros i Hi.
  pose proof (Z.div_mod (r * width + i) (WIDTH T) ltac:(lia)) as E. pose proof (Z.mod_pos_bound (r * width + i) (WIDTH T) ltac:(lia)) as Hm. set (j := (r * width + i) / WIDTH T) in *.
  assert (0 ≤ j < width) as Hj by nia. rewrite (lane_bit_shift T _ _ _ _ j ((r * width + i) `mod` WIDTH T)) by lia. rewrite (byte_at_has _ _ _ (Hp j l Hj Hl)). unfold packed_word.
  rewrite bits_testbit, (proj2 (Z.ltb_lt _ _)) by lia. cbn [andb]. apply lane_bit_shift; lia.
Qed.

Lemma ready_len scratch : zlen (ready scratch) = VALUES.
Proof.
  unfold ready. destruct (Z.eqb_spec (zlen scratch) VALUES) as [E|E]; cbn [negb]; [done|]. pose proof (zlen_nonneg scratch). rewrite zlen_app, zlen_take, zlen_replicate. unfold VALUES in *. lia.
Qed.

Lemma transposed_Forall T (P : Z → Prop) input t : zlen input = VALUES → zlen t = VALUES → (∀ r l, 0 ≤ r < WIDTH T → 0 ≤ l < LANES T → has t (r * LANES T + l) (byte_at input (sidx T r l))) → Forall P t ↔ Forall P input.
Proof.
  intros Hi Ht Hat. destruct (widths T) as (HW&HL&HV&_). split; intros HF.
  - apply Forall_lookup. intros i x Hx. pose proof (lookup_lt_Some _ _ _ Hx) as Hlt. destruct (sidx_surj T (Z.of_nat i)) as (Hr&Hl&E); [unfold zlen in Hi; lia|]. specialize (Hat _ _ Hr Hl). rewrite E in Hat.
    unfold byte_at in Hat. rewrite Nat2Z.id, Hx in Hat. cbn in Hat. by eapply (Forall_lookup_1 _ _ _ _ HF).
  - apply (table_Forall T _ _ (WIDTH T)); [lia|]. intros r l Hr Hl. rewrite (byte_at_has _ _ _ (Hat r l Hr Hl)). destruct (sidx_ok T r l Hr Hl) as [_ Hs].
    eapply (Forall_lookup_1 _ _ _ _ HF). apply has_byte_at. lia.
Qed.

Lemma pack_with_ok T input width out scratch : zlen input = VALUES → Forall (fits (WIDTH T)) input → 0 ≤ width ≤ WIDTH T → zlen out = packed_len T width →
  ∃ r, pack_with T input width out scratch = Some r ∧ match r with
    | Ok p => Forall (fits width) input ∧ zlen p = packed_len T width ∧ Forall (fits (WIDTH T)) p ∧ unit_values T p width (from_u64 T) input
    | Err _ => ¬ Forall (fits width) input end.
Proof.
  intros Hi Hf Hw Ho. unfold pack_with. rewrite vector_len_ok by done. cbn [and_then]. destruct (transpose_ok T input (ready scratch) Hi (ready_len scratch)) as (t&->&Ht&Hat). cbn [and_then].
  pose proof (λ P, transposed_Forall T P input t Hi Ht Hat) as HF. destruct (pack_transposed_ok T t width out) as (r&->&Hr); [done|by apply HF|done|done|]. exists r. split; [done|]. destruct r as [p|e]; [|by rewrite <-HF].
  destruct Hr as (Hl&Hp&Hfit). destruct (widths T) as (HW&_). split_and!; [by apply HF|done| |split; [done|]].
  - apply (table_Forall T _ _ width); [done|]. intros r l Hr Hlt. rewrite (byte_at_has _ _ _ (Hp r l Hr Hlt)). apply bits_fits. lia.
  - intros r l Hr Hlt. destruct (sidx_ok T r l Hr Hlt) as [_ Hs]. assert (fits width (byte_at input (sidx T r l))) as Hv by (apply byte_at_fits; [lia|by apply HF]).
    assert (unit_word T p width r l = byte_at input (sidx T r l)) as ->.
    { destruct (decide (width = 0)) as [->|]; [unfold fits in Hv; rewrite Z.pow_0_r in Hv; change (unit_word T p 0 r l) with 0; lia|]. rewrite (unit_word_packed T t p width r l) by (done || lia). by apply byte_at_has, Hat. }
    unfold from_u64. rewrite wrap_id by (eapply fits_weaken; [|exact Hv]; lia). apply has_byte_at. lia.
Qed.

(** * Theorems *)

(** C15. A vector is packed exactly when every value fits the width, which is when the width is at least [required_width]; and then unpacking gives the vector back, for every
    type, every width and whatever the buffers held. Nothing panics: no index is out of range and no shift is as wide as its type. *)
Theorem unit_reads_back T input width out : zlen input = VALUES → Forall (fits (WIDTH T)) input → 0 ≤ width ≤ WIDTH T → zlen out = packed_len T width →
  ∃ r, pack T input width out = Some r ∧ match r with
    | Ok packed => required_width input ≤ width ∧ zlen packed = packed_len T width ∧ ∀ output, zlen output = VALUES → unpack T packed width output = Some (Ok input)
    | Err _ => width < required_width input end.
Proof.
  intros Hi Hf Hw Ho. destruct (widths T) as (HW&_). destruct (pack_with_ok T input width out [] Hi Hf Hw Ho) as (r&Er&Hr). unfold pack. rewrite Er. exists r. split; [done|].
  assert (required_width input ≤ width ↔ Forall (fits width) input) as Hreq by (apply required_width_ok; [eapply Forall_impl; [exact Hf|]; intros x; apply fits_weaken; lia|lia]).
  destruct r as [p|]; [|by apply Z.nle_gt; rewrite Hreq]. destruct Hr as (H1&H2&H3&H4). split_and!; [by apply Hreq|done|]. intros output Hout.
  destruct (unpack_mapped_values T p width (from_u64 T) output Hw H2 H3 Hout) as (o&E&Hv). unfold unpack. rewrite E. do 2 f_equal. by eapply unit_values_unique.
Qed.

(** The numbers from 0 to 1023 in ten bits. *)
Lemma unit_reads_back_witness : ∃ r, pack U16 (seqZ 0 1024) 10 (replicate 640 0) = Some r ∧ match r with
    | Ok packed => required_width (seqZ 0 1024) ≤ 10 ∧ zlen packed = packed_len U16 10 ∧ ∀ output, zlen output = VALUES → unpack U16 packed 10 output = Some (Ok (seqZ 0 1024))
    | Err _ => 10 < required_width (seqZ 0 1024) end.
Proof. apply unit_reads_back; [by vm_compute|decided|done|by vm_compute]. Defined.

Lemma unit_values_fmap {U} T words width (value : Z → U) values : 0 ≤ width ≤ WIDTH T → unit_values T words width (from_u64 T) values → unit_values T words width value (value <$> values).
Proof.
  intros Hw [Hl H]. split; [by rewrite zlen_fmap|]. intros r l Hr Hlt. specialize (H r l Hr Hlt). unfold has in *. rewrite list_lookup_fmap, H. cbn. do 2 f_equal. apply wrap_id. eapply fits_weaken; [|apply unit_word_fits; lia]. lia.
Qed.

Lemma unpack_u64_at_ok bytes width values index : bytes_ok bytes → 0 ≤ width ≤ 64 → zlen bytes = unit_len width → unit_values U64 (words_of bytes) width (from_u64 U64) values → 0 ≤ index →
  unpack_u64_at bytes width index = Some (if index <? VALUES then Ok (byte_at values index) else Err (Internal "packed value is outside a unit")).
Proof.
  intros Hb Hw Hl Hv Hi. unfold unpack_u64_at, unpack_u64_each, check_width. change (WIDTH U64) with 64. rewrite (proj2 (Z.leb_le _ _)) by lia. unfold unit_len in Hl. rewrite (proj2 (Z.eqb_eq (zlen bytes) _) Hl). cbn [negb each_loop].
  destruct (Z.ltb_spec index VALUES) as [Hlt|Hge]; [rewrite (proj2 (Z.leb_gt _ _)) by lia|by rewrite (proj2 (Z.leb_le _ _)) by lia].
  assert ((if width =? 0 then Some 0 else unit_value bytes width index) = Some (byte_at values index)) as ->; [|done].
  pose proof (unit_values_at _ _ _ _ _ index Hv ltac:(lia)) as Hat. rewrite (byte_at_has _ _ _ Hat). destruct (Z.eqb_spec width 0) as [->|]; [done|]. rewrite unit_value_ok by (done || lia). f_equal. symmetry.
  apply wrap_id. eapply fits_weaken; [|apply unit_word_fits; lia]. change (WIDTH U64) with 64. lia.
Qed.

(** C26. Whatever bytes a unit of the right length holds, every way of reading it finds the same values, each of the width: the one pass over its words, the two passes through the
    transposed layout, the pass that maps a value on its way out, the same from the bytes, and the read of one value at a time, which refuses an index outside the unit. *)
Theorem unit_readers_agree bytes width out : bytes_ok bytes → 0 ≤ width ≤ 64 → zlen bytes = unit_len width → zlen out = VALUES →
  ∃ values, unpack U64 (words_of bytes) width out = Some (Ok values) ∧ zlen values = VALUES ∧ Forall (fits width) values
    ∧ (∃ t, unpack_transposed U64 (words_of bytes) width out = Some (Ok t) ∧ untranspose U64 t out = Some (Ok values))
    ∧ (∀ U (value : Z → U) o, zlen o = VALUES → unpack_mapped U64 (words_of bytes) width o value = Some (Ok (value <$> values)) ∧ unpack_unit_into bytes width o value = Some (Ok (value <$> values)))
    ∧ ∀ index, 0 ≤ index → unpack_u64_at bytes width index = Some (if index <? VALUES then Ok (byte_at values index) else Err (Internal "packed value is outside a unit")).
Proof.
  intros Hb Hw Hl Ho. pose proof (words_of_fits bytes Hb) as Hf. pose proof (unit_words_len bytes width Hl) as Hn. destruct (unpack_mapped_values U64 (words_of bytes) width (from_u64 U64) out Hw Hn Hf Ho) as (values&E&Hv).
  exists values. unfold unpack. split_and!; [done|apply Hv| | | |].
  - apply Forall_lookup. intros i x Hx. pose proof (lookup_lt_Some _ _ _ Hx). assert (0 ≤ Z.of_nat i < VALUES) as Hi by (destruct Hv as [Hz _]; unfold zlen in Hz; lia).
    pose proof (unit_values_at _ _ _ _ _ _ Hv Hi) as Hat. unfold has in Hat. rewrite Nat2Z.id, Hx in Hat. injection Hat as ->. pose proof (unit_word_fits U64 (words_of bytes) width (row_of U64 (Z.of_nat i)) (Z.of_nat i `mod` LANES U64) ltac:(lia)) as Hfit.
    unfold from_u64. rewrite wrap_id by (eapply fits_weaken; [|exact Hfit]; apply Hw). done.
  - destruct (unpack_two_passes U64 (words_of bytes) width out out Hw Hn Hf Ho Ho) as (t&o&E1&E2&Hv'). exists t. split; [done|]. rewrite E2. do 2 f_equal. by eapply unit_values_unique.
  - intros U value o Hlen. destruct (unpack_mapped_values U64 (words_of bytes) width value o Hw Hn Hf Hlen) as (o1&->&H1). destruct (unpack_unit_values bytes width value o Hw Hl Hb Hlen) as (o2&->&H2).
    pose proof (unit_values_fmap U64 _ _ value _ Hw Hv) as H3. split; do 2 f_equal; by eapply unit_values_unique.
  - intros index Hi. by apply unpack_u64_at_ok.
Qed.

Lemma unit_readers_agree_witness : ∃ values, unpack U64 (words_of (replicate 384 165)) 3 (replicate 1024 0) = Some (Ok values) ∧ zlen values = VALUES ∧ Forall (fits 3) values
    ∧ (∃ t, unpack_transposed U64 (words_of (replicate 384 165)) 3 (replicate 1024 0) = Some (Ok t) ∧ untranspose U64 t (replicate 1024 0) = Some (Ok values))
    ∧ (∀ U (value : Z → U) o, zlen o = VALUES → unpack_mapped U64 (words_of (replicate 384 165)) 3 o value = Some (Ok (value <$> values)) ∧ unpack_unit_into (replicate 384 165) 3 o value = Some (Ok (value <$> values)))
    ∧ ∀ index, 0 ≤ index → unpack_u64_at (replicate 384 165) 3 index = Some (if index <? VALUES then Ok (byte_at values index) else Err (Internal "packed value is outside a unit")).
Proof. apply unit_readers_agree; [decided|done|by vm_compute|by vm_compute]. Defined.

Lemma unpack_tail_ok input width count : bytes_ok input → 0 ≤ width ≤ 64 → 0 ≤ count < VALUES → count * width ≤ 8 * zlen input →
  ∃ out, unpack_tail input width count = Some (Ok out) ∧ zlen out = count ∧ ∀ i, 0 ≤ i < count → has out i (field input (i * width) width).
Proof.
  intros Hi Hw Hc Hl. unfold unpack_tail, check_tail. rewrite (proj2 (Z.leb_gt VALUES _)), (proj2 (Z.ltb_ge 64 width)) by lia. cbn [and_then].
  assert (zlen (replicate (Z.to_nat count) 0) = count) as Hz by (rewrite zlen_replicate; lia). rewrite <-Hz in Hl, Hc. destruct (unpack_tail_into_ok input width (replicate (Z.to_nat count) 0) (λ bits, bits) Hi Hw ltac:(lia) Hl) as (out&E&H).
  exists out. by rewrite Hz in H.
Qed.

(** C19. Values are packed one after the other exactly when all fit the width, in as many bytes as [tail_len] says, after what was there; and whatever comes after them, each is
    read back where it lies, alone or with the one before it, and all at once when they are fewer than a unit. Nothing panics. *)
Theorem tail_reads_back values width out : Forall (fits 64) values → 0 ≤ width ≤ 64 → zlen values * width < 2 ^ 64 →
  ∃ r, pack_linear values width out = Some r ∧ match r with
    | Ok packed => required_width values ≤ width ∧ ∃ bytes, packed = out ++ bytes ∧ zlen bytes = tail_len (zlen values) width ∧ ∀ rest, bytes_ok rest →
        (∀ i, 0 ≤ i < zlen values → tail_at (bytes ++ rest) width i = Some (Ok (byte_at values i)))
        ∧ (∀ i, 0 < i < zlen values → tail_pair (bytes ++ rest) width i = Some (Ok (byte_at values (i - 1), byte_at values i)))
        ∧ (zlen values < VALUES → unpack_tail (bytes ++ rest) width (zlen values) = Some (Ok values))
    | Err _ => width < required_width values end.
Proof.
  intros Hv Hw Hsmall. destruct (pack_linear_ok values width out Hv Hw) as (r&->&Hr). exists r. split; [done|]. pose proof (required_width_ok values width Hv ltac:(lia)) as Hreq.
  destruct r as [packed|]; [|by apply Z.nle_gt; rewrite Hreq]. destruct Hr as (bytes&->&Hb&Hl&Hf&Hat). split; [by apply Hreq|]. exists bytes. split_and!; [done|done|]. intros rest Hrest.
  assert (bytes_ok (bytes ++ rest)) as Hall by by apply Forall_app. assert (zlen values * width ≤ 8 * zlen (bytes ++ rest)) as Hlen.
  { pose proof (zlen_nonneg rest). pose proof (zlen_nonneg values). rewrite zlen_app. assert (zlen values * width ≤ 8 * zlen bytes); [|lia]. rewrite Hl. unfold tail_len. apply div_ceil_le; [nia|lia]. }
  assert (∀ i, 0 ≤ i < zlen values → tail_at (bytes ++ rest) width i = Some (Ok (byte_at values i))) as Hone.
  { intros i Hi. destruct (tail_at_ok (bytes ++ rest) width Hall Hw i) as (r&->&Hr); [lia|nia|]. unfold tail_spec in Hr. rewrite decide_True in Hr by (right; nia). by rewrite Hr, Hat. }
  split_and!; [done| |].
  - intros i Hi. rewrite tail_pair_ok by (done || lia || nia). rewrite !Hone by lia. done.
  - intros Hc. pose proof (zlen_nonneg values). destruct (unpack_tail_ok (bytes ++ rest) width (zlen values) Hall Hw ltac:(lia) Hlen) as (o&->&Ho&Hhas). do 2 f_equal. apply has_ext; [done|].
    intros i Hi. exists (byte_at values i). rewrite Ho in Hi. split; [|by apply has_byte_at]. rewrite <-(Hat rest) by done. by apply Hhas.
Qed.

Lemma tail_reads_back_witness : ∃ r, pack_linear [5; 100; 7] 7 [1] = Some r ∧ match r with
    | Ok packed => required_width [5; 100; 7] ≤ 7 ∧ ∃ bytes, packed = [1] ++ bytes ∧ zlen bytes = tail_len (zlen [5; 100; 7]) 7 ∧ ∀ rest, bytes_ok rest →
        (∀ i, 0 ≤ i < zlen [5; 100; 7] → tail_at (bytes ++ rest) 7 i = Some (Ok (byte_at [5; 100; 7] i)))
        ∧ (∀ i, 0 < i < zlen [5; 100; 7] → tail_pair (bytes ++ rest) 7 i = Some (Ok (byte_at [5; 100; 7] (i - 1), byte_at [5; 100; 7] i)))
        ∧ (zlen [5; 100; 7] < VALUES → unpack_tail (bytes ++ rest) 7 (zlen [5; 100; 7]) = Some (Ok [5; 100; 7]))
    | Err _ => 7 < required_width [5; 100; 7] end.
Proof. apply tail_reads_back; [decided|done|done]. Defined.

(** C40. The product of an index and a width is not checked for overflow past the first way in, and a release build wraps it: of eight bytes that hold one value of sixty-four bits,
    [tail_at] answers that value for the index [2 ^ 58] too, where its documentation says a value past the end is an error; and [tail_pair] answers the two values of eight bytes
    for the index [2 ^ 59 + 1]. *)
Theorem tail_at_wraps : tail_at (le_bytes 8 7) 64 (2 ^ 58) = Some (Ok 7) ∧ tail_pair (le_bytes 8 7) 32 (2 ^ 59 + 1) = Some (Ok (7, 0)).
Proof. split; vm_compute; reflexivity. Qed.
