(* ===== verification/Integer.v ===== *)
(** The integer encodings, [rudb-encoding/src/integer.rs]: a chunk of integers written in the smallest
    of the ways that apply, each of which may hold chunks of its own, and read back; with the chooser
    of [rudb-encoding/src/chooser.rs] that narrows the ways tried, and the cursor of
    [rudb-encoding/src/reader.rs].

    An [i64] is a [Z] from [- 2 ^ 63] up; a reader is the bytes not yet read. [None] is a panic, or
    fuel that ran out. The counts and times that [tally] keeps are not modelled. *)

From S2P Require Import Prelude Bitpack.
Local Open Scope Z_scope.
Local Open Scope try_scope.

(** * Signed integers *)

Definition i64_ok (x : Z) : Prop := - 2 ^ 63 ≤ x < 2 ^ 63.
Definition i64_okb (x : Z) : bool := (- 2 ^ 63 <=? x) && (x <? 2 ^ 63).

(** [as i64]. *)
Definition to_i64 (x : Z) : Z := wrap 64 (x + 2 ^ 63) - 2 ^ 63.
(** [as u64]. *)
Definition to_u64 (x : Z) : Z := wrap 64 x.

Definition checked_sub (a b : Z) : option Z := if i64_okb (a - b) then Some (a - b) else None.
Definition wrapping_sub (a b : Z) : Z := to_i64 (a - b).
Definition wrapping_add (a b : Z) : Z := to_i64 (a + b).

(** * Reading *)

Abbreviation Reader := (list Z).

Definition short {A} : Result A := Err (Internal "a chunk ended with more wanted").

Definition read_bytes (len : Z) (r : Reader) : Result (list Z * Reader) := if zlen r <? len then short else Ok (take (Z.to_nat len) r, drop (Z.to_nat len) r).
Definition read_u8 (r : Reader) : Result (Z * Reader) := '(bytes, r) ← read_bytes 1 r; Ok (le_val bytes, r).
Definition read_u32 (r : Reader) : Result (Z * Reader) := '(bytes, r) ← read_bytes 4 r; Ok (le_val bytes, r).
Definition read_u64 (r : Reader) : Result (Z * Reader) := '(bytes, r) ← read_bytes 8 r; Ok (le_val bytes, r).
Definition read_i64 (r : Reader) : Result (Z * Reader) := '(bytes, r) ← read_bytes 8 r; Ok (to_i64 (le_val bytes), r).

Definition put_u8 (value : Z) : list Z := [value].
Definition put_u32 (value : Z) : list Z := le_bytes 4 value.
Definition put_u64 (value : Z) : list Z := le_bytes 8 value.
Definition put_i64 (value : Z) : list Z := le_bytes 8 (to_u64 value).

(** * Kinds *)

Inductive Kind : Type := Constant | Packed | Delta | Rle | Dict | Sparse | Strided.

#[global] Instance Kind_eq_dec : EqDecision Kind.
Proof. solve_decision. Defined.

Definition tag (kind : Kind) : Z := match kind with Constant => 0 | Packed => 1 | Delta => 2 | Rle => 3 | Dict => 4 | Sparse => 5 | Strided => 6 end.

Definition from_tag (tag : Z) : Result Kind :=
  match tag with
  | 0 => Ok Constant | 1 => Ok Packed | 2 => Ok Delta | 3 => Ok Rle | 4 => Ok Dict | 5 => Ok Sparse | 6 => Ok Strided
  | _ => Err (Internal "unknown encoding tag")
  end.

Definition MAX_DEPTH : Z := 3.
Definition RUN : Z := 8.
Definition LONG_RUN : Z := 64.
Definition FEW_DELTAS : nat := 4.
Definition FEW_DELTAS_SEEN : nat := 64.

(** * Values, offsets and differences *)

Definition offset_from (value base : Z) : Z := to_u64 (value - base).
Definition value_from (offset base : Z) : Z := to_i64 (base + offset).

(** [value << 1] drops the sign bit, [value >> 63] spreads it. *)
Definition zigzag (value : Z) : Z := to_u64 (Z.lxor (to_i64 (value ≪ 1)) (value ≫ 63)).
Definition unzigzag (value : Z) : Z := Z.lxor (to_i64 (value ≫ 1)) (- Z.land value 1).

Fixpoint deltas (values : list Z) : option (list Z) :=
  match values with
  | before :: ((after :: _) as rest) =>
      difference ← checked_sub after before;
      rest ← deltas rest;
      Some (to_i64 (zigzag difference) :: rest)
  | _ => Some []
  end.

Fixpoint deltas_fit (values : list Z) : bool :=
  match values with
  | before :: ((after :: _) as rest) => match checked_sub after before with Some _ => deltas_fit rest | None => false end
  | _ => true
  end.

(** Each value over the difference that follows it, and the last one after them. *)
Fixpoint undelta (current : Z) (values : list Z) : list Z :=
  match values with
  | [] => [current]
  | value :: values => current :: undelta (wrapping_add current (unzigzag (to_u64 value))) values
  end.

(** [iter().take_while(|other| *other == value).count()]. *)
Fixpoint same_ahead (value : Z) (values : list Z) : nat :=
  match values with
  | other :: values => if other =? value then S (same_ahead value values) else 0
  | [] => 0
  end.

Fixpoint runs_loop (fuel : nat) (values run_values run_lengths : list Z) : option (list Z * list Z) :=
  match fuel with
  | O => None
  | S fuel =>
      match values with
      | [] => Some (run_values, run_lengths)
      | value :: _ =>
          let length := same_ahead value values in
          runs_loop fuel (drop length values) (run_values ++ [value]) (run_lengths ++ [Z.of_nat length])
      end
  end.

Definition runs (values : list Z) : option (list Z * list Z) := runs_loop (S (length values)) values [] [].

(** [sort_unstable] of integers: equal ones cannot be told apart. *)
Definition sorted (values : list Z) : list Z := merge_sort Z.le values.

Fixpoint dedup (values : list Z) : list Z :=
  match values with
  | a :: ((b :: _) as rest) => if a =? b then dedup rest else a :: dedup rest
  | _ => values
  end.

Definition distinct_values (values : list Z) : list Z := dedup (sorted values).

(** [binary_search] in a list in order with no value twice: the place of the value. *)
Definition code_of (dictionary : list Z) (value : Z) : option Z := Z.of_nat <$> position (Z.eqb value) dictionary.

Definition codes_over (values dictionary : list Z) : option (list Z) := mapM (code_of dictionary) values.

(** The runs of a list in order: how many there are, and the first of the longest. *)
Fixpoint spread_loop (fuel : nat) (sorted : list Z) (distinct : Z) (best : option (Z * Z)) : option (Z * option (Z * Z)) :=
  match fuel with
  | O => None
  | S fuel =>
      match sorted with
      | [] => Some (distinct, best)
      | value :: _ =>
          let count := same_ahead value sorted in
          let best := if match best with Some (_, seen) => seen <? Z.of_nat count | None => true end then Some (value, Z.of_nat count) else best in
          spread_loop fuel (drop count sorted) (distinct + 1) best
      end
  end.

Definition spread_of (values : list Z) : option (Z * option (Z * Z)) := spread_loop (S (length values)) (sorted values) 0 None.

Definition vote (s : Z * Z) (value : Z) : Z * Z :=
  let '(candidate, lead) := s in
  if lead =? 0 then (value, 1) else if value =? candidate then (candidate, lead + 1) else (candidate, lead - 1).

Definition majority (values : list Z) : option (Z * Z) :=
  match values with
  | [] => None
  | first :: _ =>
      let candidate := (foldl vote (first, 0) values).1 in
      let count := zlen (filter (λ value, value = candidate) values) in
      if zlen values <? count * 2 then Some (candidate, count) else None
  end.

(** ** The stride *)

Fixpoint gcd_loop (fuel : nat) (left_ right_ shift : Z) : option Z :=
  match fuel with
  | O => None
  | S fuel =>
      right_ ← shr right_ (trailing_zeros right_);
      let '(left_, right_) := if right_ <? left_ then (right_, left_) else (left_, right_) in
      let right_ := right_ - left_ in
      if right_ =? 0 then shl left_ shift else gcd_loop fuel left_ right_ shift
  end.

Definition gcd (left_ right_ : Z) : option Z :=
  if left_ =? 0 then Some right_ else
  if right_ =? 0 then Some left_ else
  let shift := trailing_zeros (Z.lor left_ right_) in
  left_ ← shr left_ (trailing_zeros left_);
  gcd_loop 129 left_ right_ shift.

Fixpoint stride_loop (values : list Z) (base divisor : Z) : option (option Z) :=
  match values with
  | [] => Some (if 1 <? divisor then Some divisor else None)
  | value :: values =>
      divisor ← gcd divisor (offset_from value base);
      if divisor =? 1 then Some None else stride_loop values base divisor
  end.

Definition stride_from (values : list Z) (base : Z) : option (option Z) := stride_loop values base 0.

(** [iter().min()]. *)
Definition least (values : list Z) : option Z := match values with [] => None | v :: rest => Some (foldl Z.min v rest) end.

Definition stride_of (values : list Z) : option (option Z) := match least values with None => Some None | Some base => stride_from values base end.

(** * What one pass says *)

Record Profile : Type := mkProfile {
  p_min : Z;
  p_max : Z;
  p_runs : Z;
  delta_low : Z;
  delta_high : Z;
  delta_runs : Z }.

Definition bump (b : bool) : Z := if b then 1 else 0.

Fixpoint profile_loop (before : Z) (rest : list Z) (p : Profile) (last : Z) : Profile :=
  match rest with
  | [] => mkProfile (p_min p) (p_max p) (p_runs p + 1) (delta_low p) (delta_high p) (delta_runs p + 1)
  | after :: rest =>
      let delta := wrapping_sub after before in
      let zigzagged := zigzag delta in
      profile_loop after rest
        (mkProfile (Z.min (p_min p) after) (Z.max (p_max p) after) (p_runs p + bump (negb (before =? after)))
           (Z.min (delta_low p) zigzagged) (Z.max (delta_high p) zigzagged) (delta_runs p + bump (negb (delta =? last)))) delta
  end.

Definition Profile_of (values : list Z) : option Profile :=
  match values with
  | [] => None
  | first :: rest =>
      let last := match rest with second :: _ => wrapping_sub second first | [] => 0 end in
      Some (profile_loop first rest (mkProfile first first 0 (2 ^ 64 - 1) 0 0) last)
  end.

Definition width_of (range : Z) : Z := 64 - leading_zeros range.

Definition Profile_width (p : Profile) : Z := width_of (to_u64 (wrapping_sub (p_max p) (p_min p))).

Fixpoint few_loop (n : nat) (before : Z) (rest seen : list Z) : bool :=
  match n, rest with
  | S n, after :: rest =>
      let delta := wrapping_sub after before in
      if bool_decide (delta ∈ seen) then few_loop n after rest seen else
      if (length seen =? FEW_DELTAS)%nat then false else few_loop n after rest (seen ++ [delta])
  | _, _ => true
  end.

Definition few_deltas (values : list Z) : bool := match values with [] => true | first :: rest => few_loop FEW_DELTAS_SEEN first rest [] end.

Definition deltas_pay (p : Profile) (values : list Z) : bool :=
  let len := zlen values in
  let narrower := width_of (to_u64 (delta_high p - delta_low p)) <? Profile_width p in
  let unruly := len * 3 <? p_runs p * 4 in
  let repeat := delta_runs p * 4 <=? Z.max 0 (len - 1) * 3 in
  narrower || (unruly && (repeat || few_deltas values)).

(** * Choosing *)

(** The trait [Chooser], as far as integers go. A chooser may keep what it has seen. *)
Class Chooser (S : Type) : Type := {
  narrow_integers : list Z → list Kind → Z → S → list Kind * S;
  considers_integer : Kind → Z → S → bool }.

(** What its documentation asks of [narrow_integers]: some of what was offered, and not nothing. *)
Class ChooserLaws (S : Type) `{!Chooser S} : Prop :=
  narrow_some values offered depth s : offered ≠ [] → (narrow_integers values offered depth s).1 ≠ [] ∧ (narrow_integers values offered depth s).1 ⊆ offered.

(** [Exhaustive]. *)
#[global] Instance Exhaustive : Chooser unit := {
  narrow_integers _ offered _ s := (offered, s);
  considers_integer _ _ _ := true }.

#[global] Instance Exhaustive_laws : ChooserLaws unit.
Proof. intros values offered depth s H. done. Qed.

Section encoding.
Context {St : Type} `{!Chooser St}.

Definition candidates (values : list Z) (depth : Z) (s : St) : option (list Kind) :=
  if MAX_DEPTH <=? depth then Some [Packed] else
  match Profile_of values with
  | None => Some [Packed]
  | Some p =>
      if p_runs p =? 1 then Some [Constant] else
      let considered kind := considers_integer kind depth s in
      let fits := match checked_sub (p_max p) (p_min p) with Some _ => true | None => false end in
      let delta := considered Delta && (if fits then deltas_pay p values else deltas_fit values) in
      let rle := considered Rle && (p_runs p * 4 <=? zlen values * 3) in
      dict ← (if considered Dict && (1 <? Profile_width p) then
          '(distinct, _) ← spread_of values;
          Some ((distinct * 2 <=? zlen values) && (width_of (distinct - 1) <? Profile_width p))
        else Some false);
      let sparse := considered Sparse && ((p_runs p - 1) * 5 <=? zlen values * 2) && match majority values with Some (_, count) => zlen values * 8 <=? count * 10 | None => false end in
      strided ← (if considered Strided then stride ← stride_from values (p_min p); Some (bool_decide (is_Some stride)) else Some false);
      Some ([Packed] ++ (if delta then [Delta] else []) ++ (if rle then [Rle] else []) ++ (if dict : bool then [Dict] else [])
        ++ (if sparse then [Sparse] else []) ++ (if strided : bool then [Strided] else []))
  end.

(** * Encoding *)

(** [chunks(VALUES)]. *)
Fixpoint units (fuel : nat) (values : list Z) : list (list Z) :=
  match fuel, values with
  | S fuel, _ :: _ => take (Z.to_nat VALUES) values :: units fuel (drop (Z.to_nat VALUES) values)
  | _, _ => []
  end.

(** One unit. The buffers it packs through are overwritten whole, so they are not threaded. *)
Definition encode_unit (unit_ out : list Z) : option (Result (list Z)) :=
  let base := default 0 (least unit_) in
  let offsets := (λ value, offset_from value base) <$> unit_ in
  let width := required_width offsets in
  let out := out ++ put_i64 base in
  if negb (width <? 256) then Some (Err (Internal "impossible width")) else
  let out := out ++ put_u8 width in
  if zlen unit_ =? VALUES then
    let words := packed_len U64 width in
    try packed := pack_with U64 offsets width (replicate (Z.to_nat words) 0) [] ;;
    Some (Ok (out ++ concat (put_u64 <$> packed)))
  else pack_tail offsets width out.

Fixpoint encode_units (units : list (list Z)) (out : list Z) : option (Result (list Z)) :=
  match units with
  | [] => Some (Ok out)
  | unit_ :: units => try out := encode_unit unit_ out ;; encode_units units out
  end.

Definition encode_packed (values out : list Z) : option (Result (list Z)) := encode_units (units (length values) values) out.

(** Encoding asks the chooser, which may change by it. *)
Definition Enc (A : Type) : Type := St → option (Result A * St).
Definition done {A} (a : A) : Enc A := λ s, Some (Ok a, s).
Definition lift {A} (m : option (Result A)) : Enc A := λ s, r ← m; Some (r, s).
Definition and_also {A B} (m : Enc A) (f : A → Enc B) : Enc B := λ s,
  '(r, s) ← m s;
  match r with Ok a => f a s | Err e => Some (Err e, s) end.

(** [steps] of a strided chunk, or nothing when one does not fit. *)
Fixpoint steps_of (values : list Z) (base stride : Z) : option (list Z) :=
  match values with
  | [] => Some []
  | value :: values =>
      let step := offset_from value base / stride in
      if i64_okb step then cons step <$> steps_of values base stride else None
  end.

(** The positions and the values other than the one given. *)
Fixpoint exceptions_of (value : Z) (index : Z) (values : list Z) : list Z * list Z :=
  match values with
  | [] => ([], [])
  | other :: values =>
      let '(positions, exceptions) := exceptions_of value (index + 1) values in
      if other =? value then (positions, exceptions) else (index :: positions, other :: exceptions)
  end.

(** What comes after the tag and the count; [rec] encodes a chunk held inside. *)
Definition encode_body (rec : list Z → Z → Enc (list Z)) (kind : Kind) (values : list Z) (depth : Z) (out : list Z) : Enc (option (list Z)) :=
  match kind with
  | Constant =>
      match values with
      | [] => done None
      | first :: _ => if existsb (λ value, negb (value =? first)) values then done None else done (Some (out ++ put_i64 first))
      end
  | Packed => and_also (lift (encode_packed values out)) (λ out, done (Some out))
  | Delta =>
      match values, deltas values with
      | first :: _, Some ds => and_also (rec ds (depth + 1)) (λ inner, done (Some (out ++ put_i64 first ++ inner)))
      | _, _ => done None
      end
  | Rle => λ s,
      '(run_values, run_lengths) ← runs values;
      match run_values with
      | [] => done None s
      | _ => and_also (rec run_values (depth + 1)) (λ a, and_also (rec run_lengths (depth + 1)) (λ b, done (Some (out ++ a ++ b)))) s
      end
  | Dict =>
      let dictionary := distinct_values values in
      match dictionary with
      | [] => done None
      | _ => λ s,
          codes ← codes_over values dictionary;
          and_also (rec dictionary (depth + 1)) (λ a, and_also (rec codes (depth + 1)) (λ b, done (Some (out ++ a ++ b)))) s
      end
  | Sparse => λ s,
      '(_, most) ← spread_of values;
      match (match majority values with Some m => Some m | None => most end) with
      | None => done None s
      | Some (value, _) =>
          let '(positions, exceptions) := exceptions_of value 0 values in
          if 2 ^ 32 <=? zlen positions then Some (Err (Internal "a chunk is longer than the format allows"), s) else
          and_also (rec positions (depth + 1)) (λ a, and_also (rec exceptions (depth + 1)) (λ b,
            done (Some (out ++ put_i64 value ++ put_u32 (zlen positions) ++ a ++ b)))) s
      end
  | Strided => λ s,
      stride ← stride_of values;
      match least values, stride with
      | Some base, Some stride =>
          match steps_of values base stride with
          | None => done None s
          | Some st => and_also (rec st (depth + 1)) (λ inner, done (Some (out ++ put_i64 base ++ put_u64 stride ++ inner))) s
          end
      | _, _ => done None s
      end
  end.

Definition encode_as (rec : list Z → Z → Enc (list Z)) (kind : Kind) (values : list Z) (depth : Z) : Enc (option (list Z)) :=
  if 2 ^ 32 <=? zlen values then lift (Some (Err (Internal "a chunk is longer than the format allows"))) else
  encode_body rec kind values depth (put_u8 (tag kind) ++ put_u32 (zlen values)).

Fixpoint best_loop (rec : list Z → Z → Enc (list Z)) (kinds : list Kind) (values : list Z) (depth : Z) (best : option (list Z)) : Enc (option (list Z)) :=
  match kinds with
  | [] => done best
  | kind :: kinds =>
      and_also (encode_as rec kind values depth) (λ encoded,
        best_loop rec kinds values depth
          (match encoded with
           | None => best
           | Some bytes => if match best with Some current => zlen bytes <? zlen current | None => true end then Some bytes else best
           end))
  end.

(** [fuel] bounds the levels of the cascade. *)
Fixpoint encode_at (fuel : nat) (values : list Z) (depth : Z) : Enc (list Z) :=
  match fuel with
  | O => λ _, None
  | S fuel => λ s,
      offered ← candidates values depth s;
      let '(narrowed, s) := narrow_integers values offered depth s in
      and_also (best_loop (encode_at fuel) narrowed values depth None) (λ best,
        match best with
        | Some bytes => done bytes
        | None => lift (Some (Err (Internal "no encoding applied to the chunk")))
        end) s
  end.

Definition encode_with (values : list Z) : Enc (list Z) := encode_at 4 values 0.
End encoding.

Definition encode (values : list Z) : option (Result (list Z)) := '(r, _) ← encode_with values (); Some r.

(** * Decoding *)

Definition check_count (actual expected : Z) : Result unit := if actual =? expected then Ok () else Err (Internal "a chunk says it holds other values than it decoded to").

Fixpoint packed_loop (fuel : nat) (left_ : Z) (r : Reader) (values : list Z) : option (Result (list Z * Reader)) :=
  match fuel with
  | O => None
  | S fuel =>
      if left_ <=? 0 then Some (Ok (values, r)) else
      try (base, r) := Some (read_i64 r) ;;
      try (width, r) := Some (read_u8 r) ;;
      let wanted := Z.min left_ VALUES in
      let into := replicate (Z.to_nat wanted) 0 in
      try (unit_, r) := (if wanted =? VALUES then
          try (bytes, r) := Some (read_bytes (unit_len width) r) ;;
          try unit_ := unpack_unit_into bytes width into (λ offset, value_from offset base) ;;
          Some (Ok (unit_, r))
        else
          try (bytes, r) := Some (read_bytes (tail_len wanted width) r) ;;
          try unit_ := unpack_tail_into bytes width into (λ offset, value_from offset base) ;;
          Some (Ok (unit_, r))) ;;
      packed_loop fuel (left_ - wanted) r (values ++ unit_)
  end.

Fixpoint dict_loop (dictionary codes values : list Z) : Result (list Z) :=
  match codes with
  | [] => Ok values
  | code :: codes =>
      match (if code <? 0 then None else get dictionary code) with
      | Some value => dict_loop dictionary codes (values ++ [value])
      | None => Err (Internal "code is not in the dictionary")
      end
  end.

Fixpoint sparse_loop (count : Z) (positions exceptions values : list Z) : option (Result (list Z)) :=
  match positions, exceptions with
  | position :: positions, exception :: exceptions =>
      if (position <? 0) || (count <=? position) then Some (Err (Internal "exception is outside the chunk")) else
      values ← put position exception values;
      sparse_loop count positions exceptions values
  | _, _ => Some (Ok values)
  end.

Definition strided (steps : list Z) (stride base : Z) : Result (list Z) :=
  if foldl Z.lor 0 steps <? 0 then Err (Internal "a negative number of strides") else
  Ok ((λ step, wrapping_add base (to_i64 (wrap 64 (to_u64 step * stride)))) <$> steps).

(** [values[a..b].fill(value)]. *)
Definition fill (a b : Z) (value : Z) (values : list Z) : option (list Z) :=
  _ ← get_range a b values;
  Some (put_slice a (replicate (Z.to_nat (b - a)) value) values).

Fixpoint short_runs (runs : list (Z * Z)) (at_ : Z) (values : list Z) : option (list Z) :=
  match runs with
  | [] => Some values
  | (value, length) :: runs =>
      values ← fill at_ (at_ + RUN) value values;
      short_runs runs (at_ + length) values
  end.

(** Whole blocks of [RUN]. *)
Definition room_of (length : Z) : Z := Z.max (div_ceil length RUN * RUN) RUN.

Fixpoint block_runs (runs : list (Z * Z)) (at_ : Z) (values : list Z) : option (list Z) :=
  match runs with
  | [] => Some values
  | (value, length) :: runs =>
      values ← fill at_ (at_ + room_of length) value values;
      block_runs runs (at_ + length) values
  end.

(** At [i64], which holds every value. *)
Definition expanded (run_values run_lengths : list Z) (count : Z) : option (Result (list Z)) :=
  if negb (zlen run_values =? zlen run_lengths) then Some (Err (Internal "an RLE chunk has more runs than run lengths")) else
  let signs := foldl Z.lor 0 run_lengths in
  let longest := foldl Z.max 0 run_lengths in
  let total := foldl (λ total length, total + to_u64 length) 0 run_lengths in
  if signs <? 0 then Some (Err (Internal "a negative RLE run length")) else
  if count <? total then Some (Err (Internal "an RLE run ends past its chunk")) else
  try _ := Some (check_count total count) ;;
  let runs := zip run_values run_lengths in
  if zlen run_values * LONG_RUN <=? count then Some (Ok (concat ((λ r, replicate (Z.to_nat r.2) r.1) <$> runs))) else
  let values := replicate (Z.to_nat (count + RUN)) 0 in
  values ← (if longest <=? RUN then short_runs runs 0 values else block_runs runs 0 values);
  Some (Ok (take (Z.to_nat count) values)).

Fixpoint decode_chunk (fuel : nat) (r : Reader) : option (Result (list Z * Reader)) :=
  match fuel with
  | O => None
  | S fuel =>
      try (t, r) := Some (read_u8 r) ;;
      try kind := Some (from_tag t) ;;
      try (count, r) := Some (read_u32 r) ;;
      match kind with
      | Constant => try (value, r) := Some (read_i64 r) ;; Some (Ok (replicate (Z.to_nat count) value, r))
      | Packed => packed_loop (S (Z.to_nat (div_ceil count VALUES))) count r []
      | Delta =>
          try (first, r) := Some (read_i64 r) ;;
          try (values, r) := decode_chunk fuel r ;;
          try _ := Some (check_count (zlen values + 1) count) ;;
          Some (Ok (undelta first values, r))
      | Rle =>
          try (run_values, r) := decode_chunk fuel r ;;
          try (run_lengths, r) := decode_chunk fuel r ;;
          try values := expanded run_values run_lengths count ;;
          Some (Ok (values, r))
      | Dict =>
          try (dictionary, r) := decode_chunk fuel r ;;
          try (codes, r) := decode_chunk fuel r ;;
          try values := Some (dict_loop dictionary codes []) ;;
          try _ := Some (check_count (zlen values) count) ;;
          Some (Ok (values, r))
      | Sparse =>
          try (value, r) := Some (read_i64 r) ;;
          try (exception_count, r) := Some (read_u32 r) ;;
          try (positions, r) := decode_chunk fuel r ;;
          try (exceptions, r) := decode_chunk fuel r ;;
          if negb (zlen positions =? exception_count) || negb (zlen exceptions =? exception_count)
          then Some (Err (Internal "a sparse chunk disagrees about its exception count")) else
          try values := sparse_loop count positions exceptions (replicate (Z.to_nat count) value) ;;
          Some (Ok (values, r))
      | Strided =>
          try (base, r) := Some (read_i64 r) ;;
          try (stride, r) := Some (read_u64 r) ;;
          try (steps, r) := decode_chunk fuel r ;;
          try _ := Some (check_count (zlen steps) count) ;;
          try values := Some (strided steps stride base) ;;
          Some (Ok (values, r))
      end
  end.

(** Every chunk is of five bytes or more. *)
Definition decode (bytes : list Z) : option (Result (list Z)) :=
  try (values, r) := decode_chunk (S (length bytes)) bytes ;;
  if negb (zlen r =? 0) then Some (Err (Internal "bytes left over after decoding a chunk")) else Some (Ok values).
