(* ===== verification/IntegerLaws.v ===== *)
(** The integer encodings take their chunks apart and put them together: each kind by itself, then
    the cascade, and what a decoder makes of any bytes. *)

From S2P Require Import Prelude Bitpack BitpackLaws BitpackTail Integer.
From Stdlib Require Import Znumtheory Zpow_facts.
Local Open Scope Z_scope.

(** * Signed integers *)

Lemma i64_okb_spec x : i64_okb x = true ↔ i64_ok x.
Proof. unfold i64_okb, i64_ok. rewrite andb_true_iff, Z.leb_le, Z.ltb_lt. done. Qed.

Lemma to_i64_id x : i64_ok x → to_i64 x = x.
Proof. unfold i64_ok, to_i64. intros H. rewrite wrap_id by (unfold fits; lia). lia. Qed.

Lemma to_i64_ok x : i64_ok (to_i64 x).
Proof. unfold i64_ok, to_i64. pose proof (wrap_fits 64 (x + 2 ^ 63) ltac:(lia)) as H. unfold fits in H. lia. Qed.

Lemma wrap_add_wrap a b : wrap 64 (wrap 64 a + b) = wrap 64 (a + b).
Proof. unfold wrap. by rewrite Zplus_mod_idemp_l. Qed.

Lemma to_i64_u64 x : to_i64 (to_u64 x) = to_i64 x.
Proof. unfold to_i64, to_u64. by rewrite wrap_add_wrap. Qed.

Lemma to_u64_i64 x : to_u64 (to_i64 x) = to_u64 x.
Proof. unfold to_i64, to_u64. rewrite <-Z.add_opp_r, wrap_add_wrap. f_equal. lia. Qed.

Lemma value_from_offset v base : i64_ok v → value_from (offset_from v base) base = v.
Proof.
  intros Hv. unfold value_from, offset_from. rewrite <-(to_i64_id v) at 2 by done. unfold to_i64, to_u64. rewrite <-Z.add_assoc, Z.add_comm, <-Z.add_assoc, wrap_add_wrap. do 2 f_equal. lia.
Qed.

Lemma offset_fits v base : fits 64 (offset_from v base).
Proof. apply wrap_fits. lia. Qed.

(** Twice the value, or one less than twice its negative. *)
Lemma zigzag_val v : i64_ok v → zigzag v = if 0 <=? v then 2 * v else - 2 * v - 1.
Proof.
  intros Hv. unfold zigzag. rewrite Z.shiftl_mul_pow2 by lia. unfold i64_ok in Hv. destruct (Z.leb_spec 0 v).
  - assert (v ≫ 63 = 0) as -> by (rewrite Z.shiftr_div_pow2 by lia; apply Z.div_small; lia). rewrite Z.lxor_0_r, to_u64_i64. unfold to_u64. rewrite wrap_id by (unfold fits; lia). lia.
  - assert (v ≫ 63 = -1) as -> by (rewrite Z.shiftr_div_pow2 by lia; symmetry; apply Z.div_unique with (v + 2 ^ 63); lia). rewrite Z.lxor_m1_r. unfold to_u64, Z.lnot.
    assert (wrap 64 (Z.pred (- to_i64 (v * 2 ^ 1))) = wrap 64 (- 2 * v - 1)) as ->; [|apply wrap_id; unfold fits; lia].
    unfold to_i64, wrap. replace (Z.pred (- ((v * 2 ^ 1 + 2 ^ 63) `mod` 2 ^ 64 - 2 ^ 63))) with (2 ^ 63 - 1 - (v * 2 ^ 1 + 2 ^ 63) `mod` 2 ^ 64) by lia. rewrite Zminus_mod_idemp_r. f_equal. lia.
Qed.

Lemma unzigzag_zigzag v : i64_ok v → unzigzag (to_u64 (to_i64 (zigzag v))) = v.
Proof.
  intros Hv. rewrite to_u64_i64. assert (fits 64 (zigzag v)) as Hf by (rewrite zigzag_val by done; unfold i64_ok, fits in *; case_match; lia). unfold to_u64. rewrite wrap_id by done. unfold unzigzag.
  rewrite Z.shiftr_div_pow2, Z.pow_1_r by lia. change 1 with (Z.ones 1) at 1. rewrite Z.land_ones, Z.pow_1_r by lia. rewrite zigzag_val by done. unfold i64_ok in Hv. destruct (Z.leb_spec 0 v).
  - replace (2 * v) with (v * 2) by lia. rewrite Z.div_mul, Z.mod_mul by lia. rewrite Z.lxor_0_r. apply to_i64_id. unfold i64_ok. lia.
  - replace (- 2 * v - 1) with ((- v - 1) * 2 + 1) by lia. rewrite Z.div_add_l by lia. rewrite (Z.add_comm ((- v - 1) * 2)), Z.mod_add by lia. change (1 / 2) with 0. change (1 `mod` 2) with 1. rewrite Z.add_0_r. rewrite to_i64_id by (unfold i64_ok; lia).
    rewrite Z.lxor_m1_r. unfold Z.lnot. lia.
Qed.

(** * Reading what was written *)

Lemma read_bytes_app n (a r : list Z) : zlen a = n → read_bytes n (a ++ r) = Ok (a, r).
Proof.
  intros <-. unfold read_bytes. rewrite zlen_app. pose proof (zlen_nonneg r). rewrite (proj2 (Z.ltb_ge _ _)) by lia. unfold zlen. rewrite Nat2Z.id, take_app_length, drop_app_length. done.
Qed.

Lemma read_u8_app x r : fits 8 x → read_u8 (put_u8 x ++ r) = Ok (x, r).
Proof. intros Hx. unfold read_u8, put_u8. rewrite read_bytes_app by done. cbn. rewrite le_val_cons, le_val_nil. by rewrite Z.shiftl_0_l, Z.lor_0_r. Qed.

Lemma read_u32_app x r : fits 32 x → read_u32 (put_u32 x ++ r) = Ok (x, r).
Proof. intros Hx. unfold read_u32, put_u32. rewrite read_bytes_app by apply zlen_le_bytes. cbn. rewrite le_val_bytes by exact Hx. done. Qed.

Lemma read_u64_app x r : fits 64 x → read_u64 (put_u64 x ++ r) = Ok (x, r).
Proof. intros Hx. unfold read_u64, put_u64. rewrite read_bytes_app by apply zlen_le_bytes. cbn. rewrite le_val_bytes by exact Hx. done. Qed.

Lemma read_i64_app x r : i64_ok x → read_i64 (put_i64 x ++ r) = Ok (x, r).
Proof.
  intros Hx. unfold read_i64, put_i64. rewrite read_bytes_app by apply zlen_le_bytes. cbn. rewrite le_val_bytes by (apply wrap_fits; lia). by rewrite to_i64_u64, to_i64_id.
Qed.

Lemma from_tag_tag kind : from_tag (tag kind) = Ok kind.
Proof. by destruct kind. Qed.

Abbreviation i64s := (Forall i64_ok).

(** * Differences *)

Lemma checked_sub_Some a b d : checked_sub a b = Some d → d = a - b ∧ i64_ok d.
Proof. unfold checked_sub. destruct (i64_okb (a - b)) eqn:E; [|done]. apply i64_okb_spec in E. intros [= <-]. done. Qed.

Lemma deltas_ok values : ∀ first ds, i64s (first :: values) → deltas (first :: values) = Some ds → undelta first ds = first :: values ∧ zlen ds = zlen values ∧ i64s ds.
Proof.
  induction values as [|v values IH]; intros first ds Hi Hd; cbn [deltas] in Hd; [by simplify_eq|]. apply Forall_cons in Hi as [Hf Hi]. apply bind_Some in Hd as (d&[-> Hok]%checked_sub_Some&Hd).
  apply bind_Some in Hd as (ds'&Hds'&[= <-]). destruct (IH v ds' Hi Hds') as (E1&E2&E3). cbn [undelta]. rewrite unzigzag_zigzag by done. assert (wrapping_add first (v - first) = v) as ->.
  { unfold wrapping_add. apply Forall_cons in Hi as [Hv _]. rewrite to_i64_id; [lia|]. by replace (first + (v - first)) with v by lia. }
  rewrite E1, !zlen_cons, E2. split_and!; [done|done|]. constructor; [apply to_i64_ok|done].
Qed.

Lemma deltas_fit_Some values : deltas_fit values = true → is_Some (deltas values).
Proof.
  induction values as [|a [|b values] IH]; [by eexists..|]. cbn [deltas deltas_fit]. destruct (checked_sub b a) as [d|]; [|done]. intros H. destruct (IH H) as [ds E]. cbn [deltas] in E. rewrite some_bind, E. by eexists.
Qed.

Lemma deltas_range values lo hi : (∀ x, x ∈ values → lo ≤ x ≤ hi) → i64_ok (hi - lo) → is_Some (deltas values).
Proof.
  intros Hr Hw. apply deltas_fit_Some. induction values as [|a [|b values] IH]; [done..|]. cbn [deltas_fit]. pose proof (Hr a ltac:(set_solver)). pose proof (Hr b ltac:(set_solver)). unfold checked_sub.
  rewrite (proj2 (i64_okb_spec (b - a))) by (unfold i64_ok in *; lia). apply IH. intros x Hx. apply Hr. set_solver.
Qed.

(** * Runs *)

Definition spread (rv rl : list Z) : list Z := concat ((λ r, replicate (Z.to_nat r.2) r.1) <$> zip rv rl).

Lemma same_ahead_split v values : ∃ rest, values = replicate (same_ahead v values) v ++ rest ∧ drop (same_ahead v values) values = rest.
Proof.
  induction values as [|x values IH]; cbn [same_ahead]; [by exists []|]. destruct (Z.eqb_spec x v) as [->|]; [|by exists (x :: values)]. destruct IH as (rest&E1&E2). exists rest. cbn. by rewrite <-E1.
Qed.

Lemma spread_app rv rl rv' rl' : length rv = length rl → spread (rv ++ rv') (rl ++ rl') = spread rv rl ++ spread rv' rl'.
Proof. intros H. unfold spread. rewrite zip_with_app, fmap_app, concat_app by done. done. Qed.

Lemma runs_loop_ok fuel : ∀ values rv rl, (length values < fuel)%nat → length rv = length rl → Forall (λ n, 1 ≤ n) rl →
  ∃ rv' rl', runs_loop fuel values rv rl = Some (rv', rl') ∧ length rv' = length rl' ∧ spread rv' rl' = spread rv rl ++ values ∧ Forall (λ n, 1 ≤ n) rl' ∧ (∀ x, x ∈ rv' → x ∈ rv ∨ x ∈ values) ∧ (values ≠ [] ∨ rv ≠ [] → rv' ≠ []).
Proof.
  induction fuel as [|fuel IH]; intros values rv rl Hf Hl Hp; [lia|]. cbn [runs_loop]. destruct values as [|v values].
  { exists rv, rl. rewrite app_nil_r. split_and!; try done; [by left|]. by intros [?|?]. }
  destruct (same_ahead_split v (v :: values)) as (rest&E1&E2). set (n := same_ahead v (v :: values)) in *. assert (1 ≤ n)%nat as Hn by (unfold n; cbn [same_ahead]; rewrite Z.eqb_refl; lia).
  assert (length (v :: values) = n + length rest)%nat as Hlen by (rewrite E1 at 1; by rewrite length_app, length_replicate).
  destruct (IH (drop n (v :: values)) (rv ++ [v]) (rl ++ [Z.of_nat n])) as (rv'&rl'&->&H1&H2&H3&H4&H5); [rewrite E2; lia|rewrite !length_app; cbn; lia|apply Forall_app; split; [done|]; constructor; [lia|done]|].
  exists rv', rl'. split_and!; [done|done| |done| |].
  - rewrite H2, spread_app, E2 by done. unfold spread at 2. cbn [zip_with fmap list_fmap concat fst snd]. rewrite Nat2Z.id, app_nil_r, <-app_assoc. by rewrite <-E1.
  - intros x Hx. destruct (H4 x Hx) as [Hx'|Hx']; [apply elem_of_app in Hx' as [?|?]; set_solver|]. right. rewrite E2 in Hx'. rewrite E1. set_solver.
  - intros _. apply H5. right. by destruct rv.
Qed.

Lemma spread_len rv rl : length rv = length rl → Forall (λ n, 0 ≤ n) rl → zlen (spread rv rl) = foldr Z.add 0 rl.
Proof.
  revert rl. induction rv as [|v rv IH]; intros [|n rl] Hl Hp; try done. apply Forall_cons in Hp as [Hn Hp]. unfold spread in *. cbn [zip_with fmap list_fmap concat foldr fst snd]. rewrite zlen_app, zlen_replicate, IH by (done || injection Hl; done). lia.
Qed.

Lemma runs_ok values : ∃ rv rl, runs values = Some (rv, rl) ∧ length rv = length rl ∧ spread rv rl = values ∧ Forall (λ n, 1 ≤ n) rl ∧ (∀ x, x ∈ rv → x ∈ values) ∧ (values ≠ [] → rv ≠ []).
Proof.
  destruct (runs_loop_ok (S (length values)) values [] []) as (rv&rl&E&H1&H2&H3&H4&H5); [lia|done|done|]. exists rv, rl. split_and!; [done|done|done|done| |].
  - intros x Hx. destruct (H4 x Hx) as [?%elem_of_nil|?]; done.
  - intros H. apply H5. by left.
Qed.

(** ** Laying runs out *)

Lemma fill_ok_ a m len v (buf : list Z) : 0 ≤ a → 0 ≤ len ≤ m → a + m ≤ zlen buf → ∃ b1, fill a (a + m) v buf = Some b1 ∧ zlen b1 = zlen buf ∧ take (Z.to_nat (a + len)) b1 = take (Z.to_nat a) buf ++ replicate (Z.to_nat len) v.
Proof.
  intros Ha Hl Hm. unfold fill. rewrite get_range_in by lia. rewrite some_bind. eexists. split; [done|]. unfold put_slice. replace (a + m - a) with m by lia. rewrite length_replicate. unfold zlen in Hm. split.
  - rewrite !zlen_app, zlen_take, zlen_replicate, zlen_drop. unfold zlen. lia.
  - rewrite take_app, length_take, take_take, Nat.min_r, Nat.min_l by lia. f_equal. rewrite take_app, length_replicate, take_replicate, Nat.min_l by lia. replace (Z.to_nat (a + len) - Z.to_nat a - Z.to_nat m)%nat with 0%nat by lia.
    rewrite take_0, app_nil_r. f_equal. lia.
Qed.

Lemma spread_cons v rv n rl : spread (v :: rv) (n :: rl) = replicate (Z.to_nat n) v ++ spread rv rl.
Proof. done. Qed.

Lemma sum_nonneg rl : Forall (λ n, 0 ≤ n) rl → 0 ≤ foldr Z.add 0 rl.
Proof. induction 1; cbn; lia. Qed.

Lemma short_runs_ok rv : ∀ rl at_ buf, length rv = length rl → Forall (λ n, 0 ≤ n ≤ RUN) rl → 0 ≤ at_ → at_ + foldr Z.add 0 rl + RUN ≤ zlen buf →
  ∃ b, short_runs (zip rv rl) at_ buf = Some b ∧ take (Z.to_nat (at_ + foldr Z.add 0 rl)) b = take (Z.to_nat at_) buf ++ spread rv rl.
Proof.
  induction rv as [|v rv IH]; intros [|n rl] at_ buf Hl Hp Ha Hb; try done; cbn [zip_with short_runs foldr] in *.
  { exists buf. rewrite Z.add_0_r. split; [done|]. unfold spread. cbn. by rewrite app_nil_r. }
  apply Forall_cons in Hp as [Hn Hp]. assert (0 ≤ foldr Z.add 0 rl) by (apply sum_nonneg; eapply Forall_impl; [exact Hp|]; cbn; lia).
  destruct (fill_ok_ at_ RUN n v buf) as (b1&->&Hz&Ht); [done|lia|lia|]. rewrite some_bind. destruct (IH rl (at_ + n) b1) as (b&->&Hb'); [by injection Hl|done|lia|lia|]. exists b. split; [done|].
  rewrite Z.add_assoc, Hb', Ht, spread_cons. by rewrite app_assoc.
Qed.

Lemma room_ok n : 0 ≤ n → n ≤ room_of n ≤ n + RUN.
Proof.
  intros Hn. unfold room_of, div_ceil, RUN. pose proof (Z.div_mod (n + (8 - 1)) 8 ltac:(lia)). pose proof (Z.mod_pos_bound (n + (8 - 1)) 8 ltac:(lia)). lia.
Qed.

Lemma block_runs_ok rv : ∀ rl at_ buf, length rv = length rl → Forall (λ n, 0 ≤ n) rl → 0 ≤ at_ → at_ + foldr Z.add 0 rl + RUN ≤ zlen buf →
  ∃ b, block_runs (zip rv rl) at_ buf = Some b ∧ take (Z.to_nat (at_ + foldr Z.add 0 rl)) b = take (Z.to_nat at_) buf ++ spread rv rl.
Proof.
  induction rv as [|v rv IH]; intros [|n rl] at_ buf Hl Hp Ha Hb; try done; cbn [zip_with block_runs foldr] in *.
  { exists buf. rewrite Z.add_0_r. split; [done|]. unfold spread. cbn. by rewrite app_nil_r. }
  apply Forall_cons in Hp as [Hn Hp]. pose proof (sum_nonneg rl Hp). pose proof (room_ok n Hn). destruct (fill_ok_ at_ (room_of n) n v buf) as (b1&->&Hz&Ht); [done|lia|lia|]. rewrite some_bind.
  destruct (IH rl (at_ + n) b1) as (b&->&Hb'); [by injection Hl|done|lia|lia|]. exists b. split; [done|]. rewrite Z.add_assoc, Hb', Ht, spread_cons. by rewrite app_assoc.
Qed.

(** The signs of a list or'ed together. *)
Lemma foldl_lor_neg l : ∀ a, foldl Z.lor a l < 0 ↔ a < 0 ∨ Exists (λ x, x < 0) l.
Proof.
  induction l as [|x l IH]; intros a; cbn [foldl]; [rewrite Exists_nil; intuition|]. rewrite IH, Exists_cons, Z.lor_neg. intuition.
Qed.

Lemma foldl_max_bound l : ∀ a, foldl Z.max a l ≤ RUN ↔ a ≤ RUN ∧ Forall (λ x, x ≤ RUN) l.
Proof. intros a. apply foldl_max_le. Qed.

Lemma foldl_sum l : ∀ a, Forall i64_ok l → Forall (λ n, 0 ≤ n) l → foldl (λ total length, total + to_u64 length) a l = a + foldr Z.add 0 l.
Proof.
  induction l as [|x l IH]; intros a Hi Hp; cbn [foldl foldr]; [lia|]. apply Forall_cons in Hi as [Hx Hi]. apply Forall_cons in Hp as [Hx0 Hp]. rewrite IH by done. unfold to_u64, i64_ok in *. rewrite wrap_id by (unfold fits; lia). lia.
Qed.

(** Any runs of lengths that are not negative and add up to the chunk. *)
Lemma expanded_ok rv rl count : length rv = length rl → i64s rl → Forall (λ n, 0 ≤ n) rl → foldr Z.add 0 rl = count → expanded rv rl count = Some (Ok (spread rv rl)).
Proof.
  intros Hl Hi Hp Hc. unfold expanded. rewrite (proj2 (Z.eqb_eq (zlen rv) (zlen rl))) by (unfold zlen; lia). cbn [negb]. rewrite (proj2 (Z.ltb_ge (foldl Z.lor 0 rl) 0)).
  2: { apply Z.nlt_ge. rewrite foldl_lor_neg. intros [?|Hn]; [lia|]. apply Exists_exists in Hn as (x&Hx&Hneg). rewrite Forall_forall in Hp. specialize (Hp x Hx). lia. }
  rewrite foldl_sum by done. rewrite Z.add_0_l, Hc, Z.ltb_irrefl. unfold check_count. rewrite Z.eqb_refl. cbn [and_then]. destruct (_ <=? count); [done|]. pose proof (sum_nonneg rl Hp).
  assert (∃ b, (if foldl Z.max 0 rl <=? RUN then short_runs (zip rv rl) 0 (replicate (Z.to_nat (count + RUN)) 0) else block_runs (zip rv rl) 0 (replicate (Z.to_nat (count + RUN)) 0)) = Some b ∧ take (Z.to_nat count) b = spread rv rl) as (b&->&Hb); [|by rewrite some_bind, Hb].
  assert (zlen (replicate (Z.to_nat (count + RUN)) 0) = count + RUN) as Hz by (rewrite zlen_replicate; unfold RUN; lia). subst count. destruct (Z.leb_spec (foldl Z.max 0 rl) RUN) as [Hs|_].
  - apply foldl_max_bound in Hs as [_ Hs]. destruct (short_runs_ok rv rl 0 (replicate (Z.to_nat (foldr Z.add 0 rl + RUN)) 0)) as (b&->&Hb); [done| |lia|lia|by exists b].
    apply Forall_forall. intros x Hx. rewrite Forall_forall in Hs, Hp. split; [by apply Hp|by apply Hs].
  - destruct (block_runs_ok rv rl 0 (replicate (Z.to_nat (foldr Z.add 0 rl + RUN)) 0)) as (b&->&Hb); [done|done|lia|lia|by exists b].
Qed.

(** * Dictionaries *)

Lemma dedup_cons2 a b rest : dedup (a :: b :: rest) = if a =? b then dedup (b :: rest) else a :: dedup (b :: rest).
Proof. done. Qed.

Lemma dedup_elem values x : x ∈ dedup values ↔ x ∈ values.
Proof.
  induction values as [|a [|b values] IH]; [done..|]. rewrite dedup_cons2. destruct (Z.eqb_spec a b) as [->|]; [rewrite IH; set_solver|]. rewrite !elem_of_cons in *. rewrite IH. done.
Qed.

Lemma dedup_sorted values : StronglySorted Z.le values → StronglySorted Z.lt (dedup values).
Proof.
  induction values as [|a [|b values] IH]; [constructor|repeat constructor|]. intros Hs. apply StronglySorted_inv in Hs as [Hs Hle]. rewrite dedup_cons2. destruct (Z.eqb_spec a b) as [->|Hne]; [by apply IH|].
  constructor; [by apply IH|]. apply Forall_forall. intros x Hx. rewrite dedup_elem in Hx. rewrite Forall_forall in Hle. pose proof (Hle b ltac:(set_solver)). apply elem_of_cons in Hx as [->|Hx]; [lia|].
  apply StronglySorted_inv in Hs as [_ Hb]. rewrite Forall_forall in Hb. specialize (Hb x Hx). lia.
Qed.

(** The dictionary is in order, holds no value twice, and holds every value: a binary search finds the one place of each. *)
Lemma distinct_values_ok values : StronglySorted Z.lt (distinct_values values) ∧ ∀ x, x ∈ distinct_values values ↔ x ∈ values.
Proof.
  unfold distinct_values, sorted. split; [apply dedup_sorted, StronglySorted_merge_sort; apply _|]. intros x. rewrite dedup_elem. by rewrite (merge_sort_Permutation Z.le values).
Qed.

Lemma dedup_len values : (length (dedup values) ≤ length values)%nat.
Proof. induction values as [|a [|b values] IH]; [done..|]. rewrite dedup_cons2. destruct (a =? b); rewrite ?length_cons in *; lia. Qed.

Lemma distinct_values_len values : zlen (distinct_values values) ≤ zlen values.
Proof. unfold distinct_values, sorted, zlen. pose proof (dedup_len (merge_sort Z.le values)) as H. rewrite (merge_sort_Permutation Z.le values) in H at 2. lia. Qed.

Lemma position_in value dictionary : value ∈ dictionary → ∃ i, position (Z.eqb value) dictionary = Some i ∧ dictionary !! i = Some value.
Proof.
  intros Hv. destruct (position (Z.eqb value) dictionary) as [i|] eqn:E.
  - exists i. split; [done|]. destruct (position_there _ _ _ E) as (x&Hx&Heq%Z.eqb_eq&_). by subst.
  - exfalso. apply list_elem_of_lookup in Hv as [j Hj]. pose proof (position_nowhere _ _ E j value Hj) as Hf. by rewrite Z.eqb_refl in Hf.
Qed.

Lemma codes_over_ok values dictionary : (∀ x, x ∈ values → x ∈ dictionary) →
  ∃ codes, codes_over values dictionary = Some codes ∧ zlen codes = zlen values ∧ Forall (λ c, 0 ≤ c < zlen dictionary) codes ∧ ∀ out, dict_loop dictionary codes out = Ok (out ++ values).
Proof.
  induction values as [|v values IH]; intros Hin; [exists []; split_and!; try done; intros out; by rewrite app_nil_r|].
  destruct IH as (codes&E&H1&H2&H3); [intros x Hx; apply Hin; set_solver|]. destruct (position_in v dictionary) as (i&Ei&Hi); [apply Hin; set_solver|]. pose proof (lookup_lt_Some _ _ _ Hi) as Hlt.
  exists (Z.of_nat i :: codes). split_and!; [unfold codes_over, code_of in *; cbn; rewrite Ei; cbn; by rewrite E| | |]; [rewrite !zlen_cons; lia|constructor; [unfold zlen; lia|done]|].
  intros out. cbn [dict_loop]. rewrite (proj2 (Z.ltb_ge (Z.of_nat i) 0)) by lia. rewrite (get_has dictionary (Z.of_nat i) v) by (lia || (unfold has; by rewrite Nat2Z.id)). rewrite H3. by rewrite <-app_assoc.
Qed.

(** * Exceptions *)

Lemma exceptions_ok value : ∀ values index, let '(positions, exceptions) := exceptions_of value index values in
  zlen positions = zlen exceptions ∧ zlen positions ≤ zlen values ∧ Forall (λ p, index ≤ p < index + zlen values) positions ∧ (∀ x, x ∈ exceptions → x ∈ values)
  ∧ ∀ pre count, 0 ≤ index → zlen pre = index → count = index + zlen values → sparse_loop count positions exceptions (pre ++ replicate (length values) value) = Some (Ok (pre ++ values)).
Proof.
  induction values as [|v values IH]; intros index; cbn [exceptions_of].
  { split_and!; try done. }
  specialize (IH (index + 1)). destruct (exceptions_of value (index + 1) values) as [positions exceptions]. destruct IH as (H1&H2&H3&H4&H5). pose proof (zlen_nonneg values).
  assert (∀ pre count w, 0 ≤ index → zlen pre = index → count = index + zlen (v :: values) → sparse_loop count positions exceptions ((pre ++ [w]) ++ replicate (length values) value) = Some (Ok (pre ++ w :: values))) as Hgo.
  { intros pre count w Hi Hpre ->. rewrite H5; [by rewrite <-app_assoc|lia|rewrite zlen_app, zlen_cons, zlen_nil; lia|rewrite zlen_cons; lia]. }
  destruct (Z.eqb_spec v value) as [->|Hne]; rewrite !zlen_cons; (split_and!; [lia|lia| |set_solver|]).
  - eapply Forall_impl; [exact H3|]. cbn. lia.
  - intros pre count Hi Hpre Hc. cbn [length replicate]. rewrite cons_middle, (app_assoc pre). apply Hgo; [done|done|]. rewrite zlen_cons. lia.
  - constructor; [lia|]. eapply Forall_impl; [exact H3|]. cbn. lia.
  - intros pre count Hi Hpre Hc. cbn [sparse_loop length replicate]. rewrite (proj2 (Z.ltb_ge index 0)), (proj2 (Z.leb_gt count index)) by lia. cbn [orb]. rewrite slot_put_ok by (rewrite zlen_app, zlen_cons, zlen_replicate; lia).
    rewrite some_bind. rewrite insert_app_r_alt by (unfold zlen in Hpre; lia). replace (Z.to_nat index - length pre)%nat with 0%nat by (unfold zlen in Hpre; lia). cbn [insert list_insert]. rewrite cons_middle, (app_assoc pre). apply Hgo; [done|done|]. rewrite zlen_cons. lia.
Qed.

(** * The greatest common divisor *)

(** A word is odd but for its zeros at the low end. *)
Lemma odd_part x : fits 64 x → x ≠ 0 → 0 ≤ trailing_zeros x < 64 ∧ Z.odd (x ≫ trailing_zeros x) = true ∧ x = (x ≫ trailing_zeros x) * 2 ^ trailing_zeros x ∧ 0 < x ≫ trailing_zeros x.
Proof.
  intros Hx Hne. destruct (trailing_zeros_least x Hx Hne) as [(H0&H1&H2) H3]. set (t := trailing_zeros x) in *. assert (x `mod` 2 ^ t = 0) as Hm.
  { apply Z.bits_inj'. intros i Hi. rewrite Z.bits_0. destruct (decide (i < t)); [rewrite Z.mod_pow2_bits_low by lia; apply H2; lia|]. by rewrite Z.mod_pow2_bits_high by lia. }
  pose proof (Z.div_mod x (2 ^ t) ltac:(pose proof (Z.pow_pos_nonneg 2 t); lia)) as E. rewrite Hm, Z.add_0_r in E. rewrite Z.shiftr_div_pow2 by done. split_and!; [lia|lia| |lia|].
  - rewrite <-Z.bit0_odd, Z.div_pow2_bits by lia. exact H1.
  - unfold fits in Hx. pose proof (Z.pow_pos_nonneg 2 t ltac:(lia) ltac:(lia)). nia.
Qed.

Lemma odd_gcd_pow a b t : Z.odd a = true → 0 ≤ t → Z.gcd a (b * 2 ^ t) = Z.gcd a b.
Proof.
  intros Ha Ht. apply Z.gcd_unique; [apply Z.gcd_nonneg|apply Z.gcd_divide_l|apply Z.divide_mul_l, Z.gcd_divide_r|]. intros q Hqa Hqb. apply Z.gcd_greatest; [done|].
  apply (Z.gauss q (2 ^ t)); [by rewrite Z.mul_comm|]. apply Zgcd_1_rel_prime. apply rel_prime_Zpower_r; [done|]. apply rel_prime_sym, prime_rel_prime; [apply prime_2|]. intros [k Hk].
  destruct Hqa as [m ->]. subst q. rewrite Z.mul_assoc, Z.odd_mul in Ha. by rewrite andb_false_r in Ha.
Qed.

Lemma gcd_sub_r a b : Z.gcd a (b - a) = Z.gcd a b.
Proof. rewrite <-(Z.gcd_sub_diag_r a b). done. Qed.

(** One turn: the odd parts, the lesser taken from the greater. *)
Lemma gcd_turn l r : Z.odd l = true → 0 < l → fits 64 l → fits 64 r → 0 < r → let o := r ≫ trailing_zeros r in
  shr r (trailing_zeros r) = Some o ∧ Z.odd o = true ∧ 0 < o ≤ r ∧ (Z.even r = true → 2 * o ≤ r) ∧ Z.gcd l o = Z.gcd l r.
Proof.
  intros Hl Hl0 Hfl Hfr Hr o. destruct (odd_part r Hfr ltac:(lia)) as (Ht&Ho&E&Hpos). fold o in Ho, E, Hpos. pose proof (Z.pow_pos_nonneg 2 (trailing_zeros r) ltac:(lia) ltac:(lia)).
  split_and!; [unfold shr; by rewrite (proj2 (Z.ltb_lt _ 64)) by lia|done|done|nia| |].
  - intros He. destruct (decide (trailing_zeros r = 0)) as [Hz|Hz]; [rewrite Hz, Z.mul_1_r in E; rewrite E, <-Z.negb_odd, Ho in He; done|].
    assert (2 ^ 1 ≤ 2 ^ trailing_zeros r) by (apply Z.pow_le_mono_r; lia). nia.
  - transitivity (Z.gcd l (o * 2 ^ trailing_zeros r)); [symmetry; apply odd_gcd_pow; [done|lia]|by rewrite <-E].
Qed.

Lemma gcd_loop_ok fuel : ∀ l r shift, Z.odd l = true → 0 < l → 0 < r → fits 64 l → fits 64 r → 0 ≤ shift < 64 → fits 64 (Z.gcd l r * 2 ^ shift) →
  (Z.even r = true → l * r < 2 ^ Z.of_nat fuel) → (Z.even r = false → l * r < 2 ^ (Z.of_nat fuel - 1)) → (0 < fuel)%nat → gcd_loop fuel l r shift = Some (Z.gcd l r * 2 ^ shift).
Proof.
  induction fuel as [|fuel IH]; intros l r shift Hl Hl0 Hr0 Hfl Hfr Hs Hfit Hev Hod Hf; [lia|]. destruct (gcd_turn l r Hl Hl0 Hfl Hfr Hr0) as (E&Ho&Hor&Hhalf&Hg). cbn [gcd_loop]. rewrite E, some_bind. set (o := r ≫ trailing_zeros r) in *.
  assert (l * o < 2 ^ Z.of_nat fuel) as Hprod.
  { destruct (Z.even r) eqn:Er.
    - specialize (Hhalf eq_refl). specialize (Hev eq_refl). rewrite Nat2Z.inj_succ, Z.pow_succ_r in Hev by lia. nia.
    - specialize (Hod eq_refl). replace (Z.of_nat (S fuel) - 1) with (Z.of_nat fuel) in Hod by lia. nia. }
  rewrite <-Hg in *. assert (∀ a b, a ≤ b → Z.odd a = true → Z.odd b = true → 0 < a → fits 64 b → Z.gcd a b = Z.gcd l o → a * b = l * o → (let right := b - a in if right =? 0 then shl a shift else gcd_loop fuel a right shift) = Some (Z.gcd l o * 2 ^ shift)) as Hgo.
  { intros a b Hab Ha Hb Ha0 Hfb Hgab Hp. cbv zeta. destruct (Z.eqb_spec (b - a) 0) as [Hz|Hz].
    - assert (a = b) as -> by lia. rewrite Z.gcd_diag_nonneg in Hgab by lia. subst b. unfold shl. rewrite (proj2 (Z.ltb_lt shift 64)), Z.shiftl_mul_pow2, wrap_id by (done || lia). done.
    - assert (Z.even (b - a) = true) as He by (rewrite Z.even_sub, <-!Z.negb_odd, Ha, Hb; done). assert (1 < 2 ^ Z.of_nat fuel) by nia. assert (0 < fuel)%nat by (destruct fuel; [by cbn in *|lia]).
      rewrite IH; [by rewrite gcd_sub_r, Hgab|done|done|lia|unfold fits in *; lia|unfold fits in *; lia|done|by rewrite gcd_sub_r, Hgab| |by rewrite He|done]. intros _. nia. }
  destruct (Z.ltb_spec o l); cbv beta iota.
  - apply Hgo; [lia|done|done|lia|done|by rewrite Z.gcd_comm|lia].
  - apply Hgo; [lia|done|done|lia| |done|done]. unfold fits in *. lia.
Qed.

Lemma trailing_zeros_lor a b : fits 64 a → fits 64 b → a ≠ 0 → b ≠ 0 → trailing_zeros (Z.lor a b) = Z.min (trailing_zeros a) (trailing_zeros b).
Proof.
  intros Ha Hb Ha0 Hb0. destruct (trailing_zeros_least a Ha Ha0) as [(A0&A1&A2) _]. destruct (trailing_zeros_least b Hb Hb0) as [(B0&B1&B2) _].
  assert (Z.lor a b ≠ 0) as Hne by (intros E; apply Z.lor_eq_0_iff in E; lia). destruct (trailing_zeros_least (Z.lor a b)) as [HL _]; [apply fits_lor; (done || lia)|done|].
  apply (least_bit_unique (Z.lor a b)); [done|]. split_and!; [lia| |].
  - rewrite Z.lor_spec. destruct (Z.min_spec (trailing_zeros a) (trailing_zeros b)) as [[_ ->]|[_ ->]]; [by rewrite A1|by rewrite B1, orb_true_r].
  - intros j Hj. rewrite Z.lor_spec, A2, B2 by lia. done.
Qed.

Lemma gcd_parts oa ob ta tb : Z.odd oa = true → Z.odd ob = true → 0 ≤ ta → 0 ≤ tb → Z.gcd (oa * 2 ^ ta) (ob * 2 ^ tb) = Z.gcd oa ob * 2 ^ Z.min ta tb.
Proof.
  intros Ha Hb Hta Htb. destruct (Z.le_gt_cases ta tb) as [Hle|Hgt].
  - rewrite Z.min_l by done. assert (ob * 2 ^ tb = ob * 2 ^ (tb - ta) * 2 ^ ta) as -> by (rewrite <-Z.mul_assoc, <-Z.pow_add_r by lia; do 2 f_equal; lia).
    rewrite Z.gcd_mul_mono_r_nonneg by (apply Z.pow_nonneg; lia). by rewrite odd_gcd_pow by (done || lia).
  - rewrite Z.min_r by lia. assert (oa * 2 ^ ta = oa * 2 ^ (ta - tb) * 2 ^ tb) as -> by (rewrite <-Z.mul_assoc, <-Z.pow_add_r by lia; do 2 f_equal; lia).
    rewrite Z.gcd_mul_mono_r_nonneg by (apply Z.pow_nonneg; lia). by rewrite Z.gcd_comm, odd_gcd_pow, Z.gcd_comm by (done || lia).
Qed.

(** The binary algorithm ends, and is [Z.gcd]. *)
Lemma gcd_ok a b : fits 64 a → fits 64 b → gcd a b = Some (Z.gcd a b).
Proof.
  intros Ha Hb. unfold gcd. destruct (Z.eqb_spec a 0) as [->|Ha0]; [rewrite Z.gcd_0_l_nonneg by (unfold fits in Hb; lia); done|]. destruct (Z.eqb_spec b 0) as [->|Hb0]; [rewrite Z.gcd_0_r_nonneg by (unfold fits in Ha; lia); done|].
  cbv zeta. rewrite trailing_zeros_lor by done. destruct (odd_part a Ha Ha0) as (Hta&Hoa&Ea&Hpa). destruct (odd_part b Hb Hb0) as (Htb&Hob&Eb&Hpb). unfold shr at 1. rewrite (proj2 (Z.ltb_lt (trailing_zeros a) 64)) by lia. rewrite some_bind.
  set (oa := a ≫ trailing_zeros a) in *. set (ta := trailing_zeros a) in *. set (tb := trailing_zeros b) in *. set (ob := b ≫ tb) in *.
  assert (Z.gcd oa b * 2 ^ Z.min ta tb = Z.gcd a b) as Hg.
  { transitivity (Z.gcd (oa * 2 ^ ta) (ob * 2 ^ tb)); [|by rewrite <-Ea, <-Eb]. rewrite gcd_parts by (done || lia). f_equal. rewrite <-(odd_gcd_pow oa ob tb) by (done || lia). by rewrite <-Eb. }
  rewrite <-Hg. pose proof (Z.pow_pos_nonneg 2 ta ltac:(lia) ltac:(lia)). assert (oa ≤ a) by nia. apply gcd_loop_ok; [done|done|unfold fits in Hb; lia|unfold fits in *; lia|done|lia| | | |lia].
  - rewrite Hg. unfold fits in *. pose proof (Z.gcd_nonneg a b). pose proof (Z.divide_pos_le (Z.gcd a b) a ltac:(lia) (Z.gcd_divide_l a b)). lia.
  - intros _. unfold fits in *. change (Z.of_nat 129) with 129. assert (oa * b < 2 ^ 64 * 2 ^ 64) by nia. lia.
  - intros _. unfold fits in *. change (Z.of_nat 129 - 1) with 128. assert (oa * b < 2 ^ 64 * 2 ^ 64) by nia. lia.
Qed.

(** * Strides *)

Lemma stride_loop_ok values base : ∀ d, fits 64 d → ∃ r, stride_loop values base d = Some r ∧ ∀ g, r = Some g → 1 < g ∧ fits 64 g ∧ (g | d) ∧ ∀ v, v ∈ values → (g | offset_from v base).
Proof.
  induction values as [|v values IH]; intros d Hd; cbn [stride_loop].
  { eexists. split; [done|]. intros g Hg. destruct (Z.ltb_spec 1 d); [|done]. injection Hg as <-. split_and!; [done|done|apply Z.divide_refl|]. by intros x ?%elem_of_nil. }
  pose proof (offset_fits v base) as Ho. rewrite gcd_ok by done. rewrite some_bind. assert (fits 64 (Z.gcd d (offset_from v base))) as Hg.
  { unfold fits in *. pose proof (Z.gcd_nonneg d (offset_from v base)). destruct (decide (d = 0)) as [->|]; [rewrite Z.gcd_0_l_nonneg; lia|]. pose proof (Z.divide_pos_le (Z.gcd d (offset_from v base)) d ltac:(lia) (Z.gcd_divide_l _ _)). lia. }
  destruct (Z.eqb_spec (Z.gcd d (offset_from v base)) 1); [by eexists|]. destruct (IH _ Hg) as (r&->&Hr). exists r. split; [done|]. intros g ->. destruct (Hr g eq_refl) as (H1&H2&H3&H4).
  split_and!; [done|done|eapply Z.divide_trans; [exact H3|apply Z.gcd_divide_l]|]. intros x [->|Hx]%elem_of_cons; [eapply Z.divide_trans; [exact H3|apply Z.gcd_divide_r]|by apply H4].
Qed.

Lemma to_i64_add a b : to_i64 (a + to_i64 b) = to_i64 (a + b).
Proof. unfold to_i64. f_equal. replace (a + (wrap 64 (b + 2 ^ 63) - 2 ^ 63) + 2 ^ 63) with (wrap 64 (b + 2 ^ 63) + a) by lia. rewrite wrap_add_wrap. f_equal. lia. Qed.

Lemma steps_of_ok values base g : 1 < g → i64s values → (∀ v, v ∈ values → (g | offset_from v base)) →
  ∃ st, steps_of values base g = Some st ∧ zlen st = zlen values ∧ i64s st ∧ strided st g base = Ok values.
Proof.
  intros Hg Hi Hd. assert (∃ st, steps_of values base g = Some st ∧ zlen st = zlen values ∧ i64s st ∧ Forall (λ s, 0 ≤ s) st ∧ (λ step, wrapping_add base (to_i64 (wrap 64 (to_u64 step * g)))) <$> st = values) as (st&E&H1&H2&H3&H4).
  { induction values as [|v values IH]; [by exists []|]. apply Forall_cons in Hi as [Hv Hi]. destruct IH as (st&E&H1&H2&H3&H4); [done|intros x Hx; apply Hd; set_solver|]. pose proof (offset_fits v base) as Ho.
    destruct (Hd v ltac:(set_solver)) as [q Hq]. assert (offset_from v base / g = q) as Hdiv by (rewrite Hq; apply Z.div_mul; lia). assert (0 ≤ q < 2 ^ 63) as Hqb by (unfold fits in Ho; rewrite Hq in Ho; nia).
    assert (i64_ok q) as Hqi by (unfold i64_ok; lia). exists (q :: st). cbn [steps_of]. rewrite Hdiv, (proj2 (i64_okb_spec q)), E by done. split_and!; [done|by rewrite !zlen_cons, H1|by constructor|constructor; [lia|done]|].
    rewrite fmap_cons, H4. f_equal. unfold to_u64 at 1. rewrite (wrap_id 64 q), <-Hq by (unfold fits; lia). rewrite wrap_id by done. unfold wrapping_add. rewrite to_i64_add. by apply value_from_offset. }
  exists st. split_and!; [done|done|done|]. unfold strided. rewrite (proj2 (Z.ltb_ge _ 0)); [by rewrite H4|]. apply Z.nlt_ge. rewrite foldl_lor_neg. intros [?|Hn]; [lia|]. apply Exists_exists in Hn as (x&Hx&Hneg). rewrite Forall_forall in H3. specialize (H3 x Hx). lia.
Qed.

(** * What one pass says *)

Lemma foldl_min_ok rest : ∀ v, (foldl Z.min v rest = v ∨ foldl Z.min v rest ∈ rest) ∧ foldl Z.min v rest ≤ v ∧ ∀ x, x ∈ rest → foldl Z.min v rest ≤ x.
Proof.
  induction rest as [|y rest IH]; intros v; cbn [foldl]; [split_and!; [by left|lia|by intros x ?%elem_of_nil]|]. destruct (IH (Z.min v y)) as (H1&H2&H3). split_and!; [|lia|].
  - destruct H1 as [H1|H1]; [|right; set_solver]. rewrite H1. destruct (Z.min_spec v y) as [[_ ->]|[_ ->]]; [by left|right; set_solver].
  - intros x [->|Hx]%elem_of_cons; [lia|by apply H3].
Qed.

Lemma least_ok values : values ≠ [] → ∃ m, least values = Some m ∧ m ∈ values ∧ ∀ x, x ∈ values → m ≤ x.
Proof.
  destruct values as [|v rest]; [done|]. intros _. destruct (foldl_min_ok rest v) as (H1&H2&H3). exists (foldl Z.min v rest). split_and!; [done|destruct H1 as [->|?]; set_solver|]. intros x [->|Hx]%elem_of_cons; [done|by apply H3].
Qed.

Lemma profile_loop_ok rest : ∀ before p last, let q := profile_loop before rest p last in
  p_min q = foldl Z.min (p_min p) rest ∧ p_max p ≤ p_max q ∧ (∀ x, x ∈ rest → x ≤ p_max q) ∧ p_runs p + 1 ≤ p_runs q ∧ (p_runs q = p_runs p + 1 → Forall (λ x, x = before) rest).
Proof.
  induction rest as [|y rest IH]; intros before p last; cbn [profile_loop foldl].
  { cbn. split_and!; [done|lia|by intros x ?%elem_of_nil|lia|done]. }
  match goal with |- context [profile_loop y rest ?p' ?l'] => destruct (IH y p' l') as (H1&H2&H3&H4&H5); set (q := profile_loop y rest p' l') in * end. cbn [p_min p_max p_runs] in *. unfold bump in *.
  split_and!; [done|lia|intros x [->|Hx]%elem_of_cons; [lia|by apply H3]|destruct (negb _); lia|]. intros Hq. destruct (Z.eqb_spec before y) as [->|]; cbn [negb] in *; [|lia]. constructor; [done|]. apply H5. lia.
Qed.

Lemma Profile_of_ok values p : Profile_of values = Some p → least values = Some (p_min p) ∧ (∀ x, x ∈ values → p_min p ≤ x ≤ p_max p) ∧ (p_runs p = 1 → ∀ x y, x ∈ values → y ∈ values → x = y) ∧ values ≠ [].
Proof.
  destruct values as [|v rest]; [done|]. cbn [Profile_of]. intros [= <-]. match goal with |- context [profile_loop v rest ?p' ?l'] => destruct (profile_loop_ok rest v p' l') as (H1&H2&H3&H4&H5); set (q := profile_loop v rest p' l') in * end.
  cbn [p_min p_max p_runs] in *. destruct (foldl_min_ok rest v) as (_&M2&M3). rewrite <-H1 in M2, M3. split_and!; [cbn [least]; by rewrite <-H1| | |done].
  - intros x [->|Hx]%elem_of_cons; [lia|]. split; [by apply M3|by apply H3].
  - intros Hr. specialize (H5 ltac:(lia)). rewrite Forall_forall in H5. assert (∀ x, x ∈ v :: rest → x = v) as Hall by (intros x [->|Hx]%elem_of_cons; [done|by apply H5]). intros x y Hx Hy. by rewrite (Hall x), (Hall y).
Qed.

Lemma spread_loop_ok fuel : ∀ l d best, (length l < fuel)%nat → ∃ d' b, spread_loop fuel l d best = Some (d', b) ∧ (l ≠ [] ∨ is_Some best → is_Some b) ∧ ∀ v c, b = Some (v, c) → best = Some (v, c) ∨ v ∈ l.
Proof.
  induction fuel as [|fuel IH]; intros l d best Hf; [lia|]. cbn [spread_loop]. destruct l as [|v l].
  { exists d, best. split_and!; [done|by intros [?|?]|]. intros v c ->. by left. }
  destruct (same_ahead_split v (v :: l)) as (rest&E1&E2). set (n := same_ahead v (v :: l)) in *. assert (1 ≤ n)%nat as Hn by (unfold n; cbn [same_ahead]; rewrite Z.eqb_refl; lia).
  assert (length (v :: l) = n + length rest)%nat as Hlen by (rewrite E1 at 1; by rewrite length_app, length_replicate). cbv zeta. match goal with |- context [spread_loop fuel _ _ ?x] => set (best' := x) end.
  assert (is_Some best' ∧ (best' = best ∨ best' = Some (v, Z.of_nat n))) as [Hs Hb].
  { unfold best'. destruct best as [[? seen]|]; [|split; [by eexists|by right]]. case_match; [split; [by eexists|by right]|split; [by eexists|by left]]. }
  destruct (IH (drop n (v :: l)) (d + 1) best') as (d'&b&->&H1&H2); [rewrite E2; lia|]. exists d', b. split_and!; [done|intros _; apply H1; by right|]. intros w c Hw. destruct (H2 w c Hw) as [Hbest|Hin].
  - destruct Hb as [Hb|Hb]; rewrite Hb in Hbest; [by left|]. injection Hbest as <- _. right. set_solver.
  - right. rewrite E1. rewrite E2 in Hin. set_solver.
Qed.

Lemma spread_of_ok values : ∃ d b, spread_of values = Some (d, b) ∧ (values ≠ [] → is_Some b) ∧ ∀ v c, b = Some (v, c) → v ∈ values.
Proof.
  unfold spread_of, sorted. pose proof (merge_sort_Permutation Z.le values) as Hp. destruct (spread_loop_ok (S (length values)) (merge_sort Z.le values) 0 None) as (d&b&E&H1&H2); [rewrite Hp; lia|]. exists d, b. split_and!; [done| |].
  - intros Hne. apply H1. left. intros Hnil. rewrite Hnil in Hp. by apply Permutation_nil_l in Hp.
  - intros v c Hb. destruct (H2 v c Hb) as [?|Hin]; [done|]. by rewrite Hp in Hin.
Qed.

Lemma majority_in values v c : majority values = Some (v, c) → v ∈ values.
Proof.
  destruct values as [|first rest]; [done|]. unfold majority. set (values := first :: rest). set (cand := (foldl vote (first, 0) values).1). cbv zeta. destruct (Z.ltb_spec (zlen values) (zlen (filter (λ value, value = cand) values) * 2)) as [Hlt|]; [|done].
  intros [= <- _]. destruct (filter (λ value, value = cand) values) as [|x l] eqn:E; [rewrite (@zlen_nil Z) in Hlt; pose proof (zlen_nonneg values); lia|].
  assert (x ∈ filter (λ value, value = cand) values) as Hx by (rewrite E; set_solver). apply list_elem_of_filter in Hx as [-> Hx]. done.
Qed.

(** * Packed units *)

Lemma zlen_put_words p : zlen (concat (put_u64 <$> p)) = 8 * zlen p.
Proof. induction p as [|w p IH]; [done|]. rewrite fmap_cons. cbn [concat]. rewrite zlen_app, zlen_cons, IH. unfold put_u64. rewrite zlen_le_bytes. lia. Qed.

Lemma words_ok p : bytes_ok (concat (put_u64 <$> p)).
Proof. induction p as [|w p IH]; [by constructor|]. rewrite fmap_cons. cbn [concat]. apply Forall_app. split; [apply le_bytes_ok|exact IH]. Qed.

(** Words written and read again. *)
Lemma words_of_words p : Forall (fits 64) p → words_of (concat (put_u64 <$> p)) = p.
Proof.
  intros Hp. apply has_ext; [rewrite words_of_len, zlen_put_words, Z.mul_comm, Z.div_mul by lia; done|]. intros i Hi. rewrite words_of_len, zlen_put_words, Z.mul_comm, Z.div_mul in Hi by lia.
  exists (byte_at p i). split; [|by apply has_byte_at]. pose proof (has_byte_at p i Hi) as Hw. set (w := byte_at p i) in *. assert (byte_at (words_of (concat (put_u64 <$> p))) i = w) as <-.
  2: { apply has_byte_at. rewrite words_of_len, zlen_put_words, Z.mul_comm, Z.div_mul by lia. done. }
  rewrite words_of_at by (rewrite zlen_put_words, Z.mul_comm, Z.div_mul by lia; done). unfold has in Hw. rewrite <-(take_drop_middle _ _ _ Hw). rewrite fmap_app, concat_app, fmap_cons. cbn [concat].
  assert (zlen (take (Z.to_nat i) p) = i) as Hz by (rewrite zlen_take; lia). rewrite slice_skip by (rewrite zlen_put_words; lia). rewrite zlen_put_words, Hz. rewrite slice_hit by (unfold put_u64; rewrite ?zlen_le_bytes; lia).
  apply le_val_bytes. exact (Forall_lookup_1 _ _ _ _ Hp Hw).
Qed.

Lemma required_width_bounds l : Forall (fits 64) l → 0 ≤ required_width l ≤ 64.
Proof.
  intros Hl. split; [|by apply required_width_ok]. unfold required_width, leading_zeros. match goal with |- context [?m =? 0] => pose proof (Z.log2_nonneg m); destruct (m =? 0) end; lia.
Qed.

Definition offsets_of (base : Z) (unit_ : list Z) : list Z := (λ value, offset_from value base) <$> unit_.

Lemma offsets_fit base unit_ : Forall (fits 64) (offsets_of base unit_).
Proof. apply Forall_fmap, Forall_forall. intros x _. apply offset_fits. Qed.

Lemma offsets_back base unit_ : i64s unit_ → (λ offset, value_from offset base) <$> offsets_of base unit_ = unit_.
Proof. induction 1 as [|v l Hv _ IH]; [done|]. unfold offsets_of in *. rewrite !fmap_cons, IH. by rewrite value_from_offset. Qed.

(** The bytes after the base and the width of a unit. *)
Lemma unit_body_ok unit_ base out : i64s unit_ → zlen unit_ ≤ VALUES → let width := required_width (offsets_of base unit_) in ∃ body, bytes_ok body
  ∧ (zlen unit_ = VALUES → ∃ p, pack_with U64 (offsets_of base unit_) width (replicate (Z.to_nat (packed_len U64 width)) 0) [] = Some (Ok p) ∧ body = concat (put_u64 <$> p) ∧ zlen body = unit_len width
      ∧ unpack_unit_into body width (replicate (Z.to_nat VALUES) 0) (λ offset, value_from offset base) = Some (Ok unit_))
  ∧ (zlen unit_ < VALUES → pack_tail (offsets_of base unit_) width out = Some (Ok (out ++ body)) ∧ zlen body = tail_len (zlen unit_) width
      ∧ unpack_tail_into body width (replicate (Z.to_nat (zlen unit_)) 0) (λ offset, value_from offset base) = Some (Ok unit_)).
Proof.
  intros Hi Hle width. pose proof (offsets_fit base unit_) as Hf. pose proof (required_width_bounds _ Hf) as Hw. fold width in Hw. assert (zlen (offsets_of base unit_) = zlen unit_) as Hz by apply zlen_fmap.
  assert (Forall (fits width) (offsets_of base unit_)) as Hfit by (apply required_width_ok; [done|lia|unfold width; lia]). destruct (decide (zlen unit_ = VALUES)) as [Hv|Hv].
  - destruct (pack_with_ok U64 (offsets_of base unit_) width (replicate (Z.to_nat (packed_len U64 width)) 0) []) as ([p|]&E&Hp); [lia|done|exact Hw| | |done].
    { rewrite zlen_replicate. unfold packed_len. pose proof (widths U64) as (_&HL&_). nia. }
    destruct Hp as (_&Hl&Hpf&Hvals). exists (concat (put_u64 <$> p)). split_and!; [apply words_ok| |lia]. intros _. exists p. assert (zlen (concat (put_u64 <$> p)) = unit_len width) as Hlen by (rewrite zlen_put_words, Hl; unfold unit_len; lia).
    split_and!; [done|done|done|]. destruct (unpack_unit_values (concat (put_u64 <$> p)) width (λ offset, value_from offset base) (replicate (Z.to_nat VALUES) 0) Hw Hlen (words_ok p)) as (o&->&Ho); [done|].
    rewrite words_of_words in Ho by done. do 2 f_equal. rewrite <-(offsets_back base unit_) by done. eapply unit_values_unique; [exact Ho|]. by apply unit_values_fmap.
  - assert (∃ body, bytes_ok body ∧ pack_linear (offsets_of base unit_) width out = Some (Ok (out ++ body)) ∧ zlen body = tail_len (zlen unit_) width
      ∧ ∀ i, 0 ≤ i < zlen unit_ → field body (i * width) width = byte_at (offsets_of base unit_) i) as (body&Hb&Hpack&Hlen&Hfield).
    { destruct (pack_linear_ok (offsets_of base unit_) width out Hf Hw) as ([o|]&E&Hr); [|done]. destruct Hr as (body&->&Hb&Hl&_&Hat). exists body. rewrite Hz in Hl, Hat. split_and!; [done|done|done|].
      intros i Hlt. specialize (Hat [] i ltac:(done) Hlt). by rewrite app_nil_r in Hat. }
    exists body. split_and!; [done|lia|]. intros Hlt. split_and!; [|done|].
    + unfold pack_tail, check_tail. rewrite Hz, (proj2 (Z.leb_gt VALUES _)), (proj2 (Z.ltb_ge 64 width)) by lia. cbn [and_then]. apply Hpack.
    + pose proof (zlen_nonneg unit_). assert (zlen (replicate (Z.to_nat (zlen unit_)) 0) = zlen unit_) as Hr by (rewrite zlen_replicate; lia).
      destruct (unpack_tail_into_ok body width (replicate (Z.to_nat (zlen unit_)) 0) (λ offset, value_from offset base)) as (o&->&Ho&Hhas); [done|done|lia|rewrite Hr, Hlen; unfold tail_len; apply div_ceil_le; nia|].
      do 2 f_equal. rewrite <-(offsets_back base unit_) by done. apply has_ext; [rewrite zlen_fmap, Hz; lia|]. intros i Hlt'. rewrite Ho, Hr in Hlt'. exists (value_from (byte_at (offsets_of base unit_) i) base). rewrite <-Hfield at 1 by done. split; [apply Hhas; lia|].
      unfold has. rewrite list_lookup_fmap, (has_byte_at (offsets_of base unit_) i) by lia. done.
Qed.

Lemma encode_unit_ok unit_ out : i64s unit_ → 0 < zlen unit_ ≤ VALUES → ∃ bytes, encode_unit unit_ out = Some (Ok (out ++ bytes)) ∧ bytes_ok bytes
  ∧ ∀ rest fuel left_ values, zlen unit_ = Z.min left_ VALUES → packed_loop (S fuel) left_ (bytes ++ rest) values = packed_loop fuel (left_ - zlen unit_) rest (values ++ unit_).
Proof.
  intros Hi Hz. assert (unit_ ≠ []) as Hne by (intros ->; rewrite (@zlen_nil Z) in Hz; lia). destruct (least_ok unit_ Hne) as (base&Hb&Hin&_). assert (i64_ok base) as Hbase by (rewrite Forall_forall in Hi; by apply Hi).
  set (width := required_width (offsets_of base unit_)). pose proof (required_width_bounds _ (offsets_fit base unit_)) as Hw. fold width in Hw. assert (fits 8 width) as Hw8 by (unfold fits; lia).
  destruct (unit_body_ok unit_ base ((out ++ put_i64 base) ++ put_u8 width) Hi ltac:(lia)) as (body&Hbody&Hfull&Htail). fold width in Hfull, Htail. exists (put_i64 base ++ put_u8 width ++ body). split_and!.
  - unfold encode_unit. rewrite Hb. cbn [default from_option id]. fold (offsets_of base unit_). fold width. rewrite (proj2 (Z.ltb_lt width 256)) by lia. cbn [negb]. destruct (Z.eqb_spec (zlen unit_) VALUES) as [E|E].
    + destruct (Hfull E) as (p&->&->&_). cbn [and_then]. by rewrite !app_assoc.
    + destruct (Htail ltac:(lia)) as (->&_). by rewrite !app_assoc.
  - apply Forall_app; split; [apply le_bytes_ok|]. apply Forall_app; split; [|done]. apply Forall_singleton. exact Hw8.
  - intros rest fuel left_ values Hl. cbn [packed_loop]. rewrite (proj2 (Z.leb_gt left_ 0)) by lia. rewrite <-!app_assoc, read_i64_app by done. cbn [and_then]. rewrite read_u8_app by done. cbn [and_then]. rewrite <-Hl. destruct (Z.eqb_spec (zlen unit_) VALUES) as [E|E].
    + destruct (Hfull E) as (p&_&_&Hlen&Hu). rewrite read_bytes_app by done. cbn [and_then]. rewrite E, Hu. done.
    + destruct (Htail ltac:(lia)) as (_&Hlen&Hu). rewrite read_bytes_app by done. cbn [and_then]. rewrite Hu. done.
Qed.

Lemma encode_units_ok fuel : ∀ values out, (length values ≤ fuel)%nat → i64s values → ∃ bytes, encode_units (units fuel values) out = Some (Ok (out ++ bytes)) ∧ bytes_ok bytes
  ∧ ∀ rest fuel acc, (Z.to_nat (div_ceil (zlen values) VALUES) < fuel)%nat → packed_loop fuel (zlen values) (bytes ++ rest) acc = Some (Ok (acc ++ values, rest)).
Proof.
  induction fuel as [|fuel IH]; intros values out Hf Hi.
  { destruct values; [|cbn in Hf; lia]. exists []. cbn. rewrite app_nil_r. split_and!; [done|by constructor|]. intros rest [|fuel] acc Hfuel; [lia|]. cbn. by rewrite app_nil_r. }
  destruct values as [|v values].
  { exists []. cbn. rewrite app_nil_r. split_and!; [done|by constructor|]. intros rest [|fuel2] acc Hfuel; [lia|]. cbn. by rewrite app_nil_r. }
  set (all := v :: values) in *. cbn [units encode_units]. unfold all at 1. assert (0 < zlen all) as Hpos by (unfold all; rewrite zlen_cons; pose proof (zlen_nonneg values); lia).
  assert (0 < zlen (take (Z.to_nat VALUES) all) ≤ VALUES) as Hz by (rewrite zlen_take; unfold VALUES in *; lia).
  destruct (encode_unit_ok (take (Z.to_nat VALUES) all) out) as (b1&E1&Hb1&Hr1); [by apply Forall_take|done|]. cbn [encode_units]. rewrite E1. cbn [and_then].
  destruct (IH (drop (Z.to_nat VALUES) all) (out ++ b1)) as (b2&E2&Hb2&Hr2); [rewrite length_drop; unfold VALUES; unfold all in *; cbn [length] in *; lia|by apply Forall_drop|]. rewrite E2. exists (b1 ++ b2).
  split_and!; [by rewrite app_assoc|by apply Forall_app|]. intros rest [|fuel2] acc Hfuel; [lia|]. rewrite <-app_assoc, Hr1 by (rewrite zlen_take; unfold VALUES; lia).
  assert (zlen all - zlen (take (Z.to_nat VALUES) all) = zlen (drop (Z.to_nat VALUES) all)) as -> by (rewrite zlen_take, zlen_drop; unfold VALUES; lia). rewrite Hr2; [by rewrite <-app_assoc, take_drop|].
  unfold div_ceil in *. rewrite zlen_drop. unfold VALUES in *. replace (Z.of_nat (Z.to_nat 1024)) with 1024 by lia. destruct (Z.le_gt_cases (zlen all) 1024).
  - rewrite Z.max_l by lia. change ((0 + (1024 - 1)) / 1024) with 0. assert (1 ≤ (zlen all + (1024 - 1)) / 1024) by (apply Z.div_le_lower_bound; lia). lia.
  - rewrite Z.max_r by lia. replace (zlen all + (1024 - 1)) with (zlen all - 1024 + (1024 - 1) + 1 * 1024) in Hfuel by lia. rewrite Z.div_add in Hfuel by lia. pose proof (Z.div_pos (zlen all - 1024 + (1024 - 1)) 1024 ltac:(lia) ltac:(lia)). lia.
Qed.

(** * Chunks *)

(** [bytes] is a chunk of [values], whatever comes after it. *)
Definition chunk_ok (bytes values : list Z) : Prop :=
  bytes_ok bytes ∧ 5 ≤ zlen bytes ∧ ∀ rest fuel, (length bytes ≤ fuel)%nat → decode_chunk fuel (bytes ++ rest) = Some (Ok (values, rest)).

Lemma header_len kind n : zlen (put_u8 (tag kind) ++ put_u32 n) = 5.
Proof. unfold put_u8, put_u32. rewrite zlen_app, zlen_le_bytes. done. Qed.

Lemma header_ok kind n : bytes_ok (put_u8 (tag kind) ++ put_u32 n).
Proof. apply Forall_app. split; [by destruct kind; repeat constructor|apply le_bytes_ok]. Qed.

(** A chunk is its kind and its count and what the kind reads after them. *)
Lemma chunk_intro kind values body : zlen values < 2 ^ 32 → bytes_ok body → (∀ rest fuel, (length body + 4 ≤ fuel)%nat → decode_chunk (S fuel) ((put_u8 (tag kind) ++ put_u32 (zlen values)) ++ body ++ rest) = Some (Ok (values, rest))) →
  chunk_ok ((put_u8 (tag kind) ++ put_u32 (zlen values)) ++ body) values.
Proof.
  intros Hn Hb Hd. pose proof (header_len kind (zlen values)) as Hh. split_and!; [apply Forall_app; split; [apply header_ok|done]|rewrite zlen_app; pose proof (zlen_nonneg body); lia|].
  intros rest fuel Hf. rewrite length_app in Hf. unfold zlen at 1 in Hh. destruct fuel as [|fuel]; [lia|]. rewrite <-app_assoc. apply Hd. lia.
Qed.

Lemma decode_chunk_header kind n rest fuel : fits 32 n → decode_chunk (S fuel) ((put_u8 (tag kind) ++ put_u32 n) ++ rest) = match kind with
      | Constant => and_then (Some (read_i64 rest)) (λ '(value, r), Some (Ok (replicate (Z.to_nat n) value, r)))
      | Packed => packed_loop (S (Z.to_nat (div_ceil n VALUES))) n rest []
      | Delta => and_then (Some (read_i64 rest)) (λ '(first, r), and_then (decode_chunk fuel r) (λ '(values, r), and_then (Some (check_count (zlen values + 1) n)) (λ _, Some (Ok (undelta first values, r)))))
      | Rle => and_then (decode_chunk fuel rest) (λ '(rv, r), and_then (decode_chunk fuel r) (λ '(rl, r), and_then (expanded rv rl n) (λ values, Some (Ok (values, r)))))
      | Dict => and_then (decode_chunk fuel rest) (λ '(dictionary, r), and_then (decode_chunk fuel r) (λ '(codes, r), and_then (Some (dict_loop dictionary codes [])) (λ values, and_then (Some (check_count (zlen values) n)) (λ _, Some (Ok (values, r))))))
      | Sparse => and_then (Some (read_i64 rest)) (λ '(value, r), and_then (Some (read_u32 r)) (λ '(exception_count, r), and_then (decode_chunk fuel r) (λ '(positions, r), and_then (decode_chunk fuel r) (λ '(exceptions, r),
          if negb (zlen positions =? exception_count) || negb (zlen exceptions =? exception_count) then Some (Err (Internal "a sparse chunk disagrees about its exception count")) else
          and_then (sparse_loop n positions exceptions (replicate (Z.to_nat n) value)) (λ values, Some (Ok (values, r)))))))
      | Strided => and_then (Some (read_i64 rest)) (λ '(base, r), and_then (Some (read_u64 r)) (λ '(stride, r), and_then (decode_chunk fuel r) (λ '(steps, r), and_then (Some (check_count (zlen steps) n)) (λ _,
          and_then (Some (strided steps stride base)) (λ values, Some (Ok (values, r)))))))
      end.
Proof.
  intros Hn. cbn [decode_chunk]. rewrite <-app_assoc, read_u8_app by (by destruct kind; vm_compute). cbn [and_then]. rewrite from_tag_tag. cbn [and_then]. rewrite read_u32_app by done. cbn [and_then]. by destruct kind.
Qed.

(** * Each kind *)

Definition applies (kind : Kind) (values : list Z) : Prop :=
  match kind with
  | Packed => True
  | Constant => values ≠ [] ∧ ∀ x y, x ∈ values → y ∈ values → x = y
  | Delta => values ≠ [] ∧ is_Some (deltas values)
  | Rle | Dict | Sparse => values ≠ []
  | Strided => values ≠ [] ∧ ∃ g, stride_of values = Some (Some g)
  end.

Lemma chunk_count_fits (values : list Z) : zlen values < 2 ^ 32 → fits 32 (zlen values).
Proof. intros H. pose proof (zlen_nonneg values). unfold fits. lia. Qed.

Section kinds.
Context {St : Type} `{!Chooser St} (rec : list Z → Z → Enc (St:=St) (list Z)) (values : list Z) (depth : Z).
Context (Hi : i64s values) (Hn : zlen values < 2 ^ 32).

Definition encodes (m : Enc (St:=St) (list Z)) (values : list Z) : Prop := ∀ s, ∃ bytes s', m s = Some (Ok bytes, s') ∧ chunk_ok bytes values.

Context (Hrec : ∀ values, i64s values → zlen values < 2 ^ 32 → encodes (rec values (depth + 1)) values).

Abbreviation head kind := (put_u8 (tag kind) ++ put_u32 (zlen values)).

Definition outcome (kind : Kind) (m : Enc (St:=St) (option (list Z))) : Prop :=
  ∀ s, ∃ r s', m s = Some (Ok r, s') ∧ match r with Some bytes => chunk_ok bytes values | None => ¬ applies kind values end.

Lemma constant_ok : outcome Constant (encode_body rec Constant values depth (head Constant)).
Proof.
  intros s. cbn [encode_body]. destruct values as [|first rest] eqn:Ev; [eexists _, s; split; [done|]; by intros [? _]|]. rewrite <-Ev in *. destruct (existsb _ values) eqn:E.
  - eexists _, s. split; [done|]. intros [_ Hsame]. apply existsb_exists in E as (x&Hx%list_elem_of_In&Hne%negb_true_iff%Z.eqb_neq). apply Hne. apply Hsame; [done|]. rewrite Ev. set_solver.
  - eexists _, s. split; [done|]. assert (Forall (λ x, x = first) values) as Hall.
    { apply Forall_forall. intros x Hx%list_elem_of_In. destruct (decide (x = first)); [done|]. exfalso. assert (existsb (λ value, negb (value =? first)) values = true) as Ht by (apply existsb_exists; exists x; split; [done|]; by apply negb_true_iff, Z.eqb_neq). congruence. }
    assert (i64_ok first) as Hf by (rewrite Ev in Hi; by apply Forall_cons in Hi as [? _]). apply chunk_intro; [done|apply le_bytes_ok|]. intros tail fuel _. rewrite decode_chunk_header by by apply chunk_count_fits. rewrite read_i64_app by done. cbn [and_then].
    do 3 f_equal. unfold zlen. rewrite Nat2Z.id. clear -Hall. induction Hall as [|x l -> Hl IH]; [done|]. cbn [length replicate]. by rewrite IH.
Qed.

Lemma packed_ok : outcome Packed (encode_body rec Packed values depth (head Packed)).
Proof.
  intros s. cbn [encode_body]. unfold and_also, lift, encode_packed. destruct (encode_units_ok (length values) values (head Packed)) as (bytes&->&Hb&Hr); [lia|done|]. rewrite some_bind. eexists _, s. split; [done|].
  apply chunk_intro; [done|done|]. intros rest fuel _. rewrite decode_chunk_header by by apply chunk_count_fits. rewrite Hr by lia. done.
Qed.

(** A chunk held inside, of the fuel its length asks. *)
Lemma inner_ok inner held rest fuel : chunk_ok inner held → (length inner ≤ fuel)%nat → decode_chunk fuel (inner ++ rest) = Some (Ok (held, rest)).
Proof. intros (_&_&H) Hf. by apply H. Qed.

Lemma delta_ok : outcome Delta (encode_body rec Delta values depth (head Delta)).
Proof.
  intros s. cbn [encode_body]. destruct values as [|first rest] eqn:Ev; [eexists _, s; split; [done|]; by intros [? _]|]. rewrite <-Ev in *. destruct (deltas values) as [ds|] eqn:Ed.
  2: { eexists _, s. split; [done|]. intros [_ Hs]. rewrite Ed in Hs. by destruct Hs. }
  rewrite Ev in Ed. rewrite Ev in Hi. destruct (deltas_ok rest first ds Hi Ed) as (Hu&Hl&Hds). apply Forall_cons in Hi as [Hfirst _]. assert (zlen values = zlen ds + 1) as Hz by (rewrite Ev, zlen_cons; lia).
  destruct (Hrec ds Hds ltac:(lia) s) as (inner&s'&E&Hc). unfold and_also. rewrite E, some_bind. eexists _, s'. split; [done|]. apply chunk_intro; [done|apply Forall_app; split; [apply le_bytes_ok|apply Hc]|].
  intros tail fuel Hf. rewrite length_app in Hf. rewrite decode_chunk_header by by apply chunk_count_fits. rewrite <-app_assoc, read_i64_app by done. cbn [and_then]. rewrite (inner_ok inner ds) by (done || lia). cbn [and_then]. unfold check_count. rewrite (proj2 (Z.eqb_eq _ _)) by lia.
  cbn [and_then]. by rewrite Hu, Ev.
Qed.

Lemma rle_ok : outcome Rle (encode_body rec Rle values depth (head Rle)).
Proof.
  intros s. cbn [encode_body]. destruct (runs_ok values) as (rv&rl&->&Hl&Hs&Hp&Hin&Hne). rewrite some_bind. destruct rv as [|r0 rv0] eqn:Er.
  { eexists _, s. split; [done|]. intros H. by apply Hne in H. }
  rewrite <-Er in *. clear Er. assert (Forall (λ n, 0 ≤ n) rl) as Hp0 by (eapply Forall_impl; [exact Hp|]; cbn; lia). pose proof (spread_len rv rl Hl Hp0) as Hsum. rewrite Hs in Hsum.
  assert (zlen rl ≤ foldr Z.add 0 rl ∧ Forall (λ n, n ≤ foldr Z.add 0 rl) rl) as [Hlen Hle].
  { clear -Hp. induction Hp as [|x l Hx Hp [IH1 IH2]]; [done|]. cbn [foldr]. rewrite zlen_cons. assert (0 ≤ foldr Z.add 0 l) by (pose proof (zlen_nonneg l); lia). split; [lia|]. constructor; [lia|]. eapply Forall_impl; [exact IH2|]. cbn. lia. }
  assert (i64s rv) as Hrv by (apply Forall_forall; intros x Hx; rewrite Forall_forall in Hi; by apply Hi, Hin).
  assert (i64s rl) as Hrl by (apply Forall_forall; intros x Hx; rewrite Forall_forall in Hp0, Hle; specialize (Hp0 x Hx); specialize (Hle x Hx); unfold i64_ok; lia).
  assert (zlen rv = zlen rl) as Hz by (unfold zlen; lia). destruct (Hrec rv Hrv ltac:(lia) s) as (a&s1&Ea&Ha). destruct (Hrec rl Hrl ltac:(lia) s1) as (b&s2&Eb&Hb). unfold and_also. rewrite Ea, some_bind, Eb, some_bind. eexists _, s2. split; [done|].
  apply chunk_intro; [done|apply Forall_app; split; [apply Ha|apply Hb]|]. intros tail fuel Hf. rewrite length_app in Hf. rewrite decode_chunk_header by by apply chunk_count_fits. rewrite <-app_assoc, (inner_ok a rv) by (done || lia). cbn [and_then].
  rewrite (inner_ok b rl) by (done || lia). cbn [and_then]. rewrite expanded_ok by done. cbn [and_then]. by rewrite Hs.
Qed.

Lemma dict_ok : outcome Dict (encode_body rec Dict values depth (head Dict)).
Proof.
  intros s. cbn [encode_body]. destruct (distinct_values_ok values) as [_ Hin]. pose proof (distinct_values_len values) as Hlen. destruct (distinct_values values) as [|d0 ds] eqn:Ed.
  { eexists _, s. split; [done|]. intros H. destruct values as [|v rest]; [done|]. assert (v ∈ ([] : list Z)) as []%elem_of_nil. apply Hin. set_solver. }
  set (dictionary := d0 :: ds) in *. destruct (codes_over_ok values dictionary) as (codes&->&Hz&Hc&Hback); [intros x; by apply Hin|]. rewrite some_bind.
  assert (i64s dictionary) as Hd by (apply Forall_forall; intros x Hx; rewrite Forall_forall in Hi; by apply Hi, Hin). assert (i64s codes) as Hci by (eapply Forall_impl; [exact Hc|]; cbn; intros x Hx; unfold i64_ok; lia).
  destruct (Hrec dictionary Hd ltac:(lia) s) as (a&s1&Ea&Ha). destruct (Hrec codes Hci ltac:(lia) s1) as (b&s2&Eb&Hb). unfold and_also. rewrite Ea, some_bind, Eb, some_bind. eexists _, s2. split; [done|].
  apply chunk_intro; [done|apply Forall_app; split; [apply Ha|apply Hb]|]. intros tail fuel Hf. rewrite length_app in Hf. rewrite decode_chunk_header by by apply chunk_count_fits. rewrite <-app_assoc, (inner_ok a dictionary) by (done || lia). cbn [and_then].
  rewrite (inner_ok b codes) by (done || lia). cbn [and_then]. rewrite Hback. cbn [and_then app]. unfold check_count. by rewrite Z.eqb_refl.
Qed.

Lemma sparse_ok : outcome Sparse (encode_body rec Sparse values depth (head Sparse)).
Proof.
  intros s. cbn [encode_body]. destruct (spread_of_ok values) as (d&most&->&Hsome&Hmost). rewrite some_bind. destruct (match majority values with Some m => Some m | None => most end) as [[value c]|] eqn:Em.
  2: { eexists _, s. split; [done|]. intros Hne. destruct (majority values); [done|]. rewrite Em in Hsome. by destruct (Hsome Hne). }
  assert (value ∈ values) as Hv by (destruct (majority values) as [[m k]|] eqn:Hm; [injection Em as -> _; by eapply majority_in|by eapply Hmost]). assert (i64_ok value) as Hvi by (rewrite Forall_forall in Hi; by apply Hi).
  pose proof (exceptions_ok value values 0) as Hx. destruct (exceptions_of value 0 values) as [positions exceptions]. destruct Hx as (H1&H2&H3&H4&H5). rewrite (proj2 (Z.leb_gt (2 ^ 32) _)) by lia.
  assert (i64s positions) as Hp by (eapply Forall_impl; [exact H3|]; cbn; intros x Hx; unfold i64_ok; lia). assert (i64s exceptions) as He by (apply Forall_forall; intros x Hx; rewrite Forall_forall in Hi; by apply Hi, H4).
  destruct (Hrec positions Hp ltac:(lia) s) as (a&s1&Ea&Ha). destruct (Hrec exceptions He ltac:(lia) s1) as (b&s2&Eb&Hb). unfold and_also. rewrite Ea, some_bind, Eb, some_bind. eexists _, s2. split; [done|].
  apply chunk_intro; [done| |].
  - apply Forall_app; split; [apply le_bytes_ok|]. apply Forall_app; split; [apply le_bytes_ok|]. apply Forall_app; split; [apply Ha|apply Hb].
  - intros tail fuel Hf. rewrite !length_app in Hf. rewrite decode_chunk_header by by apply chunk_count_fits. rewrite <-!app_assoc, read_i64_app by done. cbn [and_then]. rewrite read_u32_app by (apply chunk_count_fits; lia). cbn [and_then].
    rewrite (inner_ok a positions) by (done || lia). cbn [and_then]. rewrite (inner_ok b exceptions) by (done || lia). cbn [and_then]. rewrite <-H1, Z.eqb_refl. cbn [negb orb]. specialize (H5 [] (zlen values) ltac:(lia) ltac:(done) ltac:(lia)).
    cbn [app] in H5. unfold zlen at 2. rewrite Nat2Z.id, H5. done.
Qed.

Lemma strided_ok : outcome Strided (encode_body rec Strided values depth (head Strided)).
Proof.
  intros s. cbn [encode_body]. unfold stride_of, applies. destruct (least values) as [base|] eqn:El.
  2: { rewrite some_bind. eexists _, s. split; [done|]. intros [Hne _]. destruct (least_ok values Hne) as (m&Hm&_). congruence. }
  unfold stride_from. destruct (stride_loop_ok values base 0) as (r&Er&Hr); [done|]. rewrite Er, some_bind. destruct r as [g|]; [|eexists _, s; split; [done|]; intros [_ [g Hg]]; unfold stride_of in Hg; rewrite El in Hg; unfold stride_from in Hg; congruence].
  destruct (Hr g eq_refl) as (Hg&Hgf&_&Hd). destruct (steps_of_ok values base g Hg Hi Hd) as (st&->&Hz&Hst&Hback). assert (i64_ok base) as Hb.
  { destruct values as [|v rest] eqn:Ev; [done|]. destruct (least_ok (v :: rest)) as (m&Hm&Hin&_); [done|]. rewrite El in Hm. injection Hm as <-. rewrite Forall_forall in Hi. by apply Hi. }
  destruct (Hrec st Hst ltac:(lia) s) as (inner&s'&E&Hc). unfold and_also. rewrite E, some_bind. eexists _, s'. split; [done|]. apply chunk_intro; [done| |].
  - apply Forall_app; split; [apply le_bytes_ok|]. apply Forall_app; split; [apply le_bytes_ok|apply Hc].
  - intros tail fuel Hf. rewrite !length_app in Hf. rewrite decode_chunk_header by by apply chunk_count_fits. rewrite <-!app_assoc, read_i64_app by done. cbn [and_then]. rewrite read_u64_app by done. cbn [and_then]. rewrite (inner_ok inner st) by (done || lia). cbn [and_then].
    unfold check_count. rewrite (proj2 (Z.eqb_eq _ _)) by lia. cbn [and_then]. by rewrite Hback.
Qed.

Lemma encode_as_ok kind : outcome kind (encode_as rec kind values depth).
Proof.
  unfold encode_as. rewrite (proj2 (Z.leb_gt (2 ^ 32) _)) by done. destruct kind; [apply constant_ok|apply packed_ok|apply delta_ok|apply rle_ok|apply dict_ok|apply sparse_ok|apply strided_ok].
Qed.
End kinds.

(** * The cascade *)

Lemma elem_of_if {A} (b : bool) (x y : A) : x ∈ (if b then [y] else []) ↔ b = true ∧ x = y.
Proof. destruct b; set_solver. Qed.

Section cascade.
Context {St : Type} `{!Chooser St}.

Lemma delta_applies values p : (∀ x, x ∈ values → p_min p ≤ x ≤ p_max p) → (if match checked_sub (p_max p) (p_min p) with Some _ => true | None => false end then deltas_pay p values else deltas_fit values) = true → is_Some (deltas values).
Proof.
  intros Hr. destruct (checked_sub (p_max p) (p_min p)) as [w|] eqn:E; [|apply deltas_fit_Some]. intros _. apply checked_sub_Some in E as [-> Hw]. by eapply deltas_range.
Qed.

(** Every kind offered applies, packing is enough where the cascade ends, and none of it panics. *)
Lemma candidates_ok values depth (s : St) : ∃ offered, candidates values depth s = Some offered ∧ offered ≠ [] ∧ (∀ kind, kind ∈ offered → applies kind values) ∧ (MAX_DEPTH ≤ depth → offered = [Packed]).
Proof.
  unfold candidates. destruct (Z.leb_spec MAX_DEPTH depth) as [|Hdepth]; [eexists; split_and!; [done|done|by intros kind ->%list_elem_of_singleton|done]|].
  destruct (Profile_of values) as [p|] eqn:Ep; [|eexists; split_and!; [done|done|by intros kind ->%list_elem_of_singleton|lia]]. apply Profile_of_ok in Ep as (Hleast&Hrange&Hone&Hne).
  destruct (Z.eqb_spec (p_runs p) 1) as [Er|_]; [eexists; split_and!; [done|done|intros kind ->%list_elem_of_singleton; split; [done|by apply Hone]|lia]|].
  destruct (spread_of_ok values) as (d&b&->&_&_). rewrite some_bind. cbv beta iota. match goal with |- context [mbind _ (if ?c then Some ?t else Some false)] => assert (∃ dict, (if c then Some t else Some false) = Some dict) as [dict ->] by (destruct c; eauto) end. rewrite some_bind.
  destruct (stride_loop_ok values (p_min p) 0) as (r&Es&_); [done|]. unfold stride_from. rewrite Es, some_bind.
  match goal with |- context [mbind _ (if ?c then Some (bool_decide ?P) else Some false)] => assert (∃ strided, (if c then Some (bool_decide P) else Some false) = Some strided ∧ (strided = true → P)) as (strided&->&Hs) by (destruct c; eexists; split; [done|apply bool_decide_eq_true|done|done]) end.
  rewrite some_bind. eexists. split_and!; [done|done| |lia]. intros kind. rewrite !elem_of_app, list_elem_of_singleton, !elem_of_if; unfold applies.
  intros [->|[[[_ Hd]%andb_true_iff ->]|[[_ ->]|[[_ ->]|[[_ ->]|[[g ->]%Hs ->]]]]]]; [done|split; [done|by eapply delta_applies]|done|done|done|].
  split; [done|]. exists g. unfold stride_of, stride_from. by rewrite Hleast.
Qed.

(** The smallest of the kinds tried is one of them, and there is one when one of them applies. *)
Lemma best_loop_ok rec values depth kinds : i64s values → zlen values < 2 ^ 32 → (∀ kind, kind ∈ kinds → outcome (St:=St) values kind (encode_as rec kind values depth)) → ∀ best s, (∀ bytes, best = Some bytes → chunk_ok bytes values) →
  is_Some best ∨ (∃ kind, kind ∈ kinds ∧ applies kind values) → ∃ bytes s', best_loop rec kinds values depth best s = Some (Ok (Some bytes), s') ∧ chunk_ok bytes values.
Proof.
  intros Hi Hn. induction kinds as [|kind kinds IH]; intros Hk best s Hbest Hsome; cbn [best_loop].
  { destruct Hsome as [[bytes ->]|(kind&Hin&_)]; [|by apply elem_of_nil in Hin]. exists bytes, s. split; [done|by apply Hbest]. }
  destruct (Hk kind ltac:(set_solver) s) as (r&s'&E&Hr). unfold and_also. rewrite E, some_bind. apply IH; [intros k Hin; apply Hk; set_solver| |].
  - intros bytes. destruct r as [b|]; [|apply Hbest]. destruct best as [current|]; [|by intros [= <-]]. destruct (zlen b <? zlen current); [by intros [= <-]|apply Hbest].
  - destruct r as [b|].
    + left. destruct best as [current|]; [|by eexists]. destruct (zlen b <? zlen current); by eexists.
    + destruct Hsome as [Hs|(k&Hin&Ha)]; [by left|]. right. exists k. split; [|done]. apply elem_of_cons in Hin as [->|]; done.
Qed.

(** With a level of fuel for each that is left, a chunk of any values is written and reads back. *)
Lemma encode_at_ok `{!ChooserLaws St} fuel : ∀ values depth, i64s values → zlen values < 2 ^ 32 → depth ≤ MAX_DEPTH < depth + Z.of_nat fuel → encodes (St:=St) (encode_at fuel values depth) values.
Proof.
  induction fuel as [|fuel IH]; intros values depth Hi Hn Hf s; [lia|]. cbn [encode_at]. destruct (candidates_ok values depth s) as (offered&->&Hne&Happ&Hdeep). rewrite some_bind.
  pose proof (narrow_some values offered depth s Hne) as [Hn1 Hn2]. destruct (narrow_integers values offered depth s) as [narrowed s0]. cbn [fst] in *.
  destruct (best_loop_ok (encode_at fuel) values depth narrowed Hi Hn) with (best := @None (list Z)) (s := s0) as (bytes&s'&E&Hc); [|done| |unfold and_also; rewrite E, some_bind; by exists bytes, s'].
  - intros kind Hin. destruct (decide (MAX_DEPTH ≤ depth)) as [Hdep|]; [|apply encode_as_ok; [done..|]; intros inner Hin' Hn'; apply IH; [done..|lia]].
    apply Hn2 in Hin. rewrite (Hdeep Hdep) in Hin. apply list_elem_of_singleton in Hin as ->. unfold encode_as. rewrite (proj2 (Z.leb_gt (2 ^ 32) _)) by done. by apply packed_ok.
  - right. destruct narrowed as [|kind narrowed]; [done|]. exists kind. split; [set_solver|]. apply Happ, Hn2. set_solver.
Qed.
End cascade.

(** * Reading any bytes *)

Definition safe {A} (m : option (Result A)) (P : A → Prop) : Prop := ∃ r, m = Some r ∧ match r with Ok a => P a | Err _ => True end.

Lemma safe_ok {A} (a : A) (P : A → Prop) : P a → safe (Some (Ok a)) P.
Proof. intros H. by exists (Ok a). Qed.

Lemma safe_err {A} e (P : A → Prop) : safe (Some (Err e)) P.
Proof. by exists (Err e). Qed.

Lemma safe_then {A B} (m : option (Result A)) (f : A → option (Result B)) P Q : safe m P → (∀ a, P a → safe (f a) Q) → safe (and_then m f) Q.
Proof. intros (r&->&Hr) Hf. destruct r as [a|e]; [by apply Hf|apply safe_err]. Qed.

(** What is read, in order, and what is left. *)
Definition advanced (r : Reader) (n : Z) (rest : Reader) : Prop := bytes_ok rest ∧ zlen rest + n = zlen r.

Lemma read_bytes_safe n r : 0 ≤ n → bytes_ok r → safe (Some (read_bytes n r)) (λ '(bytes, rest), bytes_ok bytes ∧ zlen bytes = n ∧ advanced r n rest).
Proof.
  intros Hn Hr. unfold read_bytes. destruct (Z.ltb_spec (zlen r) n) as [|Hlen]; [apply safe_err|]. apply safe_ok. split_and!; [by apply Forall_take|unfold zlen in *; rewrite length_take; lia|].
  split; [by apply Forall_drop|unfold zlen in *; rewrite length_drop; lia].
Qed.

Lemma read_le_safe {A} n r (g : Z → A) : 0 ≤ n → bytes_ok r → safe (Some ('(bytes, r) ← read_bytes n r; Ok (g (le_val bytes), r))) (λ '(x, rest), (∃ v, fits (8 * n) v ∧ x = g v) ∧ advanced r n rest).
Proof.
  intros Hn Hr. destruct (read_bytes_safe n r Hn Hr) as (res&E&Hres). injection E as ->. destruct res as [[bytes rest]|e]; [|apply safe_err]. destruct Hres as (Hb&<-&Ha). apply safe_ok. split; [|done].
  exists (le_val bytes). split; [by apply le_val_fits|done].
Qed.

Lemma read_u8_safe r : bytes_ok r → safe (Some (read_u8 r)) (λ '(x, rest), fits 8 x ∧ advanced r 1 rest).
Proof. intros Hr. destruct (read_le_safe 1 r id) as (res&E&H); [lia|done|]. exists res. split; [exact E|]. destruct res as [[x rest]|]; [|done]. destruct H as ((v&Hv&->)&Ha). done. Qed.

Lemma read_u32_safe r : bytes_ok r → safe (Some (read_u32 r)) (λ '(x, rest), fits 32 x ∧ advanced r 4 rest).
Proof. intros Hr. destruct (read_le_safe 4 r id) as (res&E&H); [lia|done|]. exists res. split; [exact E|]. destruct res as [[x rest]|]; [|done]. destruct H as ((v&Hv&->)&Ha). done. Qed.

Lemma read_u64_safe r : bytes_ok r → safe (Some (read_u64 r)) (λ '(x, rest), fits 64 x ∧ advanced r 8 rest).
Proof. intros Hr. destruct (read_le_safe 8 r id) as (res&E&H); [lia|done|]. exists res. split; [exact E|]. destruct res as [[x rest]|]; [|done]. destruct H as ((v&Hv&->)&Ha). done. Qed.

Lemma read_i64_safe r : bytes_ok r → safe (Some (read_i64 r)) (λ '(x, rest), i64_ok x ∧ advanced r 8 rest).
Proof. intros Hr. destruct (read_le_safe 8 r to_i64) as (res&E&H); [lia|done|]. exists res. split; [exact E|]. destruct res as [[x rest]|]; [|done]. destruct H as ((v&Hv&->)&Ha). split; [apply to_i64_ok|done]. Qed.

Lemma has_all {A} (l : list A) (P : A → Prop) : (∀ i, 0 ≤ i < zlen l → ∃ x, has l i x ∧ P x) → Forall P l.
Proof.
  intros H. apply Forall_lookup. intros i x Hx. destruct (H (Z.of_nat i)) as (y&Hy&Hp); [apply lookup_lt_Some in Hx; unfold zlen; lia|]. unfold has in Hy. rewrite Nat2Z.id, Hx in Hy. by injection Hy as ->.
Qed.

(** A unit of any bytes. *)
Lemma unit_safe bytes width base (into : list Z) : bytes_ok bytes → fits 8 width → zlen into = VALUES → safe (unpack_unit_into bytes width into (λ offset, value_from offset base)) i64s.
Proof.
  intros Hb Hw Hi. destruct (Z.le_gt_cases width 64) as [Hle|Hgt].
  2: { unfold unpack_unit_into, check_width. rewrite (proj2 (Z.leb_gt width (WIDTH U64))) by done. apply safe_err. }
  destruct (decide (zlen bytes = unit_len width)) as [E|E].
  - destruct (unpack_unit_values bytes width (λ offset, value_from offset base) into) as (out&->&Ho); [unfold fits in Hw; lia|done..|]. apply safe_ok, has_all. intros i Hi'. pose proof (proj1 Ho). eexists. split; [eapply unit_values_at; [exact Ho|lia]|apply to_i64_ok].
  - unfold unpack_unit_into. rewrite (vector_len_ok into) by done. unfold check_width. rewrite (proj2 (Z.leb_le width (WIDTH U64))) by done. cbn [and_then]. rewrite (proj2 (Z.eqb_neq _ _) E). apply safe_err.
Qed.

Lemma tail_safe bytes width base (into : list Z) : bytes_ok bytes → fits 8 width → zlen into < VALUES → zlen bytes = tail_len (zlen into) width → safe (unpack_tail_into bytes width into (λ offset, value_from offset base)) i64s.
Proof.
  intros Hb Hw Hi Hl. destruct (Z.le_gt_cases width 64) as [Hle|Hgt].
  2: { unfold unpack_tail_into, check_tail. rewrite (proj2 (Z.leb_gt VALUES (zlen into))), (proj2 (Z.ltb_lt 64 width)) by done. apply safe_err. }
  destruct (unpack_tail_into_ok bytes width into (λ offset, value_from offset base)) as (out&->&Ho&Hh); [done|unfold fits in Hw; lia|done| |].
  - pose proof (zlen_nonneg into). apply div_ceil_le; [unfold fits in Hw; nia|]. unfold tail_len in Hl. lia.
  - apply safe_ok, has_all. intros i Hi'. eexists. split; [apply Hh; lia|apply to_i64_ok].
Qed.

Definition decoded (r : Reader) (n : Z) : list Z * Reader → Prop := λ '(values, rest), i64s values ∧ bytes_ok rest ∧ zlen rest + n ≤ zlen r.

Lemma packed_loop_safe fuel : ∀ left_ r values, 0 ≤ left_ ≤ VALUES * (Z.of_nat fuel - 1) → bytes_ok r → i64s values → safe (packed_loop fuel left_ r values) (decoded r 0).
Proof.
  induction fuel as [|fuel IH]; intros left_ r values Hf Hr Hv; [unfold VALUES in *; lia|]. cbn [packed_loop]. destruct (Z.leb_spec left_ 0) as [|Hpos]; [apply safe_ok; split_and!; (done || lia)|].
  eapply safe_then; [by apply read_i64_safe|]. intros [base r1] (Hbase&Hr1&Hz1). eapply safe_then; [by apply read_u8_safe|]. intros [width r2] (Hw&Hr2&Hz2).
  set (wanted := Z.min left_ VALUES). assert (0 < wanted ≤ VALUES ∧ wanted ≤ left_) as [Hwant Hle] by (unfold wanted, VALUES; lia). assert (zlen (replicate (Z.to_nat wanted) 0) = wanted) as Hinto by (unfold zlen; rewrite length_replicate; lia).
  eapply (safe_then _ _ (decoded r2 0)).
  - destruct (Z.eqb_spec wanted VALUES) as [E|E].
    + eapply safe_then; [apply read_bytes_safe; [unfold unit_len, packed_len, fits in *; change (LANES U64) with 16; lia|done]|]. intros [bytes r3] (Hb&Hl&Hr3&Hz3). eapply safe_then; [apply unit_safe; [done|done|lia]|]. intros unit_ Hu. apply safe_ok. split_and!; [done..|]. pose proof (zlen_nonneg bytes). lia.
    + eapply safe_then; [apply read_bytes_safe; [apply Z.div_pos; [unfold fits in Hw; nia|lia]|done]|]. intros [bytes r3] (Hb&Hl&Hr3&Hz3). eapply safe_then; [apply tail_safe; [done|done|lia|by rewrite Hinto]|]. intros unit_ Hu. apply safe_ok. split_and!; [done..|]. pose proof (zlen_nonneg bytes). lia.
  - intros [unit_ r3] (Hu&Hr3&Hz3). destruct (IH (left_ - wanted) r3 (values ++ unit_)) as (res&->&Hres); [unfold wanted, VALUES in *; lia|done|by apply Forall_app|]. exists res. split; [done|]. destruct res as [[v r4]|]; [|done]. destruct Hres as (?&?&?). split_and!; [done..|lia].
Qed.

Lemma undelta_i64 values : ∀ first, i64_ok first → i64s (undelta first values).
Proof. induction values as [|v values IH]; intros first Hf; cbn [undelta]; constructor; [done|constructor|done|apply IH, to_i64_ok]. Qed.

Lemma dict_loop_safe dictionary codes : ∀ values, i64s dictionary → i64s values → safe (Some (dict_loop dictionary codes values)) i64s.
Proof.
  induction codes as [|code codes IH]; intros values Hd Hv; cbn [dict_loop]; [by apply safe_ok|]. destruct (code <? 0); [apply safe_err|]. destruct (get dictionary code) as [value|] eqn:E; [|apply safe_err].
  apply IH; [done|]. apply Forall_app. split; [done|]. constructor; [|done]. unfold get in E. destruct (_ && _); [|done]. rewrite Forall_lookup in Hd. by eapply Hd.
Qed.

Lemma sparse_loop_safe count positions : ∀ exceptions values, zlen values = count → i64s exceptions → i64s values → safe (sparse_loop count positions exceptions values) i64s.
Proof.
  induction positions as [|p positions IH]; intros [|e exceptions] values Hc He Hv; cbn [sparse_loop]; [by apply safe_ok..|]. destruct (Z.ltb_spec p 0); [apply safe_err|]. destruct (Z.leb_spec count p); [apply safe_err|]. cbn [orb].
  rewrite slot_put_ok by lia. rewrite some_bind. apply Forall_cons in He as [He0 He]. apply IH; [by rewrite zlen_insert|done|]. by apply Forall_insert.
Qed.

Lemma strided_safe steps stride base : safe (Some (strided steps stride base)) i64s.
Proof. unfold strided. destruct (_ <? 0); [apply safe_err|]. apply safe_ok, Forall_fmap, Forall_true. intros x. apply to_i64_ok. Qed.

Lemma expanded_safe rv rl count : i64s rv → i64s rl → safe (expanded rv rl count) i64s.
Proof.
  intros Hv Hl. destruct (decide (length rv = length rl)) as [E|E].
  2: { unfold expanded. rewrite (proj2 (Z.eqb_neq (zlen rv) (zlen rl))) by (unfold zlen; lia). apply safe_err. }
  destruct (decide (foldl Z.lor 0 rl < 0)) as [Hs|Hs].
  { unfold expanded. rewrite (proj2 (Z.eqb_eq (zlen rv) (zlen rl))) by (unfold zlen; lia). cbn [negb]. rewrite (proj2 (Z.ltb_lt _ _) Hs). apply safe_err. }
  assert (Forall (λ n, 0 ≤ n) rl) as Hp. { apply Forall_forall. intros x Hx. destruct (decide (0 ≤ x)) as [|Hneg]; [done|]. exfalso. apply Hs, foldl_lor_neg. right. apply Exists_exists. exists x. split; [done|lia]. }
  destruct (decide (foldr Z.add 0 rl = count)) as [Hc|Hc].
  - rewrite expanded_ok by done. apply safe_ok. unfold spread. apply Forall_concat, Forall_fmap, Forall_forall. intros [v n] Hin. apply Forall_replicate. rewrite Forall_forall in Hv. apply Hv. by eapply elem_of_zip_l.
  - unfold expanded. rewrite (proj2 (Z.eqb_eq (zlen rv) (zlen rl))) by (unfold zlen; lia). cbn [negb]. destruct (_ <? 0); [apply safe_err|]. rewrite foldl_sum by done. destruct (count <? _); [apply safe_err|]. unfold check_count. rewrite (proj2 (Z.eqb_neq _ _)) by lia. apply safe_err.
Qed.

Lemma check_count_safe a b : safe (Some (check_count a b)) (λ _, True).
Proof. unfold check_count. destruct (a =? b); [by apply safe_ok|apply safe_err]. Qed.

Lemma from_tag_safe t : safe (Some (from_tag t)) (λ _, True).
Proof. destruct (from_tag t); [by apply safe_ok|apply safe_err]. Qed.

(** Nothing the bytes say makes reading them panic, nor go deeper than there are bytes. *)
Lemma decode_chunk_safe fuel : ∀ r, (length r < fuel)%nat → bytes_ok r → safe (decode_chunk fuel r) (decoded r 5).
Proof.
  induction fuel as [|fuel IH]; intros r Hf Hr; [lia|]. cbn [decode_chunk]. eapply safe_then; [by apply read_u8_safe|]. intros [t r1] (_&Hr1&Hz1). eapply safe_then; [apply from_tag_safe|]. intros kind _.
  eapply safe_then; [by apply read_u32_safe|]. intros [count r2] (Hc&Hr2&Hz2). assert (Hin : ∀ r' n, advanced r2 n r' → 0 ≤ n → safe (decode_chunk fuel r') (decoded r' 5)) by (intros r' n [Hb Hz] Hn; apply IH; [unfold zlen in *; lia|done]).
  assert (Hend : ∀ values r', i64s values → bytes_ok r' → zlen r' ≤ zlen r2 → safe (Some (Ok (values, r'))) (decoded r 5)) by (intros values r' ???; apply safe_ok; split_and!; (done || lia)). destruct kind.
  - eapply safe_then; [by apply read_i64_safe|]. intros [v r3] (Hv&Hr3&Hz3). apply Hend; [by apply Forall_replicate|done|lia].
  - destruct (packed_loop_safe (S (Z.to_nat (div_ceil count VALUES))) count r2 []) as (res&->&Hres); [unfold fits, div_ceil, VALUES in *; pose proof (Z.div_mod (count + (1024 - 1)) 1024 ltac:(lia)); pose proof (Z.mod_pos_bound (count + (1024 - 1)) 1024 ltac:(lia)); lia|done|constructor|]. exists res. split; [done|]. destruct res as [[v r3]|]; [|done]. destruct Hres as (?&?&?). split_and!; [done..|lia].
  - eapply safe_then; [by apply read_i64_safe|]. intros [first r3] (Hv&Hr3&Hz3). eapply safe_then; [by eapply (Hin r3 8)|]. intros [ds r4] (Hd&Hr4&Hz4). eapply safe_then; [apply check_count_safe|]. intros _ _. apply Hend; [by apply undelta_i64|done|lia].
  - eapply safe_then; [apply (Hin r2 0); [split; [done|lia]|lia]|]. intros [rv r3] (Hv&Hr3&Hz3). eapply safe_then; [eapply (Hin r3 (zlen r2 - zlen r3)); [split; [done|lia]|lia]|]. intros [rl r4] (Hl&Hr4&Hz4). eapply safe_then; [by apply expanded_safe|]. intros values Hvs. apply Hend; [done|done|lia].
  - eapply safe_then; [apply (Hin r2 0); [split; [done|lia]|lia]|]. intros [rv r3] (Hv&Hr3&Hz3). eapply safe_then; [eapply (Hin r3 (zlen r2 - zlen r3)); [split; [done|lia]|lia]|]. intros [rl r4] (Hl&Hr4&Hz4). eapply safe_then; [by apply dict_loop_safe|]. intros values Hvs.
    eapply safe_then; [apply check_count_safe|]. intros _ _. apply Hend; [done|done|lia].
  - eapply safe_then; [by apply read_i64_safe|]. intros [v r3] (Hv&Hr3&Hz3). eapply safe_then; [by apply read_u32_safe|]. intros [n r4] (Hn&Hr4&Hz4). eapply safe_then; [eapply (Hin r4 12); [split; [done|lia]|lia]|]. intros [ps r5] (Hp&Hr5&Hz5).
    eapply safe_then; [eapply (Hin r5 (zlen r2 - zlen r5)); [split; [done|lia]|lia]|]. intros [es r6] (He&Hr6&Hz6). destruct (_ || _); [apply safe_err|]. eapply safe_then; [apply sparse_loop_safe; [|done|by apply Forall_replicate]|].
    + unfold zlen. rewrite length_replicate. unfold fits in Hc. lia.
    + intros values Hvs. apply Hend; [done|done|lia].
  - eapply safe_then; [by apply read_i64_safe|]. intros [base r3] (Hv&Hr3&Hz3). eapply safe_then; [by apply read_u64_safe|]. intros [n r4] (Hn&Hr4&Hz4). eapply safe_then; [eapply (Hin r4 16); [split; [done|lia]|lia]|]. intros [st r5] (Hp&Hr5&Hz5).
    eapply safe_then; [apply check_count_safe|]. intros _ _. eapply safe_then; [apply strided_safe|]. intros values Hvs. apply Hend; [done|done|lia].
Qed.

(** * Reading more *)

Lemma and_then_Ok {A B} (m : option (Result A)) (f : A → option (Result B)) b : and_then m f = Some (Ok b) → ∃ a, m = Some (Ok a) ∧ f a = Some (Ok b).
Proof. destruct m as [[a|e]|]; [eauto|done..]. Qed.

(** A read that succeeds does so again with more after it, which it leaves. *)
Definition leaves {A} (m m' : option (Result (A * Reader))) (x : Reader) : Prop := ∀ a r, m = Some (Ok (a, r)) → m' = Some (Ok (a, r ++ x)).

Lemma read_bytes_leaves n r x : leaves (Some (read_bytes n r)) (Some (read_bytes n (r ++ x))) x.
Proof.
  intros a r'. unfold read_bytes. destruct (Z.ltb_spec (zlen r) n) as [|Hlen]; [done|]. intros [= <- <-]. rewrite zlen_app. pose proof (zlen_nonneg x). rewrite (proj2 (Z.ltb_ge _ _)) by lia.
  unfold zlen in Hlen. by rewrite take_app_le, drop_app_le by lia.
Qed.

Lemma read_le_leaves {A} n r x (g : Z → A) : leaves (Some ('(bytes, r) ← read_bytes n r; Ok (g (le_val bytes), r))) (Some ('(bytes, r) ← read_bytes n (r ++ x); Ok (g (le_val bytes), r))) x.
Proof.
  intros a r' E. destruct (read_bytes n r) as [[b r1]|] eqn:Eb; [|done]. pose proof (read_bytes_leaves n r x b r1) as H. rewrite Eb in H. specialize (H eq_refl). injection H as ->. cbn in *. by injection E as <- <-.
Qed.

(** One read after another. *)
Lemma leaves_then {A B} (m m' : option (Result (A * Reader))) x (f f' : A * Reader → option (Result (B * Reader))) : leaves m m' x → (∀ a r, leaves (f (a, r)) (f' (a, r ++ x)) x) → leaves (and_then m f) (and_then m' f') x.
Proof. intros Hm Hf b r E. apply and_then_Ok in E as ([a r1]&Ea&Eb). rewrite (Hm _ _ Ea). cbn [and_then]. by apply Hf. Qed.

(** Something in between that reads nothing. *)
Lemma leaves_pure {A B} (m : option (Result A)) x (f f' : A → option (Result (B * Reader))) : (∀ a, leaves (f a) (f' a) x) → leaves (and_then m f) (and_then m f') x.
Proof. intros Hf b r E. apply and_then_Ok in E as (a&->&Eb). cbn [and_then]. by apply Hf. Qed.

Lemma leaves_done {A} (a : A) r x : leaves (Some (Ok (a, r))) (Some (Ok (a, r ++ x))) x.
Proof. intros b r'. by intros [= <- <-]. Qed.

Lemma read_u8_leaves r x : leaves (Some (read_u8 r)) (Some (read_u8 (r ++ x))) x.
Proof. apply (read_le_leaves 1 r x id). Qed.
Lemma read_u32_leaves r x : leaves (Some (read_u32 r)) (Some (read_u32 (r ++ x))) x.
Proof. apply (read_le_leaves 4 r x id). Qed.
Lemma read_u64_leaves r x : leaves (Some (read_u64 r)) (Some (read_u64 (r ++ x))) x.
Proof. apply (read_le_leaves 8 r x id). Qed.
Lemma read_i64_leaves r x : leaves (Some (read_i64 r)) (Some (read_i64 (r ++ x))) x.
Proof. apply (read_le_leaves 8 r x to_i64). Qed.

#[local] Hint Resolve read_bytes_leaves read_u8_leaves read_u32_leaves read_u64_leaves read_i64_leaves leaves_done : leaves.

Ltac leave := repeat first [apply leaves_done | by intros ?? | apply leaves_then; [by eauto with leaves|intros ??; cbv beta iota] | apply leaves_pure; intros ?; cbv beta iota | case_match ].

Lemma packed_loop_leaves fuel : ∀ left_ r values x, leaves (packed_loop fuel left_ r values) (packed_loop fuel left_ (r ++ x) values) x.
Proof.
  induction fuel as [|fuel IH]; intros left_ r values x; cbn [packed_loop]; [done|]. destruct (left_ <=? 0); [apply leaves_done|]. apply leaves_then; [auto with leaves|]. intros base r1. apply leaves_then; [auto with leaves|]. intros width r2. apply leaves_then.
  - destruct (_ =? VALUES); (apply leaves_then; [auto with leaves|intros bytes r3; apply leaves_pure; intros unit_; apply leaves_done]).
  - intros unit_ r3. apply IH.
Qed.

Lemma decode_chunk_leaves fuel : ∀ fuel' r x, (fuel ≤ fuel')%nat → leaves (decode_chunk fuel r) (decode_chunk fuel' (r ++ x)) x.
Proof.
  induction fuel as [|fuel IH]; intros [|fuel'] r x Hf; [done|done|lia|]. cbn [decode_chunk]. assert (Hin : ∀ r, leaves (decode_chunk fuel r) (decode_chunk fuel' (r ++ x)) x) by (intros r'; apply IH; lia). clear IH.
  apply leaves_then; [auto with leaves|intros t r1]. apply leaves_pure; intros kind. apply leaves_then; [auto with leaves|intros count r2]. destruct kind; leave. apply packed_loop_leaves.
Qed.

(** * Theorems *)

Lemma decode_safe bytes : bytes_ok bytes → safe (decode bytes) i64s.
Proof.
  intros Hb. unfold decode. eapply safe_then; [apply decode_chunk_safe; [lia|done]|]. intros [values r] (Hv&_). destruct (negb _); [apply safe_err|by apply safe_ok].
Qed.

Lemma decode_trailing bytes x values : x ≠ [] → decode bytes = Some (Ok values) → decode (bytes ++ x) = Some (Err (Internal "bytes left over after decoding a chunk")).
Proof.
  intros Hx. unfold decode. intros E. apply and_then_Ok in E as ([v r]&Ec&E). destruct (Z.eqb_spec (zlen r) 0) as [Hz|]; [|done]. apply (decode_chunk_leaves _ (S (length (bytes ++ x))) _ x) in Ec as ->; [|rewrite length_app; lia]. cbn [and_then].
  rewrite (proj2 (Z.eqb_neq _ _)); [done|]. rewrite zlen_app. destruct x as [|b x]; [done|]. rewrite zlen_cons. pose proof (zlen_nonneg x). lia.
Qed.

Lemma best_loop_least rec kinds values : ∀ best bytes, best_loop (St:=unit) rec kinds values 0 best () = Some (Ok (Some bytes), ()) →
  (∀ b, best = Some b → zlen bytes ≤ zlen b) ∧ ∀ kind b, kind ∈ kinds → encode_as rec kind values 0 () = Some (Ok (Some b), ()) → zlen bytes ≤ zlen b.
Proof.
  induction kinds as [|kind kinds IH]; intros best bytes; cbn [best_loop]; [intros [= ->]; split; [by intros b [= ->]|by intros ?? ?%elem_of_nil]|]. unfold and_also. destruct (encode_as rec kind values 0 ()) as [[[r|e] []]|] eqn:Ek; [|done..].
  rewrite some_bind. intros E. destruct (IH _ _ E) as [H1 H2]. split.
  - intros b ->. destruct r as [b'|]; [|by apply H1]. destruct (Z.ltb_spec (zlen b') (zlen b)); [|by apply H1]. specialize (H1 _ eq_refl). lia.
  - intros k b [->|Hin]%elem_of_cons Hk; [|by eapply H2]. rewrite Ek in Hk. injection Hk as ->. destruct best as [c|]; [|by apply H1]. destruct (Z.ltb_spec (zlen b) (zlen c)); [by apply H1|]. specialize (H1 _ eq_refl). lia.
Qed.

(** C10. Integers written by the cascade read back: whatever the chooser keeps, as long as it keeps some
    of what it is offered, encoding any chunk the format allows returns bytes, never an error, and decoding them gives the values. *)
Theorem integers_read_back {St} `{!Chooser St} `{!ChooserLaws St} (values : list Z) (s : St) : i64s values → zlen values < 2 ^ 32 →
  ∃ bytes s', encode_with values s = Some (Ok bytes, s') ∧ bytes_ok bytes ∧ decode bytes = Some (Ok values).
Proof.
  intros Hi Hn. destruct (encode_at_ok 4 values 0 Hi Hn ltac:(vm_compute; intuition congruence) s) as (bytes&s'&E&Hb&_&Hd). exists bytes, s'. split_and!; [done|done|]. unfold decode. specialize (Hd [] (S (length bytes)) ltac:(lia)).
  rewrite app_nil_r in Hd. by rewrite Hd.
Qed.

Lemma integers_read_back_witness : ∃ bytes s', encode_with [7; 7; -9; 7; 2 ^ 63 - 1] () = Some (Ok bytes, s') ∧ bytes_ok bytes ∧ decode bytes = Some (Ok [7; 7; -9; 7; 2 ^ 63 - 1]).
Proof. apply integers_read_back; [repeat constructor; unfold i64_ok; lia|done]. Defined.

(** C27. What the search keeps is the smallest: with every kind tried, the bytes of a chunk are no longer
    than those of any kind it was offered, the kind whose bytes they are among them. *)
Theorem integers_smallest (values : list Z) : i64s values → zlen values < 2 ^ 32 →
  ∃ offered bytes, candidates values 0 () = Some offered ∧ encode values = Some (Ok bytes) ∧ ∀ kind, kind ∈ offered → ∃ b, encode_as (encode_at 3) kind values 0 () = Some (Ok (Some b), ()) ∧ zlen bytes ≤ zlen b.
Proof.
  intros Hi Hn. destruct (encode_at_ok (St:=unit) 4 values 0 Hi Hn ltac:(vm_compute; intuition congruence) ()) as (bytes&[]&E&_). destruct (candidates_ok values 0 ()) as (offered&Ec&_&Happ&_). exists offered, bytes. split_and!; [done|unfold encode, encode_with; by rewrite E|].
  intros kind Hin. destruct (encode_as_ok (encode_at 3) values 0 Hi Hn) with (kind := kind) (s := ()) as (r&[]&Ek&Hr).
  { intros inner Hi' Hn'. apply encode_at_ok; [done|done|vm_compute; intuition congruence]. }
  destruct r as [b|]; [|by destruct Hr; apply Happ]. exists b. split; [done|]. change (encode_at 4 values 0 ()) with (offered ← candidates values 0 (); and_also (best_loop (encode_at 3) offered values 0 None) (λ best, match best with Some bytes => done bytes | None => lift (Some (Err (Internal "no encoding applied to the chunk"))) end) ()) in E.
  rewrite Ec, some_bind in E. unfold and_also in E.
  destruct (best_loop (encode_at 3) offered values 0 None ()) as [[[[b0|]|e] []]|] eqn:Eb; [|done..]. rewrite some_bind in E. injection E as ->. by eapply best_loop_least.
Qed.

Lemma integers_smallest_witness : ∃ offered bytes, candidates [5; 5; 5; 5; 9] 0 () = Some offered ∧ encode [5; 5; 5; 5; 9] = Some (Ok bytes) ∧ ∀ kind, kind ∈ offered → ∃ b, encode_as (encode_at 3) kind [5; 5; 5; 5; 9] 0 () = Some (Ok (Some b), ()) ∧ zlen bytes ≤ zlen b.
Proof. apply integers_smallest; [repeat constructor; unfold i64_ok; lia|done]. Defined.

(** C17. Any bytes are read or refused: decoding never panics, whatever tags, counts, widths, codes,
    positions and run lengths they hold, and what it returns are integers; bytes after a chunk are
    refused, and so is every shorter part of a chunk. *)
Theorem integers_any_bytes (bytes x : list Z) : bytes_ok bytes → bytes_ok x → (∃ r, decode bytes = Some r ∧ ∀ values, r = Ok values → i64s values)
  ∧ (x ≠ [] → (∀ values, decode bytes = Some (Ok values) → decode (bytes ++ x) = Some (Err (Internal "bytes left over after decoding a chunk"))) ∧ ∀ values, decode (bytes ++ x) = Some (Ok values) → ∃ e, decode bytes = Some (Err e)).
Proof.
  intros Hb Hx. destruct (decode_safe bytes Hb) as (r&E&Hr). split; [exists r; split; [done|]; by intros values ->|]. intros Hne. split; [intros values; by apply decode_trailing|]. intros values Ev. destruct r as [v|e]; [|by exists e].
  rewrite (decode_trailing bytes x v Hne E) in Ev. done.
Qed.

(** Two sevens, with a byte too many and with six too few. *)
Lemma integers_any_bytes_witness :
  decode ([0; 2; 0; 0; 0; 7; 0] ++ [0; 0; 0; 0; 0; 0]) = Some (Ok [7; 7])
  ∧ decode ([0; 2; 0; 0; 0; 7; 0; 0; 0; 0; 0; 0; 0] ++ [255]) = Some (Err (Internal "bytes left over after decoding a chunk"))
  ∧ ∃ e, decode [0; 2; 0; 0; 0; 7; 0] = Some (Err e).
Proof.
  assert (decode ([0; 2; 0; 0; 0; 7; 0] ++ [0; 0; 0; 0; 0; 0]) = Some (Ok [7; 7])) as E by by vm_compute. split; [exact E|]. split.
  - apply (integers_any_bytes [0; 2; 0; 0; 0; 7; 0; 0; 0; 0; 0; 0; 0] [255]) with (values := [7; 7]); [..|done|by vm_compute]; repeat (apply Forall_cons; split; [unfold fits; lia|]); apply Forall_nil_2.
  - apply (integers_any_bytes [0; 2; 0; 0; 0; 7; 0] [0; 0; 0; 0; 0; 0]) with (values := [7; 7]); [..|done|exact E]; repeat (apply Forall_cons; split; [unfold fits; lia|]); apply Forall_nil_2.
Defined.
